(* ===== verification/_CoqProject ===== *)
-Q . S2P
Prelude.v
Rune.v
Bytes.v
Styx.v
Heap.v
Block.v
Qio.v
AQueue.v
QioProof.v
QioOrder.v
QioConc.v
Dis.v
Load.v
DisProof.v
DisData.v
DisModule.v
Chan.v
ChanProof.v
ChanOps.v
ChanAlt.v
ChanVm.v
Str.v
StrProof.v
StrOps.v
Pool.v
PoolTree.v
PoolOps.v
PoolArena.v
PoolFree.v
PoolAlloc.v
PoolSpec.v
PoolAudit.v
Gc.v
GcPool.v
GcInv.v
GcToy.v
GcRun.v
GcFree.v
GcMark.v
GcSweep.v
GcOps.v
GcCalls.v
GcSafe.v
GcIdle.v
GcDone.v
GcDemo.v
Name.v
Ns.v
NsInv.v
NsOps.v
NsWalk.v
NsNamec.v
NsFd.v
NsTable.v
NsMount.v
NsGroup.v
NsCalls.v
NsResolve.v
NsUnion.v
NsToy.v
NsDemo.v
