(* ===== verification/Prelude.v ===== *)
(** * Inferno, Second Edition: a verification of its core

    Inferno runs Limbo programs on a virtual machine, Dis, inside an emulator
    ([src/emu], [src/interp]); programs are compiled to Dis objects by the
    Limbo compiler ([src/limbo]), name things by files served over the Styx
    protocol, speak UTF, and move bytes between devices through queues of
    blocks.  This development models that core and proves it correct.

    ** The parts, and how they hang together

    - [Rune] models [src/lib9]: [chartorune], [runetochar], [fullrune],
      [utflen], [utfrune], [utfrrune] over byte memory, where a load past the
      bytes there are is [None].  A rune is read back from what is written,
      only the canonical encoding is accepted, the loops end.
    - [Bytes] and [Styx] model [src/emu/styx.c]: [convS2M] and [convM2S] as a
      writer and a reader of bytes, every message of [styx.h], and the machine
      independent directory entry.  The wire form of a message is a table;
      messages round trip, a strict prefix of one is answered with 0, arbitrary
      bytes are never read past the count given.
    - [Heap] is a store of blocks with [malloc] and [free], and a small
      separation logic for it (an instance of the Iris proof mode); [Block]
      models the blocks and chains of blocks of [src/emu/qio.c]: each routine
      with its result on the bytes of the chain and what is freed.
    - [Qio] models the queues of [qio.c] over that heap, sleeping included;
      [AQueue] is what a queue promises, a record of a list of byte strings and
      counters; [QioProof] shows that every operation refines it, with no fault
      and no leak; the framing of messages and the accounting of [q->len] are
      proved of [AQueue], the order of bytes in [QioOrder] of clients that run
      the operations of [Qio].  [QioConc] runs a reader and a writer by
      interleaved steps of [Sleep] and [Wakeup] ([src/emu/proc.c]), with the
      writer's unlocked [q->state |= Qflow] as one step or as the two it is.
    - [Dis] models the object writer of the compiler, [src/limbo/dis.c] and the
      end of [modcom]; [Load] models the loader, [parsemod] of
      [src/interp/load.c], as a parser with faults and errors.  [DisProof]
      (operands, instructions, descriptors, links) and [DisData] (the cache of
      the writer, the initial data) lead to [DisModule]: what the compiler
      writes the loader reads back; what the loader accepts is in order, and
      which of its index checks let faults through.
    - [Chan] models the run queue and the channels of the machine: [send] and
      [recv] of [src/interp/xec.c], [csendq], the passes of [alt] of
      [src/interp/alt.c], killing a process ([src/emu/dis.c]), freeing a channel
      ([src/interp/heap.c]), in a monad over a state of processes, channels,
      arrays of channels and memory.  [ChanProof] states the invariant and what
      keeps it, [ChanOps] the operations on one channel, [ChanAlt] the passes of
      [alt] against a list of guards, [ChanVm] the theorems.
    - [Str] models Limbo strings, [src/interp/string.c], with [destroy] and
      [movp]: counted objects of bytes or runes that cells of memory share,
      over an allocator that is an interface ([Str.Allocator]).  [StrProof]
      relates each operation to lists of characters; [StrOps] has the theorems.

    - [Pool] models the memory pools, [src/emu/alloc.c]: arenas from the host's
      [sbrk] (a parameter), blocks with boundary tags, the binary tree of free
      blocks by size with its rings, allocation, freeing, the audit.  Memory is
      words at byte addresses in the store of [Heap].  [PoolTree] and [PoolOps]
      relate the tree to a list of sizes in order ([pooladd], [pooldel], the
      search), [PoolArena] the arenas to lists of blocks, [PoolFree] and
      [PoolAlloc] prove [poolfree] and [poolalloc] against those, [PoolSpec]
      against what a client sees, a list of blocks with their contents;
      [PoolAudit] has [poolaudit] and [poolmax].

    - [Gc] models the memory of the machine, [src/interp/heap.c] and the
      collector of [src/interp/gc.c]: blocks with reference counts, colours and
      type descriptors (maps of pointers), [heap], [destroy], [initmem],
      [freeptrs], [addref], the instructions of [src/interp/xec.c] that move
      pointers, make frames, arrays, lists and adts, call and return, and the
      steps of the collector, [rungc], with the idle loop of
      [src/emu/dis.c].  The pool it allocates from is an interface,
      [Gc.HeapPool].  [GcPool] says what the words of its arenas look like,
      [GcInv] states the invariant (counts are exact, colours are consistent
      with the phase of the collector), [GcToy] is a machine to evaluate it on,
      [GcRun] a weakest precondition for the model, [GcFree] proves [destroy],
      [GcMark] and [GcSweep] the visits of the collector, [GcOps] and
      [GcCalls] the instructions, [GcSafe] the theorems on any run of the
      machine, [GcIdle] and [GcDone] that the collector ends its passes and
      frees what nothing refers to, [GcDemo] runs and witnesses.  The
      collector's test for a header ([okbhdr]) looks at one word: the model keeps
      the words that old headers and the program's data leave where it may look.

    - [Name] models how [src/emu/chan.c] takes a path apart ([skipslash],
      [nextelem], [nameok]) and shows that it splits it at the slashes.  [Ns]
      models the name space: channels and the mount table of [chan.c] ([newchan]
      and [cclose], [cmount], [cunmount], [domount], [undomount], [walk],
      [createdir], [namec]), the system calls of [src/emu/sysfile.c] over the
      table of descriptors ([newfd], [fdtochan], [fdclose]), and the groups of
      [src/emu/main.c] as [Sys_pctl] of [src/emu/inferno.c] copies, makes and
      leaves them; in a monad with errors ([waserror]) over the store of
      channels.  Drivers are an interface, [Ns.Devices], with laws in [NsOps].
      [NsInv] states the invariant (each channel has as many references as
      there are holders, and the tables are in shape), with a weakest
      precondition; [NsOps] has the channels, [NsWalk] walking through unions,
      [NsNamec] names, [NsFd] the descriptors, [NsUnion] reads of unions, [NsTable] what the
      mount table means, a map from files to lists of files, [NsMount] mounting
      and unmounting on it, [NsGroup] the groups; [NsCalls] puts the calls
      together to runs, [NsResolve] takes the tree of files the drivers serve as
      the reference for where names lead; [NsToy] is a small driver, [NsDemo]
      the theorems with runs of it.

    The parts meet where the program's do: [Styx] and [Str] use [Rune]'s
    encoding as [convM2S] and [string2c] do, [Load] reads exactly what [Dis]
    writes, [Qio] is built from the operations of [Block], [Name] and [Ns] take
    runes from paths with [Rune] and lengths from directory entries with [Styx].

    ** What the theorems show

    Round trips: runes, Styx messages and directory entries, constants and
    modules, strings and arrays of bytes, binding and unmounting.  Refinement:
    queues, strings, the writing of a long buffer, the memory allocator under any
    well-behaved client, names to files.  Equivalence: [alt] and the choice among the
    ready guards.  Invariants and types: the machine's queues and marks, the
    representation of strings, the length of queues, the pools and
    the audit that checks them, the references to channels.  Safety and bounds:
    memory that a program of the machine can reach is not freed, however
    instructions and steps of the collector are interleaved, as long as calls of
    modules find their data marked, the sizes of arrays do not wrap and the
    collector, where it resumes, finds the header of a block or no magic word
    ([GcSafe] has the conditions, and [GcDemo] a run that breaks the first, which
    the code allows); parsing of messages and modules, the store past a block.
    Liveness: the idle loop frees every block that cannot be reached; the
    wakeups of queues, those that are lost included.
    Errors and termination: illegal messages, index checks, the loops of the
    UTF routines and of the writer's cache.  Where the code does not do what it
    means to, the theorem states what it does do.

    ** Integers, fuel and faults

    Hosts are 32 bit: [int] and [long] have 32 bits, [short] 16, [vlong] 64;
    [wrapu] and [wraps] are the conversions, written where a store makes one.
    Loops that are not structural take fuel, and it is shown to be enough:
    [utflen] and its like take one more than the bytes there are, the loops of
    [Heap] a bound on the blocks, [alt] is structural in its guards,
    [poolalloc] tries at most twice, for a compaction is not repeated before
    something is freed.  [destroy] takes the depth of the nesting as the
    code does, and the sweep of the collector the blocks of an arena; the idle
    loop takes a number of rounds, and the theorem gives one that is enough for
    all larger ones.  [namec] and the parsing of its elements take one more than
    the bytes of the name, a read of a union one more than its members.  A load or
    store outside an object is a value of its own ([None], [Fault]), so that
    safety is a theorem and an overrun is visible.

    ** Not modelled

    Input and output (host files, devices, the network),
    the compilers to machine code, graphics and Tk, the native kernels of
    [src/os] (which hold variants of the modules modelled here), cryptography,
    mathematics, the front end of the Limbo compiler and the tool chain of
    [src/utils].  Of the parts modelled: the debugging printers of Styx,
    software interrupts of [proc.c], the cache of modules and the linking of
    [load.c], release and acquire of the machine by host processes and creation
    of Dis processes, conversion of strings to and from numbers;
    of the collector the overflow of a reference count, the counts of type
    descriptors, blocks that are immutable ([MAGIC_I]), the freeing of channels
    and the unloading of modules, growing the stack of a process (whether a frame
    fits is an argument);
    of the pools [malloc], [realloc] and [calloc], [poolread], and the theorems
    for a pool with a [move] routine (an example shows [poolcompact] leaving
    wrong tags); the locks of the pools, which every routine holds from end to
    end; of the name space [kmount] and the client of Styx behind it
    ([src/emu/devmnt.c]), [kpipe], the calls on unpacked directory entries
    ([kdirread] and its like), reads and writes that do not block, the paths that
    [devmnt] remembers of channels, process groups, locks (a call runs from end
    to end), and a host without memory, which the model has and the theorems
    exclude; whether another process is in a group is an argument of [Sys_pctl].
    The C library
    is not in the sources: [strncmp] and [memmove] are modelled as documented. *)

From stdpp Require Export base list gmap sets.
From Stdlib Require Export ZArith Lia Bool.

Declare Scope inferno_scope.
Delimit Scope inferno_scope with inf.

#[local] Open Scope Z_scope.

(** ** Machine integers

    The emulator's hosts are 32-bit: [int] and [long] are 32 bits, [short]
    is 16 bits, [vlong] is 64 bits.  A C integer is a [Z]; the conversion
    that a store to an object of the type performs is written out. *)

Definition wrapu (w z : Z) : Z := z mod 2 ^ w.
Definition wraps (w z : Z) : Z := (z + 2 ^ (w - 1)) mod 2 ^ w - 2 ^ (w - 1).

#[global] Arguments wrapu : simpl never.
#[global] Arguments wraps : simpl never.
#[global] Arguments Z.lor : simpl never.
#[global] Arguments Z.land : simpl never.
#[global] Arguments Z.shiftl : simpl never.
#[global] Arguments Z.shiftr : simpl never.

Abbreviation u8 := (wrapu 8).
Abbreviation u16 := (wrapu 16).
Abbreviation u32 := (wrapu 32).
Abbreviation u64 := (wrapu 64).
Abbreviation i8 := (wraps 8).
Abbreviation i16 := (wraps 16).
Abbreviation i32 := (wraps 32).
Abbreviation i64 := (wraps 64).

Lemma pow2_pos w : 0 <= w -> 0 < 2 ^ w.
Proof. intros. apply Z.pow_pos_nonneg; lia. Qed.

Lemma pow2_half w : 0 < w -> 2 ^ w = 2 * 2 ^ (w - 1).
Proof. intros. rewrite <- Z.pow_succ_r by lia. f_equal. lia. Qed.

Lemma wrapu_range w z : 0 <= w -> 0 <= wrapu w z < 2 ^ w.
Proof. intros. apply Z.mod_pos_bound, pow2_pos. done. Qed.

Lemma wrapu_id w z : 0 <= z < 2 ^ w -> wrapu w z = z.
Proof. intros. by apply Z.mod_small. Qed.

Lemma wraps_range w z : 0 < w -> - 2 ^ (w - 1) <= wraps w z < 2 ^ (w - 1).
Proof.
  intros Hw. unfold wraps. pose proof (pow2_half w Hw) as E.
  pose proof (Z.mod_pos_bound (z + 2 ^ (w - 1)) (2 ^ w) (pow2_pos w ltac:(lia))).
  lia.
Qed.

Lemma wraps_id w z : 0 < w -> - 2 ^ (w - 1) <= z < 2 ^ (w - 1) -> wraps w z = z.
Proof.
  intros Hw H. unfold wraps. pose proof (pow2_half w Hw).
  rewrite Z.mod_small; lia.
Qed.

Lemma wrapu_idem w z : 0 <= w -> wrapu w (wrapu w z) = wrapu w z.
Proof. intros. apply wrapu_id. by apply wrapu_range. Qed.

Lemma wraps_wrapu w z : 0 < w -> wraps w (wrapu w z) = wraps w z.
Proof.
  intros. unfold wraps, wrapu. rewrite Zplus_mod_idemp_l. done.
Qed.

Lemma wrapu_wraps w z : 0 < w -> wrapu w (wraps w z) = wrapu w z.
Proof.
  intros. unfold wraps, wrapu.
  rewrite Zminus_mod_idemp_l. f_equal. lia.
Qed.

(** Intermediate conversions of a sum do not matter. *)
Lemma wraps_add_l w a b : wraps w (wraps w a + b) = wraps w (a + b).
Proof.
  unfold wraps.
  replace ((a + 2 ^ (w - 1)) mod 2 ^ w - 2 ^ (w - 1) + b + 2 ^ (w - 1))
    with ((a + 2 ^ (w - 1)) mod 2 ^ w + b) by lia.
  rewrite Zplus_mod_idemp_l. f_equal. f_equal. lia.
Qed.

Lemma wraps_add_r w a b : wraps w (a + wraps w b) = wraps w (a + b).
Proof. by rewrite Z.add_comm, wraps_add_l, Z.add_comm. Qed.

Lemma wraps_sub_l w a b : wraps w (wraps w a - b) = wraps w (a - b).
Proof. apply wraps_add_l. Qed.

(** Truncation to a width is masking, which is how the code writes it. *)
Lemma wrapu_land w z : 0 <= w -> wrapu w z = Z.land z (Z.ones w).
Proof. intros. symmetry. by apply Z.land_ones. Qed.

(** [lia] with division and remainder by constants. *)
Ltac zlia := Z.div_mod_to_equations; lia.

(** ** Disjoint bit fields *)

(** The bits of [a] lie below [n], those of [b * 2^n] at or above it: or is
    addition. *)
Lemma lor_disjoint n a b :
  0 <= n -> 0 <= a < 2 ^ n -> Z.lor (b * 2 ^ n) a = b * 2 ^ n + a.
Proof.
  intros Hn Ha. rewrite <- Z.shiftl_mul_pow2 by done.
  assert (Z.land (b ≪ n) a = 0) as D.
  { apply Z.bits_inj'. intros i Hi. rewrite Z.land_spec, Z.bits_0.
    destruct (Z.ltb_spec i n).
    - by rewrite Z.shiftl_spec_low.
    - rewrite <- (Z.mod_small a (2 ^ n)) by done.
      rewrite Z.mod_pow2_bits_high by lia. by rewrite andb_false_r. }
  rewrite <- Z.lxor_lor by done. by rewrite <- Z.add_nocarry_lxor.
Qed.

Lemma lor_shiftl n a b :
  0 <= n -> 0 <= a < 2 ^ n -> Z.lor (Z.shiftl b n) a = b * 2 ^ n + a.
Proof. intros. rewrite Z.shiftl_mul_pow2 by done. by apply lor_disjoint. Qed.

(** ** Lists *)

Lemma take_min {A} n (l : list A) : take n l = take (Nat.min n (length l)) l.
Proof. by rewrite <- take_take, firstn_all. Qed.

(** ** Exhaustive checks over a byte *)

Definition all_below (n : Z) (f : Z -> bool) : bool := forallb f (seqZ 0 n).

Lemma all_below_spec n f :
  all_below n f = true -> forall b, 0 <= b < n -> f b = true.
Proof.
  unfold all_below. rewrite forallb_forall. intros H b Hb.
  apply H, list_elem_of_In, elem_of_seqZ. lia.
Qed.

Abbreviation is_byte b := (0 <= b < 256).
Abbreviation zlen s := (Z.of_nat (length s)).
Abbreviation bytes s := (Forall (fun b => is_byte b) s).

(** ** How often something occurs in a list *)

Definition occ (x : Z) (l : list Z) : nat := length (filter (fun y => y = x) l).

Lemma occ_app x l1 l2 : occ x (l1 ++ l2) = (occ x l1 + occ x l2)%nat.
Proof. unfold occ. by rewrite filter_app, length_app. Qed.

Lemma occ_cons x y l : occ x (y :: l) = ((if decide (y = x) then 1 else 0) + occ x l)%nat.
Proof. unfold occ. rewrite filter_cons. by destruct (decide (y = x)). Qed.

#[global] Instance occ_proper x : Proper ((≡ₚ) ==> eq) (occ x).
Proof. intros l l' E. unfold occ. by rewrite E. Qed.

Lemma occ_perm x l l' : l ≡ₚ l' -> occ x l = occ x l'.
Proof. intros H. by rewrite H. Qed.

Lemma occ_elem x l : (0 < occ x l)%nat <-> x ∈ l.
Proof.
  induction l as [| y l IH]; [split; [unfold occ; simpl; lia | by intros ?%not_elem_of_nil] |].
  rewrite occ_cons, elem_of_cons, <- IH. destruct (decide (y = x)); split; intros; [auto | lia | right; lia |].
  destruct H; [congruence | lia].
Qed.

Lemma occ_0 x l : occ x l = 0%nat <-> x ∉ l.
Proof. rewrite <- occ_elem. lia. Qed.
