(* ===== verification/Rune.v ===== *)
(** * Runes and UTF (lib9)

    [lib9/rune.c], [lib9/utflen.c], [lib9/utfrune.c], [lib9/utfrrune.c] and
    [lib9/runestrlen.c].  A [char*] is the list of the bytes in memory from
    the pointer on; reading past the end of that list is a fault ([None]).
    A [Rune] is an unsigned 16-bit integer. *)

From S2P Require Import Prelude.

#[local] Open Scope Z_scope.

Definition Bit1 := 7.
Definition Bitx := 6.
Definition Bit2 := 5.
Definition Bit3 := 4.
Definition Bit4 := 3.
Definition Tx := Z.lxor (Z.shiftl 1 (Bitx + 1) - 1) 0xFF.
Definition T2 := Z.lxor (Z.shiftl 1 (Bit2 + 1) - 1) 0xFF.
Definition T3 := Z.lxor (Z.shiftl 1 (Bit3 + 1) - 1) 0xFF.
Definition T4 := Z.lxor (Z.shiftl 1 (Bit4 + 1) - 1) 0xFF.
Definition Rune1 := Z.shiftl 1 (Bit1 + 0 * Bitx) - 1.
Definition Rune2 := Z.shiftl 1 (Bit2 + 1 * Bitx) - 1.
Definition Rune3 := Z.shiftl 1 (Bit3 + 2 * Bitx) - 1.
Definition Maskx := Z.shiftl 1 Bitx - 1.
Definition Testx := Z.lxor Maskx 0xFF.
Definition Runesync := 0x80.
Definition Runeself := 0x80.
Definition Runeerror := 0x80.
Definition Bad := Runeerror.
Definition UTFmax := 3.

(** [chartorune]: the rune stored through the pointer and the byte count. *)
Definition chartorune (str : list Z) : option (Z * Z) :=
  c ← str !! 0%nat;
  if c <? Tx then Some (c, 1) else
  c1 ← (fun b => Z.lxor b Tx) <$> str !! 1%nat;
  if negb (Z.land c1 Testx =? 0) then Some (Bad, 1) else
  if c <? T3 then
    if c <? T2 then Some (Bad, 1) else
    let l := Z.land (Z.lor (Z.shiftl c Bitx) c1) Rune2 in
    if l <=? Rune1 then Some (Bad, 1) else Some (u16 l, 2)
  else
  c2 ← (fun b => Z.lxor b Tx) <$> str !! 2%nat;
  if negb (Z.land c2 Testx =? 0) then Some (Bad, 1) else
  if c <? T4 then
    let l := Z.land (Z.lor (Z.shiftl (Z.lor (Z.shiftl c Bitx) c1) Bitx) c2) Rune3 in
    if l <=? Rune2 then Some (Bad, 1) else Some (u16 l, 3)
  else Some (Bad, 1).

(** [runetochar]: the bytes stored at [str]; the result is their number. *)
Definition runetochar (rune : Z) : list Z :=
  let c := rune in
  if c <=? Rune1 then [u8 c] else
  if c <=? Rune2 then
    [u8 (Z.lor T2 (Z.shiftr c (1 * Bitx))); u8 (Z.lor Tx (Z.land c Maskx))]
  else
    [u8 (Z.lor T3 (Z.shiftr c (2 * Bitx)));
     u8 (Z.lor Tx (Z.land (Z.shiftr c (1 * Bitx)) Maskx));
     u8 (Z.lor Tx (Z.land c Maskx))].

Definition runelen (c : Z) : Z :=
  if c <=? Rune1 then 1 else if c <=? Rune2 then 2 else 3.

Fixpoint runenlen (r : list Z) : Z :=
  match r with
  | [] => 0
  | c :: r =>
      (if c <=? Rune1 then 1 else if c <=? Rune2 then 2 else 3) + runenlen r
  end.

Definition fullrune (str : list Z) (n : Z) : option bool :=
  if 0 <? n then
    c ← str !! 0%nat;
    if c <? Tx then Some true
    else if (1 <? n) && ((c <? T3) || (2 <? n)) then Some true
    else Some false
  else Some false.

(** [utflen]; the loop consumes at least a byte a turn. *)
Fixpoint utflen_loop (fuel : nat) (s : list Z) (n : Z) : option Z :=
  match fuel with
  | O => None
  | S fuel =>
      c ← s !! 0%nat;
      if c <? Runeself then
        if c =? 0 then Some n else utflen_loop fuel (drop 1 s) (n + 1)
      else
        '(_, k) ← chartorune s;
        utflen_loop fuel (drop (Z.to_nat k) s) (n + 1)
  end.

Definition utflen (s : list Z) : option Z := utflen_loop (S (length s)) s 0.

(** [strchr] and [strrchr] of the C library; a pointer result is the offset
    into the string, [Some None] is the null pointer. *)
Fixpoint strchr_loop (s : list Z) (c : Z) (i : nat) : option (option nat) :=
  match s with
  | [] => None
  | b :: s =>
      if b =? c then Some (Some i)
      else if b =? 0 then Some None
      else strchr_loop s c (S i)
  end.

Definition strchr (s : list Z) (c : Z) : option (option nat) :=
  strchr_loop s (u8 c) 0.

Fixpoint strrchr_loop (s : list Z) (c : Z) (i : nat) (last : option nat)
  : option (option nat) :=
  match s with
  | [] => None
  | b :: s =>
      let last := if b =? c then Some i else last in
      if b =? 0 then Some last else strrchr_loop s c (S i) last
  end.

Definition strrchr (s : list Z) (c : Z) : option (option nat) :=
  strrchr_loop s (u8 c) 0 None.

(** [utfrune]: the loop carries the offset of [s] in the argument string. *)
Fixpoint utfrune_loop (fuel : nat) (s : list Z) (c : Z) (at_ : nat)
  : option (option nat) :=
  match fuel with
  | O => None
  | S fuel =>
      c1 ← s !! 0%nat;
      if c1 <? Runeself then
        if c1 =? 0 then Some None
        else if c1 =? c then Some (Some at_)
        else utfrune_loop fuel (drop 1 s) c (at_ + 1)
      else
        '(r, n) ← chartorune s;
        if r =? c then Some (Some at_)
        else utfrune_loop fuel (drop (Z.to_nat n) s) c (at_ + Z.to_nat n)
  end.

Definition utfrune (s : list Z) (c : Z) : option (option nat) :=
  if c <? Runesync then strchr s c
  else utfrune_loop (S (length s)) s c 0.

Fixpoint utfrrune_loop (fuel : nat) (s : list Z) (c : Z) (at_ : nat)
    (s1 : option nat) : option (option nat) :=
  match fuel with
  | O => None
  | S fuel =>
      c1 ← s !! 0%nat;
      if c1 <? Runeself then
        if c1 =? 0 then Some s1
        else
          let s1 := if c1 =? c then Some at_ else s1 in
          utfrrune_loop fuel (drop 1 s) c (at_ + 1) s1
      else
        '(r, n) ← chartorune s;
        let s1 := if r =? c then Some at_ else s1 in
        utfrrune_loop fuel (drop (Z.to_nat n) s) c (at_ + Z.to_nat n) s1
  end.

Definition utfrrune (s : list Z) (c : Z) : option (option nat) :=
  if c <? Runesync then strrchr s c
  else utfrrune_loop (S (length s)) s c 0 None.

Fixpoint runestrlen_loop (s : list Z) (i : Z) : option Z :=
  match s with
  | [] => None
  | r :: s => if r =? 0 then Some i else runestrlen_loop s (i + 1)
  end.

Definition runestrlen (s : list Z) : option Z := runestrlen_loop s 0.

(** ** The bit patterns as arithmetic *)

Lemma cont_bits b :
  is_byte b ->
  (Z.land (Z.lxor b 128) Testx =? 0) = (128 <=? b) && (b <? 192) /\
  (128 <= b < 192 -> Z.lxor b 128 = b - 128).
Proof.
  intros Hb.
  pose (f := fun b => eqb (Z.land (Z.lxor b 128) Testx =? 0) ((128 <=? b) && (b <? 192))
     && (negb ((128 <=? b) && (b <? 192)) || (Z.lxor b 128 =? b - 128))).
  assert (f b = true) as Hf by (apply (all_below_spec 256); [vm_compute; done | done]).
  subst f. cbn beta in Hf. apply andb_prop in Hf as [E1 E2].
  apply eqb_prop in E1. split; [done |]. intros.
  destruct (Z.leb_spec 128 b); [| lia]. destruct (Z.ltb_spec b 192); [| lia].
  cbn in E2. by apply Z.eqb_eq in E2.
Qed.

Lemma lead_bits x :
  0 <= x < 64 -> u8 (Z.lor Tx x) = 128 + x.
Proof.
  intros Hx. apply Z.eqb_eq. revert x Hx. apply all_below_spec. done.
Qed.

Lemma lead2_bits x :
  0 <= x < 32 -> u8 (Z.lor T2 x) = 192 + x.
Proof.
  intros Hx. apply Z.eqb_eq. revert x Hx. apply all_below_spec. done.
Qed.

Lemma lead3_bits x :
  0 <= x < 16 -> u8 (Z.lor T3 x) = 224 + x.
Proof.
  intros Hx. apply Z.eqb_eq. revert x Hx. apply all_below_spec. done.
Qed.

Lemma maskx_bits z : Z.land z Maskx = z mod 64.
Proof. change Maskx with (Z.ones 6). by rewrite Z.land_ones. Qed.

Lemma runetochar_arith r :
  0 <= r < 65536 ->
  runetochar r =
    if r <=? 127 then [r]
    else if r <=? 2047 then [192 + r / 64; 128 + r mod 64]
    else [224 + r / 4096; 128 + (r / 64) mod 64; 128 + r mod 64].
Proof.
  intros Hr. unfold runetochar.
  change Rune1 with 127. change Rune2 with 2047.
  change (1 * Bitx) with 6. change (2 * Bitx) with 12.
  rewrite !maskx_bits, !Z.shiftr_div_pow2 by lia.
  change (2 ^ 6) with 64. change (2 ^ 12) with 4096.
  assert (0 <= r mod 64 < 64) by (apply Z.mod_pos_bound; lia).
  assert (0 <= (r / 64) mod 64 < 64) by (apply Z.mod_pos_bound; lia).
  destruct (Z.leb_spec r 127).
  { rewrite wrapu_id by (change (2 ^ 8) with 256; lia). done. }
  destruct (Z.leb_spec r 2047).
  - assert (0 <= r / 64 < 32) by zlia. by rewrite lead2_bits, lead_bits.
  - assert (0 <= r / 4096 < 16) by zlia. by rewrite lead3_bits, !lead_bits.
Qed.

Definition is_cont (b : Z) : bool := (128 <=? b) && (b <? 192).

Lemma chartorune_arith s :
  Forall (fun b => is_byte b) s ->
  chartorune s =
    c ← s !! 0%nat;
    if c <? 128 then Some (c, 1) else
    b1 ← s !! 1%nat;
    if negb (is_cont b1) then Some (Bad, 1) else
    if c <? 224 then
      if c <? 192 then Some (Bad, 1) else
      let l := (c - 192) * 64 + (b1 - 128) in
      if l <=? 127 then Some (Bad, 1) else Some (l, 2)
    else
    b2 ← s !! 2%nat;
    if negb (is_cont b2) then Some (Bad, 1) else
    if c <? 240 then
      let l := (c - 224) * 4096 + (b1 - 128) * 64 + (b2 - 128) in
      if l <=? 2047 then Some (Bad, 1) else Some (l, 3)
    else Some (Bad, 1).
Proof.
  intros Hs. unfold chartorune.
  change Tx with 128. change T2 with 192. change T3 with 224. change T4 with 240.
  change Rune1 with 127. change Rune2 with (Z.ones 11). change Rune3 with (Z.ones 16).
  change Bitx with 6.
  destruct s as [|c s]; [done |]. inversion Hs as [|? ? Hc Hs']; subst. cbn.
  destruct (Z.ltb_spec c 128); [done |].
  destruct s as [|b1 s]; [done |]. inversion Hs' as [|? ? Hb1 Hs'']; subst. cbn.
  destruct (cont_bits b1 Hb1) as [-> E1]. fold (is_cont b1).
  destruct (is_cont b1) eqn:C1; [| done]. cbn.
  apply andb_prop in C1 as [L1%Z.leb_le U1%Z.ltb_lt].
  specialize (E1 ltac:(lia)).
  destruct (Z.ltb_spec c 224).
  - destruct (Z.ltb_spec c 192); [done |].
    rewrite E1, lor_shiftl, Z.land_ones by lia.
    change (2 ^ 6) with 64. change (2 ^ 11) with 2048.
    replace ((c * 64 + (b1 - 128)) mod 2048) with ((c - 192) * 64 + (b1 - 128)).
    2:{ apply (Z.mod_unique_pos _ _ 6); lia. }
    destruct (Z.leb_spec ((c - 192) * 64 + (b1 - 128)) 127); [done |].
    rewrite wrapu_id by (change (2 ^ 16) with 65536; lia). done.
  - destruct s as [|b2 s]; [done |]. inversion Hs'' as [|? ? Hb2 Hs''']; subst. cbn.
    destruct (cont_bits b2 Hb2) as [-> E2]. fold (is_cont b2).
    destruct (is_cont b2) eqn:C2; [| done]. cbn.
    apply andb_prop in C2 as [L2%Z.leb_le U2%Z.ltb_lt].
    specialize (E2 ltac:(lia)).
    destruct (Z.ltb_spec c 240); [| done].
    rewrite E1, E2, !lor_shiftl, Z.land_ones by lia.
    change (2 ^ 6) with 64. change (2 ^ 16) with 65536.
    replace (((c * 64 + (b1 - 128)) * 64 + (b2 - 128)) mod 65536)
      with ((c - 224) * 4096 + (b1 - 128) * 64 + (b2 - 128)).
    2:{ apply (Z.mod_unique_pos _ _ 14); lia. }
    rewrite wrapu_id by (change (2 ^ 16) with 65536; lia). done.
Qed.

(** ** Encodings of rune sequences *)

Abbreviation is_rune r := (0 <= r < 65536).

Definition encode (rs : list Z) : list Z := mbind runetochar rs.

(** The offset in [encode rs] at which rune [i] begins. *)
Definition runeoffset (rs : list Z) (i : nat) : nat := length (encode (take i rs)).

Lemma encode_cons r rs : encode (r :: rs) = runetochar r ++ encode rs.
Proof. done. Qed.

Lemma runetochar_bytes r : is_rune r -> bytes (runetochar r).
Proof.
  intros Hr. rewrite runetochar_arith by done.
  repeat case_match; repeat constructor; zlia.
Qed.

Lemma encode_bytes rs : Forall (fun r => is_rune r) rs -> bytes (encode rs).
Proof.
  induction 1; [constructor |]. rewrite encode_cons. apply Forall_app.
  auto using runetochar_bytes.
Qed.

Lemma runetochar_length r :
  is_rune r -> Z.of_nat (length (runetochar r)) = runelen r.
Proof.
  intros Hr. unfold runetochar, runelen. repeat case_match; done.
Qed.

Lemma chartorune_runetochar_app r rest :
  is_rune r -> bytes rest ->
  chartorune (runetochar r ++ rest) = Some (r, runelen r).
Proof.
  intros Hr Hrest. rewrite chartorune_arith.
  2:{ apply Forall_app. auto using runetochar_bytes. }
  rewrite runetochar_arith by done. unfold runelen.
  change Rune1 with 127. change Rune2 with 2047.
  destruct (Z.leb_spec r 127); cbn.
  { destruct (Z.ltb_spec r 128); [done | lia]. }
  destruct (Z.leb_spec r 2047); cbn; unfold is_cont.
  - repeat case_match; try zlia. repeat f_equal. zlia.
  - repeat case_match; try zlia. repeat f_equal. zlia.
Qed.

(** Every encoded rune takes at least one byte. *)
Lemma runetochar_cons r : exists b bs, runetochar r = b :: bs.
Proof. unfold runetochar. repeat case_match; eauto. Qed.

Lemma runelen_pos r : 1 <= runelen r <= 3.
Proof. unfold runelen. repeat case_match; lia. Qed.

(** The first byte tells a one-byte rune from the others. *)
Lemma runetochar_self r :
  0 <= r < Runeself -> runetochar r = [r].
Proof.
  unfold Runeself. intros Hr. rewrite runetochar_arith by lia.
  destruct (Z.leb_spec r 127); [done | lia].
Qed.

Lemma runetochar_multi r :
  is_rune r -> Runeself <= r -> Forall (fun b => Runeself <= b) (runetochar r).
Proof.
  unfold Runeself. intros Hr Hs. rewrite runetochar_arith by done.
  repeat case_match; repeat constructor; zlia.
Qed.

(** ** Decoding arbitrary bytes *)

Lemma runetochar_2 c b :
  192 <= c < 224 -> is_cont b = true -> 127 < (c - 192) * 64 + (b - 128) ->
  runetochar ((c - 192) * 64 + (b - 128)) = [c; b].
Proof.
  unfold is_cont. intros Hc Hb Hl. rewrite runetochar_arith by lia.
  repeat case_match; try lia. f_equal; [zlia | f_equal; zlia].
Qed.

Lemma runetochar_3 c b1 b2 :
  224 <= c < 240 -> is_cont b1 = true -> is_cont b2 = true ->
  2047 < (c - 224) * 4096 + (b1 - 128) * 64 + (b2 - 128) ->
  runetochar ((c - 224) * 4096 + (b1 - 128) * 64 + (b2 - 128)) = [c; b1; b2].
Proof.
  unfold is_cont. intros Hc Hb1 Hb2 Hl. rewrite runetochar_arith by lia.
  repeat case_match; try lia. f_equal; [zlia |]. f_equal; [zlia | f_equal; zlia].
Qed.

(** What [chartorune] can return: one byte marked bad, or the canonical
    encoding that is at the front of the memory. *)
Lemma chartorune_cases s r n :
  bytes s -> chartorune s = Some (r, n) ->
  (r = Bad /\ n = 1 /\ exists c s', s = c :: s' /\ Runeself <= c) \/
  (is_rune r /\ n = runelen r /\ exists s', s = runetochar r ++ s').
Proof.
  intros Hs. rewrite chartorune_arith by done.
  destruct s as [|c s]; [done |]. inversion Hs as [|? ? Hc Hs']; subst. cbn.
  destruct (Z.ltb_spec c 128).
  { intros [= <- <-]. right. rewrite runetochar_self by (unfold Runeself; lia).
    unfold runelen. change Rune1 with 127. destruct (Z.leb_spec c 127); [| lia].
    split_and!; [lia | lia | done | by exists s]. }
  assert (exists c0 s', c :: s = c0 :: s' /\ Runeself <= c0) as Hbad
    by (exists c, s; done).
  destruct s as [|b1 s]; [done |]. inversion Hs' as [|? ? Hb1 Hs'']; subst. cbn.
  destruct (is_cont b1) eqn:C1; [| intros [= <- <-]; by left]. cbn.
  pose proof C1 as C1'. unfold is_cont in C1'.
  destruct (Z.ltb_spec c 224).
  - destruct (Z.ltb_spec c 192); [intros [= <- <-]; by left |].
    destruct (Z.leb_spec ((c - 192) * 64 + (b1 - 128)) 127);
      intros [= <- <-]; [by left | right].
    rewrite runetochar_2 by (lia || done). unfold runelen.
    change Rune1 with 127. change Rune2 with 2047.
    repeat case_match; try lia. split_and!; [lia | lia | done | by exists s].
  - destruct s as [|b2 s]; [done |]. inversion Hs'' as [|? ? Hb2 Hs''']; subst. cbn.
    destruct (is_cont b2) eqn:C2; [| intros [= <- <-]; by left]. cbn.
    pose proof C2 as C2'. unfold is_cont in C2'.
    destruct (Z.ltb_spec c 240); [| intros [= <- <-]; by left].
    destruct (Z.leb_spec ((c - 224) * 4096 + (b1 - 128) * 64 + (b2 - 128)) 2047);
      intros [= <- <-]; [by left | right].
    rewrite runetochar_3 by (lia || done). unfold runelen.
    change Rune1 with 127. change Rune2 with 2047.
    repeat case_match; try lia. split_and!; [lia | lia | done | by exists s].
Qed.

(** No byte of the encoding of a non-zero rune is NUL. *)
Lemma runetochar_nonzero r : is_rune r -> r <> 0 -> 0 ∉ runetochar r.
Proof.
  intros Hr Hz. destruct (Z.ltb_spec r Runeself).
  - rewrite runetochar_self by lia. set_solver.
  - pose proof (runetochar_multi r Hr ltac:(lia)) as F.
    rewrite Forall_forall in F. intros Hin%F. unfold Runeself in *. lia.
Qed.

(** On a terminated string [chartorune] never reads past the terminator and
    leaves a terminated string. *)
Lemma chartorune_terminated c s :
  bytes (c :: s) -> c <> 0 -> 0 ∈ s ->
  exists r n, chartorune (c :: s) = Some (r, n) /\ 1 <= n <= 3 /\
    0 ∈ drop (Z.to_nat n) (c :: s).
Proof.
  intros Hs Hc Hz.
  assert (is_Some (chartorune (c :: s))) as [[r n] E].
  { rewrite chartorune_arith by done. cbn.
    destruct s as [|b1 s]; [by apply not_elem_of_nil in Hz |]. cbn.
    case_match; [eauto |]. case_match; [eauto |].
    case_match; [repeat case_match; eauto |].
    apply elem_of_cons in Hz as [<- | Hz]; [done |].
    destruct s as [|b2 s]; [by apply not_elem_of_nil in Hz |]. cbn.
    repeat case_match; eauto. }
  exists r, n. destruct (chartorune_cases _ _ _ Hs E)
    as [(-> & -> & _) | (Hr & -> & s' & Es)].
  { split; [done | split; [lia |]]. by change (Z.to_nat 1) with 1%nat. }
  split; [done |]. split; [apply runelen_pos |]. rewrite Es.
  rewrite <- runetochar_length, Nat2Z.id, drop_app_length by done.
  assert (0 ∈ runetochar r ++ s') as Hin by (rewrite <- Es; set_solver).
  apply elem_of_app in Hin as [Hin |]; [| done].
  destruct (decide (r = 0)) as [-> |].
  - rewrite runetochar_self in Es by (unfold Runeself; lia). cbn in Es. congruence.
  - by apply runetochar_nonzero in Hin.
Qed.

(** ** The properties of the UTF routines *)

(** C18. Every rune written by [runetochar] is read back by [chartorune],
    whatever follows it in memory; the two agree with [runelen] on the number
    of bytes, and [runenlen] is the total for a rune array. *)
Theorem rune_roundtrip (rs : list Z) (r : Z) (rest : list Z) :
  Forall (fun r => is_rune r) rs -> is_rune r -> bytes rest ->
  chartorune (runetochar r ++ rest) = Some (r, runelen r) /\
  Z.of_nat (length (runetochar r)) = runelen r /\
  runenlen rs = Z.of_nat (length (encode rs)).
Proof.
  intros Hrs Hr Hrest. split_and!.
  - by apply chartorune_runetochar_app.
  - by apply runetochar_length.
  - clear r rest Hr Hrest. induction Hrs as [|r rs Hr Hrs IH]; [done |].
    rewrite encode_cons, length_app, Nat2Z.inj_add, runetochar_length, <- IH by done.
    done.
Qed.

(** [chartorune] accepts only canonical UTF: when it does not report
    [Bad], the bytes it consumed are exactly those [runetochar] writes (so no
    overlong form is accepted); a byte it rejects is consumed alone and is not
    an ASCII character. *)
Theorem chartorune_canonical (s : list Z) (r n : Z) :
  bytes s -> chartorune s = Some (r, n) ->
  1 <= n <= UTFmax /\ is_rune r /\
  (take (Z.to_nat n) s = runetochar r \/
   (r = Bad /\ n = 1 /\ exists c s', s = c :: s' /\ Runeself <= c)).
Proof.
  intros Hs E. unfold UTFmax.
  destruct (chartorune_cases _ _ _ Hs E) as [(-> & -> & ?) | (Hr & -> & s' & ->)].
  - split; [lia |]. split; [unfold Bad, Runeerror; lia | by right].
  - pose proof (runelen_pos r). split; [lia |]. split; [done | left].
    by rewrite <- runetochar_length, Nat2Z.id, take_app_length.
Qed.

(** [fullrune(str, n)] keeps [chartorune] inside the buffer: when it says
    yes for the [n] bytes at hand, [chartorune] decodes reading only those
    bytes, and the result is the one it gives on the longer memory. *)
Theorem fullrune_safe (str : list Z) (n : Z) :
  bytes str -> 0 <= n <= Z.of_nat (length str) ->
  fullrune str n = Some true ->
  exists r k, chartorune (take (Z.to_nat n) str) = Some (r, k) /\
              chartorune str = Some (r, k) /\ k <= n.
Proof.
  intros Hb Hn. unfold fullrune. change Tx with 128. change T3 with 224.
  rewrite !chartorune_arith by (by try apply Forall_take).
  destruct (Z.ltb_spec 0 n); [| done].
  destruct str as [|c str]; [done |].
  destruct (Z.to_nat n) as [|m] eqn:Em; [lia |]. cbn.
  destruct (Z.ltb_spec c 128); [eauto 6 with lia |].
  destruct ((1 <? n) && ((c <? 224) || (2 <? n))) eqn:E; [| done]. intros _.
  destruct m as [|m]; [lia |].
  destruct str as [|b1 str]; [cbn in *; lia |]. cbn.
  destruct (is_cont b1); cbn; [| eauto 6 with lia].
  destruct (Z.ltb_spec c 224).
  { repeat case_match; eauto 6 with lia. }
  destruct m as [|m]; [lia |].
  destruct str as [|b2 str]; [cbn in *; lia |]. cbn.
  repeat case_match; eauto 6 with lia.
Qed.

Lemma runetochar_length_pos r : (0 < length (runetochar r))%nat.
Proof. destruct (runetochar_cons r) as (? & ? & ->). cbn. lia. Qed.

(** One turn of the scanning loops at the encoding of a non-zero rune. *)
Lemma scan_step (r : Z) (t : list Z) :
  is_rune r -> r <> 0 -> bytes t ->
  exists b, (runetochar r ++ t) !! 0%nat = Some b /\ b <> 0 /\
    (b < Runeself /\ b = r /\ drop 1 (runetochar r ++ t) = t /\
       length (runetochar r) = 1%nat \/
     Runeself <= b /\ Runeself <= r /\
       exists k, chartorune (runetochar r ++ t) = Some (r, k) /\
         Z.to_nat k = length (runetochar r) /\
         drop (Z.to_nat k) (runetochar r ++ t) = t).
Proof.
  intros Hr Hz Ht. destruct (runetochar_cons r) as (b & bs & Eb).
  exists b. split; [by rewrite Eb |].
  destruct (Z.ltb_spec r Runeself) as [Hself | Hself].
  - rewrite runetochar_self in * by lia. injection Eb as -> <-.
    split; [done | left]. by rewrite drop_0 || done.
  - pose proof (runetochar_multi r Hr Hself) as F. rewrite Eb in F.
    inversion F as [|? ? Hb _]; subst. split; [unfold Runeself in *; lia | right].
    split; [done |]. split; [done |]. exists (runelen r).
    rewrite chartorune_runetochar_app by done.
    rewrite <- runetochar_length, Nat2Z.id by done.
    by rewrite drop_app_length.
Qed.

Section Scan.
(** A terminated string holding the encoding of non-zero runes. *)
Variable rest : list Z.
Hypothesis Hrest : bytes rest.

Definition ztext (rs : list Z) : list Z := encode rs ++ 0 :: rest.
Definition zrunes (rs : list Z) : Prop := Forall (fun r => is_rune r /\ r <> 0) rs.

Lemma ztext_cons r rs : ztext (r :: rs) = runetochar r ++ ztext rs.
Proof. unfold ztext. by rewrite encode_cons, <- app_assoc. Qed.

Lemma ztext_bytes rs : zrunes rs -> bytes (ztext rs).
Proof.
  intros H. apply Forall_app. split; [| constructor; [lia | done]].
  apply encode_bytes. eapply Forall_impl; [done |]. by intros ? [].
Qed.

Lemma utflen_loop_ztext rs fuel n :
  zrunes rs -> (length (ztext rs) < fuel)%nat ->
  utflen_loop fuel (ztext rs) n = Some (n + Z.of_nat (length rs)).
Proof.
  intros Hrs. revert fuel n.
  induction Hrs as [|r rs [Hr Hz] Hrs IH]; intros [|fuel] n Hf; try (cbn in *; lia).
  { cbn. f_equal. lia. }
  rewrite ztext_cons in *. rewrite length_app in Hf.
  pose proof (runetochar_length_pos r).
  destruct (scan_step r (ztext rs)) as (b & E0 & Hb & H'); [done.. | by apply ztext_bytes |].
  cbn [utflen_loop]. rewrite E0. cbn [mbind option_bind].
  destruct H' as [(Hlt & -> & Ed & El) | (Hge & _ & k & Ec & Ek & Ed)].
  - destruct (Z.ltb_spec r Runeself); [| lia]. destruct (Z.eqb_spec r 0); [done |].
    rewrite Ed, IH by lia. f_equal. cbn [length]. lia.
  - destruct (Z.ltb_spec b Runeself); [lia |].
    rewrite Ec. cbn [mbind option_bind]. rewrite Ed, IH by lia.
    f_equal. cbn [length]. lia.
Qed.

(** The first and the last position of [c] in [rs], as byte offsets from
    [at_] on. *)
Fixpoint first_at (rs : list Z) (c : Z) (at_ : nat) : option nat :=
  match rs with
  | [] => None
  | r :: rs =>
      if r =? c then Some at_ else first_at rs c (at_ + length (runetochar r))
  end.

Fixpoint last_at (rs : list Z) (c : Z) (at_ : nat) (found : option nat) : option nat :=
  match rs with
  | [] => found
  | r :: rs =>
      last_at rs c (at_ + length (runetochar r))
        (if r =? c then Some at_ else found)
  end.

Lemma utfrune_loop_ztext rs c fuel at_ :
  zrunes rs -> Runesync <= c -> (length (ztext rs) < fuel)%nat ->
  utfrune_loop fuel (ztext rs) c at_ = Some (first_at rs c at_).
Proof.
  intros Hrs Hc. revert fuel at_.
  induction Hrs as [|r rs [Hr Hz] Hrs IH]; intros [|fuel] at_ Hf; try (cbn in *; lia).
  { done. }
  rewrite ztext_cons in *. rewrite length_app in Hf.
  pose proof (runetochar_length_pos r).
  destruct (scan_step r (ztext rs)) as (b & E0 & Hb & H'); [done.. | by apply ztext_bytes |].
  cbn [utfrune_loop first_at]. rewrite E0. cbn [mbind option_bind].
  destruct H' as [(Hlt & -> & Ed & El) | (Hge & _ & k & Ec & Ek & Ed)].
  - destruct (Z.ltb_spec r Runeself); [| lia]. destruct (Z.eqb_spec r 0); [done |].
    destruct (r =? c); [done |]. rewrite Ed, IH, El by lia. done.
  - destruct (Z.ltb_spec b Runeself); [lia |].
    rewrite Ec. cbn [mbind option_bind]. destruct (r =? c); [done |].
    rewrite Ed, IH, Ek by lia. done.
Qed.

Lemma utfrrune_loop_ztext rs c fuel at_ s1 :
  zrunes rs -> Runesync <= c -> (length (ztext rs) < fuel)%nat ->
  utfrrune_loop fuel (ztext rs) c at_ s1 = Some (last_at rs c at_ s1).
Proof.
  intros Hrs Hc. revert fuel at_ s1.
  induction Hrs as [|r rs [Hr Hz] Hrs IH]; intros [|fuel] at_ s1 Hf; try (cbn in *; lia).
  { done. }
  rewrite ztext_cons in *. rewrite length_app in Hf.
  pose proof (runetochar_length_pos r).
  destruct (scan_step r (ztext rs)) as (b & E0 & Hb & H'); [done.. | by apply ztext_bytes |].
  cbn [utfrrune_loop last_at]. rewrite E0. cbn [mbind option_bind].
  destruct H' as [(Hlt & -> & Ed & El) | (Hge & _ & k & Ec & Ek & Ed)].
  - destruct (Z.ltb_spec r Runeself); [| lia]. destruct (Z.eqb_spec r 0); [done |].
    rewrite Ed, IH, El by lia. done.
  - destruct (Z.ltb_spec b Runeself); [lia |].
    rewrite Ec. cbn [mbind option_bind].
    rewrite Ed, IH, Ek by lia. done.
Qed.

Lemma strchr_loop_skip bs t c i :
  c ∉ bs -> 0 ∉ bs ->
  strchr_loop (bs ++ t) c i = strchr_loop t c (i + length bs).
Proof.
  revert i. induction bs as [|b bs IH]; intros i Hc Hz; cbn.
  { f_equal. lia. }
  apply not_elem_of_cons in Hc as [Hc Hcs]. apply not_elem_of_cons in Hz as [Hz Hzs].
  destruct (Z.eqb_spec b c); [done |]. destruct (Z.eqb_spec b 0); [done |].
  rewrite IH by done. f_equal. lia.
Qed.

Lemma strrchr_loop_skip bs t c i last :
  c ∉ bs -> 0 ∉ bs ->
  strrchr_loop (bs ++ t) c i last = strrchr_loop t c (i + length bs) last.
Proof.
  revert i. induction bs as [|b bs IH]; intros i Hc Hz; cbn.
  { f_equal. lia. }
  apply not_elem_of_cons in Hc as [Hc Hcs]. apply not_elem_of_cons in Hz as [Hz Hzs].
  destruct (Z.eqb_spec b c); [done |]. destruct (Z.eqb_spec b 0); [done |].
  rewrite IH by done. f_equal. lia.
Qed.

(** An ASCII character is not part of the encoding of another rune. *)
Lemma runetochar_ascii r c :
  is_rune r -> 0 < c < Runesync -> r <> c -> c ∉ runetochar r.
Proof.
  unfold Runesync. intros Hr Hc Hne. destruct (Z.ltb_spec r Runeself).
  - rewrite runetochar_self by lia. set_solver.
  - pose proof (runetochar_multi r Hr ltac:(lia)) as F.
    rewrite Forall_forall in F. intros Hin%F. unfold Runeself in *. lia.
Qed.

Lemma strchr_loop_ztext rs c at_ :
  zrunes rs -> 0 < c < Runesync ->
  strchr_loop (ztext rs) c at_ = Some (first_at rs c at_).
Proof.
  intros Hrs Hc. revert at_. induction Hrs as [|r rs [Hr Hz] Hrs IH]; intros at_.
  { cbn [ztext encode mbind list_bind app strchr_loop].
    destruct (Z.eqb_spec 0 c); [lia | done]. }
  rewrite ztext_cons. cbn [first_at]. destruct (Z.eqb_spec r c) as [-> | Hne].
  - rewrite runetochar_self by (unfold Runeself, Runesync in *; lia). cbn.
    by rewrite Z.eqb_refl.
  - rewrite strchr_loop_skip by auto using runetochar_ascii, runetochar_nonzero. apply IH.
Qed.

Lemma strrchr_loop_ztext rs c at_ s1 :
  zrunes rs -> 0 < c < Runesync ->
  strrchr_loop (ztext rs) c at_ s1 = Some (last_at rs c at_ s1).
Proof.
  intros Hrs Hc. revert at_ s1. induction Hrs as [|r rs [Hr Hz] Hrs IH]; intros at_ s1.
  { cbn [ztext encode mbind list_bind app strrchr_loop].
    destruct (Z.eqb_spec 0 c); [lia | done]. }
  rewrite ztext_cons. cbn [last_at]. destruct (Z.eqb_spec r c) as [-> | Hne].
  - rewrite runetochar_self by (unfold Runeself, Runesync in *; lia). cbn.
    rewrite Z.eqb_refl. destruct (Z.eqb_spec c 0); [lia |].
    rewrite IH. do 2 f_equal. lia.
  - rewrite strrchr_loop_skip by auto using runetochar_ascii, runetochar_nonzero. apply IH.
Qed.
End Scan.

(** [first_at] is the offset of the first occurrence, [last_at] of the last. *)
Lemma first_at_spec rs c a :
  match first_at rs c a with
  | Some k => exists i, rs !! i = Some c /\ (forall j, (j < i)%nat -> rs !! j <> Some c) /\
                k = (a + runeoffset rs i)%nat
  | None => c ∉ rs
  end.
Proof.
  revert a. induction rs as [|r rs IH]; intros a; cbn; [set_solver |].
  destruct (Z.eqb_spec r c) as [-> | Hne].
  { exists 0%nat. split; [done |]. split; [lia |]. cbn. lia. }
  specialize (IH (a + length (runetochar r))%nat). destruct (first_at _ _ _).
  - destruct IH as (i & Hi & Hj & ->). exists (S i). split; [done |].
    split; [intros [|j] ?; [cbn; congruence | cbn; apply Hj; lia] |].
    unfold runeoffset. cbn [take]. rewrite encode_cons, length_app. lia.
  - set_solver.
Qed.

Lemma last_at_spec rs c a f :
  ((c ∉ rs) /\ last_at rs c a f = f) \/
  (exists i, rs !! i = Some c /\ (forall j, (i < j)%nat -> rs !! j <> Some c) /\
     last_at rs c a f = Some (a + runeoffset rs i)%nat).
Proof.
  revert a f. induction rs as [|r rs IH]; intros a f; cbn; [left; set_solver |].
  destruct (IH (a + length (runetochar r))%nat (if r =? c then Some a else f))
    as [[Hn ->] | (i & Hi & Hj & ->)].
  - destruct (Z.eqb_spec r c) as [-> | Hne]; [right | left; set_solver].
    exists 0%nat. split; [done |]. split.
    + intros [|j] Hj; [lia |]. cbn. intros E%list_elem_of_lookup_2. done.
    + f_equal. cbn. lia.
  - right. exists (S i). split; [done |].
    split; [intros [|j] ?; [lia | cbn; apply Hj; lia] |].
    f_equal. unfold runeoffset. cbn [take]. rewrite encode_cons, length_app. lia.
Qed.

Lemma utflen_loop_total s fuel n :
  bytes s -> 0 ∈ s -> (length s < fuel)%nat ->
  exists m, utflen_loop fuel s n = Some m /\ n <= m <= n + Z.of_nat (length s) - 1.
Proof.
  revert s n. induction fuel as [|fuel IH]; intros s n Hs Hz Hf; [lia |].
  destruct s as [|c s]; [by apply not_elem_of_nil in Hz |].
  cbn [utflen_loop]. change ((c :: s) !! 0%nat) with (Some c). cbn [mbind option_bind].
  destruct (Z.eqb_spec c 0) as [-> | Hc].
  { exists n. split; [done | cbn [length]; lia]. }
  apply elem_of_cons in Hz as [? | Hz]; [done |].
  destruct (Z.ltb_spec c Runeself).
  - change (drop 1 (c :: s)) with s. inversion Hs; subst.
    destruct (IH s (n + 1)) as (m & -> & ?); [done | done | cbn in *; lia |].
    exists m. split; [done | cbn [length]; lia].
  - destruct (chartorune_terminated c s Hs Hc Hz) as (r & k & -> & Hk & Hd).
    cbn [mbind option_bind]. destruct (IH (drop (Z.to_nat k) (c :: s)) (n + 1)) as (m & -> & Hm).
    + by apply Forall_drop.
    + done.
    + rewrite length_drop. cbn in *. lia.
    + exists m. split; [done |]. rewrite length_drop in Hm. cbn [length] in *. lia.
Qed.

(** [utflen] terminates inside every terminated string, counting no more
    runes than there are bytes, and on encoded text it counts the runes;
    [runestrlen] counts the same runes of the rune string. *)
Theorem utflen_correct (s rs rest : list Z) :
  bytes s -> 0 ∈ s -> bytes rest ->
  Forall (fun r => is_rune r /\ r <> 0) rs ->
  (exists m, utflen s = Some m /\ 0 <= m <= Z.of_nat (length s) - 1) /\
  utflen (encode rs ++ 0 :: rest) = Some (Z.of_nat (length rs)) /\
  runestrlen (rs ++ 0 :: rest) = Some (Z.of_nat (length rs)).
Proof.
  intros Hs Hz Hrest Hrs. split_and!.
  - apply (utflen_loop_total s (S (length s)) 0); auto.
  - unfold utflen. fold (ztext rest rs). rewrite utflen_loop_ztext by auto. done.
  - unfold runestrlen. change (Some (Z.of_nat (length rs))) with
      (Some (0 + Z.of_nat (length rs))). generalize 0 at 2 3 as i.
    clear Hs Hz. induction Hrs as [|r rs [_ Hr] _ IH]; intros i; cbn [app runestrlen_loop].
    { f_equal. cbn. lia. }
    destruct (Z.eqb_spec r 0); [done |]. rewrite IH. f_equal. cbn [length]. lia.
Qed.

(** On encoded text [utfrune] finds the byte offset of the first and
    [utfrrune] of the last occurrence of a character, ASCII or not, and
    neither finds a character that is not there. *)
Theorem utfrune_correct (rs rest : list Z) (c : Z) :
  bytes rest -> Forall (fun r => is_rune r /\ r <> 0) rs -> 0 < c ->
  let s := encode rs ++ 0 :: rest in
  (c ∉ rs -> utfrune s c = Some None /\ utfrrune s c = Some None) /\
  (c ∈ rs -> exists i j,
     utfrune s c = Some (Some (runeoffset rs i)) /\
     rs !! i = Some c /\ (forall k, (k < i)%nat -> rs !! k <> Some c) /\
     utfrrune s c = Some (Some (runeoffset rs j)) /\
     rs !! j = Some c /\ (forall k, (j < k)%nat -> rs !! k <> Some c)).
Proof.
  intros Hrest Hrs Hc s.
  assert (utfrune s c = Some (first_at rs c 0)) as ->.
  { unfold utfrune. destruct (Z.ltb_spec c Runesync).
    - unfold strchr. rewrite wrapu_id by (unfold Runesync in *; change (2 ^ 8) with 256; lia).
      by apply (strchr_loop_ztext rest).
    - apply (utfrune_loop_ztext rest); [done | done | done | unfold s, ztext; lia]. }
  assert (utfrrune s c = Some (last_at rs c 0 None)) as ->.
  { unfold utfrrune. destruct (Z.ltb_spec c Runesync).
    - unfold strrchr. rewrite wrapu_id by (unfold Runesync in *; change (2 ^ 8) with 256; lia).
      by apply (strrchr_loop_ztext rest).
    - apply (utfrrune_loop_ztext rest); [done | done | done | unfold s, ztext; lia]. }
  pose proof (first_at_spec rs c 0) as F. pose proof (last_at_spec rs c 0 None) as L.
  split.
  - intros Hn. destruct (first_at rs c 0).
    + destruct F as (i & Hi%list_elem_of_lookup_2 & _). done.
    + destruct L as [[_ ->] | (i & Hi%list_elem_of_lookup_2 & _)]; done.
  - intros Hin. destruct (first_at rs c 0); [| done].
    destruct F as (i & Hi & Hij & ->).
    destruct L as [[? _] | (j & Hj & Hjk & ->)]; [done |].
    exists i, j. done.
Qed.

(** ** Witnesses *)

(** U+00E9 and U+20AC (two and three bytes) before a terminator. *)
Lemma rune_roundtrip_witness :
  chartorune (runetochar 0x20AC ++ [0]) = Some (0x20AC, 3) /\
  Z.of_nat (length (runetochar 0x20AC)) = 3 /\
  runenlen [0x41; 0xE9] = Z.of_nat (length (encode [0x41; 0xE9])).
Proof.
  apply (rune_roundtrip [0x41; 0xE9] 0x20AC [0]); repeat constructor; lia.
Defined.

(** The overlong form C0 80 of NUL is rejected byte by byte. *)
Lemma chartorune_canonical_witness :
  1 <= 1 <= UTFmax /\ is_rune Bad /\
  (take (Z.to_nat 1) [0xC0; 0x80] = runetochar Bad \/
   (Bad = Bad /\ 1 = 1 /\ exists c s', [0xC0; 0x80] = c :: s' /\ Runeself <= c)).
Proof.
  apply (chartorune_canonical [0xC0; 0x80] Bad 1); [repeat constructor; lia | done].
Defined.

Lemma fullrune_safe_witness :
  exists r k, chartorune (take (Z.to_nat 3) [0xE2; 0x82; 0xAC]) = Some (r, k) /\
              chartorune [0xE2; 0x82; 0xAC] = Some (r, k) /\ k <= 3.
Proof.
  apply (fullrune_safe [0xE2; 0x82; 0xAC] 3); [repeat constructor; lia | cbn; lia | done].
Defined.

Lemma utflen_correct_witness :
  (exists m, utflen [0xE9; 0x41; 0] = Some m /\ 0 <= m <= Z.of_nat (length [0xE9; 0x41; 0]) - 1) /\
  utflen (encode [0xE9; 0x41] ++ 0 :: []) = Some (Z.of_nat (length [0xE9; 0x41])) /\
  runestrlen ([0xE9; 0x41] ++ 0 :: []) = Some (Z.of_nat (length [0xE9; 0x41])).
Proof.
  apply (utflen_correct [0xE9; 0x41; 0] [0xE9; 0x41] []);
    [repeat constructor; lia | by vm_compute; repeat constructor
    | constructor | repeat constructor; lia].
Defined.

Lemma utfrune_correct_witness :
  let s := encode [0xE9; 0x41; 0xE9] ++ 0 :: [] in
  (0xE9 ∉ [0xE9; 0x41; 0xE9] -> utfrune s 0xE9 = Some None /\ utfrrune s 0xE9 = Some None) /\
  (0xE9 ∈ [0xE9; 0x41; 0xE9] -> exists i j,
     utfrune s 0xE9 = Some (Some (runeoffset [0xE9; 0x41; 0xE9] i)) /\
     [0xE9; 0x41; 0xE9] !! i = Some 0xE9 /\
     (forall k, (k < i)%nat -> [0xE9; 0x41; 0xE9] !! k <> Some 0xE9) /\
     utfrrune s 0xE9 = Some (Some (runeoffset [0xE9; 0x41; 0xE9] j)) /\
     [0xE9; 0x41; 0xE9] !! j = Some 0xE9 /\
     (forall k, (j < k)%nat -> [0xE9; 0x41; 0xE9] !! k <> Some 0xE9)).
Proof.
  apply (utfrune_correct [0xE9; 0x41; 0xE9] [] 0xE9);
    [constructor | repeat constructor; lia | lia].
Defined.
