(* ===== verification/Bytes.v ===== *)
(** * Byte streams

    The readers and writers shared by the components that marshal data: the
    Styx messages and the Dis object files.  A reader runs over the bytes in
    memory from the code's pointer on and answers with the value and the
    memory past it; reading past the end of that memory is a fault, [None].
    A writer stores at the pointer: it answers with the bytes it leaves behind
    and the memory past them. *)

From S2P Require Import Prelude.

#[local] Open Scope Z_scope.

(** ** The reader monad *)

Definition rd (A : Type) : Type := list Z -> option (A * list Z).

#[export] Instance rd_ret : MRet rd := fun A a s => Some (a, s).
#[export] Instance rd_bind : MBind rd := fun A B k m s =>
  match m s with Some (a, s') => k a s' | None => None end.

Lemma rd_bind_eq {A B} (m : rd A) (k : A -> rd B) s a s' :
  m s = Some (a, s') -> (m ≫= k) s = k a s'.
Proof. intros E. cbv [mbind rd_bind]. by rewrite E. Qed.

Definition getb : rd Z :=
  fun s => match s with b :: s => Some (b, s) | [] => None end.

(** [memmove(dst, p, n); p += n] *)
Definition getn (n : nat) : rd (list Z) :=
  fun s => if (n <=? length s)%nat then Some (take n s, drop n s) else None.

(** ** The writer *)

Definition wr : Type := list Z -> option (list Z * list Z).

Definition wret : wr := fun s => Some ([], s).
Definition wseq (a b : wr) : wr :=
  fun s => match a s with
  | Some (o1, s1) =>
      match b s1 with Some (o2, s2) => Some (o1 ++ o2, s2) | None => None end
  | None => None
  end.
Infix ">>>" := wseq (at level 60, right associativity) : inferno_scope.

(** [*p++ = b] *)
Definition putb (b : Z) : wr :=
  fun s => match s with _ :: s => Some ([u8 b], s) | [] => None end.

(** [p++]: the byte keeps what the memory held. *)
Definition skipb : wr :=
  fun s => match s with b :: s => Some ([b], s) | [] => None end.

(** [memmove(p, src, n); p += n] *)
Definition putn (bs : list Z) : wr :=
  fun s => if (length bs <=? length s)%nat then Some (bs, drop (length bs) s)
           else None.

(** ** Multi-byte integers *)

Lemma join_byte n x :
  0 <= n -> Z.lor (wrapu n x) (Z.shiftl (u8 (Z.shiftr x n)) n) = wrapu (n + 8) x.
Proof.
  intros Hn. rewrite Z.lor_comm, lor_shiftl by (try done; by apply wrapu_range).
  rewrite Z.shiftr_div_pow2 by done. unfold wrapu.
  rewrite Z.pow_add_r by lia.
  rewrite Z.rem_mul_r by (pose proof (pow2_pos n Hn); lia). lia.
Qed.

Lemma u16_le x : Z.lor (u8 x) (Z.shiftl (u8 (Z.shiftr x 8)) 8) = u16 x.
Proof. by apply (join_byte 8). Qed.

Lemma u32_le x :
  Z.lor (Z.lor (Z.lor (u8 x) (Z.shiftl (u8 (Z.shiftr x 8)) 8))
    (Z.shiftl (u8 (Z.shiftr x 16)) 16)) (Z.shiftl (u8 (Z.shiftr x 24)) 24) = u32 x.
Proof. by rewrite u16_le, (join_byte 16), (join_byte 24). Qed.

Lemma u32_be x :
  Z.lor (Z.lor (Z.lor (Z.shiftl (u8 (Z.shiftr x 24)) 24)
    (Z.shiftl (u8 (Z.shiftr x 16)) 16)) (Z.shiftl (u8 (Z.shiftr x 8)) 8)) (u8 x) = u32 x.
Proof.
  rewrite <- u32_le. rewrite (Z.lor_comm _ (u8 x)). rewrite !Z.lor_assoc.
  rewrite (Z.lor_comm (Z.lor (Z.lor _ _) _)).
  apply Z.bits_inj'. intros i _. rewrite !Z.lor_spec. 
  repeat match goal with |- context [Z.testbit ?a ?b] => generalize (Z.testbit a b); intro end.
  repeat match goal with b : bool |- _ => destruct b end; done.
Qed.

Lemma u8_byte x : is_byte (u8 x).
Proof. apply (wrapu_range 8). lia. Qed.
