(* ===== verification/Styx.v ===== *)
(** * Styx messages (emu/styx.c)

    The marshalling of the file protocol that the emulator speaks to itself,
    to its devices and over the network: [convS2M] and [convM2S] between an
    [Fcall] and its wire form, [convD2M] and [convM2D] for directory entries.
    A character array of the C structure is the list of its bytes; a [long]
    is 32 bits and [char] is signed, as on the 386. *)

From S2P Require Import Prelude Bytes.

#[local] Open Scope Z_scope.
#[local] Open Scope inferno_scope.

Definition NAMELEN : Z := 28.
Definition ERRLEN : Z := 64.
Definition DIRLEN : Z := 116.

Inductive STYXtype :=
  | Tnop | Rnop | Terror | Rerror | Tflush | Rflush | Tclone | Rclone
  | Twalk | Rwalk | Topen | Ropen | Tcreate | Rcreate | Tread | Rread
  | Twrite | Rwrite | Tclunk | Rclunk | Tremove | Rremove | Tstat | Rstat
  | Twstat | Rwstat | Tsession | Rsession | Tattach | Rattach.

#[export] Instance STYXtype_eq_dec : EqDecision STYXtype.
Proof. solve_decision. Defined.

(** The enumeration in the order of its values, [Tmax] of them. *)
Definition STYXtypes : list STYXtype :=
  [Tnop; Rnop; Terror; Rerror; Tflush; Rflush; Tclone; Rclone;
   Twalk; Rwalk; Topen; Ropen; Tcreate; Rcreate; Tread; Rread;
   Twrite; Rwrite; Tclunk; Rclunk; Tremove; Rremove; Tstat; Rstat;
   Twstat; Rwstat; Tsession; Rsession; Tattach; Rattach].

Definition Tmax : Z := 30.

Definition styxtype (v : Z) : option STYXtype :=
  if v <? 0 then None else STYXtypes !! Z.to_nat v.

Record Fcall := mkFcall {
  type : Z;                   (* enum STYXtype *)
  fid : Z;                    (* short *)
  tag : Z;                    (* ushort *)
  oldtag : Z;                 (* ushort *)
  qid_path : Z;               (* ulong *)
  qid_vers : Z;               (* ulong *)
  uname : list Z;             (* char[NAMELEN] *)
  aname : list Z;             (* char[NAMELEN] *)
  ename : list Z;             (* char[ERRLEN] *)
  perm : Z;                   (* long *)
  newfid : Z;                 (* short *)
  name : list Z;              (* char[NAMELEN] *)
  mode : Z;                   (* char *)
  offset : Z;                 (* long *)
  count : Z;                  (* long *)
  data : list Z;              (* char*, the bytes it addresses *)
  stat : list Z;              (* char[DIRLEN] *)
}.

(** Assignments to the fields, with the conversion to the field's type. *)
Definition set_type (v : Z) (f : Fcall) : Fcall :=
  mkFcall v (fid f) (tag f) (oldtag f) (qid_path f) (qid_vers f) (uname f) (aname f) (ename f) (perm f) (newfid f) (name f) (mode f) (offset f) (count f) (data f) (stat f).
Definition set_fid (v : Z) (f : Fcall) : Fcall :=
  mkFcall (type f) (i16 v) (tag f) (oldtag f) (qid_path f) (qid_vers f) (uname f) (aname f) (ename f) (perm f) (newfid f) (name f) (mode f) (offset f) (count f) (data f) (stat f).
Definition set_tag (v : Z) (f : Fcall) : Fcall :=
  mkFcall (type f) (fid f) (u16 v) (oldtag f) (qid_path f) (qid_vers f) (uname f) (aname f) (ename f) (perm f) (newfid f) (name f) (mode f) (offset f) (count f) (data f) (stat f).
Definition set_oldtag (v : Z) (f : Fcall) : Fcall :=
  mkFcall (type f) (fid f) (tag f) (u16 v) (qid_path f) (qid_vers f) (uname f) (aname f) (ename f) (perm f) (newfid f) (name f) (mode f) (offset f) (count f) (data f) (stat f).
Definition set_qid_path (v : Z) (f : Fcall) : Fcall :=
  mkFcall (type f) (fid f) (tag f) (oldtag f) (u32 v) (qid_vers f) (uname f) (aname f) (ename f) (perm f) (newfid f) (name f) (mode f) (offset f) (count f) (data f) (stat f).
Definition set_qid_vers (v : Z) (f : Fcall) : Fcall :=
  mkFcall (type f) (fid f) (tag f) (oldtag f) (qid_path f) (u32 v) (uname f) (aname f) (ename f) (perm f) (newfid f) (name f) (mode f) (offset f) (count f) (data f) (stat f).
Definition set_uname (v : list Z) (f : Fcall) : Fcall :=
  mkFcall (type f) (fid f) (tag f) (oldtag f) (qid_path f) (qid_vers f) v (aname f) (ename f) (perm f) (newfid f) (name f) (mode f) (offset f) (count f) (data f) (stat f).
Definition set_aname (v : list Z) (f : Fcall) : Fcall :=
  mkFcall (type f) (fid f) (tag f) (oldtag f) (qid_path f) (qid_vers f) (uname f) v (ename f) (perm f) (newfid f) (name f) (mode f) (offset f) (count f) (data f) (stat f).
Definition set_ename (v : list Z) (f : Fcall) : Fcall :=
  mkFcall (type f) (fid f) (tag f) (oldtag f) (qid_path f) (qid_vers f) (uname f) (aname f) v (perm f) (newfid f) (name f) (mode f) (offset f) (count f) (data f) (stat f).
Definition set_perm (v : Z) (f : Fcall) : Fcall :=
  mkFcall (type f) (fid f) (tag f) (oldtag f) (qid_path f) (qid_vers f) (uname f) (aname f) (ename f) (i32 v) (newfid f) (name f) (mode f) (offset f) (count f) (data f) (stat f).
Definition set_newfid (v : Z) (f : Fcall) : Fcall :=
  mkFcall (type f) (fid f) (tag f) (oldtag f) (qid_path f) (qid_vers f) (uname f) (aname f) (ename f) (perm f) (i16 v) (name f) (mode f) (offset f) (count f) (data f) (stat f).
Definition set_name (v : list Z) (f : Fcall) : Fcall :=
  mkFcall (type f) (fid f) (tag f) (oldtag f) (qid_path f) (qid_vers f) (uname f) (aname f) (ename f) (perm f) (newfid f) v (mode f) (offset f) (count f) (data f) (stat f).
Definition set_mode (v : Z) (f : Fcall) : Fcall :=
  mkFcall (type f) (fid f) (tag f) (oldtag f) (qid_path f) (qid_vers f) (uname f) (aname f) (ename f) (perm f) (newfid f) (name f) (i8 v) (offset f) (count f) (data f) (stat f).
Definition set_offset (v : Z) (f : Fcall) : Fcall :=
  mkFcall (type f) (fid f) (tag f) (oldtag f) (qid_path f) (qid_vers f) (uname f) (aname f) (ename f) (perm f) (newfid f) (name f) (mode f) (i32 v) (count f) (data f) (stat f).
Definition set_count (v : Z) (f : Fcall) : Fcall :=
  mkFcall (type f) (fid f) (tag f) (oldtag f) (qid_path f) (qid_vers f) (uname f) (aname f) (ename f) (perm f) (newfid f) (name f) (mode f) (offset f) (i32 v) (data f) (stat f).
Definition set_data (v : list Z) (f : Fcall) : Fcall :=
  mkFcall (type f) (fid f) (tag f) (oldtag f) (qid_path f) (qid_vers f) (uname f) (aname f) (ename f) (perm f) (newfid f) (name f) (mode f) (offset f) (count f) v (stat f).
Definition set_stat (v : list Z) (f : Fcall) : Fcall :=
  mkFcall (type f) (fid f) (tag f) (oldtag f) (qid_path f) (qid_vers f) (uname f) (aname f) (ename f) (perm f) (newfid f) (name f) (mode f) (offset f) (count f) (data f) v.

(** ** Field macros *)

Definition PCHAR (x : Z) : wr := putb x.
Definition PSHORT (x : Z) : wr := putb x >>> putb (Z.shiftr x 8).
Definition PLONG (x : Z) : wr :=
  putb x >>> putb (Z.shiftr x 8) >>> putb (Z.shiftr x 16) >>> putb (Z.shiftr x 24).
Definition PVLONG (x : Z) : wr :=
  putb x >>> putb (Z.shiftr x 8) >>> putb (Z.shiftr x 16) >>> putb (Z.shiftr x 24) >>>
  putb 0 >>> putb 0 >>> putb 0 >>> putb 0.
(** [memmove(p, x, n)]: a fault when [x] does not have [n] bytes. *)
Definition PSTRING (x : list Z) (n : Z) : wr :=
  if (0 <=? n) && (n <=? Z.of_nat (length x)) then putn (take (Z.to_nat n) x)
  else fun _ => None.

Section Get.
(** [A] is the structure, [set] the assignment to its field. *)
Context {A : Type}.
Definition GCHAR (set : Z -> A -> A) (f : A) : rd A :=
  p0 ← getb; mret (set p0 f).
Definition GSHORT (set : Z -> A -> A) (f : A) : rd A :=
  p0 ← getb; p1 ← getb; mret (set (Z.lor p0 (Z.shiftl p1 8)) f).
Definition GLONG (set : Z -> A -> A) (f : A) : rd A :=
  p0 ← getb; p1 ← getb; p2 ← getb; p3 ← getb;
  mret (set (Z.lor (Z.lor (Z.lor p0 (Z.shiftl p1 8)) (Z.shiftl p2 16)) (Z.shiftl p3 24)) f).
Definition GVLONG (set : Z -> A -> A) (f : A) : rd A :=
  f ← GLONG set f; _ ← getn 4; mret f.
Definition GSTRING (set : list Z -> A -> A) (n : Z) (f : A) : rd A :=
  x ← getn (Z.to_nat n); mret (set x f).
End Get.

(** ** Messages *)

(** [static char msglen[Tmax]] *)
Definition msglen (t : STYXtype) : Z :=
  match t with
  | Tnop => 3 | Rnop => 3 | Terror => 0 | Rerror => 67
  | Tflush => 5 | Rflush => 3 | Tclone => 7 | Rclone => 5
  | Twalk => 33 | Rwalk => 13 | Topen => 6 | Ropen => 13
  | Tcreate => 38 | Rcreate => 13 | Tread => 15
  | Rread => 8 (* header only; excludes data *)
  | Twrite => 16 (* header only; excludes data *)
  | Rwrite => 7 | Tclunk => 5 | Rclunk => 5 | Tremove => 5 | Rremove => 5
  | Tstat => 5 | Rstat => 121 | Twstat => 121 | Rwstat => 5
  | Tsession => 0 | Rsession => 0
  | Tattach => 5 + 2 * NAMELEN | Rattach => 13
  end.

(** The qid of the R-messages. *)
Definition GQID (f : Fcall) : rd Fcall :=
  f ← GLONG set_qid_path f; GLONG set_qid_vers f.
Definition PQID (f : Fcall) : wr := PLONG (qid_path f) >>> PLONG (qid_vers f).

(** The data of [Twrite] and [Rread]: the message is incomplete ([return 0])
    until [n] bytes cover the count; else [f->data] addresses the buffer past
    the pad byte. *)
Definition GDATA (t : STYXtype) (n : Z) (f : Fcall) : rd (Fcall * option Z) :=
  if n <? msglen t + count f then mret (f, Some 0)
  else
    _ ← getb;
    f ← GSTRING set_data (count f) f;
    mret (f, None).

(** The switch of [convM2S]; [Some r] is an early [return r]. *)
Definition convM2S_body (t : STYXtype) (n : Z) (f : Fcall) : rd (Fcall * option Z) :=
  let break (m : rd Fcall) : rd (Fcall * option Z) := f ← m; mret (f, None) in
  match t with
  | Terror | Tsession | Rsession => mret (f, Some (-1))
  | Tnop => mret (f, None)
  | Tflush => break (GSHORT set_oldtag f)
  | Tattach => break (
      f ← GSHORT set_fid f;
      f ← GSTRING set_uname NAMELEN f;
      GSTRING set_aname NAMELEN f)
  | Tclone => break (f ← GSHORT set_fid f; GSHORT set_newfid f)
  | Twalk => break (f ← GSHORT set_fid f; GSTRING set_name NAMELEN f)
  | Topen => break (f ← GSHORT set_fid f; GCHAR set_mode f)
  | Tcreate => break (
      f ← GSHORT set_fid f;
      f ← GSTRING set_name NAMELEN f;
      f ← GLONG set_perm f;
      GCHAR set_mode f)
  | Tread => break (
      f ← GSHORT set_fid f;
      f ← GVLONG set_offset f;
      GSHORT set_count f)
  | Twrite =>
      f ← GSHORT set_fid f;
      f ← GVLONG set_offset f;
      f ← GSHORT set_count f;
      GDATA Twrite n f
  | Tclunk => break (GSHORT set_fid f)
  | Tremove => break (GSHORT set_fid f)
  | Tstat => break (GSHORT set_fid f)
  | Twstat => break (f ← GSHORT set_fid f; GSTRING set_stat DIRLEN f)
  | Rnop => mret (f, None)
  | Rerror => break (GSTRING set_ename ERRLEN f)
  | Rflush => mret (f, None)
  | Rattach => break (f ← GSHORT set_fid f; GQID f)
  | Rclone => break (GSHORT set_fid f)
  | Rwalk => break (f ← GSHORT set_fid f; GQID f)
  | Ropen => break (f ← GSHORT set_fid f; GQID f)
  | Rcreate => break (f ← GSHORT set_fid f; GQID f)
  | Rread =>
      f ← GSHORT set_fid f;
      f ← GSHORT set_count f;
      GDATA Rread n f
  | Rwrite => break (f ← GSHORT set_fid f; GSHORT set_count f)
  | Rclunk => break (GSHORT set_fid f)
  | Rremove => break (GSHORT set_fid f)
  | Rstat => break (f ← GSHORT set_fid f; GSTRING set_stat DIRLEN f)
  | Rwstat => break (GSHORT set_fid f)
  end.

(** [convM2S(ap, f, n)]: the structure afterwards and the result. *)
Definition convM2S (ap : list Z) (f : Fcall) (n : Z) : option (Fcall * Z) :=
  if n <? 3 then Some (f, 0) else
  '(f, p) ← (f ← GCHAR set_type f; GSHORT set_tag f) ap;
  match styxtype (type f) with
  | None => Some (f, -1)
  | Some t =>
      if n <? msglen t then Some (f, 0) else
      '((f, early), p) ← convM2S_body t n f p;
      match early with
      | Some r => Some (f, r)
      | None => Some (f, Z.of_nat (length ap) - Z.of_nat (length p))
      end
  end.

(** The switch of [convS2M]; [None] is [default: return -1]. *)
Definition convS2M_body (f : Fcall) : option wr :=
  t ← styxtype (type f);
  match t with
  | Terror | Tsession | Rsession => None
  | Tnop => Some wret
  | Tflush => Some (PSHORT (oldtag f))
  | Tattach => Some (PSHORT (fid f) >>>
      PSTRING (uname f) NAMELEN >>> PSTRING (aname f) NAMELEN)
  | Tclone => Some (PSHORT (fid f) >>> PSHORT (newfid f))
  | Twalk => Some (PSHORT (fid f) >>> PSTRING (name f) NAMELEN)
  | Topen => Some (PSHORT (fid f) >>> PCHAR (mode f))
  | Tcreate => Some (PSHORT (fid f) >>> PSTRING (name f) NAMELEN >>>
      PLONG (perm f) >>> PCHAR (mode f))
  | Tread => Some (PSHORT (fid f) >>> PVLONG (offset f) >>> PSHORT (count f))
  | Twrite => Some (PSHORT (fid f) >>> PVLONG (offset f) >>> PSHORT (count f) >>>
      skipb >>> PSTRING (data f) (count f))
  | Tclunk => Some (PSHORT (fid f))
  | Tremove => Some (PSHORT (fid f))
  | Tstat => Some (PSHORT (fid f))
  | Twstat => Some (PSHORT (fid f) >>> PSTRING (stat f) DIRLEN)
  | Rnop => Some wret
  | Rerror => Some (PSTRING (ename f) ERRLEN)
  | Rflush => Some wret
  | Rattach => Some (PSHORT (fid f) >>> PQID f)
  | Rclone => Some (PSHORT (fid f))
  | Rwalk => Some (PSHORT (fid f) >>> PQID f)
  | Ropen => Some (PSHORT (fid f) >>> PQID f)
  | Rcreate => Some (PSHORT (fid f) >>> PQID f)
  | Rread => Some (PSHORT (fid f) >>> PSHORT (count f) >>>
      skipb >>> PSTRING (data f) (count f))
  | Rwrite => Some (PSHORT (fid f) >>> PSHORT (count f))
  | Rclunk => Some (PSHORT (fid f))
  | Rremove => Some (PSHORT (fid f))
  | Rstat => Some (PSHORT (fid f) >>> PSTRING (stat f) DIRLEN)
  | Rwstat => Some (PSHORT (fid f))
  end.

(** [convS2M(f, ap)]: the result and the buffer afterwards.  The type and the
    tag are stored before the switch. *)
Definition convS2M (f : Fcall) (ap : list Z) : option (Z * list Z) :=
  '(hd, p) ← (PCHAR (type f) >>> PSHORT (tag f)) ap;
  match convS2M_body f with
  | None => Some (-1, hd ++ p)
  | Some w =>
      '(body, p) ← w p;
      Some (Z.of_nat (length (hd ++ body)), (hd ++ body) ++ p)
  end.

(** ** Directory entries *)

Record Dir := mkDir {
  d_name : list Z;   (* char[NAMELEN] *)
  d_uid : list Z;    (* char[NAMELEN] *)
  d_gid : list Z;    (* char[NAMELEN] *)
  d_path : Z;        (* qid.path: ulong *)
  d_vers : Z;        (* qid.vers: ulong *)
  d_mode : Z;        (* ulong *)
  d_atime : Z;       (* int *)
  d_mtime : Z;       (* int *)
  d_length : Z;      (* ulong *)
  d_type : Z;        (* ushort *)
  d_dev : Z          (* ushort *)
}.

Definition set_d_name (v : list Z) (d : Dir) : Dir :=
  mkDir v (d_uid d) (d_gid d) (d_path d) (d_vers d) (d_mode d) (d_atime d) (d_mtime d) (d_length d) (d_type d) (d_dev d).
Definition set_d_uid (v : list Z) (d : Dir) : Dir :=
  mkDir (d_name d) v (d_gid d) (d_path d) (d_vers d) (d_mode d) (d_atime d) (d_mtime d) (d_length d) (d_type d) (d_dev d).
Definition set_d_gid (v : list Z) (d : Dir) : Dir :=
  mkDir (d_name d) (d_uid d) v (d_path d) (d_vers d) (d_mode d) (d_atime d) (d_mtime d) (d_length d) (d_type d) (d_dev d).
Definition set_d_path (v : Z) (d : Dir) : Dir :=
  mkDir (d_name d) (d_uid d) (d_gid d) (u32 v) (d_vers d) (d_mode d) (d_atime d) (d_mtime d) (d_length d) (d_type d) (d_dev d).
Definition set_d_vers (v : Z) (d : Dir) : Dir :=
  mkDir (d_name d) (d_uid d) (d_gid d) (d_path d) (u32 v) (d_mode d) (d_atime d) (d_mtime d) (d_length d) (d_type d) (d_dev d).
Definition set_d_mode (v : Z) (d : Dir) : Dir :=
  mkDir (d_name d) (d_uid d) (d_gid d) (d_path d) (d_vers d) (u32 v) (d_atime d) (d_mtime d) (d_length d) (d_type d) (d_dev d).
Definition set_d_atime (v : Z) (d : Dir) : Dir :=
  mkDir (d_name d) (d_uid d) (d_gid d) (d_path d) (d_vers d) (d_mode d) (i32 v) (d_mtime d) (d_length d) (d_type d) (d_dev d).
Definition set_d_mtime (v : Z) (d : Dir) : Dir :=
  mkDir (d_name d) (d_uid d) (d_gid d) (d_path d) (d_vers d) (d_mode d) (d_atime d) (i32 v) (d_length d) (d_type d) (d_dev d).
Definition set_d_length (v : Z) (d : Dir) : Dir :=
  mkDir (d_name d) (d_uid d) (d_gid d) (d_path d) (d_vers d) (d_mode d) (d_atime d) (d_mtime d) (u32 v) (d_type d) (d_dev d).
Definition set_d_type (v : Z) (d : Dir) : Dir :=
  mkDir (d_name d) (d_uid d) (d_gid d) (d_path d) (d_vers d) (d_mode d) (d_atime d) (d_mtime d) (d_length d) (u16 v) (d_dev d).
Definition set_d_dev (v : Z) (d : Dir) : Dir :=
  mkDir (d_name d) (d_uid d) (d_gid d) (d_path d) (d_vers d) (d_mode d) (d_atime d) (d_mtime d) (d_length d) (d_type d) (u16 v).

Definition convD2M (f : Dir) (ap : list Z) : option (Z * list Z) :=
  '(out, p) ← (
    PSTRING (d_name f) NAMELEN >>> PSTRING (d_uid f) NAMELEN >>>
    PSTRING (d_gid f) NAMELEN >>>
    PLONG (d_path f) >>> PLONG (d_vers f) >>> PLONG (d_mode f) >>>
    PLONG (d_atime f) >>> PLONG (d_mtime f) >>> PVLONG (d_length f) >>>
    PSHORT (d_type f) >>> PSHORT (d_dev f)) ap;
  Some (Z.of_nat (length out), out ++ p).

Definition convM2D (ap : list Z) (f : Dir) : option (Dir * Z) :=
  '(f, p) ← (
    f ← GSTRING set_d_name NAMELEN f;
    f ← GSTRING set_d_uid NAMELEN f;
    f ← GSTRING set_d_gid NAMELEN f;
    f ← GLONG set_d_path f;
    f ← GLONG set_d_vers f;
    f ← GLONG set_d_mode f;
    f ← GLONG set_d_atime f;
    f ← GLONG set_d_mtime f;
    f ← GVLONG set_d_length f;
    f ← GSHORT set_d_type f;
    GSHORT set_d_dev f) ap;
  Some (f, Z.of_nat (length ap) - Z.of_nat (length p)).

(** ** The protocol as a table

    The abstract format of a message: a type byte, a 16-bit tag, and the
    fields of the type in order, little-endian. *)

Inductive field :=
  | Ffid | Foldtag | Funame | Faname | Fename | Fnewfid | Fname | Fmode
  | Fperm | Foffset | Fcount | Fqid | Fstat | Fdata.

#[export] Instance field_eq_dec : EqDecision field.
Proof. solve_decision. Defined.

Definition layout (t : STYXtype) : option (list field) :=
  match t with
  | Terror | Tsession | Rsession => None
  | Tnop | Rnop | Rflush => Some []
  | Rerror => Some [Fename]
  | Tflush => Some [Foldtag]
  | Tclone => Some [Ffid; Fnewfid]
  | Twalk => Some [Ffid; Fname]
  | Topen => Some [Ffid; Fmode]
  | Tcreate => Some [Ffid; Fname; Fperm; Fmode]
  | Tread => Some [Ffid; Foffset; Fcount]
  | Rread => Some [Ffid; Fcount; Fdata]
  | Twrite => Some [Ffid; Foffset; Fcount; Fdata]
  | Rwrite => Some [Ffid; Fcount]
  | Tattach => Some [Ffid; Funame; Faname]
  | Rwalk | Ropen | Rcreate | Rattach => Some [Ffid; Fqid]
  | Rstat | Twstat => Some [Ffid; Fstat]
  | Rclone | Tclunk | Rclunk | Tremove | Rremove | Tstat | Rwstat => Some [Ffid]
  end.

Definition le16 (x : Z) : list Z := [u8 x; u8 (Z.shiftr x 8)].
Definition le32 (x : Z) : list Z :=
  [u8 x; u8 (Z.shiftr x 8); u8 (Z.shiftr x 16); u8 (Z.shiftr x 24)].

(** Eight bytes on the wire, the upper four zero. *)
Definition le64 (x : Z) : list Z := le32 x ++ [0; 0; 0; 0].

(** The bytes of a field; [pad] is the byte before the data. *)
Definition fbytes (pad : list Z) (f : Fcall) (fd : field) : list Z :=
  match fd with
  | Ffid => le16 (fid f) | Foldtag => le16 (oldtag f) | Fnewfid => le16 (newfid f)
  | Funame => uname f | Faname => aname f | Fename => ename f | Fname => name f
  | Fstat => stat f
  | Fmode => [u8 (mode f)]
  | Fperm => le32 (perm f)
  | Foffset => le64 (offset f)
  | Fcount => le16 (count f)
  | Fqid => le32 (qid_path f) ++ le32 (qid_vers f)
  | Fdata => pad ++ data f
  end.

Definition wire (pad : list Z) (f : Fcall) (fds : list field) : list Z :=
  u8 (type f) :: le16 (tag f) ++ mbind (fbytes pad f) fds.

(** Equality of one field of two structures. *)
Definition same_field (f g : Fcall) (fd : field) : Prop :=
  match fd with
  | Ffid => fid f = fid g | Foldtag => oldtag f = oldtag g | Fnewfid => newfid f = newfid g
  | Funame => uname f = uname g | Faname => aname f = aname g | Fename => ename f = ename g
  | Fname => name f = name g | Fstat => stat f = stat g | Fmode => mode f = mode g
  | Fperm => perm f = perm g | Foffset => offset f = offset g | Fcount => count f = count g
  | Fqid => qid_path f = qid_path g /\ qid_vers f = qid_vers g
  | Fdata => data f = data g
  end.

(** A structure whose members hold values of their types.  [count] is carried
    in 16 bits and says how many bytes [data] addresses. *)
Record wf_fcall (f : Fcall) : Prop := {
  wf_type : 0 <= type f < 256;
  wf_fid : -2 ^ 15 <= fid f < 2 ^ 15;
  wf_tag : 0 <= tag f < 2 ^ 16;
  wf_oldtag : 0 <= oldtag f < 2 ^ 16;
  wf_qid_path : 0 <= qid_path f < 2 ^ 32;
  wf_qid_vers : 0 <= qid_vers f < 2 ^ 32;
  wf_uname : Z.of_nat (length (uname f)) = NAMELEN;
  wf_aname : Z.of_nat (length (aname f)) = NAMELEN;
  wf_ename : Z.of_nat (length (ename f)) = ERRLEN;
  wf_perm : -2 ^ 31 <= perm f < 2 ^ 31;
  wf_newfid : -2 ^ 15 <= newfid f < 2 ^ 15;
  wf_name : Z.of_nat (length (name f)) = NAMELEN;
  wf_mode : -2 ^ 7 <= mode f < 2 ^ 7;
  wf_offset : -2 ^ 31 <= offset f < 2 ^ 31;
  wf_count : 0 <= count f < 2 ^ 16;
  wf_data : Z.of_nat (length (data f)) = count f;
  wf_stat : Z.of_nat (length (stat f)) = DIRLEN
}.

(** *** What the writers leave behind *)

(** [w] started on [s] stores [o] over its front. *)
Definition writes (w : wr) (s o : list Z) : Prop :=
  w s = Some (o, drop (length o) s).

Lemma writes_ret s : writes wret s [].
Proof. done. Qed.

Lemma writes_seq a b s o1 o2 :
  writes a s o1 -> writes b (drop (length o1) s) o2 -> writes (a >>> b) s (o1 ++ o2).
Proof.
  unfold writes, wseq. intros -> ->. by rewrite drop_drop, length_app.
Qed.

Lemma writes_putb b s : (1 <= length s)%nat -> writes (putb b) s [u8 b].
Proof. destruct s; [cbn; lia | done]. Qed.

Lemma writes_skipb s : (1 <= length s)%nat -> writes skipb s (take 1 s).
Proof. destruct s; [cbn; lia | done]. Qed.

Lemma writes_short x s : (2 <= length s)%nat -> writes (PSHORT x) s (le16 x).
Proof. destruct s as [|? [|? s]]; cbn; try lia. done. Qed.

Lemma writes_long x s : (4 <= length s)%nat -> writes (PLONG x) s (le32 x).
Proof. destruct s as [|? [|? [|? [|? s]]]]; cbn; try lia. done. Qed.

Lemma writes_vlong x s :
  (8 <= length s)%nat -> writes (PVLONG x) s (le64 x).
Proof.
  do 8 (destruct s as [|? s]; [cbn; lia |]). done.
Qed.

Lemma writes_string x n s :
  Z.of_nat (length x) = n -> (length x <= length s)%nat -> writes (PSTRING x n) s x.
Proof.
  intros <- Hs. unfold writes, PSTRING, putn.
  destruct (Z.leb_spec 0 (Z.of_nat (length x))); [| lia].
  destruct (Z.leb_spec (Z.of_nat (length x)) (Z.of_nat (length x))); [| lia].
  cbn. rewrite Nat2Z.id, take_ge by lia.
  destruct (Nat.leb_spec (length x) (length s)); [done | lia].
Qed.

#[local] Opaque PSHORT PLONG PVLONG PSTRING skipb putb.

Ltac wr_len :=
  rewrite ?length_drop, ?length_take; cbn [length le16 le32 le64 app] in *; lia.

Create HintDb wr.
#[export] Hint Extern 2 (_ <= length _)%nat => wr_len : wr.
#[export] Hint Resolve writes_ret writes_putb writes_short writes_long writes_vlong
  writes_string writes_skipb wf_uname wf_aname wf_ename wf_name wf_data wf_stat : wr.

Lemma styxtype_spec v t :
  styxtype v = Some t -> 0 <= v < Tmax /\ STYXtypes !! Z.to_nat v = Some t.
Proof.
  unfold styxtype. destruct (Z.ltb_spec v 0); [done |]. intros E.
  split; [| done]. apply lookup_lt_Some in E. cbn in E. unfold Tmax. lia.
Qed.

(** Every legal type's switch arm writes the fields of its layout. *)
Lemma convS2M_body_layout f t fds s :
  wf_fcall f -> styxtype (type f) = Some t -> layout t = Some fds ->
  (length (mbind (fbytes [0%Z] f) fds) <= length s)%nat ->
  exists w pad, convS2M_body f = Some w /\ length pad = 1%nat /\
    writes w s (mbind (fbytes pad f) fds).
Proof.
  intros Hwf Ht Hl Hs. unfold convS2M_body. rewrite Ht. cbn [mbind option_bind].
  pose proof (wf_uname f Hwf). pose proof (wf_aname f Hwf). pose proof (wf_ename f Hwf).
  pose proof (wf_name f Hwf). pose proof (wf_data f Hwf). pose proof (wf_stat f Hwf).
  unfold NAMELEN, ERRLEN, DIRLEN in *.
  destruct t; cbn in Hl; try discriminate Hl; injection Hl as <-;
    eexists; (exists (match styxtype (type f) with
      | Some Twrite => take 1 (drop 12 s)
      | Some Rread => take 1 (drop 4 s)
      | _ => [0] end)); rewrite Ht;
    (split; [reflexivity |]);
    rewrite ?length_take, ?length_drop;
    cbn [mbind list_bind fbytes] in Hs |- *;
    rewrite ?length_app in Hs; cbn [length le16 le32 le64 app] in Hs;
    (split; [cbn [length]; lia |]); rewrite ?app_nil_r, <- ?app_assoc;
    unfold PQID, PCHAR; repeat (eapply writes_seq); auto with wr;
    rewrite ?drop_drop; auto with wr.
Qed.

(** *** What the readers take *)

(** [m] consumes exactly [o] and yields [a]. *)
Definition reads {A} (m : rd A) (o : list Z) (a : A) : Prop :=
  forall rest, m (o ++ rest) = Some (a, rest).

Lemma reads_ret {A} (a : A) : reads (mret a) [] a.
Proof. done. Qed.

Lemma reads_bind {A B} (m : rd A) (k : A -> rd B) o1 o2 a b :
  reads m o1 a -> reads (k a) o2 b -> reads (m ≫= k) (o1 ++ o2) b.
Proof.
  intros H1 H2 rest. rewrite <- app_assoc. by rewrite (rd_bind_eq _ _ _ _ _ (H1 _)).
Qed.

Lemma reads_getn x n : length x = n -> reads (getn n) x x.
Proof.
  intros <- rest. unfold getn. rewrite length_app.
  destruct (Nat.leb_spec (length x) (length x + length rest)); [| lia].
  by rewrite take_app_length, drop_app_length.
Qed.

Section Reads.
Context {A : Type}.
Implicit Types (f : A).

Lemma reads_char (set : Z -> A -> A) f x : reads (GCHAR set f) [u8 x] (set (u8 x) f).
Proof. done. Qed.

Lemma reads_short (set : Z -> A -> A) f x : reads (GSHORT set f) (le16 x) (set (u16 x) f).
Proof.
  intros rest. cbv [GSHORT mbind rd_bind getb mret rd_ret app le16]. by rewrite u16_le.
Qed.

Lemma reads_long (set : Z -> A -> A) f x : reads (GLONG set f) (le32 x) (set (u32 x) f).
Proof.
  intros rest. cbv [GLONG mbind rd_bind getb mret rd_ret app le32]. by rewrite u32_le.
Qed.

Lemma reads_vlong (set : Z -> A -> A) f x : reads (GVLONG set f) (le64 x) (set (u32 x) f).
Proof.
  unfold le64. rewrite <- (app_nil_r [0; 0; 0; 0]).
  eapply reads_bind; [apply reads_long |].
  eapply reads_bind; [by apply reads_getn | apply reads_ret].
Qed.

Lemma reads_string (set : list Z -> A -> A) f x n :
  Z.of_nat (length x) = n -> reads (GSTRING set n f) x (set x f).
Proof.
  intros <-. rewrite <- (app_nil_r x) at 2.
  unfold GSTRING. rewrite Nat2Z.id.
  eapply reads_bind; [by apply reads_getn | apply reads_ret].
Qed.
End Reads.

(** A value stored through the wire into a member of its type is unchanged. *)
Lemma signed_wire w x : 0 < w -> - 2 ^ (w - 1) <= x < 2 ^ (w - 1) -> wraps w (wrapu w x) = x.
Proof. intros. rewrite wraps_wrapu by done. by apply wraps_id. Qed.

Lemma unsigned_wire w x : 0 <= w -> 0 <= x < 2 ^ w -> wrapu w (wrapu w x) = x.
Proof. intros. rewrite wrapu_idem by done. by apply wrapu_id. Qed.

Lemma count_wire f : wf_fcall f -> i32 (u16 (count f)) = count f.
Proof.
  intros [? _ _ _ _ _ _ _ _ _ _ _ _ _ Hc _ _].
  rewrite wrapu_id by done. apply wraps_id; lia.
Qed.

Definition has_field (fds : list field) (fd : field) : bool :=
  existsb (fun g => bool_decide (g = fd)) fds.

(** The decoded structure: the fields of the message come from [f], the others
    keep the values of [f0]. *)
Definition delivered (fds : list field) (f f0 f1 : Fcall) : Prop :=
  type f1 = type f0 /\ tag f1 = tag f0 /\
  forall fd, if has_field fds fd then same_field f1 f fd else same_field f1 f0 fd.

#[local] Opaque GSHORT GLONG GVLONG GSTRING GCHAR.

Create HintDb rd.
#[export] Hint Resolve reads_ret reads_char reads_short reads_long reads_vlong
  reads_string reads_getn : rd.

Lemma reads_data t n f g pad :
  length pad = 1%nat -> Z.of_nat (length (data f)) = count g -> msglen t + count g <= n ->
  reads (GDATA t n g) (pad ++ data f) (set_data (data f) g, None).
Proof.
  intros Hpad Hd Hn. unfold GDATA. destruct (Z.ltb_spec n (msglen t + count g)); [lia |].
  destruct pad as [|b [|]]; try discriminate Hpad.
  eapply reads_bind; [by intros rest |].
  rewrite <- (app_nil_r (data f)) at 1.
  eapply reads_bind; [by apply reads_string | apply reads_ret].
Qed.

Lemma reads_break {A B} (m : rd A) o a (b : B) :
  reads m o a -> reads (f ← m; mret (f, b)) o (a, b).
Proof.
  intros H. rewrite <- (app_nil_r o). eapply reads_bind; [exact H | apply reads_ret].
Qed.

(** Splits a chain of readers along the bytes of a message. *)
Ltac reads_step :=
  first
    [ solve [eauto with rd]
    | apply reads_data; [done | cbn; lia | cbn; lia]
    | apply reads_break
    | eapply reads_bind ].

(** Decides the membership of a constant field in a constant list. *)
Ltac eval_has_field :=
  match goal with |- context [has_field ?l ?fd] =>
    let b := eval vm_compute in (has_field l fd) in change (has_field l fd) with b
  end.

Ltac same_fields :=
  split; [reflexivity |]; split; [reflexivity |];
  intros []; eval_has_field;
  cbn; try split;
  first [ reflexivity | assumption | by apply signed_wire | by apply unsigned_wire ].

Lemma convM2S_body_layout f f0 t fds pad n :
  wf_fcall f -> layout t = Some fds -> length pad = 1%nat ->
  3 + Z.of_nat (length (mbind (fbytes pad f) fds)) <= n ->
  exists f1, reads (convM2S_body t n f0) (mbind (fbytes pad f) fds) (f1, None) /\
    delivered fds f f0 f1.
Proof.
  intros Hwf Hl Hpad Hn. pose proof (count_wire f Hwf) as Hcw. destruct Hwf.
  destruct t; cbn in Hl; try discriminate Hl; injection Hl as <-;
    cbn [mbind list_bind fbytes] in Hn |- *; rewrite ?app_nil_r;
    rewrite ?length_app, ?Hpad in Hn; cbn [length le16 le32 le64 app] in Hn;
    eexists; (split; [ unfold convM2S_body, GQID; repeat reads_step |]).
  all: same_fields.
Qed.

(** *** Locality and length of the readers *)

(** A reader looks only at what it consumes. *)
Definition local {A} (m : rd A) : Prop :=
  forall s a s' rest, m s = Some (a, s') -> m (s ++ rest) = Some (a, s' ++ rest).

(** [m] consumes [k] bytes of every memory that has them. *)
Definition consumes {A} (m : rd A) (k : nat) (P : A -> Prop) : Prop :=
  forall s, bytes s -> (k <= length s)%nat -> exists a, m s = Some (a, drop k s) /\ P a.

Lemma local_ret {A} (a : A) : local (mret a).
Proof. intros s b s' rest [= <- <-]. done. Qed.

Lemma local_bind {A B} (m : rd A) (k : A -> rd B) :
  local m -> (forall a, local (k a)) -> local (m ≫= k).
Proof.
  intros Hm Hk s b s' rest. cbv [mbind rd_bind].
  destruct (m s) as [[a s1] |] eqn:E; [| done].
  rewrite (Hm _ _ _ rest E). apply Hk.
Qed.

Lemma local_getb : local getb.
Proof. intros [|b s] a s' rest; [done |]. by intros [= <- <-]. Qed.

Lemma local_getn n : local (getn n).
Proof.
  intros s a s' rest. unfold getn.
  destruct (Nat.leb_spec n (length s)); [| done]. intros [= <- <-].
  destruct (Nat.leb_spec n (length (s ++ rest))); [| rewrite length_app in *; lia].
  by rewrite take_app_le, drop_app_le.
Qed.

Lemma consumes_ret {A} (a : A) (P : A -> Prop) : P a -> consumes (mret a) 0 P.
Proof. intros HP s _ _. exists a. by rewrite drop_0. Qed.

Lemma consumes_bind {A B} (m : rd A) (k : A -> rd B) i j P Q :
  consumes m i P -> (forall a, P a -> consumes (k a) j Q) -> consumes (m ≫= k) (i + j) Q.
Proof.
  intros Hm Hk s Hs Hl. destruct (Hm s Hs ltac:(lia)) as (a & E & Ha).
  destruct (Hk a Ha (drop i s)) as (b & E' & Hb);
    [by apply Forall_drop | rewrite length_drop; lia |].
  exists b. rewrite (rd_bind_eq _ _ _ _ _ E), E', drop_drop. done.
Qed.

Lemma consumes_getb : consumes getb 1 (fun b => is_byte b).
Proof.
  intros [|b s] Hs Hl; [cbn in Hl; lia |]. exists b. split; [by cbn; rewrite drop_0 |].
  by inversion Hs.
Qed.

Lemma consumes_getn n : consumes (getn n) n (fun _ => True).
Proof.
  intros s _ Hl. exists (take n s). unfold getn.
  by destruct (Nat.leb_spec n (length s)); [| lia].
Qed.

#[local] Transparent GSHORT GLONG GVLONG GSTRING GCHAR.

Lemma local_data t n f : local (GDATA t n f).
Proof.
  unfold GDATA. destruct (n <? msglen t + count f);
    repeat (apply local_bind || apply local_ret || apply local_getb || apply local_getn
      || intros ? || unfold GSTRING).
Qed.

Lemma convM2S_body_local t n f : local (convM2S_body t n f).
Proof.
  destruct t; unfold convM2S_body, GQID;
    repeat (apply local_data || apply local_bind || apply local_ret || apply local_getb
      || apply local_getn || (unfold GSHORT, GLONG, GVLONG, GSTRING, GCHAR; intros ?)
      || unfold GSTRING).
Qed.

Lemma consumes_weaken {A} (m : rd A) k k' (P Q : A -> Prop) :
  consumes m k P -> k = k' -> (forall a, P a -> Q a) -> consumes m k' Q.
Proof. intros H <- HPQ s Hs Hl. destruct (H s Hs Hl) as (a & ? & ?). eauto. Qed.

Section Consumes.
Context {A : Type}.
Implicit Types (f : A).

Lemma consumes_char (set : Z -> A -> A) f : consumes (GCHAR set f) 1 (fun _ => True).
Proof.
  apply (consumes_bind _ _ 1 0 _ _ consumes_getb). intros. by apply consumes_ret.
Qed.

Lemma consumes_short (set : Z -> A -> A) f :
  consumes (GSHORT set f) 2 (fun f' => exists v, 0 <= v < 2 ^ 16 /\ f' = set v f).
Proof.
  apply (consumes_bind _ _ 1 1 _ _ consumes_getb). intros p0 H0.
  apply (consumes_bind _ _ 1 0 _ _ consumes_getb). intros p1 H1.
  apply consumes_ret. eexists. split; [| reflexivity].
  rewrite Z.lor_comm, lor_shiftl by lia. change (2 ^ 8) with 256. lia.
Qed.

Lemma consumes_long (set : Z -> A -> A) f : consumes (GLONG set f) 4 (fun _ => True).
Proof.
  do 3 (eapply (consumes_bind _ _ 1 _ _ _ consumes_getb); intros).
  apply (consumes_bind _ _ 1 0 _ _ consumes_getb). intros. by apply consumes_ret.
Qed.

Lemma consumes_vlong (set : Z -> A -> A) f : consumes (GVLONG set f) 8 (fun _ => True).
Proof.
  apply (consumes_bind _ _ 4 4 _ _ (consumes_long set f)). intros.
  apply (consumes_bind _ _ 4 0 _ _ (consumes_getn 4)). intros. by apply consumes_ret.
Qed.

Lemma consumes_string (set : list Z -> A -> A) n f :
  consumes (GSTRING set n f) (Z.to_nat n) (fun _ => True).
Proof.
  rewrite <- (Nat.add_0_r (Z.to_nat n)).
  apply (consumes_bind _ _ _ 0 _ _ (consumes_getn _)). intros. by apply consumes_ret.
Qed.
End Consumes.

(** What [convM2S_body] returns on any bytes, by the kind of message. *)
Definition body_safe (t : STYXtype) (n : Z) (f : Fcall) (s : list Z) : Prop :=
  exists f' e s', convM2S_body t n f s = Some ((f', e), s') /\
    match e with
    | None => 0 <= Z.of_nat (length s) - Z.of_nat (length s') <= n - 3
    | Some r => r = match layout t with None => -1 | Some _ => 0 end
    end.

Lemma body_safe_fixed t n f s k :
  consumes (convM2S_body t n f) k (fun r => snd r = None) ->
  bytes s -> Z.of_nat k <= n - 3 -> n - 3 <= Z.of_nat (length s) ->
  body_safe t n f s.
Proof.
  intros H Hs Hk Hl. destruct (H s Hs ltac:(lia)) as ([f' e] & E & He). cbn in He. subst e.
  exists f', None, (drop k s). split; [exact E |]. rewrite length_drop. lia.
Qed.

Lemma data_safe t n f s k :
  bytes s -> 0 <= count f -> msglen t = 3 + k + 1 -> 0 <= k -> msglen t <= n ->
  n - 3 - k <= Z.of_nat (length s) ->
  exists f' e s', GDATA t n f s = Some ((f', e), s') /\
    match e with
    | None => 0 <= Z.of_nat (length s) - Z.of_nat (length s') <= n - 3 - k
    | Some r => r = 0
    end.
Proof.
  intros Hs Hc Hm Hk Hn Hl. unfold GDATA.
  destruct (Z.ltb_spec n (msglen t + count f)).
  { exists f, (Some 0), s. done. }
  assert (consumes (f' ← GSTRING set_data (count f) f; mret (f', @None Z))
    (Z.to_nat (count f) + 0) (fun r => snd r = None)) as Hc2.
  { apply (consumes_bind _ _ _ _ _ _ (consumes_string _ _ _)). intros. by apply consumes_ret. }
  destruct (consumes_bind _ _ _ _ _ _ consumes_getb (fun _ _ => Hc2) s Hs ltac:(lia))
    as ([f' e] & E & He). cbn in He. subst e.
  exists f', None, (drop (1 + (Z.to_nat (count f) + 0)) s). split; [exact E |].
  rewrite length_drop. lia.
Qed.

(** The same rules for readers whose values do not matter. *)
Definition eats {A} (m : rd A) (k : nat) : Prop := consumes m k (fun _ => True).

Lemma eats_bind {A B} (m : rd A) (k : A -> rd B) i j :
  eats m i -> (forall a, eats (k a) j) -> eats (m ≫= k) (i + j).
Proof. intros Hm Hk. exact (consumes_bind _ _ _ _ _ _ Hm (fun a _ => Hk a)). Qed.

Lemma eats_short {A} (set : Z -> A -> A) f : eats (GSHORT set f) 2.
Proof. eapply consumes_weaken; [apply consumes_short | done | done]. Qed.

Lemma consumes_break {A B} (m : rd A) k (b : B) :
  eats m k -> consumes (f ← m; mret (f, b)) (k + 0) (fun r => snd r = b).
Proof. intros H. eapply consumes_bind; [exact H |]. intros. by apply consumes_ret. Qed.

#[local] Opaque GSHORT GLONG GVLONG GSTRING GCHAR.

Ltac eats_step :=
  first
    [ by apply consumes_ret
    | apply consumes_break
    | apply consumes_char | apply eats_short | apply consumes_long
    | apply consumes_vlong | apply consumes_string
    | eapply eats_bind; [| intros ?] ].

(** The messages with data: a fixed header ending in the count. *)
Lemma count_data_safe t n s (hd : rd Fcall) k :
  bytes s -> eats hd k -> msglen t = 3 + (Z.of_nat k + 2) + 1 -> msglen t <= n ->
  n - 3 <= Z.of_nat (length s) ->
  exists f' e s',
    (f ← hd; f ← GSHORT set_count f; GDATA t n f) s = Some ((f', e), s') /\
    match e with
    | None => 0 <= Z.of_nat (length s) - Z.of_nat (length s') <= n - 3
    | Some r => r = 0
    end.
Proof.
  intros Hs Hhd Hm Hn Hl.
  destruct (Hhd s Hs ltac:(lia)) as (f1 & E1 & _).
  rewrite (rd_bind_eq _ _ _ _ _ E1).
  destruct (consumes_short set_count f1 (drop k s)) as (f2 & E2 & v & Hv & ->);
    [by apply Forall_drop | rewrite length_drop; lia |].
  rewrite (rd_bind_eq _ _ _ _ _ E2), drop_drop.
  destruct (data_safe t n (set_count v f1) (drop (k + 2) s) (Z.of_nat k + 2))
    as (f' & e & s' & E & He);
    [by apply Forall_drop | | lia | lia | done | rewrite length_drop; lia |].
  { cbn. rewrite wraps_id by (change (2 ^ (32 - 1)) with (2 ^ 31); lia). lia. }
  exists f', e, s'. split; [exact E |].
  destruct e; [done |]. rewrite length_drop in He. lia.
Qed.

Lemma convM2S_body_safe t n f s :
  bytes s -> msglen t <= n -> 3 <= n -> n - 3 <= Z.of_nat (length s) ->
  body_safe t n f s.
Proof.
  intros Hs Hm Hn Hl.
  assert (forall f, eats (GSHORT set_fid f) 2) as Efid by (intros; apply eats_short).
  assert (forall f, eats (GVLONG set_offset f) 8) as Eoff by (intros; apply consumes_vlong).
  destruct t; try (eexists f, (Some (-1)), s; done);
    try (eapply body_safe_fixed;
      [ unfold convM2S_body, GQID; repeat eats_step
      | done | cbn in *; unfold NAMELEN, ERRLEN, DIRLEN in *; cbn in *; lia | lia ]);
    cbn in Hm.
  - exact (count_data_safe Rread n s _ 2 Hs (Efid f) eq_refl Hm Hl).
  - destruct (count_data_safe Twrite n s _ 10 Hs (eats_bind _ _ 2 8 (Efid f) Eoff)
      eq_refl Hm Hl) as (f' & e & s' & E & He).
    exists f', e, s'. split; [| exact He]. rewrite <- E. unfold convM2S_body.
    cbv [mbind rd_bind]. by destruct (GSHORT set_fid f s) as [[? ?] |].
Qed.

(** ** The properties of the marshalling *)

(** The buffer that [convS2M] leaves is the wire form of the table. *)
Lemma convS2M_wire f t fds ap :
  wf_fcall f -> styxtype (type f) = Some t -> layout t = Some fds ->
  (length (wire [0%Z] f fds) <= length ap)%nat ->
  exists pad, length pad = 1%nat /\
    convS2M f ap = Some (Z.of_nat (length (wire pad f fds)),
      wire pad f fds ++ drop (length (wire pad f fds)) ap).
Proof.
  intros Hwf Ht Hl Hap. unfold wire in Hap |- *.
  rewrite length_cons, length_app in Hap. cbn [length le16] in Hap.
  destruct (convS2M_body_layout f t fds (drop 3 ap) Hwf Ht Hl
    ltac:(rewrite length_drop; lia)) as (w & pad & Ew & Hpad & Hw).
  exists pad. split; [done |]. unfold convS2M. rewrite Ew.
  assert (writes (PCHAR (type f) >>> PSHORT (tag f)) ap ([u8 (type f)] ++ le16 (tag f))) as E.
  { apply writes_seq; [apply writes_putb; lia |].
    apply writes_short. rewrite length_drop. cbn [length]. lia. }
  unfold writes in E, Hw. rewrite E. cbn [mbind option_bind app length le16].
  rewrite Hw. cbn [mbind option_bind]. rewrite drop_drop. done.
Qed.

(** Any illegal type is refused by both directions. *)
Lemma convM2S_header f0 ty tg rest n :
  is_byte ty -> 3 <= n ->
  convM2S (u8 ty :: le16 tg ++ rest) f0 n =
  let f := set_tag (u16 tg) (set_type ty f0) in
  match styxtype ty with
  | None => Some (f, -1)
  | Some t =>
      if n <? msglen t then Some (f, 0) else
      '((f, early), p) ← convM2S_body t n f rest;
      match early with
      | Some r => Some (f, r)
      | None => Some (f, Z.of_nat (length (u8 ty :: le16 tg ++ rest)) - Z.of_nat (length p))
      end
  end.
Proof.
  intros Hty Hn. unfold convM2S. destruct (Z.ltb_spec n 3); [lia |].
  assert (reads (f ← GCHAR set_type f0; GSHORT set_tag f) ([u8 ty] ++ le16 tg)
    (set_tag (u16 tg) (set_type (u8 ty) f0))) as H'.
  { eapply reads_bind; [apply reads_char | apply reads_short]. }
  change (u8 ty :: le16 tg ++ rest) with (([u8 ty] ++ le16 tg) ++ rest).
  rewrite (H' rest). cbn [mbind option_bind].
  rewrite (wrapu_id 8 ty) by done. done.
Qed.

Lemma msglen_layout t fds f pad :
  wf_fcall f -> layout t = Some fds -> length pad = 1%nat ->
  Z.of_nat (length (wire pad f fds)) =
    msglen t + (if has_field fds Fdata then count f else 0).
Proof.
  intros Hwf Hl Hpad. destruct Hwf.
  destruct t; cbn in Hl; try discriminate Hl; injection Hl as <-; unfold wire;
    eval_has_field; cbn [mbind list_bind fbytes];
    rewrite ?length_cons, ?length_app, ?Hpad;
    cbn [length le16 le32 le64 app msglen]; rewrite ?length_app, ?Hpad;
    unfold NAMELEN, ERRLEN, DIRLEN in *; cbn [length]; lia.
Qed.

(** C11. Round trip: for every message type of the protocol, [convS2M] fills
    the front of the buffer with the wire form that the protocol table
    prescribes, returns its length and leaves the rest of the buffer alone;
    [convM2S], given at least that many bytes, consumes exactly the message,
    recovers the type, the tag and every field the message carries, and leaves
    the other members of the structure as they were. *)
Theorem styx_roundtrip (f f0 : Fcall) (t : STYXtype) (fds : list field) (ap : list Z) (n : Z) :
  wf_fcall f -> styxtype (type f) = Some t -> layout t = Some fds ->
  (length (wire [0%Z] f fds) <= length ap)%nat ->
  exists pad len f1,
    convS2M f ap = Some (len, wire pad f fds ++ drop (Z.to_nat len) ap) /\
    len = Z.of_nat (length (wire pad f fds)) /\
    (len <= n ->
      convM2S (wire pad f fds ++ drop (Z.to_nat len) ap) f0 n = Some (f1, len) /\
      type f1 = type f /\ tag f1 = tag f /\
      forall fd, if has_field fds fd then same_field f1 f fd else same_field f1 f0 fd).
Proof.
  intros Hwf Ht Hl Hap.
  destruct (convS2M_wire f t fds ap Hwf Ht Hl Hap) as (pad & Hpad & E).
  pose proof (msglen_layout t fds f pad Hwf Hl Hpad) as Hlen.
  assert (0 <= (if has_field fds Fdata then count f else 0)) as Hc
    by (destruct Hwf; case_match; lia).
  set (f00 := set_tag (u16 (tag f)) (set_type (type f) f0)).
  destruct (Z.leb_spec (Z.of_nat (length (wire pad f fds))) n) as [Hn | Hn].
  2:{ exists pad, (Z.of_nat (length (wire pad f fds))), f0.
      rewrite Nat2Z.id. split; [done | split; [done | lia]]. }
  destruct (convM2S_body_layout f f00 t fds pad n Hwf Hl Hpad) as (f1 & Hr & Ety & Etg & Hd).
  { unfold wire in Hn. rewrite length_cons, length_app in Hn. cbn [length le16] in Hn. lia. }
  exists pad, (Z.of_nat (length (wire pad f fds))), f1. rewrite Nat2Z.id.
  split; [done |]. split; [done |]. intros _.
  split.
  - unfold wire at 1. rewrite <- app_comm_cons, <- app_assoc, convM2S_header.
    + fold f00. rewrite Ht. destruct (Z.ltb_spec n (msglen t)); [lia |].
      cbn zeta. rewrite (Hr _). cbn [mbind option_bind]. do 2 f_equal.
      unfold wire. rewrite !length_cons, !length_app. lia.
    + apply Hwf.
    + unfold wire in Hn. rewrite length_cons, length_app in Hn. cbn [length le16] in Hn. lia.
  - destruct Hwf. split; [done |]. split; [rewrite Etg; by apply unsigned_wire |].
    intros fd. specialize (Hd fd). by destruct (has_field fds fd), fd.
Qed.

Lemma data_incomplete t n g s :
  n < msglen t + count g -> GDATA t n g s = Some ((g, Some 0), s).
Proof. intros H. unfold GDATA. by destruct (Z.ltb_spec n (msglen t + count g)); [| lia]. Qed.

Lemma take_header {A} (k : nat) (h r : list A) :
  (length h <= k)%nat -> take k (h ++ r) = h ++ take (k - length h) r.
Proof. intros. rewrite take_app. by rewrite (take_ge h). Qed.

(** A message with data whose data is not there yet. *)
Lemma convM2S_body_incomplete f f0 t fds pad n rest :
  wf_fcall f -> layout t = Some fds -> msglen t <= n ->
  n < msglen t + (if has_field fds Fdata then count f else 0) ->
  exists f1 s',
    convM2S_body t n f0 (take (Z.to_nat (n - 3)) (mbind (fbytes pad f) fds) ++ rest)
      = Some ((f1, Some 0), s').
Proof.
  intros Hwf Hl Hn Hc. pose proof (count_wire f Hwf) as Hcw.
  destruct t; cbn in Hl; try discriminate Hl; injection Hl as <-;
    revert Hc; eval_has_field; cbn [msglen]; intros Hc; cbn [msglen] in Hn; try lia;
    cbn [mbind list_bind fbytes]; rewrite app_nil_r.
  - rewrite app_assoc, take_header, <- app_assoc by (cbn [length le16 app]; lia).
    unfold convM2S_body. do 2 eexists.
    assert (reads (f ← GSHORT set_fid f0; GSHORT set_count f) (le16 (fid f) ++ le16 (count f))
      (set_count (u16 (count f)) (set_fid (u16 (fid f)) f0))) as H
      by (repeat reads_step).
    specialize (H (take (Z.to_nat (n - 3) - length (le16 (fid f) ++ le16 (count f)))
      (pad ++ data f) ++ rest)).
    revert H. cbv [mbind rd_bind]. destruct (GSHORT set_fid f0 _) as [[f1 s1] |]; [| done].
    intros ->. apply data_incomplete. cbn. lia.
  - rewrite (app_assoc (le64 _)), app_assoc, take_header, <- app_assoc
      by (cbn [length le16 le64 le32 app]; lia).
    unfold convM2S_body. do 2 eexists.
    assert (reads (f ← GSHORT set_fid f0; f ← GVLONG set_offset f; GSHORT set_count f)
      (le16 (fid f) ++ le64 (offset f) ++ le16 (count f))
      (set_count (u16 (count f)) (set_offset (u32 (offset f)) (set_fid (u16 (fid f)) f0))))
      as H by (repeat reads_step).
    specialize (H (take (Z.to_nat (n - 3)
      - length (le16 (fid f) ++ le64 (offset f) ++ le16 (count f))) (pad ++ data f) ++ rest)).
    revert H. cbv [mbind rd_bind]. destruct (GSHORT set_fid f0 _) as [[f1 s1] |]; [| done].
    destruct (GVLONG set_offset f1 s1) as [[f2 s2] |]; [| done].
    intros ->. apply data_incomplete. cbn. lia.
Qed.

(** Framing: given only the first [n] bytes of a message, whatever garbage
    follows them in the buffer, [convM2S] answers 0, "not all there yet";
    so a reader that appends to its buffer until the result is not 0 neither
    misses nor misreads a message. *)
Theorem styx_framing (f f0 : Fcall) (t : STYXtype) (fds : list field) (pad rest : list Z)
    (n : Z) :
  wf_fcall f -> styxtype (type f) = Some t -> layout t = Some fds -> length pad = 1%nat ->
  0 <= n < Z.of_nat (length (wire pad f fds)) ->
  exists f1, convM2S (take (Z.to_nat n) (wire pad f fds) ++ rest) f0 n = Some (f1, 0).
Proof.
  intros Hwf Ht Hl Hpad Hn.
  rewrite (msglen_layout t fds f pad Hwf Hl Hpad) in Hn.
  destruct (Z.ltb_spec n 3) as [H3 | H3].
  { exists f0. unfold convM2S. by destruct (Z.ltb_spec n 3); [| lia]. }
  set (body := mbind (fbytes pad f) fds).
  assert (take (Z.to_nat n) (wire pad f fds) ++ rest =
    u8 (type f) :: le16 (tag f) ++ take (Z.to_nat (n - 3)) body ++ rest) as ->.
  { change (wire pad f fds) with ((u8 (type f) :: le16 (tag f)) ++ body).
    rewrite take_header by (cbn [length le16]; lia). rewrite <- app_assoc. cbn [app].
    cbn [length le16]. do 4 f_equal. lia. }
  rewrite convM2S_header by (done || apply Hwf). rewrite Ht. cbn zeta.
  destruct (Z.ltb_spec n (msglen t)); [by eexists |].
  destruct (convM2S_body_incomplete f (set_tag (u16 (tag f)) (set_type (type f) f0))
    t fds pad n rest Hwf Hl ltac:(lia) ltac:(lia)) as (f1 & s' & E).
  fold body in E. rewrite E. by eexists.
Qed.

(** C17. Safety on hostile input: on any [n] bytes at all, [convM2S] returns
    (it never faults), it inspects none of the memory past the [n] bytes, and
    the result is -1 (not a message), 0 (incomplete) or the length of a
    message inside the [n] bytes. *)
Theorem convM2S_safe (ap : list Z) (f : Fcall) (n : Z) :
  bytes ap -> 0 <= n <= Z.of_nat (length ap) ->
  exists f1 r,
    convM2S ap f n = Some (f1, r) /\
    convM2S (take (Z.to_nat n) ap) f n = Some (f1, r) /\
    (r = -1 \/ r = 0 \/ 3 <= r <= n).
Proof.
  intros Hb Hn. unfold convM2S. destruct (Z.ltb_spec n 3); [by exists f, 0; auto |].
  destruct ap as [|b0 [|b1 [|b2 s]]]; try (cbn in Hn; lia).
  replace (Z.to_nat n) with (3 + Z.to_nat (n - 3))%nat by lia.
  cbn [Nat.add take].
  assert (forall r, (f ← GCHAR set_type f; GSHORT set_tag f) (b0 :: b1 :: b2 :: r)
    = Some (set_tag (Z.lor b1 (Z.shiftl b2 8)) (set_type b0 f), r)) as E by done.
  rewrite !E. cbn [mbind option_bind].
  set (f1 := set_tag _ _). destruct (styxtype (type f1)) as [t|]; [| by exists f1, (-1); auto].
  destruct (Z.ltb_spec n (msglen t)); [by exists f1, 0; auto |].
  assert (bytes s) as Hs by (by do 3 (apply Forall_cons in Hb as [_ Hb])).
  destruct (convM2S_body_safe t n f1 (take (Z.to_nat (n - 3)) s))
    as (f' & e & s' & Eb & He); [by apply Forall_take | done | done | |].
  { rewrite length_take. cbn in Hn. lia. }
  pose proof (convM2S_body_local t n f1 _ _ _ (drop (Z.to_nat (n - 3)) s) Eb) as El.
  rewrite take_drop in El. rewrite Eb, El. cbn [mbind option_bind].
  destruct e as [r|].
  { exists f', r. split_and!; [done.. |]. subst r. destruct (layout t); auto. }
  exists f', (3 + Z.of_nat (length (take (Z.to_nat (n - 3)) s)) - Z.of_nat (length s')).
  rewrite !length_cons, length_app, length_drop, length_take in *. cbn [length] in Hn.
  split_and!; [do 2 f_equal; lia | do 2 f_equal; lia | lia].
Qed.

(** The types that are not messages are refused both ways: [convS2M]
    returns -1 having stored only the type and the tag, and [convM2S] returns
    -1 for a buffer with that type byte. *)
Theorem styx_illegal_type (f f0 : Fcall) (ap rest : list Z) (n : Z) :
  0 <= type f < 256 -> 3 <= n -> (3 <= length ap)%nat ->
  match styxtype (type f) with Some t => layout t = None | None => True end ->
  convS2M f ap = Some (-1, u8 (type f) :: le16 (tag f) ++ drop 3 ap) /\
  exists f1, convM2S (u8 (type f) :: le16 (tag f) ++ rest) f0 n = Some (f1, -1).
Proof.
  intros Hty Hn Hap Hl. split.
  - unfold convS2M.
    assert (convS2M_body f = None) as ->.
    { unfold convS2M_body. destruct (styxtype (type f)) as [t|]; [| done]. by destruct t. }
    destruct ap as [|? [|? [|? ap]]]; try (cbn in Hap; lia). done.
  - rewrite convM2S_header by done. cbn zeta.
    destruct (styxtype (type f)) as [t|]; [| by eexists].
    assert (msglen t = 0) as Hm by (by destruct t).
    destruct (Z.ltb_spec n (msglen t)); [lia |].
    destruct t; try discriminate Hl; by eexists.
Qed.

(** A directory entry whose members hold values of their types. *)
Record wf_dir (d : Dir) : Prop := {
  wf_d_name : Z.of_nat (length (d_name d)) = NAMELEN;
  wf_d_uid : Z.of_nat (length (d_uid d)) = NAMELEN;
  wf_d_gid : Z.of_nat (length (d_gid d)) = NAMELEN;
  wf_d_path : 0 <= d_path d < 2 ^ 32;
  wf_d_vers : 0 <= d_vers d < 2 ^ 32;
  wf_d_mode : 0 <= d_mode d < 2 ^ 32;
  wf_d_atime : -2 ^ 31 <= d_atime d < 2 ^ 31;
  wf_d_mtime : -2 ^ 31 <= d_mtime d < 2 ^ 31;
  wf_d_length : 0 <= d_length d < 2 ^ 32;
  wf_d_type : 0 <= d_type d < 2 ^ 16;
  wf_d_dev : 0 <= d_dev d < 2 ^ 16
}.

Lemma dir_eq (a b : Dir) :
  d_name a = d_name b -> d_uid a = d_uid b -> d_gid a = d_gid b ->
  d_path a = d_path b -> d_vers a = d_vers b -> d_mode a = d_mode b ->
  d_atime a = d_atime b -> d_mtime a = d_mtime b -> d_length a = d_length b ->
  d_type a = d_type b -> d_dev a = d_dev b -> a = b.
Proof. destruct a, b. cbn. congruence. Qed.

Definition dirwire (d : Dir) : list Z :=
  d_name d ++ d_uid d ++ d_gid d ++ le32 (d_path d) ++ le32 (d_vers d) ++
  le32 (d_mode d) ++ le32 (d_atime d) ++ le32 (d_mtime d) ++ le64 (d_length d) ++
  le16 (d_type d) ++ le16 (d_dev d).

Lemma dirwire_length d : wf_dir d -> Z.of_nat (length (dirwire d)) = DIRLEN.
Proof.
  intros []. unfold dirwire. rewrite !length_app. cbn [length le16 le32 le64 app].
  unfold NAMELEN, DIRLEN in *. lia.
Qed.

(** Directory entries: [convD2M] writes exactly the [DIRLEN] bytes that
    the [stat] member of a message carries, and [convM2D] recovers every
    member of the entry from them. *)
Theorem dir_roundtrip (d d0 : Dir) (ap : list Z) :
  wf_dir d -> DIRLEN <= Z.of_nat (length ap) ->
  convD2M d ap = Some (DIRLEN, dirwire d ++ drop (Z.to_nat DIRLEN) ap) /\
  Z.of_nat (length (dirwire d)) = DIRLEN /\
  convM2D (dirwire d ++ drop (Z.to_nat DIRLEN) ap) d0 = Some (d, DIRLEN).
Proof.
  intros Hwf Hap. pose proof (dirwire_length d Hwf) as Hlen.
  assert (Z.to_nat DIRLEN = length (dirwire d)) as Hn by lia.
  destruct Hwf as []. split_and!; [| done |].
  - unfold convD2M.
    match goal with |- context [mbind _ (?w ap)] =>
      assert (writes w ap (dirwire d)) as Hw end.
    { unfold dirwire. unfold NAMELEN, DIRLEN in *.
      repeat eapply writes_seq; auto with wr. }
    rewrite Hw. cbn [mbind option_bind]. by rewrite Hlen, Hn.
  - unfold convM2D.
    match goal with |- context [mbind _ (?m (_ ++ ?r))] =>
      assert (exists d1, reads m (dirwire d) d1 /\ d1 = d) as (d1 & Hr & ->) end.
    { eexists. split; [unfold dirwire; repeat reads_step |].
      apply dir_eq; cbn;
        first [ done | by apply signed_wire | by apply unsigned_wire ]. }
    rewrite (Hr _). cbn [mbind option_bind]. rewrite length_app. do 2 f_equal. lia.
Qed.

(** ** Witnesses *)

Definition ex_array (n : Z) : list Z := replicate (Z.to_nat n) 0.

Definition ex_fcall (ty : Z) : Fcall :=
  mkFcall ty 7 1 2 0x80000001 5 (ex_array NAMELEN) (ex_array NAMELEN) (ex_array ERRLEN)
    (-1) 8 (ex_array NAMELEN) 2 4096 3 [104; 105; 10] (ex_array DIRLEN).

Lemma ex_fcall_wf ty : 0 <= ty < 256 -> wf_fcall (ex_fcall ty).
Proof. intros H. constructor; first [exact H | done | by cbn]. Defined.

(** A [Twrite] of three bytes through a 64-byte buffer. *)
Lemma styx_roundtrip_witness :
  exists pad len f1,
    convS2M (ex_fcall 16) (ex_array ERRLEN) =
      Some (len, wire pad (ex_fcall 16) [Ffid; Foffset; Fcount; Fdata]
        ++ drop (Z.to_nat len) (ex_array ERRLEN)) /\
    len = Z.of_nat (length (wire pad (ex_fcall 16) [Ffid; Foffset; Fcount; Fdata])) /\
    (len <= 64 ->
      convM2S (wire pad (ex_fcall 16) [Ffid; Foffset; Fcount; Fdata]
        ++ drop (Z.to_nat len) (ex_array ERRLEN)) (ex_fcall 0) 64 = Some (f1, len) /\
      type f1 = 16 /\ tag f1 = 1 /\
      forall fd, if has_field [Ffid; Foffset; Fcount; Fdata] fd
        then same_field f1 (ex_fcall 16) fd else same_field f1 (ex_fcall 0) fd).
Proof.
  apply (styx_roundtrip (ex_fcall 16) (ex_fcall 0) Twrite _ (ex_array ERRLEN) 64);
    [by apply ex_fcall_wf | done | done | apply Nat.leb_le; done].
Defined.

(** The first 17 of the 19 bytes of that message. *)
Lemma styx_framing_witness :
  exists f1, convM2S (take (Z.to_nat 17) (wire [9] (ex_fcall 16)
    [Ffid; Foffset; Fcount; Fdata]) ++ [1; 2]) (ex_fcall 0) 17 = Some (f1, 0).
Proof.
  apply (styx_framing (ex_fcall 16) (ex_fcall 0) Twrite _ [9] [1; 2] 17);
    [by apply ex_fcall_wf | done | done | done | done].
Defined.

(** A [Tflush] header whose old tag is cut off. *)
Lemma convM2S_safe_witness :
  exists f1 r,
    convM2S [4; 1; 0; 7] (ex_fcall 0) 4 = Some (f1, r) /\
    convM2S (take (Z.to_nat 4) [4; 1; 0; 7]) (ex_fcall 0) 4 = Some (f1, r) /\
    (r = -1 \/ r = 0 \/ 3 <= r <= 4).
Proof.
  apply (convM2S_safe [4; 1; 0; 7] (ex_fcall 0) 4); [repeat constructor; lia | done].
Defined.

Lemma styx_illegal_type_witness :
  convS2M (ex_fcall 26) [0; 0; 0; 9] = Some (-1, [26; 1; 0; 9]) /\
  exists f1, convM2S [26; 1; 0; 9] (ex_fcall 0) 4 = Some (f1, -1).
Proof.
  apply (styx_illegal_type (ex_fcall 26) (ex_fcall 0) [0; 0; 0; 9] [9] 4);
    [done | done | apply Nat.leb_le; done | done].
Defined.

Definition ex_dir : Dir :=
  mkDir (ex_array NAMELEN) (ex_array NAMELEN) (ex_array NAMELEN)
    0x80000001 3 0x1ff (-1) 929000000 512 47 0.

Lemma dir_roundtrip_witness :
  convD2M ex_dir (ex_array DIRLEN) =
    Some (DIRLEN, dirwire ex_dir ++ drop (Z.to_nat DIRLEN) (ex_array DIRLEN)) /\
  Z.of_nat (length (dirwire ex_dir)) = DIRLEN /\
  convM2D (dirwire ex_dir ++ drop (Z.to_nat DIRLEN) (ex_array DIRLEN)) ex_dir
    = Some (ex_dir, DIRLEN).
Proof.
  apply (dir_roundtrip ex_dir ex_dir (ex_array DIRLEN)); [constructor; first [done | by cbn] | by cbn].
Defined.
