(* ===== verification/Heap.v ===== *)
(** * A store of C structures

    Components whose state is a graph of heap structures run in the monad
    [heapM V]: a store from addresses to structures of type [V], with loads,
    stores, [malloc] and [free].  A pointer is an [option positive], nil being
    [None].  Dereferencing nil or a freed structure is a fault, and so is a
    loop that has not ended after more rounds than the store has structures.

    Programs are specified by weakest preconditions in the separation logic of
    predicates over the part of the store they own, an instance of Iris's [bi]
    so that its proof mode does the bookkeeping.  The logic is linear: a
    specification accounts for every structure, none can be leaked. *)

From S2P Require Import Prelude.
From iris.proofmode Require Export proofmode.

Abbreviation ptr := (option positive).
Abbreviation nil_ptr := (@None positive).

(** ** Predicates over a store *)

Record hprop (V : Type) : Type := HProp { holds : gmap positive V -> Prop }.
Arguments HProp {V} _.
Arguments holds {V} _ _.

Section Logic.
Context {V : Type}.
Implicit Types (P Q : hprop V) (h : gmap positive V).

(** (Inductive types, so that they do not unfold to products.) *)
Record hequiv P Q : Prop := HEquiv { equiv_at : forall h, holds P h <-> holds Q h }.
Record hentails P Q : Prop := HEntails { entails_at : forall h, holds P h -> holds Q h }.
#[local] Hint Resolve entails_at : core.

#[local] Instance hprop_equiv : Equiv (hprop V) := hequiv.
#[local] Instance hprop_equivalence : Equivalence (≡@{hprop V}).
Proof.
  split; [by intros P; split | intros P Q [E]; split; by symmetry | intros P Q R [E1] [E2]; split].
  intros h. by rewrite (E1 h).
Qed.

Canonical Structure hpropO := discreteO (hprop V).

Definition hemp : hprop V := HProp (fun h => h = ∅).
Definition hpure (X : Prop) : hprop V := HProp (fun _ => X).
Definition hand P Q : hprop V := HProp (fun h => holds P h /\ holds Q h).
Definition hor P Q : hprop V := HProp (fun h => holds P h \/ holds Q h).
Definition himpl P Q : hprop V := HProp (fun h => holds P h -> holds Q h).
Definition hforall A (P : A -> hprop V) : hprop V := HProp (fun h => forall a, holds (P a) h).
Definition hexist A (P : A -> hprop V) : hprop V := HProp (fun h => exists a, holds (P a) h).
Definition hsep P Q : hprop V :=
  HProp (fun h => exists h1 h2, h = h1 ∪ h2 /\ h1 ##ₘ h2 /\ holds P h1 /\ holds Q h2).
Definition hwand P Q : hprop V :=
  HProp (fun h => forall h', h ##ₘ h' -> holds P h' -> holds Q (h ∪ h')).
Definition hpersistently P : hprop V := HProp (fun _ => hentails hemp P).

Lemma hprop_bi_mixin :
  BiMixin hentails hemp hpure hand hor himpl hforall hexist hsep hwand.
Proof.
  split.
  - split; [by intros P; split | intros P Q R [H1] [H2]; split; auto].
  - intros P Q. split; [intros [E]; split; split; intros h; apply E |].
    intros [[H1] [H2]]. split. intros h. split; auto.
  - intros n X Y E. split. intros h. exact E.
  - intros n P P' [E1] Q Q' [E2]. split. intros h. simpl. by rewrite E1 E2.
  - intros n P P' [E1] Q Q' [E2]. split. intros h. simpl. by rewrite E1 E2.
  - intros n P P' [E1] Q Q' [E2]. split. intros h. simpl. by rewrite E1 E2.
  - intros A n P P' E. split. intros h. simpl. split; intros Hx a; apply (equiv_at _ _ (E a) h), Hx.
  - intros A n P P' E. split. intros h. simpl.
    split; intros [a Hx]; exists a; by apply (equiv_at _ _ (E a) h).
  - intros n P P' [E1] Q Q' [E2]. split. intros h. simpl.
    split; intros (h1 & h2 & ? & ? & ? & ?); exists h1, h2; split_and!; try done; by first [apply E1 | apply E2].
  - intros n P P' [E1] Q Q' [E2]. split. intros h. simpl.
    split; intros Hx h' D HP; apply E2, Hx; try done; by apply E1.
  - intros P HX ?. by split.
  - intros X P Hx. split. intros h HX. by apply (Hx HX).
  - intros P Q. by split; intros h [].
  - intros P Q. by split; intros h [].
  - intros P Q R [H1] [H2]. split; intros h HP; split; auto.
  - intros P Q. by split; left.
  - intros P Q. by split; right.
  - intros P Q R [H1] [H2]. split. intros h [HP | HQ]; auto.
  - intros P Q R [Hx]. split. intros h HP HQ. by apply Hx.
  - intros P Q R [Hx]. split. intros h [HP HQ]. by apply (Hx h HP).
  - intros A P Ψ Hx. split. intros h HP a. by apply Hx.
  - intros A Ψ a. split. intros h Hx. apply Hx.
  - intros A Ψ a. split. intros h Hx. by exists a.
  - intros A Φ Q Hx. split. intros h [a Ha]. by apply (Hx a).
  - intros P P' Q Q' [H1] [H2]. split. intros h (h1 & h2 & -> & D & HP & HQ).
    exists h1, h2. auto.
  - intros P. split. intros h HP. exists ∅, h. rewrite (left_id_L ∅ (∪)).
    split_and!; try done. apply map_disjoint_empty_l.
  - intros P. split. intros h (h1 & h2 & -> & D & -> & HP). by rewrite (left_id_L ∅ (∪)).
  - intros P Q. split. intros h (h1 & h2 & -> & D & HP & HQ). exists h2, h1.
    split_and!; [by apply map_union_comm | by symmetry | done | done].
  - intros P Q R. split. intros h (h12 & h3 & -> & D & (h1 & h2 & -> & D' & HP & HQ) & HR).
    apply map_disjoint_union_l in D as [D13 D23].
    exists h1, (h2 ∪ h3). split_and!; [by rewrite assoc_L | by apply map_disjoint_union_r | done |].
    by exists h2, h3.
  - intros P Q R [Hx]. split. intros h HP h' D HQ. apply Hx. by exists h, h'.
  - intros P Q R [Hx]. split. intros h (h1 & h2 & -> & D & HP & HQ). by apply (Hx h1 HP).
Qed.

Lemma hprop_persistently_mixin :
  BiPersistentlyMixin hentails hemp hand hexist hsep hpersistently.
Proof.
  eapply bi_persistently_mixin_discrete, hprop_bi_mixin; [done | | done].
  intros A Φ [Hx]. destruct (Hx ∅) as [a Ha]; [done |].
  exists a. split. intros h ->. done.
Qed.

Lemma hprop_later_mixin :
  BiLaterMixin hentails hpure hor himpl hforall hexist hsep hpersistently (fun P => P).
Proof. eapply bi_later_mixin_id, hprop_bi_mixin. done. Qed.

Canonical Structure hpropI : bi :=
  {| bi_ofe_mixin := ofe_mixin_of (hprop V); bi_bi_mixin := hprop_bi_mixin;
     bi_bi_persistently_mixin := hprop_persistently_mixin;
     bi_bi_later_mixin := hprop_later_mixin |}.

#[global] Instance hprop_pure_forall : BiPureForall hpropI.
Proof. intros A φ. split. by intros h Hx. Qed.

End Logic.

Arguments hpropI V : clear implicits.

(** ** Programs *)

(** The outcome of running a piece of code. *)
Inductive outcome (V A : Type) : Type :=
  | Ok (a : A) (h : gmap positive V)
  | Fault.
Arguments Ok {V A} a h.
Arguments Fault {V A}.

Definition heapM (V A : Type) : Type := gmap positive V -> outcome V A.

#[global] Instance heapM_ret {V} : MRet (heapM V) := fun A a h => Ok a h.
#[global] Instance heapM_bind {V} : MBind (heapM V) := fun A B k m h =>
  match m h with Ok a h' => k a h' | Fault => Fault end.

Definition fault {V A} : heapM V A := fun _ => Fault.

(** What the code would do wrong if [b] does not hold. *)
Definition require {V} (b : bool) : heapM V unit := if b then mret tt else fault.

(** [*p] *)
Definition load {V} (p : ptr) : heapM V V := fun h =>
  match p with
  | Some x => match h !! x with Some v => Ok v h | None => Fault end
  | None => Fault
  end.

(** [*p = v] *)
Definition store {V} (p : ptr) (v : V) : heapM V unit := fun h =>
  match p with
  | Some x => match h !! x with Some _ => Ok tt (<[x := v]> h) | None => Fault end
  | None => Fault
  end.

(** [malloc]: an address not in use. *)
Definition alloc {V} (v : V) : heapM V ptr := fun h =>
  let x := fresh (dom h) in Ok (Some x) (<[x := v]> h).

(** [free] *)
Definition free {V} (p : ptr) : heapM V unit := fun h =>
  match p with
  | Some x => match h !! x with Some _ => Ok tt (delete x h) | None => Fault end
  | None => Fault
  end.

(** Structures from outside: [f] says which, none of them there yet, or that
    there are none. *)
Definition grow {V A} (f : gmap positive V -> option (A * gmap positive V)) : heapM V (option A) := fun h =>
  match f h with Some (a, m) => Ok (Some a) (m ∪ h) | None => Ok None h end.

(** [p->field op= e] *)
Definition modify {V} (p : ptr) (f : V -> V) : heapM V unit :=
  load p ≫= fun v => store p (f v).

(** A C loop: [body] gives the next state of the locals or the loop's result.
    [n] bounds the rounds. *)
Fixpoint iter {V S R} (n : nat) (body : S -> heapM V (S + R)) (s : S) : heapM V R :=
  match n with
  | O => fault
  | Datatypes.S n => body s ≫= fun r =>
      match r with inl s' => iter n body s' | inr r => mret r end
  end.

(** A loop that walks a structure of the store takes no more rounds than the
    store has structures. *)
Definition loop {V S R} (body : S -> heapM V (S + R)) (s : S) : heapM V R := fun h =>
  iter (Datatypes.S (size h)) body s h.

(** ** Weakest preconditions *)

(** Run on the part [h] of a store it owns, beside any frame [hf], [m] returns,
    [Φ] holds of its result and of the part it leaves, and the frame is
    untouched. *)
Definition wp {V A} (m : heapM V A) (Φ : A -> hpropI V) : hpropI V :=
  HProp (fun h => forall hf, h ##ₘ hf ->
    exists a h', m (h ∪ hf) = Ok a (h' ∪ hf) /\ h' ##ₘ hf /\ holds (Φ a) h').

Definition pto {V} (x : positive) (v : V) : hpropI V := HProp (fun h => h = {[x := v]}).
Notation "x ↦ v" := (pto x v) (at level 20, format "x  ↦  v") : bi_scope.

(** A fact about the program's values, owning nothing. *)
Notation "⌈ X ⌉" := (<affine> ⌜X⌝)%I (at level 0, X at level 200, format "⌈ X ⌉") : bi_scope.

(** The part owned has at least [n] structures. *)
Definition size_ge {V} (n : nat) : hpropI V := HProp (fun h => (n <= size h)%nat).

#[local] Arguments holds _ !_ _ /.

Section Rules.
Context {V : Type}.
Implicit Types (P Q : hpropI V) (x : positive) (v : V).

Lemma wp_ret {A} (a : A) (Φ : A -> hpropI V) : Φ a ⊢ wp (mret a) Φ.
Proof. split. intros h HΦ hf D. by exists a, h. Qed.

Lemma wp_bind {A B} (m : heapM V A) (k : A -> heapM V B) (Φ : B -> hpropI V) :
  wp m (fun a => wp (k a) Φ) ⊢ wp (m ≫= k) Φ.
Proof.
  split. intros h Hm hf D. destruct (Hm hf D) as (a & h1 & E & D1 & Hk).
  destruct (Hk hf D1) as (b & h2 & E2 & D2 & HΦ).
  exists b, h2. split_and!; [| done | done]. by rewrite /mbind /heapM_bind E.
Qed.

Lemma wp_frame_wand {A} (m : heapM V A) (Φ Ψ : A -> hpropI V) :
  wp m Φ -∗ (∀ a, Φ a -∗ Ψ a) -∗ wp m Ψ.
Proof.
  apply bi.entails_wand, bi.wand_intro_r. split.
  intros h (h1 & h2 & -> & D & Hm & HW) hf Df.
  apply map_disjoint_union_l in Df as [D1 D2].
  destruct (Hm (h2 ∪ hf)) as (a & h1' & E & D' & HΦ).
  { by apply map_disjoint_union_r. }
  apply map_disjoint_union_r in D' as [D'2 D'f].
  exists a, (h2 ∪ h1'). split_and!.
  - rewrite -(assoc_L (∪)) E. f_equal. rewrite (assoc_L (∪)). f_equal. by apply map_union_comm.
  - by apply map_disjoint_union_l.
  - by apply HW; [symmetry |].
Qed.

Lemma wp_mono {A} (m : heapM V A) (Φ Ψ : A -> hpropI V) :
  (forall a, Φ a ⊢ Ψ a) -> wp m Φ ⊢ wp m Ψ.
Proof.
  intros HE. iIntros "H". iApply (wp_frame_wand with "H"). iIntros (a) "H". by iApply HE.
Qed.

Lemma wp_frame_l {A} (m : heapM V A) P (Φ : A -> hpropI V) :
  P ∗ wp m Φ ⊢ wp m (fun a => P ∗ Φ a).
Proof. iIntros "[HP H]". iApply (wp_frame_wand with "H"). iIntros (a) "$". done. Qed.

#[global] Instance frame_wp {A} p (m : heapM V A) R (Φ Ψ : A -> hpropI V) :
  (forall a, Frame p R (Φ a) (Ψ a)) -> Frame p R (wp m Φ) (wp m Ψ) | 2.
Proof.
  rewrite /Frame=> HR. rewrite wp_frame_l. apply wp_mono. intros a. apply HR.
Qed.

Lemma wp_load x v (Φ : V -> hpropI V) : x ↦ v -∗ (x ↦ v -∗ Φ v) -∗ wp (load (Some x)) Φ.
Proof.
  apply bi.entails_wand, bi.wand_intro_r. split.
  intros h (h1 & h2 & -> & D & -> & HW) hf Df. exists v, ({[x := v]} ∪ h2).
  split_and!; [| done |].
  - simpl. rewrite -!insert_union_singleton_l lookup_union_l'; rewrite ?lookup_insert_eq; done.
  - rewrite map_union_comm //. apply HW; [by symmetry | done].
Qed.

Lemma wp_store x v w (Φ : unit -> hpropI V) :
  x ↦ v -∗ (x ↦ w -∗ Φ tt) -∗ wp (store (Some x) w) Φ.
Proof.
  apply bi.entails_wand, bi.wand_intro_r. split.
  intros h (h1 & h2 & -> & D & -> & HW) hf Df. exists tt, ({[x := w]} ∪ h2).
  apply map_disjoint_union_l in Df as [Df1 Df2].
  apply map_disjoint_singleton_l in D, Df1.
  split_and!.
  - simpl. rewrite -!insert_union_singleton_l -!insert_union_l lookup_insert_eq.
    by rewrite insert_insert_eq.
  - apply map_disjoint_union_l. split; [by apply map_disjoint_singleton_l | done].
  - rewrite map_union_comm; [| by apply map_disjoint_singleton_l].
    apply HW; [by apply map_disjoint_singleton_r | done].
Qed.

Lemma wp_alloc v (Φ : ptr -> hpropI V) :
  (∀ x, x ↦ v -∗ Φ (Some x)) -∗ wp (alloc v) Φ.
Proof.
  apply bi.entails_wand. split.
  intros h HW hf Df. set (x := fresh (dom (h ∪ hf))).
  assert ((h ∪ hf) !! x = None) as Hx by apply not_elem_of_dom, is_fresh.
  apply lookup_union_None in Hx as [Hx1 Hx2].
  exists (Some x), (h ∪ {[x := v]}). split_and!.
  - rewrite /alloc -/x -(insert_union_singleton_r h) // insert_union_l //.
  - apply map_disjoint_union_l. split; [done | by apply map_disjoint_singleton_l].
  - apply (HW x); [by apply map_disjoint_singleton_r | done].
Qed.

Lemma big_sepM_holds (m : gmap positive V) : holds ([∗ map] x ↦ v ∈ m, x ↦ v)%I m.
Proof.
  induction m as [|x v m Hx IH] using map_ind.
  - apply (entails_at _ _ (bi.equiv_entails_1_2 _ _ (big_sepM_empty (fun x v => x ↦ v)%I))). done.
  - apply (entails_at _ _ (bi.equiv_entails_1_2 _ _ (big_sepM_insert (fun x v => x ↦ v)%I m x v Hx))).
    exists {[x := v]}, m. split_and!; [apply insert_union_singleton_l | by apply map_disjoint_singleton_l | done | done].
Qed.

Lemma wp_grow {A} (f : gmap positive V -> option (A * gmap positive V)) (Φ : option A -> hpropI V) :
  (forall h a m, f h = Some (a, m) -> m ##ₘ h) ->
  ((∀ h, ⌈f h = None⌉ -∗ Φ None) ∧ ∀ h a m, ⌈f h = Some (a, m)⌉ -∗ ([∗ map] x ↦ v ∈ m, x ↦ v) -∗ Φ (Some a)) ⊢ wp (grow f) Φ.
Proof.
  intros Hf. split. intros h [HN HS] hf Df. unfold grow. destruct (f (h ∪ hf)) as [[a m]|] eqn:E.
  - specialize (Hf _ _ _ E) as Dm. apply map_disjoint_union_r in Dm as [Dm Dmf].
    exists (Some a), (h ∪ m). split_and!.
    + rewrite (assoc_L (∪)). do 2 f_equal. by apply map_union_comm.
    + by apply map_disjoint_union_l.
    + pose proof (HS (h ∪ hf) a m ∅ (map_disjoint_empty_r _)) as Hw. rewrite (right_id_L ∅ (∪)) in Hw.
      apply Hw; [| by symmetry | apply big_sepM_holds]. by split.
  - pose proof (HN (h ∪ hf) ∅ (map_disjoint_empty_r _)) as Hw. rewrite (right_id_L ∅ (∪)) in Hw.
    exists None, h. split; [done |]. split; [done |]. apply Hw. by split.
Qed.

Lemma wp_free x v (Φ : unit -> hpropI V) :
  x ↦ v -∗ Φ tt -∗ wp (free (Some x)) Φ.
Proof.
  apply bi.entails_wand, bi.wand_intro_r. split.
  intros h (h1 & h2 & -> & D & -> & HΦ) hf Df. exists tt, h2.
  apply map_disjoint_union_l in Df as [Df1 Df2].
  apply map_disjoint_singleton_l in D, Df1.
  split_and!; [| done | done].
  simpl. rewrite -!insert_union_singleton_l -!insert_union_l lookup_insert_eq.
  rewrite delete_insert_id //. by apply lookup_union_None.
Qed.

Lemma wp_modify x v f (Φ : unit -> hpropI V) :
  x ↦ v -∗ (x ↦ f v -∗ Φ tt) -∗ wp (modify (Some x) f) Φ.
Proof.
  iIntros "Hx HΦ". iApply wp_bind. iApply (wp_load with "Hx"). iIntros "Hx".
  by iApply (wp_store with "Hx").
Qed.

Lemma wp_require (b : bool) (Φ : unit -> hpropI V) : b = true -> Φ tt ⊢ wp (require b) Φ.
Proof. intros ->. apply wp_ret. Qed.

Lemma pto_ne x y v w : x ↦ v -∗ y ↦ w -∗ ⌜x <> y⌝.
Proof.
  apply bi.entails_wand, bi.wand_intro_r. split.
  intros h (h1 & h2 & -> & D & -> & ->) ->.
  apply map_disjoint_singleton_l in D. by rewrite lookup_insert_eq in D.
Qed.

Lemma size_ge_0 : ⊢@{hpropI V} size_ge 0.
Proof. split. intros h _. simpl. lia. Qed.

Lemma size_ge_cons n x v : x ↦ v -∗ size_ge n -∗ size_ge (S n).
Proof.
  apply bi.entails_wand, bi.wand_intro_r. split.
  intros h (h1 & h2 & -> & D & -> & Hn). simpl in *.
  apply map_disjoint_singleton_l in D. rewrite -insert_union_singleton_l.
  rewrite map_size_insert_None //. lia.
Qed.

Lemma size_ge_absorb n : size_ge n ∗ True ⊢@{hpropI V} size_ge n.
Proof.
  split. intros h (h1 & h2 & -> & D & Hn & _). simpl in *.
  rewrite map_size_disj_union //. lia.
Qed.

Lemma size_ge_le m n : (m <= n)%nat -> size_ge n ⊢@{hpropI V} size_ge m.
Proof. intros Hmn. split. intros h Hn. simpl in *. lia. Qed.

(** A loop ends when a measure of its state decreases, and then the
    invariant gives the rest. *)
Lemma wp_iter {S R} (I : nat -> S -> hpropI V) (body : S -> heapM V (S + R)) (Φ : R -> hpropI V) n m s :
  (m < n)%nat ->
  (forall m s, I m s ⊢ wp (body s) (fun r =>
      match r with inl s' => ∃ m', <affine> ⌜(m' < m)%nat⌝ ∗ I m' s' | inr r => Φ r end)) ->
  I m s ⊢ wp (iter n body s) Φ.
Proof.
  intros Hmn HI. revert m s Hmn. induction n as [|n IH]; intros m s Hmn; [lia |].
  simpl. iIntros "H". iApply wp_bind. iPoseProof (HI with "H") as "H".
  iApply (wp_frame_wand with "H"). iIntros ([s' | r]) "H".
  - iDestruct "H" as (m') "[% H]". iApply (IH with "H"). lia.
  - by iApply wp_ret.
Qed.

Lemma wp_loop {S R} (I : nat -> S -> hpropI V) (body : S -> heapM V (S + R)) (Φ : R -> hpropI V) m s :
  (forall m s, I m s ⊢ size_ge m ∗ True) ->
  (forall m s, I m s ⊢ wp (body s) (fun r =>
      match r with inl s' => ∃ m', <affine> ⌜(m' < m)%nat⌝ ∗ I m' s' | inr r => Φ r end)) ->
  I m s ⊢ wp (loop body s) Φ.
Proof.
  intros Hsz HI. split. intros h Hh hf D. pose proof (entails_at _ _ (size_ge_absorb m) h (entails_at _ _ (Hsz m s) h Hh)) as Hm. simpl in Hm.
  assert (m < Datatypes.S (size (h ∪ hf)))%nat as Hn by (rewrite map_size_disj_union //; lia).
  unfold loop. exact (entails_at _ _ (wp_iter I body Φ _ m s Hn HI) h Hh hf D).
Qed.
End Rules.

Section Adequacy.
Context {V : Type}.

(** What a program does with the whole store. *)
Lemma wp_adequate {A} (P : hpropI V) (m : heapM V A) (Φ : A -> hpropI V) h :
  (P ⊢ wp m Φ) -> holds P h -> exists a h', m h = Ok a h' /\ holds (Φ a) h'.
Proof.
  intros HP Hh. destruct (entails_at _ _ HP h Hh ∅ (map_disjoint_empty_r _)) as (a & h' & E & _ & H).
  rewrite !(right_id_L ∅ (∪)) in E. eauto.
Qed.

Lemma holds_exist {A} (Φ : A -> hpropI V) h : holds (∃ x, Φ x)%I h <-> exists x, holds (Φ x) h.
Proof. done. Qed.

Lemma holds_pure (X : Prop) (P : hpropI V) h : holds (⌈X⌉ ∗ P)%I h -> X /\ holds P h.
Proof.
  intros H. assert (holds (⌜X⌝ ∧ P)%I h) as [? ?]; [| done].
  apply (entails_at (⌈X⌉ ∗ P)%I (⌜X⌝ ∧ P)%I); [| done]. iIntros "[% $]". done.
Qed.
End Adequacy.

#[global] Typeclasses Opaque pto wp size_ge.
#[global] Opaque pto wp size_ge.

(** Step over the first operation of a program, which works on the structure
    owned by hypothesis [Hx]. *)
Ltac wp_bind := iApply wp_bind.
Ltac wp_op tac := first [tac tt | iApply wp_bind; tac tt].
Tactic Notation "wp_load" constr(Hx) :=
  wp_op ltac:(fun _ => iApply (wp_load with Hx)); iIntros Hx; simpl.
Tactic Notation "wp_store" constr(Hx) :=
  wp_op ltac:(fun _ => first [iApply (wp_modify with Hx) | iApply (wp_store with Hx)]);
  iIntros Hx; simpl.
Tactic Notation "wp_free" constr(Hx) :=
  wp_op ltac:(fun _ => iApply (wp_free with Hx)); simpl.
Tactic Notation "wp_require" :=
  wp_op ltac:(fun _ => iApply wp_require); [| simpl].
Ltac wp_ret := iApply wp_ret.

(** ** Linked lists

    Structures chained through one of their fields. *)

Class Linked (V : Type) := {
  next : V -> ptr;
  set_next : ptr -> V -> V;
  next_set_next p v : next (set_next p v) = p;
  set_next_set_next p q v : set_next p (set_next q v) = set_next p v;
  set_next_next v : set_next (next v) v = v;
}.

(** The pointer to a chain [xs] that continues at [q]. *)
Definition start {V} (xs : list (positive * V)) (q : ptr) : ptr :=
  match xs with [] => q | (x, _) :: _ => Some x end.

Section Lseg.
Context `{Linked V}.

(** [xs] in the store, chained in order, the last link being [q].  The link of
    a [v] in [xs] itself means nothing. *)
Fixpoint lseg (xs : list (positive * V)) (q : ptr) : hpropI V :=
  match xs with
  | [] => emp
  | (x, v) :: xs => x ↦ set_next (start xs q) v ∗ lseg xs q
  end%I.

End Lseg.
#[global] Arguments lseg {V _} !xs q /.

Abbreviation chain xs := (lseg xs None).

Section Lists.
Context `{Linked V}.
Implicit Types (xs ys : list (positive * V)).

Lemma start_app xs ys q : start (xs ++ ys) q = start xs (start ys q).
Proof. by destruct xs as [|[]]. Qed.

Lemma start_cons x v xs q : start ((x, v) :: xs) q = Some x.
Proof. done. Qed.

Lemma start_None xs : start xs None = None <-> xs = [].
Proof. by destruct xs as [|[]]. Qed.

Lemma lseg_cons x v xs q :
  lseg ((x, v) :: xs) q ⊣⊢ x ↦ set_next (start xs q) v ∗ lseg xs q.
Proof. done. Qed.

#[global] Instance into_sep_lseg_cons x v xs q :
  IntoSep (lseg ((x, v) :: xs) q) (x ↦ set_next (start xs q) v) (lseg xs q) | 0.
Proof. by rewrite /IntoSep lseg_cons. Qed.

Lemma lseg_app xs ys q : lseg (xs ++ ys) q ⊣⊢ lseg xs (start ys q) ∗ lseg ys q.
Proof.
  induction xs as [|[x v] xs IH]; simpl; [by rewrite left_id |].
  by rewrite start_app IH assoc.
Qed.

(** One structure of a chain, to be put back with other contents. *)
Lemma lseg_borrow xs x v ys q :
  lseg (xs ++ (x, v) :: ys) q ⊢
  x ↦ set_next (start ys q) v ∗
  (∀ v', x ↦ set_next (start ys q) v' -∗ lseg (xs ++ (x, v') :: ys) q).
Proof.
  rewrite lseg_app lseg_cons. iIntros "(Hxs & $ & Hys)". iIntros (v') "Hx".
  rewrite lseg_app lseg_cons. iFrame.
Qed.

Lemma lseg_size xs q : lseg xs q ⊢ size_ge (length xs).
Proof.
  induction xs as [|[x v] xs IH]; simpl.
  - iIntros "_". iApply size_ge_0.
  - iIntros "[Hx Hxs]". iApply (size_ge_cons with "Hx"). by iApply IH.
Qed.

Lemma lseg_size_le n xs q : (n <= length xs)%nat -> lseg xs q ⊢ size_ge n ∗ True.
Proof.
  iIntros (?) "H". iSplitL; [| done]. iApply size_ge_le; [done |]. by iApply lseg_size.
Qed.

End Lists.
