(* ===== verification/Block.v ===== *)
(** * Blocks ([emu/qio.c])

    A [Block] is a buffer with a window [rp, wp) of bytes not yet consumed;
    blocks are chained through [next].  [base] is offset 0 of the buffer and
    [lim] its length, so pointers into the buffer are offsets.  A copy that
    would leave the buffer, and any use of a freed block, is a fault. *)

From S2P Require Import Prelude Heap.

#[local] Open Scope Z_scope.

Record Block := MkBlock {
  b_next : ptr;
  b_rp : Z;                 (* first unconsumed byte *)
  b_wp : Z;                 (* first empty byte *)
  b_buf : list Z;           (* base .. lim *)
  b_free : bool;            (* a driver's own free routine is set *)
}.

Definition lim (b : Block) : Z := Z.of_nat (length (b_buf b)).
Definition BLEN (b : Block) : Z := b_wp b - b_rp b.

Definition set_b_next p b := MkBlock p (b_rp b) (b_wp b) (b_buf b) (b_free b).
Definition set_rp z b := MkBlock (b_next b) z (b_wp b) (b_buf b) (b_free b).
Definition set_wp z b := MkBlock (b_next b) (b_rp b) z (b_buf b) (b_free b).
Definition set_buf s b := MkBlock (b_next b) (b_rp b) (b_wp b) s (b_free b).

#[global] Instance Block_linked : Linked Block :=
  {| next := b_next; set_next := set_b_next;
     next_set_next p v := eq_refl; set_next_set_next p q v := eq_refl;
     set_next_next v := match v with MkBlock _ _ _ _ _ => eq_refl end |}.

(** What the store holds beside the program: the bytes [malloc] leaves in
    memory it does not clear, and the free routines of drivers. *)
Class Host := {
  stale : nat -> Z;
  driver_free : ptr -> heapM Block unit;
}.

Abbreviation M := (heapM Block).

(** The [n] bytes at offset [off] of block [p]. *)
Definition peek (p : ptr) (off n : Z) : M (list Z) :=
  b ← load p;
  require ((0 <=? off) && (0 <=? n) && (off + n <=? lim b));;
  mret (take (Z.to_nat n) (drop (Z.to_nat off) (b_buf b))).

(** [memmove(base+off, d, n)] *)
Definition poke (p : ptr) (off : Z) (d : list Z) : M unit :=
  b ← load p;
  require ((0 <=? off) && (off + Z.of_nat (length d) <=? lim b));;
  store p (set_buf (take (Z.to_nat off) (b_buf b) ++ d ++
                    drop (Z.to_nat off + length d) (b_buf b)) b).

(** [memmove(p->wp, d, n); p->wp += n] *)
Definition append (p : ptr) (d : list Z) : M unit :=
  b ← load p;
  poke p (b_wp b) d;;
  modify p (fun b => set_wp (b_wp b + Z.of_nat (length d)) b).

Section Ops.
Context `{Host}.

Definition allocb (size : Z) : M ptr :=
  require (0 <=? size);;
  alloc (MkBlock None 0 0 (map stale (seq 0 (Z.to_nat size))) false).

Definition freeb (p : ptr) : M unit :=
  b ← load p;
  if b_free b then driver_free p else free p.

Definition freeblist (p : ptr) : M unit :=
  loop (fun b =>
    match b with
    | None => mret (inr tt)
    | Some _ => v ← load b; freeb b;; mret (inl (b_next v))
    end) p.

(** ([padblockoverhead], a counter nothing reads, is left out.) *)
Definition padblock (bp : ptr) (size : Z) : M ptr :=
  b ← load bp;
  let n := b_wp b - b_rp b in
  if 0 <=? size then
    if size <=? b_rp b then
      modify bp (fun b => set_rp (b_rp b - size) b);; mret bp
    else
      nbp ← allocb (size + n);
      modify nbp (fun b => set_rp (b_rp b + size) b);;
      modify nbp (fun b => set_wp (b_rp b) b);;
      d ← peek bp (b_rp b) n;
      append nbp d;;
      freeb bp;;
      modify nbp (fun b => set_rp (b_rp b - size) b);;
      mret nbp
  else
    let size := - size in
    if size <=? lim b - b_wp b then mret bp
    else
      nbp ← allocb (size + n);
      d ← peek bp (b_rp b) n;
      append nbp d;;
      freeb bp;;
      mret nbp.

Definition blocklen (bp : ptr) : M Z :=
  loop (fun '(bp, len) =>
    match bp with
    | None => mret (inr len)
    | Some _ => b ← load bp; mret (inl (b_next b, i32 (len + BLEN b)))
    end) (bp, 0).

Definition concatblock (bp : ptr) : M ptr :=
  len ← blocklen bp;
  nb ← allocb len;
  loop (fun f =>
    match f with
    | None => mret (inr tt)
    | Some _ =>
        b ← load f;
        d ← peek f (b_rp b) (BLEN b);
        append nb d;;
        mret (inl (b_next b))
    end) bp;;
  freeblist bp;;
  mret nb.

(** The copying loop of [pullupblock]. *)
Definition pullup_copy (bp : ptr) (n : Z) : M ptr :=
  loop (fun n =>
    b ← load bp;
    match b_next b with
    | None => freeblist bp;; mret (inr None)
    | Some _ as nbp =>
        nb ← load nbp;
        let i := BLEN nb in
        if n <? i then
          d ← peek nbp (b_rp nb) n;
          append bp d;;
          modify nbp (fun b => set_rp (b_rp b + n) b);;
          mret (inr bp)
        else
          d ← peek nbp (b_rp nb) i;
          append bp d;;
          modify bp (set_b_next (b_next nb));;
          modify nbp (set_b_next None);;
          freeb nbp;;
          (if n - i =? 0 then mret (inr bp) else mret (inl (n - i)))
    end) n.

Definition pullupblock (bp : ptr) (n : Z) : M ptr :=
  b ← load bp;
  if n <=? BLEN b then mret bp
  else
    bp ← (if lim b - b_rp b <? n then
            nbp ← allocb n;
            modify nbp (set_b_next bp);;
            mret nbp
          else mret bp);
    b ← load bp;
    pullup_copy bp (n - BLEN b).

(** The loops of [trimblock]: over the blocks before [offset], and over those
    before the end.  ([l] is unsigned in the comparisons, offsets and lengths
    are not negative.) *)
Definition trim_front (bp : ptr) (offset : Z) : M (ptr * Z) :=
  loop (fun '(bp, offset) =>
    b ← load bp;
    let l := BLEN b in
    if l <? offset then
      modify bp (set_b_next None);;
      freeb bp;;
      mret (inl (b_next b, offset - l))
    else mret (inr (bp, offset))) (bp, offset).

Definition trim_back (bp : ptr) (len : Z) : M (ptr * Z) :=
  loop (fun '(bp, len) =>
    b ← load bp;
    let l := BLEN b in
    if l <? len then mret (inl (b_next b, len - l)) else mret (inr (bp, len))) (bp, len).

Definition trimblock (bp : ptr) (offset len : Z) : M ptr :=
  total ← blocklen bp;
  if total <? i32 (offset + len) then freeblist bp;; mret None
  else
    '(bp, offset) ← trim_front bp offset;
    let startb := bp in
    modify bp (fun b => set_rp (b_rp b + offset) b);;
    '(bp, len) ← trim_back bp len;
    modify bp (fun b => set_wp (b_wp b - (BLEN b - len)) b);;
    b ← load bp;
    match b_next b with
    | Some _ as rest => freeblist rest;; modify bp (set_b_next None);; mret startb
    | None => mret startb
    end.

Definition copyblock (bp : ptr) (count : Z) : M ptr :=
  nbp ← allocb count;
  count ← loop (fun '(bp, count) =>
    match bp with
    | Some _ =>
        if 0 <? count then
          b ← load bp;
          let l := if count <? BLEN b then count else BLEN b in
          d ← peek bp (b_rp b) l;
          append nbp d;;
          mret (inl (b_next b, count - l))
        else mret (inr count)
    | None => mret (inr count)
    end) (bp, count);
  (if 0 <? count then append nbp (replicate (Z.to_nat count) 0) else mret tt);;
  mret nbp.

(** [*bph] is the first argument, its new value the first result. *)
Definition pullblock (bp : ptr) (count : Z) : M (ptr * Z) :=
  loop (fun '(bp, count, bytes) =>
    match bp with
    | Some _ =>
        if count =? 0 then mret (inr (bp, bytes))
        else
          b ← load bp;
          let n := if count <? BLEN b then count else BLEN b in
          modify bp (fun b => set_rp (b_rp b + n) b);;
          b ← load bp;
          if BLEN b =? 0 then
            modify bp (set_b_next None);;
            freeb bp;;
            mret (inl (b_next b, count - n, bytes + n))
          else mret (inl (bp, count - n, bytes + n))
    | None => mret (inr (bp, bytes))
    end) (bp, count, 0).
End Ops.

(** ** Data of a block and of a chain *)

Definition bdata (b : Block) : list Z :=
  take (Z.to_nat (BLEN b)) (drop (Z.to_nat (b_rp b)) (b_buf b)).

Abbreviation blocks := (list (positive * Block)).

Definition cdata (xs : blocks) : list Z := concat (map (fun xb => bdata xb.2) xs).

(** A block as every routine here leaves it: what [checkb] checks, and the
    default free routine. *)
Definition wfb (b : Block) : Prop :=
  0 <= b_rp b <= b_wp b /\ b_wp b <= lim b /\ b_free b = false.

Abbreviation wfbs xs := (Forall (fun xb : positive * Block => wfb xb.2) xs).

(** The block after [append]. *)
Definition app_data (d : list Z) (b : Block) : Block :=
  MkBlock (b_next b) (b_rp b) (b_wp b + Z.of_nat (length d))
    (take (Z.to_nat (b_wp b)) (b_buf b) ++ d ++ drop (Z.to_nat (b_wp b) + length d) (b_buf b))
    (b_free b).


Section Lemmas.
Context `{Host}.
Implicit Types (x : positive) (b : Block) (xs : blocks).

Lemma cdata_cons x b xs : cdata ((x, b) :: xs) = bdata b ++ cdata xs.
Proof. done. Qed.

Lemma cdata_app xs ys : cdata (xs ++ ys) = cdata xs ++ cdata ys.
Proof. by rewrite /cdata map_app concat_app. Qed.

Lemma length_bdata b : wfb b -> Z.of_nat (length (bdata b)) = BLEN b.
Proof.
  unfold wfb, lim, bdata, BLEN. intros ((? & ?) & ? & ?).
  rewrite length_take length_drop. lia.
Qed.

(** What a block holds does not depend on its link. *)
Lemma BLEN_set_next p b : BLEN (set_b_next p b) = BLEN b.
Proof. done. Qed.

Lemma bdata_set_next p b : bdata (set_b_next p b) = bdata b.
Proof. done. Qed.

Lemma lim_set_next p b : lim (set_b_next p b) = lim b.
Proof. done. Qed.

Lemma set_next_id p b : b_next b = p -> set_b_next p b = b.
Proof. intros <-. by destruct b. Qed.

Ltac blk := rewrite ?BLEN_set_next ?bdata_set_next ?lim_set_next.

Lemma lim_app_data d b :
  wfb b -> b_wp b + Z.of_nat (length d) <= lim b -> lim (app_data d b) = lim b.
Proof.
  unfold wfb, lim. intros. simpl. rewrite !length_app length_take length_drop. lia.
Qed.

Lemma wfb_app_data d b :
  wfb b -> b_wp b + Z.of_nat (length d) <= lim b -> wfb (app_data d b).
Proof.
  intros Hb Hd. unfold wfb. rewrite lim_app_data //. unfold wfb in Hb.
  simpl. split_and!; try tauto; lia.
Qed.

Lemma bdata_app_data d b :
  wfb b -> b_wp b + Z.of_nat (length d) <= lim b -> bdata (app_data d b) = bdata b ++ d.
Proof.
  unfold wfb, bdata, BLEN, lim. intros ((? & ?) & ? & ?) Hd. simpl.
  set (s := b_buf b) in *. set (r := Z.to_nat (b_rp b)). set (w := Z.to_nat (b_wp b)).
  replace (Z.to_nat (b_wp b + Z.of_nat (length d) - b_rp b)) with (w - r + length d)%nat by lia.
  replace (Z.to_nat (b_wp b - b_rp b)) with (w - r)%nat by lia.
  rewrite drop_app_le; [| rewrite length_take; lia].
  rewrite take_drop_commute. replace (r + (w - r))%nat with w by lia.
  rewrite app_assoc take_app_le; [| rewrite length_app length_drop length_take; lia].
  rewrite take_ge //. rewrite length_app length_drop length_take; lia.
Qed.

Lemma wp_peek x b off n (Φ : list Z -> hpropI Block) :
  0 <= off -> 0 <= n -> off + n <= lim b ->
  x ↦ b -∗ (x ↦ b -∗ Φ (take (Z.to_nat n) (drop (Z.to_nat off) (b_buf b)))) -∗
  wp (peek (Some x) off n) Φ.
Proof.
  iIntros (???) "Hx HΦ". wp_load "Hx". wp_require; [lia |].
  wp_ret. by iApply "HΦ".
Qed.

(** Reading the first [n] bytes of the window. *)
Lemma wp_peek_data x b n (Φ : list Z -> hpropI Block) :
  wfb b -> 0 <= n <= BLEN b ->
  x ↦ b -∗ (x ↦ b -∗ Φ (take (Z.to_nat n) (bdata b))) -∗ wp (peek (Some x) (b_rp b) n) Φ.
Proof.
  iIntros ([??] Hn) "Hx HΦ". unfold BLEN in Hn. iApply (wp_peek with "Hx"); [lia.. |].
  unfold bdata. rewrite take_take Nat.min_l; [done |]. unfold BLEN. lia.
Qed.

Lemma take_bdata b : wfb b -> take (Z.to_nat (BLEN b)) (bdata b) = bdata b.
Proof. intros Hb. apply length_bdata in Hb. apply take_ge. lia. Qed.

Lemma BLEN_pos b : wfb b -> 0 <= BLEN b.
Proof. unfold wfb, BLEN. lia. Qed.

Lemma wfbs_elem xs x b ys : wfbs (xs ++ (x, b) :: ys) -> wfb b.
Proof. intros Hxs. by apply Forall_app in Hxs as [_ [??]%Forall_cons]. Qed.

Lemma wp_append x b d (Φ : unit -> hpropI Block) :
  wfb b -> b_wp b + Z.of_nat (length d) <= lim b ->
  x ↦ b -∗ (x ↦ app_data d b -∗ Φ tt) -∗ wp (append (Some x) d) Φ.
Proof.
  iIntros ([? ?] ?) "Hx HΦ". unfold append, poke. wp_load "Hx".
  wp_bind. wp_load "Hx". wp_require; [lia |].
  wp_store "Hx". wp_store "Hx". by iApply "HΦ".
Qed.

Lemma wp_allocb size (Φ : ptr -> hpropI Block) :
  0 <= size ->
  (∀ x b, ⌈wfb b /\ bdata b = [] /\ b_next b = None /\ b_rp b = 0 /\
                    b_wp b = 0 /\ lim b = size⌉ -∗ x ↦ b -∗ Φ (Some x)) -∗
  wp (allocb size) Φ.
Proof.
  iIntros (?) "HΦ". unfold allocb. wp_require; [lia |].
  iApply wp_alloc. iIntros (x) "Hx". iApply ("HΦ" with "[] Hx").
  iPureIntro. unfold wfb, lim. simpl. rewrite length_map length_seq. split_and!; (done || lia).
Qed.

Lemma wp_freeb x b (Φ : unit -> hpropI Block) :
  wfb b -> x ↦ b -∗ Φ tt -∗ wp (freeb (Some x)) Φ.
Proof.
  iIntros ([? [? Hf]]) "Hx HΦ". wp_load "Hx". rewrite Hf. by iApply (wp_free with "Hx").
Qed.

Lemma wp_freeblist xs (Φ : unit -> hpropI Block) :
  wfbs xs -> chain xs -∗ Φ tt -∗ wp (freeblist (start xs None)) Φ.
Proof.
  iIntros (Hxs) "Hc HΦ". unfold freeblist.
  iApply (wp_loop (fun m p => ∃ xs, ⌈p = start xs None⌉ ∗ ⌈m = length xs⌉ ∗ ⌈wfbs xs⌉ ∗
                                chain xs ∗ Φ tt)%I _ _ (length xs) with "[Hc HΦ]").
  - clear. iIntros (m p) "(%ys & -> & -> & %Hys & Hc & _)". by iApply (lseg_size_le with "Hc").
  - clear. intros m p. iIntros "(%ys & -> & -> & %Hys & Hc & HΦ)". destruct ys as [|[y v] ys]; simpl.
    { wp_ret. done. }
    apply Forall_cons in Hys as [Hv Hys]. iDestruct "Hc" as "[Hy Hc]".
    wp_load "Hy". iApply wp_bind. iApply (wp_freeb with "Hy"); [done |]. wp_ret.
    iExists (length ys). iSplit; [auto |]. iExists ys. iFrame. auto.
  - iExists xs. iFrame. auto.
Qed.

Lemma wp_blocklen xs (Φ : Z -> hpropI Block) :
  wfbs xs -> chain xs -∗ (chain xs -∗ Φ (i32 (zlen (cdata xs)))) -∗
  wp (blocklen (start xs None)) Φ.
Proof.
  iIntros (Hxs) "Hc HΦ". unfold blocklen.
  iApply (wp_loop (fun m '(p, len) => ∃ pre post, ⌈p = start post None⌉ ∗ ⌈m = length post⌉ ∗
            ⌈xs = pre ++ post⌉ ∗ ⌈len = i32 (zlen (cdata pre))⌉ ∗
            chain xs ∗ (chain xs -∗ Φ (i32 (zlen (cdata xs)))))%I _ _ (length xs) with "[Hc HΦ]").
  - iIntros (m [p l]) "(%pre & %post & -> & -> & %E & -> & Hc & _)".
    iApply (lseg_size_le with "Hc"). rewrite E length_app. lia.
  - intros m [p l]. iIntros "(%pre & %post & -> & -> & %E & -> & Hc & HΦ)".
    destruct post as [|[y v] post]; simpl.
    { rewrite app_nil_r in E. subst. wp_ret. by iApply "HΦ". }
    iEval (rewrite E) in "Hc". iDestruct (lseg_borrow with "Hc") as "[Hy Hc]".
    wp_load "Hy". iDestruct ("Hc" with "Hy") as "Hc". rewrite -E. wp_ret.
    iExists (length post). iSplit; [auto |].
    iExists (pre ++ [(y, v)]), post. iFrame. iPureIntro. split_and!; try done.
    { by rewrite -app_assoc. }
    rewrite wraps_add_l cdata_app length_app Nat2Z.inj_add cdata_cons app_nil_r length_bdata //.
    subst. by apply Forall_app in Hxs as [_ [??]%Forall_cons].
  - iExists [], xs. iFrame. auto.
Qed.

(** What a routine that returns one new block with contents [d] leaves. *)
Definition new_block (p : ptr) (d : list Z) : hpropI Block :=
  ∃ x b, ⌈p = Some x⌉ ∗ ⌈wfb b /\ bdata b = d⌉ ∗ chain [(x, b)].

Lemma new_block_intro x b d :
  wfb b -> bdata b = d -> b_next b = None -> x ↦ b ⊢ new_block (Some x) d.
Proof.
  iIntros (Hb Hd Hn) "Hx". iExists x, b. iSplit; [done |]. iSplit; [done |].
  simpl. destruct b; simpl in *; subst. by iFrame.
Qed.

Lemma wp_concatblock xs (Φ : ptr -> hpropI Block) :
  wfbs xs -> zlen (cdata xs) < 2 ^ 31 ->
  chain xs -∗ (∀ p, new_block p (cdata xs) -∗ Φ p) -∗ wp (concatblock (start xs None)) Φ.
Proof.
  iIntros (Hxs Hlen) "Hc HΦ". unfold concatblock.
  wp_bind. iApply (wp_blocklen with "Hc"); [done |]. iIntros "Hc".
  rewrite wraps_id; [| lia | lia].
  wp_bind. iApply wp_allocb; [lia |]. iIntros (x b) "(%Hb & %Hd & %Hn & %Hr & %Hw & %Hl) Hx".
  wp_bind.
  iApply (wp_loop (fun m p => ∃ pre post b, ⌈p = start post None⌉ ∗ ⌈m = length post⌉ ∗
            ⌈xs = pre ++ post⌉ ∗
            ⌈wfb b /\ bdata b = cdata pre /\ b_next b = None /\ lim b = zlen (cdata xs) /\ b_rp b = 0⌉ ∗
            chain xs ∗ x ↦ b ∗ (∀ p, new_block p (cdata xs) -∗ Φ p))%I _ _ (length xs)
            with "[Hc HΦ Hx]").
  - iIntros (m p) "(%pre & %post & %b1 & -> & -> & %E & _ & Hc & _)".
    iApply (lseg_size_le with "Hc"). rewrite E length_app. lia.
  - clear -Hxs. intros m p.
    iIntros "(%pre & %post & %b & -> & -> & %E & (%Hb & %Hd & %Hn & %Hl & %Hr) & Hc & Hx & HΦ)".
    destruct post as [|[y v] post]; simpl.
    + rewrite app_nil_r in E. subst pre. wp_ret. wp_bind.
      iApply (wp_freeblist with "Hc"); [done |]. wp_ret. iApply "HΦ".
      by iApply (new_block_intro with "Hx").
    + iEval (rewrite E) in "Hc". iDestruct (lseg_borrow with "Hc") as "[Hy Hc]".
      assert (wfb v) as Hv by (subst; by eapply wfbs_elem).
      assert (zlen (cdata pre) + BLEN v <= zlen (cdata xs)) as Hroom.
      { rewrite E cdata_app cdata_cons !length_app -(length_bdata v Hv). lia. }
      assert (b_wp b = zlen (cdata pre)) as Hwp.
      { rewrite -Hd length_bdata // /BLEN. lia. }
      wp_load "Hy". wp_bind.
      iApply (wp_peek_data with "Hy"); [done | by split; [apply BLEN_pos |] |].
      blk. rewrite take_bdata //. iIntros "Hy".
      wp_bind. iApply (wp_append with "Hx"); [done | rewrite length_bdata //; lia |].
      iIntros "Hx". wp_ret. iExists (length post). iSplit; [auto |].
      iExists (pre ++ [(y, v)]), post, (app_data (bdata v) b). iFrame.
      iDestruct ("Hc" with "Hy") as "Hc". rewrite -E. iFrame.
      iPureIntro. rewrite -app_assoc cdata_app cdata_cons app_nil_r.
      rewrite bdata_app_data ?lim_app_data ?Hd //; try (rewrite length_bdata //; lia).
      split_and!; try done. apply wfb_app_data; [done |]. rewrite length_bdata //; lia.
  - iExists [], xs, b. iFrame. auto.
Qed.

Lemma consume_facts b n :
  wfb b -> 0 <= n <= BLEN b ->
  wfb (set_rp (b_rp b + n) b) /\ bdata (set_rp (b_rp b + n) b) = drop (Z.to_nat n) (bdata b) /\
  BLEN (set_rp (b_rp b + n) b) = BLEN b - n.
Proof.
  unfold wfb, bdata, BLEN, lim. simpl. intros ((? & ?) & ? & ?) ?. split_and!; try done; try lia.
  rewrite skipn_firstn_comm drop_drop. f_equal; [lia |]. f_equal. lia.
Qed.

Lemma append_facts b d :
  wfb b -> b_wp b + zlen d <= lim b ->
  wfb (app_data d b) /\ bdata (app_data d b) = bdata b ++ d /\
  BLEN (app_data d b) = BLEN b + zlen d /\ lim (app_data d b) = lim b.
Proof.
  intros Hb Hd. split_and!; [by apply wfb_app_data | by apply bdata_app_data | |
                             by apply lim_app_data].
  unfold BLEN. simpl. lia.
Qed.

(** The chain [D], its first block pulled up to [N] bytes, if it has as many. *)
Definition pulled (D : list Z) (N : Z) (p : ptr) : hpropI Block :=
  (if decide (N <= zlen D) then
     ∃ y b' ys, ⌈p = Some y⌉ ∗ ⌈wfbs ((y, b') :: ys)⌉ ∗
       ⌈cdata ((y, b') :: ys) = D /\ BLEN b' = N⌉ ∗ chain ((y, b') :: ys)
   else ⌈p = None⌉)%I.

Lemma wp_pullup_copy x b xs N D (Φ : ptr -> hpropI Block) :
  wfbs ((x, b) :: xs) -> BLEN b < N -> b_rp b + N <= lim b -> cdata ((x, b) :: xs) = D ->
  chain ((x, b) :: xs) -∗ (∀ p, pulled D N p -∗ Φ p) -∗
  wp (pullup_copy (Some x) (N - BLEN b)) Φ.
Proof.
  iIntros (Hxs HN Hroom HD) "Hc HΦ".
  iApply (wp_loop (fun m n => ∃ b xs, ⌈n = N - BLEN b /\ 0 < n /\ m = length xs⌉ ∗
            ⌈wfbs ((x, b) :: xs) /\ b_rp b + N <= lim b /\ cdata ((x, b) :: xs) = D⌉ ∗
            chain ((x, b) :: xs) ∗ (∀ p, pulled D N p -∗ Φ p))%I _ _ (length xs) with "[Hc HΦ]");
    [clear.. |].
  - iIntros (m n) "(%b & %xs & %Hn & _ & Hc & _)". destruct Hn as (_ & _ & ->).
    iApply (lseg_size_le with "Hc"). simpl. lia.
  - intros m n. iIntros "(%b & %xs & %Hn & %Hc & [Hx Hc] & HΦ)".
    destruct Hn as (-> & Hpos & ->), Hc as (Hxs & Hroom & <-).
    apply Forall_cons in Hxs as [Hb Hxs]. simpl in Hb. pose proof Hb as [? [? _]].
    wp_load "Hx". destruct xs as [|[y v] xs]; simpl.
    + wp_bind. iApply (wp_freeblist [(x, b)] with "[Hx]"); [by constructor | by iFrame |].
      wp_ret. iApply "HΦ". rewrite /pulled decide_False //.
      rewrite cdata_cons app_nil_r length_bdata //. lia.
    + apply Forall_cons in Hxs as [Hv Hxs]. simpl in Hv. pose proof (BLEN_pos v Hv).
      pose proof (length_bdata v Hv) as Lv. pose proof (length_bdata b Hb) as Lb.
      iDestruct "Hc" as "[Hy Hc]". wp_load "Hy". blk. case_match eqn:Hi.
      * set (k := N - BLEN b) in *.
        destruct (consume_facts v k Hv) as (Hv' & Dv & Bv); [lia |].
        destruct (append_facts b (take (Z.to_nat k) (bdata v)) Hb) as (Hb' & Db & Bb & Lb');
          [unfold BLEN in *; rewrite length_take; lia |].
        wp_bind. iApply (wp_peek_data with "Hy"); [done | blk; lia |]. blk. iIntros "Hy".
        wp_bind. iApply (wp_append with "Hx"); [done | blk; unfold BLEN in *; rewrite length_take; simpl; lia |].
        iIntros "Hx". wp_store "Hy". wp_ret. iApply "HΦ".
        rewrite /pulled decide_True; [| rewrite !cdata_cons !length_app; lia].
        iExists x, (app_data (take (Z.to_nat k) (bdata v)) b), ((y, set_rp (b_rp v + k) v) :: xs).
        iFrame. iPureIntro. split_and!; [done | by rewrite !Forall_cons | | ].
        -- by rewrite !cdata_cons Db Dv -app_assoc (app_assoc (take _ _)) take_drop.
        -- rewrite Bb length_take. lia.
      * destruct (append_facts b (bdata v) Hb) as (Hb' & Db & Bb & Lb');
          [unfold BLEN in *; lia |].
        wp_bind. iApply (wp_peek_data with "Hy"); [done | blk; lia |]. blk. rewrite take_bdata //.
        iIntros "Hy". wp_bind. iApply (wp_append with "Hx"); [done | blk; unfold BLEN in *; simpl; lia |].
        iIntros "Hx". wp_store "Hx". wp_store "Hy".
        wp_bind. iApply (wp_freeb with "Hy"); [done |].
        iAssert (chain ((x, app_data (bdata v) b) :: xs)) with "[Hx Hc]" as "Hc"; [by iFrame |].
        case_match.
        -- wp_ret. iApply "HΦ".
           rewrite /pulled decide_True; [| rewrite !cdata_cons !length_app; lia].
           iExists x, _, xs. iFrame "Hc". iPureIntro. split_and!; [done | by rewrite !Forall_cons | | lia].
           by rewrite !cdata_cons Db app_assoc.
        -- wp_ret. iExists (length xs). iSplit; [auto |]. iExists _, xs. iFrame "Hc".
           iSplit; [iPureIntro; split_and!; [lia | lia | done] |].
           iSplitR; [| by rewrite !cdata_cons app_assoc].
           iPureIntro. split_and!; [by constructor | by rewrite Lb' | by rewrite !cdata_cons Db app_assoc].
  - iExists b, xs. iFrame. iPureIntro. split_and!; done || lia.
Qed.

Lemma wp_pullupblock x b xs n (Φ : ptr -> hpropI Block) :
  wfbs ((x, b) :: xs) ->
  chain ((x, b) :: xs) -∗
  (∀ p, (if decide (n <= BLEN b) then ⌈p = Some x⌉ ∗ chain ((x, b) :: xs)
         else pulled (cdata ((x, b) :: xs)) n p) -∗ Φ p) -∗
  wp (pullupblock (Some x) n) Φ.
Proof.
  iIntros (Hxs) "[Hx Hc] HΦ". unfold pullupblock. wp_load "Hx". blk.
  pose proof (proj1 (proj1 (Forall_cons _ _ _) Hxs)) as Hb. simpl in Hb.
  destruct (Z.leb_spec n (BLEN b)).
  { wp_ret. iApply "HΦ". rewrite decide_True; [| lia]. by iFrame. }
  destruct (decide (n <= BLEN b)); [lia |]. pose proof (BLEN_pos b Hb).
  wp_bind. destruct (Z.ltb_spec (lim b - b_rp b) n).
  - wp_bind. iApply wp_allocb; [lia |].
    iIntros (y b') "%Hb' Hy". destruct Hb' as (Hb' & Db & Nb & Rb & Wb & Lb).
    wp_store "Hy". wp_ret. wp_load "Hy". blk.
    iApply (wp_pullup_copy y b' ((x, b) :: xs) with "[Hx Hy Hc]"); [| | | | by iFrame | done].
    + by constructor.
    + unfold BLEN. lia.
    + lia.
    + by rewrite cdata_cons Db.
  - wp_ret. wp_load "Hx". blk.
    iApply (wp_pullup_copy x b xs with "[Hx Hc]"); [done | lia | lia | done | by iFrame | done].
Qed.

(** *** [copyblock] *)

(** The first [n] bytes of [D], zeros where there are fewer. *)
Definition zpad (n : Z) (D : list Z) : list Z :=
  take (Z.to_nat n) (D ++ replicate (Z.to_nat n) 0).

Lemma zpad_app n A B :
  0 <= n -> zpad n (A ++ B) =
  take (Z.to_nat n) A ++ zpad (n - Z.min n (zlen A)) B.
Proof.
  intros Hn. unfold zpad. rewrite -app_assoc take_app. f_equal.
  replace (Z.to_nat (n - Z.min n (zlen A))) with (Z.to_nat n - length A)%nat by lia.
  rewrite !take_app. f_equal. rewrite !take_replicate. f_equal. lia.
Qed.

Lemma zpad_nil n : zpad n [] = replicate (Z.to_nat n) 0.
Proof. unfold zpad. simpl. by rewrite take_ge ?length_replicate. Qed.

(** The end of [copyblock]: zeros for what the chain was short of. *)
Lemma wp_zero_fill x b c (Φ : ptr -> hpropI Block) :
  wfb b -> b_next b = None -> 0 <= c -> lim b = b_wp b + c ->
  x ↦ b -∗ (∀ p, new_block p (bdata b ++ replicate (Z.to_nat c) 0) -∗ Φ p) -∗
  wp ((if 0 <? c then append (Some x) (replicate (Z.to_nat c) 0) else mret tt);; mret (Some x)) Φ.
Proof.
  iIntros (Hb Nb Hc Lb) "Hx HΦ". wp_bind. destruct (Z.ltb_spec 0 c).
  - destruct (append_facts b (replicate (Z.to_nat c) 0) Hb) as (Hb' & Db & _ & _);
      [rewrite length_replicate; lia |].
    iApply (wp_append with "Hx"); [done | rewrite length_replicate; lia |].
    iIntros "Hx". wp_ret. iApply "HΦ". by iApply (new_block_intro with "Hx").
  - replace c with 0 by lia. wp_ret. wp_ret. iApply "HΦ". rewrite app_nil_r.
    by iApply (new_block_intro with "Hx").
Qed.

Lemma wp_copyblock xs count (Φ : ptr -> hpropI Block) :
  wfbs xs -> 0 <= count ->
  chain xs -∗ (∀ p, chain xs -∗ new_block p (zpad count (cdata xs)) -∗ Φ p) -∗
  wp (copyblock (start xs None) count) Φ.
Proof.
  iIntros (Hxs Hcount) "Hc HΦ". unfold copyblock.
  wp_bind. iApply wp_allocb; [lia |]. iIntros (x b) "%Hb Hx".
  destruct Hb as (Hb & Db & Nb & Rb & Wb & Lb).
  wp_bind.
  iApply (wp_loop (fun m '(p, c) => ∃ pre post b, ⌈p = start post None /\ m = length post⌉ ∗
            ⌈xs = pre ++ post /\ 0 <= c⌉ ∗
            ⌈wfb b /\ b_next b = None /\ lim b = (b_wp b + c)%Z⌉ ∗
            ⌈zpad count (cdata xs) = bdata b ++ zpad c (cdata post)⌉ ∗
            chain xs ∗ x ↦ b ∗ (∀ p, chain xs -∗ new_block p (zpad count (cdata xs)) -∗ Φ p))%I
            _ _ (length xs) with "[Hc HΦ Hx]").
  - iIntros (m [p c]) "(%pre & %post & %b1 & %Hp & %E & _ & _ & Hc & _)". destruct Hp as [-> ->].
    iApply (lseg_size_le with "Hc"). destruct E as [-> _]. rewrite length_app. lia.
  - clear -Hxs. intros m [p c].
    iIntros "(%pre & %post & %b & %Hp & %HE & %Hb & %HD & Hc & Hx & HΦ)".
    destruct Hp as [-> ->], HE as [E Hc], Hb as (Hb & Nb & Lb).
    destruct post as [|[y v] post]; simpl.
    { wp_ret. iApply (wp_zero_fill with "Hx"); [done.. |].
      rewrite -zpad_nil -HD. iIntros (p) "Hn". by iApply ("HΦ" with "Hc Hn"). }
    destruct (Z.ltb_spec 0 c); last first.
    { wp_ret. iApply (wp_zero_fill with "Hx"); [done.. |].
      rewrite HD. replace c with 0 by lia. iIntros (p) "Hn". by iApply ("HΦ" with "Hc Hn"). }
    assert (wfb v) as Hv by (subst; by eapply wfbs_elem).
    pose proof (BLEN_pos v Hv). pose proof (length_bdata v Hv).
    iEval (rewrite E) in "Hc". iDestruct (lseg_borrow with "Hc") as "[Hy Hc]".
    wp_load "Hy". blk. set (l := if c <? BLEN v then c else BLEN v).
    assert (l = Z.min c (BLEN v)) as -> by (unfold l; destruct (Z.ltb_spec c (BLEN v)); lia).
    set (l := Z.min c (BLEN v)).
    assert (0 <= l <= c /\ l <= BLEN v) as Hl by (unfold l; lia). set (d := take (Z.to_nat l) (bdata v)).
    assert (zlen d = l) as Hd by (unfold d; rewrite length_take; lia).
    destruct (append_facts b d Hb) as (Hb' & Db & _ & Lb'); [lia |].
    wp_bind. iApply (wp_peek_data with "Hy"); [done | blk; lia |]. iIntros "Hy". blk.
    rewrite -/d. wp_bind. iApply (wp_append with "Hx"); [done | lia |]. iIntros "Hx". wp_ret.
    iDestruct ("Hc" with "Hy") as "Hc". rewrite -E.
    iExists (length post). iSplit; [auto |].
    iExists (pre ++ [(y, v)]), post, (app_data d b). iFrame. iPureIntro.
    rewrite -app_assoc. split_and!; try done; [lia | rewrite Lb' Lb /=; lia |].
    rewrite HD Db cdata_cons zpad_app; [| lia]. rewrite app_assoc. f_equal.
    + f_equal. unfold d, l. destruct (Z.le_ge_cases c (BLEN v)); [by rewrite Z.min_l |].
      rewrite Z.min_r // !take_ge //; lia.
    + f_equal. lia.
  - iExists [], xs, b. iFrame. iPureIntro. split_and!; try done; [lia |]. by rewrite Db.
Qed.

(** *** [pullblock] *)

Lemma wp_pullblock xs count (Φ : ptr * Z -> hpropI Block) :
  wfbs xs -> 0 <= count ->
  chain xs -∗
  (∀ ys, ⌈wfbs ys /\ cdata ys = drop (Z.to_nat count) (cdata xs)⌉ -∗ chain ys -∗
         Φ (start ys None, Z.min count (zlen (cdata xs)))) -∗
  wp (pullblock (start xs None) count) Φ.
Proof.
  iIntros (Hxs Hcount) "Hc HΦ". unfold pullblock. set (Post := (∀ ys, _)%I).
  iApply (wp_loop (fun m '(p, c, n) => ∃ ys,
            ⌈p = start ys None /\ m = (if decide (c = 0)%Z then 0 else length ys)%nat⌉ ∗
            ⌈wfbs ys /\ 0 <= c /\ drop (Z.to_nat c) (cdata ys) = drop (Z.to_nat count) (cdata xs) /\
             Z.min count (zlen (cdata xs)) = (n + Z.min c (zlen (cdata ys)))%Z⌉ ∗
            chain ys ∗ Post)%I _ _ (if decide (count = 0) then 0%nat else length xs) with "[Hc HΦ]").
  - iIntros (m [[p c] n]) "(%ys & %Hp & _ & Hc & _)". destruct Hp as [-> ->].
    iApply (lseg_size_le with "Hc"). case_decide; lia.
  - clear. intros m [[p c] n]. iIntros "(%ys & %Hp & %Hys & Hc & HΦ)".
    destruct Hp as [-> ->], Hys as (Hys & Hc & Hd & Hn).
    destruct ys as [|[y v] ys]; simpl.
    { wp_ret. rewrite drop_nil in Hd.
      iSpecialize ("HΦ" $! [] with "[//]"). rewrite Hn /= Z.min_r; [| lia]. rewrite Z.add_0_r.
      by iApply "HΦ". }
    destruct (Z.eqb_spec c 0) as [-> | Hc0].
    { wp_ret. iSpecialize ("HΦ" $! ((y, v) :: ys) with "[//] Hc"). rewrite Hn Z.min_l; [| lia].
      by rewrite Z.add_0_r. }
    apply Forall_cons in Hys as [Hv Hys]. simpl in Hv.
    pose proof (BLEN_pos v Hv). pose proof (length_bdata v Hv).
    iDestruct "Hc" as "[Hy Hc]". wp_load "Hy". blk. set (k := if c <? BLEN v then c else BLEN v).
    assert (k = Z.min c (BLEN v)) as Hk by (unfold k; destruct (Z.ltb_spec c (BLEN v)); lia).
    clearbody k. destruct (consume_facts v k Hv) as (Hv' & Dv & Bv); [lia |].
    wp_store "Hy". wp_load "Hy". rewrite decide_False //.
    change (BLEN (set_rp _ _)) with (BLEN (set_rp (b_rp v + k) v)). rewrite Bv.
    rewrite cdata_cons drop_app in Hd. rewrite cdata_cons length_app in Hn.
    destruct (Z.eqb_spec (BLEN v - k) 0).
    + wp_store "Hy". wp_bind. iApply (wp_freeb with "Hy"); [done |]. wp_ret.
      iExists _. iSplit; [| iExists ys; iFrame; iSplit; [done |]]; iPureIntro;
        [case_decide; simpl; lia |].
      split_and!; [done | lia | | lia].
      rewrite -Hd (drop_ge (bdata v)); [| lia]. simpl. f_equal. lia.
    + replace k with c in * by lia. wp_ret.
      iExists 0%nat. iSplit; [iPureIntro; simpl; lia |].
      iExists ((y, set_rp (b_rp v + c) v) :: ys). iFrame. iPureIntro.
      rewrite Z.sub_diag !cdata_cons Dv. split_and!; try done.
      * by constructor.
      * rewrite -Hd /= drop_0. f_equal. replace (Z.to_nat c - length (bdata v))%nat with 0%nat by lia.
        by rewrite drop_0.
      * rewrite !length_app. lia.
  - iExists xs. iFrame. iPureIntro. split_and!; try done; lia.
Qed.

(** *** [trimblock] *)

(** Skipping whole blocks: the first loop of [trimblock]. *)
Lemma wp_trim_front xs offset (Φ : ptr * Z -> hpropI Block) :
  wfbs xs -> 0 <= offset <= zlen (cdata xs) -> xs <> [] ->
  chain xs -∗
  (∀ x b ys off, ⌈wfbs ((x, b) :: ys) /\ 0 <= off <= BLEN b⌉ -∗
     ⌈drop (Z.to_nat off) (cdata ((x, b) :: ys)) = drop (Z.to_nat offset) (cdata xs)⌉ -∗
     chain ((x, b) :: ys) -∗ Φ (Some x, off)) -∗
  wp (trim_front (start xs None) offset) Φ.
Proof.
  iIntros (Hxs Hoff Hne) "Hc HΦ". set (Post := (∀ x b ys off, _)%I).
  iApply (wp_loop (fun m '(p, off) => ∃ ys,
            ⌈p = start ys None /\ m = length ys /\ ys <> []⌉ ∗
            ⌈wfbs ys /\ 0 <= off <= zlen (cdata ys) /\
             drop (Z.to_nat off) (cdata ys) = drop (Z.to_nat offset) (cdata xs)⌉ ∗
            chain ys ∗ Post)%I _ _ (length xs) with "[Hc HΦ]").
  - iIntros (m [p off]) "(%ys & %Hp & _ & Hc & _)". destruct Hp as (-> & -> & _).
    by iApply (lseg_size_le with "Hc").
  - clear. intros m [p off]. iIntros "(%ys & %Hp & %Hys & Hc & HΦ)".
    destruct Hp as (-> & -> & Hne), Hys as (Hys & Hoff & Hd).
    destruct ys as [|[y v] ys]; [done |]. clear Hne.
    pose proof Hys as Hys'. apply Forall_cons in Hys' as [Hv Hys']. simpl in Hv.
    pose proof (BLEN_pos v Hv). pose proof (length_bdata v Hv).
    iDestruct "Hc" as "[Hy Hc]". wp_load "Hy". blk. destruct (Z.ltb_spec (BLEN v) off).
    + wp_store "Hy". wp_bind. iApply (wp_freeb with "Hy"); [done |]. wp_ret.
      iExists (length ys). iSplit; [auto |]. iExists ys. iFrame. iPureIntro.
      rewrite cdata_cons length_app in Hoff. rewrite cdata_cons drop_app drop_ge /= in Hd; [| lia].
      split_and!; try done; [intros ->; simpl in Hoff; lia | lia | lia |].
      rewrite -Hd. f_equal. lia.
    + wp_ret. iApply ("HΦ" $! y v ys off with "[] [//]"); [| by iFrame].
      iPureIntro. split_and!; [done | lia | lia].
  - iExists xs. by iFrame.
Qed.

(** Walking to the last block that is kept. *)
Lemma wp_trim_back xs len (Φ : ptr * Z -> hpropI Block) :
  wfbs xs -> 0 <= len <= zlen (cdata xs) -> xs <> [] ->
  chain xs -∗
  (∀ pre x b post l, ⌈xs = pre ++ (x, b) :: post /\ 0 <= l <= BLEN b⌉ -∗
     ⌈take (Z.to_nat len) (cdata xs) = cdata pre ++ take (Z.to_nat l) (bdata b)⌉ -∗
     chain xs -∗ Φ (Some x, l)) -∗
  wp (trim_back (start xs None) len) Φ.
Proof.
  iIntros (Hxs Hlen Hne) "Hc HΦ". set (Post := (∀ pre x b post l, _)%I).
  iApply (wp_loop (fun m '(p, l) => ∃ pre post,
            ⌈p = start post None /\ m = length post /\ post <> []⌉ ∗
            ⌈xs = pre ++ post /\ 0 <= l <= zlen (cdata post) /\
             take (Z.to_nat len) (cdata xs) = cdata pre ++ take (Z.to_nat l) (cdata post)⌉ ∗
            chain xs ∗ Post)%I _ _ (length xs) with "[Hc HΦ]").
  - iIntros (m [p l]) "(%pre & %post & %Hp & %E & Hc & _)". destruct Hp as (-> & -> & _).
    iApply (lseg_size_le with "Hc"). destruct E as [-> _]. rewrite length_app. lia.
  - clear -Hxs. intros m [p l]. iIntros "(%pre & %post & %Hp & %Hys & Hc & HΦ)".
    destruct Hp as (-> & -> & Hne), Hys as (E & Hl & Ht).
    destruct post as [|[y v] post]; [done |]. clear Hne.
    assert (wfb v) as Hv by (subst; by eapply wfbs_elem).
    pose proof (BLEN_pos v Hv). pose proof (length_bdata v Hv).
    iEval (rewrite E) in "Hc". iDestruct (lseg_borrow with "Hc") as "[Hy Hc]".
    wp_load "Hy". iDestruct ("Hc" with "Hy") as "Hc". rewrite -E. blk.
    rewrite cdata_cons take_app in Ht. rewrite cdata_cons length_app in Hl.
    destruct (Z.ltb_spec (BLEN v) l); wp_ret.
    + iExists (length post). iSplit; [auto |]. iExists (pre ++ [(y, v)]), post. iFrame. iPureIntro.
      rewrite -app_assoc cdata_app cdata_cons app_nil_r.
      split_and!; try done; [intros ->; simpl in Hl; lia | lia | lia |].
      rewrite Ht take_ge; [| lia]. rewrite app_assoc. do 2 f_equal. lia.
    + iApply ("HΦ" $! pre y v post l with "[] [] Hc"); iPureIntro; [split_and!; done || lia |].
      rewrite Ht. replace (Z.to_nat l - length (bdata v))%nat with 0%nat by lia.
      by rewrite take_0 app_nil_r.
  - iExists [], xs. by iFrame.
Qed.

Lemma truncate_facts b l :
  wfb b -> 0 <= l <= BLEN b ->
  wfb (set_wp (b_wp b - (BLEN b - l)) b) /\
  bdata (set_wp (b_wp b - (BLEN b - l)) b) = take (Z.to_nat l) (bdata b).
Proof.
  unfold wfb, bdata, BLEN, lim. simpl. intros ((? & ?) & ? & ?) ?.
  split_and!; try done; try lia. rewrite take_take. f_equal. lia.
Qed.

Lemma wp_trimblock xs offset len (Φ : ptr -> hpropI Block) :
  wfbs xs -> xs <> [] -> 0 <= offset -> 0 <= len -> offset + len < 2 ^ 31 ->
  zlen (cdata xs) < 2 ^ 31 ->
  chain xs -∗
  (∀ p, (if decide (offset + len <= zlen (cdata xs)) then
           ∃ ys, ⌈p = start ys None /\ wfbs ys⌉ ∗
             ⌈cdata ys = take (Z.to_nat len) (drop (Z.to_nat offset) (cdata xs))⌉ ∗ chain ys
         else ⌈p = None⌉) -∗ Φ p) -∗
  wp (trimblock (start xs None) offset len) Φ.
Proof.
  iIntros (Hxs Hne Hoff Hlen Hsum Htot) "Hc HΦ". unfold trimblock.
  wp_bind. iApply (wp_blocklen with "Hc"); [done |]. iIntros "Hc".
  rewrite !wraps_id; [| lia..]. destruct (Z.ltb_spec (zlen (cdata xs)) (offset + len)).
  { wp_bind. iApply (wp_freeblist with "Hc"); [done |]. wp_ret. iApply "HΦ".
    by rewrite decide_False; [| lia]. }
  destruct (decide (offset + len <= zlen (cdata xs))); [| lia].
  wp_bind. iApply (wp_trim_front with "Hc"); [done | lia | done |].
  iIntros (x b ys off) "%Hys %Hd [Hx Hc]". destruct Hys as [Hys Ho].
  apply Forall_cons in Hys as [Hb Hys]. simpl in Hb.
  destruct (consume_facts b off Hb Ho) as (Hb' & Db & _). pose proof (length_bdata b Hb).
  set (b' := set_rp (b_rp b + off) b) in *. set (zs := (x, b') :: ys).
  wp_store "Hx".
  assert (cdata zs = drop (Z.to_nat offset) (cdata xs)) as Hzs.
  { unfold zs. rewrite -Hd !cdata_cons drop_app Db. f_equal.
    replace (Z.to_nat off - length (bdata b))%nat with 0%nat by lia. by rewrite drop_0. }
  iAssert (chain zs) with "[Hx Hc]" as "Hc"; [by iFrame |].
  wp_bind. change (Some x) with (start zs None) at 1.
  iApply (wp_trim_back with "Hc"); [by constructor | rewrite Hzs length_drop; lia | done |].
  iIntros (pre y v post k) "%E %Ht Hc". destruct E as [E Hl].
  assert (wfbs (pre ++ (y, v) :: post)) as Hall by (rewrite -E; by constructor).
  apply Forall_app in Hall as [Hpre Hpost]. apply Forall_cons in Hpost as [Hv Hpost]. simpl in Hv.
  destruct (truncate_facts v k Hv Hl) as (Hv' & Dv).
  set (v' := set_wp (b_wp v - (BLEN v - k)) v) in *.
  assert (Some x = start (pre ++ [(y, v')]) None) as Hx.
  { change (Some x) with (start zs None). by rewrite E !start_app. }
  iEval (rewrite E lseg_app) in "Hc". iDestruct "Hc" as "[Hpre [Hy Hpost]]".
  wp_store "Hy". blk. wp_load "Hy".
  iAssert (y ↦ set_b_next None v' -∗ Φ (Some x))%I with "[HΦ Hpre]" as "HΦ".
  { iIntros "Hy". iApply "HΦ". iExists (pre ++ [(y, v')]).
    iSplit; [iPureIntro; split; [done | by rewrite Forall_app Forall_singleton] |].
    iSplit; [iPureIntro; by rewrite cdata_app cdata_cons Dv app_nil_r -Ht Hzs |].
    rewrite lseg_app. by iFrame. }
  destruct post as [|[z w] post]; simpl.
  - wp_ret. by iApply "HΦ".
  - wp_bind. iApply (wp_freeblist ((z, w) :: post) with "Hpost"); [done |].
    wp_store "Hy". wp_ret. by iApply "HΦ".
Qed.

(** *** [padblock] *)

Lemma unread_facts b n :
  wfb b -> 0 <= n <= b_rp b ->
  wfb (set_rp (b_rp b - n) b) /\ BLEN (set_rp (b_rp b - n) b) = n + BLEN b /\
  drop (Z.to_nat n) (bdata (set_rp (b_rp b - n) b)) = bdata b.
Proof.
  unfold wfb, bdata, BLEN, lim. simpl. intros ((? & ?) & ? & ?) ?.
  split_and!; try done; try lia. rewrite skipn_firstn_comm drop_drop.
  f_equal; [lia |]. f_equal. lia.
Qed.

(** What [padblock] does: [size] more bytes at the front, or room for as many
    at the end; the link is lost when the block moves. *)
Definition padded (x : positive) (b : Block) (size : Z) (y : positive) (b' : Block) : Prop :=
  wfb b' /\ b_next b' = (if decide (y = x) then b_next b else None) /\
  (if decide (0 <= size) then
     BLEN b' = size + BLEN b /\ drop (Z.to_nat size) (bdata b') = bdata b
   else bdata b' = bdata b /\ - size <= lim b' - b_wp b').

Lemma wp_padblock x b size (Φ : ptr -> hpropI Block) :
  wfb b ->
  x ↦ b -∗ (∀ y b', ⌈padded x b size y b'⌉ -∗ y ↦ b' -∗ Φ (Some y)) -∗
  wp (padblock (Some x) size) Φ.
Proof.
  iIntros (Hb) "Hx HΦ". unfold padblock, padded. pose proof (BLEN_pos b Hb).
  pose proof (length_bdata b Hb). pose proof Hb as (Hrp & Hwp & _).
  wp_load "Hx". change (b_wp b - b_rp b) with (BLEN b). destruct (Z.leb_spec 0 size).
  - destruct (decide (0 <= size)); [| lia]. destruct (Z.leb_spec size (b_rp b)).
    + wp_store "Hx". wp_ret. iApply ("HΦ" with "[] Hx"); iPureIntro.
      destruct (unread_facts b size Hb) as (? & ? & ?); [lia |]. by rewrite decide_True.
    + wp_bind. iApply wp_allocb; [lia |]. iIntros (y b1) "%A1 Hy".
      destruct A1 as (A1 & _ & N1 & R1 & W1 & L1).
      iDestruct (pto_ne with "Hy Hx") as %Hne.
      wp_store "Hy". wp_store "Hy". wp_bind.
      iApply (wp_peek_data with "Hx"); [done | lia |]. rewrite take_bdata //. iIntros "Hx".
      set (b2 := set_wp _ (set_rp _ b1)).
      assert (wfb b2 /\ b_rp b2 = size /\ b_wp b2 = size /\ lim b2 = size + BLEN b /\
              b_next b2 = None) as (W2 & R2 & P2 & L2 & N2).
      { unfold wfb, lim in *. simpl. destruct A1 as (? & ? & ?). split_and!; try done; lia. }
      destruct (append_facts b2 (bdata b) W2) as (W3 & D3 & B3 & L3); [lia |].
      wp_bind. iApply (wp_append with "Hy"); [done | lia |]. iIntros "Hy".
      wp_bind. iApply (wp_freeb with "Hx"); [done |]. wp_store "Hy". wp_ret.
      iApply ("HΦ" with "[] Hy"). iPureIntro.
      destruct (unread_facts (app_data (bdata b) b2) size W3) as (? & HB & HD); [simpl; lia |].
      rewrite decide_False //. split_and!; [done | done | |].
      * rewrite HB B3. unfold BLEN in *. lia.
      * rewrite HD D3. unfold bdata at 1. unfold BLEN at 1. by rewrite R2 P2 Z.sub_diag.
  - destruct (decide (0 <= size)); [lia |]. destruct (Z.leb_spec (- size) (lim b - b_wp b)).
    + wp_ret. iApply ("HΦ" with "[] Hx"). iPureIntro. by rewrite decide_True.
    + wp_bind. iApply wp_allocb; [lia |]. iIntros (y b1) "%A1 Hy".
      destruct A1 as (A1 & D1 & N1 & R1 & W1 & L1).
      iDestruct (pto_ne with "Hy Hx") as %Hne.
      wp_bind. iApply (wp_peek_data with "Hx"); [done | lia |]. rewrite take_bdata //. iIntros "Hx".
      destruct (append_facts b1 (bdata b) A1) as (W3 & D3 & B3 & L3); [lia |].
      wp_bind. iApply (wp_append with "Hy"); [done | lia |]. iIntros "Hy".
      wp_bind. iApply (wp_freeb with "Hx"); [done |]. wp_ret.
      iApply ("HΦ" with "[] Hy"). iPureIntro. rewrite decide_False //.
      split_and!; [done | done | by rewrite D3 D1 | rewrite L3 /=; lia].
Qed.

End Lemmas.

(** ** Properties *)

Section Properties.
Context `{Host}.
Implicit Types (xs ys : blocks).

(** [pullupblock] leaves the contents of the chain as they are.  If the
    first block already has [n] bytes it changes nothing; otherwise, when the
    chain has [n] bytes its first block ends up with exactly [n], and when it
    has fewer the whole chain is freed and the result is nil. *)
Theorem pullupblock_correct x b xs n (Hxs : wfbs ((x, b) :: xs)) :
  chain ((x, b) :: xs) ⊢ wp (pullupblock (Some x) n) (fun p =>
    if decide (n <= BLEN b) then ⌈p = Some x⌉ ∗ chain ((x, b) :: xs)
    else pulled (cdata ((x, b) :: xs)) n p).
Proof. iIntros "Hc". iApply (wp_pullupblock with "Hc"); auto. Qed.

(** [trimblock] cuts a chain down to [len] bytes starting at [offset],
    freeing the blocks outside, or frees all of it when it is too short. *)
Theorem trimblock_correct xs offset len
    (Hxs : wfbs xs) (Hne : xs <> []) (Hoff : 0 <= offset) (Hlen : 0 <= len)
    (Hsum : offset + len < 2 ^ 31) (Htot : zlen (cdata xs) < 2 ^ 31) :
  chain xs ⊢ wp (trimblock (start xs None) offset len) (fun p =>
    if decide (offset + len <= zlen (cdata xs)) then
      ∃ ys, ⌈p = start ys None /\ wfbs ys⌉ ∗
        ⌈cdata ys = take (Z.to_nat len) (drop (Z.to_nat offset) (cdata xs))⌉ ∗ chain ys
    else ⌈p = None⌉).
Proof. iIntros "Hc". iApply (wp_trimblock with "Hc"); auto. Qed.

(** [pullblock] removes [count] bytes from the front of a chain, or all
    there are, frees the blocks it emptied and says how many it removed. *)
Theorem pullblock_correct xs count (Hxs : wfbs xs) (Hcount : 0 <= count) :
  chain xs ⊢ wp (pullblock (start xs None) count) (fun '(p, n) =>
    ⌈n = Z.min count (zlen (cdata xs))⌉ ∗
    ∃ ys, ⌈p = start ys None /\ wfbs ys⌉ ∗
      ⌈cdata ys = drop (Z.to_nat count) (cdata xs)⌉ ∗ chain ys).
Proof.
  iIntros "Hc". iApply (wp_pullblock with "Hc"); [done.. |].
  iIntros (ys) "%Hys Hc". iSplit; [done |]. iExists ys. iFrame. by destruct Hys.
Qed.

(** [concatblock] replaces a chain by a single block with the chain's
    bytes; [copyblock] makes a block of exactly [count] bytes, the first of
    the chain and then zeros, and leaves the chain alone. *)
Theorem concatblock_copyblock_correct xs count
    (Hxs : wfbs xs) (Htot : zlen (cdata xs) < 2 ^ 31) (Hcount : 0 <= count) :
  (chain xs ⊢ wp (concatblock (start xs None)) (fun p => new_block p (cdata xs))) /\
  (chain xs ⊢ wp (copyblock (start xs None) count) (fun p =>
     chain xs ∗ new_block p (zpad count (cdata xs)))).
Proof.
  split; iIntros "Hc".
  - iApply (wp_concatblock with "Hc"); auto.
  - iApply (wp_copyblock with "Hc"); auto with iFrame.
Qed.

(** [padblock] with a positive size puts that many bytes in front of the
    block's, with a negative size it makes room for as many after them; the
    block's own bytes stay, whether or not they had to move. *)
Theorem padblock_correct x b size (Hb : wfb b) :
  x ↦ b ⊢ wp (padblock (Some x) size) (fun p =>
    ∃ y b', ⌈p = Some y⌉ ∗ ⌈padded x b size y b'⌉ ∗ y ↦ b').
Proof.
  iIntros "Hx". iApply (wp_padblock with "Hx"); [done |]. iIntros (y b') "Hp Hy".
  iExists y, b'. by iFrame.
Qed.

End Properties.

(** *** Witnesses *)

(** A store whose stale memory is zeros. *)
Definition zero_host : Host := {| stale := fun _ => 0; driver_free := fun _ => fault |}.

(** A full block, and one with room before and after its two bytes. *)
Definition blk_a : Block := MkBlock None 0 3 [1; 2; 3] false.
Definition blk_b : Block := MkBlock None 1 3 [0; 4; 5; 0] false.
Definition ab : blocks := [(1%positive, blk_a); (2%positive, blk_b)].

Lemma ab_wf : wfbs ab.
Proof. rewrite !Forall_cons. split_and!; done. Qed.

Lemma pullupblock_witness :
  wfbs ab /\
  (chain ab ⊢ wp (@pullupblock zero_host (Some 1%positive) 4) (pulled [1; 2; 3; 4; 5] 4)).
Proof.
  split; [exact ab_wf |].
  exact (@pullupblock_correct zero_host 1 blk_a [(2%positive, blk_b)] 4 ab_wf).
Defined.

Lemma trimblock_witness :
  chain ab ⊢ wp (@trimblock zero_host (Some 1%positive) 1 3) (fun p =>
    ∃ ys, ⌈p = start ys None /\ wfbs ys⌉ ∗ ⌈cdata ys = [2; 3; 4]⌉ ∗ chain ys).
Proof.
  refine (@trimblock_correct zero_host ab 1 3 ab_wf _ _ _ _ _); (discriminate || done || lia).
Defined.

Lemma pullblock_witness :
  chain ab ⊢ wp (@pullblock zero_host (Some 1%positive) 4) (fun '(p, n) =>
    ⌈n = 4⌉ ∗ ∃ ys, ⌈p = start ys None /\ wfbs ys⌉ ∗ ⌈cdata ys = [5]⌉ ∗ chain ys).
Proof. refine (@pullblock_correct zero_host ab 4 ab_wf _). lia. Defined.

Lemma concatblock_copyblock_witness :
  (chain ab ⊢ wp (@concatblock zero_host (Some 1%positive))
     (fun p => new_block p [1; 2; 3; 4; 5])) /\
  (chain ab ⊢ wp (@copyblock zero_host (Some 1%positive) 7)
     (fun p => chain ab ∗ new_block p [1; 2; 3; 4; 5; 0; 0])).
Proof. refine (@concatblock_copyblock_correct zero_host ab 7 ab_wf _ _); done. Defined.

Lemma padblock_witness :
  2 ↦ blk_b ⊢ wp (@padblock zero_host (Some 2%positive) 3) (fun p =>
    ∃ y b', ⌈p = Some y⌉ ∗ ⌈padded 2 blk_b 3 y b'⌉ ∗ y ↦ b').
Proof. apply (@padblock_correct zero_host). repeat split; done. Defined.
