(* ===== verification/Qio.v ===== *)
(** * Queues of blocks ([emu/qio.c])

    A [Queue] is a chain of blocks with flow control: readers sleep while it is
    empty, writers while it holds [limit] bytes.  Every operation is a function
    from the queue's record and the store of blocks to the new record, the
    wakeups it issued and its result; an operation that would sleep says so and
    leaves the queue as the sleeping process leaves it.

    [AQueue] is the abstract queue, a list of byte strings; every operation
    here refines its operation on [AQueue]. *)

From S2P Require Import Prelude Heap Block.

#[local] Open Scope Z_scope.

Record Queue := MkQueue {
  bfirst : ptr;
  blast : ptr;
  len : Z;              (* bytes in queue *)
  limit : Z;            (* max bytes in queue *)
  inilim : Z;           (* initial limit *)
  state : Z;
  noblock : bool;       (* writes return immediately when the queue is full *)
  eof : Z;              (* number of eofs read by user *)
  kick : bool;          (* there is a routine to restart output *)
  err : list Z;
}.

Definition set_bfirst v q := MkQueue v (blast q) (len q) (limit q) (inilim q) (state q) (noblock q) (eof q) (kick q) (err q).
Definition set_blast v q := MkQueue (bfirst q) v (len q) (limit q) (inilim q) (state q) (noblock q) (eof q) (kick q) (err q).
Definition set_len v q := MkQueue (bfirst q) (blast q) v (limit q) (inilim q) (state q) (noblock q) (eof q) (kick q) (err q).
Definition set_limit v q := MkQueue (bfirst q) (blast q) (len q) v (inilim q) (state q) (noblock q) (eof q) (kick q) (err q).
Definition set_state v q := MkQueue (bfirst q) (blast q) (len q) (limit q) (inilim q) v (noblock q) (eof q) (kick q) (err q).
Definition set_noblock v q := MkQueue (bfirst q) (blast q) (len q) (limit q) (inilim q) (state q) v (eof q) (kick q) (err q).
Definition set_eof v q := MkQueue (bfirst q) (blast q) (len q) (limit q) (inilim q) (state q) (noblock q) v (kick q) (err q).
Definition set_err v q := MkQueue (bfirst q) (blast q) (len q) (limit q) (inilim q) (state q) (noblock q) (eof q) (kick q) v.

Definition Qstarve : Z := Z.shiftl 1 0.     (* consumer starved *)
Definition Qmsg : Z := Z.shiftl 1 1.        (* message stream *)
Definition Qclosed : Z := Z.shiftl 1 2.
Definition Qflow : Z := Z.shiftl 1 3.

(** [q->state & f], [q->state |= f], [q->state &= ~f] *)
Definition has (f : Z) (q : Queue) : bool := negb (Z.land (state q) f =? 0).
Definition on (f : Z) (q : Queue) : Queue := set_state (Z.lor (state q) f) q.
Definition off (f : Z) (q : Queue) : Queue := set_state (Z.land (state q) (Z.lnot f)) q.

(** [Wakeup] of [q->rr], of [q->wr], and a call of [q->kick]. *)
Inductive event := WakeReader | WakeWriter | Kick.

#[global] Instance event_eq_dec : EqDecision event.
Proof. solve_decision. Defined.

(** How an operation ends: with nothing (nil), a number, bytes in the caller's
    buffer, a block, asleep, or raising an error. *)
Inductive result (B : Type) :=
  | RNone
  | RInt (n : Z)
  | RData (d : list Z)
  | RBlock (b : B)
  | RSleep
  | RError (e : list Z).
Arguments RNone {B}.
Arguments RInt {B} n.
Arguments RData {B} d.
Arguments RBlock {B} b.
Arguments RSleep {B}.
Arguments RError {B} e.

Abbreviation res := (Queue * list event * result ptr)%type.

Definition ERRLEN : Z := 64.

Definition of_ascii (s : String.string) : list Z :=
  map (fun c => Z.of_nat (Ascii.nat_of_ascii c)) (String.list_ascii_of_string s).

Definition Ehungup : list Z := of_ascii "write to hungup channel".

(** "if writer flow controlled, restart" *)
Definition restart_writer (q : Queue) : Queue * bool :=
  if has Qflow q && (len q <? Z.quot (limit q) 2) then (off Qflow q, true) else (q, false).

(** The reader's side of an insertion. *)
Definition unstarve (q : Queue) : Queue * bool :=
  if has Qstarve q then (off Qstarve q, true) else (q, false).

Definition wakew (b : bool) : list event := if b then [WakeWriter] else [].
Definition waker (b : bool) : list event := if b then [WakeReader] else [].
Definition kicked (b : bool) (q : Queue) (e : event) : list event :=
  if b then (if kick q then [Kick] else []) ++ [e] else [].

Section Ops.
Context `{Host}.

(** "save in buffer" *)
Definition enqueue (q : Queue) (b : ptr) (n : Z) : M Queue :=
  q ← match bfirst q with
      | Some _ => modify (blast q) (set_b_next b);; mret q
      | None => mret (set_bfirst b q)
      end;
  mret (set_len (i32 (len q + n)) (set_blast b q)).

(** A new block with the bytes [d]. *)
Definition block_of (d : list Z) : M ptr :=
  b ← allocb (zlen d);
  append b d;;
  mret b.

Definition qget (q : Queue) : M res :=
  match bfirst q with
  | None => mret (on Qstarve q, [], RNone)
  | Some _ as b =>
      v ← load b;
      let q := set_bfirst (b_next v) q in
      modify b (set_b_next None);;
      let q := set_len (i32 (len q - BLEN v)) q in
      let '(q, dowakeup) := restart_writer q in
      mret (q, wakew dowakeup, RBlock b)
  end.

Definition qdiscard (q : Queue) (n : Z) : M res :=
  loop (fun '(q, n) =>
    match bfirst q with
    | None => mret (inr (q, [], RNone))
    | Some _ as b =>
        v ← load b;
        if n <? BLEN v then
          modify b (fun v => set_rp (b_rp v + n) v);;
          mret (inr (q, [], RNone))
        else
          let q := set_bfirst (b_next v) q in
          let q := set_len (i32 (len q - BLEN v)) q in
          freeb b;;
          mret (inl (q, n - BLEN v))
    end) (q, n).

(** Skipping empty blocks: the first loop of [qconsume]. *)
Definition qconsume_skip (q : Queue) : M (Queue * option Z) :=
  loop (fun q =>
    match bfirst q with
    | None => mret (inr (on Qstarve q, None))
    | Some _ as b =>
        v ← load b;
        if 0 <? BLEN v then mret (inr (q, Some (BLEN v)))
        else
          let q := set_bfirst (b_next v) q in
          freeb b;;
          mret (inl q)
    end) q.

Definition qconsume (q : Queue) (len' : Z) : M res :=
  '(q, r) ← qconsume_skip q;
  match r with
  | None => mret (q, [], RInt (-1))
  | Some n =>
      let b := bfirst q in
      let len' := if n <? len' then n else len' in
      v ← load b;
      p ← peek b (b_rp v) len';
      let q := if has Qmsg q || (len' =? n) then set_bfirst (b_next v) q else q in
      modify b (fun v => set_rp (b_rp v + len') v);;
      let q := set_len (i32 (len q - len')) q in
      let '(q, dowakeup) := restart_writer q in
      (if has Qmsg q || (len' =? n) then freeb b else mret tt);;
      mret (q, wakew dowakeup, RData p)
  end.

Definition qpass (q : Queue) (b : ptr) : M res :=
  v ← load b;
  let n := BLEN v in
  q ← enqueue q b n;
  let q := if Z.quot (limit q) 2 <=? len q then on Qflow q else q in
  let '(q, dowakeup) := unstarve q in
  mret (q, waker dowakeup, RInt n).

Definition qproduce (q : Queue) (p : list Z) : M res :=
  require (negb (has Qclosed q));;
  if limit q <=? len q then mret (on Qflow q, [], RInt (-1))
  else
    b ← block_of p;
    q ← enqueue q b (zlen p);
    let '(q, dowakeup) := unstarve q in
    mret (q, waker dowakeup, RInt (zlen p)).

(** [qcopy]: the walk to the offset, and the copy from there. *)
Definition qcopy_seek (q : Queue) (offset : Z) : M (option (ptr * Z * Z)) :=
  loop (fun '(b, sofar) =>
    match b with
    | None => mret (inr None)
    | Some _ =>
        v ← load b;
        let n := BLEN v in
        if offset <? sofar + n then
          mret (inr (Some (b, b_rp v + offset - sofar, n - (offset - sofar))))
        else mret (inl (b_next v, sofar + n))
    end) (bfirst q, 0).

Definition qcopy_copy (nb : ptr) (len' : Z) (b : ptr) (p n : Z) : M unit :=
  loop (fun '(b, p, n, sofar) =>
    if sofar <? len' then
      let n := if len' - sofar <? n then len' - sofar else n in
      d ← peek b p n;
      append nb d;;
      v ← load b;
      match b_next v with
      | None => mret (inr tt)
      | Some _ as b => w ← load b; mret (inl (b, b_rp w, BLEN w, sofar + n))
      end
    else mret (inr tt)) (b, p, n, 0).

Definition qcopy (q : Queue) (len' offset : Z) : M res :=
  nb ← allocb len';
  r ← qcopy_seek q offset;
  match r with
  | None => mret (q, [], RBlock nb)
  | Some (b, p, n) => qcopy_copy nb len' b p n;; mret (q, [], RBlock nb)
  end.

Definition qopen (limit : Z) (msg : Z) (kick : bool) : Queue :=
  let q := MkQueue None None 0 limit limit (if msg =? 0 then 0 else Qmsg) false 0 kick [] in
  on Qstarve q.

Definition notempty (q : Queue) : bool :=
  has Qclosed q || match bfirst q with Some _ => true | None => false end.

(** [qbread] holds the queue's lock twice.  The first time it takes out the
    first block (the result is the block and its length) or finds the queue
    empty; it does not clear the link of the block. *)
Definition qbread_first (q : Queue) : M (Queue * bool * result (ptr * Z)) :=
  match bfirst q with
  | None =>
      if has Qclosed q then
        let q := set_eof (eof q + 1) q in
        mret (q, false, if 3 <? eof q then RError (err q) else RNone)
      else mret (on Qstarve q, false, RSleep)
  | Some _ as b =>
      v ← load b;
      let q := set_bfirst (b_next v) q in
      let n := BLEN v in
      let q := set_len (i32 (len q - n)) q in
      let '(q, dowakeup) := restart_writer q in
      mret (q, dowakeup, RBlock (b, n))
  end.

(** The second time it puts back what the reader did not ask for: "split block
    if its too big and this is not a message oriented queue". *)
Definition qbread_split (q : Queue) (nb : ptr) (n len' : Z) : M Queue :=
  if len' <? n then
    q ← (if negb (has Qmsg q) then
           let n := n - len' in
           v ← load nb;
           d ← peek nb (b_rp v + len') n;
           b ← block_of d;
           modify b (set_b_next (bfirst q));;
           let q := match bfirst q with None => set_blast b q | Some _ => q end in
           let q := set_bfirst b q in
           mret (set_len (i32 (len q + n)) q)
         else mret q);
    modify nb (fun v => set_wp (b_rp v + len') v);;
    mret q
  else mret q.

Definition qbread (q : Queue) (len' : Z) : M res :=
  '(q, dowakeup, r) ← qbread_first q;
  match r with
  | RBlock (nb, n) =>
      q ← qbread_split q nb n len';
      mret (q, kicked dowakeup q WakeWriter, RBlock nb)
  | RError e => mret (q, [], RError e)
  | RSleep => mret (q, [], RSleep)
  | _ => mret (q, [], RNone)
  end.

Definition qread (q : Queue) (len' : Z) : M res :=
  '(q, ev, r) ← qbread q len';
  match r with
  | RBlock b =>
      v ← load b;
      d ← peek b (b_rp v) (BLEN v);
      freeb b;;
      mret (q, ev, RData d)
  | RNone => mret (q, ev, RData [])
  | r => mret (q, ev, r)
  end.

Definition qnotfull (q : Queue) : bool := (len q <? limit q) || has Qclosed q.

(** A writer that sleeps holds on to its block and comes back here when it is
    woken. *)
Definition qbwrite (q : Queue) (b : ptr) : M res :=
  v ← load b;
  let n := BLEN v in
  if negb (qnotfull q) then
    if noblock q then freeb b;; mret (q, [], RInt n)
    else mret (on Qflow q, [], RSleep)
  else if has Qclosed q then freeb b;; mret (q, [], RError (err q))
  else
    q ← enqueue q b n;
    let '(q, dowakeup) := unstarve q in
    mret (q, kicked dowakeup q WakeReader, RInt n).

Definition chunk : Z := 128 * 1024.

(** The loop of [qwrite], from byte [sofar] of [p]; [pending] is the block of
    a writer that was asleep.  It ends asleep, with the block it could not
    write and how far it got, or with the result of [qwrite]. *)
Definition qwrite_loop (q : Queue) (p : list Z) (sofar : Z) (pending : ptr)
    : M (Queue * list event * (ptr * Z + result ptr)) :=
  iter (S (Z.to_nat (zlen p / chunk))) (fun '(q, ev, sofar, pending) =>
    let n := if chunk <? zlen p - sofar then chunk else zlen p - sofar in
    b ← match pending with
        | Some _ => mret pending
        | None => block_of (take (Z.to_nat n) (drop (Z.to_nat sofar) p))
        end;
    '(q, ev', r) ← qbwrite q b;
    match r with
    | RSleep => mret (inr (q, ev ++ ev', inl (b, sofar)))
    | RError e => mret (inr (q, ev ++ ev', inr (RError e)))
    | _ =>
        let sofar := sofar + n in
        if (sofar <? zlen p) && negb (has Qmsg q)
        then mret (inl (q, ev ++ ev', sofar, None))
        else mret (inr (q, ev ++ ev', inr (RInt (zlen p))))
    end) (q, [], sofar, pending).

Definition qwrite (q : Queue) (p : list Z) := qwrite_loop q p 0 None.

(** ([dowakeup] is never cleared: once the reader was woken, every later chunk
    wakes it again.) *)
Definition qiwrite (q : Queue) (p : list Z) : M res :=
  iter (S (Z.to_nat (zlen p / chunk))) (fun '(q, ev, sofar, dowakeup) =>
    let n := if chunk <? zlen p - sofar then chunk else zlen p - sofar in
    b ← block_of (take (Z.to_nat n) (drop (Z.to_nat sofar) p));
    q ← enqueue q b n;
    let '(q, starved) := unstarve q in
    let dowakeup := starved || dowakeup in
    let ev := ev ++ kicked dowakeup q WakeReader in
    let sofar := sofar + n in
    if (sofar <? zlen p) && negb (has Qmsg q)
    then mret (inl (q, ev, sofar, dowakeup))
    else mret (inr (q, ev, RInt (zlen p)))) (q, [], 0, false).

Definition qclose (q : Queue) : M res :=
  let q := on Qclosed q in
  let q := set_err Ehungup q in
  let bfirst' := bfirst q in
  let q := set_bfirst None q in
  let q := set_len 0 q in
  let q := set_noblock false q in
  freeblist bfirst';;
  mret (q, [WakeReader; WakeWriter], RNone).

(** The queue itself is gone afterwards. *)
Definition qfree (q : Queue) : M (list event) :=
  '(_, ev, _) ← qclose q; mret ev.

Definition qhangup (q : Queue) (msg : list Z) : res :=
  let q := on Qclosed q in
  let q := match msg with
           | [] => set_err Ehungup q
           | _ => set_err (take (Z.to_nat (ERRLEN - 1)) msg) q
           end in
  (q, [WakeReader; WakeWriter], RNone).

Definition qreopen (q : Queue) : Queue :=
  let q := off Qclosed q in
  let q := on Qstarve q in
  let q := set_eof 0 q in
  set_limit (inilim q) q.

Definition qlen (q : Queue) : Z := len q.

Definition qwindow (q : Queue) : Z :=
  let l := i32 (limit q - len q) in
  if l <? 0 then 0 else l.

Definition qcanread (q : Queue) : bool :=
  match bfirst q with Some _ => true | None => false end.

Definition qsetlimit (q : Queue) (limit' : Z) : Queue := set_limit limit' q.
Definition qnoblock (q : Queue) (onoff : bool) : Queue := set_noblock onoff q.

Definition qflush (q : Queue) : M res :=
  let bfirst' := bfirst q in
  let q := set_bfirst None q in
  let q := set_len 0 q in
  freeblist bfirst';;
  mret (q, [WakeWriter], RNone).

Definition qfull (q : Queue) : Z := Z.land (state q) Qflow.
Definition qstate (q : Queue) : Z := state q.
Definition qclosed (q : Queue) : Z := Z.land (state q) Qclosed.

End Ops.
