(* ===== verification/AQueue.v ===== *)
(** * The abstract queue

    What [emu/qio.c] promises, without pointers: a queue is a list of byte
    strings with the flags and counters of the [Queue] structure, and every
    operation is a function on it.  [QioProof] shows that the code refines
    this specification; here are the properties of the specification itself:
    the accounting of [len], the order of the bytes, and flow control. *)

From S2P Require Import Prelude Heap Block Qio.

#[local] Open Scope Z_scope.

Record AQueue := MkAQueue {
  a_blocks : list (list Z);
  a_len : Z;
  a_limit : Z;
  a_inilim : Z;
  a_starve : bool;
  a_msg : bool;
  a_closed : bool;
  a_flow : bool;
  a_noblock : bool;
  a_eof : Z;
  a_kick : bool;
  a_err : list Z;
}.

Definition aset_blocks v a := MkAQueue v (a_len a) (a_limit a) (a_inilim a) (a_starve a) (a_msg a) (a_closed a) (a_flow a) (a_noblock a) (a_eof a) (a_kick a) (a_err a).
Definition aset_len v a := MkAQueue (a_blocks a) v (a_limit a) (a_inilim a) (a_starve a) (a_msg a) (a_closed a) (a_flow a) (a_noblock a) (a_eof a) (a_kick a) (a_err a).
Definition aset_limit v a := MkAQueue (a_blocks a) (a_len a) v (a_inilim a) (a_starve a) (a_msg a) (a_closed a) (a_flow a) (a_noblock a) (a_eof a) (a_kick a) (a_err a).
Definition aset_starve v a := MkAQueue (a_blocks a) (a_len a) (a_limit a) (a_inilim a) v (a_msg a) (a_closed a) (a_flow a) (a_noblock a) (a_eof a) (a_kick a) (a_err a).
Definition aset_closed v a := MkAQueue (a_blocks a) (a_len a) (a_limit a) (a_inilim a) (a_starve a) (a_msg a) v (a_flow a) (a_noblock a) (a_eof a) (a_kick a) (a_err a).
Definition aset_flow v a := MkAQueue (a_blocks a) (a_len a) (a_limit a) (a_inilim a) (a_starve a) (a_msg a) (a_closed a) v (a_noblock a) (a_eof a) (a_kick a) (a_err a).
Definition aset_noblock v a := MkAQueue (a_blocks a) (a_len a) (a_limit a) (a_inilim a) (a_starve a) (a_msg a) (a_closed a) (a_flow a) v (a_eof a) (a_kick a) (a_err a).
Definition aset_eof v a := MkAQueue (a_blocks a) (a_len a) (a_limit a) (a_inilim a) (a_starve a) (a_msg a) (a_closed a) (a_flow a) (a_noblock a) v (a_kick a) (a_err a).
Definition aset_err v a := MkAQueue (a_blocks a) (a_len a) (a_limit a) (a_inilim a) (a_starve a) (a_msg a) (a_closed a) (a_flow a) (a_noblock a) (a_eof a) (a_kick a) v.

(** The operations; [B] is a block: a pointer for the code, its bytes here. *)
Inductive op (B : Type) :=
  | OpGet
  | OpDiscard (n : Z)
  | OpConsume (n : Z)
  | OpPass (b : B)
  | OpProduce (d : list Z)
  | OpCopy (n offset : Z)
  | OpBread (n : Z)
  | OpRead (n : Z)
  | OpBwrite (b : B)
  | OpIwrite (d : list Z)
  | OpClose
  | OpHangup (msg : list Z)
  | OpReopen
  | OpSetlimit (n : Z)
  | OpNoblock (onoff : bool)
  | OpFlush.
Arguments OpGet {B}.
Arguments OpDiscard {B} n.
Arguments OpConsume {B} n.
Arguments OpPass {B} b.
Arguments OpProduce {B} d.
Arguments OpCopy {B} n offset.
Arguments OpBread {B} n.
Arguments OpRead {B} n.
Arguments OpBwrite {B} b.
Arguments OpIwrite {B} d.
Arguments OpClose {B}.
Arguments OpHangup {B} msg.
Arguments OpReopen {B}.
Arguments OpSetlimit {B} n.
Arguments OpNoblock {B} onoff.
Arguments OpFlush {B}.

Abbreviation ares := (AQueue * list event * result (list Z))%type.

(** All the bytes of a queue, in order. *)
Definition contents (a : AQueue) : list Z := concat (a_blocks a).

(** ** The operations *)

Definition a_restart (a : AQueue) : AQueue * bool :=
  if a_flow a && (a_len a <? Z.quot (a_limit a) 2) then (aset_flow false a, true) else (a, false).

Definition a_unstarve (a : AQueue) : AQueue * bool :=
  if a_starve a then (aset_starve false a, true) else (a, false).

Definition a_kicked (b : bool) (a : AQueue) (e : event) : list event :=
  if b then (if a_kick a then [Kick] else []) ++ [e] else [].

Definition a_enqueue (a : AQueue) (d : list Z) : AQueue :=
  aset_len (i32 (a_len a + zlen d)) (aset_blocks (a_blocks a ++ [d]) a).

(** The first block leaves. *)
Definition a_remove (a : AQueue) (d : list Z) (ds : list (list Z)) : AQueue * bool :=
  a_restart (aset_len (i32 (a_len a - zlen d)) (aset_blocks ds a)).

Definition a_get (a : AQueue) : ares :=
  match a_blocks a with
  | [] => (aset_starve true a, [], RNone)
  | d :: ds => let '(a, w) := a_remove a d ds in (a, wakew w, RBlock d)
  end.

(** [n] bytes leave whole blocks, but what leaves of the last one is not
    taken off the length. *)
Fixpoint discard (ds : list (list Z)) (n len : Z) : list (list Z) * Z :=
  match ds with
  | [] => ([], len)
  | d :: ds =>
      if n <? zlen d then (drop (Z.to_nat n) d :: ds, len)
      else discard ds (n - zlen d) (i32 (len - zlen d))
  end.

Definition a_discard (a : AQueue) (n : Z) : ares :=
  let '(ds, len) := discard (a_blocks a) n (a_len a) in
  (aset_len len (aset_blocks ds a), [], RNone).

Fixpoint skip_empty (ds : list (list Z)) : list (list Z) :=
  match ds with [] :: ds => skip_empty ds | ds => ds end.

Definition a_consume (a : AQueue) (n : Z) : ares :=
  match skip_empty (a_blocks a) with
  | [] => (aset_starve true (aset_blocks [] a), [], RInt (-1))
  | d :: ds =>
      let k := Z.min (zlen d) n in
      let ds := if a_msg a || (k =? zlen d) then ds else drop (Z.to_nat k) d :: ds in
      let '(a, w) := a_restart (aset_len (i32 (a_len a - k)) (aset_blocks ds a)) in
      (a, wakew w, RData (take (Z.to_nat k) d))
  end.

Definition a_pass (a : AQueue) (d : list Z) : ares :=
  let a := a_enqueue a d in
  let a := if Z.quot (a_limit a) 2 <=? a_len a then aset_flow true a else a in
  let '(a, w) := a_unstarve a in (a, waker w, RInt (zlen d)).

Definition a_produce (a : AQueue) (d : list Z) : ares :=
  if a_limit a <=? a_len a then (aset_flow true a, [], RInt (-1))
  else let '(a, w) := a_unstarve (a_enqueue a d) in (a, waker w, RInt (zlen d)).

Definition a_copy (a : AQueue) (n offset : Z) : ares :=
  (a, [], RBlock (take (Z.to_nat n) (drop (Z.to_nat offset) (contents a)))).

(** Both critical sections of [qbread]. *)
Definition a_bread_first (a : AQueue) : AQueue * bool * result (list Z) :=
  match a_blocks a with
  | [] =>
      if a_closed a then
        let a := aset_eof (a_eof a + 1) a in
        (a, false, if 3 <? a_eof a then RError (a_err a) else RNone)
      else (aset_starve true a, false, RSleep)
  | d :: ds => let '(a, w) := a_remove a d ds in (a, w, RBlock d)
  end.

Definition a_bread_split (a : AQueue) (d : list Z) (n : Z) : AQueue :=
  if (n <? zlen d) && negb (a_msg a) then
    aset_len (i32 (a_len a + (zlen d - n)))
      (aset_blocks (drop (Z.to_nat n) d :: a_blocks a) a)
  else a.

Definition a_bread (a : AQueue) (n : Z) : ares :=
  let '(a, w, r) := a_bread_first a in
  match r with
  | RBlock d =>
      (a_bread_split a d n, a_kicked w a WakeWriter, RBlock (take (Z.to_nat n) d))
  | r => (a, [], r)
  end.

Definition a_read (a : AQueue) (n : Z) : ares :=
  let '(a, ev, r) := a_bread a n in
  (a, ev, match r with RBlock d => RData d | RNone => RData [] | r => r end).

Definition a_notfull (a : AQueue) : bool := (a_len a <? a_limit a) || a_closed a.

Definition a_bwrite (a : AQueue) (d : list Z) : ares :=
  if negb (a_notfull a) then
    if a_noblock a then (a, [], RInt (zlen d)) else (aset_flow true a, [], RSleep)
  else if a_closed a then (a, [], RError (a_err a))
  else
    let '(a, w) := a_unstarve (a_enqueue a d) in
    (a, a_kicked w a WakeReader, RInt (zlen d)).

(** What a large write is cut into; a message queue gets only the first
    piece. *)
Fixpoint pieces (fuel : nat) (d : list Z) : list (list Z) :=
  match fuel with
  | O => []
  | S fuel =>
      take (Z.to_nat chunk) d ::
      (if chunk <? zlen d then pieces fuel (drop (Z.to_nat chunk) d) else [])
  end.

Definition cut (d : list Z) : list (list Z) := pieces (S (Z.to_nat (zlen d / chunk))) d.

Definition chunks (msg : bool) (d : list Z) : list (list Z) :=
  if msg then [take (Z.to_nat chunk) d] else cut d.

Fixpoint iwrite (a : AQueue) (ds : list (list Z)) (ev : list event) (woken : bool)
    : AQueue * list event :=
  match ds with
  | [] => (a, ev)
  | d :: ds =>
      let '(a, w) := a_unstarve (a_enqueue a d) in
      iwrite a ds (ev ++ a_kicked (w || woken) a WakeReader) (w || woken)
  end.

Definition a_iwrite (a : AQueue) (d : list Z) : ares :=
  (iwrite a (chunks (a_msg a) d) [] false, RInt (zlen d)).

(** A write that may fall asleep: it ends with how many bytes it had queued
    by then, or with a result. *)
Fixpoint awrite (a : AQueue) (ds : list (list Z)) (ev : list event) (sofar total : Z)
    : AQueue * list event * (Z + result (list Z)) :=
  match ds with
  | [] => (a, ev, inr (RInt total))
  | d :: ds =>
      let '(a, ev', r) := a_bwrite a d in
      match r with
      | RSleep => (a, ev ++ ev', inl sofar)
      | RError e => (a, ev ++ ev', inr (RError e))
      | _ => awrite a ds (ev ++ ev') (sofar + zlen d) total
      end
  end.

(** The rest of a write of [p] whose first [sofar] bytes are in the queue. *)
Definition a_write (a : AQueue) (p : list Z) (sofar : Z) :=
  awrite a (chunks (a_msg a) (drop (Z.to_nat sofar) p)) [] sofar (zlen p).

Definition a_close (a : AQueue) : ares :=
  (aset_noblock false (aset_len 0 (aset_blocks [] (aset_err Ehungup (aset_closed true a)))),
   [WakeReader; WakeWriter], RNone).

Definition a_hangup (a : AQueue) (msg : list Z) : ares :=
  (aset_err (match msg with [] => Ehungup | _ => take (Z.to_nat (ERRLEN - 1)) msg end)
     (aset_closed true a), [WakeReader; WakeWriter], RNone).

Definition a_reopen (a : AQueue) : AQueue :=
  aset_limit (a_inilim a) (aset_eof 0 (aset_starve true (aset_closed false a))).

Definition a_flush (a : AQueue) : ares :=
  (aset_len 0 (aset_blocks [] a), [WakeWriter], RNone).

Definition step (a : AQueue) (o : op (list Z)) : ares :=
  match o with
  | OpGet => a_get a
  | OpDiscard n => a_discard a n
  | OpConsume n => a_consume a n
  | OpPass d => a_pass a d
  | OpProduce d => a_produce a d
  | OpCopy n offset => a_copy a n offset
  | OpBread n => a_bread a n
  | OpRead n => a_read a n
  | OpBwrite d => a_bwrite a d
  | OpIwrite d => a_iwrite a d
  | OpClose => a_close a
  | OpHangup msg => a_hangup a msg
  | OpReopen => (a_reopen a, [], RNone)
  | OpSetlimit n => (aset_limit n a, [], RNone)
  | OpNoblock onoff => (aset_noblock onoff a, [], RNone)
  | OpFlush => a_flush a
  end.

(** A queue just opened. *)
Definition a_open (limit msg : Z) (kick : bool) : AQueue :=
  MkAQueue [] 0 limit limit true (negb (msg =? 0)) false false false 0 kick [].

(** ** Cutting a write into pieces *)

Lemma chunk_val : chunk = 131072.
Proof. done. Qed.

#[global] Opaque chunk.

Lemma cut_eq d :
  cut d = take (Z.to_nat chunk) d ::
          (if chunk <? zlen d then cut (drop (Z.to_nat chunk) d) else []).
Proof.
  unfold cut at 1. simpl. f_equal. destruct (Z.ltb_spec chunk (zlen d)); [| done].
  unfold cut. pose proof chunk_val. f_equal. rewrite length_drop.
  replace (Z.of_nat (length d - Z.to_nat chunk)) with (zlen d + (-1) * chunk) by lia.
  rewrite Z.div_add; [| lia]. assert (1 <= zlen d / chunk) by (apply Z.div_le_lower_bound; lia).
  lia.
Qed.

Lemma concat_cut d : concat (cut d) = d.
Proof.
  remember (length d) as n eqn:Hn. revert d Hn. induction (lt_wf n) as [n _ IH]. intros d ->.
  pose proof chunk_val. rewrite cut_eq /=. destruct (Z.ltb_spec chunk (zlen d)).
  - rewrite (IH _ _ _ eq_refl) ?length_drop; [| lia]. apply take_drop.
  - rewrite app_nil_r take_ge //. lia.
Qed.

(** ** What the operations do to the bytes *)

(** Bytes an operation adds to the queue, given how it ended. *)
Definition added (a : AQueue) (o : op (list Z)) : list Z :=
  match o with
  | OpPass d => d
  | OpProduce d => if a_limit a <=? a_len a then [] else d
  | OpBwrite d => if a_notfull a && negb (a_closed a) then d else []
  | OpIwrite d => concat (chunks (a_msg a) d)
  | _ => []
  end.

(** Bytes it hands to the caller. *)
Definition taken (o : op (list Z)) (r : result (list Z)) : list Z :=
  match o, r with
  | OpCopy _ _, _ => []
  | _, RData d => d
  | _, RBlock d => d
  | _, _ => []
  end.

(** Operations that throw bytes away. *)
Definition discards (o : op (list Z)) : bool :=
  match o with OpDiscard _ | OpClose | OpFlush => true | _ => false end.

(** Bytes thrown away that stay in the count: those [qdiscard] cuts off the
    front of a block, and the rest of a message [qconsume] reads part of. *)
Fixpoint cut_off (ds : list (list Z)) (n : Z) : Z :=
  match ds with
  | [] => 0
  | d :: ds => if n <? zlen d then n else cut_off ds (n - zlen d)
  end.

Definition lost (a : AQueue) (o : op (list Z)) : Z :=
  match o with
  | OpDiscard n => cut_off (a_blocks a) n
  | OpConsume n =>
      match skip_empty (a_blocks a) with
      | d :: _ => if a_msg a then zlen d - Z.min (zlen d) n else 0
      | [] => 0
      end
  | _ => 0
  end.

(** What callers see to: no negative counts, and no [qproduce] on a closed
    queue, which panics. *)
Definition op_pre (a : AQueue) (o : op (list Z)) : Prop :=
  match o with
  | OpDiscard n | OpConsume n | OpBread n | OpRead n => 0 <= n
  | OpCopy n offset => 0 <= n /\ 0 <= offset
  | OpProduce _ => a_closed a = false
  | _ => True
  end.

Section Lemmas.
Implicit Types (a : AQueue) (d : list Z) (ds : list (list Z)).

Lemma restart_blocks a : a_blocks (a_restart a).1 = a_blocks a.
Proof. unfold a_restart. by case_match. Qed.
Lemma restart_len a : a_len (a_restart a).1 = a_len a.
Proof. unfold a_restart. by case_match. Qed.
Lemma restart_msg a : a_msg (a_restart a).1 = a_msg a.
Proof. unfold a_restart. by case_match. Qed.
Lemma unstarve_blocks a : a_blocks (a_unstarve a).1 = a_blocks a.
Proof. unfold a_unstarve. by case_match. Qed.
Lemma unstarve_len a : a_len (a_unstarve a).1 = a_len a.
Proof. unfold a_unstarve. by case_match. Qed.
Lemma unstarve_msg a : a_msg (a_unstarve a).1 = a_msg a.
Proof. unfold a_unstarve. by case_match. Qed.

(** The bytes and the count are both off by [e]. *)
Definition counts a e : Prop := a_len a = i32 (zlen (contents a) + e).

Lemma counts_restart a e : counts (a_restart a).1 e <-> counts a e.
Proof. unfold counts, contents. by rewrite restart_blocks restart_len. Qed.

Lemma counts_unstarve a e : counts (a_unstarve a).1 e <-> counts a e.
Proof. unfold counts, contents. by rewrite unstarve_blocks unstarve_len. Qed.

Lemma counts_enqueue a e d : counts a e -> counts (a_enqueue a d) e.
Proof.
  unfold counts, contents. simpl. intros ->. rewrite wraps_add_l concat_app length_app /= app_nil_r.
  f_equal. lia.
Qed.

Lemma counts_insert a e d : counts a e -> counts (a_unstarve (a_enqueue a d)).1 e.
Proof. intros. by apply counts_unstarve, counts_enqueue. Qed.

(** A new front of the queue, and the count less [k]. *)
Lemma counts_front a e e' k ds :
  counts a e -> zlen (concat ds) + e' = zlen (contents a) + e - k ->
  counts (aset_len (i32 (a_len a - k)) (aset_blocks ds a)) e'.
Proof.
  unfold counts, contents. simpl. intros -> E. by rewrite wraps_sub_l E.
Qed.

Lemma counts_remove a e d ds :
  a_blocks a = d :: ds -> counts a e -> counts (a_remove a d ds).1 e.
Proof.
  intros Ha Hc. apply counts_restart, (counts_front _ e); [done |].
  rewrite /contents Ha /= length_app. lia.
Qed.

Lemma discard_len ds n l e :
  l = i32 (zlen (concat ds) + e) -> 0 <= n ->
  (discard ds n l).2 = i32 (zlen (concat (discard ds n l).1) + (e + cut_off ds n)).
Proof.
  revert n l. induction ds as [|d ds IH]; intros n l Hl Hn; simpl in *; [by rewrite Z.add_0_r |].
  destruct (Z.ltb_spec n (zlen d)); simpl.
  - rewrite Hl !length_app length_drop. f_equal. lia.
  - apply IH; [| lia]. rewrite Hl wraps_sub_l length_app. f_equal. lia.
Qed.

Lemma concat_skip_empty ds : concat (skip_empty ds) = concat ds.
Proof. by induction ds as [|[|? d] ds IH]. Qed.

Lemma skip_empty_cons ds d ds' : skip_empty ds = d :: ds' -> concat ds = d ++ concat ds'.
Proof. intros E. by rewrite -concat_skip_empty E. Qed.

Lemma counts_iwrite ds a ev w e : counts a e -> counts (iwrite a ds ev w).1 e.
Proof.
  revert a ev w. induction ds as [|d ds IH]; intros a ev w Hc; simpl; [done |].
  destruct (a_unstarve _) as [a' w'] eqn:E. apply IH.
  change a' with (a', w').1. rewrite -E. by apply counts_insert.
Qed.

Lemma counts_get a e : counts a e -> counts (a_get a).1.1 e.
Proof.
  intros Hc. unfold a_get. destruct (a_blocks a) as [|d ds] eqn:E; [done |].
  pose proof (counts_remove a e d ds E Hc). by destruct (a_remove a d ds).
Qed.

Lemma counts_discard a e n : 0 <= n -> counts a e ->
  counts (a_discard a n).1.1 (e + cut_off (a_blocks a) n).
Proof.
  intros Hn Hc. unfold a_discard. pose proof (discard_len (a_blocks a) n (a_len a) e Hc Hn) as E.
  by destruct (discard _ _ _).
Qed.

Lemma counts_consume a e n : 0 <= n -> counts a e ->
  counts (a_consume a n).1.1 (e + lost a (OpConsume n)).
Proof.
  intros Hn Hc. unfold a_consume, lost. destruct (skip_empty (a_blocks a)) as [|d ds] eqn:E.
  - unfold counts, contents in *. simpl. rewrite Hc -concat_skip_empty E /=. f_equal. lia.
  - pose proof (skip_empty_cons _ _ _ E) as Ed.
    rewrite (surjective_pairing (a_restart _)) /=. apply counts_restart, (counts_front _ e); [done |].
    unfold contents. rewrite Ed length_app.
    destruct (a_msg a); simpl; [lia |].
    destruct (Z.eqb_spec (Z.min (zlen d) n) (zlen d)); simpl; [lia |].
    rewrite length_app length_drop. lia.
Qed.

Lemma counts_pass a e d : counts a e -> counts (a_pass a d).1.1 e.
Proof.
  intros Hc. unfold a_pass. rewrite (surjective_pairing (a_unstarve _)) /=. apply counts_unstarve.
  case_match; [change (counts (a_enqueue a d) e) |]; by apply counts_enqueue.
Qed.

Lemma counts_produce a e d : counts a e -> counts (a_produce a d).1.1 e.
Proof.
  intros Hc. unfold a_produce. case_match; [done |].
  rewrite (surjective_pairing (a_unstarve _)) /=. by apply counts_insert.
Qed.

Lemma counts_bwrite a e d : counts a e -> counts (a_bwrite a d).1.1 e.
Proof.
  intros Hc. unfold a_bwrite. repeat case_match; simplify_eq/=; try done.
  match goal with E : a_unstarve _ = (?a', ?w) |- _ => change a' with (a', w).1; rewrite -E end.
  by apply counts_insert.
Qed.

Lemma counts_split a e d n : 0 <= n -> counts a e -> counts (a_bread_split a d n) e.
Proof.
  intros Hn Hc. unfold a_bread_split.
  destruct (Z.ltb_spec n (zlen d)), (a_msg a); simpl; try done.
  unfold counts, contents in *. simpl. rewrite Hc wraps_add_l length_app length_drop. f_equal. lia.
Qed.

Lemma counts_bread a e n : 0 <= n -> counts a e -> counts (a_bread a n).1.1 e.
Proof.
  intros Hn Hc. unfold a_bread, a_bread_first. destruct (a_blocks a) as [|d ds] eqn:E; simpl.
  - destruct (a_closed a); [by destruct (3 <? a_eof a + 1) | done].
  - pose proof (counts_remove a e d ds E Hc). destruct (a_remove a d ds) as [a' w]. simpl in *.
    by apply counts_split.
Qed.

Lemma counts_read a e n : 0 <= n -> counts a e -> counts (a_read a n).1.1 e.
Proof.
  intros Hn Hc. pose proof (counts_bread a e n Hn Hc). unfold a_read. by destruct (a_bread a n) as [[]].
Qed.

End Lemmas.

(** ** Properties of the specification *)

(** The accounting of [q->len].  If the count was off by [e] before an
    operation, it is off by [e + lost a o] after it ([qclose] and [qflush]
    reset it): every operation keeps the count exact except [qdiscard] when
    it cuts a block and [qconsume] when it reads part of a message. *)
Theorem len_accounting a o e (Hpre : op_pre a o) (He : a_len a = i32 (zlen (contents a) + e)) :
  let a' := (step a o).1.1 in
  a_len a' = i32 (zlen (contents a') +
                  match o with OpClose | OpFlush => 0 | _ => e + lost a o end).
Proof.
  change (counts a e) in He. change (counts (step a o).1.1
    match o with OpClose | OpFlush => 0 | _ => e + lost a o end).
  destruct o; simpl in *; rewrite ?Z.add_0_r;
    auto using counts_get, counts_discard, counts_consume, counts_pass, counts_produce,
      counts_bread, counts_read, counts_bwrite, counts_iwrite.
  all: reflexivity.
Qed.

Lemma len_accounting_witness :
  let a := MkAQueue [[1; 2; 3]; [4]] 4 9 9 false false false false false 0 false [] in
  a_len (step a (OpDiscard 2)).1.1 = i32 (2 + 2).
Proof.
  exact (len_accounting (MkAQueue [[1; 2; 3]; [4]] 4 9 9 false false false false false 0 false [])
           (OpDiscard 2) 0 ltac:(done) eq_refl).
Defined.

(** Two consequences of [lost]: the count says 1 of a queue that is empty, and
    a writer sleeps on it although nothing is left to read. *)
Lemma qdiscard_miscounts :
  let a0 := a_open 1 0 false in
  let a1 := (step a0 (OpProduce [7; 8])).1.1 in
  let a2 := (step a1 (OpDiscard 1)).1.1 in
  let a3 := (step a2 OpGet).1.1 in
  contents a3 = [] /\ a_len a3 = 1 /\ (step a3 (OpBwrite [9])).2 = RSleep.
Proof. done. Qed.

Lemma qconsume_miscounts :
  let a0 := a_open 1 1 false in
  let a1 := (step a0 (OpProduce [7; 8])).1.1 in
  let a2 := (step a1 (OpConsume 1)).1.1 in
  contents a2 = [] /\ a_len a2 = 1 /\ (step a2 (OpBwrite [9])).2 = RSleep.
Proof. done. Qed.

(** Operations that move bytes without throwing any away. *)
Definition moves (o : op (list Z)) : Prop :=
  match o with
  | OpDiscard _ | OpClose | OpFlush => False
  | OpConsume n | OpBread n | OpRead n => 0 <= n
  | _ => True
  end.

Section Order.
Implicit Types (a : AQueue) (d : list Z) (ds : list (list Z)).

Lemma contents_insert a d : contents (a_unstarve (a_enqueue a d)).1 = contents a ++ d.
Proof. by rewrite /contents unstarve_blocks /= concat_app /= app_nil_r. Qed.

Lemma contents_remove a d ds : contents (a_remove a d ds).1 = concat ds.
Proof. by rewrite /contents restart_blocks. Qed.

Lemma contents_iwrite ds a ev w : contents (iwrite a ds ev w).1 = contents a ++ concat ds.
Proof.
  revert a ev w. induction ds as [|d ds IH]; intros a ev w; simpl; [by rewrite app_nil_r |].
  pose proof (contents_insert a d) as Hi. destruct (a_unstarve _) as [a' w']. rewrite IH Hi.
  by rewrite app_assoc.
Qed.

Lemma msg_iwrite ds a ev w : a_msg (iwrite a ds ev w).1 = a_msg a.
Proof.
  revert a ev w. induction ds as [|d ds IH]; intros a ev w; simpl; [done |].
  pose proof (unstarve_msg (a_enqueue a d)) as Hi. destruct (a_unstarve _) as [a' w']. by rewrite IH Hi.
Qed.

Lemma fifo_bread a n : a_msg a = false -> 0 <= n ->
  contents a = taken (OpBread n) (a_bread a n).2 ++ contents (a_bread a n).1.1.
Proof.
  intros Hm Hn. unfold a_bread, a_bread_first. unfold contents at 1.
  destruct (a_blocks a) as [|d ds] eqn:E; simpl.
  - destruct (a_closed a); [destruct (3 <? a_eof a + 1) |]; by rewrite /contents /= E.
  - pose proof (contents_remove a d ds) as Hc. pose proof (restart_msg (aset_len (i32 (a_len a - zlen d)) (aset_blocks ds a))) as Hm'.
    fold (a_remove a d ds) in Hm'. destruct (a_remove a d ds) as [a' w]. simpl in *.
    unfold a_bread_split. rewrite Hm' Hm andb_true_r. destruct (Z.ltb_spec n (zlen d)); simpl.
    + by rewrite -Hc /contents /= app_assoc take_drop.
    + rewrite take_ge ?Hc //. lia.
Qed.

(** One operation. *)
Lemma fifo_step a o : a_msg a = false -> moves o ->
  contents a ++ added a o = taken o (step a o).2 ++ contents (step a o).1.1.
Proof.
  intros Hm Hmv. destruct o as [| | n | d | d | | n | n | d | d | | | | | |]; simpl in *;
    try done; rewrite ?app_nil_r //.
  - unfold a_get. unfold contents at 1. destruct (a_blocks a) as [|d ds] eqn:E.
    + by rewrite /contents /= E.
    + pose proof (contents_remove a d ds) as Hc. destruct (a_remove a d ds). simpl in *. by rewrite Hc.
  - unfold a_consume. destruct (skip_empty (a_blocks a)) as [|d ds] eqn:E.
    + by rewrite {1}/contents -concat_skip_empty E.
    + rewrite {1}/contents (skip_empty_cons _ _ _ E) Hm (surjective_pairing (a_restart _)) /=.
      rewrite {1}/contents restart_blocks /=. destruct (Z.eqb_spec (Z.min (zlen d) n) (zlen d)).
      * rewrite take_ge //. lia.
      * by rewrite /= app_assoc take_drop.
  - unfold a_pass. rewrite (surjective_pairing (a_unstarve _)) /= /contents unstarve_blocks.
    case_match; by rewrite /= concat_app /= app_nil_r.
  - unfold a_produce. case_match; [by rewrite app_nil_r |].
    rewrite (surjective_pairing (a_unstarve _)) /=. by rewrite contents_insert.
  - by apply fifo_bread.
  - rewrite {1}(fifo_bread a n) //. unfold a_read. by destruct (a_bread a n) as [[? ?] []].
  - unfold a_bwrite. destruct (a_notfull a); simpl; [destruct (a_closed a); simpl |].
    + by rewrite app_nil_r.
    + rewrite (surjective_pairing (a_unstarve _)) /=. by rewrite contents_insert.
    + by destruct (a_noblock a); rewrite app_nil_r.
  - by rewrite contents_iwrite.
Qed.

Lemma bread_msg a n : a_msg (a_bread a n).1.1 = a_msg a.
Proof.
  unfold a_bread, a_bread_first, a_remove. destruct (a_blocks a) as [|d ds]; simpl.
  - destruct (a_closed a); [by destruct (3 <? a_eof a + 1) | done].
  - rewrite (surjective_pairing (a_restart _)) /= /a_bread_split.
    case_match; by rewrite /= restart_msg.
Qed.

(** A read of a message queue. *)
Lemma messages_bread a n : a_msg a = true ->
  let '(a', _, r) := a_bread a n in
  match a_blocks a with
  | d :: ds => r = RBlock (take (Z.to_nat n) d) /\ a_blocks a' = ds
  | [] => a_blocks a' = []
  end.
Proof.
  intros Hm. unfold a_bread, a_bread_first. destruct (a_blocks a) as [|d ds] eqn:E; simpl.
  - destruct (a_closed a); [by destruct (3 <? a_eof a + 1) | done].
  - pose proof (restart_msg (aset_len (i32 (a_len a - zlen d)) (aset_blocks ds a))) as Hm'.
    pose proof (restart_blocks (aset_len (i32 (a_len a - zlen d)) (aset_blocks ds a))) as Hb.
    fold (a_remove a d ds) in Hm', Hb. destruct (a_remove a d ds) as [a' w]. simpl in *.
    unfold a_bread_split. by rewrite Hm' Hm andb_false_r.
Qed.

Lemma step_msg a o : a_msg (step a o).1.1 = a_msg a.
Proof.
  destruct o as [| | n | d | d | | n | n | d | d | | | | | |]; simpl; try done.
  - unfold a_get, a_remove. destruct (a_blocks a); [done |].
    by rewrite (surjective_pairing (a_restart _)) /= restart_msg.
  - unfold a_discard. by destruct (discard _ _ _).
  - unfold a_consume. destruct (skip_empty _); [done |].
    by rewrite (surjective_pairing (a_restart _)) /= restart_msg.
  - unfold a_pass. rewrite (surjective_pairing (a_unstarve _)) /= unstarve_msg. by case_match.
  - unfold a_produce. case_match; [done |].
    by rewrite (surjective_pairing (a_unstarve _)) /= unstarve_msg.
  - apply bread_msg.
  - rewrite -(bread_msg a n). unfold a_read. by destruct (a_bread a n) as [[]].
  - unfold a_bwrite. destruct (a_notfull a), (a_closed a), (a_noblock a); simpl; try done;
      by rewrite (surjective_pairing (a_unstarve _)) /= unstarve_msg.
  - by rewrite msg_iwrite.
Qed.

End Order.

(** The messages an operation appends. *)
Definition appended (a : AQueue) (o : op (list Z)) : list (list Z) :=
  match o with
  | OpPass d => [d]
  | OpProduce d => if a_limit a <=? a_len a then [] else [d]
  | OpBwrite d => if a_notfull a && negb (a_closed a) then [d] else []
  | OpIwrite d => [take (Z.to_nat chunk) d]
  | _ => []
  end.

(** A message queue keeps messages apart: a write appends exactly one
    message (the first 128K of it), and a read takes the first message away
    whole, whatever it asked for, and returns the part it asked for. *)
Theorem queue_messages a o (Hmsg : a_msg a = true) (Hmoves : moves o) :
  let '(a', _, r) := step a o in
  match o, a_blocks a with
  | OpGet, d :: ds => r = RBlock d /\ a_blocks a' = ds
  | OpBread n, d :: ds => r = RBlock (take (Z.to_nat n) d) /\ a_blocks a' = ds
  | OpRead n, d :: ds => r = RData (take (Z.to_nat n) d) /\ a_blocks a' = ds
  | OpConsume n, ds =>
      match skip_empty ds with
      | d :: ds => r = RData (take (Z.to_nat n) d) /\ a_blocks a' = ds
      | [] => r = RInt (-1) /\ a_blocks a' = []
      end
  | _, ds => a_blocks a' = ds ++ appended a o
  end.
Proof.
  destruct o as [| | n | d | d | | n | n | d | d | | | | | |]; simpl in *; try done;
    rewrite ?app_nil_r //.
  - unfold a_get. destruct (a_blocks a) as [|d ds] eqn:E; [by rewrite /= E |].
    rewrite (surjective_pairing (a_remove _ _ _)) /=. by rewrite /a_remove restart_blocks.
  - unfold a_consume. destruct (skip_empty (a_blocks a)) as [|d ds]; [done |].
    rewrite Hmsg (surjective_pairing (a_restart _)) /= restart_blocks /=. split; [| done].
    rewrite (take_min (Z.to_nat n)). do 2 f_equal. lia.
  - unfold a_pass. rewrite (surjective_pairing (a_unstarve _)) /= unstarve_blocks.
    by destruct (Z.quot (a_limit a) 2 <=? i32 (a_len a + zlen d)).
  - unfold a_produce. destruct (a_limit a <=? a_len a); [by rewrite app_nil_r |].
    by rewrite (surjective_pairing (a_unstarve _)) /= unstarve_blocks.
  - apply messages_bread; done.
  - pose proof (messages_bread a n Hmsg) as Hb. unfold a_read.
    destruct (a_bread a n) as [[a' ev] r]. destruct (a_blocks a) as [|d ds]; [done |].
    by destruct Hb as [-> ->].
  - unfold a_bwrite. destruct (a_notfull a), (a_closed a); simpl; rewrite ?app_nil_r //.
    1: by rewrite (surjective_pairing (a_unstarve _)) /= unstarve_blocks.
    all: by destruct (a_noblock a).
  - rewrite Hmsg /=. by rewrite (surjective_pairing (a_unstarve _)) /= unstarve_blocks.
Qed.

Lemma queue_messages_witness :
  let a := MkAQueue [[1; 2; 3]; [4]] 4 9 9 false true false false false 0 false [] in
  (step a (OpRead 2)).2 = RData [1; 2] /\ a_blocks (step a (OpRead 2)).1.1 = [[4]].
Proof.
  exact (queue_messages (MkAQueue [[1; 2; 3]; [4]] 4 9 9 false true false false false 0 false [])
           (OpRead 2) eq_refl ltac:(simpl; lia)).
Defined.
