(* ===== verification/QioProof.v ===== *)
(** * The queue refines its specification

    [queue q a] says that the record [q] and the chain of blocks it points to
    represent the abstract queue [a].  Every operation of [Qio] takes a
    representation of [a] to a representation of what [AQueue.step] makes of
    [a], with the same wakeups and the same result, faults nowhere and frees
    every block it drops. *)

From S2P Require Import Prelude Heap Block Qio AQueue.

#[local] Open Scope Z_scope.

(** The flags as bits. *)
Definition encode (a : AQueue) : Z :=
  (if a_starve a then Qstarve else 0) + (if a_msg a then Qmsg else 0) +
  (if a_closed a then Qclosed else 0) + (if a_flow a then Qflow else 0).

(** The record of a queue, given its pointers. *)
Definition conc (f l : ptr) (a : AQueue) : Queue :=
  MkQueue f l (a_len a) (a_limit a) (a_inilim a) (encode a) (a_noblock a) (a_eof a) (a_kick a) (a_err a).

Definition datas (xs : blocks) : list (list Z) := map (fun xb => bdata xb.2) xs.

Definition last_ptr (xs : blocks) : ptr := fst <$> last xs.

Definition queue (q : Queue) (a : AQueue) : hpropI Block :=
  ∃ xs l, ⌈q = conc (start xs None) l a⌉ ∗ ⌈wfbs xs /\ (xs <> [] -> l = last_ptr xs)⌉ ∗
          ⌈a_blocks a = datas xs⌉ ∗ chain xs.

(** A block somebody owns, whatever it is linked to. *)
Definition ablock (b : ptr) (d : list Z) : hpropI Block :=
  ∃ x v, ⌈b = Some x⌉ ∗ ⌈wfb v /\ bdata v = d⌉ ∗ x ↦ v.

Section Flags.
Implicit Types (a : AQueue) (f l : ptr).

Ltac flags a := unfold conc, has, on, off, set_state, encode; simpl;
  destruct (a_starve a), (a_msg a), (a_closed a), (a_flow a); done.

Lemma has_starve f l a : has Qstarve (conc f l a) = a_starve a.
Proof. flags a. Qed.
Lemma has_msg f l a : has Qmsg (conc f l a) = a_msg a.
Proof. flags a. Qed.
Lemma has_closed f l a : has Qclosed (conc f l a) = a_closed a.
Proof. flags a. Qed.
Lemma has_flow f l a : has Qflow (conc f l a) = a_flow a.
Proof. flags a. Qed.
Lemma on_starve f l a : on Qstarve (conc f l a) = conc f l (aset_starve true a).
Proof. flags a. Qed.
Lemma on_closed f l a : on Qclosed (conc f l a) = conc f l (aset_closed true a).
Proof. flags a. Qed.
Lemma on_flow f l a : on Qflow (conc f l a) = conc f l (aset_flow true a).
Proof. flags a. Qed.
Lemma off_starve f l a : off Qstarve (conc f l a) = conc f l (aset_starve false a).
Proof. flags a. Qed.
Lemma off_closed f l a : off Qclosed (conc f l a) = conc f l (aset_closed false a).
Proof. flags a. Qed.
Lemma off_flow f l a : off Qflow (conc f l a) = conc f l (aset_flow false a).
Proof. flags a. Qed.

Lemma set_len_conc f l a v : set_len v (conc f l a) = conc f l (aset_len v a).
Proof. done. Qed.
Lemma set_bfirst_conc f l a v : set_bfirst v (conc f l a) = conc v l a.
Proof. done. Qed.
Lemma set_blast_conc f l a v : set_blast v (conc f l a) = conc f v a.
Proof. done. Qed.
Lemma conc_blocks f l a v : conc f l (aset_blocks v a) = conc f l a.
Proof. done. Qed.

Lemma restart_conc f l a :
  restart_writer (conc f l a) = (conc f l (a_restart a).1, (a_restart a).2).
Proof.
  unfold restart_writer, a_restart. rewrite has_flow off_flow /=. by case_match.
Qed.

Lemma unstarve_conc f l a :
  unstarve (conc f l a) = (conc f l (a_unstarve a).1, (a_unstarve a).2).
Proof.
  unfold unstarve, a_unstarve. rewrite has_starve off_starve /=. by case_match.
Qed.

Lemma kicked_conc b f l a e : kicked b (conc f l a) e = a_kicked b a e.
Proof. done. Qed.

Lemma last_ptr_snoc xs x b : last_ptr (xs ++ [(x, b)]) = Some x.
Proof. by rewrite /last_ptr last_snoc. Qed.

Lemma last_ptr_cons x b xs : xs <> [] -> last_ptr ((x, b) :: xs) = last_ptr xs.
Proof. intros. unfold last_ptr. rewrite last_cons. by destruct xs using rev_ind; rewrite ?last_snoc. Qed.
End Flags.

Create Rewrite HintDb qio.
#[global] Hint Rewrite has_starve has_msg has_closed has_flow on_starve on_closed on_flow
  off_starve off_closed off_flow set_len_conc set_bfirst_conc set_blast_conc
  restart_conc unstarve_conc kicked_conc : qio.

Ltac blk := rewrite ?BLEN_set_next ?bdata_set_next ?lim_set_next.

(** Push the operations on the record into the abstract queue. *)
Ltac qio := autorewrite with qio; simpl.

Section Refine.
Context `{Host}.

Lemma new_block_ablock p d : new_block p d ⊢ ablock p d.
Proof. iIntros "(%x & %b & -> & %Hb & [Hx _])". iExists x, _. by iFrame. Qed.

Lemma wp_enqueue xs l a b d n (Φ : Queue -> hpropI Block) :
  (xs <> [] -> l = last_ptr xs) ->
  chain xs -∗ new_block b d -∗
  (∀ y w, ⌈b = Some y /\ wfb w /\ bdata w = d⌉ -∗ chain (xs ++ [(y, w)]) -∗
     Φ (conc (start (xs ++ [(y, w)]) None) (Some y) (aset_len (i32 (a_len a + n)) a))) -∗
  wp (enqueue (conc (start xs None) l a) b n) Φ.
Proof.
  iIntros (Hl) "Hc (%y & %w & -> & %Hw & [Hy _]) HΦ". unfold enqueue.
  destruct xs as [|[z u] xs _] using rev_ind; simpl.
  - wp_bind. wp_ret. wp_ret. iApply ("HΦ" $! y w with "[//]"). by iFrame.
  - rewrite Hl; [| by destruct xs]. rewrite last_ptr_snoc.
    destruct (start (xs ++ [(z, u)]) None) eqn:E; [| by destruct xs as [|[]]].
    iDestruct (lseg_app with "Hc") as "[Hxs [Hz _]]".
    wp_bind. wp_store "Hz". wp_ret. wp_ret. rewrite -E.
    iSpecialize ("HΦ" $! y w with "[//] [Hxs Hz Hy]").
    { rewrite -app_assoc lseg_app. by iFrame. }
    by rewrite -app_assoc start_app (start_app xs).
Qed.

(** A result of the code stands for a result of the specification. *)
Definition rrep (r : result ptr) (s : result (list Z)) : hpropI Block :=
  match s with
  | RNone => ⌈r = RNone⌉
  | RInt n => ⌈r = RInt n⌉
  | RData d => ⌈r = RData d⌉
  | RBlock d => ∃ p, ⌈r = RBlock p⌉ ∗ ablock p d
  | RSleep => ⌈r = RSleep⌉
  | RError e => ⌈r = RError e⌉
  end%I.

(** What the code leaves when it should do [s]. *)
Definition post (s : ares) (r : res) : hpropI Block :=
  queue r.1.1 s.1.1 ∗ ⌈r.1.2 = s.1.2⌉ ∗ rrep r.2 s.2.

Lemma queue_intro xs l a :
  wfbs xs -> (xs <> [] -> l = last_ptr xs) -> a_blocks a = datas xs ->
  chain xs ⊢ queue (conc (start xs None) l a) a.
Proof. iIntros (???) "Hc". iExists xs, l. by iFrame. Qed.

Lemma post_intro q a ev r r' : queue q a -∗ rrep r r' -∗ post (a, ev, r') (q, ev, r).
Proof. iIntros "Hq Hr". rewrite /post /=. by iFrame. Qed.

Lemma ablock_intro x v d : wfb v -> bdata v = d -> x ↦ v ⊢ ablock (Some x) d.
Proof. iIntros (??) "Hx". iExists x, v. by iFrame. Qed.

Lemma last_ptr_tail x b xs l :
  ((x, b) :: xs <> [] -> l = last_ptr ((x, b) :: xs)) -> xs <> [] -> l = last_ptr xs.
Proof. intros Hl Hne. rewrite Hl // last_ptr_cons //. Qed.

(** The first block leaves the queue. *)
Lemma queue_remove x b xs l a :
  wfbs ((x, b) :: xs) -> ((x, b) :: xs <> [] -> l = last_ptr ((x, b) :: xs)) ->
  chain xs ⊢ queue (conc (start xs None) l (a_remove a (bdata b) (datas xs)).1)
               (a_remove a (bdata b) (datas xs)).1.
Proof.
  intros [Hb Hxs]%Forall_cons Hl. apply queue_intro; [done | by eapply last_ptr_tail |].
  unfold a_remove. by rewrite restart_blocks.
Qed.

Lemma qget_refines q a : queue q a ⊢ wp (qget q) (post (a_get a)).
Proof.
  iIntros "(%xs & %l & -> & %Hxs & %Ha & Hc)". destruct Hxs as [Hxs Hl].
  unfold qget, a_get. rewrite Ha. destruct xs as [|[x b] xs]; simpl; qio.
  - wp_ret. iApply (post_intro with "[Hc] []"); [by iApply (queue_intro []) | done].
  - iDestruct "Hc" as "[Hx Hc]". wp_load "Hx". wp_store "Hx".
    pose proof (proj1 (proj1 (Forall_cons _ _ _) Hxs)) as Hb. simpl in Hb.
    blk. rewrite -(length_bdata b Hb) -(conc_blocks _ _ a (datas xs)). qio.
    fold (a_remove a (bdata b) (datas xs)).
    wp_ret. rewrite (surjective_pairing (a_remove a _ _)).
    iApply (post_intro with "[Hc] [Hx]"); [by iApply (queue_remove with "Hc") |].
    iExists (Some x). iSplit; [done |]. by iApply (ablock_intro with "Hx").
Qed.

Lemma qdiscard_refines q a n : 0 <= n -> queue q a ⊢ wp (qdiscard q n) (post (a_discard a n)).
Proof.
  iIntros (Hn) "(%xs & %l & -> & %Hxs & %Ha & Hc)".
  unfold qdiscard, a_discard. rewrite Ha.
  iApply (wp_loop (fun m '(q, n') => ∃ xs k,
            ⌈q = conc (start xs None) l (aset_len k a) /\ m = length xs⌉ ∗
            ⌈wfbs xs /\ (xs <> [] -> l = last_ptr xs)⌉ ∗
            ⌈0 <= n' /\ discard (datas xs) n' k = discard (a_blocks a) n (a_len a)⌉ ∗
            chain xs)%I _ _ (length xs) with "[Hc]").
  - iIntros (m [q n']) "(%ys & %k & %Hq & _ & _ & Hc)". destruct Hq as [-> ->].
    by iApply (lseg_size_le with "Hc").
  - clear Hn Hxs. rewrite -Ha. clear Ha xs.
    intros m [q n']. iIntros "(%xs & %k & %Hq & %Hxs & %Hd & Hc)".
    destruct Hq as [-> ->], Hxs as [Hxs Hl], Hd as [Hn <-].
    destruct xs as [|[x b] xs]; simpl.
    { wp_ret. iApply (post_intro with "[Hc] []"); [| done].
      iApply (queue_intro [] l (aset_len k (aset_blocks [] a)) with "Hc"); done. }
    pose proof Hxs as [Hb Hxs']%Forall_cons. simpl in Hb. pose proof (length_bdata b Hb) as HL.
    iDestruct "Hc" as "[Hx Hc]". wp_load "Hx". blk. rewrite -HL.
    destruct (Z.ltb_spec n' (zlen (bdata b))).
    + wp_store "Hx". wp_ret. iApply (post_intro with "[Hc Hx] []"); [| done].
      destruct (consume_facts b n' Hb) as (Hb' & Db & _); [lia |].
      iApply (queue_intro ((x, set_rp (b_rp b + n') b) :: xs) l
        (aset_len k (aset_blocks (drop (Z.to_nat n') (bdata b) :: datas xs) a)) with "[Hx Hc]").
      * by constructor.
      * intros _. rewrite Hl //. destruct xs; [done | by rewrite !last_ptr_cons].
      * by rewrite /= Db.
      * by iFrame.
    + wp_bind. iApply (wp_freeb with "Hx"); [done |]. wp_ret.
      iExists (length xs). iSplit; [auto |]. iExists xs, (i32 (k - zlen (bdata b))). iFrame.
      iPureIntro. split_and!; try done; [by eapply last_ptr_tail | lia].
  - iExists xs, (a_len a). iFrame. iPureIntro. rewrite Ha. by destruct a.
Qed.

Lemma wp_qconsume_skip xs l a (Φ : Queue * option Z -> hpropI Block) :
  wfbs xs -> (xs <> [] -> l = last_ptr xs) ->
  chain xs -∗
  (∀ ys, ⌈wfbs ys /\ (ys <> [] -> l = last_ptr ys) /\ datas ys = skip_empty (datas xs)⌉ -∗
     chain ys -∗
     Φ (match ys with
        | [] => (conc None l (aset_starve true a), None)
        | (_, b) :: _ => (conc (start ys None) l a, Some (BLEN b))
        end)) -∗
  wp (qconsume_skip (conc (start xs None) l a)) Φ.
Proof.
  iIntros (Hxs Hl) "Hc HΦ". set (Post := (∀ ys, _)%I).
  iApply (wp_loop (fun m q => ∃ ys,
            ⌈q = conc (start ys None) l a /\ m = length ys⌉ ∗
            ⌈wfbs ys /\ (ys <> [] -> l = last_ptr ys) /\
             skip_empty (datas ys) = skip_empty (datas xs)⌉ ∗
            chain ys ∗ Post)%I _ _ (length xs) with "[Hc HΦ]").
  - iIntros (m q) "(%ys & %Hq & _ & Hc & _)". destruct Hq as [_ ->].
    by iApply (lseg_size_le with "Hc").
  - clear Hxs Hl. intros m q. iIntros "(%ys & %Hq & %Hys & Hc & HΦ)".
    destruct Hq as [-> ->], Hys as (Hys & Hl & Hd).
    destruct ys as [|[y b] ys]; simpl; qio.
    { wp_ret. by iApply ("HΦ" $! [] with "[//]"). }
    pose proof Hys as [Hb Hys']%Forall_cons. simpl in Hb. pose proof (length_bdata b Hb) as HL.
    iDestruct "Hc" as "[Hy Hc]". wp_load "Hy". blk. destruct (Z.ltb_spec 0 (BLEN b)).
    + wp_ret. iApply ("HΦ" $! ((y, b) :: ys) with "[]"); [| by iFrame].
      iPureIntro. split_and!; try done. rewrite -Hd /=. destruct (bdata b); [simpl in HL; lia | done].
    + qio. wp_bind. iApply (wp_freeb with "Hy"); [done |]. wp_ret.
      iExists (length ys). iSplit; [auto |]. iExists ys. iFrame. iPureIntro.
      split_and!; try done; [by eapply last_ptr_tail |].
      rewrite -Hd /=. destruct (bdata b); [done | simpl in HL; lia].
  - iExists xs. by iFrame.
Qed.

Lemma qconsume_refines q a n : 0 <= n -> queue q a ⊢ wp (qconsume q n) (post (a_consume a n)).
Proof.
  iIntros (Hn) "(%xs & %l & -> & %Hxs & %Ha & Hc)". destruct Hxs as [Hxs Hl].
  unfold qconsume, a_consume. wp_bind. iApply (wp_qconsume_skip with "Hc"); [done.. |].
  iIntros (ys) "%Hys Hc". destruct Hys as (Hys & Hl' & Hd). rewrite Ha -Hd.
  destruct ys as [|[y b] ys]; simpl.
  { wp_ret. iApply (post_intro with "[Hc] []"); [| done].
    by iApply (queue_intro [] l (aset_starve true (aset_blocks [] a)) with "Hc"). }
  pose proof Hys as [Hb Hys']%Forall_cons. simpl in Hb. pose proof (length_bdata b Hb) as HL.
  pose proof (BLEN_pos b Hb). iDestruct "Hc" as "[Hy Hc]". wp_load "Hy". blk.
  set (k := if BLEN b <? n then BLEN b else n).
  assert (k = Z.min (zlen (bdata b)) n) as Hk by (unfold k; destruct (Z.ltb_spec (BLEN b) n); lia).
  rewrite -Hk HL. clearbody k.
  wp_bind. iApply (wp_peek_data with "Hy"); [done | blk; lia |]. iIntros "Hy". blk.
  destruct (consume_facts b k Hb) as (Hb' & Db & _); [lia |].
  wp_store "Hy". qio. destruct (a_msg a || (k =? BLEN b)) eqn:E.
  - rewrite -(conc_blocks _ _ a (datas ys)). qio. rewrite restart_msg /= E.
    rewrite (surjective_pairing (a_restart (aset_len _ (aset_blocks _ a)))).
    wp_bind. iApply (wp_freeb with "Hy"); [exact Hb' |]. wp_ret.
    iApply (post_intro with "[Hc] []"); [| done].
    iApply (queue_intro with "Hc"); [done | by eapply last_ptr_tail | by rewrite restart_blocks].
  - rewrite -(conc_blocks _ _ a (drop (Z.to_nat k) (bdata b) :: datas ys)). qio.
    rewrite restart_msg /= E.
    rewrite (surjective_pairing (a_restart (aset_len _ (aset_blocks _ a)))).
    wp_bind. wp_ret. wp_ret.
    iApply (post_intro with "[Hc Hy] []"); [| done].
    iApply (queue_intro ((y, set_rp (b_rp b + k) b) :: ys) with "[Hc Hy]").
    + by constructor.
    + intros _. rewrite Hl' //. destruct ys; [done | by rewrite !last_ptr_cons].
    + by rewrite restart_blocks /= Db.
    + by iFrame.
Qed.

(** The chain of a queue, apart from its record. *)
Definition qchain (f l : ptr) (ds : list (list Z)) : hpropI Block :=
  ∃ xs, ⌈f = start xs None⌉ ∗ ⌈wfbs xs /\ (xs <> [] -> l = last_ptr xs)⌉ ∗ ⌈ds = datas xs⌉ ∗ chain xs.

Lemma queue_open q a : queue q a ⊢ ∃ f l, ⌈q = conc f l a⌉ ∗ qchain f l (a_blocks a).
Proof.
  iIntros "(%xs & %l & -> & %Hxs & %Ha & Hc)". iExists _, l. iSplit; [done |].
  iExists xs. by iFrame.
Qed.

Lemma queue_close f l a : qchain f l (a_blocks a) ⊢ queue (conc f l a) a.
Proof. iIntros "(%xs & -> & %Hxs & %Ha & Hc)". iExists xs, l. by iFrame. Qed.

Lemma wp_enqueue_chain f l a b d n (Φ : Queue -> hpropI Block) :
  qchain f l (a_blocks a) -∗ new_block b d -∗
  (∀ f' l', qchain f' l' (a_blocks a ++ [d]) -∗
     Φ (conc f' l' (aset_len (i32 (a_len a + n)) a))) -∗
  wp (enqueue (conc f l a) b n) Φ.
Proof.
  iIntros "(%xs & -> & %Hxs & %Ha & Hc) Hb HΦ". destruct Hxs as [Hxs Hl].
  iApply (wp_enqueue with "Hc Hb"); [done |]. iIntros (y w) "%Hw Hc". destruct Hw as (-> & Hw & <-).
  iApply "HΦ". iExists (xs ++ [(y, w)]). iFrame. iPureIntro. split_and!; try done.
  - by rewrite Forall_app Forall_singleton.
  - intros _. by rewrite last_ptr_snoc.
  - by rewrite Ha /datas map_app.
Qed.

(** Insertion: the queue with [d] at the end, the reader to be woken. *)
Lemma wp_insert f l a b d n (Φ : Queue -> hpropI Block) :
  n = zlen d ->
  qchain f l (a_blocks a) -∗ new_block b d -∗
  (∀ f' l', qchain f' l' (a_blocks (a_enqueue a d)) -∗ Φ (conc f' l' (a_enqueue a d))) -∗
  wp (enqueue (conc f l a) b n) Φ.
Proof.
  iIntros (->) "Hq Hb HΦ". iApply (wp_enqueue_chain with "Hq Hb"). iIntros (f' l') "Hq".
  iApply ("HΦ" with "Hq").
Qed.

Lemma wp_block_of d (Φ : ptr -> hpropI Block) :
  (∀ b, new_block b d -∗ Φ b) -∗ wp (block_of d) Φ.
Proof.
  iIntros "HΦ". unfold block_of. wp_bind. iApply wp_allocb; [lia |].
  iIntros (x b) "%Hb Hx". destruct Hb as (Hb & Db & Nb & Rb & Wb & Lb).
  destruct (append_facts b d Hb) as (Hb' & Db' & _); [lia |].
  wp_bind. iApply (wp_append with "Hx"); [done | lia |]. iIntros "Hx". wp_ret.
  iApply "HΦ". iApply (new_block_intro with "Hx"); [done | by rewrite Db' Db | done].
Qed.

(** The length of a block that is handed over. *)
Lemma wp_load_block b d (Φ : Block -> hpropI Block) :
  new_block b d -∗ (∀ v, ⌈BLEN v = zlen d⌉ -∗ new_block b d -∗ Φ v) -∗ wp (load b) Φ.
Proof.
  iIntros "(%x & %v & -> & %Hv & [Hx _]) HΦ". destruct Hv as [Hv <-].
  wp_load "Hx". iApply ("HΦ" with "[]"); [blk; by rewrite length_bdata |].
  iExists x, v. by iFrame.
Qed.

Lemma wp_free_block b d (Φ : unit -> hpropI Block) :
  ablock b d -∗ Φ tt -∗ wp (freeb b) Φ.
Proof.
  iIntros "(%x & %v & -> & %Hv & Hx) HΦ". iApply (wp_freeb with "Hx"); [by destruct Hv | done].
Qed.

Lemma qpass_refines q a b d :
  queue q a ∗ new_block b d ⊢ wp (qpass q b) (post (a_pass a d)).
Proof.
  iIntros "[Hq Hb]". iDestruct (queue_open with "Hq") as (f l) "[-> Hq]". unfold qpass, a_pass.
  wp_bind. iApply (wp_load_block with "Hb"). iIntros (v) "-> Hb".
  wp_bind. iApply (wp_insert with "Hq Hb"); [done |]. iIntros (f' l') "Hq".
  set (a1 := a_enqueue a d). set (a2 := if Z.quot _ _ <=? a_len a1 then _ else _).
  assert (a_blocks a2 = a_blocks a1) as E2 by (unfold a2; by case_match).
  replace (if _ <=? _ then _ else _) with (conc f' l' a2)
    by (unfold a2; simpl; case_match; by qio).
  qio. wp_ret. rewrite (surjective_pairing (a_unstarve a2)).
  iApply (post_intro with "[Hq] []"); [| done].
  iApply queue_close. by rewrite unstarve_blocks E2.
Qed.

Lemma qproduce_refines q a d :
  a_closed a = false -> queue q a ⊢ wp (qproduce q d) (post (a_produce a d)).
Proof.
  iIntros (Hcl) "Hq". iDestruct (queue_open with "Hq") as (f l) "[-> Hq]". unfold qproduce, a_produce.
  qio. wp_require; [by rewrite Hcl |]. case_match.
  - wp_ret. iApply (post_intro with "[Hq] []"); [| done]. by iApply queue_close.
  - wp_bind. iApply wp_block_of. iIntros (b) "Hb".
    wp_bind. iApply (wp_insert with "Hq Hb"); [done |]. iIntros (f' l') "Hq".
    qio. wp_ret. rewrite (surjective_pairing (a_unstarve _)).
    iApply (post_intro with "[Hq] []"); [| done]. iApply queue_close. by rewrite unstarve_blocks.
Qed.

Lemma qbwrite_refines q a b d :
  queue q a ∗ new_block b d ⊢ wp (qbwrite q b) (fun r =>
    post (a_bwrite a d) r ∗ match (a_bwrite a d).2 with RSleep => new_block b d | _ => emp end).
Proof.
  iIntros "[Hq Hb]". iDestruct (queue_open with "Hq") as (f l) "[-> Hq]".
  unfold qbwrite, a_bwrite. wp_bind. iApply (wp_load_block with "Hb"). iIntros (v) "-> Hb".
  replace (qnotfull (conc f l a)) with (a_notfull a) by (unfold qnotfull; by qio).
  qio. destruct (a_notfull a); simpl; [destruct (a_closed a) | destruct (a_noblock a)].
  - wp_bind. iApply (wp_free_block with "[Hb]"); [by iApply new_block_ablock |].
    wp_ret. iSplit; [| done]. iApply (post_intro with "[Hq] []"); [by iApply queue_close | done].
  - wp_bind. iApply (wp_insert with "Hq Hb"); [done |]. iIntros (f' l') "Hq".
    qio. wp_ret. rewrite (surjective_pairing (a_unstarve _)) /=. iSplit; [| done].
    iApply (post_intro with "[Hq] []"); [| done]. iApply queue_close. by rewrite unstarve_blocks.
  - wp_bind. iApply (wp_free_block with "[Hb]"); [by iApply new_block_ablock |].
    wp_ret. iSplit; [| done]. iApply (post_intro with "[Hq] []"); [by iApply queue_close | done].
  - wp_ret. iFrame. iApply (post_intro with "[Hq] []"); [by iApply queue_close | done].
Qed.

(** A result of [qbread_first]: the block comes with its length. *)
Definition frep (r : result (ptr * Z)) (s : result (list Z)) : hpropI Block :=
  match s with
  | RBlock d => ∃ p, ⌈r = RBlock (p, zlen d)⌉ ∗ ablock p d
  | RNone => ⌈r = RNone⌉
  | RSleep => ⌈r = RSleep⌉
  | RError e => ⌈r = RError e⌉
  | _ => False
  end%I.

Lemma qbread_first_refines q a :
  queue q a ⊢ wp (qbread_first q) (fun r =>
    queue r.1.1 (a_bread_first a).1.1 ∗ ⌈r.1.2 = (a_bread_first a).1.2⌉ ∗ frep r.2 (a_bread_first a).2).
Proof.
  iIntros "(%xs & %l & -> & %Hxs & %Ha & Hc)". destruct Hxs as [Hxs Hl].
  unfold qbread_first, a_bread_first. rewrite Ha. destruct xs as [|[x b] xs]; simpl; qio.
  - destruct (a_closed a) eqn:Hcl; simpl.
    + wp_ret. iSplitL; [by iApply (queue_intro [] l (aset_eof (a_eof a + 1) a)) |].
      iSplit; [done |]. by destruct (3 <? a_eof a + 1).
    + wp_ret. iSplitL; [by iApply (queue_intro []) | by iSplit].
  - pose proof (proj1 (proj1 (Forall_cons _ _ _) Hxs)) as Hb. simpl in Hb.
    iDestruct "Hc" as "[Hx Hc]". wp_load "Hx".
    blk. rewrite -(length_bdata b Hb) -(conc_blocks _ _ a (datas xs)). qio.
    fold (a_remove a (bdata b) (datas xs)). wp_ret.
    rewrite (surjective_pairing (a_remove a _ _)) /=.
    iSplitL "Hc"; [by iApply (queue_remove with "Hc") |]. iSplit; [done |].
    iExists (Some x). iSplit; [done |]. by iApply (ablock_intro with "Hx").
Qed.

Lemma wp_peek_rest x b n (Φ : list Z -> hpropI Block) :
  wfb b -> 0 <= n <= BLEN b ->
  x ↦ b -∗ (x ↦ b -∗ Φ (drop (Z.to_nat n) (bdata b))) -∗
  wp (peek (Some x) (b_rp b + n) (BLEN b - n)) Φ.
Proof.
  iIntros (Hb Hn) "Hx HΦ". pose proof Hb as (? & ? & _).
  iApply (wp_peek with "Hx"); [lia | lia | unfold BLEN in *; lia |].
  replace (take _ _) with (drop (Z.to_nat n) (bdata b)); [done |].
  unfold bdata. rewrite skipn_firstn_comm drop_drop. f_equal; [lia |]. f_equal. lia.
Qed.

Lemma shorten_facts b n :
  wfb b -> 0 <= n <= BLEN b ->
  wfb (set_wp (b_rp b + n) b) /\ bdata (set_wp (b_rp b + n) b) = take (Z.to_nat n) (bdata b).
Proof.
  intros Hb Hn. destruct (truncate_facts b n Hb Hn) as [? <-].
  replace (b_rp b + n) with (b_wp b - (BLEN b - n)) by (unfold BLEN; lia). done.
Qed.

Lemma qbread_split_refines q a nb d n :
  0 <= n ->
  queue q a ∗ ablock nb d ⊢ wp (qbread_split q nb (zlen d) n) (fun q' =>
    queue q' (a_bread_split a d n) ∗ ablock nb (take (Z.to_nat n) d)).
Proof.
  iIntros (Hn) "[(%xs & %l & -> & %Hxs & %Ha & Hc) (%x & %v & -> & %Hv & Hx)]".
  destruct Hxs as [Hxs Hl], Hv as [Hv <-]. pose proof (length_bdata v Hv) as HL.
  unfold qbread_split, a_bread_split. rewrite HL. destruct (Z.ltb_spec n (BLEN v)); simpl.
  - destruct (shorten_facts v n Hv) as (Hv' & Dv); [lia |]. wp_bind. qio.
    destruct (a_msg a); simpl.
    + wp_ret. wp_store "Hx". wp_ret. iSplitL "Hc"; [by iApply queue_intro |].
      by iApply (ablock_intro with "Hx").
    + wp_load "Hx". wp_bind. iApply (wp_peek_rest with "Hx"); [done | lia |]. iIntros "Hx".
      wp_bind. iApply wp_block_of. iIntros (b) "(%y & %w & -> & %Hw & [Hy _])".
      destruct Hw as [Hw Dw]. wp_store "Hy". wp_ret. wp_store "Hx". wp_ret.
      iSplitL "Hc Hy"; [| by iApply (ablock_intro with "Hx")].
      iAssert (chain ((y, w) :: xs)) with "[Hc Hy]" as "Hc"; [by iFrame |].
      set (a' := aset_len _ (aset_blocks (_ :: a_blocks a) a)).
      assert (a_blocks a' = datas ((y, w) :: xs)) as Ha' by by rewrite /= Dw Ha.
      assert (wfbs ((y, w) :: xs)) by by constructor.
      destruct xs as [|[z u] xs]; simpl; qio; rewrite -(conc_blocks _ _ _ (a_blocks a')).
      * by iApply (queue_intro [(y, w)] (Some y) a' with "Hc").
      * iApply (queue_intro ((y, w) :: (z, u) :: xs) l a' with "Hc"); [done | | done].
        intros _. rewrite last_ptr_cons //. by apply Hl.
  - wp_ret. iSplitL "Hc"; [by iApply queue_intro |]. rewrite take_ge; [| lia].
    by iApply (ablock_intro with "Hx").
Qed.

Lemma wp_peek_mid x b k n (Φ : list Z -> hpropI Block) :
  wfb b -> 0 <= k -> 0 <= n -> k + n <= BLEN b ->
  x ↦ b -∗ (x ↦ b -∗ Φ (take (Z.to_nat n) (drop (Z.to_nat k) (bdata b)))) -∗
  wp (peek (Some x) (b_rp b + k) n) Φ.
Proof.
  iIntros (Hb Hk Hn Hkn) "Hx HΦ". pose proof Hb as (? & ? & _). unfold BLEN in Hkn.
  iApply (wp_peek with "Hx"); [lia | lia | lia |].
  replace (take _ (drop _ (b_buf b))) with (take (Z.to_nat n) (drop (Z.to_nat k) (bdata b)));
    [done |].
  unfold bdata, BLEN. rewrite skipn_firstn_comm drop_drop take_take. f_equal; [lia |]. f_equal. lia.
Qed.

Lemma wp_qcopy_seek xs l a offset (Φ : option (ptr * Z * Z) -> hpropI Block) :
  wfbs xs -> 0 <= offset ->
  chain xs -∗
  ((⌈zlen (cdata xs) <= offset⌉ -∗ chain xs -∗ Φ None) ∧
   (∀ pre y v post k, ⌈xs = pre ++ (y, v) :: post /\ 0 <= k < BLEN v⌉ -∗
      ⌈drop (Z.to_nat offset) (cdata xs) = drop (Z.to_nat k) (bdata v) ++ cdata post⌉ -∗
      chain xs -∗ Φ (Some (Some y, (b_rp v + k)%Z, (BLEN v - k)%Z)))) -∗
  wp (qcopy_seek (conc (start xs None) l a) offset) Φ.
Proof.
  iIntros (Hxs Hoff) "Hc HΦ". unfold qcopy_seek. simpl. set (Post := (_ ∧ _)%I).
  iApply (wp_loop (fun m '(b, sofar) => ∃ pre post,
            ⌈b = start post None /\ m = length post⌉ ∗
            ⌈xs = pre ++ post /\ sofar = zlen (cdata pre) /\ sofar <= offset⌉ ∗
            chain xs ∗ Post)%I _ _ (length xs) with "[Hc HΦ]").
  - iIntros (m [p n]) "(%pre & %post & %Hp & %E & Hc & _)". destruct Hp as [_ ->], E as [-> _].
    iApply (lseg_size_le with "Hc"). rewrite length_app. lia.
  - clear -Hxs. intros m [p n]. iIntros "(%pre & %post & %Hp & %HE & Hc & HΦ)".
    destruct Hp as [-> ->], HE as (E & -> & Hoff). destruct post as [|[y v] post]; simpl.
    { rewrite app_nil_r in E. subst. wp_ret. iDestruct "HΦ" as "[HΦ _]". by iApply "HΦ". }
    assert (wfb v) as Hv by (subst; by eapply wfbs_elem). pose proof (length_bdata v Hv) as HL.
    iEval (rewrite E) in "Hc". iDestruct (lseg_borrow with "Hc") as "[Hy Hc]".
    wp_load "Hy". blk. iDestruct ("Hc" with "Hy") as "Hc". rewrite -E.
    assert (cdata xs = cdata pre ++ bdata v ++ cdata post) as Hcd
      by by rewrite E cdata_app cdata_cons.
    destruct (Z.ltb_spec offset (zlen (cdata pre) + BLEN v)).
    + wp_ret. iDestruct "HΦ" as "[_ HΦ]". rewrite -Z.add_sub_assoc.
      iApply ("HΦ" $! pre y v post (offset - zlen (cdata pre)) with "[] [] Hc"); iPureIntro.
      * split; [done | lia].
      * rewrite Hcd !drop_app drop_ge /=; [| lia].
        f_equal; [f_equal; lia |].
        replace (_ - _ - length (bdata v))%nat with 0%nat by lia. by rewrite drop_0.
    + wp_ret. iExists (length post). iSplit; [auto |].
      iExists (pre ++ [(y, v)]), post. iFrame. iPureIntro.
      rewrite -app_assoc cdata_app cdata_cons app_nil_r length_app. split_and!; (done || lia).
  - iExists [], xs. by iFrame.
Qed.

Lemma wp_qcopy_copy xs x w pre y v post k n T (Φ : unit -> hpropI Block) :
  wfbs xs -> wfb w -> b_next w = None -> bdata w = [] -> lim w = b_wp w + n -> 0 <= n ->
  xs = pre ++ (y, v) :: post -> 0 <= k <= BLEN v ->
  T = take (Z.to_nat n) (drop (Z.to_nat k) (bdata v) ++ cdata post) ->
  chain xs -∗ x ↦ w -∗ (chain xs -∗ new_block (Some x) T -∗ Φ tt) -∗
  wp (qcopy_copy (Some x) n (Some y) (b_rp v + k) (BLEN v - k)) Φ.
Proof.
  iIntros (Hxs Hw Nw Dw Lw Hn E Hk HT) "Hc Hx HΦ". unfold qcopy_copy.
  iApply (wp_loop (fun m '(b, p, r, sofar) => ∃ pre y v post k w,
            ⌈b = Some y /\ p = (b_rp v + k)%Z /\ r = (BLEN v - k)%Z /\ m = length post⌉ ∗
            ⌈xs = pre ++ (y, v) :: post /\ 0 <= k <= BLEN v⌉ ∗
            ⌈wfb w /\ b_next w = None /\ lim w = (b_wp w + (n - sofar))%Z /\ 0 <= sofar <= n⌉ ∗
            ⌈T = bdata w ++ take (Z.to_nat (n - sofar)) (drop (Z.to_nat k) (bdata v) ++ cdata post)⌉ ∗
            chain xs ∗ x ↦ w ∗ (chain xs -∗ new_block (Some x) T -∗ Φ tt))%I
            _ _ (length post) with "[Hc Hx HΦ]").
  - iIntros (m [[[b p] r] sofar]) "(%pr & %z & %u & %po & %j & %w' & %Hp & %HE & _ & _ & Hc & _)".
    destruct Hp as (_ & _ & _ & ->), HE as [-> _].
    iApply (lseg_size_le with "Hc"). rewrite length_app /=. lia.
  - clear -Hxs. intros m [[[b p] r] sofar].
    iIntros "(%pre & %y & %v & %post & %k & %w & %Hp & %HE & %Hw & %HT & Hc & Hx & HΦ)".
    destruct Hp as (-> & -> & -> & ->), HE as [E Hk], Hw as (Hw & Nw & Lw & Hs).
    destruct (Z.ltb_spec sofar n); last first.
    { wp_ret. replace (n - sofar) with 0 in HT by lia. rewrite /= app_nil_r in HT.
      iApply ("HΦ" with "Hc"). by iApply (new_block_intro with "Hx"). }
    assert (wfb v) as Hv by (subst; by eapply wfbs_elem). pose proof (length_bdata v Hv) as HL.
    set (r := if n - sofar <? BLEN v - k then _ else _).
    assert (r = Z.min (n - sofar) (BLEN v - k)) as Hr
      by (unfold r; destruct (Z.ltb_spec (n - sofar) (BLEN v - k)); lia). clearbody r.
    iEval (rewrite E) in "Hc". iDestruct (lseg_borrow with "Hc") as "[Hy Hc]".
    set (d := take (Z.to_nat r) (drop (Z.to_nat k) (bdata v))).
    assert (zlen d = r) as Hd by (unfold d; rewrite length_take length_drop; lia).
    destruct (append_facts w d Hw) as (Hw' & Dw' & _ & Lw'); [lia |].
    wp_bind. iApply (wp_peek_mid with "Hy"); [done | lia | lia | blk; lia |]. blk. iIntros "Hy".
    rewrite -/d. wp_bind. iApply (wp_append with "Hx"); [done | lia |]. iIntros "Hx".
    wp_load "Hy". iDestruct ("Hc" with "Hy") as "Hc". rewrite -E.
    assert (T = bdata (app_data d w) ++ take (Z.to_nat (n - (sofar + r))) (cdata post)) as HT'.
    { rewrite HT Dw' -app_assoc take_app. f_equal. unfold d. f_equal.
      - rewrite (take_min (Z.to_nat (n - sofar))) length_drop. f_equal. lia.
      - destruct (Z.min_spec (n - sofar) (BLEN v - k)) as [[??]|[??]].
        + replace (Z.to_nat (n - (sofar + r))) with 0%nat by lia.
          replace (Z.to_nat (n - sofar) - _)%nat with 0%nat by (rewrite length_drop; lia). done.
        + f_equal. rewrite length_drop. lia. }
    clearbody d. destruct post as [|[z u] post]; simpl.
    + wp_ret. rewrite take_nil app_nil_r in HT'.
      iApply ("HΦ" with "Hc"). by iApply (new_block_intro with "Hx").
    + assert (wfb u) as Hu.
      { eapply (wfbs_elem (pre ++ [(y, v)]) z u post). by rewrite -app_assoc /= -E. }
      iEval (rewrite E cons_middle app_assoc) in "Hc". iDestruct (lseg_borrow with "Hc") as "[Hz Hc]".
      wp_load "Hz". iDestruct ("Hc" with "Hz") as "Hc". rewrite -app_assoc -E. blk. wp_ret.
      iExists (length post). iSplit; [auto |].
      iExists (pre ++ [(y, v)]), z, u, post, 0, (app_data d w). iFrame. iPureIntro.
      rewrite -app_assoc drop_0 Lw'. pose proof (BLEN_pos u Hu).
      split_and!; try done; simpl; lia.
  - iExists pre, y, v, post, k, w. iFrame. iPureIntro.
    rewrite Dw Z.sub_0_r. split_and!; (done || lia).
Qed.

Lemma qcopy_refines q a n offset :
  0 <= n -> 0 <= offset -> queue q a ⊢ wp (qcopy q n offset) (post (a_copy a n offset)).
Proof.
  iIntros (Hn Hoff) "(%xs & %l & -> & %Hxs & %Ha & Hc)". destruct Hxs as [Hxs Hl].
  unfold qcopy, a_copy. wp_bind. iApply wp_allocb; [done |].
  iIntros (x w) "%Hw Hx". destruct Hw as (Hw & Dw & Nw & Rw & Ww & Lw).
  assert (contents a = cdata xs) as Hcon by by rewrite /contents Ha.
  wp_bind. iApply (wp_qcopy_seek with "Hc"); [done.. |]. iSplit.
  - iIntros (Hlen) "Hc". wp_ret. iApply (post_intro with "[Hc] [Hx]"); [by iApply queue_intro |].
    iExists (Some x). iSplit; [done |].
    rewrite Hcon drop_ge; [| lia]. rewrite take_nil. by iApply (ablock_intro with "Hx").
  - iIntros (pre y v post k) "%E %Hd Hc". destruct E as [E Hk].
    wp_bind. iApply (wp_qcopy_copy _ _ _ _ _ _ _ _ n with "Hc Hx"); try done; [lia | lia |].
    iIntros "Hc Hb". wp_ret.
    iApply (post_intro with "[Hc] [Hb]"); [by iApply queue_intro |].
    iExists (Some x). iSplit; [done |]. rewrite Hcon Hd. by iApply new_block_ablock.
Qed.

Lemma queue_kicked q a w e : queue q a ⊢ ⌜kicked w q e = a_kicked w a e⌝.
Proof. iIntros "(%xs & %l & -> & _)". done. Qed.

Lemma qbread_refines q a n : 0 <= n -> queue q a ⊢ wp (qbread q n) (post (a_bread a n)).
Proof.
  iIntros (Hn) "Hq". unfold qbread, a_bread. wp_bind.
  iApply (wp_frame_wand with "[Hq]"); [by iApply qbread_first_refines |].
  destruct (a_bread_first a) as [[a1 w] r1]. iIntros ([[q1 w1] r]) "(Hq & %Hw & Hr)".
  simpl in *. subst w1. destruct r1 as [| | | d | | e]; simpl; try done.
  - iDestruct "Hr" as "->". wp_ret. by iApply (post_intro with "Hq").
  - iDestruct "Hr" as (p) "[-> Hp]". wp_bind.
    iApply (wp_frame_wand with "[Hq Hp]"); [iApply qbread_split_refines; [done |]; iFrame |].
    iIntros (q2) "[Hq Hp]". wp_ret. iDestruct (queue_kicked _ _ w WakeWriter with "Hq") as %->.
    replace (a_kicked w (a_bread_split a1 d n) WakeWriter) with (a_kicked w a1 WakeWriter)
      by (unfold a_bread_split; by case_match).
    iApply (post_intro with "Hq"). iExists p. by iFrame.
  - iDestruct "Hr" as "->". wp_ret. by iApply (post_intro with "Hq").
  - iDestruct "Hr" as "->". wp_ret. by iApply (post_intro with "Hq").
Qed.

(** All the bytes of a block, and the block is freed. *)
Lemma wp_take_block p d (Φ : list Z -> hpropI Block) :
  ablock p d -∗ Φ d -∗
  wp (v ← load p; d ← peek p (b_rp v) (BLEN v); freeb p;; mret d) Φ.
Proof.
  iIntros "(%x & %v & -> & %Hv & Hx) HΦ". destruct Hv as [Hv <-].
  wp_load "Hx". wp_bind.
  iApply (wp_peek_data with "Hx"); [done | by split; [apply BLEN_pos |] |].
  rewrite take_bdata //. iIntros "Hx". wp_bind. iApply (wp_freeb with "Hx"); [done |]. by wp_ret.
Qed.

Lemma qread_refines q a n : 0 <= n -> queue q a ⊢ wp (qread q n) (post (a_read a n)).
Proof.
  iIntros (Hn) "Hq". unfold qread, a_read. wp_bind.
  iApply (wp_frame_wand with "[Hq]"); [by iApply qbread_refines |].
  destruct (a_bread a n) as [[a1 ev] r1]. iIntros ([[q1 ev1] r]) "(Hq & %Hev & Hr)".
  simpl in *. subst ev1. destruct r1 as [| | | d | | e]; simpl;
    try (iDestruct "Hr" as "->"; wp_ret; by iApply (post_intro with "Hq")).
  iDestruct "Hr" as (p) "[-> (%x & %v & -> & %Hv & Hx)]". destruct Hv as [Hv <-].
  wp_load "Hx". wp_bind.
  iApply (wp_peek_data with "Hx"); [done | by split; [apply BLEN_pos |] |].
  rewrite take_bdata //. iIntros "Hx". wp_bind. iApply (wp_freeb with "Hx"); [done |].
  wp_ret. by iApply (post_intro with "Hq").
Qed.

(** The piece a write takes next. *)
Lemma next_piece (p : list Z) sofar :
  0 <= sofar <= zlen p ->
  take (Z.to_nat (if chunk <? zlen p - sofar then chunk else zlen p - sofar))
    (drop (Z.to_nat sofar) p) = take (Z.to_nat chunk) (drop (Z.to_nat sofar) p).
Proof.
  intros Hs. destruct (Z.ltb_spec chunk (zlen p - sofar)); [done |].
  rewrite !take_ge //; rewrite length_drop; lia.
Qed.

(** Whether there is another one. *)
Lemma chunks_next (msg : bool) p sofar :
  0 <= sofar <= zlen p ->
  let n := if chunk <? zlen p - sofar then chunk else zlen p - sofar in
  chunks msg (drop (Z.to_nat sofar) p) =
  take (Z.to_nat chunk) (drop (Z.to_nat sofar) p) ::
  (if (sofar + n <? zlen p) && negb msg then chunks msg (drop (Z.to_nat (sofar + n)) p) else []) /\
  0 <= sofar + n <= zlen p /\
  zlen (take (Z.to_nat chunk) (drop (Z.to_nat sofar) p)) = n /\
  ((sofar + n <? zlen p) && negb msg = true ->
   (Z.to_nat ((zlen p - (sofar + n)) / chunk) < Z.to_nat ((zlen p - sofar) / chunk))%nat).
Proof.
  intros Hs n. pose proof chunk_val as Hc.
  assert (zlen (drop (Z.to_nat sofar) p) = zlen p - sofar) as HL by (rewrite length_drop; lia).
  assert (chunk < zlen p - sofar /\ n = chunk \/ zlen p - sofar <= chunk /\ n = zlen p - sofar)
    as Hn by (unfold n; destruct (Z.ltb_spec chunk (zlen p - sofar)); lia).
  clearbody n. split_and!; try lia.
  - destruct msg; simpl; [by rewrite andb_false_r |]. rewrite cut_eq HL andb_true_r drop_drop.
    destruct (Z.ltb_spec chunk (zlen p - sofar)), (Z.ltb_spec (sofar + n) (zlen p)); try lia; [| done].
    do 3 f_equal. lia.
  - rewrite length_take. lia.
  - intros [Hlt%Z.ltb_lt _]%andb_true_iff. assert (n = chunk) as -> by lia.
    replace (zlen p - (sofar + chunk)) with (zlen p - sofar + (-1) * chunk) by lia.
    rewrite Z.div_add; [| lia]. assert (1 <= (zlen p - sofar) / chunk); [| lia].
    apply Z.div_le_lower_bound; lia.
Qed.

Lemma qiwrite_refines q a p : queue q a ⊢ wp (qiwrite q p) (post (a_iwrite a p)).
Proof.
  iIntros "Hq". iDestruct (queue_open with "Hq") as (f l) "[-> Hq]". unfold qiwrite, a_iwrite.
  iApply (wp_iter (fun m '(q, ev, sofar, woken) => ∃ f l a',
            ⌈q = conc f l a' /\ m = Z.to_nat ((zlen p - sofar) / chunk) /\ a_msg a' = a_msg a⌉ ∗
            ⌈0 <= sofar <= zlen p /\
             iwrite a' (chunks (a_msg a) (drop (Z.to_nat sofar) p)) ev woken =
             iwrite a (chunks (a_msg a) p) [] false⌉ ∗
            qchain f l (a_blocks a'))%I _ _ _ (Z.to_nat (zlen p / chunk)) with "[Hq]"); [lia | |].
  - clear f l. intros m [[[q' ev] sofar] woken].
    iIntros "(%f & %l & %a' & %Hq & %Hd & Hq)". destruct Hq as (-> & -> & Hmsg), Hd as [Hs <-].
    destruct (chunks_next (a_msg a) p sofar Hs) as (Hch & Hs' & HL & Hdec).
    rewrite next_piece // Hch.
    set (n := if chunk <? zlen p - sofar then chunk else zlen p - sofar) in *. clearbody n.
    set (d := take _ _) in *. clearbody d.
    wp_bind. iApply wp_block_of. iIntros (b) "Hb".
    wp_bind. iApply (wp_insert with "Hq Hb"); [done |]. iIntros (f' l') "Hq". qio.
    rewrite unstarve_msg /= Hmsg (surjective_pairing (a_unstarve _)) /=.
    destruct ((sofar + n <? zlen p) && negb (a_msg a)) eqn:E; wp_ret.
    + iExists _. iSplit; [iPureIntro; by apply Hdec |].
      iExists f', l', (a_unstarve (a_enqueue a' d)).1. iSplit.
      { iPureIntro. split_and!; [done | done | by rewrite unstarve_msg]. }
      iSplit; [done |]. by rewrite unstarve_blocks.
    + iApply (post_intro with "[Hq] []"); [| done]. iApply queue_close. by rewrite unstarve_blocks.
  - iExists f, l, a. iFrame. iPureIntro. rewrite Z.sub_0_r. split_and!; (done || lia).
Qed.

Lemma bwrite_msg a d : a_msg (a_bwrite a d).1.1 = a_msg a.
Proof.
  unfold a_bwrite. repeat case_match; simplify_eq/=; try done.
  match goal with E : a_unstarve _ = _ |- _ =>
    by rewrite -(unstarve_msg (a_enqueue a d)) E end.
Qed.

Lemma bwrite_result a d :
  (a_bwrite a d).2 = RInt (zlen d) \/ (a_bwrite a d).2 = RSleep \/
  exists e, (a_bwrite a d).2 = RError e.
Proof. unfold a_bwrite. repeat case_match; simplify_eq/=; eauto. Qed.

Lemma queue_msg q a : queue q a ⊢ ⌜has Qmsg q = a_msg a⌝.
Proof. iIntros "(%xs & %l & -> & _)". by rewrite has_msg. Qed.

Lemma new_block_some b d : new_block b d ⊢ ⌜b <> None⌝.
Proof. by iIntros "(%x & %v & -> & _)". Qed.

(** The block a writer sleeps on, if it does. *)
Definition pending_block (b : ptr) (d : list Z) : hpropI Block :=
  match b with Some _ => new_block b d | None => emp end%I.

(** How a write ends. *)
Definition wpost (p : list Z) (s : AQueue * list event * (Z + result (list Z)))
    (r : Queue * list event * (ptr * Z + result ptr)) : hpropI Block :=
  queue r.1.1 s.1.1 ∗ ⌈r.1.2 = s.1.2⌉ ∗
  match s.2 with
  | inl sofar => ∃ b, ⌈r.2 = inl (b, sofar) /\ b <> None /\ 0 <= sofar <= zlen p⌉ ∗
                      pending_block b (take (Z.to_nat chunk) (drop (Z.to_nat sofar) p))
  | inr r' => ∃ r1, ⌈r.2 = inr r1⌉ ∗ rrep r1 r'
  end.

Lemma wp_pending b d (Φ : ptr -> hpropI Block) :
  pending_block b d -∗ (∀ b', new_block b' d -∗ Φ b') -∗
  wp (match b with Some _ => mret b | None => block_of d end) Φ.
Proof.
  iIntros "Hb HΦ". destruct b; simpl.
  - wp_ret. by iApply "HΦ".
  - by iApply wp_block_of.
Qed.

Lemma qwrite_loop_refines q a p sofar b :
  0 <= sofar <= zlen p ->
  queue q a ∗ pending_block b (take (Z.to_nat chunk) (drop (Z.to_nat sofar) p)) ⊢
  wp (qwrite_loop q p sofar b) (wpost p (a_write a p sofar)).
Proof.
  iIntros (Hs) "[Hq Hb]". unfold qwrite_loop, a_write. pose proof chunk_val as Hc.
  iApply (wp_iter (fun m '(q, ev, sofar', b) => ∃ a',
            ⌈m = Z.to_nat ((zlen p - sofar') / chunk) /\ a_msg a' = a_msg a⌉ ∗
            ⌈0 <= sofar' <= zlen p /\
             awrite a' (chunks (a_msg a) (drop (Z.to_nat sofar') p)) ev sofar' (zlen p) =
             awrite a (chunks (a_msg a) (drop (Z.to_nat sofar) p)) [] sofar (zlen p)⌉ ∗
            queue q a' ∗ pending_block b (take (Z.to_nat chunk) (drop (Z.to_nat sofar') p)))%I
            _ _ _ (Z.to_nat ((zlen p - sofar) / chunk)) with "[Hq Hb]").
  - assert ((zlen p - sofar) / chunk <= zlen p / chunk) by (apply Z.div_le_mono; lia). lia.
  - clear Hs b q. intros m [[[q ev] s] b].
    iIntros "(%a' & %Hm & %Hd & Hq & Hb)". destruct Hm as (-> & Hmsg), Hd as [Hs <-].
    destruct (chunks_next (a_msg a) p s Hs) as (Hch & Hs' & HL & Hdec).
    rewrite next_piece // Hch.
    set (n := if chunk <? zlen p - s then chunk else zlen p - s) in *. clearbody n.
    wp_bind. iApply (wp_pending with "Hb"). iIntros (b') "Hb".
    wp_bind. iApply (wp_frame_wand with "[Hq Hb]"); [iApply qbwrite_refines; iFrame |].
    pose proof (bwrite_msg a' (take (Z.to_nat chunk) (drop (Z.to_nat s) p))) as Hm'.
    pose proof (bwrite_result a' (take (Z.to_nat chunk) (drop (Z.to_nat s) p))) as Hres. simpl.
    destruct (a_bwrite a' _) as [[a2 ev2] r2]. simpl in Hm', Hres.
    iIntros ([[q2 ev2'] r2']) "((Hq & %Hev & Hr) & Hb)". simpl in *. subst ev2'.
    iDestruct (queue_msg with "Hq") as %Hq2. rewrite Hq2 Hm' Hmsg.
    destruct Hres as [-> | [-> | [e ->]]]; simpl; iDestruct "Hr" as "->".
    + rewrite HL. destruct ((s + n <? zlen p) && negb (a_msg a)); wp_ret.
      * iExists _. iSplit; [iPureIntro; by apply Hdec |]. iExists a2. iFrame "Hq".
        iSplit; [iPureIntro; by rewrite Hm' | done].
      * rewrite /wpost /=. iFrame "Hq". iSplit; [done |]. by iExists (RInt (zlen p)).
    + wp_ret. rewrite /wpost /=. iFrame "Hq". iSplit; [done |].
      iDestruct (new_block_some with "Hb") as %Hb'. iExists b'. iSplit; [done |].
      destruct b'; [done | by destruct Hb'].
    + wp_ret. rewrite /wpost /=. iFrame "Hq". iSplit; [done |]. by iExists (RError e).
  - iExists a. by iFrame.
Qed.

(** Everything in the queue is freed. *)
Lemma wp_drop_all f l ds (Φ : unit -> hpropI Block) :
  qchain f l ds -∗ Φ tt -∗ wp (freeblist f) Φ.
Proof.
  iIntros "(%xs & -> & %Hxs & _ & Hc) HΦ". iApply (wp_freeblist with "Hc"); [by destruct Hxs | done].
Qed.

Lemma queue_empty l a : a_blocks a = [] -> ⊢ queue (conc None l a) a.
Proof. intros Ha. iApply (queue_intro []); done. Qed.

Lemma qclose_refines q a : queue q a ⊢ wp (qclose q) (post (a_close a)).
Proof.
  iIntros "Hq". iDestruct (queue_open with "Hq") as (f l) "[-> Hq]". unfold qclose. qio.
  wp_bind. iApply (wp_drop_all with "Hq"). wp_ret.
  iApply (post_intro with "[] []"); [| done]. by iApply (queue_empty l (a_close a).1.1).
Qed.

Lemma qflush_refines q a : queue q a ⊢ wp (qflush q) (post (a_flush a)).
Proof.
  iIntros "Hq". iDestruct (queue_open with "Hq") as (f l) "[-> Hq]". unfold qflush. qio.
  wp_bind. iApply (wp_drop_all with "Hq"). wp_ret.
  iApply (post_intro with "[] []"); [| done].
  by iApply (queue_empty l (aset_len 0 (aset_blocks [] a))).
Qed.

Lemma qhangup_refines q a msg : queue q a ⊢ post (a_hangup a msg) (qhangup q msg).
Proof.
  iIntros "Hq". iDestruct (queue_open with "Hq") as (f l) "[-> Hq]". unfold qhangup, a_hangup. qio.
  iApply (post_intro with "[Hq] []"); [| done].
  by destruct msg as [|c msg]; [iApply (queue_close f l (a_hangup a []).1.1)
    | iApply (queue_close f l (a_hangup a (c :: msg)).1.1)].
Qed.

Lemma qreopen_refines q a : queue q a ⊢ queue (qreopen q) (a_reopen a).
Proof.
  iIntros "Hq". iDestruct (queue_open with "Hq") as (f l) "[-> Hq]". unfold qreopen. qio.
  by iApply (queue_close f l (a_reopen a)).
Qed.

(** ** All of it *)

(** An operation of the code, given the block of the two that take one. *)
Definition with_block (o : op (list Z)) (b : ptr) : op ptr :=
  match o with
  | OpGet => OpGet
  | OpDiscard n => OpDiscard n
  | OpConsume n => OpConsume n
  | OpPass _ => OpPass b
  | OpProduce d => OpProduce d
  | OpCopy n offset => OpCopy n offset
  | OpBread n => OpBread n
  | OpRead n => OpRead n
  | OpBwrite _ => OpBwrite b
  | OpIwrite d => OpIwrite d
  | OpClose => OpClose
  | OpHangup msg => OpHangup msg
  | OpReopen => OpReopen
  | OpSetlimit n => OpSetlimit n
  | OpNoblock onoff => OpNoblock onoff
  | OpFlush => OpFlush
  end.

Definition operand (o : op (list Z)) (b : ptr) : hpropI Block :=
  match o with OpPass d | OpBwrite d => new_block b d | _ => emp end%I.

Definition run (q : Queue) (o : op ptr) : M res :=
  match o with
  | OpGet => qget q
  | OpDiscard n => qdiscard q n
  | OpConsume n => qconsume q n
  | OpPass b => qpass q b
  | OpProduce d => qproduce q d
  | OpCopy n offset => qcopy q n offset
  | OpBread n => qbread q n
  | OpRead n => qread q n
  | OpBwrite b => qbwrite q b
  | OpIwrite d => qiwrite q d
  | OpClose => qclose q
  | OpHangup msg => mret (qhangup q msg)
  | OpReopen => mret (qreopen q, [], RNone)
  | OpSetlimit n => mret (qsetlimit q n, [], RNone)
  | OpNoblock onoff => mret (qnoblock q onoff, [], RNone)
  | OpFlush => qflush q
  end.

(** A writer that went to sleep still has its block. *)
Definition kept (o : op (list Z)) (b : ptr) (r : result (list Z)) : hpropI Block :=
  match o, r with OpBwrite d, RSleep => new_block b d | _, _ => emp end%I.

Lemma wp_post_emp (m : M res) s : wp m (post s) ⊢ wp m (fun r => post s r ∗ emp).
Proof. apply wp_mono. intros r. by rewrite right_id. Qed.

(** Every operation does what the specification says. *)
Lemma wp_run q a o b (Hpre : op_pre a o) :
  queue q a ∗ operand o b ⊢ wp (run q (with_block o b)) (fun r =>
    post (step a o) r ∗ kept o b (step a o).2).
Proof.
  iIntros "[Hq Hb]". destruct o; simpl in *;
    try (iApply wp_post_emp;
         first [by iApply qget_refines | by iApply qdiscard_refines | by iApply qconsume_refines
               | by iApply qproduce_refines | by iApply qbread_refines | by iApply qread_refines
               | by iApply qiwrite_refines | by iApply qclose_refines | by iApply qflush_refines
               | iApply qpass_refines; by iFrame
               | wp_ret; by iApply qhangup_refines
               | destruct Hpre; by iApply qcopy_refines ]).
  - iApply (wp_mono with "[Hq Hb]"); [| iApply qbwrite_refines; by iFrame]. simpl. done.
  - wp_ret. iSplit; [| done]. iApply (post_intro with "[Hq] []"); [by iApply qreopen_refines | done].
  - wp_ret. iSplit; [| done]. iApply (post_intro with "[Hq] []"); [| done].
    iDestruct (queue_open with "Hq") as (f l) "[-> Hq]".
    by iApply (queue_close f l (aset_limit n a)).
  - wp_ret. iSplit; [| done]. iApply (post_intro with "[Hq] []"); [| done].
    iDestruct (queue_open with "Hq") as (f l) "[-> Hq]".
    by iApply (queue_close f l (aset_noblock onoff a)).
Qed.

End Refine.

Section Properties.
Context `{Host}.

(** C4. Every operation of the queue refines its specification: on a
    representation of [a] it faults nowhere, leaves a representation of
    [step a o], issues the same wakeups, ends in the same way, and frees every
    block it takes out without handing it on. *)
Theorem queue_refines q a o b (Hpre : op_pre a o) :
  queue q a ∗ operand o b ⊢ wp (run q (with_block o b)) (fun r =>
    post (step a o) r ∗ kept o b (step a o).2).
Proof. by apply wp_run. Qed.

(** C22. [qwrite] refines its specification too: a stream queue gets the bytes in
    pieces of at most 128K, one after the other, a message queue the first 128K
    of them only; a piece that finds the queue full is dropped if writers do
    not block, and else the write ends asleep, holding the block it could not
    queue; and whether it starts afresh or resumes after a sleep, no access
    faults and it leaves the queue, the wakeups and the result that the
    specification [a_write] gives. *)
Theorem qwrite_refines q a p sofar b (Hs : 0 <= sofar <= zlen p) :
  queue q a ∗ pending_block b (take (Z.to_nat chunk) (drop (Z.to_nat sofar) p)) ⊢
  wp (qwrite_loop q p sofar b) (wpost p (a_write a p sofar)).
Proof. by apply qwrite_loop_refines. Qed.

(** [qopen] makes an empty queue, and what the code reads off a queue
    record is what it says of the abstract queue. *)
Theorem queue_observers limit msg kick q a :
  (⊢ queue (qopen limit msg kick) (a_open limit msg kick)) /\
  (queue q a ⊢
   ⌜qlen q = a_len a /\ qwindow q = Z.max 0 (i32 (a_limit a - a_len a)) /\
    qcanread q = negb (match a_blocks a with [] => true | _ => false end) /\
    notempty q = a_closed a || qcanread q /\ qnotfull q = a_notfull a /\
    (qfull q <> 0 <-> a_flow a = true) /\ (qclosed q <> 0 <-> a_closed a = true) /\
    qstate q = encode a⌝).
Proof.
  split.
  - unfold qopen. destruct (Z.eqb_spec msg 0) as [-> |]; simpl;
      [iApply (queue_empty None (a_open limit 0 kick)); done |].
    replace (on _ _) with (conc None None (a_open limit msg kick))
      by (unfold conc, a_open, encode; simpl; by rewrite (proj2 (Z.eqb_neq _ _))).
    by iApply (queue_empty None (a_open limit msg kick)).
  - iIntros "(%xs & %l & -> & %Hxs & %Ha & _)". iPureIntro.
    assert (forall f, f = Qflow \/ f = Qclosed -> has f (conc (start xs None) l a) = true <->
              Z.land (state (conc (start xs None) l a)) f <> 0) as Hf.
    { intros f _. unfold has. by rewrite negb_true_iff Z.eqb_neq. }
    assert (qcanread (conc (start xs None) l a) =
            negb (match a_blocks a with [] => true | _ => false end)) as Hc
      by (rewrite Ha; by destruct xs as [|[]]).
    split_and!; try done.
    + unfold qwindow. simpl. destruct (Z.ltb_spec (i32 (a_limit a - a_len a)) 0); lia.
    + unfold notempty. qio. by destruct xs as [|[]].
    + unfold qnotfull. by qio.
    + unfold qfull. rewrite -Hf; [by rewrite has_flow | by left].
    + unfold qclosed. rewrite -Hf; [by rewrite has_closed | by right].
Qed.

End Properties.

(** *** Witnesses *)

(** The queue of [Block.ab]: blocks [1; 2; 3] and [4; 5], limit 5, a writer
    asleep. *)
Definition q_ab : Queue :=
  MkQueue (Some 1%positive) (Some 2%positive) 5 5 5 Qflow false 0 true [].
Definition a_ab : AQueue :=
  MkAQueue [[1; 2; 3]; [4; 5]] 5 5 5 false false false true false 0 true [].

Lemma queue_ab : chain ab ⊢ queue q_ab a_ab.
Proof.
  iIntros "Hc". iExists ab, (Some 2%positive). iFrame. iPureIntro.
  split_and!; done || exact ab_wf.
Qed.

(** Reading 2 bytes splits the first block; the length is still 3. *)
Lemma queue_refines_witness :
  chain ab ⊢ wp (@run zero_host q_ab (OpRead 2)) (fun r =>
    post (MkAQueue [[3]; [4; 5]] 3 5 5 false false false true false 0 true [], [], RData [1; 2]) r ∗ emp).
Proof.
  iIntros "Hc". iApply (@queue_refines zero_host q_ab a_ab (OpRead 2) None); [simpl; lia |].
  iSplit; [by iApply queue_ab | done].
Defined.

Lemma qwrite_refines_witness :
  chain ab ⊢ wp (@qwrite zero_host q_ab [7]) (wpost [7] (a_write a_ab [7] 0)).
Proof.
  iIntros "Hc". iApply (@qwrite_refines zero_host q_ab a_ab [7] 0 None); [simpl; lia |].
  iSplit; [by iApply queue_ab | done].
Defined.
