(* ===== verification/QioOrder.v ===== *)
(** * What goes into a queue comes out of it

    A client of a byte-stream queue, as a program over the operations of
    [Qio] on blocks in memory: it hands bytes in, in blocks it allocates, and
    takes bytes out, freeing the blocks it is given.  The order of the bytes,
    from the refinement of [QioProof] and the order of [AQueue]. *)

From S2P Require Import Prelude Heap Block Qio AQueue QioProof.

#[local] Open Scope Z_scope.

(** ** Clients *)

Section Client.
Context `{Host}.

(** What the answer to an operation says has gone into the queue. *)
Definition sent (o : op (list Z)) (r : result ptr) : list Z :=
  match o, r with
  | OpPass d, _ | OpIwrite d, _ | OpBwrite d, RInt _ => d
  | OpProduce d, RInt n => if n <? 0 then [] else d
  | _, _ => []
  end.

(** What an operation has taken out; blocks that come back are freed, the one of
    a writer that would sleep too. *)
Definition answer (o : op (list Z)) (b : ptr) (r : result ptr) : M (list Z) :=
  match o, r with
  | OpBwrite _, RSleep => freeb b;; mret []
  | OpCopy _ _, RBlock p => freeb p;; mret []
  | _, RBlock p => v ← load p; d ← peek p (b_rp v) (BLEN v); freeb p;; mret d
  | _, RData d => mret d
  | _, _ => mret []
  end.

(** One operation: the queue it leaves, what went in and what came out. *)
Definition client_step (q : Queue) (o : op (list Z)) : M (Queue * list Z * list Z) :=
  b ← match o with OpPass d | OpBwrite d => block_of d | _ => mret None end;
  '(q, _, r) ← run q (with_block o b);
  out ← answer o b r;
  mret (q, sent o r, out).

Fixpoint client_run (q : Queue) (ops : list (op (list Z))) : M (Queue * list Z * list Z) :=
  match ops with
  | [] => mret (q, [], [])
  | o :: ops =>
      '(q, i, o) ← client_step q o;
      '(q, ins, outs) ← client_run q ops;
      mret (q, i ++ ins, o ++ outs)
  end.

(** The runs of a client that throws nothing away, of a queue that is hung up
    or not: no [qdiscard], [qclose] or [qflush], writers that block, and no
    [qproduce] after a hangup. *)
Fixpoint keeps (closed : bool) (ops : list (op (list Z))) : Prop :=
  match ops with
  | [] => True
  | o :: ops =>
      match o with
      | OpDiscard _ | OpClose | OpFlush | OpNoblock true => False
      | OpProduce _ => closed = false
      | OpConsume n | OpBread n | OpRead n => 0 <= n
      | OpCopy n offset => 0 <= n /\ 0 <= offset
      | _ => True
      end /\ keeps (match o with OpHangup _ => true | OpReopen => false | _ => closed end) ops
  end.

(** What a step leaves of the flags: of a queue that is hung up, and whose
    writers do not block. *)
Abbreviation flags := (fun a => (a_closed a, a_noblock a)).

Lemma flags_restart a : flags (a_restart a).1 = flags a.
Proof. unfold a_restart. by case_match. Qed.

Lemma flags_unstarve a : flags (a_unstarve a).1 = flags a.
Proof. unfold a_unstarve. by case_match. Qed.

Lemma flags_bread a n : flags (a_bread a n).1.1 = flags a.
Proof.
  unfold a_bread, a_bread_first, a_remove, a_bread_split. destruct (a_blocks a) as [|d ds]; simpl.
  - destruct (a_closed a) eqn:E; [destruct (3 <? a_eof a + 1) |]; by rewrite /= ?E.
  - rewrite (surjective_pairing (a_restart _)) /=.
    case_match; [etransitivity; [|] |]; by rewrite /= -?(flags_restart (aset_len (i32 (a_len a - zlen d)) (aset_blocks ds a))).
Qed.

Lemma flags_iwrite ds a ev w : flags (iwrite a ds ev w).1 = flags a.
Proof.
  revert a ev w. induction ds as [|d ds IH]; intros a ev w; simpl; [done |].
  rewrite (surjective_pairing (a_unstarve _)) /= IH flags_unstarve. done.
Qed.

Lemma step_flags a o : moves o ->
  flags (step a o).1.1 = (match o with OpHangup _ => true | OpReopen => false | _ => a_closed a end,
                          match o with OpNoblock onoff => onoff | _ => a_noblock a end).
Proof.
  intros Hm. destruct o as [| | n | d | d | | n | n | d | d | | | | | |]; try done; simpl step.
  - unfold a_get, a_remove. destruct (a_blocks a) as [|d ds]; [done |].
    rewrite (surjective_pairing (a_restart _)) /=. by rewrite flags_restart.
  - unfold a_consume. destruct (skip_empty _) as [|d ds]; [done |].
    rewrite (surjective_pairing (a_restart _)) /=. by rewrite flags_restart.
  - unfold a_pass. rewrite (surjective_pairing (a_unstarve _)) /= flags_unstarve. by case_match.
  - unfold a_produce. case_match; [done |]. rewrite (surjective_pairing (a_unstarve _)) /=. by rewrite flags_unstarve.
  - by rewrite flags_bread.
  - pose proof (flags_bread a n) as Hb. unfold a_read. by destruct (a_bread a n) as [[]].
  - unfold a_bwrite. destruct (negb (a_notfull a)); [by destruct (a_noblock a) eqn:E; rewrite /= ?E |].
    destruct (a_closed a) eqn:E; [by rewrite /= E |]. rewrite (surjective_pairing (a_unstarve _)) /=. by rewrite flags_unstarve /= E.
  - by rewrite /= flags_iwrite.
Qed.

(** The answers of a queue whose writers block say what went in. *)
Lemma sent_added a o r : a_msg a = false -> a_noblock a = false ->
  rrep r (step a o).2 ⊢ ⌜sent o r = added a o⌝.
Proof.
  intros Hm Hn. destruct o as [| | n | d | d | | n | n | d | d | | | | | |]; simpl; try by iIntros.
  - unfold a_produce. destruct (a_limit a <=? a_len a); [by iIntros "->" |].
    rewrite (surjective_pairing (a_unstarve _)) /=. iIntros "->". iPureIntro. simpl. destruct (Z.ltb_spec (zlen d) 0); [lia | done].
  - unfold a_bwrite. destruct (a_notfull a); simpl; [destruct (a_closed a); simpl; [by iIntros "->" |] | rewrite Hn /=; by iIntros "->"].
    rewrite (surjective_pairing (a_unstarve _)) /=. by iIntros "->".
  - rewrite Hm /chunks concat_cut. by iIntros.
Qed.
Lemma wp_answer a o b r (Φ : list Z -> hpropI Block) :
  rrep r (step a o).2 -∗ kept o b (step a o).2 -∗ Φ (taken o (step a o).2) -∗ wp (answer o b r) Φ.
Proof.
  assert (forall n off d, o = OpCopy n off -> (step a o).2 <> RData d) as Hcopy by (intros n off d ->; done).
  iIntros "Hr Hk HΦ". destruct ((step a o).2) as [| n | d | d | | e]; simpl.
  - iDestruct "Hr" as "->". destruct o; by wp_ret.
  - iDestruct "Hr" as "->". destruct o; by wp_ret.
  - iDestruct "Hr" as "->". destruct o; try by wp_ret. by destruct (Hcopy n offset d).
  - iDestruct "Hr" as (p) "[-> Hp]". destruct o; try by iApply (wp_take_block with "Hp").
    simpl. wp_bind. iApply (wp_free_block with "Hp"). by wp_ret.
  - iDestruct "Hr" as "->". destruct o; try by wp_ret. simpl. wp_bind.
    iApply (wp_free_block with "[Hk]"); [by iApply new_block_ablock |]. by wp_ret.
  - iDestruct "Hr" as "->". destruct o; by wp_ret.
Qed.

Lemma wp_client_step q a o : a_msg a = false -> a_noblock a = false -> op_pre a o -> moves o -> queue q a ⊢
  wp (client_step q o) (fun '(q', i, out) =>
    ⌈contents a ++ i = out ++ contents (step a o).1.1⌉ ∗ queue q' (step a o).1.1).
Proof.
  iIntros (Hm Hn Hpre Hmv) "Hq". unfold client_step. wp_bind.
  iApply (wp_frame_wand _ (fun b => queue q a ∗ operand o b)%I with "[Hq]").
  { destruct o; try (wp_ret; by iFrame); iApply wp_block_of; iIntros (p) "Hp"; by iFrame. }
  iIntros (b) "Hqb". wp_bind. iApply (wp_frame_wand with "[Hqb]"); [by iApply wp_run |].
  iIntros ([[q1 ev] r]) "[(Hq & _ & Hr) Hk]". simpl. iDestruct (sent_added with "Hr") as %->; [done.. |].
  wp_bind. iApply (wp_answer with "Hr Hk"). wp_ret. iFrame "Hq". iPureIntro. by apply fifo_step.
Qed.

Lemma wp_client_run q a ops : a_msg a = false -> a_noblock a = false -> keeps (a_closed a) ops -> queue q a ⊢
  wp (client_run q ops) (fun '(q', ins, outs) => ∃ a', ⌈contents a ++ ins = outs ++ contents a'⌉ ∗ queue q' a').
Proof.
  revert q a. induction ops as [|o ops IH]; intros q a Hm Hn Hk; simpl.
  - iIntros "Hq". wp_ret. iExists a. iFrame. by rewrite app_nil_r.
  - destruct Hk as [Ho Hk]. iIntros "Hq". assert (op_pre a o /\ moves o) as [Hpre Hmv] by (destruct o; simpl in *; naive_solver).
    wp_bind. iApply (wp_frame_wand with "[Hq]"); [by iApply wp_client_step |].
    iIntros ([[q1 i] out]) "[%Hc Hq]". pose proof (step_msg a o) as Hm1. pose proof (step_flags a o Hmv) as [= Hc1 Hn1].
    wp_bind. iApply (wp_frame_wand with "[Hq]"); [iApply (IH with "Hq") |].
    + congruence.
    + rewrite Hn1. by destruct o as [| | | | | | | | | | | | | | [] |].
    + by rewrite Hc1.
    + iIntros ([[q2 ins] outs]) "(%a' & %Hc' & Hq)". wp_ret. iExists a'. iFrame. iPureIntro.
      by rewrite app_assoc Hc -!app_assoc Hc'.
Qed.

(** C21. A byte-stream queue is first in, first out.  On a queue just opened, a
    client runs any sequence of the operations of the code that keep bytes:
    writes of blocks and of bytes, reads of any sizes, copies, hangups and
    reopenings, limit changes, with writers that block.  No access faults, and the bytes that went
    in, by the answers of the writes, are the bytes that came out followed by
    those that are left in the queue: nothing is lost, repeated or reordered,
    whatever the blocks the reads split. *)
Theorem queue_fifo limit kick ops (Hkeeps : keeps false ops) :
  exists q ins outs h' a, client_run (qopen limit 0 kick) ops ∅ = Ok (q, ins, outs) h' /\
    holds (queue q a) h' /\ ins = outs ++ contents a.
Proof.
  destruct (wp_adequate emp (client_run (qopen limit 0 kick) ops)
    (fun '(q, ins, outs) => ∃ a, ⌈contents (a_open limit 0 kick) ++ ins = outs ++ contents a⌉ ∗ queue q a)%I ∅)
    as ([[q ins] outs] & h' & E & HP).
  - iIntros "_". iApply wp_client_run; [done.. |]. by iApply (queue_empty None (a_open limit 0 kick)).
  - apply (entails_at ([∗ map] x ↦ v ∈ ∅, x ↦ v)%I); [| apply big_sepM_holds]. by rewrite big_sepM_empty.
  - apply holds_exist in HP as [a HP]. apply holds_pure in HP as [Hc HP]. by exists q, ins, outs, h', a.
Qed.
End Client.

(** Five operations; the first read splits a block. *)
Lemma queue_fifo_witness :
  let ops := [OpBwrite [1; 2; 3]; OpRead 2; OpIwrite [4]; OpBread 2; OpGet] in
  keeps false ops /\
  exists q ins outs h' a, @client_run zero_host (qopen 9 0 false) ops ∅ = Ok (q, ins, outs) h' /\
    holds (queue q a) h' /\ ins = outs ++ contents a.
Proof.
  intros ops. assert (keeps false ops) as Hk by (simpl; lia). split; [exact Hk |].
  exact (@queue_fifo zero_host 9 false ops Hk).
Defined.
