(* ===== verification/QioConc.v ===== *)
(** * A reader and a writer of a queue at once

    [qbread] and [qbwrite] (emu/qio.c) run in different processes and meet in
    the queue's locks and in [Sleep] and [Wakeup] (emu/proc.c).  Here each is a
    sequence of atomic steps, cut where the code releases a lock or tests the
    queue without one, and the two interleave freely with each other and with
    [qhangup].  ([rlock] and [wlock] leave one reader and one writer.)

    The writer sets [Qflow] without the lock that all other changes of
    [q->state] hold.  Where [q->state |= Qflow] is one step, no wakeup is lost
    on message queues.  Where it is a load and a store, the store can undo what
    the reader or a hangup did in between, and a wakeup is lost.  On byte
    streams one can be in any case: a reader that puts back the rest of a block
    can fill the queue again between a writer's announcement that it will sleep
    and its sleep.

    ([qnotfull] loads [q->len] and then [q->state].  One step is enough for it:
    only the reader makes the queue shorter and nothing here reopens it, so that
    the test comes out as it would have at one of the two loads.) *)

From S2P Require Import Prelude Heap Block Qio AQueue.

#[local] Open Scope Z_scope.

(** Where a process is in [qbread]. *)
Inductive reader :=
  | RIdle
  | RTry (n : Z)                               (* about to look at the queue *)
  | RDrowsy (n : Z)                            (* found it empty, about to [Sleep] *)
  | RAsleep (n : Z)
  | RTaken (n : Z) (d : list Z) (w : bool)     (* has the first block, between the two locks *)
  | RWake (w : bool).                          (* about to wake the writer, or not *)

(** Where a process is in [qbwrite]. *)
Inductive writer :=
  | WIdle
  | WTry (d : list Z)                          (* about to test [qnotfull] *)
  | WFull (d : list Z)                         (* found it full, about to load [q->state] *)
  | WOr (d : list Z) (starve closed : bool)    (* has loaded [q->state], about to store it with [Qflow] *)
  | WDrowsy (d : list Z)                       (* has set [Qflow], about to [Sleep] *)
  | WAsleep (d : list Z)
  | WCommit (d : list Z)                       (* about to take the lock *)
  | WNotify (w : bool).                        (* about to wake the reader, or not *)

Record sys := Sys { aq : AQueue; rd : reader; wr : writer }.

(** [Sleep(r, f, arg)] tests the condition holding the rendezvous' lock;
    [Wakeup(r)] readies whoever sleeps there, and is forgotten otherwise. *)
Definition Sleep {P} (f : bool) (return_ sleep : P) : P := if f then return_ else sleep.

Definition Wakeup_reader (r : reader) : reader :=
  match r with RAsleep n => RTry n | r => r end.
Definition Wakeup_writer (w : writer) : writer :=
  match w with WAsleep d => WTry d | w => w end.

Definition a_notempty (a : AQueue) : bool :=
  a_closed a || negb (match a_blocks a with [] => true | _ => false end).

Inductive label :=
  | Read (n : Z)             (* the reader calls [qbread(q, n)] *)
  | RStep                    (* the reader's next step *)
  | Write (d : list Z)       (* the writer calls [qbwrite] with a block of [d] *)
  | WStep                    (* the writer's next step *)
  | Hangup (msg : list Z).

Definition reader_step (s : sys) : option sys :=
  let a := aq s in
  match rd s with
  | RIdle | RAsleep _ => None
  | RTry n =>
      let '(a, w, r) := a_bread_first a in
      Some (Sys a (match r with
                   | RBlock d => RTaken n d w
                   | RSleep => RDrowsy n
                   | _ => RIdle
                   end) (wr s))
  | RDrowsy n => Some (Sys a (Sleep (a_notempty a) (RTry n) (RAsleep n)) (wr s))
  | RTaken n d w => Some (Sys (a_bread_split a d n) (RWake w) (wr s))
  | RWake w => Some (Sys a RIdle (if w then Wakeup_writer (wr s) else wr s))
  end.

(** [q->state |= Qflow] stores what was loaded. *)
Definition store_state (starve closed : bool) (a : AQueue) : AQueue :=
  aset_flow true (aset_closed closed (aset_starve starve a)).

(** [whole]: nothing comes between the load and the store of [|=]. *)
Definition writer_step (whole : bool) (s : sys) : option sys :=
  let a := aq s in
  match wr s with
  | WIdle | WAsleep _ => None
  | WTry d =>
      if a_notfull a then Some (Sys a (rd s) (WCommit d))
      else Some (Sys a (rd s) (WFull d))
  | WFull d =>
      if a_noblock a then Some (Sys a (rd s) WIdle)
      else if whole then Some (Sys (store_state (a_starve a) (a_closed a) a) (rd s) (WDrowsy d))
      else Some (Sys a (rd s) (WOr d (a_starve a) (a_closed a)))
  | WOr d starve closed => Some (Sys (store_state starve closed a) (rd s) (WDrowsy d))
  | WDrowsy d => Some (Sys a (rd s) (Sleep (a_notfull a) (WTry d) (WAsleep d)))
  | WCommit d =>
      if a_closed a then Some (Sys a (rd s) WIdle)
      else let '(a, w) := a_unstarve (a_enqueue a d) in Some (Sys a (rd s) (WNotify w))
  | WNotify w => Some (Sys a (if w then Wakeup_reader (rd s) else rd s) WIdle)
  end.

Definition exec (whole : bool) (l : label) (s : sys) : option sys :=
  match l with
  | Read n => match rd s with RIdle => Some (Sys (aq s) (RTry n) (wr s)) | _ => None end
  | RStep => reader_step s
  | Write d => match wr s with WIdle => Some (Sys (aq s) (rd s) (WTry d)) | _ => None end
  | WStep => writer_step whole s
  | Hangup msg =>
      Some (Sys (a_hangup (aq s) msg).1.1 (Wakeup_reader (rd s)) (Wakeup_writer (wr s)))
  end.

Fixpoint exec_all (whole : bool) (ls : list label) (s : sys) : option sys :=
  match ls with [] => Some s | l :: ls => exec whole l s ≫= exec_all whole ls end.

(** Blocks are not larger than memory, reads not negative. *)
Definition label_ok (l : label) : Prop :=
  match l with
  | Read n => 0 <= n
  | Write d => zlen d <= 2 ^ 30
  | _ => True
  end.

(** What a fresh queue can come to. *)
Inductive reach (whole : bool) (a : AQueue) : sys -> Prop :=
  | reach_refl : reach whole a (Sys a RIdle WIdle)
  | reach_step s l s' : reach whole a s -> label_ok l -> exec whole l s = Some s' -> reach whole a s'.

Lemma reach_run whole a ls s s' :
  reach whole a s -> Forall label_ok ls -> exec_all whole ls s = Some s' -> reach whole a s'.
Proof.
  revert s. induction ls as [|l ls IH]; intros s Hs Hok E; simpl in E; [by simplify_eq |].
  apply Forall_cons in Hok as [? ?]. destruct (exec whole l s) as [s1 |] eqn:E1; [| done].
  eapply IH; [by eapply reach_step | done | done].
Qed.

(** ** Undisturbed, the steps are the operations *)

Section Solo.
Implicit Types (a : AQueue).

Lemma kicked_wakes w a e : bool_decide (e ∈ a_kicked w a e) = w.
Proof.
  unfold a_kicked. destruct w; [apply bool_decide_true | done].
  apply list_elem_of_In, in_or_app. right. by left.
Qed.

(** A reader that nobody interrupts does what [qbread] does. *)
Lemma solo_reader whole a n w :
  a_blocks a <> [] ->
  exec_all whole [RStep; RStep; RStep] (Sys a (RTry n) w) =
  let '(a', ev, _) := a_bread a n in
  Some (Sys a' RIdle (if bool_decide (WakeWriter ∈ ev) then Wakeup_writer w else w)).
Proof.
  intros Hne. destruct (a_blocks a) as [|d ds] eqn:E; [done |].
  destruct (a_remove a d ds) as [a' wk] eqn:E'.
  assert (a_bread_first a = (a', wk, RBlock d)) as E1 by by rewrite /a_bread_first E E'.
  assert (reader_step (Sys a (RTry n) w) = Some (Sys a' (RTaken n d wk) w)) as E2
    by by rewrite /reader_step /= E1.
  rewrite /a_bread E1 kicked_wakes /= E2. reflexivity.
Qed.

(** A writer that nobody interrupts does what [qbwrite] does. *)
Lemma solo_writer whole a d r :
  a_notfull a = true ->
  exec_all whole [WStep; WStep] (Sys a r (WTry d)) =
  match a_bwrite a d with
  | (a', ev, RInt _) => Some (Sys a' r (WNotify (bool_decide (WakeReader ∈ ev))))
  | (a', ev, _) => Some (Sys a' r WIdle)
  end.
Proof.
  intros Hn. unfold a_bwrite. rewrite Hn /=.
  assert (writer_step whole (Sys a r (WTry d)) = Some (Sys a r (WCommit d))) as ->
    by by rewrite /writer_step /= Hn.
  simpl. unfold writer_step. simpl. destruct (a_closed a); simpl; [done |].
  destruct (a_unstarve (a_enqueue a d)) as [a' wk]. simpl. by rewrite kicked_wakes.
Qed.
End Solo.

(** ** Message queues *)

Section Invariant.
Variable L : Z.
Hypothesis HL : 2 <= L <= 2 ^ 30.

Definition waking_writer (r : reader) : Prop :=
  match r with RTaken _ _ true | RWake true => True | _ => False end.

Definition reader_ok (s : sys) : Prop :=
  match rd s with
  | RDrowsy _ => a_starve (aq s) = true \/ a_notempty (aq s) = true
  | RAsleep _ => a_closed (aq s) = false /\
      (a_starve (aq s) = true /\ a_blocks (aq s) = [] \/ wr s = WNotify true)
  | _ => True
  end.

Definition writer_ok (s : sys) : Prop :=
  match wr s with
  | WTry d | WFull d => zlen d <= 2 ^ 30
  | WOr _ _ _ => False
  | WDrowsy d => zlen d <= 2 ^ 30 /\ (a_flow (aq s) = true \/ a_notfull (aq s) = true)
  | WCommit d => zlen d <= 2 ^ 30 /\ (a_closed (aq s) = true \/ zlen (contents (aq s)) < L)
  | WAsleep d => zlen d <= 2 ^ 30 /\ a_closed (aq s) = false /\
      (a_flow (aq s) = true /\ L / 2 <= zlen (contents (aq s)) \/ waking_writer (rd s))
  | _ => True
  end.

Definition inv (s : sys) : Prop :=
  a_msg (aq s) = true /\ a_limit (aq s) = L /\
  a_len (aq s) = zlen (contents (aq s)) /\ zlen (contents (aq s)) < 2 ^ 31 /\
  reader_ok s /\ writer_ok s.

Lemma quot_half : Z.quot L 2 = L / 2.
Proof using HL. apply Z.quot_div_nonneg; lia. Qed.

Lemma half_bounds : 1 <= L / 2 < L.
Proof using HL. split; [apply Z.div_le_lower_bound; lia | apply Z.div_lt_upper_bound; lia]. Qed.

Lemma notfull_spec a :
  a_limit a = L -> a_notfull a = true <-> a_len a < L \/ a_closed a = true.
Proof. intros <-. unfold a_notfull. by rewrite orb_true_iff Z.ltb_lt. Qed.

(** Taking the first block out. *)
Lemma remove_facts a d ds :
  a_limit a = L -> a_blocks a = d :: ds -> a_len a = zlen (contents a) -> zlen (contents a) < 2 ^ 31 ->
  let a' := (a_remove a d ds).1 in
  let wk := (a_remove a d ds).2 in
  a_msg a' = a_msg a /\ a_limit a' = L /\ a_closed a' = a_closed a /\
  a_len a' = zlen (contents a') /\ zlen (contents a') <= zlen (contents a) /\
  (if wk then zlen (contents a') < L / 2
   else a_flow a' = a_flow a /\ (a_flow a = true -> L / 2 <= zlen (contents a'))).
Proof using HL.
  intros Hl Hb Hlen Hc. pose proof half_bounds.
  assert (a_len a - zlen d = zlen (concat ds)) as E.
  { rewrite Hlen /contents Hb /= length_app. lia. }
  assert (zlen (contents a) = zlen d + zlen (concat ds)) as E'.
  { rewrite /contents Hb /= length_app. lia. }
  unfold a_remove, a_restart. rewrite E wraps_id /=; [| lia | lia]. rewrite Hl quot_half.
  destruct (a_flow a) eqn:Hf; simpl; [destruct (Z.ltb_spec (zlen (concat ds)) (L / 2)) |]; simpl;
    unfold contents in *; simpl; split_and!; (done || lia).
Qed.

(** The writer, when the reader leaves with fewer bytes in the queue. *)
Lemma writer_ok_remove a d ds n w :
  a_limit a = L -> a_blocks a = d :: ds -> a_len a = zlen (contents a) -> zlen (contents a) < 2 ^ 31 ->
  writer_ok (Sys a (RTry n) w) ->
  writer_ok (Sys (a_remove a d ds).1 (RTaken n d (a_remove a d ds).2) w).
Proof using HL.
  intros Hl Hb Hlen Hc Hw. pose proof half_bounds.
  pose proof (remove_facts a d ds Hl Hb Hlen Hc) as Hf.
  destruct (a_remove a d ds) as [a' wk]. simpl in Hf.
  destruct Hf as (Hm' & Hl' & Hcl & Hlen' & Hle & Hwk).
  destruct w as [| d' | d' | d' ? ? | d' | d' | d' | w]; unfold writer_ok in *; simpl in *; try done.
  - destruct Hw as [? Hw]. split; [done |]. rewrite !notfull_spec // in Hw |- *.
    destruct wk; [right; left; lia |]. destruct Hwk as [-> _].
    destruct Hw as [?|[?|?]]; [by left | right; left; lia | right; right; congruence].
  - destruct Hw as (? & Hcl' & [[Hfl ?]|[]]). split_and!; [done | congruence |].
    destruct wk; [by right |]. left. destruct Hwk as [-> Hwk]. auto.
  - destruct Hw as [? [?|?]]; (split; [done |]); [left; congruence | right; lia].
Qed.

Lemma inv_bread_first a n w s' :
  inv (Sys a (RTry n) w) -> reader_step (Sys a (RTry n) w) = Some s' -> inv s'.
Proof using HL.
  intros (Hm & Hl & Hlen & Hb & Hr & Hw) E. simpl in *.
  unfold reader_step in E. simpl in E. unfold a_bread_first in E.
  destruct (a_blocks a) as [|d ds] eqn:Ea.
  - destruct (a_closed a) eqn:Hc.
    + destruct (3 <? a_eof (aset_eof (a_eof a + 1) a)); simplify_eq/=; unfold inv; simpl; split_and!; try done;
        destruct w; unfold writer_ok in *; simpl in *; intuition.
    + simplify_eq/=.
      assert (reader_ok (Sys (aset_starve true a) (RDrowsy n) w)) by (unfold reader_ok; simpl; by left).
      unfold inv; simpl; split_and!; done.
  - pose proof (remove_facts a d ds Hl Ea Hlen Hb) as Hf.
    pose proof (writer_ok_remove a d ds n w Hl Ea Hlen Hb Hw) as Hw'.
    destruct (a_remove a d ds) as [a' wk]. simpl in *. simplify_eq/=.
    destruct Hf as (Hm' & Hl' & Hcl & Hlen' & Hle & _).
    unfold inv; simpl; split_and!; (done || lia || congruence).
Qed.

Lemma notempty_false a : a_notempty a = false -> a_closed a = false /\ a_blocks a = [].
Proof.
  unfold a_notempty. destruct (a_closed a); simpl; [done |]. by destruct (a_blocks a).
Qed.

Lemma inv_reader s s' : inv s -> reader_step s = Some s' -> inv s'.
Proof using HL.
  destruct s as [a r w]. intros Hi E.
  destruct r as [| n | n | n | n d wk | wk]; [done | by eapply inv_bread_first | | done | | ];
    unfold reader_step in E; destruct Hi as (Hm & Hl & Hlen & Hb & Hr & Hw); simpl in *; simplify_eq/=.
  - unfold Sleep. destruct (a_notempty a) eqn:Hne; [by unfold inv; simpl; split_and! |].
    destruct (notempty_false a Hne) as [Hc He].
    unfold inv; simpl; split_and!; try done. unfold reader_ok in *. simpl in *.
    destruct Hr as [Hr | Hr]; [auto | congruence].
  - assert (a_bread_split a d n = a) as -> by by rewrite /a_bread_split Hm andb_false_r.
    unfold inv; simpl; split_and!; try done.
  - unfold inv; simpl; split_and!; try done.
    destruct wk; destruct w; unfold writer_ok in *; simpl in *; tauto.
Qed.

Lemma inv_commit a r d s' :
  inv (Sys a r (WCommit d)) -> writer_step true (Sys a r (WCommit d)) = Some s' -> inv s'.
Proof using HL.
  intros (Hm & Hl & Hlen & Hb & Hr & Hw) E. unfold writer_step in E. simpl in *.
  destruct Hw as [Hd Hw]. destruct (a_closed a) eqn:Hc.
  - simplify_eq/=. unfold inv; simpl; split_and!; try done.
    destruct r; unfold reader_ok in *; simpl in *; try done. destruct Hr; congruence.
  - simpl in Hw. destruct Hw as [? | Hw]; [congruence |].
    pose proof (contents_insert a d) as Hcon. pose proof (unstarve_len (a_enqueue a d)) as Hle.
    pose proof (unstarve_msg (a_enqueue a d)) as Hms. pose proof (unstarve_blocks (a_enqueue a d)) as Hbl.
    assert (a_limit (a_unstarve (a_enqueue a d)).1 = L /\ a_closed (a_unstarve (a_enqueue a d)).1 = false /\
            (a_unstarve (a_enqueue a d)).2 = a_starve a) as (Hl' & Hc' & Hwk).
    { unfold a_unstarve. simpl. by destruct (a_starve a). }
    destruct (a_unstarve (a_enqueue a d)) as [a' wk]. simpl in *. simplify_eq/=.
    assert (a_len a' = zlen (contents a')) as Hlen'.
    { rewrite Hle Hcon Hlen length_app wraps_id; lia. }
    unfold inv; simpl; split_and!; try done; [congruence | rewrite Hcon length_app; lia |].
    destruct r; unfold reader_ok in *; simpl in *; try done.
    + right. rewrite /a_notempty Hbl. destruct (a_blocks a); simpl; by rewrite orb_true_r.
    + split; [done |]. right. destruct Hr as [_ [[? _] | ?]]; [congruence | done].
Qed.

Lemma inv_writer s s' : inv s -> writer_step true s = Some s' -> inv s'.
Proof using HL.
  destruct s as [a r w]. intros Hi E. pose proof half_bounds.
  destruct w as [| d | d | d ? ? | d | d | d | wk]; [done | | | by destruct Hi as (_ & _ & _ & _ & _ & []) | | done | by eapply inv_commit | ];
    unfold writer_step in E; destruct Hi as (Hm & Hl & Hlen & Hb & Hr & Hw); simpl in *.
  - assert (forall w', reader_ok (Sys a r (WTry d)) -> reader_ok (Sys a r w')) as Hr'.
    { intros w'. destruct r; unfold reader_ok; simpl; try done. intros [? [?|?]]; auto. done. }
    destruct (a_notfull a) eqn:Hn; simplify_eq/=; unfold inv; simpl; split_and!; eauto; try done.
    split; [done |]. apply notfull_spec in Hn; [| done]. simpl. rewrite -Hlen. tauto.
  - assert (forall w', reader_ok (Sys a r (WFull d)) -> reader_ok (Sys a r w')) as Hr'.
    { intros w'. destruct r; unfold reader_ok; simpl; try done. intros [? [?|?]]; auto. done. }
    destruct (a_noblock a); simplify_eq/=; unfold inv; simpl; split_and!; eauto; try done.
    + apply (Hr' _ Hr).
    + split; [done |]. by left.
  - unfold Sleep in E. simplify_eq/=. destruct Hw as [Hd Hw]. simpl in Hw.
    assert (forall w', reader_ok (Sys a r (WDrowsy d)) -> reader_ok (Sys a r w')) as Hr'.
    { intros w'. destruct r; unfold reader_ok; simpl; try done. intros [? [?|?]]; auto. done. }
    unfold inv; simpl; split_and!; eauto.
    destruct (a_notfull a) eqn:Hn; [done |]. unfold writer_ok. simpl.
    destruct Hw as [Hw | ?]; [| congruence].
    unfold a_notfull in Hn. apply orb_false_iff in Hn as [Hn%Z.ltb_ge Hc].
    split_and!; [done | done |]. left. split; [done | lia].
  - simplify_eq/=. unfold inv; simpl; split_and!; try done.
    destruct wk; destruct r; unfold reader_ok in *; simpl in *; try done.
    destruct Hr as [? [?|?]]; auto. done.
Qed.

Lemma inv_exec l s s' : inv s -> label_ok l -> exec true l s = Some s' -> inv s'.
Proof using HL.
  destruct s as [a r w]. intros Hi Hl E. destruct l as [n | | d | | msg]; simpl in *.
  - destruct r; simplify_eq/=. destruct Hi as (? & ? & ? & ? & ? & Hw).
    unfold inv; simpl; split_and!; try done. 
  - by eapply inv_reader.
  - destruct w; simplify_eq/=. destruct Hi as (? & ? & ? & ? & Hr & Hw).
    unfold inv; simpl; split_and!; try done.
    destruct r; unfold reader_ok in *; simpl in *; try done. destruct Hr as [? [?|?]]; auto. done.
  - by eapply inv_writer.
  - simplify_eq/=. destruct Hi as (? & ? & ? & ? & Hr & Hw).
    unfold inv; simpl; split_and!; try done.
    + destruct r; unfold reader_ok in *; simpl in *; try done. by right.
    + destruct w; unfold writer_ok in *; simpl in *; try tauto.
      destruct Hw. split; [done |]. right. by rewrite /a_notfull /= orb_true_r.
Qed.

Lemma inv_reach a s : inv (Sys a RIdle WIdle) -> reach true a s -> inv s.
Proof using HL. intros Hi. induction 1 as [| s l s' _ IH Hl E]; [done | by eapply inv_exec]. Qed.

End Invariant.

(** C16. No wakeup of a message queue is lost where [q->state |= Qflow] is one
    step.  In whatever way a reader, a writer and hangups then interleave on a
    queue that [qopen] made with a limit of 2 to [2 ^ 30], blocks being no larger
    than that, a reader is asleep only while the queue is empty and open, or the
    writer is about to wake it; a writer is asleep only while the queue is open
    and at least half full, or the reader is about to wake it; and never are both
    asleep.  (See [message_queue_lost_wakeup] for a load and a store.) *)
Theorem message_queue_wakeups L kick s
    (HL : 2 <= L <= 2 ^ 30) (Hreach : reach true (a_open L 1 kick) s) :
  (forall n, rd s = RAsleep n ->
     a_blocks (aq s) = [] /\ a_closed (aq s) = false \/ wr s = WNotify true) /\
  (forall d, wr s = WAsleep d ->
     L / 2 <= zlen (contents (aq s)) /\ a_closed (aq s) = false \/ waking_writer (rd s)) /\
  (forall n d, rd s = RAsleep n -> wr s <> WAsleep d).
Proof.
  pose proof (half_bounds L HL) as Hh.
  assert (inv L s) as (_ & _ & _ & _ & Hr & Hw).
  { eapply inv_reach; [done | | done]. unfold inv. simpl. split_and!; done. }
  unfold reader_ok, writer_ok in *. split_and!.
  - intros n En. rewrite En in Hr. tauto.
  - intros d Ed. rewrite Ed in Hw. tauto.
  - intros n d En Ed. rewrite En Ed in Hr, Hw.
    destruct Hr as [_ [[_ He] | ?]]; [| done]. destruct Hw as (_ & _ & [[_ Hc] | []]).
    rewrite /contents He /= in Hc. lia.
Qed.

Lemma message_queue_wakeups_witness :
  let s := Sys (MkAQueue [[1; 2; 3]] 3 2 2 false true false true false 0 false []) RIdle (WAsleep [4]) in
  reach true (a_open 2 1 false) s /\
  (2 / 2 <= zlen (contents (aq s)) /\ a_closed (aq s) = false \/ False).
Proof.
  assert (reach true (a_open 2 1 false)
    (Sys (MkAQueue [[1; 2; 3]] 3 2 2 false true false true false 0 false []) RIdle (WAsleep [4]))) as Hr.
  { eapply (reach_run true _ [Write [1; 2; 3]; WStep; WStep; WStep; Write [4]; WStep; WStep; WStep]);
      [constructor | repeat constructor; simpl; lia | reflexivity]. }
  split; [exact Hr |].
  exact (proj1 (proj2 (message_queue_wakeups 2 false _ ltac:(lia) Hr)) [4] eq_refl).
Defined.

(** C19. Where [q->state |= Qflow] is a load and a store, a wakeup of a message
    queue can be lost.  The writer finds the queue full and loads the state; the
    reader empties the queue, announces that it will wait, and sleeps; the store
    of the writer takes the announcement back.  What is written from then on
    wakes nobody: the reader sleeps while messages wait, and when the queue is
    full again the writer sleeps as well, for good. *)
Theorem message_queue_lost_wakeup :
  exists s n d, reach false (a_open 2 1 false) s /\
    rd s = RAsleep n /\ a_blocks (aq s) <> [] /\ a_closed (aq s) = false /\ wr s = WAsleep d /\
    reader_step s = None /\ writer_step false s = None.
Proof.
  exists (Sys (MkAQueue [[4]; [5]] 2 2 2 false true false true false 0 false []) (RAsleep 1) (WAsleep [6])), 1, [6].
  split_and!; try done.
  eapply (reach_run false _ [Write [1; 2]; WStep; WStep; WStep; Write [4]; WStep; WStep;
                             Read 1; RStep; RStep; RStep; Read 1; RStep; RStep;
                             WStep; WStep; WStep; WStep; WStep; Write [5]; WStep; WStep; WStep;
                             Write [6]; WStep; WStep; WStep; WStep]);
    [constructor | repeat constructor; simpl; lia | reflexivity].
Qed.

(** ** Byte streams *)

(** C20. On a byte stream a wakeup can be lost.  The writer finds the queue
    full and announces that it will sleep; the reader takes out the only
    block, sees the announcement and clears it, puts back all but a byte, and
    wakes nobody, the writer not being asleep yet; then the writer tests again,
    finds the queue full again, and sleeps.  The reader empties the queue and
    waits for more: both are asleep on an empty, open queue. *)
Theorem stream_queue_lost_wakeup :
  exists s n d, reach true (a_open 4 0 false) s /\
    rd s = RAsleep n /\ wr s = WAsleep d /\ a_blocks (aq s) = [] /\ a_closed (aq s) = false /\
    reader_step s = None /\ writer_step true s = None.
Proof.
  exists (Sys (MkAQueue [] 0 4 4 true false false false false 0 false []) (RAsleep 1) (WAsleep [9])), 1, [9].
  split_and!; try done.
  eapply (reach_run true _ [Write [1; 2; 3; 4; 5; 6]; WStep; WStep; WStep; Write [9]; WStep; WStep;
                       Read 1; RStep; RStep; RStep; WStep;
                       Read 9; RStep; RStep; RStep; Read 1; RStep; RStep]);
    [constructor | repeat constructor; simpl; lia | reflexivity].
Qed.
