(* ===== verification/Dis.v ===== *)
(** * The Dis object format (include/isa.h, limbo/dis.c)

    The constants both sides share, and the compiler's side: how [limbo/dis.c]
    writes instructions, type descriptors, the initial data and the links of a
    module.  An emitter answers with the bytes it puts out, or [None] where the
    compiler gives up ([fatal]). *)

From S2P Require Import Prelude Bytes.

#[local] Open Scope Z_scope.

(** ** include/isa.h *)

Definition XMAGIC : Z := 819248.
Definition SMAGIC : Z := 923426.

Definition AMP : Z := 0.
Definition AFP : Z := 1.
Definition AIMM : Z := 2.
Definition AXXX : Z := 3.
Definition AIND : Z := 4.
Definition AMASK : Z := 7.

Definition ARM : Z := 192.
Definition AXNON : Z := 0.
Definition AXIMM : Z := 64.
Definition AXINF : Z := 128.
Definition AXINM : Z := 192.

Definition DEFB : Z := 1.
Definition DEFW : Z := 2.
Definition DEFS : Z := 3.
Definition DEFF : Z := 4.
Definition DEFA : Z := 5.
Definition DIND : Z := 6.
Definition DAPOP : Z := 7.
Definition DEFL : Z := 8.

Definition DADEPTH : nat := 4.

Definition MUSTCOMPILE : Z := Z.shiftl 1 0.
Definition DONTCOMPILE : Z := Z.shiftl 1 1.

Definition IBY2WD : Z := 4.
Definition IBY2LG : Z := 8.

Definition DTYPE (x : Z) : Z := Z.shiftr x 4.
Definition DBYTE (x l : Z) : Z := Z.lor (Z.shiftl x 4) l.
Definition DMAX : Z := Z.shiftl 1 4.
Definition DLEN (x : Z) : Z := Z.land x (DMAX - 1).

Definition SRC (x : Z) : Z := Z.shiftl x 3.
Definition DST (x : Z) : Z := Z.shiftl x 0.
Definition UXSRC (x : Z) : Z := Z.land x (Z.shiftl AMASK 3).
Definition UXDST (x : Z) : Z := Z.land x (Z.shiftl AMASK 0).

(** ** Emitting *)

Definition out : Type := option (list Z).

Definition emit (bs : list Z) : out := Some (map u8 bs).
Definition emits (a b : out) : out :=
  match a, b with Some x, Some y => Some (x ++ y) | _, _ => None end.
Infix "+++" := emits (at level 60, right associativity) : inferno_scope.
#[local] Open Scope inf.
Definition nothing : out := Some [].

(** [discon], and [disbcon], which writes the same into its own buffer. *)
Definition discon (val : Z) : out :=
  if (-64 <=? val) && (val <=? 63) then emit [Z.land val (Z.lnot 0x80)]
  else if (-8192 <=? val) && (val <=? 8191) then
    emit [Z.lor (Z.land (Z.shiftr val 8) (Z.lnot 0xC0)) 0x80; val]
  else if ((val <? 0) && negb (Z.land (Z.shiftr val 29) 7 =? 7)) ||
          ((0 <? val) && negb (Z.shiftr val 29 =? 0)) then None
  else emit [Z.lor (Z.shiftr val 24) 0xC0; Z.shiftr val 16; Z.shiftr val 8; val].

Definition disbcon := discon.

Definition disword (w : Z) : out :=
  emit [Z.shiftr w 24; Z.shiftr w 16; Z.shiftr w 8; w].

Definition disdata (kind n : Z) : out :=
  if (n <? DMAX) && negb (n =? 0) then emit [DBYTE kind n]
  else emit [DBYTE kind 0] +++ discon n.

(** ** Instructions *)

Inductive amode := Aimm | Amp | Ampind | Afp | Afpind | Apc | Adesc | Aoff | Aerr | Anone.

#[global] Instance amode_eq_dec : EqDecision amode.
Proof. solve_decision. Defined.

(** [iface] is [a->decl->iface->offset]. *)
Record Addr := MkAddr { reg : Z; offset : Z; iface : Z }.

Record Inst := MkInst { op : Z; sm : amode; mm : amode; dm : amode; s : Addr; m : Addr; d : Addr }.

Definition dismode (a : amode) : Z :=
  match a with
  | Aimm => AIMM
  | Amp => AMP
  | Ampind => Z.lor AMP AIND
  | Afp => AFP
  | Afpind => Z.lor AFP AIND
  | Apc => AIMM
  | Adesc => AIMM
  | Aoff => AIMM
  | Aerr => AXXX
  | Anone => AXXX
  end.

Definition disregmode (a : amode) : Z :=
  match a with
  | Aimm => AXIMM
  | Amp => AXINM
  | Ampind => AXNON
  | Afp => AXINF
  | Afpind => AXNON
  | Apc => AXIMM
  | Adesc => AXIMM
  | Aoff => AXIMM
  | Aerr => AXNON
  | Anone => AXNON
  end.

Definition disaddr (mode : amode) (a : Addr) : out :=
  match mode with
  | Aimm | Apc | Adesc => disbcon (offset a)
  | Aoff => disbcon (iface a)
  | Afp | Amp => disbcon (reg a)
  | Afpind | Ampind => disbcon (reg a) +++ disbcon (offset a)
  | Anone | Aerr => disbcon 0
  end.

Definition disinst1 (i : Inst) : out :=
  emit [op i; Z.lor (Z.lor (SRC (dismode (sm i))) (DST (dismode (dm i)))) (disregmode (mm i))] +++
  (if decide (mm i = Anone) then nothing else disaddr (mm i) (m i)) +++
  (if decide (sm i = Anone) then nothing else disaddr (sm i) (s i)) +++
  (if decide (dm i = Anone) then nothing else disaddr (dm i) (d i)).

(** (The instructions go through a buffer of [NIBUF] bytes, written out before
    it is full.) *)
Fixpoint disinst (l : list Inst) : out :=
  match l with [] => nothing | i :: l => disinst1 i +++ disinst l end.

(** ** Type descriptors *)

Record Desc := MkDesc { desc_id : Z; desc_size : Z; desc_map : list Z }.

Fixpoint disdesc (ds : list Desc) : out :=
  match ds with
  | [] => nothing
  | d :: ds =>
      discon (desc_id d) +++ discon (desc_size d) +++ discon (zlen (desc_map d)) +++
      emit (desc_map d) +++ disdesc ds
  end.

(** ** Links *)

(** An entry of [dismod]: a global of the module's interface ([Dglobal]), or a
    function: its pc, frame descriptor, signature and name, the name of the
    adt before it if it has one. *)
Inductive link :=
  | Lglobal (sig : Z)
  | Lfn (pc desc sig : Z) (adt : option (list Z)) (name : list Z).

Definition NAMELEN : Z := 28.

Definition dot_mp : list Z := [46; 109; 112].   (* .mp *)

Definition link_name (adt : option (list Z)) (name : list Z) : list Z :=
  match adt with Some a => a ++ [46] | None => [] end ++ name.

Definition dislink (l : link) : out :=
  match l with
  | Lglobal sig => discon (-1) +++ discon (-1) +++ disword sig +++ emit dot_mp +++ emit [0]
  | Lfn pc desc sig adt name =>
      discon pc +++ discon desc +++ disword sig +++ emit (link_name adt name) +++ emit [0]
  end.

Fixpoint dislinks (ls : list link) : out :=
  match ls with [] => nothing | l :: ls => dislink l +++ dislinks ls end.

(** [strncpy(name, m->sym->name, NAMELEN); name[NAMELEN-1] = 0] *)
Definition dismod (name : list Z) (ls : list link) : out :=
  emit (take (Z.to_nat (NAMELEN - 1)) name) +++ emit [0] +++ dislinks ls.

Definition disentry (e : option (Z * Z)) : out :=
  match e with
  | None => discon (-1) +++ discon (-1)
  | Some (pc, desc) => discon pc +++ discon desc
  end.

(** ** Initial data

    A datum is the value of an initialised global, as the compiler's node
    tree has it: the kinds are those [disdatum] distinguishes. *)
#[warnings="-register-all"]
Inductive datum :=
  | Tbyte (v : Z)
  | Tint (v : Z)
  | Tbig (v : Z)
  | Tstring (s : list Z)
  | Treal (w0 w1 : Z)                                  (* the words of [dtocanon] *)
  | Ttuple (fields : list (Z * datum))                 (* and adts: offset of each field *)
  | Tany
  | Tcase (labs : list (Z * Z * Z)) (wild : Z)         (* start, stop, pc *)
  | Tcasec (labs : list (list Z * option (list Z) * Z)) (wild : Z)
  | Tgoto (size : Z) (labs : list Z) (wild : option Z)
  | Tarray (tid esz len : Z) (elems : option (list (Z * Z * datum) * option datum))
  | Tiface (n : Z) (ids : list (Z * option (list Z) * list Z)).

(** The cache that joins data of one kind at consecutive offsets; [ncached] is
    the length of [cache], [lencache] what is allocated for it. *)
Record dcache := MkCache {
  cache : list Z;
  ndatum : Z;
  startoff : Z;
  lastoff : Z;
  lastkind : Z;
  lencache : Z;
}.

(** What the data writers do: bytes put out and the new cache. *)
Definition dout : Type := dcache -> option (list Z * dcache).

Definition dnothing : dout := fun c => Some ([], c).
Definition dseq (a b : dout) : dout := fun c =>
  match a c with
  | Some (o1, c1) => match b c1 with Some (o2, c2) => Some (o1 ++ o2, c2) | None => None end
  | None => None
  end.
Infix ">>=>" := dseq (at level 60, right associativity) : inferno_scope.
Definition dput (o : out) : dout := fun c =>
  match o with Some bs => Some (bs, c) | None => None end.

(** The loop that makes room in the cache; two rounds are all it can take
    before it repeats itself. *)
Fixpoint grow (fuel : nat) (kind ncached size lencache : Z) : option Z :=
  match fuel with
  | O => None
  | S fuel =>
      if (0 <=? kind) && (lencache <=? ncached + size)
      then grow fuel kind ncached size (ncached + 1024) else Some lencache
  end.

Definition disflush (kind off size : Z) : dout := fun c =>
  let flushed :=
    if negb (kind =? lastkind c) || negb (off =? lastoff c) then
      let o := if negb (lastkind c =? -1) && (0 <? zlen (cache c))
               then disdata (lastkind c) (ndatum c) +++ discon (startoff c) +++ emit (cache c)
               else nothing in
      match o with
      | Some bs => Some (bs, MkCache [] 0 off (lastoff c) kind (lencache c))
      | None => None
      end
    else Some ([], c) in
  match flushed with
  | Some (bs, c) =>
      match grow 2 kind (zlen (cache c)) size (lencache c) with
      | Some len => Some (bs, MkCache (cache c) (ndatum c) (startoff c) (off + size) (lastkind c) len)
      | None => None
      end
  | None => None
  end.

(** [cache[ncached++] = ...; ndatum += n] *)
Definition dcached (bs : list Z) (n : Z) : dout := fun c =>
  if zlen (cache c) + zlen bs <=? lencache c then
    Some ([], MkCache (cache c ++ map u8 bs) (ndatum c + n) (startoff c) (lastoff c) (lastkind c)
                (lencache c))
  else None.

Definition word_bytes (w : Z) : list Z := [Z.shiftr w 24; Z.shiftr w 16; Z.shiftr w 8; w].

Definition disbyte (off v : Z) : dout := disflush DEFB off 1 >>=> dcached [v] 1.

Definition disbytes (off : Z) (v : list Z) : dout :=
  disflush DEFB off (zlen v) >>=> dcached v (zlen v).

Definition disint (off v : Z) : dout := disflush DEFW off IBY2WD >>=> dcached (word_bytes v) 1.

Definition disbig (off v : Z) : dout :=
  disflush DEFL off IBY2LG >>=>
  dcached (word_bytes (u32 (Z.shiftr v 32)) ++ word_bytes (u32 v)) 1.

Definition disreal (off w0 w1 : Z) : dout :=
  disflush DEFF off IBY2LG >>=> dcached (word_bytes w0 ++ word_bytes w1) 1.

Definition disstring (off : Z) (s : list Z) : dout :=
  disflush (-1) (-1) 0 >>=> dput (disdata DEFS (zlen s) +++ discon off +++ emit s).

(** [align] (limbo/types.c) rounds up. *)
Definition align (off n : Z) : Z := (off + n - 1) / n * n.

(** The words of a case table and of a goto table. *)
Fixpoint discase (off : Z) (labs : list (Z * Z * Z)) (wild : Z) : dout :=
  match labs with
  | [] => disint off wild
  | (start, stop, pc) :: labs =>
      disint off start >>=> disint (off + 4) (stop + 1) >>=> disint (off + 8) pc >>=>
      discase (off + 12) labs wild
  end.

Fixpoint discasec (off : Z) (labs : list (list Z * option (list Z) * Z)) (wild : Z) : dout :=
  match labs with
  | [] => disint off wild
  | (start, stop, pc) :: labs =>
      disstring off start >>=>
      match stop with Some s => disstring (off + 4) s | None => dnothing end >>=>
      disint (off + 8) pc >>=> discasec (off + 12) labs wild
  end.

Fixpoint disgoto (off : Z) (labs : list Z) (wild : option Z) : dout :=
  match labs with
  | [] => match wild with Some w => disint off w | None => dnothing end
  | pc :: labs => disint off pc >>=> disgoto (off + 4) labs wild
  end.

Fixpoint disiface (off : Z) (ids : list (Z * option (list Z) * list Z)) : dout :=
  match ids with
  | [] => dnothing
  | (sig, adt, name) :: ids =>
      let off := align off IBY2WD in
      disint off sig >>=>
      let off := off + IBY2WD in
      match adt with
      | Some a => disbytes off a >>=> disbyte (off + zlen a) 46
      | None => dnothing
      end >>=>
      let off := off + match adt with Some a => zlen a + 1 | None => 0 end in
      disbytes off name >>=> disbyte (off + zlen name) 0 >>=>
      disiface (off + zlen name + 1) ids
  end.

(** [for(; last <= e; last++) disdatum(esz*last, elem)], [n] rounds of it. *)
Fixpoint disrepeat (esz : Z) (elem : Z -> dout) (last : Z) (n : nat) : dout :=
  match n with
  | O => dnothing
  | S n => elem (esz * last) >>=> disrepeat esz elem (last + 1) n
  end.

Fixpoint disdatum (off : Z) (n : datum) : dout :=
  match n with
  | Tbyte v => disbyte off v
  | Tint v => disint off v
  | Tbig v => disbig off v
  | Tstring s => disstring off s
  | Treal w0 w1 => disreal off w0 w1
  | Ttuple fields =>
      (fix go fields := match fields with
       | [] => dnothing
       | (o, f) :: fields => disdatum (off + o) f >>=> go fields
       end) fields
  | Tany => dnothing
  | Tcase labs wild => disint off (zlen labs) >>=> discase (off + IBY2WD) labs wild
  | Tcasec labs wild => disint off (zlen labs) >>=> discasec (off + IBY2WD) labs wild
  | Tgoto size labs wild => disint off (Z.quot size IBY2WD - 1) >>=> disgoto (off + IBY2WD) labs wild
  | Tarray tid esz len elems =>
      disflush (-1) (-1) 0 >>=>
      dput (disdata DEFA 1 +++ discon off +++ disword tid +++ disword len) >>=>
      match elems with
      | None => dnothing
      | Some (labs, wild) =>
          dput (disdata DIND 1 +++ discon off +++ disword 0) >>=>
          let wilds (last e : Z) : dout :=
            match wild with
            | Some w => disrepeat esz (fun o => disdatum o w) last (Z.to_nat (e - last))
            | None => dnothing
            end in
          (fix go (last : Z) (labs : list (Z * Z * datum)) : dout := match labs with
           | [] => wilds last len
           | (start, stop, elem) :: labs =>
               wilds last start >>=>
               disrepeat esz (fun o => disdatum o elem) start (Z.to_nat (stop + 1 - start)) >>=>
               go (Z.max start (stop + 1)) labs
           end) 0 labs >>=>
          disflush (-1) (-1) 0 >>=>
          dput (disdata DAPOP 1 +++ discon 0)
      end
  | Tiface n ids => disint off n >>=> disiface (off + IBY2WD) ids
  end.

Fixpoint disglobals (ds : list (Z * datum)) : dout :=
  match ds with
  | [] => dnothing
  | (off, n) :: ds => disdatum off n >>=> disglobals ds
  end.

(** The globals that have an initial value, each with its offset. *)
Definition disvar (ds : list (Z * datum)) : out :=
  match (disglobals ds >>=> disflush (-1) (-1) 0 >>=> dput (emit [0]))
          (MkCache [] 0 0 0 (-1) 0) with
  | Some (bs, _) => Some bs
  | None => None
  end.

(** ** The whole module ([modcom], limbo/com.c) *)

Record object := MkObject {
  hints : Z;
  maxstack : Z;
  insts : list Inst;
  mpsize : Z;
  descs : list Desc;
  links : list link;
  entry : option (Z * Z);
  globals : list (Z * datum);
  name : list Z;
}.

Definition modcom (o : object) : out :=
  discon XMAGIC +++
  discon (hints o) +++
  discon (maxstack o) +++
  discon (zlen (insts o)) +++
  discon (mpsize o) +++
  discon (zlen (descs o)) +++
  discon (zlen (links o)) +++
  disentry (entry o) +++
  disinst (insts o) +++
  disdesc (descs o) +++
  disvar (globals o) +++
  dismod (name o) (links o).
