(* ===== verification/Load.v ===== *)
(** * Loading a Dis module (interp/load.c, interp/link.c)

    [parsemod] reads an object file from memory and builds the [Module] the
    interpreter runs.  It ends with the module, with an error ([goto bad], the
    message that [kwerrstr] records), or in a fault: a read past the bytes it
    was given, an array index or a store outside the structure it is meant
    for.  The module's initial data is the log of the stores that [parsemod]
    does, each into the module data or into an array it allocated. *)

From S2P Require Import Prelude Bytes Dis.

#[local] Open Scope Z_scope.

Module Load.

(** ** The loader's monad *)

Inductive kerr :=
  | EBadMagic | ESecurity | ENoMemory | EBadBranch | EHeapIdRange | EBadDescForMp
  | EBadDataItem | EBadArrayType | EIndNotArray | EArrayInitRange | EPopRange | ECompilerRequired.

#[global] Instance kerr_eq_dec : EqDecision kerr.
Proof. solve_decision. Defined.

Inductive outcome (A : Type) :=
  | LOk (a : A) (rest : list Z)
  | LBad (e : kerr)
  | LFault.
Arguments LOk {A} a rest.
Arguments LBad {A} e.
Arguments LFault {A}.

Definition ld (A : Type) : Type := list Z -> outcome A.

#[export] Instance ld_ret : MRet ld := fun A a s => LOk a s.
#[export] Instance ld_bind : MBind ld := fun A B k m s =>
  match m s with LOk a s' => k a s' | LBad e => LBad e | LFault => LFault end.

Definition bad {A} (e : kerr) : ld A := fun _ => LBad e.
Definition fault {A} : ld A := fun _ => LFault.
Definition guard_bad (b : bool) (e : kerr) : ld unit := if b then mret tt else bad e.
Definition guard_fault (b : bool) : ld unit := if b then mret tt else fault.

(** [*istream++] *)
Definition byte : ld Z :=
  fun s => match s with b :: s => LOk b s | [] => LFault end.

(** [memmove(dst, istream, n); istream += n] *)
Definition bytes_ (n : Z) : ld (list Z) :=
  fun s => if (0 <=? n) && (n <=? zlen s)
           then LOk (take (Z.to_nat n) s) (drop (Z.to_nat n) s) else LFault.

(** A string up to its NUL, which is skipped. *)
Fixpoint cstring (s : list Z) : outcome (list Z) :=
  match s with
  | [] => LFault
  | b :: s =>
      if b =? 0 then LOk [] s
      else match cstring s with
           | LOk t s => LOk (b :: t) s
           | r => r
           end
  end.

(** [for(i = 0; i < n; i++) m(i)], with the results of the rounds. *)
Fixpoint times {A} (n : nat) (m : ld A) : ld (list A) :=
  match n with
  | O => mret []
  | S n => a ← m; l ← times n m; mret (a :: l)
  end.

(** ** Constants and words *)

Definition operand : ld Z :=
  c ← byte;
  let k := Z.land c 0xC0 in
  if k =? 0 then mret c
  else if k =? 0x40 then mret (Z.lor c (Z.lnot 0x7F))
  else
    let c := if negb (Z.land c 0x20 =? 0) then Z.lor c (Z.lnot 0x3F) else Z.land c 0x3F in
    if k =? 0x80 then
      c1 ← byte; mret (Z.lor (Z.shiftl c 8) c1)
    else
      c1 ← byte; c2 ← byte; c3 ← byte;
      mret (Z.lor (Z.lor (Z.lor (Z.shiftl c 24) (Z.shiftl c1 16)) (Z.shiftl c2 8)) c3).

Definition disw : ld Z :=
  c0 ← byte; c1 ← byte; c2 ← byte; c3 ← byte;
  mret (u32 (Z.lor (Z.lor (Z.lor (Z.shiftl c0 24) (Z.shiftl c1 16)) (Z.shiftl c2 8)) c3)).

(** [int v = disw(isp)] *)
Definition diswi : ld Z := v ← disw; mret (i32 v).

(** ** Instructions *)

(** The union [Adr]: a word, a double indirection, or the instruction a branch
    goes to. *)
Inductive Adr :=
  | Imm (w : Z)
  | Ind2 (f s : Z)
  | Ins (i : Z).

Record Inst := MkInst { op : Z; add : Z; reg : Z; s : Adr; d : Adr }.

(** The operations whose immediate destination is an instruction: [ICALL],
    [ISPAWN], [IJMP], the conditional branches [IBEQB] to [IBGEC] and [IBNEL]
    to [IBEQL]. *)
Definition ICALL : Z := 4.
Definition ISPAWN : Z := 6.
Definition IJMP : Z := 13.
Definition IBEQB : Z := 87.
Definition IBGEC : Z := 110.
Definition IBNEL : Z := 129.
Definition IBEQL : Z := 134.

Definition branches (o : Z) : bool :=
  (o =? ICALL) || (o =? ISPAWN) || (o =? IJMP) ||
  ((IBEQB <=? o) && (o <=? IBGEC)) || ((IBNEL <=? o) && (o <=? IBEQL)).

Definition brpatch (o nprog imm : Z) : option Adr :=
  if branches o then
    if (imm <? 0) || (nprog <=? imm) then None else Some (Ins imm)
  else Some (Imm imm).

(** The cases of the switches on the addressing modes. *)
Definition one_word (k : Z) : bool := (k =? AFP) || (k =? AMP) || (k =? AIMM).
Definition two_words (k : Z) : bool := (k =? Z.lor AIND AFP) || (k =? Z.lor AIND AMP).

(** The three operands, given the mode byte [a]. *)
Definition parse_reg (a : Z) : ld Z :=
  let k := Z.land a ARM in
  if (k =? AXIMM) || (k =? AXINF) || (k =? AXINM) then r ← operand; mret (u16 r) else mret 0.

Definition parse_two : ld Adr :=
  f ← operand; s ← operand; mret (Ind2 (u16 f) (u16 s)).

Definition parse_src (a : Z) : ld Adr :=
  let k := Z.shiftr (UXSRC a) 3 in
  if one_word k then w ← operand; mret (Imm w)
  else if two_words k then parse_two
  else mret (Imm 0).

Definition parse_dst (nprog o a : Z) : ld Adr :=
  let k := UXDST a in
  if k =? AIMM then
    w ← operand;
    match brpatch o nprog w with Some d => mret d | None => bad EBadBranch end
  else if one_word k then w ← operand; mret (Imm w)
  else if two_words k then parse_two
  else mret (Imm 0).

Definition parse_inst (nprog : Z) : ld Inst :=
  o ← byte;
  a ← byte;
  r ← parse_reg a;
  s ← parse_src a;
  d ← parse_dst nprog o a;
  mret (MkInst o a r s d).

(** Sizes of the structures, and the requests that [poolalloc] does not refuse
    out of hand; as an [int], a size may have wrapped. *)
Definition sizeof_Inst : Z := 12.
Definition sizeof_Type : Z := 32.
Definition sane (size : Z) : bool := (0 <=? i32 size) && (i32 size <? 2 ^ 30).

(** The loop over the instructions, into a block with [room] bytes left. *)
Fixpoint parse_insts (n : nat) (nprog room : Z) : ld (list Inst) :=
  match n with
  | O => mret []
  | S n =>
      guard_fault (sizeof_Inst <=? room);;
      i ← parse_inst nprog;
      l ← parse_insts n nprog (room - sizeof_Inst);
      mret (i :: l)
  end.

(** ** Type descriptors *)

Record Ty := MkTy { t_size : Z; t_np : Z; t_map : list Z }.

(** One round of the loop: the descriptor and where it goes.  ([id] may be
    [hsize], one past the array, or negative.) *)
Definition parse_type (hsize : Z) (types : list (option Ty)) : ld (list (option Ty)) :=
  id ← operand;
  guard_bad (negb (hsize <? id)) EHeapIdRange;;
  tsz ← operand;
  tnp ← operand;
  guard_bad (sane (sizeof_Type + tnp)) ENoMemory;;
  map ← bytes_ tnp;
  guard_fault ((0 <=? id) && (id <? hsize));;
  mret (<[Z.to_nat id := Some (MkTy tsz tnp map)]> types).

Fixpoint parse_types (n : nat) (hsize : Z) (types : list (option Ty)) : ld (list (option Ty)) :=
  match n with
  | O => mret types
  | S n => types ← parse_type hsize types; parse_types n hsize types
  end.

(** [m->type[v]] *)
Definition type_at (types : list (option Ty)) (v : Z) : ld (option Ty) :=
  if v <? 0 then fault
  else match types !! Z.to_nat v with Some t => mret t | None => fault end.

(** ** The data section *)

Inductive region := MP | Arr (k : nat).

#[global] Instance region_eq_dec : EqDecision region.
Proof. solve_decision. Defined.

Inductive value :=
  | VByte (b : Z)
  | VWord (w : Z)
  | VLong (l : Z)
  | VReal (w0 w1 : Z)
  | VString (utf : list Z)       (* the [String] that [c2string] makes *)
  | VArray (k : nat).            (* the [k]th array allocated *)

Record array := MkArray { a_ty : Ty; a_len : Z }.

(** Where a store goes, what it stores. *)
Abbreviation where_ := (region * Z)%type.
Record seg := MkSeg { log : list (where_ * value); arrays : list array }.

Record dstate := MkState { addr : where_; dastack : list where_; data : seg }.

Section Data.
(** The size of the module data, and its descriptor. *)
Variable mp : Ty.
Variable types : list (option Ty).

(** The type of the elements of a region, and its size. *)
Definition region_ty (g : seg) (r : region) : option (Ty * Z) :=
  match r with
  | MP => if t_size mp =? 0 then None else Some (mp, t_size mp)
  | Arr k => (fun a => (a_ty a, t_size (a_ty a) * a_len a)) <$> arrays g !! k
  end.

Definition vsize (v : value) : Z :=
  match v with VByte _ => 1 | VLong _ | VReal _ _ => IBY2LG | _ => IBY2WD end.

(** [*(T* )si = v] *)
Definition store (g : seg) (si : where_) (v : value) : option seg :=
  match region_ty g si.1 with
  | Some (_, size) =>
      if (0 <=? si.2) && (si.2 + vsize v <=? size)
      then Some (MkSeg (log g ++ [(si, v)]) (arrays g)) else None
  | None => None
  end.

Definition put (g : seg) (si : where_) (v : value) : ld seg :=
  match store g si v with Some g => mret g | None => fault end.

(** [n] values, one after the other. *)
Fixpoint puts (n : nat) (get : ld value) (g : seg) (si : where_) : ld seg :=
  match n with
  | O => mret g
  | S n =>
      v ← get;
      g ← put g si v;
      puts n get g (si.1, si.2 + vsize v)
  end.

(** The pointer at [si]: the last one stored there, or [H] if the descriptor
    has a pointer there ([initmem]). *)
Fixpoint find_last (l : list (where_ * value)) (si : where_) : option value :=
  match l with
  | [] => None
  | (w, v) :: l =>
      match find_last l si with
      | Some v => Some v
      | None => if decide (w = si) then Some v else None
      end
  end.

Definition ptr_slot (t : Ty) (off : Z) : bool :=
  let off := off mod t_size t in
  (off mod 4 =? 0) &&
  match t_map t !! Z.to_nat (off / 32) with
  | Some c => Z.testbit c (7 - off / 4 mod 8)
  | None => false
  end.

(** [A(si)], where it must be an array: [None] is [H] or not an array. *)
Definition array_at (g : seg) (si : where_) : ld (option (nat * array)) :=
  match region_ty g si.1 with
  | None => fault
  | Some (t, size) =>
      guard_fault ((0 <=? si.2) && (si.2 + IBY2WD <=? size));;
      match find_last (log g) si with
      | Some (VArray k) => match arrays g !! k with Some a => mret (Some (k, a)) | None => fault end
      | Some (VString _) => mret None
      | Some _ => fault
      | None => if ptr_slot t si.2 then mret None else fault
      end
  end.

(** One item of the data section, its kind and count already read. *)
Definition parse_item (kind n : Z) (d : dstate) : ld dstate :=
  v ← operand;
  let si : where_ := ((addr d).1, (addr d).2 + v) in
  let upd g := MkState (addr d) (dastack d) g in
  if kind =? DEFS then
    utf ← bytes_ n; g ← put (data d) si (VString utf); mret (upd g)
  else if kind =? DEFB then
    g ← puts (Z.to_nat n) (b ← byte; mret (VByte b)) (data d) si; mret (upd g)
  else if kind =? DEFW then
    g ← puts (Z.to_nat n) (w ← diswi; mret (VWord w)) (data d) si; mret (upd g)
  else if kind =? DEFL then
    g ← puts (Z.to_nat n)
          (hi ← diswi; lo ← diswi; mret (VLong (Z.lor (Z.shiftl hi 32) (u32 lo)))) (data d) si;
    mret (upd g)
  else if kind =? DEFF then
    g ← puts (Z.to_nat n) (w0 ← disw; w1 ← disw; mret (VReal w0 w1)) (data d) si; mret (upd g)
  else if kind =? DEFA then
    v ← diswi;
    guard_bad ((0 <=? v) && (v <=? zlen types)) EBadArrayType;;
    pt ← type_at types v;
    match pt with
    | None => fault
    | Some pt =>
        v ← diswi;
        guard_fault ((0 <=? v) && (0 <=? t_size pt) && (t_size pt * v <? 2 ^ 31));;
        let k := length (arrays (data d)) in
        let g := MkSeg (log (data d)) (arrays (data d) ++ [MkArray pt v]) in
        g ← put g si (VArray k);
        mret (upd g)
    end
  else if kind =? DIND then
    ary ← array_at (data d) si;
    match ary with
    | None => bad EIndNotArray
    | Some (k, a) =>
        v ← diswi;
        guard_bad ((0 <=? v) && (v <=? a_len a) && (length (dastack d) <? DADEPTH)%nat)
          EArrayInitRange;;
        mret (MkState (Arr k, v * t_size (a_ty a)) (addr d :: dastack d) (data d))
    end
  else if kind =? DAPOP then
    match dastack d with
    | [] => bad EPopRange
    | a :: st => mret (MkState a st (data d))
    end
  else bad EBadDataItem.

(** The loop over the items; every one takes at least a byte. *)
Fixpoint parse_items (fuel : nat) (d : dstate) : ld dstate :=
  match fuel with
  | O => fault
  | S fuel =>
      sm ← byte;
      if sm =? 0 then mret d
      else
        n ← (if DLEN sm =? 0 then operand else mret (DLEN sm));
        d ← parse_item (DTYPE sm) n d;
        parse_items fuel d
  end.
End Data.

(** ** Links (interp/link.c) *)

Record Link := MkLink { l_name : list Z; l_sig : Z; l_pc : Z; l_frame : option Ty }.

(** [newlink] puts the new link at the head of [m->ext]. *)
Definition mlink (ext : list Link) (fn : list Z) (sig pc : Z) (t : option Ty) : list Link :=
  MkLink fn sig pc t :: ext.

Fixpoint parse_links (n : nat) (types : list (option Ty)) (ext : list Link) : ld (list Link) :=
  match n with
  | O => mret ext
  | S n =>
      pc ← operand;
      de ← operand;
      v ← diswi;
      pt ← (if de =? -1 then mret None else type_at types de);
      fn ← cstring;
      parse_links n types (mlink ext fn v pc pt)
  end.

(** ** The module *)

Record Module_ := MkModule {
  rt : Z;
  ss : Z;
  prog : list Inst;
  mpsize : Z;
  type : list (option Ty);
  origmp : seg;
  mname : list Z;
  ext : list Link;
  mentry : Z;                   (* index of the entry instruction in [prog] *)
  entryt : option Ty;
}.

(** (interp/sign.c: module signing is not part of this system.) *)
Definition verifysigner (sign : list Z) (len : Z) (data : list Z) : bool := true.

(** The size a module's data is checked against. *)
Definition parse_mp (dsize : Z) (types : list (option Ty)) : ld Ty :=
  if dsize =? 0 then mret (MkTy 0 0 [])
  else
    pt ← type_at types 0;
    match pt with
    | None => bad EBadDescForMp
    | Some pt => guard_bad (t_size pt =? dsize) EBadDescForMp;; mret pt
    end.

(** [cflag] and [compile] are the just-in-time compiler's switch and its
    success. *)
Definition parsemod (cflag compile : bool) : ld Module_ :=
  magic ← operand;
  (if magic =? SMAGIC then
     siglen ← operand;
     sign ← bytes_ siglen;
     code ← (fun s => LOk s s);
     guard_bad (verifysigner sign siglen code) ESecurity
   else guard_bad (magic =? XMAGIC) EBadMagic);;
  rt ← operand;
  ss ← operand;
  isize ← operand;
  dsize ← operand;
  hsize ← operand;
  lsize ← operand;
  entry ← operand;
  entryt ← operand;
  guard_bad (sane (isize * sizeof_Inst)) ENoMemory;;
  prog ← parse_insts (Z.to_nat isize) isize (i32 (isize * sizeof_Inst));
  guard_bad (sane (hsize * 4)) ENoMemory;;
  types ← parse_types (Z.to_nat hsize) hsize (replicate (Z.to_nat hsize) None);
  mp ← parse_mp dsize types;
  d ← (fun s => parse_items mp types (S (length s)) (MkState (MP, 0) [] (MkSeg [] [])) s);
  name ← cstring;
  ext ← parse_links (Z.to_nat lsize) types [];
  let enter := (u32 entry <? u32 isize) && (u32 entryt <? u32 hsize) in
  guard_bad (cflag || (Z.land rt MUSTCOMPILE =? 0) || compile) ECompilerRequired;;
  mret (MkModule rt ss prog dsize types (data d) (take (Z.to_nat NAMELEN) name) ext
          (if enter then entry else 0)
          (if enter then types !! Z.to_nat entryt ≫= (fun t => t) else None)).

End Load.
