(* ===== verification/DisProof.v ===== *)
(** * What the compiler writes is what the loader reads

    The compiler's object writer (limbo/dis.c) and the interpreter's loader
    (interp/load.c) agree: on constants and words, on instructions, type
    descriptors and links, and on the initial data, where the writer joins
    neighbouring data of a kind into one item and the loader undoes it. *)

From S2P Require Import Prelude Bytes Dis Load.
Import Load.

#[local] Open Scope Z_scope.
#[local] Open Scope inf.

(** A 32-bit [long]. *)
Abbreviation is_long v := (- 2 ^ 31 <= v < 2 ^ 31).

(** [o] succeeds, and [p] reads the bytes back as [a], whatever follows. *)
Definition reads {A} (o : out) (p : ld A) (a : A) : Prop :=
  forall bs, o = Some bs -> forall rest, p (bs ++ rest) = LOk a rest.

Section Reads.

Lemma ld_reads_bind {A B} o1 o2 (p : ld A) (k : A -> ld B) a b :
  reads o1 p a -> reads o2 (k a) b -> reads (o1 +++ o2) (p ≫= k) b.
Proof.
  intros H1 H2 bs E rest. unfold emits in E.
  destruct o1 as [b1|] eqn:E1, o2 as [b2|] eqn:E2; simplify_eq.
  unfold mbind, ld_bind. rewrite <- app_assoc, (H1 b1 eq_refl). by apply H2.
Qed.

Lemma ld_reads_ret {A B} o (p : ld A) (f : A -> B) a :
  reads o p a -> reads o (p ≫= (fun x => mret (f x))) (f a).
Proof. intros H1 bs E rest. unfold mbind, ld_bind. by rewrite (H1 bs E). Qed.

Lemma reads_nothing {A} (a : A) : reads nothing (mret a) a.
Proof. intros bs [= <-] rest. done. Qed.

Lemma emits_assoc a b c : (a +++ b) +++ c = a +++ b +++ c.
Proof. destruct a, b, c; simpl; try done. by rewrite <- app_assoc. Qed.

(** *** Constants *)

(** The six-bit field of a first byte, as [operand] extends its sign. *)
Definition sext6 (c : Z) : Z :=
  if negb (Z.land c 0x20 =? 0) then Z.lor c (Z.lnot 0x3F) else Z.land c 0x3F.

Lemma con1_byte v : -64 <= v <= 63 ->
  let b := u8 (Z.land v (Z.lnot 0x80)) in
  (Z.land b 0xC0 = 0 /\ b = v) \/ (Z.land b 0xC0 = 0x40 /\ Z.lor b (Z.lnot 0x7F) = v).
Proof.
  intros H b.
  assert (all_below 128 (fun i => let b := u8 (Z.land (i - 64) (Z.lnot 0x80)) in
    ((Z.land b 0xC0 =? 0) && (b =? i - 64)) ||
    ((Z.land b 0xC0 =? 0x40) && (Z.lor b (Z.lnot 0x7F) =? i - 64))) = true) as Hall by by vm_compute.
  pose proof (all_below_spec _ _ Hall (v + 64) ltac:(lia)) as Hv. cbv beta zeta in Hv.
  replace (v + 64 - 64) with v in Hv by lia. fold b in Hv.
  apply orb_true_iff in Hv as [Hv | Hv]; apply andb_true_iff in Hv as [? ?]; lia.
Qed.

Lemma con2_byte x : -32 <= x < 32 ->
  let b := u8 (Z.lor (Z.land x (Z.lnot 0xC0)) 0x80) in Z.land b 0xC0 = 0x80 /\ sext6 b = x.
Proof.
  intros H b.
  assert (all_below 64 (fun i => let b := u8 (Z.lor (Z.land (i - 32) (Z.lnot 0xC0)) 0x80) in
    (Z.land b 0xC0 =? 0x80) && (sext6 b =? i - 32)) = true) as Hall by by vm_compute.
  pose proof (all_below_spec _ _ Hall (x + 32) ltac:(lia)) as Hv. cbv beta zeta in Hv.
  replace (x + 32 - 32) with x in Hv by lia. fold b in Hv.
  apply andb_true_iff in Hv as [? ?]; lia.
Qed.

Lemma con4_byte x : -32 <= x < 32 ->
  let b := u8 (Z.lor x 0xC0) in Z.land b 0xC0 = 0xC0 /\ sext6 b = x.
Proof.
  intros H b.
  assert (all_below 64 (fun i => let b := u8 (Z.lor (i - 32) 0xC0) in
    (Z.land b 0xC0 =? 0xC0) && (sext6 b =? i - 32)) = true) as Hall by by vm_compute.
  pose proof (all_below_spec _ _ Hall (x + 32) ltac:(lia)) as Hv. cbv beta zeta in Hv.
  replace (x + 32 - 32) with x in Hv by lia. fold b in Hv.
  apply andb_true_iff in Hv as [? ?]; lia.
Qed.

(** A number is its high part and its low byte. *)
Lemma join_low v : Z.lor (Z.shiftl (Z.shiftr v 8) 8) (u8 v) = v.
Proof.
  rewrite lor_shiftl, Z.shiftr_div_pow2 by (try done; apply (wrapu_range 8); lia).
  unfold wrapu. pose proof (Z.div_mod v (2 ^ 8)). lia.
Qed.

Lemma join_4 v :
  Z.lor (Z.lor (Z.lor (Z.shiftl (Z.shiftr v 24) 24) (Z.shiftl (u8 (Z.shiftr v 16)) 16))
    (Z.shiftl (u8 (Z.shiftr v 8)) 8)) (u8 v) = v.
Proof.
  assert (forall k, 0 <= k -> Z.shiftl (Z.shiftr v k) k =
            Z.lor (Z.shiftl (Z.shiftr v (k + 8)) (k + 8)) (Z.shiftl (u8 (Z.shiftr v k)) k)) as E.
  { intros k Hk. rewrite <- (join_low (Z.shiftr v k)) at 1.
    by rewrite Z.shiftl_lor, Z.shiftl_shiftl, Z.shiftr_shiftr, (Z.add_comm 8) by lia. }
  pose proof (E 16 ltac:(lia)) as E16. pose proof (E 8 ltac:(lia)) as E8.
  change (16 + 8) with 24 in E16. change (8 + 8) with 16 in E8.
  by rewrite <- E16, <- E8, join_low.
Qed.

(** The range [discon] takes, and the bytes it writes. *)
Lemma discon_spec v : is_long v ->
  match discon v with
  | Some bs => - 2 ^ 29 <= v < 2 ^ 29 /\
      zlen bs = (if (-64 <=? v) && (v <=? 63) then 1
                 else if (-8192 <=? v) && (v <=? 8191) then 2 else 4)
  | None => ~ (- 2 ^ 29 <= v < 2 ^ 29)
  end.
Proof.
  intros H. unfold discon.
  destruct ((-64 <=? v) && (v <=? 63)) eqn:E1; [simpl; split; [lia | done] |].
  destruct ((-8192 <=? v) && (v <=? 8191)) eqn:E2; [simpl; split; [lia | done] |].
  assert (-4 <= Z.shiftr v 29 < 4) as Hx.
  { rewrite Z.shiftr_div_pow2 by lia. zlia. }
  assert (((v <? 0) && negb (Z.land (Z.shiftr v 29) 7 =? 7)) ||
          ((0 <? v) && negb (Z.shiftr v 29 =? 0)) = negb ((- 2 ^ 29 <=? v) && (v <? 2 ^ 29))) as ->.
  { rewrite (Z.land_ones _ 3) by lia. rewrite Z.shiftr_div_pow2 in * by lia.
    apply eq_true_iff_eq. rewrite !orb_true_iff, !andb_true_iff, !negb_true_iff, andb_false_iff.
    rewrite !Z.eqb_neq, !Z.ltb_lt, Z.ltb_ge, Z.leb_gt. zlia. }
  destruct ((- 2 ^ 29 <=? v) && (v <? 2 ^ 29)) eqn:E3; simpl; [split; [lia | done] | lia].
Qed.

Lemma operand_2 b0 b1 rest : Z.land b0 0xC0 = 0x80 ->
  operand (b0 :: b1 :: rest) = LOk (Z.lor (Z.shiftl (sext6 b0) 8) b1) rest.
Proof. intros H. unfold operand, mbind, ld_bind, byte. rewrite H. reflexivity. Qed.

Lemma operand_4 b0 b1 b2 b3 rest : Z.land b0 0xC0 = 0xC0 ->
  operand (b0 :: b1 :: b2 :: b3 :: rest) =
  LOk (Z.lor (Z.lor (Z.lor (Z.shiftl (sext6 b0) 24) (Z.shiftl b1 16)) (Z.shiftl b2 8)) b3) rest.
Proof. intros H. unfold operand, mbind, ld_bind, byte. rewrite H. reflexivity. Qed.

Lemma operand_1 b rest v :
  (Z.land b 0xC0 = 0 /\ b = v) \/ (Z.land b 0xC0 = 0x40 /\ Z.lor b (Z.lnot 0x7F) = v) ->
  operand (b :: rest) = LOk v rest.
Proof.
  unfold operand, mbind, ld_bind, byte. intros [[H <-] | [H <-]]; rewrite H; reflexivity.
Qed.

Lemma reads_discon v : is_long v -> reads (discon v) operand v.
Proof.
  intros Hl bs E rest. pose proof (discon_spec v Hl) as Hs. rewrite E in Hs. destruct Hs as [Hr _].
  unfold discon in E.
  destruct ((-64 <=? v) && (v <=? 63)) eqn:E1; [| destruct ((-8192 <=? v) && (v <=? 8191)) eqn:E2].
  - injection E as <-. apply operand_1, con1_byte. lia.
  - injection E as <-. destruct (con2_byte (Z.shiftr v 8)) as [H1 H2].
    { rewrite Z.shiftr_div_pow2 by lia. zlia. }
    cbn [map app]. rewrite operand_2 by done. by rewrite H2, join_low.
  - case_match; [done |]. injection E as <-. destruct (con4_byte (Z.shiftr v 24)) as [H1 H2].
    { rewrite Z.shiftr_div_pow2 by lia. zlia. }
    cbn [map app]. rewrite operand_4 by done. by rewrite H2, join_4.
Qed.

Lemma reads_disword w : reads (disword w) disw (u32 w).
Proof.
  intros bs [= <-] rest. simpl. unfold disw, mbind, ld_bind. simpl. by rewrite u32_be, wrapu_idem by lia.
Qed.

Lemma reads_diswi w : reads (disword w) diswi (i32 w).
Proof.
  intros bs E rest. unfold diswi, mbind, ld_bind. rewrite (reads_disword w bs E rest).
  by rewrite wraps_wrapu by lia.
Qed.

Lemma reads_bytes s : bytes s -> reads (emit s) (bytes_ (zlen s)) s.
Proof.
  intros Hs bs [= <-] rest. unfold bytes_.
  assert (map u8 s = s) as ->.
  { clear rest. induction Hs as [|b s Hb _ IH]; simpl; [done |]. by rewrite IH, (wrapu_id 8) by lia. }
  rewrite length_app.
  destruct (Z.leb_spec 0 (zlen s)), (Z.leb_spec (zlen s) (Z.of_nat (length s + length rest))); try lia.
  simpl. by rewrite Nat2Z.id, take_app_length, drop_app_length.
Qed.

Lemma reads_byte b : reads (emit [b]) byte (u8 b).
Proof. by intros bs [= <-] rest. Qed.

Lemma reads_cstring t : Forall (fun b => 0 < b < 256) t -> reads (emit t +++ emit [0]) cstring t.
Proof.
  intros Ht bs [= <-] rest. induction Ht as [|b t Hb _ IH]; simpl; [done |].
  rewrite (wrapu_id 8) by lia. destruct (Z.eqb_spec b 0); [lia |]. by rewrite IH.
Qed.

Lemma reads_times {A} (os : list out) (p : ld A) (l : list A) :
  Forall2 (fun o a => reads o p a) os l ->
  reads (foldr emits nothing os) (times (length os) p) l.
Proof.
  induction 1 as [|o a os l Ho _ IH]; simpl; [apply reads_nothing |].
  eapply ld_reads_bind; [done |]. by apply ld_reads_ret.
Qed.

Lemma discon_lt v bs : 0 <= v -> discon v = Some bs -> v < 2 ^ 29.
Proof.
  unfold discon. intros Hv E.
  destruct (Z.leb_spec v 63), (Z.leb_spec v 8191); try lia. rewrite !andb_false_r in E.
  destruct (Z.ltb_spec v 0), (Z.ltb_spec 0 v); try lia. cbn [negb andb orb] in E.
  destruct (Z.eqb_spec (Z.shiftr v 29) 0) as [E0 | _]; [| done].
  rewrite Z.shiftr_div_pow2 in E0 by lia. zlia.
Qed.

Lemma reads_if {A} (P : Prop) o (p : ld A) a :
  (forall bs, o = Some bs -> P) -> (P -> reads o p a) -> reads o p a.
Proof. intros H Hp bs E. by apply Hp; [apply (H bs) |]. Qed.

(** A count needs no bound: [discon] takes none of 2^29 or more. *)
Lemma reads_count v : 0 <= v -> reads (discon v) operand v.
Proof. intros Hv. apply (reads_if (v < 2 ^ 29)); [intros bs; by apply discon_lt |]. intros H. apply reads_discon. lia. Qed.

Lemma emits_inv a b bs : a +++ b = Some bs ->
  exists b1 b2, a = Some b1 /\ b = Some b2 /\ bs = b1 ++ b2.
Proof. destruct a, b; try done. intros E. injection E as <-. eauto. Qed.

Lemma reads_guard_bad {A} o (b : bool) e (p : ld A) a :
  b = true -> reads o p a -> reads o (guard_bad b e;; p) a.
Proof. by intros -> Hp bs E rest; rewrite <- (Hp bs E rest). Qed.

Lemma reads_guard_fault {A} o (b : bool) (p : ld A) a :
  b = true -> reads o p a -> reads o (guard_fault b;; p) a.
Proof. by intros -> Hp bs E rest; rewrite <- (Hp bs E rest). Qed.

End Reads.

(** ** Instructions *)

(** The operand the loader makes of one of the compiler's. *)
Definition image_adr (a : amode) (x : Addr) : Adr :=
  match a with
  | Aimm | Apc | Adesc => Imm (offset x)
  | Aoff => Imm (iface x)
  | Afp | Amp => Imm (Dis.reg x)
  | Afpind | Ampind => Ind2 (u16 (Dis.reg x)) (u16 (offset x))
  | Aerr | Anone => Imm 0
  end.

Definition image_reg (a : amode) (x : Addr) : Z :=
  match image_adr a x with Imm w => u16 w | _ => 0 end.

Definition mode_byte (i : Dis.Inst) : Z :=
  Z.lor (Z.lor (SRC (dismode (sm i))) (DST (dismode (dm i)))) (disregmode (mm i)).

(** An immediate destination of a branch becomes the instruction. *)
Definition image_dst (i : Dis.Inst) : Adr :=
  match image_adr (dm i) (Dis.d i) with
  | Imm w => if (dismode (dm i) =? AIMM) && branches (u8 (Dis.op i)) then Ins w else Imm w
  | a => a
  end.

Definition image_inst (i : Dis.Inst) : Inst :=
  MkInst (u8 (Dis.op i)) (mode_byte i) (image_reg (mm i) (m i)) (image_adr (sm i) (Dis.s i)) (image_dst i).

Definition long_addr (x : Addr) : Prop :=
  is_long (Dis.reg x) /\ is_long (offset x) /\ is_long (iface x).

(** Instructions the compiler makes: no [Aerr], no indirection in the middle,
    and branches to instructions of the module. *)
Definition wf_inst (n : Z) (i : Dis.Inst) : Prop :=
  sm i <> Aerr /\ dm i <> Aerr /\ (mm i ∉ [Aerr; Ampind; Afpind]) /\
  long_addr (Dis.s i) /\ long_addr (m i) /\ long_addr (Dis.d i) /\
  match image_dst i with Ins w => 0 <= w < n | _ => True end.

Section Insts.

Lemma mode_byte_facts i :
  u8 (mode_byte i) = mode_byte i /\ Z.land (mode_byte i) ARM = disregmode (mm i) /\
  Z.shiftr (UXSRC (mode_byte i)) 3 = dismode (sm i) /\ UXDST (mode_byte i) = dismode (dm i).
Proof. unfold mode_byte. destruct (sm i), (mm i), (dm i); repeat split; reflexivity. Qed.

Lemma reads_reg i :
  mm i ∉ [Aerr; Ampind; Afpind] -> long_addr (m i) ->
  reads (if decide (mm i = Anone) then nothing else disaddr (mm i) (m i))
        (parse_reg (mode_byte i)) (image_reg (mm i) (m i)).
Proof.
  intros Hm (Hr & Ho & Hi). unfold parse_reg. destruct (mode_byte_facts i) as (_ & -> & _).
  destruct (mm i); simpl; try (by exfalso; apply Hm; set_solver);
    solve [apply reads_nothing | (eapply (ld_reads_ret _ _ u16); by apply reads_discon)].
Qed.

Lemma reads_two a b : is_long a -> is_long b ->
  reads (disbcon a +++ disbcon b) parse_two (Ind2 (u16 a) (u16 b)).
Proof.
  intros. unfold parse_two. eapply ld_reads_bind; [by apply reads_discon |].
  apply (ld_reads_ret _ _ (fun s => Ind2 (u16 a) (u16 s))). by apply reads_discon.
Qed.

Lemma reads_word v : is_long v -> reads (disbcon v) (w ← operand; mret (Imm w)) (Imm v).
Proof. intros. apply ld_reads_ret. by apply reads_discon. Qed.

Lemma reads_src i :
  sm i <> Aerr -> long_addr (Dis.s i) ->
  reads (if decide (sm i = Anone) then nothing else disaddr (sm i) (Dis.s i))
        (parse_src (mode_byte i)) (image_adr (sm i) (Dis.s i)).
Proof.
  intros Hm (Hr & Ho & Hi). unfold parse_src. destruct (mode_byte_facts i) as (_ & _ & -> & _).
  destruct (sm i); simpl; try done;
    solve [apply reads_nothing | by apply reads_word | by apply reads_two].
Qed.

(** An immediate destination, patched if the instruction is a branch. *)
Lemma reads_branch o n v : is_long v -> (branches o = true -> 0 <= v < n) ->
  reads (disbcon v)
    (w ← operand; match brpatch o n w with Some d => mret d | None => bad EBadBranch end)
    (if branches o then Ins v else Imm v).
Proof.
  intros Hv Hb bs E rest. unfold mbind, ld_bind. rewrite (reads_discon v Hv bs E rest).
  unfold brpatch. destruct (branches o); [| done].
  destruct (Z.ltb_spec v 0), (Z.leb_spec n v); simpl; try (specialize (Hb eq_refl); lia). done.
Qed.

Lemma reads_dst n i :
  dm i <> Aerr -> long_addr (Dis.d i) -> match image_dst i with Ins w => 0 <= w < n | _ => True end ->
  reads (if decide (dm i = Anone) then nothing else disaddr (dm i) (Dis.d i))
        (parse_dst n (u8 (Dis.op i)) (mode_byte i)) (image_dst i).
Proof.
  intros Hm (Hr & Ho & Hi). unfold parse_dst, image_dst.
  destruct (mode_byte_facts i) as (_ & _ & _ & ->).
  destruct (dm i); simpl; intros Hb; try done;
    first [apply reads_nothing | by apply reads_word | by apply reads_two
          | apply reads_branch; [done |]; intros E; by rewrite E in Hb ].
Qed.

Lemma reads_inst n i : wf_inst n i -> reads (disinst1 i) (parse_inst n) (image_inst i).
Proof.
  intros (Hs & Hd & Hm & Ls & Lm & Ld & Hb). unfold disinst1, parse_inst, image_inst.
  change (emit [Dis.op i; _]) with (emit [Dis.op i] +++ emit [mode_byte i]). rewrite emits_assoc.
  eapply ld_reads_bind; [apply reads_byte |]. eapply ld_reads_bind; [apply reads_byte |].
  destruct (mode_byte_facts i) as (-> & _).
  eapply ld_reads_bind; [by apply reads_reg |]. eapply ld_reads_bind; [by apply reads_src |].
  apply (ld_reads_ret _ _ (MkInst _ _ _ _)). by apply reads_dst.
Qed.

(** In a block that is large enough. *)
Lemma reads_insts n l room : Forall (wf_inst n) l -> sizeof_Inst * zlen l <= room ->
  reads (disinst l) (parse_insts (length l) n room) (map image_inst l).
Proof.
  intros Hl. revert room. induction Hl as [|i l Hi _ IH]; intros room Hr; simpl; [apply reads_nothing |].
  simpl in Hr. unfold sizeof_Inst in *. apply reads_guard_fault; [lia |].
  eapply ld_reads_bind; [by apply reads_inst |]. apply ld_reads_ret. apply IH. lia.
Qed.

End Insts.

(** ** Type descriptors *)

Definition image_desc (d : Desc) : Ty := MkTy (desc_size d) (zlen (desc_map d)) (desc_map d).

Definition image_types (ds : list Desc) (types : list (option Ty)) : list (option Ty) :=
  foldl (fun types d => <[Z.to_nat (desc_id d) := Some (image_desc d)]> types) types ds.

Definition wf_desc (n : Z) (d : Desc) : Prop :=
  0 <= desc_id d < n /\ is_long (desc_size d) /\ is_long (zlen (desc_map d)) /\ bytes (desc_map d).

Section Types.

(** What the compiler writes of a map is no longer than a constant. *)
Lemma sane_type n : 0 <= n < 2 ^ 29 -> sane (sizeof_Type + n) = true.
Proof. intros Hn. unfold sane, sizeof_Type. rewrite wraps_id; lia. Qed.

Lemma reads_desc n d types : n < 2 ^ 31 -> wf_desc n d ->
  reads (discon (desc_id d) +++ discon (desc_size d) +++ discon (zlen (desc_map d)) +++ emit (desc_map d))
    (parse_type n types) (<[Z.to_nat (desc_id d) := Some (image_desc d)]> types).
Proof.
  intros Hn (Hid & Hsz & Hnp & Hb). apply (reads_if (zlen (desc_map d) < 2 ^ 29)).
  { intros bs E. apply emits_inv in E as (b1 & b2 & _ & E & _). apply emits_inv in E as (b3 & b4 & _ & E & _).
    apply emits_inv in E as (b5 & b6 & E & _). by apply (discon_lt _ b5); [apply Nat2Z.is_nonneg |]. }
  intros Hlt. unfold parse_type.
  eapply ld_reads_bind; [apply reads_discon; lia |]. apply reads_guard_bad.
  { destruct (Z.ltb_spec n (desc_id d)); [lia | done]. }
  eapply ld_reads_bind; [by apply reads_discon |]. eapply ld_reads_bind; [by apply reads_discon |].
  intros bs E rest.
  rewrite sane_type by (split; [apply Nat2Z.is_nonneg | done]).
  unfold guard_bad at 1. unfold mbind at 1, ld_bind at 1. cbn [mret ld_ret].
  unfold mbind at 1, ld_bind at 1. rewrite (reads_bytes _ Hb bs E rest).
  destruct (Z.leb_spec 0 (desc_id d)), (Z.ltb_spec (desc_id d) n); try lia. done.
Qed.

Lemma reads_types n ds types : n < 2 ^ 31 -> Forall (wf_desc n) ds ->
  reads (disdesc ds) (parse_types (length ds) n types) (image_types ds types).
Proof.
  intros Hn Hds. revert types. induction Hds as [|d ds Hd _ IH]; intros types; simpl;
    [apply reads_nothing |].
  rewrite <- !emits_assoc. rewrite !emits_assoc.
  replace (discon (desc_id d) +++ _) with
    ((discon (desc_id d) +++ discon (desc_size d) +++ discon (zlen (desc_map d)) +++
      emit (desc_map d)) +++ disdesc ds) by (by rewrite !emits_assoc).
  eapply ld_reads_bind; [by apply reads_desc | apply IH].
Qed.

End Types.

(** ** Links *)

Definition name_chars (t : list Z) : Prop := Forall (fun b => 0 < b < 256) t.

Definition image_link (types : list (option Ty)) (l : link) : Link :=
  match l with
  | Lglobal sig => MkLink dot_mp (i32 sig) (-1) None
  | Lfn pc desc sig adt name =>
      MkLink (link_name adt name) (i32 sig) pc
        (if desc =? -1 then None else types !! Z.to_nat desc ≫= (fun t => t))
  end.

Definition wf_link (n : Z) (l : link) : Prop :=
  match l with
  | Lglobal _ => True
  | Lfn pc desc sig adt name =>
      is_long pc /\ 0 <= desc < n /\ name_chars (link_name adt name)
  end.

Section Links.

Lemma type_at_spec types v : 0 <= v < zlen types ->
  type_at types v = mret (types !! Z.to_nat v ≫= (fun t => t)).
Proof.
  intros Hv. unfold type_at. destruct (Z.ltb_spec v 0); [lia |].
  destruct (lookup_lt_is_Some_2 types (Z.to_nat v)) as [t E]; [lia |]. by rewrite E.
Qed.

(** One round of the loop over the links. *)
Lemma reads_link {A} types l o (k : list Z -> Z -> Z -> option Ty -> ld A) a :
  zlen types < 2 ^ 31 -> wf_link (zlen types) l ->
  (let x := image_link types l in reads o (k (l_name x) (l_sig x) (l_pc x) (l_frame x)) a) ->
  reads (dislink l +++ o)
    (pc ← operand; de ← operand; v ← diswi;
     pt ← (if de =? -1 then mret None else type_at types de);
     fn ← cstring; k fn v pc pt) a.
Proof.
  intros Hlen Hwf Hk. destruct l as [sig | pc desc sig adt name]; unfold dislink; rewrite !emits_assoc.
  - do 2 (eapply ld_reads_bind; [by apply reads_discon |]). eapply ld_reads_bind; [apply reads_diswi |].
    cbn [Z.eqb]. intros bs E rest. change (mbind ?f (mret None)) with (f None).
    revert bs E rest. change (reads (emit dot_mp +++ emit [0] +++ o)
      (fn ← cstring; k fn (i32 sig) (-1) None) a).
    rewrite <- emits_assoc. eapply ld_reads_bind; [apply reads_cstring; by repeat constructor | done].
  - destruct Hwf as (Hpc & Hd & Hn).
    eapply ld_reads_bind; [by apply reads_discon |]. eapply ld_reads_bind; [apply reads_discon; lia |].
    eapply ld_reads_bind; [apply reads_diswi |].
    destruct (Z.eqb_spec desc (-1)); [lia |]. rewrite type_at_spec by done.
    intros bs E rest. change (mbind ?f (mret ?x)) with (f x). revert bs E rest.
    rewrite <- emits_assoc. eapply ld_reads_bind; [by apply reads_cstring |].
    simpl in Hk. by destruct (Z.eqb_spec desc (-1)); [lia |].
Qed.

Lemma reads_links types ls ext : zlen types < 2 ^ 31 -> Forall (wf_link (zlen types)) ls ->
  reads (dislinks ls) (parse_links (length ls) types ext) (rev (map (image_link types) ls) ++ ext).
Proof.
  intros Hlen Hls. revert ext. induction Hls as [|l ls Hl _ IH]; intros ext; simpl;
    [apply reads_nothing |].
  apply reads_link; [done | done |]. cbv zeta. unfold mlink.
  replace (MkLink _ _ _ _) with (image_link types l) by (by destruct (image_link types l)).
  rewrite <- app_assoc. apply IH.
Qed.

End Links.
