(* ===== verification/DisData.v ===== *)
(** * The initial data of a module

    The compiler walks the initialised globals of a module ([disdatum]) and
    joins neighbouring data of one kind ([disflush]); the loader replays the
    items as stores.  [flatten] is the reference: the data one by one, in
    order.  Both sides are shown to agree with it. *)

From S2P Require Import Prelude Bytes Dis Load DisProof.
Import Load.

#[local] Open Scope Z_scope.
#[local] Open Scope inf.

(** ** Data one by one *)

(** Values of one kind at consecutive offsets; a string; an array, entered or
    not; the end of an array. *)
Inductive cmd :=
  | CVals (kind off : Z) (vs : list value)
  | CString (off : Z) (s : list Z)
  | CArray (off tid len : Z) (enter : bool)
  | CPop.

Definition vkind (v : value) : Z :=
  match v with
  | VByte _ => DEFB | VWord _ => DEFW | VLong _ => DEFL | VReal _ _ => DEFF
  | VString _ => DEFS | VArray _ => DEFA
  end.

Definition cval (off : Z) (v : value) : cmd := CVals (vkind v) off [v].

Fixpoint flat_case (off : Z) (labs : list (Z * Z * Z)) (wild : Z) : list cmd :=
  match labs with
  | [] => [cval off (VWord wild)]
  | (start, stop, pc) :: labs =>
      cval off (VWord start) :: cval (off + 4) (VWord (stop + 1)) :: cval (off + 8) (VWord pc) ::
      flat_case (off + 12) labs wild
  end.

Fixpoint flat_casec (off : Z) (labs : list (list Z * option (list Z) * Z)) (wild : Z) : list cmd :=
  match labs with
  | [] => [cval off (VWord wild)]
  | (start, stop, pc) :: labs =>
      CString off start ::
      match stop with Some s => [CString (off + 4) s] | None => [] end ++
      cval (off + 8) (VWord pc) :: flat_casec (off + 12) labs wild
  end.

Fixpoint flat_goto (off : Z) (labs : list Z) (wild : option Z) : list cmd :=
  match labs with
  | [] => match wild with Some w => [cval off (VWord w)] | None => [] end
  | pc :: labs => cval off (VWord pc) :: flat_goto (off + 4) labs wild
  end.

Fixpoint flat_iface (off : Z) (ids : list (Z * option (list Z) * list Z)) : list cmd :=
  match ids with
  | [] => []
  | (sig, adt, name) :: ids =>
      let off := align off IBY2WD in
      let noff := off + IBY2WD + match adt with Some a => zlen a + 1 | None => 0 end in
      cval off (VWord sig) ::
      match adt with
      | Some a => [CVals DEFB (off + IBY2WD) (map VByte a); cval (off + IBY2WD + zlen a) (VByte 46)]
      | None => []
      end ++
      [CVals DEFB noff (map VByte name); cval (noff + zlen name) (VByte 0)] ++
      flat_iface (noff + zlen name + 1) ids
  end.

(** The elements of an array: [elem] at [n] indices from [last] on. *)
Fixpoint repeat_at (esz : Z) (elem : Z -> list cmd) (last : Z) (n : nat) : list cmd :=
  match n with O => [] | S n => elem (esz * last) ++ repeat_at esz elem (last + 1) n end.

Fixpoint flatten (off : Z) (n : datum) : list cmd :=
  match n with
  | Tbyte v => [cval off (VByte v)]
  | Tint v => [cval off (VWord v)]
  | Tbig v => [cval off (VLong v)]
  | Tstring s => [CString off s]
  | Treal w0 w1 => [cval off (VReal w0 w1)]
  | Ttuple fields => concat (map (fun '(o, f) => flatten (off + o) f) fields)
  | Tany => []
  | Tcase labs wild => cval off (VWord (zlen labs)) :: flat_case (off + IBY2WD) labs wild
  | Tcasec labs wild => cval off (VWord (zlen labs)) :: flat_casec (off + IBY2WD) labs wild
  | Tgoto size labs wild =>
      cval off (VWord (Z.quot size IBY2WD - 1)) :: flat_goto (off + IBY2WD) labs wild
  | Tarray tid esz len None => [CArray off tid len false]
  | Tarray tid esz len (Some (labs, wild)) =>
      let wilds last e :=
        match wild with
        | Some w => repeat_at esz (fun o => flatten o w) last (Z.to_nat (e - last))
        | None => []
        end in
      CArray off tid len true ::
      (fix go (last : Z) (labs : list (Z * Z * datum)) : list cmd := match labs with
       | [] => wilds last len
       | (start, stop, elem) :: labs =>
           wilds last start ++
           repeat_at esz (fun o => flatten o elem) start (Z.to_nat (stop + 1 - start)) ++
           go (Z.max start (stop + 1)) labs
       end) 0 labs ++ [CPop]
  | Tiface n ids => cval off (VWord n) :: flat_iface (off + IBY2WD) ids
  end.

Definition flatten_all (ds : list (Z * datum)) : list cmd :=
  concat (map (fun '(off, n) => flatten off n) ds).

(** ** The compiler writes them *)

Definition enc (v : value) : list Z :=
  match v with
  | VByte b => [b]
  | VWord w => word_bytes w
  | VLong l => word_bytes (u32 (Z.shiftr l 32)) ++ word_bytes (u32 l)
  | VReal w0 w1 => word_bytes w0 ++ word_bytes w1
  | _ => []
  end.

Definition vsizes (vs : list value) : Z := foldr (fun v n => vsize v + n) 0 vs.

Definition run_cmd (c : cmd) : dout :=
  match c with
  | CVals kind off vs => disflush kind off (vsizes vs) >>=> dcached (concat (map enc vs)) (zlen vs)
  | CString off s => disstring off s
  | CArray off tid len enter =>
      disflush (-1) (-1) 0 >>=>
      dput (disdata DEFA 1 +++ discon off +++ disword tid +++ disword len) >>=>
      (if enter then dput (disdata DIND 1 +++ discon off +++ disword 0) else dnothing)
  | CPop => disflush (-1) (-1) 0 >>=> dput (disdata DAPOP 1 +++ discon 0)
  end.

Fixpoint run_cmds (cs : list cmd) : dout :=
  match cs with [] => dnothing | c :: cs => run_cmd c >>=> run_cmds cs end.

(** Writers are equal when they do the same on every cache. *)
Definition deq : relation dout := pointwise_relation dcache eq.
Infix "≃" := deq (at level 70).

#[global] Instance deq_equivalence : Equivalence deq.
Proof. unfold deq. apply _. Qed.

#[global] Instance dseq_proper : Proper (deq ==> deq ==> deq) dseq.
Proof.
  intros a a' Ea b b' Eb c. unfold dseq. rewrite (Ea c).
  destruct (a' c) as [[o1 c1]|]; [| done]. by rewrite (Eb c1).
Qed.

Section Writer.

Lemma dseq_assoc a b c : (a >>=> b) >>=> c ≃ a >>=> b >>=> c.
Proof.
  intros st. unfold dseq. destruct (a st) as [[o1 s1]|]; [| done].
  destruct (b s1) as [[o2 s2]|]; [| done]. destruct (c s2) as [[o3 s3]|]; [| done].
  by rewrite <- app_assoc.
Qed.

Lemma dseq_nothing_l a : dnothing >>=> a ≃ a.
Proof. intros st. unfold dseq. simpl. by destruct (a st) as [[]|]. Qed.

Lemma dseq_nothing_r a : a >>=> dnothing ≃ a.
Proof. intros st. unfold dseq. destruct (a st) as [[o s]|]; simpl; by rewrite ?app_nil_r. Qed.

Lemma run_cmds_app cs1 cs2 : run_cmds (cs1 ++ cs2) ≃ run_cmds cs1 >>=> run_cmds cs2.
Proof.
  induction cs1 as [|c cs1 IH]; simpl; [by rewrite dseq_nothing_l |].
  by rewrite IH, dseq_assoc.
Qed.

Lemma run_cval off v : run_cmds [cval off v] ≃ run_cmd (cval off v).
Proof. simpl. by rewrite dseq_nothing_r. Qed.

Lemma disbytes_cmd off bs : disbytes off bs ≃ run_cmd (CVals DEFB off (map VByte bs)).
Proof.
  unfold disbytes, run_cmd.
  assert (vsizes (map VByte bs) = zlen bs) as ->.
  { induction bs as [|b bs IH]; simpl in *; [done |]. lia. }
  assert (concat (map enc (map VByte bs)) = bs) as ->.
  { induction bs as [|b bs IH]; simpl in *; [done |]. by rewrite IH. }
  by rewrite length_map.
Qed.

Lemma run_cmds_one c : run_cmds [c] ≃ run_cmd c.
Proof. simpl. by rewrite dseq_nothing_r. Qed.

Lemma run_cons c cs : run_cmds (c :: cs) = run_cmd c >>=> run_cmds cs.
Proof. done. Qed.

Lemma discase_cmds labs off wild : discase off labs wild ≃ run_cmds (flat_case off labs wild).
Proof.
  revert off. induction labs as [|[[start stop] pc] labs IH]; intros off; simpl discase; simpl flat_case.
  - by rewrite run_cval.
  - rewrite !run_cons. by rewrite IH.
Qed.

Lemma discasec_cmds labs off wild : discasec off labs wild ≃ run_cmds (flat_casec off labs wild).
Proof.
  revert off. induction labs as [|[[start stop] pc] labs IH]; intros off; simpl discasec; simpl flat_casec.
  - by rewrite run_cval.
  - rewrite run_cons, run_cmds_app, run_cons, IH.
    destruct stop; simpl run_cmds at 2; by rewrite ?dseq_nothing_r.
Qed.

Lemma disgoto_cmds labs off wild : disgoto off labs wild ≃ run_cmds (flat_goto off labs wild).
Proof.
  revert off. induction labs as [|pc labs IH]; intros off; simpl disgoto; simpl flat_goto.
  - destruct wild; [by rewrite run_cval | done].
  - by rewrite run_cons, IH.
Qed.

Lemma disiface_cmds ids off : disiface off ids ≃ run_cmds (flat_iface off ids).
Proof.
  revert off. induction ids as [|[[sig adt] name] ids IH]; intros off; [done |].
  cbn [disiface flat_iface]. cbv zeta. rewrite run_cons, !run_cmds_app, IH.
  destruct adt as [a|]; rewrite !run_cons; cbn [run_cmds]; rewrite ?dseq_nothing_r, ?dseq_nothing_l, !disbytes_cmd, ?dseq_assoc.
  - repeat (apply dseq_proper; [done |]). done.
  - repeat (apply dseq_proper; [done |]). done.
Qed.

Lemma disrepeat_cmds esz elem elem' last n :
  (forall o, elem o ≃ run_cmds (elem' o)) ->
  disrepeat esz elem last n ≃ run_cmds (repeat_at esz elem' last n).
Proof.
  intros He. revert last. induction n as [|n IH]; intros last; simpl disrepeat; simpl repeat_at; [done |].
  by rewrite run_cmds_app, He, IH.
Qed.

(** Induction over data and the data inside them. *)
Section Induction.
Variable P : datum -> Prop.
Hypothesis Hleaf : forall n,
  match n with Ttuple _ | Tarray _ _ _ (Some _) => True | _ => P n end.
Hypothesis Htuple : forall fields, Forall (fun f => P f.2) fields -> P (Ttuple fields).
Hypothesis Harray : forall tid esz len labs wild,
  Forall (fun l : Z * Z * datum => P l.2) labs -> (forall w, wild = Some w -> P w) ->
  P (Tarray tid esz len (Some (labs, wild))).

Fixpoint datum_ind' (n : datum) : P n.
Proof.
  destruct n as [| | | | | fields | | | | | ? ? ? elems |].
  - exact (Hleaf (Tbyte _)).
  - exact (Hleaf (Tint _)).
  - exact (Hleaf (Tbig _)).
  - exact (Hleaf (Tstring _)).
  - exact (Hleaf (Treal _ _)).
  - apply Htuple.
    exact ((fix go l : Forall (fun f : Z * datum => P f.2) l :=
      match l with [] => List.Forall_nil _ | f :: l => List.Forall_cons _ f l (datum_ind' f.2) (go l) end) fields).
  - exact (Hleaf Tany).
  - exact (Hleaf (Tcase _ _)).
  - exact (Hleaf (Tcasec _ _)).
  - exact (Hleaf (Tgoto _ _ _)).
  - destruct elems as [[labs wild]|]; [| exact (Hleaf (Tarray _ _ _ None))].
    apply Harray.
    + exact ((fix go l : Forall (fun f : Z * Z * datum => P f.2) l :=
        match l with [] => List.Forall_nil _ | f :: l => List.Forall_cons _ f l (datum_ind' f.2) (go l) end) labs).
    + destruct wild as [w|]; [| discriminate]. intros w' E. injection E as <-. apply datum_ind'.
  - exact (Hleaf (Tiface _ _)).
Qed.
End Induction.

Lemma disdatum_cmds n off : disdatum off n ≃ run_cmds (flatten off n).
Proof.
  revert off. apply (datum_ind' (fun n => forall off, disdatum off n ≃ run_cmds (flatten off n))); clear n.
  - intros n. destruct n as [v | v | v | s | w0 w1 | fields | | labs wild | labs wild | size labs wild
                  | tid esz len elems | n ids]; try done;
      try destruct elems as [[]|]; try done; intros off; cbn [disdatum flatten];
      rewrite ?run_cons, <- ?discase_cmds, <- ?discasec_cmds, <- ?disgoto_cmds, <- ?disiface_cmds;
      cbn [run_cmds]; rewrite ?dseq_nothing_r; try reflexivity.
    cbn [run_cmd]. by rewrite dseq_nothing_r.
  - intros fields IH off. cbn [disdatum flatten]. induction IH as [|[o f] fields Hf _ IH']; [done |].
    cbn [map concat]. rewrite run_cmds_app. simpl in Hf. by rewrite <- (Hf (off + o)), <- IH'.
  - intros tid esz len labs wild IHl IHw off. cbn [disdatum flatten]. rewrite run_cons, run_cmds_app. cbn [run_cmd]. rewrite !dseq_assoc.
    do 3 (apply dseq_proper; [done |]). apply dseq_proper; [| by rewrite run_cmds_one].
    set (wilds := fun last e => match wild with
      | Some w => disrepeat esz (fun o => disdatum o w) last (Z.to_nat (e - last)) | None => dnothing end).
    set (wilds' := fun last e => match wild with
      | Some w => repeat_at esz (fun o => flatten o w) last (Z.to_nat (e - last)) | None => [] end).
    assert (forall last e, wilds last e ≃ run_cmds (wilds' last e)) as Hw.
    { intros last e. unfold wilds, wilds'. destruct wild as [w|]; [| done].
      apply disrepeat_cmds. intros o. by apply IHw. }
    generalize 0. induction IHl as [|[[start stop] elem] labs He _ IH]; intros last; [apply Hw |].
    rewrite !run_cmds_app. apply dseq_proper; [apply Hw |].
    apply dseq_proper; [by apply disrepeat_cmds | apply IH].
Qed.
End Writer.

(** ** The loader replays them *)

(** A value as the loader has it. *)
Definition norm (v : value) : value :=
  match v with
  | VByte b => VByte (u8 b)
  | VWord w => VWord (i32 w)
  | VLong l => VLong (i64 l)
  | VReal w0 w1 => VReal (u32 w0) (u32 w1)
  | VString s => VString (map u8 s)
  | VArray k => VArray k
  end.

Section Loader.
Variable mp : Ty.
Variable types : list (option Ty).

Abbreviation st := (Load.store mp).

(** Values stored one after the other. *)
Fixpoint stores (g : seg) (si : where_) (vs : list value) : option seg :=
  match vs with
  | [] => Some g
  | v :: vs => st g si (norm v) ≫= fun g => stores g (si.1, si.2 + vsize v) vs
  end.

Definition upd (d : dstate) (g : seg) : dstate := MkState (addr d) (dastack d) g.
Definition at_ (d : dstate) (off : Z) : where_ := ((addr d).1, (addr d).2 + off).

(** What a command does to the loader's state; [None] where the loader finds
    an error or stores outside its data. *)
Definition exec_cmd (c : cmd) (d : dstate) : option dstate :=
  match c with
  | CVals _ off vs => upd d <$> stores (data d) (at_ d off) vs
  | CString off s => upd d <$> st (data d) (at_ d off) (VString (map u8 s))
  | CArray off tid len enter =>
      if (0 <=? i32 tid) && (i32 tid <? zlen types) then
        match types !! Z.to_nat (i32 tid) ≫= (fun t => t) with
        | None => None
        | Some t =>
            if (0 <=? i32 len) && (0 <=? t_size t) && (t_size t * i32 len <? 2 ^ 31) then
              let k := length (arrays (data d)) in
              g ← st (MkSeg (log (data d)) (arrays (data d) ++ [MkArray t (i32 len)])) (at_ d off) (VArray k);
              if enter then
                if (length (dastack d) <? DADEPTH)%nat
                then Some (MkState (Arr k, 0) (addr d :: dastack d) g) else None
              else Some (upd d g)
            else None
        end
      else None
  | CPop =>
      match dastack d with [] => None | a :: l => Some (MkState a l (data d)) end
  end.

Fixpoint exec_cmds (cs : list cmd) (d : dstate) : option dstate :=
  match cs with [] => Some d | c :: cs => exec_cmd c d ≫= exec_cmds cs end.

(** [bs] takes the item loop from [d] to [d']. *)
Definition yields (bs : list Z) (d d' : dstate) : Prop :=
  forall rest fuel, (length (bs ++ rest) < fuel)%nat ->
  exists fuel', (length rest < fuel')%nat /\
    parse_items mp types fuel d (bs ++ rest) = parse_items mp types fuel' d' rest.

Lemma yields_nil d : yields [] d d.
Proof. intros rest fuel Hf. by exists fuel. Qed.

Lemma yields_app b1 b2 d d1 d2 : yields b1 d d1 -> yields b2 d1 d2 -> yields (b1 ++ b2) d d2.
Proof.
  intros H1 H2 rest fuel Hf. rewrite <- app_assoc in *.
  destruct (H1 (b2 ++ rest) fuel Hf) as (f1 & Hf1 & ->). by apply H2.
Qed.

(** The byte of an item's kind and count. *)
Lemma dbyte_facts kind n : 1 <= kind <= 8 -> 0 <= n < 16 ->
  u8 (DBYTE kind n) <> 0 /\ DLEN (u8 (DBYTE kind n)) = n /\ DTYPE (u8 (DBYTE kind n)) = kind.
Proof.
  intros Hk Hn.
  assert (all_below 128 (fun i => let kind := 1 + i / 16 in let n := i mod 16 in
    let b := u8 (DBYTE kind n) in negb (b =? 0) && (DLEN b =? n) && (DTYPE b =? kind)) = true)
    as Hall by by vm_compute.
  pose proof (all_below_spec _ _ Hall ((kind - 1) * 16 + n) ltac:(lia)) as Hv. cbv beta zeta in Hv.
  replace (1 + ((kind - 1) * 16 + n) / 16) with kind in Hv by zlia.
  replace (((kind - 1) * 16 + n) mod 16) with n in Hv by zlia.
  rewrite !andb_true_iff, negb_true_iff, Z.eqb_neq, !Z.eqb_eq in Hv. tauto.
Qed.

(** An item. *)
Lemma yields_item kind n o bs d d' :
  1 <= kind <= 8 -> 0 <= n ->
  disdata kind n +++ o = Some bs -> reads o (parse_item mp types kind n d) d' -> yields bs d d'.
Proof.
  intros Hk Hn E Ho rest fuel Hf. unfold emits in E.
  destruct (disdata kind n) as [b1|] eqn:E1, o as [b2|]; simplify_eq.
  specialize (Ho b2 eq_refl rest). rewrite <- app_assoc in *. unfold disdata in E1.
  destruct ((n <? DMAX) && negb (n =? 0)) eqn:En.
  - injection E1 as <-. change DMAX with 16 in En.
    apply andb_true_iff in En as [?%Z.ltb_lt Hne%negb_true_iff].
    destruct (dbyte_facts kind n Hk ltac:(lia)) as (Hz & Hl & Ht).
    destruct fuel as [|fuel]; [lia |]. cbn [map app length] in Hf.
    exists fuel. split; [rewrite length_app in Hf; lia |].
    cbn [map app parse_items]. unfold mbind at 1, ld_bind at 1, byte.
    destruct (Z.eqb_spec (u8 (DBYTE kind n)) 0); [done |]. rewrite Hl, Ht, Hne.
    unfold mbind, ld_bind. simpl. by rewrite Ho.
  - destruct (dbyte_facts kind 0 Hk ltac:(lia)) as (Hz & Hl & Ht).
    destruct (discon n) as [b3|] eqn:E3; [| done]. injection E1 as <-.
    destruct fuel as [|fuel]; [lia |]. cbn [map app length] in Hf |- *.
    exists fuel. split; [rewrite !length_app in Hf; lia |].
    cbn [parse_items]. unfold mbind at 1, ld_bind at 1, byte.
    destruct (Z.eqb_spec (u8 (DBYTE kind 0)) 0); [done |]. rewrite Hl, Ht.
    unfold mbind, ld_bind. simpl. rewrite (reads_count n Hn b3 E3). by rewrite Ho.
Qed.
(** *** Runs of values *)

(** What the loader reads a value of a kind with. *)
Definition getter (kind : Z) : ld value :=
  if kind =? DEFB then b ← byte; mret (VByte b)
  else if kind =? DEFW then w ← diswi; mret (VWord w)
  else if kind =? DEFL then
    hi ← diswi; lo ← diswi; mret (VLong (Z.lor (Z.shiftl hi 32) (u32 lo)))
  else w0 ← disw; w1 ← disw; mret (VReal w0 w1).

Definition data_kind (k : Z) : Prop := k ∈ [DEFB; DEFW; DEFL; DEFF].

Lemma emit_app a b : emit (a ++ b) = emit a +++ emit b.
Proof. unfold emit. simpl. by rewrite map_app. Qed.

Lemma join_long l : Z.lor (Z.shiftl (i32 (u32 (Z.shiftr l 32))) 32) (u32 (i32 (u32 l))) = i64 l.
Proof.
  rewrite wrapu_wraps, wrapu_idem, wraps_wrapu by lia.
  rewrite lor_shiftl by (try done; apply (wrapu_range 32); lia).
  rewrite Z.shiftr_div_pow2 by lia. unfold wraps, wrapu.
  change (64 - 1) with 63. change (32 - 1) with 31. zlia.
Qed.

Lemma reads_enc kind v : data_kind kind -> vkind v = kind ->
  reads (emit (enc v)) (getter kind) (norm v).
Proof.
  intros Hk <-. destruct v as [b | w | l | w0 w1 | |]; cbn [enc norm vkind] in *.
  - apply (ld_reads_ret (emit [b]) byte VByte), reads_byte.
  - apply (ld_reads_ret (disword w) diswi VWord), reads_diswi.
  - rewrite emit_app, <- join_long.
    eapply (ld_reads_bind (disword _) (disword _) diswi); [apply reads_diswi |].
    apply (ld_reads_ret (disword _) diswi (fun lo => VLong (Z.lor _ (u32 lo)))), reads_diswi.
  - rewrite emit_app.
    eapply (ld_reads_bind (disword _) (disword _) disw); [apply reads_disword |].
    apply (ld_reads_ret (disword _) disw (VReal _)), reads_disword.
  - by exfalso; unfold data_kind in Hk; set_solver.
  - by exfalso; unfold data_kind in Hk; set_solver.
Qed.

Lemma vsize_norm v : vsize (norm v) = vsize v.
Proof. by destruct v. Qed.

Lemma reads_puts kind vs g si g' :
  data_kind kind -> Forall (fun v => vkind v = kind) vs -> stores g si vs = Some g' ->
  reads (emit (concat (map enc vs))) (puts mp (length vs) (getter kind) g si) g'.
Proof.
  intros Hk Hvs. revert g si. induction Hvs as [|v vs Hv _ IH]; intros g si E; simpl in E |- *.
  { simplify_eq. apply reads_nothing. }
  apply bind_Some in E as (g1 & E1 & E2). rewrite emit_app.
  eapply ld_reads_bind; [by apply reads_enc |]. unfold put. rewrite E1, vsize_norm.
  by apply IH.
Qed.

(** The item of a run. *)
Lemma reads_values kind off vs d g :
  data_kind kind -> is_long off -> Forall (fun v => vkind v = kind) vs ->
  stores (data d) (at_ d off) vs = Some g ->
  reads (discon off +++ emit (concat (map enc vs))) (parse_item mp types kind (zlen vs) d) (upd d g).
Proof.
  intros Hk Ho Hvs E. unfold parse_item. eapply ld_reads_bind; [by apply reads_discon |].
  pose proof (reads_puts kind vs _ _ g Hk Hvs E) as Hp. rewrite Nat2Z.id.
  unfold data_kind in Hk. rewrite !elem_of_cons, elem_of_nil in Hk.
  destruct Hk as [-> | [-> | [-> | [-> | []]]]]; by apply (ld_reads_ret _ _ (upd d)).
Qed.

(** *** The cache *)

(** [vs] are the values in the cache, which run up to [off]. *)
Record pend (c : dcache) (off : Z) (vs : list value) : Prop := {
  p_cache : cache c = map u8 (concat (map enc vs));
  p_ndatum : ndatum c = zlen vs;
  p_kinds : Forall (fun v => vkind v = lastkind c) vs;
  p_lastkind : lastkind c = -1 /\ vs = [] \/ data_kind (lastkind c);
  p_off : lastkind c <> -1 -> off = startoff c + vsizes vs;
  p_long : vs <> [] -> is_long (startoff c);
}.

(** The loader, in [d], is behind the cache by the values in it: with them it
    is in [dcur]. *)
Definition behind (d : dstate) (c : dcache) (off : Z) (dcur : dstate) : Prop :=
  exists vs g, pend c off vs /\ stores (data d) (at_ d (startoff c)) vs = Some g /\ dcur = upd d g.

Definition idle (c : dcache) : Prop := lastkind c = -1 /\ cache c = [] /\ ndatum c = 0.

Lemma upd_same d : upd d (data d) = d.
Proof. by destruct d. Qed.

Lemma data_kind_range k : data_kind k -> 1 <= k <= 8.
Proof. unfold data_kind. rewrite !elem_of_cons, elem_of_nil. unfold DEFB, DEFW, DEFL, DEFF. lia. Qed.

Lemma enc_cons_pos kind v vs : data_kind kind -> vkind v = kind -> 0 < zlen (concat (map enc (v :: vs))).
Proof.
  intros Hk <-. simpl. rewrite length_app.
  destruct v; simpl; try lia; exfalso; unfold data_kind in Hk; set_solver.
Qed.

Lemma emit_map bs : emit (map u8 bs) = emit bs.
Proof.
  unfold emit. f_equal. rewrite map_map. apply map_ext. intros b. apply wrapu_idem. lia.
Qed.

Lemma behind_empty d c off :
  cache c = [] -> ndatum c = 0 -> (lastkind c = -1 \/ data_kind (lastkind c)) ->
  (lastkind c <> -1 -> off = startoff c) -> behind d c off d.
Proof.
  intros Hc Hn Hk Ho. exists [], (data d). split; [| by rewrite upd_same].
  split; simpl; [done | done | done | | | done].
  - destruct Hk; [by left | by right].
  - intros. rewrite Ho by done. lia.
Qed.

Lemma behind_idle d c off dcur : behind d c off dcur -> lastkind c = -1 -> dcur = d /\ idle c.
Proof.
  intros (vs & g & P & E & ->) Hk.
  destruct (p_lastkind _ _ _ P) as [[_ ->] | K]; [| apply data_kind_range in K; lia].
  simpl in E. simplify_eq. rewrite upd_same. split; [done |].
  split; [done |]. split; [apply (p_cache _ _ _ P) | apply (p_ndatum _ _ _ P)].
Qed.

Lemma idle_behind d c off : idle c -> behind d c off d.
Proof. intros (Hk & Hc & Hn). apply behind_empty; [done | done | by left | lia]. Qed.

(** What [disflush] puts out catches the loader up. *)
Lemma flush_item d c off dcur :
  behind d c off dcur ->
  forall bs, (if negb (lastkind c =? -1) && (0 <? zlen (cache c))
     then disdata (lastkind c) (ndatum c) +++ discon (startoff c) +++ emit (cache c)
     else nothing) = Some bs -> yields bs d dcur.
Proof.
  intros (vs & g & [Hc Hn Hks Hk Ho Hl] & E & ->) bs Eb.
  assert (vs = [] -> bs = [] -> yields bs d (upd d g)) as Hnil.
  { intros -> ->. simpl in E. simplify_eq. rewrite upd_same. apply yields_nil. }
  destruct Hk as [[Hk ->] | Hk].
  { rewrite Hk in Eb. simpl in Eb. apply Hnil; [done | by injection Eb]. }
  pose proof (data_kind_range _ Hk) as Hr.
  replace (lastkind c =? -1) with false in Eb by (symmetry; apply Z.eqb_neq; lia).
  rewrite Hc, length_map in Eb. cbn [negb andb] in Eb.
  destruct vs as [|v vs].
  { apply Hnil; [done | by injection Eb]. }
  pose proof (enc_cons_pos _ v vs Hk (Forall_inv Hks)).
  replace (0 <? zlen (concat (map enc (v :: vs)))) with true in Eb by lia.
  rewrite Hn, emit_map in Eb. eapply (yields_item (lastkind c) (zlen (v :: vs))); [done | lia | exact Eb |].
  apply reads_values; [done | by apply Hl | done | done].
Qed.

Lemma flush_behind kind off sz d c dcur bs c' :
  kind = -1 \/ data_kind kind -> behind d c (lastoff c) dcur ->
  disflush kind off sz c = Some (bs, c') ->
  exists d', yields bs d d' /\ behind d' c' off dcur /\ lastkind c' = kind /\ lastoff c' = off + sz.
Proof.
  intros Hkind B E. unfold disflush in E.
  destruct (negb (kind =? lastkind c) || negb (off =? lastoff c)) eqn:Ek.
  - destruct (if negb (lastkind c =? -1) && _ then _ else nothing) as [o|] eqn:Eo; [| done].
    destruct (grow _ _ _ _ _); [| done]. injection E as <- <-. cbn [cache ndatum startoff lastkind].
    exists dcur. split; [by eapply flush_item |]. split; [by apply behind_empty | done].
  - destruct (grow _ _ _ _ _); [| done]. simplify_eq. apply orb_false_iff in Ek as [Ek%negb_false_iff Eo%negb_false_iff].
    apply Z.eqb_eq in Ek as ->. apply Z.eqb_eq in Eo as ->.
    exists d. split; [apply yields_nil |]. split; [| done].
    destruct B as (vs & g & [] & Eg & ->). by exists vs, g.
Qed.

(** Before a string or an array the cache is written out. *)
Lemma flush_idle d c dcur bs c' :
  behind d c (lastoff c) dcur -> disflush (-1) (-1) 0 c = Some (bs, c') ->
  yields bs d dcur /\ idle c'.
Proof.
  intros B E. destruct (flush_behind (-1) (-1) 0 d c dcur bs c' ltac:(by left) B E)
    as (d' & Hy & B' & Hk & _).
  destruct (behind_idle _ _ _ _ B' Hk) as [-> Hi]. done.
Qed.

(** *** Commands *)

(** The kinds are right. *)
Definition kind_cmd (c : cmd) : Prop :=
  match c with
  | CVals kind off vs => data_kind kind /\ Forall (fun v => vkind v = kind) vs
  | _ => True
  end.

(** The offset is 32-bit. *)
Definition long_cmd (c : cmd) : Prop :=
  match c with
  | CVals _ off _ | CString off _ | CArray off _ _ _ => is_long off
  | CPop => True
  end.

Definition wf_cmd (c : cmd) : Prop := kind_cmd c /\ long_cmd c.

Lemma stores_app vs1 vs2 g si :
  stores g si (vs1 ++ vs2) = stores g si vs1 ≫= fun g => stores g (si.1, si.2 + vsizes vs1) vs2.
Proof.
  revert g si. induction vs1 as [|v vs1 IH]; intros g [r o]; simpl.
  - by rewrite Z.add_0_r.
  - destruct (st g (r, o) (norm v)); simpl; [| done]. rewrite IH. simpl. by rewrite Z.add_assoc.
Qed.

Lemma vsizes_app vs1 vs2 : vsizes (vs1 ++ vs2) = vsizes vs1 + vsizes vs2.
Proof. induction vs1; simpl; lia. Qed.

(** Values join those in the cache. *)
Lemma cached_behind d c kind off vs dcur g :
  behind d c off dcur -> lastkind c = kind -> data_kind kind -> is_long off ->
  Forall (fun v => vkind v = kind) vs -> lastoff c = off + vsizes vs ->
  stores (data dcur) (at_ dcur off) vs = Some g ->
  forall bs c', dcached (concat (map enc vs)) (zlen vs) c = Some (bs, c') ->
    bs = [] /\ behind d c' (lastoff c') (upd dcur g).
Proof.
  intros (vs0 & g0 & [] & E0 & ->) Hk Hd Hl Hvs Ho E bs c' Ec. unfold dcached in Ec.
  destruct (_ <=? lencache c); [| done]. injection Ec as <- <-. split; [done |].
  pose proof (data_kind_range _ Hd). specialize (p_off0 ltac:(lia)). simpl in E. unfold at_ in E. simpl in E.
  exists (vs0 ++ vs), g. cbn [lastoff startoff]. split.
  - split; cbn [cache ndatum startoff lastoff lastkind].
    + by rewrite p_cache0, map_app, concat_app, map_app.
    + rewrite p_ndatum0, length_app. lia.
    + apply Forall_app. rewrite Hk in *. done.
    + right. by rewrite Hk.
    + intros _. rewrite vsizes_app. lia.
    + intros Hne. destruct vs0; [| by apply p_long0]. simpl in p_off0. by replace (startoff c) with off by lia.
  - split; [| done]. rewrite stores_app, E0. cbn [mbind option_bind fst snd at_].
    by rewrite p_off0, Z.add_assoc in E.
Qed.

Lemma find_last_snoc l w v : find_last (l ++ [(w, v)]) w = Some v.
Proof.
  induction l as [|[w' v'] l IH]; simpl; [by rewrite decide_True by done | by rewrite IH].
Qed.

Lemma store_inv g si v g' : st g si v = Some g' ->
  g' = MkSeg (log g ++ [(si, v)]) (arrays g) /\
  exists t size, region_ty mp g si.1 = Some (t, size) /\ 0 <= si.2 /\ si.2 + vsize v <= size.
Proof.
  unfold Load.store. destruct (region_ty mp g si.1) as [[t size]|]; [| done].
  destruct (Z.leb_spec 0 si.2), (Z.leb_spec (si.2 + vsize v) size); simpl; intros; simplify_eq.
  split; [done |]. by exists t, size.
Qed.

(** The items of strings and arrays. *)
Lemma reads_disstring off s d g : is_long off ->
  st (data d) (at_ d off) (VString (map u8 s)) = Some g ->
  reads (discon off +++ emit s) (parse_item mp types DEFS (zlen s) d) (upd d g).
Proof.
  intros Ho E. unfold parse_item. eapply ld_reads_bind; [by apply reads_discon |].
  change (DEFS =? DEFS) with true. cbv iota beta zeta.
  assert (reads (emit s) (bytes_ (zlen s)) (map u8 s)) as Hb.
  { rewrite <- emit_map, <- (length_map u8 s). apply reads_bytes.
    apply Forall_map, Forall_forall. intros. apply u8_byte. }
  intros bs Eb rest. unfold mbind at 1, ld_bind at 1. rewrite (Hb bs Eb rest).
  unfold put, mbind, ld_bind. unfold at_ in E. by rewrite E.
Qed.

Lemma reads_array off tid len d t g :
  is_long off -> 0 <= i32 tid < zlen types -> types !! Z.to_nat (i32 tid) ≫= (fun t => t) = Some t ->
  0 <= i32 len -> 0 <= t_size t -> t_size t * i32 len < 2 ^ 31 ->
  st (MkSeg (log (data d)) (arrays (data d) ++ [MkArray t (i32 len)])) (at_ d off)
    (VArray (length (arrays (data d)))) = Some g ->
  reads (discon off +++ disword tid +++ disword len) (parse_item mp types DEFA 1 d) (upd d g).
Proof.
  intros Ho Htid Et Hlen Hs Hsz E. unfold parse_item. eapply ld_reads_bind; [by apply reads_discon |].
  change (DEFA =? DEFA) with true. cbv beta zeta. cbn [Z.eqb].
  change (reads (disword tid +++ disword len)
    (v ← diswi;
     guard_bad ((0 <=? v) && (v <=? zlen types)) EBadArrayType;;
     pt ← type_at types v;
     match pt with
     | None => fault
     | Some pt =>
         v ← diswi;
         guard_fault ((0 <=? v) && (0 <=? t_size pt) && (t_size pt * v <? 2 ^ 31));;
         g ← put mp (MkSeg (log (data d)) (arrays (data d) ++ [MkArray pt v])) (at_ d off)
               (VArray (length (arrays (data d))));
         mret (upd d g)
     end) (upd d g)).
  eapply ld_reads_bind; [apply reads_diswi |]. apply reads_guard_bad; [lia |].
  rewrite type_at_spec, Et by done. intros bs Eb rest. unfold mbind at 1, ld_bind at 1.
  cbn [mret ld_ret]. revert bs Eb rest.
  change (reads (disword len) (v ← diswi;
    guard_fault ((0 <=? v) && (0 <=? t_size t) && (t_size t * v <? 2 ^ 31));;
    g ← put mp (MkSeg (log (data d)) (arrays (data d) ++ [MkArray t v])) (at_ d off)
          (VArray (length (arrays (data d)))); mret (upd d g)) (upd d g)).
  intros bs Eb rest. unfold mbind at 1, ld_bind at 1. rewrite (reads_diswi len bs Eb rest).
  replace ((0 <=? i32 len) && (0 <=? t_size t) && (t_size t * i32 len <? 2 ^ 31)) with true by lia.
  unfold put, mbind, ld_bind. simpl. by rewrite E.
Qed.

Lemma reads_enter off d ty len g : is_long off -> 0 <= len ->
  st (MkSeg (log (data d)) (arrays (data d) ++ [MkArray ty len])) (at_ d off)
    (VArray (length (arrays (data d)))) = Some g ->
  (length (dastack d) < DADEPTH)%nat ->
  reads (discon off +++ disword 0) (parse_item mp types DIND 1 (upd d g))
    (MkState (Arr (length (arrays (data d))), 0) (addr d :: dastack d) g).
Proof.
  intros Ho Hlen E Hd. unfold parse_item. eapply ld_reads_bind; [by apply reads_discon |].
  destruct (store_inv _ _ _ _ E) as (-> & t & size & Er & H0 & Hsz).
  intros bs Eb rest. cbn [DIND DEFS DEFB DEFW DEFL DEFF DEFA Z.eqb Pos.eqb Z.mul].
  unfold array_at, mbind at 1, ld_bind at 1. cbn [data upd addr log arrays].
  change ((addr d).1, (addr d).2 + off) with (at_ d off). cbn [upd data log arrays] in *.
  unfold region_ty in Er |- *. cbn [arrays] in Er |- *. rewrite Er.
  replace ((0 <=? (at_ d off).2) && ((at_ d off).2 + IBY2WD <=? size)) with true
    by (change (vsize (VArray (length (arrays (data d))))) with IBY2WD in Hsz; lia).
  unfold guard_fault at 1, mbind at 1, ld_bind at 1. cbn [mret ld_ret].
  rewrite find_last_snoc, lookup_app_r, Nat.sub_diag by done. cbn [lookup list_lookup].
  unfold mbind at 1, ld_bind at 1. cbn [mret ld_ret].
  rewrite (reads_diswi 0 bs Eb rest).
  change (i32 0) with 0. unfold mbind, ld_bind. unfold upd. cbn [a_len dastack].
  replace ((0 <=? 0) && (0 <=? len) && (length (dastack d) <? DADEPTH)%nat) with true
    by (symmetry; rewrite !andb_true_iff, Nat.ltb_lt; lia).
  reflexivity.
Qed.

Lemma reads_pop d a l : dastack d = a :: l ->
  reads (discon 0) (parse_item mp types DAPOP 1 d) (MkState a l (data d)).
Proof.
  intros E bs Eb rest. unfold parse_item, mbind, ld_bind. rewrite (reads_discon 0 ltac:(lia) bs Eb rest).
  cbn [DAPOP DIND DEFS DEFB DEFW DEFL DEFF DEFA Z.eqb Pos.eqb]. by rewrite E.
Qed.

Lemma dseq_inv a b c bs c' : (a >>=> b) c = Some (bs, c') ->
  exists b1 c1 b2, a c = Some (b1, c1) /\ b c1 = Some (b2, c') /\ bs = b1 ++ b2.
Proof.
  intros E. unfold dseq in E. destruct (a c) as [[b1 c1]|] eqn:Ea; [| done].
  destruct (b c1) as [[b2 c2]|] eqn:Eb; [| done]. injection E as <- <-. by exists b1, c1, b2.
Qed.

Lemma dput_inv o c bs c' : dput o c = Some (bs, c') -> o = Some bs /\ c' = c.
Proof. unfold dput. destruct o; [| done]. intros E. by injection E as <- <-. Qed.

(** A command: the loader catches up with the cache, and the cache is ahead
    of it by no more than values. *)
Lemma run_cmd_yields cm d c dcur dcur' bs c' :
  wf_cmd cm -> behind d c (lastoff c) dcur ->
  run_cmd cm c = Some (bs, c') -> exec_cmd cm dcur = Some dcur' ->
  exists d', yields bs d d' /\ behind d' c' (lastoff c') dcur'.
Proof.
  intros Hwf B E X. destruct cm as [kind off vs | off s | off tid len enter |].
  - destruct Hwf as ((Hk & Hvs) & Ho). cbn [run_cmd exec_cmd] in E, X.
    apply dseq_inv in E as (b1 & c1 & b2 & E1 & E2 & ->).
    destruct (flush_behind _ _ _ _ _ _ _ _ ltac:(by right) B E1) as (d' & Hy & B' & Hk' & Hl').
    apply fmap_Some in X as (g & X & ->).
    destruct (cached_behind _ _ kind off vs _ g B' Hk' Hk Ho Hvs Hl' X _ _ E2) as [-> B2].
    exists d'. by rewrite app_nil_r.
  - apply proj2 in Hwf. cbn [run_cmd exec_cmd disstring] in E, X. apply dseq_inv in E as (b1 & c1 & b2 & E1 & E2 & ->).
    destruct (flush_idle _ _ _ _ _ B E1) as [Hy Hi]. apply dput_inv in E2 as [E2 ->].
    apply fmap_Some in X as (g & X & ->). exists (upd dcur g). split; [| by apply idle_behind].
    eapply yields_app; [done |]. eapply (yields_item DEFS (zlen s)); [unfold DEFS; lia | lia | exact E2 |].
    by apply reads_disstring.
  - apply proj2 in Hwf. cbn [run_cmd exec_cmd] in E, X. apply dseq_inv in E as (b1 & c1 & b2 & E1 & E2 & ->).
    destruct (flush_idle _ _ _ _ _ B E1) as [Hy Hi].
    apply dseq_inv in E2 as (b3 & c2 & b4 & E2 & E3 & ->). apply dput_inv in E2 as [E2 ->].
    destruct ((0 <=? i32 tid) && (i32 tid <? zlen types)) eqn:Htid; [| done]. apply andb_true_iff in Htid as [?%Z.leb_le ?%Z.ltb_lt].
    destruct (_ ≫= _) as [t|] eqn:Et in X; [| done]. destruct ((0 <=? i32 len) && _ && _) eqn:Hlen; [| done].
    rewrite !andb_true_iff, !Z.leb_le, Z.ltb_lt in Hlen. destruct Hlen as [[Hlen Hs] Hsz].
    apply bind_Some in X as (g & X & X').
    assert (yields (b1 ++ b3) d (upd dcur g)) as Hy'.
    { eapply yields_app; [done |]. eapply (yields_item DEFA 1); [unfold DEFA; lia | lia | exact E2 |].
      by eapply reads_array. }
    rewrite app_assoc. destruct enter.
    + apply dput_inv in E3 as [E3 ->]. destruct (_ <? DADEPTH)%nat eqn:Hd; [| done]. apply Nat.ltb_lt in Hd. simplify_eq.
      eexists. split; [| by apply idle_behind]. eapply yields_app; [exact Hy' |].
      eapply (yields_item DIND 1); [unfold DIND; lia | lia | exact E3 |].
      by apply (reads_enter off dcur t (i32 len)).
    + injection E3 as <- <-. simplify_eq. rewrite app_nil_r. eexists.
      split; [exact Hy' | by apply idle_behind].
  - cbn [run_cmd exec_cmd] in E, X. apply dseq_inv in E as (b1 & c1 & b2 & E1 & E2 & ->).
    destruct (flush_idle _ _ _ _ _ B E1) as [Hy Hi]. apply dput_inv in E2 as [E2 ->].
    destruct (dastack dcur) as [|a l] eqn:Es; [done |]. simplify_eq.
    eexists. split; [| by apply idle_behind]. eapply yields_app; [done |].
    eapply (yields_item DAPOP 1); [unfold DAPOP; lia | lia | exact E2 |]. by apply reads_pop.
Qed.

Lemma run_cmds_yields cs d c dcur dcur' bs c' :
  Forall wf_cmd cs -> behind d c (lastoff c) dcur ->
  run_cmds cs c = Some (bs, c') -> exec_cmds cs dcur = Some dcur' ->
  exists d', yields bs d d' /\ behind d' c' (lastoff c') dcur'.
Proof.
  intros Hwf. revert d c dcur bs. induction Hwf as [|cm cs Hc _ IH]; intros d c dcur bs B E X; simpl in E, X.
  - injection E as <- <-. simplify_eq. exists d. split; [apply yields_nil | done].
  - apply dseq_inv in E as (b1 & c1 & b2 & E1 & E2 & ->).
    apply bind_Some in X as (d1 & X1 & X2).
    destruct (run_cmd_yields _ _ _ _ _ _ _ Hc B E1 X1) as (d1' & Hy1 & B1).
    destruct (IH _ _ _ _ B1 E2 X2) as (d2 & Hy2 & B2). exists d2.
    split; [by eapply yields_app | done].
Qed.

End Loader.

Section Flatten.

Lemma kind_vals v vs off :
  data_kind (vkind v) -> Forall (fun w => vkind w = vkind v) vs -> kind_cmd (CVals (vkind v) off vs).
Proof. done. Qed.

Lemma kind_bytes off bs : kind_cmd (CVals DEFB off (map VByte bs)).
Proof. split; [unfold data_kind; set_solver |]. by apply Forall_map, Forall_true. Qed.

Lemma kind_cval off v : data_kind (vkind v) -> kind_cmd (cval off v).
Proof. intros. split; [done |]. by constructor. Qed.

Ltac kinds :=
  repeat first [apply List.Forall_nil | apply List.Forall_cons | apply Forall_app; split];
  try first [exact I | apply kind_bytes | apply kind_cval; unfold data_kind; set_solver].

Lemma flat_case_kinds labs off wild : Forall kind_cmd (flat_case off labs wild).
Proof. revert off. induction labs as [|[[? ?] ?] labs IH]; intros off; simpl; kinds. apply IH. Qed.

Lemma flat_casec_kinds labs off wild : Forall kind_cmd (flat_casec off labs wild).
Proof.
  revert off. induction labs as [|[[? [?|]] ?] labs IH]; intros off; simpl; kinds; apply IH.
Qed.

Lemma flat_goto_kinds labs off wild : Forall kind_cmd (flat_goto off labs wild).
Proof.
  revert off. induction labs as [|? labs IH]; intros off; simpl; [destruct wild |]; kinds. apply IH.
Qed.

Lemma flat_iface_kinds ids off : Forall kind_cmd (flat_iface off ids).
Proof.
  revert off. induction ids as [|[[? [?|]] ?] ids IH]; intros off; cbn [flat_iface]; cbv zeta;
    kinds; apply IH.
Qed.

Lemma repeat_at_kinds esz elem last n :
  (forall o, Forall kind_cmd (elem o)) -> Forall kind_cmd (repeat_at esz elem last n).
Proof. intros He. revert last. induction n as [|n IH]; intros last; simpl; kinds; [apply He | apply IH]. Qed.

Lemma flatten_kinds n off : Forall kind_cmd (flatten off n).
Proof.
  revert off. apply (datum_ind' (fun n => forall off, Forall kind_cmd (flatten off n))); clear n.
  - intros n. destruct n as [| | | | | | | | | | ? ? ? [[]|] |]; try exact I; intros off; simpl; kinds;
      first [apply flat_case_kinds | apply flat_casec_kinds | apply flat_goto_kinds | apply flat_iface_kinds].
  - intros fields IH off. simpl. induction IH as [|[o f] fields Hf _ IH']; simpl; kinds; [apply Hf | apply IH'].
  - intros tid esz len labs wild IHl IHw off. cbn [flatten]. kinds.
    assert (forall last e, Forall kind_cmd match wild with
      | Some w => repeat_at esz (fun o => flatten o w) last (Z.to_nat (e - last)) | None => [] end) as Hw.
    { intros. destruct wild as [w|]; kinds. apply repeat_at_kinds. intros. by apply IHw. }
    generalize 0. induction IHl as [|[[start stop] elem] labs He _ IH]; intros last; [apply Hw |].
    kinds; [apply Hw | apply repeat_at_kinds, He | apply IH].
Qed.

Lemma flatten_all_kinds ds : Forall kind_cmd (flatten_all ds).
Proof. apply Forall_concat, Forall_map, Forall_true. intros [off n]. apply flatten_kinds. Qed.

Lemma disglobals_cmds ds : disglobals ds ≃ run_cmds (flatten_all ds).
Proof.
  unfold flatten_all. induction ds as [|[off n] ds IH]; simpl; [done |].
  by rewrite run_cmds_app, IH, disdatum_cmds.
Qed.

(** The whole data section. *)
Definition start : dstate := MkState (MP, 0) [] (MkSeg [] []).

Lemma reads_disvar mp types ds d :
  Forall long_cmd (flatten_all ds) -> exec_cmds mp types (flatten_all ds) start = Some d ->
  reads (disvar ds) (fun s => parse_items mp types (S (length s)) start s) d.
Proof.
  intros Hl X bs E rest. unfold disvar in E.
  destruct ((disglobals ds >>=> _) _) as [[bs' c']|] eqn:E1; [| done]. injection E as ->.
  apply dseq_inv in E1 as (b1 & c1 & b2 & E1 & E2 & ->).
  apply dseq_inv in E2 as (b3 & c2 & b4 & E2 & E3 & ->). apply dput_inv in E3 as [E3 ->].
  rewrite (disglobals_cmds ds _) in E1.
  assert (Forall wf_cmd (flatten_all ds)) as Hwf.
  { apply Forall_and. split; [apply flatten_all_kinds | done]. }
  destruct (run_cmds_yields mp types _ start (MkCache [] 0 0 0 (-1) 0) start d b1 c1 Hwf) as (d1 & Y1 & B1); [| done | done |].
  { by apply idle_behind. }
  destruct (flush_idle mp types _ _ _ _ _ B1 E2) as [Y2 _].
  pose proof (yields_app mp types _ _ _ _ _ Y1 Y2) as Y.
  assert (b4 = [0]) as -> by (by injection E3).
  replace ((b1 ++ b3 ++ [0]) ++ rest) with ((b1 ++ b3) ++ [0] ++ rest) by (by rewrite <- !app_assoc).
  destruct (Y ([0] ++ rest) _ (Nat.lt_succ_diag_r _)) as (f & Hf & ->).
  destruct f as [|f]; [simpl in Hf; lia |]. reflexivity.
Qed.
End Flatten.
