(* ===== verification/DisModule.v ===== *)
(** * Modules: written by the compiler, read by the loader

    The round trip of a whole module ([modcom], then [parsemod]), what is true
    of every module the loader accepts, and where its checks end. *)

From S2P Require Import Prelude Bytes Dis Load DisProof DisData.
Import Load.

#[local] Open Scope Z_scope.
#[local] Open Scope inf.

(** ** The image of an object *)

Definition types_of (o : object) : list (option Ty) :=
  image_types (descs o) (replicate (length (descs o)) None).

Definition mp_of (o : object) : Ty :=
  if Dis.mpsize o =? 0 then MkTy 0 0 []
  else match types_of o !! 0%nat with Some (Some t) => t | _ => MkTy 0 0 [] end.

Definition entry_of (o : object) : Z * option Ty :=
  match entry o with
  | None => (0, None)
  | Some (pc, desc) => (pc, types_of o !! Z.to_nat desc ≫= (fun t => t))
  end.

(** The data are the stores of the flattened globals, in order. *)
Definition data_of (o : object) : option dstate :=
  exec_cmds (mp_of o) (types_of o) (flatten_all (globals o)) start.

Definition image (o : object) (d : dstate) : Module_ :=
  MkModule (hints o) (maxstack o) (map image_inst (insts o)) (Dis.mpsize o) (types_of o) (data d)
    (take (Z.to_nat (NAMELEN - 1)) (Dis.name o)) (rev (map (image_link (types_of o)) (links o)))
    (entry_of o).1 (entry_of o).2.

(** What the compiler's front end guarantees, of an object that is not too large
    for the loader's allocator. *)
Record wf_object (o : object) : Prop := {
  wo_hints : is_long (hints o);
  wo_maxstack : is_long (maxstack o);
  wo_mpsize : is_long (Dis.mpsize o);
  wo_ninsts : zlen (insts o) * sizeof_Inst < 2 ^ 30;
  wo_ndescs : zlen (descs o) * 4 < 2 ^ 30;
  wo_insts : Forall (wf_inst (zlen (insts o))) (insts o);
  wo_descs : Forall (wf_desc (zlen (descs o))) (descs o);
  wo_mp : Dis.mpsize o = 0 \/
    exists t, types_of o !! 0%nat = Some (Some t) /\ t_size t = Dis.mpsize o;
  wo_links : Forall (wf_link (zlen (descs o))) (links o);
  wo_entry : match entry o with
    | None => True
    | Some (pc, desc) => 0 <= pc < zlen (insts o) /\ 0 <= desc < zlen (descs o)
    end;
  wo_offsets : Forall long_cmd (flatten_all (globals o));
  wo_name : name_chars (take (Z.to_nat (NAMELEN - 1)) (Dis.name o));
}.

Section RoundTrip.

Lemma sane_ok n : 0 <= n < 2 ^ 30 -> sane n = true.
Proof. intros Hn. unfold sane. rewrite wraps_id; lia. Qed.

Lemma length_image_types ds types : length (image_types ds types) = length types.
Proof.
  revert types. induction ds as [|d ds IH]; intros types; simpl; [done |].
  by rewrite IH, length_insert.
Qed.

Lemma zlen_types_of o : zlen (types_of o) = zlen (descs o).
Proof. unfold types_of. by rewrite length_image_types, length_replicate. Qed.

(** The entry as two operands, and as the loader checks it. *)
Definition entry_words (o : object) : Z * Z :=
  match entry o with None => (-1, -1) | Some p => p end.

Lemma disentry_words o : disentry (entry o) = discon (entry_words o).1 +++ discon (entry_words o).2.
Proof. unfold entry_words. by destruct (entry o) as [[pc desc]|]. Qed.

Lemma entry_facts o : wf_object o ->
  is_long (entry_words o).1 /\ is_long (entry_words o).2 /\
  (let enter := (u32 (entry_words o).1 <? u32 (zlen (insts o))) && (u32 (entry_words o).2 <? u32 (zlen (descs o))) in
   (if enter then (entry_words o).1 else 0) = (entry_of o).1 /\
   (if enter then types_of o !! Z.to_nat (entry_words o).2 ≫= (fun t => t) else None) = (entry_of o).2).
Proof.
  intros W. pose proof (wo_entry o W) as He. pose proof (wo_ninsts o W). pose proof (wo_ndescs o W).
  unfold sizeof_Inst in *. rewrite (wrapu_id 32 (zlen (insts o))), (wrapu_id 32 (zlen (descs o))) by lia.
  unfold entry_words, entry_of. destruct (entry o) as [[pc desc]|]; cbn [fst snd].
  - split; [lia |]. split; [lia |]. rewrite !(wrapu_id 32) by lia.
    replace (pc <? zlen (insts o)) with true by lia. by replace (desc <? zlen (descs o)) with true by lia.
  - split; [lia |]. split; [lia |]. change (u32 (-1)) with (2 ^ 32 - 1).
    by replace (2 ^ 32 - 1 <? zlen (insts o)) with false by lia.
Qed.

Lemma reads_mp {A} o out (k : Ty -> ld A) a : wf_object o ->
  reads out (k (mp_of o)) a -> reads out (parse_mp (Dis.mpsize o) (types_of o) ≫= k) a.
Proof.
  intros W Hk bs E rest. unfold parse_mp, mp_of in *. destruct (wo_mp o W) as [Hz | (t & Et & Hs)].
  - rewrite Hz in *. by apply Hk.
  - destruct (Z.eqb_spec (Dis.mpsize o) 0); [by apply Hk |]. rewrite Et in Hk.
    unfold type_at, mbind, ld_bind. cbn [Z.ltb]. change (Z.to_nat 0) with 0%nat. rewrite Et.
    simpl. rewrite Hs, Z.eqb_refl. simpl. by apply Hk.
Qed.

Lemma reads_modcom o cflag compile d : wf_object o -> data_of o = Some d ->
  cflag || (Z.land (hints o) MUSTCOMPILE =? 0) || compile = true ->
  reads (modcom o) (parsemod cflag compile) (image o d).
Proof.
  intros W Hd Hc. unfold modcom, parsemod. rewrite disentry_words, !emits_assoc.
  destruct (entry_facts o W) as (He1 & He2 & He). pose proof (zlen_types_of o) as Ht.
  eapply ld_reads_bind; [apply reads_discon; unfold XMAGIC; lia |].
  change (XMAGIC =? SMAGIC) with false. apply reads_guard_bad; [apply Z.eqb_refl |].
  eapply ld_reads_bind; [apply reads_discon, W |]. eapply ld_reads_bind; [apply reads_discon, W |].
  eapply ld_reads_bind; [apply reads_count; lia |]. eapply ld_reads_bind; [apply reads_discon, W |].
  eapply ld_reads_bind; [apply reads_count; lia |]. eapply ld_reads_bind; [apply reads_count; lia |].
  eapply ld_reads_bind; [by apply reads_discon |]. eapply ld_reads_bind; [by apply reads_discon |].
  pose proof (wo_ninsts o W) as Hni. pose proof (wo_ndescs o W) as Hnd.
  apply reads_guard_bad; [apply sane_ok; unfold sizeof_Inst in *; lia |]. rewrite !Nat2Z.id.
  eapply ld_reads_bind; [apply reads_insts; [apply W | rewrite wraps_id; unfold sizeof_Inst in *; lia] |].
  apply reads_guard_bad; [apply sane_ok; lia |].
  eapply ld_reads_bind; [apply reads_types; [lia | apply W] |]. apply reads_mp; [done |].
  eapply ld_reads_bind; [apply reads_disvar; [apply W | exact Hd] |].
  unfold dismod. rewrite <- emits_assoc. eapply ld_reads_bind; [apply reads_cstring, W |].
  intros bs E rest. unfold mbind at 1, ld_bind at 1.
  rewrite (reads_links (types_of o) (links o) []) with (bs := bs);
    [| rewrite Ht; lia | rewrite Ht; apply W | done].
  cbv zeta. rewrite Hc. unfold guard_bad, mbind at 1, ld_bind at 1. cbn [mret ld_ret].
  fold (types_of o). destruct He as [He3 He4].
  rewrite He3, He4, app_nil_r. unfold image. do 2 f_equal. rewrite take_take.
  reflexivity.
Qed.

(** C8. A module written by the compiler is read back by the loader:
    instructions, type descriptors, links and entry are those of the object,
    the initial data are the stores of its globals one by one, and the loader
    stops right after the module. *)
Theorem parsemod_modcom o cflag compile d bs rest :
  wf_object o -> data_of o = Some d ->
  cflag || (Z.land (hints o) MUSTCOMPILE =? 0) || compile = true ->
  modcom o = Some bs ->
  parsemod cflag compile (bs ++ rest) = LOk (image o d) rest.
Proof. intros W Hd Hc E. by apply (reads_modcom o cflag compile d W Hd Hc bs E). Qed.

End RoundTrip.

(** ** Constants *)

Section Operands.

Lemma ld_bind_inv {A B} (p : ld A) (k : A -> ld B) s b r :
  (p ≫= k) s = LOk b r -> exists a s', p s = LOk a s' /\ k a s' = LOk b r.
Proof. unfold mbind, ld_bind. destruct (p s); [eauto | done | done]. Qed.

Lemma byte_inv s b r : byte s = LOk b r -> s = b :: r.
Proof. destruct s; [done |]. intros E. by injection E as -> ->. Qed.

(** The first byte of a constant: its kind, and what it holds of the value. *)
Lemma first_byte c : is_byte c ->
  let k := Z.land c 0xC0 in
  (k = 0 -> 0 <= c < 64) /\ (k = 0x40 -> -64 <= Z.lor c (Z.lnot 0x7F) < 0) /\
  (k = 0 \/ k = 0x40 \/ k = 0x80 \/ k = 0xC0) /\ -32 <= sext6 c < 32.
Proof.
  intros Hc k.
  assert (all_below 256 (fun c => let k := Z.land c 0xC0 in
    (negb (k =? 0) || ((0 <=? c) && (c <? 64))) &&
    (negb (k =? 0x40) || ((-64 <=? Z.lor c (Z.lnot 0x7F)) && (Z.lor c (Z.lnot 0x7F) <? 0))) &&
    ((k =? 0) || (k =? 0x40) || (k =? 0x80) || (k =? 0xC0)) &&
    ((-32 <=? sext6 c) && (sext6 c <? 32))) = true) as Hall by by vm_compute.
  pose proof (all_below_spec _ _ Hall c Hc) as H. cbv beta zeta in H. fold k in H.
  rewrite !andb_true_iff, !orb_true_iff, !negb_true_iff, !andb_true_iff, !Z.eqb_neq, !Z.eqb_eq,
    !Z.leb_le, !Z.ltb_lt in H. destruct H as [[[H1 H2] H3] H4]. repeat split; try tauto; lia.
Qed.

Lemma be_range x b : is_byte b -> Z.lor (Z.shiftl x 8) b = x * 256 + b.
Proof. intros. by rewrite lor_shiftl by lia. Qed.

Lemma operand_inv s v r : bytes s -> operand s = LOk v r -> - 2 ^ 29 <= v < 2 ^ 29 /\ bytes r.
Proof.
  intros Hs E. unfold operand in E.
  apply ld_bind_inv in E as (c & s1 & Ec & E). apply byte_inv in Ec as ->. cbv zeta in E.
  apply Forall_cons in Hs as [Hc Hs]. destruct (first_byte c Hc) as (H0 & H1 & H2 & H3).
  destruct (Z.eqb_spec (Z.land c 0xC0) 0). { injection E as <- <-. split; [lia | done]. }
  destruct (Z.eqb_spec (Z.land c 0xC0) 0x40). { injection E as <- <-. split; [lia | done]. }
  change (if negb (Z.land c 0x20 =? 0) then Z.lor c (Z.lnot 0x3F) else Z.land c 0x3F) with (sext6 c) in E.
  destruct (Z.eqb_spec (Z.land c 0xC0) 0x80).
  - apply ld_bind_inv in E as (c1 & s2 & Ec & E). apply byte_inv in Ec as ->.
    apply Forall_cons in Hs as [Hc1 Hs]. injection E as <- <-. rewrite be_range by done. split; [lia | done].
  - apply ld_bind_inv in E as (c1 & s2 & Ec & E). apply byte_inv in Ec as ->.
    apply ld_bind_inv in E as (c2 & s3 & Ec & E). apply byte_inv in Ec as ->.
    apply ld_bind_inv in E as (c3 & s4 & Ec & E). apply byte_inv in Ec as ->.
    rewrite !Forall_cons in Hs. destruct Hs as (Hc1 & Hc2 & Hc3 & Hs). injection E as <- <-.
    split; [| done].
    assert (Z.lor (Z.lor (Z.lor (Z.shiftl (sext6 c) 24) (Z.shiftl c1 16)) (Z.shiftl c2 8)) c3 =
      ((sext6 c * 256 + c1) * 256 + c2) * 256 + c3) as ->; [| lia].
    rewrite <- (be_range (sext6 c)), <- be_range, <- be_range by done.
    rewrite !Z.shiftl_lor, !Z.shiftl_shiftl by lia. reflexivity.
Qed.

(** The range of a constant, and the bytes it takes. *)
Definition con_range (v : Z) : Prop := - 2 ^ 29 <= v < 2 ^ 29.
Definition con_bytes (v : Z) : Z :=
  if (-64 <=? v) && (v <=? 63) then 1 else if (-8192 <=? v) && (v <=? 8191) then 2 else 4.

(** Constants: the compiler writes a 32-bit [val] in one, two or four
    bytes if it lies within 30 signed bits and gives up otherwise; the loader
    reads back the same value; and whatever bytes it reads, it never gets a
    value outside that range. *)
Theorem discon_operand v : is_long v ->
  match discon v with
  | Some bs =>
      con_range v /\ zlen bs = con_bytes v /\ forall rest, operand (bs ++ rest) = LOk v rest
  | None => ~ con_range v
  end /\
  forall s w r, bytes s -> operand s = LOk w r -> exists bs, discon w = Some bs.
Proof.
  intros Hv. split.
  - pose proof (discon_spec v Hv) as Hs. destruct (discon v) as [bs|] eqn:E; [| done].
    destruct Hs. do 2 (split; [done |]). by apply reads_discon.
  - intros s w r Hs E. destruct (operand_inv s w r Hs E) as [Hw _].
    pose proof (discon_spec w ltac:(lia)) as Hd. destruct (discon w); [eauto |]. lia.
Qed.

Lemma discon_operand_witness :
  discon (-8193) = Some [255; 255; 223; 255] /\
  operand [255; 255; 223; 255; 7] = LOk (-8193) [7] /\ discon (2 ^ 29) = None.
Proof.
  pose proof (discon_operand (-8193) ltac:(lia)) as [H _].
  change (discon (-8193)) with (Some [255; 255; 223; 255]) in H.
  destruct H as (_ & _ & H). split; [reflexivity |]. split; [apply (H [7]) | reflexivity].
Defined.

End Operands.

(** ** What the loader accepts *)

(** The branches of a program of [n] instructions stay in it. *)
Definition branch_ok (n : Z) (i : Inst) : Prop :=
  match d i with Ins w => 0 <= w < n | _ => True end /\
  (branches (op i) = true -> UXDST (add i) = AIMM -> exists w, d i = Ins w).

Section Accepted.

Lemma guard_bad_inv b e {A} (k : ld A) s a r :
  (guard_bad b e;; k) s = LOk a r -> b = true /\ k s = LOk a r.
Proof. destruct b; [done |]. intros E. discriminate E. Qed.

Lemma brpatch_ok o n w a : brpatch o n w = Some a ->
  match a with Ins w => 0 <= w < n | _ => True end /\ (branches o = true -> exists w, a = Ins w).
Proof.
  unfold brpatch. destruct (branches o).
  - destruct (Z.ltb_spec w 0), (Z.leb_spec n w); simpl; intros E; simplify_eq. split; [lia | eauto].
  - intros E. by simplify_eq.
Qed.

Lemma parse_two_adr s a r : parse_two s = LOk a r -> exists f g, a = Ind2 f g.
Proof.
  unfold parse_two. intros E. apply ld_bind_inv in E as (f & s1 & _ & E).
  apply ld_bind_inv in E as (g & s2 & _ & E). injection E as <- <-. eauto.
Qed.

Lemma parse_dst_ok n o a s x r : parse_dst n o a s = LOk x r ->
  match x with Ins w => 0 <= w < n | _ => True end /\
  (branches o = true -> UXDST a = AIMM -> exists w, x = Ins w).
Proof.
  unfold parse_dst. intros E. destruct (Z.eqb_spec (UXDST a) AIMM) as [Ea | Ea].
  - apply ld_bind_inv in E as (w & s1 & _ & E). destruct (brpatch o n w) as [y|] eqn:Eb; [| done].
    injection E as <- <-. destruct (brpatch_ok _ _ _ _ Eb). auto.
  - destruct (one_word _); [| destruct (two_words _)].
    + apply ld_bind_inv in E as (w & s1 & _ & E). injection E as <- <-. done.
    + apply parse_two_adr in E as (f & g & ->). done.
    + injection E as <- <-. done.
Qed.

Lemma parse_inst_ok n s i r : parse_inst n s = LOk i r -> branch_ok n i.
Proof.
  unfold parse_inst. intros E.
  apply ld_bind_inv in E as (o & s1 & _ & E). apply ld_bind_inv in E as (a & s2 & _ & E).
  apply ld_bind_inv in E as (rg & s3 & _ & E). apply ld_bind_inv in E as (sr & s4 & _ & E).
  apply ld_bind_inv in E as (x & s5 & Ed & E). injection E as <- <-.
  by eapply parse_dst_ok.
Qed.

Lemma guard_fault_inv b {A} (k : ld A) s a r :
  (guard_fault b;; k) s = LOk a r -> b = true /\ k s = LOk a r.
Proof. destruct b; [done |]. intros E. discriminate E. Qed.

Lemma parse_insts_ok n np room s l r : parse_insts n np room s = LOk l r ->
  Forall (branch_ok np) l /\ length l = n /\ (n = 0%nat \/ sizeof_Inst * Z.of_nat n <= room).
Proof.
  revert room s l. induction n as [|n IH]; intros room s l E; simpl in E.
  - injection E as <- <-. auto.
  - apply guard_fault_inv in E as [Hr%Z.leb_le E].
    apply ld_bind_inv in E as (a & s1 & Ea & E). apply ld_bind_inv in E as (l' & s2 & El & E).
    injection E as <- <-. destruct (IH _ _ _ El) as (Hl & <- & Hn). unfold sizeof_Inst in *.
    split; [constructor; [by eapply parse_inst_ok | done] | split; [done | right; lia]].
Qed.

Lemma parse_types_length n hs types s types' r :
  parse_types n hs types s = LOk types' r -> length types' = length types.
Proof.
  revert types s. induction n as [|n IH]; intros types s E; simpl in E.
  - by injection E as <- <-.
  - apply ld_bind_inv in E as (t1 & s1 & E1 & E). rewrite (IH _ _ E). unfold parse_type in E1.
    apply ld_bind_inv in E1 as (id & s2 & _ & E1). apply guard_bad_inv in E1 as [_ E1].
    do 2 apply ld_bind_inv in E1 as (? & ? & _ & E1). apply guard_bad_inv in E1 as [_ E1].
    apply ld_bind_inv in E1 as (? & ? & _ & E1).
    apply ld_bind_inv in E1 as (? & ? & _ & E1). injection E1 as <- <-. apply length_insert.
Qed.

Lemma parse_mp_ok ds types s t r : parse_mp ds types s = LOk t r ->
  ds = 0 \/ exists t, types !! 0%nat = Some (Some t) /\ t_size t = ds.
Proof.
  unfold parse_mp. destruct (Z.eqb_spec ds 0); [by left |]. intros E. right.
  apply ld_bind_inv in E as (pt & s1 & E1 & E). unfold type_at in E1. simpl in E1.
  change (Z.to_nat 0) with 0%nat in E1. destruct (types !! 0%nat); [| done]. injection E1 as -> ->.
  destruct pt as [pt|]; [| done]. apply guard_bad_inv in E as [Es%Z.eqb_eq E]. eauto.
Qed.

Lemma bytes_inv n s a r : bytes s -> bytes_ n s = LOk a r -> bytes r.
Proof.
  unfold bytes_. intros Hs E. destruct (_ && _); [| done]. injection E as <- <-. by apply Forall_drop.
Qed.

(** The header before the code of a signed or unsigned module. *)
Lemma magic_inv {A} (k : ld A) s a r : bytes s ->
  (magic ← operand;
   (if magic =? SMAGIC then
      siglen ← operand; sign ← bytes_ siglen; code ← (fun s => LOk s s);
      guard_bad (verifysigner sign siglen code) ESecurity
    else guard_bad (magic =? XMAGIC) EBadMagic);; k) s = LOk a r ->
  exists s', bytes s' /\ k s' = LOk a r.
Proof.
  intros Hs E. apply ld_bind_inv in E as (mg & s1 & E1 & E).
  destruct (operand_inv _ _ _ Hs E1) as [_ Hs1].
  apply ld_bind_inv in E as ([] & s2 & E2 & E). exists s2. split; [| done].
  destruct (mg =? SMAGIC).
  - apply ld_bind_inv in E2 as (n & s3 & E3 & E2). destruct (operand_inv _ _ _ Hs1 E3) as [_ Hs3].
    apply ld_bind_inv in E2 as (sg & s4 & E4 & E2). pose proof (bytes_inv _ _ _ _ Hs3 E4).
    apply ld_bind_inv in E2 as (c & s5 & E5 & E2). injection E5 as <- <-.
    destruct (verifysigner _ _ _); [| done]. by injection E2 as <-.
  - destruct (mg =? XMAGIC); [| done]. by injection E2 as <-.
Qed.

(** The operands of the header, one after the other. *)
Ltac operands E :=
  repeat match type of E with
  | (operand ≫= _) ?s = LOk _ _ =>
      let v := fresh "a" in let s1 := fresh "s" in let E1 := fresh "E" in
      let Hv := fresh "Hv" in let Hs1 := fresh "Hs" in
      apply ld_bind_inv in E as (v & s1 & E1 & E);
      match goal with Hs : bytes s |- _ => destruct (operand_inv _ _ _ Hs E1) as [Hv Hs1] end
  end.

(** C15. Whatever bytes a module comes from, once the loader has accepted it:
    every branch goes to an instruction of the module; if there are instructions
    execution starts at one of them, with a type of the module if with any; the
    descriptor of the module data, if there are any, exists and has their size;
    and with the just-in-time compiler switched off, a module that must be
    compiled has been. *)
Theorem parsemod_accepts cflag compile s m r :
  bytes s -> parsemod cflag compile s = LOk m r ->
  Forall (branch_ok (zlen (prog m))) (prog m) /\
  (prog m <> [] -> 0 <= mentry m < zlen (prog m)) /\
  (forall t, entryt m = Some t -> Some t ∈ type m) /\
  (mpsize m = 0 \/ exists t, type m !! 0%nat = Some (Some t) /\ t_size t = mpsize m) /\
  (cflag = false -> Z.land (rt m) MUSTCOMPILE <> 0 -> compile = true).
Proof.
  intros Hs E. unfold parsemod in E. apply magic_inv in E as (s0 & Hs0 & E); [| done].
  operands E. rename a1 into isize, a3 into hsize, a5 into ent, a6 into entt.
  apply guard_bad_inv in E as [Hi0 E]. apply ld_bind_inv in E as (insts & s9 & E9 & E).
  apply guard_bad_inv in E as [_ E].
  apply ld_bind_inv in E as (types & s10 & E10 & E).
  apply ld_bind_inv in E as (mp & s11 & E11 & E). apply ld_bind_inv in E as (dd & s12 & _ & E).
  apply ld_bind_inv in E as (nm & s13 & _ & E). apply ld_bind_inv in E as (ex & s14 & _ & E).
  cbv zeta in E. apply guard_bad_inv in E as [Hc E]. injection E as <- <-.
  cbn [prog mentry entryt type mpsize rt].
  destruct (parse_insts_ok _ _ _ _ _ _ E9) as (Hb & Hlen & _). apply parse_mp_ok in E11.
  assert (insts <> [] -> zlen insts = isize /\ 0 < isize) as Hpos.
  { intros Hne. destruct insts; [done |]. simpl in *. lia. }
  split. { destruct insts as [|i l]; [constructor |]. by destruct (Hpos ltac:(done)) as [-> _]. }
  split.
  { intros Hne. destruct (Hpos Hne) as [-> Hp]. rewrite (wrapu_id 32 isize) by lia.
    destruct (Z.ltb_spec (u32 ent) isize) as [En |]; [| simpl; lia].
    destruct (u32 entt <? u32 hsize); simpl; [| lia].
    destruct (Z.le_gt_cases 0 ent) as [He | He]; [by rewrite (wrapu_id 32) in En by lia |]. exfalso. unfold wrapu in En.
    rewrite <- (Z.mod_unique ent (2 ^ 32) (-1) (ent + 2 ^ 32)) in En; lia. }
  split.
  { destruct (_ && _); [| done]. intros t Et. apply bind_Some in Et as (t' & Et & ->). by eapply list_elem_of_lookup_2. }
  split; [done |]. intros -> Hm%Z.eqb_neq. by rewrite Hm in Hc.
Qed.

End Accepted.

(** ** Where the loader's checks end *)

Section Checks.

(** The bytes of a descriptor, and of an array item after its kind. *)
Definition desc_bytes (x : Desc) : out :=
  discon (desc_id x) +++ discon (desc_size x) +++ discon (zlen (desc_map x)) +++ emit (desc_map x).
Definition array_bytes (off tid len : Z) : out := discon off +++ disword tid +++ disword len.

Lemma ld_bind_eq {A B} (p : ld A) (k : A -> ld B) s a r :
  p s = LOk a r -> (p ≫= k) s = k a r.
Proof. intros E. unfold mbind, ld_bind. by rewrite E. Qed.

Lemma guard_true {A} e (k : ld A) s : (guard_bad true e;; k) s = k s.
Proof. done. Qed.

Lemma parse_type_index n types x bs rest :
  is_long (desc_id x) -> is_long (desc_size x) -> bytes (desc_map x) ->
  desc_bytes x = Some bs ->
  parse_type n types (bs ++ rest) =
    if n <? desc_id x then LBad EHeapIdRange
    else if (0 <=? desc_id x) && (desc_id x <? n)
    then LOk (<[Z.to_nat (desc_id x) := Some (image_desc x)]> types) rest
    else LFault.
Proof.
  intros Hid Hsz Hb E. unfold desc_bytes in E.
  apply emits_inv in E as (b1 & b2 & E1 & E & ->). apply emits_inv in E as (b3 & b4 & E3 & E & ->).
  apply emits_inv in E as (b5 & b6 & E5 & E6 & ->). unfold parse_type. rewrite <- !app_assoc.
  rewrite (ld_bind_eq _ _ _ _ _ (reads_discon _ Hid _ E1 _)).
  destruct (n <? desc_id x); [done |]. cbn [negb]. rewrite guard_true.
  rewrite (ld_bind_eq _ _ _ _ _ (reads_discon _ Hsz _ E3 _)).
  rewrite (ld_bind_eq _ _ _ _ _ (reads_count _ (Nat2Z.is_nonneg _) _ E5 _)).
  rewrite sane_type, guard_true by (pose proof (discon_lt _ _ (Nat2Z.is_nonneg _) E5); lia).
  rewrite (ld_bind_eq _ _ _ _ _ (reads_bytes _ Hb _ E6 _)).
  by destruct ((0 <=? desc_id x) && _).
Qed.

(** An array item is refused past the number of types, and faults at it. *)
Lemma parse_array_index mp types d off tid len bs rest :
  is_long off -> is_long tid -> array_bytes off tid len = Some bs ->
  (tid < 0 \/ zlen types < tid -> parse_item mp types DEFA 1 d (bs ++ rest) = LBad EBadArrayType) /\
  (tid = zlen types -> parse_item mp types DEFA 1 d (bs ++ rest) = LFault).
Proof.
  intros Ho Ht E. unfold array_bytes in E.
  apply emits_inv in E as (b1 & b2 & E1 & E & ->). apply emits_inv in E as (b3 & b4 & E3 & E & ->).
  unfold parse_item. rewrite <- !app_assoc.
  rewrite (ld_bind_eq _ _ _ _ _ (reads_discon _ Ho _ E1 _)).
  cbn [DEFA DEFS DEFB DEFW DEFL DEFF Z.eqb Pos.eqb].
  rewrite (ld_bind_eq _ _ _ _ _ (reads_diswi _ _ E3 _)), (wraps_id 32) by lia. split.
  - intros Hr. by replace ((0 <=? tid) && (tid <=? zlen types)) with false by lia.
  - intros ->. replace ((0 <=? zlen types) && (zlen types <=? zlen types)) with true by lia.
    rewrite guard_true. unfold type_at.
    destruct (Z.ltb_spec (zlen types) 0); [lia |]. rewrite Nat2Z.id, lookup_ge_None_2 by done. reflexivity.
Qed.

(** The header of a module with one type descriptor, no data and no links, and
    what follows it: the descriptor, the end of the data, an empty name. *)
Definition bare (rt ss isize entry : Z) (x : Desc) : out :=
  discon XMAGIC +++ discon rt +++ discon ss +++ discon isize +++ discon 0 +++ discon 1 +++ discon 0 +++
  discon entry +++ discon 0 +++ desc_bytes x +++ emit [0] +++ emit [0].

(** C23. The loader does not check the number of instructions that a header
    gives, only the size of the block for them, of which the product with the
    size of an instruction may have wrapped: where it has, a module with a
    negative number of instructions is accepted, without an instruction and
    with an entry that may be any number the header gives; elsewhere the answer
    is that there is no memory. *)
Theorem parsemod_negative_count rt ss isize entry x bs cflag rest :
  is_long rt -> is_long ss -> is_long isize -> is_long entry -> isize < 0 -> 0 <= entry ->
  desc_id x = 0 -> is_long (desc_size x) -> bytes (desc_map x) ->
  bare rt ss isize entry x = Some bs ->
  parsemod cflag true (bs ++ rest) =
    if sane (isize * sizeof_Inst)
    then LOk (MkModule rt ss [] 0 [Some (image_desc x)] (MkSeg [] []) [] []
           (if entry <? u32 isize then entry else 0) (if entry <? u32 isize then Some (image_desc x) else None)) rest
    else LBad ENoMemory.
Proof.
  intros Hrt Hss Hi He Hneg He0 Hid Hsz Hb E. unfold bare in E.
  apply emits_inv in E as (b1 & t1 & E1 & E & ->). apply emits_inv in E as (b2 & t2 & E2 & E & ->).
  apply emits_inv in E as (b3 & t3 & E3 & E & ->). apply emits_inv in E as (b4 & t4 & E4 & E & ->).
  apply emits_inv in E as (b5 & t5 & E5 & E & ->). apply emits_inv in E as (b6 & t6 & E6 & E & ->).
  apply emits_inv in E as (b7 & t7 & E7 & E & ->). apply emits_inv in E as (b8 & t8 & E8 & E & ->).
  apply emits_inv in E as (b9 & t9 & E9 & E & ->). apply emits_inv in E as (b10 & t10 & E10 & E & ->).
  unfold parsemod. rewrite <- !app_assoc.
  rewrite (ld_bind_eq _ _ _ _ _ (reads_discon _ (ltac:(unfold XMAGIC; lia) : is_long XMAGIC) _ E1 _)).
  change (XMAGIC =? SMAGIC) with false. cbn iota. rewrite Z.eqb_refl, guard_true.
  rewrite (ld_bind_eq _ _ _ _ _ (reads_discon _ Hrt _ E2 _)), (ld_bind_eq _ _ _ _ _ (reads_discon _ Hss _ E3 _)),
    (ld_bind_eq _ _ _ _ _ (reads_discon _ Hi _ E4 _)), (ld_bind_eq _ _ _ _ _ (reads_discon 0 ltac:(lia) _ E5 _)),
    (ld_bind_eq _ _ _ _ _ (reads_discon 1 ltac:(lia) _ E6 _)), (ld_bind_eq _ _ _ _ _ (reads_discon 0 ltac:(lia) _ E7 _)),
    (ld_bind_eq _ _ _ _ _ (reads_discon _ He _ E8 _)), (ld_bind_eq _ _ _ _ _ (reads_discon 0 ltac:(lia) _ E9 _)).
  destruct (sane (isize * sizeof_Inst)); [| done]. rewrite guard_true.
  replace (Z.to_nat isize) with 0%nat by lia. cbn [parse_insts]. rewrite (ld_bind_eq _ _ _ _ _ eq_refl).
  change (sane (1 * 4)) with true. rewrite guard_true. change (Z.to_nat 1) with 1%nat. cbn [parse_types replicate].
  assert (parse_type 1 [None] (b10 ++ t10 ++ rest) = LOk [Some (image_desc x)] (t10 ++ rest)) as Et.
  { rewrite (parse_type_index 1 [None] x b10 (t10 ++ rest)) by (done || rewrite Hid; lia). by rewrite Hid. }
  rewrite (ld_bind_eq _ _ _ _ _ (ld_bind_eq _ _ _ _ _ Et)). cbn [mret ld_ret].
  injection E as <-. rewrite (wrapu_id 32 entry) by lia. change (u32 0 <? u32 1) with true. rewrite andb_true_r.
  unfold guard_bad. rewrite orb_true_r. by destruct (entry <? u32 isize).
Qed.

Lemma parsemod_negative_count_witness :
  exists bs, bare 0 64 (-300000000) 5 (MkDesc 0 8 [64]) = Some bs /\ forall rest,
  parsemod false true (bs ++ rest) =
    LOk (MkModule 0 64 [] 0 [Some (MkTy 8 1 [64])] (MkSeg [] []) [] [] 5 (Some (MkTy 8 1 [64]))) rest.
Proof.
  eexists. split; [vm_compute; reflexivity |]. intros rest.
  refine (parsemod_negative_count 0 64 (-300000000) 5 (MkDesc 0 8 [64]) _ false rest _ _ _ _ _ _ _ _ _ _);
    [lia | lia | lia | lia | lia | lia | reflexivity | simpl; lia | by repeat constructor | reflexivity].
Defined.

(** C25. The range checks on descriptor numbers: a descriptor is accepted if
    its number is an index of the type array and refused with an error if it is
    beyond the number of types, but the number of types itself, and a negative
    number, pass the check and the loader stores outside the array; likewise an
    initial array of a type beyond the number of types is an error, and the
    number of types itself is read from past the end of the array. *)
Theorem loader_index_checks n types x bx mp d off tid len ba rest :
  is_long (desc_id x) -> is_long (desc_size x) -> bytes (desc_map x) ->
  desc_bytes x = Some bx ->
  is_long off -> is_long tid -> array_bytes off tid len = Some ba ->
  parse_type n types (bx ++ rest) =
    (if n <? desc_id x then LBad EHeapIdRange
     else if (0 <=? desc_id x) && (desc_id x <? n)
     then LOk (<[Z.to_nat (desc_id x) := Some (image_desc x)]> types) rest
     else LFault) /\
  (tid < 0 \/ zlen types < tid -> parse_item mp types DEFA 1 d (ba ++ rest) = LBad EBadArrayType) /\
  (tid = zlen types -> parse_item mp types DEFA 1 d (ba ++ rest) = LFault).
Proof.
  intros. split; [by apply parse_type_index |].
  by apply (parse_array_index mp types d off tid len).
Qed.

Lemma loader_index_checks_witness :
  parse_type 2 [None; None] ([2; 8; 1; 64] ++ [0]) = LFault /\
  parse_type 2 [None] ([3; 8; 1; 64] ++ [0]) = LBad EHeapIdRange /\
  parse_item (MkTy 0 0 []) [None] DEFA 1 start ([0; 0; 0; 0; 1; 0; 0; 0; 5] ++ [0]) = LFault.
Proof.
  destruct (loader_index_checks 2 [None; None] (MkDesc 2 8 [64]) [2; 8; 1; 64]
    (MkTy 0 0 []) start 0 2 5 [0; 0; 0; 0; 2; 0; 0; 0; 5] [0]) as (H1 & _ & _);
    [simpl; lia | simpl; lia | by repeat constructor | reflexivity | lia | lia | reflexivity |].
  destruct (loader_index_checks 2 [None] (MkDesc 3 8 [64]) [3; 8; 1; 64]
    (MkTy 0 0 []) start 0 1 5 [0; 0; 0; 0; 1; 0; 0; 0; 5] [0]) as (H2 & _ & H3);
    [simpl; lia | simpl; lia | by repeat constructor | reflexivity | lia | lia | reflexivity |].
  split; [exact H1 |]. split; [exact H2 | by apply H3].
Defined.

End Checks.

(** ** The writer's cache *)

Section Cache.

Lemma grow_spec fuel kind n size len : (2 <= fuel)%nat ->
  grow fuel kind n size len =
    if (kind <? 0) || (n + size <? len) then Some len
    else if size <? 1024 then Some (n + 1024) else None.
Proof.
  intros Hf. destruct fuel as [|[|fuel]]; [lia | lia |]. clear Hf. cbn [grow].
  destruct (Z.leb_spec 0 kind), (Z.ltb_spec kind 0); try lia; cbn [andb orb]; [| done].
  destruct (Z.leb_spec len (n + size)), (Z.ltb_spec (n + size) len); try lia; [| done].
  destruct (Z.leb_spec (n + 1024) (n + size)), (Z.ltb_spec size 1024); try lia; [| done].
  induction fuel as [|fuel IH]; [done |]. cbn [grow].
  destruct (Z.leb_spec 0 kind), (Z.leb_spec (n + 1024) (n + size)); try lia. apply IH.
Qed.

(** What the loop leaves [lencache] at: [None] where it does not end. *)
Definition room (n size len : Z) : option Z :=
  if n + size <? len then Some len else if size <? 1024 then Some (n + 1024) else None.

(** C24. The writer's cache: the loop in [disflush] that makes room ends within
    two rounds if less than 1024 bytes are wanted (or there is room already)
    and never ends otherwise, however long it runs; and when [disflush] is done
    the bytes it was called for fit in the cache. *)
Theorem disflush_cache fuel kind off bs k c o c' :
  (2 <= fuel)%nat -> 0 <= kind ->
  (forall n len, grow fuel kind n (zlen bs) len = room n (zlen bs) len) /\
  (disflush kind off (zlen bs) c = Some (o, c') ->
   exists c'', dcached bs k c' = Some ([], c'') /\ zlen (cache c'') < lencache c'').
Proof.
  intros Hf Hk. split.
  - intros n len. rewrite grow_spec by done. unfold room. by destruct (Z.ltb_spec kind 0); [lia |].
  - unfold disflush. intros E.
    destruct (if negb (kind =? lastkind c) || _ then _ else _) as [[o1 c1]|]; [| done].
    rewrite grow_spec in E by lia. destruct (Z.ltb_spec kind 0); [lia |]. cbn [orb] in E.
    assert (exists len, zlen (cache c1) + zlen bs < len /\
      c' = MkCache (cache c1) (ndatum c1) (startoff c1) (off + zlen bs) (lastkind c1) len) as (len & Hl & ->).
    { destruct (Z.ltb_spec (zlen (cache c1) + zlen bs) (lencache c1)).
      - injection E as <- <-. eauto.
      - destruct (Z.ltb_spec (zlen bs) 1024); [| done]. injection E as <- <-. eexists. split; [| done]. lia. }
    unfold dcached. cbn [cache lencache].
    destruct (Z.leb_spec (zlen (cache c1) + zlen bs) len); [| lia]. eexists. split; [done |].
    cbn [cache lencache]. rewrite length_app, length_map. lia.
Qed.

Lemma disflush_cache_witness :
  (forall n len, grow 100 DEFB n (zlen (replicate 2000 97)) len =
     if n + 2000 <? len then Some len else None) /\
  exists c'', dcached [1; 2] 2 (MkCache [] 0 8 10 DEFB 1024) = Some ([], c'') /\
    zlen (cache c'') < lencache c''.
Proof.
  split.
  - intros n len. refine (proj1 (disflush_cache 100 DEFB 0 (replicate 2000 97) 0
      (MkCache [] 0 0 0 (-1) 0) [] (MkCache [] 0 0 0 (-1) 0) _ _) n len); [lia | unfold DEFB; lia].
  - refine (proj2 (disflush_cache 2 DEFB 8 [1; 2] 2 (MkCache [] 0 0 0 (-1) 0) []
      (MkCache [] 0 8 10 DEFB 1024) _ _) eq_refl); [lia | unfold DEFB; lia].
Defined.

End Cache.

(** ** A module *)

(** Two instructions (a move and a return), one descriptor for 16 bytes of
    data with a pointer in the fourth word, two words and an array of bytes. *)
Definition sample : object :=
  MkObject 0 64
    [ Dis.MkInst 45 Aimm Anone Afp (MkAddr 0 (-5) 0) (MkAddr 0 0 0) (MkAddr 40 0 0);
      Dis.MkInst 13 Anone Anone Apc (MkAddr 0 0 0) (MkAddr 0 0 0) (MkAddr 0 0 0) ]
    16
    [ MkDesc 0 16 [16]; MkDesc 1 1 [] ]
    [ Lfn 0 0 305419896 None [105; 110; 105; 116] ]
    (Some (0, 0))
    [ (0, Tint 7); (4, Tint (-1)); (12, Tarray 1 1 2 (Some ([(0, 0, Tbyte 200)], Some (Tbyte 9)))) ]
    [72; 101; 108; 108; 111].

Definition sample_bytes : list Z :=
  [ 192; 12; 128; 48; 0; 128; 64; 2; 16; 2; 1; 0; 0;
    45; 17; 123; 40; 13; 26; 0;
    0; 16; 1; 16; 1; 1; 0;
    34; 0; 0; 0; 0; 7; 255; 255; 255; 255;
    81; 12; 0; 0; 0; 1; 0; 0; 0; 2; 97; 12; 0; 0; 0; 0; 18; 0; 200; 9; 113; 0; 0;
    72; 101; 108; 108; 111; 0;
    0; 0; 18; 52; 86; 120; 105; 110; 105; 116; 0 ].

Definition sample_data : dstate :=
  MkState (MP, 0) []
    (MkSeg [ ((MP, 0), VWord 7); ((MP, 4), VWord (-1)); ((MP, 12), VArray 0);
             ((Arr 0, 0), VByte 200); ((Arr 0, 1), VByte 9) ]
       [ MkArray (MkTy 1 0 []) 2 ]).

Section Sample.

Lemma sample_wf : wf_object sample.
Proof.
  split; cbn -[Z.pow]; unfold sizeof_Inst; try lia.
  - repeat constructor; cbn; try lia; try set_solver; discriminate.
  - repeat constructor; cbn; lia.
  - right. by eexists.
  - repeat constructor; cbn; lia.
  - repeat constructor; cbn; lia.
  - repeat constructor; cbn; lia.
Qed.
Lemma sample_modcom : modcom sample = Some sample_bytes.
Proof. by vm_compute. Qed.

Lemma parsemod_modcom_witness :
  parsemod false false (sample_bytes ++ [1; 2]) = LOk (image sample sample_data) [1; 2].
Proof.
  apply (parsemod_modcom sample false false sample_data);
    [apply sample_wf | by vm_compute | reflexivity | apply sample_modcom].
Defined.

Lemma parsemod_accepts_witness :
  parsemod false false sample_bytes = LOk (image sample sample_data) [] /\
  Forall (branch_ok 2) (prog (image sample sample_data)).
Proof.
  assert (parsemod false false sample_bytes = LOk (image sample sample_data) []) as E
    by (by vm_compute).
  split; [exact E |].
  refine (proj1 (parsemod_accepts false false sample_bytes _ _ _ E)).
  repeat constructor; cbn; lia.
Defined.
End Sample.
