(* ===== verification/Chan.v ===== *)
(** * Channels and alt (interp/xec.c, interp/alt.c, emu/dis.c)

    The part of the virtual machine through which Limbo processes ([Prog]s)
    meet: send and receive, the alternation over several channels, queued sends
    of the emulator, killing a process that waits, and the run queue.

    The state holds the processes, channels, arrays of channels and [Alt]
    structures by address, the memory that messages move in, word by word, and
    the run queue.  The queues of processes that the code threads through
    [link] and [comm] are lists here (Sched.v has the pointers).  An operation
    ends normally, raises an exception for the running process, or faults. *)

From S2P Require Import Prelude.

#[local] Open Scope Z_scope.

Module Chan.

(** ** State *)

Inductive ProgState := Palt | Psend | Precv | Pdebug | Pready | Prelease | Pexiting | Pbroken.

#[global] Instance ProgState_eq_dec : EqDecision ProgState.
Proof. solve_decision. Defined.

(** Why a process is made to stop: [p->kill]. *)
Inductive cause := Killed | Changup | Alt_hungup.

(** A pointer to a channel or to an array of channels; [H] is nil. *)
Inductive href := H | HC (c : positive) | HA (a : positive).

#[global] Instance href_eq_dec : EqDecision href.
Proof. solve_decision. Defined.

(** [addrun] is whether the hook [p->addrun] is set (to [cwakeme]); [debug]
    whether [osenv->debug] is. *)
Record Prog := MkProg {
  state : ProgState;
  chan : option positive;
  ptr : option Z;
  kill : option cause;
  R_s : option positive;
  R_d : Z;
  addrun_hook : bool;
  debug : bool;
}.

(** [words] is what the mover of the channel moves. *)
Record Channel := MkChannel {
  sendq : list (list Z);
  send : list positive;
  sendalt : option positive;
  recv : list positive;
  recvalt : option positive;
  words : nat;
}.

Record Altc := MkAltc { ac_c : href; ac_ptr : Z }.
(** [ac[0..nsend)] and [ac[nsend..nsend+nrecv)]. *)
Record Alt := MkAlt { a_send : list Altc; a_recv : list Altc }.

Record vm := MkVm {
  progs : gmap positive Prog;
  chans : gmap positive Channel;
  carrays : gmap positive (list (option positive));
  alts : gmap positive Alt;
  mem : gmap Z Z;
  runq : list positive;
  xrand : Z;
}.

Definition set_state s p := MkProg s (chan p) (ptr p) (kill p) (R_s p) (R_d p) (addrun_hook p) (debug p).
Definition set_wait s c x p := MkProg s c x (kill p) (R_s p) (R_d p) (addrun_hook p) (debug p).
Definition set_ptr x p := MkProg (state p) (chan p) x (kill p) (R_s p) (R_d p) (addrun_hook p) (debug p).
Definition set_kill k p := MkProg (state p) (chan p) (ptr p) k (R_s p) (R_d p) (addrun_hook p) (debug p).
Definition set_regs s d p := MkProg (state p) (chan p) (ptr p) (kill p) s d (addrun_hook p) (debug p).
Definition set_hook b p := MkProg (state p) (chan p) (ptr p) (kill p) (R_s p) (R_d p) b (debug p).

Definition set_sendq q c := MkChannel q (send c) (sendalt c) (recv c) (recvalt c) (words c).
Definition set_send l c := MkChannel (sendq c) l (sendalt c) (recv c) (recvalt c) (words c).
Definition set_sendalt p c := MkChannel (sendq c) (send c) p (recv c) (recvalt c) (words c).
Definition set_recv l c := MkChannel (sendq c) (send c) (sendalt c) l (recvalt c) (words c).
Definition set_recvalt p c := MkChannel (sendq c) (send c) (sendalt c) (recv c) p (words c).

Definition set_progs m v := MkVm m (chans v) (carrays v) (alts v) (mem v) (runq v) (xrand v).
Definition set_chans m v := MkVm (progs v) m (carrays v) (alts v) (mem v) (runq v) (xrand v).
Definition set_mem m v := MkVm (progs v) (chans v) (carrays v) (alts v) m (runq v) (xrand v).
Definition set_runq q v := MkVm (progs v) (chans v) (carrays v) (alts v) (mem v) q (xrand v).
Definition set_xrand x v := MkVm (progs v) (chans v) (carrays v) (alts v) (mem v) (runq v) x.

(** ** The machine's monad *)

Inductive exn := exNilref | exBusy | exAlt.

Inductive result (A : Type) :=
  | Ret (a : A) (v : vm)
  | Raise (e : exn) (v : vm)
  | Fault.
Arguments Ret {A} a v.
Arguments Raise {A} e v.
Arguments Fault {A}.

Definition M (A : Type) : Type := vm -> result A.

#[export] Instance m_ret : MRet M := fun A a v => Ret a v.
#[export] Instance m_bind : MBind M := fun A B k m v =>
  match m v with Ret a v => k a v | Raise e v => Raise e v | Fault => Fault end.

Definition error {A} (e : exn) : M A := fun v => Raise e v.
Definition fault {A} : M A := fun _ => Fault.
Definition from {A} (o : option A) : M A := match o with Some a => mret a | None => fault end.

Definition modify (f : vm -> vm) : M unit := fun v => Ret tt (f v).

(** Loads and stores through pointers to processes and channels. *)
Definition prog (p : positive) : M Prog := fun v => from (progs v !! p) v.
Definition channel (c : positive) : M Channel := fun v => from (chans v !! c) v.
Definition mod_prog (p : positive) (f : Prog -> Prog) : M unit :=
  pr ← prog p; modify (fun v => set_progs (<[p := f pr]> (progs v)) v).
Definition mod_chan (c : positive) (f : Channel -> Channel) : M unit :=
  ch ← channel c; modify (fun v => set_chans (<[c := f ch]> (chans v)) v).
Definition carray (a : positive) : M (list (option positive)) := fun v => from (carrays v !! a) v.
Definition alt_at (a : option positive) : M Alt := fun v => from (a ≫= fun a => alts v !! a) v.

(** [W(x)], and [n] words from [x] on. *)
Definition rdw (m : gmap Z Z) (x : Z) : Z := default 0 (m !! x).
Definition load_words (m : gmap Z Z) (x : Z) (n : nat) : list Z :=
  map (fun i => rdw m (x + Z.of_nat i)) (seq 0 n).
Fixpoint store_words (m : gmap Z Z) (x : Z) (ws : list Z) : gmap Z Z :=
  match ws with [] => m | w :: ws => store_words (<[x := w]> m) (x + 1) ws end.

Definition loads (x : Z) (n : nat) : M (list Z) := fun v => Ret (load_words (mem v) x n) v.
Definition stores (x : option Z) (ws : list Z) : M unit :=
  x ← from x; modify (fun v => set_mem (store_words (mem v) x ws) v).
Definition setW (x : Z) (w : Z) : M unit := stores (Some x) [w].

(** ** The run queue (emu/dis.c) *)

Definition currun : M positive := fun v => from (head (runq v)) v.

(** [cwakeme] clears the hook and wakes the kernel process that waits. *)
Definition addrun (p : positive) : M unit :=
  pr ← prog p;
  if addrun_hook pr then mod_prog p (set_hook false)
  else mod_prog p (set_state Pready);; modify (fun v => set_runq (runq v ++ [p]) v).

Definition delrun (s : ProgState) : M positive :=
  p ← currun;
  mod_prog p (set_state s);;
  modify (fun v => set_runq (tail (runq v)) v);;
  mret p.

(** Take [p] out of a queue, if it is there. *)
Fixpoint unlink (p : positive) (l : list positive) : list positive :=
  match l with [] => [] | q :: l => if decide (q = p) then l else q :: unlink p l end.

Definition delrunq (p : positive) : M unit :=
  modify (fun v => set_runq (unlink p (runq v)) v).

(** The end of a quantum in [vmachine]: if the process is still at the head
    and not alone it goes to the tail. *)
Definition rotate (r : positive) : M unit :=
  modify (fun v => match runq v with
    | p :: (_ :: _) as q => if decide (p = r) then set_runq (q ++ [p]) v else v
    | _ => v
    end).

(** ** Alt, passes one and three (interp/alt.c) *)

(** The loops run over the entries with [n] the index of the next one; [sel] is
    nil once the selected channel has been seen. *)
Fixpoint altunmark (ca : list (option positive)) (pt : Z) (p : positive) (sr : Z)
    (sel : option positive) (dn n : Z) : M (option positive) :=
  match ca with
  | [] => mret sel
  | None :: ca => altunmark ca pt p sr sel dn (n + 1)
  | Some c :: ca =>
      ch ← channel c;
      (if decide (recvalt ch = Some p) then mod_chan c (set_recvalt None) else mret tt);;
      if (sr =? 1) && bool_decide (sel = Some c) then
        pr ← prog p;
        setW (R_d pr) dn;;
        mod_prog p (set_ptr (Some (pt + 1)));;
        setW pt n;;
        altunmark ca pt p sr None dn (n + 1)
      else altunmark ca pt p sr sel dn (n + 1)
  end.

Fixpoint altdone_send (acs : list Altc) (p : positive) (sel : option positive) (sr n : Z) :
    M (option positive) :=
  match acs with
  | [] => mret sel
  | ac :: acs =>
      match ac_c ac with
      | H => altdone_send acs p sel sr (n + 1)
      | HA _ => fault
      | HC c =>
          ch ← channel c;
          (if decide (sendalt ch = Some p) then mod_chan c (set_sendalt None) else mret tt);;
          if (sr =? 0) && bool_decide (sel = Some c) then
            mod_prog p (set_ptr (Some (ac_ptr ac)));;
            pr ← prog p;
            setW (R_d pr) n;;
            altdone_send acs p None sr (n + 1)
          else altdone_send acs p sel sr (n + 1)
      end
  end.

Fixpoint altdone_recv (acs : list Altc) (p : positive) (sel : option positive) (sr n : Z) :
    M (option positive) :=
  match acs with
  | [] => mret sel
  | ac :: acs =>
      match ac_c ac with
      | H => altdone_recv acs p sel sr (n + 1)
      | HA a =>
          ca ← carray a;
          sel ← altunmark ca (ac_ptr ac) p sr sel n 0;
          altdone_recv acs p sel sr (n + 1)
      | HC c =>
          ch ← channel c;
          (if decide (recvalt ch = Some p) then mod_chan c (set_recvalt None) else mret tt);;
          if (sr =? 1) && bool_decide (sel = Some c) then
            mod_prog p (set_ptr (Some (ac_ptr ac)));;
            pr ← prog p;
            setW (R_d pr) n;;
            altdone_recv acs p None sr (n + 1)
          else altdone_recv acs p sel sr (n + 1)
      end
  end.

Definition altdone (a : Alt) (p : positive) (sel : option positive) (sr : Z) : M unit :=
  sel ← altdone_send (a_send a) p sel sr 0;
  altdone_recv (a_recv a) p sel sr (zlen (a_send a));;
  mret tt.

(** [c->send || c->sendalt || c->sendq != H] and [c->recv || c->recvalt] *)
Definition can_recv (ch : Channel) : bool :=
  negb (bool_decide (send ch = [])) || bool_decide (is_Some (sendalt ch)) ||
  negb (bool_decide (sendq ch = [])).
Definition can_send (ch : Channel) : bool :=
  negb (bool_decide (recv ch = [])) || bool_decide (is_Some (recvalt ch)).

Definition b2z (b : bool) : Z := if b then 1 else 0.

(** [None] is the -1 of the code. *)
Fixpoint altmark (ca : list (option positive)) (p : positive) (nrdy : Z) : M (option Z) :=
  match ca with
  | [] => mret (Some nrdy)
  | None :: ca => altmark ca p nrdy
  | Some c :: ca =>
      ch ← channel c;
      let nrdy := nrdy + b2z (can_recv ch) in
      if bool_decide (is_Some (recvalt ch)) then mret None
      else mod_chan c (set_recvalt (Some p));; altmark ca p nrdy
  end.

Fixpoint altrdy_recv (acs : list Altc) (p : positive) (e : option exn) (nrdy : Z) :
    M (option exn * Z) :=
  match acs with
  | [] => mret (e, nrdy)
  | ac :: acs =>
      match ac_c ac with
      | H => altrdy_recv acs p (Some exNilref) nrdy
      | HA a =>
          ca ← carray a;
          r ← altmark ca p 0;
          match r with
          | None => altrdy_recv acs p (Some exBusy) nrdy
          | Some r => altrdy_recv acs p e (nrdy + r)
          end
      | HC c =>
          ch ← channel c;
          let nrdy := nrdy + b2z (can_recv ch) in
          if bool_decide (is_Some (recvalt ch)) then altrdy_recv acs p (Some exBusy) nrdy
          else mod_chan c (set_recvalt (Some p));; altrdy_recv acs p e nrdy
      end
  end.

Fixpoint altrdy_send (acs : list Altc) (p : positive) (e : option exn) (nrdy : Z) :
    M (option exn * Z) :=
  match acs with
  | [] => mret (e, nrdy)
  | ac :: acs =>
      match ac_c ac with
      | H => altrdy_send acs p (Some exNilref) nrdy
      | HA _ => fault
      | HC c =>
          ch ← channel c;
          if can_send ch && bool_decide (recvalt ch = Some p) then
            altrdy_send acs p (Some exAlt) nrdy
          else
            let nrdy := nrdy + b2z (can_send ch) in
            if bool_decide (is_Some (sendalt ch)) then altrdy_send acs p (Some exBusy) nrdy
            else mod_chan c (set_sendalt (Some p));; altrdy_send acs p e nrdy
      end
  end.

Definition altrdy (a : Alt) (p : positive) : M Z :=
  '(e, nrdy) ← altrdy_recv (a_recv a) p None 0;
  '(e, nrdy) ← altrdy_send (a_send a) p e nrdy;
  match e with
  | Some e => altdone a p None (-1);; error e
  | None => mret nrdy
  end.

(** ** Send and receive (interp/xec.c) *)

(** Whether the instruction finished or the process gave up the processor
    ([R.IC = 1; R.t = 1]). *)
Inductive outcome := Finished | Blocked.

Definition isend (d : href) (s : Z) : M outcome :=
  match d with
  | H => error exNilref
  | HA _ => fault
  | HC c =>
      ch ← channel c;
      if negb (can_send ch) then
        p ← delrun Psend;
        mod_prog p (set_wait Psend (Some c) (Some s));;
        mod_chan c (fun ch => set_send (send ch ++ [p]) ch);;
        mret Blocked
      else
        p ← match recvalt ch with
            | Some p =>
                mod_chan c (set_recvalt None);;
                pr ← prog p;
                a ← alt_at (R_s pr);
                altdone a p (Some c) 1;;
                mret p
            | None =>
                p ← from (head (recv ch));
                mod_chan c (fun ch => set_recv (tail (recv ch)) ch);;
                mret p
            end;
        pr ← prog p;
        mod_prog p (set_ptr None);;
        ws ← loads s (words ch);
        stores (ptr pr) ws;;
        addrun p;;
        mret Finished
  end.

Definition irecv (s : href) (d : Z) : M outcome :=
  match s with
  | H => error exNilref
  | HA _ => fault
  | HC c =>
      ch ← channel c;
      if bool_decide (send ch = []) && negb (bool_decide (is_Some (sendalt ch))) then
        match sendq ch with
        | sq :: sqt =>
            mod_chan c (set_sendq sqt);;
            stores (Some d) sq;;
            mret Finished
        | [] =>
            p ← delrun Precv;
            mod_prog p (set_wait Precv (Some c) (Some d));;
            mod_chan c (fun ch => set_recv (recv ch ++ [p]) ch);;
            mret Blocked
        end
      else
        p ← match sendalt ch with
            | Some p =>
                mod_chan c (set_sendalt None);;
                pr ← prog p;
                a ← alt_at (R_s pr);
                altdone a p (Some c) 0;;
                mret p
            | None =>
                p ← from (head (send ch));
                mod_chan c (fun ch => set_send (tail (send ch)) ch);;
                mret p
            end;
        pr ← prog p;
        mod_prog p (set_ptr None);;
        s ← from (ptr pr);
        ws ← loads s (words ch);
        stores (Some d) ws;;
        addrun p;;
        mret Finished
  end.

(** [csendq]: queue a message if nobody waits for it; [false] (0 in the code)
    when the queue has [lim] messages already. *)
Definition csendq (c : href) (ip : Z) (lim : Z) : M bool :=
  match c with
  | H => error exNilref
  | HA _ => fault
  | HC c =>
      ch ← channel c;
      if negb (can_send ch) then
        if (0 <=? lim) && (lim <=? zlen (sendq ch)) then mret false
        else
          ws ← loads ip (words ch);
          mod_chan c (fun ch => set_sendq (sendq ch ++ [ws]) ch);;
          mret true
      else isend (HC c) ip;; mret true
  end.

(** ** Alt, pass two, and the instructions *)

Fixpoint altcomm_send (acs : list Altc) (rd : Z) (which n : Z) : M (outcome + Z) :=
  match acs with
  | [] => mret (inr which)
  | ac :: acs =>
      match ac_c ac with
      | H | HA _ => fault
      | HC c =>
          ch ← channel c;
          if can_send ch then
            if which =? 0 then
              setW rd n;;
              o ← isend (HC c) (ac_ptr ac);
              mret (inl o)
            else altcomm_send acs rd (which - 1) (n + 1)
          else altcomm_send acs rd which (n + 1)
      end
  end.

Fixpoint altcomm_array (ca : list (option positive)) (pt rd : Z) (which n an : Z) :
    M (outcome + Z) :=
  match ca with
  | [] => mret (inr which)
  | None :: ca => altcomm_array ca pt rd which n (an + 1)
  | Some c :: ca =>
      ch ← channel c;
      if can_recv ch then
        if which =? 0 then
          setW rd n;;
          setW pt an;;
          o ← irecv (HC c) (pt + 1);
          mret (inl o)
        else altcomm_array ca pt rd (which - 1) n (an + 1)
      else altcomm_array ca pt rd which n (an + 1)
  end.

Fixpoint altcomm_recv (acs : list Altc) (rd : Z) (which n : Z) : M (outcome + Z) :=
  match acs with
  | [] => mret (inr which)
  | ac :: acs =>
      match ac_c ac with
      | H => fault
      | HA a =>
          ca ← carray a;
          r ← altcomm_array ca (ac_ptr ac) rd which n 0;
          match r with
          | inl o => mret (inl o)
          | inr which => altcomm_recv acs rd which (n + 1)
          end
      | HC c =>
          ch ← channel c;
          if can_recv ch then
            if which =? 0 then
              setW rd n;;
              o ← irecv (HC c) (ac_ptr ac);
              mret (inl o)
            else altcomm_recv acs rd (which - 1) (n + 1)
          else altcomm_recv acs rd which (n + 1)
      end
  end.

Definition altcomm (a : Alt) (rd : Z) (which : Z) : M unit :=
  r ← altcomm_send (a_send a) rd which 0;
  match r with
  | inl _ => mret tt
  | inr which => altcomm_recv (a_recv a) rd which (zlen (a_send a));; mret tt
  end.

(** The generator behind the choice among the ready channels. *)
Definition next_xrand (x : Z) : Z :=
  let x := i32 (x + x) in
  if x <? 0 then i32 (Z.lxor (u32 x) 0x88888EEF) else x.

(** [xecalt]: the instructions [alt] ([block]) and [nbalt]; [s] and [d] are the
    registers. *)
Definition xecalt (block : bool) (s : option positive) (d : Z) : M outcome :=
  p ← currun;
  a ← alt_at s;
  nrdy ← altrdy a p;
  if nrdy =? 0 then
    if block then
      delrun Palt;;
      mod_prog p (set_regs s d);;
      mret Blocked
    else
      setW d (zlen (a_send a) + zlen (a_recv a));;
      altdone a p None (-1);;
      mret Finished
  else
    x ← (fun v => let x := next_xrand (xrand v) in Ret x (set_xrand x v));
    altcomm a d (Z.rem x nrdy);;
    altdone a p None (-1);;
    mret Finished.

(** ** Killing (emu/dis.c, interp/alt.c, interp/heap.c) *)

Definition altgone (p : positive) : M unit :=
  pr ← prog p;
  if decide (state pr = Palt) then
    a ← alt_at (R_s pr);
    altdone a p None (-1);;
    mod_prog p (set_kill (Some Alt_hungup));;
    addrun p
  else mret tt.

(** [killcomm] empties a queue of a channel; [put] stores its head, [*pp]. *)
Fixpoint killcomm (put : list positive -> M unit) (ps : list positive) : M unit :=
  match ps with
  | [] => mret tt
  | p :: ps =>
      put ps;;
      mod_prog p (set_ptr None);;
      pr ← prog p;
      match state pr with
      | Psend | Precv => mod_prog p (set_kill (Some Changup));; addrun p
      | _ => mret tt       (* [Prelease]: [swiprog] interrupts the host process *)
      end;;
      killcomm put ps
  end.

Definition altgone_opt (p : option positive) : M unit :=
  match p with Some p => altgone p | None => mret tt end.

(** [freechan], and the channel's memory goes. *)
Definition freechan (c : positive) : M unit :=
  ch ← channel c;
  altgone_opt (sendalt ch);;
  ch ← channel c;
  altgone_opt (recvalt ch);;
  ch ← channel c;
  killcomm (fun l => mod_chan c (set_send l)) (send ch);;
  ch ← channel c;
  killcomm (fun l => mod_chan c (set_recv l)) (recv ch);;
  modify (fun v => set_chans (delete c (chans v)) v).

(** [killprog]; the process's memory, descriptors and waiting parents are left
    out.  The result is the code's: 1 when the process is gone. *)
Definition killprog (p : positive) : M bool :=
  r ← (fun v => Ret (head (runq v)) v);
  if decide (r = Some p) then
    mod_prog p (fun pr => set_state Pexiting (set_kill (Some Killed) pr));; mret false
  else
    pr ← prog p;
    let rest : M bool :=
      if addrun_hook pr then
        mod_prog p (set_kill (Some Killed));; addrun p;; mod_prog p (set_hook false);; mret false
      else if debug pr then mod_prog p (set_state Pbroken);; mret false
      else modify (fun v => set_progs (delete p (progs v)) v);; mret true in
    match state pr with
    | Palt => a ← alt_at (R_s pr); altdone a p None (-1);; rest
    | Psend => c ← from (chan pr); mod_chan c (fun ch => set_send (unlink p (send ch)) ch);; rest
    | Precv => c ← from (chan pr); mod_chan c (fun ch => set_recv (unlink p (recv ch)) ch);; rest
    | Pready => delrunq p;; rest
    | Prelease =>
        mod_prog p (fun pr => set_state Pexiting (set_kill (Some Killed) pr));; mret false
    | Pexiting => mret false
    | Pbroken | Pdebug => rest
    end.

End Chan.
