(* ===== verification/ChanProof.v ===== *)
(** * Channels: the invariant

    What holds of processes, channels and alts between instructions, and the
    small changes the instructions are made of: a process leaves a queue or the
    channels of its alt, is in transit, and joins another queue. *)

From S2P Require Import Prelude Chan.
Import Chan.

#[local] Open Scope Z_scope.

(** ** Running a computation *)

Definition upd_prog (p : positive) (pr : Prog) (v : vm) : vm := set_progs (<[p := pr]> (progs v)) v.
Definition upd_chan (c : positive) (ch : Channel) (v : vm) : vm := set_chans (<[c := ch]> (chans v)) v.

Section Running.

Context {B : Type}.
Implicit Types (k : unit -> M B).

Lemma run_bind {A} (m : M A) (f : A -> M B) a v v' : m v = Ret a v' -> (m ≫= f) v = f a v'.
Proof. intros E. unfold mbind, m_bind. by rewrite E. Qed.

Lemma run_prog p pr (f : Prog -> M B) v : progs v !! p = Some pr -> (prog p ≫= f) v = f pr v.
Proof. intros E. apply run_bind. unfold prog. by rewrite E. Qed.

Lemma run_channel c ch (f : Channel -> M B) v : chans v !! c = Some ch -> (channel c ≫= f) v = f ch v.
Proof. intros E. apply run_bind. unfold channel. by rewrite E. Qed.

Lemma run_carray a ca (f : list (option positive) -> M B) v :
  carrays v !! a = Some ca -> (carray a ≫= f) v = f ca v.
Proof. intros E. apply run_bind. unfold carray. by rewrite E. Qed.

Lemma run_alt_at a al (f : Alt -> M B) v : alts v !! a = Some al -> (alt_at (Some a) ≫= f) v = f al v.
Proof. intros E. apply run_bind. unfold alt_at. simpl. by rewrite E. Qed.

Lemma run_mod_prog p pr f k v : progs v !! p = Some pr ->
  (mod_prog p f ≫= k) v = k tt (upd_prog p (f pr) v).
Proof. intros E. apply run_bind. unfold mod_prog, prog, mbind, m_bind. by rewrite E. Qed.

Lemma run_mod_chan c ch f k v : chans v !! c = Some ch ->
  (mod_chan c f ≫= k) v = k tt (upd_chan c (f ch) v).
Proof. intros E. apply run_bind. unfold mod_chan, channel, mbind, m_bind. by rewrite E. Qed.

Lemma run_ret {A} (a : A) (f : A -> M B) v : ((mret a : M A) ≫= f) v = f a v.
Proof. done. Qed.

Lemma run_stores x ws k v :
  (stores (Some x) ws ≫= k) v = k tt (set_mem (store_words (mem v) x ws) v).
Proof. done. Qed.

Lemma run_loads x n (f : list Z -> M B) v : (loads x n ≫= f) v = f (load_words (mem v) x n) v.
Proof. done. Qed.

End Running.

Lemma m_assoc {A B C} (m : M A) (f : A -> M B) (g : B -> M C) v :
  ((m ≫= f) ≫= g) v = (m ≫= (fun a => f a ≫= g)) v.
Proof. unfold mbind, m_bind. by destruct (m v). Qed.

(** ** The channels of an alt *)

Definition send_chans (acs : list Altc) : list positive :=
  omap (fun ac => match ac_c ac with HC c => Some c | _ => None end) acs.

Definition entry_chans (arrs : gmap positive (list (option positive))) (h : href) : list positive :=
  match h with
  | H => []
  | HC c => [c]
  | HA a => omap (fun c => c) (default [] (arrs !! a))
  end.

Definition recv_chans (arrs : gmap positive (list (option positive))) (acs : list Altc) : list positive :=
  concat (map (fun ac => entry_chans arrs (ac_c ac)) acs).

(** Pointers lead to something of their type. *)
Definition wf_send (v : vm) (acs : list Altc) : Prop :=
  Forall (fun ac => match ac_c ac with
    | H => True | HC c => is_Some (chans v !! c) | HA _ => False end) acs.
Definition wf_recv (v : vm) (acs : list Altc) : Prop :=
  Forall (fun ac => match ac_c ac with
    | H => True
    | HC c => is_Some (chans v !! c)
    | HA a => exists ca, carrays v !! a = Some ca /\
        Forall (fun c => match c with Some c => is_Some (chans v !! c) | None => True end) ca
    end) acs.
Definition wf_alt (v : vm) (a : Alt) : Prop := wf_send v (a_send a) /\ wf_recv v (a_recv a).

(** ** Taking marks off *)

Definition unsend (p : positive) (ch : Channel) : Channel :=
  if decide (sendalt ch = Some p) then set_sendalt None ch else ch.
Definition unrecv (p : positive) (ch : Channel) : Channel :=
  if decide (recvalt ch = Some p) then set_recvalt None ch else ch.

Definition clear (f : Channel -> Channel) (cs : list positive) (m : gmap positive Channel) :=
  foldl (fun m c => alter f c m) m cs.

(** No channel is marked by [p] any more. *)
Definition unmark (p : positive) (v : vm) : vm :=
  set_chans ((fun ch => unsend p (unrecv p ch)) <$> chans v) v.

Section Marks.

Lemma unsend_idem p ch : unsend p (unsend p ch) = unsend p ch.
Proof. unfold unsend. repeat case_decide; simplify_eq/=; done. Qed.

Lemma unrecv_idem p ch : unrecv p (unrecv p ch) = unrecv p ch.
Proof. unfold unrecv. repeat case_decide; simplify_eq/=; done. Qed.

Lemma lookup_clear f cs m c : (forall ch, f (f ch) = f ch) ->
  clear f cs m !! c = if decide (c ∈ cs) then f <$> m !! c else m !! c.
Proof.
  intros Hf. revert m. induction cs as [|c' cs IH]; intros m.
  { case_decide; [set_solver | done]. }
  change (clear f (c' :: cs) m) with (clear f cs (alter f c' m)).
  rewrite IH. destruct (decide (c = c')) as [-> | Hne].
  - rewrite lookup_alter_eq. do 2 case_decide; try set_solver.
    destruct (m !! c'); simpl; [by rewrite Hf | done].
  - rewrite lookup_alter_ne by done. do 2 case_decide; set_solver.
Qed.

Lemma clear_app f cs1 cs2 m : clear f (cs1 ++ cs2) m = clear f cs2 (clear f cs1 m).
Proof. apply foldl_app. Qed.

(** A clearing step of the loops. *)
Lemma clear_one f c ch m : m !! c = Some ch -> clear f [c] m = <[c := f ch]> m.
Proof.
  intros E. simpl. apply map_eq. intros i. destruct (decide (i = c)) as [-> | ].
  - by rewrite lookup_alter_eq, E, lookup_insert_eq.
  - by rewrite lookup_alter_ne, lookup_insert_ne.
Qed.

Lemma run_unsend {B} c ch p (k : unit -> M B) v : chans v !! c = Some ch ->
  ((if decide (sendalt ch = Some p) then mod_chan c (set_sendalt None) else mret tt) ≫= k) v =
  k tt (set_chans (clear (unsend p) [c] (chans v)) v).
Proof.
  intros E. rewrite (clear_one _ _ ch) by done. unfold unsend. case_decide.
  - by rewrite (run_mod_chan c ch).
  - rewrite run_ret, insert_id by done. by destruct v.
Qed.

Lemma run_unrecv {B} c ch p (k : unit -> M B) v : chans v !! c = Some ch ->
  ((if decide (recvalt ch = Some p) then mod_chan c (set_recvalt None) else mret tt) ≫= k) v =
  k tt (set_chans (clear (unrecv p) [c] (chans v)) v).
Proof.
  intros E. rewrite (clear_one _ _ ch) by done. unfold unrecv. case_decide.
  - by rewrite (run_mod_chan c ch).
  - rewrite run_ret, insert_id by done. by destruct v.
Qed.

End Marks.

(** ** What [altdone] does *)

(** The place of the selected channel in an alt: where the data goes or comes
    from, the index of the entry and, in an array, the address for the index of
    the channel and that index. *)
Record slot := MkSlot { sl_ptr : Z; sl_n : Z; sl_ix : option (Z * Z) }.

Fixpoint find_send (acs : list Altc) (c : positive) (n : Z) : option slot :=
  match acs with
  | [] => None
  | ac :: acs =>
      if decide (ac_c ac = HC c) then Some (MkSlot (ac_ptr ac) n None) else find_send acs c (n + 1)
  end.

Fixpoint find_ca (ca : list (option positive)) (pt : Z) (c : positive) (dn n : Z) : option slot :=
  match ca with
  | [] => None
  | x :: ca =>
      if decide (x = Some c) then Some (MkSlot (pt + 1) dn (Some (pt, n)))
      else find_ca ca pt c dn (n + 1)
  end.

Fixpoint find_recv (arrs : gmap positive (list (option positive))) (acs : list Altc) (c : positive)
    (n : Z) : option slot :=
  match acs with
  | [] => None
  | ac :: acs =>
      match match ac_c ac with
            | H => None
            | HC c' => if decide (c' = c) then Some (MkSlot (ac_ptr ac) n None) else None
            | HA a => find_ca (default [] (arrs !! a)) (ac_ptr ac) c n 0
            end with
      | Some sl => Some sl
      | None => find_recv arrs acs c (n + 1)
      end
  end.

(** The partner in an alt learns where the message goes and which entry it is. *)
Definition set_slot (sl : slot) (pr : Prog) (m : gmap Z Z) : gmap Z Z :=
  let m := <[R_d pr := sl_n sl]> m in
  match sl_ix sl with Some (x, i) => <[x := i]> m | None => m end.

Definition deliver (p : positive) (o : option slot) (v : vm) : vm :=
  match o, progs v !! p with
  | Some sl, Some pr => upd_prog p (set_ptr (Some (sl_ptr sl)) pr) (set_mem (set_slot sl pr (mem v)) v)
  | _, _ => v
  end.

Section Altdone.

Lemma deliver_None p v : deliver p None v = v.
Proof. done. Qed.

Lemma deliver_set_chans p o m v : deliver p o (set_chans m v) = set_chans m (deliver p o v).
Proof. unfold deliver. destruct o; [| done]. cbn [progs set_chans]. by destruct (progs v !! p). Qed.

Lemma chans_deliver p o v : chans (deliver p o v) = chans v.
Proof. unfold deliver. destruct o; [| done]. by destruct (progs v !! p). Qed.

Lemma carrays_deliver p o v : carrays (deliver p o v) = carrays v.
Proof. unfold deliver. destruct o; [| done]. by destruct (progs v !! p). Qed.

Lemma set_chans_twice m1 m2 v : set_chans m1 (set_chans m2 v) = set_chans m1 v.
Proof. done. Qed.

Lemma set_chans_same v : set_chans (chans v) v = v.
Proof. by destruct v. Qed.

Lemma is_Some_clear f cs (m : gmap positive Channel) c : is_Some (m !! c) -> is_Some (clear f cs m !! c).
Proof.
  revert m. induction cs as [|c' cs IH]; intros m Hc; [done |].
  change (clear f (c' :: cs) m) with (clear f cs (alter f c' m)). apply IH.
  destruct (decide (c = c')) as [-> | ].
  - rewrite lookup_alter_eq. by apply fmap_is_Some.
  - by rewrite lookup_alter_ne.
Qed.

Lemma wf_send_weaken v v' acs :
  (forall c, is_Some (chans v !! c) -> is_Some (chans v' !! c)) -> wf_send v acs -> wf_send v' acs.
Proof.
  intros Hc Hw. eapply Forall_impl; [exact Hw |]. intros ac; cbv beta. destruct (ac_c ac); auto.
Qed.

Lemma wf_recv_weaken v v' acs :
  (forall c, is_Some (chans v !! c) -> is_Some (chans v' !! c)) -> carrays v' = carrays v ->
  wf_recv v acs -> wf_recv v' acs.
Proof.
  intros Hc Ha Hw. eapply Forall_impl; [exact Hw |]. intros ac; cbv beta. destruct (ac_c ac) as [| c | a]; auto.
  intros (ca & E & Hca). exists ca. rewrite Ha. split; [done |].
  eapply Forall_impl; [exact Hca |]. intros [c|]; auto.
Qed.

(** What the loops leave, entry by entry. *)
Definition sel_left (o : option slot) (sel : option positive) : option positive :=
  match o with Some _ => None | None => sel end.

Definition after (f : Channel -> Channel) (cs : list positive) (p : positive) (o : option slot) (v : vm) : vm :=
  set_chans (clear f cs (chans v)) (deliver p o v).

Lemma after_chans f cs p o v : chans (after f cs p o v) = clear f cs (chans v).
Proof. done. Qed.

Lemma after_prog f cs p o v : is_Some (progs v !! p) -> is_Some (progs (after f cs p o v) !! p).
Proof.
  intros [pr E]. unfold after, deliver. destruct o; cbn [progs set_chans]; [| eauto].
  rewrite E. cbn [progs upd_prog set_progs]. rewrite lookup_insert_eq. eauto.
Qed.

(** One delivery, before or after the clearing. *)
Lemma after_cons f c cs p o v :
  after f cs p o (set_chans (clear f [c] (chans v)) v) = after f (c :: cs) p o v.
Proof. unfold after. cbn [chans set_chans]. by rewrite deliver_set_chans. Qed.

Lemma after_deliver f c cs p o v :
  after f cs p None (deliver p o (set_chans (clear f [c] (chans v)) v)) = after f (c :: cs) p o v.
Proof.
  unfold after. rewrite chans_deliver, deliver_None, deliver_set_chans. done.
Qed.

Definition sel_slot (b : bool) (sel : option positive) (find : positive -> option slot) : option slot :=
  if b then sel ≫= find else None.

Lemma run_altdone_send acs p sel sr n v : wf_send v acs -> is_Some (progs v !! p) ->
  let o := sel_slot (sr =? 0) sel (fun c => find_send acs c n) in
  altdone_send acs p sel sr n v = Ret (sel_left o sel) (after (unsend p) (send_chans acs) p o v).
Proof.
  intros Hw Hp. revert sel n v Hw Hp. induction acs as [|[h x] acs IH]; intros sel n v Hw Hp o.
  { subst o. unfold sel_slot. assert (sel ≫= (fun c => find_send [] c n) = None) as -> by (by destruct sel).
    destruct (sr =? 0); unfold after; simpl; by rewrite set_chans_same. }
  apply Forall_cons in Hw as [Hc Hw]. cbn [ac_c] in Hc. cbn [altdone_send ac_c ac_ptr].
  destruct h as [| c | a]; [| | done].
  { subst o. rewrite (IH sel (n + 1) v Hw Hp). f_equal.
    all: unfold sel_slot; destruct sel; [| by destruct (sr =? 0)]; simpl; by case_decide. }
  destruct Hc as [ch Ec]. rewrite (run_channel _ ch), (run_unsend _ ch) by done.
  set (v1 := set_chans _ v). assert (wf_send v1 acs) as Hw1.
  { eapply wf_send_weaken; [| exact Hw]. intros c'. apply is_Some_clear. }
  destruct ((sr =? 0) && bool_decide (sel = Some c)) eqn:Eb.
  - apply andb_true_iff in Eb as [Es ->%bool_decide_eq_true]. destruct Hp as [pr Ep].
    rewrite (run_mod_prog _ pr) by done. rewrite (run_prog _ (set_ptr (Some x) pr)) by apply lookup_insert_eq.
    unfold setW. rewrite run_stores.
    subst o. unfold sel_slot. rewrite Es. cbn [mbind option_bind find_send ac_c ac_ptr].
    rewrite decide_True by done. set (o := Some (MkSlot x n None)).
    assert (forall w : vm, w = deliver p o v1 ->
      altdone_send acs p None sr (n + 1) w = Ret None (after (unsend p) (c :: send_chans acs) p o v)) as Hg.
    { intros w ->. rewrite IH.
      - unfold sel_slot. destruct (sr =? 0); cbn [mbind option_bind sel_left]; f_equal; apply after_deliver.
      - eapply wf_send_weaken; [| exact Hw1]. intros c'. by rewrite chans_deliver.
      - unfold deliver. cbn. rewrite Ep. cbn. rewrite lookup_insert_eq. eauto. }
    apply Hg. unfold deliver. cbn. by rewrite Ep.
  - rewrite IH by done. subst o. assert (sel_slot (sr =? 0) sel (fun c' => find_send (MkAltc (HC c) x :: acs) c' n)
      = sel_slot (sr =? 0) sel (fun c' => find_send acs c' (n + 1))) as ->.
    { unfold sel_slot. destruct (sr =? 0); [| done]. destruct sel as [s|]; [| done]. cbn.
      rewrite decide_False; [done |]. intros [= ->]. cbn in Eb. by rewrite bool_decide_eq_true_2 in Eb. }
    f_equal. apply after_cons.
Qed.

End Altdone.

Section AltdoneRecv.

Lemma after_app f cs1 cs2 p o1 o2 v : o1 = None \/ o2 = None ->
  after f cs2 p o2 (after f cs1 p o1 v) =
  after f (cs1 ++ cs2) p (match o1 with Some sl => Some sl | None => o2 end) v.
Proof.
  intros Ho. unfold after. cbn [chans set_chans]. rewrite clear_app, deliver_set_chans, set_chans_twice.
  destruct Ho as [-> | ->]; [done |]. by destruct o1.
Qed.

Lemma deliver_after f c p sl pr v : progs v !! p = Some pr ->
  after f [c] p (Some sl) v =
  upd_prog p (set_ptr (Some (sl_ptr sl)) pr)
    (set_mem (set_slot sl pr (mem v)) (set_chans (clear f [c] (chans v)) v)).
Proof. intros E. unfold after, deliver. by rewrite E. Qed.

Lemma wf_after f cs p o v c : is_Some (chans v !! c) -> is_Some (chans (after f cs p o v) !! c).
Proof. apply is_Some_clear. Qed.

Lemma run_altunmark ca pt p sr sel dn n v :
  Forall (fun c => match c with Some c => is_Some (chans v !! c) | None => True end) ca ->
  is_Some (progs v !! p) ->
  let o := sel_slot (sr =? 1) sel (fun c => find_ca ca pt c dn n) in
  altunmark ca pt p sr sel dn n v = Ret (sel_left o sel) (after (unrecv p) (omap (fun c => c) ca) p o v).
Proof.
  intros Hw Hp. revert sel n v Hw Hp. induction ca as [|x ca IH]; intros sel n v Hw Hp o.
  { subst o. unfold sel_slot. assert (sel ≫= (fun c => find_ca [] pt c dn n) = None) as -> by (by destruct sel).
    destruct (sr =? 1); unfold after; simpl; by rewrite set_chans_same. }
  apply Forall_cons in Hw as [Hc Hw]. cbn [altunmark]. destruct x as [c|].
  2: { subst o. rewrite (IH sel (n + 1) v Hw Hp). f_equal. }
  destruct Hc as [ch Ec]. rewrite (run_channel _ ch), (run_unrecv _ ch) by done.
  set (v1 := set_chans _ v).
  assert (forall w, (forall c, is_Some (chans v !! c) -> is_Some (chans w !! c)) ->
    Forall (fun c => match c with Some c => is_Some (chans w !! c) | None => True end) ca) as Hw1.
  { intros w Hcw. eapply Forall_impl; [exact Hw |]. intros [c'|]; auto. }
  change (omap (fun c => c) (Some c :: ca)) with ([c] ++ omap (fun c => c) ca).
  destruct ((sr =? 1) && bool_decide (sel = Some c)) eqn:Eb.
  - apply andb_true_iff in Eb as [Es ->%bool_decide_eq_true]. destruct Hp as [pr Ep].
    rewrite (run_prog _ pr) by done. unfold setW. rewrite run_stores.
    rewrite (run_mod_prog _ pr) by done. rewrite run_stores.
    subst o. unfold sel_slot. rewrite Es. cbn [mbind option_bind find_ca]. rewrite decide_True by done.
    set (sl := MkSlot (pt + 1) dn (Some (pt, n))).
    assert (forall w : vm, w = after (unrecv p) [c] p (Some sl) v ->
      altunmark ca pt p sr None dn (n + 1) w =
      Ret None (after (unrecv p) ([c] ++ omap (fun c => c) ca) p (Some sl) v)) as Hg.
    { intros w ->. rewrite IH.
      - unfold sel_slot. destruct (sr =? 1); cbn [mbind option_bind sel_left]; f_equal; apply after_app; by right.
      - apply Hw1. intros c'. apply wf_after.
      - apply after_prog. eauto. }
    apply Hg. by rewrite (deliver_after _ _ _ _ pr).
  - rewrite IH; [| apply Hw1; intros c'; apply is_Some_clear | done]. subst o.
    assert (sel_slot (sr =? 1) sel (fun c' => find_ca (Some c :: ca) pt c' dn n)
      = sel_slot (sr =? 1) sel (fun c' => find_ca ca pt c' dn (n + 1))) as ->.
    { unfold sel_slot. destruct (sr =? 1); [| done]. destruct sel as [s|]; [| done]. cbn.
      rewrite decide_False; [done |]. intros [= ->]. cbn in Eb. by rewrite bool_decide_eq_true_2 in Eb. }
    f_equal. apply after_cons.
Qed.

Lemma run_altdone_recv acs p sel sr n v : wf_recv v acs -> is_Some (progs v !! p) ->
  let o := sel_slot (sr =? 1) sel (fun c => find_recv (carrays v) acs c n) in
  altdone_recv acs p sel sr n v =
  Ret (sel_left o sel) (after (unrecv p) (recv_chans (carrays v) acs) p o v).
Proof.
  intros Hw Hp. revert sel n v Hw Hp. induction acs as [|[h x] acs IH]; intros sel n v Hw Hp o.
  { subst o. unfold sel_slot.
    assert (sel ≫= (fun c => find_recv (carrays v) [] c n) = None) as -> by (by destruct sel).
    destruct (sr =? 1); unfold after; simpl; by rewrite set_chans_same. }
  apply Forall_cons in Hw as [Hc Hw]. cbn [ac_c] in Hc. cbn [altdone_recv ac_c ac_ptr].
  change (recv_chans (carrays v) (MkAltc h x :: acs)) with
    (entry_chans (carrays v) h ++ recv_chans (carrays v) acs).
  assert (forall cs o1 sel1, wf_recv (after (unrecv p) cs p o1 v) acs /\
    is_Some (progs (after (unrecv p) cs p o1 v) !! p) /\
    sel_slot (sr =? 1) sel1 (fun c => find_recv (carrays (after (unrecv p) cs p o1 v)) acs c (n + 1)) =
    sel_slot (sr =? 1) sel1 (fun c => find_recv (carrays v) acs c (n + 1))) as Hafter.
  { intros cs o1 sel1. assert (carrays (after (unrecv p) cs p o1 v) = carrays v) as Ea by apply carrays_deliver.
    rewrite Ea. split; [| split; [by apply after_prog | done]].
    eapply wf_recv_weaken; [intros c'; apply wf_after | done | done]. }
  assert (forall cs o1, sel_slot (sr =? 1) sel (fun c => find_recv (carrays v) (MkAltc h x :: acs) c n) =
      match o1 with Some sl => Some sl | None =>
        sel_slot (sr =? 1) (sel_left o1 sel) (fun c => find_recv (carrays v) acs c (n + 1)) end ->
    altdone_recv acs p (sel_left o1 sel) sr (n + 1) (after (unrecv p) cs p o1 v) =
    Ret (sel_left o sel) (after (unrecv p) (cs ++ recv_chans (carrays v) acs) p o v)) as Hgo.
  { intros cs o1 Ho. destruct (Hafter cs o1 (sel_left o1 sel)) as (Hw1 & Hp1 & Es).
    rewrite IH by done. rewrite Es, after_app.
    2: { destruct o1; [right | by left]. unfold sel_slot. by destruct (sr =? 1). }
    assert (carrays (after (unrecv p) cs p o1 v) = carrays v) as -> by apply carrays_deliver.
    fold o in Ho. rewrite Ho. destruct o1; [| done]. cbn [sel_left].
    unfold sel_slot. by destruct (sr =? 1). }
  destruct h as [| c | a].
  - change ([] ++ recv_chans (carrays v) acs) with (recv_chans (carrays v) acs).
    specialize (Hgo [] None eq_refl). unfold after in Hgo at 1. simpl in Hgo.
    by rewrite set_chans_same in Hgo.
  - destruct Hc as [ch Ec]. rewrite (run_channel _ ch), (run_unrecv _ ch) by done.
    destruct ((sr =? 1) && bool_decide (sel = Some c)) eqn:Eb.
    + apply andb_true_iff in Eb as [Es ->%bool_decide_eq_true]. destruct Hp as [pr Ep].
      rewrite (run_mod_prog _ pr) by done.
      rewrite (run_prog _ (set_ptr (Some x) pr)) by apply lookup_insert_eq. unfold setW. rewrite run_stores.
      specialize (Hgo [c] (Some (MkSlot x n None))). rewrite (deliver_after _ _ _ _ pr) in Hgo by done.
      apply Hgo. unfold sel_slot. rewrite Es. cbn. by rewrite decide_True by done.
    + specialize (Hgo [c] None). apply Hgo. unfold sel_slot. destruct (sr =? 1); [| done].
      destruct sel as [s|]; [| done]. cbn. rewrite decide_False; [done |].
      intros ->. cbn in Eb. by rewrite bool_decide_eq_true_2 in Eb.
  - destruct Hc as (ca & Ea & Hca). rewrite (run_carray _ ca) by done.
    rewrite (run_bind _ _ _ _ _ (run_altunmark ca x p sr sel n 0 v Hca Hp)).
    cbn [entry_chans]. rewrite Ea. cbn [default].
    apply Hgo. unfold sel_slot. destruct (sr =? 1); [| done]. destruct sel as [s|]; [| done].
    simpl. rewrite Ea. simpl. by destruct (find_ca ca x s n 0).
Qed.

(** The marks of [p] are on channels of [a]. *)
Definition marks_in (a : Alt) (p : positive) (v : vm) : Prop :=
  forall c ch, chans v !! c = Some ch ->
    (sendalt ch = Some p -> c ∈ send_chans (a_send a)) /\
    (recvalt ch = Some p -> c ∈ recv_chans (carrays v) (a_recv a)).

Lemma unsend_id p ch : sendalt ch <> Some p -> unsend p ch = ch.
Proof. intros H. unfold unsend. by rewrite decide_False. Qed.

Lemma unrecv_id p ch : recvalt ch <> Some p -> unrecv p ch = ch.
Proof. intros H. unfold unrecv. by rewrite decide_False. Qed.

Lemma sendalt_unrecv p ch : sendalt (unrecv p ch) = sendalt ch.
Proof. unfold unrecv. by case_decide. Qed.

Lemma unsend_unrecv p ch : unsend p (unrecv p ch) = unrecv p (unsend p ch).
Proof. unfold unsend, unrecv. repeat (case_decide; simplify_eq/=); done. Qed.

Lemma clear_marks a p v : marks_in a p v ->
  clear (unrecv p) (recv_chans (carrays v) (a_recv a)) (clear (unsend p) (send_chans (a_send a)) (chans v)) =
  (fun ch => unsend p (unrecv p ch)) <$> chans v.
Proof.
  intros Hm. apply map_eq. intros c. rewrite lookup_fmap, lookup_clear by apply unrecv_idem.
  rewrite lookup_clear by apply unsend_idem. destruct (chans v !! c) as [ch|] eqn:E.
  2: { by repeat case_decide. }
  destruct (Hm c ch E) as [Hs Hr]. simpl. rewrite unsend_unrecv.
  assert (c ∉ send_chans (a_send a) -> unsend p ch = ch) as Hs1 by (intros; apply unsend_id; auto).
  assert (c ∉ recv_chans (carrays v) (a_recv a) -> unrecv p (unsend p ch) = unsend p ch) as Hr1.
  { intros Hn. apply unrecv_id. intros Er. apply Hn. apply Hr. rewrite <- Er. unfold unsend. by case_decide. }
  do 2 case_decide; simpl; rewrite ?Hs1, ?Hr1 by done; try done.
  all: rewrite Hs1 in Hr1 by done; by rewrite Hr1.
Qed.

Lemma run_altdone a p sel sr v : wf_alt v a -> is_Some (progs v !! p) -> marks_in a p v ->
  let o := match sel_slot (sr =? 0) sel (fun c => find_send (a_send a) c 0) with
           | Some sl => Some sl
           | None => sel_slot (sr =? 1) sel (fun c => find_recv (carrays v) (a_recv a) c (zlen (a_send a)))
           end in
  altdone a p sel sr v = Ret tt (deliver p o (unmark p v)).
Proof.
  intros [Hws Hwr] Hp Hm o. unfold altdone.
  rewrite (run_bind _ _ _ _ _ (run_altdone_send _ p sel sr 0 v Hws Hp)).
  set (o1 := sel_slot (sr =? 0) _ _) in *.
  assert (carrays (after (unsend p) (send_chans (a_send a)) p o1 v) = carrays v) as Ea by apply carrays_deliver.
  rewrite (run_bind _ _ _ _ _ (run_altdone_recv _ p (sel_left o1 sel) sr (zlen (a_send a))
    (after (unsend p) (send_chans (a_send a)) p o1 v)
    (wf_recv_weaken _ _ _ (fun c => wf_after _ _ _ _ _ c) Ea Hwr) (after_prog _ _ _ _ _ Hp))).
  rewrite Ea. f_equal. unfold after. cbn [chans set_chans].
  rewrite clear_marks, deliver_set_chans, set_chans_twice by done. unfold unmark.
  rewrite deliver_set_chans. f_equal. subst o. destruct o1 as [sl|]; cbn [sel_left].
  - unfold sel_slot. by destruct (sr =? 1).
  - done.
Qed.

End AltdoneRecv.

(** ** The invariant *)

Definition waits (s : ProgState) (c : positive) (pr : Prog) : Prop :=
  state pr = s /\ chan pr = Some c /\ is_Some (ptr pr).

Definition parked (v : vm) (p : positive) (pr : Prog) (al : Alt) : Prop :=
  progs v !! p = Some pr /\ state pr = Palt /\ exists a, R_s pr = Some a /\ alts v !! a = Some al.

(** The state with the process [l], if any, in transit: its record is of no
    account, and it is in no queue.  Without one:
    - the run queue holds exactly the processes that can run;
    - the queues of a channel hold exactly the processes that wait to send or
      receive on it, once each;
    - a channel is marked by a process exactly if the process waits in an alt
      over that channel;
    - a sender (or a queued message) and a receiver never wait on the same
      channel;
    - the pointers in alts lead to channels. *)
Record inv_ (l : option positive) (v : vm) : Prop := {
  i_run : NoDup (runq v);
  i_runq p : p ∈ runq v -> Some p <> l /\
    exists pr, progs v !! p = Some pr /\ (state pr = Pready \/ state pr = Pexiting);
  i_ready p pr : progs v !! p = Some pr -> Some p <> l -> state pr = Pready -> p ∈ runq v;
  i_nodup c ch : chans v !! c = Some ch -> NoDup (send ch) /\ NoDup (recv ch);
  i_send c ch p : chans v !! c = Some ch -> p ∈ send ch ->
    Some p <> l /\ exists pr, progs v !! p = Some pr /\ waits Psend c pr;
  i_recv c ch p : chans v !! c = Some ch -> p ∈ recv ch ->
    Some p <> l /\ exists pr, progs v !! p = Some pr /\ waits Precv c pr;
  i_sender p pr : progs v !! p = Some pr -> Some p <> l -> state pr = Psend ->
    exists c ch, chan pr = Some c /\ chans v !! c = Some ch /\ p ∈ send ch;
  i_receiver p pr : progs v !! p = Some pr -> Some p <> l -> state pr = Precv ->
    exists c ch, chan pr = Some c /\ chans v !! c = Some ch /\ p ∈ recv ch;
  i_hook p pr : progs v !! p = Some pr -> Some p <> l -> addrun_hook pr = true -> state pr = Prelease;
  i_transit p : l = Some p -> exists pr, progs v !! p = Some pr /\ addrun_hook pr = false;
  i_alt p pr : progs v !! p = Some pr -> Some p <> l -> state pr = Palt ->
    exists al, parked v p pr al /\
      (forall c, c ∈ send_chans (a_send al) -> exists ch, chans v !! c = Some ch /\ sendalt ch = Some p) /\
      (forall c, c ∈ recv_chans (carrays v) (a_recv al) ->
         exists ch, chans v !! c = Some ch /\ recvalt ch = Some p);
  i_sendalt c ch p : chans v !! c = Some ch -> sendalt ch = Some p ->
    Some p <> l /\ exists pr al, parked v p pr al /\ c ∈ send_chans (a_send al);
  i_recvalt c ch p : chans v !! c = Some ch -> recvalt ch = Some p ->
    Some p <> l /\ exists pr al, parked v p pr al /\ c ∈ recv_chans (carrays v) (a_recv al);
  i_meet c ch : chans v !! c = Some ch -> can_recv ch = true -> can_send ch = false;
  i_refs a al : alts v !! a = Some al -> wf_alt v al;
}.

Abbreviation inv := (inv_ None).

Ltac lookups := repeat match goal with
  | H : <[_ := _]> _ !! _ = Some _ |- _ =>
      apply lookup_insert_Some in H as [[? ?] | [? H]]; subst
  end.

Section Inv.

(** Changes that no clause looks at. *)
Lemma inv_set_mem l m v : inv_ l v -> inv_ l (set_mem m v).
Proof. intros []. by split. Qed.

Lemma inv_set_xrand l x v : inv_ l v -> inv_ l (set_xrand x v).
Proof. intros []. by split. Qed.

Lemma wf_alt_weaken v v' al :
  (forall c, is_Some (chans v !! c) -> is_Some (chans v' !! c)) -> carrays v' = carrays v ->
  wf_alt v al -> wf_alt v' al.
Proof. intros Hc Ha [Hs Hr]. split; [by eapply wf_send_weaken | by eapply wf_recv_weaken]. Qed.

Lemma wf_alt_upd_chan v c ch al : wf_alt v al -> wf_alt (upd_chan c ch v) al.
Proof.
  apply wf_alt_weaken; [| done]. intros c'. cbn. destruct (decide (c' = c)) as [-> | ].
  - rewrite lookup_insert_eq. eauto.
  - by rewrite lookup_insert_ne.
Qed.

(** The record of the process in transit. *)
Lemma inv_transit_prog p pr v : inv_ (Some p) v -> addrun_hook pr = false -> inv_ (Some p) (upd_prog p pr v).
Proof.
  intros I Hh. destruct I. split; cbn [progs chans carrays alts runq upd_prog set_progs]; try done.
  - intros q Hq. destruct (i_runq0 q Hq) as (Hne & pr' & E & Hs). split; [done |]. exists pr'.
    rewrite lookup_insert_ne by congruence. done.
  - intros q pr' E Hne. lookups; [done |]. eauto.
  - intros c ch q E Hq. destruct (i_send0 c ch q E Hq) as (Hne & pr' & E' & Hw). split; [done |].
    exists pr'. by rewrite lookup_insert_ne by congruence.
  - intros c ch q E Hq. destruct (i_recv0 c ch q E Hq) as (Hne & pr' & E' & Hw). split; [done |].
    exists pr'. by rewrite lookup_insert_ne by congruence.
  - intros q pr' E Hne. lookups; [done |]. eauto.
  - intros q pr' E Hne. lookups; [done |]. eauto.
  - intros q pr' E Hne. lookups; [done |]. eauto.
  - intros q [= <-]. exists pr. by rewrite lookup_insert_eq.
  - intros q pr' E Hne Hs. lookups; [done |]. destruct (i_alt0 q pr' E Hne Hs) as (al & (E' & Hs' & Ha) & Hm).
    exists al. split; [| done]. split; [cbn; by rewrite lookup_insert_ne by congruence | done].
  - intros c ch q E Hq. destruct (i_sendalt0 c ch q E Hq) as (Hne & pr' & al & (E' & Ha) & Hm).
    split; [done |]. exists pr', al. split; [| done]. split; [cbn; by rewrite lookup_insert_ne by congruence | done].
  - intros c ch q E Hq. destruct (i_recvalt0 c ch q E Hq) as (Hne & pr' & al & (E' & Ha) & Hm).
    split; [done |]. exists pr', al. split; [| done]. split; [cbn; by rewrite lookup_insert_ne by congruence | done].
Qed.

(** Clauses about a process that is not in transit. *)
Ltac other p q := destruct (decide (q = p)) as [-> | ?]; [try congruence |].

Lemma some_ne {A} (x : A) : Some x <> None.
Proof. done. Qed.


(** The process in transit joins the run queue. *)
Lemma inv_join_runq p pr q v : inv_ (Some p) v -> progs v !! p = Some pr ->
  state pr = Pready \/ state pr = Pexiting -> NoDup q -> (forall r, r ∈ q <-> r ∈ runq v \/ r = p) ->
  inv (set_runq q v).
Proof.
  intros I Ep Hs Hnd Hq'. destruct (i_transit _ _ I p eq_refl) as (pr' & E' & Hh). simplify_eq. destruct I.
  assert (forall s, state pr = s -> s = Pready \/ s = Pexiting) as Hn by (by intros s <-).
  split; cbn [progs chans carrays alts runq set_runq]; try done.
  - intros r [Hr | ->]%Hq'; [by destruct (i_runq0 r Hr) | eauto].
  - intros r pr' E _ Hr. apply Hq'. other p r; [by right | left; naive_solver].
  - intros c ch r E Hq. destruct (i_send0 c ch r E Hq) as [_ Hr]. done.
  - intros c ch r E Hq. destruct (i_recv0 c ch r E Hq) as [_ Hr]. done.
  - intros r pr' E _ Hq. other p r; [simplify_eq; by destruct (Hn _ Hq) |]. apply (i_sender0 r pr' E); congruence.
  - intros r pr' E _ Hq. other p r; [simplify_eq; by destruct (Hn _ Hq) |]. apply (i_receiver0 r pr' E); congruence.
  - intros r pr' E _ Hq. other p r. apply (i_hook0 r pr' E); congruence.
  - intros r pr' E _ Hq. other p r; [simplify_eq; by destruct (Hn _ Hq) |]. apply (i_alt0 r pr' E); congruence.
  - intros c ch r E Hq. destruct (i_sendalt0 c ch r E Hq) as [_ Hr]. done.
  - intros c ch r E Hq. destruct (i_recvalt0 c ch r E Hq) as [_ Hr]. done.
Qed.

Lemma inv_join_run p pr v : inv_ (Some p) v -> progs v !! p = Some pr -> state pr = Pready ->
  inv (set_runq (runq v ++ [p]) v).
Proof.
  intros I Ep Hs. assert (p ∉ runq v) as Hp by (intros Hp; by destruct (i_runq _ _ I p Hp)).
  apply (inv_join_runq p pr); [done | done | by left | |].
  - apply NoDup_app. split; [apply I |]. split; [| apply NoDup_singleton]. set_solver.
  - intros r. rewrite elem_of_app, list_elem_of_singleton. tauto.
Qed.

(** The order of the run queue is of no account. *)
Lemma inv_perm_runq q v : inv v -> q ≡ₚ runq v -> inv (set_runq q v).
Proof.
  intros [] Hq. split; cbn [progs chans carrays alts runq set_runq]; try done.
  - by rewrite Hq.
  - intros p. rewrite Hq. auto.
  - intros p pr E. rewrite Hq. eauto.
Qed.

(** It is left in a state in which it is in no queue, or it goes. *)
Lemma inv_settle p pr v : inv_ (Some p) v -> progs v !! p = Some pr ->
  state pr ∉ [Palt; Psend; Precv; Pready] -> inv v.
Proof.
  intros I Ep Hs. destruct (i_transit _ _ I p eq_refl) as (pr' & E' & Hh). simplify_eq. destruct I.
  assert (forall s, state pr = s -> s ∉ [Palt; Psend; Precv; Pready]) as Hn by (by intros s <-).
  assert (forall q pr' s, progs v !! q = Some pr' -> state pr' = s -> s ∈ [Palt; Psend; Precv; Pready] ->
    Some q <> Some p) as Hne.
  { intros q pr' s E Hq Hin [= ->]. rewrite Ep in E. injection E as <-. by apply (Hn s Hq). }
  split; try done.
  - intros q Hq. destruct (i_runq0 q Hq) as [_ Hr]. done.
  - intros q pr' E _ Hq. apply (i_ready0 q pr' E); [eapply Hne; [done | done | set_solver] | done].
  - intros c ch q E Hq. destruct (i_send0 c ch q E Hq) as [_ Hr]. done.
  - intros c ch q E Hq. destruct (i_recv0 c ch q E Hq) as [_ Hr]. done.
  - intros q pr' E _ Hq. apply (i_sender0 q pr' E); [eapply Hne; [done | done | set_solver] | done].
  - intros q pr' E _ Hq. apply (i_receiver0 q pr' E); [eapply Hne; [done | done | set_solver] | done].
  - intros q pr' E _ Hq. other p q. apply (i_hook0 q pr' E); congruence.
  - intros q pr' E _ Hq. apply (i_alt0 q pr' E); [eapply Hne; [done | done | set_solver] | done].
  - intros c ch q E Hq. destruct (i_sendalt0 c ch q E Hq) as [_ Hr]. done.
  - intros c ch q E Hq. destruct (i_recvalt0 c ch q E Hq) as [_ Hr]. done.
Qed.

Lemma inv_remove p v : inv_ (Some p) v -> inv (set_progs (delete p (progs v)) v).
Proof.
  intros []. split; cbn [progs chans carrays alts runq set_progs]; try done.
  - intros q Hq. destruct (i_runq0 q Hq) as (Hne & pr & E & Hs). split; [done |]. exists pr.
    by rewrite lookup_delete_ne by congruence.
  - intros q pr [Hne E]%lookup_delete_Some _ Hs. apply (i_ready0 q pr E); congruence.
  - intros c ch q E Hq. destruct (i_send0 c ch q E Hq) as (Hne & pr & E' & Hs). split; [done |]. exists pr.
    by rewrite lookup_delete_ne by congruence.
  - intros c ch q E Hq. destruct (i_recv0 c ch q E Hq) as (Hne & pr & E' & Hs). split; [done |]. exists pr.
    by rewrite lookup_delete_ne by congruence.
  - intros q pr [Hne E]%lookup_delete_Some _ Hs. apply (i_sender0 q pr E); congruence.
  - intros q pr [Hne E]%lookup_delete_Some _ Hs. apply (i_receiver0 q pr E); congruence.
  - intros q pr [Hne E]%lookup_delete_Some _ Hs. apply (i_hook0 q pr E); congruence.
  - intros q pr [Hne E]%lookup_delete_Some _ Hs.
    destruct (i_alt0 q pr E) as (al & (E' & Ha) & Hm); [congruence | done |].
    exists al. split; [| done]. split; [cbn; by rewrite lookup_delete_ne by congruence | done].
  - intros c ch q E Hq. destruct (i_sendalt0 c ch q E Hq) as (Hne & pr & al & (E' & Ha) & Hm).
    split; [done |]. exists pr, al. split; [| done]. split; [cbn; by rewrite lookup_delete_ne by congruence | done].
  - intros c ch q E Hq. destruct (i_recvalt0 c ch q E Hq) as (Hne & pr & al & (E' & Ha) & Hm).
    split; [done |]. exists pr, al. split; [| done]. split; [cbn; by rewrite lookup_delete_ne by congruence | done].
Qed.

(** A process leaves the run queue. *)
Lemma inv_leave_runq p q v : inv v -> p ∈ runq v -> NoDup q -> (forall r, r ∈ q <-> r ∈ runq v /\ r <> p) ->
  inv_ (Some p) (set_runq q v).
Proof.
  intros I Hp Hnd Hq. destruct I. destruct (i_runq0 p Hp) as (_ & pr & Ep & Hs).
  assert (forall s, state pr = s -> s = Pready \/ s = Pexiting) as Hn by (by intros s <-).
  split; cbn [progs chans carrays alts runq set_runq]; try done.
  - intros r [Hr Hne]%Hq. destruct (i_runq0 r Hr) as (_ & pr' & E & Hs'). split; [congruence | eauto].
  - intros r pr' E Hne Hs'. apply Hq. split; [by apply (i_ready0 r pr' E (some_ne r)) | congruence].
  - intros c ch r E Hr. destruct (i_send0 c ch r E Hr) as (_ & pr' & E' & Hw). split; [| eauto].
    intros [= ->]. destruct Hw as [Hw _]. simplify_eq. destruct (Hn _ Hw); done.
  - intros c ch r E Hr. destruct (i_recv0 c ch r E Hr) as (_ & pr' & E' & Hw). split; [| eauto].
    intros [= ->]. destruct Hw as [Hw _]. simplify_eq. destruct (Hn _ Hw); done.
  - intros r pr' E _. by apply (i_sender0 r pr' E).
  - intros r pr' E _. by apply (i_receiver0 r pr' E).
  - intros r pr' E _. by apply (i_hook0 r pr' E).
  - intros r [= <-]. exists pr. split; [done |]. destruct (addrun_hook pr) eqn:Hh; [| done].
    pose proof (i_hook0 p pr Ep (some_ne p) Hh) as Hw. destruct (Hn _ Hw); done.
  - intros r pr' E _. by apply (i_alt0 r pr' E).
  - intros c ch r E Hr. destruct (i_sendalt0 c ch r E Hr) as (_ & pr' & al & (E' & Hw & Ha) & Hm).
    split; [| by exists pr', al]. intros [= ->]. simplify_eq. destruct (Hn _ Hw); done.
  - intros c ch r E Hr. destruct (i_recvalt0 c ch r E Hr) as (_ & pr' & al & (E' & Hw & Ha) & Hm).
    split; [| by exists pr', al]. intros [= ->]. simplify_eq. destruct (Hn _ Hw); done.
Qed.

(** The one at the head does. *)
Lemma inv_leave_run p q v : inv v -> runq v = p :: q -> inv_ (Some p) (set_runq q v).
Proof.
  intros I Eq. pose proof (i_run _ _ I) as Hnd. rewrite Eq in Hnd. apply NoDup_cons in Hnd as [Hp Hq].
  apply inv_leave_runq; [done | rewrite Eq; set_solver | done |].
  intros r. rewrite Eq, elem_of_cons. split; [| naive_solver]. intros Hr. split; [by right | congruence].
Qed.

(** A process waits in one place at a time. *)
Lemma not_in_runq l v p pr : inv_ l v -> progs v !! p = Some pr ->
  state pr <> Pready -> state pr <> Pexiting -> p ∉ runq v.
Proof.
  intros I E H1 H2 Hp. destruct (i_runq _ _ I p Hp) as (_ & pr' & E' & [? | ?]); simplify_eq; done.
Qed.

Lemma not_in_send l v p pr c ch : inv_ l v -> progs v !! p = Some pr -> chans v !! c = Some ch ->
  (state pr <> Psend \/ chan pr <> Some c) -> p ∉ send ch.
Proof.
  intros I E Ec Hs Hp. destruct (i_send _ _ I c ch p Ec Hp) as (_ & pr' & E' & H1 & H2 & _).
  simplify_eq. by destruct Hs.
Qed.

Lemma not_in_recv l v p pr c ch : inv_ l v -> progs v !! p = Some pr -> chans v !! c = Some ch ->
  (state pr <> Precv \/ chan pr <> Some c) -> p ∉ recv ch.
Proof.
  intros I E Ec Hs Hp. destruct (i_recv _ _ I c ch p Ec Hp) as (_ & pr' & E' & H1 & H2 & _).
  simplify_eq. by destruct Hs.
Qed.

Lemma no_sendalt l v p pr c ch : inv_ l v -> progs v !! p = Some pr -> chans v !! c = Some ch ->
  state pr <> Palt -> sendalt ch <> Some p.
Proof.
  intros I E Ec Hs Hp. destruct (i_sendalt _ _ I c ch p Ec Hp) as (_ & pr' & al & (E' & H1 & _) & _).
  by simplify_eq.
Qed.

Lemma no_recvalt l v p pr c ch : inv_ l v -> progs v !! p = Some pr -> chans v !! c = Some ch ->
  state pr <> Palt -> recvalt ch <> Some p.
Proof.
  intros I E Ec Hs Hp. destruct (i_recvalt _ _ I c ch p Ec Hp) as (_ & pr' & al & (E' & H1 & _) & _).
  by simplify_eq.
Qed.

Lemma some_ne_some {A} (x y : A) : x <> y -> Some x <> Some y.
Proof. congruence. Qed.

(** A change of a queue of one channel that takes [p] out of it. *)
Lemma inv_leave_queue p pr c ch ch' v : inv v -> progs v !! p = Some pr -> chans v !! c = Some ch ->
  state pr = Psend \/ state pr = Precv -> chan pr = Some c ->
  sendalt ch' = sendalt ch -> recvalt ch' = recvalt ch ->
  (can_recv ch' = true -> can_recv ch = true) -> (can_send ch' = true -> can_send ch = true) ->
  NoDup (send ch') -> NoDup (recv ch') ->
  (forall q, q ∈ send ch' <-> q ∈ send ch /\ q <> p) -> (forall q, q ∈ recv ch' <-> q ∈ recv ch /\ q <> p) ->
  inv_ (Some p) (upd_chan c ch' v).
Proof.
  intros I Ep Ec Hst Hch Hsa Hra Hcr Hcs Nds Ndr Hs Hr.
  assert (state pr <> Pready /\ state pr <> Pexiting /\ state pr <> Palt /\ state pr <> Prelease) as (S1 & S2 & S3 & S4)
    by (destruct Hst as [-> | ->]; done).
  assert (forall q, is_Some (chans v !! q) -> is_Some (chans (upd_chan c ch' v) !! q)) as Hdom.
  { intros q Hq. cbn. destruct (decide (q = c)) as [-> | ]; [rewrite lookup_insert_eq | rewrite lookup_insert_ne]; eauto. }
  split; cbn [progs chans carrays alts runq upd_chan set_chans].
  - apply I.
  - intros q Hq. pose proof (not_in_runq _ _ _ _ I Ep S1 S2). split; [congruence |].
    destruct (i_runq _ _ I q Hq) as [_ Hx]. done.
  - intros q pr' E _. by apply (i_ready _ _ I).
  - intros c' ch1 E. lookups; [done |]. by apply (i_nodup _ _ I c').
  - intros c' ch1 q E Hq. lookups.
    + apply Hs in Hq as [Hq Hne]. split; [congruence |]. by destruct (i_send _ _ I _ _ q Ec Hq) as [_ Hx].
    + split; [| by destruct (i_send _ _ I _ _ q E Hq) as [_ Hx]]. intros [= ->].
      eapply not_in_send; [done | done | exact E | | done]. right. congruence.
  - intros c' ch1 q E Hq. lookups.
    + apply Hr in Hq as [Hq Hne]. split; [congruence |]. by destruct (i_recv _ _ I _ _ q Ec Hq) as [_ Hx].
    + split; [| by destruct (i_recv _ _ I _ _ q E Hq) as [_ Hx]]. intros [= ->].
      eapply not_in_recv; [done | done | exact E | | done]. right. congruence.
  - intros q pr' E Hne Hw. destruct (i_sender _ _ I q pr' E (some_ne q) Hw) as (c' & ch1 & H1 & H2 & H3).
    destruct (decide (c' = c)) as [-> | ]; [| exists c', ch1; by rewrite lookup_insert_ne].
    exists c, ch'. rewrite lookup_insert_eq. simplify_eq. split; [done |]. split; [done |]. apply Hs. split; congruence.
  - intros q pr' E Hne Hw. destruct (i_receiver _ _ I q pr' E (some_ne q) Hw) as (c' & ch1 & H1 & H2 & H3).
    destruct (decide (c' = c)) as [-> | ]; [| exists c', ch1; by rewrite lookup_insert_ne].
    exists c, ch'. rewrite lookup_insert_eq. simplify_eq. split; [done |]. split; [done |]. apply Hr. split; congruence.
  - intros q pr' E _. by apply (i_hook _ _ I q pr' E).
  - intros q [= <-]. exists pr. split; [done |]. destruct (addrun_hook pr) eqn:Hh; [| done].
    by pose proof (i_hook _ _ I p pr Ep (some_ne p) Hh).
  - intros q pr' E _ Hw. destruct (i_alt _ _ I q pr' E (some_ne q) Hw) as (al & Hpk & Ha & Hb). exists al.
    split; [done |]. split; intros c' Hc'.
    + destruct (Ha c' Hc') as (ch1 & E1 & Hm). destruct (decide (c' = c)) as [-> | ].
      * exists ch'. rewrite lookup_insert_eq. simplify_eq. by rewrite Hsa.
      * exists ch1. by rewrite lookup_insert_ne.
    + destruct (Hb c' Hc') as (ch1 & E1 & Hm). destruct (decide (c' = c)) as [-> | ].
      * exists ch'. rewrite lookup_insert_eq. simplify_eq. by rewrite Hra.
      * exists ch1. by rewrite lookup_insert_ne.
  - intros c' ch1 q E Hm.
    assert (exists ch2, chans v !! c' = Some ch2 /\ sendalt ch2 = Some q) as (ch2 & E2 & Hm2).
    { lookups; [| eauto]. exists ch. by rewrite <- Hsa. }
    split; [| by apply (i_sendalt _ _ I c' ch2 q E2 Hm2)]. intros [= ->]. by eapply no_sendalt.
  - intros c' ch1 q E Hm.
    assert (exists ch2, chans v !! c' = Some ch2 /\ recvalt ch2 = Some q) as (ch2 & E2 & Hm2).
    { lookups; [| eauto]. exists ch. by rewrite <- Hra. }
    split; [| by apply (i_recvalt _ _ I c' ch2 q E2 Hm2)]. intros [= ->]. by eapply no_recvalt.
  - intros c' ch1 E Hm. lookups; [| by apply (i_meet _ _ I c')].
    pose proof (i_meet _ _ I _ _ Ec (Hcr Hm)) as Hf. destruct (can_send ch1) eqn:Hcs'; [| done].
    by rewrite Hcs in Hf.
  - intros a al Ha. eapply wf_alt_weaken; [exact Hdom | done | by apply (i_refs _ _ I a)].
Qed.

Lemma NoDup_unlink p l : NoDup l -> NoDup (unlink p l) /\ forall q, q ∈ unlink p l <-> q ∈ l /\ q <> p.
Proof.
  induction 1 as [|x l Hx Hl [IH1 IH2]]; simpl; [split; [constructor | set_solver] |].
  case_decide as Hd.
  - subst. split; [done |]. intros q. rewrite elem_of_cons. split; [| naive_solver].
    intros Hq. split; [by right |]. intros ->. done.
  - split; [constructor; [| done] | intros q; rewrite !elem_of_cons, IH2; naive_solver].
    rewrite IH2. tauto.
Qed.

(** The process in transit joins a queue of a channel. *)
Lemma inv_join_queue p pr c ch ch' v : inv_ (Some p) v -> progs v !! p = Some pr -> chans v !! c = Some ch ->
  state pr = Psend \/ state pr = Precv -> chan pr = Some c -> is_Some (ptr pr) ->
  sendalt ch' = sendalt ch -> recvalt ch' = recvalt ch ->
  (can_recv ch' = true -> can_send ch' = false) ->
  NoDup (send ch') -> NoDup (recv ch') ->
  (forall q, q ∈ send ch' <-> q ∈ send ch \/ (q = p /\ state pr = Psend)) ->
  (forall q, q ∈ recv ch' <-> q ∈ recv ch \/ (q = p /\ state pr = Precv)) ->
  inv (upd_chan c ch' v).
Proof.
  intros I Ep Ec Hst Hch Hpt Hsa Hra Hmeet Nds Ndr Hs Hr.
  destruct (i_transit _ _ I p eq_refl) as (pr' & E' & Hh). simplify_eq.
  assert (state pr <> Pready /\ state pr <> Pexiting /\ state pr <> Palt /\ state pr <> Prelease) as (S1 & S2 & S3 & S4)
    by (destruct Hst as [-> | ->]; done).
  assert (forall q, is_Some (chans v !! q) -> is_Some (chans (upd_chan c ch' v) !! q)) as Hdom.
  { intros q Hq. cbn. destruct (decide (q = c)) as [-> | ]; [rewrite lookup_insert_eq | rewrite lookup_insert_ne]; eauto. }
  split; cbn [progs chans carrays alts runq upd_chan set_chans].
  - apply I.
  - intros q Hq. split; [done |]. by apply (i_runq _ _ I q Hq).
  - intros q pr' E _ Hw. other p q. apply (i_ready _ _ I q pr' E); congruence.
  - intros c' ch1 E. lookups; [done |]. by apply (i_nodup _ _ I c').
  - intros c' ch1 q E Hq. split; [done |]. lookups.
    + apply Hs in Hq as [Hq | [-> Hw]]; [by apply (i_send _ _ I _ _ q Ec Hq) | by exists pr].
    + by apply (i_send _ _ I _ _ q E Hq).
  - intros c' ch1 q E Hq. split; [done |]. lookups.
    + apply Hr in Hq as [Hq | [-> Hw]]; [by apply (i_recv _ _ I _ _ q Ec Hq) | by exists pr].
    + by apply (i_recv _ _ I _ _ q E Hq).
  - intros q pr' E _ Hw. destruct (decide (q = p)) as [-> | Hne].
    { simplify_eq. exists c, ch'. rewrite lookup_insert_eq. split; [done |]. split; [done |]. apply Hs. by right. }
    destruct (i_sender _ _ I q pr' E (some_ne_some _ _ Hne) Hw) as (c' & ch1 & H1 & H2 & H3).
    destruct (decide (c' = c)) as [-> | ]; [| exists c', ch1; by rewrite lookup_insert_ne].
    exists c, ch'. rewrite lookup_insert_eq. simplify_eq. split; [done |]. split; [done |]. apply Hs. by left.
  - intros q pr' E _ Hw. destruct (decide (q = p)) as [-> | Hne].
    { simplify_eq. exists c, ch'. rewrite lookup_insert_eq. split; [done |]. split; [done |]. apply Hr. by right. }
    destruct (i_receiver _ _ I q pr' E (some_ne_some _ _ Hne) Hw) as (c' & ch1 & H1 & H2 & H3).
    destruct (decide (c' = c)) as [-> | ]; [| exists c', ch1; by rewrite lookup_insert_ne].
    exists c, ch'. rewrite lookup_insert_eq. simplify_eq. split; [done |]. split; [done |]. apply Hr. by left.
  - intros q pr' E _ Hw. other p q. apply (i_hook _ _ I q pr' E); congruence.
  - done.
  - intros q pr' E _ Hw. other p q.
    destruct (i_alt _ _ I q pr' E (some_ne_some _ _ n) Hw) as (al & Hpk & Ha & Hb). exists al.
    split; [done |]. split; intros c' Hc'.
    + destruct (Ha c' Hc') as (ch1 & E1 & Hm). destruct (decide (c' = c)) as [-> | ].
      * exists ch'. rewrite lookup_insert_eq. simplify_eq. by rewrite Hsa.
      * exists ch1. by rewrite lookup_insert_ne.
    + destruct (Hb c' Hc') as (ch1 & E1 & Hm). destruct (decide (c' = c)) as [-> | ].
      * exists ch'. rewrite lookup_insert_eq. simplify_eq. by rewrite Hra.
      * exists ch1. by rewrite lookup_insert_ne.
  - intros c' ch1 q E Hm. split; [done |].
    assert (exists ch2, chans v !! c' = Some ch2 /\ sendalt ch2 = Some q) as (ch2 & E2 & Hm2).
    { lookups; [| eauto]. exists ch. by rewrite <- Hsa. }
    by apply (i_sendalt _ _ I c' ch2 q E2 Hm2).
  - intros c' ch1 q E Hm. split; [done |].
    assert (exists ch2, chans v !! c' = Some ch2 /\ recvalt ch2 = Some q) as (ch2 & E2 & Hm2).
    { lookups; [| eauto]. exists ch. by rewrite <- Hra. }
    by apply (i_recvalt _ _ I c' ch2 q E2 Hm2).
  - intros c' ch1 E Hm. lookups; [auto |]. by apply (i_meet _ _ I c').
  - intros a al Ha. eapply wf_alt_weaken; [exact Hdom | done | by apply (i_refs _ _ I a)].
Qed.

(** Queued messages come and go. *)
Lemma inv_sendq l c ch q v : inv_ l v -> chans v !! c = Some ch ->
  (q <> [] -> can_send ch = false) -> inv_ l (upd_chan c (set_sendq q ch) v).
Proof.
  intros I Ec Hq.
  assert (forall c' ch1, <[c := set_sendq q ch]> (chans v) !! c' = Some ch1 -> exists ch2, chans v !! c' = Some ch2 /\
    send ch1 = send ch2 /\ recv ch1 = recv ch2 /\ sendalt ch1 = sendalt ch2 /\ recvalt ch1 = recvalt ch2) as Hl.
  { intros c' ch1 E. lookups; [by exists ch | by exists ch1]. }
  assert (forall c' ch2, chans v !! c' = Some ch2 -> exists ch1, <[c := set_sendq q ch]> (chans v) !! c' = Some ch1 /\
    send ch1 = send ch2 /\ recv ch1 = recv ch2 /\ sendalt ch1 = sendalt ch2 /\ recvalt ch1 = recvalt ch2) as Hr.
  { intros c' ch2 E. destruct (decide (c' = c)) as [-> | ].
    - exists (set_sendq q ch). rewrite lookup_insert_eq. by simplify_eq.
    - exists ch2. by rewrite lookup_insert_ne. }
  split; cbn [progs chans carrays alts runq upd_chan set_chans].
  - apply I.
  - apply (i_runq _ _ I).
  - apply (i_ready _ _ I).
  - intros c' ch1 E. destruct (Hl _ _ E) as (ch2 & E2 & -> & -> & _). by apply (i_nodup _ _ I c').
  - intros c' ch1 p E. destruct (Hl _ _ E) as (ch2 & E2 & -> & _). by apply (i_send _ _ I c').
  - intros c' ch1 p E. destruct (Hl _ _ E) as (ch2 & E2 & _ & -> & _). by apply (i_recv _ _ I c').
  - intros p pr E Hne Hs. destruct (i_sender _ _ I p pr E Hne Hs) as (c' & ch2 & H1 & H2 & H3).
    destruct (Hr _ _ H2) as (ch1 & E1 & Hx & _). exists c', ch1. by rewrite Hx.
  - intros p pr E Hne Hs. destruct (i_receiver _ _ I p pr E Hne Hs) as (c' & ch2 & H1 & H2 & H3).
    destruct (Hr _ _ H2) as (ch1 & E1 & _ & Hx & _). exists c', ch1. by rewrite Hx.
  - apply (i_hook _ _ I).
  - apply (i_transit _ _ I).
  - intros p pr E Hne Hs. destruct (i_alt _ _ I p pr E Hne Hs) as (al & Hp & Ha & Hb). exists al.
    split; [done |]. split; intros c' Hc'.
    + destruct (Ha c' Hc') as (ch2 & E2 & Hm). destruct (Hr _ _ E2) as (ch1 & E1 & _ & _ & Hx & _).
      exists ch1. by rewrite Hx.
    + destruct (Hb c' Hc') as (ch2 & E2 & Hm). destruct (Hr _ _ E2) as (ch1 & E1 & _ & _ & _ & Hx).
      exists ch1. by rewrite Hx.
  - intros c' ch1 p E. destruct (Hl _ _ E) as (ch2 & E2 & _ & _ & -> & _). by apply (i_sendalt _ _ I c').
  - intros c' ch1 p E. destruct (Hl _ _ E) as (ch2 & E2 & _ & _ & _ & ->). by apply (i_recvalt _ _ I c').
  - intros c' ch1 E Hm. lookups; [| by apply (i_meet _ _ I c')].
    destruct (decide (q = [])) as [-> | ]; [| by apply Hq].
    assert (can_recv ch = true) as Hc.
    { unfold can_recv in *. simpl in Hm. apply orb_true_iff in Hm as [Hm | Hm]; [by rewrite Hm | done]. }
    exact (i_meet _ _ I _ ch Ec Hc).
  - intros a al Ha. apply wf_alt_upd_chan. by apply (i_refs _ _ I a).
Qed.

(** *** Alts *)

Lemma unmark_facts p ch : let ch' := unsend p (unrecv p ch) in
  send ch' = send ch /\ recv ch' = recv ch /\ sendq ch' = sendq ch /\ words ch' = words ch /\
  (forall q, sendalt ch' = Some q <-> sendalt ch = Some q /\ q <> p) /\
  (forall q, recvalt ch' = Some q <-> recvalt ch = Some q /\ q <> p).
Proof.
  unfold unsend, unrecv. repeat case_decide; simplify_eq/=; repeat split; try done; naive_solver congruence.
Qed.

Lemma unmark_can p ch : let ch' := unsend p (unrecv p ch) in
  (can_recv ch' = true -> can_recv ch = true) /\ (can_send ch' = true -> can_send ch = true).
Proof.
  unfold can_recv, can_send, unsend, unrecv. split; repeat case_decide; simplify_eq/=; try done.
  all: rewrite ?orb_true_iff, ?negb_true_iff, ?bool_decide_eq_true; naive_solver.
Qed.

Lemma lookup_unmark p v c ch' : chans (unmark p v) !! c = Some ch' <->
  exists ch, chans v !! c = Some ch /\ ch' = unsend p (unrecv p ch).
Proof. cbn. rewrite lookup_fmap_Some. naive_solver. Qed.

Lemma parked_marks v p pr al : inv v -> parked v p pr al -> marks_in al p v.
Proof.
  intros I (Ep & Hs & a & Ea & Eal) c ch Ec. split; intros Hm.
  - destruct (i_sendalt _ _ I c ch p Ec Hm) as (_ & pr' & al' & (E' & _ & a' & Ea' & Eal') & Hin).
    by simplify_eq.
  - destruct (i_recvalt _ _ I c ch p Ec Hm) as (_ & pr' & al' & (E' & _ & a' & Ea' & Eal') & Hin).
    by simplify_eq.
Qed.

(** A process leaves its alt. *)
Lemma inv_leave_alt p pr v : inv v -> progs v !! p = Some pr -> state pr = Palt -> inv_ (Some p) (unmark p v).
Proof.
  intros I Ep Hst.
  assert (state pr <> Pready /\ state pr <> Pexiting /\ state pr <> Psend /\ state pr <> Precv /\ state pr <> Prelease)
    as (S1 & S2 & S3 & S4 & S5) by (rewrite Hst; done).
  assert (forall c ch, chans v !! c = Some ch -> exists ch', chans (unmark p v) !! c = Some ch' /\
    ch' = unsend p (unrecv p ch)) as Hup.
  { intros c ch E. eexists. split; [apply lookup_unmark; eauto | done]. }
  split.
  - apply I.
  - intros q Hq. pose proof (not_in_runq _ _ _ _ I Ep S1 S2). split; [intros [= ->]; done |].
    by apply (i_runq _ _ I q Hq).
  - intros q pr' E _. by apply (i_ready _ _ I).
  - intros c ch' (ch & Ec & ->)%lookup_unmark. destruct (unmark_facts p ch) as (-> & -> & _). by apply (i_nodup _ _ I c).
  - intros c ch' q (ch & Ec & ->)%lookup_unmark. destruct (unmark_facts p ch) as (-> & _). intros Hq.
    split; [| by apply (i_send _ _ I c ch q Ec Hq)]. intros [= ->].
    eapply not_in_send; [exact I | exact Ep | exact Ec | by left | done].
  - intros c ch' q (ch & Ec & ->)%lookup_unmark. destruct (unmark_facts p ch) as (_ & -> & _). intros Hq.
    split; [| by apply (i_recv _ _ I c ch q Ec Hq)]. intros [= ->].
    eapply not_in_recv; [exact I | exact Ep | exact Ec | by left | done].
  - intros q pr' E _ Hw. destruct (i_sender _ _ I q pr' E (some_ne q) Hw) as (c & ch & H1 & H2 & H3).
    destruct (Hup c ch H2) as (ch' & E' & ->). exists c. eexists. split; [done |]. split; [exact E' |].
    by destruct (unmark_facts p ch) as (-> & _).
  - intros q pr' E _ Hw. destruct (i_receiver _ _ I q pr' E (some_ne q) Hw) as (c & ch & H1 & H2 & H3).
    destruct (Hup c ch H2) as (ch' & E' & ->). exists c. eexists. split; [done |]. split; [exact E' |].
    by destruct (unmark_facts p ch) as (_ & -> & _).
  - intros q pr' E _. by apply (i_hook _ _ I q pr' E).
  - intros q [= <-]. exists pr. split; [done |]. destruct (addrun_hook pr) eqn:Hh; [| done].
    by pose proof (i_hook _ _ I p pr Ep (some_ne p) Hh).
  - intros q pr' E Hne Hw. destruct (i_alt _ _ I q pr' E (some_ne q) Hw) as (al & Hpk & Ha & Hb). exists al.
    split; [done |]. split; intros c Hc.
    + destruct (Ha c Hc) as (ch & Ec & Hm). destruct (Hup c ch Ec) as (ch' & E' & ->). eexists. split; [exact E' |].
      destruct (unmark_facts p ch) as (_ & _ & _ & _ & H & _). apply H. split; [done | congruence].
    + destruct (Hb c Hc) as (ch & Ec & Hm). destruct (Hup c ch Ec) as (ch' & E' & ->). eexists. split; [exact E' |].
      destruct (unmark_facts p ch) as (_ & _ & _ & _ & _ & H). apply H. split; [done | congruence].
  - intros c ch' q (ch & Ec & ->)%lookup_unmark Hm.
    destruct (unmark_facts p ch) as (_ & _ & _ & _ & H & _). apply H in Hm as [Hm Hne].
    split; [congruence |]. by apply (i_sendalt _ _ I c ch q Ec Hm).
  - intros c ch' q (ch & Ec & ->)%lookup_unmark Hm.
    destruct (unmark_facts p ch) as (_ & _ & _ & _ & _ & H). apply H in Hm as [Hm Hne].
    split; [congruence |]. by apply (i_recvalt _ _ I c ch q Ec Hm).
  - intros c ch' (ch & Ec & ->)%lookup_unmark Hm. destruct (unmark_can p ch) as [H1 H2].
    pose proof (i_meet _ _ I c ch Ec (H1 Hm)) as Hf. destruct (can_send (unsend p (unrecv p ch))); [| done].
    by rewrite H2 in Hf.
  - intros a al Ha. apply (wf_alt_weaken v); [| done | by apply (i_refs _ _ I a)].
    intros c [ch E]. destruct (Hup c ch E) as (ch' & E' & _). eauto.
Qed.

(** The marks of an alt. *)
Definition mark_ch (p : positive) (S R : list positive) (c : positive) (ch : Channel) : Channel :=
  let ch := if decide (c ∈ S) then set_sendalt (Some p) ch else ch in
  if decide (c ∈ R) then set_recvalt (Some p) ch else ch.

Definition mark (p : positive) (S R : list positive) (v : vm) : vm :=
  set_chans (map_imap (fun c ch => Some (mark_ch p S R c ch)) (chans v)) v.

Lemma lookup_mark p S R v c : chans (mark p S R v) !! c = (mark_ch p S R c <$> chans v !! c).
Proof. cbn. rewrite map_lookup_imap. by destruct (chans v !! c). Qed.

(** The process in transit joins the channels of an alt, none of which is
    ready. *)
Lemma inv_join_alt p pr a al v :
  let S := send_chans (a_send al) in let R := recv_chans (carrays v) (a_recv al) in
  inv_ (Some p) v -> progs v !! p = Some pr -> state pr = Palt -> R_s pr = Some a -> alts v !! a = Some al ->
  (forall c, c ∈ S -> (c ∉ R) /\ (exists ch, chans v !! c = Some ch /\ can_send ch = false /\ sendalt ch = None)) ->
  (forall c, c ∈ R -> exists ch, chans v !! c = Some ch /\ can_recv ch = false /\ recvalt ch = None) ->
  inv (mark p S R v).
Proof.
  intros S R I Ep Hst Hrs Hal HS HR.
  destruct (i_transit _ _ I p eq_refl) as (pr' & E' & Hh). simplify_eq.
  assert (forall c ch', chans (mark p S R v) !! c = Some ch' ->
    exists ch, chans v !! c = Some ch /\ ch' = mark_ch p S R c ch) as Hdn.
  { intros c ch' E. rewrite lookup_mark in E. apply fmap_Some in E as (ch & -> & ->). eauto. }
  assert (forall c ch, chans v !! c = Some ch -> chans (mark p S R v) !! c = Some (mark_ch p S R c ch)) as Hup.
  { intros c ch E. by rewrite lookup_mark, E. }
  assert (forall c ch, let ch' := mark_ch p S R c ch in send ch' = send ch /\ recv ch' = recv ch /\
    sendq ch' = sendq ch /\ sendalt ch' = (if decide (c ∈ S) then Some p else sendalt ch) /\
    recvalt ch' = (if decide (c ∈ R) then Some p else recvalt ch)) as Hf.
  { intros c ch. unfold mark_ch. by repeat case_decide. }
  assert (progs (mark p S R v) = progs v) as Epr by done.
  split; rewrite ?Epr.
  - apply I.
  - intros q Hq. split; [done |]. by apply (i_runq _ _ I q Hq).
  - intros q pr' E _ Hw. other p q. apply (i_ready _ _ I q pr' E); congruence.
  - intros c ch' E. destruct (Hdn c ch' E) as (ch & Ec & ->). destruct (Hf c ch) as (-> & -> & _).
    by apply (i_nodup _ _ I c).
  - intros c ch' q E. destruct (Hdn c ch' E) as (ch & Ec & ->). destruct (Hf c ch) as (-> & _). intros Hq.
    split; [done |]. by apply (i_send _ _ I c ch q Ec Hq).
  - intros c ch' q E. destruct (Hdn c ch' E) as (ch & Ec & ->). destruct (Hf c ch) as (_ & -> & _). intros Hq.
    split; [done |]. by apply (i_recv _ _ I c ch q Ec Hq).
  - intros q pr' E _ Hw. other p q.
    destruct (i_sender _ _ I q pr' E (some_ne_some _ _ n) Hw) as (c & ch & H1 & H2 & H3).
    exists c. eexists. split; [done |]. split; [by apply Hup |]. by destruct (Hf c ch) as (-> & _).
  - intros q pr' E _ Hw. other p q.
    destruct (i_receiver _ _ I q pr' E (some_ne_some _ _ n) Hw) as (c & ch & H1 & H2 & H3).
    exists c. eexists. split; [done |]. split; [by apply Hup |]. by destruct (Hf c ch) as (_ & -> & _).
  - intros q pr' E _ Hw. other p q. apply (i_hook _ _ I q pr' E); congruence.
  - done.
  - intros q pr' E _ Hw. destruct (decide (q = p)) as [-> | Hne].
    { simplify_eq. exists al. split; [split; [done | eauto] |]. split; intros c Hc.
      - destruct (HS c Hc) as (_ & ch & Ec & _). eexists. split; [by apply Hup |].
        destruct (Hf c ch) as (_ & _ & _ & -> & _). by rewrite decide_True.
      - destruct (HR c Hc) as (ch & Ec & _). eexists. split; [by apply Hup |].
        destruct (Hf c ch) as (_ & _ & _ & _ & ->). by rewrite decide_True. }
    destruct (i_alt _ _ I q pr' E (some_ne_some _ _ Hne) Hw) as (al' & Hpk & Ha & Hb). exists al'.
    split; [done |]. split; intros c Hc.
    + destruct (Ha c Hc) as (ch & Ec & Hm). eexists. split; [by apply Hup |].
      destruct (Hf c ch) as (_ & _ & _ & -> & _). case_decide as Hin; [| done].
      destruct (HS c Hin) as (_ & ch' & Ec' & _ & Hn). congruence.
    + destruct (Hb c Hc) as (ch & Ec & Hm). eexists. split; [by apply Hup |].
      destruct (Hf c ch) as (_ & _ & _ & _ & ->). case_decide as Hin; [| done].
      destruct (HR c Hin) as (ch' & Ec' & _ & Hn). congruence.
  - intros c ch' q E Hm. destruct (Hdn c ch' E) as (ch & Ec & ->). split; [done |].
    destruct (Hf c ch) as (_ & _ & _ & Hs & _). rewrite Hs in Hm. case_decide as Hin.
    + injection Hm as <-. exists pr, al. split; [split; [done | eauto] | done].
    + by apply (i_sendalt _ _ I c ch q Ec Hm).
  - intros c ch' q E Hm. destruct (Hdn c ch' E) as (ch & Ec & ->). split; [done |].
    destruct (Hf c ch) as (_ & _ & _ & _ & Hs). rewrite Hs in Hm. case_decide as Hin.
    + injection Hm as <-. exists pr, al. split; [split; [done | eauto] | done].
    + by apply (i_recvalt _ _ I c ch q Ec Hm).
  - intros c ch' E. destruct (Hdn c ch' E) as (ch & Ec & ->). destruct (Hf c ch) as (Hs & Hr & Hq & Hsa & Hra).
    intros Hm. unfold can_recv, can_send in *. rewrite Hs, Hsa, Hq in Hm. rewrite Hr, Hra.
    destruct (decide (c ∈ R)) as [HinR | HnR].
    + exfalso. destruct (HR c HinR) as (ch2 & Ec2 & Hcr & _). simplify_eq. unfold can_recv in Hcr.
      rewrite decide_False in Hm; [congruence |]. intros HinS. by destruct (HS c HinS).
    + destruct (decide (c ∈ S)) as [HinS | HnS].
      * destruct (HS c HinS) as (_ & ch2 & Ec2 & Hcs & _). simplify_eq. exact Hcs.
      * exact (i_meet _ _ I c ch Ec Hm).
  - intros b al' Ha. apply (wf_alt_weaken v); [| done | by apply (i_refs _ _ I b)].
    intros c [ch E]. rewrite (Hup c ch E). eauto.
Qed.

End Inv.
