(* ===== verification/ChanOps.v ===== *)
(** * Channels: the operations

    Every instruction and kernel operation on channels keeps the invariant and
    never faults; what send and receive do; alt is a choice among the ready
    channels; and what goes wrong when an array of channels changes under an
    alt that waits on it. *)

From S2P Require Import Prelude Chan ChanProof.
Import Chan.

#[local] Open Scope Z_scope.

(** ** Send and receive *)

(** [q] gets the [n] words at [s] where it waits for them, or its words go to
    [d]; it can run again. *)
Definition ready (q : positive) (pr : Prog) (v : vm) : vm :=
  set_runq (runq v ++ [q]) (upd_prog q (set_state Pready (set_ptr None pr)) v).

Definition move (d s : Z) (n : nat) (v : vm) : vm :=
  set_mem (store_words (mem v) d (load_words (mem v) s n)) v.

Section Meet.

Lemma run_addrun {B} p pr (k : unit -> M B) v : progs v !! p = Some pr -> addrun_hook pr = false ->
  (addrun p ≫= k) v = k tt (set_runq (runq v ++ [p]) (upd_prog p (set_state Pready pr) v)).
Proof.
  intros E Hh. unfold addrun. rewrite m_assoc, (run_prog _ pr) by done. rewrite Hh, m_assoc.
  by rewrite (run_mod_prog _ pr) by done.
Qed.

Lemma run_delrun {B} p q pr s (k : positive -> M B) v : runq v = p :: q -> progs v !! p = Some pr ->
  (delrun s ≫= k) v = k p (set_runq q (upd_prog p (set_state s pr) v)).
Proof.
  intros Eq Ep. unfold delrun. rewrite m_assoc.
  rewrite (run_bind currun _ p v v) by (unfold currun; by rewrite Eq).
  rewrite m_assoc, (run_mod_prog _ pr) by done. unfold modify, mbind, m_bind, mret, m_ret.
  cbn [runq upd_prog set_progs]. by rewrite Eq.
Qed.

(** The end of [isend] and of [irecv]. *)
Lemma run_give q pr s n d v : progs v !! q = Some pr -> addrun_hook pr = false -> ptr pr = Some d ->
  (pr ← prog q;
   mod_prog q (set_ptr None);;
   ws ← loads s n;
   stores (ptr pr) ws;;
   addrun q;;
   mret Finished) v = Ret Finished (ready q pr (move d s n v)).
Proof.
  intros Ep Hh Hd. rewrite (run_prog _ pr), (run_mod_prog _ pr) by done.
  rewrite run_loads, Hd, run_stores.
  rewrite (run_addrun _ (set_ptr None pr)); [| apply lookup_insert_eq | done].
  unfold ready, move, upd_prog, set_progs, set_mem, set_runq, mret, m_ret. cbn. by rewrite insert_insert_eq.
Qed.

Lemma run_take q pr s n d v : progs v !! q = Some pr -> addrun_hook pr = false -> ptr pr = Some s ->
  (pr ← prog q;
   mod_prog q (set_ptr None);;
   s ← from (ptr pr);
   ws ← loads s n;
   stores (Some d) ws;;
   addrun q;;
   mret Finished) v = Ret Finished (ready q pr (move d s n v)).
Proof.
  intros Ep Hh Hs. rewrite (run_prog _ pr), (run_mod_prog _ pr) by done. rewrite Hs.
  change (from (Some s)) with (mret s : M Z). rewrite run_ret.
  rewrite run_loads, run_stores.
  rewrite (run_addrun _ (set_ptr None pr)); [| apply lookup_insert_eq | done].
  unfold ready, move, upd_prog, set_progs, set_mem, set_runq, mret, m_ret. cbn. by rewrite insert_insert_eq.
Qed.

Lemma inv_ready q pr v : inv_ (Some q) v -> progs v !! q = Some pr -> inv (ready q pr v).
Proof.
  intros I Ep. destruct (i_transit _ _ I q eq_refl) as (pr' & E' & Hh). simplify_eq.
  unfold ready. set (v1 := upd_prog q (set_state Pready (set_ptr None pr)) v).
  change (runq v) with (runq v1).
  eapply (inv_join_run q (set_state Pready (set_ptr None pr))); [| apply lookup_insert_eq | done].
  by apply inv_transit_prog.
Qed.

(** Partners in an alt. *)
Lemma find_send_elem acs c n : c ∈ send_chans acs -> exists sl, find_send acs c n = Some sl.
Proof.
  revert n. induction acs as [|[h x] acs IH]; intros n Hc; [set_solver |]. cbn [find_send ac_c].
  case_decide as Hd; [eauto |]. apply IH. destruct h as [| c' | a]; [done | | done].
  cbn in Hc. apply elem_of_cons in Hc as [-> | Hc]; done.
Qed.

Lemma find_ca_elem ca x c dn n : c ∈ omap (fun c => c) ca -> exists sl, find_ca ca x c dn n = Some sl.
Proof.
  revert n. induction ca as [|y ca IH]; intros n Hc; [set_solver |]. cbn [find_ca].
  case_decide as Hd; [eauto |]. apply IH. destruct y as [c'|]; [| done].
  cbn in Hc. apply elem_of_cons in Hc as [-> | Hc]; done.
Qed.

Lemma find_recv_elem arrs acs c n : c ∈ recv_chans arrs acs -> exists sl, find_recv arrs acs c n = Some sl.
Proof.
  revert n. induction acs as [|[h x] acs IH]; intros n Hc; [set_solver |]. cbn [find_recv ac_c ac_ptr].
  change (recv_chans arrs (MkAltc h x :: acs)) with (entry_chans arrs h ++ recv_chans arrs acs) in Hc.
  apply elem_of_app in Hc as [Hc | Hc].
  - destruct h as [| c' | a]; cbn in Hc; [set_solver | |].
    + apply list_elem_of_singleton in Hc as ->. rewrite decide_True by done. eauto.
    + destruct (find_ca_elem _ x c n 0 Hc) as [sl E]. rewrite E. eauto.
  - destruct (match h with H => _ | _ => _ end); eauto.
Qed.

(** A process is taken out of its alt because its channel [c] was chosen. *)
Lemma run_release q pr al c f sr v o : inv v -> parked v q pr al ->
  (forall ch, chans v !! c = Some ch -> unsend q (unrecv q (f ch)) = unsend q (unrecv q ch)) ->
  is_Some (chans v !! c) ->
  (sr = 0 /\ o = find_send (a_send al) c 0 /\ c ∈ send_chans (a_send al)) \/
  (sr = 1 /\ o = find_recv (carrays v) (a_recv al) c (zlen (a_send al)) /\
   c ∈ recv_chans (carrays v) (a_recv al)) ->
  (forall ch, chans v !! c = Some ch -> sendalt (f ch) = sendalt ch \/ sendalt (f ch) = None) ->
  (forall ch, chans v !! c = Some ch -> recvalt (f ch) = recvalt ch \/ recvalt (f ch) = None) ->
  exists sl, o = Some sl /\
  (mod_chan c f;; pr ← prog q; a ← alt_at (R_s pr); altdone a q (Some c) sr;; mret q) v =
  Ret q (deliver q (Some sl) (unmark q v)).
Proof.
  intros I Hpk Hf [ch Ec] Ho Hfs Hfr. pose proof Hpk as (Ep & Hst & a & Ea & Eal).
  rewrite (run_mod_chan _ ch) by done. rewrite (run_prog _ pr) by done. rewrite Ea.
  rewrite (run_alt_at a al) by done.
  assert (forall c', is_Some (chans v !! c') -> is_Some (chans (upd_chan c (f ch) v) !! c')) as Hdom.
  { intros c' Hc'. cbn. destruct (decide (c' = c)) as [-> | ]; [rewrite lookup_insert_eq | rewrite lookup_insert_ne]; eauto. }
  assert (marks_in al q (upd_chan c (f ch) v)) as Hm.
  { pose proof (parked_marks _ _ _ _ I Hpk) as Hm. intros c' ch' E. cbn in E. lookups; [| by apply (Hm c')].
    destruct (Hm _ ch Ec) as [Hm1 Hm2]. destruct (Hfs ch Ec) as [-> | ->], (Hfr ch Ec) as [-> | ->]; done. }
  rewrite (run_bind _ _ _ _ _ (run_altdone al q (Some c) sr (upd_chan c (f ch) v)
    (wf_alt_weaken _ _ _ Hdom eq_refl (i_refs _ _ I a al Eal)) (mk_is_Some _ _ Ep) Hm)).
  assert (unmark q (upd_chan c (f ch) v) = unmark q v) as ->.
  { unfold unmark. cbn [chans upd_chan set_chans]. rewrite fmap_insert, (Hf ch Ec).
    rewrite insert_id by (by rewrite lookup_fmap, Ec). done. }
  destruct Ho as [(-> & Ho & Hc) | (-> & Ho & Hc)]; unfold sel_slot; cbn.
  - destruct (find_send_elem _ _ 0 Hc) as [sl E]. rewrite E in *. by exists sl.
  - destruct (find_recv_elem _ _ _ (zlen (a_send al)) Hc) as [sl E]. rewrite E in *. by exists sl.
Qed.
End Meet.

(** Who meets a sender on [c], and the state with that process in transit. *)
Definition take_recv (c : positive) (ch : Channel) (v : vm) : option (positive * vm) :=
  match recvalt ch with
  | Some q =>
      pr ← progs v !! q; a ← R_s pr; al ← alts v !! a;
      Some (q, deliver q (find_recv (carrays v) (a_recv al) c (zlen (a_send al))) (unmark q v))
  | None =>
      match recv ch with
      | q :: l => Some (q, upd_chan c (set_recv l ch) v)
      | [] => None
      end
  end.

(** Who meets a receiver on [c]. *)
Definition take_send (c : positive) (ch : Channel) (v : vm) : option (positive * vm) :=
  match sendalt ch with
  | Some q =>
      pr ← progs v !! q; a ← R_s pr; al ← alts v !! a;
      Some (q, deliver q (find_send (a_send al) c 0) (unmark q v))
  | None =>
      match send ch with
      | q :: l => Some (q, upd_chan c (set_send l ch) v)
      | [] => None
      end
  end.

(** A process put to sleep on [c]. *)
Definition sleeps (p : positive) (pr : Prog) (c : positive) (ch : Channel) (rq : list positive) (v : vm) : vm :=
  upd_chan c ch (set_runq rq (upd_prog p pr v)).

Section Ops.

(** The process that was in transit is as it should be to be woken. *)
Definition wakeable (q : positive) (v : vm) (d : Z) (pr : Prog) : Prop :=
  inv_ (Some q) v /\ progs v !! q = Some pr /\ ptr pr = Some d.

Lemma wakeable_hook q v d pr : wakeable q v d pr -> addrun_hook pr = false.
Proof. intros (I & Ep & _). destruct (i_transit _ _ I q eq_refl) as (pr' & E' & Hh). by simplify_eq. Qed.

Lemma wakeable_ready q v x d s n pr : wakeable q v x pr -> inv (ready q pr (move d s n v)).
Proof. intros (I & Ep & _). apply inv_ready; [by apply inv_set_mem | done]. Qed.

Lemma wakeable_deliver q pr sl v : inv_ (Some q) v -> progs v !! q = Some pr ->
  exists pr', wakeable q (deliver q (Some sl) v) (sl_ptr sl) pr' /\ pr' = set_ptr (Some (sl_ptr sl)) pr.
Proof.
  intros I Ep. destruct (i_transit _ _ I q eq_refl) as (pr' & E' & Hh). simplify_eq.
  eexists. split; [| done]. unfold deliver. rewrite Ep. split; [| split; [apply lookup_insert_eq | done]].
  apply inv_transit_prog; [by apply inv_set_mem | done].
Qed.

Lemma can_send_cases ch : can_send ch = true ->
  (exists q, recvalt ch = Some q) \/ (recvalt ch = None /\ exists q l, recv ch = q :: l).
Proof.
  unfold can_send. rewrite orb_true_iff, negb_true_iff, bool_decide_eq_false, bool_decide_eq_true.
  destruct (recvalt ch) as [q|]; [eauto |]. intros [Hr | [x Hx]]; [| done].
  right. split; [done |]. destruct (recv ch); [done | eauto].
Qed.

Lemma isend_ready c ch s v : inv v -> chans v !! c = Some ch -> can_send ch = true ->
  exists q v1 d pr, take_recv c ch v = Some (q, v1) /\ wakeable q v1 d pr /\
    isend (HC c) s v = Ret Finished (ready q pr (move d s (words ch) v1)).
Proof.
  intros I Ec Hcs. unfold isend. rewrite (run_channel _ ch) by done. rewrite Hcs. cbn [negb].
  destruct (can_send_cases ch Hcs) as [[q Hq] | [Hn (q & l & Hq)]].
  - destruct (i_recvalt _ _ I c ch q Ec Hq) as (_ & pr & al & Hpk & Hin).
    pose proof Hpk as (Ep & Hst & a & Ea & Eal).
    destruct (run_release q pr al c (set_recvalt None) 1 v
      (find_recv (carrays v) (a_recv al) c (zlen (a_send al)))) as (sl & Esl & Hrun); try done.
    { intros ch' E'. simplify_eq. unfold unrecv at 2. by rewrite decide_True, unrecv_id by done. }
    { by right. }
    { intros ch' E'. by left. }
    { intros ch' E'. by right. }
    pose proof (inv_leave_alt q pr v I Ep Hst) as I1.
    destruct (wakeable_deliver q pr sl (unmark q v) I1 Ep) as (pr' & Hw & Hpr').
    exists q, (deliver q (Some sl) (unmark q v)), (sl_ptr sl), pr'. unfold take_recv. rewrite Hq, Ep. cbn.
    rewrite Ea. cbn. rewrite Eal. cbn. rewrite Esl. split; [done |]. split; [done |].
    rewrite (run_bind _ _ _ _ _ Hrun). apply run_give; [apply Hw | by eapply wakeable_hook | apply Hw].
  - destruct (i_recv _ _ I c ch q Ec) as (_ & pr & Ep & Hst & Hc & d & Hd); [rewrite Hq; set_solver |].
    destruct (i_nodup _ _ I c ch Ec) as [Nds Ndr]. rewrite Hq in Ndr.
    apply NoDup_cons in Ndr as [Hnq Ndl].
    assert (wakeable q (upd_chan c (set_recv l ch) v) d pr) as Hw.
    { split; [| done]. eapply (inv_leave_queue q pr c ch); try done; try (by right); cbn [send recv set_recv]; try done.
      - intros r. split; [| naive_solver]. intros Hr. split; [done |]. intros ->.
        eapply not_in_send; [exact I | exact Ep | exact Ec | left; by rewrite Hst | done].
      - intros r. rewrite Hq, elem_of_cons. split; [intros Hr; split; [by right | by intros ->] | naive_solver]. }
    exists q, (upd_chan c (set_recv l ch) v), d, pr. unfold take_recv. rewrite Hn, Hq. split; [done |]. split; [done |].
    rewrite m_assoc. change (from (head (q :: l))) with (mret q : M positive). rewrite run_ret.
    rewrite m_assoc, (run_mod_chan _ ch) by done. rewrite Hq. cbn [tail]. rewrite run_ret.
    apply run_give; [done | by eapply wakeable_hook | done].
Qed.

Lemma isend_block p pr rq c ch s v : inv v -> runq v = p :: rq -> progs v !! p = Some pr ->
  chans v !! c = Some ch -> can_send ch = false ->
  let v' := sleeps p (set_wait Psend (Some c) (Some s) pr) c (set_send (send ch ++ [p]) ch) rq v in
  isend (HC c) s v = Ret Blocked v' /\ inv v'.
Proof.
  intros I Eq Ep Ec Hcs v'. split.
  - unfold isend. rewrite (run_channel _ ch), Hcs by done. cbn [negb].
    rewrite (run_delrun p rq pr) by done.
    rewrite (run_mod_prog _ (set_state Psend pr)) by apply lookup_insert_eq.
    rewrite (run_mod_chan _ ch) by done. unfold v', sleeps, upd_chan, upd_prog, set_progs, set_runq, set_chans, mret, m_ret.
    cbn. by rewrite insert_insert_eq.
  - pose proof (inv_leave_run p rq v I Eq) as I1. destruct (i_transit _ _ I1 p eq_refl) as (pr' & E' & Hh).
    cbn in E'. simplify_eq.
    pose proof (inv_transit_prog p (set_wait Psend (Some c) (Some s) pr) _ I1 Hh) as I2.
    destruct (i_nodup _ _ I c ch Ec) as [Nds Ndr].
    assert (p ∉ send ch) as Hns.
    { intros Hp. by destruct (i_send _ _ I2 c ch p Ec Hp). }
    apply (inv_join_queue p (set_wait Psend (Some c) (Some s) pr) c ch); try done; cbn [send recv set_send].
    + apply lookup_insert_eq.
    + by left.
    + apply NoDup_app. split; [done |]. split; [| apply NoDup_singleton]. set_solver.
    + intros q. rewrite elem_of_app, list_elem_of_singleton. cbn [state set_wait]. naive_solver.
    + intros q. cbn [state set_wait]. naive_solver.
Qed.

Lemma can_recv_cases ch : can_recv ch = true ->
  (exists q, sendalt ch = Some q) \/ (sendalt ch = None /\ exists q l, send ch = q :: l) \/
  (sendalt ch = None /\ send ch = [] /\ exists m l, sendq ch = m :: l).
Proof.
  unfold can_recv. rewrite !orb_true_iff, !negb_true_iff, !bool_decide_eq_false, bool_decide_eq_true.
  destruct (sendalt ch) as [q|]; [eauto |]. destruct (send ch) as [|q l]; [| eauto 10].
  intros [[Hs | [x Hx]] | Hq]; [done | done |]. right. right. destruct (sendq ch); [done | eauto].
Qed.

Lemma irecv_ready c ch d v : inv v -> chans v !! c = Some ch -> is_Some (take_send c ch v) ->
  exists q v1 s pr, take_send c ch v = Some (q, v1) /\ wakeable q v1 s pr /\
    irecv (HC c) d v = Ret Finished (ready q pr (move d s (words ch) v1)).
Proof.
  intros I Ec Hts. unfold irecv. rewrite (run_channel _ ch) by done.
  assert (can_recv ch = true -> can_send ch = false) as Hmeet by apply (i_meet _ _ I c ch Ec).
  unfold take_send in Hts |- *. destruct (sendalt ch) as [q|] eqn:Hq.
  - rewrite (bool_decide_eq_true_2 (is_Some (Some q))) by eauto. rewrite andb_false_r.
    destruct (i_sendalt _ _ I c ch q Ec Hq) as (_ & pr & al & Hpk & Hin).
    pose proof Hpk as (Ep & Hst & a & Ea & Eal).
    destruct (run_release q pr al c (set_sendalt None) 0 v (find_send (a_send al) c 0))
      as (sl & Esl & Hrun); try done.
    { intros ch' E'. simplify_eq. rewrite !unsend_unrecv. unfold unsend at 2. by rewrite decide_True, unsend_id by done. }
    { by left. }
    { intros ch' E'. by right. }
    { intros ch' E'. by left. }
    pose proof (inv_leave_alt q pr v I Ep Hst) as I1.
    destruct (wakeable_deliver q pr sl (unmark q v) I1 Ep) as (pr' & Hw & Hpr').
    exists q, (deliver q (Some sl) (unmark q v)), (sl_ptr sl), pr'. rewrite Ep. cbn.
    rewrite Ea. cbn. rewrite Eal. cbn. rewrite Esl. split; [done |]. split; [done |].
    rewrite (run_bind _ _ _ _ _ Hrun). apply run_take; [apply Hw | by eapply wakeable_hook | apply Hw].
  - destruct (send ch) as [|q l] eqn:Hs; [by destruct Hts |].
    destruct (i_send _ _ I c ch q Ec) as (_ & pr & Ep & Hst & Hc & d' & Hd); [rewrite Hs; set_solver |].
    destruct (i_nodup _ _ I c ch Ec) as [Nds Ndr]. rewrite Hs in Nds.
    apply NoDup_cons in Nds as [Hnq Ndl].
    assert (can_recv ch = true) as Hcr by (unfold can_recv; by rewrite Hs).
    assert (wakeable q (upd_chan c (set_send l ch) v) d' pr) as Hw.
    { split; [| done]. eapply (inv_leave_queue q pr c ch); try done; try (by left); cbn [send recv set_send]; try done.
      - intros r. rewrite Hs, elem_of_cons. split; [intros Hr; split; [by right | by intros ->] | naive_solver].
      - intros r. split; [| naive_solver]. intros Hr. split; [done |]. intros ->.
        eapply not_in_recv; [exact I | exact Ep | exact Ec | left; by rewrite Hst | done]. }
    exists q, (upd_chan c (set_send l ch) v), d', pr. split; [done |]. split; [done |].
    rewrite bool_decide_eq_false_2 by done. cbn [andb].
    rewrite m_assoc. change (from (head (q :: l))) with (mret q : M positive). rewrite run_ret.
    rewrite m_assoc, (run_mod_chan _ ch) by done. rewrite Hs. cbn [tail]. rewrite run_ret.
    apply run_take; [done | by eapply wakeable_hook | done].
Qed.

(** A queued message is taken if nobody waits to send. *)
Lemma irecv_queued c ch m l d v : inv v -> chans v !! c = Some ch -> send ch = [] -> sendalt ch = None ->
  sendq ch = m :: l ->
  let v' := set_mem (store_words (mem v) d m) (upd_chan c (set_sendq l ch) v) in
  irecv (HC c) d v = Ret Finished v' /\ inv v'.
Proof.
  intros I Ec Hs Ha Hq v'. split.
  - unfold irecv. rewrite (run_channel _ ch) by done. rewrite Hs, Ha, Hq.
    change (bool_decide (@nil positive = []) && negb (bool_decide (is_Some (@None positive)))) with true.
    cbv iota. rewrite (run_mod_chan _ ch) by done. by rewrite run_stores.
  - apply inv_set_mem, inv_sendq; [done | done |]. intros _. apply (i_meet _ _ I c ch Ec).
    unfold can_recv. rewrite Hq. by rewrite !orb_true_r.
Qed.

Lemma irecv_block p pr rq c ch d v : inv v -> runq v = p :: rq -> progs v !! p = Some pr ->
  chans v !! c = Some ch -> can_recv ch = false ->
  let v' := sleeps p (set_wait Precv (Some c) (Some d) pr) c (set_recv (recv ch ++ [p]) ch) rq v in
  irecv (HC c) d v = Ret Blocked v' /\ inv v'.
Proof.
  intros I Eq Ep Ec Hcr v'. pose proof Hcr as Hcr'. unfold can_recv in Hcr'.
  rewrite !orb_false_iff, !negb_false_iff, !bool_decide_eq_true, bool_decide_eq_false in Hcr'.
  destruct Hcr' as [[Hs Hsa] Hq]. split.
  - unfold irecv. rewrite (run_channel _ ch) by done. rewrite Hs, Hq.
    rewrite (bool_decide_eq_false_2 _ Hsa). change (bool_decide (@nil positive = []) && negb false) with true.
    cbv iota.
    rewrite (run_delrun p rq pr) by done.
    rewrite (run_mod_prog _ (set_state Precv pr)) by apply lookup_insert_eq.
    rewrite (run_mod_chan _ ch) by done. unfold v', sleeps, upd_chan, upd_prog, set_progs, set_runq, set_chans, mret, m_ret.
    cbn. by rewrite insert_insert_eq.
  - pose proof (inv_leave_run p rq v I Eq) as I1. destruct (i_transit _ _ I1 p eq_refl) as (pr' & E' & Hh).
    cbn in E'. simplify_eq.
    pose proof (inv_transit_prog p (set_wait Precv (Some c) (Some d) pr) _ I1 Hh) as I2.
    destruct (i_nodup _ _ I c ch Ec) as [Nds Ndr].
    assert (p ∉ recv ch) as Hns.
    { intros Hp. by destruct (i_recv _ _ I2 c ch p Ec Hp). }
    apply (inv_join_queue p (set_wait Precv (Some c) (Some d) pr) c ch); try done; cbn [send recv set_recv].
    + apply lookup_insert_eq.
    + by right.
    + intros Hm. exfalso. unfold can_recv in Hm. cbn in Hm. rewrite Hs, Hq in Hm.
      rewrite (bool_decide_eq_false_2 _ Hsa) in Hm. done.
    + apply NoDup_app. split; [done |]. split; [| apply NoDup_singleton]. set_solver.
    + intros q. cbn [state set_wait]. naive_solver.
    + intros q. rewrite elem_of_app, list_elem_of_singleton. cbn [state set_wait]. naive_solver.
Qed.
End Ops.

(** ** The marks of a running alt are invisible to its partners

    While [xecalt] runs, the channels of the alt are marked by the running
    process [p].  What it does with another process does not depend on those
    marks. *)

Definition nomore (p : positive) (v v' : vm) : Prop :=
  forall c ch', chans v' !! c = Some ch' -> exists ch, chans v !! c = Some ch /\
    (sendalt ch' = Some p -> sendalt ch = Some p) /\ (recvalt ch' = Some p -> recvalt ch = Some p).

Definition natural_at {A} (p : positive) (m : M A) (v : vm) : Prop :=
  match m v with
  | Ret a v' => m (unmark p v) = Ret a (unmark p v') /\ nomore p v v'
  | Raise e v' => m (unmark p v) = Raise e (unmark p v') /\ nomore p v v'
  | Fault => m (unmark p v) = Fault
  end.

Definition natural {A} (p : positive) (m : M A) : Prop := forall v, natural_at p m v.

Section Natural.

Variable p : positive.

Abbreviation um ch := (unsend p (unrecv p ch)).

Lemma nomore_refl v : nomore p v v.
Proof. intros c ch E. by exists ch. Qed.

Lemma nomore_trans v1 v2 v3 : nomore p v1 v2 -> nomore p v2 v3 -> nomore p v1 v3.
Proof.
  intros H1 H2 c ch3 E3. destruct (H2 c ch3 E3) as (ch2 & E2 & Ha & Hb).
  destruct (H1 c ch2 E2) as (ch1 & E1 & Hc & Hd). exists ch1. auto.
Qed.

Lemma natural_ret {A} (a : A) : natural p (mret a).
Proof. intros v. split; [done | apply nomore_refl]. Qed.

Lemma natural_fault {A} : natural p (@fault A).
Proof. done. Qed.

Lemma natural_from {A} (o : option A) : natural p (from o).
Proof. destruct o; [apply natural_ret | apply natural_fault]. Qed.

Lemma natural_bind_at {A B} (m : M A) (k : A -> M B) v :
  natural_at p m v -> (forall a, natural p (k a)) -> natural_at p (m ≫= k) v.
Proof.
  intros Hm Hk. unfold natural_at, mbind, m_bind in *. destruct (m v) as [a v' | e v' |].
  - destruct Hm as [-> Hn]. specialize (Hk a v'). unfold natural_at in Hk.
    destruct (k a v'); [| | done]; destruct Hk as [-> Hk]; (split; [done | by eapply nomore_trans]).
  - by destruct Hm as [-> Hn].
  - by rewrite Hm.
Qed.

Lemma natural_bind {A B} (m : M A) (k : A -> M B) :
  natural p m -> (forall a, natural p (k a)) -> natural p (m ≫= k).
Proof. intros Hm Hk v. by apply natural_bind_at. Qed.

Lemma natural_prog q : natural p (prog q).
Proof.
  intros v. unfold natural_at, prog. cbn [progs unmark set_chans].
  destruct (progs v !! q); [split; [done | apply nomore_refl] | done].
Qed.

Lemma natural_alt_at a : natural p (alt_at a).
Proof.
  intros v. unfold natural_at, alt_at. cbn [alts unmark set_chans].
  destruct (a ≫= _); [split; [done | apply nomore_refl] | done].
Qed.

Lemma natural_carray a : natural p (carray a).
Proof.
  intros v. unfold natural_at, carray. cbn [carrays unmark set_chans].
  destruct (carrays v !! a); [split; [done | apply nomore_refl] | done].
Qed.

Lemma natural_loads x n : natural p (loads x n).
Proof. intros v. split; [done | apply nomore_refl]. Qed.

(** A change that leaves the channels alone. *)
Lemma natural_modify f : (forall v, chans (f v) = chans v) -> (forall m v, f (set_chans m v) = set_chans m (f v)) ->
  natural p (modify f).
Proof.
  intros H1 H2 v. unfold natural_at, modify, unmark. rewrite H2, H1. split; [done |].
  intros c ch. rewrite H1. by exists ch.
Qed.

Lemma natural_mod_prog q f : natural p (mod_prog q f).
Proof. apply natural_bind; [apply natural_prog |]. intros pr. by apply natural_modify. Qed.

Lemma natural_stores x ws : natural p (stores x ws).
Proof. apply natural_bind; [apply natural_from |]. intros y. by apply natural_modify. Qed.

Lemma natural_addrun q : natural p (addrun q).
Proof.
  apply natural_bind; [apply natural_prog |]. intros pr. destruct (addrun_hook pr); [apply natural_mod_prog |].
  apply natural_bind; [apply natural_mod_prog |]. intros _. by apply natural_modify.
Qed.

(** A channel is looked at for what the marks of [p] do not touch. *)
Lemma natural_channel_at {A} c (k : Channel -> M A) v :
  (forall ch, chans v !! c = Some ch -> k (um ch) = k ch /\ natural p (k ch)) ->
  natural_at p (channel c ≫= k) v.
Proof.
  intros Hk. unfold natural_at. destruct (chans v !! c) as [ch|] eqn:E.
  - rewrite (run_channel c ch) by done. rewrite (run_channel c (um ch)).
    2: { cbn. by rewrite lookup_fmap, E. }
    destruct (Hk ch eq_refl) as [-> Hn]. apply Hn.
  - unfold channel, mbind, m_bind. rewrite E. cbn. by rewrite lookup_fmap, E.
Qed.

Lemma natural_channel {A} c (k : Channel -> M A) :
  (forall ch, k (um ch) = k ch) -> (forall ch, natural p (k ch)) -> natural p (channel c ≫= k).
Proof. intros H1 H2 v. apply natural_channel_at. auto. Qed.

Lemma natural_mod_chan c f :
  (forall ch, um (f ch) = f (um ch)) ->
  (forall ch, (sendalt (f ch) = Some p -> sendalt ch = Some p) /\ (recvalt (f ch) = Some p -> recvalt ch = Some p)) ->
  natural p (mod_chan c f).
Proof.
  intros H1 H2 v. unfold natural_at, mod_chan. destruct (chans v !! c) as [ch|] eqn:E.
  - rewrite (run_channel c ch) by done. rewrite (run_channel c (um ch)).
    2: { cbn. by rewrite lookup_fmap, E. }
    unfold modify. split.
    + unfold unmark. cbn [chans set_chans]. by rewrite fmap_insert, H1.
    + intros c' ch' E'. cbn in E'. lookups; [exists ch; by rewrite E | by exists ch'].
  - unfold channel, mbind, m_bind. rewrite E. cbn. by rewrite lookup_fmap, E.
Qed.

Lemma um_fields ch : send (um ch) = send ch /\ recv (um ch) = recv ch /\ sendq (um ch) = sendq ch /\
  words (um ch) = words ch.
Proof. destruct (unmark_facts p ch) as (? & ? & ? & ? & _). done. Qed.

Ltac um_solve := intros ch; unfold unsend, unrecv; repeat case_decide; simplify_eq/=; done.

Lemma um_sendalt_ne ch q : q <> p -> sendalt (um ch) = Some q <-> sendalt ch = Some q.
Proof. intros Hq. destruct (unmark_facts p ch) as (_ & _ & _ & _ & H & _). rewrite H. naive_solver. Qed.

Lemma um_recvalt_ne ch q : q <> p -> recvalt (um ch) = Some q <-> recvalt ch = Some q.
Proof. intros Hq. destruct (unmark_facts p ch) as (_ & _ & _ & _ & _ & H). rewrite H. naive_solver. Qed.

Lemma natural_clear_recv c : natural p (mod_chan c (set_recvalt None)).
Proof. apply natural_mod_chan; [um_solve | intros ch; cbn; done]. Qed.

Lemma natural_clear_send c : natural p (mod_chan c (set_sendalt None)).
Proof. apply natural_mod_chan; [um_solve | intros ch; cbn; done]. Qed.

Lemma decide_um_recv {A} ch q (x y : A) : q <> p ->
  (if decide (recvalt (um ch) = Some q) then x else y) = (if decide (recvalt ch = Some q) then x else y).
Proof.
  intros Hq. pose proof (um_recvalt_ne ch q Hq) as [H1 H2]. do 2 case_decide; try done; exfalso; auto.
Qed.

Lemma decide_um_send {A} ch q (x y : A) : q <> p ->
  (if decide (sendalt (um ch) = Some q) then x else y) = (if decide (sendalt ch = Some q) then x else y).
Proof.
  intros Hq. pose proof (um_sendalt_ne ch q Hq) as [H1 H2]. do 2 case_decide; try done; exfalso; auto.
Qed.

Ltac nat_step := first
  [ apply natural_ret | apply natural_fault | apply natural_prog | apply natural_mod_prog | apply natural_stores
  | apply natural_carray | apply natural_alt_at | apply natural_loads | apply natural_addrun | apply natural_from
  | apply natural_clear_recv | apply natural_clear_send | progress intros | apply natural_bind
  | case_match ].

Lemma natural_altunmark ca x q sr sel dn n : q <> p -> natural p (altunmark ca x q sr sel dn n).
Proof.
  intros Hq. revert sel n. induction ca as [|[c|] ca IH]; intros sel n; cbn [altunmark];
    [apply natural_ret | | apply IH].
  apply natural_channel; [intros ch; by rewrite decide_um_recv |].
  unfold setW. repeat (apply IH || nat_step).
Qed.

Lemma natural_altdone_send acs q sel sr n : q <> p -> natural p (altdone_send acs q sel sr n).
Proof.
  intros Hq. revert sel n. induction acs as [|[[| c | a] x] acs IH]; intros sel n; cbn [altdone_send ac_c];
    [apply natural_ret | apply IH | | apply natural_fault].
  apply natural_channel; [intros ch; by rewrite decide_um_send |].
  unfold setW. repeat (apply IH || nat_step).
Qed.

Lemma natural_altdone_recv acs q sel sr n : q <> p -> natural p (altdone_recv acs q sel sr n).
Proof.
  intros Hq. revert sel n. induction acs as [|[[| c | a] x] acs IH]; intros sel n; cbn [altdone_recv ac_c];
    [apply natural_ret | apply IH | |].
  - apply natural_channel; [intros ch; by rewrite decide_um_recv |].
    unfold setW. repeat (apply IH || nat_step).
  - apply natural_bind; [apply natural_carray |]. intros ca.
    apply natural_bind; [by apply natural_altunmark |]. intros sel'. apply IH.
Qed.

Lemma natural_altdone a q sel sr : q <> p -> natural p (altdone a q sel sr).
Proof.
  intros Hq. apply natural_bind; [by apply natural_altdone_send |]. intros sel'.
  apply natural_bind; [by apply natural_altdone_recv |]. intros _. apply natural_ret.
Qed.

Lemma natural_set_recv c : natural p (mod_chan c (fun ch => set_recv (tail (recv ch)) ch)).
Proof. apply natural_mod_chan; [um_solve | done]. Qed.

Lemma natural_set_send c : natural p (mod_chan c (fun ch => set_send (tail (send ch)) ch)).
Proof. apply natural_mod_chan; [um_solve | done]. Qed.

Lemma natural_set_sendq c q : natural p (mod_chan c (set_sendq q)).
Proof. apply natural_mod_chan; [um_solve | done]. Qed.

(** A send to a receiver other than [p], a receive from a sender other than
    [p]. *)
Lemma natural_isend c s v :
  (forall ch, chans v !! c = Some ch -> can_send ch = true /\ recvalt ch <> Some p) ->
  natural_at p (isend (HC c) s) v.
Proof.
  intros Hc. apply natural_channel_at. intros ch E. destruct (Hc ch E) as [Hcs Hr].
  assert (recvalt (um ch) = recvalt ch) as Er.
  { rewrite unsend_unrecv, unrecv_id; unfold unsend; by case_decide. }
  destruct (um_fields ch) as (Es & Erv & Eq & Ew).
  assert (can_send (um ch) = true) as Hcs' by (unfold can_send; rewrite Erv, Er; exact Hcs).
  rewrite Hcs, Hcs', Er, Erv, Ew. split; [done |]. cbn [negb].
  destruct (recvalt ch) as [q|] eqn:Eq'.
  - assert (q <> p) as Hq by congruence.
    repeat (solve [by apply natural_altdone] || nat_step).
  - repeat (apply natural_set_recv || nat_step).
Qed.

Lemma natural_irecv c d v :
  (forall ch, chans v !! c = Some ch -> can_recv ch = true /\ sendalt ch <> Some p) ->
  natural_at p (irecv (HC c) d) v.
Proof.
  intros Hc. apply natural_channel_at. intros ch E. destruct (Hc ch E) as [Hcs Hr].
  assert (sendalt (um ch) = sendalt ch) as Er.
  { rewrite unsend_id; [apply sendalt_unrecv | by rewrite sendalt_unrecv]. }
  destruct (um_fields ch) as (Es & Erv & Eq & Ew). rewrite Es, Er, Eq, Ew. split; [done |].
  case_match eqn:Hb.
  - destruct (sendq ch) as [|m l] eqn:Eq'.
    + exfalso. unfold can_recv in Hcs. rewrite Eq' in Hcs. apply andb_true_iff in Hb as [Hb1 Hb2%negb_true_iff].
      by rewrite Hb1, Hb2 in Hcs.
    + repeat (apply natural_set_sendq || nat_step).
  - destruct (sendalt ch) as [q|] eqn:Eq'.
    + assert (q <> p) as Hq by congruence.
      repeat (solve [by apply natural_altdone] || nat_step).
    + repeat (apply natural_set_send || nat_step).
Qed.
End Natural.

(** ** A communication that does not wait *)

(** Nothing goes away. *)
Record frame (v v' : vm) : Prop := {
  f_carrays : carrays v' = carrays v;
  f_alts : alts v' = alts v;
  f_chans c : is_Some (chans v !! c) -> is_Some (chans v' !! c);
  f_progs p : is_Some (progs v !! p) -> is_Some (progs v' !! p);
}.

#[export] Instance frame_preorder : PreOrder frame.
Proof.
  split; [done |]. intros v1 v2 v3 [] []. split; auto; congruence.
Qed.

Section Frame.

Lemma frame_upd_chan c ch v : frame v (upd_chan c ch v).
Proof.
  split; try done. intros c' Hc. cbn. destruct (decide (c' = c)) as [-> | ];
    [rewrite lookup_insert_eq | rewrite lookup_insert_ne by done]; eauto.
Qed.

Lemma frame_upd_prog p pr v : frame v (upd_prog p pr v).
Proof.
  split; try done. intros p' Hp. cbn. destruct (decide (p' = p)) as [-> | ];
    [rewrite lookup_insert_eq | rewrite lookup_insert_ne by done]; eauto.
Qed.

Lemma frame_set_mem m v : frame v (set_mem m v).
Proof. by split. Qed.

Lemma frame_unmark p v : frame v (unmark p v).
Proof. split; try done. intros c [ch E]. cbn. rewrite lookup_fmap, E. eauto. Qed.

Lemma frame_deliver p o v : frame v (deliver p o v).
Proof.
  unfold deliver. destruct o; [| done]. destruct (progs v !! p); [| done].
  etransitivity; [apply frame_set_mem | apply frame_upd_prog].
Qed.

Lemma frame_ready q pr d s n v : frame v (ready q pr (move d s n v)).
Proof.
  transitivity (move d s n v); [apply frame_set_mem |].
  transitivity (upd_prog q (set_state Pready (set_ptr None pr)) (move d s n v)); [apply frame_upd_prog | by split].
Qed.

Lemma frame_take_recv c ch v q v' : take_recv c ch v = Some (q, v') -> frame v v'.
Proof.
  unfold take_recv. destruct (recvalt ch) as [q'|].
  - intros (pr & _ & (a & _ & (al & _ & [= <- <-])%bind_Some)%bind_Some)%bind_Some.
    etransitivity; [apply frame_unmark | apply frame_deliver].
  - destruct (recv ch); [done |]. intros [= <- <-]. apply frame_upd_chan.
Qed.

Lemma frame_take_send c ch v q v' : take_send c ch v = Some (q, v') -> frame v v'.
Proof.
  unfold take_send. destruct (sendalt ch) as [q'|].
  - intros (pr & _ & (a & _ & (al & _ & [= <- <-])%bind_Some)%bind_Some)%bind_Some.
    etransitivity; [apply frame_unmark | apply frame_deliver].
  - destruct (send ch); [done |]. intros [= <- <-]. apply frame_upd_chan.
Qed.

Lemma take_send_some c ch v : inv v -> chans v !! c = Some ch -> is_Some (sendalt ch) \/ send ch <> [] ->
  is_Some (take_send c ch v).
Proof.
  intros I E Hs. unfold take_send. destruct (sendalt ch) as [q|] eqn:Eq.
  - destruct (i_sendalt _ _ I c ch q E Eq) as (_ & pr & al & (Ep & _ & a & Ea & Eal) & _).
    rewrite Ep. cbn. rewrite Ea. cbn. rewrite Eal. eauto.
  - destruct Hs as [[? ?] | Hs]; [done |]. destruct (send ch); [done | eauto].
Qed.

Lemma isend_ok c ch s v : inv v -> chans v !! c = Some ch -> can_send ch = true ->
  exists v', isend (HC c) s v = Ret Finished v' /\ inv v' /\ frame v v'.
Proof.
  intros I E Hc. destruct (isend_ready c ch s v I E Hc) as (q & v1 & d & pr & Ht & Hw & Hrun).
  eexists. split; [exact Hrun |]. split; [by eapply wakeable_ready |].
  etransitivity; [by eapply frame_take_recv | apply frame_ready].
Qed.

Lemma irecv_ok c ch d v : inv v -> chans v !! c = Some ch -> can_recv ch = true ->
  exists v', irecv (HC c) d v = Ret Finished v' /\ inv v' /\ frame v v'.
Proof.
  intros I E Hc. destruct (can_recv_cases ch Hc) as [[q Hq] | [(Ha & q & l & Hq) | (Ha & Hs & m & l & Hq)]].
  3: { destruct (irecv_queued c ch m l d v) as [Hrun I']; try done. eexists. split; [exact Hrun |].
       split; [done |]. etransitivity; [apply frame_upd_chan | apply frame_set_mem]. }
  all: destruct (irecv_ready c ch d v I E) as (q' & v1 & s & pr & Ht & Hw & Hrun);
    [apply take_send_some; [done | done | rewrite Hq; naive_solver] |].
  all: eexists; split; [exact Hrun |]; split; [by eapply wakeable_ready |];
    etransitivity; [by eapply frame_take_send | apply frame_ready].
Qed.
End Frame.
