(* ===== verification/ChanAlt.v ===== *)
(** * Alt is a choice among the ready channels

    [xecalt] marks the channels of the alt, counts the ready ones, picks one
    and communicates, then takes the marks off.  The reference is the list of
    the ready guards in the state it starts from. *)

From S2P Require Import Prelude Chan ChanProof ChanOps.
Import Chan.

#[local] Open Scope Z_scope.

(** ** The reference *)

Definition chan_is (v : vm) (f : Channel -> bool) (c : positive) : bool :=
  match chans v !! c with Some ch => f ch | None => false end.

(** A ready channel of an alt: the index of its entry, the channel, where the
    data are or go and, in an array, the index of the channel. *)
Inductive guard :=
  | GSend (n : Z) (c : positive) (x : Z)
  | GRecv (n : Z) (c : positive) (x : Z) (ix : option Z).

Fixpoint guards_send (v : vm) (acs : list Altc) (n : Z) : list guard :=
  match acs with
  | [] => []
  | ac :: acs =>
      match ac_c ac with
      | HC c => if chan_is v can_send c then [GSend n c (ac_ptr ac)] else []
      | _ => []
      end ++ guards_send v acs (n + 1)
  end.

Fixpoint guards_ca (v : vm) (ca : list (option positive)) (x n an : Z) : list guard :=
  match ca with
  | [] => []
  | Some c :: ca =>
      (if chan_is v can_recv c then [GRecv n c x (Some an)] else []) ++ guards_ca v ca x n (an + 1)
  | None :: ca => guards_ca v ca x n (an + 1)
  end.

Fixpoint guards_recv (v : vm) (acs : list Altc) (n : Z) : list guard :=
  match acs with
  | [] => []
  | ac :: acs =>
      match ac_c ac with
      | H => []
      | HC c => if chan_is v can_recv c then [GRecv n c (ac_ptr ac) None] else []
      | HA a => guards_ca v (default [] (carrays v !! a)) (ac_ptr ac) n 0
      end ++ guards_recv v acs (n + 1)
  end.

Definition guards (v : vm) (al : Alt) : list guard :=
  guards_send v (a_send al) 0 ++ guards_recv v (a_recv al) (zlen (a_send al)).

(** The communication itself: the index goes to [d], in an array the channel's
    index goes in front of the data. *)
Definition perform (d : Z) (g : guard) : M outcome :=
  match g with
  | GSend n c x => setW d n;; isend (HC c) x
  | GRecv n c x None => setW d n;; irecv (HC c) x
  | GRecv n c x (Some an) => setW d n;; setW x an;; irecv (HC c) (x + 1)
  end.

(** An alt is in order: no nil channels, no channel twice, and none that
    another alt waits on the same way. *)
Definition unrecvd (v : vm) (c : positive) : Prop :=
  forall ch, chans v !! c = Some ch -> recvalt ch = None.
Definition unsent (v : vm) (c : positive) : Prop :=
  forall ch, chans v !! c = Some ch -> sendalt ch = None.

Definition okr (v : vm) (R cs : list positive) : Prop :=
  NoDup cs /\ forall c, c ∈ cs -> (c ∉ R) /\ unrecvd v c.
Definition oks (v : vm) (S R cs : list positive) : Prop :=
  NoDup cs /\ forall c, c ∈ cs -> (c ∉ S) /\ (c ∉ R) /\ unsent v c.
Definition nonnil (acs : list Altc) : Prop := Forall (fun ac => ac_c ac <> H) acs.

Definition alt_ok (v : vm) (al : Alt) : Prop :=
  let S := send_chans (a_send al) in let R := recv_chans (carrays v) (a_recv al) in
  nonnil (a_send al) /\ nonnil (a_recv al) /\ okr v [] R /\ oks v [] R S.

#[export] Instance unrecvd_dec v c : Decision (unrecvd v c).
Proof.
  unfold unrecvd. destruct (chans v !! c) as [ch|] eqn:E; [| left; congruence].
  destruct (decide (recvalt ch = None)) as [Hr | Hr]; [left; congruence | right; auto].
Defined.

#[export] Instance unsent_dec v c : Decision (unsent v c).
Proof.
  unfold unsent. destruct (chans v !! c) as [ch|] eqn:E; [| left; congruence].
  destruct (decide (sendalt ch = None)) as [Hr | Hr]; [left; congruence | right; auto].
Defined.

#[export] Instance all_in_dec (P : positive -> Prop) `{forall c, Decision (P c)} (cs : list positive) :
  Decision (forall c, c ∈ cs -> P c).
Proof. destruct (decide (Forall P cs)) as [Hf | Hf]; [left | right]; by rewrite <- Forall_forall. Defined.

#[export] Instance alt_ok_dec v al : Decision (alt_ok v al).
Proof. unfold alt_ok, okr, oks, nonnil. apply _. Defined.

(** ** Pass one *)

Definition nomarks (p : positive) (v : vm) : Prop :=
  forall c ch, chans v !! c = Some ch -> sendalt ch <> Some p /\ recvalt ch <> Some p.

Section Ready.

Variable p : positive.
Variable v : vm.
Hypothesis Hno : nomarks p v.

Abbreviation mk S R := (mark p S R v).

Definition cnt (f : Channel -> bool) (cs : list positive) : Z :=
  foldr (fun c n => b2z (chan_is v f c) + n) 0 cs.

Lemma cnt_cons f c cs : cnt f (c :: cs) = b2z (chan_is v f c) + cnt f cs.
Proof. done. Qed.

Lemma chan_is_at f c ch : chans v !! c = Some ch -> chan_is v f c = f ch.
Proof. intros E. unfold chan_is. by rewrite E. Qed.

Lemma cnt_app f cs1 cs2 : cnt f (cs1 ++ cs2) = cnt f cs1 + cnt f cs2.
Proof. induction cs1; simpl; lia. Qed.

Lemma mark_ext S R S' R' : (forall c, c ∈ S <-> c ∈ S') -> (forall c, c ∈ R <-> c ∈ R') -> mk S R = mk S' R'.
Proof.
  intros HS HR. unfold mark. f_equal. apply map_eq. intros c. rewrite !map_lookup_imap.
  destruct (chans v !! c); [| done]. cbn. f_equal. unfold mark_ch.
  destruct (decide (c ∈ S)), (decide (c ∈ S')), (decide (c ∈ R)), (decide (c ∈ R')); naive_solver.
Qed.

Lemma mark_nil : mk [] [] = v.
Proof.
  unfold mark. rewrite (map_eq (map_imap _ _) (chans v)); [apply set_chans_same |].
  intros c. rewrite map_lookup_imap. by destruct (chans v !! c).
Qed.

Lemma mark_recv_step S R c ch : chans v !! c = Some ch ->
  upd_chan c (set_recvalt (Some p) (mark_ch p S R c ch)) (mk S R) = mk S (c :: R).
Proof.
  intros E. unfold upd_chan, mark. cbn [chans set_chans]. rewrite set_chans_twice. f_equal. apply map_eq.
  intros c'. destruct (decide (c' = c)) as [-> | Hne].
  - rewrite lookup_insert_eq, map_lookup_imap, E. cbn. f_equal. unfold mark_ch.
    repeat case_decide; try done; set_solver.
  - rewrite lookup_insert_ne, !map_lookup_imap by done. destruct (chans v !! c'); [| done]. cbn. f_equal.
    unfold mark_ch. repeat case_decide; try done; set_solver.
Qed.

Lemma mark_send_step S R c ch : chans v !! c = Some ch ->
  upd_chan c (set_sendalt (Some p) (mark_ch p S R c ch)) (mk S R) = mk (c :: S) R.
Proof.
  intros E. unfold upd_chan, mark. cbn [chans set_chans]. rewrite set_chans_twice. f_equal. apply map_eq.
  intros c'. destruct (decide (c' = c)) as [-> | Hne].
  - rewrite lookup_insert_eq, map_lookup_imap, E. cbn. f_equal. unfold mark_ch.
    repeat case_decide; try done; set_solver.
  - rewrite lookup_insert_ne, !map_lookup_imap by done. destruct (chans v !! c'); [| done]. cbn. f_equal.
    unfold mark_ch. repeat case_decide; try done; set_solver.
Qed.

Lemma mark_lookup S R c ch : chans v !! c = Some ch -> chans (mk S R) !! c = Some (mark_ch p S R c ch).
Proof. intros E. by rewrite lookup_mark, E. Qed.

Lemma mark_can_recv S R c ch : c ∉ S -> can_recv (mark_ch p S R c ch) = can_recv ch.
Proof. intros Hc. unfold mark_ch. rewrite (decide_False (P := c ∈ S)) by done. by case_decide. Qed.

Lemma mark_can_send S R c ch : c ∉ R -> can_send (mark_ch p S R c ch) = can_send ch.
Proof. intros Hc. unfold mark_ch. rewrite (decide_False (P := c ∈ R)) by done. by case_decide. Qed.

Lemma mark_recvalt S R c ch :
  recvalt (mark_ch p S R c ch) = if decide (c ∈ R) then Some p else recvalt ch.
Proof. unfold mark_ch. by repeat case_decide. Qed.

Lemma mark_sendalt S R c ch :
  sendalt (mark_ch p S R c ch) = if decide (c ∈ S) then Some p else sendalt ch.
Proof. unfold mark_ch. by repeat case_decide. Qed.

(** Marks are put on channels without one. *)
Definition free (S R : list positive) : Prop :=
  (forall c, c ∈ S -> unsent v c) /\ (forall c, c ∈ R -> unrecvd v c).

Lemma unmark_mark S R : free S R -> unmark p (mk S R) = v.
Proof.
  intros [HS HR]. unfold unmark. rewrite (map_eq (_ <$> _) (chans v)); [exact (set_chans_same v) |].
  intros c. rewrite lookup_fmap, lookup_mark. destruct (chans v !! c) as [ch|] eqn:E; [| done]. cbn. f_equal.
  destruct (Hno c ch E) as [H1 H2].
  assert (c ∈ S -> sendalt ch = None) as H3 by (intros Hc; by apply (HS c)).
  assert (c ∈ R -> recvalt ch = None) as H4 by (intros Hc; by apply (HR c)).
  destruct ch. cbn in H1, H2, H3, H4.
  unfold mark_ch, unsend, unrecv.
  repeat (case_decide; simplify_eq/=); try done; rewrite ?H3, ?H4 by done; done.
Qed.

Lemma okr_app R cs1 cs2 : okr v R (cs1 ++ cs2) <-> okr v R cs1 /\ okr v (cs1 ++ R) cs2.
Proof.
  unfold okr. rewrite NoDup_app. setoid_rewrite elem_of_app. naive_solver.
Qed.

Lemma oks_cons S R c cs : oks v S R (c :: cs) <->
  ((c ∉ S) /\ (c ∉ R) /\ unsent v c) /\ oks v (c :: S) R cs.
Proof.
  unfold oks. rewrite NoDup_cons. setoid_rewrite elem_of_cons. naive_solver.
Qed.

Lemma okr_cons R c cs : okr v R (c :: cs) <-> ((c ∉ R) /\ unrecvd v c) /\ okr v (c :: R) cs.
Proof.
  unfold okr. rewrite NoDup_cons. setoid_rewrite elem_of_cons. naive_solver.
Qed.

Definition exists_chan (c : option positive) : Prop :=
  match c with Some c => is_Some (chans v !! c) | None => True end.

Lemma recvalt_free R c ch : chans v !! c = Some ch ->
  bool_decide (is_Some (recvalt (mark_ch p [] R c ch))) = false <-> (c ∉ R) /\ unrecvd v c.
Proof.
  intros E. rewrite bool_decide_eq_false, mark_recvalt. unfold unrecvd. case_decide as Hd.
  - split; [intros Hn; exfalso; apply Hn; eauto | naive_solver].
  - rewrite <- eq_None_not_Some. split; [intros Hn; split; [done |]; intros; congruence | naive_solver].
Qed.

(** Either everything is in order and marked, or something is not. *)
Lemma altmark_spec ca R n : Forall exists_chan ca ->
  let cs := omap (fun c => c) ca in
  (okr v R cs /\ altmark ca p n (mk [] R) = Ret (Some (n + cnt can_recv cs)) (mk [] (cs ++ R))) \/
  (~ okr v R cs /\ exists R', (forall c, c ∈ R' -> c ∈ cs ++ R) /\
     (free [] R -> free [] R') /\ altmark ca p n (mk [] R) = Ret None (mk [] R')).
Proof.
  intros Hca. revert R n. induction Hca as [|[c|] ca Hc _ IH]; intros R n cs.
  - left. split; [split; [constructor | set_solver] |]. subst cs. cbn. by rewrite Z.add_0_r.
  - destruct Hc as [ch E]. subst cs. cbn [omap list_omap altmark].
    rewrite (run_channel _ _ _ _ (mark_lookup [] R c ch E)). rewrite mark_can_recv by set_solver. cbv zeta.
    destruct (bool_decide _) eqn:Eb.
    + right. split.
      * rewrite okr_cons, <- (recvalt_free R c ch E), Eb. by intros [? _].
      * exists R. split; [| done]. intros c' Hc'. apply elem_of_app. by right.
    + rewrite (run_mod_chan _ _ _ _ _ (mark_lookup [] R c ch E)), mark_recv_step by done.
      apply (recvalt_free R c ch E) in Eb.
      destruct (IH (c :: R) (n + b2z (can_recv ch))) as [[Hok Hrun] | (Hok & R' & HR' & Hfr & Hrun)].
      * left. split; [by apply okr_cons |]. rewrite Hrun. f_equal.
        -- f_equal. rewrite cnt_cons, (chan_is_at _ c ch) by done. lia.
        -- apply mark_ext; [done |]. intros c'. rewrite !elem_of_app, !elem_of_cons. tauto.
      * right. split; [rewrite okr_cons; tauto |]. exists R'. split; [| split; [| done]].
        2: { intros [HS HR]. apply Hfr. split; [done |]. intros c' [-> | Hc']%elem_of_cons; [apply Eb | auto]. }
        intros c' Hc'. apply HR' in Hc'. rewrite elem_of_app, elem_of_cons in Hc'.
        rewrite elem_of_app, elem_of_cons. tauto.
  - apply IH.
Qed.

Lemma carrays_mk S R : carrays (mk S R) = carrays v.
Proof. done. Qed.

(** What a loop of [altrdy] leaves: if everything is [ok] the marks [S1] and
    [R1], [e] and [n], and otherwise an error and some of the marks. *)
Definition rdy (m : M (option exn * Z)) (S R S1 R1 : list positive) (ok : Prop) (e : option exn) (n : Z) : Prop :=
  exists e' n' S' R', m (mk S R) = Ret (e', n') (mk S' R') /\ free S' R' /\
    S' ⊆ S1 /\ R' ⊆ R1 /\
    ((ok /\ e' = e /\ n' = n /\ S1 ⊆ S' /\ R1 ⊆ R') \/ (~ ok /\ e' <> None)).

#[local] Instance rdy_proper m S R S1 R1 : Proper (iff ==> eq ==> eq ==> iff) (rdy m S R S1 R1).
Proof. intros ok ok' Hok e ? <- n ? <-. unfold rdy. by setoid_rewrite Hok. Qed.

(** One round of the loop, in order or not. *)
Lemma rdy_step m m' S R S' R' S1 R1 S2 R2 ok1 ok e e1 n n1 : m (mk S R) = m' (mk S' R') ->
  rdy m' S' R' S2 R2 ok1 e1 n1 -> S2 ⊆ S1 -> R2 ⊆ R1 ->
  (e1 = e /\ n1 = n /\ S1 ⊆ S2 /\ R1 ⊆ R2 /\ (ok <-> ok1)) \/ (e1 <> None /\ ~ ok) ->
  rdy m S R S1 R1 ok e n.
Proof.
  intros Hm (e' & n' & S3 & R3 & Hrun & Hfr & HS & HR & Hok) HS2 HR2 Hc.
  exists e', n', S3, R3. rewrite Hm. split; [done |]. split; [done |].
  split; [set_solver |]. split; [set_solver |].
  destruct Hc as [(-> & -> & HS1 & HR1 & Hiff) | [He Hno']].
  - destruct Hok as [(Hok & -> & -> & H1 & H2) | [Hok He]]; [left | right; tauto].
    split; [tauto |]. repeat split; try done; set_solver.
  - right. split; [done |]. destruct Hok as [(_ & -> & _) | [_ He']]; done.
Qed.

Lemma free_recv S R c ch : free S R -> chans v !! c = Some ch ->
  bool_decide (is_Some (recvalt (mark_ch p S R c ch))) = false -> free S (c :: R).
Proof.
  intros [HS HR] E Hb. split; [done |]. intros c' [-> | Hc]%elem_of_cons; [| auto].
  intros ch' E'. simplify_eq. rewrite bool_decide_eq_false, mark_recvalt in Hb.
  rewrite eq_None_not_Some. intros Hx. apply Hb. case_decide; eauto.
Qed.

Lemma altrdy_recv_spec acs R e n : wf_recv v acs -> free [] R ->
  let cs := recv_chans (carrays v) acs in
  rdy (altrdy_recv acs p e n) [] R [] (cs ++ R) (nonnil acs /\ okr v R cs) e (n + cnt can_recv cs).
Proof.
  intros Hw. revert R e n. induction Hw as [|[h x] acs Hc Hw IH]; intros R e n Hfr cs.
  { exists e, n, [], R. split; [done |]. split; [done |]. split; [done |]. split; [done |]. left.
    split; [split; [constructor | split; [constructor | set_solver]] |]. cbn. repeat split; [lia | done..]. }
  cbn [ac_c] in Hc.
  subst cs. change (recv_chans (carrays v) (MkAltc h x :: acs)) with
    (entry_chans (carrays v) h ++ recv_chans (carrays v) acs).
  set (cs := recv_chans (carrays v) acs) in *. unfold nonnil. rewrite Forall_cons. fold (nonnil acs). cbn [ac_c].
  destruct h as [| c | a]; cbn [altrdy_recv ac_c].
  - eapply rdy_step; [reflexivity | by apply IH | set_solver | set_solver |]. right.
    split; [done | by intros [[Hh _] _]].
  - destruct Hc as [ch E]. cbn [entry_chans app]. rewrite okr_cons.
    destruct (bool_decide (is_Some (recvalt (mark_ch p [] R c ch)))) eqn:Eb.
    + eapply rdy_step; [| by apply (IH R (Some exBusy) (n + b2z (can_recv ch))) | set_solver | set_solver |].
      * rewrite (run_channel _ _ _ _ (mark_lookup [] R c ch E)), Eb, mark_can_recv by set_solver. done.
      * right. rewrite <- (recvalt_free R c ch E), Eb. split; [done | by intros (_ & Hf & _)].
    + eapply rdy_step; [| by apply (IH (c :: R) e (n + b2z (can_recv ch))), (free_recv _ _ _ ch) | set_solver | set_solver |].
      * rewrite (run_channel _ _ _ _ (mark_lookup [] R c ch E)), Eb, mark_can_recv by set_solver. cbv zeta.
        by rewrite (run_mod_chan _ _ _ _ _ (mark_lookup [] R c ch E)), mark_recv_step by done.
      * left. apply (recvalt_free R c ch E) in Eb. rewrite cnt_cons, (chan_is_at _ c ch) by done.
        split; [done |]. split; [lia |]. split; [set_solver |]. split; [set_solver |].
        split; [tauto |]. intros [? ?]. split; [split; [done | tauto] | tauto].
  - destruct Hc as (ca & E & Hca). cbn [entry_chans]. rewrite E. change (default [] (Some ca)) with ca.
    rewrite okr_app, cnt_app. set (cs0 := omap (fun c => c) ca) in *.
    assert (forall k : list (option positive) -> M (option exn * Z), (carray a ≫= k) (mk [] R) = k ca (mk [] R)) as Hk.
    { intros k. by apply run_carray. }
    destruct (altmark_spec ca R 0 Hca) as [[Hok Hrun] | (Hok & R' & HR' & Hfr' & Hrun)]; fold cs0 in Hok, Hrun.
    + eapply rdy_step; [| apply (IH (cs0 ++ R) e (n + cnt can_recv cs0)) | set_solver | set_solver |].
      * rewrite Hk, (run_bind _ _ _ _ _ Hrun). by rewrite Z.add_0_l.
      * destruct Hfr as [H1 H2]. split; [done |]. intros c [Hc | Hc]%elem_of_app; [by apply Hok | auto].
      * left. split; [done |]. split; [lia |]. split; [set_solver |]. split; [set_solver |].
        split; [tauto |]. intros [? ?]. split; [split; [done | tauto] | tauto].
    + eapply rdy_step; [| apply (IH R' (Some exBusy) n) | set_solver | |].
      * by rewrite Hk, (run_bind _ _ _ _ _ Hrun).
      * auto.
      * intros c. fold cs0 in HR'. specialize (HR' c). set_solver.
      * right. split; [done | tauto].
Qed.

Lemma altrdy_send_spec acs S R e n : wf_send v acs -> free S R ->
  let cs := send_chans acs in
  rdy (altrdy_send acs p e n) S R (cs ++ S) R (nonnil acs /\ oks v S R cs) e (n + cnt can_send cs).
Proof.
  intros Hw. revert S e n. induction Hw as [|[h x] acs Hc Hw IH]; intros S e n Hfr cs.
  { exists e, n, S, R. split; [done |]. split; [done |]. split; [done |]. split; [done |]. left.
    split; [split; [constructor | split; [constructor | set_solver]] |]. cbn. repeat split; [lia | done..]. }
  cbn [ac_c] in Hc. unfold nonnil. rewrite Forall_cons. fold (nonnil acs). cbn [ac_c].
  destruct h as [| c | a]; cbn [altrdy_send ac_c]; [| | done].
  - eapply rdy_step; [reflexivity | by apply IH | done | done |]. right. split; [done | by intros [[Hh _] _]].
  - destruct Hc as [ch E]. subst cs. change (send_chans (MkAltc (HC c) x :: acs)) with (c :: send_chans acs).
    set (cs := send_chans acs) in *. rewrite oks_cons.
    pose proof (mark_lookup S R c ch E) as Hm. pose proof (mark_recvalt S R c ch) as Hra.
    pose proof (mark_sendalt S R c ch) as Hsa. destruct (decide (c ∈ R)) as [HcR | HcR].
    + eapply rdy_step; [| by apply (IH S (Some exAlt) n) | set_solver | set_solver |].
      * assert (can_send (mark_ch p S R c ch) = true) as Hcs.
        { unfold can_send. rewrite Hra, (bool_decide_eq_true_2 (is_Some _)) by eauto. apply orb_true_r. }
        by rewrite (run_channel _ _ _ _ Hm), Hcs, Hra, bool_decide_eq_true_2.
      * right. split; [done | tauto].
    + assert (bool_decide (recvalt (mark_ch p S R c ch) = Some p) = false) as Hf.
      { rewrite Hra. apply bool_decide_eq_false. by destruct (Hno c ch E). }
      destruct (bool_decide (is_Some (sendalt (mark_ch p S R c ch)))) eqn:Eb.
      * eapply rdy_step; [| by apply (IH S (Some exBusy) (n + b2z (can_send ch))) | set_solver | set_solver |].
        -- rewrite (run_channel _ _ _ _ Hm), Hf, andb_false_r, Eb, mark_can_send by done. done.
        -- right. split; [done |]. intros (_ & (HS & _ & Hu) & _).
           rewrite Hsa, decide_False, (Hu ch E) in Eb by done. done.
      * assert ((c ∉ S) /\ unsent v c) as [HcS Hu].
        { rewrite Hsa in Eb. apply bool_decide_eq_false in Eb. case_decide; [exfalso; eauto |].
          split; [done |]. intros ch' E'. simplify_eq. by apply eq_None_not_Some. }
        eapply rdy_step; [| apply (IH (c :: S) e (n + b2z (can_send ch))) | set_solver | set_solver |].
        -- rewrite (run_channel _ _ _ _ Hm), Hf, andb_false_r, Eb, mark_can_send by done. cbv zeta.
           by rewrite (run_mod_chan _ _ _ _ _ Hm), mark_send_step by done.
        -- destruct Hfr as [H1 H2]. split; [| done]. intros c' [-> | Hc]%elem_of_cons; auto.
        -- left. rewrite cnt_cons, (chan_is_at _ c ch) by done. split; [done |]. split; [lia |].
           split; [set_solver |]. split; [done |]. split; [tauto |]. intros [? ?]. split; [split; [done | tauto] | tauto].
Qed.
End Ready.

(** [altrdy]: the marks are on and the ready channels are counted, or nothing
    has changed. *)
Lemma wf_mark p S R v al : wf_alt v al -> wf_alt (mark p S R v) al.
Proof.
  apply wf_alt_weaken; [| done]. intros c [ch E]. rewrite lookup_mark, E. eauto.
Qed.

Lemma marks_mark p S R v al : nomarks p v -> S ⊆ send_chans (a_send al) ->
  R ⊆ recv_chans (carrays v) (a_recv al) -> marks_in al p (mark p S R v).
Proof.
  intros Hno HS HR c ch' E. rewrite lookup_mark in E. destruct (chans v !! c) as [ch|] eqn:Ec; [| done].
  injection E as <-. destruct (Hno c ch Ec) as [H1 H2]. rewrite mark_recvalt, mark_sendalt.
  split; intros Hx; case_decide; try done; auto.
Qed.

Definition alt_S (al : Alt) := send_chans (a_send al).
Definition alt_R (v : vm) (al : Alt) := recv_chans (carrays v) (a_recv al).

Lemma run_altrdy p v al : nomarks p v -> wf_alt v al -> is_Some (progs v !! p) ->
  (alt_ok v al /\ altrdy al p v =
     Ret (cnt v can_recv (alt_R v al) + cnt v can_send (alt_S al)) (mark p (alt_S al) (alt_R v al) v)) \/
  (~ alt_ok v al /\ exists e, altrdy al p v = Raise e v).
Proof.
  intros Hno [Hws Hwr] Hp. unfold alt_S, alt_R. set (S := send_chans _). set (R := recv_chans _ _).
  assert (free v [] []) as Hf by (split; set_solver).
  destruct (altrdy_recv_spec p v Hno (a_recv al) [] None 0 Hwr Hf)
    as (e1 & n1 & S1 & R1 & Hr1 & Hf1 & HS1 & HR1 & Hok1).
  fold R in HR1, Hok1. rewrite app_nil_r in HR1, Hok1. rewrite mark_nil in Hr1 by done.
  destruct (altrdy_send_spec p v Hno (a_send al) S1 R1 e1 n1 Hws Hf1)
    as (e2 & n2 & S2 & R2 & Hr2 & Hf2 & HS2 & HR2 & Hok2).
  fold S in HS2, Hok2. assert (S1 = []) as -> by (destruct S1; set_solver).
  rewrite app_nil_r in HS2, Hok2.
  unfold altrdy. rewrite (run_bind _ _ _ _ _ Hr1). rewrite (run_bind _ _ _ _ _ Hr2).
  assert (alt_ok v al <-> nonnil (a_recv al) /\ okr v [] R /\ nonnil (a_send al) /\ oks v [] R S) as Hiff
    by (unfold alt_ok; tauto).
  destruct e2 as [e2|].
  - right. split.
    + intros (H1 & H2 & H3 & H4)%Hiff. destruct Hok1 as [(_ & -> & _ & _ & HR1') | [Hn _]]; [| tauto].
      destruct Hok2 as [(_ & ? & _) | [Hn _]]; [done |]. apply Hn. split; [done |].
      destruct H4 as [Nd H4]. split; [done |]. intros c Hc. destruct (H4 c Hc) as (? & ? & ?).
      split; [done |]. split; [set_solver | done].
    + exists e2. rewrite (run_bind _ _ tt _ v); [done |].
      rewrite run_altdone; [| by apply wf_mark | done | by apply marks_mark; [| | etransitivity]].
      cbn. f_equal. by apply unmark_mark.
  - left. destruct Hok2 as [(Hok2 & <- & -> & HS2' & HR2') | [_ ?]]; [| done].
    destruct Hok1 as [(Hok1 & _ & -> & _ & HR1') | [_ ?]]; [| done].
    split.
    + apply Hiff. destruct Hok2 as [? [Nd Ho]]. split; [apply Hok1 |]. split; [apply Hok1 |]. split; [done |].
      split; [done |]. intros c Hc. destruct (Ho c Hc) as (? & ? & ?). split; [done |]. split; [set_solver | done].
    + unfold mret, m_ret. f_equal. apply mark_ext; [set_solver |]. set_solver.
Qed.

(** ** The count is the number of guards *)

Section Count.

Variable v : vm.

Lemma zlen_guards_send acs n : zlen (guards_send v acs n) = cnt v can_send (send_chans acs).
Proof.
  revert n. induction acs as [|[h x] acs IH]; intros n; [done |]. cbn [guards_send ac_c].
  destruct h as [| c | a]; [apply IH | | apply IH]. rewrite length_app, Nat2Z.inj_add, IH.
  change (send_chans (MkAltc (HC c) x :: acs)) with (c :: send_chans acs).
  rewrite cnt_cons. by destruct (chan_is v can_send c).
Qed.

Lemma zlen_guards_ca ca x n an : zlen (guards_ca v ca x n an) = cnt v can_recv (omap (fun c => c) ca).
Proof.
  revert an. induction ca as [|[c|] ca IH]; intros an; [done | | apply IH]. cbn [guards_ca].
  change (omap (fun c => c) (Some c :: ca)) with (c :: omap (fun c => c) ca).
  rewrite length_app, Nat2Z.inj_add, IH, cnt_cons. by destruct (chan_is v can_recv c).
Qed.

Lemma zlen_guards_recv acs n : zlen (guards_recv v acs n) = cnt v can_recv (recv_chans (carrays v) acs).
Proof.
  revert n. induction acs as [|[h x] acs IH]; intros n; [done |]. cbn [guards_recv ac_c].
  change (recv_chans (carrays v) (MkAltc h x :: acs)) with
    (entry_chans (carrays v) h ++ recv_chans (carrays v) acs).
  rewrite length_app, Nat2Z.inj_add, IH, cnt_app. f_equal. destruct h as [| c | a]; [done | | apply zlen_guards_ca].
  cbn [entry_chans]. rewrite cnt_cons. by destruct (chan_is v can_recv c).
Qed.

Lemma zlen_guards al :
  zlen (guards v al) = cnt v can_recv (alt_R v al) + cnt v can_send (alt_S al).
Proof. unfold guards. rewrite length_app, Nat2Z.inj_add, zlen_guards_send, zlen_guards_recv. unfold alt_R, alt_S. lia. Qed.

Lemma cnt_nonneg f cs : 0 <= cnt v f cs.
Proof. induction cs as [|c cs]; [done |]. rewrite cnt_cons. destruct (chan_is v f c); simpl; lia. Qed.

Lemma cnt_zero f cs c : cnt v f cs = 0 -> c ∈ cs -> chan_is v f c = false.
Proof.
  induction cs as [|c' cs IH]; [set_solver |]. rewrite cnt_cons. pose proof (cnt_nonneg f cs).
  intros Hz [-> | Hc]%elem_of_cons; [| apply IH; [| done]]; destruct (chan_is v f c'); simpl in *; done || lia.
Qed.
End Count.

(** ** Pass two *)

Section Comm.

Variables v w : vm.
Hypothesis Ha : carrays w = carrays v.

(** [w] looks like [v] as far as [f] can see the channels. *)
Definition alike (f : Channel -> bool) (cs : list positive) : Prop :=
  forall c, c ∈ cs -> exists ch, chans w !! c = Some ch /\ f ch = chan_is v f c.

(** The guard with index [which], if there is one. *)
Definition chosen (gs : list guard) (which : Z) (rd : Z) : M (outcome + Z) :=
  match gs !! Z.to_nat which with
  | Some g => o ← perform rd g; mret (inl o)
  | None => mret (inr (which - zlen gs))
  end.

Lemma chosen_nil which rd : 0 <= which -> chosen [] which rd w = Ret (inr which) w.
Proof. intros Hw. unfold chosen, mret, m_ret. cbn. f_equal. f_equal. lia. Qed.

Lemma chosen_here g gs rd : chosen (g :: gs) 0 rd w = (o ← perform rd g; mret (inl o)) w.
Proof. done. Qed.

Lemma chosen_skip g gs which rd : 0 < which -> chosen (g :: gs) which rd w = chosen gs (which - 1) rd w.
Proof.
  intros Hw. unfold chosen. replace (Z.to_nat which) with (S (Z.to_nat (which - 1))) by lia. cbn [lookup list_lookup].
  destruct (gs !! _); [done |]. unfold mret, m_ret. f_equal. f_equal. cbn [length]. lia.
Qed.

Lemma chosen_app gs1 gs2 which rd : 0 <= which ->
  chosen (gs1 ++ gs2) which rd w =
  (r ← chosen gs1 which rd; match r with inl o => mret (inl o) | inr which => chosen gs2 which rd end) w.
Proof.
  revert which. induction gs1 as [|g gs1 IH]; intros which Hw.
  - by rewrite (run_bind _ _ _ _ _ (chosen_nil which rd Hw)).
  - destruct (decide (which = 0)) as [-> | Hn].
    + change ((g :: gs1) ++ gs2) with (g :: (gs1 ++ gs2)). unfold mbind, m_bind. rewrite !chosen_here.
      unfold mbind, m_bind. by destruct (perform rd g w).
    + change ((g :: gs1) ++ gs2) with (g :: (gs1 ++ gs2)). rewrite chosen_skip, IH by lia.
      unfold mbind, m_bind. by rewrite chosen_skip by lia.
Qed.

Lemma chosen_nonneg gs which rd w' which' : 0 <= which -> chosen gs which rd w = Ret (inr which') w' ->
  w' = w /\ 0 <= which'.
Proof.
  intros Hw. unfold chosen. destruct (gs !! Z.to_nat which) eqn:E.
  - unfold mbind, m_bind. by destruct (perform rd g w).
  - intros [= <- <-]. apply lookup_ge_None in E. split; [done | lia].
Qed.

Lemma altcomm_send_spec acs rd which n : nonnil acs -> wf_send v acs -> alike can_send (send_chans acs) ->
  0 <= which -> altcomm_send acs rd which n w = chosen (guards_send v acs n) which rd w.
Proof.
  intros Hnn Hwf. revert which n. induction acs as [|[h x] acs IH]; intros which n Hal Hw.
  { by rewrite chosen_nil. }
  apply Forall_cons in Hnn as [Hh Hnn], Hwf as [Hc Hwf]. cbn [ac_c] in *.
  cbn [altcomm_send guards_send ac_c ac_ptr]. destruct h as [| c | a]; [done | | done].
  change (send_chans (MkAltc (HC c) x :: acs)) with (c :: send_chans acs) in Hal.
  destruct (Hal c) as (ch & E & Hcs); [set_solver |].
  assert (alike can_send (send_chans acs)) as Hal' by (intros c' Hc'; apply Hal; set_solver).
  rewrite (run_channel _ _ _ _ E), Hcs. destruct (chan_is v can_send c); [| by apply IH].
  cbn [app]. destruct (Z.eqb_spec which 0) as [-> | Hn].
  - rewrite chosen_here. cbn [perform]. by rewrite m_assoc.
  - rewrite IH by (done || lia). by rewrite chosen_skip by lia.
Qed.

Lemma altcomm_array_spec ca x rd which n an : alike can_recv (omap (fun c => c) ca) ->
  0 <= which -> altcomm_array ca x rd which n an w = chosen (guards_ca v ca x n an) which rd w.
Proof.
  revert which an. induction ca as [|[c|] ca IH]; intros which an Hal Hw; cbn [altcomm_array guards_ca].
  - by rewrite chosen_nil.
  - change (omap (fun c => c) (Some c :: ca)) with (c :: omap (fun c => c) ca) in Hal.
    destruct (Hal c) as (ch & E & Hcs); [set_solver |].
    assert (alike can_recv (omap (fun c => c) ca)) as Hal' by (intros c' Hc'; apply Hal; set_solver).
    rewrite (run_channel _ _ _ _ E), Hcs. destruct (chan_is v can_recv c); [| by apply IH].
    cbn [app]. destruct (Z.eqb_spec which 0) as [-> | Hn].
    + rewrite chosen_here. cbn [perform]. unfold setW. rewrite m_assoc, !run_stores, m_assoc. by rewrite !run_stores.
    + rewrite IH by (done || lia). by rewrite chosen_skip by lia.
  - by apply IH.
Qed.

Lemma altcomm_recv_spec acs rd which n : nonnil acs -> wf_recv v acs ->
  alike can_recv (recv_chans (carrays v) acs) -> 0 <= which ->
  altcomm_recv acs rd which n w = chosen (guards_recv v acs n) which rd w.
Proof.
  intros Hnn Hwf. revert which n. induction acs as [|[h x] acs IH]; intros which n Hal Hw.
  { by rewrite chosen_nil. }
  apply Forall_cons in Hnn as [Hh Hnn], Hwf as [Hc Hwf]. cbn [ac_c] in *.
  change (recv_chans (carrays v) (MkAltc h x :: acs)) with
    (entry_chans (carrays v) h ++ recv_chans (carrays v) acs) in Hal.
  assert (alike can_recv (recv_chans (carrays v) acs)) as Hal' by (intros c' Hc'; apply Hal; set_solver).
  assert (alike can_recv (entry_chans (carrays v) h)) as Hal0 by (intros c' Hc'; apply Hal; set_solver).
  cbn [altcomm_recv guards_recv ac_c ac_ptr]. destruct h as [| c | a]; [done | |].
  - destruct (Hal0 c) as (ch & E & Hcs); [set_solver |].
    rewrite (run_channel _ _ _ _ E), Hcs. destruct (chan_is v can_recv c); [| by apply IH].
    cbn [app]. destruct (Z.eqb_spec which 0) as [-> | Hn].
    + rewrite chosen_here. cbn [perform]. by rewrite m_assoc.
    + rewrite IH by (done || lia). by rewrite chosen_skip by lia.
  - destruct Hc as (ca & E & _). rewrite (run_carray _ ca) by (by rewrite Ha). rewrite E.
    cbn [entry_chans] in Hal0. rewrite E in Hal0. change (default [] (Some ca)) with ca in *.
    rewrite chosen_app by done. unfold mbind, m_bind. rewrite altcomm_array_spec by done.
    destruct (chosen _ which rd w) as [[o | which'] w' | |] eqn:Ech; try done.
    apply chosen_nonneg in Ech as [-> Hw']; [| done]. by apply IH.
Qed.

(** Pass two performs the chosen guard. *)
Lemma run_altcomm al rd which g : nonnil (a_send al) -> nonnil (a_recv al) -> wf_alt v al ->
  alike can_send (alt_S al) -> alike can_recv (alt_R v al) -> 0 <= which ->
  guards v al !! Z.to_nat which = Some g ->
  altcomm al rd which w = (perform rd g;; mret tt) w.
Proof.
  intros Hn1 Hn2 [Hw1 Hw2] Ha1 Ha2 Hw Hg.
  assert ((r ← altcomm_send (a_send al) rd which 0;
           match r with inl o => mret (inl o) | inr which => altcomm_recv (a_recv al) rd which (zlen (a_send al)) end) w =
    chosen (guards v al) which rd w) as Hrun.
  { unfold guards. rewrite chosen_app by done. unfold mbind, m_bind. rewrite altcomm_send_spec by done.
    destruct (chosen _ which rd w) as [[o | which'] w' | |] eqn:Ech; try done.
    apply chosen_nonneg in Ech as [-> Hw']; [| done]. by apply altcomm_recv_spec. }
  unfold chosen in Hrun. rewrite Hg in Hrun. unfold altcomm, mbind, m_bind, mret, m_ret in *.
  destruct (altcomm_send _ rd which 0 w) as [[o | which'] w' | |]; destruct (perform rd g w); simplify_eq/=; try done.
  all: by destruct (altcomm_recv _ rd which' _ w'); simplify_eq.
Qed.
End Comm.

(** ** The guards *)

Section Guards.

Variable v : vm.

Definition ready_guard (al : Alt) (g : guard) : Prop :=
  match g with
  | GSend _ c _ => c ∈ alt_S al /\ chan_is v can_send c = true
  | GRecv _ c _ _ => c ∈ alt_R v al /\ chan_is v can_recv c = true
  end.

Lemma guards_send_elem acs n g : g ∈ guards_send v acs n ->
  exists m c x, g = GSend m c x /\ c ∈ send_chans acs /\ chan_is v can_send c = true.
Proof.
  revert n. induction acs as [|[h x] acs IH]; intros n; [set_solver |]. cbn [guards_send ac_c ac_ptr].
  intros [Hg | Hg]%elem_of_app.
  - destruct h as [| c | a]; [set_solver | | set_solver]. destruct (chan_is v can_send c) eqn:E; [| set_solver].
    apply list_elem_of_singleton in Hg as ->. exists n, c, x. split; [done |]. split; [| done].
    change (send_chans (MkAltc (HC c) x :: acs)) with (c :: send_chans acs). set_solver.
  - destruct (IH _ Hg) as (m & c & y & -> & Hc & Hf). exists m, c, y. split; [done |]. split; [| done].
    unfold send_chans. cbn. destruct h; [done | | done]. apply elem_of_cons. by right.
Qed.

Lemma guards_ca_elem ca x n an g : g ∈ guards_ca v ca x n an ->
  exists m c y ix, g = GRecv m c y ix /\ c ∈ omap (fun c => c) ca /\ chan_is v can_recv c = true.
Proof.
  revert an. induction ca as [|[c|] ca IH]; intros an; [set_solver | | apply IH]. cbn [guards_ca].
  change (omap (fun c => c) (Some c :: ca)) with (c :: omap (fun c => c) ca).
  intros [Hg | Hg]%elem_of_app.
  - destruct (chan_is v can_recv c) eqn:E; [| set_solver]. apply list_elem_of_singleton in Hg as ->.
    exists n, c, x, (Some an). set_solver.
  - destruct (IH _ Hg) as (m & c' & y & ix & -> & Hc & Hf). exists m, c', y, ix. set_solver.
Qed.

Lemma guards_recv_elem acs n g : g ∈ guards_recv v acs n ->
  exists m c x ix, g = GRecv m c x ix /\ c ∈ recv_chans (carrays v) acs /\ chan_is v can_recv c = true.
Proof.
  revert n. induction acs as [|[h x] acs IH]; intros n; [set_solver |]. cbn [guards_recv ac_c ac_ptr].
  change (recv_chans (carrays v) (MkAltc h x :: acs)) with
    (entry_chans (carrays v) h ++ recv_chans (carrays v) acs).
  setoid_rewrite elem_of_app. intros [Hg | Hg].
  - destruct h as [| c | a]; [set_solver | |].
    + destruct (chan_is v can_recv c) eqn:E; [| set_solver]. apply list_elem_of_singleton in Hg as ->.
      exists n, c, x, None. set_solver.
    + destruct (guards_ca_elem _ _ _ _ _ Hg) as (m & c & y & ix & -> & Hc & Hf).
      exists m, c, y, ix. split; [done |]. split; [by left | done].
  - destruct (IH _ Hg) as (m & c & y & ix & -> & Hc & Hf). exists m, c, y, ix.
    split; [done |]. split; [by right | done].
Qed.

Lemma guards_elem al g : g ∈ guards v al -> ready_guard al g.
Proof.
  unfold guards. intros [Hg | Hg]%elem_of_app.
  - by destruct (guards_send_elem _ _ _ Hg) as (m & c & x & -> & ?).
  - by destruct (guards_recv_elem _ _ _ Hg) as (m & c & x & ix & -> & ?).
Qed.

Lemma chan_is_true f c : chan_is v f c = true -> exists ch, chans v !! c = Some ch /\ f ch = true.
Proof. unfold chan_is. destruct (chans v !! c); [eauto | done]. Qed.

(** A ready guard is performed at once. *)
Lemma perform_ok al d g : inv v -> ready_guard al g ->
  exists v', perform d g v = Ret Finished v' /\ inv v' /\ frame v v'.
Proof.
  intros I Hg. destruct g as [n c x | n c x [an|]]; destruct Hg as [_ (ch & E & Hc)%chan_is_true];
    cbn [perform]; unfold setW; rewrite !run_stores.
  - destruct (isend_ok c ch x (set_mem (store_words (mem v) d [n]) v)) as (v' & Hrun & I' & Hf);
      [by apply inv_set_mem | done | done |].
    exists v'. split; [done |]. split; [done |]. etransitivity; [apply frame_set_mem | done].
  - edestruct (irecv_ok c ch (x + 1)) as (v' & Hrun & I' & Hf); [| | done |].
    3: { exists v'. split; [exact Hrun |]. split; [done |]. etransitivity; [| done]. split; done. }
    + by do 2 apply inv_set_mem.
    + done.
  - destruct (irecv_ok c ch x (set_mem (store_words (mem v) d [n]) v)) as (v' & Hrun & I' & Hf);
      [by apply inv_set_mem | done | done |].
    exists v'. split; [done |]. split; [done |]. etransitivity; [apply frame_set_mem | done].
Qed.

(** Performing it takes no notice of the marks of the alt itself. *)
Lemma natural_perform p S R al d g : nomarks p v -> S = alt_S al -> R = alt_R v al -> oks v [] R S ->
  ready_guard al g -> natural_at p (perform d g) (mark p S R v).
Proof.
  intros Hno -> -> [_ Ho] Hg.
  assert (forall m c ch, chans (set_mem m (mark p (alt_S al) (alt_R v al) v)) !! c = Some ch ->
    exists ch0, chans v !! c = Some ch0 /\ ch = mark_ch p (alt_S al) (alt_R v al) c ch0) as Hch.
  { intros m c ch E. cbn in E. rewrite map_lookup_imap in E. destruct (chans v !! c) as [ch0|]; [| done].
    injection E as <-. eauto. }
  assert (forall m c x, c ∈ alt_S al -> chan_is v can_send c = true ->
    natural_at p (isend (HC c) x) (set_mem m (mark p (alt_S al) (alt_R v al) v))) as Hsend.
  { intros m c x Hc (ch0 & E0 & Hcs)%chan_is_true. apply natural_isend.
    intros ch (ch1 & E1 & ->)%Hch. simplify_eq. destruct (Ho c Hc) as (_ & HcR & _).
    rewrite mark_can_send, mark_recvalt, decide_False by done. split; [done | by destruct (Hno c ch0 E0)]. }
  assert (forall m c x, c ∈ alt_R v al -> chan_is v can_recv c = true ->
    natural_at p (irecv (HC c) x) (set_mem m (mark p (alt_S al) (alt_R v al) v))) as Hrecv.
  { intros m c x Hc (ch0 & E0 & Hcs)%chan_is_true. apply natural_irecv.
    intros ch (ch1 & E1 & ->)%Hch. simplify_eq.
    assert (c ∉ alt_S al) as HcS by (intros Hx; by destruct (Ho c Hx) as (_ & ? & _)).
    rewrite mark_can_recv, mark_sendalt, decide_False by done. split; [done | by destruct (Hno c ch0 E0)]. }
  destruct g as [n c x | n c x [an|]]; destruct Hg as [Hc Hr]; cbn [perform]; unfold setW;
    unfold natural_at; rewrite !run_stores.
  - by apply Hsend.
  - by apply Hrecv.
  - by apply Hrecv.
Qed.
End Guards.

(** ** The instructions *)

Lemma next_xrand_nonneg x : 0 <= next_xrand x.
Proof.
  unfold next_xrand. cbv zeta. set (y := i32 (x + x)).
  assert (- 2 ^ 31 <= y < 2 ^ 31) as Hy by (by apply (wraps_range 32)).
  destruct (Z.ltb_spec y 0) as [Hn | Hn]; [| done].
  assert (2 ^ 31 <= u32 y < 2 ^ 32) as Hu.
  { unfold wrapu. rewrite <- (Z.mod_add y 1), Z.mod_small by lia. lia. }
  set (z := Z.lxor (u32 y) 0x88888EEF).
  assert (Z.shiftr z 31 = 0) as Hz.
  { unfold z. rewrite Z.shiftr_lxor, (Z.shiftr_div_pow2 (u32 y)) by done.
    replace (u32 y / 2 ^ 31) with 1; [done |]. apply (Z.div_unique_pos _ _ 1 (u32 y - 2 ^ 31)); lia. }
  assert (0 <= z) by (unfold z; apply Z.lxor_nonneg; lia).
  rewrite Z.shiftr_div_pow2 in Hz by done. apply Z.div_small_iff in Hz; [| done].
  unfold wraps. rewrite Z.mod_small; lia.
Qed.

Lemma running_nomarks p rq v : inv v -> runq v = p :: rq -> nomarks p v.
Proof.
  intros I Eq c ch E. destruct (i_runq _ _ I p) as (_ & pr & Ep & Hst); [rewrite Eq; set_solver |].
  split; [eapply no_sendalt | eapply no_recvalt]; try done; intros H; rewrite H in Hst; by destruct Hst.
Qed.

Lemma alike_mark p v al : wf_alt v al -> oks v [] (alt_R v al) (alt_S al) ->
  alike v (mark p (alt_S al) (alt_R v al) v) can_send (alt_S al) /\
  alike v (mark p (alt_S al) (alt_R v al) v) can_recv (alt_R v al).
Proof.
  intros [Hs Hr] [_ Ho]. split; intros c Hc.
  - assert (exists ch, chans v !! c = Some ch) as [ch E].
    { unfold alt_S, send_chans in Hc. apply list_elem_of_omap in Hc as (ac & Hac & Hx).
      eapply Forall_forall in Hs; [| exact Hac]. destruct (ac_c ac); simplify_eq/=. exact Hs. }
    exists (mark_ch p (alt_S al) (alt_R v al) c ch). rewrite lookup_mark, E. split; [done |].
    destruct (Ho c Hc) as (_ & HcR & _). rewrite mark_can_send by done. by rewrite (chan_is_at v _ c ch).
  - assert (exists ch, chans v !! c = Some ch) as [ch E].
    { unfold alt_R, recv_chans in Hc. apply list_elem_of_In, in_concat in Hc as (cs & Hcs & Hc).
      apply list_elem_of_In in Hc. apply in_map_iff in Hcs as (ac & <- & Hac%list_elem_of_In).
      eapply Forall_forall in Hr; [| exact Hac]. destruct (ac_c ac) as [| c' | a]; cbn in Hc.
      - set_solver.
      - by apply list_elem_of_singleton in Hc as ->.
      - destruct Hr as (ca & Ea & Hca). rewrite Ea in Hc. apply list_elem_of_omap in Hc as (o & Ho' & ->).
        eapply Forall_forall in Hca; [| exact Ho']. exact Hca. }
    exists (mark_ch p (alt_S al) (alt_R v al) c ch). rewrite lookup_mark, E. split; [done |].
    assert (c ∉ alt_S al) as HcS by (intros Hx; by destruct (Ho c Hx) as (_ & ? & _)).
    rewrite mark_can_recv by done. by rewrite (chan_is_at v _ c ch).
Qed.

(** Passes two and three. *)
Lemma run_choice p v al d n : inv v -> nomarks p v -> wf_alt v al -> alt_ok v al -> is_Some (progs v !! p) ->
  0 <= n < zlen (guards v al) ->
  exists g v', guards v al !! Z.to_nat n = Some g /\ perform d g v = Ret Finished v' /\ inv v' /\ frame v v' /\
    (altcomm al d n;; altdone al p None (-1);; mret Finished) (mark p (alt_S al) (alt_R v al) v) =
    Ret Finished v'.
Proof.
  intros I Hno Hwf (Hn1 & Hn2 & Hr & Ho) Hp Hn.
  fold (alt_S al) in Ho. fold (alt_R v al) in Hr, Ho. set (w := mark p _ _ v).
  destruct (lookup_lt_is_Some_2 (guards v al) (Z.to_nat n)) as [g Hg]; [lia |].
  assert (ready_guard v al g) as Hrg by (eapply guards_elem, list_elem_of_lookup_2, Hg).
  destruct (perform_ok v al d g I Hrg) as (v' & Hrun & I' & Hf). exists g, v'.
  split; [done |]. split; [done |]. split; [done |]. split; [done |].
  destruct (alike_mark p v al Hwf Ho) as [Ha1 Ha2].
  pose proof (natural_perform v p _ _ al d g Hno eq_refl eq_refl Ho Hrg) as Hnat. fold w in Hnat.
  assert (unmark p w = v) as Hu.
  { apply unmark_mark; [done |]. split; intros c Hc; [by destruct (proj2 Ho c Hc) as (_ & _ & ?) | by destruct (proj2 Hr c Hc)]. }
  unfold natural_at in Hnat. rewrite Hu, Hrun in Hnat. unfold mbind at 1, m_bind at 1.
  rewrite (run_altcomm v w eq_refl al d n g) by (done || lia). unfold mbind at 1, m_bind at 1.
  destruct (perform d g w) as [o w' | e w' |]; [| by destruct Hnat | done].
  destruct Hnat as [[= <- ->] Hmore]. change ((mret tt : M unit) w') with (Ret tt w'). cbv iota.
  destruct Hf as [Hf1 Hf2 Hf3 Hf4].
  rewrite (run_bind _ _ tt _ (unmark p w')); [done |]. rewrite run_altdone; [done | | |].
  - apply (wf_alt_weaken v); [| exact Hf1 | done]. intros c Hc. apply Hf3 in Hc. cbn in Hc.
    rewrite lookup_fmap in Hc. by apply fmap_is_Some in Hc.
  - by apply Hf4.
  - intros c ch' E. destruct (Hmore c ch' E) as (ch & Ec & H1 & H2).
    assert (carrays w' = carrays w) as -> by exact Hf1.
    destruct (marks_mark p (alt_S al) (alt_R v al) v al Hno ltac:(done) ltac:(done) c ch Ec) as [H3 H4]. auto.
Qed.

(** Pass one and, if nothing is ready, waiting. *)
Lemma guards_same v v' al : chans v' = chans v -> carrays v' = carrays v -> guards v' al = guards v al.
Proof.
  intros Hc Ha. assert (forall f c, chan_is v' f c = chan_is v f c) as Hi by (intros; unfold chan_is; by rewrite Hc).
  unfold guards. f_equal.
  - generalize 0. induction (a_send al) as [|ac acs IH]; intros n; cbn [guards_send]; [done |].
    rewrite IH. destruct (ac_c ac); by rewrite ?Hi.
  - generalize (zlen (a_send al)). induction (a_recv al) as [|ac acs IH]; intros n; cbn [guards_recv]; [done |].
    rewrite IH, Ha. f_equal. destruct (ac_c ac) as [| c | a]; rewrite ?Hi; [done | done |].
    generalize 0. induction (default [] (carrays v !! a)) as [|[c|] ca IHc]; intros an; cbn [guards_ca]; [done | |].
    + by rewrite IHc, Hi.
    + apply IHc.
Qed.

Lemma run_xecalt_error p rq a al d b v : inv v -> runq v = p :: rq -> alts v !! a = Some al ->
  ~ alt_ok v al -> exists e, xecalt b (Some a) d v = Raise e v.
Proof.
  intros I Eq Ea Hno. pose proof (running_nomarks p rq v I Eq) as Hnm.
  destruct (i_runq _ _ I p) as (_ & pr & Ep & _); [rewrite Eq; set_solver |].
  destruct (run_altrdy p v al Hnm (i_refs _ _ I a al Ea) (mk_is_Some _ _ Ep)) as [[? _] | [_ [e Hrun]]]; [done |].
  exists e. unfold xecalt. rewrite (run_bind currun _ p v v) by (unfold currun; by rewrite Eq).
  rewrite (run_alt_at a al) by done. unfold mbind, m_bind. by rewrite Hrun.
Qed.

Section Xecalt.

Variables (p a : positive) (rq : list positive) (pr : Prog) (al : Alt) (d : Z) (v : vm).
Hypothesis I : inv v.
Hypothesis Eq : runq v = p :: rq.
Hypothesis Ep : progs v !! p = Some pr.
Hypothesis Ea : alts v !! a = Some al.
Hypothesis Hok : alt_ok v al.

Let S := alt_S al.
Let R := alt_R v al.

Lemma xecalt_prefix b : xecalt b (Some a) d v =
  (if zlen (guards v al) =? 0 then
     if b then delrun Palt;; mod_prog p (set_regs (Some a) d);; mret Blocked
     else setW d (zlen (a_send al) + zlen (a_recv al));; altdone al p None (-1);; mret Finished
   else
     x ← (fun v => let x := next_xrand (xrand v) in Ret x (set_xrand x v));
     altcomm al d (Z.rem x (zlen (guards v al)));; altdone al p None (-1);; mret Finished) (mark p S R v).
Proof.
  pose proof (running_nomarks p rq v I Eq) as Hnm.
  destruct (run_altrdy p v al Hnm (i_refs _ _ I a al Ea) (mk_is_Some _ _ Ep)) as [[_ Hrun] | [? _]]; [| done].
  unfold xecalt. rewrite (run_bind currun _ p v v) by (unfold currun; by rewrite Eq).
  rewrite (run_alt_at a al) by done. rewrite (run_bind _ _ _ _ _ Hrun), zlen_guards. done.
Qed.

Definition parks : vm := mark p S R (set_runq rq (upd_prog p (set_regs (Some a) d (set_state Palt pr)) v)).

Lemma xecalt_block : guards v al = [] -> xecalt true (Some a) d v = Ret Blocked parks.
Proof.
  intros Hg. rewrite xecalt_prefix, Hg. change (zlen [] =? 0) with true. cbv iota.
  rewrite (run_delrun p rq pr) by done.
  rewrite (run_mod_prog _ (set_state Palt pr)) by apply lookup_insert_eq.
  unfold parks, mark, upd_prog, set_progs, set_runq, set_chans, mret, m_ret. cbn. by rewrite insert_insert_eq.
Qed.

Lemma xecalt_noblock : guards v al = [] ->
  xecalt false (Some a) d v =
  Ret Finished (set_mem (<[d := zlen (a_send al) + zlen (a_recv al)]> (mem v)) v).
Proof.
  intros Hg. rewrite xecalt_prefix, Hg. change (zlen [] =? 0) with true. cbv iota.
  unfold setW. rewrite run_stores. pose proof (running_nomarks p rq v I Eq) as Hnm.
  set (v1 := set_mem (<[d := zlen (a_send al) + zlen (a_recv al)]> (mem v)) v).
  change (set_mem _ (mark p S R v)) with (mark p S R v1).
  destruct Hok as (_ & _ & [_ Hr] & [_ Ho]).
  rewrite (run_bind _ _ tt _ v1); [done |]. rewrite run_altdone; [| | by exists pr |].
  - cbn [sel_slot]. unfold sel_slot. cbn. f_equal. apply (unmark_mark p v1 Hnm).
    split; intros c Hc; [by destruct (Ho c Hc) as (_ & _ & ?) | by destruct (Hr c Hc)].
  - apply wf_mark, (i_refs _ _ I a al Ea).
  - by apply (marks_mark p S R v1 al).
Qed.

Lemma xecalt_choice b : guards v al <> [] ->
  let x := next_xrand (xrand v) in
  exists g v', guards v al !! Z.to_nat (Z.rem x (zlen (guards v al))) = Some g /\
    perform d g (set_xrand x v) = Ret Finished v' /\ inv v' /\ frame v v' /\
    xecalt b (Some a) d v = Ret Finished v'.
Proof.
  intros Hg x. assert (0 < zlen (guards v al)) as Hpos by (destruct (guards v al); simpl; [done | lia]).
  rewrite xecalt_prefix. destruct (Z.eqb_spec (zlen (guards v al)) 0) as [Hz | Hz]; [lia |].
  set (n := Z.rem x (zlen (guards v al))).
  assert (0 <= n < zlen (guards v al)) as Hn by (apply Z.rem_bound_pos; [apply next_xrand_nonneg | done]).
  assert (guards (set_xrand x v) al = guards v al) as Hgs by (by apply guards_same).
  rewrite <- Hgs in Hn. destruct (run_choice p (set_xrand x v) al d n (inv_set_xrand _ _ _ I) (running_nomarks p rq v I Eq)
    (i_refs _ _ I a al Ea) Hok (mk_is_Some _ _ Ep) Hn) as (g & v' & Hgn & Hrun & I' & Hf & Hall).
  rewrite Hgs in Hgn. exists g, v'. split; [exact Hgn |]. split; [done |]. split; [done |].
  split; [etransitivity; [| exact Hf]; by split | exact Hall].
Qed.

Lemma inv_parks : guards v al = [] -> inv parks.
Proof.
  intros Hg. destruct Hok as (Hn1 & Hn2 & [_ Hr] & [_ Ho]).
  assert (cnt v can_recv R = 0 /\ cnt v can_send S = 0) as [Hcr Hcs].
  { pose proof (zlen_guards v al) as Hz. rewrite Hg in Hz. change (zlen []) with 0 in Hz. fold R S in Hz.
    pose proof (cnt_nonneg v can_recv R). pose proof (cnt_nonneg v can_send S). lia. }
  pose proof (inv_leave_run p rq v I Eq) as I1.
  destruct (i_transit _ _ I1 p eq_refl) as (pr' & E' & Hh). cbn in E'. simplify_eq.
  destruct (alike_mark p v al (i_refs _ _ I a al Ea)) as [Ha1 Ha2]; [by destruct Hok as (_ & _ & _ & ?) |].
  assert (forall f c ch, chan_is v f c = false -> chans v !! c = Some ch -> f ch = false) as Hf.
  { intros f c ch Hx E. by rewrite (chan_is_at _ _ _ ch) in Hx. }
  assert (forall c ch', chans (mark p (alt_S al) (alt_R v al) v) !! c = Some ch' -> exists ch, chans v !! c = Some ch) as Hex.
  { intros c ch' E. rewrite lookup_mark in E. destruct (chans v !! c); [eauto | done]. }
  set (pr' := set_regs (Some a) d (set_state Palt pr)).
  apply (inv_join_alt p pr' a al (set_runq rq (upd_prog p pr' v))).
  - by apply (inv_transit_prog p pr' (set_runq rq v)).
  - apply lookup_insert_eq.
  - done.
  - done.
  - done.
  - intros c Hc. destruct (Ho c Hc) as (_ & HcR & Hu). split; [done |].
    destruct (Ha1 c Hc) as (ch' & Ec' & _). destruct (Hex c ch' Ec') as [ch E]. exists ch. split; [done |].
    split; [| by apply Hu]. eapply Hf; [eapply cnt_zero; [exact Hcs | done] | done].
  - intros c Hc. destruct (Hr c Hc) as (_ & Hu).
    destruct (Ha2 c Hc) as (ch' & Ec' & _). destruct (Hex c ch' Ec') as [ch E]. exists ch. split; [done |].
    split; [| by apply Hu]. eapply Hf; [eapply cnt_zero; [exact Hcr | done] | done].
Qed.
End Xecalt.
