(* ===== verification/ChanVm.v ===== *)
(** * Channels: the machine

    The instructions and kernel operations on channels as the steps of a
    machine: they keep the invariant and never fault.  What send, receive and
    alt do; and what goes wrong when an array of channels changes under an alt
    that waits on it. *)

From S2P Require Import Prelude Chan ChanProof ChanOps ChanAlt.
Import Chan.

#[local] Open Scope Z_scope.

(** ** Killing *)

Definition sound {A} (r : result A) : Prop :=
  match r with Ret _ v | Raise _ v => inv v | Fault => False end.

Lemma sound_bind {A B} (m : M A) (k : A -> M B) v :
  (exists a v', m v = Ret a v' /\ sound (k a v')) \/ (exists e v', m v = Raise e v' /\ inv v') ->
  sound ((m ≫= k) v).
Proof.
  unfold mbind, m_bind. intros [(a & v' & -> & H) | (e & v' & -> & H)]; done.
Qed.

Lemma run_from {A B} (a : A) (f : A -> M B) v : (from (Some a) ≫= f) v = f a v.
Proof. done. Qed.

Section Kill.

Lemma transit_prog p v : inv_ (Some p) v -> exists pr, progs v !! p = Some pr /\ addrun_hook pr = false.
Proof. intros I. exact (i_transit _ _ I p eq_refl). Qed.

(** The end of [killprog], for a process that is in no queue any more. *)
Definition finish (p : positive) (pr : Prog) : M bool :=
  if addrun_hook pr then
    mod_prog p (set_kill (Some Killed));; addrun p;; mod_prog p (set_hook false);; mret false
  else if debug pr then mod_prog p (set_state Pbroken);; mret false
  else modify (fun v => set_progs (delete p (progs v)) v);; mret true.

Lemma sound_finish p pr v : inv_ (Some p) v -> addrun_hook pr = false -> sound (finish p pr v).
Proof.
  intros I Hh. destruct (transit_prog p v I) as (pr' & E & Hh'). unfold finish. rewrite Hh.
  destruct (debug pr).
  - rewrite (run_mod_prog _ pr') by done. cbn.
    apply (inv_settle p (set_state Pbroken pr')); [by apply inv_transit_prog | apply lookup_insert_eq |].
    cbn. set_solver.
  - cbn. by apply inv_remove.
Qed.

(** A process that waits for no one is changed. *)
Lemma inv_idle_prog p pr v : inv v -> progs v !! p = Some pr ->
  state pr ∉ [Palt; Psend; Precv; Pready] -> p ∉ runq v -> addrun_hook pr = false -> inv_ (Some p) v.
Proof.
  intros I E Hs Hp Hh.
  assert (forall s, state pr = s -> s ∉ [Palt; Psend; Precv; Pready]) as Hn by (by intros s <-).
  split; try apply I.
  - intros q Hq. split; [congruence | by destruct (i_runq _ _ I q Hq)].
  - intros q pr1 E1 _. by apply (i_ready _ _ I q pr1 E1).
  - intros c ch q Ec Hq. destruct (i_send _ _ I c ch q Ec Hq) as (_ & pr1 & E1 & Hw). split; [| eauto].
    intros [= ->]. simplify_eq. destruct Hw as [Hw _]. destruct (Hn _ Hw). set_solver.
  - intros c ch q Ec Hq. destruct (i_recv _ _ I c ch q Ec Hq) as (_ & pr1 & E1 & Hw). split; [| eauto].
    intros [= ->]. simplify_eq. destruct Hw as [Hw _]. destruct (Hn _ Hw). set_solver.
  - intros q pr1 E1 _. by apply (i_sender _ _ I q pr1 E1).
  - intros q pr1 E1 _. by apply (i_receiver _ _ I q pr1 E1).
  - intros q pr1 E1 _. by apply (i_hook _ _ I q pr1 E1).
  - intros q [= <-]. eauto.
  - intros q pr1 E1 _. by apply (i_alt _ _ I q pr1 E1).
  - intros c ch q Ec Hq. destruct (i_sendalt _ _ I c ch q Ec Hq) as (_ & pr1 & al & (E1 & Hw & Ha) & Hm).
    split; [| by exists pr1, al]. intros [= ->]. simplify_eq. destruct (Hn _ Hw). set_solver.
  - intros c ch q Ec Hq. destruct (i_recvalt _ _ I c ch q Ec Hq) as (_ & pr1 & al & (E1 & Hw & Ha) & Hm).
    split; [| by exists pr1, al]. intros [= ->]. simplify_eq. destruct (Hn _ Hw). set_solver.
Qed.

Lemma inv_run_prog p pr pr' v : inv v -> progs v !! p = Some pr -> p ∈ runq v ->
  state pr' = Pready \/ state pr' = Pexiting -> addrun_hook pr' = false -> inv (upd_prog p pr' v).
Proof.
  intros I E Hp Hs Hh. set (q := filter (fun r => r <> p) (runq v)).
  assert (inv_ (Some p) (set_runq q v)) as I1.
  { apply inv_leave_runq; [done | done | apply NoDup_filter, I |]. intros r. unfold q.
    rewrite list_elem_of_filter. tauto. }
  pose proof (inv_transit_prog p pr' _ I1 Hh) as I2.
  eapply (inv_join_runq p pr' (runq v)) in I2; [| apply lookup_insert_eq | done | apply I |].
  - by destruct v.
  - intros r. change (runq (upd_prog p pr' (set_runq q v))) with q. unfold q. rewrite list_elem_of_filter.
    destruct (decide (r = p)) as [-> |]; naive_solver.
Qed.

Lemma hook_false p pr v : inv v -> progs v !! p = Some pr -> state pr <> Prelease -> addrun_hook pr = false.
Proof.
  intros I E Hs. destruct (addrun_hook pr) eqn:Hh; [| done].
  by pose proof (i_hook _ _ I p pr E (some_ne p) Hh).
Qed.

(** [killprog] keeps the invariant, whatever the process is doing.  (A host
    process that waits for the process in [cblock] is out of scope.) *)
Lemma sound_killprog p pr v : inv v -> progs v !! p = Some pr ->
  (state pr = Prelease -> addrun_hook pr = false) -> sound (killprog p v).
Proof.
  intros I E Hrel. unfold killprog. rewrite (run_bind _ _ (head (runq v)) v v) by done.
  assert (addrun_hook pr = false) as Hh.
  { destruct (decide (state pr = Prelease)); [auto | by eapply hook_false]. }
  case_decide as Hd.
  { rewrite (run_mod_prog _ pr) by done. cbn.
    assert (p ∈ runq v) as Hp by (destruct (runq v); [done | injection Hd as ->; set_solver]).
    apply (inv_run_prog p pr); [done | done | done | by right | done]. }
  rewrite (run_prog _ pr) by done. cbv zeta. fold (finish p pr).
  assert (p ∈ runq v -> state pr = Pready \/ state pr = Pexiting) as Hrq.
  { intros Hp. destruct (i_runq _ _ I p Hp) as (_ & pr' & E' & Hs). by simplify_eq. }
  destruct (state pr) eqn:Hs.
  - destruct (i_alt _ _ I p pr E (some_ne p) Hs) as (al & Hpk & _).
    pose proof Hpk as (_ & _ & a & Ea & Eal). rewrite Ea, (run_alt_at a al) by done.
    rewrite (run_bind _ _ _ _ _ (run_altdone al p None (-1) v (i_refs _ _ I a al Eal) (mk_is_Some _ _ E)
      (parked_marks _ _ _ _ I Hpk))).
    apply sound_finish; [| done]. exact (inv_leave_alt p pr v I E Hs).
  - destruct (i_sender _ _ I p pr E (some_ne p) Hs) as (c & ch & Ec & Ech & Hp).
    rewrite Ec, run_from, (run_mod_chan _ ch) by done. apply sound_finish; [| done].
    destruct (i_nodup _ _ I c ch Ech) as [Nds Ndr]. destruct (NoDup_unlink p (send ch) Nds) as [Nd Hu].
    apply (inv_leave_queue p pr c ch); try done; [by left | |].
    + unfold can_recv. cbn. destruct (send ch); [done |]. done.
    + intros q. cbn. split; [| naive_solver]. intros Hq. split; [done |]. intros ->.
      eapply not_in_recv; [exact I | exact E | exact Ech | left; by rewrite Hs | done].
  - destruct (i_receiver _ _ I p pr E (some_ne p) Hs) as (c & ch & Ec & Ech & Hp).
    rewrite Ec, run_from, (run_mod_chan _ ch) by done. apply sound_finish; [| done].
    destruct (i_nodup _ _ I c ch Ech) as [Nds Ndr]. destruct (NoDup_unlink p (recv ch) Ndr) as [Nd Hu].
    apply (inv_leave_queue p pr c ch); try done; [by right | |].
    + unfold can_send. cbn. destruct (recv ch); [done |]. done.
    + intros q. cbn. split; [| naive_solver]. intros Hq. split; [done |]. intros ->.
      eapply not_in_send; [exact I | exact E | exact Ech | left; by rewrite Hs | done].
  - apply sound_finish; [| done]. apply (inv_idle_prog p pr); try done; [by rewrite Hs; set_solver |].
    intros Hp. by destruct (Hrq Hp).
  - assert (p ∈ runq v) as Hp by (by apply (i_ready _ _ I p pr)).
    destruct (NoDup_unlink p (runq v) (i_run _ _ I)) as [Nd Hu].
    unfold delrunq. rewrite (run_bind _ _ tt _ (set_runq (unlink p (runq v)) v)) by done.
    apply sound_finish; [| done]. by apply inv_leave_runq.
  - rewrite (run_mod_prog _ pr) by done. cbn.
    apply (inv_settle p (set_state Pexiting (set_kill (Some Killed) pr))); [| apply lookup_insert_eq | cbn; set_solver].
    apply inv_transit_prog; [| done]. apply (inv_idle_prog p pr); try done; [by rewrite Hs; set_solver |].
    intros Hp. by destruct (Hrq Hp).
  - done.
  - apply sound_finish; [| done]. apply (inv_idle_prog p pr); try done; [by rewrite Hs; set_solver |].
    intros Hp. by destruct (Hrq Hp).
Qed.
End Kill.

(** ** A channel goes away *)

(** No alt mentions [c]. *)
Definition unreferenced (c : positive) (v : vm) : Prop :=
  forall a al, alts v !! a = Some al ->
    (c ∉ send_chans (a_send al)) /\ (c ∉ recv_chans (carrays v) (a_recv al)).

Section Freechan.

(** What [killcomm] makes of a process. *)
Definition hungup (pr : Prog) : Prog := set_state Pready (set_kill (Some Changup) (set_ptr None pr)).

Lemma killcomm_step put p ps c ch' pr v : let v1 := upd_chan c ch' v in
  put ps v = Ret tt v1 -> inv_ (Some p) v1 -> progs v !! p = Some pr -> state pr = Psend \/ state pr = Precv ->
  let v2 := set_runq (runq v ++ [p]) (upd_prog p (hungup pr) v1) in
  killcomm put (p :: ps) v = killcomm put ps v2 /\ inv v2.
Proof.
  intros v1 Hput I E Hs v2. destruct (transit_prog p v1 I) as (pr' & E' & Hh). cbn in E'. simplify_eq. split.
  - cbn [killcomm]. rewrite (run_bind _ _ _ _ _ Hput), (run_mod_prog _ pr) by done.
    rewrite (run_prog _ (set_ptr None pr)) by apply lookup_insert_eq.
    assert ((mod_prog p (set_kill (Some Changup));; addrun p;; killcomm put ps) (upd_prog p (set_ptr None pr) v1) =
      killcomm put ps v2) as Hrun.
    { rewrite (run_mod_prog _ (set_ptr None pr)) by apply lookup_insert_eq.
      rewrite (run_addrun _ (set_kill (Some Changup) (set_ptr None pr))); [| apply lookup_insert_eq | done].
      f_equal. unfold v2, upd_prog, set_progs, set_runq. cbn. by rewrite !insert_insert_eq. }
    destruct Hs as [Hs | Hs]; cbn [state set_ptr]; rewrite Hs, m_assoc; exact Hrun.
  - apply (inv_join_run p (hungup pr) (upd_prog p (hungup pr) v1)); [by apply inv_transit_prog | apply lookup_insert_eq | done].
Qed.

(** What is left after one queue has been emptied. *)
Definition hang (ps : list positive) (m : gmap positive Prog) : gmap positive Prog :=
  foldl (fun m p => alter hungup p m) m ps.

Definition emptied (c : positive) (ch : Channel) (ps : list positive) (v v' : vm) : Prop :=
  inv v' /\ chans v' = <[c := ch]> (chans v) /\ alts v' = alts v /\ carrays v' = carrays v /\
  runq v' = runq v ++ ps /\ progs v' = hang ps (progs v).

Lemma alter_insert_hung p pr (m : gmap positive Prog) : m !! p = Some pr -> <[p := hungup pr]> m = alter hungup p m.
Proof.
  intros E. apply map_eq. intros q. destruct (decide (q = p)) as [-> | ].
  - by rewrite lookup_insert_eq, lookup_alter_eq, E.
  - by rewrite lookup_insert_ne, lookup_alter_ne.
Qed.

Lemma hungup_idem pr : hungup (hungup pr) = hungup pr.
Proof. done. Qed.

Lemma lookup_hang ps m p : hang ps m !! p = if decide (p ∈ ps) then hungup <$> m !! p else m !! p.
Proof.
  revert m. induction ps as [|q ps IH]; intros m; [done |].
  change (hang (q :: ps) m) with (hang ps (alter hungup q m)). rewrite IH.
  destruct (decide (p = q)) as [-> | Hne].
  - rewrite lookup_alter_eq. do 2 case_decide; try set_solver.
    destruct (m !! q); cbn; [by rewrite hungup_idem | done].
  - rewrite lookup_alter_ne by done. do 2 case_decide; set_solver.
Qed.

Lemma killcomm_send c ps v ch : inv v -> chans v !! c = Some ch -> send ch = ps ->
  exists v', killcomm (fun l => mod_chan c (set_send l)) ps v = Ret tt v' /\ emptied c (set_send [] ch) ps v v'.
Proof.
  revert v ch. induction ps as [|p ps IH]; intros v ch I E Hs.
  { exists v. split; [done |]. split; [done |]. split; [| by rewrite app_nil_r].
    rewrite insert_id; [done |]. rewrite E. destruct ch; by simplify_eq/=. }
  destruct (i_send _ _ I c ch p E) as (_ & pr & Ep & Hst & Hc & Hx); [rewrite Hs; set_solver |].
  destruct (i_nodup _ _ I c ch E) as [Nds Ndr]. pose proof Nds as Nd. rewrite Hs in Nd.
  apply NoDup_cons in Nd as [Hnp Nd].
  assert (inv_ (Some p) (upd_chan c (set_send ps ch) v)) as I1.
  { apply (inv_leave_queue p pr c ch); try done; [by left | | |]; cbn [send recv set_send].
    - unfold can_recv. cbn. by rewrite Hs.
    - intros q. rewrite Hs, elem_of_cons. split; [| naive_solver]. intros Hq. split; [by right | congruence].
    - intros q. split; [| naive_solver]. intros Hq. split; [done |]. intros ->.
      eapply not_in_recv; [exact I | exact Ep | exact E | left; by rewrite Hst | done]. }
  destruct (killcomm_step (fun l => mod_chan c (set_send l)) p ps c (set_send ps ch) pr v) as [Hrun I2]; try done.
  { unfold mod_chan. by rewrite (run_channel _ ch). }
  { by left. }
  rewrite Hrun. destruct (IH _ (set_send ps ch) I2 (lookup_insert_eq _ _ _) eq_refl) as (v' & Hr & I' & Hch & Hal & Har & Hrq & Hpg).
  exists v'. split; [done |]. split; [done |]. rewrite Hch, Hrq, Hpg. cbn.
  by rewrite insert_insert_eq, <- app_assoc, alter_insert_hung.
Qed.

Lemma killcomm_recv c ps v ch : inv v -> chans v !! c = Some ch -> recv ch = ps ->
  exists v', killcomm (fun l => mod_chan c (set_recv l)) ps v = Ret tt v' /\ emptied c (set_recv [] ch) ps v v'.
Proof.
  revert v ch. induction ps as [|p ps IH]; intros v ch I E Hs.
  { exists v. split; [done |]. split; [done |]. split; [| by rewrite app_nil_r].
    rewrite insert_id; [done |]. rewrite E. destruct ch; by simplify_eq/=. }
  destruct (i_recv _ _ I c ch p E) as (_ & pr & Ep & Hst & Hc & Hx); [rewrite Hs; set_solver |].
  destruct (i_nodup _ _ I c ch E) as [Nds Ndr]. pose proof Ndr as Nd. rewrite Hs in Nd.
  apply NoDup_cons in Nd as [Hnp Nd].
  assert (inv_ (Some p) (upd_chan c (set_recv ps ch) v)) as I1.
  { apply (inv_leave_queue p pr c ch); try done; [by right | | |]; cbn [send recv set_recv].
    - unfold can_send. cbn. by rewrite Hs.
    - intros q. split; [| naive_solver]. intros Hq. split; [done |]. intros ->.
      eapply not_in_send; [exact I | exact Ep | exact E | left; by rewrite Hst | done].
    - intros q. rewrite Hs, elem_of_cons. split; [| naive_solver]. intros Hq. split; [by right | congruence]. }
  destruct (killcomm_step (fun l => mod_chan c (set_recv l)) p ps c (set_recv ps ch) pr v) as [Hrun I2]; try done.
  { unfold mod_chan. by rewrite (run_channel _ ch). }
  { by right. }
  rewrite Hrun. destruct (IH _ (set_recv ps ch) I2 (lookup_insert_eq _ _ _) eq_refl) as (v' & Hr & I' & Hch & Hal & Har & Hrq & Hpg).
  exists v'. split; [done |]. split; [done |]. rewrite Hch, Hrq, Hpg. cbn.
  by rewrite insert_insert_eq, <- app_assoc, alter_insert_hung.
Qed.

(** A channel that nobody waits on and no alt mentions goes. *)
Lemma wf_alt_delete c v al : wf_alt v al -> c ∉ send_chans (a_send al) -> c ∉ recv_chans (carrays v) (a_recv al) ->
  wf_alt (set_chans (delete c (chans v)) v) al.
Proof.
  intros [Hs Hr] Hcs Hcr.
  assert (forall c', c' <> c -> is_Some (chans v !! c') -> is_Some (delete c (chans v) !! c')) as Hd
    by (intros c' Hne Hc'; by rewrite lookup_delete_ne).
  split; apply Forall_forall; intros ac Hac.
  - eapply Forall_forall in Hs; [| exact Hac]. destruct (ac_c ac) as [| c' | a] eqn:E; try done.
    apply Hd; [| done]. intros ->. apply Hcs. apply list_elem_of_omap. exists ac. by rewrite E.
  - eapply Forall_forall in Hr; [| exact Hac].
    assert (forall c', c' ∈ entry_chans (carrays v) (ac_c ac) -> c' <> c) as Hne.
    { intros c' Hc' ->. apply Hcr. unfold recv_chans. apply list_elem_of_In, in_concat.
      exists (entry_chans (carrays v) (ac_c ac)). split; [| by apply list_elem_of_In].
      apply in_map_iff. exists ac. split; [done | by apply list_elem_of_In]. }
    destruct (ac_c ac) as [| c' | a] eqn:E; try done.
    + apply Hd; [| done]. apply Hne. cbn. set_solver.
    + destruct Hr as (ca & Ea & Hca). exists ca. split; [done |]. cbn in Hne. rewrite Ea in Hne.
      apply Forall_forall. intros o Ho. eapply Forall_forall in Hca; [| exact Ho]. destruct o as [c'|]; [| done].
      apply Hd; [| done]. apply Hne. apply list_elem_of_omap. by exists (Some c').
Qed.

Lemma inv_delete_chan c ch v : inv v -> chans v !! c = Some ch -> send ch = [] -> recv ch = [] ->
  unreferenced c v -> inv (set_chans (delete c (chans v)) v).
Proof.
  intros I E Hs Hr Hun. split; cbn [progs chans carrays alts runq set_chans]; try apply I.
  - intros c' ch' [_ E']%lookup_delete_Some. by apply (i_nodup _ _ I c').
  - intros c' ch' p [_ E']%lookup_delete_Some. by apply (i_send _ _ I c').
  - intros c' ch' p [_ E']%lookup_delete_Some. by apply (i_recv _ _ I c').
  - intros p pr Ep Hne Hst. destruct (i_sender _ _ I p pr Ep Hne Hst) as (c' & ch' & H1 & H2 & H3).
    exists c', ch'. rewrite lookup_delete_ne; [done |]. intros <-. simplify_eq. rewrite Hs in H3. set_solver.
  - intros p pr Ep Hne Hst. destruct (i_receiver _ _ I p pr Ep Hne Hst) as (c' & ch' & H1 & H2 & H3).
    exists c', ch'. rewrite lookup_delete_ne; [done |]. intros <-. simplify_eq. rewrite Hr in H3. set_solver.
  - intros p pr Ep Hne Hst. destruct (i_alt _ _ I p pr Ep Hne Hst) as (al & Hpk & Ha & Hb).
    pose proof Hpk as (_ & _ & a & _ & Eal). destruct (Hun a al Eal) as [Hu1 Hu2].
    exists al. split; [done |]. split; intros c' Hc'.
    + destruct (Ha c' Hc') as (ch' & E' & Hm). exists ch'. rewrite lookup_delete_ne; [done |]. by intros ->.
    + destruct (Hb c' Hc') as (ch' & E' & Hm). exists ch'. rewrite lookup_delete_ne; [done |]. by intros ->.
  - intros c' ch' p [_ E']%lookup_delete_Some. by apply (i_sendalt _ _ I c').
  - intros c' ch' p [_ E']%lookup_delete_Some. by apply (i_recvalt _ _ I c').
  - intros c' ch' [_ E']%lookup_delete_Some. by apply (i_meet _ _ I c').
  - intros a al Ea. destruct (Hun a al Ea) as [H1 H2]. apply wf_alt_delete; [by apply (i_refs _ _ I a) | done | done].
Qed.

Lemma run_freechan c ch v : inv v -> chans v !! c = Some ch -> unreferenced c v ->
  exists v', freechan c v = Ret tt v' /\ inv v' /\ chans v' = delete c (chans v) /\
    runq v' = runq v ++ send ch ++ recv ch /\ progs v' = hang (send ch ++ recv ch) (progs v).
Proof.
  intros I E Hun.
  assert (sendalt ch = None) as Hsa.
  { apply eq_None_not_Some. intros [p Hp]. destruct (i_sendalt _ _ I c ch p E Hp) as (_ & pr & al & (_ & _ & a & _ & Ea) & Hc).
    by destruct (Hun a al Ea). }
  assert (recvalt ch = None) as Hra.
  { apply eq_None_not_Some. intros [p Hp]. destruct (i_recvalt _ _ I c ch p E Hp) as (_ & pr & al & (_ & _ & a & _ & Ea) & Hc).
    by destruct (Hun a al Ea). }
  destruct (killcomm_send c (send ch) v ch I E eq_refl) as (v1 & Hr1 & I1 & Hc1 & Ha1 & Hb1 & Hq1 & Hp1).
  assert (chans v1 !! c = Some (set_send [] ch)) as E1 by (by rewrite Hc1, lookup_insert_eq).
  destruct (killcomm_recv c (recv ch) v1 (set_send [] ch) I1 E1 eq_refl) as (v2 & Hr2 & I2 & Hc2 & Ha2 & Hb2 & Hq2 & Hp2).
  assert (chans v2 !! c = Some (set_recv [] (set_send [] ch))) as E2 by (by rewrite Hc2, lookup_insert_eq).
  exists (set_chans (delete c (chans v2)) v2). split; [| split; [| split]].
  - unfold freechan. rewrite (run_channel _ ch), Hsa by done. cbn [altgone_opt]. rewrite run_ret.
    rewrite (run_channel _ ch), Hra by done. cbn [altgone_opt]. rewrite run_ret.
    rewrite (run_channel _ ch) by done. rewrite (run_bind _ _ _ _ _ Hr1), (run_channel _ _ _ _ E1).
    cbn [recv set_send]. by rewrite (run_bind _ _ _ _ _ Hr2).
  - eapply inv_delete_chan; [done | done | done | done |]. intros a al. rewrite Ha2, Ha1, Hb2, Hb1. apply Hun.
  - cbn. rewrite Hc2, Hc1. by rewrite insert_insert_eq, delete_insert_eq.
  - cbn. rewrite Hq2, Hq1, Hp2, Hp1. cbn. unfold hang. by rewrite foldl_app, app_assoc.
Qed.
End Freechan.

(** ** The machine *)

Inductive op :=
  | OpSend (c : href) (s : Z)
  | OpRecv (c : href) (d : Z)
  | OpSendq (c : href) (ip lim : Z)
  | OpAlt (block : bool) (a : positive) (d : Z)
  | OpKill (p : positive)
  | OpFree (c : positive)
  | OpQuantum (r : positive).

Definition exec (o : op) : M unit :=
  match o with
  | OpSend c s => isend c s;; mret tt
  | OpRecv c d => irecv c d;; mret tt
  | OpSendq c ip lim => csendq c ip lim;; mret tt
  | OpAlt block a d => xecalt block (Some a) d;; mret tt
  | OpKill p => killprog p;; mret tt
  | OpFree c => freechan c
  | OpQuantum r => rotate r
  end.

(** What the instructions rely on: operands have their types, an instruction
    has a process that runs it, and a channel is freed when no alt has it. *)
Definition chan_operand (c : href) (v : vm) : Prop :=
  match c with H => True | HC c => is_Some (chans v !! c) | HA _ => False end.

Definition valid (o : op) (v : vm) : Prop :=
  match o with
  | OpSend c _ | OpRecv c _ => runq v <> [] /\ chan_operand c v
  | OpSendq c _ _ => chan_operand c v
  | OpAlt _ a _ => runq v <> [] /\ is_Some (alts v !! a)
  | OpKill p => exists pr, progs v !! p = Some pr /\ (state pr = Prelease -> addrun_hook pr = false)
  | OpFree c => is_Some (chans v !! c) /\ unreferenced c v
  | OpQuantum _ => True
  end.

Inductive step : vm -> vm -> Prop :=
  | step_ret o v v' : valid o v -> exec o v = Ret tt v' -> step v v'
  | step_raise o e v v' : valid o v -> exec o v = Raise e v' -> step v v'.

Section Machine.

Lemma sound_unit {A} (m : M A) v : sound (m v) -> sound ((m;; mret tt) v).
Proof. unfold mbind, m_bind. by destruct (m v). Qed.

Lemma running v : inv v -> runq v <> [] -> exists p rq pr, runq v = p :: rq /\ progs v !! p = Some pr.
Proof.
  intros I Hr. destruct (runq v) as [|p rq] eqn:Eq; [done |].
  destruct (i_runq _ _ I p) as (_ & pr & Ep & _); [rewrite Eq; set_solver |]. by exists p, rq, pr.
Qed.

Lemma sound_isend c s v : inv v -> runq v <> [] \/ (forall c' ch, c = HC c' -> chans v !! c' = Some ch -> can_send ch = true) ->
  chan_operand c v -> sound (isend c s v).
Proof.
  intros I Hr Hc. destruct c as [| c | a]; [done | | done]. destruct Hc as [ch E].
  destruct (can_send ch) eqn:Hcs.
  - destruct (isend_ok c ch s v I E Hcs) as (v' & -> & I' & _). done.
  - destruct Hr as [Hr | Hr]; [| by rewrite (Hr c ch) in Hcs].
    destruct (running v I Hr) as (p & rq & pr & Eq & Ep).
    destruct (isend_block p pr rq c ch s v I Eq Ep E Hcs) as [-> I']. done.
Qed.

Lemma sound_irecv c d v : inv v -> runq v <> [] -> chan_operand c v -> sound (irecv c d v).
Proof.
  intros I Hr Hc. destruct c as [| c | a]; [done | | done]. destruct Hc as [ch E].
  destruct (can_recv ch) eqn:Hcr.
  - destruct (irecv_ok c ch d v I E Hcr) as (v' & -> & I' & _). done.
  - destruct (running v I Hr) as (p & rq & pr & Eq & Ep).
    destruct (irecv_block p pr rq c ch d v I Eq Ep E Hcr) as [-> I']. done.
Qed.

Lemma sound_csendq c ip lim v : inv v -> chan_operand c v -> sound (csendq c ip lim v).
Proof.
  intros I Hc. destruct c as [| c | a]; [done | | done]. destruct Hc as [ch E].
  unfold csendq. rewrite (run_channel _ ch) by done. destruct (can_send ch) eqn:Hcs; cbn [negb].
  - destruct (isend_ok c ch ip v I E Hcs) as (v' & Hrun & I' & _). by rewrite (run_bind _ _ _ _ _ Hrun).
  - destruct (_ && _); [done |]. rewrite run_loads, (run_mod_chan _ ch) by done. cbn. by apply inv_sendq.
Qed.

Lemma sound_xecalt b a d v : inv v -> runq v <> [] -> is_Some (alts v !! a) -> sound (xecalt b (Some a) d v).
Proof.
  intros I Hr [al Ea]. destruct (running v I Hr) as (p & rq & pr & Eq & Ep).
  destruct (decide (alt_ok v al)) as [Hok | Hok].
  - destruct (decide (guards v al = [])) as [Hg | Hg].
    + destruct b.
      * rewrite (xecalt_block p a rq pr al d v) by done. by apply (inv_parks p a rq pr al d v).
      * rewrite (xecalt_noblock p a rq pr al d v) by done. by apply inv_set_mem.
    + destruct (xecalt_choice p a rq pr al d v I Eq Ep Ea Hok b Hg) as (g & v' & _ & _ & I' & _ & ->). done.
  - destruct (run_xecalt_error p rq a al d b v I Eq Ea Hok) as [e ->]. done.
Qed.

Lemma sound_rotate r v : inv v -> sound (rotate r v).
Proof.
  intros I. unfold rotate, modify. cbn. destruct (runq v) as [|p [|q rq]] eqn:Eq; try done.
  case_decide; [| done]. apply inv_perm_runq; [done |]. rewrite Eq.
  by rewrite Permutation_app_comm.
Qed.

Lemma sound_exec o v : inv v -> valid o v -> sound (exec o v).
Proof.
  intros I Hv. destruct o; cbn [exec valid] in *.
  - apply sound_unit, sound_isend; [done | left; apply Hv | apply Hv].
  - apply sound_unit, sound_irecv; [done | apply Hv | apply Hv].
  - by apply sound_unit, sound_csendq.
  - apply sound_unit, sound_xecalt; [done | apply Hv | apply Hv].
  - destruct Hv as (pr & E & Hh). by apply sound_unit, (sound_killprog p pr).
  - destruct Hv as [[ch E] Hun]. by destruct (run_freechan c ch v I E Hun) as (v' & -> & I' & _).
  - by apply sound_rotate.
Qed.

Lemma step_inv v v' : step v v' -> inv v -> inv v'.
Proof.
  intros Hs I. destruct Hs as [o v v' Hv Hrun | o e v v' Hv Hrun];
    pose proof (sound_exec o v I Hv) as Hx; by rewrite Hrun in Hx.
Qed.
End Machine.

(** ** A machine to start from *)

Definition fresh (ch : Channel) : Prop :=
  send ch = [] /\ recv ch = [] /\ sendalt ch = None /\ recvalt ch = None /\ sendq ch = [].

(** Every process is in the run queue and no channel has been used. *)
Definition start (v : vm) : Prop :=
  NoDup (runq v) /\ Forall (fun p => is_Some (progs v !! p)) (runq v) /\
  map_Forall (fun p pr => p ∈ runq v /\ state pr = Pready /\ addrun_hook pr = false) (progs v) /\
  map_Forall (fun _ ch => fresh ch) (chans v) /\ map_Forall (fun _ al => wf_alt v al) (alts v).

Lemma inv_start v : start v -> inv v.
Proof.
  intros (Hnd & Hrq & Hp & Hc & Ha).
  assert (forall p pr s, progs v !! p = Some pr -> state pr = s -> s = Pready) as Hs.
  { intros p pr s E <-. apply (Hp p pr E). }
  split; try done.
  - intros p Hin. split; [done |]. eapply Forall_forall in Hrq; [| exact Hin]. destruct Hrq as [pr E].
    exists pr. split; [done |]. left. apply (Hp p pr E).
  - intros p pr E _ _. apply (Hp p pr E).
  - intros c ch E. destruct (Hc c ch E) as (-> & -> & _). split; constructor.
  - intros c ch p E. destruct (Hc c ch E) as (-> & _). set_solver.
  - intros c ch p E. destruct (Hc c ch E) as (_ & -> & _). set_solver.
  - intros p pr E _ H. by specialize (Hs p pr _ E H).
  - intros p pr E _ H. by specialize (Hs p pr _ E H).
  - intros p pr E _ H. destruct (Hp p pr E) as (_ & _ & Hh). congruence.
  - intros p pr E _ H. by specialize (Hs p pr _ E H).
  - intros c ch p E H. destruct (Hc c ch E) as (_ & _ & H1 & _). congruence.
  - intros c ch p E H. destruct (Hc c ch E) as (_ & _ & _ & H1 & _). congruence.
  - intros c ch E H. destruct (Hc c ch E) as (H1 & H2 & H3 & H4 & H5).
    unfold can_recv in H. by rewrite H1, H3, H5 in H.
Qed.

(** ** What sending and receiving do *)

(** Nobody waits on the channel and nothing is queued. *)
Definition idle (ch : Channel) : Prop := can_send ch = false /\ can_recv ch = false.

Section Functional.

Lemma idle_queues ch : idle ch ->
  send ch = [] /\ recv ch = [] /\ sendalt ch = None /\ recvalt ch = None /\ sendq ch = [].
Proof.
  unfold idle, can_send, can_recv.
  rewrite !orb_false_iff, !negb_false_iff, !bool_decide_eq_true, !bool_decide_eq_false, <- !eq_None_not_Some. naive_solver.
Qed.

Lemma set_send_id ch : send ch = [] -> set_send [] ch = ch.
Proof. intros H. destruct ch. by simplify_eq/=. Qed.

Lemma set_recv_id ch : recv ch = [] -> set_recv [] ch = ch.
Proof. intros H. destruct ch. by simplify_eq/=. Qed.

Definition arrives (v v' : vm) (p q : positive) (rq : list positive) (d : Z) (ws : list Z) : Prop :=
  mem v' = store_words (mem v) d ws /\ runq v' = q :: rq ++ [p] /\ chans v' = chans v /\
  exists pr, progs v' !! p = Some pr /\ state pr = Pready /\ ptr pr = None.

(** C26. Rendezvous: two processes that run one after the other and meet on a
    channel nobody waits on exchange the message whichever comes first.  The
    first waits, the second finishes and goes on running, the receiver's memory
    holds the sender's words, the channel is as before and the first process is
    at the end of the run queue. *)
Theorem rendezvous (p q : positive) (rq : list positive) (c : positive) (ch : Channel) (s d : Z) (v : vm) :
  inv v -> runq v = p :: q :: rq -> chans v !! c = Some ch -> idle ch ->
  let ws := load_words (mem v) s (words ch) in
  (exists v1 v2, isend (HC c) s v = Ret Blocked v1 /\ irecv (HC c) d v1 = Ret Finished v2 /\
     arrives v v2 p q rq d ws) /\
  (exists v1 v2, irecv (HC c) d v = Ret Blocked v1 /\ isend (HC c) s v1 = Ret Finished v2 /\
     arrives v v2 p q rq d ws).
Proof.
  intros I Eq E Hidle ws. destruct (idle_queues ch Hidle) as (Hs & Hr & Hsa & Hra & Hsq).
  destruct Hidle as [Hcs Hcr]. destruct (running v I) as (p' & rq' & pr & Eq' & Ep); [by rewrite Eq |].
  rewrite Eq in Eq'. injection Eq' as <- <-. split.
  - destruct (isend_block p pr (q :: rq) c ch s v I Eq Ep E Hcs) as [Hrun I1].
    set (v1 := sleeps p _ c _ (q :: rq) v) in *. exists v1.
    assert (chans v1 !! c = Some (set_send [p] ch)) as E1 by (cbn; by rewrite Hs, lookup_insert_eq).
    assert (take_send c (set_send [p] ch) v1 = Some (p, upd_chan c (set_send [] (set_send [p] ch)) v1)) as Ht
      by (unfold take_send; cbn; by rewrite Hsa).
    destruct (irecv_ready c _ d v1 I1 E1) as (q' & v2 & s' & pr' & Ht' & (_ & Ep' & Hp') & Hrun2);
      [by rewrite Ht |].
    rewrite Ht in Ht'. injection Ht' as <- <-. cbn in Ep'. rewrite lookup_insert_eq in Ep'. injection Ep' as <-.
    cbn in Hp'. injection Hp' as <-.
    eexists. split; [done |]. split; [exact Hrun2 |]. split; [done |]. split; [done |]. split.
    + cbn. rewrite !insert_insert_eq, insert_id; [done |]. rewrite E. f_equal. destruct ch. by simplify_eq/=.
    + cbn. rewrite lookup_insert_eq. by eexists.
  - destruct (irecv_block p pr (q :: rq) c ch d v I Eq Ep E Hcr) as [Hrun I1].
    set (v1 := sleeps p _ c _ (q :: rq) v) in *. exists v1.
    assert (chans v1 !! c = Some (set_recv [p] ch)) as E1 by (cbn; by rewrite Hr, lookup_insert_eq).
    destruct (isend_ready c _ s v1 I1 E1) as (q' & v2 & d' & pr' & Ht' & (_ & Ep' & Hp') & Hrun2);
      [done |].
    assert (take_recv c (set_recv [p] ch) v1 = Some (p, upd_chan c (set_recv [] (set_recv [p] ch)) v1)) as Ht
      by (unfold take_recv; cbn; by rewrite Hra).
    rewrite Ht in Ht'. injection Ht' as <- <-. cbn in Ep'. rewrite lookup_insert_eq in Ep'. injection Ep' as <-.
    cbn in Hp'. injection Hp' as <-.
    eexists. split; [done |]. split; [exact Hrun2 |]. split; [done |]. split; [done |]. split.
    + cbn. rewrite !insert_insert_eq, insert_id; [done |]. rewrite E. f_equal. destruct ch. by simplify_eq/=.
    + cbn. rewrite lookup_insert_eq. by eexists.
Qed.
End Functional.

(** C9. Safety of the machine: whatever sequence of sends, receives, kernel
    sends, alts, kills, frees of channels and ends of quanta is run, with
    operands of their types, from a state that satisfies the invariant, the
    invariant holds again after every step and no operation ever follows a
    pointer to nothing. *)
Theorem vm_invariant (v v' : vm) : inv v -> rtc step v v' ->
  inv v' /\ forall o, valid o v' -> exec o v' <> Fault.
Proof.
  intros I Hs. assert (inv v') as I'.
  { induction Hs as [v | v1 v2 v3 Hs _ IH]; [done |]. by apply IH, (step_inv v1). }
  split; [done |]. intros o Hv Hf. pose proof (sound_exec o v' I' Hv) as Hx. by rewrite Hf in Hx.
Qed.

(** *** Alt *)

(** What [alt] and [nbalt] promise: wait, or say that nothing is ready, or
    perform one ready communication. *)
Definition alt_spec (block : bool) (p a : positive) (rq : list positive) (pr : Prog) (al : Alt) (d : Z)
    (v : vm) : result outcome :=
  let gs := guards v al in
  let x := next_xrand (xrand v) in
  if decide (gs = []) then
    if block then Ret Blocked (parks p a rq pr al d v)
    else Ret Finished (set_mem (<[d := zlen (a_send al) + zlen (a_recv al)]> (mem v)) v)
  else match gs !! Z.to_nat (Z.rem x (zlen gs)) with
       | Some g => perform d g (set_xrand x v)
       | None => Fault
       end.

(** C12. Alternation refines its specification: with the marking, counting,
    communication and unmarking passes, [xecalt] does exactly what [alt_spec]
    says when the alt is in order, and otherwise raises an exception and leaves
    the machine as it was. *)
Theorem alt_refines (block : bool) (p a : positive) (rq : list positive) (pr : Prog) (al : Alt) (d : Z) (v : vm) :
  inv v -> runq v = p :: rq -> progs v !! p = Some pr -> alts v !! a = Some al ->
  if decide (alt_ok v al) then xecalt block (Some a) d v = alt_spec block p a rq pr al d v
  else exists e, xecalt block (Some a) d v = Raise e v.
Proof.
  intros I Eq Ep Ea. case_decide as Hok; [| by eapply run_xecalt_error].
  unfold alt_spec. cbv zeta. case_decide as Hg.
  - destruct block; [by apply (xecalt_block p a rq pr al d v) | by apply (xecalt_noblock p a rq pr al d v)].
  - destruct (xecalt_choice p a rq pr al d v I Eq Ep Ea Hok block Hg) as (g & v' & -> & Hrun & _ & _ & ->). done.
Qed.

(** What a process in an alt gets: the index of its entry, in an array the
    index of the channel in front of the message, and the message. *)
Definition alt_message (sl : slot) (pr : Prog) (s : Z) (n : nat) (m : gmap Z Z) : gmap Z Z :=
  let m := set_slot sl pr m in
  store_words m (sl_ptr sl) (load_words m s n).

(** A send to a channel on which a process waits in an alt: the process is
    told which entry it was and gets the message there, none of its channels is
    marked by it any more, and it is at the end of the run queue. *)
Theorem alt_wakeup (c : positive) (ch : Channel) (q : positive) (pr : Prog) (al : Alt) (sl : slot) (s : Z) (v : vm) :
  inv v -> chans v !! c = Some ch -> recvalt ch = Some q -> parked v q pr al ->
  find_recv (carrays v) (a_recv al) c (zlen (a_send al)) = Some sl ->
  exists v', isend (HC c) s v = Ret Finished v' /\
    mem v' = alt_message sl pr s (words ch) (mem v) /\ runq v' = runq v ++ [q] /\
    (forall c' ch', chans v' !! c' = Some ch' -> sendalt ch' <> Some q /\ recvalt ch' <> Some q).
Proof.
  intros I E Hra Hpk Hsl. pose proof Hpk as (Ep & _ & a & Ea & Eal).
  destruct (isend_ready c ch s v I E) as (q' & v1 & d & pr' & Ht & (_ & Ep' & Hp') & Hrun).
  { unfold can_send. rewrite Hra, (bool_decide_eq_true_2 (is_Some _)) by eauto. apply orb_true_r. }
  unfold take_recv in Ht. rewrite Hra, Ep in Ht. cbn in Ht. rewrite Ea in Ht. cbn in Ht. rewrite Eal in Ht. cbn in Ht.
  rewrite Hsl in Ht. injection Ht as <- <-. unfold deliver in Ep', Hrun. cbn in Ep', Hrun. rewrite Ep in Ep', Hrun.
  cbn in Ep'. rewrite lookup_insert_eq in Ep'. injection Ep' as <-. cbn in Hp'. injection Hp' as <-.
  eexists. split; [exact Hrun |]. split; [done |]. split; [done |].
  intros c' ch' Hc'. change (chans (unmark q v) !! c' = Some ch') in Hc'.
  apply lookup_unmark in Hc' as (ch0 & _ & ->). destruct (unmark_facts q ch0) as (_ & _ & _ & _ & H1 & H2).
  split; [intros Hx%H1 | intros Hx%H2]; by destruct Hx.
Qed.

(** *** The queue of kernel sends *)

Definition queueable (lim : Z) (ch : Channel) : bool := negb ((0 <=? lim) && (lim <=? zlen (sendq ch))).

(** Kernel sends queue, in order and within the limit: on a channel where
    nobody waits, [csendq] refuses without changing anything exactly when
    [lim] messages are queued, and otherwise adds the message; after any such
    send a receive finishes at once with the oldest message. *)
Theorem csendq_fifo (c : positive) (ch : Channel) (ip lim d : Z) (v : vm) :
  inv v -> chans v !! c = Some ch -> can_send ch = false -> send ch = [] -> sendalt ch = None ->
  let ws := load_words (mem v) ip (words ch) in
  if queueable lim ch then
    exists v1, csendq (HC c) ip lim v = Ret true v1 /\ v1 = upd_chan c (set_sendq (sendq ch ++ [ws]) ch) v /\
      (0 <= lim -> zlen (sendq ch ++ [ws]) <= lim) /\
      irecv (HC c) d v1 = Ret Finished (set_mem (store_words (mem v) d (hd ws (sendq ch)))
        (upd_chan c (set_sendq (tail (sendq ch ++ [ws])) ch) v))
  else csendq (HC c) ip lim v = Ret false v.
Proof.
  intros I E Hcs Hs Ha ws. unfold csendq. rewrite (run_channel _ ch), Hcs by done. cbn [negb].
  unfold queueable. destruct (_ && _) eqn:Hb; cbn [negb]; [done |].
  rewrite run_loads, (run_mod_chan _ ch) by done.
  exists (upd_chan c (set_sendq (sendq ch ++ [ws]) ch) v). split; [done |]. split; [done |]. split.
  - intros Hl. rewrite length_app. simpl. apply andb_false_iff in Hb. lia.
  - set (ch1 := set_sendq (sendq ch ++ [ws]) ch).
    assert (inv (upd_chan c ch1 v)) as I1 by (by apply inv_sendq).
    destruct (irecv_queued c ch1 (hd ws (sendq ch)) (tail (sendq ch ++ [ws])) d (upd_chan c ch1 v)) as [Hrun _];
      try done; [apply lookup_insert_eq | cbn; by destruct (sendq ch) |].
    rewrite Hrun. f_equal. unfold upd_chan, set_mem, set_chans. cbn. by rewrite insert_insert_eq.
Qed.

(** A channel that goes away lets every process go that waits on it: they
    are all in the run queue, senders first, each in the order in which they
    came, with the exception "channel hangup" to raise. *)
Theorem freechan_hangup (c : positive) (ch : Channel) (v : vm) :
  inv v -> chans v !! c = Some ch -> unreferenced c v ->
  exists v', freechan c v = Ret tt v' /\ inv v' /\ chans v' !! c = None /\
    runq v' = runq v ++ send ch ++ recv ch /\
    forall p, p ∈ send ch ++ recv ch -> exists pr, progs v' !! p = Some pr /\
      state pr = Pready /\ ptr pr = None /\ kill pr = Some Changup.
Proof.
  intros I E Hun. destruct (run_freechan c ch v I E Hun) as (v' & Hrun & I' & Hc & Hq & Hp).
  exists v'. split; [done |]. split; [done |]. split; [by rewrite Hc, lookup_delete_eq |]. split; [done |].
  intros p Hin. assert (exists pr, progs v !! p = Some pr) as [pr Ep].
  { apply elem_of_app in Hin as [Hin | Hin]; [apply (i_send _ _ I c ch p E) in Hin | apply (i_recv _ _ I c ch p E) in Hin];
      destruct Hin as (_ & pr & Ep & _); eauto. }
  exists (hungup pr). rewrite Hp, lookup_hang, decide_True, Ep by done. done.
Qed.

(** ** An array that changes *)

Definition set_carrays m v := MkVm (progs v) (chans v) m (alts v) (mem v) (runq v) (xrand v).

(** The alt passes read the array of channels again each time: when an
    element is replaced while a process waits in an alt over the array, the old
    channel still has the mark of the process, and the next send on it faults,
    since the search of [altdone] does not find the channel and leaves the
    process without a place for the message. *)
Theorem alt_array_changed (c : positive) (ch : Channel) (q : positive) (pr : Prog) (al : Alt) arrs (s : Z) (v : vm) :
  inv v -> runq v <> [] -> chans v !! c = Some ch -> recvalt ch = Some q -> parked v q pr al -> ptr pr = None ->
  wf_alt (set_carrays arrs v) al -> find_recv arrs (a_recv al) c (zlen (a_send al)) = None ->
  valid (OpSend (HC c) s) v /\ exec (OpSend (HC c) s) (set_carrays arrs v) = Fault.
Proof.
  intros I Hrq E Hra Hpk Hptr [Hws Hwr] Hf.
  split; [split; [done | by exists ch] |]. pose proof Hpk as (Ep & _ & a & Ea & Eal).
  assert (can_send ch = true) as Hcs
    by (unfold can_send; rewrite Hra, (bool_decide_eq_true_2 (is_Some _)) by eauto; apply orb_true_r).
  unfold exec, isend, mbind at 1, m_bind at 1. rewrite (run_channel _ ch), Hcs, Hra by done. cbn [negb].
  rewrite m_assoc, (run_mod_chan _ ch), m_assoc, (run_prog _ pr), Ea by done.
  rewrite m_assoc, (run_alt_at a al), m_assoc by done.
  set (w := upd_chan c (set_recvalt None ch) (set_carrays arrs v)).
  assert (forall x, is_Some (chans (set_carrays arrs v) !! x) -> is_Some (chans w !! x)) as Hdom
    by exact (f_chans _ _ (frame_upd_chan c (set_recvalt None ch) (set_carrays arrs v))).
  unfold altdone. rewrite m_assoc.
  rewrite (run_bind _ _ _ _ _ (run_altdone_send (a_send al) q (Some c) 1 0 w (wf_send_weaken _ _ _ Hdom Hws) (mk_is_Some _ _ Ep))).
  cbn [sel_slot sel_left Z.eqb].
  set (w1 := after _ _ _ _ w).
  assert (wf_recv w1 (a_recv al)) as Hwr1.
  { eapply (wf_recv_weaken (set_carrays arrs v)); [| done | done]. intros x Hx. apply is_Some_clear. by apply Hdom. }
  rewrite m_assoc, (run_bind _ _ _ _ _ (run_altdone_recv (a_recv al) q (Some c) 1 (zlen (a_send al)) w1 Hwr1 (mk_is_Some _ _ Ep))).
  change (carrays w1) with arrs. unfold sel_slot. cbn [Z.eqb mbind option_bind]. cbn. rewrite Hf.
  rewrite !run_ret, (run_prog _ pr), (run_mod_prog _ pr), run_loads by done. by rewrite Hptr.
Qed.

(** ** A concrete machine *)

#[local] Instance fresh_dec ch : Decision (fresh ch).
Proof. unfold fresh. apply _. Defined.

#[local] Instance wf_alt_dec v al : Decision (wf_alt v al).
Proof.
  apply and_dec; apply Forall_dec; intros [[| c | a] x]; cbn; try apply _.
  destruct (carrays v !! a) as [ca|]; [| right; by intros (? & ? & _)].
  assert (Decision (Forall (fun c => match c with Some c => is_Some (chans v !! c) | None => True end) ca)) as [H | H].
  { apply Forall_dec. intros [c|]; apply _. }
  - left. by exists ca.
  - right. intros (ca' & [= <-] & H'). done.
Defined.

#[local] Instance start_dec v : Decision (start v).
Proof. unfold start. apply _. Defined.

Definition ready_prog : Prog := MkProg Pready None None None None 0 false false.
Definition fresh_chan (n : nat) : Channel := MkChannel [] [] None [] None n.

(** Three processes, four channels, an array of two channels and two alts: one
    over the array, one that sends on the second channel and receives from the
    first and the third. *)
Definition boot : vm := MkVm
  (<[1%positive := ready_prog]> (<[2%positive := ready_prog]> {[3%positive := ready_prog]}))
  (<[1%positive := fresh_chan 1]> (<[2%positive := fresh_chan 2]> (<[3%positive := fresh_chan 1]> {[4%positive := fresh_chan 1]})))
  {[1%positive := [Some 3%positive; None; Some 1%positive]]}
  (<[1%positive := MkAlt [] [MkAltc (HA 1) 100]]>
     {[2%positive := MkAlt [MkAltc (HC 2) 60] [MkAltc (HC 1) 70; MkAltc (HC 3) 80]]})
  (<[10 := 42]> {[60 := 5; 61 := 6]}) [1; 2; 3]%positive (-1).

Lemma start_boot : start boot.
Proof. apply (bool_decide_unpack _). vm_compute. exact Logic.I. Qed.

Definition run (o : op) (v : vm) : vm :=
  match exec o v with Ret _ v' | Raise _ v' => v' | Fault => v end.

Lemma step_run o v : inv v -> valid o v -> step v (run o v).
Proof.
  intros I Hv. pose proof (sound_exec o v I Hv) as Hs. unfold run.
  destruct (exec o v) as [[] v' | e v' |] eqn:E; [by eapply step_ret | by eapply step_raise | done].
Qed.

(** Process 1 waits in the alt over the array. *)
Definition boot_alt : vm := run (OpAlt true 1 200) boot.

Lemma inv_boot : inv boot.
Proof. apply inv_start, start_boot. Qed.

Lemma valid_boot_alt : valid (OpAlt true 1 200) boot.
Proof. split; [done | by eexists]. Qed.

Lemma inv_boot_alt : inv boot_alt.
Proof. exact (step_inv _ _ (step_run _ _ inv_boot valid_boot_alt) inv_boot). Qed.

Lemma rendezvous_witness : exists v1 v2,
  isend (HC 1) 10 boot = Ret Blocked v1 /\ irecv (HC 1) 90 v1 = Ret Finished v2 /\ rdw (mem v2) 90 = 42.
Proof.
  destruct (rendezvous 1 2 [3%positive] 1 (fresh_chan 1) 10 90 boot inv_boot eq_refl eq_refl)
    as [(v1 & v2 & H1 & H2 & H3 & _) _]; [by split |].
  exists v1, v2. split; [exact H1 |]. split; [exact H2 |]. rewrite H3. vm_compute. reflexivity.
Defined.

Lemma vm_invariant_witness : exists v', inv v' /\ runq v' = [3; 1]%positive /\ exec (OpKill 2) v' <> Fault.
Proof.
  set (v1 := run (OpSend (HC 1) 10) boot_alt).
  assert (valid (OpSend (HC 1) 10) boot_alt) as Hv1 by (split; [done | by eexists]).
  assert (inv v1) as I1 by exact (step_inv _ _ (step_run _ _ inv_boot_alt Hv1) inv_boot_alt).
  set (v2 := run (OpRecv (HC 1) 90) v1).
  assert (valid (OpRecv (HC 1) 90) v1) as Hv2 by (split; [done | by eexists]).
  destruct (vm_invariant boot v2 inv_boot) as [I2 Hf].
  - eapply rtc_l; [exact (step_run _ _ inv_boot valid_boot_alt) |].
    eapply rtc_l; [exact (step_run _ _ inv_boot_alt Hv1) |].
    eapply rtc_l; [exact (step_run _ _ I1 Hv2) | apply rtc_refl].
  - exists v2. split; [exact I2 |]. split; [vm_compute; reflexivity |]. apply Hf.
    eexists. split; [vm_compute; reflexivity | done].
Defined.

(** Process 2 runs the alt while process 1 waits to send on channel 3. *)
Lemma alt_refines_witness :
  let v := run (OpSend (HC 3) 10) boot in
  exists v', xecalt true (Some 2%positive) 200 v = Ret Finished v' /\ rdw (mem v') 200 = 2 /\ rdw (mem v') 80 = 42.
Proof.
  intros v. assert (valid (OpSend (HC 3) 10) boot) as Hv by (split; [done | by eexists]).
  assert (inv v) as I by exact (step_inv _ _ (step_run _ _ inv_boot Hv) inv_boot).
  pose proof (alt_refines true 2 2 [3%positive] ready_prog
    (MkAlt [MkAltc (HC 2) 60] [MkAltc (HC 1) 70; MkAltc (HC 3) 80]) 200 v I
    ltac:(vm_compute; reflexivity) ltac:(vm_compute; reflexivity) ltac:(vm_compute; reflexivity)) as H.
  rewrite decide_True in H by (apply (bool_decide_unpack _); vm_compute; exact Logic.I).
  rewrite H. eexists. split; [vm_compute; reflexivity |]. split; vm_compute; reflexivity.
Defined.

Definition waiting : Prog := MkProg Palt None None None (Some 1%positive) 200 false false.

Lemma parked_boot_alt : parked boot_alt 1 waiting (MkAlt [] [MkAltc (HA 1) 100]).
Proof. split; [vm_compute; reflexivity |]. split; [done |]. by exists 1%positive. Qed.

Lemma alt_wakeup_witness : exists v', isend (HC 1) 10 boot_alt = Ret Finished v' /\
  rdw (mem v') 200 = 0 /\ rdw (mem v') 100 = 2 /\ rdw (mem v') 101 = 42.
Proof.
  destruct (alt_wakeup 1 (MkChannel [] [] None [] (Some 1%positive) 1) 1 waiting (MkAlt [] [MkAltc (HA 1) 100])
    (MkSlot 101 0 (Some (100, 2))) 10 boot_alt inv_boot_alt) as (v' & Hrun & Hm & _);
    [vm_compute; reflexivity | done | exact parked_boot_alt | vm_compute; reflexivity |].
  exists v'. split; [exact Hrun |]. rewrite Hm. split; [| split]; vm_compute; reflexivity.
Defined.

Lemma csendq_fifo_witness : exists v1 v2, csendq (HC 1) 10 4 boot = Ret true v1 /\
  irecv (HC 1) 90 v1 = Ret Finished v2 /\ rdw (mem v2) 90 = 42.
Proof.
  destruct (csendq_fifo 1 (fresh_chan 1) 10 4 90 boot inv_boot eq_refl eq_refl eq_refl eq_refl)
    as (v1 & H1 & _ & _ & H2).
  exists v1. eexists. split; [exact H1 |]. split; [exact H2 |]. vm_compute. reflexivity.
Defined.

Lemma freechan_hangup_witness :
  let v := run (OpSend (HC 4) 10) boot in
  exists v', freechan 4 v = Ret tt v' /\ runq v' = [2; 3; 1]%positive.
Proof.
  intros v. assert (valid (OpSend (HC 4) 10) boot) as Hv by (split; [done | by eexists]).
  assert (inv v) as I by exact (step_inv _ _ (step_run _ _ inv_boot Hv) inv_boot).
  destruct (freechan_hangup 4 (MkChannel [] [1%positive] None [] None 1) v I) as (v' & Hrun & _ & _ & Hq & _).
  - vm_compute. reflexivity.
  - assert (map_Forall (fun _ al => (4%positive ∉ send_chans (a_send al)) /\
      (4%positive ∉ recv_chans (carrays v) (a_recv al))) (alts v)) as Hm
      by (apply (bool_decide_unpack _); vm_compute; exact Logic.I).
    exact Hm.
  - exists v'. split; [exact Hrun |]. rewrite Hq. vm_compute. reflexivity.
Defined.

Lemma alt_array_changed_witness :
  exec (OpSend (HC 1) 10) (set_carrays {[1%positive := [Some 3%positive; None; Some 4%positive]]} boot_alt) = Fault.
Proof.
  destruct (alt_array_changed 1 (MkChannel [] [] None [] (Some 1%positive) 1) 1 waiting
    (MkAlt [] [MkAltc (HA 1) 100]) {[1%positive := [Some 3%positive; None; Some 4%positive]]} 10 boot_alt inv_boot_alt)
    as [_ H]; try done.
  - exact parked_boot_alt.
  - apply (bool_decide_unpack _). vm_compute. exact Logic.I.
Defined.
