(* ===== verification/Str.v ===== *)
(** * Limbo strings (interp/string.c, interp/heap.c, interp/xec.c)

    A string of the virtual machine is a counted object that holds bytes, when
    all its characters are below [Runeself], or runes; the sign of the length
    tells which.  Variables hold pointers to strings and share them; an
    operation on a variable changes the string in place when nobody shares it
    and there is room, and otherwise makes another.

    The heap gives a string at least the bytes asked for, or nothing
    ([Allocator]); what it holds before it is written is of no account.  A
    string is one block: a store past its end, or a load of the runes of a
    string that holds bytes, is a fault. *)

From S2P Require Import Prelude Rune.

#[local] Open Scope Z_scope.

Module Str.

(** ** State *)

(** The member of the union [data] that was written last. *)
Inductive buf := Bytes (b : list Z) | Runes (r : list Z).

(** [ref] is the count of the heap header; [cap] the bytes from [data] to the
    end of the block. *)
Record String := MkString {
  ref : Z;
  len : Z;
  max : Z;
  cap : Z;
  data : buf;
}.

(** [vars] is the memory that holds pointers to strings; a cell that is not
    there holds [H]. *)
Record vm := MkVm { strs : gmap positive String; vars : gmap Z positive }.

Definition set_ref n s := MkString n (len s) (max s) (cap s) (data s).
Definition set_len n s := MkString (ref s) n (max s) (cap s) (data s).
Definition set_max n s := MkString (ref s) (len s) n (cap s) (data s).
Definition set_data b s := MkString (ref s) (len s) (max s) (cap s) b.
Definition set_strs m v := MkVm m (vars v).
Definition set_vars m v := MkVm (strs v) m.

(** What the allocator promises: [room m nb] is [msize(h)] less the headers,
    the bytes there are for a string of [nb]; block sizes are [int]s.
    [tmproom m p l] tells whether [tmp] of a string holds [l] bytes, because it
    did before or because [malloc] gives them; [aroom m nb] whether there is a
    block for an array of [nb] bytes. *)
Class Allocator := {
  room : gmap positive String -> Z -> option Z;
  room_ge m nb n : 0 <= nb -> room m nb = Some n -> nb <= n /\ n + 4 < 2 ^ 31;
  tmproom : gmap positive String -> positive -> Z -> bool;
  aroom : gmap positive String -> Z -> bool;
}.

(** ** The machine's monad *)

Inductive exn := exNilref | exBounds | exHeap | exNomem.

Inductive result (A : Type) :=
  | Ret (a : A) (v : vm)
  | Raise (e : exn) (v : vm)
  | Fault.
Arguments Ret {A} a v.
Arguments Raise {A} e v.
Arguments Fault {A}.

Definition M (A : Type) : Type := vm -> result A.

#[export] Instance m_ret : MRet M := fun A a v => Ret a v.
#[export] Instance m_bind : MBind M := fun A B k m v =>
  match m v with Ret a v => k a v | Raise e v => Raise e v | Fault => Fault end.

Definition error {A} (e : exn) : M A := fun v => Raise e v.
Definition fault {A} : M A := fun _ => Fault.

Definition modify (f : vm -> vm) : M unit := fun v => Ret tt (f v).

Definition str (p : positive) : M String :=
  fun v => match strs v !! p with Some s => Ret s v | None => Fault end.
Definition mod_str (p : positive) (f : String -> String) : M unit :=
  s ← str p; modify (fun v => set_strs (<[p := f s]> (strs v)) v).

(** [S(d)], and storing there. *)
Definition var (d : Z) : M (option positive) := fun v => Ret (vars v !! d) v.
Definition set_var (d : Z) (o : option positive) : M unit :=
  fun v => Ret tt (set_vars (match o with Some p => <[d := p]> (vars v) | None => delete d (vars v) end) v).

(** ** The union *)

Definition junk (n : Z) : list Z := replicate (Z.to_nat n) 0.
Definition splice (l : list Z) (off : Z) (xs : list Z) : list Z :=
  take (Z.to_nat off) l ++ xs ++ drop (Z.to_nat off + length xs) l.
Definition slice (l : list Z) (off n : Z) : list Z := take (Z.to_nat n) (drop (Z.to_nat off) l).

Definition as_ascii (s : String) : list Z :=
  match data s with Bytes b => b | Runes _ => junk (cap s) end.
Definition as_runes (s : String) : list Z :=
  match data s with Runes r => r | Bytes _ => junk (cap s / 2) end.

(** [memmove] from and to [&Sascii[off]] and [&Srune[off]], [n] elements. *)
Definition get_ascii (p : positive) (off n : Z) : M (list Z) :=
  s ← str p;
  match data s with
  | Bytes b => if (0 <=? off) && (0 <=? n) && (off + n <=? cap s) then mret (slice b off n) else fault
  | Runes _ => if n =? 0 then mret [] else fault
  end.
Definition get_runes (p : positive) (off n : Z) : M (list Z) :=
  s ← str p;
  match data s with
  | Runes r => if (0 <=? off) && (0 <=? n) && (2 * (off + n) <=? cap s) then mret (slice r off n) else fault
  | Bytes _ => if n =? 0 then mret [] else fault
  end.
Definition put_ascii (p : positive) (off : Z) (xs : list Z) : M unit :=
  s ← str p;
  if (0 <=? off) && (off + zlen xs <=? cap s) then
    mod_str p (set_data (Bytes (splice (as_ascii s) off (map u8 xs))))
  else fault.
Definition put_runes (p : positive) (off : Z) (xs : list Z) : M unit :=
  s ← str p;
  if (0 <=? off) && (2 * (off + zlen xs) <=? cap s) then
    mod_str p (set_data (Runes (splice (as_runes s) off (map u16 xs))))
  else fault.

(** ** Objects *)

(** The record of a string starts with four bytes of [data], [STRUCTALIGN],
    besides those asked for. *)
Definition newstring `{Allocator} (nb : Z) : M positive := fun v =>
  match room (strs v) nb with
  | None => Raise exHeap v
  | Some n =>
      let p := fresh (dom (strs v)) in
      Ret p (set_strs (<[p := MkString 1 nb n (n + 4) (Bytes (junk (n + 4)))]> (strs v)) v)
  end.

Definition destroy (o : option positive) : M unit :=
  match o with
  | None => mret tt
  | Some p =>
      s ← str p;
      if 0 <? ref s - 1 then mod_str p (set_ref (ref s - 1))
      else modify (fun v => set_strs (delete p (strs v)) v)
  end.

(** [ns->max /= sizeof(Rune)] *)
Definition halve_max (p : positive) : M unit := mod_str p (fun s => set_max (max s / 2) s).

Definition movp (s d : Z) : M unit :=
  sv ← var s;
  match sv with Some p => mod_str p (fun s => set_ref (ref s + 1) s) | None => mret tt end;;
  dv ← var d;
  set_var d sv;;
  destroy dv.

(** Let go of the string in [*sp] and store [ns] there, [sp] being [R.d]. *)
Definition replace (d : Z) (ns : option positive) : M unit :=
  o ← var d; destroy o;; set_var d ns.

(** ** Operations *)

Section Ops.
Context `{Allocator}.

Definition stringdup (o : option positive) : M (option positive) :=
  match o with
  | None => mret None
  | Some p =>
      s ← str p;
      if 0 <=? len s then
        ns ← newstring (len s);
        xs ← get_ascii p 0 (len s);
        put_ascii ns 0 xs;;
        mret (Some ns)
      else
        let l := - len s * 2 in
        ns ← newstring l;
        mod_str ns (set_len (len s));;
        halve_max ns;;
        xs ← get_runes p 0 (- len s);
        put_runes ns 0 xs;;
        mret (Some ns)
  end.

(** [r] is [&rp->Srune[off]]. *)
Definition cvtup (rp : positive) (off : Z) (p : positive) : M unit :=
  s ← str p;
  xs ← get_ascii p 0 (len s);
  put_runes rp off xs.

Definition splitc (d : Z) (expand : bool) : M positive :=
  o ← var d;
  match o with
  | None => fault
  | Some ss =>
      s ← str ss;
      ns ← if expand && (0 <? len s) then
             ns ← newstring (len s * 2);
             mod_str ns (set_len (- len s));;
             halve_max ns;;
             cvtup ns 0 ss;;
             mret (Some ns)
           else stringdup (Some ss);
      destroy (Some ss);;
      set_var d ns;;
      match ns with Some ns => mret ns | None => fault end
  end.

Definition indc (s m : Z) : M Z :=
  let v := u32 m in
  o ← var s;
  match o with
  | None => error exNilref
  | Some p =>
      ss ← str p;
      let l := len ss in
      if l <? 0 then
        if - l <=? v then error exBounds
        else xs ← get_runes p v 1; match xs with x :: _ => mret x | [] => fault end
      else
        if l <=? v then error exBounds
        else xs ← get_ascii p v 1; match xs with x :: _ => mret (i8 x) | [] => fault end
  end.

Definition insc_rune (ss : positive) (r v : Z) : M positive :=
  s ← str ss;
  let l := - len s in
  if v <? l then put_runes ss v [r];; mret ss
  else if (v =? l) && (v <? max s) then
    (if l =? 0 then halve_max ss else mret tt);;
    mod_str ss (set_len (- (v + 1)));;
    put_runes ss v [r];;
    mret ss
  else if negb (v =? l) then error exBounds
  else
    ns ← newstring ((v + 1 + v / 4) * 2);
    xs ← get_runes ss 0 (- len s);
    put_runes ns 0 xs;;
    put_runes ns v [r];;
    mod_str ns (set_len (- (v + 1)));;
    halve_max ns;;
    mret ns.

Definition insc_ascii (ss : positive) (r v : Z) : M positive :=
  s ← str ss;
  let l := len s in
  if v <? l then put_ascii ss v [r];; mret ss
  else if (v =? l) && (v <? max s) then
    mod_str ss (set_len (v + 1));;
    put_ascii ss v [r];;
    mret ss
  else if negb (v =? l) then error exBounds
  else
    ns ← newstring (v + 1 + v / 4);
    xs ← get_ascii ss 0 l;
    put_ascii ns 0 xs;;
    put_ascii ns v [r];;
    mod_str ns (set_len (v + 1));;
    mret ns.

Definition insc (r m d : Z) : M unit :=
  let v := u32 m in
  let expand := Runeself <=? r in
  o ← var d;
  ss ← match o with
       | None => newstring 0
       | Some p =>
           s ← str p;
           if (1 <? ref s) || (expand && (0 <? len s)) then splitc d expand else mret p
       end;
  s ← str ss;
  ss ← (if (len s <? 0) || expand then insc_rune ss r v else insc_ascii ss r v);
  o ← var d;
  if decide (o = Some ss) then mret tt else replace d (Some ss).

Definition slicer (start v : Z) (ds : option positive) : M (option positive) :=
  match ds with
  | None => if (start =? 0) && (v =? 0) then mret None else error exBounds
  | Some p =>
      s ← str p;
      let nc := i32 (v - start) in
      if len s <? 0 then
        let l := - len s in
        if (v <? start) || (l <? v) then error exBounds
        else
          ns ← newstring (nc * 2);
          mod_str ns (set_len (- nc));;
          halve_max ns;;
          xs ← get_runes p start nc;
          put_runes ns 0 xs;;
          mret (Some ns)
      else
        let l := len s in
        if (v <? start) || (l <? v) then error exBounds
        else
          ns ← newstring nc;
          xs ← get_ascii p start nc;
          put_ascii ns 0 xs;;
          mret (Some ns)
  end.

Definition slicec (s m d : Z) : M unit :=
  o ← var d;
  ns ← slicer (u32 s) (u32 m) o;
  replace d ns.

Definition addstring (o1 o2 : option positive) (append : bool) : M (option positive) :=
  match o1, o2 with
  | None, None => mret None
  | None, Some s2 => stringdup (Some s2)
  | Some p1, o2 =>
      s1 ← str p1;
      let append := if 1 <? ref s1 then false else append in
      match o2 with
      | None => if append then mret (Some p1) else stringdup (Some p1)
      | Some p2 =>
          s2 ← str p2;
          if len s1 <? 0 then
            let l1 := - len s1 in
            let l := if len s2 <? 0 then l1 - len s2 else l1 + len s2 in
            ns ← if append && (l <=? max s1) then mret p1
                 else
                   ns ← newstring ((if append then l + l / 4 else l) * 2);
                   halve_max ns;;
                   xs ← get_runes p1 0 l1;
                   put_runes ns 0 xs;;
                   mret ns;
            mod_str ns (set_len (- l));;
            s2 ← str p2;
            (if len s2 <? 0 then
               xs ← get_runes p2 0 (- len s2);
               put_runes ns l1 xs
             else cvtup ns l1 p2);;
            mret (Some ns)
          else if len s2 <? 0 then
            let l2 := - len s2 in
            let l := len s1 + l2 in
            ns ← newstring ((if append then l + l / 4 else l) * 2);
            mod_str ns (set_len (- l));;
            halve_max ns;;
            cvtup ns 0 p1;;
            xs ← get_runes p2 0 l2;
            put_runes ns (len s1) xs;;
            mret (Some ns)
          else
            let l1 := len s1 in
            let l := l1 + len s2 in
            ns ← if append && (l <=? max s1) then mret p1
                 else
                   ns ← newstring (if append then l + l / 4 else l);
                   xs ← get_ascii p1 0 l1;
                   put_ascii ns 0 xs;;
                   mret ns;
            mod_str ns (set_len l);;
            s2 ← str p2;
            xs ← get_ascii p2 0 (len s2);
            put_ascii ns l1 xs;;
            mret (Some ns)
      end
  end.

Definition addc (s m d : Z) : M unit :=
  o1 ← var m;
  o2 ← var s;
  ns ← addstring o1 o2 (m =? d);
  o ← var d;
  if decide (ns = o) then mret tt else replace d ns.

Definition lenc (s : Z) : M Z :=
  o ← var s;
  match o with
  | None => mret 0
  | Some p => s ← str p; let l := len s in mret (if l <? 0 then - l else l)
  end.

(** ** Comparison *)

(** [strncmp] of the C library. *)
Fixpoint strncmp (a b : list Z) (n : nat) : Z :=
  match n, a, b with
  | S n, x :: a, y :: b =>
      if negb (x =? y) then (if x <? y then -1 else 1)
      else if x =? 0 then 0 else strncmp a b n
  | _, _, _ => 0
  end.

(** The loops: the first [n] elements differ, less or greater, or not. *)
Fixpoint runecmp (a b : list Z) (n : nat) : Z :=
  match n, a, b with
  | S n, x :: a, y :: b => if negb (x =? y) then (if x <? y then -1 else 1) else runecmp a b n
  | _, _, _ => 0
  end.

Definition snil : String := MkString 0 0 0 4 (Bytes (junk 4)).

Definition stringcmp_ (s1 s2 : String) : option Z :=
  let n1 := if len s1 <? 0 then - len s1 else len s1 in
  let n2 := if len s2 <? 0 then - len s2 else len s2 in
  let n := Z.to_nat (if n2 <? n1 then n2 else n1) in
  match data s1, data s2, len s1 <? 0, len s2 <? 0 with
  | Bytes a1, Bytes a2, false, false =>
      let r := strncmp a1 a2 n in Some (if r =? 0 then n1 - n2 else r)
  | Runes a1, Bytes a2, true, false =>
      let r := runecmp a1 (map i8 a2) n in Some (if r =? 0 then n1 - n2 else r)
  | Bytes a1, Runes a2, false, true =>
      let r := runecmp (map i8 a1) a2 n in Some (if r =? 0 then n1 - n2 else r)
  | Runes a1, Runes a2, true, true =>
      let r := runecmp a1 a2 n in Some (if r =? 0 then n1 - n2 else r)
  | _, _, _, _ => if Nat.eqb n 0 then Some (n1 - n2) else None
  end.

Definition stringcmp (o1 o2 : option positive) : M Z :=
  s1 ← match o1 with None => mret snil | Some p => str p end;
  s2 ← match o2 with None => mret snil | Some p => str p end;
  match stringcmp_ s1 s2 with Some r => mret r | None => fault end.

(** ** Strings and UTF *)

(** [string2c] of runes into [tmp], [l] bytes: the loop. *)
Fixpoint runes2c (r : list Z) : list Z :=
  match r with
  | [] => []
  | c :: r => (if c <? Runeself then [u8 c] else runetochar c) ++ runes2c r
  end.

(** The bytes the pointer leads to, up to the zero. *)
Definition string2c (o : option positive) : M (list Z) :=
  match o with
  | None => mret [0]
  | Some p =>
      s ← str p;
      if 0 <=? len s then
        put_ascii p (len s) [0];;
        get_ascii p 0 (len s + 1)
      else
        let l := - len s * UTFmax + UTFmax in
        room ← (fun v => Ret (tmproom (strs v) p l) v);
        if negb room then error exNomem
        else
          r ← get_runes p 0 (- len s);
          let bs := runes2c r ++ [0] in
          if zlen bs <=? l then mret bs else fault
  end.

(** [c2string]: the runes there are, then the runes themselves.  [None] is a
    load past [ecs]. *)
Fixpoint c2count (fuel : nat) (p : list Z) (nc : Z) : option Z :=
  match fuel with
  | O => None
  | S fuel =>
      match p with
      | [] => Some nc
      | c :: p' =>
          if c <? Runeself then c2count fuel p' (nc + 1)
          else
            full ← (if UTFmax <=? zlen p then Some true else fullrune p (zlen p));
            if full : bool then
              '(_, n) ← chartorune p;
              c2count fuel (drop (Z.to_nat n) p) (nc + 1)
            else Some nc
      end
  end.

Fixpoint c2runes (nc : nat) (cs : list Z) : option (list Z) :=
  match nc with
  | O => Some []
  | S nc =>
      '(r, n) ← chartorune cs;
      rs ← c2runes nc (drop (Z.to_nat n) cs);
      Some (r :: rs)
  end.

(** The bytes before the first that is not ascii. *)
Fixpoint asciis (cs : list Z) : nat :=
  match cs with
  | [] => O
  | c :: cs => if Runeself <=? c then O else S (asciis cs)
  end.

Definition c2string (cs : list Z) : M positive :=
  let na := asciis cs in
  if Nat.eqb na (length cs) then
    ns ← newstring (zlen cs);
    put_ascii ns 0 cs;;
    mret ns
  else
    match c2count (S (length cs)) (drop na cs) (Z.of_nat na) with
    | None => fault
    | Some nc =>
        ns ← newstring (nc * 2);
        mod_str ns (set_len (- nc));;
        halve_max ns;;
        match c2runes (Z.to_nat nc) cs with
        | None => fault
        | Some rs => put_runes ns 0 rs;; mret ns
        end
    end.

(** [mem2array]: a block for an array of [n] bytes. *)
Definition mem2array (n : Z) : M unit :=
  room ← (fun v => Ret (aroom (strs v) n) v);
  if room : bool then mret tt else error exHeap.

(** [cvtca]: the bytes of the array made.  A byte stored past its end is a
    fault. *)
Definition cvtca (s : Z) : M (list Z) :=
  o ← var s;
  match o with
  | None => mem2array 0;; mret []
  | Some p =>
      ss ← str p;
      if len ss <? 0 then
        r ← get_runes p 0 (- len ss);
        mem2array (runenlen r);;
        let bs := mbind runetochar r in
        if zlen bs <=? runenlen r then mret bs else fault
      else mem2array (len ss);; get_ascii p 0 (len ss)
  end.

(** [cvtac]; [a] is the array's bytes. *)
Definition cvtac (a : option (list Z)) (d : Z) : M unit :=
  ds ← match a with
       | Some cs => ns ← c2string cs; mret (Some ns)
       | None => mret None
       end;
  replace d ds.
End Ops.

End Str.
