(* ===== verification/StrProof.v ===== *)
(** * Limbo strings: what the operations do

    The characters a string stands for, the invariant of strings and pointers,
    and each operation against lists of characters: variables that share a
    string never see each other's changes. *)

From S2P Require Import Prelude Rune Str.
Import Str.

#[local] Open Scope Z_scope.

(** ** Running a computation *)

Definition wp {A} (m : M A) (Q : A -> vm -> Prop) (E : exn -> vm -> Prop) (v : vm) : Prop :=
  match m v with Ret a v' => Q a v' | Raise e v' => E e v' | Fault => False end.

Definition upd (p : positive) (s : String) (v : vm) : vm := set_strs (<[p := s]> (strs v)) v.

Section Wp.
Context {A B : Type} (E : exn -> vm -> Prop).

Lemma mwp_bind (m : M A) (k : A -> M B) Q v : wp m (fun a v' => wp (k a) Q E v') E v -> wp (m ≫= k) Q E v.
Proof. unfold wp, mbind, m_bind. by destruct (m v). Qed.

Lemma mwp_mono (m : M A) (Q Q' : A -> vm -> Prop) (E' : exn -> vm -> Prop) v :
  wp m Q E v -> (forall a w, Q a w -> Q' a w) -> (forall e w, E e w -> E' e w) -> wp m Q' E' v.
Proof. unfold wp. intros Hm HQ HE. destruct (m v); auto. Qed.

Lemma mwp_ret (a : A) Q v : Q a v -> wp (mret a) Q E v.
Proof. done. Qed.

Lemma wp_error e (Q : A -> vm -> Prop) v : E e v -> wp (error e) Q E v.
Proof. done. Qed.

Lemma wp_str p s Q v : strs v !! p = Some s -> Q s v -> wp (str p) Q E v.
Proof. intros Hp HQ. unfold wp, str. by rewrite Hp. Qed.

Lemma wp_mod_str p s f Q v : strs v !! p = Some s -> Q tt (upd p (f s) v) -> wp (mod_str p f) Q E v.
Proof. intros Hp HQ. unfold wp, mod_str, str, mbind, m_bind. by rewrite Hp. Qed.

Lemma wp_var d Q v : Q (vars v !! d) v -> wp (var d) Q E v.
Proof. done. Qed.

Lemma wp_newstring `{Allocator} nb Q v : 0 <= nb ->
  (forall n p, nb <= n -> n + 4 < 2 ^ 31 -> strs v !! p = None ->
    Q p (upd p (MkString 1 nb n (n + 4) (Bytes (junk (n + 4)))) v)) ->
  E exHeap v -> wp (newstring nb) Q E v.
Proof.
  intros Hnb HQ HE. unfold wp, newstring. destruct (room (strs v) nb) as [n|] eqn:Er; [| done].
  destruct (room_ge _ _ _ Hnb Er). apply HQ; [done | done |].
  apply not_elem_of_dom, is_fresh.
Qed.

Lemma upd_upd p s1 s2 v : upd p s2 (upd p s1 v) = upd p s2 v.
Proof. unfold upd, set_strs. cbn. by rewrite insert_insert_eq. Qed.

Lemma lookup_upd p s v : strs (upd p s v) !! p = Some s.
Proof. apply lookup_insert_eq. Qed.

Lemma lookup_upd_ne p q s v : q <> p -> strs (upd p s v) !! q = strs v !! q.
Proof. intros Hne. by apply lookup_insert_ne. Qed.

Lemma lookup_upd_new p q s s' v : strs v !! p = None -> strs v !! q = Some s' -> strs (upd p s v) !! q = Some s'.
Proof. intros Hp Hq. rewrite lookup_upd_ne; [done | congruence]. Qed.
End Wp.

(** ** Characters *)

Definition text (s : String) : list Z :=
  match data s with
  | Bytes b => take (Z.to_nat (len s)) b
  | Runes r => take (Z.to_nat (- len s)) r
  end.

Abbreviation is_ascii c := (0 <= c < Runeself).

Definition ok (s : String) : Prop :=
  0 <= max s /\ cap s < 2 ^ 31 /\
  match data s with
  | Bytes b => zlen b = cap s /\ 0 <= len s <= max s /\ max s + 4 <= cap s /\ Forall (fun c => is_ascii c) (text s)
  | Runes r => zlen r = cap s / 2 /\ - cap s <= 2 * len s <= 0 /\ 2 * max s + 4 <= cap s /\
      Forall (fun c => is_rune c) (text s)
  end.

Section Splice.

Lemma length_junk n : zlen (junk n) = Z.max 0 n.
Proof. unfold junk. rewrite length_replicate. lia. Qed.

Lemma length_splice l off xs : 0 <= off -> off + zlen xs <= zlen l -> zlen (splice l off xs) = zlen l.
Proof. intros. unfold splice. rewrite !length_app, length_take, length_drop. lia. Qed.

Lemma take_splice_end l off xs n : 0 <= off -> off + zlen xs <= zlen l -> (Z.to_nat off + length xs)%nat = n ->
  take n (splice l off xs) = take (Z.to_nat off) l ++ xs.
Proof.
  intros H1 H2 <-. unfold splice. rewrite app_assoc, take_app_length'; [done |].
  rewrite length_app, length_take. lia.
Qed.

Lemma take_splice_one l off x n : 0 <= off < n -> n <= zlen l ->
  take (Z.to_nat n) (splice l off [x]) = <[Z.to_nat off := x]> (take (Z.to_nat n) l).
Proof.
  intros H1 H2. unfold splice.
  assert (forall (k : list Z), (Z.to_nat off < length k)%nat ->
    <[Z.to_nat off := x]> k = take (Z.to_nat off) k ++ [x] ++ drop (Z.to_nat off + 1)%nat k) as Hins.
  { intros k Hk. rewrite insert_take_drop by done. cbn. by rewrite Nat.add_1_r. }
  cbn [length]. rewrite <- Hins by lia. apply take_insert_lt. lia.
Qed.

Lemma length_slice l off n : 0 <= off -> 0 <= n -> off + n <= zlen l -> zlen (slice l off n) = n.
Proof. intros. unfold slice. rewrite length_take, length_drop. lia. Qed.

Lemma map_u8_id xs : Forall (fun c => is_ascii c) xs -> map u8 xs = xs.
Proof.
  induction 1 as [|x xs Hx _ IH]; [done |]. cbn [map]. rewrite IH, wrapu_id; [done |].
  unfold Runeself in Hx. lia.
Qed.

Lemma map_u16_id xs : Forall (fun c => is_rune c) xs -> map u16 xs = xs.
Proof. induction 1 as [|x xs Hx _ IH]; [done |]. cbn [map]. rewrite IH, wrapu_id; [done | lia]. Qed.

Lemma ascii_runes xs : Forall (fun c => is_ascii c) xs -> Forall (fun c => is_rune c) xs.
Proof. intros H. eapply Forall_impl; [exact H |]. unfold Runeself. cbn. lia. Qed.

Lemma slice_all l : slice l 0 (zlen l) = l.
Proof. unfold slice. rewrite drop_0. apply firstn_all2. lia. Qed.
End Splice.

Section Strings.

Lemma text_length s : ok s -> zlen (text s) = Z.abs (len s).
Proof.
  intros (Hm & Hc & Hd). unfold text. destruct (data s); rewrite length_take; destruct Hd as (Hl & Hn & Hr & _);
    [lia |]. assert (- len s <= cap s / 2) by (apply Z.div_le_lower_bound; lia). lia.
Qed.

Lemma text_ascii s : ok s -> 0 <= len s -> Forall (fun c => is_ascii c) (text s).
Proof.
  intros Ho Hl. pose proof (text_length s Ho) as Ht. destruct Ho as (Hm & Hc & Hd). destruct (data s).
  - apply Hd.
  - assert (text s = []) as ->; [| constructor]. destruct Hd as (_ & ? & _). apply length_zero_iff_nil. lia.
Qed.

Lemma text_runes s : ok s -> Forall (fun c => is_rune c) (text s).
Proof.
  intros Ho. pose proof Ho as (Hm & Hc & Hd). destruct (data s).
  - apply ascii_runes, text_ascii; [done |]. apply Hd.
  - apply Hd.
Qed.

Lemma slice_take l off n k : 0 <= off -> 0 <= n -> off + n <= k -> slice (take (Z.to_nat k) l) off n = slice l off n.
Proof.
  intros H1 H2 H3. unfold slice. rewrite skipn_firstn_comm, take_take. f_equal. lia.
Qed.

Lemma slice_0 l off : slice l off 0 = [].
Proof. done. Qed.

Section Access.
Context (E : exn -> vm -> Prop).

Lemma wp_get_ascii p s off n (Q : list Z -> vm -> Prop) v : strs v !! p = Some s -> ok s -> 0 <= off -> 0 <= n ->
  (n = 0 /\ off <= Z.abs (len s) \/ 0 <= len s /\ off + n <= len s) ->
  Q (slice (text s) off n) v -> wp (get_ascii p off n) Q E v.
Proof.
  intros Hp (Hm & Hc & Hd) Hoff Hn Hln HQ. unfold get_ascii. apply mwp_bind, (wp_str _ _ s); [done |].
  unfold text in HQ. destruct (data s).
  - destruct Hd as (Hl & Hlen & Hmx & _). rewrite slice_take in HQ by lia.
    rewrite !(proj2 (Z.leb_le _ _)) by lia. by apply mwp_ret.
  - destruct Hd as (Hl & Hlen & Hmx & _). assert (n = 0) as -> by lia. by apply mwp_ret.
Qed.

Lemma wp_get_runes p s off n (Q : list Z -> vm -> Prop) v : strs v !! p = Some s -> ok s -> 0 <= off -> 0 <= n ->
  (n = 0 /\ off <= Z.abs (len s) \/ len s <= 0 /\ off + n <= - len s) ->
  Q (slice (text s) off n) v -> wp (get_runes p off n) Q E v.
Proof.
  intros Hp (Hm & Hc & Hd) Hoff Hn Hln HQ. unfold get_runes. apply mwp_bind, (wp_str _ _ s); [done |].
  unfold text in HQ. destruct (data s).
  - destruct Hd as (Hl & Hlen & Hmx & _). assert (n = 0) as -> by lia. by apply mwp_ret.
  - destruct Hd as (Hl & Hlen & Hmx & _). rewrite slice_take in HQ by lia.
    rewrite !(proj2 (Z.leb_le _ _)) by lia. by apply mwp_ret.
Qed.

Lemma wp_put_ascii p s off xs (Q : unit -> vm -> Prop) v : strs v !! p = Some s -> 0 <= off ->
  off + zlen xs <= cap s ->
  Q tt (upd p (set_data (Bytes (splice (as_ascii s) off (map u8 xs))) s) v) -> wp (put_ascii p off xs) Q E v.
Proof.
  intros Hp Hoff Hl HQ. unfold put_ascii. apply mwp_bind, (wp_str _ _ s); [done |].
  rewrite !(proj2 (Z.leb_le _ _)) by lia. by apply (wp_mod_str _ _ s).
Qed.

Lemma wp_put_runes p s off xs (Q : unit -> vm -> Prop) v : strs v !! p = Some s -> 0 <= off ->
  2 * (off + zlen xs) <= cap s ->
  Q tt (upd p (set_data (Runes (splice (as_runes s) off (map u16 xs))) s) v) -> wp (put_runes p off xs) Q E v.
Proof.
  intros Hp Hoff Hl HQ. unfold put_runes. apply mwp_bind, (wp_str _ _ s); [done |].
  rewrite (proj2 (Z.leb_le 0 off)), (proj2 (Z.leb_le (2 * _) _)) by lia. by apply (wp_mod_str _ _ s).
Qed.

(** A routine that makes a string of the characters [t]. *)
Definition makes (t : list Z) (Q : positive -> vm -> Prop) (v : vm) : Prop :=
  forall p s, strs v !! p = None -> ok s -> text s = t -> ref s = 1 -> Q p (upd p s v).
End Access.

(** *** Strings as they are built *)

Lemma splice_splice n xs ys : zlen xs + zlen ys <= n ->
  splice (splice (junk n) 0 xs) (zlen xs) ys = splice (junk n) 0 (xs ++ ys).
Proof.
  intros Hl. unfold splice. rewrite Nat2Z.id, !take_0, !app_nil_l. cbn [Z.to_nat].
  rewrite take_app_length, <- app_assoc. do 2 f_equal. rewrite drop_app_ge by lia.
  rewrite drop_drop. f_equal. rewrite length_app. lia.
Qed.

Definition narrow (l m : Z) (xs : list Z) : String := MkString 1 l m (m + 4) (Bytes (splice (junk (m + 4)) 0 xs)).
Definition broad (l m c : Z) (xs : list Z) : String := MkString 1 (- l) m c (Runes (splice (junk (c / 2)) 0 xs)).

Lemma narrow_ok l m xs : zlen xs = l -> l <= m -> m + 4 < 2 ^ 31 -> Forall (fun c => is_ascii c) xs ->
  ok (narrow l m xs) /\ text (narrow l m xs) = xs.
Proof.
  intros Hl Hm Hc Ha. assert (text (narrow l m xs) = xs) as Ht.
  { unfold text, narrow. cbn. rewrite take_splice_end; [done | lia | rewrite length_junk; lia | simpl; lia]. }
  split; [| done]. unfold ok. rewrite Ht. unfold narrow. cbn.
  rewrite length_splice by (rewrite ?length_junk; lia). rewrite length_junk. split; [lia |]. split; [lia |].
  split; [lia |]. split; [lia |]. split; [lia | done].
Qed.

Lemma broad_ok l m c xs : zlen xs = l -> l <= m -> 2 * m + 4 <= c -> c < 2 ^ 31 -> Forall (fun c => is_rune c) xs ->
  ok (broad l m c xs) /\ text (broad l m c xs) = xs.
Proof.
  intros Hl Hm Hc Hc' Ha. assert (l <= c / 2) by (apply Z.div_le_lower_bound; lia).
  assert (0 <= c / 2) by lia.
  assert (text (broad l m c xs) = xs) as Ht.
  { unfold text, broad. cbn. rewrite take_splice_end; [done | lia | rewrite length_junk; lia | simpl; lia]. }
  split; [| done]. unfold ok. rewrite Ht. unfold broad. cbn.
  rewrite length_splice by (rewrite ?length_junk; lia). rewrite length_junk. split; [lia |]. split; [lia |].
  split; [lia |]. split; [lia |]. split; [lia | done].
Qed.

Lemma halved n : 0 <= n -> 2 * (n / 2) + 4 <= n + 4 /\ n < 2 * (n / 2) + 2.
Proof. intros. pose proof (Z.div_mod n 2). pose proof (Z.mod_pos_bound n 2). lia. Qed.
End Strings.

(** ** The invariant *)

(** No more cells hold [p] than [n]. *)
Definition at_most (v : vm) (p : positive) (n : Z) : Prop :=
  forall l, NoDup l -> Forall (fun a => vars v !! a = Some p) l -> zlen l <= n.

(** Pointers lead to strings, strings are in order and counted, and [x], if
    any, is counted once more than there are cells. *)
Record wf_ (x : option positive) (v : vm) : Prop := {
  w_var a p : vars v !! a = Some p -> is_Some (strs v !! p);
  w_ok p s : strs v !! p = Some s -> ok s;
  w_ref p s : strs v !! p = Some s -> at_most v p (ref s - if decide (x = Some p) then 1 else 0);
}.

Abbreviation wf := (wf_ None).

(** The characters a cell stands for; [None] is nil. *)
Definition val (v : vm) (a : Z) : option (list Z) := p ← vars v !! a; text <$> strs v !! p.

Definition set_val (d : Z) (t : option (list Z)) (f : Z -> option (list Z)) (a : Z) : option (list Z) :=
  if decide (a = d) then t else f a.

Section Invariant.

Lemma wf_weaken x v : wf_ x v -> wf v.
Proof.
  intros []. split; [done | done |]. intros p s Hp l Hnd Hl. pose proof (w_ref0 p s Hp l Hnd Hl) as H.
  destruct (decide (None = Some p)); [done |]. case_decide; lia.
Qed.

Lemma ref_pos x v a p s : wf_ x v -> vars v !! a = Some p -> strs v !! p = Some s ->
  1 <= ref s - if decide (x = Some p) then 1 else 0.
Proof.
  intros W Ha Hp. apply (w_ref _ _ W p s Hp [a]); [apply NoDup_singleton | by constructor].
Qed.

(** Two cells that hold a string that is counted once are one. *)
Lemma unshared v a b p s : wf v -> vars v !! a = Some p -> vars v !! b = Some p -> strs v !! p = Some s ->
  ref s <= 1 -> a = b.
Proof.
  intros W Ha Hb Hp Hr. destruct (decide (a = b)) as [| Hne]; [done |].
  assert (zlen [a; b] <= ref s - if decide (None = Some p) then 1 else 0) as H.
  { apply (w_ref _ _ W p s Hp); [| by repeat constructor]. apply NoDup_cons. split; [set_solver | apply NoDup_singleton]. }
  rewrite decide_False in H by done. simpl in H. lia.
Qed.

(** A new string. *)
Lemma wf_new p s v : wf v -> strs v !! p = None -> ok s -> ref s = 1 -> wf_ (Some p) (upd p s v).
Proof.
  intros W Hp Ho Hr. assert (forall a, vars v !! a <> Some p) as Hna.
  { intros a Ha. destruct (w_var _ _ W a p Ha). congruence. }
  split; cbn.
  - intros a q Ha. destruct (decide (q = p)) as [-> | Hne]; [by destruct (Hna a) |].
    rewrite lookup_insert_ne by done. by apply (w_var _ _ W a).
  - intros q s' Hq. apply lookup_insert_Some in Hq as [[<- <-] | [Hne Hq]]; [done | by apply (w_ok _ _ W q)].
  - intros q s' Hq l Hnd Hl. cbn in Hl. apply lookup_insert_Some in Hq as [[<- <-] | [Hne Hq]].
    + rewrite decide_True, Hr by done. destruct l as [|a l]; [done |]. apply Forall_cons in Hl as [Ha _].
      by destruct (Hna a).
    + rewrite decide_False by congruence. pose proof (w_ref _ _ W q s' Hq l Hnd Hl) as H.
      by rewrite decide_False in H by done.
Qed.

Lemma val_new p s v a : wf v -> strs v !! p = None -> val (upd p s v) a = val v a.
Proof.
  intros W Hp. unfold val, upd. cbn. destruct (vars v !! a) as [q|] eqn:Ha; [| done]. cbn.
  destruct (w_var _ _ W a q Ha). rewrite lookup_insert_ne; congruence.
Qed.

(** A string changes in place. *)
Lemma wf_upd x p s s' v : wf_ x v -> strs v !! p = Some s -> ok s' -> ref s' = ref s -> wf_ x (upd p s' v).
Proof.
  intros W Hp Ho Hr. split; cbn.
  - intros a q Ha. destruct (decide (q = p)) as [-> | Hne]; [rewrite lookup_insert_eq; eauto |].
    rewrite lookup_insert_ne by done. by apply (w_var _ _ W a).
  - intros q s1 Hq. apply lookup_insert_Some in Hq as [[<- <-] | [Hne Hq]]; [done | by apply (w_ok _ _ W q)].
  - intros q s1 Hq. apply lookup_insert_Some in Hq as [[<- <-] | [Hne Hq]]; [rewrite Hr |];
      by apply (w_ref _ _ W).
Qed.

Lemma val_upd d p s s' v a : wf v -> vars v !! d = Some p -> strs v !! p = Some s -> ref s <= 1 ->
  val (upd p s' v) a = set_val d (Some (text s')) (val v) a.
Proof.
  intros W Hd Hp Hr. unfold val, set_val, upd. cbn. case_decide as Ha.
  - subst a. rewrite Hd. cbn. by rewrite lookup_insert_eq.
  - destruct (vars v !! a) as [q|] eqn:Ea; [| done]. cbn. rewrite lookup_insert_ne; [done |].
    intros <-. by apply Ha, (unshared v a d p s).
Qed.

(** [replace] and [movp]: the pointer in a cell changes. *)
Lemma set_var_count v d p q n : at_most v q n ->
  at_most (set_vars (<[d := p]> (vars v)) v) q
    (n + (if decide (q = p) then 1 else 0) - if decide (vars v !! d = Some q) then 1 else 0).
Proof.
  intros Hn l Hnd Hl. cbn in Hl.
  destruct (decide (q = p)) as [-> | Hqp].
  - assert (zlen (filter (fun a => a <> d) l) + (if decide (vars v !! d = Some p) then 1 else 0) <= n) as H.
    { assert (Forall (fun a => vars v !! a = Some p) (filter (fun a => a <> d) l)) as Hf.
      { apply Forall_forall. intros a [Ha Hin]%list_elem_of_filter. eapply Forall_forall in Hl; [| exact Hin].
        cbv beta in Hl. by rewrite lookup_insert_ne in Hl. }
      case_decide as Hd.
      - assert (zlen (d :: filter (fun a => a <> d) l) <= n) as H; [| cbn [length] in H; lia].
        apply Hn; [| by constructor]. apply NoDup_cons. split; [| by apply NoDup_filter].
        rewrite list_elem_of_filter. tauto.
      - rewrite Z.add_0_r. apply Hn; [by apply NoDup_filter | done]. }
    assert (zlen l <= zlen (filter (fun a => a <> d) l) + 1) as H2; [| lia].
    assert (l ⊆ d :: filter (fun a => a <> d) l) as Hsub.
    { intros a Ha. destruct (decide (a = d)) as [-> | ]; [by left |]. right. by apply list_elem_of_filter. }
    pose proof (submseteq_length _ _ (NoDup_submseteq _ _ Hnd Hsub)) as H3. cbn [length] in H3. lia.
  - assert (forall a, a ∈ l -> a <> d) as Hne.
    { intros a Ha ->. eapply Forall_forall in Hl; [| exact Ha]. cbv beta in Hl. rewrite lookup_insert_eq in Hl. congruence. }
    assert (Forall (fun a => vars v !! a = Some q) l) as Hf.
    { apply Forall_forall. intros a Ha. eapply Forall_forall in Hl; [| exact Ha]. cbv beta in Hl.
      rewrite lookup_insert_ne in Hl; [done |]. intros <-. by apply (Hne d Ha). }
    case_decide as Hd; [| pose proof (Hn l Hnd Hf); lia].
    assert (zlen (d :: l) <= n) as H; [| cbn [length] in H; lia].
    apply Hn; [| by constructor]. apply NoDup_cons. split; [| done]. intros Hin. by apply (Hne d Hin).
Qed.

Lemma del_var_count v d q n : at_most v q n ->
  at_most (set_vars (delete d (vars v)) v) q (n - if decide (vars v !! d = Some q) then 1 else 0).
Proof.
  intros Hn l Hnd Hl. cbn in Hl.
  assert (forall a, a ∈ l -> a <> d /\ vars v !! a = Some q) as Hne.
  { intros a Ha. eapply Forall_forall in Hl; [| exact Ha]. cbv beta in Hl.
    apply lookup_delete_Some in Hl as [? ?]. auto. }
  assert (Forall (fun a => vars v !! a = Some q) l) as Hf by (apply Forall_forall; intros a Ha; by apply Hne).
  case_decide as Hd; [| pose proof (Hn l Hnd Hf); lia].
  assert (zlen (d :: l) <= n) as H; [| cbn [length] in H; lia].
  apply Hn; [| by constructor]. apply NoDup_cons. split; [| done]. intros Hin. by apply (Hne d Hin).
Qed.
End Invariant.

Section Pointers.

(** Letting go of the string that cell [d] holds: the cell must change next. *)
Lemma destroy_spec x v d q s : wf_ x v -> vars v !! d = Some q -> strs v !! q = Some s ->
  exists m, destroy (Some q) v = Ret tt (set_strs m v) /\
    (forall p, p <> q -> m !! p = strs v !! p) /\
    ((m !! q = Some (set_ref (ref s - 1) s)) \/
     (m !! q = None /\ ref s <= 1 /\ x <> Some q /\ forall a, vars v !! a = Some q -> a = d)).
Proof.
  intros W Hd Hq. pose proof (ref_pos x v d q s W Hd Hq) as Hr.
  unfold destroy, str, mod_str, mbind, m_bind, str. rewrite Hq. destruct (Z.ltb_spec 0 (ref s - 1)) as [Hl | Hl].
  - exists (<[q := set_ref (ref s - 1) s]> (strs v)). rewrite Hq. split; [done |].
    split; [intros p Hp; by apply lookup_insert_ne |]. left. apply lookup_insert_eq.
  - exists (delete q (strs v)). split; [done |]. split; [intros p Hp; by apply lookup_delete_ne |]. right.
    split; [apply lookup_delete_eq |]. split; [lia |].
    assert (x <> Some q) as Hx by (intros ->; rewrite decide_True in Hr by done; lia).
    split; [done |]. intros a Ha. symmetry. eapply (unshared v d a q s); [by eapply wf_weaken | done | done | done | lia].
Qed.

Lemma ok_set_ref n s : ok s -> ok (set_ref n s) /\ text (set_ref n s) = text s.
Proof. done. Qed.

(** The pointer in a cell after [replace], and what the cell stands for. *)
Definition put_var (d : Z) (o : option positive) (v : vm) : vm :=
  set_vars (match o with Some p => <[d := p]> (vars v) | None => delete d (vars v) end) v.

Lemma put_var_count d o v q n : at_most v q n ->
  at_most (put_var d o v) q
    (n + (if decide (o = Some q) then 1 else 0) - if decide (vars v !! d = Some q) then 1 else 0).
Proof.
  intros Hn. unfold put_var. destruct o as [p|].
  - pose proof (set_var_count v d p q n Hn) as H. destruct (decide (q = p)) as [-> |].
    + by rewrite (decide_True (P := Some p = Some p)) by done.
    + by rewrite (decide_False (P := Some p = Some q)) by congruence.
  - pose proof (del_var_count v d q n Hn) as H. rewrite (decide_False (P := None = Some q)) by done. by rewrite Z.add_0_r.
Qed.

Lemma put_var_lookup d o v a p : vars (put_var d o v) !! a = Some p ->
  (a = d /\ o = Some p) \/ (a <> d /\ vars v !! a = Some p).
Proof.
  unfold put_var. cbn. destruct o as [p'|]; intros Ha.
  - apply lookup_insert_Some in Ha as [[<- <-] | [? Ha]]; eauto.
  - apply lookup_delete_Some in Ha as [? Ha]. eauto.
Qed.

Lemma put_var_ne d o v a : a <> d -> vars (put_var d o v) !! a = vars v !! a.
Proof.
  intros Ha. unfold put_var. cbn. destruct o; [by rewrite lookup_insert_ne | by rewrite lookup_delete_ne].
Qed.

Lemma put_var_eq d o v : vars (put_var d o v) !! d = o.
Proof. unfold put_var. cbn. destruct o; [apply lookup_insert_eq | apply lookup_delete_eq]. Qed.

(** Cell [d] gets pointer [o], which is counted already, and what it held is
    let go: before or after, the result is the same store. *)
Lemma wf_put_var d o v m : wf_ o v -> (forall p, o = Some p -> is_Some (strs v !! p)) ->
  match vars v !! d with
  | None => m = strs v
  | Some q => exists s, strs v !! q = Some s /\ (forall p, p <> q -> m !! p = strs v !! p) /\
      ((m !! q = Some (set_ref (ref s - 1) s)) \/
       (m !! q = None /\ ref s <= 1 /\ o <> Some q /\ forall a, vars v !! a = Some q -> a = d))
  end ->
  let v' := put_var d o (set_strs m v) in
  wf v' /\ forall a, val v' a = set_val d (p ← o; text <$> strs v !! p) (val v) a.
Proof.
  intros W Ho Hm v'.
  assert (forall p, (forall a, vars v' !! a = Some p -> True) -> forall s', m !! p = Some s' ->
    exists s, strs v !! p = Some s /\ text s' = text s /\ ok s' /\
      ref s' = ref s - if decide (vars v !! d = Some p) then 1 else 0) as Hold.
  { intros p _ s' Hp. destruct (vars v !! d) as [q|].
    - destruct Hm as (s & Hq & Hne & Hc). destruct (decide (p = q)) as [-> | Hpq].
      + destruct Hc as [Hc | [Hc _]]; [| congruence]. rewrite Hc in Hp. injection Hp as <-. exists s.
        rewrite decide_True by done. split; [done |]. split; [done |]. split; [by apply (w_ok _ _ W q s) | done].
      + rewrite Hne in Hp by done. exists s'. rewrite decide_False by congruence.
        split; [done |]. split; [done |]. split; [by apply (w_ok _ _ W p) | lia].
    - subst m. exists s'. rewrite decide_False by done. split; [done |]. split; [done |]. split; [by apply (w_ok _ _ W p) | lia]. }
  assert (forall a p, vars v' !! a = Some p -> exists s s', strs v !! p = Some s /\ m !! p = Some s' /\ text s' = text s) as Hlook.
  { intros a p Ha. assert (is_Some (strs v !! p)) as [s Hs].
    { apply put_var_lookup in Ha as [[_ Ho'] | [_ Ha]]; [by apply Ho | by apply (w_var _ _ W a)]. }
    assert (is_Some (m !! p)) as [s' Hs'].
    { destruct (vars v !! d) as [q|]; [| subst m; eauto]. destruct Hm as (s0 & Hq & Hne & Hc).
      destruct (decide (p = q)) as [-> | Hpq]; [| rewrite Hne by done; eauto].
      destruct Hc as [Hc | (_ & _ & Hno & Hun)]; [eauto |]. exfalso.
      apply put_var_lookup in Ha as [[_ Ho'] | [Hd Ha]]; [done |]. by apply Hd, Hun. }
    destruct (Hold p ltac:(done) s' Hs') as (s1 & H1 & H2 & _). simplify_eq. eauto. }
  split.
  - split.
    + intros a p Ha. destruct (Hlook a p Ha) as (s & s' & _ & Hp & _). by exists s'.
    + intros p s' Hp. cbn in Hp. by destruct (Hold p ltac:(done) s' Hp) as (s & _ & _ & Hok & _).
    + intros p s' Hp. cbn in Hp. destruct (Hold p ltac:(done) s' Hp) as (s & Hs & _ & _ & Hr).
      rewrite decide_False by done. rewrite Z.sub_0_r, Hr.
      pose proof (put_var_count d o (set_strs m v) p _ (w_ref _ _ W p s Hs)) as H. cbn in H.
      intros l Hnd Hl. specialize (H l Hnd Hl). destruct (decide (o = Some p)); lia.
  - intros a. unfold set_val. case_decide as Had.
    + subst a. assert (vars v' !! d = o) as Hvd by apply put_var_eq. unfold val. rewrite Hvd.
      destruct o as [p|]; [| done]. destruct (Hlook d p Hvd) as (s & s' & Hs & Hs' & Ht).
      change (strs v') with m. cbn. rewrite Hs, Hs'. cbn. by rewrite Ht.
    + assert (vars v' !! a = vars v !! a) as Hva by (by apply (put_var_ne d o (set_strs m v))). unfold val. rewrite Hva.
      destruct (vars v !! a) as [p|]; [| done]. destruct (Hlook a p Hva) as (s & s' & Hs & Hs' & Ht).
      change (strs v') with m. cbn. rewrite Hs, Hs'. cbn. by rewrite Ht.
Qed.

Lemma destroy_put_var o' d o m v : destroy o' v = Ret tt (set_strs m v) ->
  destroy o' (put_var d o v) = Ret tt (put_var d o (set_strs m v)).
Proof.
  destruct o' as [q|].
  - unfold destroy, str, mod_str, modify, mbind, m_bind, str. cbn [strs put_var set_vars].
    destruct (strs v !! q) as [sq|] eqn:E; [| done]. destruct (0 <? ref sq - 1); cbn; rewrite ?E; cbn; intros [= <-]; done.
  - intros Hd. assert (v = set_strs m v) as Hm by (by injection Hd).
    change (Ret tt (put_var d o v) = Ret tt (put_var d o (set_strs m v))). by rewrite <- Hm.
Qed.

Lemma replace_spec d o v : wf_ o v -> (forall p, o = Some p -> is_Some (strs v !! p)) ->
  exists v', replace d o v = Ret tt v' /\ wf v' /\
    (forall a, val v' a = set_val d (p ← o; text <$> strs v !! p) (val v) a) /\
    vars v' !! d = o /\ (forall p, vars v !! d <> Some p -> strs v' !! p = strs v !! p).
Proof.
  intros W Ho. unfold replace, var, mbind, m_bind. destruct (vars v !! d) as [q|] eqn:Hd.
  - destruct (w_var _ _ W d q Hd) as [s Hq].
    destruct (destroy_spec o v d q s W Hd Hq) as (m & -> & Hne & Hc).
    exists (put_var d o (set_strs m v)). split; [done |].
    destruct (wf_put_var d o v m W Ho) as [W' Hv']; [rewrite Hd; eauto |].
    split; [done |]. split; [done |]. split; [apply put_var_eq |]. intros p Hp. apply Hne. congruence.
  - exists (put_var d o v). split; [done |]. destruct v as [m vs].
    destruct (wf_put_var d o (MkVm m vs) m W Ho) as [W' Hv']; [by rewrite Hd |].
    split; [done |]. split; [done |]. split; [apply put_var_eq | done].
Qed.
End Pointers.

(** ** Operations against lists of characters *)

Section Spec.
Context `{Allocator}.

(** What an operation on the strings leaves when it raises: nothing has
    changed for any cell. *)
Definition same (v v' : vm) : Prop := wf v' /\ forall a, val v' a = val v a.

Lemma same_refl v : wf v -> same v v.
Proof. done. Qed.

Lemma same_new p s v : wf v -> strs v !! p = None -> ok s -> ref s = 1 -> same v (upd p s v).
Proof.
  intros W Hp Ho Hr. split; [by eapply wf_weaken, wf_new | intros a; by apply val_new].
Qed.

Lemma movp_spec s d v : wf v ->
  exists v', movp s d v = Ret tt v' /\ wf v' /\ forall a, val v' a = set_val d (val v s) (val v) a.
Proof.
  intros W. unfold movp. set (o := vars v !! s).
  assert (exists v1, (match o with Some p => mod_str p (fun s => set_ref (ref s + 1) s) | None => mret tt end) v = Ret tt v1 /\
    vars v1 = vars v /\ wf_ o v1 /\ (forall p, o = Some p -> is_Some (strs v1 !! p)) /\
    (forall p, text <$> strs v1 !! p = text <$> strs v !! p)) as (v1 & Hrun & Hv & W1 & Ho & Ht).
  { destruct o as [p|] eqn:Eo; [| by exists v]. destruct (w_var _ _ W s p Eo) as [sp Hp].
    exists (upd p (set_ref (ref sp + 1) sp) v). split; [unfold mod_str, str, mbind, m_bind; by rewrite Hp |].
    split; [done |]. split; [| split].
    - split; cbn.
      + intros a q Ha. destruct (decide (q = p)) as [-> | Hne]; [rewrite lookup_insert_eq; eauto |].
        rewrite lookup_insert_ne by done. by apply (w_var _ _ W a).
      + intros q s1 Hq. apply lookup_insert_Some in Hq as [[<- <-] | [Hne Hq]]; [by apply (w_ok _ _ W p sp) | by apply (w_ok _ _ W q)].
      + intros q s1 Hq. apply lookup_insert_Some in Hq as [[<- <-] | [Hne Hq]].
        * rewrite decide_True by done. pose proof (w_ref _ _ W p sp Hp) as Hr. rewrite decide_False in Hr by done.
          cbn. replace (ref sp + 1 - 1) with (ref sp - 0) by lia. exact Hr.
        * rewrite decide_False by congruence. pose proof (w_ref _ _ W q s1 Hq) as Hr. by rewrite decide_False in Hr by done.
    - intros q [= <-]. rewrite lookup_upd. eauto.
    - intros q. cbn. destruct (decide (q = p)) as [-> | Hne]; [by rewrite lookup_insert_eq, Hp | by rewrite lookup_insert_ne]. }
  assert (forall a, val v1 a = val v a) as Hval.
  { intros a. unfold val. rewrite Hv. destruct (vars v !! a) as [q|]; [| done]. cbn. apply Ht. }
  assert ((p ← o; text <$> strs v1 !! p) = val v s) as Hvs.
  { rewrite <- Hval. unfold val. rewrite Hv. done. }
  unfold var, mbind, m_bind. fold o. rewrite Hrun. rewrite Hv.
  pose proof (fun o' m => destroy_put_var o' d o m v1) as Hdv.
  change (set_var d o v1) with (Ret tt (put_var d o v1)).
  destruct (vars v !! d) as [q|] eqn:Hd.
  - destruct (w_var _ _ W1 d q) as [sq Hq]; [by rewrite Hv |].
    destruct (destroy_spec o v1 d q sq W1 ltac:(by rewrite Hv) Hq) as (m & Hde & Hne & Hc).
    rewrite (Hdv _ _ Hde). eexists. split; [done |].
    destruct (wf_put_var d o v1 m W1 Ho) as [W2 Hv2]; [rewrite Hv, Hd; rewrite <- Hv; eauto |].
    split; [done |]. intros a. rewrite Hv2, Hvs. unfold set_val. case_decide; [done | apply Hval].
  - rewrite (Hdv None (strs v1)) by (by destruct v1). eexists. split; [done |].
    destruct (wf_put_var d o v1 (strs v1) W1 Ho) as [W2 Hv2]; [by rewrite Hv, Hd |].
    split; [done |]. intros a. rewrite Hv2, Hvs. unfold set_val. case_decide; [done | apply Hval].
Qed.

(** A routine that makes a string: it ends with a new string of the characters
    [t], or raises [exHeap] and nothing has changed. *)
Definition made (t : list Z) (v : vm) (Q : positive -> vm -> Prop) : Prop :=
  forall p s, strs v !! p = None -> ok s -> text s = t -> ref s = 1 -> Q p (upd p s v).

(** The steps of the routines. *)
Ltac fits := rewrite ?length_app; cbn [cap set_data set_len set_max max]; rewrite ?Z.div_mul by lia; lia.

Lemma wp_stringdup p s (Q : option positive -> vm -> Prop) (E : exn -> vm -> Prop) v :
  strs v !! p = Some s -> ok s ->
  (forall ns s1, strs v !! ns = None -> ok s1 -> text s1 = text s -> ref s1 = 1 -> len s1 = len s ->
     Q (Some ns) (upd ns s1 v)) ->
  E exHeap v -> wp (stringdup (Some p)) Q E v.
Proof.
  intros Hp Ho HQ HE. pose proof (text_length s Ho) as Hl. unfold stringdup. apply mwp_bind, (wp_str _ _ s); [done |].
  destruct (Z.leb_spec 0 (len s)) as [Hn | Hn].
  - apply mwp_bind, wp_newstring; [done | | done]. intros n ns Hnb Hmax Hns.
    apply mwp_bind, (wp_get_ascii _ _ s); [by apply lookup_upd_new | done | lia | done | right; lia |].
    assert (slice (text s) 0 (len s) = text s) as -> by (rewrite <- (slice_all (text s)) at 2; f_equal; lia).
    pose proof (text_ascii s Ho Hn) as Ha.
    apply mwp_bind. eapply wp_put_ascii; [apply lookup_upd | lia | cbn; lia |]. rewrite upd_upd, map_u8_id by done.
    destruct (narrow_ok (len s) n (text s)) as [Hok Ht]; [lia | done | done | done |].
    exact (HQ ns _ Hns Hok Ht eq_refl eq_refl).
  - apply mwp_bind, wp_newstring; [lia | | done]. intros n ns Hnb Hmax Hns.
    apply mwp_bind. eapply wp_mod_str; [apply lookup_upd |]. rewrite upd_upd.
    apply mwp_bind. eapply wp_mod_str; [apply lookup_upd |]. rewrite upd_upd.
    apply mwp_bind, (wp_get_runes _ _ s); [by apply lookup_upd_new | done | lia | lia | right; lia |].
    assert (slice (text s) 0 (- len s) = text s) as -> by (rewrite <- (slice_all (text s)) at 2; f_equal; lia).
    pose proof (text_runes s Ho) as Ha.
    apply mwp_bind. eapply wp_put_runes; [apply lookup_upd | lia | cbn; lia |]. rewrite upd_upd, map_u16_id by done.
    destruct (halved n) as [Hh1 Hh2]; [lia |].
    destruct (broad_ok (- len s) (n / 2) (n + 4) (text s)) as [Hok Ht]; [lia | lia | lia | done | done |].
    pose proof (HQ ns _ Hns Hok Ht eq_refl (Z.opp_involutive _)) as Hq. unfold broad in Hq. by rewrite Z.opp_involutive in Hq.
Qed.

Lemma wp_slicer p s start n (Q : option positive -> vm -> Prop) (E : exn -> vm -> Prop) v :
  strs v !! p = Some s -> ok s -> 0 <= start -> 0 <= n ->
  (if (n <? start) || (zlen (text s) <? n) then E exBounds v
   else made (slice (text s) start (n - start)) v (fun ns => Q (Some ns))) ->
  E exHeap v -> wp (slicer start n (Some p)) Q E v.
Proof.
  intros Hp Ho Hs Hn HQ HE. pose proof (text_length s Ho) as Hl. unfold slicer.
  apply mwp_bind, (wp_str _ _ s); [done |]. cbv zeta.
  assert (cap s < 2 ^ 31 /\ Z.abs (len s) <= cap s) as [Hc1 Hc2].
  { destruct Ho as (Hm & Hc & Hd). destruct (data s); lia. }
  assert (Z.abs (len s) = if len s <? 0 then - len s else len s) as Habs by (destruct (Z.ltb_spec (len s) 0); lia).
  destruct (Z.ltb_spec (len s) 0) as [Hneg | Hpos]; rewrite Hl, Habs in HQ;
    (destruct ((n <? start) || _) eqn:Hb; [by apply wp_error |]);
    apply orb_false_iff in Hb as [Hb1%Z.ltb_ge Hb2%Z.ltb_ge];
    (rewrite (wraps_id 32) by lia);
    assert (zlen (slice (text s) start (n - start)) = n - start) as Hsl by (apply length_slice; lia).
  - apply mwp_bind, wp_newstring; [lia | | done]. intros m ns Hnb Hmax Hns.
    apply mwp_bind. eapply wp_mod_str; [apply lookup_upd |]. rewrite upd_upd.
    apply mwp_bind. eapply wp_mod_str; [apply lookup_upd |]. rewrite upd_upd.
    apply mwp_bind, (wp_get_runes _ _ s); [by apply lookup_upd_new | done | lia | lia | right; lia |].
    assert (Forall (fun c => is_rune c) (slice (text s) start (n - start))) as Ha
      by (by apply Forall_take, Forall_drop, text_runes).
    apply mwp_bind. eapply wp_put_runes; [apply lookup_upd | lia | cbn; lia |]. rewrite upd_upd, map_u16_id by done.
    destruct (halved m) as [Hh1 Hh2]; [lia |].
    destruct (broad_ok (n - start) (m / 2) (m + 4) (slice (text s) start (n - start))) as [Hok Ht]; [lia | lia | lia | done | done |].
    exact (HQ ns _ Hns Hok Ht eq_refl).
  - apply mwp_bind, wp_newstring; [lia | | done]. intros m ns Hnb Hmax Hns.
    apply mwp_bind, (wp_get_ascii _ _ s); [by apply lookup_upd_new | done | lia | lia | right; lia |].
    assert (Forall (fun c => is_ascii c) (slice (text s) start (n - start))) as Ha
      by (by apply Forall_take, Forall_drop, text_ascii).
    apply mwp_bind. eapply wp_put_ascii; [apply lookup_upd | lia | cbn; lia |]. rewrite upd_upd, map_u8_id by done.
    destruct (narrow_ok (n - start) m (slice (text s) start (n - start))) as [Hok Ht]; [lia | done | done | done |].
    exact (HQ ns _ Hns Hok Ht eq_refl).
Qed.

(** The characters a narrow string stands for as runes, put into a new one. *)
Lemma wp_cvtup ns sn off p s (Q : unit -> vm -> Prop) (E : exn -> vm -> Prop) v :
  strs v !! ns = Some sn -> strs v !! p = Some s -> ok s -> 0 <= len s -> 0 <= off ->
  2 * (off + len s) <= cap sn ->
  Q tt (upd ns (set_data (Runes (splice (as_runes sn) off (text s))) sn) v) -> wp (cvtup ns off p) Q E v.
Proof.
  intros Hns Hp Ho Hl Hoff Hc HQ. pose proof (text_length s Ho) as Ht. unfold cvtup.
  apply mwp_bind, (wp_str _ _ s); [done |].
  apply mwp_bind, (wp_get_ascii _ _ s); [done | done | lia | done | right; lia |].
  assert (slice (text s) 0 (len s) = text s) as -> by (rewrite <- (slice_all (text s)) at 2; f_equal; lia).
  eapply wp_put_runes; [done | done | lia |]. rewrite map_u16_id; [done |]. by apply text_runes.
Qed.

(** [splitc]: the cell gets a string of its own with the same characters, wide
    if asked for. *)
Definition own (d : Z) (v v' : vm) (p : positive) (s : String) : Prop :=
  wf v' /\ vars v' !! d = Some p /\ strs v' !! p = Some s /\ ref s = 1 /\ ok s /\
  forall a, val v' a = val v a.

Lemma val_at v d p s : vars v !! d = Some p -> strs v !! p = Some s -> val v d = Some (text s).
Proof. intros Hd Hp. unfold val. rewrite Hd. cbn. by rewrite Hp. Qed.

Lemma own_replace d ns s1 v : wf v -> strs v !! ns = None -> ok s1 -> ref s1 = 1 -> val v d = Some (text s1) ->
  exists v', replace d (Some ns) (upd ns s1 v) = Ret tt v' /\ own d v v' ns s1.
Proof.
  intros W Hns Ho Hr Hv.
  destruct (replace_spec d (Some ns) (upd ns s1 v)) as (v' & Hrun & W' & Hval & Hd & Hs).
  - by apply wf_new.
  - intros p [= <-]. rewrite lookup_upd. eauto.
  - exists v'. split; [done |]. split; [done |]. split; [done |]. split; [| split; [done |]; split; [done |]].
    + rewrite Hs; [apply lookup_upd |]. cbn. intros Hd'. destruct (w_var _ _ W d ns Hd'). congruence.
    + intros a. rewrite Hval. unfold set_val. case_decide as Ha; [| by apply val_new].
      subst a. cbn. by rewrite lookup_insert_eq, Hv.
Qed.

Lemma wp_splitc d e p s (Q : positive -> vm -> Prop) (E : exn -> vm -> Prop) v :
  wf v -> vars v !! d = Some p -> strs v !! p = Some s ->
  (forall ns s1 v', own d v v' ns s1 -> text s1 = text s -> (len s1 = if e && (0 <? len s) then - len s else len s) ->
     Q ns v') ->
  E exHeap v -> wp (splitc d e) Q E v.
Proof.
  intros W Hd Hp HQ HE. pose proof (w_ok _ _ W p s Hp) as Ho. pose proof (text_length s Ho) as Hl.
  assert (forall ns s1, strs v !! ns = None -> ok s1 -> text s1 = text s -> ref s1 = 1 ->
    (len s1 = if e && (0 <? len s) then - len s else len s) ->
    wp (destroy (Some p);; set_var d (Some ns);; mret ns) Q E (upd ns s1 v)) as Hend.
  { intros ns s1 Hns Ho1 Ht Hr Hlen.
    destruct (own_replace d ns s1 v W Hns Ho1 Hr) as (v' & Hrun & Hown).
    { rewrite (val_at v d p s) by done. by rewrite Ht. }
    unfold replace, var, mbind, m_bind in Hrun. cbn [vars upd set_strs] in Hrun. rewrite Hd in Hrun.
    unfold wp, mbind, m_bind. destruct (destroy (Some p) (upd ns s1 v)) as [[] v1 | |]; [| done..].
    rewrite Hrun. by apply (HQ ns s1). }
  unfold splitc. apply mwp_bind, wp_var. rewrite Hd. apply mwp_bind, (wp_str _ _ s); [done |].
  apply mwp_bind. destruct (e && (0 <? len s)) eqn:He.
  - apply andb_true_iff in He as [_ Hpos%Z.ltb_lt].
    apply mwp_bind, wp_newstring; [lia | | done]. intros n ns Hnb Hmax Hns.
    apply mwp_bind. eapply wp_mod_str; [apply lookup_upd |]. rewrite upd_upd.
    apply mwp_bind. eapply wp_mod_str; [apply lookup_upd |]. rewrite upd_upd.
    apply mwp_bind. eapply (wp_cvtup _ _ _ _ s); [apply lookup_upd | by apply lookup_upd_new | done | lia | done | cbn; lia |].
    rewrite upd_upd. destruct (halved n) as [Hh1 Hh2]; [lia |].
    destruct (broad_ok (len s) (n / 2) (n + 4) (text s)) as [Hok Ht]; [lia | lia | lia | done | by apply text_runes |].
    apply mwp_ret. exact (Hend ns _ Hns Hok Ht eq_refl eq_refl).
  - apply (wp_stringdup p s); [done | done | | done]. intros ns s1 Hns Ho1 Ht Hr Hlen. by apply Hend.
Qed.

(** Storing a character: within the characters, just after them, or not. *)
Definition ains (t : list Z) (i c : Z) : option (list Z) :=
  if i <? zlen t then Some (<[Z.to_nat i := c]> t)
  else if i =? zlen t then Some (t ++ [c]) else None.

Definition placed (t : list Z) (i c : Z) (p : positive) (s : String) (v : vm)
    (Q : positive -> vm -> Prop) (E : exn -> vm -> Prop) : Prop :=
  match ains t i c with
  | Some t' => (forall s', ok s' -> ref s' = ref s -> text s' = t' -> Q p (upd p s' v)) /\ made t' v Q
  | None => E exBounds v
  end.

Lemma text_set_data_ascii s off xs n : zlen (as_ascii s) = cap s -> 0 <= off -> off + zlen xs = n -> n <= cap s ->
  text (set_len n (set_data (Bytes (splice (as_ascii s) off xs)) s)) = take (Z.to_nat off) (as_ascii s) ++ xs.
Proof. intros Hl Ho Hn Hc. unfold text. cbn. apply take_splice_end; lia. Qed.

Lemma as_runes_length s : ok s -> zlen (as_runes s) = cap s / 2.
Proof.
  intros (Hm & Hc & Hd). unfold as_runes. destruct (data s); [| apply Hd].
  rewrite length_junk. assert (0 <= cap s / 2); [| lia]. apply Z.div_pos; lia.
Qed.

Lemma as_ascii_length s : ok s -> zlen (as_ascii s) = cap s.
Proof. intros (Hm & Hc & Hd). unfold as_ascii. destruct (data s); [apply Hd |]. rewrite length_junk. lia. Qed.

Lemma text_as_runes s : ok s -> len s <= 0 -> text s = take (Z.to_nat (- len s)) (as_runes s).
Proof.
  intros (Hm & Hc & Hd) Hl. unfold text, as_runes. destruct (data s); [| done].
  replace (len s) with 0 by lia. done.
Qed.

Lemma text_as_ascii s : ok s -> 0 <= len s -> text s = take (Z.to_nat (len s)) (as_ascii s).
Proof.
  intros (Hm & Hc & Hd) Hl. unfold text, as_ascii. destruct (data s); [done |].
  replace (len s) with 0 by lia. done.
Qed.

(** A string after a store in place of runes. *)
Lemma ok_runes s m l rs : ok s -> 0 <= l -> 2 * l <= cap s -> 0 <= m -> 2 * m + 4 <= cap s -> zlen rs = cap s / 2 ->
  Forall (fun c => is_rune c) (take (Z.to_nat l) rs) ->
  ok (MkString (ref s) (- l) m (cap s) (Runes rs)) /\
  text (MkString (ref s) (- l) m (cap s) (Runes rs)) = take (Z.to_nat l) rs.
Proof.
  intros (Hm & Hc & _) Hl Hlc H1 H2 H3 H4. unfold ok, text. cbn. rewrite Z.opp_involutive.
  split; [| done]. repeat split; try lia; done.
Qed.

Lemma ok_bytes s l bs : ok s -> 0 <= l <= max s -> max s + 4 <= cap s -> zlen bs = cap s ->
  Forall (fun c => is_ascii c) (take (Z.to_nat l) bs) ->
  ok (MkString (ref s) l (max s) (cap s) (Bytes bs)) /\
  text (MkString (ref s) l (max s) (cap s) (Bytes bs)) = take (Z.to_nat l) bs.
Proof.
  intros (Hm & Hc & _) Hl H1 H3 H4. unfold ok, text. cbn. split; [| done]. repeat split; try lia; done.
Qed.

Lemma ok_max s : ok s -> 0 <= max s /\ max s + 4 <= cap s /\ 4 <= cap s.
Proof. intros (Hm & Hc & Hd). destruct (data s); lia. Qed.

Lemma ok_max_runes s : ok s -> len s < 0 -> 2 * max s + 4 <= cap s /\ - len s * 2 <= cap s.
Proof. intros (Hm & Hc & Hd) Hl. destruct (data s); lia. Qed.

Lemma wp_insc_rune p s r i (Q : positive -> vm -> Prop) (E : exn -> vm -> Prop) v :
  strs v !! p = Some s -> ok s -> len s <= 0 -> 0 <= i ->
  placed (text s) i (u16 r) p s v Q E -> E exHeap v -> wp (insc_rune p r i) Q E v.
Proof.
  intros Hp Ho Hl Hi HQ HE. pose proof (text_length s Ho) as Hlen. pose proof (as_runes_length s Ho) as Hrs.
  pose proof (text_as_runes s Ho Hl) as Htx. pose proof (ok_max s Ho) as (Hm0 & Hm1 & Hm2).
  assert (is_rune (u16 r)) as Hr by (by apply (wrapu_range 16)).
  assert (2 * - len s <= cap s) as Hcl2.
  { destruct (Z.eq_dec (len s) 0); [lia |]. destruct (ok_max_runes s Ho); lia. }
  assert (- len s <= cap s / 2) as Hcl by (apply Z.div_le_lower_bound; lia).
  assert (Forall (fun c => is_rune c) (text s)) as Hall by (by apply text_runes).
  unfold placed, ains in HQ. rewrite Hlen in HQ. replace (Z.abs (len s)) with (- len s) in HQ by lia.
  unfold insc_rune. apply mwp_bind, (wp_str _ _ s); [done |]. cbv zeta.
  destruct (Z.ltb_spec i (- len s)) as [Hlt | Hge].
  { destruct HQ as [HQ _]. apply mwp_bind. eapply wp_put_runes; [done | done | simpl; lia |]. apply mwp_ret.
    cbn [map].
    assert (take (Z.to_nat (- len s)) (splice (as_runes s) i [u16 r]) = <[Z.to_nat i := u16 r]> (text s)) as Ht.
    { rewrite take_splice_one by lia. by rewrite <- Htx. }
    assert (2 * max s + 4 <= cap s) by (destruct (ok_max_runes s Ho); lia).
    destruct (ok_runes s (max s) (- len s) (splice (as_runes s) i [u16 r])) as [Ho' Ht']; try done; try lia.
    - rewrite length_splice; cbn [length]; lia.
    - rewrite Ht. apply Forall_insert; done.
    - rewrite Z.opp_involutive in Ho', Ht'. rewrite Ht in Ht'. exact (HQ _ Ho' eq_refl Ht'). }
  destruct (Z.eqb_spec i (- len s)) as [Heq | Hne]; cbn [andb negb]; [| by apply wp_error].
  assert (Forall (fun c => is_rune c) (text s ++ [u16 r])) as Hall' by (apply Forall_app; split; [done | by constructor]).
  destruct HQ as [HQ Hmade]. destruct (Z.ltb_spec i (max s)) as [Hroom | Hfull].
  - set (m := if - len s =? 0 then max s / 2 else max s).
    assert (0 <= m /\ 2 * m + 4 <= cap s) as [Hm Hmc].
    { unfold m. destruct (Z.eqb_spec (- len s) 0).
      - destruct (halved (max s)); lia.
      - destruct (ok_max_runes s Ho); lia. }
    apply mwp_bind. assert (wp (if - len s =? 0 then halve_max p else mret tt)
      (fun _ v' => v' = upd p (set_max m s) v) E v) as Hhalve.
    { unfold m. destruct (- len s =? 0); [by eapply wp_mod_str |]. apply mwp_ret. unfold upd.
      destruct s. unfold set_max. cbn. rewrite insert_id by done. by destruct v. }
    unfold wp in Hhalve |- *. destruct ((if - len s =? 0 then halve_max p else mret tt) v) as [[] v1 | |]; [| done..].
    subst v1. match goal with |- match ?f ?w with _ => _ end => change (wp f Q E w) end.
    apply mwp_bind. eapply wp_mod_str; [apply lookup_upd |]. rewrite upd_upd.
    apply mwp_bind. eapply wp_put_runes; [apply lookup_upd | done | |].
    { cbn [cap set_len set_max length]. destruct (Z.eq_dec (len s) 0); [lia |]. destruct (ok_max_runes s Ho); lia. }
    rewrite upd_upd. apply mwp_ret. cbn [map].
    assert (2 * (i + 1) <= cap s) as Hi1.
    { destruct (Z.eq_dec (len s) 0); [lia |]. destruct (ok_max_runes s Ho); lia. }
    assert (i + 1 <= cap s / 2) by (apply Z.div_le_lower_bound; lia).
    assert (take (Z.to_nat (i + 1)) (splice (as_runes s) i [u16 r]) = text s ++ [u16 r]) as Ht.
    { rewrite take_splice_end; [| lia | simpl; lia | simpl; lia]. by rewrite Heq, <- Htx. }
    destruct (ok_runes s m (i + 1) (splice (as_runes s) i [u16 r])) as [Ho' Ht']; try done; try lia.
    + rewrite length_splice; cbn [length]; lia.
    + by rewrite Ht.
    + rewrite Ht in Ht'. exact (HQ _ Ho' eq_refl Ht').
  - assert (0 <= i / 4) by (apply Z.div_pos; lia).
    apply mwp_bind, wp_newstring; [lia | | done]. intros n ns Hnb Hmax Hns.
    apply mwp_bind, (wp_get_runes _ _ s); [by apply lookup_upd_new | done | lia | lia | right; lia |].
    assert (slice (text s) 0 (- len s) = text s) as -> by (rewrite <- (slice_all (text s)) at 2; f_equal; lia).
    apply mwp_bind. eapply wp_put_runes; [apply lookup_upd | lia | cbn; lia |]. rewrite upd_upd, map_u16_id by done.
    apply mwp_bind. eapply wp_put_runes; [apply lookup_upd | lia | cbn; lia |]. rewrite upd_upd.
    apply mwp_bind. eapply wp_mod_str; [apply lookup_upd |]. rewrite upd_upd.
    apply mwp_bind. eapply wp_mod_str; [apply lookup_upd |]. rewrite upd_upd. apply mwp_ret.
    destruct (halved n) as [Hh1 Hh2]; [lia |].
    assert (i + 1 <= n / 2) by (apply Z.div_le_lower_bound; lia).
    destruct (broad_ok (i + 1) (n / 2) (n + 4) (text s ++ [u16 r])) as [Hok Ht];
      [rewrite length_app; simpl; lia | lia | lia | done | done |].
    unfold broad in Hok, Ht. rewrite <- splice_splice in Hok, Ht.
    2, 3: simpl; assert (0 <= (n + 4) / 2) by (apply Z.div_pos; lia);
      assert (i + 1 <= (n + 4) / 2) by (apply Z.div_le_lower_bound; lia); lia.
    replace (zlen (text s)) with i in Hok, Ht by lia.
    exact (Hmade ns _ Hns Hok Ht eq_refl).
Qed.

Lemma wp_insc_ascii p s r i (Q : positive -> vm -> Prop) (E : exn -> vm -> Prop) v :
  strs v !! p = Some s -> ok s -> 0 <= len s -> 0 <= i -> is_ascii r ->
  placed (text s) i r p s v Q E -> E exHeap v -> wp (insc_ascii p r i) Q E v.
Proof.
  intros Hp Ho Hl Hi Hr HQ HE. pose proof (text_length s Ho) as Hlen. pose proof (as_ascii_length s Ho) as Hrs.
  pose proof (text_as_ascii s Ho Hl) as Htx. pose proof (ok_max s Ho) as (Hm0 & Hm1 & Hm2).
  assert (u8 r = r) as Hu by (apply wrapu_id; unfold Runeself in Hr; lia).
  assert (0 < len s -> len s <= max s) as Hlm.
  { destruct Ho as (_ & _ & Hd). destruct (data s); lia. }
  assert (Forall (fun c => is_ascii c) (text s)) as Hall by (by apply text_ascii).
  unfold placed, ains in HQ. rewrite Hlen in HQ. replace (Z.abs (len s)) with (len s) in HQ by lia.
  unfold insc_ascii. apply mwp_bind, (wp_str _ _ s); [done |]. cbv zeta.
  destruct (Z.ltb_spec i (len s)) as [Hlt | Hge].
  { destruct HQ as [HQ _]. apply mwp_bind. eapply wp_put_ascii; [done | done | simpl; lia |]. apply mwp_ret.
    cbn [map]. rewrite Hu.
    assert (take (Z.to_nat (len s)) (splice (as_ascii s) i [r]) = <[Z.to_nat i := r]> (text s)) as Ht.
    { rewrite take_splice_one by lia. by rewrite <- Htx. }
    destruct (ok_bytes s (len s) (splice (as_ascii s) i [r])) as [Ho' Ht']; try done; try lia.
    - rewrite length_splice; cbn [length]; lia.
    - rewrite Ht. apply Forall_insert; done.
    - rewrite Ht in Ht'. exact (HQ _ Ho' eq_refl Ht'). }
  destruct (Z.eqb_spec i (len s)) as [Heq | Hne]; cbn [andb negb]; [| by apply wp_error].
  assert (Forall (fun c => is_ascii c) (text s ++ [r])) as Hall' by (apply Forall_app; split; [done | by constructor]).
  destruct HQ as [HQ Hmade]. destruct (Z.ltb_spec i (max s)) as [Hroom | Hfull].
  - apply mwp_bind. eapply wp_mod_str; [done |].
    apply mwp_bind. eapply wp_put_ascii; [apply lookup_upd | done | cbn; lia |].
    rewrite upd_upd. apply mwp_ret. cbn [map]. rewrite Hu.
    assert (take (Z.to_nat (i + 1)) (splice (as_ascii s) i [r]) = text s ++ [r]) as Ht.
    { rewrite take_splice_end; [| lia | cbn [length]; lia | cbn [length]; lia]. by rewrite Heq, <- Htx. }
    destruct (ok_bytes s (i + 1) (splice (as_ascii s) i [r])) as [Ho' Ht']; try done; try lia.
    + rewrite length_splice; cbn [length]; lia.
    + by rewrite Ht.
    + rewrite Ht in Ht'. exact (HQ _ Ho' eq_refl Ht').
  - assert (0 <= i / 4) by (apply Z.div_pos; lia).
    apply mwp_bind, wp_newstring; [lia | | done]. intros n ns Hnb Hmax Hns.
    apply mwp_bind, (wp_get_ascii _ _ s); [by apply lookup_upd_new | done | lia | lia | right; lia |].
    assert (slice (text s) 0 (len s) = text s) as -> by (rewrite <- (slice_all (text s)) at 2; f_equal; lia).
    apply mwp_bind. eapply wp_put_ascii; [apply lookup_upd | lia | cbn; lia |]. rewrite upd_upd, map_u8_id by done.
    apply mwp_bind. eapply wp_put_ascii; [apply lookup_upd | lia | cbn; lia |]. rewrite upd_upd.
    apply mwp_bind. eapply wp_mod_str; [apply lookup_upd |]. rewrite upd_upd. apply mwp_ret.
    destruct (narrow_ok (i + 1) n (text s ++ [r])) as [Hok Ht];
      [rewrite length_app; cbn [length]; lia | lia | done | done |].
    unfold narrow in Hok, Ht. rewrite <- splice_splice in Hok, Ht by (cbn [length]; lia).
    replace (zlen (text s)) with i in Hok, Ht by lia.
    cbn [map]. rewrite Hu.
    exact (Hmade ns _ Hns Hok Ht eq_refl).
Qed.

(** *** The abstract operations *)

(** What an operation on lists of characters gives: a result and the cells, or
    an exception. *)
Inductive ares (A : Type) := AOk (a : A) (f : Z -> option (list Z)) | AErr (e : exn).
#[global] Arguments AOk {A} a f.
#[global] Arguments AErr {A} e.

(** The operation does what the abstract one does, unless there is no memory;
    when it raises no cell has changed. *)
Definition refines {A} (m : M A) (r : ares A) (v : vm) : Prop :=
  wp m (fun a v' => wf v' /\ match r with AOk b f => a = b /\ forall x, val v' x = f x | AErr _ => False end)
    (fun e v' => same v v' /\ (e = exHeap \/ r = AErr e)) v.

(** A new string goes into cell [d]. *)
Lemma wp_replace_new d ns s (t : list Z) v0 v (E : exn -> vm -> Prop) : wf v -> strs v !! ns = None -> ok s -> text s = t -> ref s = 1 ->
  (forall x, val v x = val v0 x) ->
  wp (replace d (Some ns)) (fun _ v' => wf v' /\ forall x, val v' x = set_val d (Some t) (val v0) x) E (upd ns s v).
Proof.
  intros W Hns Ho Ht Hr Hv0. destruct (replace_spec d (Some ns) (upd ns s v)) as (v' & Hrun & W' & Hval & _ & _).
  - by apply wf_new.
  - intros p [= <-]. rewrite lookup_upd. eauto.
  - unfold wp. rewrite Hrun. split; [done |]. intros x. rewrite Hval. unfold set_val. case_decide.
    + cbn. by rewrite lookup_insert_eq, <- Ht.
    + by rewrite val_new.
Qed.

Definition a_insc (r m d : Z) (f : Z -> option (list Z)) : ares unit :=
  match ains (default [] (f d)) (u32 m) (u16 r) with
  | Some t => AOk tt (set_val d (Some t) f)
  | None => AErr exBounds
  end.

(** The end of [insc]: the store and, if the string is another, the cell.  The
    string is the cell's own, or new. *)
Definition stored (r i d : Z) (t : list Z) (v0 v' : vm) : Prop :=
  wf v' /\ exists t', ains t i (u16 r) = Some t' /\ forall x, val v' x = set_val d (Some t') (val v0) x.

Definition not_stored (r i : Z) (t : list Z) (v0 : vm) (e : exn) (v' : vm) : Prop :=
  same v0 v' /\ (e = exHeap \/ (e = exBounds /\ ains t i (u16 r) = None)).

Lemma insc_tail r i d p s v0 v : wf v -> strs v !! p = Some s -> ref s = 1 -> ok s ->
  (vars v !! d = Some p \/
   vars v !! d = None /\ exists w, v = upd p s w /\ wf w /\ strs w !! p = None /\ forall x, val w x = val v0 x) ->
  (forall x, val v x = val v0 x) -> 0 <= r -> (Runeself <= r -> len s <= 0) -> 0 <= i ->
  wp (ss ← (if (len s <? 0) || (Runeself <=? r) then insc_rune p r i else insc_ascii p r i);
      o ← var d; if decide (o = Some ss) then mret tt else replace d (Some ss))
    (fun _ v' => stored r i d (text s) v0 v') (not_stored r i (text s) v0) v.
Proof.
  intros W Hp Hr1 Ho Hd Hv0 Hr Hexp Hi.
  assert (same v0 v) as Hsame by (by split).
  set (Q := fun (ss : positive) => wp (o ← var d; if decide (o = Some ss) then mret tt else replace d (Some ss))
    (fun _ v' => stored r i d (text s) v0 v') (not_stored r i (text s) v0)).
  assert (forall ns s1 t w, ains (text s) i (u16 r) = Some t -> wf w -> strs w !! ns = None -> ok s1 -> text s1 = t ->
    ref s1 = 1 -> (forall x, val w x = val v0 x) -> vars w !! d <> Some ns -> Q ns (upd ns s1 w)) as Hnew.
  { intros ns s1 t w Ea Ww Hns Ho1 Ht1 Hrf Hvw Hdn. unfold Q. apply mwp_bind, wp_var. rewrite decide_False by done.
    pose proof (wp_replace_new d ns s1 t v0 w (not_stored r i (text s) v0) Ww Hns Ho1 Ht1 Hrf Hvw) as Hw.
    unfold wp in Hw |- *. destruct (replace d (Some ns) (upd ns s1 w)); [| done..].
    destruct Hw as [W' Hv']. split; [done |]. by exists t. }
  assert (placed (text s) i (u16 r) p s v Q (not_stored r i (text s) v0)) as Hpl.
  { unfold placed. destruct (ains (text s) i (u16 r)) as [t|] eqn:Ea; [split |].
    - intros s' Ho' Hr' Ht'. destruct Hd as [Hd | (Hd & w & -> & Ww & Hw & Hvw)].
      + unfold Q. apply mwp_bind, wp_var. cbn [vars upd set_strs]. rewrite Hd, decide_True by done. apply mwp_ret.
        split; [by eapply wf_upd |]. exists t. split; [done |].
        intros x. rewrite (val_upd d p s s' v x W Hd Hp) by lia. unfold set_val. rewrite Ht'. case_decide; [done | apply Hv0].
      + rewrite upd_upd. apply (Hnew p s' t); try done; [congruence |]. cbn in Hd. by rewrite Hd.
    - intros ns s1 Hns Ho1 Ht1 Hrf. apply (Hnew ns s1 t); try done.
      intros Hx. destruct (w_var _ _ W d ns Hx). congruence.
    - split; [done |]. by right. }
  assert (not_stored r i (text s) v0 exHeap v) as Hheap by (split; [done | by left]).
  apply mwp_bind. change (wp (if (len s <? 0) || (Runeself <=? r) then insc_rune p r i else insc_ascii p r i) Q
    (not_stored r i (text s) v0) v).
  destruct ((len s <? 0) || (Runeself <=? r)) eqn:Hb.
  - apply (wp_insc_rune p s); try done. apply orb_true_iff in Hb as [Hb%Z.ltb_lt | Hb%Z.leb_le]; [lia | auto].
  - apply orb_false_iff in Hb as [Hb1%Z.ltb_ge Hb2%Z.leb_gt].
    assert (u16 r = r) as Hu by (apply wrapu_id; unfold Runeself in Hb2; lia). rewrite Hu in Hpl.
    by apply (wp_insc_ascii p s).
Qed.

Lemma insc_spec r m d v : wf v -> 0 <= r -> refines (insc r m d) (a_insc r m d (val v)) v.
Proof.
  intros W Hr. unfold refines, a_insc. set (i := u32 m).
  assert (0 <= i) as Hi by (by apply wrapu_range).
  assert (forall t, t = default [] (val v d) -> forall m' : M unit, forall w,
    wp m' (fun _ v' => stored r i d t v v') (not_stored r i t v) w ->
    wp m' (fun a v' => wf v' /\ match match ains (default [] (val v d)) i (u16 r) with
        | Some t => AOk tt (set_val d (Some t) (val v)) | None => AErr exBounds end with
      | AOk b f => a = b /\ forall x, val v' x = f x | AErr _ => False end)
    (fun e v' => same v v' /\ (e = exHeap \/ match ains (default [] (val v d)) i (u16 r) with
        | Some t => AOk tt (set_val d (Some t) (val v)) | None => AErr exBounds end = AErr e)) w) as Hconv.
  { intros t -> m' w Hw. unfold wp in *. destruct (m' w) as [[] v' | e v' |]; [| | done].
    - destruct Hw as (W' & t' & -> & Hv'). done.
    - destruct Hw as [Hs [-> | [-> ->]]]; (split; [done |]); [by left | by right]. }
  unfold insc. fold i. cbv zeta. apply mwp_bind, wp_var. destruct (vars v !! d) as [p|] eqn:Hd.
  - destruct (w_var _ _ W d p Hd) as [s Hp]. pose proof (ref_pos None v d p s W Hd Hp) as Hrp.
    rewrite decide_False in Hrp by done.
    pose proof (val_at v d p s Hd Hp) as Hval.
    apply mwp_bind, mwp_bind, (wp_str _ _ s); [done |].
    destruct ((1 <? ref s) || ((Runeself <=? r) && (0 <? len s))) eqn:Hb.
    + apply (wp_splitc d _ p s); [done | done | done | | split; [done | by left]].
      intros ns s1 v1 (W1 & Hd1 & Hs1 & Hr1 & Ho1 & Hv1) Ht Hlen.
      apply mwp_bind, (wp_str _ _ s1); [done |]. apply (Hconv (text s1)); [by rewrite Hval, Ht |].
      apply (insc_tail r i d ns s1 v v1); try done; [by left |].
      intros Hrs. rewrite Hlen. rewrite (proj2 (Z.leb_le _ _)) by done. cbn [andb].
      destruct (Z.ltb_spec 0 (len s)); lia.
    + apply orb_false_iff in Hb as [Hb1%Z.ltb_ge Hb2]. apply mwp_ret, mwp_bind, (wp_str _ _ s); [done |].
      apply (Hconv (text s)); [by rewrite Hval |].
      apply (insc_tail r i d p s v v); try done; [lia | by apply (w_ok _ _ W p) | by left |].
      intros Hrs. apply andb_false_iff in Hb2 as [Hb2%Z.leb_gt | Hb2%Z.ltb_ge]; lia.
  - apply mwp_bind, wp_newstring; [done | | split; [done | by left]]. intros n ns Hnb Hmax Hns.
    set (s := MkString 1 0 n (n + 4) (Bytes (junk (n + 4)))).
    assert (ok s /\ text s = []) as [Ho Ht].
    { unfold ok, text, s. cbn. rewrite length_junk. repeat split; try lia. constructor. }
    apply mwp_bind, (wp_str _ _ s); [apply lookup_upd |].
    assert (val v d = None) as Hval by (unfold val; by rewrite Hd).
    apply (Hconv (text s)); [by rewrite Hval, Ht |].
    apply (insc_tail r i d ns s v (upd ns s v)); try done.
    + by eapply wf_weaken, wf_new.
    + apply lookup_upd.
    + right. split; [done |]. by exists v.
    + intros x. by apply val_new.
Qed.

(** *** Appending *)

Lemma whole s : ok s -> slice (text s) 0 (Z.abs (len s)) = text s.
Proof. intros Ho. rewrite <- (slice_all (text s)) at 2. f_equal. by rewrite text_length. Qed.

(** The second half of the wide case of [addstring]: [s2] goes in at [l1]. *)
Lemma wp_add_runes {B} ns sn p2 s2 l1 l (k : M B) (Q : B -> vm -> Prop) (E : exn -> vm -> Prop) v :
  strs v !! ns = Some sn -> ns <> p2 -> strs v !! p2 = Some s2 -> ok s2 -> 0 <= l1 ->
  2 * (l1 + zlen (text s2)) <= cap sn ->
  wp k Q E (upd ns (MkString (ref sn) (- l) (max sn) (cap sn) (Runes (splice (as_runes sn) l1 (text s2)))) v) ->
  wp (mod_str ns (set_len (- l));;
      s2 ← str p2;
      (if len s2 <? 0 then xs ← get_runes p2 0 (- len s2); put_runes ns l1 xs else cvtup ns l1 p2);;
      k) Q E v.
Proof.
  intros Hns Hne H2 Ho2 Hl1 Hcap HQ. pose proof (text_length s2 Ho2) as Hlen. pose proof (whole s2 Ho2) as Hw.
  apply mwp_bind. eapply wp_mod_str; [done |].
  assert (strs (upd ns (set_len (- l) sn) v) !! p2 = Some s2) as H2' by (rewrite lookup_upd_ne; done).
  apply mwp_bind, (wp_str _ _ s2); [done |].
  apply mwp_bind. destruct (Z.ltb_spec (len s2) 0) as [Hneg | Hpos].
  - apply mwp_bind, (wp_get_runes _ _ s2); [done | done | lia | lia | right; lia |].
    replace (- len s2) with (Z.abs (len s2)) by lia. rewrite Hw.
    eapply wp_put_runes; [apply lookup_upd | done | done |]. rewrite upd_upd, map_u16_id by (by apply text_runes). exact HQ.
  - eapply (wp_cvtup _ _ _ _ s2); [apply lookup_upd | done | done | done | done | cbn; lia |].
    rewrite upd_upd. exact HQ.
Qed.

Lemma wp_addstring p1 p2 s1 s2 append (Q : option positive -> vm -> Prop) (E : exn -> vm -> Prop) v :
  strs v !! p1 = Some s1 -> strs v !! p2 = Some s2 -> ok s1 -> ok s2 ->
  (append = true -> ref s1 <= 1 -> p1 <> p2) ->
  (append = true -> ref s1 <= 1 -> forall s', ok s' -> ref s' = ref s1 -> text s' = text s1 ++ text s2 ->
     Q (Some p1) (upd p1 s' v)) ->
  made (text s1 ++ text s2) v (fun ns => Q (Some ns)) -> E exHeap v ->
  wp (addstring (Some p1) (Some p2) append) Q E v.
Proof.
  intros H1 H2 Ho1 Ho2 Hne HQ Hmade HE.
  pose proof (text_length s1 Ho1) as Hl1. pose proof (text_length s2 Ho2) as Hl2.
  pose proof (whole s1 Ho1) as Hw1. pose proof (whole s2 Ho2) as Hw2.
  pose proof (text_runes s1 Ho1) as Hr1. pose proof (text_runes s2 Ho2) as Hr2.
  assert (Forall (fun c => is_rune c) (text s1 ++ text s2)) as Hr12 by (by apply Forall_app).
  unfold addstring. apply mwp_bind, (wp_str _ _ s1); [done |]. cbv zeta.
  set (ap := if 1 <? ref s1 then false else append).
  assert (ap = true -> append = true /\ ref s1 <= 1) as Hap by (unfold ap; destruct (Z.ltb_spec 1 (ref s1)); done).
  apply mwp_bind, (wp_str _ _ s2); [done |].
  destruct (Z.ltb_spec (len s1) 0) as [Hneg1 | Hpos1].
  - set (l1 := - len s1).
    assert ((if len s2 <? 0 then l1 - len s2 else l1 + len s2) = l1 + Z.abs (len s2)) as ->
      by (destruct (Z.ltb_spec (len s2) 0); lia).
    set (l := l1 + Z.abs (len s2)).
    assert (0 <= l / 4) by (apply Z.div_pos; lia).
    apply mwp_bind. destruct (ap && (l <=? max s1)) eqn:Hb.
    + apply andb_true_iff in Hb as [Hb1 Hb2%Z.leb_le]. destruct (Hap Hb1) as [Happ Hrf].
      pose proof (ok_max_runes s1 Ho1 Hneg1) as [Hm1 Hm2]. pose proof (as_runes_length s1 Ho1) as Har.
      pose proof (text_as_runes s1 Ho1 ltac:(lia)) as Htx.
      apply mwp_ret. eapply (wp_add_runes p1 s1 p2 s2 l1 l); try done; [auto | lia | lia |]. apply mwp_ret.
      assert (l <= cap s1 / 2) by (apply Z.div_le_lower_bound; lia).
      assert (take (Z.to_nat l) (splice (as_runes s1) l1 (text s2)) = text s1 ++ text s2) as Ht.
      { rewrite take_splice_end; [| lia | lia | lia]. by rewrite Htx. }
      destruct (ok_runes s1 (max s1) l (splice (as_runes s1) l1 (text s2))) as [Ho' Ht']; try done; try lia.
      * rewrite length_splice; lia.
      * by rewrite Ht.
      * rewrite Ht in Ht'. exact (HQ Happ Hrf _ Ho' eq_refl Ht').
    + apply mwp_bind, wp_newstring; [destruct ap; lia | | done]. intros n ns Hnb Hmax Hns.
      assert (2 * l <= n) as Hn by (destruct ap; lia).
      apply mwp_bind. eapply wp_mod_str; [apply lookup_upd |]. rewrite upd_upd.
      apply mwp_bind, (wp_get_runes _ _ s1); [by apply lookup_upd_new | done | lia | lia | right; lia |].
      replace (slice (text s1) 0 l1) with (text s1) by (rewrite <- Hw1 at 1; f_equal; lia).
      apply mwp_bind. eapply wp_put_runes; [apply lookup_upd | lia | cbn; lia |]. rewrite upd_upd, map_u16_id by done.
      apply mwp_ret.
      eapply (wp_add_runes ns _ p2 s2 l1 l); [apply lookup_upd | congruence | by apply lookup_upd_new | done | lia | cbn; lia |].
      rewrite upd_upd. apply mwp_ret. destruct (halved n) as [Hh1 Hh2]; [lia |].
      assert (l <= n / 2) by (apply Z.div_le_lower_bound; lia).
      destruct (broad_ok l (n / 2) (n + 4) (text s1 ++ text s2)) as [Hok Ht]; [rewrite length_app; lia | done | lia | done | done |].
      unfold broad in Hok, Ht.
      assert (l <= (n + 4) / 2) by (apply Z.div_le_lower_bound; lia).
      rewrite <- splice_splice in Hok, Ht by lia. replace (zlen (text s1)) with l1 in Hok, Ht by lia.
      exact (Hmade ns _ Hns Hok Ht eq_refl).
  - destruct (Z.ltb_spec (len s2) 0) as [Hneg2 | Hpos2].
    + set (l := len s1 + - len s2). assert (0 <= l / 4) by (apply Z.div_pos; lia).
      apply mwp_bind, wp_newstring; [destruct ap; lia | | done]. intros n ns Hnb Hmax Hns.
      assert (2 * l <= n) as Hn by (destruct ap; lia).
      apply mwp_bind. eapply wp_mod_str; [apply lookup_upd |]. rewrite upd_upd.
      apply mwp_bind. eapply wp_mod_str; [apply lookup_upd |]. rewrite upd_upd.
      apply mwp_bind. eapply (wp_cvtup _ _ _ _ s1); [apply lookup_upd | by apply lookup_upd_new | done | done | done | cbn; lia |].
      rewrite upd_upd.
      apply mwp_bind, (wp_get_runes _ _ s2); [by apply lookup_upd_new | done | lia | lia | right; lia |].
      replace (slice (text s2) 0 (- len s2)) with (text s2) by (rewrite <- Hw2 at 1; f_equal; lia).
      apply mwp_bind. eapply wp_put_runes; [apply lookup_upd | lia | cbn; lia |]. rewrite upd_upd, map_u16_id by done.
      apply mwp_ret. destruct (halved n) as [Hh1 Hh2]; [lia |].
      assert (l <= n / 2) by (apply Z.div_le_lower_bound; lia).
      destruct (broad_ok l (n / 2) (n + 4) (text s1 ++ text s2)) as [Hok Ht]; [rewrite length_app; lia | done | lia | done | done |].
      unfold broad in Hok, Ht.
      assert (l <= (n + 4) / 2) by (apply Z.div_le_lower_bound; lia).
      rewrite <- splice_splice in Hok, Ht by lia. replace (zlen (text s1)) with (len s1) in Hok, Ht by lia.
      exact (Hmade ns _ Hns Hok Ht eq_refl).
    + set (l := len s1 + len s2). assert (0 <= l / 4) by (apply Z.div_pos; lia).
      assert (Forall (fun c => is_ascii c) (text s1 ++ text s2)) as Ha by (apply Forall_app; split; by apply text_ascii).
      assert (forall ns sn w, strs w !! ns = Some sn -> ns <> p2 -> strs w !! p2 = Some s2 -> l <= cap sn ->
        Q (Some ns) (upd ns (MkString (ref sn) l (max sn) (cap sn) (Bytes (splice (as_ascii sn) (len s1) (text s2)))) w) ->
        wp (mod_str ns (set_len l);; s2 ← str p2; xs ← get_ascii p2 0 (len s2); put_ascii ns (len s1) xs;; mret (Some ns)) Q E w) as Htail.
      { intros ns sn w Hsn Hnp Hw Hcap Hq. apply mwp_bind. eapply wp_mod_str; [done |].
        assert (strs (upd ns (set_len l sn) w) !! p2 = Some s2) as H2' by (rewrite lookup_upd_ne; done).
        apply mwp_bind, (wp_str _ _ s2); [done |].
        apply mwp_bind, (wp_get_ascii _ _ s2); [done | done | lia | lia | right; lia |].
        replace (slice (text s2) 0 (len s2)) with (text s2) by (rewrite <- Hw2 at 1; f_equal; lia).
        apply mwp_bind. eapply wp_put_ascii; [apply lookup_upd | lia | cbn; lia |].
        rewrite upd_upd, map_u8_id by (by apply text_ascii). apply mwp_ret. exact Hq. }
      apply mwp_bind. destruct (ap && (l <=? max s1)) eqn:Hb.
      * apply andb_true_iff in Hb as [Hb1 Hb2%Z.leb_le]. destruct (Hap Hb1) as [Happ Hrf].
        pose proof (ok_max s1 Ho1) as (Hm0 & Hm1 & Hm2). pose proof (as_ascii_length s1 Ho1) as Har.
        pose proof (text_as_ascii s1 Ho1 ltac:(lia)) as Htx.
        apply mwp_ret. apply (Htail p1 s1); [done | auto | done | lia |].
        assert (take (Z.to_nat l) (splice (as_ascii s1) (len s1) (text s2)) = text s1 ++ text s2) as Ht.
        { rewrite take_splice_end; [| lia | lia | lia]. by rewrite Htx. }
        destruct (ok_bytes s1 l (splice (as_ascii s1) (len s1) (text s2))) as [Ho' Ht']; try done; try lia.
        -- rewrite length_splice; lia.
        -- by rewrite Ht.
        -- rewrite Ht in Ht'. exact (HQ Happ Hrf _ Ho' eq_refl Ht').
      * apply mwp_bind, wp_newstring; [destruct ap; lia | | done]. intros n ns Hnb Hmax Hns.
        assert (l <= n) as Hn by (destruct ap; lia).
        apply mwp_bind, (wp_get_ascii _ _ s1); [by apply lookup_upd_new | done | lia | lia | right; lia |].
        replace (slice (text s1) 0 (len s1)) with (text s1) by (rewrite <- Hw1 at 1; f_equal; lia).
        apply mwp_bind. eapply wp_put_ascii; [apply lookup_upd | lia | cbn; lia |].
        rewrite upd_upd, map_u8_id by (by apply text_ascii). apply mwp_ret.
        eapply Htail; [apply lookup_upd | congruence | by apply lookup_upd_new | cbn; lia |]. rewrite upd_upd.
        destruct (narrow_ok l n (text s1 ++ text s2)) as [Hok Ht]; [rewrite length_app; lia | done | done | done |].
        unfold narrow in Hok, Ht. rewrite <- splice_splice in Hok, Ht by lia.
        replace (zlen (text s1)) with (len s1) in Hok, Ht by lia.
        exact (Hmade ns _ Hns Hok Ht eq_refl).
Qed.

Definition a_append (o1 o2 : option (list Z)) : option (list Z) :=
  match o1, o2 with
  | None, o2 => o2
  | Some t, None => Some t
  | Some t1, Some t2 => Some (t1 ++ t2)
  end.

Definition a_addc (s m d : Z) (f : Z -> option (list Z)) : ares unit :=
  AOk tt (set_val d (a_append (f m) (f s)) f).

(** The end of [addc] when [addstring] made a string. *)
Lemma addc_new d ns s t v (E : exn -> vm -> Prop) : wf v -> strs v !! ns = None -> ok s -> text s = t -> ref s = 1 ->
  wp (o ← var d; if decide (Some ns = o) then mret tt else replace d (Some ns))
    (fun _ v' => wf v' /\ forall x, val v' x = set_val d (Some t) (val v) x) E (upd ns s v).
Proof.
  intros W Hns Ho Ht Hr. apply mwp_bind, wp_var. cbn [vars upd set_strs]. rewrite decide_False.
  2: { intros Hx. destruct (w_var _ _ W d ns ltac:(done)). congruence. }
  by apply wp_replace_new.
Qed.

Lemma val_same_set d v : forall x, val v x = set_val d (val v d) (val v) x.
Proof. intros x. unfold set_val. by case_decide; subst. Qed.

Lemma addc_spec s m d v : wf v -> ~ (s = d /\ m = d) -> refines (addc s m d) (a_addc s m d (val v)) v.
Proof.
  intros W Hself. unfold refines, a_addc, addc.
  set (Q := fun (t : option (list Z)) (_ : unit) v' => wf v' /\ tt = tt /\ forall x, val v' x = set_val d t (val v) x).
  set (E := fun (e : exn) v' => same v v' /\ (e = exHeap \/ AOk tt (set_val d (a_append (val v m) (val v s)) (val v)) = AErr e)).
  assert (E exHeap v) as HE by (split; [done | by left]).
  assert (wp (addc s m d) (Q (a_append (val v m) (val v s))) E v) as Hgo.
  2: { eapply mwp_mono; [exact Hgo | | done]. by intros [] w. }
  assert (forall ns sn t, strs v !! ns = None -> ok sn -> text sn = t -> ref sn = 1 ->
    wp (o ← var d; if decide (Some ns = o) then mret tt else replace d (Some ns)) (Q (Some t)) E (upd ns sn v)) as Hnew.
  { intros ns sn t Hns Ho Ht Hr. pose proof (addc_new d ns sn t v E W Hns Ho Ht Hr) as Hw.
    eapply mwp_mono; [exact Hw | | done]. intros [] w [? ?]. done. }
  unfold addc. apply mwp_bind, wp_var, mwp_bind, wp_var. destruct (vars v !! m) as [p1|] eqn:Hm.
  - destruct (w_var _ _ W m p1 Hm) as [s1 H1]. rewrite (val_at v m p1 s1 Hm H1).
    pose proof (w_ok _ _ W p1 s1 H1) as Ho1.
    destruct (vars v !! s) as [p2|] eqn:Hs.
    + destruct (w_var _ _ W s p2 Hs) as [s2 H2]. rewrite (val_at v s p2 s2 Hs H2).
      apply mwp_bind, (wp_addstring p1 p2 s1 s2); try done; [by apply (w_ok _ _ W p2) | | |].
      * intros Hmd%Z.eqb_eq Hr <-. subst m. apply Hself. split; [| done]. by apply (unshared v s d p1 s1).
      * intros Hmd%Z.eqb_eq Hr s' Ho' Hr' Ht'. subst m. apply mwp_bind, wp_var. cbn [vars upd set_strs].
        rewrite Hm, decide_True by done. apply mwp_ret. split; [by eapply wf_upd |]. split; [done |].
        intros x. rewrite (val_upd d p1 s1 s' v x) by done. by rewrite Ht'.
      * intros ns sn Hns Ho Ht Hr. by apply (Hnew ns sn).
    + assert (val v s = None) as -> by (unfold val; by rewrite Hs). cbn [a_append].
      apply mwp_bind. unfold addstring. apply mwp_bind, (wp_str _ _ s1); [done |]. cbv zeta.
      destruct (if 1 <? ref s1 then false else m =? d) eqn:Hap.
      * assert (m = d) as -> by (destruct (1 <? ref s1); [done | by apply Z.eqb_eq]).
        apply mwp_ret, mwp_bind, wp_var. rewrite Hm, decide_True by done. apply mwp_ret. split; [done |]. split; [done |].
        rewrite <- (val_at v d p1 s1 Hm H1). apply val_same_set.
      * apply (wp_stringdup p1 s1); [done | done | | done]. intros ns sn Hns Ho Ht Hr _. by apply (Hnew ns sn).
  - assert (val v m = None) as -> by (unfold val; by rewrite Hm). cbn [a_append].
    destruct (vars v !! s) as [p2|] eqn:Hs.
    + destruct (w_var _ _ W s p2 Hs) as [s2 H2]. rewrite (val_at v s p2 s2 Hs H2).
      apply mwp_bind, (wp_stringdup p2 s2); [done | by apply (w_ok _ _ W p2) | | done].
      intros ns sn Hns Ho Ht Hr _. by apply (Hnew ns sn).
    + assert (val v s = None) as -> by (unfold val; by rewrite Hs).
      apply mwp_bind, mwp_ret, mwp_bind, wp_var. case_decide as Hd.
      * apply mwp_ret. split; [done |]. split; [done |].
        assert (val v d = None) as <- by (unfold val; by rewrite <- Hd). apply val_same_set.
      * destruct (replace_spec d None v W) as (v' & Hrun & W' & Hval & _ & _); [done |].
        unfold wp. by rewrite Hrun.
Qed.

Definition a_slicec (s m d : Z) (f : Z -> option (list Z)) : ares unit :=
  let start := u32 s in
  let n := u32 m in
  match f d with
  | None => if (start =? 0) && (n =? 0) then AOk tt f else AErr exBounds
  | Some t => if (n <? start) || (zlen t <? n) then AErr exBounds
              else AOk tt (set_val d (Some (slice t start (n - start))) f)
  end.

Lemma slicec_spec s m d v : wf v -> refines (slicec s m d) (a_slicec s m d (val v)) v.
Proof.
  intros W. unfold refines, a_slicec, slicec. cbv zeta. set (start := u32 s). set (n := u32 m).
  assert (0 <= start /\ 0 <= n) as [Hs Hn] by (split; by apply wrapu_range).
  apply mwp_bind, wp_var. apply mwp_bind. destruct (vars v !! d) as [p|] eqn:Hd.
  - destruct (w_var _ _ W d p Hd) as [sd Hp]. rewrite (val_at v d p sd Hd Hp).
    apply (wp_slicer p sd); [done | by apply (w_ok _ _ W p) | done | done | | split; [done | by left]].
    destruct ((n <? start) || _) eqn:Hb; [split; [done | by right] |].
    intros ns sn Hns Ho Ht Hr.
    match goal with |- wp _ _ ?E _ => pose proof (wp_replace_new d ns sn _ v v E W Hns Ho Ht Hr ltac:(done)) as Hw end.
    unfold wp in *. destruct (replace d (Some ns) (upd ns sn v)) as [[] v' | |]; [| done..]. by destruct Hw.
  - assert (val v d = None) as Hval by (unfold val; by rewrite Hd). rewrite Hval. unfold slicer.
    destruct ((start =? 0) && (n =? 0)); [| split; [done | by right]]. apply mwp_ret.
    destruct (replace_spec d None v W) as (v' & Hrun & W' & Hval' & _ & _); [done |].
    unfold wp. rewrite Hrun. split; [done |]. split; [done |]. intros x. rewrite Hval'. cbn.
    rewrite <- Hval. symmetry. apply val_same_set.
Qed.

Definition a_indc (s m : Z) (f : Z -> option (list Z)) : ares Z :=
  match f s with
  | None => AErr exNilref
  | Some t => match (if u32 m <? zlen t then t !! Z.to_nat (u32 m) else None) with
              | Some c => AOk c f
              | None => AErr exBounds
              end
  end.

Lemma slice_one t i : 0 <= i < zlen t -> exists c, slice t i 1 = [c] /\ t !! Z.to_nat i = Some c.
Proof.
  intros Hi. destruct (lookup_lt_is_Some_2 t (Z.to_nat i)) as [c Hc]; [lia |]. exists c. split; [| done].
  unfold slice. by rewrite (drop_S _ _ _ Hc).
Qed.

Lemma indc_spec s m v : wf v -> refines (indc s m) (a_indc s m (val v)) v.
Proof.
  intros W. unfold refines, a_indc, indc. set (i := u32 m). assert (0 <= i) as Hi by (by apply wrapu_range).
  cbv zeta. apply mwp_bind, wp_var. destruct (vars v !! s) as [p|] eqn:Hs.
  2: { assert (val v s = None) as -> by (unfold val; by rewrite Hs). split; [done | by right]. }
  destruct (w_var _ _ W s p Hs) as [ss Hp]. rewrite (val_at v s p ss Hs Hp).
  pose proof (w_ok _ _ W p ss Hp) as Ho. pose proof (text_length ss Ho) as Hl.
  apply mwp_bind, (wp_str _ _ ss); [done |]. destruct (Z.ltb_spec i (zlen (text ss))) as [Hlt | Hge].
  - destruct (slice_one (text ss) i) as (c & Hsl & ->); [lia |].
    destruct (Z.ltb_spec (len ss) 0) as [Hneg | Hpos].
    + rewrite (proj2 (Z.leb_gt _ _)) by lia.
      apply mwp_bind, (wp_get_runes _ _ ss); [done | done | done | lia | right; lia |]. by rewrite Hsl.
    + rewrite (proj2 (Z.leb_gt _ _)) by lia.
      apply mwp_bind, (wp_get_ascii _ _ ss); [done | done | done | lia | right; lia |]. rewrite Hsl.
      assert (is_ascii c) as Hc.
      { pose proof (text_ascii ss Ho Hpos) as Ha. assert (Forall (fun c => is_ascii c) (slice (text ss) i 1)) as Hf
          by (by apply Forall_take, Forall_drop).
        rewrite Hsl in Hf. by apply Forall_cons in Hf as [Hc _]. }
      unfold Runeself in Hc. rewrite (wraps_id 8) by lia. done.
  - destruct (Z.ltb_spec (len ss) 0) as [Hneg | Hpos]; rewrite (proj2 (Z.leb_le _ _)) by lia;
      (split; [done | by right]).
Qed.

Definition a_lenc (s : Z) (f : Z -> option (list Z)) : ares Z := AOk (zlen (default [] (f s))) f.

Lemma lenc_spec s v : wf v -> refines (lenc s) (a_lenc s (val v)) v.
Proof.
  intros W. unfold refines, a_lenc, lenc. apply mwp_bind, wp_var. destruct (vars v !! s) as [p|] eqn:Hs.
  - destruct (w_var _ _ W s p Hs) as [ss Hp]. rewrite (val_at v s p ss Hs Hp).
    pose proof (text_length ss (w_ok _ _ W p ss Hp)) as Hl.
    apply mwp_bind, (wp_str _ _ ss); [done |]. cbv zeta. apply mwp_ret. split; [done |]. split; [| done].
    cbn [default]. destruct (Z.ltb_spec (len ss) 0); unfold default, id; lia.
  - assert (val v s = None) as -> by (unfold val; by rewrite Hs). done.
Qed.
End Spec.
