(* ===== verification/StrOps.v ===== *)
(** * Limbo strings: the properties

    Strings as the machine runs them refine lists of characters in cells; every
    string keeps its representation; comparison, the round trip through UTF,
    and the store past the end when a string is appended to itself. *)

From S2P Require Import Prelude Rune Str StrProof.
Import Str.

#[local] Open Scope Z_scope.

(** ** Refinement *)

Inductive op :=
  | OMovp (s d : Z)
  | OInsc (r m d : Z)
  | OSlicec (s m d : Z)
  | OAddc (s m d : Z)
  | OIndc (s m : Z)
  | OLenc (s : Z).

(** Characters are not negative, and no string is appended to itself in place. *)
Definition valid (o : op) : Prop :=
  match o with
  | OInsc r _ _ => 0 <= r
  | OAddc s m d => ~ (s = d /\ m = d)
  | _ => True
  end.

Section Refine.
Context `{Allocator}.

Definition exec (o : op) : M Z :=
  match o with
  | OMovp s d => movp s d;; mret 0
  | OInsc r m d => insc r m d;; mret 0
  | OSlicec s m d => slicec s m d;; mret 0
  | OAddc s m d => addc s m d;; mret 0
  | OIndc s m => indc s m
  | OLenc s => lenc s
  end.

Definition unit0 (r : ares unit) : ares Z :=
  match r with AOk _ f => AOk 0 f | AErr e => AErr e end.

(** The same operations on cells that hold lists of characters. *)
Definition aexec (o : op) (f : Z -> option (list Z)) : ares Z :=
  match o with
  | OMovp s d => AOk 0 (set_val d (f s) f)
  | OInsc r m d => unit0 (a_insc r m d f)
  | OSlicec s m d => unit0 (a_slicec s m d f)
  | OAddc s m d => unit0 (a_addc s m d f)
  | OIndc s m => a_indc s m f
  | OLenc s => a_lenc s f
  end.

Lemma refines_unit (m : M unit) r v : refines m r v -> refines (m;; mret 0) (unit0 r) v.
Proof.
  unfold refines, wp, mbind, m_bind. destruct (m v) as [[] v' | e v' |]; [| | done].
  - intros [W Hr]. split; [done |]. destruct r; [by destruct Hr | done].
  - intros [Hs [-> | ->]]; (split; [done |]); [by left | by right].
Qed.

Lemma exec_spec o v : wf v -> valid o -> refines (exec o) (aexec o (val v)) v.
Proof.
  intros W Hv. destruct o; cbn [exec aexec].
  - apply (refines_unit _ (AOk tt (set_val d (val v s) (val v)))).
    destruct (movp_spec s d v W) as (v' & Hrun & W' & Hval). unfold refines, wp. by rewrite Hrun.
  - by apply refines_unit, insc_spec.
  - by apply refines_unit, slicec_spec.
  - by apply refines_unit, addc_spec.
  - by apply indc_spec.
  - by apply lenc_spec.
Qed.

(** The machine stands for the cells. *)
Definition stands (v : vm) (f : Z -> option (list Z)) : Prop := wf v /\ forall x, val v x = f x.

Definition ares_eq (r1 r2 : ares Z) : Prop :=
  match r1, r2 with
  | AOk a f, AOk b g => a = b /\ forall x, f x = g x
  | AErr e1, AErr e2 => e1 = e2
  | _, _ => False
  end.

Lemma set_val_ext d t f g : (forall x, f x = g x) -> forall x, set_val d t f x = set_val d t g x.
Proof. intros Hfg x. unfold set_val. by case_decide. Qed.

Lemma aexec_ext o f g : (forall x, f x = g x) -> ares_eq (aexec o f) (aexec o g).
Proof.
  intros Hfg. destruct o; cbn; unfold a_insc, a_slicec, a_addc, a_indc, a_lenc; rewrite ?Hfg.
  - split; [done | by apply set_val_ext].
  - destruct (ains _ _ _); cbn; [| done]. split; [done | by apply set_val_ext].
  - cbv zeta. destruct (g d) as [t|]; destruct (_ || _) || destruct (_ && _); cbn; try done.
    split; [done | by apply set_val_ext].
  - split; [done | by apply set_val_ext].
  - destruct (g s) as [t|]; [| done]. by destruct (if _ <? _ then _ else _).
  - done.
Qed.

(** C10. Strings are values: on a machine that stands for cells of lists of
    characters every operation gives the result, the exception and the cells
    that the same operation on the lists gives, whoever shares the strings; the
    only other thing it may do is to run out of memory, and whenever it raises
    an exception all cells are as before.  Two uses are not covered ([valid]): to
    insert a negative character, which [insc] stores as a byte that is no
    character; and to append a string to itself in its own cell, [s += s], which
    can store past its block (see [addc_self_overflow]). *)
Theorem string_refines (o : op) (v : vm) (f : Z -> option (list Z)) :
  stands v f -> valid o ->
  match exec o v with
  | Ret a v' => exists g, ares_eq (aexec o f) (AOk a g) /\ stands v' g
  | Raise e v' => stands v' f /\ (e = exHeap \/ aexec o f = AErr e)
  | Fault => False
  end.
Proof.
  intros [W Hf] Hv. pose proof (exec_spec o v W Hv) as Hr. pose proof (aexec_ext o f (val v)) as He.
  unfold refines, wp in Hr. destruct (exec o v) as [a v' | e v' |]; [| | done].
  - destruct Hr as [W' Hr]. destruct (aexec o (val v)) as [b g | e]; [| done]. destruct Hr as [-> Hg].
    exists g. split; [| by split]. by apply He.
  - destruct Hr as [[W' Hs] He']. split; [split; [done |]; intros x; by rewrite Hs |].
    destruct He' as [-> | He']; [by left | right]. rewrite He' in He.
    destruct (aexec o f) as [b g | e1]; [by destruct He | by rewrite He].
Qed.

(** ** Representation *)

Lemma wf_empty : wf (MkVm ∅ ∅).
Proof. split; cbn; [| intros ? ? Hx; by rewrite lookup_empty in Hx..]. intros a p Ha. by rewrite lookup_empty in Ha. Qed.

Inductive step : vm -> vm -> Prop :=
  | step_ret o a v v' : valid o -> exec o v = Ret a v' -> step v v'
  | step_raise o e v v' : valid o -> exec o v = Raise e v' -> step v v'.

Lemma step_wf v v' : step v v' -> wf v -> wf v'.
Proof.
  intros Hs W. destruct Hs as [o a v v' Hv Hrun | o e v v' Hv Hrun]; pose proof (exec_spec o v W Hv) as Hr;
    unfold refines, wp in Hr; rewrite Hrun in Hr; [apply Hr | by destruct Hr as [[? _] _]].
Qed.

(** How a string is kept. *)
Definition typed (s : String) : Prop :=
  match data s with
  | Bytes b => 0 <= len s <= max s /\ Forall (fun c => is_ascii c) (take (Z.to_nat (len s)) b)
  | Runes r => len s <= 0 /\ 2 * - len s <= cap s /\ Forall (fun c => is_rune c) (take (Z.to_nat (- len s)) r)
  end.

(** C27. Types: whatever operations have run from a machine without strings,
    but to insert a negative character or to append a string to itself in its own
    cell ([valid]), every pointer leads to a string; a string of positive length holds that
    many bytes, all below [Runeself], and one of negative length that many
    runes, within its block; and it is counted at least as often as there are
    cells that hold it. *)
Theorem strings_typed (v : vm) : rtc step (MkVm ∅ ∅) v ->
  (forall a p, vars v !! a = Some p -> is_Some (strs v !! p)) /\
  (forall p s, strs v !! p = Some s -> typed s) /\
  (forall p s l, strs v !! p = Some s -> NoDup l -> Forall (fun a => vars v !! a = Some p) l -> zlen l <= ref s).
Proof.
  intros Hs. pose proof wf_empty as W0. assert (wf v) as W.
  { remember (MkVm ∅ ∅) as v0. clear Heqv0. induction Hs as [v | v1 v2 v3 Hs _ IH]; [done |]. by apply IH, (step_wf v1). }
  split; [apply W |]. split.
  - intros p s Hp. destruct (w_ok _ _ W p s Hp) as (Hm & Hc & Hd). unfold typed. unfold text in Hd.
    destruct (data s); destruct Hd as (Hl & Hlen & Hmx & Hall); (split; [lia |]); [done |]. split; [lia | done].
  - intros p s l Hp Hnd Hl. pose proof (w_ref _ _ W p s Hp l Hnd Hl) as Hle. by rewrite decide_False, Z.sub_0_r in Hle.
Qed.
End Refine.

(** ** Comparison *)

(** The order of strings: -1, 0 or 1. *)
Fixpoint lexcmp (a b : list Z) : Z :=
  match a, b with
  | [], [] => 0
  | [], _ :: _ => -1
  | _ :: _, [] => 1
  | x :: a, y :: b => if x <? y then -1 else if y <? x then 1 else lexcmp a b
  end.

Section Compare.

Definition by_length (r n : Z) : Z := if r =? 0 then n else r.

Lemma runecmp_0 a b : runecmp a b 0 = 0.
Proof. by destruct a. Qed.

Lemma runecmp_lex t1 t2 x1 x2 : let n := Nat.min (length t1) (length t2) in
  Z.sgn (by_length (runecmp (t1 ++ x1) (t2 ++ x2) n) (zlen t1 - zlen t2)) = lexcmp t1 t2.
Proof.
  cbv zeta. revert t2. induction t1 as [|c1 t1 IH]; intros [|c2 t2].
  1, 2, 3: cbn [length Nat.min lexcmp]; rewrite runecmp_0; unfold by_length; cbn [Z.eqb length]; lia.
  cbn [length Nat.min app runecmp lexcmp].
  destruct (Z.eqb_spec c1 c2) as [-> | Hne]; cbn [negb].
  - rewrite Z.ltb_irrefl, <- IH. f_equal. unfold by_length. destruct (runecmp _ _ _ =? 0); [lia | done].
  - destruct (Z.ltb_spec c1 c2), (Z.ltb_spec c2 c1); try done; lia.
Qed.

Lemma strncmp_rune a b n : (0 ∉ take n a \/ 0 ∉ take n b) -> strncmp a b n = runecmp a b n.
Proof.
  revert a b. induction n as [|n IH]; intros a b Hn; [by destruct a, b |]. destruct a as [|x a], b as [|y b]; try done.
  cbn [strncmp runecmp]. destruct (Z.eqb_spec x y) as [-> | Hne]; [| done]. cbn [negb].
  cbn [firstn] in Hn. destruct (Z.eqb_spec y 0) as [-> | Hy]; [set_solver |]. apply IH. set_solver.
Qed.

(** Past a NUL in both nothing is looked at. *)
Lemma strncmp_nul u x y n : (length u < n)%nat -> strncmp (u ++ 0 :: x) (u ++ 0 :: y) n = 0.
Proof.
  revert n. induction u as [|c u IH]; intros [|n] Hn.
  1, 3: cbn in Hn; lia.
  { done. }
  cbn [app strncmp]. rewrite Z.eqb_refl. cbn [negb]. destruct (c =? 0); [done |]. apply IH. cbn in Hn. lia.
Qed.

(** The buffer begins with the characters. *)
Lemma data_text s : ok s ->
  match data s with
  | Bytes b => 0 <= len s /\ (exists x, b = text s ++ x) /\ exists x, map i8 b = text s ++ x
  | Runes r => len s <= 0 /\ exists x, r = text s ++ x
  end.
Proof.
  intros Ho. pose proof Ho as (Hm & Hc & Hd). unfold text. destruct (data s) as [b | r] eqn:Ed.
  - destruct Hd as (_ & Hl & _). split; [lia |].
    assert (b = take (Z.to_nat (len s)) b ++ drop (Z.to_nat (len s)) b) as Hb by (by rewrite take_drop).
    split; [by eexists |]. exists (map i8 (drop (Z.to_nat (len s)) b)). rewrite Hb at 1. rewrite map_app. f_equal.
    pose proof (text_ascii s Ho ltac:(lia)) as Ha. unfold text in Ha. rewrite Ed in Ha. unfold Runeself in Ha.
    clear Hb. induction Ha as [|c l Hc' _ IH]; [done |]. cbn [map]. rewrite IH, (wraps_id 8) by lia. done.
  - destruct Hd as (_ & Hl & _). split; [lia |]. exists (drop (Z.to_nat (- len s)) r). by rewrite take_drop.
Qed.

Definition narrow_string (s : String) : Prop := 0 <= len s.

Lemma stringcmp_spec s1 s2 : ok s1 -> ok s2 -> exists r, stringcmp_ s1 s2 = Some r /\
  (0 ∉ text s1 \/ 0 ∉ text s2 \/ len s1 < 0 \/ len s2 < 0 -> Z.sgn r = lexcmp (text s1) (text s2)) /\
  (forall u x y, 0 <= len s1 -> 0 <= len s2 -> text s1 = u ++ 0 :: x -> text s2 = u ++ 0 :: y ->
     r = zlen (text s1) - zlen (text s2)).
Proof.
  intros Ho1 Ho2. pose proof (data_text s1 Ho1) as H1. pose proof (data_text s2 Ho2) as H2.
  pose proof (text_length s1 Ho1) as Hl1. pose proof (text_length s2 Ho2) as Hl2.
  assert (forall s, (if len s <? 0 then - len s else len s) = Z.abs (len s)) as Habs.
  { intros s. destruct (Z.ltb_spec (len s) 0); lia. }
  unfold stringcmp_. rewrite !Habs.
  assert (Z.to_nat (if Z.abs (len s2) <? Z.abs (len s1) then Z.abs (len s2) else Z.abs (len s1)) =
    Nat.min (length (text s1)) (length (text s2))) as ->
    by (destruct (Z.ltb_spec (Z.abs (len s2)) (Z.abs (len s1))); lia).
  cbv zeta. set (n := Nat.min _ _). rewrite <- Hl1, <- Hl2.
  assert (n = 0%nat -> zlen (text s1) = 0 \/ zlen (text s2) = 0) as Hn0 by (unfold n; lia).
  assert (forall a1 a2, (exists x, a1 = text s1 ++ x) -> (exists x, a2 = text s2 ++ x) ->
    exists r, (let r := runecmp a1 a2 n in Some (if r =? 0 then zlen (text s1) - zlen (text s2) else r)) = Some r /\
      Z.sgn r = lexcmp (text s1) (text s2)) as Hcmp.
  { intros a1 a2 [x1 ->] [x2 ->]. eexists. split; [done |]. apply runecmp_lex. }
  cbv zeta in Hcmp.
  assert (n = 0%nat -> exists r, Some (zlen (text s1) - zlen (text s2)) = Some r /\
    Z.sgn r = lexcmp (text s1) (text s2)) as Hempty.
  { intros Hn. eexists. split; [done |]. destruct (text s1), (text s2); cbn in *; lia. }
  destruct (data s1) as [a1 | a1] eqn:E1, (data s2) as [a2 | a2] eqn:E2.
  - destruct H1 as (Hp1 & Hx1 & _), H2 as (Hp2 & Hx2 & _).
    rewrite !(proj2 (Z.ltb_ge _ _)) by lia. eexists. split; [done |]. split.
    + intros Hnul. assert (strncmp a1 a2 n = runecmp a1 a2 n) as ->.
      { apply strncmp_rune. destruct Hx1 as [x1 ->], Hx2 as [x2 ->].
        rewrite (take_app_le _ _ n), (take_app_le _ _ n) by (unfold n; lia).
        destruct Hnul as [Hn | [Hn | Hn]]; [left | right | lia]; intros Hin; apply Hn; by eapply subseteq_take. }
      destruct Hx1 as [x1 ->], Hx2 as [x2 ->]. apply runecmp_lex.
    + intros u x y _ _ Hu1 Hu2. destruct Hx1 as [x1 ->], Hx2 as [x2 ->]. rewrite Hu1, Hu2, <- !app_assoc. cbn [app].
      rewrite strncmp_nul; [done |]. unfold n. rewrite Hu1, Hu2, !length_app. cbn. lia.
  - destruct H1 as (Hp1 & _ & Hx1), H2 as (Hn2 & Hx2). rewrite (proj2 (Z.ltb_ge (len s1) _)) by lia.
    destruct (Z.ltb_spec (len s2) 0) as [Hneg | Hz].
    + destruct (Hcmp _ _ Hx1 Hx2) as (r & -> & Hr). exists r. split; [done |]. split; [done | lia].
    + assert (n = 0%nat) as Hn by (unfold n; lia). rewrite Hn. destruct (Hempty Hn) as (r & -> & Hr).
      exists r. split; [done |]. split; [done |]. intros u x y _ _ _ Hu2. rewrite Hu2 in Hl2.
      rewrite length_app in Hl2. cbn in Hl2. lia.
  - destruct H1 as (Hn1 & Hx1), H2 as (Hp2 & _ & Hx2). rewrite (proj2 (Z.ltb_ge (len s2) _)) by lia.
    destruct (Z.ltb_spec (len s1) 0) as [Hneg | Hz].
    + destruct (Hcmp _ _ Hx1 Hx2) as (r & -> & Hr). exists r. split; [done |]. split; [done | lia].
    + assert (n = 0%nat) as Hn by (unfold n; lia). rewrite Hn. destruct (Hempty Hn) as (r & -> & Hr).
      exists r. split; [done |]. split; [done |]. intros u x y _ _ Hu1 _. rewrite Hu1 in Hl1.
      rewrite length_app in Hl1. cbn in Hl1. lia.
  - destruct H1 as (Hn1 & Hx1), H2 as (Hn2 & Hx2).
    destruct (Z.ltb_spec (len s1) 0) as [Hneg1 | Hz1], (Z.ltb_spec (len s2) 0) as [Hneg2 | Hz2].
    { destruct (Hcmp _ _ Hx1 Hx2) as (r & -> & Hr). exists r. split; [done |]. split; [done | lia]. }
    all: assert (n = 0%nat) as Hn by (unfold n; lia); rewrite Hn; destruct (Hempty Hn) as (r & -> & Hr);
      exists r; split; [done |]; split; [done | try lia].
    intros u x y _ _ Hu1 _. rewrite Hu1 in Hl1. rewrite length_app in Hl1. cbn in Hl1. lia.
Qed.
End Compare.

Definition chars (v : vm) (a : Z) : list Z := default [] (val v a).

(** The cell holds nil or a string kept as bytes. *)
Definition narrow_at (v : vm) (a : Z) : Prop :=
  match vars v !! a with
  | Some p => match strs v !! p with Some s => 0 <= len s | None => True end
  | None => True
  end.

Lemma cell_string v a : wf v -> exists s, ok s /\ text s = chars v a /\ (narrow_at v a <-> 0 <= len s) /\
  forall Q : String -> vm -> Prop, forall E : exn -> vm -> Prop, Q s v ->
    wp (match vars v !! a with None => mret snil | Some p => str p end) Q E v.
Proof.
  intros W. unfold chars, narrow_at. destruct (vars v !! a) as [p|] eqn:Ha.
  - destruct (w_var _ _ W a p Ha) as [s Hp]. exists s. split; [by apply (w_ok _ _ W p) |].
    rewrite (val_at v a p s Ha Hp), Hp. split; [done |]. split; [done |]. intros Q E HQ. by apply (wp_str _ _ s).
  - exists snil. split; [| split; [unfold val; by rewrite Ha | split; [done | by intros Q E HQ]]].
    unfold ok, text, snil. cbn. repeat split; try lia. constructor.
Qed.

(** Comparison: [stringcmp] orders strings by their characters and then by
    length, whichever way each is kept, nil being the empty string, when one
    is kept as runes or has no NUL; two strings kept as bytes that agree up to
    a NUL are told apart by their lengths only. *)
Theorem stringcmp_correct (a b : Z) (v : vm) : wf v ->
  exists r, stringcmp (vars v !! a) (vars v !! b) v = Ret r v /\
    (0 ∉ chars v a \/ 0 ∉ chars v b \/ ~ narrow_at v a \/ ~ narrow_at v b ->
       Z.sgn r = lexcmp (chars v a) (chars v b)) /\
    (forall u x y, narrow_at v a -> narrow_at v b -> chars v a = u ++ 0 :: x -> chars v b = u ++ 0 :: y ->
       r = zlen (chars v a) - zlen (chars v b)).
Proof.
  intros W. destruct (cell_string v a W) as (s1 & Ho1 & Ht1 & Hn1 & Hw1).
  destruct (cell_string v b W) as (s2 & Ho2 & Ht2 & Hn2 & Hw2).
  destruct (stringcmp_spec s1 s2 Ho1 Ho2) as (r & Hr & H1 & H2). rewrite Ht1, Ht2 in H1, H2.
  exists r. split.
  - assert (wp (stringcmp (vars v !! a) (vars v !! b)) (fun x w => x = r /\ w = v) (fun _ _ => False) v) as Hw.
    { apply mwp_bind, Hw1, mwp_bind, Hw2. by rewrite Hr. }
    unfold wp in Hw. destruct (stringcmp _ _ v) as [x w | |]; [| done..]. by destruct Hw as [-> ->].
  - split; [| intros u x y Ha Hb; apply (H2 u x y); [by apply Hn1 | by apply Hn2]].
    rewrite Hn1, Hn2. intros Hc. apply H1.
    destruct Hc as [Hc | [Hc | [Hc | Hc]]]; [by left | by right; left | right; right; left; lia | right; right; right; lia].
Qed.

(** ** UTF *)

(** The C string of a text. *)
Definition cstring (t : list Z) : list Z := encode t ++ [0].

Section Utf.
Context `{Allocator}.

Lemma encode_ascii t : Forall (fun c => is_ascii c) t -> encode t = t.
Proof.
  induction 1 as [|c t Hc _ IH]; [done |]. rewrite encode_cons, runetochar_self by done. cbn. by rewrite IH.
Qed.

Lemma encode_app t1 t2 : encode (t1 ++ t2) = encode t1 ++ encode t2.
Proof. unfold encode. by rewrite bind_app. Qed.

Lemma encode_length t : Forall (fun c => is_rune c) t -> zlen (encode t) = runenlen t /\ runenlen t <= 3 * zlen t.
Proof.
  induction 1 as [|c t Hc _ [IH1 IH2]]; [done |]. rewrite encode_cons, length_app, Nat2Z.inj_add, IH1, runetochar_length by done.
  pose proof (runelen_pos c) as Hp. unfold runelen in *. cbn [runenlen length].
  destruct (c <=? Rune1); [lia |]. destruct (c <=? Rune2); lia.
Qed.

Lemma runes2c_encode t : Forall (fun c => is_rune c) t -> runes2c t = encode t.
Proof.
  induction 1 as [|c t Hc _ IH]; [done |]. cbn [runes2c]. rewrite encode_cons, IH. f_equal.
  destruct (Z.ltb_spec c Runeself) as [Hs | Hs]; [| done]. unfold Runeself in Hs.
  rewrite runetochar_self by (unfold Runeself; lia). by rewrite wrapu_id by lia.
Qed.

(** The first character that is not ascii. *)
Lemma ascii_split t : Forall (fun c => is_rune c) t ->
  Forall (fun c => is_ascii c) t \/
  exists u r w, t = u ++ r :: w /\ Forall (fun c => is_ascii c) u /\ is_rune r /\ Runeself <= r /\ Forall (fun c => is_rune c) w.
Proof.
  induction 1 as [|c t Hc Ht IH]; [left; constructor |]. destruct (Z.ltb_spec c Runeself) as [Hs | Hs].
  - destruct IH as [IH | (u & r & w & -> & Hu & Hr)]; [left; constructor; [lia | done] | right].
    exists (c :: u), r, w. split; [done |]. split; [constructor; [lia | done] | done].
  - right. exists [], c, t. split; [done |]. split; [constructor | done].
Qed.

Lemma asciis_ascii t rest : Forall (fun c => is_ascii c) t -> asciis (t ++ rest) = (length t + asciis rest)%nat.
Proof.
  induction 1 as [|c t Hc _ IH]; [done |]. cbn [app asciis]. rewrite (proj2 (Z.leb_gt _ _)) by lia. by rewrite IH.
Qed.

Lemma asciis_encode r w : is_rune r -> Runeself <= r -> asciis (encode (r :: w)) = 0%nat.
Proof.
  intros Hr Hs. rewrite encode_cons. pose proof (runetochar_multi r Hr Hs) as Hm.
  destruct (runetochar_cons r) as (b & bs & E). rewrite E in Hm |- *. apply Forall_cons in Hm as [Hb _].
  cbn [app asciis]. by rewrite (proj2 (Z.leb_le _ _)).
Qed.

Lemma fullrune_rune r rest n : is_rune r -> runelen r <= n -> fullrune (runetochar r ++ rest) n = Some true.
Proof.
  intros Hr Hn. rewrite <- (runetochar_length r) in Hn by done. rewrite runetochar_arith in Hn |- * by done.
  unfold fullrune. change Tx with 128. change T3 with 224.
  destruct (Z.leb_spec r 127).
  - cbn in Hn |- *. rewrite (proj2 (Z.ltb_lt 0 n)), (proj2 (Z.ltb_lt r 128)) by lia. done.
  - destruct (Z.leb_spec r 2047).
    + cbn in Hn |- *. rewrite (proj2 (Z.ltb_lt 0 n)), (proj2 (Z.ltb_lt 1 n)) by lia.
      rewrite (proj2 (Z.ltb_lt _ 224)) by zlia. cbn. by destruct (_ <? 128).
    + cbn in Hn |- *. rewrite (proj2 (Z.ltb_lt 0 n)), (proj2 (Z.ltb_lt 1 n)), (proj2 (Z.ltb_lt 2 n)) by lia.
      rewrite orb_true_r. cbn. by destruct (_ <? 128).
Qed.

(** One rune, counted. *)
Lemma c2count_rune fuel r w nc : is_rune r -> Forall (fun c => is_rune c) w ->
  c2count (S fuel) (encode (r :: w)) nc = c2count fuel (encode w) (nc + 1).
Proof.
  intros Hr Hw. rewrite encode_cons. pose proof (chartorune_runetochar_app r (encode w) Hr (encode_bytes w Hw)) as Hc.
  pose proof (runetochar_length r Hr) as Hlen.
  assert (drop (Z.to_nat (runelen r)) (runetochar r ++ encode w) = encode w) as Hd by (apply drop_app_length'; lia).
  destruct (Z.ltb_spec r Runeself) as [Hs | Hs].
  - rewrite runetochar_self by lia. cbn [app c2count]. by rewrite (proj2 (Z.ltb_lt _ _)).
  - pose proof (runetochar_multi r Hr Hs) as Hm. destruct (runetochar_cons r) as (b & bs & E).
    rewrite E in Hm, Hc, Hd, Hlen |- *. cbn [app] in Hc, Hd |- *. apply Forall_cons in Hm as [Hb _]. cbn [c2count].
    rewrite (proj2 (Z.ltb_ge _ _)) by done.
    assert ((if UTFmax <=? zlen (b :: bs ++ encode w) then Some true else fullrune (b :: bs ++ encode w) (zlen (b :: bs ++ encode w))) = Some true) as ->.
    { destruct (Z.leb_spec UTFmax (zlen (b :: bs ++ encode w))) as [| Hshort]; [done |].
      pose proof (fullrune_rune r (encode w) (zlen (b :: bs ++ encode w)) Hr) as Hf. rewrite E in Hf. apply Hf.
      rewrite <- Hlen. cbn [length]. rewrite length_app. lia. }
    cbn [mbind option_bind]. rewrite Hc. cbn [mbind option_bind]. by rewrite Hd.
Qed.

Lemma c2count_encode w fuel nc : Forall (fun c => is_rune c) w -> (length w < fuel)%nat ->
  c2count fuel (encode w) nc = Some (nc + zlen w).
Proof.
  intros Hw. revert fuel nc. induction Hw as [|c w Hc Hw IH]; intros [|fuel] nc Hf; try (cbn in Hf; lia).
  - cbn. by rewrite Z.add_0_r.
  - rewrite c2count_rune by done. rewrite IH by (cbn in Hf; lia). f_equal. cbn [length]. lia.
Qed.

Lemma c2runes_encode w : Forall (fun c => is_rune c) w -> c2runes (length w) (encode w) = Some w.
Proof.
  induction 1 as [|c w Hc Hw IH]; [done |]. pose proof (runetochar_length c Hc) as Hlen. cbn [length c2runes].
  rewrite encode_cons, (chartorune_runetochar_app c) by (done || by apply encode_bytes). cbn [mbind option_bind].
  rewrite drop_app_length' by lia. by rewrite IH.
Qed.

(** Making a string of a text in UTF. *)
Lemma wp_c2string t (Q : positive -> vm -> Prop) (E : exn -> vm -> Prop) v :
  Forall (fun c => is_rune c) t -> made t v Q -> E exHeap v -> wp (c2string (encode t)) Q E v.
Proof.
  intros Ht HQ HE. unfold c2string. cbv zeta. destruct (ascii_split t Ht) as [Ha | (u & r & w & -> & Hu & Hr & Hs & Hw)].
  - pose proof (asciis_ascii t [] Ha) as Hna. rewrite app_nil_r, Nat.add_0_r in Hna.
    rewrite (encode_ascii t Ha), Hna, Nat.eqb_refl.
    apply mwp_bind, wp_newstring; [lia | | done]. intros n ns Hnb Hmax Hns.
    apply mwp_bind. eapply wp_put_ascii; [apply lookup_upd | lia | cbn; lia |]. rewrite upd_upd, map_u8_id by done.
    destruct (narrow_ok (zlen t) n t) as [Hok Htx]; [done | done | done | done |].
    apply mwp_ret. exact (HQ ns _ Hns Hok Htx eq_refl).
  - assert (encode (u ++ r :: w) = u ++ encode (r :: w)) as -> by (by rewrite encode_app, (encode_ascii u)).
    assert (asciis (u ++ encode (r :: w)) = length u) as -> by (by rewrite asciis_ascii, asciis_encode, Nat.add_0_r).
    assert (zlen w <= zlen (encode w)) as Hlw.
    { destruct (encode_length w Hw) as [-> _]. clear. induction w as [|c w IH]; [done |]. cbn [runenlen length].
      destruct (c <=? Rune1); [lia |]. destruct (c <=? Rune2); lia. }
    assert (Nat.eqb (length u) (length (u ++ encode (r :: w))) = false) as ->.
    { apply Nat.eqb_neq. rewrite length_app, encode_cons, length_app. pose proof (runetochar_length_pos r). lia. }
    rewrite drop_app_length, c2count_encode.
    2: by constructor.
    2: { rewrite length_app, encode_cons, length_app. cbn [length]. pose proof (runetochar_length_pos r). lia. }
    assert (zlen u + zlen (r :: w) = zlen (u ++ r :: w)) as -> by (rewrite length_app; lia).
    apply mwp_bind, wp_newstring; [lia | | done]. intros n ns Hnb Hmax Hns.
    apply mwp_bind. eapply wp_mod_str; [apply lookup_upd |]. rewrite upd_upd.
    apply mwp_bind. eapply wp_mod_str; [apply lookup_upd |]. rewrite upd_upd.
    rewrite <- (encode_ascii u Hu) at 2. rewrite <- encode_app, Nat2Z.id, c2runes_encode by done.
    apply mwp_bind. eapply wp_put_runes; [apply lookup_upd | lia | cbn [cap set_len set_max]; lia |].
    rewrite upd_upd, map_u16_id by done. destruct (halved n) as [Hh1 Hh2]; [lia |].
    destruct (broad_ok (zlen (u ++ r :: w)) (n / 2) (n + 4) (u ++ r :: w)) as [Hok Htx]; [done | lia | lia | done | done |].
    apply mwp_ret. exact (HQ ns _ Hns Hok Htx eq_refl).
Qed.

Lemma wp_cvtac t d (E : exn -> vm -> Prop) v : wf v -> Forall (fun c => is_rune c) t -> E exHeap v ->
  wp (cvtac (Some (encode t)) d) (fun _ v' => wf v' /\ forall x, val v' x = set_val d (Some t) (val v) x) E v.
Proof.
  intros W Ht HE. unfold cvtac. apply mwp_bind, mwp_bind, wp_c2string; [done | | done].
  intros ns sn Hns Ho Htx Hr. by apply mwp_ret, wp_replace_new.
Qed.

Lemma wp_mem2array n (Q : unit -> vm -> Prop) (E : exn -> vm -> Prop) v : E exHeap v -> Q tt v -> wp (mem2array n) Q E v.
Proof. intros HE HQ. unfold mem2array. apply mwp_bind. unfold wp at 1. destruct (aroom _ _); [by apply mwp_ret | by apply wp_error]. Qed.

Lemma wp_cvtca s t (E : exn -> vm -> Prop) v : wf v -> val v s = Some t -> E exHeap v ->
  wp (cvtca s) (fun bs v' => bs = encode t /\ v' = v) E v.
Proof.
  intros W Hs HE. unfold val in Hs. destruct (vars v !! s) as [p|] eqn:Hv; [| done]. cbn in Hs.
  destruct (strs v !! p) as [ss|] eqn:Hp; [| done]. cbn in Hs. injection Hs as <-.
  pose proof (w_ok _ _ W p ss Hp) as Ho. pose proof (whole ss Ho) as Hw. pose proof (text_length ss Ho) as Hl.
  unfold cvtca. apply mwp_bind, wp_var. rewrite Hv. apply mwp_bind, (wp_str _ _ ss); [done |].
  destruct (Z.ltb_spec (len ss) 0) as [Hneg | Hpos].
  - apply mwp_bind, (wp_get_runes _ _ ss); [done | done | lia | lia | right; lia |].
    replace (- len ss) with (Z.abs (len ss)) by lia. rewrite Hw. apply mwp_bind, wp_mem2array; [done |]. cbv zeta.
    change (mbind runetochar (text ss)) with (encode (text ss)).
    destruct (encode_length (text ss) (text_runes ss Ho)) as [-> _]. by rewrite Z.leb_refl.
  - apply mwp_bind, wp_mem2array; [done |]. apply (wp_get_ascii _ _ ss); [done | done | lia | lia | right; lia |].
    replace (len ss) with (Z.abs (len ss)) by lia. rewrite Hw. by rewrite encode_ascii by (by apply text_ascii).
Qed.

(** Past the characters anything may be stored. *)
Lemma same_upd p s s' v : wf v -> strs v !! p = Some s -> ok s' -> text s' = text s -> ref s' = ref s ->
  same v (upd p s' v).
Proof.
  intros W Hp Ho Ht Hr. split; [by eapply wf_upd |]. intros a. unfold val, upd. cbn.
  destruct (vars v !! a) as [q|]; [| done]. cbn. destruct (decide (q = p)) as [-> | Hne].
  - rewrite lookup_insert_eq, Hp. cbn. by rewrite Ht.
  - by rewrite lookup_insert_ne.
Qed.

Lemma wp_string2c s t (E : exn -> vm -> Prop) v : wf v -> val v s = Some t -> E exNomem v ->
  wp (string2c (vars v !! s)) (fun bs v' => bs = encode t ++ [0] /\ same v v') E v.
Proof.
  intros W Hs HE. unfold val in Hs. destruct (vars v !! s) as [p|] eqn:Hv; [| done]. cbn in Hs.
  destruct (strs v !! p) as [ss|] eqn:Hp; [| done]. cbn in Hs. injection Hs as <-.
  pose proof (w_ok _ _ W p ss Hp) as Ho. pose proof (whole ss Ho) as Hw. pose proof (text_length ss Ho) as Hl.
  unfold string2c. apply mwp_bind, (wp_str _ _ ss); [done |].
  destruct (Z.leb_spec 0 (len ss)) as [Hpos | Hneg].
  - pose proof (as_ascii_length ss Ho) as Hal. pose proof (text_as_ascii ss Ho Hpos) as Htx.
    pose proof (text_ascii ss Ho Hpos) as Hasc. rewrite (encode_ascii (text ss)) by done.
    assert (len ss <= max ss \/ len ss = 0) as Hlm.
    { destruct Ho as (_ & _ & Hd). destruct (data ss); [left | right]; lia. }
    pose proof (ok_max ss Ho) as (Hm & Hc & _).
    set (b := splice (as_ascii ss) (len ss) [0]).
    assert (take (Z.to_nat (len ss + 1)) b = text ss ++ [0]) as Hb.
    { unfold b. rewrite take_splice_end by (cbn; lia). by rewrite Htx. }
    assert (take (Z.to_nat (len ss)) b = text ss) as Hb0.
    { rewrite <- (take_app_length' (text ss) [0] (Z.to_nat (len ss))) by lia.
      rewrite <- Hb, take_take. f_equal. lia. }
    destruct (ok_bytes ss (len ss) b) as [Ho' Ht']; [done | lia | lia | | by rewrite Hb0 |].
    { unfold b. rewrite length_splice; cbn; lia. }
    apply mwp_bind. eapply wp_put_ascii; [done | done | cbn; lia |]. cbn [map].
    change (u8 0) with 0. fold b. unfold get_ascii. apply mwp_bind. eapply wp_str; [apply lookup_upd |].
    cbn [data set_data cap]. rewrite !(proj2 (Z.leb_le _ _)) by lia. apply mwp_ret. split; [exact Hb |].
    eapply same_upd; [done | done | exact Ho' | by etransitivity; [exact Ht' |] | done].
  - cbv zeta. apply mwp_bind. unfold wp at 1. destruct (tmproom _ _ _); cbn [negb]; [| by apply wp_error].
    apply mwp_bind, (wp_get_runes _ _ ss); [done | done | lia | lia | right; lia |].
    replace (- len ss) with (Z.abs (len ss)) by lia. rewrite Hw, (runes2c_encode (text ss)) by (by apply text_runes).
    destruct (encode_length (text ss) (text_runes ss Ho)) as [He1 He2].
    rewrite length_app, Nat2Z.inj_add, He1. cbn [length]. unfold UTFmax.
    rewrite (proj2 (Z.leb_le _ _)) by lia. by apply mwp_ret.
Qed.

(** C28. Strings and UTF: a string converts to the array of the bytes that
    encode its characters; that array converts back to the same characters, kept
    as bytes or as runes, in the cell it is meant for and no other; and the C
    string of it is the same bytes and a NUL.  Otherwise there is no memory, and
    each raises its exception; no string changes, but in the cell that is
    meant. *)
Theorem utf_roundtrip (s d : Z) (t : list Z) (v : vm) : wf v -> val v s = Some t ->
  match cvtca s v with
  | Ret bs v' => bs = encode t /\ v' = v
  | Raise e v' => e = exHeap /\ v' = v
  | Fault => False
  end /\
  match cvtac (Some (encode t)) d v with
  | Ret _ v' => wf v' /\ forall x, val v' x = set_val d (Some t) (val v) x
  | Raise e v' => e = exHeap /\ v' = v
  | Fault => False
  end /\
  match string2c (vars v !! s) v with
  | Ret bs v' => bs = cstring t /\ same v v'
  | Raise e v' => e = exNomem /\ v' = v
  | Fault => False
  end.
Proof.
  intros W Hs. split; [| split].
  - by apply (wp_cvtca s t (fun e v' => e = exHeap /\ v' = v) v W Hs).
  - apply (wp_cvtac t d (fun e v' => e = exHeap /\ v' = v) v W); [| done].
    unfold val in Hs. destruct (vars v !! s) as [p|]; [| done]. cbn in Hs.
    destruct (strs v !! p) as [ss|] eqn:Hp; [| done]. injection Hs as <-. by apply text_runes, (w_ok _ _ W p).
  - by apply (wp_string2c s t (fun e v' => e = exNomem /\ v' = v) v W Hs).
Qed.
End Utf.

(** ** Appending a string to itself *)

Definition wide (s : String) : bool := len s <? 0.
(** The bytes of a character, and the characters. *)
Definition width (s : String) : Z := if wide s then 2 else 1.
Definition nchars (s : String) : Z := Z.abs (len s).

Section SelfAppend.
Context `{Allocator}.

(** What is left of the string: its length has been changed before it is read
    as the one to append. *)
Definition doubled (s : String) : String :=
  let n := nchars s in
  if wide s then
    MkString (ref s) (- (n + n)) (max s) (cap s)
      (Runes (splice (as_runes s) n (map u16 (slice (as_runes s) 0 (n + n)))))
  else
    MkString (ref s) (n + n) (max s) (cap s)
      (Bytes (splice (as_ascii s) n (map u8 (slice (as_ascii s) 0 (n + n))))).

Lemma run_str {A} p s (k : String -> M A) v : strs v !! p = Some s -> (str p ≫= k) v = k s v.
Proof. intros Hp. unfold mbind, m_bind, str. by rewrite Hp. Qed.

Lemma run_var {A} d (k : option positive -> M A) v : (var d ≫= k) v = k (vars v !! d) v.
Proof. done. Qed.

Lemma run_mod_str {A} p s f (k : unit -> M A) v : strs v !! p = Some s -> (mod_str p f ≫= k) v = k tt (upd p (f s) v).
Proof. intros Hp. unfold mod_str, mbind, m_bind, str. by rewrite Hp. Qed.

Lemma srun_ret {A B} (a : A) (k : A -> M B) v : (mret a ≫= k) v = k a v.
Proof. done. Qed.

Lemma run_get_runes p s r off n v : strs v !! p = Some s -> data s = Runes r -> 0 <= off -> 0 <= n ->
  2 * (off + n) <= cap s -> get_runes p off n v = Ret (slice r off n) v.
Proof.
  intros Hp Ed H1 H2 H3. unfold get_runes. rewrite (run_str p s), Ed by done.
  by rewrite (proj2 (Z.leb_le 0 off)), (proj2 (Z.leb_le 0 n)), (proj2 (Z.leb_le (2 * _) _)) by lia.
Qed.

Lemma run_get_ascii p s b off n v : strs v !! p = Some s -> data s = Bytes b -> 0 <= off -> 0 <= n ->
  off + n <= cap s -> get_ascii p off n v = Ret (slice b off n) v.
Proof.
  intros Hp Ed H1 H2 H3. unfold get_ascii. rewrite (run_str p s), Ed by done.
  by rewrite !(proj2 (Z.leb_le _ _)) by lia.
Qed.

Lemma run_put_runes p s off xs v : strs v !! p = Some s -> 0 <= off ->
  put_runes p off xs v = if 2 * (off + zlen xs) <=? cap s
    then Ret tt (upd p (set_data (Runes (splice (as_runes s) off (map u16 xs))) s) v) else Fault.
Proof.
  intros Hp H1. unfold put_runes. rewrite (run_str p s), (proj2 (Z.leb_le 0 off)) by done. cbn [andb].
  destruct (2 * _ <=? _); [| done]. unfold mod_str. by rewrite (run_str p s).
Qed.

Lemma run_put_ascii p s off xs v : strs v !! p = Some s -> 0 <= off ->
  put_ascii p off xs v = if off + zlen xs <=? cap s
    then Ret tt (upd p (set_data (Bytes (splice (as_ascii s) off (map u8 xs))) s) v) else Fault.
Proof.
  intros Hp H1. unfold put_ascii. rewrite (run_str p s), (proj2 (Z.leb_le 0 off)) by done. cbn [andb].
  destruct (_ <=? cap s); [| done]. unfold mod_str. by rewrite (run_str p s).
Qed.

Lemma srun_bind {A B} (m : M A) (k : A -> M B) a v v' : m v = Ret a v' -> (m ≫= k) v = k a v'.
Proof. intros Hm. unfold mbind, m_bind. by rewrite Hm. Qed.

Lemma run_fault {A B} (m : M A) (k : A -> M B) v : m v = Fault -> (m ≫= k) v = Fault.
Proof. intros Hm. unfold mbind, m_bind. by rewrite Hm. Qed.

Lemma addstring_self p s v : strs v !! p = Some s -> ok s -> ref s <= 1 -> 0 < nchars s -> 2 * nchars s <= max s ->
  addstring (Some p) (Some p) true v =
    if width s * (3 * nchars s) <=? cap s then Ret (Some p) (upd p (doubled s) v) else Fault.
Proof.
  intros Hp Ho Hr Hn Hm. unfold addstring. rewrite (run_str p s) by done. rewrite (proj2 (Z.ltb_ge 1 _)) by lia.
  cbv zeta. rewrite (run_str p s) by done. unfold width, wide, nchars in *.
  pose proof Ho as (_ & _ & Hd).
  destruct (Z.ltb_spec (len s) 0) as [Hneg | Hpos].
  - destruct (data s) as [| r] eqn:Ed; [lia |]. replace (Z.abs (len s)) with (- len s) in * by lia.
    set (n := - len s) in *. replace (n - len s) with (n + n) by lia. cbn [andb].
    rewrite (proj2 (Z.leb_le _ _)) by lia. rewrite srun_ret, (run_mod_str p s), (run_str p (set_len (- (n + n)) s)) by (done || apply lookup_upd).
    cbn [len set_len]. rewrite (proj2 (Z.ltb_lt _ _)) by lia. rewrite Z.opp_involutive.
    assert (n + n <= cap s / 2) by (apply Z.div_le_lower_bound; lia).
    set (v1 := upd p (set_len (- (n + n)) s) v).
    assert (strs v1 !! p = Some (set_len (- (n + n)) s)) as H1 by apply lookup_upd.
    assert ((xs ← get_runes p 0 (n + n); put_runes p n xs) v1 =
      if 2 * (3 * n) <=? cap s then Ret tt (upd p (doubled s) v) else Fault) as Hput.
    { rewrite (srun_bind _ _ (slice r 0 (n + n)) v1 v1) by (apply (run_get_runes _ _ _ _ _ _ H1); [done | lia | lia | cbn; lia]).
      rewrite (run_put_runes _ _ _ _ _ H1), length_slice by lia. cbn [cap set_len].
      replace (n + (n + n)) with (3 * n) by lia. destruct (_ <=? _); [| done]. unfold v1. rewrite upd_upd.
      unfold doubled, nchars, wide, as_runes, set_data, set_len. cbn [data ref max cap len]. rewrite Ed.
      rewrite (proj2 (Z.ltb_lt _ _)), Z.abs_neq by lia. done. }
    unfold mbind at 1, m_bind at 1. rewrite Hput. destruct (_ <=? cap s); reflexivity.
  - destruct (data s) as [b |] eqn:Ed; [| lia]. replace (Z.abs (len s)) with (len s) in * by lia.
    set (n := len s) in *. cbn [andb].
    rewrite (proj2 (Z.leb_le _ _)) by lia. rewrite srun_ret, (run_mod_str p s), (run_str p (set_len (n + n) s)) by (done || apply lookup_upd).
    cbn [len set_len]. 
    set (v1 := upd p (set_len (n + n) s) v).
    assert (strs v1 !! p = Some (set_len (n + n) s)) as H1 by apply lookup_upd.
    rewrite (srun_bind _ _ (slice b 0 (n + n)) v1 v1) by (apply (run_get_ascii _ _ _ _ _ _ H1); [done | lia | lia | cbn; lia]).
    unfold mbind, m_bind. rewrite (run_put_ascii _ _ _ _ _ H1), length_slice by lia. cbn [cap set_len].
    replace (n + (n + n)) with (1 * (3 * n)) by lia. destruct (_ <=? _); [| done]. unfold v1. rewrite upd_upd.
    unfold doubled, nchars, wide, as_ascii, set_data, set_len. cbn [data ref max cap len]. rewrite Ed.
    rewrite (proj2 (Z.ltb_ge _ _)), Z.abs_eq by lia. done.
Qed.

(** Twice over, when the overlapping store stays in the block. *)
Lemma splice_double l n f : 0 <= n -> n + n <= zlen l -> n + (n + n) <= zlen l ->
  take (Z.to_nat (n + n)) (splice l n (map f (slice l 0 (n + n)))) = take (Z.to_nat n) l ++ map f (take (Z.to_nat n) l).
Proof.
  intros H1 H2 H3. unfold splice, slice. rewrite drop_0, app_assoc.
  rewrite take_app_le by (rewrite length_app, length_map, !length_take; lia).
  rewrite Z2Nat.inj_add by lia. rewrite take_app_add' by (rewrite length_take; lia). f_equal.
  rewrite firstn_map, take_take. do 2 f_equal. lia.
Qed.

Lemma doubled_ok s : ok s -> 0 < nchars s -> 2 * nchars s <= max s -> width s * (3 * nchars s) <= cap s ->
  ok (doubled s) /\ text (doubled s) = text s ++ text s.
Proof.
  intros Ho Hn Hm Hc. pose proof (text_runes s Ho) as Hr. pose proof (ok_max s Ho) as (Hm0 & Hm1 & _).
  unfold doubled, width, wide, nchars in *. cbv zeta. destruct (Z.ltb_spec (len s) 0) as [Hneg | Hpos].
  - pose proof (ok_max_runes s Ho Hneg) as [Hm2 _]. pose proof (as_runes_length s Ho) as Har.
    pose proof (text_as_runes s Ho ltac:(lia)) as Htx. replace (Z.abs (len s)) with (- len s) in * by lia.
    assert (3 * - len s <= cap s / 2) by (apply Z.div_le_lower_bound; lia).
    pose proof (splice_double (as_runes s) (- len s) u16 ltac:(lia) ltac:(lia) ltac:(lia)) as Hs.
    rewrite <- Htx, (map_u16_id (text s)) in Hs by done.
    destruct (ok_runes s (max s) (- len s + - len s) (splice (as_runes s) (- len s) (map u16 (slice (as_runes s) 0 (- len s + - len s)))))
      as [Ho' Ht']; [done | lia | lia | lia | lia | | rewrite Hs; by apply Forall_app | by rewrite Ht'].
    rewrite length_splice; [done | lia |]. rewrite length_map, length_slice; lia.
  - pose proof (as_ascii_length s Ho) as Har. pose proof (text_ascii s Ho Hpos) as Ha.
    pose proof (text_as_ascii s Ho Hpos) as Htx. replace (Z.abs (len s)) with (len s) in * by lia.
    pose proof (splice_double (as_ascii s) (len s) u8 ltac:(lia) ltac:(lia) ltac:(lia)) as Hs.
    rewrite <- Htx, (map_u8_id (text s)) in Hs by done.
    destruct (ok_bytes s (len s + len s) (splice (as_ascii s) (len s) (map u8 (slice (as_ascii s) 0 (len s + len s)))))
      as [Ho' Ht']; [done | lia | lia | | rewrite Hs; by apply Forall_app | by rewrite Ht'].
    rewrite length_splice; [done | lia |]. rewrite length_map, length_slice; lia.
Qed.

(** A string appended to itself in place: when nobody shares the string in
    cell [d] and it has room for twice its characters, [addc] of [d] to [d]
    doubles it, and leaves the other cells, if three times the characters fit
    the block; if they do not it stores past the end of the block. *)
Theorem addc_self_overflow (d : Z) (p : positive) (s : String) (v : vm) :
  wf v -> vars v !! d = Some p -> strs v !! p = Some s -> ref s <= 1 -> 0 < nchars s -> 2 * nchars s <= max s ->
  if width s * (3 * nchars s) <=? cap s then
    exists v', addc d d d v = Ret tt v' /\ wf v' /\
      forall x, val v' x = set_val d (Some (text s ++ text s)) (val v) x
  else addc d d d v = Fault.
Proof.
  intros W Hd Hp Hr Hn Hm. pose proof (w_ok _ _ W p s Hp) as Ho. pose proof (addstring_self p s v Hp Ho Hr Hn Hm) as Ha.
  assert (addc d d d v = (ns ← addstring (Some p) (Some p) true; o ← var d;
    if decide (ns = o) then mret tt else replace d ns) v) as ->.
  { unfold addc. by rewrite !run_var, Hd, Z.eqb_refl. }
  destruct (Z.leb_spec (width s * (3 * nchars s)) (cap s)) as [Hc | _]; [| by apply run_fault].
  rewrite (srun_bind _ _ _ _ _ Ha).
  destruct (doubled_ok s Ho Hn Hm Hc) as [Hok Ht].
  assert (ref (doubled s) = ref s) as Href by (unfold doubled; cbv zeta; by destruct (wide s)).
  exists (upd p (doubled s) v). split; [| split; [by eapply wf_upd |]].
  - rewrite run_var. cbn [vars upd set_strs]. by rewrite Hd, decide_True.
  - intros x. by rewrite (val_upd d p s), Ht.
Qed.
End SelfAppend.

(** ** Witnesses *)

(** The blocks of the heap are multiples of 32 bytes, of which 44 are headers
    of the pool, the heap and the string. *)
Definition pool_room (nb : Z) : option Z :=
  let n := (nb + 44 + 31) / 32 * 32 - 44 in if (0 <=? nb) && (n + 4 <? 2 ^ 31) then Some n else None.

Lemma pool_room_ge nb n : 0 <= nb -> pool_room nb = Some n -> nb <= n /\ n + 4 < 2 ^ 31.
Proof.
  intros Hnb. unfold pool_room. cbv zeta. destruct (_ && _) eqn:Hb; [| done]. intros [= <-].
  apply andb_true_iff in Hb as [_ Hb%Z.ltb_lt]. pose proof (Z.div_mod (nb + 44 + 31) 32 ltac:(lia)).
  pose proof (Z.mod_pos_bound (nb + 44 + 31) 32 ltac:(lia)). lia.
Qed.

Instance pool_alloc : Allocator :=
  {| room _ := pool_room; room_ge _ := pool_room_ge; tmproom _ _ _ := true; aroom _ _ := true |}.

Definition after (o : op) (v : vm) : vm :=
  match exec o v with Ret _ v' | Raise _ v' => v' | Fault => v end.

Lemma after_step o v : wf v -> valid o -> step v (after o v).
Proof.
  intros W Hv. pose proof (exec_spec o v W Hv) as Hr. unfold refines, wp in Hr. unfold after.
  destruct (exec o v) as [a v' | e v' |] eqn:E; [by eapply step_ret | by eapply step_raise | done].
Qed.

Definition run (os : list op) : vm := fold_left (fun v o => after o v) os (MkVm ∅ ∅).

Lemma run_steps os : Forall valid os -> rtc step (MkVm ∅ ∅) (run os) /\ wf (run os).
Proof.
  unfold run. intros Hos.
  assert (forall v, rtc step (MkVm ∅ ∅) v -> wf v ->
    rtc step (MkVm ∅ ∅) (fold_left (fun v o => after o v) os v) /\ wf (fold_left (fun v o => after o v) os v)) as Hgo.
  { induction Hos as [|o os Ho _ IH]; [done |]. intros v Hs W. pose proof (after_step o v W Ho) as Hst. apply IH.
    - by eapply rtc_r.
    - by eapply step_wf. }
  apply Hgo; [done | apply wf_empty].
Qed.

(** Cell 0 holds [aé], shared with cell 1 until [b] is stored there; cell 2
    holds nine characters. *)
Definition demo_ops : list op :=
  [OInsc 97 0 0; OInsc 233 1 0; OMovp 0 1; OInsc 98 0 1] ++ map (fun i => OInsc 99 i 2) (seqZ 0 9).
Definition demo : vm := run demo_ops.

Lemma demo_wf : rtc step (MkVm ∅ ∅) demo /\ wf demo.
Proof. apply run_steps. repeat (constructor; [cbn; try done; lia |]). constructor. Qed.

Lemma demo_cells : val demo 0 = Some [97; 233] /\ val demo 1 = Some [98; 233] /\ val demo 2 = Some (replicate 9 99).
Proof. vm_compute. done. Qed.

Lemma demo_nine :
  (p ← vars demo !! 2; s ← strs demo !! p; Some (ref s, len s, max s, cap s)) = Some (1, 9, 20, 24).
Proof. vm_compute. done. Qed.

#[local] Opaque demo.

Lemma demo_string : exists p s, vars demo !! 2 = Some p /\ strs demo !! p = Some s /\
  ref s = 1 /\ len s = 9 /\ max s = 20 /\ cap s = 24.
Proof.
  pose proof demo_nine as H. destruct (vars demo !! 2) as [p|]; [| done]. cbn [mbind option_bind] in H.
  destruct (strs demo !! p) as [s|] eqn:Hp; [| done]. cbn [mbind option_bind] in H. exists p, s. injection H as Hr Hl Hm Hc.
  repeat split; assumption.
Qed.

Lemma string_refines_witness :
  (stands demo (val demo) /\ valid (OAddc 0 1 1)) /\
  match exec (OAddc 0 1 1) demo with
  | Ret a v' => exists g, ares_eq (aexec (OAddc 0 1 1) (val demo)) (AOk a g) /\ stands v' g
  | Raise e v' => stands v' (val demo) /\ (e = exHeap \/ aexec (OAddc 0 1 1) (val demo) = AErr e)
  | Fault => False
  end.
Proof.
  assert (stands demo (val demo)) as Hs by (split; [apply demo_wf | done]).
  assert (valid (OAddc 0 1 1)) as Hv by (cbn; lia).
  pose proof (string_refines (OAddc 0 1 1) demo (val demo) Hs Hv) as Hr. split; [split |]; assumption.
Defined.

Lemma strings_typed_witness :
  rtc step (MkVm ∅ ∅) demo /\
  (forall a p, vars demo !! a = Some p -> is_Some (strs demo !! p)) /\
  (forall p s, strs demo !! p = Some s -> typed s) /\
  (forall p s l, strs demo !! p = Some s -> NoDup l -> Forall (fun a => vars demo !! a = Some p) l -> zlen l <= ref s).
Proof. split; [apply demo_wf | exact (strings_typed demo (proj1 demo_wf))]. Defined.

Lemma stringcmp_correct_witness :
  wf demo /\ exists r, stringcmp (vars demo !! 0) (vars demo !! 1) demo = Ret r demo /\
    (0 ∉ chars demo 0 \/ 0 ∉ chars demo 1 \/ ~ narrow_at demo 0 \/ ~ narrow_at demo 1 ->
       Z.sgn r = lexcmp (chars demo 0) (chars demo 1)) /\
    (forall u x y, narrow_at demo 0 -> narrow_at demo 1 -> chars demo 0 = u ++ 0 :: x -> chars demo 1 = u ++ 0 :: y ->
       r = zlen (chars demo 0) - zlen (chars demo 1)).
Proof. split; [apply demo_wf | exact (stringcmp_correct 0 1 demo (proj2 demo_wf))]. Defined.

Lemma utf_roundtrip_witness :
  (wf demo /\ val demo 0 = Some [97; 233]) /\
  match cvtca 0 demo with
  | Ret bs v' => bs = [97; 0xC3; 0xA9] /\ v' = demo
  | Raise e v' => e = exHeap /\ v' = demo
  | Fault => False
  end /\
  match cvtac (Some [97; 0xC3; 0xA9]) 3 demo with
  | Ret _ v' => wf v' /\ forall x, val v' x = set_val 3 (Some [97; 233]) (val demo) x
  | Raise e v' => e = exHeap /\ v' = demo
  | Fault => False
  end /\
  match string2c (vars demo !! 0) demo with
  | Ret bs v' => bs = [97; 0xC3; 0xA9; 0] /\ same demo v'
  | Raise e v' => e = exNomem /\ v' = demo
  | Fault => False
  end.
Proof.
  pose proof (utf_roundtrip 0 3 [97; 233] demo (proj2 demo_wf) (proj1 demo_cells)) as Hr.
  change (cstring [97; 233]) with [97; 0xC3; 0xA9; 0] in Hr. change (encode [97; 233]) with [97; 0xC3; 0xA9] in Hr.
  split; [split; [apply demo_wf | apply demo_cells] | assumption].
Defined.

(** The nine characters are in a block of 24 bytes with room for 20. *)
Lemma addc_self_overflow_witness : exists p s,
  (vars demo !! 2 = Some p /\ strs demo !! p = Some s /\ ref s <= 1 /\ 0 < nchars s /\ 2 * nchars s <= max s) /\
  addc 2 2 2 demo = Fault.
Proof.
  destruct demo_string as (p & s & Hd & Hp & Hr & Hl & Hm & Hc).
  assert (width s = 1) as Hw by (unfold width, wide; by rewrite Hl).
  assert (nchars s = 9) as Hn by (unfold nchars; by rewrite Hl).
  assert (ref s <= 1) as H1 by lia. assert (0 < nchars s) as H2 by lia.
  assert (2 * nchars s <= max s) as H3 by lia. exists p, s. split; [repeat split; assumption |].
  pose proof (addc_self_overflow 2 p s demo (proj2 demo_wf) Hd Hp H1 H2 H3) as Hf.
  rewrite Hw, Hc, Hn in Hf. assumption.
Defined.
