(* ===== verification/Pool.v ===== *)
(** * The pool allocator (emu/alloc.c)

    A pool owns arenas it gets from the host by [sbrk].  An arena is cut into
    blocks, each with a header and a tail that points back to the header; free
    blocks hang in a tree ordered by size, blocks of one size in a ring.
    Memory is words at byte addresses: headers, tails and the links that free
    blocks keep in their data are words of it, and a load or store outside what
    [sbrk] gave is a fault.  The lock of a pool is held by every routine from
    end to end, so routines are the steps of the model. *)

From S2P Require Import Prelude Heap.

#[local] Open Scope Z_scope.

Module Pool.

(** ** Memory *)

Abbreviation M := (heapM Z).

Definition at_ (a : Z) : ptr := match a with Zpos x => Some x | _ => None end.

Definition get (b off : Z) : M Z := load (at_ (b + off)).
Definition set (b off v : Z) : M unit := store (at_ (b + off)) v.

(** [memmove] of words; the source is read before anything is stored. *)
Fixpoint loads (a : Z) (n : nat) : M (list Z) :=
  match n with O => mret [] | S n => x ← get a 0; xs ← loads (a + 4) n; mret (x :: xs) end.
Fixpoint stores (a : Z) (xs : list Z) : M unit :=
  match xs with [] => mret tt | x :: xs => set a 0 x;; stores (a + 4) xs end.
Definition memmove (dst src n : Z) : M unit := xs ← loads src (Z.to_nat (n / 4)); stores dst xs.

(** ** Data *)

Definition MAGIC_A := 0xa110c.
Definition MAGIC_F := 0xbadc0c0a.
Definition MAGIC_E := 0xdeadbabe.
Definition MAGIC_I := 0xabba.

(** Offsets of the members of [Bhdr] and [Btail]. *)
Definition magic := 0.
Definition size := 4.
Definition data := 8.
Definition left := 8.
Definition right := 12.
Definition parent := 16.
Definition prev := 20.
Definition fwd := 24.
Definition clink := 8.
Definition csize := 12.
Definition hdr := 4.
Definition sizeof_Btail := 8.
Definition BHDRSIZE := data + sizeof_Btail.

Record Pool := MkPool {
  maxsize : Z;
  quanta : Z;
  chunk : Z;
  cursize : Z;
  arenasize : Z;
  hw : Z;
  root : Z;
  chain : Z;
  nalloc : Z;
  nfree : Z;
  nbrk : Z;
  lastfree : Z;
  move : option (Z -> Z -> M unit);
}.

Definition set_maxsize v p := MkPool v (quanta p) (chunk p) (cursize p) (arenasize p) (hw p) (root p) (chain p) (nalloc p) (nfree p) (nbrk p) (lastfree p) (move p).
Definition set_cursize v p := MkPool (maxsize p) (quanta p) (chunk p) v (arenasize p) (hw p) (root p) (chain p) (nalloc p) (nfree p) (nbrk p) (lastfree p) (move p).
Definition set_arenasize v p := MkPool (maxsize p) (quanta p) (chunk p) (cursize p) v (hw p) (root p) (chain p) (nalloc p) (nfree p) (nbrk p) (lastfree p) (move p).
Definition set_hw v p := MkPool (maxsize p) (quanta p) (chunk p) (cursize p) (arenasize p) v (root p) (chain p) (nalloc p) (nfree p) (nbrk p) (lastfree p) (move p).
Definition set_root v p := MkPool (maxsize p) (quanta p) (chunk p) (cursize p) (arenasize p) (hw p) v (chain p) (nalloc p) (nfree p) (nbrk p) (lastfree p) (move p).
Definition set_chain v p := MkPool (maxsize p) (quanta p) (chunk p) (cursize p) (arenasize p) (hw p) (root p) v (nalloc p) (nfree p) (nbrk p) (lastfree p) (move p).
Definition set_nalloc v p := MkPool (maxsize p) (quanta p) (chunk p) (cursize p) (arenasize p) (hw p) (root p) (chain p) v (nfree p) (nbrk p) (lastfree p) (move p).
Definition set_nfree v p := MkPool (maxsize p) (quanta p) (chunk p) (cursize p) (arenasize p) (hw p) (root p) (chain p) (nalloc p) v (nbrk p) (lastfree p) (move p).
Definition set_nbrk v p := MkPool (maxsize p) (quanta p) (chunk p) (cursize p) (arenasize p) (hw p) (root p) (chain p) (nalloc p) (nfree p) v (lastfree p) (move p).
Definition set_lastfree v p := MkPool (maxsize p) (quanta p) (chunk p) (cursize p) (arenasize p) (hw p) (root p) (chain p) (nalloc p) (nfree p) (nbrk p) v (move p).
Definition set_move v p := MkPool (maxsize p) (quanta p) (chunk p) (cursize p) (arenasize p) (hw p) (root p) (chain p) (nalloc p) (nfree p) (nbrk p) (lastfree p) v.

(** The pools of [table]. *)
Definition new_pool (maxsize chunk : Z) : Pool := MkPool maxsize 31 chunk 0 0 0 0 0 0 0 0 0 None.
Definition mainmem := new_pool (6 * 1024 * 1024) (512 * 1024).
Definition heapmem := new_pool (16 * 1024 * 1024) (512 * 1024).
Definition imagmem := new_pool (8 * 1024 * 1024 + 256) (4 * 1024 * 1024).

Definition B2D (b : Z) : Z := b + data.
Definition B2NB (b : Z) : M Z := s ← get b size; mret (b + s).
Definition B2T (b : Z) : M Z := s ← get b size; mret (b + s - sizeof_Btail).
Definition B2PT (b : Z) : Z := b - sizeof_Btail.
Definition B2LIMIT (b : Z) : M Z := s ← get b csize; mret (b + s).

(** [D2B]: the header, unless the block has been clobbered or freed, which ends
    in [poolfault], a panic. *)
Definition D2B (v : Z) : M Z :=
  let b := v - data in
  m ← get b magic;
  if (m =? MAGIC_A) || (m =? MAGIC_I) then mret b else fault.

Definition poolimmutable (v : Z) : M unit := b ← D2B v; set b magic MAGIC_I.
Definition poolmutable (v : Z) : M unit := b ← D2B v; set b magic MAGIC_A.

(** ** The tree of free blocks *)

(** [if(rp != nil) rp->parent = f] *)
Definition set_parent (rp f : Z) : M unit := if rp =? 0 then mret tt else set rp parent f.

(** [t->prev->fwd = t->fwd; t->fwd->prev = t->prev] *)
Definition unring (t : Z) : M unit :=
  v ← get t prev; f ← get t fwd; set v fwd f;;
  f ← get t fwd; v ← get t prev; set f prev v.

(** The pointer to [t], whose parent is [s], leads to [f]. *)
Definition replace_child (p : Pool) (s t f : Z) : M Pool :=
  if s =? 0 then mret (set_root f p)
  else
    l ← get s left;
    (if l =? t then set s left f else set s right f);;
    mret p.

(** The node that takes the place of [t] when it has two children: the least of
    those to its right. *)
Definition successor (t : Z) : M Z :=
  rp ← get t right;
  s ← get rp left;
  '(f, rp) ← loop (fun '(f, rp, s) =>
    if s =? 0 then mret (inr (f, rp))
    else s' ← get s left; mret (inl (rp, s, s'))) (t, rp, s);
  (if f =? t then mret tt
   else
     s ← get rp right;
     set f left s;;
     set_parent s f;;
     s ← get t right;
     set rp right s;;
     set_parent s rp);;
  s ← get t left;
  set rp left s;;
  set s parent rp;;
  mret rp.

Definition pooldel (p : Pool) (t : Z) : M Pool :=
  tp ← get t parent;
  if (tp =? 0) && negb (root p =? t) then unring t;; mret p
  else
    f ← get t fwd;
    if negb (f =? t) then
      s ← get t parent;
      set f parent s;;
      p ← replace_child p s t f;
      rp ← get t left;
      set f left rp;;
      set_parent rp f;;
      rp ← get t right;
      set f right rp;;
      set_parent rp f;;
      unring t;;
      mret p
    else
      l ← get t left;
      rp ← (if l =? 0 then get t right
            else
              r ← get t right;
              if r =? 0 then get t left else successor t);
      q ← get t parent;
      p ← replace_child p q t rp;
      set_parent rp q;;
      mret p.

Definition pooladd (p : Pool) (q : Z) : M Pool :=
  set q magic MAGIC_F;;
  set q left 0;;
  set q right 0;;
  set q parent 0;;
  set q fwd q;;
  set q prev q;;
  if root p =? 0 then mret (set_root q p)
  else
    sz ← get q size;
    found ← loop (fun '(tp, t) =>
      if t =? 0 then mret (inr (Some tp))
      else
        ts ← get t size;
        if sz =? ts then
          v ← get t prev;
          set q prev v;;
          v ← get q prev;
          set v fwd q;;
          set q fwd t;;
          set t prev q;;
          mret (inr None)
        else
          t' ← (if sz <? ts then get t left else get t right);
          mret (inl (t, t'))) (0, root p);
    match found with
    | None => mret p
    | Some tp =>
        set q parent tp;;
        ts ← get tp size;
        (if sz <? ts then set tp left q else set tp right q);;
        mret p
    end.

(** ** Allocation *)

(** [p->cursize += t->size] and the high water mark. *)
Definition charge (p : Pool) (t : Z) : M Pool :=
  ts ← get t size;
  let p := set_cursize (u32 (cursize p + ts)) p in
  mret (if hw p <? cursize p then set_hw (cursize p) p else p).

(** The words of [n] bytes at [t]. *)
Definition region (t n : Z) : gmap positive Z :=
  list_to_map (omap (fun i => a ← at_ (4 * i); Some (a, 0)) (seqZ ((t + 3) / 4) ((t + n) / 4 - (t + 3) / 4))).

Section Host.
(** [sbrk]: an address of memory that is not there yet, or -1. *)
Context (brk : gmap positive Z -> Z -> option Z).

Definition sbrk (n : Z) : M (option Z) := grow (fun h => t ← brk h n; Some (t, region t n)).

(** [~p->quanta] *)
Definition mask (p : Pool) (n : Z) : Z := Z.land n (Z.lnot (quanta p)).

(** [poolcompact]: the blocks in use of each arena are moved to its start. *)
Definition poolcompact (p : Pool) : M (Pool * bool) :=
  match move p with
  | None => mret (p, false)
  | Some mv =>
      if lastfree p =? nfree p then mret (p, false)
      else
        let p := set_lastfree (nfree p) p in
        let base := chain p in
        ptr ← B2NB base;
        limit ← B2LIMIT base;
        let p := set_root 0 p in
        loop (fun '(p, base, ptr, limit, endp, compacted) =>
          next ← B2NB ptr;
          m ← get ptr magic;
          '(endp, compacted) ← (if (m =? MAGIC_A) || (m =? MAGIC_I) then
            compacted ← (if negb (ptr =? endp) then
                           n ← get ptr size;
                           memmove endp ptr n;;
                           mv (B2D ptr) (B2D endp);;
                           mret true
                         else mret compacted);
            e ← B2NB endp;
            mret (e, compacted)
          else mret (endp, compacted));
          if limit <=? next then
            let nb := i32 (limit - endp) in
            p ← (if 0 <? nb then
                   if nb <? quanta p + 1 then fault
                   else set endp size nb;; pooladd p endp
                 else mret p);
            base ← get base clink;
            if base =? 0 then mret (inr (p, compacted : bool))
            else
              ptr ← B2NB base;
              limit ← B2LIMIT base;
              mret (inl (p, base, ptr, limit, ptr, compacted))
          else mret (inl (p, base, next, limit, endp, compacted))) (p, base, ptr, limit, ptr, false)
  end.

(** The search of [poolalloc]: a block of the size, or the least one above it,
    or nil. *)
Definition search (p : Pool) (sz : Z) : M (bool * Z) :=
  loop (fun '(t, q) =>
    if t =? 0 then mret (inr (false, q))
    else
      ts ← get t size;
      if ts =? sz then mret (inr (true, t))
      else if sz <? ts then l ← get t left; mret (inl (l, t))
      else r ← get t right; mret (inl (r, q))) (root p, 0).

(** The block is cut when what is left over is a quarter of the size or more. *)
Definition take_block (p : Pool) (q sz : Z) : M (Pool * Z) :=
  p ← pooldel p q;
  set q magic MAGIC_A;;
  qs ← get q size;
  let frag := i32 (qs - sz) in
  if frag <? Z.shiftr sz 2 then
    p ← charge p q;
    mret (p, B2D q)
  else
    qs ← get q size;
    let ns := i32 (qs - sz) in
    set q size sz;;
    b ← B2T q; set b hdr q;;
    t ← B2NB q;
    set t size ns;;
    b ← B2T t; set b hdr t;;
    p ← pooladd p t;
    p ← charge p q;
    mret (p, B2D q).

(** A new arena of [ns] bytes besides its leader, and the block in it. *)
Definition new_arena (p : Pool) (sz ns : Z) : M (Pool * Z) :=
  let ldr := quanta p + 1 in
  let alloc := ns + ldr + 4 in
  let p := set_nbrk (i32 (nbrk p + 1)) p in
  o ← sbrk (alloc + quanta p);
  match o with
  | None => mret (set_nbrk (i32 (nbrk p - 1)) p, 0)
  | Some t =>
      let t := mask p (t + quanta p) in
      set t magic MAGIC_E;;
      set t size ldr;;
      set t csize (ns + ldr);;
      set t clink (chain p);;
      let p := set_chain t p in
      b ← B2T t; set b hdr t;;
      t ← B2NB t;
      set t magic MAGIC_A;;
      set t size sz;;
      b ← B2T t; set b hdr t;;
      let ns := ns - sz in
      '(p, q) ← (if 0 <? ns then
                   q ← B2NB t;
                   set q size ns;;
                   b ← B2T q; set b hdr q;;
                   p ← pooladd p q;
                   mret (p, q)
                 else mret (p, t));
      e ← B2NB q; set e magic MAGIC_E;;
      p ← charge p t;
      mret (p, B2D t)
  end.

(** No free block will do: a new arena of a chunk, or of what [maxsize] leaves,
    or another try once the pool has been compacted. *)
Definition extend (again : Pool -> M (Pool * Z)) (p : Pool) (sz : Z) : M (Pool * Z) :=
  let ns := if chunk p <? sz then sz else chunk p in
  let ldr := quanta p + 1 in
  let alloc := ns + ldr + 4 in
  let p := set_arenasize (u32 (arenasize p + alloc)) p in
  if maxsize p <? arenasize p then
    let p := set_arenasize (u32 (arenasize p - alloc)) p in
    let ns := mask p (i32 (maxsize p - arenasize p - ldr - 4)) in
    if ns <? sz then
      '(p, ok) ← poolcompact p;
      if ok : bool then again p else mret (p, 0)
    else
      let p := set_arenasize (u32 (arenasize p + (ns + ldr + 4))) p in
      new_arena p sz ns
  else new_arena p sz ns.

(** [poolalloc] tries again after a compaction; [n] bounds the tries. *)
Fixpoint poolalloc_ (n : nat) (p : Pool) (osize : Z) : M (Pool * Z) :=
  match n with
  | O => fault
  | S n =>
      if (osize <? 0) || (1024 * 1024 * 1024 <=? osize) then mret (p, 0)
      else
        let sz := mask p (osize + BHDRSIZE + quanta p) in
        let p := set_nalloc (i32 (nalloc p + 1)) p in
        '(exact, q) ← search p sz;
        if exact : bool then
          t ← get q fwd;
          p ← pooldel p t;
          set t magic MAGIC_A;;
          p ← charge p t;
          mret (p, B2D t)
        else if negb (q =? 0) then take_block p q sz
        else extend (fun p => poolalloc_ n p osize) p sz
  end.
Definition poolalloc : Pool -> Z -> M (Pool * Z) := poolalloc_ 2.

End Host.

(** ** Freeing *)

(** "Join forward": with the block behind [b], if it is free. *)
Definition join_forward (p : Pool) (b : Z) : M Pool :=
  c ← B2NB b;
  m ← get c magic;
  if m =? MAGIC_F then
    p ← pooldel p c;
    set c magic 0;;
    bs ← get b size;
    cs ← get c size;
    set b size (u32 (bs + cs));;
    t ← B2T b; set t hdr b;;
    mret p
  else mret p.

(** "Join backward": with the block before [b]; the block that results. *)
Definition join_backward (p : Pool) (b : Z) : M (Pool * Z) :=
  c ← get (B2PT b) hdr;
  m ← get c magic;
  if m =? MAGIC_F then
    p ← pooldel p c;
    set b magic 0;;
    cs ← get c size;
    bs ← get b size;
    set c size (u32 (cs + bs));;
    t ← B2T c; set t hdr c;;
    mret (p, c)
  else mret (p, b).

Definition poolfree (p : Pool) (v : Z) : M Pool :=
  b ← D2B v;
  let p := set_nfree (i32 (nfree p + 1)) p in
  bs ← get b size;
  let p := set_cursize (u32 (cursize p - bs)) p in
  p ← join_forward p b;
  '(p, b) ← join_backward p b;
  pooladd p b.

Definition msize (v : Z) : M Z :=
  b ← D2B v;
  s ← get b size;
  mret (i32 (s - BHDRSIZE)).

(** The most that may be had at once, as [poolread] reports it. *)
Definition poolmax (p : Pool) : M Z :=
  let sz := i32 (maxsize p - cursize p) in
  sz ← (if negb (root p =? 0) then
          t ← loop (fun t =>
            r ← get t right;
            if r =? 0 then mret (inr t) else mret (inl r)) (root p);
          ts ← get t size;
          mret (if u32 sz <? ts then i32 ts else sz)
        else mret sz);
  let sz := i32 (sz - BHDRSIZE - quanta p) in
  mret (if sz <? 0 then 0 else sz).

(** ** Settings and checks *)

Definition poolchain (p : Pool) : Z := chain p.
Definition poolsetcompact (p : Pool) (mv : Z -> Z -> M unit) : Pool := set_move (Some mv) p.
Definition memlow (heapmem : Pool) : Z := if maxsize heapmem / 2 <? cursize heapmem then 1 else 0.

(** The pools of [table] by name. *)
Fixpoint poolsetsize (t : list (string * Pool)) (s : string) (sz : Z) : list (string * Pool) * Z :=
  match t with
  | [] => ([], 0)
  | (n, p) :: t =>
      if String.eqb n s then ((n, set_maxsize (u32 sz) p) :: t, 1)
      else let '(t, r) := poolsetsize t s sz in ((n, p) :: t, r)
  end.

Definition poolmaxsize (t : list (string * Pool)) : Z :=
  fold_left (fun ret np => i32 (ret + maxsize np.2)) t 0.

(** The check that the audit device makes of a block; [pc] is the address of
    its [unidentified], and the two routines keep the device's own tables. *)
Definition auditscan (auditalloc auditfree : Z -> Z -> Z -> M unit) (pc pnum b : Z) : M (option string) :=
  m ← get b magic;
  (if m =? MAGIC_F then auditfree pnum (u32 (pc + 4 * pnum)) b
   else if (m =? MAGIC_I) || (m =? MAGIC_A) then auditalloc pnum (u32 (pc + 4 * pnum)) b
   else mret tt);;
  mret None.

Section Audit.
(** The check of the caller: what is wrong with a block of a pool. *)
Context (audit : Z -> Z -> M (option string)).

Definition audit_block (pnum q bc b : Z) : M (option string) :=
  s ← get b size;
  if (s =? 0) || negb (Z.land s q =? 0) then mret (Some "bad size in bhdr")
  else
    m ← get b magic;
    if (m =? MAGIC_E) && negb (b =? bc) then mret (Some "unexpected MAGIC_E")
    else if (m =? MAGIC_E) || (m =? MAGIC_F) || (m =? MAGIC_A) || (m =? MAGIC_I) then audit pnum b
    else mret (Some "bad magic").

Definition audit_arena (pnum q bc : Z) : M (option string) :=
  m ← get bc magic;
  if negb (m =? MAGIC_E) then mret (Some "bad chain hdr")
  else
    ec ← B2LIMIT bc;
    loop (fun b =>
      if b <? ec then
        r ← audit_block pnum q bc b;
        match r with
        | Some s => mret (inr (Some s))
        | None => b ← B2NB b; mret (inl b)
        end
      else if negb (b =? ec) then mret (inr (Some "bad chain ending"))
      else
        m ← get b magic;
        mret (inr (if negb (m =? MAGIC_E) then Some "bad chain ending" else None))) bc.

Definition audit_pool (pnum : Z) (p : Pool) : M (option string) :=
  loop (fun bc =>
    if bc =? 0 then mret (inr None)
    else
      r ← audit_arena pnum (quanta p) bc;
      match r with
      | Some s => mret (inr (Some s))
      | None => bc ← get bc clink; mret (inl bc)
      end) (chain p).

Fixpoint poolaudit (ps : list (Z * Pool)) : M (option string) :=
  match ps with
  | [] => mret None
  | (pnum, p) :: ps =>
      r ← audit_pool pnum p;
      match r with Some s => mret (Some s) | None => poolaudit ps end
  end.
End Audit.

End Pool.
