(* ===== verification/PoolTree.v ===== *)
(** * The tree of free blocks

    What memory holds for the tree of free blocks of a pool: the binary tree by
    size, with parent pointers, and the rings of blocks of one size.  [pooladd],
    [pooldel] and the search against the list of sizes in order. *)

From S2P Require Import Prelude Heap Pool.
Import Pool.

#[local] Open Scope Z_scope.

(** ** Words *)

Definition w (a v : Z) : hpropI Z := match at_ a with Some x => x ↦ v | None => ⌜False⌝%I end.

Section Words.
Implicit Types (Φ : Z -> hpropI Z).

Lemma wp_get b off v Φ : w (b + off) v -∗ (w (b + off) v -∗ Φ v) -∗ wp (get b off) Φ.
Proof.
  unfold w, get. destruct (at_ (b + off)) as [x|]; [| by iIntros "%"].
  iIntros "Hx HΦ". by iApply (wp_load with "Hx").
Qed.

Lemma wp_set b off v v' (Φ : unit -> hpropI Z) :
  w (b + off) v -∗ (w (b + off) v' -∗ Φ tt) -∗ wp (set b off v') Φ.
Proof.
  unfold w, set. destruct (at_ (b + off)) as [x|]; [| by iIntros "%"].
  iIntros "Hx HΦ". by iApply (wp_store with "Hx").
Qed.

Lemma w_size_ge a v n : w a v -∗ size_ge n -∗ size_ge (S n).
Proof.
  iIntros "Hw Hn". unfold w. destruct (at_ a) as [x|]; [by iApply (size_ge_cons with "Hw") | by iDestruct "Hw" as %?].
Qed.

Lemma w_pos a v : w a v ⊢ ⌜0 < a⌝.
Proof. unfold w, at_. destruct a; by iIntros "H". Qed.

Lemma w_ne a b off v u : w (a + off) v -∗ w (b + off) u -∗ ⌜a <> b⌝.
Proof.
  iIntros "Ha Hb". destruct (decide (a = b)) as [-> | Hne]; [| by iPureIntro].
  unfold w. destruct (at_ (b + off)) as [x|]; [| by iDestruct "Ha" as "%"].
  by iDestruct (pto_ne with "Ha Hb") as %?.
Qed.

Lemma w_size n a v : w a v -∗ size_ge n -∗ size_ge (S n).
Proof.
  unfold w. destruct (at_ a) as [x|]; [| by iIntros "%"]. iIntros "Hx Hn". by iApply (size_ge_cons with "Hx").
Qed.
End Words.

#[global] Typeclasses Opaque w.
#[global] Opaque w.

Tactic Notation "wp_get" constr(H) := wp_op ltac:(fun _ => iApply (wp_get with H)); iIntros H.
Tactic Notation "wp_set" constr(H) := wp_op ltac:(fun _ => iApply (wp_set with H)); iIntros H.

(** ** Rings *)

(** From [x] by the member at [o] through [xs] to [y]. *)
Fixpoint seg (o x : Z) (xs : list Z) (y : Z) : hpropI Z :=
  match xs with
  | [] => w (x + o) y
  | z :: xs => w (x + o) z ∗ seg o z xs y
  end%I.

(** The links of the blocks of one size. *)
Definition ring (h : Z) (ns : list Z) : hpropI Z := (seg fwd h ns h ∗ seg prev h (reverse ns) h)%I.

Section Rings.

Lemma seg_app o x xs z ys y : seg o x (xs ++ z :: ys) y ⊣⊢ seg o x xs z ∗ seg o z ys y.
Proof. revert x. induction xs as [|c xs IH]; intros x; simpl; [done |]. by rewrite IH assoc. Qed.

Lemma ring_rotate h ns1 t ns2 : ring h (ns1 ++ t :: ns2) ⊣⊢ ring t (ns2 ++ h :: ns1).
Proof.
  unfold ring. rewrite !reverse_app !reverse_cons -!(assoc_L (++)) !seg_app.
  iSplit; iIntros "[[$ $] [$ $]]".
Qed.

Lemma wp_unring t n ns (Φ : unit -> hpropI Z) :
  ring t (n :: ns) -∗ (∀ v f, w (t + prev) v -∗ w (t + fwd) f -∗ ring n ns -∗ Φ tt) -∗ wp (unring t) Φ.
Proof.
  iIntros "[Hf Hv] HΦ". unfold unring. simpl. iDestruct "Hf" as "[Htf Hf]". rewrite reverse_cons.
  destruct ns as [|v ns _] using rev_ind.
  - iDestruct "Hv" as "[Htv Hnv]". simpl.
    wp_get "Htv". wp_get "Htf". wp_set "Hf". wp_get "Htf". wp_get "Htv".
    iApply (wp_set with "Hnv"). iIntros "Hnv". iApply ("HΦ" with "Htv Htf"). by iFrame.
  - rewrite reverse_app. simpl. rewrite !seg_app. iDestruct "Hv" as "[Htv [Hv Hnv]]".
    iDestruct "Hf" as "[Hf Hvf]". simpl.
    wp_get "Htv". wp_get "Htf". wp_set "Hvf". wp_get "Htf". wp_get "Htv".
    iApply (wp_set with "Hnv"). iIntros "Hnv". iApply ("HΦ" with "Htv Htf").
    unfold ring. rewrite reverse_app seg_app. simpl. iFrame.
Qed.
End Rings.

(** ** Trees *)

(** A node is the first of the blocks of its size, [h]; the others are [ns]. *)
Inductive tree := Leaf | Node (l : tree) (h : Z) (ns : list Z) (sz : Z) (r : tree).

(** A block in a ring that is not in the tree. *)
Definition side (sz n : Z) : hpropI Z :=
  (⌈0 < n⌉ ∗ w (n + size) sz ∗ w (n + left) 0 ∗ w (n + right) 0 ∗ w (n + parent) 0)%I.

(** All of a node but its subtrees. *)
Definition node (h : Z) (ns : list Z) (sz lx rx par : Z) : hpropI Z :=
  (⌈0 < h⌉ ∗ w (h + size) sz ∗ w (h + left) lx ∗ w (h + right) rx ∗ w (h + parent) par ∗
   ring h ns ∗ [∗ list] n ∈ ns, side sz n)%I.

(** The tree at [x], whose parent is [par]. *)
Fixpoint rep (T : tree) (x par : Z) : hpropI Z :=
  match T with
  | Leaf => ⌈x = 0⌉
  | Node l h ns sz r => ⌈x = h⌉ ∗ ∃ lx rx, node h ns sz lx rx par ∗ rep l lx h ∗ rep r rx h
  end%I.

(** The way from a subtree up. *)
Inductive frame :=
  | FL (h : Z) (ns : list Z) (sz : Z) (r : tree)
  | FR (l : tree) (h : Z) (ns : list Z) (sz : Z).

Definition fill (f : frame) (T : tree) : tree :=
  match f with FL h ns sz r => Node T h ns sz r | FR l h ns sz => Node l h ns sz T end.
Definition plug (c : list frame) (T : tree) : tree := foldl (fun T f => fill f T) T c.

(** The rest of a tree at [top] (parent [tpar]) around the subtree at [x]
    (parent [par]). *)
Fixpoint repc (c : list frame) (top tpar x par : Z) : hpropI Z :=
  match c with
  | [] => ⌈top = x /\ par = tpar⌉
  | FL h ns sz r :: c => ⌈par = h⌉ ∗ ∃ rx gp, node h ns sz x rx gp ∗ rep r rx h ∗ repc c top tpar h gp
  | FR l h ns sz :: c => ⌈par = h⌉ ∗ ∃ lx gp, node h ns sz lx x gp ∗ rep l lx h ∗ repc c top tpar h gp
  end%I.

Section Trees.

Lemma rep_plug c T top tpar : rep (plug c T) top tpar ⊣⊢ ∃ x par, repc c top tpar x par ∗ rep T x par.
Proof.
  revert T. induction c as [|f c IH]; intros T; simpl.
  - iSplit; [iIntros "H"; iExists top, tpar; by iFrame |]. iIntros "(%x & %par & %E & H)". by destruct E as [-> ->].
  - rewrite IH. destruct f as [h ns sz r | l h ns sz]; simpl.
    + iSplit.
      * iIntros "(%x & %par & Hc & -> & %lx & %rx & Hn & Hl & Hr)". iExists lx, h. iFrame. auto.
      * iIntros "(%x & %par & (-> & %rx & %gp & Hn & Hr & Hc) & HT)". iExists h, gp. iFrame. auto.
    + iSplit.
      * iIntros "(%x & %par & Hc & -> & %lx & %rx & Hn & Hl & Hr)". iExists rx, h. iFrame. auto.
      * iIntros "(%x & %par & (-> & %lx & %gp & Hn & Hl & Hc) & HT)". iExists h, gp. iFrame. auto.
Qed.

(** The blocks of the tree in order of size. *)
Fixpoint inorder (T : tree) : list (Z * list Z) :=
  match T with Leaf => [] | Node l h ns sz r => inorder l ++ (sz, h :: ns) :: inorder r end.

Fixpoint before (c : list frame) : list (Z * list Z) :=
  match c with
  | [] => []
  | FL _ _ _ _ :: c => before c
  | FR l h ns sz :: c => before c ++ inorder l ++ [(sz, h :: ns)]
  end.
Fixpoint after (c : list frame) : list (Z * list Z) :=
  match c with
  | [] => []
  | FL h ns sz r :: c => (sz, h :: ns) :: inorder r ++ after c
  | FR _ _ _ _ :: c => after c
  end.

Lemma inorder_plug c T : inorder (plug c T) = before c ++ inorder T ++ after c.
Proof.
  revert T. induction c as [|f c IH]; intros T; simpl; [by rewrite app_nil_r |].
  rewrite IH. destruct f; simpl; by rewrite -!(assoc_L (++)).
Qed.

(** A node is where its place in the order says. *)
Lemma inorder_split T A sz rg B : inorder T = A ++ (sz, rg) :: B -> exists c l h ns r,
  T = plug c (Node l h ns sz r) /\ rg = h :: ns /\ A = before c ++ inorder l /\ B = inorder r ++ after c.
Proof.
  assert (forall T c, inorder T = A ++ (sz, rg) :: B -> exists c' l h ns r,
    plug c T = plug c' (Node l h ns sz r) /\ rg = h :: ns /\ before c ++ A = before c' ++ inorder l /\
    B ++ after c = inorder r ++ after c') as Hgo.
  2: { intros HT. destruct (Hgo T [] HT) as (c' & l & h & ns & r & H1 & H2 & H3 & H4). simpl in *.
       rewrite app_nil_r in H4. eauto 10. }
  clear T. intros T. revert A B. induction T as [|l IHl h ns s r IHr]; intros A B c HT; simpl in HT.
  { by destruct A. }
  destruct (app_eq_inv _ _ _ _ HT) as [(k & H1 & H2) | (k & H1 & H2)].
  - destruct k as [|x k]; simpl in H2.
    + rewrite app_nil_r in H1. injection H2 as -> -> ->. subst. exists c, l, h, ns, r.
      split_and!; try done.
    + injection H2 as <- ->. destruct (IHl A k (FL h ns s r :: c)) as (c' & l' & h' & ns' & r' & E1 & E2 & E3 & E4); [done |].
      exists c', l', h', ns', r'. split_and!; try done. rewrite -E4. simpl. by rewrite -(assoc_L (++)).
  - destruct k as [|x k]; simpl in H2.
    + rewrite app_nil_r in H1. injection H2 as <- <- <-. subst. exists c, l, h, ns, r.
      split_and!; try done.
    + injection H2 as <- H2. destruct (IHr k B (FR l h ns s :: c)) as (c' & l' & h' & ns' & r' & E1 & E2 & E3 & E4); [done |].
      exists c', l', h', ns', r'. split_and!; try done. rewrite -E3 H1. simpl. by rewrite -!(assoc_L (++)).
Qed.

Lemma wp_set_parent T x par par' (Φ : unit -> hpropI Z) :
  rep T x par -∗ (rep T x par' -∗ Φ tt) -∗ wp (set_parent x par') Φ.
Proof.
  iIntros "HT HΦ". unfold set_parent. destruct T as [|l h ns sz r]; simpl.
  - iDestruct "HT" as %->. wp_ret. by iApply "HΦ".
  - iDestruct "HT" as "(-> & %lx & %rx & (%Hh & Hs & Hl & Hr & Hp & Hg & Hn) & HL & HR)".
    destruct (Z.eqb_spec h 0); [lia |]. iApply (wp_set with "Hp"). iIntros "Hp". iApply "HΦ". iFrame. auto.
Qed.

(** A tree is not where another block is. *)
Lemma rep_ne T x par t sz : 0 < t -> rep T x par -∗ w (t + size) sz -∗ ⌜x <> t⌝.
Proof.
  iIntros (Ht) "HT Ht". destruct T as [|l h ns s r]; simpl; [by iDestruct "HT" as %->; iPureIntro; lia |].
  iDestruct "HT" as "(-> & %lx & %rx & (_ & Hs & _) & _)". iApply (w_ne with "Hs Ht").
Qed.

Lemma repc_ne c top tpar x par t sz : x <> t -> repc c top tpar x par -∗ w (t + size) sz -∗ ⌜top <> t⌝.
Proof.
  revert x par. induction c as [|f c IH]; intros x par Hx; simpl; [iIntros "%E _"; by destruct E as [-> _] |].
  destruct f as [h ns s r | l h ns s]; simpl; iIntros "(_ & %y & %gp & (_ & Hs & _) & _ & Hc) Ht";
    (iDestruct (w_ne with "Hs Ht") as %Hne; iApply (IH with "Hc Ht"); done).
Qed.

(** The parent of a subtree is nil at the root only. *)
Lemma repc_par c top x par : repc c top 0 x par -∗ ⌜if decide (par = 0) then top = x /\ c = [] else 0 < par⌝.
Proof.
  destruct c as [|[h ns s r | l h ns s] c]; simpl.
  - iIntros "%E". by destruct E as [-> ->].
  - iIntros "(-> & %y & %gp & (%Hh & _) & _)". rewrite decide_False; [done | lia].
  - iIntros "(-> & %y & %gp & (%Hh & _) & _)". rewrite decide_False; [done | lia].
Qed.

Lemma wp_replace_child p c t par f sz (Φ : Pool -> hpropI Z) : 0 < t ->
  repc c (root p) 0 t par -∗ w (t + size) sz -∗
  (∀ top, repc c top 0 f par -∗ w (t + size) sz -∗ Φ (set_root top p)) -∗
  wp (replace_child p par t f) Φ.
Proof.
  iIntros (Ht) "Hc Ht HΦ". unfold replace_child. destruct c as [|[h ns s r | l h ns s] c]; simpl.
  - iDestruct "Hc" as %E. destruct E as [E ->]. simpl. wp_ret. iApply ("HΦ" with "[] Ht"). auto.
  - iDestruct "Hc" as "(-> & %rx & %gp & (%Hh & Hs & Hl & Hr & Hp & Hg & Hn) & HR & Hc)".
    destruct (Z.eqb_spec h 0); [lia |]. wp_get "Hl". rewrite Z.eqb_refl. wp_set "Hl". wp_ret.
    iDestruct ("HΦ" $! (root p) with "[-Ht] Ht") as "HΦ"; [iFrame; auto |]. by destruct p.
  - iDestruct "Hc" as "(-> & %lx & %gp & (%Hh & Hs & Hl & Hr & Hp & Hg & Hn) & HL & Hc)".
    destruct (Z.eqb_spec h 0); [lia |]. iDestruct (rep_ne with "HL Ht") as %Hne; [done |].
    wp_get "Hl". rewrite (proj2 (Z.eqb_neq lx t)) //. wp_set "Hr". wp_ret.
    iDestruct ("HΦ" $! (root p) with "[-Ht] Ht") as "HΦ"; [iFrame; auto |]. by destruct p.
Qed.
End Trees.
