(* ===== verification/PoolOps.v ===== *)
(** * The tree of free blocks: [pooldel], [pooladd] and the search

    Each against the list of rings in order of size. *)

From Stdlib Require Import Sorted.
From S2P Require Import Prelude Heap Pool PoolTree.
Import Pool.

#[local] Open Scope Z_scope.

Fixpoint height (T : tree) : nat :=
  match T with Leaf => O | Node l _ _ _ r => S (Nat.max (height l) (height r)) end.

Lemma rep_height T x par : rep T x par ⊢ size_ge (height T) ∗ True.
Proof.
  revert x par. induction T as [|l IHl h ns sz r IHr]; intros x par; simpl.
  - iIntros "_". iSplit; [iApply size_ge_0 | done].
  - iIntros "(_ & %lx & %rx & (_ & Hs & _) & HL & HR)". destruct (Nat.max_dec (height l) (height r)) as [-> | ->].
    + iDestruct (IHl with "HL") as "[Hz _]". iDestruct (w_size with "Hs Hz") as "$".
    + iDestruct (IHr with "HR") as "[Hz _]". iDestruct (w_size with "Hs Hz") as "$".
Qed.

(** ** Deletion *)

Section Del.

Lemma rep_0 T par : rep T 0 par ⊢ ⌜T = Leaf⌝.
Proof.
  destruct T as [|l h ns sz r]; simpl; [by iIntros "_" |].
  iIntros "(<- & %lx & %rx & (%Hh & _) & _)". lia.
Qed.

(** The frames of a way down to the left. *)
Definition lefts (fs : list frame) : Prop := before fs = [].

(** The end of [successor]: [h] gets the left subtree of [t]. *)
Lemma wp_adopt t l lx h ns sz y X rx par (Φ : Z -> hpropI Z) : lx <> 0 ->
  w (t + left) lx -∗ rep l lx t -∗ node h ns sz y rx par -∗ rep X rx h -∗
  (w (t + left) lx -∗ rep (Node l h ns sz X) h par -∗ Φ h) -∗
  wp (s ← get t left; set h left s;; set s parent h;; mret h) Φ.
Proof.
  iIntros (Hlx) "Htl HL (%Hh & Hs & Hl & Hr & Hp & Hg & Hn) HX HΦ".
  wp_get "Htl". wp_set "Hl". destruct l as [|ll lh lns lsz lr]; simpl; [by iDestruct "HL" as %-> |].
  iDestruct "HL" as "(-> & %llx & %lrx & (%Hlh & Hls & Hll & Hlr & Hlp & Hlg & Hln) & HLL & HLR)".
  wp_set "Hlp". wp_ret. iApply ("HΦ" with "Htl"). iSplit; [done |]. iExists lh, rx. iFrame. auto.
Qed.

Lemma wp_successor t l lx rx r (Φ : Z -> hpropI Z) : lx <> 0 -> rx <> 0 ->
  w (t + left) lx -∗ w (t + right) rx -∗ rep l lx t -∗ rep r rx t -∗
  (∀ fs h ns sz rr par, ⌈lefts fs /\ r = plug fs (Node Leaf h ns sz rr)⌉ -∗
     w (t + left) lx -∗ w (t + right) rx -∗ rep (Node l h ns sz (plug fs rr)) h par -∗ Φ h) -∗
  wp (successor t) Φ.
Proof.
  iIntros (Hlx Hrx) "Htl Htr HL HR HΦ". unfold successor. wp_get "Htr".
  destruct r as [|rl rh rns rsz rr]; simpl; [by iDestruct "HR" as %-> |].
  iDestruct "HR" as "(-> & %rlx & %rrx & (%Hh & Hs & Hl & Hr & Hp & Hg & Hn) & HRL & HRR)".
  remember (Node rl rh rns rsz rr) as r eqn:Er. wp_get "Hl". wp_bind.
  iApply (wp_loop (fun m '(f, rp, s) => ∃ fs lt h ns sz rr rrx,
      ⌈rp = h /\ lefts fs /\ r = plug fs (Node lt h ns sz rr) /\ m = height lt⌉ ∗
      repc fs rh t h f ∗ node h ns sz s rrx f ∗ rep lt s h ∗ rep rr rrx h ∗
      w (t + left) lx ∗ w (t + right) rh ∗ rep l lx t ∗
      (∀ fs h ns sz rr par, ⌈lefts fs /\ r = plug fs (Node Leaf h ns sz rr)⌉ -∗
        w (t + left) lx -∗ w (t + right) rh -∗ rep (Node l h ns sz (plug fs rr)) h par -∗ Φ h))%I
    _ _ (height rl) with "[-]").
  - iIntros (m [[f rp] s]) "(%fs & %lt & %h & %ns & %sz & %rr0 & %rrx0 & %E & _ & _ & HT & _)".
    destruct E as (_ & _ & _ & ->). iDestruct (rep_height with "HT") as "[$ _]".
  - intros m [[f rp] s].
    iIntros "(%fs & %lt & %h & %ns0 & %sz & %rr0 & %rrx0 & %E & Hc & Hnode & HT & HR & Htl & Htr & HL & HΦ)".
    destruct E as (-> & Hfs & Er' & ->). destruct (Z.eqb_spec s 0) as [-> | Hs].
    + iDestruct (rep_0 with "HT") as %->. wp_ret. destruct fs as [|[h2 ns2 sz2 r2 | l2 h2 ns2 sz2] fs]; simpl.
      * iDestruct "Hc" as %Hc. destruct Hc as [<- ->]. rewrite Z.eqb_refl. wp_bind. wp_ret.
        iApply (wp_adopt with "Htl HL Hnode HR"); [done |]. iIntros "Htl Hnode".
        iApply ("HΦ" $! [] with "[] Htl Htr Hnode"). auto.
      * iDestruct "Hc" as "(-> & %rx2 & %gp & (%Hh2 & Hs2 & Hl2 & Hr2 & Hp2 & Hg2 & Hn2) & HR2 & Hc)".
        iDestruct (w_ne with "Hl2 Htl") as %Hne. rewrite (proj2 (Z.eqb_neq h2 t)) //.
        iDestruct "Hnode" as "(%Hh0 & Hs0 & Hl0 & Hr0 & Hp0 & Hg0 & Hn0)".
        wp_bind. wp_get "Hr0". wp_set "Hl2". wp_bind. iApply (wp_set_parent with "HR"). iIntros "HR".
        iAssert (rep (plug (FL h2 ns2 sz2 r2 :: fs) rr0) rh t) with "[Hs2 Hl2 Hr2 Hp2 Hg2 Hn2 HR2 Hc HR]" as "HT2".
        { rewrite rep_plug. iExists rrx0, h2. iFrame. auto. }
        wp_get "Htr". wp_set "Hr0". iApply (wp_set_parent with "HT2"). iIntros "HT2".
        iApply (wp_adopt with "Htl HL [Hs0 Hl0 Hr0 Hp0 Hg0 Hn0] HT2"); [done | by iFrame |]. iIntros "Htl Hnode".
        iApply ("HΦ" $! (FL h2 ns2 sz2 r2 :: fs) with "[] Htl Htr Hnode"). auto.
      * unfold lefts in Hfs. simpl in Hfs. by destruct (before fs), (inorder l2).
    + destruct lt as [|l2 h2 ns2 sz2 r2]; simpl; [by iDestruct "HT" as %-> |].
      iDestruct "HT" as "(-> & %lx2 & %rx2 & (%Hh2 & Hs2 & Hl2 & Hr2 & Hp2 & Hg2 & Hn2) & HL2 & HR2)".
      wp_get "Hl2". wp_ret. iExists (height l2). iSplit; [iPureIntro; lia |].
      iExists (FL h ns0 sz rr0 :: fs), l2, h2, ns2, sz2, r2, rx2. iFrame. simpl. iSplit; [done |]. auto.
  - iExists [], rl, rh, rns, rsz, rr, rrx. iFrame. iSplit; [iPureIntro; by subst r |]. auto.
Qed.

(** The free blocks in order of size. *)
Definition frees (top : Z) (I : list (Z * list Z)) : hpropI Z := (∃ T, ⌈inorder T = I⌉ ∗ rep T top 0)%I.

(** A free block that is not in the tree; its links mean nothing. *)
Definition loose (t sz : Z) : hpropI Z :=
  (⌈0 < t⌉ ∗ w (t + size) sz ∗
   ∃ l r pa v f, w (t + left) l ∗ w (t + right) r ∗ w (t + parent) pa ∗ w (t + prev) v ∗ w (t + fwd) f)%I.

Definition others (sz : Z) (rg : list Z) : list (Z * list Z) := match rg with [] => [] | _ => [(sz, rg)] end.

Lemma wp_unring_mem h n1 t n2 (Φ : unit -> hpropI Z) :
  ring h (n1 ++ t :: n2) -∗ (∀ v f, w (t + prev) v -∗ w (t + fwd) f -∗ ring h (n1 ++ n2) -∗ Φ tt) -∗
  wp (unring t) Φ.
Proof.
  iIntros "Hg HΦ". iEval (rewrite ring_rotate) in "Hg". destruct n2 as [|n n2]; simpl.
  - rewrite app_nil_r. by iApply (wp_unring with "Hg").
  - iApply (wp_unring with "Hg"). iIntros (v f) "Hv Hf Hg". iApply ("HΦ" with "Hv Hf"). by rewrite ring_rotate.
Qed.

Lemma wp_unhook p c t par sz X rp par0 (Φ : Pool -> hpropI Z) : 0 < t ->
  repc c (root p) 0 t par -∗ w (t + size) sz -∗ w (t + parent) par -∗ rep X rp par0 -∗
  (∀ rt, rep (plug c X) rt 0 -∗ w (t + size) sz -∗ w (t + parent) par -∗ Φ (set_root rt p)) -∗
  wp (q ← get t parent; p ← replace_child p q t rp; set_parent rp q;; mret p) Φ.
Proof.
  iIntros (Ht) "Hc Hs Hp HX HΦ". wp_get "Hp". wp_bind. iApply (wp_replace_child with "Hc Hs"); [done |].
  iIntros (rt) "Hc Hs". wp_bind. iApply (wp_set_parent with "HX"). iIntros "HX". wp_ret.
  iApply ("HΦ" with "[Hc HX] Hs Hp"). rewrite rep_plug. iExists rp, par. iFrame.
Qed.

(** A block that is not the first of its size. *)
Lemma wp_pooldel_side p c l h n1 t n2 sz r (Φ : Pool -> hpropI Z) :
  rep (plug c (Node l h (n1 ++ t :: n2) sz r)) (root p) 0 -∗
  (rep (plug c (Node l h (n1 ++ n2) sz r)) (root p) 0 -∗ loose t sz -∗ Φ p) -∗ wp (pooldel p t) Φ.
Proof.
  rewrite !rep_plug. iIntros "(%x & %par & Hc & HT) HΦ". simpl.
  iDestruct "HT" as "(-> & %lx & %rx & (%Hh & Hs & Hl & Hr & Hp & Hg & Hn) & HL & HR)".
  rewrite !big_sepL_app big_sepL_cons. iDestruct "Hn" as "(Hn1 & (%Ht & Hts & Htl & Htr & Htp) & Hn2)".
  iDestruct (w_ne with "Hs Hts") as %Hne. iDestruct (repc_ne with "Hc Hts") as %Hroot; [done |].
  unfold pooldel. wp_get "Htp". rewrite (proj2 (Z.eqb_neq (root p) t)) // Z.eqb_refl. simpl.
  wp_bind. iApply (wp_unring_mem with "Hg"). iIntros (v f) "Htv Htf Hg". wp_ret.
  iApply ("HΦ" with "[-Hts Htl Htr Htp Htv Htf]").
  - iExists h, par. iSplitL "Hc"; [done |]. simpl. iSplit; [done |]. iExists lx, rx. unfold node.
    rewrite big_sepL_app. iFrame. auto.
  - iSplit; [done |]. iFrame.
Qed.

(** The first block of its size, when there are others. *)
Lemma wp_pooldel_head p c l t n ns sz r (Φ : Pool -> hpropI Z) :
  rep (plug c (Node l t (n :: ns) sz r)) (root p) 0 -∗
  (∀ rt, rep (plug c (Node l n ns sz r)) rt 0 -∗ loose t sz -∗ Φ (set_root rt p)) -∗ wp (pooldel p t) Φ.
Proof.
  rewrite !rep_plug. iIntros "(%x & %par & Hc & HT) HΦ". simpl.
  iDestruct "HT" as "(-> & %lx & %rx & (%Hh & Hs & Hl & Hr & Hp & Hg & (%Hn0 & Hns & Hnl & Hnr & Hnp) & Hn) & HL & HR)".
  iDestruct (repc_par with "Hc") as %Hpar. iDestruct (w_ne with "Hns Hs") as %Hne.
  unfold pooldel. wp_get "Hp".
  assert ((par =? 0) && negb (root p =? t) = false) as ->.
  { case_decide as Hd; [destruct Hpar as [-> _]; by rewrite Z.eqb_refl andb_false_r |].
    by rewrite (proj2 (Z.eqb_neq par 0)). }
  iDestruct "Hg" as "[[Hf Hfs] Hv]". wp_get "Hf". rewrite (proj2 (Z.eqb_neq n t)) //. simpl.
  wp_get "Hp". wp_set "Hnp". wp_bind. iApply (wp_replace_child with "Hc Hs"); [done |]. iIntros (rt) "Hc Hs".
  wp_get "Hl". wp_set "Hnl". wp_bind. iApply (wp_set_parent with "HL"). iIntros "HL".
  wp_get "Hr". wp_set "Hnr". wp_bind. iApply (wp_set_parent with "HR"). iIntros "HR".
  wp_bind. iApply (wp_unring with "[Hf Hfs Hv]"); [by iFrame |]. iIntros (v f) "Htv Htf Hg". wp_ret.
  iApply ("HΦ" with "[-Hs Hl Hr Hp Htv Htf]"); [| iSplit; [done |]; iFrame].
  rewrite rep_plug. iExists n, par. simpl. unfold node. iFrame. auto.
Qed.

(** The only block of its size. *)
Lemma wp_pooldel_only p c l t sz r (Φ : Pool -> hpropI Z) :
  rep (plug c (Node l t [] sz r)) (root p) 0 -∗
  (∀ rt, frees rt (before c ++ inorder l ++ inorder r ++ after c) -∗ loose t sz -∗ Φ (set_root rt p)) -∗
  wp (pooldel p t) Φ.
Proof.
  rewrite rep_plug. iIntros "(%x & %par & Hc & HT) HΦ". simpl.
  iDestruct "HT" as "(-> & %lx & %rx & (%Hh & Hs & Hl & Hr & Hp & [Hf Hv] & _) & HL & HR)". simpl.
  iDestruct (repc_par with "Hc") as %Hpar. unfold pooldel. wp_get "Hp".
  assert ((par =? 0) && negb (root p =? t) = false) as ->.
  { case_decide as Hd; [destruct Hpar as [-> _]; by rewrite Z.eqb_refl andb_false_r |].
    by rewrite (proj2 (Z.eqb_neq par 0)). }
  wp_get "Hf". rewrite Z.eqb_refl. simpl. wp_get "Hl".
  (* what takes the place of [t] *)
  iAssert (∀ X rp par0, ⌈inorder X = inorder l ++ inorder r⌉ -∗ rep X rp par0 -∗
     w (t + size) sz -∗ w (t + left) lx -∗ w (t + right) rx -∗ w (t + parent) par -∗
     wp (q ← get t parent; p ← replace_child p q t rp; set_parent rp q;; mret p) Φ)%I
    with "[Hc Hf Hv HΦ]" as "Htail".
  { iIntros (X rp par0) "%HX HX Hs Hl Hr Hp". iApply (wp_unhook with "Hc Hs Hp HX"); [done |].
    iIntros (rt) "HT Hs Hp". iApply ("HΦ" with "[HT]"); [| iSplit; [done |]; iFrame].
    iExists (plug c X). iFrame. iPureIntro. by rewrite inorder_plug HX -!(assoc_L (++)). }
  destruct (Z.eqb_spec lx 0) as [-> | Hlx].
  { iDestruct (rep_0 with "HL") as %->. wp_get "Hr". simpl. iDestruct "HL" as "_".
    iApply ("Htail" $! r with "[] HR Hs Hl Hr Hp"). auto. }
  wp_bind. wp_get "Hr". destruct (Z.eqb_spec rx 0) as [-> | Hrx].
  { iDestruct (rep_0 with "HR") as %->. iApply (wp_get with "Hl"). iIntros "Hl". simpl. iDestruct "HR" as "_".
    iApply ("Htail" $! l with "[] HL Hs Hl Hr Hp"). simpl. by rewrite app_nil_r. }
  iApply (wp_successor with "Hl Hr HL HR"); [done | done |].
  iIntros (fs h ns s rr pa [Hfs ->]) "Hl Hr HX". iApply ("Htail" with "[] HX Hs Hl Hr Hp").
  iPureIntro. simpl. rewrite !inorder_plug Hfs. done.
Qed.

Lemma wp_pooldel p t A sz r1 r2 B (Φ : Pool -> hpropI Z) :
  frees (root p) (A ++ (sz, r1 ++ t :: r2) :: B) -∗
  (∀ rt, frees rt (A ++ others sz (r1 ++ r2) ++ B) -∗ loose t sz -∗ Φ (set_root rt p)) -∗
  wp (pooldel p t) Φ.
Proof.
  iIntros "(%T & %HT & HT) HΦ". destruct (inorder_split _ _ _ _ _ HT) as (c & l & h & ns & r & -> & Hrg & -> & ->).
  assert (forall X, inorder X = inorder l ++ others sz (r1 ++ r2) ++ inorder r ->
    inorder (plug c X) = (before c ++ inorder l) ++ others sz (r1 ++ r2) ++ inorder r ++ after c) as Hin.
  { intros X HX. by rewrite inorder_plug HX -!(assoc_L (++)). }
  destruct r1 as [|h' n1]; simpl in Hrg; injection Hrg as -> <-.
  - destruct r2 as [|n ns].
    + iApply (wp_pooldel_only with "HT"). iIntros (rt) "HT". iApply "HΦ". simpl. by rewrite -!(assoc_L (++)).
    + iApply (wp_pooldel_head with "HT"). iIntros (rt) "HT". iApply "HΦ". iExists _. iFrame. iPureIntro. by apply Hin.
  - iApply (wp_pooldel_side with "HT"). iIntros "HT".
    assert (set_root (root p) p = p) as Hp by (by destruct p). iSpecialize ("HΦ" $! (root p)). rewrite Hp.
    iApply "HΦ". iExists _. iFrame. iPureIntro. by apply Hin.
Qed.
End Del.

(** ** Order *)

Definition sorted (I : list (Z * list Z)) : Prop := StronglySorted (fun a b => a.1 < b.1) I.

Abbreviation below sz := (Forall (fun e => e.1 < sz)).
Abbreviation above sz := (Forall (fun e => sz < e.1)).

(** [q] goes to the end of the ring of its size. *)
Fixpoint ins (sz q : Z) (I : list (Z * list Z)) : list (Z * list Z) :=
  match I with
  | [] => [(sz, [q])]
  | (s, rg) :: I' =>
      if sz =? s then (s, rg ++ [q]) :: I' else if sz <? s then (sz, [q]) :: I else (s, rg) :: ins sz q I'
  end.

Section Order.
Implicit Types (I A B : list (Z * list Z)).

Lemma sorted_mid A e B : sorted (A ++ e :: B) <-> sorted (A ++ B) /\ below e.1 A /\ above e.1 B.
Proof.
  unfold sorted. induction A as [|a A IH]; simpl.
  - split; [intros Hs; apply StronglySorted_inv in Hs as [? ?] | intros (? & _ & ?); by constructor].
    split_and!; [done | constructor | done].
  - split.
    + intros Hs. apply StronglySorted_inv in Hs as [Hs Ha]. apply IH in Hs as (Hs & Hb & Hab).
      apply Forall_app in Ha as [HaA HaB]. apply Forall_cons in HaB as [Hae HaB].
      split_and!; [constructor; [done | by apply Forall_app] | by constructor | done].
    + intros (Hs & Hb & Hab). apply StronglySorted_inv in Hs as [Hs Ha]. apply Forall_cons in Hb as [Hae Hb].
      apply Forall_app in Ha as [HaA HaB]. constructor; [by apply IH |]. apply Forall_app. split; [done |].
      by constructor.
Qed.

Lemma above_trans sz s A : sz < s -> above s A -> above sz A.
Proof. intros Hs HA. eapply Forall_impl; [exact HA |]. intros [s' rg] ?. simpl in *. lia. Qed.

Lemma below_trans sz s A : s < sz -> below s A -> below sz A.
Proof. intros Hs HA. eapply Forall_impl; [exact HA |]. intros [s' rg] ?. simpl in *. lia. Qed.

Lemma ins_new sz q A B : below sz A -> above sz B -> ins sz q (A ++ B) = A ++ (sz, [q]) :: B.
Proof.
  intros HA HB. induction HA as [|[s rg] A Hs _ IH]; simpl in *.
  - destruct HB as [|[s rg] B Hs _]; simpl in *; [done |].
    rewrite (proj2 (Z.eqb_neq sz s)) ?(proj2 (Z.ltb_lt sz s)) //; lia.
  - rewrite (proj2 (Z.eqb_neq sz s)) ?(proj2 (Z.ltb_ge sz s)) ?IH //; lia.
Qed.

Lemma ins_ring sz q A rg B : below sz A -> ins sz q (A ++ (sz, rg) :: B) = A ++ (sz, rg ++ [q]) :: B.
Proof.
  intros HA. induction HA as [|[s rg'] A Hs _ IH]; simpl in *; [by rewrite Z.eqb_refl |].
  rewrite (proj2 (Z.eqb_neq sz s)) ?(proj2 (Z.ltb_ge sz s)) ?IH //; lia.
Qed.

(** Where a size belongs. *)
Lemma sorted_find sz I : sorted I ->
  (exists A rg B, I = A ++ (sz, rg) :: B /\ below sz A /\ above sz B) \/
  (exists A B, I = A ++ B /\ below sz A /\ above sz B).
Proof.
  unfold sorted. induction I as [|[s rg] I IH]; intros Hs; [right; exists [], []; split_and!; [done | constructor..] |].
  apply StronglySorted_inv in Hs as [Hs Ha]. destruct (Z.lt_trichotomy s sz) as [Hlt | [-> | Hgt]].
  - destruct (IH Hs) as [(A & rg' & B & -> & HA & HB) | (A & B & -> & HA & HB)].
    + left. exists ((s, rg) :: A), rg', B. split_and!; [done | by constructor | done].
    + right. exists ((s, rg) :: A), B. split_and!; [done | by constructor | done].
  - left. exists [], rg, I. split_and!; [done | constructor | done].
  - right. exists [], ((s, rg) :: I). split_and!; [done | constructor |]. constructor; [done |].
    eapply Forall_impl; [exact Ha |]. intros [s' rg'] Hs'. simpl in *. lia.
Qed.

Lemma sorted_ins sz q I : sorted I -> sorted (ins sz q I).
Proof.
  intros Hs. destruct (sorted_find sz I Hs) as [(A & rg & B & -> & HA & HB) | (A & B & -> & HA & HB)].
  - rewrite ins_ring //. apply sorted_mid in Hs as (Hs & _). by apply sorted_mid.
  - rewrite ins_new //. by apply sorted_mid.
Qed.

Lemma sorted_del A sz rg rg' B : sorted (A ++ (sz, rg) :: B) -> sorted (A ++ others sz rg' ++ B).
Proof.
  intros Hs. apply sorted_mid in Hs as (Hs & HA & HB). destruct rg'; [done |]. by apply sorted_mid.
Qed.
End Order.

(** ** Insertion *)

Section Add.

Lemma wp_enring {B} t ns q a b (k : M B) (Φ : B -> hpropI Z) :
  ring t ns -∗ w (q + prev) a -∗ w (q + fwd) b -∗ (ring t (ns ++ [q]) -∗ wp k Φ) -∗
  wp (v ← get t prev; set q prev v;; v ← get q prev; set v fwd q;; set q fwd t;; set t prev q;; k) Φ.
Proof.
  iIntros "[Hf Hv] Hqv Hqf HΦ". unfold ring. rewrite reverse_app. simpl.
  destruct ns as [|v ns _] using rev_ind; simpl.
  - wp_get "Hv". wp_set "Hqv". wp_get "Hqv". wp_set "Hf". wp_set "Hqf". wp_set "Hv". iApply "HΦ". iFrame.
  - rewrite reverse_app. simpl. rewrite !seg_app. simpl.
    iDestruct "Hv" as "[Htv Hv]". iDestruct "Hf" as "[Hf Hvf]".
    wp_get "Htv". wp_set "Hqv". wp_get "Hqv". wp_set "Hvf". wp_set "Hqf". wp_set "Htv". iApply "HΦ". iFrame.
Qed.

Lemma inorder_at c l h ns s r :
  inorder (plug c (Node l h ns s r)) = (before c ++ inorder l) ++ (s, h :: ns) :: inorder r ++ after c.
Proof. by rewrite inorder_plug /= -!(assoc_L (++)). Qed.

(** The sizes to the left and to the right of a node. *)
Lemma node_bounds c l h ns s r : sorted (inorder (plug c (Node l h ns s r))) ->
  below s (before c ++ inorder l) /\ above s (inorder r ++ after c).
Proof.
  rewrite inorder_at. intros Hs. by apply sorted_mid in Hs as (_ & ? & ?).
Qed.

(** A new leaf goes where the search has ended. *)
Lemma wp_hang c q sz p tp (Φ : Pool -> hpropI Z) : below sz (before c) -> above sz (after c) -> c <> [] ->
  repc c (root p) 0 0 tp -∗
  (w (q + size) sz ∗ w (q + left) 0 ∗ w (q + right) 0 ∗ w (q + parent) tp ∗ w (q + prev) q ∗ w (q + fwd) q ∗ ⌈0 < q⌉) -∗
  (rep (plug c (Node Leaf q [] sz Leaf)) (root p) 0 -∗ Φ p) -∗
  wp (ts ← get tp size; (if sz <? ts then set tp left q else set tp right q);; mret p) Φ.
Proof.
  iIntros (Hlo Hhi Hc) "Hc (Hs & Hl & Hr & Hp & Hv & Hf & %Hq) HΦ".
  iAssert (rep (Node Leaf q [] sz Leaf) q tp) with "[Hs Hl Hr Hp Hv Hf]" as "HT".
  { simpl. iSplit; [done |]. iExists 0, 0. iFrame. simpl. auto. }
  destruct c as [|[h ns s r | l h ns s] c]; [done | |].
  - cbn [repc]. iDestruct "Hc" as "(-> & %rx & %gp & (%Hh & Hhs & Hhl & Hhr & Hhp & Hg & Hn) & HR & Hc)".
    simpl in Hhi. apply Forall_cons in Hhi as [Hs _]. simpl in Hs. wp_get "Hhs".
    rewrite (proj2 (Z.ltb_lt sz s)) //. wp_bind. iApply (wp_set with "Hhl"). iIntros "Hhl". wp_ret. iApply "HΦ".
    rewrite rep_plug. iExists q, h. iFrame. auto.
  - cbn [repc]. iDestruct "Hc" as "(-> & %lx & %gp & (%Hh & Hhs & Hhl & Hhr & Hhp & Hg & Hn) & HL & Hc)".
    simpl in Hlo. rewrite !Forall_app Forall_cons /= in Hlo. destruct Hlo as (_ & _ & Hs & _). wp_get "Hhs".
    rewrite (proj2 (Z.ltb_ge sz s)); [| lia]. wp_bind. iApply (wp_set with "Hhr"). iIntros "Hhr". wp_ret. iApply "HΦ".
    rewrite rep_plug. iExists q, h. iFrame. auto.
Qed.

Lemma wp_pooladd p q m sz I (Φ : Pool -> hpropI Z) : sorted I ->
  frees (root p) I -∗ w (q + magic) m -∗ loose q sz -∗
  (∀ rt, frees rt (ins sz q I) -∗ w (q + magic) MAGIC_F -∗ Φ (set_root rt p)) -∗ wp (pooladd p q) Φ.
Proof.
  iIntros (HI) "(%T & <- & HT) Hm (%Hq & Hs & %l0 & %r0 & %p0 & %v0 & %f0 & Hl & Hr & Hp & Hv & Hf) HΦ".
  unfold pooladd. wp_set "Hm". wp_set "Hl". wp_set "Hr". wp_set "Hp". wp_set "Hf". wp_set "Hv".
  destruct (Z.eqb_spec (root p) 0) as [Hr0 | Hr0].
  { iEval (rewrite Hr0) in "HT". iDestruct (rep_0 with "HT") as %->. simpl. iDestruct "HT" as "_". wp_ret.
    iApply ("HΦ" with "[-Hm] Hm"). iExists (Node Leaf q [] sz Leaf). iSplit; [done |]. simpl.
    iSplit; [done |]. iExists 0, 0. iFrame. simpl. auto. }
  wp_get "Hs". wp_bind.
  iApply (wp_loop (fun m '(tp, t) => ∃ c T',
      ⌈plug c T' = T /\ below sz (before c) /\ above sz (after c) /\ m = height T' /\ (c = [] -> t <> 0)⌉ ∗
      repc c (root p) 0 t tp ∗ rep T' t tp ∗
      w (q + magic) MAGIC_F ∗ w (q + size) sz ∗ w (q + left) 0 ∗ w (q + right) 0 ∗ w (q + parent) 0 ∗
      w (q + prev) q ∗ w (q + fwd) q ∗
      (∀ rt, frees rt (ins sz q (inorder T)) -∗ w (q + magic) MAGIC_F -∗ Φ (set_root rt p)))%I
    _ _ (height T) with "[-]").
  - iIntros (n [tp t]) "(%c & %T' & %E & _ & HT & _)". destruct E as (_ & _ & _ & -> & _).
    iApply (rep_height with "HT").
  - clear -HI Hq. intros n [tp t].
    iIntros "(%c & %T' & %E & Hc & HT & Hm & Hs & Hl & Hr & Hp & Hv & Hf & HΦ)".
    destruct E as (<- & Hlo & Hhi & -> & Hc0). destruct T' as [|l h ns s r]; simpl.
    + iDestruct "HT" as %->. wp_ret. simpl. wp_set "Hp".
      iApply (wp_hang c q sz with "Hc [-HΦ Hm]"); [done | done | intros ->; by apply Hc0 | by iFrame; auto |].
      iIntros "HT". assert (set_root (root p) p = p) as Hpp by (by destruct p). iSpecialize ("HΦ" $! (root p)).
      rewrite Hpp. iApply ("HΦ" with "[HT] Hm"). iExists _. iFrame. iPureIntro.
      by rewrite !inorder_plug /= ins_new.
    + iDestruct "HT" as "(-> & %lx & %rx & (%Hh & Hhs & Hhl & Hhr & Hhp & Hg & Hn) & HL & HR)".
      destruct (Z.eqb_spec h 0); [lia |]. wp_get "Hhs". destruct (node_bounds c l h ns s r HI) as [Hb Ha].
      destruct (Z.eqb_spec sz s) as [<- | Hne].
      * iApply (wp_enring with "Hg Hv Hf"). iIntros "Hg". wp_ret. simpl.
        assert (set_root (root p) p = p) as Hpp by (by destruct p). iSpecialize ("HΦ" $! (root p)).
        wp_ret. rewrite Hpp. iApply ("HΦ" with "[-Hm] Hm").
        iExists (plug c (Node l h (ns ++ [q]) sz r)). iSplit.
        { iPureIntro. by rewrite !inorder_at ins_ring. }
        rewrite rep_plug. iExists h, tp. iFrame "Hc". simpl. iSplit; [done |]. iExists lx, rx. iFrame. simpl. auto.
      * apply Forall_app in Hb as [Hbc Hbl], Ha as [Har Hac]. wp_bind. destruct (Z.ltb_spec sz s) as [Hlt | Hge].
        -- iApply (wp_get with "Hhl"). iIntros "Hhl". wp_ret. iExists (height l). iSplit; [iPureIntro; lia |].
           iExists (FL h ns s r :: c), l. iFrame. iSplit; [| auto]. iPureIntro. split_and!; try done.
           simpl. constructor; [done |]. apply Forall_app. split; [| done]. by eapply above_trans.
        -- iApply (wp_get with "Hhr"). iIntros "Hhr". wp_ret. iExists (height r). iSplit; [iPureIntro; lia |].
           iExists (FR l h ns s :: c), r. iFrame. iSplit; [| auto]. iPureIntro. split_and!; try done.
           simpl. rewrite !Forall_app Forall_cons. split_and!; [done | | simpl; lia | constructor].
           eapply below_trans; [| done]. lia.
  - iExists [], T. iFrame. iSplit; [| done]. iPureIntro. split_and!; try done; constructor.
Qed.
End Add.

(** ** Search *)

(** What [search] finds: the block asked for, or the least above it. *)
Definition found (I : list (Z * list Z)) (sz : Z) (r : bool * Z) : Prop :=
  exists A B, I = A ++ B /\ below sz A /\
    match r with
    | (true, q) => exists ns B', B = (sz, q :: ns) :: B'
    | (false, q) => above sz B /\
        ((q = 0 /\ B = []) \/ exists s ns B', B = (s, q :: ns) :: B' /\ 0 < q)
    end.

Section Search.

Lemma wp_search p sz I (Φ : bool * Z -> hpropI Z) : sorted I ->
  frees (root p) I -∗ (∀ r, ⌈found I sz r⌉ -∗ frees (root p) I -∗ Φ r) -∗ wp (search p sz) Φ.
Proof.
  iIntros (HI) "(%T & <- & HT) HΦ". unfold search.
  iApply (wp_loop (fun m '(t, q) => ∃ c T' tp,
      ⌈plug c T' = T /\ below sz (before c) /\ above sz (after c) /\ m = height T'⌉ ∗
      ⌈(q = 0 /\ after c = []) \/ exists s ns B', after c = (s, q :: ns) :: B' /\ 0 < q⌉ ∗
      repc c (root p) 0 t tp ∗ rep T' t tp ∗
      (∀ r, ⌈found (inorder T) sz r⌉ -∗ frees (root p) (inorder T) -∗ Φ r))%I
    _ _ (height T) with "[-]").
  - iIntros (n [t q]) "(%c & %T' & %tp & %E & _ & _ & HT & _)". destruct E as (_ & _ & _ & ->).
    iApply (rep_height with "HT").
  - clear -HI. intros n [t q]. iIntros "(%c & %T' & %tp & %E & %Hq & Hc & HT & HΦ)".
    destruct E as (<- & Hlo & Hhi & ->). destruct T' as [|l h ns s r]; simpl.
    + iDestruct "HT" as %->. wp_ret. iApply "HΦ".
      * iPureIntro. exists (before c), (after c). by rewrite inorder_plug.
      * iExists _. iSplit; [done |]. rewrite rep_plug. iExists 0, tp. iFrame. done.
    + iDestruct "HT" as "(-> & %lx & %rx & (%Hh & Hhs & Hhl & Hhr & Hhp & Hg & Hn) & HL & HR)".
      destruct (Z.eqb_spec h 0); [lia |]. wp_get "Hhs". destruct (node_bounds c l h ns s r HI) as [Hb Ha].
      destruct (Z.eqb_spec s sz) as [-> | Hne]; [| apply Forall_app in Hb as [Hbc Hbl], Ha as [Har Hac];
        destruct (Z.ltb_spec sz s) as [Hlt | Hge]].
      * wp_ret. iApply "HΦ".
        -- iPureIntro. exists (before c ++ inorder l), ((sz, h :: ns) :: inorder r ++ after c).
           rewrite inorder_at. eauto 6.
        -- iExists _. iSplit; [done |]. rewrite rep_plug. iExists h, tp. iFrame "Hc". simpl. iSplit; [done |].
           iExists lx, rx. iFrame. auto.
      * wp_get "Hhl". wp_ret. iExists (height l). iSplit; [iPureIntro; lia |].
        iExists (FL h ns s r :: c), l, h. iFrame. iSplit.
        { iPureIntro. split_and!; try done. constructor; [done |]. apply Forall_app. split; [| done]. by eapply above_trans. }
        iSplit; [iPureIntro; right; eauto 6 |]. auto.
      * wp_get "Hhr". wp_ret. iExists (height r). iSplit; [iPureIntro; lia |].
        iExists (FR l h ns s :: c), r, h. iFrame. iSplit.
        { iPureIntro. split_and!; try done. simpl. rewrite !Forall_app Forall_cons.
          split_and!; [done | | simpl; lia | constructor]. eapply below_trans; [| done]. lia. }
        iSplit; [done |]. auto.
  - iExists [], T, 0. iFrame. iSplit; [| iSplit; [| done]]; iPureIntro; [split_and!; try done; constructor | auto].
Qed.

(** The block that [poolalloc] takes for an exact fit. *)
Lemma wp_second t A sz ns B top (Φ : Z -> hpropI Z) :
  frees top (A ++ (sz, t :: ns) :: B) -∗
  (∀ q r1 r2, ⌈t :: ns = r1 ++ q :: r2⌉ -∗ frees top (A ++ (sz, t :: ns) :: B) -∗ Φ q) -∗ wp (get t fwd) Φ.
Proof.
  iIntros "(%T & %HT & HT) HΦ". destruct (inorder_split _ _ _ _ _ HT) as (c & l & h & ns' & r & -> & Hrg & -> & ->).
  injection Hrg as <- <-. rewrite rep_plug. iDestruct "HT" as "(%x & %par & Hc & HT)". simpl.
  iDestruct "HT" as "(-> & %lx & %rx & (%Hh & Hs & Hl & Hr & Hp & [Hf Hv] & Hn) & HL & HR)".
  assert (rep (plug c (Node l t ns sz r)) top 0 ⊢ frees top ((before c ++ inorder l) ++ (sz, t :: ns) :: inorder r ++ after c)) as Hfold.
  { iIntros "HT". iExists _. iFrame. iPureIntro. apply inorder_at. }
  destruct ns as [|n ns]; simpl.
  - wp_get "Hf". iApply ("HΦ" $! t [] [] with "[//]"). iApply Hfold. rewrite rep_plug. iExists t, par.
    iFrame "Hc". simpl. iSplit; [done |]. iExists lx, rx. iFrame. done.
  - iDestruct "Hf" as "[Hf Hfs]". wp_get "Hf". iApply ("HΦ" $! n [t] ns with "[//]"). iApply Hfold.
    rewrite rep_plug. iExists t, par. iFrame "Hc". simpl. iSplit; [done |]. iExists lx, rx. iFrame. done.
Qed.
End Search.
