(* ===== verification/PoolArena.v ===== *)
(** * The arenas of a pool

    What memory holds for the blocks of a pool's arenas, in the order of their
    addresses; cutting and joining blocks. *)

From S2P Require Import Prelude Heap Pool PoolTree PoolOps.
Import Pool.

#[local] Open Scope Z_scope.

(** ** Words whose contents mean nothing *)

Fixpoint junk (a : Z) (n : nat) : hpropI Z :=
  match n with O => emp | S n => (∃ v, w a v) ∗ junk (a + 4) n end%I.

(** [n] bytes at [a]. *)
Definition mem (a n : Z) : hpropI Z := junk a (Z.to_nat (n / 4)).

Section Mem.

Lemma junk_app a n m : junk a (n + m) ⊣⊢ junk a n ∗ junk (a + 4 * Z.of_nat n) m.
Proof.
  revert a. induction n as [|n IH]; intros a; simpl.
  - rewrite left_id. by replace (a + 4 * Z.of_nat 0) with a by lia.
  - rewrite IH assoc. by replace (a + 4 * Z.of_nat (S n)) with (a + 4 + 4 * Z.of_nat n) by lia.
Qed.

Lemma mem_app a n m : 0 <= n -> n mod 4 = 0 -> 0 <= m -> mem a (n + m) ⊣⊢ mem a n ∗ mem (a + n) m.
Proof.
  intros Hn Hn4 Hm. unfold mem. assert ((n + m) / 4 = n / 4 + m / 4) as -> by zlia.
  rewrite Z2Nat.inj_add; [| zlia..]. rewrite junk_app.
  by replace (a + 4 * Z.of_nat (Z.to_nat (n / 4))) with (a + n) by zlia.
Qed.

Lemma mem_0 a : mem a 0 ⊣⊢ emp.
Proof. done. Qed.

Lemma mem_1 a : mem a 4 ⊣⊢ ∃ v, w a v.
Proof. unfold mem. simpl. by rewrite right_id. Qed.

Lemma mem_cons a n : 4 <= n -> mem a n ⊣⊢ (∃ v, w a v) ∗ mem (a + 4) (n - 4).
Proof. intros Hn. rewrite -mem_1 -mem_app; [| lia | done | lia]. by replace (4 + (n - 4)) with n by lia. Qed.

Lemma mem_w a b v : a = b -> w a v ⊢ mem b 4.
Proof. intros ->. rewrite mem_1. by iIntros; iExists v. Qed.

Lemma w_at a b v : a = b -> w a v ⊢ w b v.
Proof. by intros ->. Qed.

Lemma mem_at a b n m : a = b -> n = m -> mem a n ⊢ mem b m.
Proof. by intros -> ->. Qed.
End Mem.

#[global] Typeclasses Opaque mem.

(** ** Blocks *)

(** A size, and the magic number of a block in use. *)
Abbreviation block := (Z * option Z)%type.

Definition tail (a sz : Z) : Z := a + sz - 4.

(** Where a block in use keeps what the pool owns; where it has its data. *)
Definition blk (a : Z) (b : block) : hpropI Z :=
  match b with
  | (sz, None) => w (a + magic) MAGIC_F ∗ mem (a + 28) (sz - 32) ∗ w (tail a sz) a
  | (sz, Some m) =>
      ⌈m = MAGIC_A \/ m = MAGIC_I⌉ ∗ ⌈0 < a⌉ ∗ w (a + magic) m ∗ w (a + size) sz ∗ mem (a + (sz - 8)) 4 ∗ w (tail a sz) a
  end%I.
Definition dat (a sz : Z) : hpropI Z := mem (B2D a) (sz - BHDRSIZE).

(** A block in transit: all its words but the first. *)
Definition raw (a sz : Z) : hpropI Z :=
  (⌈0 < a⌉ ∗ w (a + size) sz ∗ mem (a + 8) (sz - 12) ∗ w (tail a sz) a)%I.

Definition block_size (sz : Z) : Prop := 32 <= sz /\ sz mod 32 = 0.

Section Blocks.

Lemma raw_used a sz m : block_size sz -> m = MAGIC_A \/ m = MAGIC_I ->
  blk a (sz, Some m) ∗ dat a sz ⊣⊢ w (a + magic) m ∗ raw a sz.
Proof.
  intros [Hs H32] Hm. unfold blk, dat, raw, B2D, BHDRSIZE, data, sizeof_Btail.
  replace (sz - 12) with ((sz - 16) + 4) by lia. rewrite (mem_app (a + 8) (sz - 16) 4); [| zlia..].
  replace (a + 8 + (sz - 16)) with (a + (sz - 8)) by lia. iSplit.
  - iIntros "((_ & $ & $ & $ & $ & $) & Hd)". iApply (mem_at with "Hd"); [done | lia].
  - iIntros "($ & $ & $ & [Hd $] & $)". iSplit; [done |]. iApply (mem_at with "Hd"); [done | lia].
Qed.

Lemma free_to_raw a sz : block_size sz -> blk a (sz, None) -∗ loose a sz -∗ w (a + magic) MAGIC_F ∗ raw a sz.
Proof.
  iIntros ([Hs H32]) "($ & Hm & $) ($ & $ & %l & %r & %pa & %v & %f & Hl & Hr & Hp & Hv & Hf)".
  replace (sz - 12) with (4 + (4 + (4 + (4 + (4 + (sz - 32)))))) by lia.
  do 5 (rewrite mem_app; [| zlia..]). unfold left, right, parent, prev, fwd.
  iSplitL "Hl"; [iApply (mem_w with "Hl"); lia |]. iSplitL "Hr"; [iApply (mem_w with "Hr"); lia |].
  iSplitL "Hp"; [iApply (mem_w with "Hp"); lia |]. iSplitL "Hv"; [iApply (mem_w with "Hv"); lia |].
  iSplitL "Hf"; [iApply (mem_w with "Hf"); lia |]. iApply (mem_at with "Hm"); lia.
Qed.

Lemma used_to_raw a sz m : block_size sz -> blk a (sz, Some m) -∗ dat a sz -∗
  ⌈m = MAGIC_A \/ m = MAGIC_I⌉ ∗ w (a + magic) m ∗ raw a sz.
Proof.
  iIntros (Hs) "Hb Hd". iAssert (⌜m = MAGIC_A \/ m = MAGIC_I⌝)%I as %Hm; [iDestruct "Hb" as "(% & _)"; done |].
  iSplit; [done |]. rewrite -raw_used //. iFrame.
Qed.

Lemma raw_to_used a sz m : block_size sz -> m = MAGIC_A \/ m = MAGIC_I ->
  w (a + magic) m -∗ raw a sz -∗ blk a (sz, Some m) ∗ dat a sz.
Proof. iIntros (Hs Hm) "Hw Hr". rewrite raw_used //. iFrame. Qed.

(** A block on its way to the tree. *)
Lemma raw_to_loose a sz : block_size sz -> raw a sz -∗
  loose a sz ∗ (w (a + magic) MAGIC_F -∗ blk a (sz, None)).
Proof.
  iIntros ([Hs H32]) "($ & $ & Hm & Ht)".
  replace (sz - 12) with (4 + (4 + (4 + (4 + (4 + (sz - 32)))))) by lia.
  do 5 (rewrite mem_app; [| zlia..]). rewrite !mem_1.
  iDestruct "Hm" as "((%l & Hl) & (%r & Hr) & (%pa & Hp) & (%v & Hv) & (%f & Hf) & Hm)".
  iSplitR "Hm Ht"; [| iIntros "Hw"; iFrame; iApply (mem_at with "Hm"); lia].
  iExists l, r, pa, v, f. unfold left, right, parent, prev, fwd.
  iSplitL "Hl"; [iApply (w_at with "Hl"); lia |]. iSplitL "Hr"; [iApply (w_at with "Hr"); lia |].
  iSplitL "Hp"; [iApply (w_at with "Hp"); lia |]. iSplitL "Hv"; [iApply (w_at with "Hv"); lia |].
  iApply (w_at with "Hf"); lia.
Qed.

(** Two neighbours become one; the tail has been set. *)
Lemma raw_join a s1 s2 x y z : block_size s1 -> block_size s2 -> 0 < a ->
  w (a + size) (s1 + s2) ∗ mem (a + 8) (s1 - 12) ∗ w (tail a s1) x ∗
  w (a + s1 + magic) y ∗ w (a + s1 + size) z ∗ mem (a + s1 + 8) (s2 - 12) ∗ w (tail a (s1 + s2)) a
  ⊢ raw a (s1 + s2).
Proof.
  intros [Hs1 H1] [Hs2 H2] Ha. iIntros "(Hs & Hm1 & Ht & Hy & Hz & Hm2 & Htl)". unfold raw. iFrame "Hs Htl".
  iSplit; [done |]. replace (s1 + s2 - 12) with ((s1 - 12) + (4 + (4 + (4 + (s2 - 12))))) by lia.
  do 4 (rewrite mem_app; [| zlia..]). iFrame "Hm1". unfold tail, size, magic.
  iSplitL "Ht"; [iApply (mem_w with "Ht"); lia |]. iSplitL "Hy"; [iApply (mem_w with "Hy"); lia |].
  iSplitL "Hz"; [iApply (mem_w with "Hz"); lia |]. iApply (mem_at with "Hm2"); lia.
Qed.

(** One becomes two; the words where the second starts and the first ends mean
    nothing yet. *)
Lemma raw_cut a s1 s2 : block_size s1 -> block_size s2 ->
  raw a (s1 + s2) ⊢
  ⌈0 < a⌉ ∗ w (a + size) (s1 + s2) ∗ mem (a + 8) (s1 - 12) ∗ (∃ x, w (tail a s1) x) ∗
  (∃ y, w (a + s1 + magic) y) ∗ (∃ z, w (a + s1 + size) z) ∗ mem (a + s1 + 8) (s2 - 12) ∗ w (tail (a + s1) s2) a.
Proof.
  intros [Hs1 H1] [Hs2 H2]. iIntros "($ & $ & Hm & Htl)".
  replace (s1 + s2 - 12) with ((s1 - 12) + (4 + (4 + (4 + (s2 - 12))))) by lia.
  do 4 (rewrite mem_app; [| zlia..]). rewrite !mem_1.
  iDestruct "Hm" as "($ & (%x & Hx) & (%y & Hy) & (%z & Hz) & Hm)". unfold tail, size, magic.
  iSplitL "Hx"; [iExists x; iApply (w_at with "Hx"); lia |]. iSplitL "Hy"; [iExists y; iApply (w_at with "Hy"); lia |].
  iSplitL "Hz"; [iExists z; iApply (w_at with "Hz"); lia |].
  iSplitL "Hm"; [iApply (mem_at with "Hm"); lia |]. iApply (w_at with "Htl"); lia.
Qed.
End Blocks.

(** ** Arenas *)

Fixpoint total (bs : list block) : Z := match bs with [] => 0 | b :: bs => b.1 + total bs end.

Fixpoint blks (a : Z) (bs : list block) : hpropI Z :=
  match bs with [] => emp | b :: bs => blk a b ∗ blks (a + b.1) bs end%I.

(** The leader of an arena. *)
Definition lead (ab link n : Z) : hpropI Z :=
  (⌈0 < ab⌉ ∗ w (ab + magic) MAGIC_E ∗ w (ab + size) 32 ∗ w (ab + clink) link ∗ w (ab + csize) n ∗
   mem (ab + 16) 12 ∗ w (tail ab 32) ab)%I.

Abbreviation arena := (Z * list block)%type.

(** Its first block, its end. *)
Definition floor (ab : Z) : Z := ab + 32.
Definition ceiling (ar : arena) : Z := floor ar.1 + total ar.2.

Definition arena_rep (ar : arena) (link : Z) : hpropI Z :=
  (lead ar.1 link (32 + total ar.2) ∗ blks (floor ar.1) ar.2 ∗ w (ceiling ar + magic) MAGIC_E)%I.

Fixpoint arenas (top : Z) (ars : list arena) : hpropI Z :=
  match ars with
  | [] => ⌈top = 0⌉
  | ar :: ars => ⌈top = ar.1⌉ ∗ ∃ link, arena_rep ar link ∗ arenas link ars
  end%I.

(** The blocks with their addresses. *)
Fixpoint placed (a : Z) (bs : list block) : list (Z * block) :=
  match bs with [] => [] | b :: bs => (a, b) :: placed (a + b.1) bs end.
Definition blocks_of (ars : list arena) : list (Z * block) := ars ≫= fun ar => placed (floor ar.1) ar.2.

Definition free_in (xs : list (Z * block)) : list (Z * Z) :=
  omap (fun x => match x.2.2 with None => Some (x.1, x.2.1) | Some _ => None end) xs.
Definition used_in (xs : list (Z * block)) : list (Z * Z) :=
  omap (fun x => match x.2.2 with Some _ => Some (x.1, x.2.1) | None => None end) xs.

(** No two neighbours are free. *)
Fixpoint coal (f : bool) (bs : list block) : Prop :=
  match bs with
  | [] => True
  | (_, None) :: bs => f = false /\ coal true bs
  | (_, Some _) :: bs => coal false bs
  end.

Definition ends_free (f : bool) (bs : list block) : bool :=
  match last bs with Some (_, None) => true | Some (_, Some _) => false | None => f end.
Definition starts_free (bs : list block) : bool := match bs with (_, None) :: _ => true | _ => false end.

Section Arenas.

Lemma total_app bs1 bs2 : total (bs1 ++ bs2) = total bs1 + total bs2.
Proof. induction bs1 as [|b bs1 IH]; simpl; [done |]. rewrite IH. lia. Qed.

Lemma blks_app a bs1 bs2 : blks a (bs1 ++ bs2) ⊣⊢ blks a bs1 ∗ blks (a + total bs1) bs2.
Proof.
  revert a. induction bs1 as [|b bs1 IH]; intros a; simpl.
  - by rewrite left_id Z.add_0_r.
  - rewrite IH assoc. by rewrite Z.add_assoc.
Qed.

Lemma placed_app a bs1 bs2 : placed a (bs1 ++ bs2) = placed a bs1 ++ placed (a + total bs1) bs2.
Proof.
  revert a. induction bs1 as [|b bs1 IH]; intros a; simpl; [by rewrite Z.add_0_r |].
  rewrite IH. by rewrite Z.add_assoc.
Qed.

Lemma placed_elem a bs x b : (x, b) ∈ placed a bs -> exists bs1 bs2, bs = bs1 ++ b :: bs2 /\ x = a + total bs1.
Proof.
  revert a. induction bs as [|b' bs IH]; intros a; simpl; [by intros ?%not_elem_of_nil |].
  intros [[= -> ->] | Hx]%elem_of_cons.
  - exists [], bs. split; [done | simpl; lia].
  - destruct (IH _ Hx) as (bs1 & bs2 & -> & ->). exists (b' :: bs1), bs2. split; [done | simpl; lia].
Qed.

Lemma blocks_of_app ars1 ars2 : blocks_of (ars1 ++ ars2) = blocks_of ars1 ++ blocks_of ars2.
Proof. apply bind_app. Qed.

Lemma blocks_of_elem ars a b : (a, b) ∈ blocks_of ars ->
  exists as1 ab bs1 bs2 as2, ars = as1 ++ (ab, bs1 ++ b :: bs2) :: as2 /\ a = floor ab + total bs1.
Proof.
  unfold blocks_of. rewrite list_elem_of_bind. intros ([ab bs] & Ha & Har). apply list_elem_of_split in Har as (as1 & as2 & ->).
  apply placed_elem in Ha as (bs1 & bs2 & E & ->). simpl in E. subst. eauto 10.
Qed.

Lemma arenas_split top as1 ab bs as2 : arenas top (as1 ++ (ab, bs) :: as2) ⊢
  ∃ link, arena_rep (ab, bs) link ∗ (∀ bs', arena_rep (ab, bs') link -∗ arenas top (as1 ++ (ab, bs') :: as2)).
Proof.
  revert top. induction as1 as [|ar as1 IH]; intros top; simpl.
  - iIntros "(-> & %link & Har & Hs)". iExists link. iFrame. iIntros (bs') "Har". iSplit; [done |]. iExists link. iFrame.
  - iIntros "(-> & %link & Har & Hs)". iDestruct (IH with "Hs") as (l) "[Hab Hs]". iExists l. iFrame "Hab".
    iIntros (bs') "Hab". iSplit; [done |]. iExists link. iFrame. by iApply "Hs".
Qed.

Lemma coal_app f bs1 bs2 : coal f (bs1 ++ bs2) <-> coal f bs1 /\ coal (ends_free f bs1) bs2.
Proof.
  revert f. induction bs1 as [|[s [m|]] bs1 IH]; intros f; simpl; [tauto | |].
  - rewrite IH. unfold ends_free. rewrite last_cons. by destruct (last bs1).
  - rewrite IH. unfold ends_free. rewrite last_cons. destruct (last bs1); tauto.
Qed.

Lemma coal_true bs : coal true bs <-> coal false bs /\ starts_free bs = false.
Proof. destruct bs as [|[s [m|]] bs]; simpl; [tauto.. |]. split; [by intros [] | by intros [_ ?]]. Qed.

Lemma coal_weaken f bs : coal f bs -> coal false bs.
Proof. destruct f; [| done]. intros H. by apply coal_true in H as [? _]. Qed.

(** What the neighbours of a block read of it. *)
Lemma blk_view a sz st : blk a (sz, st) ⊢
  ∃ m, ⌈(m =? MAGIC_F) = if st is None then true else false⌉ ∗ w (a + magic) m ∗ w (tail a sz) a ∗
    (w (a + magic) m -∗ w (tail a sz) a -∗ blk a (sz, st)).
Proof.
  destruct st as [m|]; simpl.
  - iIntros "(%Hm & %Ha & Hw & Hs & Hp & Ht)". iExists m. iSplit; [iPureIntro; by destruct Hm as [-> | ->] |].
    iSplitL "Hw"; [done |]. iSplitL "Ht"; [done |]. iIntros "Hw Ht". iFrame. auto.
  - iIntros "(Hm & Hd & Ht)". iExists MAGIC_F. iSplit; [done |]. iSplitL "Hm"; [done |].
    iSplitL "Ht"; [done |]. iIntros "Hm Ht". iFrame.
Qed.

Lemma next_magic e a bs : e = a + total bs -> blks a bs ∗ w (e + magic) MAGIC_E ⊢
  ∃ m, ⌈(m =? MAGIC_F) = starts_free bs⌉ ∗ w (a + magic) m ∗
    (w (a + magic) m -∗ blks a bs ∗ w (e + magic) MAGIC_E).
Proof.
  intros Hc. destruct bs as [|b bs]; simpl in *.
  - iIntros "[_ He]". iExists MAGIC_E. replace (e) with a by lia. iSplit; [done |]. iSplitL "He"; [done |].
    iIntros "He". iFrame.
  - destruct b as [sz st]. iIntros "[[Hb Hbs] He]". iDestruct (blk_view with "Hb") as (m) "(%Hm & Hw & Ht & Hb)".
    iExists m. iSplit; [iPureIntro; by destruct st |]. iSplitL "Hw"; [done |]. iIntros "Hw". iFrame.
    iApply ("Hb" with "Hw Ht").
Qed.

(** [c] is where the last of the blocks, if it is free, starts. *)
Definition behind (ab : Z) (bs : list block) (c : Z) : Prop :=
  forall bs0 s, bs = bs0 ++ [(s, None)] -> c = floor ab + total bs0.

Lemma prev_magic ab link n bs a : a = floor ab + total bs -> lead ab link n ∗ blks (floor ab) bs ⊢
  ∃ c m : Z, ⌈(m =? MAGIC_F) = ends_free false bs⌉ ∗ ⌈behind ab bs c⌉ ∗
    w (B2PT a + hdr) c ∗ w (c + magic) m ∗
    (w (B2PT a + hdr) c -∗ w (c + magic) m -∗ lead ab link n ∗ blks (floor ab) bs).
Proof.
  intros ->. unfold B2PT, hdr, sizeof_Btail. destruct bs as [|[s st] bs _] using rev_ind; simpl.
  - unfold lead, floor, tail. replace (ab + 32 + 0 - 8 + 4) with (ab + 32 - 4) by lia.
    iIntros "[(%Hab & Hm & Hs & Hl & Hc & Hj & Ht) _]". iExists ab, MAGIC_E. iSplit; [done |].
    iSplit; [iPureIntro; intros bs0 s E; by destruct bs0 |]. iSplitL "Ht"; [done |]. iSplitL "Hm"; [done |].
    iIntros "Ht Hm". iFrame. auto.
  - iIntros "[Hl Hbs]". iEval (rewrite blks_app /=) in "Hbs". iDestruct "Hbs" as "(Hbs & Hb & _)". rewrite total_app. simpl.
    iDestruct (blk_view with "Hb") as (m) "(%Hm & Hw & Ht & Hb)".
    iExists (floor ab + total bs), m. iSplit.
    { iPureIntro. rewrite /ends_free last_snoc. by destruct st. }
    iSplit; [iPureIntro; intros bs0 s0 E; by apply app_inj_tail in E as [<- _] |].
    assert (floor ab + (total bs + (s + 0)) - 8 + 4 = tail (floor ab + total bs) s) as -> by (unfold tail; lia).
    iSplitL "Ht"; [done |]. iSplitL "Hw"; [done |]. iIntros "Ht Hw". rewrite blks_app. simpl. iFrame.
    iSplitL; [| done]. iApply ("Hb" with "Hw Ht").
Qed.
End Arenas.

#[global] Arguments blk : simpl never.
