(* ===== verification/PoolFree.v ===== *)
(** * The pool allocator: the operations

    [poolfree] and [poolalloc] against the list of the blocks of the arenas.  In
    separation logic: a block in use gives its data to whoever holds it, and
    the pool keeps the rest. *)

From Stdlib Require Import Sorted.
From S2P Require Import Prelude Heap Pool PoolTree PoolOps PoolArena.
Import Pool.

#[local] Open Scope Z_scope.

(** ** The free blocks as a set *)

Definition flat (I : list (Z * list Z)) : list (Z * Z) := I ≫= fun e => map (fun a => (a, e.1)) e.2.

Definition fset (top : Z) (F : list (Z * Z)) : hpropI Z :=
  (∃ I, ⌈sorted I /\ flat I ≡ₚ F⌉ ∗ frees top I)%I.

Section Free.

Lemma flat_app I1 I2 : flat (I1 ++ I2) = flat I1 ++ flat I2.
Proof. apply bind_app. Qed.

Lemma flat_cons sz rg I : flat ((sz, rg) :: I) = map (fun a => (a, sz)) rg ++ flat I.
Proof. done. Qed.

Lemma flat_others sz rg : flat (others sz rg) = map (fun a => (a, sz)) rg.
Proof. destruct rg; [done |]. unfold flat. simpl. by rewrite app_nil_r. Qed.

Lemma flat_del A sz r1 t r2 B :
  flat (A ++ (sz, r1 ++ t :: r2) :: B) ≡ₚ (t, sz) :: flat (A ++ others sz (r1 ++ r2) ++ B).
Proof.
  rewrite !flat_app flat_cons flat_others !map_app. simpl. by rewrite -!(assoc_L (++)) /= -!Permutation_middle.
Qed.

Lemma flat_ins sz q I : sorted I -> flat (ins sz q I) ≡ₚ (q, sz) :: flat I.
Proof.
  intros HI. destruct (sorted_find sz I HI) as [(A & rg & B & -> & HA & HB) | (A & B & -> & HA & HB)].
  - rewrite ins_ring // !flat_app !flat_cons map_app. simpl. by rewrite -!(assoc_L (++)) /= -!Permutation_middle.
  - rewrite ins_new // !flat_app flat_cons. simpl. by rewrite -Permutation_middle.
Qed.

Lemma flat_elem t sz I : (t, sz) ∈ flat I -> exists A r1 r2 B, I = A ++ (sz, r1 ++ t :: r2) :: B.
Proof.
  unfold flat. rewrite list_elem_of_bind. intros ([s rg] & Ha & HI). apply list_elem_of_fmap in Ha as (a & [= -> ->] & Ha).
  apply list_elem_of_split in HI as (A & B & ->). simpl in Ha. apply list_elem_of_split in Ha as (r1 & r2 & ->). eauto.
Qed.

#[global] Instance fset_proper top : Proper ((≡ₚ) ==> (⊣⊢)) (fset top).
Proof.
  intros F F' HF. iSplit; iIntros "(%I & [%HI %HIF] & HI)"; iExists I; iFrame; iPureIntro; (split; [done |]);
    by rewrite HIF HF.
Qed.

Lemma fset_perm top F F' : F ≡ₚ F' -> fset top F ⊢ fset top F'.
Proof. by intros ->. Qed.

Lemma wp_del p t sz F F' (Φ : Pool -> hpropI Z) : F ≡ₚ (t, sz) :: F' ->
  fset (root p) F -∗ (∀ rt, fset rt F' -∗ loose t sz -∗ Φ (set_root rt p)) -∗ wp (pooldel p t) Φ.
Proof.
  iIntros (HF) "(%I & [%HI %HIF] & HI) HΦ". rewrite HF in HIF.
  destruct (flat_elem t sz I) as (A & r1 & r2 & B & ->); [rewrite HIF; by left |].
  iApply (wp_pooldel with "HI"). iIntros (rt) "HI". iApply "HΦ". iExists _. iFrame. iPureIntro.
  split; [by eapply sorted_del |]. rewrite flat_del in HIF. by apply Permutation_cons_inv in HIF.
Qed.

Lemma wp_add p q m sz F (Φ : Pool -> hpropI Z) :
  fset (root p) F -∗ w (q + magic) m -∗ loose q sz -∗
  (∀ rt, fset rt ((q, sz) :: F) -∗ w (q + magic) MAGIC_F -∗ Φ (set_root rt p)) -∗ wp (pooladd p q) Φ.
Proof.
  iIntros "(%I & [%HI %HIF] & HI) Hm Hq HΦ". iApply (wp_pooladd with "HI Hm Hq"); [done |].
  iIntros (rt) "HI". iApply "HΦ". iExists _. iFrame. iPureIntro. split; [by apply sorted_ins |].
  by rewrite flat_ins // HIF.
Qed.
End Free.

Abbreviation sizes := (Forall (fun b : block => block_size b.1)).

Section Join.

Lemma wp_B2NB b sz (Φ : Z -> hpropI Z) : w (b + size) sz -∗ (w (b + size) sz -∗ Φ (b + sz)) -∗ wp (B2NB b) Φ.
Proof. iIntros "Hs HΦ". unfold B2NB. wp_get "Hs". wp_ret. by iApply "HΦ". Qed.

(** The tail of a block is set. *)
Lemma wp_mark {B} b sz x (k : M B) (Φ : B -> hpropI Z) : w (b + size) sz -∗ w (tail b sz) x -∗
  (w (b + size) sz -∗ w (tail b sz) b -∗ wp k Φ) -∗ wp (t ← B2T b; set t hdr b;; k) Φ.
Proof.
  iIntros "Hs Ht HΦ". unfold B2T. wp_bind. wp_get "Hs". wp_ret. unfold tail.
  assert (b + sz - 4 = b + sz - sizeof_Btail + hdr) as -> by (unfold sizeof_Btail, hdr; lia).
  wp_set "Ht". iApply ("HΦ" with "Hs Ht").
Qed.

Lemma total_nonneg bs : sizes bs -> 0 <= total bs.
Proof. induction 1 as [|b bs [Hb _] _ IH]; simpl; lia. Qed.

(** The block at [a] has grown from [sz] to [sz'] over the blocks behind it. *)
Definition joined_next (a sz : Z) (bs : list block) (sz' : Z) (bs' : list block) : Prop :=
  sz' + total bs' = sz + total bs /\ block_size sz' /\ sizes bs' /\ coal true bs' /\
  used_in (placed (a + sz') bs') = used_in (placed (a + sz) bs).

Lemma wp_join_forward p a sz bs e G (Φ : Pool -> hpropI Z) :
  block_size sz -> sizes bs -> coal false bs -> e = a + sz + total bs -> sz + total bs < 2 ^ 32 ->
  fset (root p) (free_in (placed (a + sz) bs) ++ G) -∗ raw a sz -∗ blks (a + sz) bs ∗ w (e + magic) MAGIC_E -∗
  (∀ (rt sz' : Z) bs', ⌈joined_next a sz bs sz' bs'⌉ -∗
     fset rt (free_in (placed (a + sz') bs') ++ G) -∗ raw a sz' -∗ blks (a + sz') bs' ∗ w (e + magic) MAGIC_E -∗
     Φ (set_root rt p)) -∗
  wp (join_forward p a) Φ.
Proof.
  iIntros (Hsz Hbs Hco He Hlim) "HF (%Ha & Hs & Hm & Ht) Hbs HΦ". unfold join_forward.
  wp_bind. iApply (wp_B2NB with "Hs"). iIntros "Hs".
  iDestruct (next_magic with "Hbs") as (m) "(%Hfree & Hw & Hbs)"; [done |].
  wp_get "Hw". iDestruct ("Hbs" with "Hw") as "Hbs". rewrite Hfree.
  destruct (starts_free bs) eqn:Hst.
  - destruct bs as [|[s2 [m2|]] bs]; [done.. |]. apply Forall_cons in Hbs as [Hs2 Hbs]. simpl in *.
    destruct Hco as [_ Hco]. iDestruct "Hbs" as "[[Hb Hbs] He]". wp_bind.
    iApply (wp_del with "HF"); [done |]. iIntros (rt) "HF Hl".
    iDestruct (free_to_raw with "Hb Hl") as "(Hcm & %Hc & Hcs & Hcd & Hct)"; [done |].
    wp_set "Hcm". wp_get "Hs". wp_get "Hcs".
    pose proof (total_nonneg bs Hbs). rewrite (wrapu_id 32); [| destruct Hsz, Hs2; lia].
    wp_set "Hs". assert (tail (a + sz) s2 = tail a (sz + s2)) as Htl by (unfold tail; lia). rewrite Htl.
    iApply (wp_mark with "Hs Hct"). iIntros "Hs Hct". wp_ret. iApply ("HΦ" $! rt (sz + s2) bs with "[] [HF] [Hs Hm Ht Hcm Hcs Hcd Hct] [Hbs He]").
    + iPureIntro. unfold joined_next. simpl. split_and!; [lia | destruct Hsz, Hs2; split; [lia | zlia] | done | done |]. by rewrite Z.add_assoc.
    + by rewrite Z.add_assoc.
    + iApply (raw_join with "[$Hs $Hm $Ht $Hcm $Hcs $Hcd $Hct]"); done.
    + rewrite Z.add_assoc. iFrame.
  - wp_ret. assert (set_root (root p) p = p) as Hp by (by destruct p). iSpecialize ("HΦ" $! (root p) sz bs).
    rewrite Hp. iApply ("HΦ" with "[] HF [Hs Hm Ht] Hbs"); [| by iFrame].
    iPureIntro. split_and!; [done.. | by apply coal_true | done].
Qed.

Lemma free_in_app xs ys : free_in (xs ++ ys) = free_in xs ++ free_in ys.
Proof. apply omap_app. Qed.

Lemma used_in_app xs ys : used_in (xs ++ ys) = used_in xs ++ used_in ys.
Proof. apply omap_app. Qed.

(** The block that ended at [a + sz] starts at [a'] now. *)
Definition joined_prev (ab a sz : Z) (bs : list block) (a' sz' : Z) (bs' : list block) : Prop :=
  a' = floor ab + total bs' /\ total bs' + sz' = total bs + sz /\ block_size sz' /\ sizes bs' /\ coal false bs' /\
  ends_free false bs' = false /\ used_in (placed (floor ab) bs') = used_in (placed (floor ab) bs).

Lemma wp_join_backward p a sz m bs ab link n G (Φ : Pool * Z -> hpropI Z) :
  block_size sz -> sizes bs -> coal false bs -> a = floor ab + total bs -> total bs + sz < 2 ^ 32 ->
  fset (root p) (free_in (placed (floor ab) bs) ++ G) -∗ w (a + magic) m -∗ raw a sz -∗
  lead ab link n ∗ blks (floor ab) bs -∗
  (∀ (rt a' sz' m' : Z) bs', ⌈joined_prev ab a sz bs a' sz' bs'⌉ -∗
     fset rt (free_in (placed (floor ab) bs') ++ G) -∗ w (a' + magic) m' -∗ raw a' sz' -∗
     lead ab link n ∗ blks (floor ab) bs' -∗ Φ (set_root rt p, a')) -∗
  wp (join_backward p a) Φ.
Proof.
  iIntros (Hsz Hbs Hco Ha Hlim) "HF Ham Hraw Hbs HΦ". unfold join_backward.
  iDestruct (prev_magic with "Hbs") as (c m0) "(%Hfree & %Hc & Ht & Hw & Hbs)"; [done |].
  wp_get "Ht". wp_get "Hw". iDestruct ("Hbs" with "Ht Hw") as "[Hl Hbs]". rewrite Hfree.
  destruct (ends_free false bs) eqn:Hend.
  - destruct bs as [|[s st] bs _] using rev_ind; [done |]. rewrite /ends_free last_snoc in Hend.
    destruct st as [m1|]; [done |]. pose proof (Hc bs s eq_refl) as ->. clear Hc Hfree.
    apply Forall_app in Hbs as [Hbs [Hs _]%Forall_cons]. simpl in Hs.
    apply coal_app in Hco as [Hco Hcs]. simpl in Hcs. destruct Hcs as [Hend' _].
    rewrite total_app in Ha, Hlim. simpl in Ha, Hlim.
    rewrite blks_app placed_app !free_in_app. simpl. iDestruct "Hbs" as "(Hbs & Hb & _)".
    set (c := floor ab + total bs) in *. assert (a = c + s) as -> by lia. clear Ha.
    wp_bind. iApply (wp_del with "HF"); [by rewrite -(assoc_L (++)) -Permutation_middle |]. iIntros (rt) "HF Hlo".
    iDestruct (free_to_raw with "Hb Hlo") as "(Hcm & %Hc & Hcs & Hcd & Hct)"; [done |].
    iDestruct "Hraw" as "(%Hb & Hs & Hd & Ht)". wp_set "Ham". wp_get "Hcs". wp_get "Hs".
    pose proof (total_nonneg bs Hbs). rewrite (wrapu_id 32); [| destruct Hsz, Hs; lia].
    wp_set "Hcs". assert (tail (c + s) sz = tail c (s + sz)) as Htl by (unfold tail; lia). rewrite Htl.
    iApply (wp_mark with "Hcs Ht"). iIntros "Hcs Ht". wp_ret.
    iApply ("HΦ" $! rt c (s + sz) MAGIC_F bs with "[] HF Hcm [Ham Hs Hd Ht Hcs Hcd Hct] [Hl Hbs]").
    + iPureIntro. unfold joined_prev. rewrite total_app placed_app used_in_app. simpl. rewrite app_nil_r.
      split_and!; [done | lia | destruct Hsz, Hs; split; [lia | zlia] | done..].
    + iApply (raw_join with "[$Hs $Hd $Ht $Ham $Hcs $Hcd $Hct]"); done.
    + iFrame.
  - wp_ret. assert (set_root (root p) p = p) as Hp by (by destruct p). iSpecialize ("HΦ" $! (root p) a sz m bs).
    rewrite Hp. iApply ("HΦ" with "[] HF Ham Hraw [Hl Hbs]"); [| by iFrame]. done.
Qed.
End Join.

(** ** The pool *)

Definition sumz (l : list Z) : Z := foldr Z.add 0 l.

(** The bytes of the blocks in use; what the arenas took from the host. *)
Definition held (ars : list arena) : Z := sumz (map snd (used_in (blocks_of ars))).
Fixpoint cost (ars : list arena) : Z := match ars with [] => 0 | ar :: ars => 36 + total ar.2 + cost ars end.

Definition arena_ok (ar : arena) : Prop := sizes ar.2 /\ coal false ar.2.

Record wfp (p : Pool) (ars : list arena) : Prop := {
  wf_quanta : quanta p = 31;
  wf_chunk : block_size (chunk p) /\ chunk p < 2 ^ 30;
  wf_move : move p = None;
  wf_arenas : Forall arena_ok ars;
  wf_cursize : cursize p = held ars;
  wf_hw : cursize p <= hw p;
  wf_arenasize : cost ars <= arenasize p <= maxsize p;
  wf_maxsize : maxsize p < 2 ^ 31;
}.

(** All a pool owns; [True] is what arenas lose to alignment. *)
Definition pool (p : Pool) (ars : list arena) : hpropI Z :=
  (⌈wfp p ars⌉ ∗ fset (root p) (free_in (blocks_of ars)) ∗ arenas (chain p) ars ∗ True)%I.

Section Account.

Lemma sumz_app l1 l2 : sumz (l1 ++ l2) = sumz l1 + sumz l2.
Proof. induction l1 as [|x l1 IH]; simpl; [done |]. unfold sumz in *. simpl. lia. Qed.

#[global] Instance sumz_proper : Proper ((≡ₚ) ==> (=)) sumz.
Proof. intros l l' H. induction H; unfold sumz in *; simpl; lia. Qed.

Lemma cost_app ars1 ars2 : cost (ars1 ++ ars2) = cost ars1 + cost ars2.
Proof. induction ars1 as [|ar ars1 IH]; simpl; [done |]. rewrite IH. lia. Qed.

Lemma cost_nonneg ars : Forall arena_ok ars -> 0 <= cost ars.
Proof. induction 1 as [|ar ars [Hs _] _ IH]; simpl; [lia |]. pose proof (total_nonneg _ Hs). lia. Qed.

Lemma used_nonneg a bs : sizes bs -> 0 <= sumz (map snd (used_in (placed a bs))) <= total bs.
Proof.
  intros Hs. revert a. induction Hs as [|[s [m|]] bs [Hb _] _ IH]; intros a; [done | |]; simpl in *;
    specialize (IH (a + s)); unfold sumz in *; simpl; lia.
Qed.

Lemma held_cons ar ars : held (ar :: ars) = sumz (map snd (used_in (placed (floor ar.1) ar.2))) + held ars.
Proof.
  unfold held. change (blocks_of (ar :: ars)) with (placed (floor ar.1) ar.2 ++ blocks_of ars).
  by rewrite used_in_app map_app sumz_app.
Qed.

Lemma held_bounds ars : Forall arena_ok ars -> 0 <= held ars <= cost ars.
Proof.
  induction 1 as [|ar ars [Hs _] _ IH]; [done |]. rewrite held_cons. simpl. pose proof (used_nonneg (floor ar.1) ar.2 Hs). lia.
Qed.

Lemma total_cost as1 ab bs as2 : Forall arena_ok (as1 ++ (ab, bs) :: as2) ->
  total bs + 36 <= cost (as1 ++ (ab, bs) :: as2).
Proof.
  intros Ha. rewrite cost_app. simpl. apply Forall_app in Ha as [H1 [_ H2]%Forall_cons].
  pose proof (cost_nonneg _ H1). pose proof (cost_nonneg _ H2). lia.
Qed.

(** Blocks in place of others, in an arena among others. *)
Lemma blocks_of_mid as1 ab bs as2 :
  blocks_of (as1 ++ (ab, bs) :: as2) = blocks_of as1 ++ placed (floor ab) bs ++ blocks_of as2.
Proof. by rewrite blocks_of_app. Qed.
(** What is outside some blocks that take [n] bytes of an arena. *)
Definition around (g : list (Z * block) -> list (Z * Z)) as1 ab bs1 n bs2 as2 : list (Z * Z) :=
  g (blocks_of as1) ++ g (placed (floor ab) bs1) ++ g (placed (floor ab + total bs1 + n) bs2) ++ g (blocks_of as2).

Lemma around_eq g as1 ab bs1 new n bs2 as2 : (forall xs ys, g (xs ++ ys) = g xs ++ g ys) -> total new = n ->
  g (blocks_of (as1 ++ (ab, bs1 ++ new ++ bs2) :: as2)) ≡ₚ
  g (placed (floor ab + total bs1) new) ++ around g as1 ab bs1 n bs2 as2.
Proof. intros Hg <-. unfold around. rewrite blocks_of_mid !placed_app !Hg. solve_Permutation. Qed.

Lemma around_nonneg as1 ab bs1 n bs2 as2 : Forall arena_ok as1 -> sizes bs1 -> sizes bs2 -> Forall arena_ok as2 ->
  0 <= sumz (map snd (around used_in as1 ab bs1 n bs2 as2)).
Proof.
  intros H1 H2 H3 H4. unfold around. rewrite !map_app !sumz_app. pose proof (held_bounds _ H1). pose proof (held_bounds _ H4).
  pose proof (used_nonneg (floor ab) bs1 H2). pose proof (used_nonneg (floor ab + total bs1 + n) bs2 H3). unfold held in *. lia.
Qed.

(** [p'] accounts for the blocks [bs'] as [p] did for [bs]. *)
Lemma wfp_mid p p' as1 ab bs bs' as2 :
  wfp p (as1 ++ (ab, bs) :: as2) -> arena_ok (ab, bs') -> total bs' = total bs ->
  cursize p' = held (as1 ++ (ab, bs') :: as2) -> cursize p' <= hw p' ->
  quanta p' = quanta p -> chunk p' = chunk p -> move p' = move p -> arenasize p' = arenasize p ->
  maxsize p' = maxsize p -> wfp p' (as1 ++ (ab, bs') :: as2).
Proof.
  intros [] Hok Ht Hc Hhw Eq Ec Em Ea Ex. split; rewrite ?Eq ?Ec ?Em ?Ea ?Ex //.
  - apply Forall_app in wf_arenas0 as [? [_ ?]%Forall_cons]. apply Forall_app. split; [done |]. by constructor.
  - rewrite !cost_app /= in wf_arenasize0 |- *. lia.
Qed.

Lemma held_perm ars F : used_in (blocks_of ars) ≡ₚ F -> held ars = sumz (map snd F).
Proof. intros HF. unfold held. by rewrite HF. Qed.
End Account.

Section PoolFree.

Lemma wfp_new m c : block_size c -> c < 2 ^ 30 -> 0 <= m < 2 ^ 31 -> wfp (new_pool m c) [].
Proof. intros. split; simpl; try done; lia. Qed.

Lemma pool_new m c : block_size c -> c < 2 ^ 30 -> 0 <= m < 2 ^ 31 -> True ⊢ pool (new_pool m c) [].
Proof.
  intros Hc Hlt Hm. iIntros "Ht". iSplit; [iPureIntro; by apply wfp_new |]. simpl.
  iSplitR; [| by iSplit]. iExists []. iSplit; [iPureIntro; split; [constructor | done] |]. iExists Leaf. by iSplit.
Qed.

Lemma wp_D2B a m (Φ : Z -> hpropI Z) : m = MAGIC_A \/ m = MAGIC_I ->
  w (a + magic) m -∗ (w (a + magic) m -∗ Φ a) -∗ wp (D2B (B2D a)) Φ.
Proof.
  iIntros (Hm) "Hw HΦ". unfold D2B, B2D. replace (a + data - data) with a by lia. wp_get "Hw".
  assert ((m =? MAGIC_A) || (m =? MAGIC_I) = true) as -> by (by destruct Hm as [-> | ->]).
  wp_ret. by iApply "HΦ".
Qed.

Lemma wp_poolfree p as1 ab bs1 sz m bs2 as2 (Φ : Pool -> hpropI Z) :
  let a := floor ab + total bs1 in
  let ars := as1 ++ (ab, bs1 ++ (sz, Some m) :: bs2) :: as2 in
  pool p ars -∗ dat a sz -∗
  (∀ p' bs', ⌈total bs' = total (bs1 ++ (sz, Some m) :: bs2) /\
       used_in (blocks_of ars) ≡ₚ (a, sz) :: used_in (blocks_of (as1 ++ (ab, bs') :: as2))⌉ -∗
     pool p' (as1 ++ (ab, bs') :: as2) -∗ Φ p') -∗
  wp (poolfree p (B2D a)) Φ.
Proof.
  intros a ars. iIntros "(%Hwf & HF & Hars & Htrue) Hd HΦ".
  pose proof (wf_arenas _ _ Hwf) as Hok. pose proof (total_cost _ _ _ _ Hok) as Hcost.
  pose proof (wf_arenasize _ _ Hwf) as [Hc1 Hc2]. pose proof (wf_maxsize _ _ Hwf) as Hmax.
  pose proof Hok as Hok'. apply Forall_app in Hok' as [Hok1 [[Hs Hco] Hok2]%Forall_cons]. simpl in Hs, Hco.
  fold ars in Hcost. rewrite total_app /= in Hcost. apply Forall_app in Hs as [Hs1 [Hsz Hs2]%Forall_cons]. simpl in Hsz.
  apply coal_app in Hco as [Hco1 Hco2]. simpl in Hco2. pose proof (total_nonneg _ Hs1). pose proof (total_nonneg _ Hs2).
  iDestruct (arenas_split with "Hars") as (link) "[Har Hback]". iDestruct "Har" as "(Hlead & Hbs & He)". simpl.
  rewrite blks_app. simpl. iDestruct "Hbs" as "(Hb1 & Hb & Hb2)". fold a.
  iDestruct (used_to_raw with "Hb Hd") as "(%Hm & Hw & %Ha & Hsz & Hraw)"; [done |].
  unfold poolfree. wp_bind. iApply (wp_D2B with "Hw"); [done |]. iIntros "Hw". wp_get "Hsz".
  set (U := around used_in as1 ab bs1 sz bs2 as2). set (R := free_in (blocks_of as1) ++ free_in (blocks_of as2)).
  assert (used_in (blocks_of ars) ≡ₚ (a, sz) :: U) as Hused
    by exact (around_eq used_in as1 ab bs1 [(sz, Some m)] sz bs2 as2 used_in_app (Z.add_0_r sz)).
  assert (free_in (blocks_of ars) ≡ₚ free_in (placed (a + sz) bs2) ++ free_in (placed (floor ab) bs1) ++ R) as Hfree.
  { unfold ars, R. rewrite (around_eq free_in as1 ab bs1 [(sz, Some m)] sz) ; [| apply free_in_app | simpl; lia].
    unfold around. fold a. simpl. solve_Permutation. }
  assert (held ars = sz + sumz (map snd U)) as Hheld by (unfold held; by rewrite Hused).
  assert (0 <= sumz (map snd U)) as HU by (by apply around_nonneg).
  pose proof (held_bounds _ Hok). rewrite (wf_cursize _ _ Hwf) Hheld (wrapu_id 32); [| destruct Hsz; lia].
  set (p1 := set_cursize _ _). wp_bind. iEval (rewrite Hfree) in "HF".
  assert (ceiling (ab, bs1 ++ (sz, Some m) :: bs2) = a + sz + total bs2) as Hce
    by (unfold ceiling, a; rewrite total_app /=; lia).
  iApply (wp_join_forward p1 with "HF [Hsz Hraw] [Hb2 He]"); [done.. | lia | by iFrame | by iFrame |].
  iIntros (rt1 sz1 bs2' Hj) "HF Hraw [Hb2 He]". destruct Hj as (Ht1 & Hsz1 & Hs2' & Hco2' & Hu2).
  pose proof (total_nonneg _ Hs2').
  iApply (wp_bind (join_backward _ _)). set (p2 := set_root rt1 p1).
  iApply (wp_join_backward p2 a sz1 m bs1 ab link _ (free_in (placed (a + sz1) bs2') ++ R) with "[HF] Hw Hraw [Hlead Hb1]");
    [done.. | lia | | by iFrame |].
  { iApply (fset_perm with "HF"). solve_Permutation. }
  iIntros (rt2 a2 sz2 m2 bs1' Hj) "HF Hw Hraw [Hlead Hb1]". destruct Hj as (Ha2 & Ht2 & Hsz2 & Hs1' & Hco1' & He1 & Hu1).
  iDestruct (raw_to_loose with "Hraw") as "[Hlo Hb]"; [done |].
  simpl. iApply (wp_add (set_root rt2 p2) with "HF Hw Hlo"). iIntros (rt3) "HF Hw". iDestruct ("Hb" with "Hw") as "Hb".
  set (bs' := bs1' ++ (sz2, None) :: bs2').
  assert (total bs' = total (bs1 ++ (sz, Some m) :: bs2)) as Ht by (unfold bs'; rewrite !total_app /=; lia).
  assert (a2 + sz2 = a + sz1) as Hend by lia.
  assert (used_in (blocks_of (as1 ++ (ab, bs') :: as2)) ≡ₚ U) as HU'.
  { unfold U, around, bs'. fold a. rewrite blocks_of_mid placed_app /= -Ha2 Hend !used_in_app /= Hu1 Hu2. solve_Permutation. }
  iApply ("HΦ" with "[]"); [iPureIntro; split; [done | by rewrite HU' Hused] |].
  iSplitR.
  { iPureIntro. apply (wfp_mid p _ as1 ab (bs1 ++ (sz, Some m) :: bs2)); try done.
    - split; simpl; unfold bs'; [by apply Forall_app; split; [| constructor] |].
      apply coal_app. split; [done |]. simpl. by rewrite He1.
    - rewrite (held_perm _ _ HU'). simpl. lia.
    - simpl. pose proof (wf_cursize _ _ Hwf). pose proof (wf_hw _ _ Hwf). destruct Hsz. lia. }
  iSplitL "HF"; [iApply (fset_perm with "HF"); unfold bs'; rewrite blocks_of_mid placed_app /= -Ha2 Hend !free_in_app /=;
    solve_Permutation |].
  iSplitR "Htrue"; [| done]. iApply "Hback". rewrite /arena_rep /= Ht. iFrame "Hlead". rewrite blks_app /= -Ha2 Hend. iFrame.
  rewrite /ceiling /= Ht. iFrame.
Qed.

Lemma used_block p ars a sz : wfp p ars -> (a, sz) ∈ used_in (blocks_of ars) ->
  exists as1 ab bs1 m bs2 as2, ars = as1 ++ (ab, bs1 ++ (sz, Some m) :: bs2) :: as2 /\ a = floor ab + total bs1 /\
    block_size sz /\ sz < 2 ^ 31.
Proof.
  intros Hwf H. unfold used_in in H. apply list_elem_of_omap in H as ([x [s [m|]]] & Hx & E); [injection E as -> -> | done].
  apply blocks_of_elem in Hx as (as1 & ab & bs1 & bs2 & as2 & -> & ->). exists as1, ab, bs1, m, bs2, as2.
  pose proof (wf_arenas _ _ Hwf) as Hok. pose proof (total_cost _ _ _ _ Hok) as Hc. rewrite total_app /= in Hc.
  pose proof (wf_arenasize _ _ Hwf). pose proof (wf_maxsize _ _ Hwf).
  apply Forall_app in Hok as [_ [[Hs _] _]%Forall_cons]. apply Forall_app in Hs as [H1 [Hn H2]%Forall_cons].
  pose proof (total_nonneg _ H1). pose proof (total_nonneg _ H2). split_and!; try done. lia.
Qed.

(** C14. [poolfree] of a block in use: it returns, the block is the pool's again
    and no other block in use is touched; the arenas keep their bounds, and the
    pool its invariant: the tree in order, the tags right, no two free
    neighbours left apart. *)
Theorem poolfree_correct p ars a sz : (a, sz) ∈ used_in (blocks_of ars) ->
  pool p ars ∗ dat a sz ⊢ wp (poolfree p (B2D a)) (fun p' =>
    ∃ ars', ⌈used_in (blocks_of ars) ≡ₚ (a, sz) :: used_in (blocks_of ars') /\ map fst ars' = map fst ars /\
             cost ars' = cost ars⌉ ∗ pool p' ars').
Proof.
  iIntros (Ha) "[Hp Hd]". iAssert (⌜wfp p ars⌝)%I as %Hwf; [by iDestruct "Hp" as "(% & _)" |].
  destruct (used_block p ars a sz Hwf Ha) as (as1 & ab & bs1 & m & bs2 & as2 & -> & -> & Hsz & Hlim).
  iApply (wp_poolfree with "Hp Hd"). iIntros (p' bs') "[%Ht %Hu] Hp". iExists _. iFrame. iPureIntro.
  split_and!; [done | by rewrite !map_app | by rewrite !cost_app /= Ht].
Qed.

(** With nothing in use, every arena is one free block again: whatever was
    cut has been joined. *)
Theorem pool_reclaimed p ars : wfp p ars -> used_in (blocks_of ars) = [] ->
  Forall (fun ar => ar.2 = [] \/ ar.2 = [(total ar.2, None)]) ars.
Proof.
  intros Hwf. pose proof (wf_arenas _ _ Hwf) as Hok. clear Hwf. induction Hok as [|[ab bs] ars [Hs Hc] _ IH]; [constructor |].
  change (blocks_of ((ab, bs) :: ars)) with (placed (floor ab) bs ++ blocks_of ars). rewrite used_in_app.
  intros [Hbs Hu]%app_eq_nil. constructor; [| by apply IH]. simpl in *.
  destruct bs as [|[s [m|]] bs]; [by left | done |]. right. destruct Hc as [_ Hc].
  destruct bs as [|[s' [m|]] bs]; [by rewrite /= Z.add_0_r | done | by destruct Hc].
Qed.

Lemma pool_reclaimed_witness :
  let ars := [(64, [(64, None)])] in let p := set_arenasize 200 mainmem in
  wfp p ars /\ used_in (blocks_of ars) = [] /\ Forall (fun ar => ar.2 = [] \/ ar.2 = [(total ar.2, None)]) ars.
Proof.
  intros ars p. assert (wfp p ars) as H.
  { split; try done. unfold ars. repeat constructor; simpl; unfold block_size; lia || done. }
  split_and!; [done | done | by apply (pool_reclaimed p ars)].
Defined.
End PoolFree.
