(* ===== verification/PoolAlloc.v ===== *)
(** * The pool allocator: allocation

    [poolalloc] against the list of the blocks of the arenas: the exact fit,
    the best fit with what is left over cut off, a new arena from the host, and
    the ways to fail. *)

From Stdlib Require Import Sorted.
From S2P Require Import Prelude Heap Pool PoolTree PoolOps PoolArena PoolFree.
Import Pool.

#[local] Open Scope Z_scope.

(** ** Rounding *)

Section Round.

Lemma mask_eq p n : quanta p = 31 -> mask p n = 32 * (n / 32).
Proof.
  intros E. unfold mask. rewrite E -Z.ldiff_land. change 31 with (Z.ones 5).
  rewrite Z.ldiff_ones_r; [| done]. rewrite Z.shiftl_mul_pow2 // Z.shiftr_div_pow2 //. apply Z.mul_comm.
Qed.

(** The size of a block that is asked for [n] bytes. *)
Definition need (n : Z) : Z := 32 * ((n + BHDRSIZE + 31) / 32).

Lemma need_block n : 0 <= n -> block_size (need n) /\ n + BHDRSIZE <= need n < n + BHDRSIZE + 32.
Proof. intros. unfold block_size, need, BHDRSIZE, data, sizeof_Btail. split; [split |]; zlia. Qed.
End Round.

(** ** Memory from the host *)

Section Region.

Lemma words_mem i n : 0 < i ->
  ([∗ map] x ↦ v ∈ list_to_map (omap (fun i => a ← at_ (4 * i); Some (a, 0)) (seqZ i (Z.of_nat n))), x ↦ v)%I ⊢ mem (4 * i) (4 * Z.of_nat n).
Proof.
  revert i. induction n as [|n IH]; intros i Hi.
  - by rewrite big_sepM_empty.
  - rewrite Nat2Z.inj_succ seqZ_cons; [| lia]. destruct i as [|i|i]; [lia | | lia]. simpl.
    replace (Z.pred (Z.succ (Z.of_nat n))) with (Z.of_nat n) by lia.
    rewrite big_sepM_insert.
    2: { apply not_elem_of_list_to_map_1. intros ([a v] & Ea & Ha)%list_elem_of_fmap.
         apply list_elem_of_omap in Ha as (j & Hj & E). apply elem_of_seqZ in Hj. destruct j as [|j|j]; [lia | | lia].
         injection E as E _. simpl in Ea. lia. }
    rewrite IH; [| lia]. rewrite (mem_cons (4 * Zpos i)); [| lia]. iIntros "[Hw Hm]". iSplitL "Hw"; [by iExists 0 |].
    iApply (mem_at with "Hm"); lia.
Qed.
(** Rounding up to 32 is paid for. *)
Lemma region_mem t n : 0 < t -> 0 <= n -> n mod 4 = 0 ->
  ([∗ map] x ↦ v ∈ region t (n + 31), x ↦ v)%I ⊢ mem (32 * ((t + 31) / 32)) n ∗ True.
Proof.
  intros Ht Hn Hn4. unfold region.
  assert ((t + (n + 31)) / 4 - (t + 3) / 4 = Z.of_nat (Z.to_nat ((t + (n + 31)) / 4 - (t + 3) / 4))) as -> by zlia.
  rewrite words_mem; [| zlia]. rewrite Z2Nat.id; [| zlia]. set (u := 32 * ((t + 31) / 32)).
  replace (4 * ((t + (n + 31)) / 4 - (t + 3) / 4))
    with ((u - 4 * ((t + 3) / 4)) + (n + (4 * ((t + (n + 31)) / 4) - u - n))) by lia.
  rewrite mem_app; [| unfold u; zlia..]. rewrite mem_app; [| unfold u; zlia..].
  iIntros "(_ & Hm & _)". iSplitL; [| done]. iApply (mem_at with "Hm"); lia.
Qed.
End Region.

(** ** Laying out a block *)

(** A block that waits for its size and tail. *)
Definition bare (a sz : Z) : hpropI Z :=
  (⌈0 < a⌉ ∗ (∃ x, w (a + size) x) ∗ mem (a + 8) (sz - 12) ∗ (∃ x, w (tail a sz) x))%I.

Section Layout.

Lemma mem_bare a sz : 0 < a -> block_size sz -> mem a sz ⊢ (∃ x, w (a + magic) x) ∗ bare a sz.
Proof.
  intros Ha [Hs H32]. replace sz with (4 + (4 + ((sz - 12) + 4))) at 1 by lia.
  do 3 (rewrite mem_app; [| zlia..]). rewrite !mem_1. iIntros "((%m & Hm) & (%s & Hs) & Hd & (%t & Ht))".
  unfold bare, magic, size, tail. iSplitL "Hm"; [iExists m; iApply (w_at with "Hm"); lia |]. iSplit; [done |].
  iSplitL "Hs"; [iExists s; iApply (w_at with "Hs"); lia |]. iSplitL "Hd"; [iApply (mem_at with "Hd"); lia |].
  iExists t. iApply (w_at with "Ht"); lia.
Qed.

Lemma raw_bare a s1 s2 : block_size s1 -> block_size s2 ->
  raw a (s1 + s2) ⊢ bare a s1 ∗ (∃ y, w (a + s1 + magic) y) ∗ bare (a + s1) s2.
Proof.
  intros Hs1 Hs2. rewrite raw_cut //. destruct Hs1 as [Hs1 _].
  iIntros "(%Ha & Hs & Hm & Ht & $ & Hz & Hn & He)". unfold bare. iSplitL "Hs Hm Ht".
  - iSplit; [done |]. iFrame.
  - iSplit; [iPureIntro; lia |]. iFrame.
Qed.

Lemma wp_layout {B} a sz (k : M B) (Φ : B -> hpropI Z) :
  bare a sz -∗ (raw a sz -∗ wp k Φ) -∗ wp (set a size sz;; t ← B2T a; set t hdr a;; k) Φ.
Proof.
  iIntros "(%Ha & (%x & Hs) & Hd & (%y & Ht)) HΦ". wp_set "Hs". iApply (wp_mark with "Hs Ht"). iIntros "Hs Ht".
  iApply "HΦ". by iFrame.
Qed.

(** The charge for a block that is handed out. *)
Lemma wp_charge p a sz (Φ : Pool -> hpropI Z) : 0 <= cursize p + sz < 2 ^ 32 -> cursize p <= hw p ->
  raw a sz -∗
  (∀ h, ⌈cursize p + sz <= h⌉ -∗ raw a sz -∗ Φ (set_hw h (set_cursize (cursize p + sz) p))) -∗
  wp (charge p a) Φ.
Proof.
  iIntros (Hb Hh) "(%Ha & Hs & Hr) HΦ". unfold charge. wp_get "Hs". wp_ret. rewrite wrapu_id //. simpl.
  destruct (Z.ltb_spec (hw p) (cursize p + sz)) as [Hlt | Hge].
  - iApply ("HΦ" $! (cursize p + sz) with "[//]"). by iFrame.
  - iApply ("HΦ" $! (hw p) with "[//]"). by iFrame.
Qed.
End Layout.

(** ** Handing out a free block *)

Section Take.

(** A free block among the others, to be put back as other blocks. *)
Lemma arenas_borrow top as1 ab bs1 b bs2 as2 :
  arenas top (as1 ++ (ab, bs1 ++ b :: bs2) :: as2) ⊢
  blk (floor ab + total bs1) b ∗
  (∀ new, ⌈total new = b.1⌉ -∗ blks (floor ab + total bs1) new -∗ arenas top (as1 ++ (ab, bs1 ++ new ++ bs2) :: as2)).
Proof.
  rewrite arenas_split. iIntros "(%link & (Hl & Hbs & He) & Hback)". simpl. rewrite blks_app. simpl.
  iDestruct "Hbs" as "(Hb1 & $ & Hb2)". iIntros (new) "%Hn Hnew". iApply "Hback".
  assert (total (bs1 ++ new ++ bs2) = total (bs1 ++ b :: bs2)) as E by (rewrite !total_app /=; lia).
  rewrite /arena_rep /ceiling /= E. iFrame. rewrite !blks_app Hn. iFrame.
Qed.

(** The last steps of [poolalloc]: [sz] of the bytes of a free block become a
    block in use, what is left over stays free. *)
Lemma wp_hand p p1 as1 ab bs1 n bs2 as2 sz rest (Φ : Pool * Z -> hpropI Z) :
  let a := floor ab + total bs1 in
  let ars := as1 ++ (ab, bs1 ++ (n, None) :: bs2) :: as2 in
  wfp p ars -> (exists r k, p1 = set_root r (set_nalloc k p)) ->
  sz + total rest = n -> block_size sz -> sizes rest -> rest = [] \/ (exists s2, rest = [(s2, None)]) ->
  fset (root p1) (free_in (placed (a + sz) rest) ++ around free_in as1 ab bs1 n bs2 as2) -∗
  w (a + magic) MAGIC_A -∗ raw a sz -∗ blks (a + sz) rest -∗
  (∀ new, ⌈total new = n⌉ -∗ blks a new -∗ arenas (chain p) (as1 ++ (ab, bs1 ++ new ++ bs2) :: as2)) -∗
  (∀ p' ars', ⌈used_in (blocks_of ars') ≡ₚ (a, sz) :: used_in (blocks_of ars)⌉ -∗ pool p' ars' -∗ dat a sz -∗
     Φ (p', B2D a)) -∗
  True -∗ wp (p ← charge p1 a; mret (p, B2D a)) Φ.
Proof.
  intros a ars Hwf (r & k & ->) Hn Hsz Hs Hrest. iIntros "HF Hw Hraw Hbs Hback HΦ Htrue".
  set (new := (sz, Some MAGIC_A) :: rest). set (ars' := as1 ++ (ab, bs1 ++ new ++ bs2) :: as2).
  assert (used_in (blocks_of ars') ≡ₚ (a, sz) :: used_in (blocks_of ars)) as Hused.
  { transitivity ((a, sz) :: around used_in as1 ab bs1 n bs2 as2).
    - unfold ars'. rewrite (around_eq used_in as1 ab bs1 new n) //; [| apply used_in_app]. fold a.
      by destruct Hrest as [-> | [s2 ->]].
    - apply Permutation_cons; [done |]. symmetry. exact (around_eq used_in as1 ab bs1 [(n, None)] n bs2 as2 used_in_app (Z.add_0_r n)). }
  assert (free_in (blocks_of ars') ≡ₚ free_in (placed (a + sz) rest) ++ around free_in as1 ab bs1 n bs2 as2) as Hfree
    by exact (around_eq free_in as1 ab bs1 new n bs2 as2 free_in_app Hn).
  assert (Forall arena_ok ars') as Hok.
  { pose proof (wf_arenas _ _ Hwf) as Hok. unfold ars in Hok. apply Forall_app in Hok as [H1 [[H2 H3] H4]%Forall_cons]. simpl in H2, H3.
    apply Forall_app in H2 as [H2 [Hm H2']%Forall_cons]. apply coal_app in H3 as [H3 [Hf H5]].
    apply Forall_app. split; [done |]. constructor; [| done]. split; simpl.
    - rewrite Forall_app Forall_cons Forall_app. by split_and!.
    - apply coal_app. split; [done |]. simpl. destruct Hrest as [-> | [s2 ->]]; simpl; [by apply coal_weaken in H5 | done]. }
  assert (held ars' = sz + held ars) as Hheld by (rewrite (held_perm _ _ Hused); done).
  assert (total (bs1 ++ new ++ bs2) = total (bs1 ++ (n, None) :: bs2)) as Ht by (rewrite !total_app /=; lia).
  assert (cost ars' = cost ars) as Hcost by (unfold ars', ars; rewrite !cost_app /= Ht; done).
  pose proof (held_bounds _ Hok) as Hb. pose proof (held_bounds _ (wf_arenas _ _ Hwf)).
  pose proof (wf_arenasize _ _ Hwf). pose proof (wf_maxsize _ _ Hwf). pose proof (wf_cursize _ _ Hwf) as Hcur.
  wp_bind. iApply (wp_charge with "Hraw"); [simpl; destruct Hsz; lia | simpl; by apply (wf_hw _ _ Hwf) |].
  iIntros (h) "%Hh Hraw". wp_ret. iDestruct (raw_to_used with "Hw Hraw") as "[Hb Hd]"; [done | by left |].
  iApply ("HΦ" $! _ ars' with "[//] [-Hd] Hd"). iSplit.
  { iPureIntro. apply (wfp_mid p _ as1 ab (bs1 ++ (n, None) :: bs2)); try done.
    - by apply Forall_app in Hok as [_ [? _]%Forall_cons].
    - fold new ars'. simpl in *. lia. }
  iSplitL "HF"; [by iApply (fset_perm with "HF") |]. iSplitR "Htrue"; [| done].
  iApply ("Hback" $! new with "[//]"). iFrame.
Qed.

Lemma free_elem ars a n : (a, n) ∈ free_in (blocks_of ars) ->
  exists as1 ab bs1 bs2 as2, ars = as1 ++ (ab, bs1 ++ (n, None) :: bs2) :: as2 /\ a = floor ab + total bs1.
Proof.
  unfold free_in. rewrite list_elem_of_omap. intros ([x [s [m|]]] & Hx & [= -> ->]). by apply blocks_of_elem in Hx.
Qed.

(** A free block leaves the tree. *)
Lemma wp_detach {B} p as1 ab bs1 n bs2 as2 (k : Pool -> M B) (Φ : B -> hpropI Z) :
  let a := floor ab + total bs1 in
  let ars := as1 ++ (ab, bs1 ++ (n, None) :: bs2) :: as2 in
  block_size n -> fset (root p) (free_in (blocks_of ars)) -∗ arenas (chain p) ars -∗
  (∀ rt, fset rt (around free_in as1 ab bs1 n bs2 as2) -∗ w (a + magic) MAGIC_A -∗ raw a n -∗
     (∀ new, ⌈total new = n⌉ -∗ blks a new -∗ arenas (chain p) (as1 ++ (ab, bs1 ++ new ++ bs2) :: as2)) -∗
     wp (k (set_root rt p)) Φ) -∗
  wp (p ← pooldel p a; set a magic MAGIC_A;; k p) Φ.
Proof.
  iIntros (a ars Hn) "HF Hars HΦ". iDestruct (arenas_borrow with "Hars") as "[Hb Hback]".
  wp_bind. iApply (wp_del with "HF").
  { exact (around_eq free_in as1 ab bs1 [(n, None)] n bs2 as2 free_in_app (Z.add_0_r n)). }
  iIntros (rt) "HF Hlo". iDestruct (free_to_raw with "Hb Hlo") as "[Hw Hraw]"; [done |]. wp_set "Hw".
  iApply ("HΦ" with "HF Hw Hraw Hback").
Qed.

(** What [poolalloc] grants for a block of [sz] bytes: the least free block
    that will do, if one does, without the rest if that is worth keeping. *)
Definition best (F : list (Z * Z)) (sz a : Z) : Prop :=
  (exists s, (a, s) ∈ F /\ sz <= s /\ forall b s', (b, s') ∈ F -> sz <= s' -> s <= s') \/
  Forall (fun x => x.2 < sz) F.

Definition granted (ars : list arena) (sz : Z) (ars' : list arena) (a s : Z) : Prop :=
  used_in (blocks_of ars') ≡ₚ (a, s) :: used_in (blocks_of ars) /\
  block_size s /\ sz <= s /\ 4 * (s - sz) < sz /\ best (free_in (blocks_of ars)) sz a.

Definition gives (ars : list arena) (sz : Z) (Φ : Pool * Z -> hpropI Z) : hpropI Z :=
  (∀ p' ars' a s, ⌈granted ars sz ars' a s⌉ -∗ pool p' ars' -∗ dat a s -∗ Φ (p', B2D a))%I.

Lemma wp_exact p k as1 ab bs1 n bs2 as2 (Φ : Pool * Z -> hpropI Z) :
  let a := floor ab + total bs1 in
  let ars := as1 ++ (ab, bs1 ++ (n, None) :: bs2) :: as2 in
  let p1 := set_nalloc k p in
  wfp p ars -> block_size n -> best (free_in (blocks_of ars)) n a ->
  fset (root p) (free_in (blocks_of ars)) -∗ arenas (chain p) ars -∗ True -∗ gives ars n Φ -∗
  wp (p ← pooldel p1 a; set a magic MAGIC_A;; p ← charge p a; mret (p, B2D a)) Φ.
Proof.
  iIntros (a ars p1 Hwf Hn Hbest) "HF Hars Htrue HΦ". iApply (wp_detach p1 with "HF Hars"); [done |].
  iIntros (rt) "HF Hw Hraw Hback".
  iApply (wp_hand p (set_root rt p1) as1 ab bs1 n bs2 as2 n [] with "HF Hw Hraw [] Hback [HΦ] Htrue"); try done.
  - by eexists _, _.
  - simpl. lia.
  - by left.
  - iIntros (p' ars') "%Hu Hp Hd". iApply ("HΦ" with "[] Hp Hd"). iPureIntro. split_and!; try done.
    destruct Hn. lia.
Qed.

Lemma wp_cut_block p k as1 ab bs1 n bs2 as2 sz (Φ : Pool * Z -> hpropI Z) :
  let a := floor ab + total bs1 in
  let ars := as1 ++ (ab, bs1 ++ (n, None) :: bs2) :: as2 in
  let p1 := set_nalloc k p in
  wfp p ars -> block_size n -> block_size sz -> sz < n < 2 ^ 31 -> best (free_in (blocks_of ars)) sz a ->
  fset (root p) (free_in (blocks_of ars)) -∗ arenas (chain p) ars -∗ True -∗ gives ars sz Φ -∗
  wp (take_block p1 a sz) Φ.
Proof.
  iIntros (a ars p1 Hwf Hn Hsz Hlt Hbest) "HF Hars Htrue HΦ". unfold take_block.
  iApply (wp_detach p1 with "HF Hars"); [done |]. iIntros (rt) "HF Hw Hraw Hback".
  iAssert (raw a n) with "Hraw" as "(%Ha & Hs & Hr)". wp_get "Hs".
  assert (i32 (n - sz) = n - sz) as Ei by (apply wraps_id; [lia | destruct Hsz; lia]). rewrite Ei.
  rewrite Z.shiftr_div_pow2 //. destruct (Z.ltb_spec (n - sz) (sz / 2 ^ 2)) as [Hfrag | Hfrag].
  - iApply (wp_hand p (set_root rt p1) as1 ab bs1 n bs2 as2 n [] with "HF Hw [Hs Hr] [] Hback [HΦ] Htrue"); try done.
    + by eexists _, _.
    + simpl. lia.
    + by left.
    + by iFrame.
    + iIntros (p' ars') "%Hu Hp Hd". iApply ("HΦ" with "[] Hp Hd"). iPureIntro. split_and!; try done; zlia.
  - wp_get "Hs". rewrite Ei. iAssert (raw a (sz + (n - sz))) with "[Hs Hr]" as "Hraw";
      [replace (sz + (n - sz)) with n by lia; by iFrame |].
    assert (block_size (n - sz)) as Hns by (destruct Hn, Hsz; split; zlia).
    rewrite raw_bare //. iDestruct "Hraw" as "(Hb1 & (%y & Hy) & Hb2)".
    iApply (wp_layout with "Hb1"). iIntros "Hraw". iAssert (raw a sz) with "Hraw" as "(%Ha' & Hs & Hr)".
    wp_bind. iApply (wp_B2NB with "Hs"). iIntros "Hs". iApply (wp_layout with "Hb2"). iIntros "Hraw2".
    iDestruct (raw_to_loose with "Hraw2") as "[Hlo Hb]"; [done |].
    wp_bind. iApply (wp_add (set_root rt p1) with "HF Hy Hlo"). iIntros (rt2) "HF Hy". iDestruct ("Hb" with "Hy") as "Hb".
    iApply (wp_hand p (set_root rt2 p1) as1 ab bs1 n bs2 as2 sz [(n - sz, None)] with "[HF] Hw [Hs Hr] [Hb] Hback [HΦ] Htrue"); try done.
    + by eexists _, _.
    + simpl. lia.
    + by constructor.
    + right. eauto.
    + by iFrame.
    + simpl. by iFrame.
    + iIntros (p' ars') "%Hu Hp Hd". iApply ("HΦ" with "[] Hp Hd"). iPureIntro. split_and!; try done; destruct Hsz; lia.
Qed.
End Take.

(** ** A new arena *)

Section Arena.

(** The size of a free block can be read. *)
Lemma frees_size top A sz r1 t r2 B : frees top (A ++ (sz, r1 ++ t :: r2) :: B) ⊢
  w (t + size) sz ∗ (w (t + size) sz -∗ frees top (A ++ (sz, r1 ++ t :: r2) :: B)).
Proof.
  iIntros "(%T & %HT & HT)". destruct (inorder_split _ _ _ _ _ HT) as (c & l & h & ns & r & -> & Hrg & _).
  rewrite rep_plug. iDestruct "HT" as "(%x & %par & Hc & HT)". simpl.
  iDestruct "HT" as "(-> & %lx & %rx & (%Hh & Hs & Hl & Hr & Hp & Hg & Hn) & HL & HR)".
  destruct r1 as [|h' r1]; injection Hrg as <- <-.
  - iFrame "Hs". iIntros "Hs". iExists _. iSplit; [done |]. rewrite rep_plug. iExists t, par. iFrame "Hc". simpl.
    iSplit; [done |]. iExists lx, rx. by iFrame.
  - rewrite big_sepL_app. simpl. iDestruct "Hn" as "(Hn1 & (%Ht & $ & Htl) & Hn2)". iIntros "Hts". iExists _. iSplit; [done |].
    rewrite rep_plug. iExists h', par. iFrame "Hc". simpl. iSplit; [done |]. iExists lx, rx. rewrite /node big_sepL_app /= /side.
    by iFrame.
Qed.

Lemma fset_size top t sz F : (t, sz) ∈ F -> fset top F ⊢ w (t + size) sz ∗ (w (t + size) sz -∗ fset top F).
Proof.
  iIntros (Ht) "(%I & [%HI %HF] & HI)". rewrite -HF in Ht. destruct (flat_elem _ _ _ Ht) as (A & r1 & r2 & B & ->).
  iDestruct (frees_size with "HI") as "[$ HI]". iIntros "Hs". iExists _. iSplit; [done |]. by iApply "HI".
Qed.

(** What the host gave, cut up. *)
Lemma mem_arena u n : 0 < u -> 0 <= n -> n mod 4 = 0 ->
  mem u (n + 36) ⊢ (∃ x, w (u + magic) x) ∗ (∃ x, w (u + size) x) ∗ (∃ x, w (u + clink) x) ∗ (∃ x, w (u + csize) x) ∗
    mem (u + 16) 12 ∗ (∃ x, w (tail u 32) x) ∗ mem (u + 32) n ∗ (∃ x, w (u + 32 + n + magic) x).
Proof.
  intros Hu Hn Hn4. replace (n + 36) with (4 + (4 + (4 + (4 + (12 + (4 + (n + 4))))))) by lia.
  do 7 (rewrite mem_app; [| zlia..]). rewrite !mem_1.
  iIntros "((%m & Hm) & (%s & Hs) & (%l & Hl) & (%c & Hc) & Hd & (%t & Ht) & Hn & (%e & He))".
  unfold magic, size, clink, csize, tail.
  iSplitL "Hm"; [iExists m; iApply (w_at with "Hm"); lia |]. iSplitL "Hs"; [iExists s; iApply (w_at with "Hs"); lia |].
  iSplitL "Hl"; [iExists l; iApply (w_at with "Hl"); lia |]. iSplitL "Hc"; [iExists c; iApply (w_at with "Hc"); lia |].
  iSplitL "Hd"; [iApply (mem_at with "Hd"); lia |]. iSplitL "Ht"; [iExists t; iApply (w_at with "Ht"); lia |].
  iSplitL "Hn"; [iApply (mem_at with "Hn"); lia |]. iExists e. iApply (w_at with "He"); lia.
Qed.

(** An arena with one free block of [ns] bytes joins the others. *)
Lemma wfp_arena p p' ars u ns : wfp p ars -> block_size ns ->
  cursize p' = cursize p -> hw p' = hw p -> cost ars + 36 + ns <= arenasize p' <= maxsize p' ->
  quanta p' = quanta p -> chunk p' = chunk p -> move p' = move p -> maxsize p' = maxsize p ->
  wfp p' ((u, [(ns, None)]) :: ars).
Proof.
  intros [] Hn Hc Hh Ha Eq Ec Em Ex. split; rewrite ?Eq ?Ec ?Em ?Ex ?Hc ?Hh //.
  - constructor; [| done]. split; [by constructor | done].
  - simpl. rewrite Ex in Ha. lia.
Qed.

Lemma around_arena u n ars : around free_in [] u [] n [] ars = free_in (blocks_of ars).
Proof. done. Qed.

(** The blocks of a new arena: the one to return, and the rest. *)
Definition filled (t sz : Z) (rest : list block) (rt : Z) (F : list (Z * Z)) : hpropI Z :=
  (raw t sz ∗ blks (t + sz) rest ∗ fset rt (free_in (placed (t + sz) rest) ++ F))%I.

Definition rest_ok (sz ns : Z) (rest : list block) : Prop :=
  sz + total rest = ns /\ sizes rest /\ (rest = [] \/ exists s2, rest = [(s2, None)]).

Definition last_block (t sz : Z) (rest : list block) : Z * Z :=
  match rest with [] => (t, sz) | b :: _ => (t + sz, b.1) end.

Lemma filled_last t sz ns rest rt F : rest_ok sz ns rest ->
  let q := last_block t sz rest in
  filled t sz rest rt F ⊢ w (q.1 + size) q.2 ∗ (w (q.1 + size) q.2 -∗ filled t sz rest rt F).
Proof.
  intros (Ht & _ & [-> | [s2 ->]]); simpl; iIntros "(Hr & Hb & HF)".
  - iDestruct "Hr" as "(% & $ & Hr)". iIntros "Hs". by iFrame.
  - simpl. iDestruct (fset_size _ (t + sz) s2 with "HF") as "[$ HF]"; [by left |]. iIntros "Hs".
    rewrite /filled /=. iFrame. by iApply "HF".
Qed.

Lemma wp_fill {B} p t sz ns F (k : Pool * Z -> M B) (Φ : B -> hpropI Z) :
  0 < t -> block_size sz -> block_size ns -> sz <= ns ->
  fset (root p) F -∗ mem t ns -∗
  (∀ (rt : Z) rest, ⌈rest_ok sz ns rest⌉ -∗ filled t sz rest rt F -∗ w (t + magic) MAGIC_A -∗
     wp (k (set_root rt p, (last_block t sz rest).1)) Φ) -∗
  wp (set t magic MAGIC_A;; set t size sz;; b ← B2T t; set b hdr t;;
      pq ← (if 0 <? ns - sz then q ← B2NB t; set q size (ns - sz);; b ← B2T q; set b hdr q;; p ← pooladd p q; mret (p, q)
            else mret (p, t)); k pq) Φ.
Proof.
  iIntros (Ht Hsz Hns Hle) "HF Hm HΦ". destruct (Z.ltb_spec 0 (ns - sz)) as [Hlt | Hge].
  - assert (block_size (ns - sz)) as Hn2 by (destruct Hsz, Hns; split; zlia).
    replace ns with (sz + (ns - sz)) at 1 by lia. destruct Hsz as [Hs1 Hs2]. rewrite mem_app; [| zlia..].
    rewrite !mem_bare //; [| lia]. iDestruct "Hm" as "[[(%x & Hw) Hb1] [(%y & Hy) Hb2]]".
    wp_set "Hw". iApply (wp_layout with "Hb1"). iIntros "(%Ha & Hs & Hr)". 
    do 2 wp_bind. iApply (wp_B2NB with "Hs"). iIntros "Hs". iApply (wp_layout with "Hb2"). iIntros "Hraw2".
    iDestruct (raw_to_loose with "Hraw2") as "[Hlo Hb]"; [done |].
    wp_bind. iApply (wp_add p with "HF Hy Hlo"). iIntros (rt2) "HF Hy". iDestruct ("Hb" with "Hy") as "Hb". wp_ret.
    iApply ("HΦ" $! rt2 [(ns - sz, None)] with "[] [-Hw] Hw").
    + iPureIntro. split_and!; [simpl; lia | by constructor | eauto].
    + rewrite /filled /=. by iFrame.
  - assert (ns = sz) as -> by lia. rewrite mem_bare //. iDestruct "Hm" as "[(%x & Hw) Hb1]".
    wp_set "Hw". iApply (wp_layout with "Hb1"). iIntros "Hraw". wp_bind. wp_ret.
    assert (set_root (root p) p = p) as Hp by (by destruct p). iSpecialize ("HΦ" $! (root p) []). rewrite Hp.
    iApply ("HΦ" with "[] [-Hw] Hw"); [| rewrite /filled /=; by iFrame].
    iPureIntro. split_and!; [simpl; lia | constructor | by left].
Qed.
End Arena.

Section Host.
Context (brk : gmap positive Z -> Z -> option Z).

(** What the host's [sbrk] promises: memory that was not there. *)
Definition brk_ok : Prop := forall h n t, brk h n = Some t -> 0 < t /\ region t n ##ₘ h.

Hypothesis Hbrk : brk_ok.

(** A request fails only for want of room: no free block will do, and the pool
    may not grow or the host has no memory. *)
Definition refused (p : Pool) (ars : list arena) (sz : Z) : Prop :=
  Forall (fun x => x.2 < sz) (free_in (blocks_of ars)) /\
  (maxsize p < arenasize p + sz + 36 \/ exists h n, brk h n = None).

Definition answers (p : Pool) (ars : list arena) (sz : Z) (Φ : Pool * Z -> hpropI Z) : hpropI Z :=
  ((∀ p', ⌈refused p ars sz⌉ -∗ pool p' ars -∗ Φ (p', 0)) ∧ gives ars sz Φ)%I.

Lemma wp_sbrk n (Φ : option Z -> hpropI Z) : 0 <= n -> n mod 4 = 0 ->
  (⌈exists h n, brk h n = None⌉ -∗ Φ None) ∧ (∀ t, ⌈0 < t⌉ -∗ mem (32 * ((t + 31) / 32)) n -∗ True -∗ Φ (Some t)) ⊢
  wp (sbrk brk (n + 31)) Φ.
Proof.
  iIntros (Hn Hn4) "HΦ". iApply wp_grow.
  - intros h a m. destruct (brk h (n + 31)) as [t|] eqn:E; [| done]. simpl. intros [= <- <-]. by eapply Hbrk.
  - iSplit.
    + iDestruct "HΦ" as "[HΦ _]". iIntros (h Hh). iApply "HΦ". iPureIntro. exists h, (n + 31). by destruct (brk h (n + 31)).
    + iDestruct "HΦ" as "[_ HΦ]". iIntros (h a m Hh) "Hm". destruct (brk h (n + 31)) as [t|] eqn:E; [| done].
      injection Hh as <- <-. apply Hbrk in E as [Ht _]. rewrite region_mem //. iDestruct "Hm" as "[Hm Htrue]".
      by iApply ("HΦ" with "[//] Hm Htrue").
Qed.

Lemma wp_new_arena p k c ars sz ns (Φ : Pool * Z -> hpropI Z) :
  let p1 := set_arenasize c (set_nalloc k p) in
  wfp p ars -> cost ars + 36 + ns <= c <= maxsize p -> block_size sz -> block_size ns -> sz <= ns ->
  Forall (fun x => x.2 < sz) (free_in (blocks_of ars)) ->
  fset (root p) (free_in (blocks_of ars)) -∗ arenas (chain p) ars -∗ True -∗ answers p ars sz Φ -∗
  wp (new_arena brk p1 sz ns) Φ.
Proof.
  iIntros (p1 Hwf Hc Hsz Hns Hle Hno) "HF Hars Htrue HΦ". unfold new_arena, p1. simpl. rewrite (wf_quanta _ _ Hwf). simpl.
  wp_bind. change (31 + 1) with 32. replace (ns + 32 + 4 + 31) with (ns + 36 + 31) by lia.
  iApply wp_sbrk; [destruct Hns; lia | destruct Hns; zlia |]. iSplit.
  - iDestruct "HΦ" as "[HΦ _]". iIntros (Hn). wp_ret. iApply "HΦ"; [by iPureIntro; split; [| right] |].
    rewrite /pool. iSplit; [| by iFrame]. iPureIntro. destruct Hwf, Hns. split; try done. simpl. lia.
  - iDestruct "HΦ" as "[_ HΦ]". iIntros (t Ht) "Hm Ht2". rewrite mask_eq; [| by apply (wf_quanta _ _ Hwf)].
    set (u := 32 * ((t + 31) / 32)). assert (0 < u) as Hu by (unfold u; zlia).
    rewrite mem_arena; [| destruct Hns; zlia..].
    iDestruct "Hm" as "((%x1 & Hm) & (%x2 & Hs) & (%x3 & Hl) & (%x4 & Hc) & Hd & (%x5 & Ht) & Hn & (%x6 & He))".
    wp_set "Hm". wp_set "Hs". wp_set "Hc". wp_set "Hl". iApply (wp_mark with "Hs Ht"). iIntros "Hs Ht".
    wp_bind. iApply (wp_B2NB with "Hs"). iIntros "Hs".
    set (p2 := set_chain _ _). iApply (wp_fill p2 with "HF Hn"); [lia | done..|].
    iIntros (rt rest) "%Hrest Hfill Hw". iDestruct (filled_last with "Hfill") as "[Hs2 Hfill]"; [done |].
    wp_bind. iApply (wp_B2NB with "Hs2"). iIntros "Hs2". iDestruct ("Hfill" with "Hs2") as "(Hraw & Hbs & HF)".
    assert ((last_block (u + 32) sz rest).1 + (last_block (u + 32) sz rest).2 = u + 32 + ns) as ->.
    { destruct Hrest as (Hn & _ & [-> | [s2 ->]]); simpl in *; lia. }
    wp_set "He". destruct Hrest as (Hn & Hsr & Hrest).
    replace (u + 32) with (floor u + total []) by (simpl; unfold floor; lia).
    iApply (wp_hand p2 (set_root rt p2) [] u [] ns [] ars sz rest with "HF Hw Hraw Hbs [-HΦ Htrue Ht2] [HΦ] [Htrue Ht2]"); try done.
    + by apply (wfp_arena p).
    + by exists rt, (nalloc p2).
    + iIntros (new) "%Hnew Hbs". simpl. iSplit; [done |]. iExists (chain p). iFrame "Hars".
      rewrite /arena_rep /lead /ceiling /= app_nil_r Hnew /floor Z.add_0_r. replace (32 + ns) with (ns + 32) by lia. by iFrame.
    + iIntros (p' ars') "%Hu' Hp Hd". iApply ("HΦ" with "[] Hp Hd"). iPureIntro.
      split_and!; try done; [destruct Hsz; lia | by right].
Qed.

Lemma flat_Forall (P : Z -> Prop) I : Forall (fun e => P e.1) I -> Forall (fun x => P x.2) (flat I).
Proof.
  induction 1 as [|[s rg] I Hs _ IH]; [constructor |]. rewrite flat_cons Forall_app. split; [| done].
  apply Forall_fmap. by apply Forall_true.
Qed.

Lemma best_head A s q ns B sz F : sorted (A ++ (s, q :: ns) :: B) -> flat (A ++ (s, q :: ns) :: B) ≡ₚ F ->
  below sz A -> sz <= s -> forall t, t ∈ q :: ns -> best F sz t.
Proof.
  intros HI HF HA Hs t Ht. left. exists s. destruct (proj1 (sorted_mid _ _ _) HI) as (_ & HbA & HbB). simpl in HbA, HbB. split_and!; [| done |].
  - rewrite -HF flat_app flat_cons. apply elem_of_app. right. apply elem_of_app. left. apply list_elem_of_fmap. eauto.
  - intros b s'. rewrite -HF flat_app flat_cons !elem_of_app. intros [H | [H | H]] Hle.
    + pose proof (proj1 (Forall_forall _ _) (flat_Forall (fun x => x < sz) A HA) _ H) as E. simpl in E. lia.
    + apply list_elem_of_fmap in H as (? & [= -> ->] & _). lia.
    + pose proof (proj1 (Forall_forall _ _) (flat_Forall (fun x => s < x) B HbB) _ H) as E. simpl in E. lia.
Qed.

Lemma free_block p ars a n : wfp p ars -> (a, n) ∈ free_in (blocks_of ars) ->
  exists as1 ab bs1 bs2 as2, ars = as1 ++ (ab, bs1 ++ (n, None) :: bs2) :: as2 /\ a = floor ab + total bs1 /\
    block_size n /\ n < 2 ^ 31.
Proof.
  intros Hwf H. apply free_elem in H as (as1 & ab & bs1 & bs2 & as2 & -> & ->). exists as1, ab, bs1, bs2, as2.
  pose proof (wf_arenas _ _ Hwf) as Hok. pose proof (total_cost _ _ _ _ Hok) as Hc. rewrite total_app /= in Hc.
  pose proof (wf_arenasize _ _ Hwf). pose proof (wf_maxsize _ _ Hwf).
  apply Forall_app in Hok as [_ [[Hs _] _]%Forall_cons]. apply Forall_app in Hs as [H1 [Hn H2]%Forall_cons].
  pose proof (total_nonneg _ H1). pose proof (total_nonneg _ H2). split_and!; try done. lia.
Qed.

Lemma wp_extend again p k ars sz (Φ : Pool * Z -> hpropI Z) :
  let p1 := set_nalloc k p in
  wfp p ars -> block_size sz -> sz < 2 ^ 30 + 64 -> Forall (fun x => x.2 < sz) (free_in (blocks_of ars)) ->
  fset (root p) (free_in (blocks_of ars)) -∗ arenas (chain p) ars -∗ True -∗ answers p ars sz Φ -∗
  wp (extend brk again p1 sz) Φ.
Proof.
  iIntros (p1 Hwf Hsz Hlim Hno) "HF Hars Htrue HΦ". unfold extend. simpl.
  pose proof (wf_arenasize _ _ Hwf) as Ha. pose proof (wf_maxsize _ _ Hwf). pose proof (cost_nonneg _ (wf_arenas _ _ Hwf)).
  pose proof (wf_chunk _ _ Hwf) as [Hch Hch2]. rewrite (wf_quanta _ _ Hwf). change (31 + 1) with 32.
  set (ns := if chunk p <? sz then sz else chunk p).
  assert (block_size ns /\ sz <= ns < 2 ^ 30 + 64) as [Hns Hle].
  { unfold ns. destruct (Z.ltb_spec (chunk p) sz); split; try done; lia. }
  pose proof Hns as [Hn1 Hn2]. rewrite (wrapu_id 32 (arenasize p + _)); [| lia].
  destruct (Z.ltb_spec (maxsize p) (arenasize p + (ns + 32 + 4))) as [Hmax | Hmax].
  - replace (arenasize p + (ns + 32 + 4) - (ns + 32 + 4)) with (arenasize p) by lia. rewrite !(wrapu_id 32 (arenasize p)); [| lia..].
    rewrite (wraps_id 32); [| lia..]. rewrite mask_eq; [| by apply (wf_quanta _ _ Hwf)].
    set (m' := 32 * ((maxsize p - arenasize p - 32 - 4) / 32)). destruct Hsz as [Hs1 Hs2].
    destruct (Z.ltb_spec m' sz) as [Hlt | Hge].
    + unfold poolcompact. simpl. rewrite (wf_move _ _ Hwf). wp_bind. wp_ret. wp_ret. iDestruct "HΦ" as "[HΦ _]".
      iApply "HΦ"; [iPureIntro; split; [done | left; unfold m' in *; zlia] |].
      rewrite /pool. iSplit; [| by iFrame]. iPureIntro. destruct Hwf. by split.
    + rewrite wrapu_id; [| unfold m'; zlia].
      iApply (wp_new_arena p k with "HF Hars Htrue HΦ"); try done; unfold m' in *; [zlia | split; zlia].
  - by iApply (wp_new_arena p k with "HF Hars Htrue HΦ"); try done; lia.
Qed.

Lemma wp_poolalloc p ars n (Φ : Pool * Z -> hpropI Z) : 0 <= n < 2 ^ 30 ->
  pool p ars -∗ answers p ars (need n) Φ -∗ wp (poolalloc brk p n) Φ.
Proof.
  iIntros (Hn) "(%Hwf & (%I & [%HI %HIF] & HI) & Hars & Htrue) HΦ".
  destruct (need_block n) as [Hsz Hneed]; [lia |]. change BHDRSIZE with 16 in Hneed. unfold poolalloc. cbn [poolalloc_].
  destruct (Z.ltb_spec n 0); [lia |]. destruct (Z.leb_spec (1024 * 1024 * 1024) n); [lia |]. simpl.
  rewrite mask_eq; [| by apply (wf_quanta _ _ Hwf)]. rewrite (wf_quanta _ _ Hwf).
  change (32 * ((n + BHDRSIZE + 31) / 32)) with (need n). set (p1 := set_nalloc _ p).
  wp_bind. iApply (wp_search p1 with "HI"); [done |]. iIntros (r) "%Hr HI". destruct Hr as (A & B & -> & HA & Hr).
  destruct r as [[] q].
  - destruct Hr as (ns & B' & ->). wp_bind. iApply (wp_second with "HI"). iIntros (t r1 r2) "%Ht HI".
    iDestruct "HΦ" as "[_ HΦ]". assert (t ∈ q :: ns) as Hin by (rewrite Ht; set_solver).
    pose proof (best_head _ _ _ _ _ (need n) _ HI HIF HA (Z.le_refl _) t Hin) as Hbest.
    destruct (free_block p ars t (need n) Hwf) as (as1 & ab & bs1 & bs2 & as2 & -> & -> & _).
    { rewrite -HIF flat_app flat_cons. apply elem_of_app. right. apply elem_of_app. left. apply list_elem_of_fmap. eauto. }
    iApply (wp_exact p with "[HI] Hars Htrue HΦ"); [done..| by iExists _; iFrame].
  - iAssert (fset (root p) (free_in (blocks_of ars))) with "[HI]" as "HF"; [by iExists _; iFrame |].
    destruct Hr as [HB [[-> ->] | (s & ns & B' & -> & Hq)]].
    + simpl. rewrite app_nil_r in HIF. iApply (wp_extend with "HF Hars Htrue HΦ"); [done.. | lia |].
      rewrite -HIF. by apply (flat_Forall (fun x => x < need n)).
    + destruct (Z.eqb_spec q 0); [lia |]. simpl. apply Forall_cons in HB as [Hs _]. simpl in Hs.
      pose proof (best_head _ _ _ _ _ (need n) _ HI HIF HA (Z.lt_le_incl _ _ Hs) q ltac:(by left)) as Hbest.
      destruct (free_block p ars q s Hwf) as (as1 & ab & bs1 & bs2 & as2 & -> & -> & Hbs & Hlim).
      { rewrite -HIF flat_app flat_cons. set_solver. }
      iDestruct "HΦ" as "[_ HΦ]". by iApply (wp_cut_block p with "HF Hars Htrue HΦ").
Qed.
End Host.

(** ** A host

    Memory is given out at the end of what there is, up to a limit. *)

Definition top (h : gmap positive Z) : Z := foldr Z.max 0 (map (fun kv => Zpos kv.1) (map_to_list h)).
Definition brk_end (limit : Z) (h : gmap positive Z) (n : Z) : option Z :=
  let t := 4 * (top h / 4 + 1) in if t + n <=? limit then Some t else None.

Section HostEnd.

Lemma foldr_max (l : list Z) x : x ∈ l -> x <= foldr Z.max 0 l.
Proof. induction l as [|y l IH]; [by intros ?%not_elem_of_nil |]. intros [-> | H]%elem_of_cons; simpl; [lia |]. specialize (IH H). lia. Qed.

Lemma top_lt h x v : h !! x = Some v -> Zpos x <= top h.
Proof.
  intros H. apply foldr_max. apply list_elem_of_fmap. exists (x, v). split; [done |]. by apply elem_of_map_to_list.
Qed.

Lemma region_ge t n x v : 0 < t -> t mod 4 = 0 -> region t n !! x = Some v -> t <= Zpos x.
Proof.
  intros Ht H4 H. apply elem_of_list_to_map_2 in H. apply list_elem_of_omap in H as (i & Hi & E).
  apply elem_of_seqZ in Hi. unfold at_ in E. destruct (4 * i) as [|a|a] eqn:Ea; try done. injection E as -> _. zlia.
Qed.

Lemma brk_end_ok limit : brk_ok (brk_end limit).
Proof.
  intros h n t. unfold brk_end. destruct (4 * _ + n <=? limit); [| done]. intros [= <-].
  assert (0 <= top h) as Htop by (unfold top; generalize (map_to_list h); induction l; simpl; lia).
  split; [zlia |]. apply map_disjoint_spec. intros x u v Hr Hh. apply region_ge in Hr; [| zlia..]. apply top_lt in Hh. zlia.
Qed.
End HostEnd.

(** A pool with an arena in memory: a small one that has given out a block,
    beside a word of somebody else's. *)
Section Small.

Lemma small_pool : exists p ars a s h,
  holds (w 8 0 ∗ pool p ars ∗ dat a s)%I h /\ (a, s) ∈ used_in (blocks_of ars).
Proof.
  set (h0 := {[8%positive := 0]} : gmap positive Z).
  destruct (wp_adequate (w 8 0 ∗ pool (new_pool 1000 640) []) (poolalloc (brk_end 4000) (new_pool 1000 640) 100)
    (fun r => ∃ ars a s, ⌈r.2 <> 0 -> (a, s) ∈ used_in (blocks_of ars)⌉ ∗ w 8 0 ∗ ((⌈r.2 = 0⌉ ∗ True) ∨ pool r.1 ars ∗ dat a s))%I h0)
    as ([p q] & h & E & ars & a & s & H).
  - iIntros "[Hw Hp]". iApply (wp_poolalloc _ (brk_end_ok 4000) with "Hp"); [lia |]. iSplit.
    + iIntros (p') "_ _". iExists [], 0, 0. iSplit; [by iPureIntro | iFrame "Hw"; iLeft]. by iSplit.
    + iIntros (p' ars' a s) "%Hg Hp Hd". iExists ars', a, s. iFrame "Hw". iSplit; [| iRight; by iFrame].
      iPureIntro. intros _. destruct Hg as [-> _]. by left.
  - apply (entails_at ([∗ map] x ↦ v ∈ h0, x ↦ v)%I); [| apply big_sepM_holds].
    rewrite big_sepM_singleton. iIntros "Hw". iFrame "Hw". iApply pool_new; [by split | lia | lia | done].
  - assert (q <> 0) as Hq.
    { assert (match poolalloc (brk_end 4000) (new_pool 1000 640) 100 h0 with Ok (_, q) _ => negb (q =? 0) | Fault => false end = true)
        as E' by (vm_compute; reflexivity). rewrite E in E'. by destruct (Z.eqb_spec q 0). }
    apply holds_pure in H as [Hu H]. exists p, ars, a, s, h. split; [| by apply Hu].
    apply (entails_at (w 8 0 ∗ ((⌈q = 0⌉ ∗ True) ∨ pool p ars ∗ dat a s))%I); [| done]. by iIntros "[$ [[% _] | $]]".
Qed.

(** The pool of [small_pool] gives its block back. *)
Lemma poolfree_correct_witness : exists p ars a s h,
  (a, s) ∈ used_in (blocks_of ars) /\ holds (pool p ars ∗ dat a s)%I h /\
  exists p' h', poolfree p (B2D a) h = Ok p' h' /\
    holds (∃ ars', ⌈used_in (blocks_of ars) ≡ₚ (a, s) :: used_in (blocks_of ars') /\ map fst ars' = map fst ars /\
             cost ars' = cost ars⌉ ∗ pool p' ars')%I h'.
Proof.
  destruct small_pool as (p & ars & a & s & h & H & Ha). exists p, ars, a, s, h.
  assert (holds (pool p ars ∗ dat a s)%I h) as Hp.
  { apply (entails_at (w 8 0 ∗ pool p ars ∗ dat a s)%I); [| done]. rewrite /pool. by iIntros "(_ & ($ & $ & $ & $) & $)". }
  split_and!; [done | done |]. by apply (wp_adequate _ _ _ h (poolfree_correct p ars a s Ha)).
Defined.
End Small.

(** ** The allocator *)

Section Property.

(** C13. [poolalloc], for every pool and request of sane size: it returns, no
    access is out of bounds, and either the request is refused, when no free
    block will do and the pool may not grow or the host has no more, the pool
    being as good as before; or the data of a block that was not in use is
    handed out, large enough, from the smallest free block that is, less than
    a quarter of it wasted. *)
Theorem poolalloc_correct brk p ars n : brk_ok brk -> 0 <= n < 2 ^ 30 ->
  pool p ars ⊢ wp (poolalloc brk p n) (fun r =>
    (⌈r.2 = 0 /\ refused brk p ars (need n)⌉ ∗ pool r.1 ars) ∨
    (∃ ars' a s, ⌈r.2 = B2D a /\ granted ars (need n) ars' a s⌉ ∗ pool r.1 ars' ∗ dat a s)).
Proof.
  intros Hbrk Hn. iIntros "Hp". iApply (wp_poolalloc with "Hp"); [done.. |]. iSplit.
  - iIntros (p') "%Hr Hp". iLeft. by iFrame.
  - iIntros (p' ars' a s) "%Hg Hp Hd". iRight. iExists ars', a, s. by iFrame.
Qed.

Lemma poolalloc_correct_witness :
  brk_ok (brk_end (2 ^ 24)) /\ 0 <= 100 < 2 ^ 30 /\ (True ⊢ pool mainmem []) /\
  (pool mainmem [] ⊢ wp (poolalloc (brk_end (2 ^ 24)) mainmem 100) (fun r =>
    (⌈r.2 = 0 /\ refused (brk_end (2 ^ 24)) mainmem [] (need 100)⌉ ∗ pool r.1 []) ∨
    (∃ ars' a s, ⌈r.2 = B2D a /\ granted [] (need 100) ars' a s⌉ ∗ pool r.1 ars' ∗ dat a s))).
Proof.
  split_and!; [apply brk_end_ok | lia | lia | | apply (poolalloc_correct _ mainmem [] 100); [apply brk_end_ok | lia]].
  by apply pool_new.
Defined.
End Property.
