(* ===== verification/PoolSpec.v ===== *)
(** * The pool allocator: what its clients see

    The blocks in use as a list of addresses and contents, which the requests
    of clients change; the arenas, the tree and the tags are gone. *)

From S2P Require Import Prelude Heap Pool PoolTree PoolOps PoolArena PoolFree PoolAlloc.
Import Pool.

#[local] Open Scope Z_scope.

(** ** Contents *)

Fixpoint words (a : Z) (ws : list Z) : hpropI Z :=
  match ws with [] => emp | x :: ws => w a x ∗ words (a + 4) ws end%I.

Section Words.

Lemma junk_words a n : junk a n ⊣⊢ ∃ ws, ⌈length ws = n⌉ ∗ words a ws.
Proof.
  revert a. induction n as [|n IH]; intros a; simpl.
  - iSplit; [iIntros; by iExists [] |]. iIntros "(%ws & %Hl & Hw)". by destruct ws.
  - rewrite IH. iSplit.
    + iIntros "[(%x & Hx) (%ws & %Hl & Hw)]". iExists (x :: ws). simpl. iFrame. by rewrite Hl.
    + iIntros "(%ws & %Hl & Hw)". destruct ws as [|x ws]; [done |]. injection Hl as Hl. iDestruct "Hw" as "[Hx Hw]".
      iSplitL "Hx"; [by iExists x |]. iExists ws. by iFrame.
Qed.

Lemma words_lookup a ws (i : nat) x : ws !! i = Some x ->
  words a ws ⊢ w (a + 4 * i) x ∗ (∀ y, w (a + 4 * i) y -∗ words a (<[i := y]> ws)).
Proof.
  revert a i. induction ws as [|z ws IH]; intros a [|i] E; try done; simpl in *.
  - injection E as ->. rewrite Z.add_0_r. iIntros "[$ $]". auto.
  - replace (a + 4 * S i) with (a + 4 + 4 * i) by lia. rewrite {1}(IH (a + 4) i E). iIntros "($ & $ & H)". done.
Qed.

Lemma words_ne a ws b us (i j : nat) : (i < length ws)%nat -> (j < length us)%nat ->
  words a ws -∗ words b us -∗ ⌜(a + 4 * i <> b + 4 * j)%Z⌝.
Proof.
  iIntros (Hi Hj) "Ha Hb". destruct (lookup_lt_is_Some_2 _ _ Hi) as [x Hx]. destruct (lookup_lt_is_Some_2 _ _ Hj) as [y Hy].
  rewrite (words_lookup a) // (words_lookup b) //. iDestruct "Ha" as "[Ha _]". iDestruct "Hb" as "[Hb _]".
  iDestruct (w_ne (a + 4 * i) (b + 4 * j) 0 with "[Ha] [Hb]") as %?; [by rewrite Z.add_0_r.. | done].
Qed.
End Words.

(** ** The blocks in use *)

(** An address and the words there. *)
Abbreviation buffer := (Z * list Z)%type.

(** Its block. *)
Definition place (b : buffer) : Z * Z := (b.1 - data, BHDRSIZE + 4 * length b.2).

Definition contents (L : list buffer) : hpropI Z := ([∗ list] b ∈ L, words b.1 b.2)%I.

Definition state (p : Pool) (L : list buffer) : hpropI Z :=
  (∃ ars, ⌈used_in (blocks_of ars) ≡ₚ map place L⌉ ∗ pool p ars ∗ contents L)%I.

(** What clients do. *)
Inductive op :=
  | PAlloc (n : Z)
  | PFree (v : Z)
  | PSize (v : Z)
  | PImmutable (v : Z)
  | PMutable (v : Z)
  | PLoad (v : Z) (i : nat)
  | PStore (v : Z) (i : nat) (x : Z).

Definition exec (brk : gmap positive Z -> Z -> option Z) (o : op) (p : Pool) : M (Pool * Z) :=
  match o with
  | PAlloc n => poolalloc brk p n
  | PFree v => p ← poolfree p v; mret (p, 0)
  | PSize v => n ← msize v; mret (p, n)
  | PImmutable v => poolimmutable v;; mret (p, 0)
  | PMutable v => poolmutable v;; mret (p, 0)
  | PLoad v i => x ← get v (4 * i); mret (p, x)
  | PStore v i x => set v (4 * i) x;; mret (p, 0)
  end.

(** A client may use a block it has, within its bounds. *)
Definition enabled (L : list buffer) (o : op) : Prop :=
  match o with
  | PAlloc _ => True
  | PFree v | PSize v | PImmutable v | PMutable v => exists ws, (v, ws) ∈ L
  | PLoad v i | PStore v i _ => exists ws, (v, ws) ∈ L /\ (i < length ws)%nat
  end.

(** No word is of another block. *)
Definition apart (L : list buffer) (v : Z) (ws : list Z) : Prop :=
  forall v' ws' (i j : nat), (v', ws') ∈ L -> (i < length ws)%nat -> (j < length ws')%nat -> v + 4 * i <> v' + 4 * j.

(** What they get. *)
Definition spec (L : list buffer) (o : op) (r : Z) (L' : list buffer) : Prop :=
  match o with
  | PAlloc n =>
      (r = 0 /\ L' = L) \/
      (0 <= n < 2 ^ 30 /\ 0 < r /\ exists ws, n <= 4 * length ws /\ apart L r ws /\ L' = (r, ws) :: L)
  | PFree v => exists ws, L ≡ₚ (v, ws) :: L'
  | PSize v => L' = L /\ exists ws, (v, ws) ∈ L /\ r = 4 * length ws
  | PImmutable _ | PMutable _ => L' = L
  | PLoad v i => L' = L /\ exists ws, (v, ws) ∈ L /\ ws !! i = Some r
  | PStore v i x => exists ws L0, L ≡ₚ (v, ws) :: L0 /\ L' = (v, <[i := x]> ws) :: L0
  end.

Section Uses.

Lemma used_same as1 ab bs1 sz m m' bs2 as2 :
  used_in (blocks_of (as1 ++ (ab, bs1 ++ (sz, Some m) :: bs2) :: as2)) =
  used_in (blocks_of (as1 ++ (ab, bs1 ++ (sz, Some m') :: bs2) :: as2)).
Proof. by rewrite !blocks_of_mid !placed_app /= !used_in_app. Qed.

(** What the pool keeps of a block in use. *)
Lemma pool_borrow p as1 ab bs1 sz m bs2 as2 :
  pool p (as1 ++ (ab, bs1 ++ (sz, Some m) :: bs2) :: as2) ⊢
  blk (floor ab + total bs1) (sz, Some m) ∗
  (∀ m', blk (floor ab + total bs1) (sz, Some m') -∗ pool p (as1 ++ (ab, bs1 ++ (sz, Some m') :: bs2) :: as2)).
Proof.
  iIntros "(%Hwf & HF & Hars & Htrue)". iDestruct (arenas_borrow with "Hars") as "[$ Hars]". iIntros (m') "Hb".
  iSplit.
  - iPureIntro. apply (wfp_mid p _ as1 ab (bs1 ++ (sz, Some m) :: bs2)); try done.
    + pose proof (wf_arenas _ _ Hwf) as Hok. by apply Forall_app in Hok as [_ [[Hs Hc] _]%Forall_cons];
        apply Forall_app in Hs as [? [? ?]%Forall_cons]; apply coal_app in Hc as [? ?];
        split; [apply Forall_app; split; [| constructor] | apply coal_app].
    + by rewrite !total_app.
    + rewrite (wf_cursize _ _ Hwf). unfold held. by rewrite (used_same as1 ab bs1 sz m m').
    + by apply (wf_hw _ _ Hwf).
  - iSplitL "HF"; [iApply (fset_perm with "HF"); by rewrite !blocks_of_mid !placed_app /= !free_in_app |].
    iSplitR "Htrue"; [| done]. iDestruct ("Hars" $! [(sz, Some m')] with "[] [Hb]") as "Hars"; [iPureIntro; simpl; lia | simpl; by iFrame |].
    iExact "Hars".
Qed.

(** [D2B] of a live block. *)
Lemma wp_header p ars a sz (Φ : Z -> hpropI Z) : (a, sz) ∈ used_in (blocks_of ars) ->
  pool p ars -∗
  (∀ m, ⌈m = MAGIC_A \/ m = MAGIC_I⌉ -∗ ⌈sz < 2 ^ 31⌉ -∗ w (a + magic) m -∗ w (a + size) sz -∗
     (∀ m', ⌈m' = MAGIC_A \/ m' = MAGIC_I⌉ -∗ w (a + magic) m' -∗ w (a + size) sz -∗
        ∃ ars', ⌈used_in (blocks_of ars') = used_in (blocks_of ars)⌉ ∗ pool p ars') -∗ Φ a) -∗
  wp (D2B (B2D a)) Φ.
Proof.
  iIntros (Ha) "Hp HΦ". iAssert (⌜wfp p ars⌝)%I as %Hwf; [by iDestruct "Hp" as "(% & _)" |].
  destruct (used_block _ _ _ _ Hwf Ha) as (as1 & ab & bs1 & m & bs2 & as2 & -> & -> & Hsz & Hlim).
  iDestruct (pool_borrow with "Hp") as "[(%Hm & %Hpos & Hw & Hs & Hr) Hp]".
  iApply (wp_D2B with "Hw"); [done |]. iIntros "Hw". iApply ("HΦ" $! m with "[//] [//] Hw Hs").
  iIntros (m' Hm') "Hw Hs". iExists _. iSplitR; [| iApply ("Hp" $! m'); rewrite /blk; by iFrame].
  iPureIntro. apply used_same.
Qed.
End Uses.

Section Exec.
Context (brk : gmap positive Z -> Z -> option Z).
Hypothesis Hbrk : brk_ok brk.

Definition post (L : list buffer) (o : op) (r : Pool * Z) : hpropI Z :=
  (∃ L', ⌈spec L o r.2 L'⌉ ∗ state r.1 L')%I.

(** The routines that only look at the header of a live block. *)
Lemma wp_D2B_live {B} p L v ws (k : Z -> M B) (Φ : B -> hpropI Z) : (v, ws) ∈ L -> state p L -∗
  (∀ m, ⌈BHDRSIZE + 4 * length ws < 2 ^ 31⌉ -∗ w (v - data + magic) m -∗ w (v - data + size) (BHDRSIZE + 4 * length ws) -∗
     (∀ m', ⌈m' = m \/ m' = MAGIC_A \/ m' = MAGIC_I⌉ -∗ w (v - data + magic) m' -∗
        w (v - data + size) (BHDRSIZE + 4 * length ws) -∗ state p L) -∗ wp (k (v - data)) Φ) -∗
  wp (D2B v ≫= k) Φ.
Proof.
  iIntros (Hv) "(%ars & %Hu & Hp & Hc) HΦ".
  assert ((v - data, BHDRSIZE + 4 * length ws) ∈ used_in (blocks_of ars)) as Ha.
  { rewrite Hu. apply list_elem_of_fmap. by exists (v, ws). }
  iApply wp_bind. iEval (replace v with (B2D (v - data)) by (unfold B2D; lia)).
  iApply (wp_header with "Hp"); [done |]. iIntros (m) "%Hm %Hlim Hw Hs Hback".
  iApply ("HΦ" with "[//] Hw Hs"). iIntros (m' Hm') "Hw Hs".
  iDestruct ("Hback" with "[] Hw Hs") as (ars') "[%E Hp]"; [iPureIntro; naive_solver |].
  iExists ars'. iFrame. iPureIntro. by rewrite E.
Qed.

Lemma wp_psize p L v ws : (v, ws) ∈ L -> state p L ⊢ wp (exec brk (PSize v) p) (post L (PSize v)).
Proof.
  iIntros (Hv) "Hst". simpl. unfold msize. wp_bind. iApply (wp_D2B_live with "Hst"); [done |].
  iIntros (m) "%Hlim Hw Hs Hst". wp_get "Hs". wp_ret. wp_ret. iDestruct ("Hst" with "[] Hw Hs") as "Hst"; [iPureIntro; by left |].
  iExists L. iFrame. iPureIntro. split; [done |]. exists ws. split; [done |]. simpl.
  change BHDRSIZE with 16 in *. rewrite (wraps_id 32); lia.
Qed.

Lemma wp_pmagic p L v ws m0 : (v, ws) ∈ L -> m0 = MAGIC_A \/ m0 = MAGIC_I ->
  state p L ⊢ wp (D2B v ≫= (fun b => set b magic m0)) (fun _ => state p L).
Proof.
  iIntros (Hv Hm) "Hst". iApply (wp_D2B_live with "Hst"); [done |]. iIntros (m) "%Hlim Hw Hs Hst".
  wp_set "Hw". iApply ("Hst" with "[] Hw Hs"). iPureIntro. naive_solver.
Qed.

Lemma state_live p L v ws : (v, ws) ∈ L -> state p L ⊢
  words v ws ∗ (∀ ws', ⌈length ws' = length ws⌉ -∗ words v ws' -∗ ∃ L0, ⌈L ≡ₚ (v, ws) :: L0⌉ ∗ state p ((v, ws') :: L0)).
Proof.
  intros Hv. apply elem_of_Permutation in Hv as [L0 HL]. iIntros "(%ars & %Hu & Hp & Hc)".
  unfold contents. iEval (rewrite HL /=) in "Hc". iDestruct "Hc" as "[$ Hc]". iIntros (ws' Hl) "Hw". iExists L0.
  iSplit; [done |]. iExists ars. iFrame. iPureIntro. rewrite Hu HL /= /place /= Hl. done.
Qed.

Lemma state_perm p L L' : L ≡ₚ L' -> state p L ⊢ state p L'.
Proof. iIntros (HL) "(%ars & %Hu & Hp & Hc)". iExists ars. rewrite /contents HL. iFrame. iPureIntro. by rewrite -HL. Qed.

Lemma wp_pload p L v ws (i : nat) : (v, ws) ∈ L -> (i < length ws)%nat ->
  state p L ⊢ wp (exec brk (PLoad v i) p) (post L (PLoad v i)).
Proof.
  iIntros (Hv Hi) "Hst". destruct (lookup_lt_is_Some_2 _ _ Hi) as [x Hx]. iDestruct (state_live with "Hst") as "[Hw Hst]"; [done |].
  iDestruct (words_lookup with "Hw") as "[Hx Hw]"; [done |]. simpl. wp_get "Hx". wp_ret.
  iDestruct ("Hw" with "Hx") as "Hw". rewrite list_insert_id //. iDestruct ("Hst" with "[//] Hw") as (L0) "[%HL Hst]".
  iExists L. iSplit; [iPureIntro; simpl; eauto |]. by iApply state_perm.
Qed.

Lemma wp_pstore p L v ws (i : nat) x : (v, ws) ∈ L -> (i < length ws)%nat ->
  state p L ⊢ wp (exec brk (PStore v i x) p) (post L (PStore v i x)).
Proof.
  iIntros (Hv Hi) "Hst". destruct (lookup_lt_is_Some_2 _ _ Hi) as [y Hy]. iDestruct (state_live with "Hst") as "[Hw Hst]"; [done |].
  iDestruct (words_lookup with "Hw") as "[Hx Hw]"; [done |]. simpl. wp_set "Hx". wp_ret.
  iDestruct ("Hw" with "Hx") as "Hw". iDestruct ("Hst" with "[] Hw") as (L0) "[%HL Hst]"; [by rewrite length_insert |].
  iExists _. iFrame. iPureIntro. simpl. eauto.
Qed.

Lemma dat_words a sz : block_size sz -> dat a sz ⊣⊢ ∃ ws : list Z, ⌈(BHDRSIZE + 4 * length ws)%Z = sz⌉ ∗ words (B2D a) ws.
Proof.
  intros [Hs H32]. rewrite /dat /mem junk_words. change BHDRSIZE with 16 in *.
  iSplit; iIntros "(%ws & %Hl & Hw)"; iExists ws; iFrame; iPureIntro; zlia.
Qed.

Lemma wp_pfree p L v ws : (v, ws) ∈ L -> state p L ⊢ wp (exec brk (PFree v) p) (post L (PFree v)).
Proof.
  iIntros (Hv) "(%ars & %Hu & Hp & Hc)". iAssert (⌜wfp p ars⌝)%I as %Hwf; [by iDestruct "Hp" as "(% & _)" |].
  pose proof Hv as HL. apply elem_of_Permutation in HL as [L0 HL]. unfold contents. iEval (rewrite HL /=) in "Hc".
  iDestruct "Hc" as "[Hw Hc]". rewrite HL in Hu. simpl in Hu.
  destruct (used_block p ars (v - data) (BHDRSIZE + 4 * length ws) Hwf) as (as1 & ab & bs1 & m & bs2 & as2 & -> & Ha & Hsz & Hlim).
  { rewrite Hu. by left. }
  assert (v = B2D (floor ab + total bs1)) as Hva by (unfold B2D; lia). simpl. wp_bind. rewrite {2}Hva.
  iApply (wp_poolfree with "Hp [Hw]").
  { iApply dat_words; [done |]. iExists ws. iSplit; [done |]. by rewrite Hva. }
  iIntros (p' bs') "[_ %Hu'] Hp". wp_ret. iExists L0. iSplit; [iPureIntro; simpl; eauto |].
  iExists _. iFrame. iPureIntro. rewrite Hu' /place /= -Ha in Hu. by apply Permutation_cons_inv in Hu.
Qed.

Lemma contents_apart v ws L : words v ws -∗ contents L -∗ ⌜apart L v ws⌝.
Proof.
  iIntros "Hw Hc" (v' ws' i j HL Hi Hj). apply elem_of_Permutation in HL as [L0 HL]. unfold contents. rewrite HL /=.
  iDestruct "Hc" as "[Hc _]". by iApply (words_ne with "Hw Hc").
Qed.

Lemma wp_palloc p L n : state p L ⊢ wp (exec brk (PAlloc n) p) (post L (PAlloc n)).
Proof.
  iIntros "(%ars & %Hu & Hp & Hc)". simpl.
  destruct (decide (0 <= n < 2 ^ 30)) as [Hn | Hn].
  - iApply (wp_poolalloc with "Hp"); [done.. |]. iSplit.
    + iIntros (p') "%Hr Hp". iExists L. iSplit; [by iPureIntro; left |]. iExists ars. by iFrame.
    + iIntros (p' ars' a s) "%Hg Hp Hd". destruct Hg as (Hu' & Hs & Hle & _). rewrite dat_words //.
      iDestruct "Hd" as (ws) "[%Hl Hw]". iAssert (⌜apart L (B2D a) ws⌝)%I as %Hap; [iApply (contents_apart with "Hw Hc") |].
      destruct (need_block n) as [_ [Hneed _]]; [lia |]. change BHDRSIZE with 16 in *.
      iAssert (⌜0 < B2D a⌝)%I as %Hpos.
      { destruct ws as [|x ws]; [destruct Hs; simpl in Hl; lia |]. iDestruct "Hw" as "[Hw _]". by iApply (w_pos with "Hw"). }
      iExists ((B2D a, ws) :: L). iSplit.
      { iPureIntro. right. simpl. split_and!; [lia | lia | done |]. exists ws. split_and!; [lia | done..]. }
      iExists ars'. rewrite /contents /=. iFrame. iPureIntro. rewrite Hu' Hu /place /=. change BHDRSIZE with 16. rewrite Hl. by replace (B2D a - data) with a by (unfold B2D; lia).
  - unfold poolalloc. cbn [poolalloc_].
    assert ((n <? 0) || (1024 * 1024 * 1024 <=? n) = true) as -> by (destruct (Z.ltb_spec n 0), (Z.leb_spec (1024 * 1024 * 1024) n); done || lia).
    wp_ret. iExists L. iSplit; [by iPureIntro; left |]. iExists ars. by iFrame.
Qed.

(** Whatever a client may do is done, and does what it should. *)
Lemma wp_exec p L o : enabled L o -> state p L ⊢ wp (exec brk o p) (post L o).
Proof.
  destruct o as [n | v | v | v | v | v i | v i x]; simpl.
  - intros _. apply wp_palloc.
  - intros [ws Hv]. by eapply wp_pfree.
  - intros [ws Hv]. by eapply wp_psize.
  - intros [ws Hv]. iIntros "Hst". wp_bind. unfold poolimmutable.
    iApply (wp_frame_wand with "[Hst]"); [iApply (wp_pmagic with "Hst"); [done | by right] |].
    iIntros (_) "Hst". wp_ret. iExists L. by iFrame.
  - intros [ws Hv]. iIntros "Hst". wp_bind. unfold poolmutable.
    iApply (wp_frame_wand with "[Hst]"); [iApply (wp_pmagic with "Hst"); [done | by left] |].
    iIntros (_) "Hst". wp_ret. iExists L. by iFrame.
  - intros (ws & Hv & Hi). by eapply wp_pload.
  - intros (ws & Hv & Hi). by eapply wp_pstore.
Qed.
End Exec.

(** ** Programs that use a pool *)

Section Play.
Context (brk : gmap positive Z -> Z -> option Z).

(** A client chooses its requests by the answers so far. *)
Definition client := list (op * Z) -> op.

Fixpoint play (c : client) (n : nat) (p : Pool) (tr : list (op * Z)) : M (Pool * list (op * Z)) :=
  match n with
  | O => mret (p, tr)
  | S n => '(p, r) ← exec brk (c tr) p; play c n p (tr ++ [(c tr, r)])
  end.

(** The histories of a client that the specification allows. *)
Inductive spec_run (c : client) : list (op * Z) -> list buffer -> Prop :=
  | spec_nil : spec_run c [] []
  | spec_snoc tr L r L' : spec_run c tr L -> spec L (c tr) r L' -> spec_run c (tr ++ [(c tr, r)]) L'.

Hypothesis Hbrk : brk_ok brk.

Lemma wp_play (c : client) n p tr L : (forall tr L, spec_run c tr L -> enabled L (c tr)) -> spec_run c tr L ->
  state p L ⊢ wp (play c n p tr) (fun r => ∃ L', ⌈spec_run c r.2 L' /\ length r.2 = (n + length tr)%nat⌉ ∗ state r.1 L').
Proof.
  intros Hc. revert p tr L. induction n as [|n IH]; intros p tr L Htr; simpl.
  - iIntros "Hst". wp_ret. iExists L. by iFrame.
  - iIntros "Hst". wp_bind. iApply (wp_frame_wand with "[Hst]"); [iApply (wp_exec with "Hst"); by [| apply Hc] |].
    iIntros ([p' r]) "(%L' & %Hs & Hst)". simpl in *. iApply (wp_frame_wand with "[Hst]").
    { iApply (IH with "Hst"). by eapply spec_snoc. }
    iIntros (s) "(%L2 & [%H1 %H2] & Hst)". iExists L2. iFrame. iPureIntro. split; [done |].
    rewrite H2 length_app /=. lia.
Qed.
End Play.

Lemma state_new m c h : block_size c -> c < 2 ^ 30 -> 0 <= m < 2 ^ 31 -> holds (state (new_pool m c) []) h.
Proof.
  intros Hc Hlt Hm. apply (entails_at True%I); [| done]. iIntros "Ht". iExists []. iSplit; [done |].
  iSplitL "Ht"; [by iApply pool_new | by rewrite /contents /=].
Qed.

(** ** Refinement *)

Section Properties.

(** C3. Every client that uses its blocks as the specification allows runs
    without a fault on a new pool, whatever memory there was before, for as long as it
    likes, and every answer is one the specification allows: blocks in use
    never overlap, are as large as they were asked for, and hold what was last
    stored in them. *)
Theorem pool_refines brk m c h (cl : client) n : brk_ok brk -> block_size c -> c < 2 ^ 30 -> 0 <= m < 2 ^ 31 ->
  (forall tr L, spec_run cl tr L -> enabled L (cl tr)) ->
  exists p tr h' L, play brk cl n (new_pool m c) [] h = Ok (p, tr) h' /\ length tr = n /\ spec_run cl tr L /\ holds (state p L) h'.
Proof.
  intros Hbrk Hc Hlt Hm Hcl.
  destruct (wp_adequate (state (new_pool m c) []) (play brk cl n (new_pool m c) [])
    (fun r => ∃ L', ⌈spec_run cl r.2 L' /\ length r.2 = (n + 0)%nat⌉ ∗ state r.1 L')%I h) as ([p tr] & h' & E & H).
  - apply (wp_play brk Hbrk cl n _ [] []); [done | constructor].
  - by apply state_new.
  - apply holds_exist in H as [L H]. apply holds_pure in H as [[Htr Hl] H]. simpl in *. exists p, tr, h', L.
    split_and!; try done. lia.
Qed.

(** A client that takes a block, fills it, looks, and frees it, again and again. *)
Definition cl_example : client := fun tr =>
  match tr with
  | [] => PAlloc 100
  | [(_, r)] => if r =? 0 then PAlloc 0 else PStore r 3 42
  | [(PAlloc _, r); (PStore _ _ _, _)] => PLoad r 3
  | [(PAlloc _, r); (PStore _ _ _, _); _] => PFree r
  | _ => PAlloc 7
  end.

Lemma cl_example_spec tr L : spec_run cl_example tr L ->
  match tr with
  | [] => L = []
  | [(_, r)] => r = 0 \/ exists ws, (3 < length ws)%nat /\ L = [(r, ws)]
  | [(PAlloc _, r); (PStore _ _ _, _)] => exists ws, (3 < length ws)%nat /\ L = [(r, ws)]
  | [(PAlloc _, r); (PStore _ _ _, _); _] => exists ws, L = [(r, ws)]
  | _ => True
  end.
Proof.
  induction 1 as [| tr L r L' _ IH Hs]; [done |].
  destruct tr as [| [o1 r1] [| [o2 r2] [| [o3 r3] [| x tr]]]]; simpl in *.
  - subst L. destruct Hs as [[-> _] | (_ & _ & ws & Hl & _ & ->)]; [by left |]. right. exists ws. split; [lia | done].
  - destruct o1; try done; destruct (Z.eqb_spec r1 0) as [? | Hne]; try done.
    destruct IH as [? | (ws & Hl & ->)]; [done |]. destruct Hs as (ws' & L0 & HL & ->).
    apply Permutation_singleton_l in HL. injection HL as <- <-. eexists. split; [| done]. by rewrite length_insert.
  - destruct o1; try done. destruct o2; try done. destruct IH as (ws & _ & ->). destruct Hs as [-> _]. eauto.
  - destruct o1; try done; by destruct o2.
  - destruct o1; try done; by destruct o2.
Qed.

Lemma cl_example_ok tr L : spec_run cl_example tr L -> enabled L (cl_example tr).
Proof.
  intros H. apply cl_example_spec in H. destruct tr as [| [o1 r1] [| [o2 r2] [| [o3 r3] [| x tr]]]]; simpl in *; try done.
  - destruct o1; (destruct (Z.eqb_spec r1 0); [done |]; destruct H as [? | (ws & Hl & ->)]; [done |]; exists ws; split; [by left | lia]).
  - destruct o1; try done. destruct o2; try done. destruct H as (ws & Hl & ->). exists ws. split; [by left | lia].
  - destruct o1; try done. destruct o2; try done. destruct H as (ws & ->). exists ws. by left.
  - destruct o1; try done; by destruct o2.
Qed.

Lemma pool_refines_witness :
  brk_ok (brk_end (2 ^ 24)) /\ block_size (512 * 1024) /\ (forall tr L, spec_run cl_example tr L -> enabled L (cl_example tr)) /\
  exists p tr h' L, play (brk_end (2 ^ 24)) cl_example 5 mainmem [] ∅ = Ok (p, tr) h' /\ length tr = 5%nat /\
    spec_run cl_example tr L /\ holds (state p L) h'.
Proof.
  assert (block_size (512 * 1024)) as Hc by (split; [lia | done]).
  split; [apply brk_end_ok |]. split; [done |]. split; [apply cl_example_ok |].
  apply (pool_refines _ (6 * 1024 * 1024) (512 * 1024) ∅ cl_example 5); [apply brk_end_ok | done | lia | lia | apply cl_example_ok].
Defined.
End Properties.

(** ** Compaction

    Five requests to a pool with a [move] routine: what is freed first lets the
    last one compact the arena. *)

Definition compact_script (mv : option (Z -> Z -> M unit)) : M (list Z * Pool) :=
  '(p, a) ← poolalloc (brk_end 4000) (set_move mv (new_pool 1000 640)) 170;
  '(p, b) ← poolalloc (brk_end 4000) p 40;
  '(p, c) ← poolalloc (brk_end 4000) p 40;
  '(p, d) ← poolalloc (brk_end 4000) p 40;
  p ← poolfree p a;
  '(p, _) ← poolalloc (brk_end 4000) p 500;
  mret ([b; c; d], p).

(** [poolcompact] moves blocks without setting their tails, which go on
    pointing to where they were: after a compaction that moved three blocks
    down by 192 bytes, the second, a live block of 48 bytes, cannot be freed,
    for the tail of the first leads [poolfree] to the free space behind the
    third, which it takes for the block before and extends past the end of the
    arena.  Where nothing moves the same block is freed. *)
Theorem poolcompact_stale_tag :
  match compact_script (Some (fun _ _ => mret tt)) ∅ with
  | Ok (bs, p) h => bs = [264; 328; 392] /\ msize (328 - 192) h = Ok 48 h /\ poolfree p (328 - 192) h = Fault
  | Fault => False
  end /\
  match compact_script None ∅ with
  | Ok (bs, p) h => bs = [264; 328; 392] /\ poolfree p 328 h <> Fault
  | Fault => False
  end.
Proof. vm_compute. split_and!; done. Qed.
