(* ===== verification/PoolAudit.v ===== *)
(** * The pool allocator: the audit

    [poolaudit] walks every block of every arena and checks what it can of the
    pool's invariant while the program runs; a pool that has its invariant
    passes.  [poolmax]. *)

From S2P Require Import Prelude Heap Pool PoolTree PoolOps PoolArena PoolFree PoolAlloc PoolSpec.
Import Pool.

#[local] Open Scope Z_scope.

(** ** Reading a pool *)

Definition start_of (ars : list arena) : Z := match ars with [] => 0 | ar :: _ => ar.1 end.

Section View.

Lemma arenas_top t ars : arenas t ars ⊢ ⌜t = start_of ars⌝.
Proof. destruct ars as [|ar ars]; simpl; [by iIntros "%" | by iIntros "(-> & _)"]. Qed.

Lemma arenas_view t as1 ab bs as2 : arenas t (as1 ++ (ab, bs) :: as2) ⊢
  arena_rep (ab, bs) (start_of as2) ∗ (arena_rep (ab, bs) (start_of as2) -∗ arenas t (as1 ++ (ab, bs) :: as2)).
Proof.
  revert t. induction as1 as [|ar as1 IH]; intros t; simpl.
  - iIntros "(-> & %link & Har & Hs)". iAssert (⌜link = start_of as2⌝)%I as %->; [by iApply (arenas_top with "Hs") |].
    iFrame "Har". iIntros "Har". iSplit; [done |]. iExists _. iFrame.
  - iIntros "(-> & %link & Har & Hs)". iDestruct (IH with "Hs") as "[$ Hs]". iIntros "Hab". iSplit; [done |].
    iExists link. iFrame. by iApply "Hs".
Qed.

(** The leader and the end of an arena. *)
Lemma pool_lead p as1 ab bs as2 : pool p (as1 ++ (ab, bs) :: as2) ⊢
  ⌜0 < ab⌝ ∧ (w (ab + magic) MAGIC_E ∗ w (ab + size) 32 ∗ w (ab + csize) (32 + total bs) ∗ w (ab + clink) (start_of as2) ∗
  w (ab + 32 + total bs + magic) MAGIC_E ∗
  (w (ab + magic) MAGIC_E -∗ w (ab + size) 32 -∗ w (ab + csize) (32 + total bs) -∗ w (ab + clink) (start_of as2) -∗
   w (ab + 32 + total bs + magic) MAGIC_E -∗ pool p (as1 ++ (ab, bs) :: as2))).
Proof.
  iIntros "(%Hwf & HF & Hars & Htrue)". iDestruct (arenas_view with "Hars") as "[(Hl & Hb & He) Hback]". simpl.
  iDestruct "Hl" as "(%Hab & Hm & Hs & Hl & Hc & Hd & Ht)". iSplit; [done |]. iFrame "Hm Hs Hc Hl".
  rewrite /ceiling /floor /=. iFrame "He". iIntros "Hm Hs Hc Hl He". iSplit; [done |]. iFrame "HF". iSplitR "Htrue"; [| done].
  iApply "Hback". rewrite /arena_rep /lead /ceiling /floor /=. by iFrame.
Qed.

(** The header of a block. *)
Lemma pool_block p as1 ab bs1 sz st bs2 as2 :
  let a := floor ab + total bs1 in
  pool p (as1 ++ (ab, bs1 ++ (sz, st) :: bs2) :: as2) ⊢
  ∃ m, ⌈m = MAGIC_F \/ m = MAGIC_A \/ m = MAGIC_I⌉ ∗ w (a + magic) m ∗ w (a + size) sz ∗
    (w (a + magic) m -∗ w (a + size) sz -∗ pool p (as1 ++ (ab, bs1 ++ (sz, st) :: bs2) :: as2)).
Proof.
  intros a. destruct st as [m|].
  - iIntros "Hp". iDestruct (pool_borrow with "Hp") as "[(%Hm & %Ha & Hw & Hs & Hr) Hp]". iExists m. iSplit; [by iPureIntro; right |].
    iFrame "Hw Hs". iIntros "Hw Hs". iApply "Hp". rewrite /blk. by iFrame.
  - iIntros "(%Hwf & HF & Hars & Htrue)". iDestruct (arenas_borrow with "Hars") as "[Hb Hback]".
    iDestruct (fset_size _ a sz with "HF") as "[Hs HF]".
    { rewrite blocks_of_mid placed_app /= !free_in_app /=. fold a. set_solver. }
    iDestruct "Hb" as "(Hw & Hd)". iExists MAGIC_F. iSplit; [by iPureIntro; left |]. iFrame "Hw Hs". iIntros "Hw Hs".
    iSplit; [done |]. iSplitL "HF Hs"; [by iApply "HF" |]. iSplitR "Htrue"; [| done].
    iDestruct ("Hback" $! [(sz, None)] with "[] [Hw Hd]") as "Hars"; [iPureIntro; simpl; lia | rewrite /= /blk; by iFrame |].
    iExact "Hars".
Qed.

(** There are as many words as blocks, and as arenas. *)
Lemma blks_size a bs : blks a bs ⊢ size_ge (length bs) ∗ True.
Proof.
  revert a. induction bs as [|[sz st] bs IH]; intros a; simpl.
  - iIntros "_". iSplitL; [iApply size_ge_0 | done].
  - iIntros "[Hb Hbs]". iDestruct (blk_view with "Hb") as (m) "(_ & Hw & Ht & _)".
    iDestruct (IH with "Hbs") as "[Hn Hx]". iSplitL "Hn Hw"; [by iApply (w_size_ge with "Hw") | done].
Qed.

Lemma arenas_size t ars : arenas t ars ⊢ size_ge (length ars) ∗ True.
Proof.
  revert t. induction ars as [|ar ars IH]; intros t; simpl.
  - iIntros "_". iSplitL; [iApply size_ge_0 | done].
  - iIntros "(_ & %link & (Hl & _ & He) & Hs)". iDestruct (IH with "Hs") as "[Hn Hx]".
    iSplitL "Hn He"; [by iApply (w_size_ge with "He") | done].
Qed.
End View.

(** ** The audit *)

Section Audit.
Context (audit : Z -> Z -> M (option string)) (own : hpropI Z).

(** The caller's check, at the header of a block or of an arena: it reads the
    header, uses memory of its own, [own], and finds nothing. *)
Definition audit_ok : Prop := forall n b m sz,
  m = MAGIC_F \/ m = MAGIC_A \/ m = MAGIC_I \/ m = MAGIC_E -> block_size sz ->
  own ∗ w (b + magic) m ∗ w (b + size) sz ⊢
  wp (audit n b) (fun r => ⌈r = None⌉ ∗ own ∗ w (b + magic) m ∗ w (b + size) sz)%I.

Hypothesis Haudit : audit_ok.

Lemma wp_audit_block pnum bc b m sz P :
  m = MAGIC_F \/ m = MAGIC_A \/ m = MAGIC_I \/ (m = MAGIC_E /\ b = bc) -> block_size sz ->
  own -∗ w (b + size) sz -∗ w (b + magic) m -∗ (w (b + magic) m -∗ w (b + size) sz -∗ P) -∗
  wp (audit_block audit pnum 31 bc b) (fun r => ⌈r = None⌉ ∗ own ∗ P)%I.
Proof.
  iIntros (Hm [Hs H32]) "Ho Hs Hm HP". unfold audit_block. wp_get "Hs".
  assert ((sz =? 0) || negb (Z.land sz 31 =? 0) = false) as ->.
  { change 31 with (Z.ones 5). rewrite Z.land_ones; [| done]. change (2 ^ 5) with 32. rewrite H32. simpl.
    destruct (Z.eqb_spec sz 0); [lia | done]. }
  wp_get "Hm". assert (block_size sz) as Hsz by by split.
  assert ((m =? MAGIC_E) && negb (b =? bc) = false /\
    (m =? MAGIC_E) || (m =? MAGIC_F) || (m =? MAGIC_A) || (m =? MAGIC_I) = true) as [-> ->].
  { destruct Hm as [-> | [-> | [-> | [-> ->]]]]; simpl; rewrite ?Z.eqb_refl; done. }
  iApply (wp_frame_wand with "[Ho Hm Hs]"); [iApply (Haudit pnum b m sz); [naive_solver | exact Hsz | iFrame] |].
  iIntros (r) "($ & $ & Hm & Hs)". iApply ("HP" with "Hm Hs").
Qed.

Lemma pool_size p as1 ab bs as2 : pool p (as1 ++ (ab, bs) :: as2) ⊢ size_ge (S (length bs)) ∗ True.
Proof.
  iIntros "(%Hwf & HF & Hars & Htrue)". iDestruct (arenas_view with "Hars") as "[(Hl & Hb & He) Hback]". simpl.
  iDestruct (blks_size with "Hb") as "[Hn Hx]". iSplitL "Hn He"; [by iApply (w_size_ge with "He") | done].
Qed.

(** What is left to check of an arena; the leader comes first. *)
Definition rest (ab : Z) (bs : list block) (n : nat) (b : Z) : Prop :=
  (b = ab /\ n = S (length bs)) \/
  exists bs1 bs2, bs = bs1 ++ bs2 /\ b = floor ab + total bs1 /\ n = length bs2.

Lemma wp_audit_arena pnum p as1 ab bs as2 : sizes bs ->
  own ∗ pool p (as1 ++ (ab, bs) :: as2) ⊢
  wp (audit_arena audit pnum 31 ab) (fun r => ⌈r = None⌉ ∗ own ∗ pool p (as1 ++ (ab, bs) :: as2))%I.
Proof.
  iIntros (Hs) "[Ho Hp]". set (ars := as1 ++ (ab, bs) :: as2). unfold audit_arena. pose proof (total_nonneg _ Hs) as Ht.
  iDestruct (pool_lead with "Hp") as "(%Hab & Hm & Hs & Hc & Hl & He & Hback)". wp_get "Hm". simpl.
  unfold B2LIMIT. wp_bind. wp_get "Hc". wp_ret. iDestruct ("Hback" with "Hm Hs Hc Hl He") as "Hp".
  iApply (wp_loop (fun n b => ⌈rest ab bs n b⌉ ∗ own ∗ pool p ars)%I _ _ (S (length bs)) with "[Ho Hp]").
  - iIntros (n b) "(%Hr & Ho & Hp)". iDestruct (pool_size with "Hp") as "[Hn Hx]". iSplitL "Hn"; [| done].
    iApply (size_ge_le with "Hn"). destruct Hr as [[_ ->] | (bs1 & bs2 & -> & _ & ->)]; [done |]. rewrite length_app. lia.
  - intros n b. iIntros "(%Hr & Ho & Hp)". destruct Hr as [[-> ->] | (bs1 & bs2 & Hbs & -> & ->)].
    + destruct (Z.ltb_spec ab (ab + (32 + total bs))); [| lia].
      iDestruct (pool_lead with "Hp") as "(_ & Hm & Hs & Hc & Hl & He & Hback)".
      wp_bind. iApply (wp_frame_wand with "[-]").
      { iApply (wp_audit_block _ _ _ _ 32 with "Ho Hs Hm"); [right; right; right; done | by split; [lia |] |].
        iIntros "Hm Hs". iApply ("Hback" with "Hm Hs Hc Hl He"). }
      iIntros (r) "(-> & Ho & Hp)". iDestruct (pool_lead with "Hp") as "(_ & Hm & Hs & Hc & Hl & He & Hback)".
      wp_bind. iApply (wp_B2NB with "Hs"). iIntros "Hs". wp_ret. iExists (length bs). iSplit; [iPureIntro; lia |].
      iSplit; [| iFrame "Ho"; iApply ("Hback" with "Hm Hs Hc Hl He")].
      iPureIntro. right. exists [], bs. split_and!; [done | unfold floor; simpl; lia | done].
    + destruct bs2 as [| [sz st] bs2].
      * rewrite app_nil_r in Hbs. subst bs1. unfold floor. replace (ab + (32 + total bs)) with (ab + 32 + total bs) by lia.
        rewrite Z.ltb_irrefl Z.eqb_refl. simpl.
        iDestruct (pool_lead with "Hp") as "(_ & Hm & Hs & Hc & Hl & He & Hback)". wp_get "He". wp_ret.
        iSplit; [done |]. iFrame "Ho". iApply ("Hback" with "Hm Hs Hc Hl He").
      * pose proof Hs as Hs'. rewrite Hbs in Hs'. apply Forall_app in Hs' as [Hs1 [Hsz Hs2]%Forall_cons]. simpl in Hsz.
        pose proof (total_nonneg _ Hs2). assert (total bs = total bs1 + (sz + total bs2)) as Htot by (rewrite Hbs total_app; done).
        destruct (Z.ltb_spec (floor ab + total bs1) (ab + (32 + total bs))) as [_ | Hge]; [| unfold floor in Hge; destruct Hsz; lia].
        unfold ars. rewrite Hbs. iDestruct (pool_block with "Hp") as (m) "(%Hm & Hw & Hs & Hback)".
        wp_bind. iApply (wp_frame_wand with "[-]").
        { iApply (wp_audit_block with "Ho Hs Hw Hback"); [naive_solver | done]. }
        iIntros (r) "(-> & Ho & Hp)". iDestruct (pool_block with "Hp") as (m') "(%Hm' & Hw & Hs & Hback)".
        wp_bind. iApply (wp_B2NB with "Hs"). iIntros "Hs". wp_ret. iExists (length bs2). iSplit; [iPureIntro; simpl; lia |].
        iSplit; [| iFrame "Ho"; iApply ("Hback" with "Hw Hs")].
        iPureIntro. right. exists (bs1 ++ [(sz, st)]), bs2. rewrite -(assoc_L (++)) total_app /=. split_and!; [done | lia | done].
  - iFrame. iPureIntro. by left.
Qed.

Lemma wp_audit_pool pnum p ars : own ∗ pool p ars ⊢
  wp (audit_pool audit pnum p) (fun r => ⌈r = None⌉ ∗ own ∗ pool p ars)%I.
Proof.
  iIntros "[Ho Hp]". unfold audit_pool. iAssert (⌜wfp p ars /\ chain p = start_of ars⌝)%I as %[Hwf Hch].
  { iDestruct "Hp" as "(% & _ & Hars & _)". iDestruct (arenas_top with "Hars") as %?. done. }
  rewrite (wf_quanta _ _ Hwf) Hch.
  iApply (wp_loop (fun n b => ⌈exists as1 as2, ars = as1 ++ as2 /\ b = start_of as2 /\ n = length as2⌉ ∗ own ∗ pool p ars)%I
    _ _ (length ars) with "[Ho Hp]").
  - iIntros (n b) "(%Hr & Ho & % & _ & Hars & _)". destruct Hr as (as1 & as2 & -> & _ & ->).
    iDestruct (arenas_size with "Hars") as "[Hn Hx]". iSplitL "Hn"; [| done]. iApply (size_ge_le with "Hn").
    rewrite length_app. lia.
  - intros n b. iIntros "(%Hr & Ho & Hp)". destruct Hr as (as1 & as2 & -> & -> & ->). destruct as2 as [| [ab bs] as2]; simpl.
    + wp_ret. by iFrame.
    + iDestruct (pool_lead with "Hp") as "(%Hab & Hm & Hs & Hc & Hl & He & Hback)".
      iDestruct ("Hback" with "Hm Hs Hc Hl He") as "Hp". destruct (Z.eqb_spec ab 0); [lia |].
      pose proof (wf_arenas _ _ Hwf) as Hok. apply Forall_app in Hok as [_ [[Hs _] _]%Forall_cons].
      wp_bind. iApply (wp_frame_wand with "[Ho Hp]"); [iApply wp_audit_arena; [done | by iFrame] |]. iIntros (r) "(-> & Ho & Hp)".
      iDestruct (pool_lead with "Hp") as "(_ & Hm & Hs & Hc & Hl & He & Hback)". wp_get "Hl". wp_ret.
      iExists (length as2). iSplit; [iPureIntro; lia |].
      iSplit; [| iFrame "Ho"; iApply ("Hback" with "Hm Hs Hc Hl He")]. iPureIntro. exists (as1 ++ [(ab, bs)]), as2.
      by rewrite -(assoc_L (++)).
  - iFrame. iPureIntro. by exists [], ars.
Qed.

(** All the pools of [table]. *)
Definition pools (ps : list (Z * Pool * list arena)) : hpropI Z := ([∗ list] x ∈ ps, pool x.1.2 x.2)%I.

Lemma wp_poolaudit ps : own ∗ pools ps ⊢ wp (poolaudit audit (map fst ps)) (fun r => ⌈r = None⌉ ∗ own ∗ pools ps)%I.
Proof.
  unfold pools. induction ps as [| [[pnum p] ars] ps IH]; simpl; iIntros "[Ho Hp]".
  - wp_ret. by iFrame.
  - iDestruct "Hp" as "[Hp Hps]". wp_bind. iApply (wp_frame_wand with "[Ho Hp]"); [iApply wp_audit_pool; by iFrame |].
    iIntros (r) "(-> & Ho & Hp)". iApply (wp_frame_wand with "[Ho Hps]"); [iApply IH; by iFrame |].
    iIntros (r) "(-> & Ho & Hps)". by iFrame.
Qed.
End Audit.

(** [auditscan] is such a check, when what it calls keeps its own tables. *)
Lemma auditscan_ok auditalloc auditfree pc own :
  (forall n pc b sz, block_size sz -> own ∗ w (b + size) sz ⊢ wp (auditalloc n pc b) (fun _ => own ∗ w (b + size) sz)) ->
  (forall n pc b sz, block_size sz -> own ∗ w (b + size) sz ⊢ wp (auditfree n pc b) (fun _ => own ∗ w (b + size) sz)) ->
  audit_ok (auditscan auditalloc auditfree pc) own.
Proof.
  intros Ha Hf n b m sz Hm Hsz. iIntros "(Ho & Hm & Hs)". unfold auditscan. wp_get "Hm". wp_bind.
  iApply (wp_frame_wand _ (fun _ => own ∗ w (b + size) sz)%I with "[Ho Hs]").
  - destruct Hm as [-> | [-> | [-> | ->]]]; simpl; [iApply Hf | iApply Ha | iApply Ha | wp_ret]; try done; by iFrame.
  - iIntros (r) "[Ho Hs]". wp_ret. by iFrame.
Qed.

(** ** [poolmax] *)

Section Max.

Lemma placed_sum a bs :
  sumz (map snd (used_in (placed a bs))) + sumz (map snd (free_in (placed a bs))) = total bs.
Proof.
  revert a. induction bs as [|[s [m|]] bs IH]; intros a; [done | |]; simpl in *; specialize (IH (a + s));
    unfold sumz in *; simpl; lia.
Qed.

Lemma held_free ars : held ars + sumz (map snd (free_in (blocks_of ars))) <= cost ars.
Proof.
  induction ars as [|ar ars IH]; [done |]. rewrite held_cons.
  change (blocks_of (ar :: ars)) with (placed (floor ar.1) ar.2 ++ blocks_of ars). rewrite free_in_app map_app sumz_app. simpl.
  pose proof (placed_sum (floor ar.1) ar.2). lia.
Qed.

Lemma sumz_elem l x : Forall (Z.le 0) l -> x ∈ l -> x <= sumz l.
Proof.
  intros Hl Hx. apply elem_of_Permutation in Hx as [l' E]. rewrite E. rewrite E in Hl. apply Forall_cons in Hl as [_ Hl].
  enough (0 <= sumz l') by (unfold sumz in *; simpl; lia). clear -Hl. induction Hl; unfold sumz in *; simpl; lia.
Qed.

Lemma free_bound p ars a n : wfp p ars -> (a, n) ∈ free_in (blocks_of ars) -> 0 <= n <= maxsize p - cursize p.
Proof.
  intros Hwf H. assert (forall a n, (a, n) ∈ free_in (blocks_of ars) -> 0 <= n) as Hpos.
  { intros a' n' Ha. destruct (free_block p ars a' n' Hwf Ha) as (_ & _ & _ & _ & _ & _ & _ & [? _] & _). lia. }
  pose proof (held_free ars). pose proof (wf_arenasize _ _ Hwf). pose proof (wf_cursize _ _ Hwf).
  assert (n <= sumz (map snd (free_in (blocks_of ars)))).
  { apply sumz_elem; [| apply list_elem_of_fmap; by exists (a, n)]. apply Forall_fmap, Forall_forall.
    intros [a' n'] Ha. exact (Hpos _ _ Ha). }
  specialize (Hpos _ _ H). lia.
Qed.

(** The way down to the right. *)
Lemma wp_rightmost p I e (Φ : Z -> hpropI Z) : e ∈ I ->
  frees (root p) I -∗ (∀ A s h ns, ⌈I = A ++ [(s, h :: ns)]⌉ -∗ frees (root p) I -∗ Φ h) -∗
  wp (loop (fun t => r ← get t right; if r =? 0 then mret (inr t) else mret (inl r)) (root p)) Φ.
Proof.
  iIntros (He) "(%T & <- & HT) HΦ".
  iApply (wp_loop (fun m t => ∃ c T' tp, ⌈plug c T' = T /\ m = height T' /\ after c = [] /\ T' <> Leaf⌉ ∗
      repc c (root p) 0 t tp ∗ rep T' t tp ∗
      (∀ A s h ns, ⌈inorder T = A ++ [(s, h :: ns)]⌉ -∗ frees (root p) (inorder T) -∗ Φ h))%I
    _ _ (height T) with "[-]").
  - iIntros (n t) "(%c & %T' & %tp & %E & _ & HT & _)". destruct E as (_ & -> & _). iApply (rep_height with "HT").
  - clear He. intros n t. iIntros "(%c & %T' & %tp & %E & Hc & HT & HΦ)". destruct E as (<- & -> & Haf & Hne).
    destruct T' as [| l h ns s r]; [done |]. clear Hne. simpl.
    iDestruct "HT" as "(-> & %lx & %rx & (%Hh & Hhs & Hhl & Hhr & Hhp & Hg & Hn) & HL & HR)". wp_get "Hhr".
    iAssert (⌜rx = 0 <-> r = Leaf⌝)%I as %Hrx.
    { destruct r as [| rl rh rns rs rr]; simpl; [iDestruct "HR" as %->; done |].
      iDestruct "HR" as "(-> & % & % & (%Hrh & _) & _)". iPureIntro. split; [lia | done]. }
    destruct (Z.eqb_spec rx 0) as [E | Hne].
    + apply Hrx in E as ->. wp_ret. iApply "HΦ".
      * iPureIntro. rewrite inorder_at Haf app_nil_r /=. by eexists.
      * iExists _. iSplit; [done |]. rewrite rep_plug. iExists h, tp. iFrame "Hc". simpl. iSplit; [done |].
        iExists lx, rx. iFrame. auto.
    + wp_ret. iExists (height r). iSplit; [iPureIntro; lia |]. iExists (FR l h ns s :: c), r, h. iFrame.
      iSplit; [iPureIntro; split_and!; try done; intros ->; by apply Hne, Hrx |]. auto.
  - iExists [], T, 0. iFrame. iSplit; [| done]. iPureIntro. split_and!; try done. intros ->. simpl in He. by apply not_elem_of_nil in He.
Qed.
End Max.

(** What the pool could still hold in one block, were it all in one piece. *)
Definition room_left (p : Pool) (ars : list arena) : Z := Z.max 0 (maxsize p - held ars - (BHDRSIZE + 31)).

Section Properties.

(** C29. [poolaudit], over all the pools of the table: when every pool has its
    invariant and the caller's own check, which may read the header it is given
    and use memory of its own, finds nothing, the audit returns nil and leaves
    the pools as they are; it ends, and reads nothing but the pools' memory. *)
Theorem poolaudit_passes audit own ps : audit_ok audit own ->
  own ∗ pools ps ⊢ wp (poolaudit audit (map fst ps)) (fun r => ⌈r = None⌉ ∗ own ∗ pools ps)%I.
Proof. intros H. by apply wp_poolaudit. Qed.

(** In the witness, what the check calls counts the blocks in use in a word of
    its own. *)
Definition counter : hpropI Z := (∃ k, w (8 + 0) k)%I.
Definition count (_ _ _ : Z) : M unit := k ← get 8 0; set 8 0 (k + 1).

Lemma poolaudit_passes_witness :
  let audit := auditscan count (fun _ _ _ => mret tt) 0 in
  audit_ok audit counter /\
  exists p ars h h', used_in (blocks_of ars) <> [] /\ holds (counter ∗ pools [(0, p, ars)])%I h /\
    poolaudit audit [(0, p)] h = Ok None h' /\ holds (counter ∗ pools [(0, p, ars)])%I h'.
Proof.
  intros audit. assert (audit_ok audit counter) as Hok.
  { apply auditscan_ok; intros n pc b sz _; iIntros "[(%k & Hk) Hs]"; [| wp_ret; iFrame; by iExists k].
    unfold count. wp_get "Hk". wp_set "Hk". iFrame "Hs". by iExists (k + 1). }
  split; [done |]. destruct small_pool as (p & ars & a & s & h & H & Ha).
  assert (holds (counter ∗ pools [(0, p, ars)])%I h) as Hh.
  { apply (entails_at (w 8 0 ∗ pool p ars ∗ dat a s)%I); [| done]. rewrite /pools /pool /=. change (w 8 0) with (w (8 + 0) 0).
    iIntros "(Hw & ($ & $ & $ & _) & _)". iSplitL; [by iExists 0 | done]. }
  destruct (wp_adequate _ _ _ h (poolaudit_passes audit counter [(0, p, ars)] Hok) Hh) as (r & h' & E & Hr).
  apply holds_pure in Hr as [-> Hr]. exists p, ars, h, h'. split_and!; try done. intros E0. rewrite E0 in Ha. by apply not_elem_of_nil in Ha.
Defined.

(** [poolmax] of a pool in order: it is what [maxsize] leaves besides the
    blocks in use, less the overhead of a block, and never negative.  The walk
    to the largest free block never changes the answer: a free block is part of
    what is left. *)
Theorem poolmax_value p ars : pool p ars ⊢ wp (poolmax p) (fun r =>
  ⌈r = room_left p ars⌉ ∗ pool p ars)%I.
Proof.
  iIntros "(%Hwf & (%I & [%HI %HF] & HI) & Hr)". unfold poolmax.
  pose proof (wf_cursize _ _ Hwf) as Hcur. pose proof (held_bounds _ (wf_arenas _ _ Hwf)).
  pose proof (wf_arenasize _ _ Hwf). pose proof (wf_maxsize _ _ Hwf). rewrite (wraps_id 32 (maxsize p - cursize p)); [| lia..].
  assert (forall k : M Z, wp k (fun sz => ⌈sz = maxsize p - cursize p⌉ ∗ pool p ars) ⊢
    wp (sz ← k; let sz := i32 (sz - BHDRSIZE - quanta p) in mret (if sz <? 0 then 0 else sz))
      (fun r => ⌈r = room_left p ars⌉ ∗ pool p ars)) as Hend.
  { intros k. iIntros "Hk". wp_bind. iApply (wp_frame_wand with "Hk"). iIntros (sz) "[-> Hp]". wp_ret.
    rewrite (wf_quanta _ _ Hwf). change BHDRSIZE with 16. rewrite wraps_id; [| lia..].
    iFrame. iPureIntro. unfold room_left. change BHDRSIZE with 16. destruct (Z.ltb_spec (maxsize p - cursize p - 16 - 31) 0); lia. }
  iApply Hend. clear Hend. destruct (Z.eqb_spec (root p) 0) as [Hr | Hr]; simpl.
  - wp_ret. iSplit; [done |]. iSplit; [done |]. iFrame "Hr". iExists I. by iFrame.
  - iAssert (⌜I <> []⌝)%I as %Hne.
    { iDestruct "HI" as (T) "[%HT HT]". destruct T as [| l h ns s r]; simpl; [by iDestruct "HT" as %? |].
      iPureIntro. subst I. simpl. intros E. by destruct (inorder l). }
    destruct I as [|e I']; [done |].
    wp_bind. iApply (wp_rightmost with "HI"); [by left |]. iIntros (A s h ns) "%EI HI". rewrite EI.
    assert ((h, s) ∈ free_in (blocks_of ars)) as Hin by (rewrite -HF EI flat_app flat_cons; set_solver).
    destruct (free_bound _ _ _ _ Hwf Hin) as [Hs1 Hs2].
    iDestruct (frees_size _ _ _ [] with "HI") as "[Hs HI]". wp_get "Hs". wp_ret. iDestruct ("HI" with "Hs") as "HI".
    rewrite wrapu_id; [| lia]. iSplit; [iPureIntro; destruct (Z.ltb_spec (maxsize p - cursize p) s); [lia | done] |].
    iSplit; [done |]. iFrame "Hr". iExists _. iFrame. iPureIntro. by rewrite -EI.
Qed.
End Properties.
