(* ===== verification/Gc.v ===== *)
(** * The garbage collector

    The heap of the virtual machine ([src/interp/heap.c], [src/interp/gc.c]):
    objects with counts of references and colours, freed when their count drops
    to zero or when the collector, which marks and sweeps a few blocks at a
    time between instructions, finds that nothing leads to them.  The roots are
    the stacks of the processes, the data of modules and the pointers that C
    code has registered.

    An object is known by the address of its block.  Memory is the words of an
    object; the map of a type tells which of them are pointers.  The blocks
    themselves belong to the pool [heapmem] and are its arenas ([PoolArena]),
    with allocation and freeing as an interface ([HeapPool]).  The collector
    comes back to an address it has kept, and takes what is there for a header
    if one of its words is right ([okbhdr]): [stale] has the words that look like
    a header where no block begins any more, which programs can have put there.  Counts are taken
    not to wrap.  Type descriptors are values: their own counts are not kept. *)

From S2P Require Import Prelude Heap Pool PoolArena.

#[local] Open Scope Z_scope.

(** ** What the pool does to its blocks *)

(** [a] is the block handed out. *)
Inductive alloc_step : list arena -> Z -> list arena -> Prop :=
  | alloc_cut as1 ab bs1 n bs2 as2 s rest :
      s + total rest = n -> 0 < s -> Forall (fun b : block => 0 < b.1 /\ b.2 = None) rest ->
      alloc_step (as1 ++ (ab, bs1 ++ (n, None) :: bs2) :: as2) (floor ab + total bs1)
        (as1 ++ (ab, bs1 ++ (s, Some Pool.MAGIC_A) :: rest ++ bs2) :: as2)
  | alloc_arena ars u s rest :
      0 < s -> Forall (fun b : block => 0 < b.1 /\ b.2 = None) rest -> 0 < u ->
      Forall (fun ar => ceiling ar < u \/ floor u + s + total rest < ar.1) ars ->
      alloc_step ars (floor u) ((u, (s, Some Pool.MAGIC_A) :: rest) :: ars).

(** The blocks before and behind a block that is freed, and what is joined. *)
Definition before_free (bs : list block) : list block * Z :=
  match last bs with Some (n, None) => (removelast bs, n) | _ => (bs, 0) end.
Definition behind_free (bs : list block) : Z * list block :=
  match bs with (n, None) :: bs => (n, bs) | _ => (0, bs) end.
Definition joined (bs1 : list block) (n : Z) (bs2 : list block) : list block :=
  let '(bs1, p) := before_free bs1 in let '(q, bs2) := behind_free bs2 in bs1 ++ (p + n + q, None) :: bs2.

Inductive free_step : list arena -> Z -> list arena -> Prop :=
  | free_block_step as1 ab bs1 n m bs2 as2 :
      free_step (as1 ++ (ab, bs1 ++ (n, Some m) :: bs2) :: as2) (floor ab + total bs1)
        (as1 ++ (ab, joined bs1 n bs2) :: as2).

(** [poolalloc] and [poolfree] of [heapmem]. *)
Class HeapPool := {
  palloc : list arena -> Z -> option (list arena * Z);
  pfree : list arena -> Z -> list arena;
  palloc_step ars n ars' a : palloc ars n = Some (ars', a) -> alloc_step ars a ars';
  pfree_step ars a n : (a, n) ∈ used_in (blocks_of ars) -> free_step ars a (pfree ars a);
}.

Module Gc.

(** ** Data *)

(** A word of memory: a pointer, [H] being [None], or anything else. *)
Inductive val := Word (z : Z) | Ptr (p : option Z).

(** [np] is the length of the map, [size] in bytes. *)
Record Type_ := MkType { size : Z; tmap : list Z }.

Record Array := MkArray { len : Z; a_t : Type_; root : option Z; off : Z; a_data : list val }.
Record List_ := MkList { tail : option Z; l_t : option Type_; l_data : list val }.

(** What the type of an object makes of it: none yet; a record, freed by
    [freeheap] and marked by [markheap]; [Tstring]; [Tarray]; [Tlist]. *)
Inductive body := Raw | Data (t : Type_) (ws : list val) | Str | Arr (a : Array) | Lst (l : List_).

Record Heap := MkHeap { color : Z; ref : Z; obj : body }.

Record Frame := MkFrame { f_t : option Type_; mr : option Z; f_mem : list val }.
(** A piece of stack; the type of its first frame. *)
Record Stkext := MkStkext { TR : Type_; fr : list Frame }.
(** The stack from its top down; exceptions' pointers. *)
Record Prog := MkProg { R_M : Z; EX : list Stkext; exsp : list (option Z) }.

Record gc := MkGc {
  objs : gmap Z Heap;
  heapmem : list arena;
  progs : list Prog;
  origmps : list (option Z);
  ptrtab : list (list Z);
  mutator : Z;
  marker : Z;
  sweeper : Z;
  gccolor : Z;
  nprop : Z;
  gchalt : Z;
  visit : Z;
  base : option Z;
  ptr_ : Z;
  limit : Z;
  stale : gmap Z (Z * Z);
}.

Definition propagator := 3.
Definition Quanta := 50.
Definition sizeof_Heap := 12.
Definition sizeof_Array := 16.
Definition sizeof_List := 24.

Definition set_objs v g := MkGc v (heapmem g) (progs g) (origmps g) (ptrtab g) (mutator g) (marker g) (sweeper g) (gccolor g) (nprop g) (gchalt g) (visit g) (base g) (ptr_ g) (limit g) (stale g).
Definition set_heapmem v g := MkGc (objs g) v (progs g) (origmps g) (ptrtab g) (mutator g) (marker g) (sweeper g) (gccolor g) (nprop g) (gchalt g) (visit g) (base g) (ptr_ g) (limit g) (stale g).
Definition set_progs v g := MkGc (objs g) (heapmem g) v (origmps g) (ptrtab g) (mutator g) (marker g) (sweeper g) (gccolor g) (nprop g) (gchalt g) (visit g) (base g) (ptr_ g) (limit g) (stale g).
Definition set_ptrtab v g := MkGc (objs g) (heapmem g) (progs g) (origmps g) v (mutator g) (marker g) (sweeper g) (gccolor g) (nprop g) (gchalt g) (visit g) (base g) (ptr_ g) (limit g) (stale g).
Definition set_colors m k s g := MkGc (objs g) (heapmem g) (progs g) (origmps g) (ptrtab g) m k s (gccolor g) (nprop g) (gchalt g) (visit g) (base g) (ptr_ g) (limit g) (stale g).
Definition set_gccolor v g := MkGc (objs g) (heapmem g) (progs g) (origmps g) (ptrtab g) (mutator g) (marker g) (sweeper g) v (nprop g) (gchalt g) (visit g) (base g) (ptr_ g) (limit g) (stale g).
Definition set_nprop v g := MkGc (objs g) (heapmem g) (progs g) (origmps g) (ptrtab g) (mutator g) (marker g) (sweeper g) (gccolor g) v (gchalt g) (visit g) (base g) (ptr_ g) (limit g) (stale g).
Definition set_gchalt v g := MkGc (objs g) (heapmem g) (progs g) (origmps g) (ptrtab g) (mutator g) (marker g) (sweeper g) (gccolor g) (nprop g) v (visit g) (base g) (ptr_ g) (limit g) (stale g).
Definition set_visit v g := MkGc (objs g) (heapmem g) (progs g) (origmps g) (ptrtab g) (mutator g) (marker g) (sweeper g) (gccolor g) (nprop g) (gchalt g) v (base g) (ptr_ g) (limit g) (stale g).
Definition set_walk b p l g := MkGc (objs g) (heapmem g) (progs g) (origmps g) (ptrtab g) (mutator g) (marker g) (sweeper g) (gccolor g) (nprop g) (gchalt g) (visit g) b p l (stale g).
Definition set_stale v g := MkGc (objs g) (heapmem g) (progs g) (origmps g) (ptrtab g) (mutator g) (marker g) (sweeper g) (gccolor g) (nprop g) (gchalt g) (visit g) (base g) (ptr_ g) (limit g) v.

(** ** The machine's monad *)

Inductive exn := exNilref | exBounds | exHeap | exNegsize | exModule | exDone.

Inductive result (A : Type) :=
  | Ret (a : A) (g : gc)
  | Raise (e : exn) (g : gc)
  | Fault.
Arguments Ret {A} a g.
Arguments Raise {A} e g.
Arguments Fault {A}.

Definition M (A : Type) : Type := gc -> result A.

#[export] Instance m_ret : MRet M := fun A a g => Ret a g.
#[export] Instance m_bind : MBind M := fun A B k m g =>
  match m g with Ret a g => k a g | Raise e g => Raise e g | Fault => Fault end.

Definition error {A} (e : exn) : M A := fun g => Raise e g.
Definition fault {A} : M A := fun _ => Fault.
Definition getg {A} (f : gc -> A) : M A := fun g => Ret (f g) g.
Definition modify (f : gc -> gc) : M unit := fun g => Ret tt (f g).
Definition from {A} (o : option A) : M A := match o with Some a => mret a | None => fault end.

Fixpoint forM {A} (xs : list A) (f : A -> M unit) : M unit :=
  match xs with [] => mret tt | x :: xs => f x;; forM xs f end.

(** [D2H], an object that is there. *)
Definition heap_at (h : Z) : M Heap := fun g => match objs g !! h with Some o => Ret o g | None => Fault end.
Definition set_heap (h : Z) (o : Heap) : M unit := modify (fun g => set_objs (<[h := o]> (objs g)) g).
Definition set_color c o := MkHeap c (ref o) (obj o).
Definition set_ref n o := MkHeap (color o) n (obj o).
Definition set_obj b o := MkHeap (color o) (ref o) b.
Definition mod_heap (h : Z) (f : Heap -> Heap) : M unit := o ← heap_at h; set_heap h (f o).

(** ** Maps of pointers *)

(** The bits of a byte of a map, from the left. *)
Definition bits (c : Z) : list nat := filter (fun k => Z.testbit c (7 - Z.of_nat k) = true) (seq 0 8).
Fixpoint slots_at (i : nat) (m : list Z) : list nat :=
  match m with [] => [] | c :: m => map (Nat.add i) (bits c) ++ slots_at (i + 8) m end.
Fixpoint slots_down_at (i : nat) (m : list Z) : list nat :=
  match m with [] => [] | c :: m => map (Nat.add i) (reverse (bits c)) ++ slots_down_at (i + 8) m end.
Definition slots (t : Type_) : list nat := slots_at 0 (tmap t).
Definition slots_down (t : Type_) : list nat := slots_down_at 0 (tmap t).

(** The pointer in a slot. *)
Definition ptr_in (ws : list val) (k : nat) : M (option Z) :=
  v ← from (ws !! k); match v with Ptr p => mret p | Word _ => fault end.
Definition each_ptr (ks : list nat) (ws : list val) (f : Z -> M unit) : M unit :=
  forM ks (fun k => p ← ptr_in ws k; match p with Some h => f h | None => mret tt end).

(** [initmem]: [H] in every slot; the other words keep what they held, which is
    of no account. *)
Definition initmem (t : Type_) (ws : list val) : list val := fold_left (fun ws k => <[k := Ptr None]> ws) (slots_down t) ws.
Definition words (n : Z) : list val := replicate (Z.to_nat (n / 4)) (Word 0).

(** ** Marking *)

Definition Setmark (h : Z) : M unit :=
  o ← heap_at h;
  m ← getg mutator;
  if color o =? m then mret tt
  else set_heap h (set_color propagator o);; modify (set_nprop 1).

Definition Setmark_opt (p : option Z) : M unit := match p with Some h => Setmark h | None => mret tt end.

Definition noptrs (t : Type_) (ws : list val) : M unit := mret tt.

Definition markheap (t : option Type_) (ws : list val) : M unit :=
  match t with
  | None => mret tt
  | Some t => if (zlen (tmap t) =? 0) then mret tt else each_ptr (slots t) ws Setmark
  end.

(** [a->data + i*t->size] *)
Definition elem (a : Array) (i : nat) : M (list val) :=
  ws ← match root a with
       | None => mret (a_data a)
       | Some r => o ← heap_at r; match obj o with Arr b => mret (a_data b) | _ => fault end
       end;
  mret (take (Z.to_nat (size (a_t a) / 4)) (drop (Z.to_nat ((off a + Z.of_nat i * size (a_t a)) / 4)) ws)).

Definition markarray (a : Array) : M unit :=
  Setmark_opt (root a);;
  if zlen (tmap (a_t a)) =? 0 then mret tt
  else forM (seq 0 (Z.to_nat (len a))) (fun i => ws ← elem a i; markheap (Some (a_t a)) ws).

Definition list_at (h : Z) : M List_ := o ← heap_at h; match obj o with Lst l => mret l | _ => fault end.

(** [n] is [visit]. *)
Fixpoint marktail (n : nat) (l : List_) : M unit :=
  match n with
  | S n =>
      match tail l with
      | None => mret tt
      | Some h =>
          l ← list_at h;
          Setmark h;;
          markheap (l_t l) (l_data l);;
          modify (fun g => set_visit (visit g - 1) g);;
          marktail n l
      end
  | O =>
      match tail l with
      | Some h => mod_heap h (set_color propagator);; modify (set_nprop 1)
      | None => mret tt
      end
  end.

Definition marklist (l : List_) : M unit :=
  markheap (l_t l) (l_data l);;
  v ← getg visit;
  marktail (Z.to_nat v) l.

(** [t->mark(t, v)] *)
Definition mark (b : body) : M unit :=
  match b with
  | Raw => mret tt
  | Data t ws => markheap (Some t) ws
  | Str => noptrs (MkType 0 []) []
  | Arr a => markarray a
  | Lst l => marklist l
  end.

(** ** Headers *)

(** The header of the leader of an arena or of a block: its size and its magic. *)
Definition header (ars : list arena) (a : Z) : option (Z * Z) :=
  if existsb (fun ar => ar.1 =? a) ars then Some (32, Pool.MAGIC_E)
  else
    match filter (fun x => x.1 = a) (blocks_of ars) with
    | (_, (n, st)) :: _ => Some (n, default Pool.MAGIC_F st)
    | [] => None
    end.

(** The words at an address, taken for a header: [stale] has those that are
    found where no block begins. *)
Definition words_at (g : gc) (a : Z) : option (Z * Z) :=
  match header (heapmem g) a with Some hd => Some hd | None => stale g !! a end.
Definition okbhdr (g : gc) (p : Z) : bool :=
  match words_at g p with
  | Some (_, m) => (m =? Pool.MAGIC_A) || (m =? Pool.MAGIC_F) || (m =? Pool.MAGIC_E) || (m =? Pool.MAGIC_I)
  | None => false
  end.

(** ** Freeing *)

Section Pool.
Context `{HeapPool}.

(** The pool clears the magic of a header that it joins to the block before. *)
Definition poolfree (h : Z) : M unit :=
  heap_at h;;
  modify (fun g => set_stale (filter (fun x => header (heapmem g) x.1 = None) (stale g)) g);;
  modify (fun g => set_heapmem (pfree (heapmem g) h) (set_objs (delete h (objs g)) g)).

Section Free.
(** [destroy], of what is pointed to. *)
Context (d : option Z -> M unit).

Definition freeptrs (ws : list val) (t : Type_) : M unit := each_ptr (slots_down t) ws (fun h => d (Some h)).

Definition freestring : M unit := mret tt.

Definition freearray (a : Array) (swept : bool) : M unit :=
  if swept then mret tt
  else match root a with
       | Some r => d (Some r)
       | None =>
           if zlen (tmap (a_t a)) =? 0 then mret tt
           else forM (seq 0 (Z.to_nat (len a))) (fun i => ws ← elem a i; freeptrs ws (a_t a))
       end.

Definition freedata (l : List_) : M unit :=
  match l_t l with Some t => if zlen (tmap t) =? 0 then mret tt else freeptrs (l_data l) t | None => mret tt end.

(** The rest of a list, as long as it has no other user. *)
Fixpoint freetail (n : nat) (p : option Z) : M unit :=
  match p with
  | None => mret tt
  | Some th =>
      match n with
      | O => fault
      | S n =>
          o ← heap_at th;
          l ← list_at th;
          set_heap th (set_ref (ref o - 1) o);;
          if negb (ref o =? 1) then mret tt
          else
            freedata l;;
            poolfree th;;
            freetail n (tail l)
      end
  end.

Definition freelist (l : List_) (swept : bool) : M unit :=
  if swept then mret tt
  else
    freedata l;;
    n ← getg (fun g => Datatypes.S (base.size (objs g)));
    freetail n (tail l).

Definition freeheap (t : Type_) (ws : list val) (swept : bool) : M unit :=
  if swept then mret tt else if zlen (tmap t) =? 0 then mret tt else freeptrs ws t.

(** [t->free(h, swept)] *)
Definition tfree (b : body) (swept : bool) : M unit :=
  match b with
  | Raw => mret tt
  | Data t ws => freeheap t ws swept
  | Str => freestring
  | Arr a => freearray a swept
  | Lst l => freelist l swept
  end.
End Free.

Definition gclock : M unit := modify (fun g => set_gchalt (gchalt g + 1) g).
Definition gcunlock : M unit := modify (fun g => set_gchalt (gchalt g - 1) g).

(** [n] bounds the depth of the recursion, which [gchalt] counts. *)
Fixpoint destroy_ (n : nat) (v : option Z) : M unit :=
  match v with
  | None => mret tt
  | Some h =>
      match n with
      | O => fault
      | S n =>
          o ← heap_at h;
          set_heap h (set_ref (ref o - 1) o);;
          halt ← getg gchalt;
          if (0 <? ref o - 1) || (64 <? halt) then mret tt
          else
            match obj o with
            | Raw => mret tt
            | b => gclock;; tfree (destroy_ n) b false;; gcunlock
            end;;
            poolfree h
      end
  end.
Definition destroy : option Z -> M unit := destroy_ 66.

(** ** The collector *)

(** The pointers that C code holds, hashed by address; a bucket is a list. *)
Definition HASHPTR (h : Z) : nat := Z.to_nat (Z.land (Z.shiftr (h + 8) 6) 31).

Definition ptradd (h : Z) : M unit := modify (fun g => set_ptrtab (alter (cons h) (HASHPTR h) (ptrtab g)) g).

Fixpoint remove_first (h : Z) (l : list Z) : option (list Z) :=
  match l with
  | [] => None
  | x :: l => if x =? h then Some l else l ← remove_first h l; Some (x :: l)
  end.
Definition ptrdel (h : Z) : M unit :=
  t ← getg ptrtab;
  b ← from (t !! HASHPTR h);
  b ← from (remove_first h b);
  modify (set_ptrtab (<[HASHPTR h := b]> t)).

Definition ptrmark : M unit := t ← getg ptrtab; forM t (fun b => forM b Setmark).

(** [ml->MP] *)
Definition modlink_MP (ml : Z) : M (option Z) :=
  o ← heap_at ml; match obj o with Data _ ws => ptr_in ws 0 | _ => fault end.

Definition mark_module (ml : Z) : M unit := Setmark ml;; mp ← modlink_MP ml; Setmark_opt mp.

Definition mark_frame (tr : Type_) (f : Frame) : M unit :=
  markheap (Some (default tr (f_t f))) (f_mem f);;
  match mr f with Some ml => mark_module ml | None => mret tt end.

Definition mark_prog (p : Prog) : M unit :=
  mark_module (R_M p);;
  forM (EX p) (fun sx => forM (fr sx) (mark_frame (TR sx)));;
  forM (exsp p) Setmark_opt.

Definition rootset (root : list Prog) : M unit :=
  modify (fun g => set_colors (Z.rem (gccolor g) 3) (Z.rem (i32 (gccolor g - 1)) 3) (Z.rem (i32 (gccolor g - 2)) 3) g);;
  forM root mark_prog;;
  ms ← getg origmps;
  forM ms Setmark_opt;;
  ptrmark.

(** [base->clink], and the limit of an arena. *)
Fixpoint next_arena (ars : list arena) (b : Z) : option Z :=
  match ars with
  | [] => None
  | ar :: ars => if ar.1 =? b then ar' ← head ars; Some ar'.1 else next_arena ars b
  end.
Definition B2LIMIT (ars : list arena) (b : Z) : option Z :=
  match filter (fun ar => ar.1 = b) ars with ar :: _ => Some (ceiling ar) | [] => None end.

Definition walk_from (b : Z) : M unit :=
  l ← getg (fun g => B2LIMIT (heapmem g) b);
  l ← from l;
  modify (set_walk (Some b) b l).

(** [ptr = B2NB(ptr)], on to the next arena at the end of one. *)
Definition advance (n : Z) : M unit :=
  modify (fun g => set_walk (base g) (ptr_ g + n) (limit g) g);;
  p ← getg ptr_;
  l ← getg limit;
  if l <=? p then
    b ← getg base;
    b ← from b;
    nb ← getg (fun g => next_arena (heapmem g) b);
    match nb with
    | None => modify (fun g => set_walk None (ptr_ g) (limit g) g)
    | Some b => walk_from b
    end
  else mret tt.

(** A block is visited: an object that is grey is blackened, and what it refers
    to marked; one of the colour [sweeper] is freed. *)
Definition visit_block (p m : Z) : M bool :=
  if m =? Pool.MAGIC_A then
    o ← heap_at p;
    mu ← getg mutator;
    sw ← getg sweeper;
    if color o =? propagator then
      set_heap p (set_color mu o);;
      mark (obj o);;
      mret false
    else if color o =? sw then
      match obj o with Raw => mret tt | b => gclock;; tfree destroy b true;; gcunlock end;;
      poolfree p;;
      mret true
    else mret false
  else mret false.

(** The steps of the loop of [rungc]; the result is false when the walk is
    given up. *)
Fixpoint sweep (fuel : nat) (prev : option Z) : M bool :=
  match fuel with
  | O => mret true
  | S fuel =>
      v ← getg visit;
      if v <=? 0 then mret true
      else
        p ← getg ptr_;
        hd ← getg (fun g => words_at g p);
        '(n, m) ← from hd;
        swept ← visit_block p m;
        if swept : bool then
          pv ← getg (fun g => pv ← prev; if okbhdr g pv then Some pv else None);
          match pv with
          | None => modify (fun g => set_walk None (ptr_ g) (limit g) g);; mret false
          | Some pv =>
              modify (fun g => set_walk (base g) pv (limit g) g);;
              modify (fun g => set_visit (visit g - 1) g);;
              sweep fuel prev
          end
        else
          advance n;;
          b ← getg base;
          match b with
          | None => mret true
          | Some _ =>
              modify (fun g => set_visit (visit g - 1) g);;
              sweep fuel (Some p)
          end
  end.

Definition rungc : M unit :=
  halt ← getg gchalt;
  if negb (halt =? 0) then mret tt
  else
    b ← getg base;
    match b with
    | None => h ← getg (fun g => head (heapmem g)); ar ← from h; walk_from ar.1
    | Some _ => mret tt
    end;;
    ok ← getg (fun g => okbhdr g (ptr_ g));
    match ok with
    | false => modify (fun g => set_walk None (ptr_ g) (limit g) g)
    | true =>
        modify (set_visit Quanta);;
        ok ← sweep (Z.to_nat Quanta) None;
        if negb ok then mret tt
        else
          b ← getg base;
          match b with
          | Some _ => mret tt
          | None =>
              np ← getg nprop;
              if np =? 0 then
                modify (fun g => set_gccolor (i32 (gccolor g + 1)) g);;
                ps ← getg progs;
                rootset ps
              else modify (set_nprop 0)
          end
    end.

(** What the idle loop runs, for [n] rounds at most: after that something else
    wants to run. *)
Fixpoint idle (n : nat) (done : Z) : M unit :=
  match n with
  | O => mret tt
  | S n =>
      c ← getg gccolor;
      halt ← getg gchalt;
      if (c <? done) && (halt =? 0) then rungc;; idle n done else mret tt
  end.
Definition execatidle (n : nat) : M unit := c ← getg gccolor; idle n (i32 (c + 3)).

(** ** Objects, and the instructions that move pointers *)

Definition nheap (n : Z) : M Z :=
  r ← getg (fun g => palloc (heapmem g) (sizeof_Heap + n));
  match r with
  | None => error exHeap
  | Some (ars, h) =>
      modify (fun g => set_heapmem ars (set_objs (<[h := MkHeap (mutator g) 1 Raw]> (objs g)) g));;
      mret h
  end.

Definition heap (t : Type_) : M Z :=
  h ← nheap (size t);
  mod_heap h (set_obj (Data t (initmem t (words (size t)))));;
  mret h.

(** Where a pointer may be kept: a word of a frame, of a record, of an array,
    of the head of a list; the tail of a list. *)
Inductive slot :=
  | FrameW (p e f k : nat)
  | DataW (h : Z) (k : nat)
  | ElemW (h : Z) (k : nat)
  | ListW (h : Z) (k : nat)
  | TailW (h : Z).

Definition prog (p : nat) : M Prog := ps ← getg progs; from (ps !! p).
Definition set_prog (p : nat) (pr : Prog) : M unit := modify (fun g => set_progs (<[p := pr]> (progs g)) g).

(** The array whose memory holds the elements of [a], and the word of it. *)
Definition owner (h : Z) (a : Array) (k : nat) : Z * nat := (default h (root a), (Z.to_nat (off a / 4) + k)%nat).

Definition array_at (h : Z) : M Array := o ← heap_at h; match obj o with Arr a => mret a | _ => fault end.

Definition getw (s : slot) : M (option Z) :=
  match s with
  | FrameW p e f k => pr ← prog p; sx ← from (EX pr !! e); fr ← from (fr sx !! f); ptr_in (f_mem fr) k
  | DataW h k => o ← heap_at h; match obj o with Data _ ws => ptr_in ws k | _ => fault end
  | ElemW h k => a ← array_at h; let '(r, k) := owner h a k in b ← array_at r; ptr_in (a_data b) k
  | ListW h k => l ← list_at h; ptr_in (l_data l) k
  | TailW h => l ← list_at h; mret (tail l)
  end.

Definition set_mem f ws := MkFrame (f_t f) (mr f) ws.
Definition set_mr f m := MkFrame (f_t f) m (f_mem f).
Definition set_data a ws := MkArray (len a) (a_t a) (root a) (off a) ws.

Definition setw (s : slot) (v : option Z) : M unit :=
  match s with
  | FrameW p e f k =>
      pr ← prog p; sx ← from (EX pr !! e); fm ← from (fr sx !! f);
      ptr_in (f_mem fm) k;;
      set_prog p (MkProg (R_M pr) (<[e := MkStkext (TR sx) (<[f := set_mem fm (<[k := Ptr v]> (f_mem fm))]> (fr sx))]> (EX pr)) (exsp pr))
  | DataW h k =>
      o ← heap_at h;
      match obj o with Data t ws => ptr_in ws k;; set_heap h (set_obj (Data t (<[k := Ptr v]> ws)) o) | _ => fault end
  | ElemW h k =>
      a ← array_at h; let '(r, k) := owner h a k in
      o ← heap_at r;
      match obj o with Arr b => ptr_in (a_data b) k;; set_heap r (set_obj (Arr (set_data b (<[k := Ptr v]> (a_data b)))) o) | _ => fault end
  | ListW _ _ | TailW _ => fault
  end.

(** [h->ref++; Setmark(h)] *)
Definition addref (p : option Z) : M unit :=
  match p with Some h => mod_heap h (fun o => set_ref (ref o + 1) o);; Setmark h | None => mret tt end.

Definition movp (s d : slot) : M unit :=
  sv ← getw s;
  addref sv;;
  dv ← getw d;
  setw d sv;;
  destroy dv.

Definition new (t : Type_) (d : slot) : M unit :=
  h ← heap t;
  v ← getw d;
  setw d (Some h);;
  destroy v.

Definition acheck (tsz sz : Z) : M unit :=
  if sz <? 0 then error exNegsize
  else if i32 (sizeof_Array + sizeof_Heap + tsz * sz) <? sz then error exHeap
  else mret tt.

(** [initarray] *)
Fixpoint initelems (n : nat) (t : Type_) (ws : list val) : list val :=
  match n with
  | O => ws
  | S n => let w := Z.to_nat (size t / 4) in initmem t (take w ws) ++ initelems n t (drop w ws)
  end.

(** Where the product has wrapped the array is longer than its memory. *)
Definition newa (t : Type_) (sz : Z) (d : slot) : M unit :=
  acheck (size t) sz;;
  let n := i32 (size t * sz) in
  h ← nheap (sizeof_Array + n);
  (if n <? size t * sz then fault else mret tt);;
  mod_heap h (set_obj (Arr (MkArray sz t None 0
    (let ws := words n in if zlen (tmap t) =? 0 then ws else initelems (Z.to_nat sz) t ws))));;
  v ← getw d;
  setw d (Some h);;
  destroy v.

Definition cons_ (n : Z) (lp : slot) : M Z :=
  h ← nheap (sizeof_List + n);
  lv ← getw lp;
  Setmark_opt lv;;
  mod_heap h (set_obj (Lst (MkList lv None (words n))));;
  setw lp (Some h);;
  mret h.

Definition Tptr := MkType 4 [128].

Definition consw (x : Z) (d : slot) : M unit :=
  h ← cons_ 4 d;
  l ← list_at h;
  mod_heap h (set_obj (Lst (MkList (tail l) (l_t l) [Word x]))).

Definition consp (s d : slot) : M unit :=
  h ← cons_ 4 d;
  sv ← getw s;
  addref sv;;
  l ← list_at h;
  mod_heap h (set_obj (Lst (MkList (tail l) (Some Tptr) [Ptr sv]))).

(** A nil list is a nil dereference, a trap of the host. *)
Definition list_of (s : slot) : M Z := p ← getw s; match p with Some h => mret h | None => error exNilref end.
Definition headp (s d : slot) : M unit := h ← list_of s; movp (ListW h 0) d.
Definition tail_ (s d : slot) : M unit := h ← list_of s; movp (TailW h) d.

Definition slicea (start v : Z) (d : slot) : M unit :=
  let n := i32 (v - start) in
  p ← getw d;
  match p with
  | None => if n =? 0 then mret tt else error exNilref
  | Some ds =>
      a ← array_at ds;
      if (n <? 0) || (len a <? u32 start) || (len a <? u32 v) then error exBounds
      else
        h ← nheap sizeof_Array;
        let ss r := MkArray n (a_t a) (Some r) (off a + start * size (a_t a)) [] in
        match root a with
        | Some r =>
            mod_heap r (fun o => set_ref (ref o + 1) o);;
            at_ ← getw d;
            setw d (Some h);;
            mod_heap h (set_obj (Arr (ss r)));;
            destroy at_;;
            Setmark r
        | None =>
            mod_heap h (set_obj (Arr (ss ds)));;
            setw d (Some h);;
            Setmark ds
        end
  end.

(** A new frame; where the stack is full [extend] adds a piece. *)
Definition frame (p : nat) (t : Type_) (full : bool) : M unit :=
  pr ← prog p;
  let ws := initmem t (words (size t)) in
  ex ← (if full then mret (MkStkext t [MkFrame None None ws] :: EX pr)
        else match EX pr with
             | sx :: ex => mret (MkStkext (TR sx) (fr sx ++ [MkFrame (Some t) None ws]) :: ex)
             | [] => fault
             end);
  set_prog p (MkProg (R_M pr) ex (exsp pr)).

(** The top frame of a stack, and the stack without it. *)
Definition pop (ex : list Stkext) : option (Type_ * Frame * list Stkext) :=
  match ex with
  | sx :: ex =>
      f ← last (fr sx);
      Some (default (TR sx) (f_t f), f,
            match f_t f with None => ex | Some _ => MkStkext (TR sx) (removelast (fr sx)) :: ex end)
  | [] => None
  end.

(** Of a module that is compiled or interpreted, not a built-in one. *)
Definition mcall (p : nat) (d : slot) : M unit :=
  o ← getw d;
  match o with
  | None => error exModule
  | Some ml =>
      pr ← prog p;
      match EX pr with
      | sx :: ex =>
          f ← from (last (fr sx));
          set_prog p (MkProg ml (MkStkext (TR sx) (removelast (fr sx) ++ [set_mr f (Some (R_M pr))]) :: ex) (exsp pr));;
          mod_heap ml (fun o => set_ref (ref o + 1) o)
      | [] => fault
      end
  end.

(** The bottom frame is left to the end of the process.  [R_M] is set before the
    module that is left is let go of: nothing runs in between. *)
Definition ret (p : nat) : M unit :=
  pr ← prog p;
  '(t, f, ex) ← from (pop (EX pr));
  if (length ex =? 0)%nat then error exDone else
  set_prog p (MkProg (default (R_M pr) (mr f)) ex (exsp pr));;
  (if zlen (tmap t) =? 0 then mret tt else freeptrs destroy (f_mem f) t);;
  match mr f with Some _ => destroy (Some (R_M pr)) | None => mret tt end.

End Pool.

End Gc.
