(* ===== verification/GcPool.v ===== *)
(** * The garbage collector: the blocks it walks

    The arenas of the pool hold an object in every block in use; what allocating
    and freeing do to them, and the walk from header to header. *)

From S2P Require Import Prelude Heap Pool PoolArena Gc.
Import Gc.

#[local] Open Scope Z_scope.

(** ** The blocks of the pool *)

Fixpoint apart (ars : list arena) : Prop :=
  match ars with
  | [] => True
  | ar :: ars => Forall (fun ar' => ceiling ar < ar'.1 \/ ceiling ar' < ar.1) ars /\ apart ars
  end.

(** Blocks have sizes, arenas are apart; what is in use is an object. *)
Record pool_ok (objs : gmap Z Heap) (ars : list arena) : Prop := {
  pool_sizes : Forall (fun ar => Forall (fun b : block => 0 < b.1) ar.2) ars;
  pool_apart : apart ars;
  pool_objs : forall x, is_Some (objs !! x) <-> exists n, (x, (n, Some Pool.MAGIC_A)) ∈ blocks_of ars;
  pool_used : forall x n m, (x, (n, Some m)) ∈ blocks_of ars -> m = Pool.MAGIC_A;
}.

(** [x] is still to be visited by a walk that is at [p] in arena [b]. *)
Definition ahead (ars : list arena) (b p x : Z) : Prop :=
  exists as1 bs as2, ars = as1 ++ (b, bs) :: as2 /\
    ((p <= x /\ b < x < ceiling (b, bs)) \/ Exists (fun ar => ar.1 < x < ceiling ar) as2).

Definition shape (ars : list arena) : list (Z * Z) := map (fun ar => (ar.1, total ar.2)) ars.

Section Arenas.

Lemma ahead_shape ars ars' b p x : shape ars' = shape ars -> ahead ars b p x -> ahead ars' b p x.
Proof.
  intros E (as1 & bs & as2 & -> & H). unfold shape in E. rewrite map_app /= in E.
  apply map_eq_app in E as (as1' & as2' & -> & E1 & E2). apply map_eq_cons in E2 as ([b' bs'] & as2'' & -> & E3 & E2).
  simpl in E3. injection E3 as -> Et. exists as1', bs', as2''. split; [done |]. unfold ceiling in *. simpl in *. rewrite Et.
  destruct H as [H | H]; [by left | right]. clear -E2 H. revert as2'' E2.
  induction H as [ar as2 H | ar as2 H IH]; intros [| ar' as2'] E; try done; injection E as E1 E2 E3.
  - apply Exists_cons_hd. unfold ceiling in *. by rewrite E1 E2.
  - apply Exists_cons_tl. by apply IH.
Qed.

Lemma ahead_cons ar ars b p x : ahead ars b p x -> ahead (ar :: ars) b p x.
Proof. intros (as1 & bs & as2 & -> & H). by exists (ar :: as1), bs, as2. Qed.

Lemma before_free_total bs : let '(bs1, n) := before_free bs in total bs1 + n = total bs.
Proof.
  unfold before_free. destruct bs as [| [n st] bs _] using rev_ind; [done |]. rewrite last_snoc.
  destruct st; [lia |]. rewrite removelast_last total_app. simpl. lia.
Qed.

Lemma behind_free_total bs : let '(n, bs1) := behind_free bs in n + total bs1 = total bs.
Proof. destruct bs as [| [n [m|]] bs]; simpl; lia. Qed.

Lemma joined_total bs1 n bs2 : total (joined bs1 n bs2) = total bs1 + n + total bs2.
Proof.
  unfold joined. pose proof (before_free_total bs1) as H1. pose proof (behind_free_total bs2) as H2.
  destruct (before_free bs1) as [bs1' p], (behind_free bs2) as [q bs2']. rewrite total_app. simpl. lia.
Qed.

Lemma free_shape ars a ars' : free_step ars a ars' -> shape ars' = shape ars.
Proof. intros []. unfold shape. rewrite !map_app /= joined_total total_app /=. do 3 f_equal. lia. Qed.

Lemma apart_shape ars ars' : shape ars' = shape ars -> apart ars -> apart ars'.
Proof.
  revert ars'. induction ars as [| [ab bs] ars IH]; intros [| [ab' bs'] ars']; try done.
  simpl. intros [= -> Et E] [H1 H2]. split; [| by apply IH]. clear IH H2. revert ars' E.
  induction H1 as [| [b2 bs2] ars H1 _ IH]; intros [| [b2' bs2'] ars']; try done. simpl. intros [= -> Et2 E].
  constructor; [| by apply IH]. unfold ceiling in *. simpl in *. lia.
Qed.

(** A block lies in its arena. *)
Lemma placed_range a bs x b : Forall (fun b : block => 0 < b.1) bs -> (x, b) ∈ placed a bs -> a <= x /\ x + b.1 <= a + total bs /\ 0 < b.1.
Proof.
  intros Hs. revert a. induction Hs as [| b' bs Hb Hs IH]; intros a; simpl; [by intros ?%not_elem_of_nil |].
  assert (0 <= total bs) by (clear -Hs; induction Hs; simpl; lia).
  intros [[= -> ->] | Hx]%elem_of_cons; [lia |]. destruct (IH _ Hx). lia.
Qed.

(** Two blocks are one, or one ends before the other starts. *)
Lemma placed_sep a bs x b y c : Forall (fun b : block => 0 < b.1) bs -> (x, b) ∈ placed a bs -> (y, c) ∈ placed a bs ->
  (x = y /\ b = c) \/ x + b.1 <= y \/ y + c.1 <= x.
Proof.
  intros Hs. revert a. induction Hs as [| b' bs Hb Hs IH]; intros a; simpl; [by intros ?%not_elem_of_nil |].
  intros [[= -> ->] | Hx]%elem_of_cons [[= -> ->] | Hy]%elem_of_cons; [by left | | | by eapply IH].
  - apply placed_range in Hy as [? _]; [| done]. lia.
  - apply placed_range in Hx as [? _]; [| done]. lia.
Qed.

Lemma apart_app as1 ar as2 : apart (as1 ++ ar :: as2) ->
  Forall (fun ar' => ceiling ar < ar'.1 \/ ceiling ar' < ar.1) (as1 ++ as2).
Proof.
  induction as1 as [| ar1 as1 IH]; simpl; [by intros [? _] |]. intros [H1 H2]. constructor; [| by apply IH].
  apply Forall_app in H1 as [_ [H1 _]%Forall_cons]. tauto.
Qed.
Lemma blocks_of_in ars x b : (x, b) ∈ blocks_of ars <-> exists ar, ar ∈ ars /\ (x, b) ∈ placed (floor ar.1) ar.2.
Proof. unfold blocks_of. rewrite list_elem_of_bind. naive_solver. Qed.

Lemma apart_two ars ar ar' x : apart ars -> ar ∈ ars -> ar' ∈ ars -> ar.1 <= x <= ceiling ar -> ar'.1 <= x <= ceiling ar' -> ar = ar'.
Proof.
  intros Ha H H' Hx Hx'. apply list_elem_of_split in H as (as1 & as2 & ->). apply apart_app in Ha.
  rewrite Forall_forall in Ha. apply elem_of_app in H' as [H' | [-> | H']%elem_of_cons]; [| done |].
  - specialize (Ha ar' ltac:(set_solver)). lia.
  - specialize (Ha ar' ltac:(set_solver)). lia.
Qed.

Definition sized (ars : list arena) : Prop := Forall (fun ar => Forall (fun b : block => 0 < b.1) ar.2) ars.

Lemma block_in ars x b : sized ars -> (x, b) ∈ blocks_of ars ->
  exists ar, ar ∈ ars /\ (x, b) ∈ placed (floor ar.1) ar.2 /\ floor ar.1 <= x /\ x + b.1 <= ceiling ar /\ 0 < b.1.
Proof.
  intros Hs (ar & Har & Hx)%blocks_of_in. unfold sized in Hs. rewrite Forall_forall in Hs. specialize (Hs ar Har).
  pose proof (placed_range _ _ _ _ Hs Hx) as (H1 & H2 & H3). exists ar. unfold ceiling. split_and!; try done; lia.
Qed.

Lemma block_sep ars x b y c : sized ars -> apart ars -> (x, b) ∈ blocks_of ars -> (y, c) ∈ blocks_of ars ->
  (x = y /\ b = c) \/ x + b.1 <= y \/ y + c.1 <= x.
Proof.
  intros Hs Ha Hx Hy. destruct (block_in _ _ _ Hs Hx) as (ar & Har & Hxp & Hx1 & Hx2 & Hb).
  destruct (block_in _ _ _ Hs Hy) as (ar' & Har' & Hyp & Hy1 & Hy2 & Hc).
  destruct (decide (ar = ar')) as [<- | Hne].
  - unfold sized in Hs. rewrite Forall_forall in Hs. by eapply placed_sep; [apply Hs | |].
  - destruct (decide (x + b.1 <= y)); [tauto |]. destruct (decide (y + c.1 <= x)); [tauto |].
    exfalso. apply Hne. unfold floor in *. destruct (decide (x <= y)); [apply (apart_two ars ar ar' y) | apply (apart_two ars ar ar' x)]; done || lia.
Qed.

Lemma total_pos bs : Forall (fun b : block => 0 < b.1) bs -> 0 <= total bs.
Proof. induction 1; simpl; lia. Qed.

(** *** Freeing and allocating *)

Lemma before_free_elem bs : let '(bs1, n) := before_free bs in forall a x k m,
  (x, (k, Some m)) ∈ placed a bs1 <-> (x, (k, Some m)) ∈ placed a bs.
Proof.
  unfold before_free. destruct bs as [| [n st] bs _] using rev_ind; [done |]. rewrite last_snoc.
  destruct st as [m0|]; [done |]. rewrite removelast_last. intros a x k m. rewrite placed_app /= elem_of_app. set_solver.
Qed.

Lemma behind_free_elem bs : let '(n, bs1) := behind_free bs in forall a x k m,
  (x, (k, Some m)) ∈ placed (a + n) bs1 <-> (x, (k, Some m)) ∈ placed a bs.
Proof.
  destruct bs as [| [n [m0|]] bs]; simpl; intros a x k m; [done | by rewrite Z.add_0_r |].
  rewrite elem_of_cons. naive_solver.
Qed.

Lemma joined_used a bs1 n bs2 x k m : (x, (k, Some m)) ∈ placed a (joined bs1 n bs2) <->
  (x, (k, Some m)) ∈ placed a bs1 \/ (x, (k, Some m)) ∈ placed (a + total bs1 + n) bs2.
Proof.
  unfold joined. pose proof (before_free_elem bs1) as H1. pose proof (behind_free_elem bs2) as H2.
  pose proof (before_free_total bs1) as H3.
  destruct (before_free bs1) as [bs1' p], (behind_free bs2) as [q bs2']. rewrite placed_app /= elem_of_app elem_of_cons.
  rewrite -(H1 a) -(H2 (a + total bs1 + n)). replace (a + total bs1' + (p + n + q)) with (a + total bs1 + n + q) by lia. naive_solver.
Qed.

Lemma before_free_sized bs : Forall (fun b : block => 0 < b.1) bs ->
  Forall (fun b : block => 0 < b.1) (before_free bs).1 /\ 0 <= (before_free bs).2.
Proof.
  intros H. unfold before_free. destruct bs as [| [n st] bs _] using rev_ind; [done |]. rewrite last_snoc.
  destruct st; [done |]. rewrite removelast_last. apply Forall_app in H as [H [Hn _]%Forall_cons]. simpl in *. split; [done | lia].
Qed.

Lemma behind_free_sized bs : Forall (fun b : block => 0 < b.1) bs ->
  Forall (fun b : block => 0 < b.1) (behind_free bs).2 /\ 0 <= (behind_free bs).1.
Proof. intros [| [n [m|]] bs' Hn H]; simpl in *; [done | split; [by constructor | done] | split; [done | lia]]. Qed.

Lemma joined_sized bs1 n bs2 : 0 < n -> Forall (fun b : block => 0 < b.1) bs1 -> Forall (fun b : block => 0 < b.1) bs2 ->
  Forall (fun b : block => 0 < b.1) (joined bs1 n bs2).
Proof.
  intros Hn H1 H2. unfold joined. destruct (before_free_sized _ H1) as [H1' Hp], (behind_free_sized _ H2) as [H2' Hq].
  destruct (before_free bs1) as [bs1' p], (behind_free bs2) as [q bs2']. simpl in *.
  apply Forall_app. split; [done |]. constructor; [simpl; lia | done].
Qed.

(** The blocks of an arena among others. *)
Lemma blocks_mid as1 ab bs as2 x b : (x, b) ∈ blocks_of (as1 ++ (ab, bs) :: as2) <->
  (x, b) ∈ blocks_of as1 \/ (x, b) ∈ placed (floor ab) bs \/ (x, b) ∈ blocks_of as2.
Proof.
  rewrite blocks_of_app. change (blocks_of ((ab, bs) :: as2)) with (placed (floor ab) bs ++ blocks_of as2).
  by rewrite !elem_of_app.
Qed.

Lemma sized_mid as1 ab bs bs' as2 : sized (as1 ++ (ab, bs) :: as2) -> Forall (fun b : block => 0 < b.1) bs' -> sized (as1 ++ (ab, bs') :: as2).
Proof. unfold sized. rewrite !Forall_app !Forall_cons. tauto. Qed.

Lemma pool_free objs ars h ars' : pool_ok objs ars -> free_step ars h ars' -> is_Some (objs !! h) -> pool_ok (delete h objs) ars'.
Proof.
  intros [Hs Ha Ho Hu] Hf Hh. pose proof (free_shape _ _ _ Hf) as Hsh. destruct Hf as [as1 ab bs1 n m bs2 as2].
  set (ars := as1 ++ (ab, bs1 ++ (n, Some m) :: bs2) :: as2) in *. set (h := floor ab + total bs1) in *.
  assert ((h, (n, Some m)) ∈ blocks_of ars) as Hin.
  { apply blocks_mid. right. left. rewrite placed_app. apply elem_of_app. right. by left. }
  assert (0 < n) as Hn by (destruct (block_in _ _ _ Hs Hin) as (_ & _ & _ & _ & _ & ?); done).
  assert (forall x k m', (x, (k, Some m')) ∈ blocks_of (as1 ++ (ab, joined bs1 n bs2) :: as2) <->
    (x, (k, Some m')) ∈ blocks_of ars /\ x <> h) as Hmem.
  { intros x k m'. unfold ars. rewrite !blocks_mid joined_used placed_app elem_of_app /= elem_of_cons. fold h. split.
    - intros Hx. assert ((x, (k, Some m')) ∈ blocks_of ars) as Hxin.
      { unfold ars. rewrite blocks_mid placed_app elem_of_app /= elem_of_cons. fold h. tauto. }
      split; [tauto |]. intros ->. destruct (block_in _ _ _ Hs Hin) as (ar & Har & Hp & H1 & H2 & _).
      assert (Forall (fun b : block => 0 < b.1) bs1 /\ Forall (fun b : block => 0 < b.1) bs2) as [Hs1 Hs2].
      { unfold sized in Hs. apply Forall_app in Hs as [_ [Hs _]%Forall_cons]. apply Forall_app in Hs as [? [_ ?]%Forall_cons]. done. }
      assert (forall y c, (y, c) ∈ blocks_of as1 \/ (y, c) ∈ blocks_of as2 -> y <> h) as Hother.
      { intros y c Hy ->. assert (exists ar', ar' ∈ as1 ++ as2 /\ (h, c) ∈ placed (floor ar'.1) ar'.2) as (ar' & Har' & Hc).
        { destruct Hy as [Hy | Hy]; apply blocks_of_in in Hy as (ar' & ? & ?); exists ar'; set_solver. }
        pose proof (apart_app _ _ _ Ha) as Hap. rewrite Forall_forall in Hap. specialize (Hap ar' Har').
        unfold sized in Hs. rewrite Forall_app Forall_cons in Hs.
        assert (Forall (fun b : block => 0 < b.1) ar'.2) as Hs'.
        { destruct Hs as (Ha1 & _ & Ha2). rewrite Forall_forall in Ha1. rewrite Forall_forall in Ha2. set_solver. }
        apply placed_range in Hc as (Hc1 & Hc2 & Hc3); [| done]. unfold ceiling in Hap. simpl in Hap. rewrite total_app /= in Hap.
        pose proof (total_pos _ Hs1). pose proof (total_pos _ Hs2). unfold h, floor in *. lia. }
      destruct Hx as [Hx | [[Hx | Hx] | Hx]]; [by eapply Hother; [left |] | | | by eapply Hother; [right |]].
      + apply placed_range in Hx as (Hx1 & Hx2 & Hx3); [| done]. unfold h in *. lia.
      + apply placed_range in Hx as (Hx1 & _); [| done]. lia.
    - intros [[Hx | [[Hx | [[= -> -> ->] | Hx]] | Hx]] Hne]; try tauto. }
  split.
  - apply (sized_mid _ _ (bs1 ++ (n, Some m) :: bs2)); [done |]. unfold sized in Hs.
    apply Forall_app in Hs as [_ [Hs _]%Forall_cons]. apply Forall_app in Hs as [? [_ ?]%Forall_cons]. by apply joined_sized.
  - by apply (apart_shape ars).
  - intros x. destruct (decide (x = h)) as [-> | Hne].
    + rewrite lookup_delete_eq. split; [by intros [] | intros (k & Hk)]. by apply Hmem in Hk as [_ ?].
    + rewrite lookup_delete_ne // Ho. split; intros (k & Hk); exists k; [by apply Hmem | by apply Hmem in Hk as [? _]].
  - intros x k m' Hx. apply Hmem in Hx as [Hx _]. by apply (Hu _ _ _ Hx).
Qed.
Lemma placed_free a rest x k m : Forall (fun b : block => 0 < b.1 /\ b.2 = None) rest -> (x, (k, Some m)) ∉ placed a rest.
Proof.
  intros H. revert a. induction H as [| [n st] rest [_ Hst] _ IH]; intros a; simpl in *; [apply not_elem_of_nil |]. subst st.
  rewrite not_elem_of_cons. split; [done | apply IH].
Qed.

Lemma free_rest_sized rest : Forall (fun b : block => 0 < b.1 /\ b.2 = None) rest -> Forall (fun b : block => 0 < b.1) rest.
Proof. intros H. eapply Forall_impl; [exact H |]. by intros b []. Qed.

Lemma pool_alloc_blocks ars h ars' : sized ars -> apart ars -> alloc_step ars h ars' ->
  sized ars' /\ apart ars' /\ (shape ars' = shape ars \/ exists ar, ars' = ar :: ars) /\
  (forall x b, (x, b) ∈ blocks_of ars -> b.2 <> None -> x <> h) /\
  exists s, forall x k m, (x, (k, Some m)) ∈ blocks_of ars' <->
    (x, (k, Some m)) ∈ blocks_of ars \/ (x = h /\ k = s /\ m = Pool.MAGIC_A).
Proof.
  intros Hs Ha Hst. destruct Hst as [as1 ab bs1 n bs2 as2 s rest Hn Hp Hr | ars u s rest Hp Hr Hu Hap].
  - set (h := floor ab + total bs1). assert ((h, (n, None)) ∈ blocks_of (as1 ++ (ab, bs1 ++ (n, None) :: bs2) :: as2)) as Hin.
    { apply blocks_mid. right. left. rewrite placed_app. apply elem_of_app. right. by left. }
    assert (shape (as1 ++ (ab, bs1 ++ (s, Some Pool.MAGIC_A) :: rest ++ bs2) :: as2) = shape (as1 ++ (ab, bs1 ++ (n, None) :: bs2) :: as2)) as Hsh.
    { unfold shape. rewrite !map_app /= !total_app /= total_app. do 3 f_equal. lia. }
    split_and!.
    + apply (sized_mid _ _ (bs1 ++ (n, None) :: bs2)); [done |]. unfold sized in Hs.
      apply Forall_app in Hs as [_ [Hs _]%Forall_cons]. apply Forall_app in Hs as [H1 [_ H2]%Forall_cons].
      apply Forall_app. split; [done |]. constructor; [done |]. apply Forall_app. split; [by apply free_rest_sized | done].
    + by apply (apart_shape _ _ Hsh).
    + by left.
    + intros x b Hx Hb ->. destruct (block_sep _ _ _ _ _ Hs Ha Hin Hx) as [[_ <-] | [H | H]]; [done | |];
        destruct (block_in _ _ _ Hs Hin) as (_ & _ & _ & _ & _ & ?), (block_in _ _ _ Hs Hx) as (_ & _ & _ & _ & _ & ?); simpl in *; lia.
    + exists s. intros x k m. rewrite !blocks_mid !placed_app !elem_of_app /= !elem_of_cons !placed_app !elem_of_app. fold h.
      replace (h + s + total rest) with (h + n) by lia. pose proof (placed_free (h + s) rest x k m Hr). naive_solver.
  - pose proof (total_pos _ (free_rest_sized _ Hr)) as Ht. split_and!.
    + constructor; [| done]. simpl. constructor; [done | by apply free_rest_sized].
    + split; [| done]. eapply Forall_impl; [exact Hap |]. intros ar. unfold ceiling, floor. simpl. lia.
    + by right; eexists.
    + intros x b Hx _ ->. destruct (block_in _ _ _ Hs Hx) as (ar & Har & _ & H1 & H2 & H3). rewrite Forall_forall in Hap.
      specialize (Hap ar Har). unfold ceiling, floor in *. simpl in *. lia.
    + exists s. intros x k m. change (blocks_of ((u, (s, Some Pool.MAGIC_A) :: rest) :: ars))
        with (placed (floor u) ((s, Some Pool.MAGIC_A) :: rest) ++ blocks_of ars). rewrite elem_of_app /= elem_of_cons.
      pose proof (placed_free (floor u + s) rest x k m Hr). naive_solver.
Qed.

Lemma pool_alloc objs ars h ars' o : pool_ok objs ars -> alloc_step ars h ars' ->
  pool_ok (<[h := o]> objs) ars' /\ objs !! h = None /\ (shape ars' = shape ars \/ exists ar, ars' = ar :: ars).
Proof.
  intros [Hs Ha Ho Hu] Hst. destruct (pool_alloc_blocks _ _ _ Hs Ha Hst) as (Hs' & Ha' & Hsh & Hne & s & Hb).
  assert (objs !! h = None) as Hh.
  { destruct (objs !! h) eqn:E; [| done]. destruct (proj1 (Ho h)) as [n Hn]; [by rewrite E |].
    exfalso. by apply (Hne _ _ Hn). }
  split_and!; try done. split; try done.
  - intros x. destruct (decide (x = h)) as [-> | Hx].
    + rewrite lookup_insert_eq. split; [| done]. intros _. exists s. apply Hb. by right.
    + rewrite lookup_insert_ne // Ho. split; intros [n Hn]; exists n; [apply Hb; by left | by apply Hb in Hn as [? | (? & _)]].
  - intros x n m [Hx | (_ & _ & ?)]%Hb; [by apply (Hu _ _ _ Hx) | done].
Qed.

(** *** Walking *)

Lemma placed_header a bs p b : (p, b) ∈ placed a bs -> 0 < b.1 ->
  p + b.1 = a + total bs \/ exists c, (p + b.1, c) ∈ placed a bs.
Proof.
  revert a. induction bs as [| b' bs IH]; intros a; simpl; [by intros ?%not_elem_of_nil |].
  intros [[= -> ->] | Hp]%elem_of_cons Hb.
  - destruct bs as [| c bs]; [left; simpl; lia |]. right. exists c. right. by left.
  - destruct (IH _ Hp Hb) as [E | [c Hc]]; [left; lia |]. right. exists c. by right.
Qed.

Lemma header_leader ars b bs : (b, bs) ∈ ars -> header ars b = Some (32, Pool.MAGIC_E).
Proof.
  intros H. unfold header. assert (existsb (fun ar : arena => ar.1 =? b) ars = true) as ->; [| done].
  apply existsb_exists. exists (b, bs). split; [by apply list_elem_of_In | apply Z.eqb_refl].
Qed.

Lemma no_leader ars x c : sized ars -> apart ars -> (x, c) ∈ blocks_of ars -> existsb (fun ar : arena => ar.1 =? x) ars = false.
Proof.
  intros Hs Ha Hx. destruct (existsb _ ars) eqn:E; [| done]. apply existsb_exists in E as (ar & Har%list_elem_of_In & Er%Z.eqb_eq).
  destruct (block_in _ _ _ Hs Hx) as (ar' & Har' & _ & H1 & H2 & H3). unfold sized in Hs. rewrite Forall_forall in Hs.
  pose proof (total_pos _ (Hs ar Har)). assert (ar = ar') as <- by (apply (apart_two ars ar ar' x); try done; unfold ceiling, floor in *; lia).
  unfold floor in *. lia.
Qed.

Lemma header_block ars x n st : sized ars -> apart ars -> (x, (n, st)) ∈ blocks_of ars ->
  header ars x = Some (n, default Pool.MAGIC_F st).
Proof.
  intros Hs Ha Hx. unfold header. rewrite (no_leader _ _ _ Hs Ha Hx).
  destruct (filter (fun y => y.1 = x) (blocks_of ars)) as [| [y [n' st']] l] eqn:E.
  - assert ((x, (n, st)) ∈ filter (fun y => y.1 = x) (blocks_of ars)) as Hf by (by apply list_elem_of_filter).
    rewrite E in Hf. by apply not_elem_of_nil in Hf.
  - assert ((y, (n', st')) ∈ filter (fun y => y.1 = x) (blocks_of ars)) as Hf by (rewrite E; by left).
    apply list_elem_of_filter in Hf as [Ey Hy]. simpl in Ey. subst y.
    destruct (block_sep _ _ _ _ _ Hs Ha Hx Hy) as [[_ [= <- <-]] | [H | H]]; [done | |];
      destruct (block_in _ _ _ Hs Hx) as (_ & _ & _ & _ & _ & ?), (block_in _ _ _ Hs Hy) as (_ & _ & _ & _ & _ & ?); simpl in *; lia.
Qed.

Lemma header_inv ars x n m : header ars x = Some (n, m) ->
  (exists bs, (x, bs) ∈ ars /\ n = 32 /\ m = Pool.MAGIC_E) \/ (exists st, (x, (n, st)) ∈ blocks_of ars /\ m = default Pool.MAGIC_F st).
Proof.
  unfold header. destruct (existsb _ ars) eqn:E.
  - intros [= <- <-]. apply existsb_exists in E as ([b bs] & Har%list_elem_of_In & Er%Z.eqb_eq). simpl in Er. subst b. left. eauto.
  - destruct (filter _ _) as [| [y [n' st']] l] eqn:Ef; [done |]. intros [= <- <-]. right.
    assert ((y, (n', st')) ∈ filter (fun y => y.1 = x) (blocks_of ars)) as Hf by (rewrite Ef; by left).
    apply list_elem_of_filter in Hf as [Ey Hy]. simpl in Ey. subst y. eauto.
Qed.

(** From one header to the next. *)
Lemma header_next ars b bs p n m : sized ars -> apart ars -> (b, bs) ∈ ars -> b <= p < ceiling (b, bs) -> header ars p = Some (n, m) ->
  0 < n /\ p + n <= ceiling (b, bs) /\ (p + n < ceiling (b, bs) -> header ars (p + n) <> None) /\
  (forall x c, (x, c) ∈ blocks_of ars -> p <= x < p + n -> x = p).
Proof.
  intros Hs Ha Hb Hp Hh. pose proof Hs as Hs'. unfold sized in Hs'. rewrite Forall_forall in Hs'.
  pose proof (total_pos _ (Hs' _ Hb)) as Ht. simpl in Ht. destruct (header_inv _ _ _ _ Hh) as [(bs' & Hin & -> & ->) | (st & Hin & ->)].
  - pose proof (total_pos _ (Hs' _ Hin)) as Ht'. simpl in Ht'.
    assert ((b, bs) = (p, bs')) as E by (apply (apart_two ars _ _ p); try done; unfold ceiling, floor in *; simpl in *; lia).
    injection E as -> ->. unfold ceiling, floor in *. simpl in *. split_and!; [lia | lia | |].
    + intros Hlt. destruct bs' as [| [s st] bs']; simpl in *; [lia |]. rewrite (header_block _ (p + 32) s st); try done.
      apply blocks_of_in. exists (p, (s, st) :: bs'). split; [done |]. by left.
    + intros x c Hx Hr. destruct (block_in _ _ _ Hs Hx) as (ar & Har & _ & H1 & H2 & H3).
      assert ((p, bs') = ar) as <- by (apply (apart_two ars _ _ x); try done; unfold ceiling, floor in *; simpl in *; lia).
      unfold floor in H1. simpl in H1. lia.
  - destruct (block_in _ _ _ Hs Hin) as (ar & Har & Hpl & H1 & H2 & H3). simpl in *.
    assert ((b, bs) = ar) as <- by (apply (apart_two ars _ _ p); try done; unfold ceiling, floor in *; simpl in *; lia).
    split_and!; [done | done | |].
    + intros Hlt. destruct (placed_header _ _ _ _ Hpl H3) as [E | [[n' st'] Hc]]; [unfold ceiling in *; simpl in *; lia |].
      rewrite (header_block _ _ n' st'); try done. apply blocks_of_in. eauto.
    + intros x c Hx Hr. destruct (block_sep _ _ _ _ _ Hs Ha Hin Hx) as [[-> _] | [H | H]]; [done | |];
        destruct (block_in _ _ _ Hs Hx) as (_ & _ & _ & _ & _ & ?); simpl in *; lia.
Qed.
End Arenas.
