(* ===== verification/GcInv.v ===== *)
(** * The garbage collector: the invariant

    References are counted, colours keep the mutator from what is swept, the
    walk over the blocks leaves nothing out.  What destroying, marking and
    allocating do to it. *)

From S2P Require Import Prelude Heap Pool PoolArena Gc GcPool.
Import Gc.

#[local] Open Scope Z_scope.

(** ** Sums over the heap *)

Definition msum (f : Z -> Heap -> nat) (m : gmap Z Heap) : nat := map_fold (fun h o n => (f h o + n)%nat) 0%nat m.

Section Sums.

Lemma msum_empty f : msum f ∅ = 0%nat.
Proof. apply map_fold_empty. Qed.

Lemma msum_insert f m h o : m !! h = None -> msum f (<[h := o]> m) = (f h o + msum f m)%nat.
Proof. intros Hh. unfold msum. rewrite map_fold_insert_L //. intros. lia. Qed.

Lemma msum_delete f m h o : m !! h = Some o -> msum f m = (f h o + msum f (delete h m))%nat.
Proof. intros Hh. rewrite -{1}(insert_delete_id m h o Hh). apply msum_insert, lookup_delete_eq. Qed.

Lemma msum_update f m h o o' : m !! h = Some o -> (msum f (<[h := o']> m) + f h o = f h o' + msum f m)%nat.
Proof.
  intros Hh. rewrite -insert_delete_eq msum_insert; [| apply lookup_delete_eq]. rewrite (msum_delete f m h o Hh). lia.
Qed.

Lemma msum_ext f f' m : (forall h o, m !! h = Some o -> f h o = f' h o) -> msum f m = msum f' m.
Proof.
  revert f f'. induction m as [| h o m Hh IH] using map_ind; intros f f' E; [by rewrite !msum_empty |].
  rewrite !msum_insert //. rewrite (E h o (lookup_insert_eq _ _ _)). f_equal. apply IH. intros h' o' H. apply E.
  by rewrite lookup_insert_ne; [| congruence].
Qed.

Lemma msum_le f f' m : (forall h o, m !! h = Some o -> (f h o <= f' h o)%nat) -> (msum f m <= msum f' m)%nat.
Proof.
  revert f f'. induction m as [| h o m Hh IH] using map_ind; intros f f' E; [by rewrite !msum_empty |].
  rewrite !msum_insert //. pose proof (E h o (lookup_insert_eq _ _ _)). enough (msum f m <= msum f' m)%nat by lia.
  apply IH. intros h' o' H'. apply E. by rewrite lookup_insert_ne; [| congruence].
Qed.

Lemma msum_0 m : msum (fun _ _ => 0%nat) m = 0%nat.
Proof. induction m as [| h o m Hh IH] using map_ind; [apply msum_empty | by rewrite msum_insert]. Qed.

Lemma msum_elem f m h o : m !! h = Some o -> (f h o <= msum f m)%nat.
Proof. intros Hh. rewrite (msum_delete f m h o Hh). lia. Qed.
End Sums.

(** ** What objects and roots refer to *)

Definition ptr_of (v : val) : option Z := match v with Ptr p => p | Word _ => None end.
Definition ptrs (ws : list val) : list Z := omap ptr_of ws.

Definition outs (b : body) : list Z :=
  match b with
  | Raw | Str => []
  | Data _ ws => ptrs ws
  | Arr a => option_list (root a) ++ ptrs (a_data a)
  | Lst l => option_list (tail l) ++ ptrs (l_data l)
  end.

Definition frame_outs (f : Frame) : list Z := ptrs (f_mem f) ++ option_list (mr f).
Definition stack_outs (ex : list Stkext) : list Z := ex ≫= fun sx => fr sx ≫= frame_outs.
Definition prog_outs (p : Prog) : list Z := R_M p :: stack_outs (EX p) ++ omap id (exsp p).
Definition roots (g : gc) : list Z := (progs g ≫= prog_outs) ++ omap id (origmps g) ++ concat (ptrtab g).

(** ** Types *)

(** The words that hold pointers are those the map names. *)
Definition wt_words (t : Type_) (ws : list val) : Prop :=
  forall k, (exists p, ws !! k = Some (Ptr p)) <-> k ∈ slots t.
Definition no_ptrs (ws : list val) : Prop := forall k p, ws !! k <> Some (Ptr p).

Definition wt_array (objs : gmap Z Heap) (a : Array) : Prop :=
  0 <= len a < 2 ^ 31 /\ 0 <= size (a_t a) /\
  match root a with
  | None =>
      off a = 0 /\ (forall k, k ∈ slots (a_t a) -> (k < Z.to_nat (size (a_t a) / 4))%nat /\ size (a_t a) mod 4 = 0) /\
      (forall k p, a_data a !! k = Some (Ptr p) -> exists i : nat, Z.of_nat i < len a /\
         exists j, j ∈ slots (a_t a) /\ k = (i * Z.to_nat (size (a_t a) / 4) + j)%nat) /\
      (forall i j : nat, Z.of_nat i < len a -> j ∈ slots (a_t a) ->
         exists p, a_data a !! (i * Z.to_nat (size (a_t a) / 4) + j)%nat = Some (Ptr p))
  | Some r =>
      a_data a = [] /\
      exists o b n, objs !! r = Some o /\ obj o = Arr b /\ root b = None /\ a_t b = a_t a /\
        off a = n * size (a_t a) /\ 0 <= n /\ n + len a <= len b
  end.

Definition wt_body (objs : gmap Z Heap) (b : body) : Prop :=
  match b with
  | Raw | Str => True
  | Data t ws => wt_words t ws
  | Arr a => wt_array objs a
  | Lst l =>
      (match l_t l with Some t => wt_words t (l_data l) | None => no_ptrs (l_data l) end) /\
      (forall x, tail l = Some x -> exists o l', objs !! x = Some o /\ obj o = Lst l')
  end.

(** A module link: its first word leads to the data of the module. *)
Definition is_module (objs : gmap Z Heap) (ml : Z) : Prop :=
  exists o t ws, objs !! ml = Some o /\ obj o = Data t ws /\ 0%nat ∈ slots t.

Definition wt_frame (objs : gmap Z Heap) (tr : Type_) (f : Frame) : Prop :=
  wt_words (default tr (f_t f)) (f_mem f) /\ (forall ml, mr f = Some ml -> is_module objs ml).
Definition wt_prog (objs : gmap Z Heap) (p : Prog) : Prop :=
  is_module objs (R_M p) /\ Forall (fun sx => Forall (wt_frame objs (TR sx)) (fr sx)) (EX p).

(** ** Shapes: what never changes of an object once it has a type *)

Definition same_shape (b b' : body) : Prop :=
  match b, b' with
  | Data t _, Data t' _ => t = t'
  | Arr a, Arr a' => len a = len a' /\ a_t a = a_t a' /\ root a = root a' /\ off a = off a'
  | Lst _, Lst _ | Str, Str | Raw, _ => True
  | _, _ => False
  end.

Definition keeps (m m' : gmap Z Heap) (x : Z) : Prop :=
  forall o, m !! x = Some o -> exists o', m' !! x = Some o' /\ same_shape (obj o) (obj o').

Section Shapes.

Lemma shape_refl b : same_shape b b.
Proof. by destruct b. Qed.

Lemma keeps_same m m' x : m' !! x = m !! x -> keeps m m' x.
Proof. intros E o H. exists o. rewrite E. split; [done | apply shape_refl]. Qed.

Lemma wt_body_keeps m m' b : (forall x, x ∈ outs b -> keeps m m' x) -> wt_body m b -> wt_body m' b.
Proof.
  destruct b as [| t ws | | a | l]; simpl; try done.
  - intros Hk ([? ?] & H2 & H3). split_and!; try done. destruct (root a) as [r|] eqn:Er; [| done].
    destruct H3 as (Hd & o & b & n & Ho & Hb & Hr & Ht & Hof & Hn & Hle). split; [done |].
    destruct (Hk r ltac:(by left) o Ho) as (o' & Ho' & Hs). rewrite Hb in Hs. destruct (obj o') as [| | | b' |] eqn:Eb; try done.
    destruct Hs as (E1 & E2 & E3 & E4). exists o', b', n. rewrite -E1 -E2 -E3. by split_and!.
  - intros Hk (H1 & H2). split; [done |]. intros x Hx. destruct (H2 x Hx) as (o & l' & Ho & Hl).
    assert (x ∈ option_list (tail l) ++ ptrs (l_data l)) as Hin by (rewrite Hx; by left).
    destruct (Hk x Hin o Ho) as (o' & Ho' & Hs). rewrite Hl in Hs.
    destruct (obj o') as [| | | | l2] eqn:El; try done. by exists o', l2.
Qed.

Lemma is_module_keeps m m' ml : keeps m m' ml -> is_module m ml -> is_module m' ml.
Proof.
  intros Hk (o & t & ws & Ho & Hb & Ht). destruct (Hk o Ho) as (o' & Ho' & Hs). rewrite Hb in Hs.
  destruct (obj o') as [| t' ws' | | |] eqn:Eb; try done. simpl in Hs. subst t'. by exists o', t, ws'.
Qed.

Lemma frame_outs_mr f ml : mr f = Some ml -> ml ∈ frame_outs f.
Proof. intros E. unfold frame_outs. rewrite E. apply elem_of_app. right. by left. Qed.

Lemma wt_prog_keeps m m' p : (forall x, x ∈ prog_outs p -> keeps m m' x) -> wt_prog m p -> wt_prog m' p.
Proof.
  intros Hk [H1 H2]. split.
  - apply (is_module_keeps m); [| done]. apply Hk. by left.
  - rewrite Forall_forall in H2. apply Forall_forall. intros sx Hsx. specialize (H2 sx Hsx). rewrite Forall_forall in H2.
    apply Forall_forall. intros f Hf. destruct (H2 f Hf) as [Hw Hm]. split; [done |]. intros ml Eml.
    apply (is_module_keeps m); [| by apply Hm]. apply Hk. right. apply elem_of_app. left. unfold stack_outs.
    apply list_elem_of_bind. exists sx. split; [| done]. apply list_elem_of_bind. exists f. split; [by apply frame_outs_mr | done].
Qed.
End Shapes.

(** ** The invariant *)

Definition live (D : gset Z) (g : gc) (x : Z) : Prop :=
  exists o, objs g !! x = Some o /\ color o <> sweeper g /\ x ∉ D.
Definition marked (g : gc) (x : Z) : Prop :=
  exists o, objs g !! x = Some o /\ (color o = mutator g \/ color o = propagator).

(** Whose pointers count: not of what is swept, or being freed ([D]). *)
Definition source (D : gset Z) (g : gc) (h : Z) (o : Heap) : Prop := color o <> sweeper g /\ h ∉ D.
#[global] Instance source_dec D g h o : Decision (source D g h o) := and_dec _ _.

Definition weight (D : gset Z) (g : gc) (x h : Z) (o : Heap) : nat := if decide (source D g h o) then occ x (outs (obj o)) else 0%nat.
(** The references to [x]; [E] are those that are on their way. *)
Definition refs (D : gset Z) (E : list Z) (g : gc) (x : Z) : nat :=
  (occ x (roots g) + msum (weight D g x) (objs g) + occ x E)%nat.

(** Before the first epoch is completed the colours are as they are initialised. *)
Definition colors_ok (g : gc) : Prop :=
  -2 ^ 31 <= gccolor g < 2 ^ 31 /\ mutator g = Z.rem (gccolor g) 3 /\ mutator g <> sweeper g /\ -3 < sweeper g < 3 /\
  ((marker g = Z.rem (i32 (gccolor g - 1)) 3 /\ sweeper g = Z.rem (i32 (gccolor g - 2)) 3 /\
    forall h o, objs g !! h = Some o -> color o = mutator g \/ color o = marker g \/ color o = sweeper g \/ color o = propagator) \/
   forall h o, objs g !! h = Some o -> color o = mutator g \/ color o = propagator).

(** Whatever is to be swept, and whatever is to be marked unless [nprop] says
    so, is ahead. *)
Definition walk_ok (g : gc) : Prop :=
  match base g with
  | None => True
  | Some b =>
      (exists bs, (b, bs) ∈ heapmem g /\ limit g = ceiling (b, bs) /\ b <= ptr_ g < ceiling (b, bs)) /\
      (forall x o, objs g !! x = Some o -> color o = sweeper g -> ahead (heapmem g) b (ptr_ g) x) /\
      (nprop g = 0 -> forall x o, objs g !! x = Some o -> color o = propagator -> ahead (heapmem g) b (ptr_ g) x)
  end.

Definition table_ok (g : gc) : Prop := length (ptrtab g) = 32%nat /\ forall i b h, ptrtab g !! i = Some b -> h ∈ b -> HASHPTR h = i.

(** [X] is an object whose pointers are being marked. *)
Record Inv (D : gset Z) (E : list Z) (X : option Z) (g : gc) : Prop := {
  i_colors : colors_ok g;
  i_roots : forall x, x ∈ roots g ++ E -> live D g x;
  i_outs : forall h o x, objs g !! h = Some o -> source D g h o -> x ∈ outs (obj o) -> live D g x;
  i_refs : forall x o, objs g !! x = Some o -> x ∉ D -> Z.of_nat (refs D E g x) <= ref o;
  i_wt : forall h o, objs g !! h = Some o -> source D g h o -> wt_body (objs g) (obj o);
  i_progs : Forall (wt_prog (objs g)) (progs g);
  i_table : table_ok g;
  i_black : forall h o x, objs g !! h = Some o -> color o = mutator g -> h ∉ D -> Some h <> X ->
    x ∈ outs (obj o) -> marked g x;
  i_pool : pool_ok (objs g) (heapmem g);
  i_walk : walk_ok g;
}.

Definition roots_marked (g : gc) : Prop := forall x, x ∈ roots g -> marked g x.

(** The state but for the objects, [nprop] and [visit]. *)
Definition ctl (g : gc) :=
  (heapmem g, progs g, origmps g, ptrtab g, (mutator g, marker g, sweeper g, gccolor g), (gchalt g, base g, ptr_ g, limit g)).

Section Changes.

(** *** Changes of counts and colours *)

Definition same_objs (m m' : gmap Z Heap) : Prop :=
  forall x, match m !! x, m' !! x with
  | Some o, Some o' => obj o' = obj o
  | None, None => True
  | _, _ => False
  end.

Lemma same_objs_l m m' x o : same_objs m m' -> m !! x = Some o -> exists o', m' !! x = Some o' /\ obj o' = obj o.
Proof. intros H E. specialize (H x). rewrite E in H. destruct (m' !! x) as [o'|]; [eauto | done]. Qed.

Lemma same_objs_r m m' x o : same_objs m m' -> m' !! x = Some o -> exists o', m !! x = Some o' /\ obj o = obj o'.
Proof. intros H E. specialize (H x). rewrite E in H. destruct (m !! x) as [o'|]; [eauto | done]. Qed.

Lemma same_objs_insert m h o o' : m !! h = Some o -> obj o' = obj o -> same_objs m (<[h := o']> m).
Proof.
  intros H E x. destruct (decide (x = h)) as [-> | Hx]; [by rewrite H lookup_insert_eq |].
  rewrite lookup_insert_ne //. by destruct (m !! x).
Qed.

Lemma keeps_same_objs m m' x : same_objs m m' -> keeps m m' x.
Proof. intros Hr o Ho. destruct (same_objs_l _ _ _ _ Hr Ho) as (o' & Ho' & Hb). exists o'. rewrite Hb. split; [done | apply shape_refl]. Qed.

Lemma msum_same f f' m m' : same_objs m m' ->
  (forall h o o', m !! h = Some o -> m' !! h = Some o' -> obj o' = obj o -> f' h o' = f h o) -> msum f' m' = msum f m.
Proof.
  revert m'. induction m as [| h o m Hh IH] using map_ind; intros m' Hr Hf.
  - assert (m' = ∅) as ->; [| by rewrite !msum_empty]. apply map_empty. intros x. specialize (Hr x). rewrite lookup_empty in Hr.
    by destruct (m' !! x).
  - destruct (same_objs_l _ _ h o Hr (lookup_insert_eq _ _ _)) as (o' & Ho' & Hb).
    rewrite (msum_delete _ _ _ _ Ho') msum_insert // (Hf h o o' (lookup_insert_eq _ _ _) Ho' Hb). f_equal. apply IH.
    + intros x. specialize (Hr x). destruct (decide (x = h)) as [-> | Hx]; [by rewrite Hh lookup_delete_eq |].
      rewrite lookup_insert_ne // in Hr. by rewrite lookup_delete_ne.
    + intros x p p' Hp Hp'. assert (x <> h) by congruence. rewrite lookup_delete_ne // in Hp'.
      apply Hf; [by rewrite lookup_insert_ne | done].
Qed.

Record changed (g g' : gc) : Prop := {
  c_objs : same_objs (objs g) (objs g');
  c_ctl : ctl g' = ctl g;
  c_color : forall h o o', objs g !! h = Some o -> objs g' !! h = Some o' ->
    color o' = color o \/ (color o <> sweeper g /\ (color o' = mutator g \/ (color o' = propagator /\ nprop g' <> 0)));
  c_nprop : nprop g' = 0 -> nprop g = 0;
}.

Lemma grey_not_swept g : colors_ok g -> propagator <> sweeper g /\ propagator <> mutator g.
Proof. intros (_ & Hm & _ & Hs & _). unfold propagator. rewrite Hm. pose proof (Z.rem_bound_abs (gccolor g) 3). lia. Qed.

Lemma changed_sweeper g g' h o o' : colors_ok g -> changed g g' -> objs g !! h = Some o -> objs g' !! h = Some o' ->
  color o' = sweeper g <-> color o = sweeper g.
Proof.
  intros Hc Hch Ho Ho'. destruct (grey_not_swept g Hc) as [Hs _]. destruct Hc as (_ & _ & Hms & _).
  destruct (c_color _ _ Hch _ _ _ Ho Ho') as [-> | (H1 & [H2 | [H2 _]])]; [done | |]; rewrite H2; intuition congruence.
Qed.

Lemma changed_fields g g' : changed g g' -> roots g' = roots g /\ progs g' = progs g /\ ptrtab g' = ptrtab g /\ heapmem g' = heapmem g /\
  sweeper g' = sweeper g /\ mutator g' = mutator g /\ marker g' = marker g /\ gccolor g' = gccolor g /\
  base g' = base g /\ ptr_ g' = ptr_ g /\ limit g' = limit g /\ gchalt g' = gchalt g.
Proof. intros H. pose proof (c_ctl _ _ H) as E. unfold ctl in E. injection E as E1 E2 E3 E4 E5 E6 E7 E8 E9 E10 E11 E12. unfold roots. rewrite E2 E3 E4. by split_and!. Qed.

Lemma changed_live D g g' x : colors_ok g -> changed g g' -> live D g x -> live D g' x.
Proof.
  intros Hc Hch (o & Ho & Hs & HD). destruct (same_objs_l _ _ _ _ (c_objs _ _ Hch) Ho) as (o' & Ho' & _). exists o'.
  split_and!; try done. destruct (changed_fields _ _ Hch) as (_ & _ & _ & _ & -> & _). by rewrite (changed_sweeper _ _ _ _ _ Hc Hch Ho Ho').
Qed.

Lemma changed_refs D E g g' x : colors_ok g -> changed g g' -> refs D E g' x = refs D E g x.
Proof.
  intros Hc Hch. unfold refs. destruct (changed_fields _ _ Hch) as (-> & _ & _ & _ & Es & _). f_equal. f_equal.
  apply (msum_same _ _ _ _ (c_objs _ _ Hch)). intros h o o' Ho Ho' Hb. 
  pose proof (changed_sweeper _ _ _ _ _ Hc Hch Ho Ho') as H. unfold weight. rewrite Hb.
  destruct (decide _) as [[H1 H2] | H1], (decide _) as [[H3 H4] | H3]; try done; exfalso; [apply H3 | apply H1]; (split; [| done]); congruence || (rewrite ?Es; rewrite ?Es in H1; tauto).
Qed.

Lemma inv_change D E E' X X' g g' : Inv D E X g -> changed g g' ->
  (forall x, x ∈ E' -> live D g x) ->
  (forall x o, objs g' !! x = Some o -> x ∉ D -> Z.of_nat (refs D E' g x) <= ref o) ->
  (forall h o x, objs g' !! h = Some o -> color o = mutator g -> h ∉ D -> Some h <> X' -> x ∈ outs (obj o) -> marked g' x) ->
  Inv D E' X' g'.
Proof.
  intros [Hc Hr Ho Hn Hw Hp Ht Hb Hpo Hk] Hch HE Href Hbl. pose proof (changed_fields _ _ Hch) as (F1 & F2 & F3 & F4 & F5 & F6 & F7 & F8 & F9 & F10 & F11 & _).
  assert (forall h o', objs g' !! h = Some o' -> source D g' h o' -> exists o, objs g !! h = Some o /\ source D g h o /\ obj o' = obj o) as Hsrc.
  { intros h o' Hh [Hs HD]. destruct (same_objs_r _ _ _ _ (c_objs _ _ Hch) Hh) as (o & Hoo & Eb). exists o. split_and!; try done.
    split; [| done]. rewrite F5 in Hs. by rewrite -(changed_sweeper _ _ _ _ _ Hc Hch Hoo Hh). }
  split.
  - destruct Hc as (H1 & H2 & H3 & H4 & H5). unfold colors_ok. rewrite F5 F6 F7 F8. split_and!; try done; try lia.
    destruct H5 as [(H5 & H6 & H7) | H5]; [left; split_and!; try done | right]; intros h o' Hh;
      destruct (same_objs_r _ _ _ _ (c_objs _ _ Hch) Hh) as (o & Hoo & _);
      destruct (c_color _ _ Hch _ _ _ Hoo Hh) as [-> | (_ & [-> | [-> _]])]; eauto.
  - intros x Hx. rewrite F1 in Hx. apply (changed_live _ _ _ _ Hc Hch).
    apply elem_of_app in Hx as [Hx | Hx]; [apply Hr; apply elem_of_app; by left | by apply HE].
  - intros h o' x Hh Hs Hx. destruct (Hsrc _ _ Hh Hs) as (o & Hoo & Hso & Eb). apply (changed_live _ _ _ _ Hc Hch).
    apply (Ho h o); [done | done | by rewrite -Eb].
  - intros x o Hx HD. rewrite (changed_refs _ _ g) //. by apply Href.
  - intros h o' Hh Hs. destruct (Hsrc _ _ Hh Hs) as (o & Hoo & Hso & Eb). rewrite Eb.
    apply (wt_body_keeps (objs g)); [intros x _; apply keeps_same_objs, Hch | by apply (Hw h)].
  - rewrite F2. eapply Forall_impl; [exact Hp |]. intros p Hpp. apply (wt_prog_keeps (objs g)); [intros x _; apply keeps_same_objs, Hch | done].
  - unfold table_ok. by rewrite F3.
  - rewrite F6. done.
  - rewrite F4. destruct Hpo as [P1 P2 P3 P4]. split; try done. intros x. rewrite -P3. pose proof (c_objs _ _ Hch x) as Hx.
    destruct (objs g !! x), (objs g' !! x); try done; split; intros [? ?]; done.
  - unfold walk_ok in *. rewrite F9 F4 F10 F11 F5. destruct (base g) as [b|]; [| done]. destruct Hk as (K1 & K2 & K3). split_and!; [done | |].
    + intros x o' Hx Hs. destruct (same_objs_r _ _ _ _ (c_objs _ _ Hch) Hx) as (o & Hoo & _). apply (K2 x o); [done |].
      by apply (changed_sweeper _ _ _ _ _ Hc Hch Hoo Hx).
    + intros Hz x o' Hx Hs. destruct (same_objs_r _ _ _ _ (c_objs _ _ Hch) Hx) as (o & Hoo & _).
      apply (K3 (c_nprop _ _ Hch Hz) x o); [done |]. destruct (c_color _ _ Hch _ _ _ Hoo Hx) as [<- | (_ & [Hm | [_ Hm]])]; [done | | done].
      rewrite Hm in Hs. by destruct (grey_not_swept g Hc) as [_ ?].
Qed.
End Changes.

Section Steps.

Lemma refs_cons D E g x y : refs D (y :: E) g x = ((if decide (y = x) then 1 else 0) + refs D E g x)%nat.
Proof. unfold refs. rewrite occ_cons. lia. Qed.

Lemma refs_perm D E E' g x : E ≡ₚ E' -> refs D E g x = refs D E' g x.
Proof. intros H. unfold refs. by rewrite H. Qed.

Lemma inv_perm D E E' X g : E ≡ₚ E' -> Inv D E X g -> Inv D E' X g.
Proof.
  intros HE [Hc Hr Ho Hn Hw Hp Ht Hb Hpo Hk]. split; try done.
  - intros x Hx. apply Hr. by rewrite HE.
  - intros x o Hx HD. rewrite -(refs_perm _ E) //. by apply Hn.
Qed.

(** Changes of what the invariant says nothing of. *)
Lemma inv_gchalt D E X g v : Inv D E X g -> Inv D E X (set_gchalt v g).
Proof. intros []. by split. Qed.
Lemma inv_visit D E X g v : Inv D E X g -> Inv D E X (set_visit v g).
Proof. intros []. by split. Qed.
Lemma inv_stale D E X g v : Inv D E X g -> Inv D E X (set_stale v g).
Proof. intros []. by split. Qed.

Lemma changed_ref g h o n : objs g !! h = Some o -> changed g (set_objs (<[h := set_ref n o]> (objs g)) g).
Proof.
  intros Ho. split; try done.
  - by apply (same_objs_insert _ _ o).
  - simpl. intros x p p' Hp. destruct (decide (x = h)) as [-> | Hne]; [rewrite lookup_insert_eq | rewrite lookup_insert_ne //];
      rewrite ?Hp; intros [= <-]; left; simpl; congruence.
Qed.

Lemma black_ref g h o n x p : objs g !! h = Some o -> objs (set_objs (<[h := set_ref n o]> (objs g)) g) !! x = Some p ->
  exists p', objs g !! x = Some p' /\ color p' = color p /\ obj p' = obj p.
Proof.
  simpl. destruct (decide (x = h)) as [-> | Hne]; [rewrite lookup_insert_eq | rewrite lookup_insert_ne //]; [intros Ho [= <-] |]; eauto.
Qed.

Lemma marked_ref g h o n x : objs g !! h = Some o -> marked g x -> marked (set_objs (<[h := set_ref n o]> (objs g)) g) x.
Proof.
  intros Ho (p & Hp & Hm). unfold marked. simpl. destruct (decide (x = h)) as [-> | Hne].
  - exists (set_ref n o). rewrite lookup_insert_eq. replace p with o in Hm by congruence. done.
  - exists p. by rewrite lookup_insert_ne.
Qed.

Lemma inv_ref D E E' X g h o n : Inv D E X g -> objs g !! h = Some o ->
  (forall x, x ∈ E' -> live D g x) ->
  (h ∉ D -> Z.of_nat (refs D E' g h) <= n) ->
  (forall x, x <> h -> (refs D E' g x <= refs D E g x)%nat) ->
  Inv D E' X (set_objs (<[h := set_ref n o]> (objs g)) g).
Proof.
  intros I Ho HE Hh Hx. apply (inv_change D E _ X _ g); [done | by apply changed_ref | done | |].
  - simpl. intros x p. destruct (decide (x = h)) as [-> | Hne]; [rewrite lookup_insert_eq | rewrite lookup_insert_ne //].
    + by intros [= <-].
    + intros Hp HD. pose proof (i_refs _ _ _ _ I x p Hp HD). specialize (Hx x Hne). lia.
  - intros k p x Hp Hm HD HX Hin. apply (marked_ref _ _ _ _ _ Ho). destruct (black_ref _ _ _ _ _ _ Ho Hp) as (p' & Hp' & Ec & Eb).
    apply (i_black _ _ _ _ I k p' x); rewrite ?Ec ?Eb //.
Qed.

(** A reference that was on its way is given up. *)
Lemma inv_drop D h E X g o : Inv D (h :: E) X g -> objs g !! h = Some o ->
  Inv D E X (set_objs (<[h := set_ref (ref o - 1) o]> (objs g)) g).
Proof.
  intros I Ho. apply (inv_ref D (h :: E)); try done.
  - intros x Hx. apply (i_roots _ _ _ _ I). set_solver.
  - intros HD. pose proof (i_refs _ _ _ _ I h o Ho HD) as Hn. rewrite refs_cons decide_True // in Hn. lia.
  - intros x Hx. rewrite refs_cons. lia.
Qed.

(** A new reference to an object that has some. *)
Lemma inv_take D h E X g o : Inv D E X g -> objs g !! h = Some o -> live D g h ->
  Inv D (h :: E) X (set_objs (<[h := set_ref (ref o + 1) o]> (objs g)) g).
Proof.
  intros I Ho Hl. apply (inv_ref D E); try done.
  - intros x [-> | Hx]%elem_of_cons; [done |]. apply (i_roots _ _ _ _ I). set_solver.
  - intros HD. pose proof (i_refs _ _ _ _ I h o Ho HD). rewrite refs_cons decide_True //. lia.
  - intros x Hx. rewrite refs_cons decide_False //.
Qed.

(** *** An object that nothing refers to is freed *)

Lemma weight_source D g h x o : source D g h o -> weight D g x h o = occ x (outs (obj o)).
Proof. intros H. unfold weight. by rewrite decide_True. Qed.

Lemma refs_0 D E g x : refs D E g x = 0%nat ->
  (x ∉ roots g) /\ (x ∉ E) /\ (forall h o, objs g !! h = Some o -> source D g h o -> x ∉ outs (obj o)).
Proof.
  unfold refs. intros H. split_and!; [apply occ_0; lia | apply occ_0; lia |]. intros h o Hh Hs.
  pose proof (msum_elem (weight D g x) _ _ _ Hh) as Hle. rewrite weight_source // in Hle. apply occ_0. lia.
Qed.

Lemma weight_doom D g h x k o : k <> h -> weight ({[h]} ∪ D) g x k o = weight D g x k o.
Proof. intros Hk. unfold weight, source. by destruct (decide _) as [[H1 H2] | H1], (decide _) as [[H3 H4] | H3]; try done; exfalso; set_solver. Qed.

Lemma weight_in D g h x o : h ∈ D -> weight D g x h o = 0%nat.
Proof. intros HD. unfold weight. rewrite decide_False //. by intros [_ ?]. Qed.

Lemma weight_raw D g h x c n : weight D g h x (MkHeap c n Raw) = 0%nat.
Proof. unfold weight. by destruct (decide _). Qed.

Lemma refs_doom D E g h o x : objs g !! h = Some o ->
  refs ({[h]} ∪ D) E g x = (refs D E g x - weight D g x h o)%nat.
Proof.
  intros Ho. unfold refs. rewrite !(msum_delete _ _ _ _ Ho) weight_in; [| set_solver].
  rewrite (msum_ext (weight ({[h]} ∪ D) g x) (weight D g x)); [lia |].
  intros k p Hk. apply weight_doom. intros ->. by rewrite lookup_delete_eq in Hk.
Qed.

Lemma inv_doom D E X g h o : Inv D E X g -> objs g !! h = Some o -> source D g h o -> ref o <= 0 ->
  Inv ({[h]} ∪ D) (outs (obj o) ++ E) X g.
Proof.
  intros I Ho Hs Hz. assert (refs D E g h = 0%nat) as H0 by (pose proof (i_refs _ _ _ _ I h o Ho (proj2 Hs)); lia).
  destruct (refs_0 _ _ _ _ H0) as (N1 & N2 & N3). destruct I as [Hc Hr Hou Hn Hw Hp Ht Hb Hpo Hk]. split; try done.
  - intros x Hx. assert (x <> h) as Hne.
    { intros ->. apply elem_of_app in Hx as [? | [? | ?]%elem_of_app]; [by apply N1 | by apply (N3 h o) | by apply N2]. }
    assert (live D g x) as (p & Hp1 & Hp2 & Hp3); [| exists p; split_and!; try done; set_solver].
    apply elem_of_app in Hx as [Hx | [Hx | Hx]%elem_of_app]; [apply Hr, elem_of_app; by left | by eapply Hou | apply Hr, elem_of_app; by right].
  - intros k p x Hkp [Hs1 Hs2] Hx. assert (source D g k p) as Hs' by (split; [done | set_solver]).
    assert (x <> h) as Hne by (intros ->; by eapply N3). destruct (Hou k p x Hkp Hs' Hx) as (q & Hq1 & Hq2 & Hq3).
    exists q. split_and!; try done. set_solver.
  - intros x p Hx HD. assert (x ∉ D) as HD' by set_solver. specialize (Hn x p Hx HD').
    rewrite (refs_doom _ _ _ _ _ _ Ho). unfold refs in *. rewrite occ_app.
    pose proof (msum_elem (weight D g x) _ _ _ Ho) as Hle. rewrite (weight_source D g h x o Hs) in Hle |- *. lia.
  - intros k p Hkp [Hs1 Hs2]. apply (Hw k p Hkp). split; [done | set_solver].
  - intros k p x Hkp Hm HD. apply (Hb k p x Hkp Hm). set_solver.
Qed.

(** What is swept counts for nothing. *)
Lemma inv_doom_swept D E X g h o : Inv D E X g -> objs g !! h = Some o -> color o = sweeper g -> Inv ({[h]} ∪ D) E X g.
Proof.
  intros [Hc Hr Hou Hn Hw Hp Ht Hb Hpo Hk] Ho Hs.
  assert (forall x, live D g x -> live ({[h]} ∪ D) g x) as Hl.
  { intros x (p & H1 & H2 & H3). exists p. split_and!; try done. apply not_elem_of_union. split; [| done].
    apply not_elem_of_singleton. intros ->. congruence. }
  split; try done.
  - intros x Hx. by apply Hl, Hr.
  - intros k p x Hkp [Hs1 Hs2] Hx. apply Hl. apply (Hou k p); [done | split; [done | set_solver] | done].
  - intros x p Hx HD. rewrite (refs_doom _ _ _ _ _ _ Ho). specialize (Hn x p Hx ltac:(set_solver)). lia.
  - intros k p Hkp [Hs1 Hs2]. apply (Hw k p Hkp). split; [done | set_solver].
  - intros k p x Hkp Hm HD. apply (Hb k p x Hkp Hm). set_solver.
Qed.

Lemma in_shape ars ars' b bs : shape ars' = shape ars -> (b, bs) ∈ ars -> exists bs', (b, bs') ∈ ars' /\ ceiling (b, bs') = ceiling (b, bs).
Proof.
  intros E H. assert ((b, total bs) ∈ shape ars') as H' by (rewrite E; apply list_elem_of_fmap; by exists (b, bs)).
  apply list_elem_of_fmap in H' as ([b' bs'] & [= -> Et] & Hin). exists bs'. split; [done |]. unfold ceiling. simpl. lia.
Qed.

Lemma inv_delete D E X g h ars : Inv ({[h]} ∪ D) E X g -> (h ∉ D) -> is_Some (objs g !! h) -> free_step (heapmem g) h ars ->
  Inv D E X (set_heapmem ars (set_objs (delete h (objs g)) g)).
Proof.
  intros [Hc Hr Hou Hn Hw Hp Ht Hb Hpo Hk] HD Hh Hf. set (g' := set_heapmem _ _).
  assert (forall x p, objs g' !! x = Some p -> objs g !! x = Some p /\ x <> h) as Hin.
  { simpl. intros x p. destruct (decide (x = h)) as [-> | Hne]; [by rewrite lookup_delete_eq | by rewrite lookup_delete_ne]. }
  assert (forall k p, objs g' !! k = Some p -> source D g' k p -> source ({[h]} ∪ D) g k p) as Hsrc.
  { intros k p Hkp [Hs1 Hs2]. apply Hin in Hkp as [_ ?]. split; [done | set_solver]. }
  assert (forall x, live ({[h]} ∪ D) g x -> live D g' x) as Hl.
  { intros x (p & H1 & H2 & H3). exists p. simpl. rewrite lookup_delete_ne; [split_and!; try done |]; set_solver. }
  assert (forall x, live ({[h]} ∪ D) g x -> keeps (objs g) (objs g') x) as Hkeep.
  { intros x (p & H1 & H2 & H3). apply keeps_same. simpl. rewrite lookup_delete_ne //. set_solver. }
  split; try done.
  - destruct Hc as ([? ?] & C2 & C3 & [? ?] & C5). unfold colors_ok. split_and!; try done.
    destruct C5 as [(C5 & C6 & C7) | C5]; [left; split_and!; try done | right]; intros k p Hkp; apply Hin in Hkp as [Hkp _]; eauto.
  - intros x Hx. by apply Hl, Hr.
  - intros k p x Hkp Hs Hx. apply Hl. apply (Hou k p); [by apply Hin | by apply Hsrc | done].
  - intros x p Hx HDx. pose proof (Hin _ _ Hx) as [Hx' Hne]. specialize (Hn x p Hx' ltac:(set_solver)).
    destruct Hh as [o Ho]. unfold refs in *. rewrite (msum_delete _ _ _ _ Ho) weight_in in Hn; [| set_solver].
    simpl. rewrite (msum_ext (weight D g' x) (weight ({[h]} ∪ D) g x)); [exact Hn |].
    intros k q Hkq. symmetry. change (weight D g' x k q) with (weight D g x k q). apply weight_doom. intros ->. by rewrite lookup_delete_eq in Hkq.
  - intros k p Hkp Hs. pose proof (Hsrc _ _ Hkp Hs) as Hs'. apply Hin in Hkp as [Hkp _].
    apply (wt_body_keeps (objs g)); [intros x Hx; apply Hkeep; by apply (Hou k p) | by apply (Hw k)].
  - apply Forall_forall. intros p Hpp. rewrite Forall_forall in Hp. apply (wt_prog_keeps (objs g)); [| by apply Hp].
    intros x Hx. apply Hkeep, Hr. apply elem_of_app. left. apply elem_of_app. left. apply list_elem_of_bind. eauto.
  - intros k p x Hkp Hm HDk HX Hx. pose proof (Hin _ _ Hkp) as [Hkp' Hne].
    destruct (Hb k p x Hkp' Hm ltac:(set_solver) HX Hx) as (q & Hq & Hqm). exists q. split; [| done].
    assert (source ({[h]} ∪ D) g k p) as Hs.
    { split; [| set_solver]. destruct Hc as (_ & _ & Hc & _). simpl in Hm. congruence. }
    destruct (Hou k p x Hkp' Hs Hx) as (q' & _ & _ & Hx3). simpl. rewrite lookup_delete_ne //. set_solver.
  - simpl. by apply (pool_free _ (heapmem g)).
  - pose proof (free_shape _ _ _ Hf) as Hsh. unfold walk_ok in *. simpl. destruct (base g) as [b|]; [| done].
    destruct Hk as ((bs & K1 & K2 & K3) & K4 & K5). split_and!.
    + destruct (in_shape _ _ _ _ Hsh K1) as (bs' & H1 & H2). exists bs'. by rewrite H2.
    + intros x p Hx Hxs. apply Hin in Hx as [Hx _]. apply (ahead_shape _ _ _ _ _ Hsh). by eapply K4.
    + intros Hz x p Hx Hxs. apply Hin in Hx as [Hx _]. apply (ahead_shape _ _ _ _ _ Hsh). by eapply K5.
Qed.

(** *** An object is allocated *)

Lemma inv_alloc D E X g h ars : Inv D E X g -> (h ∉ D) -> alloc_step (heapmem g) h ars ->
  Inv D (h :: E) X (set_heapmem ars (set_objs (<[h := MkHeap (mutator g) 1 Raw]> (objs g)) g)) /\ objs g !! h = None.
Proof.
  intros [Hc Hr Hou Hn Hw Hp Ht Hb Hpo Hk] HD Ha.
  destruct (pool_alloc _ _ _ _ (MkHeap (mutator g) 1 Raw) Hpo Ha) as (Hpo' & Hh & Hsh). split; [| done]. set (g' := set_heapmem _ _).
  assert (forall x p, objs g' !! x = Some p -> (x = h /\ p = MkHeap (mutator g) 1 Raw) \/ (objs g !! x = Some p /\ x <> h)) as Hin.
  { simpl. intros x p. destruct (decide (x = h)) as [-> | Hne]; [rewrite lookup_insert_eq; by intros [= <-]; left |].
    rewrite lookup_insert_ne //. by right. }
  assert (forall x p, objs g !! x = Some p -> objs g' !! x = Some p) as Hkeep.
  { intros x p Hx. simpl. rewrite lookup_insert_ne //. by intros ->; congruence. }
  assert (forall x, live D g x -> live D g' x) as Hl.
  { intros x (p & H1 & H2 & H3). exists p. split_and!; [by apply Hkeep | done | done]. }
  assert (forall x, keeps (objs g) (objs g') x) as Hks.
  { intros x p Hx. exists p. split; [by apply Hkeep | apply shape_refl]. }
  assert (forall x, live D g x -> x <> h) as Hlh by (intros x (p & H1 & _) ->; congruence).
  split.
  - destruct Hc as ([? ?] & C2 & C3 & [? ?] & C5). unfold colors_ok. split_and!; try done.
    destruct C5 as [(C5 & C6 & C7) | C5]; [left; split_and!; try done | right]; intros k p Hkp;
      apply Hin in Hkp as [[-> ->] | [Hkp _]]; simpl; eauto.
  - intros x Hx. apply elem_of_app in Hx as [Hx | [-> | Hx]%elem_of_cons].
    + apply Hl, Hr, elem_of_app. by left.
    + exists (MkHeap (mutator g) 1 Raw). simpl. rewrite lookup_insert_eq. destruct Hc as (_ & _ & Hc & _). by split_and!.
    + apply Hl, Hr, elem_of_app. by right.
  - intros k p x Hkp Hs Hx. apply Hin in Hkp as [[-> ->] | [Hkp _]]; [by apply not_elem_of_nil in Hx |]. apply Hl. by apply (Hou k p).
  - intros x p Hx HDx. unfold refs. simpl. rewrite msum_insert // weight_raw. rewrite occ_cons.
    change (roots g') with (roots g). change (msum (weight D g' x) (objs g)) with (msum (weight D g x) (objs g)).
    destruct (Hin _ _ Hx) as [[-> ->] | [Hx' Hne]].
    + assert (refs D E g h = 0%nat) as H0; [| unfold refs in H0; rewrite decide_True //; simpl; lia].
      assert (h ∉ roots g ++ E) as Hno by (intros Hno; by apply (Hlh h); [apply Hr |]).
      assert (msum (weight D g h) (objs g) = 0%nat) as Hm0.
      { rewrite (msum_ext _ (fun _ _ => 0%nat)); [apply msum_0 |]. intros k q Hkq. unfold weight. destruct (decide _) as [Hs |]; [| done].
        apply occ_0. intros Hx2. by apply (Hlh h); [apply (Hou k q) |]. }
      unfold refs. rewrite Hm0. assert (occ h (roots g ++ E) = 0%nat) as H2 by (by apply occ_0). rewrite occ_app in H2. lia.
    + rewrite decide_False //. specialize (Hn x p Hx' HDx). unfold refs in Hn. lia.
  - intros k p Hkp Hs. apply Hin in Hkp as [[-> ->] | [Hkp _]]; [done |].
    apply (wt_body_keeps (objs g)); [intros x _; apply Hks | by apply (Hw k)].
  - eapply Forall_impl; [exact Hp |]. intros p Hpp. apply (wt_prog_keeps (objs g)); [intros x _; apply Hks | done].
  - done.
  - intros k p x Hkp Hm HDk HX Hx. apply Hin in Hkp as [[-> ->] | [Hkp _]]; [by apply not_elem_of_nil in Hx |].
    destruct (Hb k p x Hkp Hm HDk HX Hx) as (q & Hq & Hqm). exists q. split; [by apply Hkeep | done].
  - done.
  - unfold walk_ok in *. simpl. destruct (base g) as [b|]; [| done]. destruct Hk as ((bs & K1 & K2 & K3) & K4 & K5).
    assert (exists bs', (b, bs') ∈ ars /\ ceiling (b, bs') = ceiling (b, bs)) as (bs' & B1 & B2).
    { destruct Hsh as [Hsh | [ar ->]]; [by eapply in_shape |]. exists bs. split; [by right | done]. }
    assert (forall x, ahead (heapmem g) b (ptr_ g) x -> ahead ars b (ptr_ g) x) as Hah.
    { intros x. destruct Hsh as [Hsh | [ar ->]]; [by apply ahead_shape | apply ahead_cons]. }
    destruct (grey_not_swept g Hc) as [Hgs Hgm]. destruct Hc as (_ & _ & Hms & _). split_and!.
    + exists bs'. by rewrite B2.
    + intros x p Hx Hxs. apply Hin in Hx as [[-> ->] | [Hx _]]; [by simpl in Hxs | by eapply Hah, K4].
    + intros Hz x p Hx Hxs. apply Hin in Hx as [[-> ->] | [Hx _]]; [simpl in Hxs; congruence | by eapply Hah, K5].
Qed.

(** *** What an object holds, and the roots, are exchanged with what is on its way *)

Lemma inv_body D E E' X g h o b : Inv D E X g -> objs g !! h = Some o -> source D g h o ->
  outs b ++ E' ≡ₚ outs (obj o) ++ E -> same_shape (obj o) b ->
  (wt_body (objs g) (obj o) -> (forall x, x ∈ outs b -> live D g x) -> wt_body (<[h := set_obj b o]> (objs g)) b) ->
  (color o = mutator g -> Some h <> X -> forall x, x ∈ outs b -> x ∈ outs (obj o) \/ marked g x) ->
  Inv D E' X (set_objs (<[h := set_obj b o]> (objs g)) g).
Proof.
  intros I Ho Hs Hperm Hsh Hwt Hmk. pose proof (i_outs _ _ _ _ I h o) as Houo. pose proof (i_wt _ _ _ _ I h o Ho Hs) as Hwo.
  destruct I as [Hc Hr Hou Hn Hw Hp Ht Hb Hpo Hk]. set (g' := set_objs _ _).
  assert (forall x, x ∈ outs b ++ E' -> live D g x) as Hnew.
  { intros x Hx. rewrite Hperm in Hx. apply elem_of_app in Hx as [Hx | Hx]; [by apply Houo | apply Hr, elem_of_app; by right]. }
  assert (forall x p, objs g' !! x = Some p -> (x = h /\ p = set_obj b o) \/ (objs g !! x = Some p /\ x <> h)) as Hin.
  { simpl. intros x p. destruct (decide (x = h)) as [-> | Hne]; [rewrite lookup_insert_eq; by intros [= <-]; left |].
    rewrite lookup_insert_ne //. by right. }
  assert (forall x p, objs g !! x = Some p -> exists p', objs g' !! x = Some p' /\ color p' = color p) as Hcol.
  { intros x p Hx. simpl. destruct (decide (x = h)) as [-> | Hne]; [exists (set_obj b o); rewrite lookup_insert_eq; split; simpl; congruence |].
    exists p. by rewrite lookup_insert_ne. }
  assert (forall x, live D g x -> live D g' x) as Hl.
  { intros x (p & H1 & H2 & H3). destruct (Hcol _ _ H1) as (p' & H1' & E1). exists p'. rewrite E1. by split_and!. }
  assert (forall x, marked g x -> marked g' x) as Hm.
  { intros x (p & H1 & H2). destruct (Hcol _ _ H1) as (p' & H1' & E1). exists p'. by rewrite E1. }
  assert (forall x, keeps (objs g) (objs g') x) as Hks.
  { intros x p Hx. simpl. destruct (decide (x = h)) as [-> | Hne].
    - exists (set_obj b o). rewrite lookup_insert_eq. replace p with o by congruence. done.
    - exists p. rewrite lookup_insert_ne //. split; [done | apply shape_refl]. }
  split.
  - destruct Hc as ([? ?] & C2 & C3 & [? ?] & C5). unfold colors_ok. split_and!; try done.
    destruct C5 as [(C5 & C6 & C7) | C5]; [left; split_and!; try done | right]; intros k p Hkp;
      apply Hin in Hkp as [[-> ->] | [Hkp _]]; simpl; eauto.
  - intros x Hx. apply Hl. apply elem_of_app in Hx as [Hx | Hx]; [apply Hr, elem_of_app; by left | apply Hnew, elem_of_app; by right].
  - intros k p x Hkp Hsk Hx. apply Hl. apply Hin in Hkp as [[-> ->] | [Hkp _]]; [apply Hnew, elem_of_app; by left | by apply (Hou k p)].
  - intros x p Hx HDx. assert (refs D E' g' x = refs D E g x) as ->.
    { unfold refs. pose proof (msum_update (weight D g' x) (objs g) h o (set_obj b o) Ho) as Hu.
      change (weight D g' x) with (weight D g x) in *. change (roots g') with (roots g).
      change (objs g') with (<[h := set_obj b o]> (objs g)).
      rewrite (weight_source D g h x o Hs) (weight_source D g h x (set_obj b o) Hs) in Hu.
      pose proof (occ_perm x _ _ Hperm) as Hp2. rewrite !occ_app in Hp2. simpl in Hu. lia. }
    apply Hin in Hx as [[-> ->] | [Hx _]]; [by apply (Hn h o) | by apply Hn].
  - intros k p Hkp Hsk. apply Hin in Hkp as [[-> ->] | [Hkp _]].
    + apply Hwt; [done |]. intros x Hx. apply Hnew, elem_of_app. by left.
    + apply (wt_body_keeps (objs g)); [intros x _; apply Hks | by apply (Hw k)].
  - eapply Forall_impl; [exact Hp |]. intros p Hpp. apply (wt_prog_keeps (objs g)); [intros x _; apply Hks | done].
  - done.
  - intros k p x Hkp Hmk' HDk HX Hx. apply Hm. apply Hin in Hkp as [[-> ->] | [Hkp _]]; [| by apply (Hb k p)].
    destruct (Hmk Hmk' HX x Hx) as [Hx' | Hx']; [by apply (Hb h o) | done].
  - destruct Hpo as [P1 P2 P3 P4]. split; try done. intros x. rewrite -P3. simpl. rewrite lookup_insert_is_Some.
    split; [intros [<- | [_ ?]]; [by rewrite Ho | done] |]. intros. destruct (decide (h = x)); tauto.
  - unfold walk_ok in *. simpl. destruct (base g) as [bb|]; [| done]. destruct Hk as (K1 & K2 & K3). split_and!; [done | |].
    + intros x p Hx Hxs. apply Hin in Hx as [[-> ->] | [Hx _]]; [by apply (K2 h o) | by apply (K2 x p)].
    + intros Hz x p Hx Hxs. apply Hin in Hx as [[-> ->] | [Hx _]]; [by apply (K3 Hz h o) | by apply (K3 Hz x p)].
Qed.

Lemma inv_progs D E E' X g ps : Inv D E X g -> (ps ≫= prog_outs) ++ E' ≡ₚ (progs g ≫= prog_outs) ++ E ->
  Forall (wt_prog (objs g)) ps -> Inv D E' X (set_progs ps g).
Proof.
  intros [Hc Hr Hou Hn Hw Hp Ht Hb Hpo Hk] Hperm Hps. assert (roots (set_progs ps g) ++ E' ≡ₚ roots g ++ E) as Hro.
  { unfold roots. simpl. rewrite -!app_assoc. rewrite !(Permutation_app_comm (omap id (origmps g)) _) -!app_assoc.
    rewrite !(Permutation_app_comm (concat (ptrtab g)) _). rewrite !app_assoc. by rewrite Hperm. }
  split; try done.
  - intros x Hx. rewrite Hro in Hx. by apply Hr.
  - intros x o Hx HD. specialize (Hn x o Hx HD). unfold refs in *. pose proof (occ_perm x _ _ Hro) as H. rewrite (occ_app x (roots g)) (occ_app x (roots (set_progs ps g))) in H.
    change (msum (weight D (set_progs ps g) x) (objs (set_progs ps g))) with (msum (weight D g x) (objs g)). lia.
Qed.

Lemma inv_ptrtab D E E' X g t : Inv D E X g -> concat t ++ E' ≡ₚ concat (ptrtab g) ++ E -> table_ok (set_ptrtab t g) ->
  Inv D E' X (set_ptrtab t g).
Proof.
  intros [Hc Hr Hou Hn Hw Hp Ht Hb Hpo Hk] Hperm Hps. assert (roots (set_ptrtab t g) ++ E' ≡ₚ roots g ++ E) as Hro.
  { unfold roots. simpl. by rewrite -!app_assoc Hperm. }
  split; try done.
  - intros x Hx. rewrite Hro in Hx. by apply Hr.
  - intros x o Hx HD. specialize (Hn x o Hx HD). unfold refs in *. pose proof (occ_perm x _ _ Hro) as H. rewrite (occ_app x (roots g)) (occ_app x (roots (set_ptrtab t g))) in H.
    change (msum (weight D (set_ptrtab t g) x) (objs (set_ptrtab t g))) with (msum (weight D g x) (objs g)). lia.
Qed.

(** *** Marking *)

(** Objects are made grey; nothing else of them changes. *)
Definition painted (g g' : gc) : Prop :=
  ctl g' = ctl g /\ (nprop g' = nprop g \/ nprop g' = 1) /\
  forall x, match objs g !! x, objs g' !! x with
  | Some o, Some o' => o' = o \/ (color o <> sweeper g /\ o' = set_color propagator o /\ nprop g' = 1)
  | None, None => True
  | _, _ => False
  end.

Lemma painted_refl g : painted g g.
Proof. split_and!; [done | by left |]. intros x. destruct (objs g !! x); [by left | done]. Qed.

Lemma painted_l g g' x o : painted g g' -> objs g !! x = Some o ->
  exists o', objs g' !! x = Some o' /\ (o' = o \/ (color o <> sweeper g /\ o' = set_color propagator o /\ nprop g' = 1)).
Proof. intros (_ & _ & H) Hx. specialize (H x). rewrite Hx in H. destruct (objs g' !! x); [eauto | done]. Qed.

Lemma painted_changed g g' : painted g g' -> changed g g'.
Proof.
  intros (H1 & H2 & H3). split; [| done | |].
  - intros x. specialize (H3 x). destruct (objs g !! x), (objs g' !! x); try done. by destruct H3 as [-> | (_ & -> & _)].
  - intros h o o' Ho Ho'. specialize (H3 h). rewrite Ho Ho' in H3. destruct H3 as [-> | (Hs & -> & Hn)]; [by left | right].
    split; [done |]. right. split; [done | lia].
  - intros Hz. lia.
Qed.

Lemma painted_trans g1 g2 g3 : painted g1 g2 -> painted g2 g3 -> painted g1 g3.
Proof.
  intros P1 P2. assert (sweeper g2 = sweeper g1) as Es by (apply (changed_fields g1 g2), painted_changed, P1).
  destruct P1 as (H1 & H2 & H3), P2 as (K1 & K2 & K3). split_and!; [congruence | lia |].
  intros x. specialize (H3 x). specialize (K3 x). destruct (objs g1 !! x) as [o|], (objs g2 !! x) as [o'|], (objs g3 !! x) as [o2|]; try done.
  destruct H3 as [-> | (Hs & -> & Hn)], K3 as [-> | (Ks & -> & Kn)]; [by left | right | right | right]; split_and!; try done; try lia; congruence.
Qed.

Lemma painted_marked g g' x : painted g g' -> marked g x -> marked g' x.
Proof.
  intros P (o & Ho & Hm). destruct (painted_l _ _ _ _ P Ho) as (o' & Ho' & H). exists o'. split; [done |].
  destruct (changed_fields _ _ (painted_changed _ _ P)) as (_ & _ & _ & _ & _ & -> & _). destruct H as [-> | (_ & -> & _)]; [done | by right].
Qed.

Lemma inv_painted D E X g g' : Inv D E X g -> painted g g' -> Inv D E X g'.
Proof.
  intros I P. pose proof (painted_changed _ _ P) as Hch. destruct (grey_not_swept g (i_colors _ _ _ _ I)) as [_ Hgm].
  assert (forall x o', objs g' !! x = Some o' -> exists o, objs g !! x = Some o /\ ref o' = ref o /\ obj o' = obj o /\ (color o' = mutator g -> color o = mutator g)) as Hr.
  { intros x o' Ho'. destruct P as (_ & _ & P). specialize (P x). rewrite Ho' in P. destruct (objs g !! x) as [o|]; [| done].
    exists o. destruct P as [-> | (_ & -> & _)]; [done |]. split_and!; done. }
  apply (inv_change D E E X X g); try done.
  - intros x Hx. apply (i_roots _ _ _ _ I). apply elem_of_app. by right.
  - intros x o' Hx HD. destruct (Hr _ _ Hx) as (o & Hoo & -> & _). by apply (i_refs _ _ _ _ I).
  - intros h o' x Ho' Hm HD HX Hx. destruct (Hr _ _ Ho') as (o & Hoo & _ & Eb & Hc). apply (painted_marked g); [done |].
    apply (i_black _ _ _ _ I h o); try done; [by apply Hc | by rewrite -Eb].
Qed.

Lemma roots_painted g g' : painted g g' -> roots_marked g -> roots_marked g'.
Proof.
  intros P H x Hx. apply (painted_marked g); [done |]. apply H.
  destruct (changed_fields _ _ (painted_changed _ _ P)) as (E & _). by rewrite -E.
Qed.

(** A grey object is made black: then its pointers are marked. *)
Lemma inv_blacken D E g h o : Inv D E None g -> objs g !! h = Some o -> color o = propagator ->
  Inv D E (Some h) (set_objs (<[h := set_color (mutator g) o]> (objs g)) g).
Proof.
  intros I Ho Hg. destruct (grey_not_swept g (i_colors _ _ _ _ I)) as [Hgs Hgm].
  assert (forall x p, objs g !! x = Some p -> marked g x ->
    marked (set_objs (<[h := set_color (mutator g) o]> (objs g)) g) x) as Hmk.
  { intros x p Hp (p' & Hp' & Hm). unfold marked. simpl. destruct (decide (x = h)) as [-> | Hne].
    - rewrite lookup_insert_eq. exists (set_color (mutator g) o). split; [done | by left].
    - rewrite lookup_insert_ne //. eauto. }
  apply (inv_change D E E None (Some h) g); [done | | | |].
  - split; try done; [by apply (same_objs_insert _ _ o) |]. simpl. intros x p p' Hp.
    destruct (decide (x = h)) as [-> | Hne]; [rewrite lookup_insert_eq | rewrite lookup_insert_ne //]; rewrite ?Hp; intros [= <-].
    + right. simpl. split; [replace p with o by congruence; congruence | by left].
    + left. congruence.
  - intros x Hx. apply (i_roots _ _ _ _ I). apply elem_of_app. by right.
  - simpl. intros x p. destruct (decide (x = h)) as [-> | Hne]; [rewrite lookup_insert_eq | rewrite lookup_insert_ne //].
    + intros [= <-]. by apply (i_refs _ _ _ _ I h o).
    + by apply (i_refs _ _ _ _ I).
  - simpl. intros k p x Hp Hm HD HX Hx. assert (k <> h) as Hne by (intros ->; congruence). rewrite lookup_insert_ne // in Hp.
    pose proof (i_black _ _ _ _ I k p x Hp Hm HD ltac:(done) Hx) as Hmx. destruct Hmx as (q & Hq & Hqm). apply (Hmk x q Hq). by exists q.
Qed.

Lemma inv_close D E g h : Inv D E (Some h) g -> (forall o x, objs g !! h = Some o -> x ∈ outs (obj o) -> marked g x) -> Inv D E None g.
Proof.
  intros [] H. split; try done. intros k p x Hp Hm HD _ Hx. destruct (decide (k = h)) as [-> | Hne]; [by eapply H |].
  eapply i_black0; try done. congruence.
Qed.
End Steps.
