(* ===== verification/GcToy.v ===== *)
(** * The garbage collector: a small machine

    A pool that grows by an arena for every block, and a machine with one
    process in one module: enough to run the collector's code on. *)

From S2P Require Import Prelude Heap Pool PoolArena Gc GcPool GcInv.
Import Gc.

#[local] Open Scope Z_scope.

(** ** A pool *)

Fixpoint top (ars : list arena) : Z := match ars with [] => 0 | ar :: ars => Z.max (ceiling ar) (top ars) end.

Definition toy_alloc (ars : list arena) (n : Z) : option (list arena * Z) :=
  if n <=? 0 then None else let u := top ars + 1 in Some ((u, [(n, Some Pool.MAGIC_A)]) :: ars, floor u).

Fixpoint take_used (b a : Z) (bs : list block) : option (list block * Z * list block) :=
  match bs with
  | [] => None
  | (n, st) :: bs =>
      if (b =? a) && match st with Some _ => true | None => false end then Some ([], n, bs)
      else '(l, m, r) ← take_used (b + n) a bs; Some ((n, st) :: l, m, r)
  end.

Fixpoint toy_free (ars : list arena) (a : Z) : list arena :=
  match ars with
  | [] => []
  | (ab, bs) :: ars =>
      match take_used (floor ab) a bs with
      | Some (l, n, r) => (ab, joined l n r) :: ars
      | None => (ab, bs) :: toy_free ars a
      end
  end.

Section ToyPool.

Lemma top_above ars ar : ar ∈ ars -> ceiling ar <= top ars.
Proof. induction ars as [| ar' ars IH]; [by intros ?%not_elem_of_nil |]. simpl. intros [-> | Hin]%elem_of_cons; [lia |]. specialize (IH Hin). lia. Qed.

Lemma top_pos ars : 0 <= top ars.
Proof. induction ars; simpl; lia. Qed.

Lemma toy_alloc_step ars n ars' a : toy_alloc ars n = Some (ars', a) -> alloc_step ars a ars'.
Proof.
  unfold toy_alloc. destruct (Z.leb_spec n 0) as [L | L]; [done |]. intros [= <- <-].
  apply (alloc_arena ars (top ars + 1) n []); [done | constructor | pose proof (top_pos ars); lia |].
  apply Forall_forall. intros ar Har. left. pose proof (top_above ars ar Har). lia.
Qed.

Lemma take_used_some b a bs l n r : take_used b a bs = Some (l, n, r) -> exists m, bs = l ++ (n, Some m) :: r /\ a = b + total l.
Proof.
  revert b l. induction bs as [| [k st] bs IH]; intros b l; [done |]. cbn [take_used]. destruct ((b =? a) && _) eqn:E.
  - intros [= <- <- <-]. apply andb_prop in E as [E1%Z.eqb_eq E2]. destruct st as [m |]; [| done]. exists m. split; [done | simpl; lia].
  - destruct (take_used (b + k) a bs) as [[[l' m'] r'] |] eqn:Et; [| done]. simpl. intros [= <- <- <-].
    destruct (IH _ _ Et) as (m & -> & ->). exists m. split; [done | simpl; lia].
Qed.

Lemma take_used_found b a bs n m : (a, (n, Some m)) ∈ placed b bs -> take_used b a bs <> None.
Proof.
  revert b. induction bs as [| [k st] bs IH]; intros b; cbn [placed take_used]; [by intros ?%not_elem_of_nil |].
  intros [[= -> -> <-] | Hin]%elem_of_cons; [by rewrite Z.eqb_refl |]. destruct (_ && _); [done |].
  specialize (IH _ Hin). destruct (take_used _ _ _) as [[[l' m'] r'] |]; done.
Qed.

Lemma toy_free_step ars a n : (a, n) ∈ used_in (blocks_of ars) -> free_step ars a (toy_free ars a).
Proof.
  unfold used_in. rewrite list_elem_of_omap. intros ([x [k st]] & Hx & Ex). simpl in Ex. destruct st as [m |]; [| done]. injection Ex as -> ->.
  apply blocks_of_in in Hx as (ar & Har & Hpl). induction ars as [| [ab bs] ars IH]; [by apply not_elem_of_nil in Har |]. cbn [toy_free].
  destruct (take_used (floor ab) a bs) as [[[l k] r] |] eqn:Et.
  - destruct (take_used_some _ _ _ _ _ _ Et) as (m' & -> & ->). apply (free_block_step [] ab l k m' r ars).
  - apply elem_of_cons in Har as [-> | Har]; [by destruct (take_used_found _ _ _ _ _ Hpl) |].
    destruct (IH Har) as [as1 ab' bs1 k m' bs2 as2]. apply (free_block_step ((ab, bs) :: as1)).
Qed.
End ToyPool.

#[export] Instance toy_pool : HeapPool := {| palloc := toy_alloc; pfree := toy_free; palloc_step := toy_alloc_step; pfree_step := toy_free_step |}.

(** ** A machine *)

(** The link to a module, with a pointer to its data; a frame of five pointers. *)
Definition Tmodlink := MkType 8 [128].
Definition Tframe := MkType 20 [248].

Definition toy : gc := MkGc {[33 := MkHeap 0 1 (Data Tmodlink [Ptr None; Word 0])]} [(1, [(20, Some Pool.MAGIC_A)])]
  [MkProg 33 [MkStkext Tframe [MkFrame None None (replicate 5 (Ptr None))]] []] [] (replicate 32 []) 0 1 2 3 0 0 0 None 0 0 ∅.

Section Toy.

Lemma toy_at x o : objs toy !! x = Some o -> x = 33 /\ o = MkHeap 0 1 (Data Tmodlink [Ptr None; Word 0]).
Proof. simpl. intros H. apply lookup_singleton_Some in H as [<- <-]. done. Qed.

Lemma toy_module : is_module (objs toy) 33.
Proof. exists (MkHeap 0 1 (Data Tmodlink [Ptr None; Word 0])), Tmodlink, [Ptr None; Word 0]. split_and!; [done | done | vm_compute; by left]. Qed.

Lemma toy_roots x : x ∈ roots toy -> x = 33.
Proof. assert (roots toy = [33]) as -> by (by vm_compute). apply list_elem_of_singleton. Qed.

Lemma toy_live x : x ∈ roots toy -> live ∅ toy x.
Proof. intros ->%toy_roots. eexists. split; [by vm_compute |]. split; [done | set_solver]. Qed.

Lemma wt_words_decide t ws : Forall (fun k => match ws !! k with Some (Ptr _) => True | _ => False end) (slots t) ->
  Forall (fun k => match ws !! k with Some (Ptr _) => k ∈ slots t | _ => True end) (seq 0 (length ws)) -> wt_words t ws.
Proof.
  intros H1 H2 k. rewrite Forall_forall in H1. rewrite Forall_forall in H2. split.
  - intros [p Hp]. specialize (H2 k). rewrite Hp in H2. apply H2. apply elem_of_seq. apply lookup_lt_Some in Hp. lia.
  - intros Hk. specialize (H1 k Hk). destruct (ws !! k) as [[z | p] |]; [done | eauto | done].
Qed.

Lemma toy_inv : Inv ∅ [] None toy.
Proof.
  split.
  - split; [done |]. split; [done |]. split; [done |]. split; [done |]. right. intros h o [_ ->]%toy_at. by left.
  - intros x Hx. rewrite app_nil_r in Hx. by apply toy_live.
  - intros h o x [_ ->]%toy_at _ Hx. by apply not_elem_of_nil in Hx.
  - intros x o [-> ->]%toy_at _. by vm_compute.
  - intros h o [_ ->]%toy_at _. apply wt_words_decide; [by repeat constructor |].
    vm_compute. repeat constructor.
  - constructor; [| constructor]. split; [apply toy_module |]. constructor; [| constructor]. constructor; [| constructor]. split; [| done].
    apply wt_words_decide; [by repeat constructor |].
    apply Forall_forall. intros k Hk. destruct (_ !! k) as [[z | p] |]; try done.
  - split; [done |]. intros i b h Hi Hh. apply lookup_replicate in Hi as [-> _]. by apply not_elem_of_nil in Hh.
  - intros h o x [_ ->]%toy_at _ _ _ Hx. by apply not_elem_of_nil in Hx.
  - split.
    + constructor; [| constructor]. constructor; [done | constructor].
    + split; [constructor | done].
    + intros x. split.
      * intros [o [-> _]%toy_at]. exists 20. by left.
      * intros [n Hn]. simpl in Hn. apply list_elem_of_singleton in Hn as [= -> _]. by eexists.
    + intros x n m Hx. simpl in Hx. apply list_elem_of_singleton in Hx. by injection Hx as _ _ <-.
  - done.
Qed.

Lemma toy_marked : roots_marked toy.
Proof. intros x ->%toy_roots. eexists. split; [by vm_compute | by left]. Qed.
End Toy.
