(* ===== verification/GcRun.v ===== *)
(** * The garbage collector: reasoning about its code

    What a piece of code ends in, loops over pointers, and the words of objects
    as their types see them. *)

From S2P Require Import Prelude Heap Pool PoolArena Gc GcPool GcInv.
Import Gc.

#[local] Open Scope Z_scope.

(** ** Results *)

(** [m] ends, in a state that [Q] describes; it may raise an error when [R]
    holds of the state then. *)
Definition ends {A} (m : M A) (Q : A -> gc -> Prop) (R : exn -> gc -> Prop) (g : gc) : Prop :=
  match m g with Ret a g' => Q a g' | Raise e g' => R e g' | Fault => False end.
Definition never (e : exn) (g : gc) : Prop := False.
Abbreviation runs m Q := (ends m Q never).

Section Rules.

Lemma ends_bind {A B} m (k : A -> M B) Q R g : ends m (fun a g' => ends (k a) Q R g') R g -> ends (m ≫= k) Q R g.
Proof. unfold ends, mbind, m_bind. by destruct (m g). Qed.

Lemma ends_seq {A} (m m' : M unit) (k : M A) Q R g : ends (m;; m') (fun _ g' => ends k Q R g') R g -> ends (m;; m';; k) Q R g.
Proof. unfold ends, mbind, m_bind. destruct (m g) as [? g' | |]; try done. by destruct (m' g'). Qed.

Context {A : Type}.
Implicit Types (m : M A) (Q : A -> gc -> Prop) (R : exn -> gc -> Prop).

Lemma ends_ret Q R a g : Q a g -> ends (mret a) Q R g.
Proof. done. Qed.

Lemma ends_mono m Q Q' R R' g : ends m Q R g -> (forall a g', Q a g' -> Q' a g') -> (forall e g', R e g' -> R' e g') -> ends m Q' R' g.
Proof. unfold ends. destruct (m g); eauto. Qed.

Lemma runs_ends m Q Q' R g : runs m Q g -> (forall a g', Q a g' -> Q' a g') -> ends m Q' R g.
Proof. intros H HQ. apply (ends_mono _ _ _ _ _ _ H HQ). by intros e g' []. Qed.

Lemma ends_getg (f : gc -> A) Q R g : Q (f g) g -> ends (getg f) Q R g.
Proof. done. Qed.

Lemma ends_from (o : option A) a Q R g : o = Some a -> Q a g -> ends (from o) Q R g.
Proof. by intros ->. Qed.

Lemma ends_error e Q R g : R e g -> ends (error e) Q R g.
Proof. done. Qed.
End Rules.

Lemma ends_modify f (Q : unit -> gc -> Prop) R g : Q tt (f g) -> ends (modify f) Q R g.
Proof. done. Qed.

Lemma ends_heap_at h o (Q : Heap -> gc -> Prop) R g : objs g !! h = Some o -> Q o g -> ends (heap_at h) Q R g.
Proof. intros E H. unfold ends, heap_at. by rewrite E. Qed.

Lemma ends_mod_heap h f o (Q : unit -> gc -> Prop) R g :
  objs g !! h = Some o -> Q tt (set_objs (<[h := f o]> (objs g)) g) -> ends (mod_heap h f) Q R g.
Proof. intros E H. unfold mod_heap. apply ends_bind. by apply (ends_heap_at _ o). Qed.

Lemma ends_list_at h o l (Q : List_ -> gc -> Prop) R g : objs g !! h = Some o -> obj o = Lst l -> Q l g -> ends (list_at h) Q R g.
Proof. intros E El H. unfold list_at. apply ends_bind, (ends_heap_at _ o); [done |]. by rewrite El. Qed.

Lemma ends_array_at h o a (Q : Array -> gc -> Prop) R g : objs g !! h = Some o -> obj o = Arr a -> Q a g -> ends (array_at h) Q R g.
Proof. intros E El H. unfold array_at. apply ends_bind, (ends_heap_at _ o); [done |]. by rewrite El. Qed.

Lemma ends_ptr_in ws k p (Q : option Z -> gc -> Prop) R g : ws !! k = Some (Ptr p) -> Q p g -> ends (ptr_in ws k) Q R g.
Proof. intros E H. unfold ptr_in. rewrite E. exact H. Qed.

(** One step of straight code. *)
Ltac run :=
  lazymatch goal with
  | |- ends (mbind _ _) _ _ _ => apply ends_bind
  | |- ends (mret _) _ _ _ => apply ends_ret
  | |- ends (modify _) _ _ _ => apply ends_modify
  | |- ends (getg _) _ _ _ => apply ends_getg
  | |- ends (error _) _ _ _ => apply ends_error
  | |- ends (heap_at _) _ _ _ => eapply ends_heap_at; [eassumption |]
  | |- ends (mod_heap _ _) _ _ _ => eapply ends_mod_heap; [eassumption |]
  | |- ends (set_heap _ _) _ _ _ => apply ends_modify
  | |- ends (list_at _) _ _ _ => eapply ends_list_at; [eassumption | eassumption |]
  | |- ends (array_at _) _ _ _ => eapply ends_array_at; [eassumption | eassumption |]
  | |- ends (ptr_in _ _) _ _ _ => eapply ends_ptr_in; [eassumption |]
  | |- ends (from _) _ _ _ => eapply ends_from; [first [eassumption | reflexivity] |]
  end; cbv beta.

(** A loop: [P] of what is left to be done. *)
Lemma runs_forM {A} (P : list A -> gc -> Prop) (xs : list A) f g : P xs g ->
  (forall x xs g, P (x :: xs) g -> runs (f x) (fun _ g' => P xs g') g) -> runs (forM xs f) (fun _ g' => P [] g') g.
Proof.
  intros HP Hf. revert g HP. induction xs as [| x xs IH]; intros g HP; simpl; [done |].
  apply ends_bind. eapply runs_ends; [by apply Hf |]. intros [] g' Hg'. by apply IH.
Qed.

(** ** Slots *)

Section Slots.

Lemma slots_at_range i m k : k ∈ slots_at i m -> (i <= k)%nat.
Proof.
  revert i. induction m as [| c m IH]; intros i; simpl; [by intros ?%not_elem_of_nil |].
  intros [Hk | Hk]%elem_of_app; [| apply IH in Hk; lia]. apply list_elem_of_fmap in Hk as (j & -> & _). lia.
Qed.

Lemma bits_lt c k : k ∈ bits c -> (k < 8)%nat.
Proof. unfold bits. intros [_ H]%list_elem_of_filter. apply elem_of_seq in H. lia. Qed.

Lemma slots_at_nodup i m : NoDup (slots_at i m).
Proof.
  revert i. induction m as [| c m IH]; intros i; simpl; [constructor |]. apply NoDup_app. split_and!; [| | apply IH].
  - apply NoDup_fmap_2_strong; [intros; lia |]. unfold bits. apply NoDup_filter, NoDup_seq.
  - intros k Hk Hk'. apply slots_at_range in Hk'. apply list_elem_of_fmap in Hk as (j & -> & Hj%bits_lt). lia.
Qed.

Lemma slots_nodup t : NoDup (slots t).
Proof. apply slots_at_nodup. Qed.

Lemma slots_down_perm t : slots_down t ≡ₚ slots t.
Proof.
  unfold slots_down, slots. generalize 0%nat. induction (tmap t) as [| c m IH]; intros i; simpl; [done |].
  rewrite IH. by rewrite reverse_Permutation.
Qed.

Definition ptr_at (ws : list val) (k : nat) : option Z := v ← ws !! k; ptr_of v.
Definition ptrs_at (ks : list nat) (ws : list val) : list Z := omap (ptr_at ws) ks.

Lemma ptrs_seq ws : ptrs ws = ptrs_at (seq 0 (length ws)) ws.
Proof.
  induction ws as [| v ws IH] using rev_ind; [done |].
  unfold ptrs, ptrs_at. rewrite length_app seq_app !omap_app /=. f_equal.
  - rewrite -/(ptrs ws) IH. unfold ptrs_at. apply list_omap_ext, Forall2_same_length_lookup_2; [done |].
    intros i k k' Hk Hk'. replace k' with k by congruence. apply lookup_seq in Hk as [-> Hlt]. unfold ptr_at.
    by rewrite lookup_app_l.
  - unfold ptr_at. rewrite lookup_app_r // Nat.sub_diag /=. by destruct (ptr_of v).
Qed.

Lemma ptrs_perm ks ws : NoDup ks -> (forall k, (exists p, ws !! k = Some (Ptr p)) <-> k ∈ ks) -> ptrs ws ≡ₚ ptrs_at ks ws.
Proof.
  intros Hnd Hks. rewrite ptrs_seq. assert (ks ⊆ seq 0 (length ws)) as Hsub.
  { intros k Hk. apply Hks in Hk as [p Hp]. apply elem_of_seq. apply lookup_lt_Some in Hp. lia. }
  destruct (submseteq_Permutation _ _ (NoDup_submseteq _ _ Hnd Hsub)) as [rest Hrest].
  unfold ptrs_at. rewrite Hrest omap_app. assert (omap (ptr_at ws) rest = []) as ->; [| by rewrite app_nil_r].
  clear Hsub. enough (forall k, k ∈ rest -> ptr_at ws k = None) as Hno.
  { clear Hrest. induction rest as [| k rest IH]; simpl; [done |]. rewrite (Hno k); [| by left]. apply IH. intros k' Hk'. apply Hno. by right. }
  intros k Hk. unfold ptr_at. destruct (ws !! k) as [[z | p] |] eqn:E; try done. exfalso.
  assert (k ∈ ks) as Hin by (apply Hks; eauto). pose proof (NoDup_seq 0 (length ws)) as Hn. rewrite Hrest in Hn.
  apply NoDup_app in Hn as (_ & Hn & _). by apply (Hn k).
Qed.
End Slots.
