(* ===== verification/GcFree.v ===== *)
(** * The garbage collector: freeing

    [destroy] gives up a reference and frees what it was the last one to, and
    so on down; the depth of the recursion is bounded by [gchalt].  Whatever is
    freed is what nothing refers to. *)

From S2P Require Import Prelude Heap Pool PoolArena Gc GcPool GcInv GcRun.
Import Gc.

#[local] Open Scope Z_scope.

(** ** What freeing leaves as it was *)

Definition rest (g : gc) :=
  (progs g, origmps g, ptrtab g, (mutator g, marker g, sweeper g, gccolor g),
   (gchalt g, base g, ptr_ g, limit g), (nprop g, visit g)).

(** Some objects are gone, not those of [D]; the others have their colour and
    what they hold. *)
Record freed (D : gset Z) (g g' : gc) : Prop := {
  fr_rest : rest g' = rest g;
  fr_objs : forall x o', objs g' !! x = Some o' -> exists o, objs g !! x = Some o /\ color o' = color o /\ obj o' = obj o;
  fr_kept : forall x, x ∈ D -> is_Some (objs g !! x) -> is_Some (objs g' !! x);
}.

Section Freed.

Lemma freed_refl D g : freed D g g.
Proof. split; eauto. Qed.

Lemma freed_trans D g1 g2 g3 : freed D g1 g2 -> freed D g2 g3 -> freed D g1 g3.
Proof.
  intros [H1 H2 H3] [K1 K2 K3]. split; [congruence | | eauto].
  intros x o3 Hx. destruct (K2 x o3 Hx) as (o2 & Hx2 & E1 & E2). destruct (H2 x o2 Hx2) as (o1 & Hx1 & F1 & F2).
  exists o1. split_and!; congruence.
Qed.

Lemma freed_sub D D' g g' : D ⊆ D' -> freed D' g g' -> freed D g g'.
Proof. intros Hs [H1 H2 H3]. split; [done | done |]. intros x Hx. apply H3. set_solver. Qed.

Lemma freed_doom h D g g' : freed ({[h]} ∪ D) g g' -> freed D g g'.
Proof. apply freed_sub. set_solver. Qed.

Lemma freed_ref D g h o n : objs g !! h = Some o -> freed D g (set_objs (<[h := set_ref n o]> (objs g)) g).
Proof.
  intros Ho. split; [done | |]; simpl; intros x.
  - intros o'. destruct (decide (x = h)) as [-> | Hne]; [rewrite lookup_insert_eq | rewrite lookup_insert_ne //]; [intros [= <-] |]; eauto.
  - intros _ Hx. rewrite lookup_insert_is_Some'. by right.
Qed.

Lemma freed_delete D g h ars : (h ∉ D) -> freed D g (set_heapmem ars (set_objs (delete h (objs g)) g)).
Proof.
  intros HD. split; [done | |]; simpl; intros x.
  - intros o'. destruct (decide (x = h)) as [-> | Hne]; [by rewrite lookup_delete_eq | rewrite lookup_delete_ne //]. eauto.
  - intros Hx. rewrite lookup_delete_ne; [done |]. by intros ->.
Qed.

Lemma freed_halt g g' : freed ∅ g g' -> gchalt g' = gchalt g.
Proof. intros [H _ _]. unfold rest in H. congruence. Qed.

Lemma freed_size D g g' : freed D g g' -> (base.size (objs g') <= base.size (objs g))%nat.
Proof.
  intros [_ H _]. rewrite -!size_dom. apply subseteq_size. intros x [o' Ho']%elem_of_dom.
  destruct (H x o' Ho') as (o & Ho & _). apply elem_of_dom. eauto.
Qed.
End Freed.

(** ** Elements of arrays *)

Definition elem_words (t : Type_) (off : Z) (i : nat) (ws : list val) : list val :=
  take (Z.to_nat (size t / 4)) (drop (Z.to_nat ((off + Z.of_nat i * size t) / 4)) ws).

Section Elements.

Lemma elem_words_lookup t n i ws j : (j < Z.to_nat (size t / 4))%nat -> size t mod 4 = 0 -> 0 <= size t -> 0 <= n ->
  elem_words t (n * size t) i ws !! j = ws !! ((Z.to_nat n + i) * Z.to_nat (size t / 4) + j)%nat.
Proof.
  intros Hj Hm Hs Hn. unfold elem_words. rewrite lookup_take_lt // lookup_drop. f_equal.
  assert (size t = 4 * (size t / 4)) as E by (pose proof (Z_div_mod_eq_full (size t) 4); lia).
  set (w := size t / 4) in *. replace (n * size t + Z.of_nat i * size t) with ((n + Z.of_nat i) * w * 4) by (rewrite E; ring).
  rewrite Z.div_mul // Z2Nat.inj_mul; [| lia | unfold w; lia]. rewrite Z2Nat.inj_add; [| lia | lia]. by rewrite Nat2Z.id.
Qed.

Lemma ptrs_at_cons k ks ws : ptrs_at (k :: ks) ws = option_list (ptr_at ws k) ++ ptrs_at ks ws.
Proof. unfold ptrs_at. simpl. by destruct (ptr_at ws k). Qed.

Lemma ptrs_at_ext ks ws ks' ws' (f : nat -> nat) : ks' = map f ks -> (forall k, k ∈ ks -> ws !! k = ws' !! f k) ->
  ptrs_at ks ws = ptrs_at ks' ws'.
Proof.
  intros -> H. induction ks as [| k ks IH]; [done |]. change (map f (k :: ks)) with (f k :: map f ks). rewrite !ptrs_at_cons. rewrite IH; [| intros; apply H; by right].
  unfold ptr_at. by rewrite (H k); [| left].
Qed.

Lemma omap_bind {A B} (f : A -> list nat) (g : nat -> option B) xs : omap g (xs ≫= f) = xs ≫= (fun x => omap g (f x)).
Proof. induction xs as [| x xs IH]; simpl; [done |]. by rewrite omap_app IH. Qed.

Lemma bind_perm {A B} (f f' : A -> list B) xs : (forall x, x ∈ xs -> f x ≡ₚ f' x) -> xs ≫= f ≡ₚ xs ≫= f'.
Proof.
  induction xs as [| x xs IH]; intros H; simpl; [done |]. apply Permutation_app; [apply H; by left |].
  apply IH. intros y Hy. apply H. by right.
Qed.

(** The pointers of an array are those of its elements. *)
Lemma array_perm m a : wt_array m a -> root a = None ->
  ptrs (a_data a) ≡ₚ seq 0 (Z.to_nat (len a)) ≫= fun i => ptrs_at (slots_down (a_t a)) (elem_words (a_t a) (off a) i (a_data a)).
Proof.
  intros (Hl & Hs & Ha) Hr. rewrite Hr in Ha. destruct Ha as (-> & Hj & Hp1 & Hp2). set (t := a_t a) in *. set (w := Z.to_nat (size t / 4)).
  rewrite (ptrs_perm (seq 0 (Z.to_nat (len a)) ≫= fun i => map (fun j => (i * w + j)%nat) (slots t))).
  - unfold ptrs_at at 1. rewrite omap_bind. apply bind_perm. intros i Hi. apply elem_of_seq in Hi.
    fold (ptrs_at (map (fun j => (i * w + j)%nat) (slots t)) (a_data a)).
    trans (ptrs_at (slots t) (elem_words t 0 i (a_data a))); [| unfold ptrs_at; by rewrite slots_down_perm].
    apply reflexive_eq. symmetry. apply (ptrs_at_ext _ _ _ _ (fun j => (i * w + j)%nat)); [done |].
    intros k Hk. destruct (Hj k Hk) as [H1 H2]. by rewrite -(elem_words_lookup t 0 i) //.
  - apply NoDup_bind; [| | apply NoDup_seq].
    + intros i i' k _ _ H1 H2. apply list_elem_of_fmap in H1 as (j & -> & J1), H2 as (j' & E & J2).
      destruct (Hj j J1) as [J1' _], (Hj j' J2) as [J2' _]. fold w in J1', J2'. nia.
    + intros i _. apply NoDup_fmap_2_strong; [intros; lia | apply slots_nodup].
  - intros k. rewrite list_elem_of_bind. split.
    + intros [p Hp]. destruct (Hp1 k p Hp) as (i & Hi & j & Hjt & ->). exists i. split; [| apply elem_of_seq; lia].
      apply list_elem_of_fmap. by exists j.
    + intros (i & Hk & Hi). apply list_elem_of_fmap in Hk as (j & -> & Hjt). apply elem_of_seq in Hi. apply (Hp2 i j); [lia | done].
Qed.

Lemma array_elem m a i k : wt_array m a -> root a = None -> (i < Z.to_nat (len a))%nat -> k ∈ slots (a_t a) ->
  exists p, elem_words (a_t a) (off a) i (a_data a) !! k = Some (Ptr p).
Proof.
  intros (Hl & Hs & Ha) Hr Hi Hk. rewrite Hr in Ha. destruct Ha as (-> & Hj & Hp1 & Hp2). destruct (Hj k Hk) as [H1 H2].
  change 0 with (0 * size (a_t a)). rewrite elem_words_lookup //. apply Hp2; [lia | done].
Qed.
End Elements.

(** ** What is given up *)

(** The objects that [destroy] goes down to from [h] with [k] calls; the tails of
    a list do not count. *)
Definition data_outs (b : body) : list Z := match b with Lst l => ptrs (l_data l) | b => outs b end.

Inductive nested (g : gc) : nat -> Z -> Z -> Prop :=
  | nested_here h : nested g 0 h h
  | nested_out k h o x y : objs g !! h = Some o -> x ∈ data_outs (obj o) -> nested g k x y -> nested g (S k) h y
  | nested_tail k h o l t y : objs g !! h = Some o -> obj o = Lst l -> tail l = Some t -> nested g k t y -> nested g k h y.

(** The references of [E0] but not of [E] are given up: with each, the count of an
    object goes down by one, and no other count changes but for the references
    that were of what is freed.  Only objects of [L] are left with no count. *)
Record given (D : gset Z) (E0 E : list Z) (L : Z -> Prop) (g g' : gc) : Prop := {
  gv_freed : freed D g g';
  gv_exact : forall x o o', objs g !! x = Some o -> objs g' !! x = Some o' ->
    ref o' - Z.of_nat (refs D E g' x) = ref o - Z.of_nat (refs D E0 g x);
  gv_left : forall x o o', objs g !! x = Some o -> objs g' !! x = Some o' -> 0 < ref o -> ref o' <= 0 -> L x;
}.

Section Given.

Lemma nested_objs g g' k h x : (forall h o', objs g' !! h = Some o' -> exists o, objs g !! h = Some o /\ obj o' = obj o) ->
  nested g' k h x -> nested g k h x.
Proof.
  intros Ho. induction 1 as [h | k h o' y z Hh Hy _ IH | k h o' l t z Hh Hl Ht _ IH]; [constructor | |];
    destruct (Ho h o' Hh) as (o & Hq & Eb).
  - apply (nested_out g k h o y); [done | by rewrite -Eb | done].
  - apply (nested_tail g k h o l t); [done | congruence | done | done].
Qed.

Lemma nested_freed D g g' k h x : freed D g g' -> nested g' k h x -> nested g k h x.
Proof. intros [_ Ho _]. apply nested_objs. intros y o' Hy. destruct (Ho y o' Hy) as (o & ? & _ & ?). eauto. Qed.

Lemma given_refl D E L g : given D E E L g g.
Proof. split; [apply freed_refl | |]; intros x o o' Ho Ho'; assert (o' = o) as -> by congruence; [done | lia]. Qed.

Lemma given_weaken D E0 E (L L' : Z -> Prop) g g' : (forall x, L x -> L' x) -> given D E0 E L g g' -> given D E0 E L' g g'.
Proof. intros HL [? ? Hl]. split; [done | done |]. intros x o o' Ho Ho' H1 H2. by eapply HL, Hl. Qed.

Lemma given_trans D E0 E1 E2 L g1 g2 g3 : given D E0 E1 L g1 g2 -> given D E1 E2 L g2 g3 -> given D E0 E2 L g1 g3.
Proof.
  intros [F1 X1 L1] [F2 X2 L2]. assert (forall x o', objs g3 !! x = Some o' -> exists o, objs g2 !! x = Some o) as Hm.
  { intros x o' Ho'. destruct (fr_objs _ _ _ F2 x o' Ho') as (o & ? & _). eauto. }
  split; [by eapply freed_trans | |]; intros x o o' Ho Ho'; destruct (Hm x o' Ho') as [o2 Ho2].
  - rewrite (X2 x o2 o') // (X1 x o o2) //.
  - intros H1 H2. destruct (decide (0 < ref o2)); [by apply (L2 x o2 o') | apply (L1 x o o2); done || lia].
Qed.

Lemma given_perm D E0 E0' E E' L g g' : E0 ≡ₚ E0' -> E ≡ₚ E' -> given D E0 E L g g' -> given D E0' E' L g g'.
Proof.
  intros H0 H1 [F X Lx]. split; [done | | done]. intros x o o' Ho Ho'. rewrite -(refs_perm _ _ _ _ _ H0) -(refs_perm _ _ _ _ _ H1). by apply X.
Qed.

(** The count of an object goes down. *)
Lemma given_drop D E (L : Z -> Prop) g h o : objs g !! h = Some o -> (ref o <= 1 -> L h) ->
  given D (h :: E) E L g (set_objs (<[h := set_ref (ref o - 1) o]> (objs g)) g).
Proof.
  intros Ho HL. set (g1 := set_objs _ _).
  assert (forall x, refs D E g1 x = refs D E g x) as Hn.
  { intros x. unfold refs. f_equal. f_equal. apply msum_same; [by apply (same_objs_insert _ h o) |].
    intros k p p' Hp Hp' Eb. unfold weight. destruct (decide (k = h)) as [-> | Hne].
    - simpl in Hp'. rewrite lookup_insert_eq in Hp'. injection Hp' as <-. assert (p = o) as -> by congruence. done.
    - simpl in Hp'. rewrite lookup_insert_ne // in Hp'. assert (p' = p) as -> by congruence. done. }
  split; [by apply freed_ref | |]; intros x p p' Hp Hp'; simpl in Hp'; (destruct (decide (x = h)) as [-> | Hne];
    [rewrite lookup_insert_eq in Hp'; injection Hp' as <-; assert (p = o) as -> by congruence; simpl |
     rewrite lookup_insert_ne // in Hp'; assert (p' = p) as -> by congruence]).
  - rewrite Hn refs_cons decide_True //. lia.
  - rewrite Hn refs_cons decide_False //.
  - intros _ ?. apply HL. lia.
  - lia.
Qed.

(** An object that nothing refers to gives its references up, and goes. *)
Lemma given_free D E E' L g h o g2 g3 : objs g !! h = Some o -> source D g h o ->
  given ({[h]} ∪ D) (outs (obj o) ++ E) E' L g g2 -> objs g3 = delete h (objs g2) -> freed D g2 g3 -> given D E E' L g g3.
Proof.
  intros Ho Hs [F X Lx] E3 F3. assert (freed D g g3) as F' by (eapply freed_trans; [by apply (freed_doom h) | done]).
  destruct (fr_kept _ _ _ F h) as [o2 Ho2]; [set_solver | by eexists |].
  assert (forall x p', objs g3 !! x = Some p' -> objs g2 !! x = Some p') as Hin.
  { intros x p'. rewrite E3. intros [_ ?]%lookup_delete_Some. done. }
  assert (roots g3 = roots g2 /\ sweeper g3 = sweeper g2) as [Er Es].
  { pose proof (fr_rest _ _ _ F3) as R. unfold rest in R. unfold roots. injection R as R1 R2 R3 R4 R5 R6. by rewrite R1 R2 R3. }
  assert (forall x, refs D E' g3 x = refs ({[h]} ∪ D) E' g2 x) as H1.
  { intros x. unfold refs. rewrite Er E3 (msum_delete _ _ _ _ Ho2) weight_in; [| set_solver]. f_equal. f_equal. simpl. apply msum_ext.
    intros k p Hk. rewrite weight_doom; [| intros ->; by rewrite lookup_delete_eq in Hk]. unfold weight. destruct (decide (source D g3 k p)) as [[H3 H4] | H3], (decide (source D g2 k p)) as [[H5 H6] | H5]; try done;
      exfalso; [apply H5 | apply H3]; split; congruence. }
  assert (forall x, refs ({[h]} ∪ D) (outs (obj o) ++ E) g x = refs D E g x) as H2.
  { intros x. rewrite (refs_doom _ _ _ _ _ _ Ho) weight_source //. unfold refs. rewrite occ_app. lia. }
  split; [done | |]; intros x p p' Hp Hp'; apply Hin in Hp'.
  - rewrite H1 -H2. by apply X.
  - by apply (Lx x p p').
Qed.

Lemma given_gone D E0 E (L : Z -> Prop) g g' h : given D E0 E (fun x => L x \/ x = h) g g' -> objs g' !! h = None -> given D E0 E L g g'.
Proof.
  intros [F X Lx] Hh. split; [done | done |]. intros x o o' Ho Ho' H1 H2. destruct (Lx x o o' Ho Ho' H1 H2) as [? | ->]; [done | congruence].
Qed.
End Given.

(** ** Destroying *)

Section Destroy.
Context `{HeapPool}.

(** The calls that are left when [gchalt] is [c]. *)
Definition room (c : Z) : nat := Z.to_nat (65 - c).
(** Of the objects that [hs] lead to, those that are too far down. *)
Definition below (g : gc) (k : nat) (hs : list Z) (x : Z) : Prop := exists h, h ∈ hs /\ nested g k h x.

(** [d] gives up a reference that was on its way. *)
Definition destroys (c : Z) (d : option Z -> M unit) : Prop := forall v D E X g,
  Inv D (option_list v ++ E) X g -> gchalt g = c ->
  runs (d v) (fun _ g' => Inv D E X g' /\ given D (option_list v ++ E) E (below g (room c) (option_list v)) g g' /\
    forall h o, v = Some h -> objs g !! h = Some o -> ref o <= 1 -> c <= 64 -> objs g' !! h = None) g.

Lemma given_next D E0 E1 E2 k hs hs' g g1 g2 : (forall y, y ∈ hs' -> y ∈ hs) ->
  given D E0 E1 (below g k hs) g g1 -> given D E1 E2 (below g1 k hs') g1 g2 -> given D E0 E2 (below g k hs) g g2.
Proof.
  intros Hsub G1 G2. apply (given_trans _ _ E1 _ _ _ g1); [done |]. eapply given_weaken; [| exact G2].
  intros x (y & Hy & Hn). exists y. split; [by apply Hsub | by apply (nested_freed D g g1 _ _ _ (gv_freed _ _ _ _ _ _ G1))].
Qed.

Lemma given_more D E0 E k hs hs' g g' : (forall y, y ∈ hs -> y ∈ hs') -> given D E0 E (below g k hs) g g' -> given D E0 E (below g k hs') g g'.
Proof. intros Hs. apply given_weaken. intros x (y & Hy & Hn). exists y. auto. Qed.

Lemma given_halt D E0 E L g g' : given D E0 E L g g' -> gchalt g' = gchalt g.
Proof. intros [[H0 _ _] _ _]. unfold rest in H0. congruence. Qed.

Section Loops.
Context (c : Z) (d : option Z -> M unit) (Hd : destroys c d).

Lemma each_destroy ks ws D E X g : (forall k, k ∈ ks -> exists p, ws !! k = Some (Ptr p)) ->
  Inv D (ptrs_at ks ws ++ E) X g -> gchalt g = c ->
  runs (each_ptr ks ws (fun h => d (Some h)))
    (fun _ g' => Inv D E X g' /\ given D (ptrs_at ks ws ++ E) E (below g (room c) (ptrs_at ks ws)) g g') g.
Proof.
  intros Hk I Hc. unfold each_ptr. set (hs := ptrs_at ks ws).
  set (P := fun ks' g' => Inv D (ptrs_at ks' ws ++ E) X g' /\ given D (hs ++ E) (ptrs_at ks' ws ++ E) (below g (room c) hs) g g' /\
    (forall k, k ∈ ks' -> exists p, ws !! k = Some (Ptr p)) /\ (forall y, y ∈ ptrs_at ks' ws -> y ∈ hs)).
  eapply runs_ends; [apply (runs_forM P) | intros [] g' (I' & G' & _); by split].
  - split_and!; [done | apply given_refl | done | done].
  - clear Hk I. intros k ks' g1 (I & G & Hk & Hs). destruct (Hk k ltac:(by left)) as [p Hp]. run. run.
    assert (forall k, k ∈ ks' -> exists p, ws !! k = Some (Ptr p)) as Hk' by (intros; apply Hk; by right).
    rewrite ptrs_at_cons /ptr_at Hp /= -?app_assoc in I. rewrite ptrs_at_cons /ptr_at Hp /= -?app_assoc in G. 
    rewrite ptrs_at_cons /ptr_at Hp /= in Hs. destruct p as [h|]; [| run; by unfold P].
    eapply runs_ends; [apply (Hd (Some h)); [exact I |] |]; [by rewrite (given_halt _ _ _ _ _ _ G) |].
    intros [] g2 (I2 & G2 & _). unfold P. split_and!; [done | | done | intros y Hy; apply Hs; by right].
    eapply given_next; [| exact G | exact G2]. intros y ->%list_elem_of_singleton. apply Hs. by left.
Qed.

Lemma freeptrs_ok ws t D E X g : wt_words t ws -> Inv D (ptrs ws ++ E) X g -> gchalt g = c ->
  runs (freeptrs d ws t) (fun _ g' => Inv D E X g' /\ given D (ptrs ws ++ E) E (below g (room c) (ptrs ws)) g g') g.
Proof.
  intros Hw I Hc. unfold freeptrs.
  assert (ptrs ws ≡ₚ ptrs_at (slots_down t) ws) as Hp.
  { apply ptrs_perm; [rewrite slots_down_perm; apply slots_nodup |]. intros k. rewrite slots_down_perm. apply Hw. }
  eapply runs_ends; [apply (each_destroy (slots_down t) ws D E X); [| | done] |].
  - intros k Hk. rewrite slots_down_perm in Hk. by apply Hw.
  - eapply inv_perm; [| exact I]. by apply Permutation_app_tail.
  - intros [] g' [I' G']. split; [done |]. eapply (given_more _ _ _ _ (ptrs_at (slots_down t) ws)); [intros y; by rewrite Hp |].
    eapply given_perm; [| done | exact G']. by rewrite Hp.
Qed.

Lemma no_map t : zlen (tmap t) = 0 -> slots t = [].
Proof. unfold slots. destruct (tmap t); [done |]. unfold zlen. simpl. lia. Qed.

Lemma no_words t ws : slots t = [] -> wt_words t ws -> ptrs ws = [].
Proof.
  intros Ht Hw. apply Permutation_nil_r. rewrite (ptrs_perm [] ws); [done | constructor |]. intros k. rewrite -Ht. apply Hw.
Qed.

Lemma freeheap_ok t ws D E X g : wt_words t ws -> Inv D (ptrs ws ++ E) X g -> gchalt g = c ->
  runs (freeheap d t ws false) (fun _ g' => Inv D E X g' /\ given D (ptrs ws ++ E) E (below g (room c) (ptrs ws)) g g') g.
Proof.
  intros Hw I Hc. unfold freeheap. destruct (zlen (tmap t) =? 0) eqn:En; [| by apply freeptrs_ok].
  apply Z.eqb_eq in En. run. rewrite (no_words t ws (no_map t En) Hw) in I |- *. split; [done | apply given_refl].
Qed.

Lemma freearray_ok a D E X g : wt_array (objs g) a -> Inv D (outs (Arr a) ++ E) X g -> gchalt g = c ->
  runs (freearray d a false) (fun _ g' => Inv D E X g' /\ given D (outs (Arr a) ++ E) E (below g (room c) (outs (Arr a))) g g') g.
Proof.
  intros Hw I Hc. unfold freearray. destruct (root a) as [r|] eqn:Er.
  { assert (outs (Arr a) = option_list (Some r)) as Eo.
    { destruct Hw as (_ & _ & Hw). rewrite Er in Hw. destruct Hw as [Ed _]. unfold outs. by rewrite Er Ed. }
    rewrite Eo in I |- *. eapply runs_ends; [by apply (Hd (Some r) D E) |]. intros [] g' (? & ? & _). by split. }
  assert (outs (Arr a) = ptrs (a_data a)) as Eo by (by rewrite /outs Er). rewrite Eo in I |- *. pose proof (array_perm _ _ Hw Er) as Hperm.
  pose proof (inv_perm _ _ _ _ _ (Permutation_app_tail E Hperm) I) as I'. clear I.
  set (F := fun i => ptrs_at (slots_down (a_t a)) (elem_words (a_t a) (off a) i (a_data a))) in *. set (all := seq 0 (Z.to_nat (len a)) ≫= F) in *.
  assert (runs (if zlen (tmap (a_t a)) =? 0 then mret tt else forM (seq 0 (Z.to_nat (len a))) (fun i => ws ← elem a i; freeptrs d ws (a_t a)))
    (fun _ g' => Inv D E X g' /\ given D (all ++ E) E (below g (room c) all) g g') g) as Hruns.
  2: { eapply runs_ends; [exact Hruns |]. intros [] g' [I2 G2]. split; [done |]. eapply (given_more _ _ _ _ all); [intros y; by rewrite Hperm |].
    eapply given_perm; [| done | exact G2]. by rewrite Hperm. }
  destruct (zlen (tmap (a_t a)) =? 0) eqn:En.
  - apply Z.eqb_eq, no_map in En. run. assert (all = []) as ->.
    { assert (slots_down (a_t a) = []) as Es by (apply Permutation_nil_r; by rewrite slots_down_perm En). unfold all, F. rewrite Es.
      generalize (seq 0 (Z.to_nat (len a))). intros l. induction l; [done | by simpl]. }
    split; [done | apply given_refl].
  - set (P := fun (ix : list nat) g' => Inv D ((ix ≫= F) ++ E) X g' /\ given D (all ++ E) ((ix ≫= F) ++ E) (below g (room c) all) g g' /\
      (forall i, i ∈ ix -> (i < Z.to_nat (len a))%nat) /\ (forall y, y ∈ ix ≫= F -> y ∈ all)).
    eapply runs_ends; [apply (runs_forM P) | intros [] g' (? & ? & _); by split].
    + split_and!; [done | apply given_refl | | done]. intros i Hi. apply elem_of_seq in Hi. lia.
    + intros i ix g1 (I & G1 & Hi & Hs). unfold elem. rewrite Er. run. run. run. run. fold (elem_words (a_t a) (off a) i (a_data a)).
      simpl in I, G1, Hs. rewrite -app_assoc in I G1. eapply runs_ends; [apply each_destroy; [| exact I | by rewrite (given_halt _ _ _ _ _ _ G1)] |].
      * intros k Hk. rewrite slots_down_perm in Hk. apply (array_elem _ a i k Hw Er); [apply Hi; by left | done].
      * intros [] g2 [I2 G2]. unfold P. split_and!; [done | | intros; apply Hi; by right | intros y Hy; apply Hs, elem_of_app; by right].
        eapply given_next; [| exact G1 | exact G2]. intros y Hy. apply Hs, elem_of_app. by left.
Qed.

Definition wt_list (m : gmap Z Heap) (l : List_) : Prop := wt_body m (Lst l).

Lemma freedata_ok m l D E X g : wt_list m l -> Inv D (ptrs (l_data l) ++ E) X g -> gchalt g = c ->
  runs (freedata d l) (fun _ g' => Inv D E X g' /\ given D (ptrs (l_data l) ++ E) E (below g (room c) (ptrs (l_data l))) g g') g.
Proof.
  intros [Hw _] I Hc. unfold freedata. destruct (l_t l) as [t|].
  - destruct (zlen (tmap t) =? 0) eqn:En; [| by apply freeptrs_ok].
    apply Z.eqb_eq in En. run. rewrite (no_words t (l_data l) (no_map t En) Hw) in I |- *. split; [done | apply given_refl].
  - run. assert (ptrs (l_data l) = []) as Ep; [| rewrite Ep in I |- *; split; [done | apply given_refl]].
    apply Permutation_nil_r. rewrite (ptrs_perm [] _); [done | constructor |]. intros k. split; [intros [p Hp]; exfalso; by eapply Hw | by intros ?%not_elem_of_nil].
Qed.

(** A block is given back. *)
Lemma poolfree_ok D E X g h : Inv ({[h]} ∪ D) E X g -> (h ∉ D) -> is_Some (objs g !! h) ->
  runs (poolfree h) (fun _ g' => Inv D E X g' /\ freed D g g' /\ objs g' = delete h (objs g) /\
    forall x, header (heapmem g) x <> None -> stale g' !! x = None) g.
Proof.
  intros I HD [o Ho]. unfold poolfree. run. run. run. run. set (st := filter _ _). pose proof (inv_stale _ _ _ _ st I) as I1.
  pose proof (i_pool _ _ _ _ I) as Hp.
  destruct (proj1 (pool_objs _ _ Hp h) ltac:(eauto)) as [n Hn]. split_and!; [| by destruct (freed_delete D (set_stale st g) h (pfree (heapmem g) h) HD) as [? ? ?]; split | done |].
  2: { cbn [stale set_heapmem set_objs set_stale]. intros x Hx. apply map_lookup_filter_None. right. intros hd _. simpl. by intros ?. }
  apply (inv_delete _ _ _ (set_stale st g)); [done | done | by eexists |]. apply (pfree_step _ _ n). unfold used_in. apply list_elem_of_omap. eauto.
Qed.

Lemma freetail_ok n p D E X g : Inv D (option_list p ++ E) X g -> gchalt g = c -> (base.size (objs g) < n)%nat ->
  (forall x, p = Some x -> exists o l, objs g !! x = Some o /\ obj o = Lst l) ->
  runs (freetail d n p) (fun _ g' => Inv D E X g' /\ given D (option_list p ++ E) E (below g (S (room c)) (option_list p)) g g') g.
Proof.
  revert p D E g. induction n as [| n IH]; intros p D E g I Hc Hn Hp; [lia |].
  destruct p as [th|]; [| cbn [freetail]; run; split; [done | apply given_refl]]. destruct (Hp th eq_refl) as (o & l & Ho & Hl). simpl in I.
  assert (source D g th o) as Hs.
  { destruct (i_roots _ _ _ _ I th) as (o' & Ho' & H1 & H2); [apply elem_of_app; right; by left |]. split; [congruence | done]. }
  pose proof (i_wt _ _ _ _ I th o Ho Hs) as Hw. rewrite Hl in Hw.
  cbn [freetail]. run. run. run. run. run. run. pose proof (inv_drop _ _ _ _ _ _ I Ho) as I1.
  set (g1 := set_objs _ _) in *. set (Lb := below g (S (room c)) [th]).
  destruct (Z.eqb_spec (ref o) 1) as [E1 | E1]; cbn [negb].
  2: { run. split; [done |]. apply given_drop; [done |]. intros ?. exfalso.
    pose proof (i_refs _ _ _ _ I th o Ho (proj2 Hs)) as Hrf. rewrite refs_cons decide_True // in Hrf. lia. }
  assert (objs g1 !! th = Some (set_ref (ref o - 1) o)) as Ho1 by apply lookup_insert_eq.
  pose proof (inv_doom _ _ _ _ _ _ I1 Ho1 Hs ltac:(simpl; lia)) as I2. change (obj (set_ref (ref o - 1) o)) with (obj o) in I2.
  assert (Inv ({[th]} ∪ D) (ptrs (l_data l) ++ option_list (tail l) ++ E) X g1) as I3.
  { eapply inv_perm; [| exact I2]. rewrite Hl /= app_assoc. apply Permutation_app_tail, Permutation_app_comm. }
  run. eapply runs_ends; [by apply (freedata_ok (objs g) l _ _ _ _ Hw I3) |]. intros [] g2 [I4 G2].
  run. eapply runs_ends; [apply (poolfree_ok D _ X g2 th I4); [apply Hs |] |].
  { apply (fr_kept _ _ _ (gv_freed _ _ _ _ _ _ G2)); [set_solver | eauto]. }
  intros [] g3 (I5 & F3 & E3 & _). pose proof (freed_ref D g th o (ref o - 1) Ho) as F1. fold g1 in F1.
  assert (freed D g g3) as F5.
  { eapply freed_trans; [exact F1 |]. eapply freed_trans; [by apply (freed_doom th), (gv_freed _ _ _ _ _ _ G2) | done]. }
  assert (gchalt g3 = c) as Hc3 by (pose proof (fr_rest _ _ _ F5) as Er; unfold rest in Er; congruence).
  eapply runs_ends; [apply (IH _ _ _ _ I5 Hc3) |].
  - rewrite E3. pose proof (freed_size _ _ _ (freed_trans _ _ _ _ F1 (freed_doom _ _ _ _ (gv_freed _ _ _ _ _ _ G2)))) as Hsz.
    destruct (fr_kept _ _ _ (gv_freed _ _ _ _ _ _ G2) th) as [o2 Ho2]; [set_solver | eauto |].
    rewrite map_size_delete Ho2 /=. assert (base.size (objs g2) <> 0%nat) by (apply map_size_non_empty_iff; intros Ee; by rewrite Ee lookup_empty in Ho2). lia.
  - intros x Ex. destruct Hw as [_ Hw]. destruct (Hw x Ex) as (ox & lx & Hox & Hlx).
    destruct (i_roots _ _ _ _ I5 x) as (o3 & Ho3 & _ & _); [rewrite Ex; apply elem_of_app; right; by left |].
    destruct (fr_objs _ _ _ F5 x o3 Ho3) as (o' & Ho' & _ & Eb). exists o3, lx. split; congruence.
  - intros [] g4 [I6 G6]. split; [done |]. apply (given_gone _ _ _ _ _ _ th).
    2: { destruct (objs g4 !! th) as [o4|] eqn:E4; [| done]. destruct (fr_objs _ _ _ (gv_freed _ _ _ _ _ _ G6) th o4 E4) as (o3 & Ho3 & _).
      by rewrite E3 lookup_delete_eq in Ho3. }
    apply (given_trans _ _ E _ _ _ g1); [by apply given_drop; [| intros _; right] |].
    apply (given_trans _ _ (option_list (tail l) ++ E) _ _ _ g3).
    + apply (given_free D E _ _ g1 th _ g2 g3 Ho1 Hs); [| done | done]. change (obj (set_ref (ref o - 1) o)) with (obj o).
      eapply given_perm; [| reflexivity |].
      2: { eapply given_weaken; [| exact G2]. intros x (y & Hy & Hny). left. exists th. split; [by left |].
        apply (nested_out g _ th o y); [done | by rewrite Hl | by apply (nested_freed D g g1)]. }
      rewrite Hl /= !app_assoc. apply Permutation_app_tail, Permutation_app_comm.
    + eapply given_weaken; [| exact G6]. intros x (y & Hy & Hny). left. exists th. split; [by left |].
      destruct (tail l) as [t|] eqn:Et; [| by apply not_elem_of_nil in Hy]. apply list_elem_of_singleton in Hy as ->.
      apply (nested_tail g _ th o l t); [done | done | done | by apply (nested_freed D g g3)].
Qed.

Lemma freelist_ok l D E X g : wt_list (objs g) l -> Inv D (outs (Lst l) ++ E) X g -> gchalt g = c ->
  runs (freelist d l false) (fun _ g' => Inv D E X g' /\
    given D (outs (Lst l) ++ E) E (fun x => below g (room c) (ptrs (l_data l)) x \/ below g (S (room c)) (option_list (tail l)) x) g g') g.
Proof.
  intros Hw I Hc. unfold freelist.
  assert (outs (Lst l) ++ E ≡ₚ ptrs (l_data l) ++ option_list (tail l) ++ E) as Hp.
  { rewrite /= app_assoc. apply Permutation_app_tail, Permutation_app_comm. }
  pose proof (inv_perm _ _ _ _ _ Hp I) as I1.
  run. eapply runs_ends; [by apply (freedata_ok (objs g) l _ _ _ _ Hw I1) |]. intros [] g1 [I2 G1].
  assert (gchalt g1 = c) as Hc1 by (by rewrite (given_halt _ _ _ _ _ _ G1)). pose proof (gv_freed _ _ _ _ _ _ G1) as F1.
  run. run. eapply runs_ends; [apply (freetail_ok _ _ _ _ _ _ I2 Hc1); [lia |] |].
  - intros x Ex. destruct Hw as [_ Hw]. destruct (Hw x Ex) as (ox & lx & Hox & Hlx).
    destruct (i_roots _ _ _ _ I2 x) as (o3 & Ho3 & _ & _); [rewrite Ex; apply elem_of_app; right; by left |].
    destruct (fr_objs _ _ _ F1 x o3 Ho3) as (o' & Ho' & _ & Eb). exists o3, lx. split; congruence.
  - intros [] g2 [I3 G2]. split; [done |]. eapply given_perm; [symmetry; exact Hp | reflexivity |].
    apply (given_trans _ _ (option_list (tail l) ++ E) _ _ _ g1).
    + eapply given_weaken; [| exact G1]. by left.
    + eapply given_weaken; [| exact G2]. intros x (y & Hy & Hn). right. exists y. split; [done | by apply (nested_freed D g g1)].
Qed.

(** What is too far down when an object is freed. *)
Definition too_deep (g : gc) (b : body) (x : Z) : Prop :=
  below g (room c) (data_outs b) x \/ exists l, b = Lst l /\ below g (S (room c)) (option_list (tail l)) x.

Lemma tfree_ok b D E X g : wt_body (objs g) b -> Inv D (outs b ++ E) X g -> gchalt g = c ->
  runs (tfree d b false) (fun _ g' => Inv D E X g' /\ given D (outs b ++ E) E (too_deep g b) g g') g.
Proof.
  intros Hw I Hc. destruct b as [| t ws | | a | l]; cbn [tfree].
  - run. split; [done | apply given_refl].
  - eapply runs_ends; [by apply (freeheap_ok t ws D E) |]. intros [] g' [I' G']. split; [done |]. eapply given_weaken; [| exact G']. by left.
  - unfold freestring. run. split; [done | apply given_refl].
  - eapply runs_ends; [by apply freearray_ok |]. intros [] g' [I' G']. split; [done |]. eapply given_weaken; [| exact G']. by left.
  - eapply runs_ends; [by apply freelist_ok |]. intros [] g' [I' G']. split; [done |]. eapply given_weaken; [| exact G'].
    intros x [? | ?]; [by left | right; eauto].
Qed.
End Loops.

Lemma too_deep_nested c g h o x : c <= 64 -> objs g !! h = Some o -> too_deep (c + 1) g (obj o) x -> nested g (room c) h x.
Proof.
  intros Hc Ho Hx. assert (room c = S (room (c + 1))) as -> by (unfold room; lia). destruct Hx as [(y & Hy & Hn) | (l & El & y & Hy & Hn)].
  - by apply (nested_out g _ h o y).
  - destruct (tail l) as [t|] eqn:Et; [| by apply not_elem_of_nil in Hy]. apply list_elem_of_singleton in Hy as ->. by apply (nested_tail g _ h o l t).
Qed.

Lemma destroy_ok n c : (1 <= n)%nat -> 0 <= c -> 66 <= Z.of_nat n + c -> destroys c (destroy_ n).
Proof.
  revert c. induction n as [| n IH]; intros c Hn Hc Hnc v D E X g I Hg; [lia |].
  destruct v as [h|]; [| cbn [destroy_]; run; split_and!; [done | apply given_refl | done]]. simpl in I |- *.
  destruct (i_roots _ _ _ _ I h) as (o & Ho & H1 & H2); [apply elem_of_app; right; by left |].
  assert (source D g h o) as Hs by done. pose proof (i_wt _ _ _ _ I h o Ho Hs) as Hw.
  cbn [destroy_]. run. run. run. run. run. run. pose proof (inv_drop _ _ _ _ _ _ I Ho) as I1.
  set (g1 := set_objs _ _) in *.
  destruct (Z.ltb_spec 0 (ref o - 1)) as [L1 | L1]; cbn [orb].
  { run. split_and!; [done | apply given_drop; [done | lia] |]. intros h' o' [= <-] Ho'. assert (o' = o) as -> by congruence. lia. }
  destruct (Z.ltb_spec 64 (gchalt g1)) as [L2 | L2].
  { change (gchalt g1) with (gchalt g) in L2. rewrite Hg in L2. run. split_and!; [done | | intros; lia]. apply given_drop; [done |]. intros _. exists h. split; [by left |].
    assert (room c = 0%nat) as -> by (unfold room; lia). constructor. }
  assert (c <= 64) as Hc64 by (rewrite -Hg; exact L2).
  assert (objs g1 !! h = Some (set_ref (ref o - 1) o)) as Ho1 by apply lookup_insert_eq.
  pose proof (inv_doom _ _ _ _ _ _ I1 Ho1 Hs ltac:(simpl; lia)) as I2. change (obj (set_ref (ref o - 1) o)) with (obj o) in I2.
  pose proof (freed_ref D g h o (ref o - 1) Ho) as F1. fold g1 in F1.
  run. assert (runs (match obj o with Raw => mret tt | b => gclock;; tfree (destroy_ n) b false;; gcunlock end)
    (fun _ g' => Inv ({[h]} ∪ D) E X g' /\ given ({[h]} ∪ D) (outs (obj o) ++ E) E (nested g (room c) h) g1 g') g1) as Hbody.
  { assert (wt_body (objs g1) (obj o)) as Hw1.
    { apply (wt_body_keeps (objs g)); [| done]. intros x _. apply keeps_same_objs. by apply (same_objs_insert _ _ o). }
    assert (runs (gclock;; tfree (destroy_ n) (obj o) false;; gcunlock)
      (fun _ g' => Inv ({[h]} ∪ D) E X g' /\ given ({[h]} ∪ D) (outs (obj o) ++ E) E (nested g (room c) h) g1 g') g1) as Hf.
    { unfold gclock, gcunlock. run. run. run. set (g2 := set_gchalt _ _).
      eapply runs_ends; [apply (tfree_ok (c + 1)); [apply IH; lia | exact Hw1 | apply inv_gchalt, I2 |] |].
      { simpl. lia. }
      intros [] g3 [I3 [[R1 R2 R3] X3 L3]]. run. split; [by apply inv_gchalt |].
      split; [split; [| done | done] | exact X3 |].
      - unfold rest in *. simpl in *. injection R1 as -> -> -> -> -> -> -> -> -> -> -> -> ->. do 6 f_equal. lia.
      - intros x p p' Hp Hp' P1 P2. specialize (L3 x p p' Hp Hp' P1 P2). apply (nested_freed D g g1 _ _ _ F1).
        apply (nested_objs g1 g2); [eauto |]. by apply (too_deep_nested c g2 h (set_ref (ref o - 1) o)). }
    destruct (obj o); try exact Hf. run. split; [exact I2 | apply given_refl]. }
  eapply runs_ends; [exact Hbody |]. intros [] g2 [I3 G2].
  eapply runs_ends; [apply (poolfree_ok D _ X g2 h I3 H2) |].
  { apply (fr_kept _ _ _ (gv_freed _ _ _ _ _ _ G2)); [set_solver | eauto]. }
  intros [] g3 (I4 & F3 & Eg3 & _). split_and!; [done | | intros h' o' [= <-] _ _ _; by rewrite Eg3 lookup_delete_eq].
  apply (given_gone _ _ _ _ _ _ h); [| by rewrite Eg3 lookup_delete_eq].
  apply (given_trans _ _ E _ _ _ g1); [by apply given_drop; [| intros _; right] |].
  apply (given_free D E E _ g1 h _ g2 g3 Ho1 Hs); [| done | done]. change (obj (set_ref (ref o - 1) o)) with (obj o).
  eapply given_weaken; [| exact G2]. intros x Hx. left. exists h. split; [by left | done].
Qed.

(** C31. [destroy] gives up one reference, and what that was the last of.  The
    count of the object goes down by one, and the counts of what remains by the
    references that the freed objects had to it, and by no more: the difference
    of an object's count and the number of references to it stays the same.
    Whatever is left with no count is 65 calls below the object, tails of lists
    not counted: what is nearer is freed with its last reference.  Nothing that
    is still referred to is freed, and none keeps a pointer to what is; what
    remains has the contents and the colour it had; whoever is in the middle of
    freeing ([D]) or marking ([X]). *)
Theorem destroy_frees v D E X g : Inv D (option_list v ++ E) X g -> 0 <= gchalt g ->
  runs (destroy v) (fun _ g' => Inv D E X g' /\ freed D g g' /\
    (forall x o o', objs g !! x = Some o -> objs g' !! x = Some o' ->
      ref o' - Z.of_nat (refs D E g' x) = ref o - Z.of_nat (refs D (option_list v ++ E) g x)) /\
    (forall x o o', objs g !! x = Some o -> objs g' !! x = Some o' -> 0 < ref o -> ref o' <= 0 ->
      exists h, v = Some h /\ nested g (room (gchalt g)) h x) /\
    forall h o, v = Some h -> objs g !! h = Some o -> ref o <= 1 -> gchalt g <= 64 -> objs g' !! h = None) g.
Proof.
  intros I Hh. eapply runs_ends; [by apply (destroy_ok 66 (gchalt g) ltac:(lia) Hh ltac:(lia) v D E X g I) |].
  intros [] g' (I' & [F Hx Hl] & Hd). split_and!; [done | done | done | | done]. intros x o o' Ho Ho' H1 H2.
  destruct (Hl x o o' Ho Ho' H1 H2) as (h & Hv & Hn). exists h. split; [| done]. destruct v as [h'|]; [| by apply not_elem_of_nil in Hv].
  apply list_elem_of_singleton in Hv as ->. done.
Qed.
End Destroy.
