(* ===== verification/GcMark.v ===== *)
(** * The garbage collector: marking

    Marking an object makes grey what it refers to; the roots are marked at
    the start of an epoch, when the colours change places. *)

From S2P Require Import Prelude Heap Pool PoolArena Gc GcPool GcInv GcRun GcFree.
Import Gc.

#[local] Open Scope Z_scope.

Lemma in_option_list (x : Z) o : x ∈ option_list o <-> o = Some x.
Proof. destruct o as [y|]; simpl; [rewrite list_elem_of_singleton; naive_solver | split; [by intros ?%not_elem_of_nil | done]]. Qed.

Section Marking.
Context (D : gset Z) (E : list Z) (X : option Z).

Lemma painted_live g g' x : Inv D E X g -> painted g g' -> live D g x -> live D g' x.
Proof. intros I P. apply changed_live; [apply (i_colors _ _ _ _ I) | by apply painted_changed]. Qed.

Lemma painted_visit g v : painted g (set_visit v g).
Proof. split_and!; [done | by left |]. intros x. simpl. destruct (objs g !! x); [by left | done]. Qed.

Lemma painted_obj g g' x o : painted g g' -> objs g !! x = Some o -> exists o', objs g' !! x = Some o' /\ obj o' = obj o.
Proof. intros P Hx. by apply (same_objs_l _ _ _ _ (c_objs _ _ (painted_changed _ _ P))). Qed.

Lemma marked_l g x (o : Heap) : objs g !! x = Some o -> color o = mutator g -> marked g x.
Proof. intros Ho Hm. exists o. split; [done | by left]. Qed.

(** An object is made grey. *)
Lemma painted_grey g h o : objs g !! h = Some o -> color o <> sweeper g ->
  painted g (set_nprop 1 (set_objs (<[h := set_color propagator o]> (objs g)) g)).
Proof.
  intros Ho Hs. split_and!; [done | by right |]. intros x. simpl. destruct (decide (x = h)) as [-> | Hx].
  - rewrite lookup_insert_eq Ho. by right.
  - rewrite lookup_insert_ne //. destruct (objs g !! x); [by left | done].
Qed.

Lemma Setmark_ok g h : live D g h -> runs (Setmark h) (fun _ g' => painted g g' /\ marked g' h) g.
Proof.
  intros (o & Ho & Hs & _). unfold Setmark. run. run. run. run. destruct (Z.eqb_spec (color o) (mutator g)) as [Ec | Ec].
  - run. split; [apply painted_refl | by eapply marked_l].
  - run. run. run. split; [by apply painted_grey |]. exists (set_color propagator o). simpl. rewrite lookup_insert_eq. split; [done | by right].
Qed.

Lemma Setmark_opt_ok g p : (forall h, p = Some h -> live D g h) ->
  runs (Setmark_opt p) (fun _ g' => painted g g' /\ forall h, p = Some h -> marked g' h) g.
Proof.
  intros Hp. destruct p as [h|]; cbn [Setmark_opt].
  - eapply runs_ends; [apply Setmark_ok; by apply Hp |]. intros [] g' [P M]. split; [done |]. by intros h' [= <-].
  - run. split; [apply painted_refl | done].
Qed.

(** A loop of marking. *)
Lemma marks_forM {A} (xs : list A) f (Phi : A -> gc -> Prop) g :
  (forall x g', x ∈ xs -> painted g g' -> runs (f x) (fun _ g2 => painted g' g2 /\ Phi x g2) g') ->
  (forall x g1 g2, painted g1 g2 -> Phi x g1 -> Phi x g2) ->
  runs (forM xs f) (fun _ g' => painted g g' /\ forall x, x ∈ xs -> Phi x g') g.
Proof.
  intros Hf HP. revert g Hf. induction xs as [| x xs IH]; intros g Hf; cbn [forM].
  - run. split; [apply painted_refl | by intros x ?%not_elem_of_nil].
  - run. eapply runs_ends; [apply Hf; [by left | apply painted_refl] |]. intros [] g1 [P1 H1].
    eapply runs_ends; [apply IH |].
    + intros y g2 Hy P2. apply Hf; [by right | by eapply painted_trans].
    + intros [] g2 [P2 H2]. split; [by eapply painted_trans |]. intros y [-> | Hy]%elem_of_cons; [by eapply HP | by apply H2].
Qed.

Lemma each_mark g ks ws : Inv D E X g -> (forall k, k ∈ ks -> exists p, ws !! k = Some (Ptr p)) ->
  (forall x, x ∈ ptrs_at ks ws -> live D g x) ->
  runs (each_ptr ks ws Setmark) (fun _ g' => painted g g' /\ forall x, x ∈ ptrs_at ks ws -> marked g' x) g.
Proof.
  intros I Hk Hl. unfold each_ptr. eapply runs_ends; [apply (marks_forM ks _ (fun k g' => forall h, ptr_at ws k = Some h -> marked g' h)) |].
  - intros k g1 Hin P1. destruct (Hk k Hin) as [p Hp]. run. run. fold (Setmark_opt p). unfold ptr_at. rewrite Hp /=.
    apply Setmark_opt_ok. intros h ->. apply (painted_live g); [done | done |]. apply Hl. apply list_elem_of_omap. exists k.
    split; [done |]. unfold ptr_at. by rewrite Hp.
  - intros k g1 g2 P H h Hh. eapply painted_marked; [done | by apply H].
  - intros [] g' [P H]. split; [done |]. intros x (k & Hin & Hx)%list_elem_of_omap. by apply (H k).
Qed.

Definition wt_block (t : option Type_) (ws : list val) : Prop := match t with Some t => wt_words t ws | None => no_ptrs ws end.

Lemma wt_block_ptrs t ws x : wt_block t ws -> x ∈ ptrs ws -> exists t', t = Some t' /\ x ∈ ptrs_at (slots t') ws /\ zlen (tmap t') <> 0.
Proof.
  intros Hw Hx. destruct t as [t|]; simpl in Hw.
  - exists t. rewrite (ptrs_perm (slots t) ws) in Hx; [| apply slots_nodup | apply Hw]. split_and!; try done. intros Hz.
    rewrite (no_map t Hz) in Hx. by apply not_elem_of_nil in Hx.
  - apply list_elem_of_omap in Hx as (v & Hv & Hx). apply list_elem_of_lookup in Hv as [k Hk]. destruct v as [| p]; [done |].
    exfalso. by apply (Hw k p).
Qed.

Lemma ptrs_at_ptrs ks ws x : x ∈ ptrs_at ks ws -> x ∈ ptrs ws.
Proof.
  intros (k & _ & Hx)%list_elem_of_omap. unfold ptr_at in Hx. destruct (ws !! k) as [v|] eqn:Ev; [| done].
  apply list_elem_of_omap. exists v. split; [by eapply list_elem_of_lookup_2 | done].
Qed.

Lemma markheap_ok g t ws : Inv D E X g -> wt_block t ws -> (forall x, x ∈ ptrs ws -> live D g x) ->
  runs (markheap t ws) (fun _ g' => painted g g' /\ forall x, x ∈ ptrs ws -> marked g' x) g.
Proof.
  intros I Hw Hl. unfold markheap. destruct t as [t|].
  - destruct (Z.eqb_spec (zlen (tmap t)) 0) as [Ez | Ez].
    + run. split; [apply painted_refl |]. intros x Hx. by destruct (wt_block_ptrs _ _ _ Hw Hx) as (t' & [= <-] & _ & ?).
    + eapply runs_ends; [apply (each_mark g (slots t) ws I); [| intros x Hx; apply Hl; by eapply ptrs_at_ptrs] |].
      * intros k Hk. by apply Hw.
      * intros [] g' [P H]. split; [done |]. intros x Hx. destruct (wt_block_ptrs _ _ _ Hw Hx) as (t' & [= <-] & Hx' & _). by apply H.
  - run. split; [apply painted_refl |]. intros x Hx. by destruct (wt_block_ptrs _ _ _ Hw Hx) as (t' & [=] & _).
Qed.

(** *** Arrays *)

Lemma elem_wt m a i : wt_array m a -> root a = None -> (i < Z.to_nat (len a))%nat ->
  wt_words (a_t a) (elem_words (a_t a) (off a) i (a_data a)) /\
  forall x, x ∈ ptrs (elem_words (a_t a) (off a) i (a_data a)) -> x ∈ ptrs (a_data a).
Proof.
  intros Hw Hr Hi. split.
  - intros k. split; [| by apply (array_elem m a i)]. intros [p Hp]. pose proof (array_elem m a i) as Hae.
    destruct Hw as (Hl & Hs & Ha). rewrite Hr in Ha. destruct Ha as (E0 & Hj & Hp1 & Hp2). rewrite E0 in Hp.
    assert (k < Z.to_nat (size (a_t a) / 4))%nat as Hk.
    { apply lookup_lt_Some in Hp. unfold elem_words in Hp. rewrite length_take in Hp. lia. }
    assert (exists j, j ∈ slots (a_t a)) as [j0 Hj0].
    { unfold elem_words in Hp. rewrite lookup_take_lt // lookup_drop in Hp. destruct (Hp1 _ _ Hp) as (_ & _ & j & ? & _). eauto. }
    destruct (Hj j0 Hj0) as [_ Hm]. change 0 with (0 * size (a_t a)) in Hp. rewrite elem_words_lookup // in Hp.
    destruct (Hp1 _ _ Hp) as (i' & Hi' & j & Hjs & Ej). destruct (Hj j Hjs) as [Hjw _].
    set (w := Z.to_nat (size (a_t a) / 4)) in *. assert (k = j) as ->; [| done]. simpl in Ej. assert (i = i') by nia. nia.
  - intros x (v & Hv & Hx)%list_elem_of_omap. apply list_elem_of_omap. exists v. split; [| done].
    unfold elem_words in Hv. apply elem_of_take in Hv as (k & Hv & _). rewrite lookup_drop in Hv. by eapply list_elem_of_lookup_2.
Qed.

Lemma elem_words_slice t n i ws : 0 <= n -> 0 <= size t -> elem_words t (n * size t) i ws = elem_words t 0 (Z.to_nat n + i) ws.
Proof. intros Hn Hs. unfold elem_words. do 3 f_equal. rewrite Nat2Z.inj_add Z2Nat.id //. f_equal. lia. Qed.

(** The words of an element of an array or of a slice. *)
Lemma elem_ok g a i : Inv D E X g -> wt_array (objs g) a -> (forall x, x ∈ outs (Arr a) -> live D g x) -> (i < Z.to_nat (len a))%nat ->
  runs (elem a i) (fun ws g' => g' = g /\ wt_words (a_t a) ws /\ (forall x, x ∈ ptrs ws -> live D g x) /\
    (root a = None -> ws = elem_words (a_t a) (off a) i (a_data a))) g.
Proof.
  intros I Hw Hl Hi. unfold elem. destruct (root a) as [r|] eqn:Er.
  - pose proof Hw as (Hlen & Hsz & Ha). rewrite Er in Ha. destruct Ha as (Ed & o & b & n & Ho & Hb & Hrb & Ht & Hof & Hn & Hle).
    assert (live D g r) as (o' & Ho' & Hs) by (apply Hl; unfold outs; rewrite Er; by left).
    assert (o' = o) as -> by congruence. pose proof (i_wt _ _ _ _ I r o Ho Hs) as Hwb. rewrite Hb in Hwb. simpl in Hwb.
    run. run. run. rewrite Hb. run. run. split; [done |]. fold (elem_words (a_t a) (off a) i (a_data b)).
    rewrite Hof -Ht elem_words_slice; [| done | rewrite Ht; lia].
    destruct (elem_wt _ b (Z.to_nat n + i) Hwb Hrb) as [H1 H2]; [lia |].
    assert (off b = 0) as Eo by (destruct Hwb as (_ & _ & Hwb); rewrite Hrb in Hwb; tauto). rewrite Eo in H1 H2.
    split_and!; [done | | done]. intros x Hx. apply (i_outs _ _ _ _ I r o x Ho Hs). rewrite Hb. apply elem_of_app. right. by apply H2.
  - run. run. run. split; [done |]. fold (elem_words (a_t a) (off a) i (a_data a)). destruct (elem_wt _ a i Hw Er Hi) as [H1 H2].
    split_and!; [done | | done]. intros x Hx. apply Hl. apply elem_of_app. right. by apply H2.
Qed.

Lemma wt_array_painted g g' a : painted g g' -> wt_array (objs g) a -> wt_array (objs g') a.
Proof.
  intros P H. apply (wt_body_keeps (objs g) (objs g') (Arr a)); [| exact H]. intros x _.
  apply keeps_same_objs, (c_objs _ _ (painted_changed _ _ P)).
Qed.

(** An element that holds the pointer of an array. *)
Lemma array_ptr m a x : wt_array m a -> root a = None -> x ∈ ptrs (a_data a) ->
  exists i, (i < Z.to_nat (len a))%nat /\ x ∈ ptrs (elem_words (a_t a) (off a) i (a_data a)).
Proof.
  intros Hw Hr Hx. rewrite (array_perm _ _ Hw Hr) in Hx. apply list_elem_of_bind in Hx as (i & Hx & Hi). apply elem_of_seq in Hi.
  exists i. split; [lia |]. by eapply ptrs_at_ptrs.
Qed.

Lemma markarray_ok g a : Inv D E X g -> wt_array (objs g) a -> (forall x, x ∈ outs (Arr a) -> live D g x) ->
  runs (markarray a) (fun _ g' => painted g g' /\ forall x, x ∈ outs (Arr a) -> marked g' x) g.
Proof.
  intros I Hw Hl. unfold markarray. run.
  eapply runs_ends; [apply Setmark_opt_ok; intros h Hh; apply Hl; unfold outs; rewrite Hh; by left |]. intros [] g1 [P1 M1].
  assert (forall x, x ∈ outs (Arr a) -> (root a = Some x) \/ (root a = None /\ x ∈ ptrs (a_data a))) as Hout.
  { intros x. unfold outs. destruct (root a) as [r|] eqn:Er; simpl.
    - destruct Hw as (_ & _ & Ha). rewrite Er in Ha. destruct Ha as [-> _]. simpl. intros [-> | Hx]%elem_of_cons; [by left | by apply not_elem_of_nil in Hx].
    - by right. }
  destruct (Z.eqb_spec (zlen (tmap (a_t a))) 0) as [Ez | Ez].
  - run. split; [done |]. intros x Hx. destruct (Hout x Hx) as [Hx' | [Hr Hx']]; [by apply M1 |].
    destruct (array_ptr _ _ _ Hw Hr Hx') as (i & Hi & Hxi). destruct (elem_wt _ a i Hw Hr Hi) as [Hwi _].
    by destruct (wt_block_ptrs (Some (a_t a)) _ _ Hwi Hxi) as (t' & [= <-] & _ & ?).
  - eapply runs_ends; [apply (marks_forM (seq 0 (Z.to_nat (len a))) _ (fun i g' => root a = None ->
      forall x, x ∈ ptrs (elem_words (a_t a) (off a) i (a_data a)) -> marked g' x)) |].
    + intros i g2 Hi P2. apply elem_of_seq in Hi. assert (painted g g2) as P by (by eapply painted_trans).
      run. eapply runs_ends; [apply (elem_ok g2 a i) |].
      * by apply (inv_painted _ _ _ g).
      * by apply (wt_array_painted g).
      * intros x Hx. apply (painted_live g); [done | done | by apply Hl].
      * lia.
      * intros ws g' (-> & Hws & Hlws & Heq). eapply runs_ends; [apply (markheap_ok g2 (Some (a_t a)) ws) |]; [by apply (inv_painted _ _ _ g) | done | done |].
        intros [] g3 [P3 M3]. split; [done |]. intros Hr x Hx. apply M3. by rewrite Heq.
    + intros i g2 g3 P H Hr x Hx. apply (painted_marked g2); [done | by apply H].
    + intros [] g3 [P3 M3]. split; [by eapply painted_trans |]. intros x Hx. destruct (Hout x Hx) as [Hx' | [Hr Hx']].
      * apply (painted_marked g1); [done | by apply M1].
      * destruct (array_ptr _ _ _ Hw Hr Hx') as (i & Hi & Hxi). apply (M3 i); [apply elem_of_seq; lia | done | done].
Qed.

(** *** Lists *)

(** The rest of a list is there. *)
Definition tail_live (g : gc) (l : List_) : Prop :=
  forall x, tail l = Some x -> live D g x /\ exists o l', objs g !! x = Some o /\ obj o = Lst l'.

Lemma tail_live_wt g h o l : Inv D E X g -> objs g !! h = Some o -> source D g h o -> obj o = Lst l -> tail_live g l.
Proof.
  intros I Ho Hs El x Hx. pose proof (i_wt _ _ _ _ I h o Ho Hs) as Hw. rewrite El in Hw. split; [| by apply Hw].
  apply (i_outs _ _ _ _ I h o x Ho Hs). rewrite El /= Hx. by left.
Qed.

Lemma tail_live_painted g g' l : Inv D E X g -> painted g g' -> tail_live g l -> tail_live g' l.
Proof.
  intros I P H x Hx. destruct (H x Hx) as (Hl & o & l' & Ho & El). split; [by apply (painted_live g) |].
  destruct (painted_obj _ _ _ _ P Ho) as (o' & Ho' & Eb). exists o', l'. by rewrite Eb.
Qed.

Lemma marktail_ok n g l : Inv D E X g -> tail_live g l ->
  runs (marktail n l) (fun _ g' => painted g g' /\ forall x, tail l = Some x -> marked g' x) g.
Proof.
  revert g l. induction n as [| n IH]; intros g l I Ht; cbn [marktail]; destruct (tail l) as [h|] eqn:El.
  - destruct (Ht h El) as ((o & Ho & Hs & HD) & _). run. run. run. split; [by apply painted_grey |].
    intros x [= <-]. exists (set_color propagator o). simpl. rewrite lookup_insert_eq. split; [done | by right].
  - run. split; [apply painted_refl | done].
  - destruct (Ht h El) as (Hl & o & l' & Ho & El'). pose proof Hl as (o2 & Ho2 & Hs). assert (o2 = o) as -> by congruence.
    pose proof (i_wt _ _ _ _ I h o Ho Hs) as Hw. rewrite El' in Hw.
    run. run. run. eapply runs_ends; [by apply Setmark_ok |]. intros [] g1 [P1 M1].
    assert (Inv D E X g1) as I1 by (by apply (inv_painted _ _ _ g)).
    run. eapply runs_ends; [apply (markheap_ok g1 (l_t l') (l_data l') I1); [apply Hw |] |].
    { intros x Hx. apply (painted_live g); [done | done |]. apply (i_outs _ _ _ _ I h o x Ho Hs). rewrite El'. apply elem_of_app. by right. }
    intros [] g2 [P2 M2]. run. run. set (g3 := set_visit _ _). assert (painted g g3) as P.
    { eapply painted_trans; [exact P1 |]. eapply painted_trans; [exact P2 | apply painted_visit]. }
    eapply runs_ends; [apply (IH g3 l'); [by apply (inv_painted _ _ _ g) | apply (tail_live_painted g); try done; by apply (tail_live_wt g h o)] |].
    intros [] g4 [P4 M4]. split; [by eapply painted_trans |]. intros x [= <-]. eapply painted_marked; [| exact M1].
    eapply painted_trans; [exact P2 |]. eapply painted_trans; [apply painted_visit | exact P4].
  - run. split; [apply painted_refl | done].
Qed.

Lemma marklist_ok g l : Inv D E X g -> wt_body (objs g) (Lst l) -> (forall x, x ∈ outs (Lst l) -> live D g x) ->
  runs (marklist l) (fun _ g' => painted g g' /\ forall x, x ∈ outs (Lst l) -> marked g' x) g.
Proof.
  intros I [Hw Ht] Hl. unfold marklist. run.
  eapply runs_ends; [apply (markheap_ok g (l_t l) (l_data l) I Hw); intros x Hx; apply Hl, elem_of_app; by right |]. intros [] g1 [P1 M1].
  run. run. eapply runs_ends; [apply marktail_ok; [by apply (inv_painted _ _ _ g) | apply (tail_live_painted g); try done] |].
  - intros x Hx. split; [apply Hl; simpl; rewrite Hx; by left | by apply Ht].
  - intros [] g2 [P2 M2]. split; [by eapply painted_trans |]. intros x [Hx | Hx]%elem_of_app.
    + apply M2. by apply in_option_list in Hx.
    + apply (painted_marked g1); [done | by apply M1].
Qed.

Lemma mark_ok g b : Inv D E X g -> wt_body (objs g) b -> (forall x, x ∈ outs b -> live D g x) ->
  runs (mark b) (fun _ g' => painted g g' /\ forall x, x ∈ outs b -> marked g' x) g.
Proof.
  intros I Hw Hl. destruct b as [| t ws | | a | l]; cbn [mark].
  - run. split; [apply painted_refl | by intros x ?%not_elem_of_nil].
  - by apply (markheap_ok g (Some t)).
  - unfold noptrs. run. split; [apply painted_refl | by intros x ?%not_elem_of_nil].
  - by apply markarray_ok.
  - by apply marklist_ok.
Qed.

(** *** The roots *)

Lemma wt_prog_painted g g' p : painted g g' -> wt_prog (objs g) p -> wt_prog (objs g') p.
Proof. intros P. apply wt_prog_keeps. intros x _. apply keeps_same_objs, (c_objs _ _ (painted_changed _ _ P)). Qed.

Lemma mark_module_ok g ml : Inv D E X g -> is_module (objs g) ml -> live D g ml ->
  runs (mark_module ml) (fun _ g' => painted g g' /\ marked g' ml) g.
Proof.
  intros I (o & t & ws & Ho & Eb & Ht) Hl. pose proof Hl as (o2 & Ho2 & Hs). assert (o2 = o) as -> by congruence.
  pose proof (i_wt _ _ _ _ I ml o Ho Hs) as Hw. rewrite Eb in Hw. destruct (proj2 (Hw 0%nat) Ht) as [p Hp].
  unfold mark_module. run. eapply runs_ends; [by apply Setmark_ok |]. intros [] g1 [P1 M1].
  destruct (painted_obj _ _ _ _ P1 Ho) as (o1 & Ho1 & Eb1). rewrite Eb in Eb1.
  run. unfold modlink_MP. run. run. rewrite Eb1. run.
  eapply runs_ends; [apply Setmark_opt_ok |].
  - intros h ->. apply (painted_live g); [done | done |]. apply (i_outs _ _ _ _ I ml o h Ho Hs). rewrite Eb.
    apply list_elem_of_omap. exists (Ptr (Some h)). split; [by eapply list_elem_of_lookup_2 | done].
  - intros [] g2 [P2 _]. split; [by eapply painted_trans | by eapply painted_marked].
Qed.

Lemma mark_frame_ok g tr f : Inv D E X g -> wt_frame (objs g) tr f -> (forall x, x ∈ frame_outs f -> live D g x) ->
  runs (mark_frame tr f) (fun _ g' => painted g g' /\ forall x, x ∈ frame_outs f -> marked g' x) g.
Proof.
  intros I [Hw Hm] Hl. unfold mark_frame. run.
  eapply runs_ends; [apply (markheap_ok g (Some (default tr (f_t f))) (f_mem f) I Hw); intros x Hx; apply Hl, elem_of_app; by left |].
  intros [] g1 [P1 M1]. destruct (mr f) as [ml|] eqn:Em.
  - destruct (Hm ml eq_refl) as (o & t & ws & Ho & Eb & Ht). destruct (painted_obj _ _ _ _ P1 Ho) as (o1 & Ho1 & Eb1).
    eapply runs_ends; [apply (mark_module_ok g1 ml) |].
    + by apply (inv_painted _ _ _ g).
    + exists o1, t, ws. by rewrite Eb1.
    + apply (painted_live g); [done | done |]. apply Hl. by apply frame_outs_mr.
    + intros [] g2 [P2 M2]. split; [by eapply painted_trans |]. intros x [Hx | Hx]%elem_of_app.
      * apply (painted_marked g1); [done | by apply M1].
      * rewrite Em in Hx. apply in_option_list in Hx. congruence.
  - run. split; [done |]. intros x [Hx | Hx]%elem_of_app; [by apply M1 |]. rewrite Em in Hx. by apply not_elem_of_nil in Hx.
Qed.

Lemma mark_prog_ok g p : Inv D E X g -> wt_prog (objs g) p -> (forall x, x ∈ prog_outs p -> live D g x) ->
  runs (mark_prog p) (fun _ g' => painted g g' /\ forall x, x ∈ prog_outs p -> marked g' x) g.
Proof.
  intros I [Hm Hf] Hl. unfold mark_prog. run.
  eapply runs_ends; [apply (mark_module_ok g (R_M p) I Hm), Hl; by left |]. intros [] g1 [P1 M1].
  run. eapply runs_ends; [apply (marks_forM (EX p) _ (fun sx g' => forall x, x ∈ fr sx ≫= frame_outs -> marked g' x)) |].
  - intros sx g2 Hsx P2. assert (painted g g2) as P by (by eapply painted_trans). rewrite Forall_forall in Hf. specialize (Hf sx Hsx).
    eapply runs_ends; [apply (marks_forM (fr sx) _ (fun f g' => forall x, x ∈ frame_outs f -> marked g' x)) |].
    + intros f g3 Hfr P3. assert (painted g g3) as P' by (by eapply painted_trans). rewrite Forall_forall in Hf. destruct (Hf f Hfr) as [Hw Hmr].
      apply (mark_frame_ok g3); [by apply (inv_painted _ _ _ g) | split; [done |] |].
      * intros ml Em. apply (is_module_keeps (objs g)); [apply keeps_same_objs, (c_objs _ _ (painted_changed _ _ P')) | by apply Hmr].
      * intros x Hx. apply (painted_live g); [done | done |]. apply Hl. right. apply elem_of_app. left. apply list_elem_of_bind.
        exists sx. split; [| done]. apply list_elem_of_bind. by exists f.
    + intros f g3 g4 P3 H x Hx. apply (painted_marked g3); [done | by apply H].
    + intros [] g3 [P3 H3]. split; [done |]. intros x (f & Hx & Hfr)%list_elem_of_bind. by apply (H3 f).
  - intros sx g2 g3 P2 H x Hx. apply (painted_marked g2); [done | by apply H].
  - intros [] g2 [P2 M2]. assert (painted g g2) as P by (by eapply painted_trans).
    eapply runs_ends; [apply (marks_forM (exsp p) _ (fun q g' => forall h, q = Some h -> marked g' h)) |].
    + intros q g3 Hq P3. apply Setmark_opt_ok. intros h ->. apply (painted_live g2); [by apply (inv_painted _ _ _ g) | done |].
      apply (painted_live g); [done | done |]. apply Hl. right. apply elem_of_app. right. apply list_elem_of_omap. by exists (Some h).
    + intros q g3 g4 P3 H h Hh. apply (painted_marked g3); [done | by apply H].
    + intros [] g3 [P3 M3]. split; [by eapply painted_trans |]. intros x [-> | [Hx | Hx]%elem_of_app]%elem_of_cons.
      * apply (painted_marked g2); [done |]. by apply (painted_marked g1).
      * apply (painted_marked g2); [done |]. apply list_elem_of_bind in Hx as (sx & Hx & Hsx). by apply (M2 sx).
      * apply list_elem_of_omap in Hx as (q & Hq & Ex). by apply (M3 q).
Qed.
End Marking.

(** ** Epochs *)

Section Epoch.

(** Colours stay apart when they change places, also where [gccolor] wraps. *)
Lemma colors_apart c : -2 ^ 31 <= c < 2 ^ 31 -> let c' := i32 (c + 1) in
  -2 ^ 31 <= c' < 2 ^ 31 /\ Z.rem (i32 (c' - 1)) 3 = Z.rem c 3 /\ Z.rem (i32 (c' - 2)) 3 = Z.rem (i32 (c - 1)) 3 /\
  Z.rem c' 3 <> Z.rem c 3 /\ Z.rem c' 3 <> Z.rem (i32 (c - 1)) 3 /\ Z.rem c 3 <> Z.rem (i32 (c - 1)) 3 /\ -3 < Z.rem (i32 (c - 1)) 3 < 3.
Proof.
  intros Hc. unfold wraps. change (2 ^ (32 - 1)) with 2147483648. change (2 ^ 32) with 4294967296. change (2 ^ 31) with 2147483648 in *. cbv zeta.
  pose proof (Z.rem_bound_abs c 3). Z.to_euclidean_division_equations. lia.
Qed.

(** The mark phase of an epoch is over. *)
Definition settled (g : gc) : Prop :=
  base g = None /\ forall h o, objs g !! h = Some o -> color o <> propagator /\ color o <> sweeper g.

Definition next_epoch (g : gc) : gc :=
  let c := i32 (gccolor g + 1) in set_colors (Z.rem c 3) (Z.rem (i32 (c - 1)) 3) (Z.rem (i32 (c - 2)) 3) (set_gccolor c g).

Lemma inv_epoch g : Inv ∅ [] None g -> roots_marked g -> settled g -> Inv ∅ [] None (next_epoch g).
Proof.
  intros I Hrm [Hba Hset]. pose proof (i_colors _ _ _ _ I) as Hc. destruct Hc as (C1 & C2 & C3 & C4 & C5).
  destruct (colors_apart _ C1) as (A1 & A2 & A3 & A4 & A5 & A6 & A7). set (c' := i32 (gccolor g + 1)) in *.
  assert (forall h o, objs g !! h = Some o -> color o = mutator g \/ color o = Z.rem (i32 (gccolor g - 1)) 3) as Hcol.
  { intros h o Ho. destruct (Hset h o Ho) as [S1 S2]. destruct C5 as [(E1 & E2 & H) | H]; destruct (H h o Ho) as [? | ?]; try tauto.
    rewrite -E1. tauto. }
  assert (forall x, marked g x -> live ∅ (next_epoch g) x) as Hl.
  { intros x (o & Ho & Hm). exists o. split; [done |]. split; [| set_solver]. simpl. rewrite -/c' A3.
    destruct Hm as [Hm | Hm]; [rewrite Hm C2; exact A6 | exfalso; by destruct (Hset x o Ho) as [? _]]. }
  assert (forall h o, objs g !! h = Some o -> source ∅ (next_epoch g) h o -> color o = mutator g) as Hsrc.
  { intros h o Ho [Hs _]. simpl in Hs. rewrite -/c' A3 in Hs. destruct (Hcol h o Ho); [done | congruence]. }
  destruct I as [Hc Hr Hou Hn Hw Hp Ht Hb Hpo Hk]. split; try done.
  - unfold colors_ok. simpl. rewrite -/c' A2 A3. split_and!; try done; try lia. left. split_and!; try done.
    intros h o Ho. destruct (Hcol h o Ho) as [H | H]; rewrite H; [right; left; by rewrite C2 | tauto].
  - intros x Hx. rewrite app_nil_r in Hx. by apply Hl, Hrm.
  - intros h o x Ho Hs Hx. apply Hl. apply (Hb h o x); [done | by apply (Hsrc h) | set_solver | done | done].
  - intros x o Hx HD. specialize (Hn x o Hx HD). etrans; [| exact Hn]. apply inj_le. unfold refs.
    change (roots (next_epoch g)) with (roots g). change (objs (next_epoch g)) with (objs g).
    assert (msum (weight ∅ (next_epoch g) x) (objs g) <= msum (weight ∅ g x) (objs g))%nat; [| lia].
    apply msum_le. intros h p Hp'. unfold weight. destruct (decide (source ∅ (next_epoch g) h p)) as [Hs |]; [| lia].
    rewrite decide_True; [lia |]. split; [by apply (Hset h p) | set_solver].
  - intros h o Ho [_ HD]. apply (Hw h o Ho). split; [by apply (Hset h o) | done].
  - intros h o x Ho Hm. exfalso. simpl in Hm. rewrite -/c' in Hm. destruct (Hcol h o Ho) as [H | H]; congruence.
  - unfold walk_ok. simpl. by rewrite Hba.
Qed.

Lemma ptrmark_ok g : Inv ∅ [] None g ->
  runs ptrmark (fun _ g' => painted g g' /\ forall x, x ∈ concat (ptrtab g) -> marked g' x) g.
Proof.
  intros I. unfold ptrmark. run. run.
  eapply runs_ends; [apply (marks_forM (ptrtab g) _ (fun b g' => forall x, x ∈ b -> marked g' x)) |].
  - intros b g1 Hb P1. apply (marks_forM b _ (fun x g' => marked g' x)).
    + intros x g2 Hx P2. apply (Setmark_ok ∅). apply (painted_live _ [] None g); [done | by eapply painted_trans |].
      apply (i_roots _ _ _ _ I). apply elem_of_app. left. unfold roots. rewrite !elem_of_app. right. right.
      apply list_elem_of_In, in_concat. exists b. by rewrite -!list_elem_of_In.
    + intros x g2 g3 P H. by apply (painted_marked g2).
  - intros b g1 g2 P H x Hx. apply (painted_marked g1); [done | by apply H].
  - intros [] g1 [P1 H]. split; [done |]. intros x Hx. apply list_elem_of_In, in_concat in Hx as (b & Hb & Hx).
    apply (H b); by apply list_elem_of_In.
Qed.

Lemma rootset_ok g : Inv ∅ [] None g -> roots_marked g -> settled g ->
  runs (rootset (progs g)) (fun _ g' => painted (next_epoch g) g' /\ Inv ∅ [] None g' /\ roots_marked g') (set_gccolor (i32 (gccolor g + 1)) g).
Proof.
  intros I Hrm Hs. pose proof (inv_epoch g I Hrm Hs) as I0. unfold rootset. run. run.
  match goal with |- ends _ _ _ ?s => change s with (next_epoch g) end. set (g0 := next_epoch g) in *.
  assert (forall x, x ∈ roots g0 -> live ∅ g0 x) as Hl by (intros x Hx; apply (i_roots _ _ _ _ I0), elem_of_app; by left).
  run. eapply runs_ends; [apply (marks_forM (progs g) _ (fun p g' => forall x, x ∈ prog_outs p -> marked g' x)) |].
  - intros p g1 Hp P1. apply (mark_prog_ok ∅ [] None g1); [by apply (inv_painted _ _ _ g0) | |].
    + apply (wt_prog_painted g0); [done |]. pose proof (i_progs _ _ _ _ I0) as Hf. rewrite Forall_forall in Hf. by apply Hf.
    + intros x Hx. apply (painted_live _ [] None g0); [done | done |]. apply Hl. apply elem_of_app. left. apply list_elem_of_bind. by exists p.
  - intros p g1 g2 P H x Hx. apply (painted_marked g1); [done | by apply H].
  - intros [] g1 [P1 M1]. assert (Inv ∅ [] None g1) as I1 by (by apply (inv_painted _ _ _ g0)). run. run. run.
    assert (origmps g1 = origmps g0) as Eo by (destruct P1 as (Ec & _); unfold ctl in Ec; congruence). rewrite Eo.
    eapply runs_ends; [apply (marks_forM (origmps g0) _ (fun q g' => forall h, q = Some h -> marked g' h)) |].
    + intros q g2 Hq P2. apply (Setmark_opt_ok ∅). intros h ->. apply (painted_live _ [] None g1); [done | done |].
      apply (painted_live _ [] None g0); [done | done |]. apply Hl. unfold roots. rewrite !elem_of_app. right. left.
      apply list_elem_of_omap. by exists (Some h).
    + intros q g2 g3 P3 H h Hh. apply (painted_marked g2); [done | by apply H].
    + intros [] g2 [P2 M2]. assert (Inv ∅ [] None g2) as I2 by (by apply (inv_painted _ _ _ g1)).
      eapply runs_ends; [by apply ptrmark_ok |]. intros [] g3 [P3 M3].
      assert (painted g0 g3) as P by (eapply painted_trans; [exact P1 |]; by eapply painted_trans).
      split_and!; [done | by apply (inv_painted _ _ _ g2) |]. intros x Hx.
      destruct (changed_fields _ _ (painted_changed _ _ P)) as (Er & _). rewrite Er in Hx.
      assert (ptrtab g2 = ptrtab g0) as Et.
      { destruct (painted_trans g0 g1 g2 P1 P2) as (Ec & _). unfold ctl in Ec. congruence. }
      unfold roots in Hx. rewrite !elem_of_app in Hx. destruct Hx as [Hx | [Hx | Hx]].
      * apply (painted_marked g1); [by eapply painted_trans |]. apply list_elem_of_bind in Hx as (p & Hx & Hp). by apply (M1 p).
      * apply (painted_marked g2); [done |]. apply list_elem_of_omap in Hx as (q & Hq & Ex). by apply (M2 q).
      * apply M3. by rewrite Et.
Qed.
End Epoch.
