(* ===== verification/GcSweep.v ===== *)
(** * The garbage collector: sweeping

    The walk over the blocks of the heap, a few at a time: grey objects are
    marked, the objects of the colour [sweeper] are freed, and the walk leaves
    none of them behind. *)

From S2P Require Import Prelude Heap Pool PoolArena Gc GcPool GcInv GcRun GcFree GcMark.
Import Gc.

#[local] Open Scope Z_scope.

(** ** The walk *)

Section Walk.

Lemma next_arena_app as1 b bs as2 : sized (as1 ++ (b, bs) :: as2) -> apart (as1 ++ (b, bs) :: as2) ->
  next_arena (as1 ++ (b, bs) :: as2) b = fst <$> head as2.
Proof.
  induction as1 as [| [b1 bs1] as1 IH]; intros Hs Ha; simpl.
  - rewrite Z.eqb_refl. by destruct as2.
  - destruct (Z.eqb_spec b1 b) as [-> | Hne].
    + exfalso. destruct Ha as [Ha _]. rewrite Forall_forall in Ha. specialize (Ha (b, bs) ltac:(set_solver)).
      unfold sized in Hs. rewrite Forall_forall in Hs. pose proof (total_pos _ (Hs (b, bs1) ltac:(set_solver))) as H1.
      pose proof (total_pos _ (Hs (b, bs) ltac:(set_solver))) as H2. unfold ceiling, floor in Ha. simpl in *. lia.
    + apply IH; [by apply Forall_cons in Hs as [_ ?] | apply Ha].
Qed.

Lemma apart_nodup ars : sized ars -> apart ars -> NoDup (map fst ars).
Proof.
  induction ars as [| ar ars IH]; intros Hs Ha; simpl; [constructor |]. apply Forall_cons in Hs as [H1 H2]. destruct Ha as [H3 H4].
  constructor; [| by apply IH]. intros ([b bs] & E & Hin)%list_elem_of_fmap. simpl in E. subst b. rewrite Forall_forall in H2. rewrite Forall_forall in H3.
  specialize (H2 _ Hin). specialize (H3 _ Hin). pose proof (total_pos _ H1). pose proof (total_pos _ H2). unfold ceiling, floor in H3. simpl in *. lia.
Qed.

Lemma split_here as1 (b : Z) (bs : list block) as2 as1' bs' as2' : NoDup (map fst (as1 ++ (b, bs) :: as2)) ->
  as1 ++ (b, bs) :: as2 = as1' ++ (b, bs') :: as2' -> as1' = as1 /\ bs' = bs /\ as2' = as2.
Proof.
  revert as1'. induction as1 as [| a1 as1 IH]; intros [| a1' as1'] Hn E; simpl in *.
  - by injection E as <- <-.
  - injection E as <- E. apply NoDup_cons in Hn as [Hn _]. destruct Hn. rewrite E map_app elem_of_app. right. by left.
  - injection E as -> E. apply NoDup_cons in Hn as [Hn _]. destruct Hn. rewrite map_app elem_of_app. right. by left.
  - injection E as <- E. apply NoDup_cons in Hn as [_ Hn]. destruct (IH as1' Hn E) as (-> & -> & ->). done.
Qed.

Lemma arena_here ars (ar ar' : arena) : sized ars -> apart ars -> ar ∈ ars -> ar' ∈ ars -> ar.1 = ar'.1 -> ar = ar'.
Proof.
  intros Hs Ha H H' E. unfold sized in Hs. rewrite Forall_forall in Hs.
  pose proof (total_pos _ (Hs _ H)). pose proof (total_pos _ (Hs _ H')).
  apply (apart_two ars ar ar' ar.1); try done; unfold ceiling, floor; lia.
Qed.

Lemma B2LIMIT_in ars b bs : sized ars -> apart ars -> (b, bs) ∈ ars -> B2LIMIT ars b = Some (ceiling (b, bs)).
Proof.
  intros Hs Ha H. unfold B2LIMIT. assert ((b, bs) ∈ filter (fun ar : arena => ar.1 = b) ars) as Hf by (by apply list_elem_of_filter).
  destruct (filter _ ars) as [| ar l] eqn:Ef; [by apply not_elem_of_nil in Hf |].
  assert (ar ∈ filter (fun ar : arena => ar.1 = b) ars) as Har by (rewrite Ef; by left).
  apply list_elem_of_filter in Har as [E1 Har]. by rewrite (arena_here ars ar (b, bs)).
Qed.

Lemma object_block m ars x : pool_ok m ars -> is_Some (m !! x) ->
  exists n, (x, (n, Some Pool.MAGIC_A)) ∈ blocks_of ars /\ header ars x = Some (n, Pool.MAGIC_A).
Proof.
  intros [Hs Ha Ho Hu] Hx. destruct (proj1 (Ho x) Hx) as [n Hn]. exists n. split; [done |]. by rewrite (header_block _ _ _ _ Hs Ha Hn).
Qed.

(** What is taken for a header. *)
Lemma words_block g p hd : header (heapmem g) p = Some hd -> words_at g p = Some hd.
Proof. unfold words_at. by intros ->. Qed.

Lemma okbhdr_block g p : pool_ok (objs g) (heapmem g) -> header (heapmem g) p <> None -> okbhdr g p = true.
Proof.
  intros Hp Hh. unfold okbhdr, words_at. destruct (header (heapmem g) p) as [[n m]|] eqn:E; [| done].
  destruct (header_inv _ _ _ _ E) as [(bs & _ & _ & ->) | ([m'|] & Hin & ->)]; [done | | done].
  by rewrite (pool_used _ _ Hp _ _ _ Hin).
Qed.

Lemma okbhdr_gone g p : header (heapmem g) p = None -> stale g !! p = None -> okbhdr g p = false.
Proof. unfold okbhdr, words_at. by intros -> ->. Qed.

(** The collector comes back to a block, or to what is not taken for one. *)
Definition resumable (g : gc) : Prop := base g <> None -> header (heapmem g) (ptr_ g) <> None \/ okbhdr g (ptr_ g) = false.
Definition on_block (g : gc) : Prop := base g <> None -> header (heapmem g) (ptr_ g) <> None.

Lemma on_block_resumable g : on_block g -> resumable g.
Proof. intros H Hb. left. by apply H. Qed.

Lemma inv_walk D E X g b p l : Inv D E X g -> walk_ok (set_walk b p l g) -> Inv D E X (set_walk b p l g).
Proof. intros [] Hw. by split. Qed.

(** Nothing is left to sweep, nor to mark unless [nprop] says so. *)
Definition seen (g : gc) (o : Heap) : Prop := color o <> sweeper g /\ (nprop g = 0 -> color o <> propagator).
Definition no_more (g : gc) : Prop := forall x o, objs g !! x = Some o -> seen g o.

(** The walk starts. *)
Lemma walk_from_ok g b0 p0 l0 b bs : Inv ∅ [] None g ->
  (exists as1 as2, heapmem g = as1 ++ (b, bs) :: as2 /\
    forall x o, objs g !! x = Some o -> ~ seen g o -> Exists (fun ar => ar.1 < x < ceiling ar) ((b, bs) :: as2)) ->
  runs (walk_from b) (fun _ g' => g' = set_walk (Some b) b (ceiling (b, bs)) g /\ Inv ∅ [] None g') (set_walk b0 p0 l0 g).
Proof.
  intros I (as1 & as2 & Eh & Hx). pose proof (i_pool _ _ _ _ I) as [Hs Ha _ _].
  assert ((b, bs) ∈ heapmem g) as Hin by (rewrite Eh; set_solver). unfold walk_from. run. run. run. cbn [heapmem set_walk].
  rewrite (B2LIMIT_in _ _ _ Hs Ha Hin). run. run.
  change (set_walk (Some b) b (ceiling (b, bs)) (set_walk b0 p0 l0 g)) with (set_walk (Some b) b (ceiling (b, bs)) g).
  split; [done |]. apply inv_walk; [done |]. unfold walk_ok. simpl.
  assert (0 <= total bs) by (unfold sized in Hs; rewrite Forall_forall in Hs; by apply total_pos, (Hs (b, bs))).
  assert (forall x o, objs g !! x = Some o -> ~ seen g o -> ahead (heapmem g) b b x) as Hah.
  { intros x o Ho Hns. exists as1, bs, as2. split; [done |]. destruct (proj1 (Exists_cons _ _ _) (Hx x o Ho Hns)) as [H1 | H1]; [left | by right].
    simpl in H1. split; [lia | done]. }
  split_and!.
  - exists bs. split_and!; try done. unfold ceiling, floor. simpl. lia.
  - intros x o Ho Hc. apply (Hah x o Ho). by intros [? _].
  - intros Hz x o Ho Hc. apply (Hah x o Ho). intros [_ Hn]. by apply Hn.
Qed.

(** On to the next block. *)
Lemma advance_ok g b n m : Inv ∅ [] None g -> base g = Some b -> header (heapmem g) (ptr_ g) = Some (n, m) ->
  (forall o, objs g !! ptr_ g = Some o -> seen g o) ->
  runs (advance n) (fun _ g' => Inv ∅ [] None g' /\ (exists b' p' l', g' = set_walk b' p' l' g) /\
    match base g' with
    | None => no_more g'
    | Some b' => header (heapmem g') (ptr_ g') <> None /\ ((b' = b /\ ptr_ g <= ptr_ g') \/ ptr_ g' = b')
    end) g.
Proof.
  intros I Hb Hh Hv. pose proof (i_pool _ _ _ _ I) as Hp. pose proof Hp as [Hs Ha _ _]. pose proof (i_walk _ _ _ _ I) as Hw. unfold walk_ok in Hw. rewrite Hb in Hw.
  destruct Hw as ((bs & Hin & Hl & Hr) & K2 & K3). destruct (header_next _ _ _ _ _ _ Hs Ha Hin Hr Hh) as (N1 & N2 & N3 & N4).
  assert (forall x o, objs g !! x = Some o -> ~ seen g o -> ahead (heapmem g) b (ptr_ g) x /\ (x < ptr_ g \/ ptr_ g + n <= x)) as Hah.
  { intros x o Ho Hns. split.
    - destruct (decide (color o = sweeper g)) as [Ec | Ec]; [by eapply K2 |]. destruct (decide (nprop g = 0)) as [Ez | Ez]; [| by exfalso; apply Hns].
      destruct (decide (color o = propagator)) as [Eg | Eg]; [by eapply K3 | by exfalso; apply Hns].
    - destruct (object_block _ _ x Hp) as (k & Hk & _); [by eexists |]. destruct (decide (x = ptr_ g)) as [-> | Hne]; [by destruct Hns; apply Hv |].
      destruct (decide (ptr_ g <= x < ptr_ g + n)) as [Hx | Hx]; [by destruct Hne; eapply N4 | lia]. }
  unfold advance. run. run. set (g1 := set_walk _ _ _ g). run. run. run. run. destruct (Z.leb_spec (limit g1) (ptr_ g1)) as [L | L].
  - change (limit g1) with (limit g) in L. change (ptr_ g1) with (ptr_ g + n) in L.
    run. run. run. change (base g1) with (base g). rewrite Hb. run. run. run. change (heapmem g1) with (heapmem g).
    apply list_elem_of_split in Hin as (as1 & as2 & Eh). rewrite Eh next_arena_app; [| by rewrite -Eh | by rewrite -Eh].
    assert (forall x o, objs g !! x = Some o -> ~ seen g o -> Exists (fun ar => ar.1 < x < ceiling ar) as2) as Hlater.
    { intros x o Ho Hns. destruct (Hah x o Ho Hns) as [(as1' & bs' & as2' & Eh' & Hx) Hout].
      destruct (split_here as1 b bs as2 as1' bs' as2') as (-> & -> & ->); [rewrite -Eh; by apply apart_nodup | by rewrite -Eh -Eh' |].
      destruct Hx as [[Hx1 Hx2] | Hx]; [lia | done]. }
    destruct as2 as [| [b' bs'] as2]; cbn [head fmap option_fmap option_map fst].
    + run. change (set_walk None (ptr_ g1) (limit g1) g1) with (set_walk None (ptr_ g1) (limit g1) g).
      split; [by apply inv_walk |]. split; [by eexists _, _, _ |]. simpl. intros x o Ho.
      destruct (decide (color o = sweeper g)) as [Ec | Ec].
      { exfalso. assert (~ seen g o) as Hns by (by intros [? _]). specialize (Hlater x o Ho Hns). by apply Exists_nil in Hlater. }
      split; [done |]. simpl. intros Hz Eg. assert (~ seen g o) as Hns by (intros [_ Hn]; by apply Hn). specialize (Hlater x o Ho Hns). by apply Exists_nil in Hlater.
    + eapply runs_ends; [apply (walk_from_ok g (base g) (ptr_ g + n) (limit g) b' bs' I) |].
      * exists (as1 ++ [(b, bs)]), as2. rewrite Eh -app_assoc. split; [done | exact Hlater].
      * intros [] g' [-> I']. split; [done |]. split; [by eexists _, _, _ |]. simpl. split; [| by right].
        rewrite (header_leader _ b' bs'); [done |]. rewrite Eh. set_solver.
  - change (limit g1) with (limit g) in L. change (ptr_ g1) with (ptr_ g + n) in L. run.
    assert (walk_ok g1) as Hw1.
    { unfold walk_ok. simpl. rewrite Hb. 
      assert (forall x o, objs g !! x = Some o -> ~ seen g o -> ahead (heapmem g) b (ptr_ g + n) x) as Hah'.
      { intros x o Ho Hns. destruct (Hah x o Ho Hns) as [(as1 & bs' & as2 & Eh & Hx) Hout]. exists as1, bs', as2. split; [done |].
        destruct Hx as [[Hx1 Hx2] | Hx]; [left | by right]. split; [lia | done]. }
      split_and!.
      - exists bs. split_and!; try done; lia.
      - intros x o Ho Hc. apply (Hah' x o Ho). by intros [? _].
      - intros Hz x o Ho Hc. apply (Hah' x o Ho). intros [_ Hn]. by apply Hn. }
    split; [by apply inv_walk |]. split; [by eexists _, _, _ |]. simpl. rewrite Hb. split; [apply N3; lia | left; split; [done | lia]].
Qed.
End Walk.

(** ** Sweeping *)

(** What the collector does to the objects: those of the colour [sweeper] may
    go, the others stay, and hold what they held. *)
Definition fixed (g : gc) := (progs g, origmps g, ptrtab g, (mutator g, marker g, sweeper g, gccolor g), gchalt g).

Record collected (g g' : gc) : Prop := {
  co_fixed : fixed g' = fixed g;
  co_kept : forall x o, objs g !! x = Some o -> color o <> sweeper g ->
    exists o', objs g' !! x = Some o' /\ ref o' = ref o /\ obj o' = obj o /\ color o' <> sweeper g;
  co_old : forall x o', objs g' !! x = Some o' -> exists o, objs g !! x = Some o /\ obj o' = obj o;
}.

Section Sweep.

Lemma fixed_fields g g' : fixed g' = fixed g -> progs g' = progs g /\ origmps g' = origmps g /\ ptrtab g' = ptrtab g /\
  sweeper g' = sweeper g /\ mutator g' = mutator g /\ gchalt g' = gchalt g /\ roots g' = roots g.
Proof. unfold fixed, roots. intros E. injection E as E1 E2 E3 E4 E5 E6 E7 E8. rewrite E1 E2 E3. by split_and!. Qed.

Lemma collected_refl g : collected g g.
Proof. split; eauto 6. Qed.

Lemma collected_trans g1 g2 g3 : collected g1 g2 -> collected g2 g3 -> collected g1 g3.
Proof.
  intros [H1 H2 H3] [K1 K2 K3]. destruct (fixed_fields _ _ H1) as (_ & _ & _ & Es & _). split; [congruence | |].
  - intros x o Ho Hs. destruct (H2 x o Ho Hs) as (o' & Ho' & E1 & E2 & E3). rewrite -Es in E3.
    destruct (K2 x o' Ho' E3) as (o2 & Ho2 & F1 & F2 & F3). exists o2. rewrite -Es. split_and!; congruence.
  - intros x o3 Ho3. destruct (K3 x o3 Ho3) as (o2 & Ho2 & E2). destruct (H3 x o2 Ho2) as (o1 & Ho1 & E1). exists o1. split; congruence.
Qed.

Lemma collected_painted g g' : colors_ok g -> painted g g' -> collected g g'.
Proof.
  intros Hc P. destruct (grey_not_swept g Hc) as [Hgs _]. pose proof (painted_changed _ _ P) as Hch. split.
  - destruct P as (E & _). unfold ctl in E. unfold fixed. congruence.
  - intros x o Ho Hs. destruct (painted_l _ _ _ _ P Ho) as (o' & Ho' & [-> | (_ & -> & _)]); eauto 6.
  - intros x o' Ho'. destruct (same_objs_r _ _ _ _ (c_objs _ _ Hch) Ho') as (o & Ho & E). eauto.
Qed.

(** The colour or the count of an object does not matter here. *)
Lemma collected_blacken g h o c : objs g !! h = Some o -> c <> sweeper g -> collected g (set_objs (<[h := set_color c o]> (objs g)) g).
Proof.
  intros Ho Hs. split; [done | |]; simpl; intros x p; destruct (decide (x = h)) as [-> | Hne];
    rewrite ?lookup_insert_eq ?lookup_insert_ne //.
  - rewrite Ho. intros [= <-] _. by eexists.
  - eauto 6.
  - intros [= <-]. eauto.
  - eauto.
Qed.

Lemma collected_walk g b p l : collected g (set_walk b p l g).
Proof. split; simpl; eauto 6. Qed.
Lemma collected_visit g v : collected g (set_visit v g).
Proof. split; simpl; eauto 6. Qed.

(** Where the walk has been before, in this arena. *)
Definition behind (g : gc) (prev : option Z) (b : Z) : Prop :=
  forall pv, prev = Some pv -> header (heapmem g) pv <> None /\ (ptr_ g = b \/ b <= pv <= ptr_ g).

Lemma roots_collected g g' : collected g g' -> (forall x, marked g x -> marked g' x) -> roots_marked g -> roots_marked g'.
Proof. intros [E _ _] H Hr x Hx. destruct (fixed_fields _ _ E) as (_ & _ & _ & _ & _ & _ & Er). rewrite Er in Hx. by apply H, Hr. Qed.

(** A grey object is blackened and what it refers to marked. *)
Lemma blacken_ok g p o : Inv ∅ [] None g -> roots_marked g -> objs g !! p = Some o -> color o = propagator ->
  runs (set_heap p (set_color (mutator g) o);; mark (obj o))
    (fun _ g' => Inv ∅ [] None g' /\ roots_marked g' /\ collected g g' /\ ctl g' = ctl g /\ forall o', objs g' !! p = Some o' -> seen g' o') g.
Proof.
  intros I Hr Ho Hg. pose proof (inv_blacken _ _ _ _ _ I Ho Hg) as I1. unfold set_heap. run. run. set (g1 := set_objs _ g) in *.
  destruct (i_colors _ _ _ _ I) as (_ & _ & Hms & _). pose proof (collected_blacken g p o (mutator g) Ho Hms) as C1. fold g1 in C1.
  destruct (grey_not_swept g (i_colors _ _ _ _ I)) as [Hgs Hgm].
  assert (objs g1 !! p = Some (set_color (mutator g) o)) as Ho1 by apply lookup_insert_eq.
  assert (source ∅ g1 p (set_color (mutator g) o)) as Hs1 by (split; [exact Hms | set_solver]).
  eapply runs_ends; [apply (mark_ok ∅ [] (Some p) g1 (obj o) I1) |].
  - apply (i_wt _ _ _ _ I1 p _ Ho1 Hs1).
  - intros x Hx. apply (i_outs _ _ _ _ I1 p _ x Ho1 Hs1 Hx).
  - intros [] g2 [P2 M2]. pose proof (inv_painted _ _ _ _ _ I1 P2) as I2.
    assert (collected g g2) as C2 by (eapply collected_trans; [exact C1 |]; apply collected_painted; [apply (i_colors _ _ _ _ I1) | done]).
    destruct (painted_l _ _ _ _ P2 Ho1) as (o2 & Ho2 & Hor). split_and!.
    + apply (inv_close _ _ _ p I2). intros o' x Ho' Hx. apply M2. assert (o' = o2) as -> by congruence. by destruct Hor as [-> | (_ & -> & _)].
    + apply (roots_painted g1); [done |]. intros x Hx. destruct (Hr x Hx) as (q & Hq & Hm). unfold marked. simpl.
      destruct (decide (x = p)) as [-> | Hne]; [rewrite lookup_insert_eq; eexists; split; [done | by left] |].
      rewrite lookup_insert_ne //. eauto.
    + done.
    + destruct P2 as (E & _). by rewrite E.
    + intros o' Ho'. assert (o' = o2) as -> by congruence. destruct (fixed_fields _ _ (co_fixed _ _ C2)) as (_ & _ & _ & Es & _ ).
      unfold seen. rewrite Es. destruct Hor as [-> | (_ & -> & Hn)]; simpl; [split; [done | by intros _ ?] | split; [done | lia]].
Qed.

Context `{HeapPool}.

(** What is swept is given back, and nothing else. *)
Lemma swept_ok g p o : Inv ∅ [] None g -> roots_marked g -> objs g !! p = Some o -> color o = sweeper g ->
  runs (match obj o with Raw => mret tt | b => gclock;; tfree destroy b true;; gcunlock end;; poolfree p)
    (fun _ g' => Inv ∅ [] None g' /\ roots_marked g' /\ collected g g' /\ base g' = base g /\ ptr_ g' = ptr_ g /\ limit g' = limit g /\
      forall x, header (heapmem g) x <> None -> stale g' !! x = None) g.
Proof.
  intros I Hr Ho Hs. run.
  assert (runs (match obj o with Raw => mret tt | b => gclock;; tfree destroy b true;; gcunlock end) (fun _ g' => g' = set_gchalt (gchalt g) g) g) as Hbody.
  { assert (g = set_gchalt (gchalt g) g) as Eg by (by destruct g).
    destruct (obj o); try (run; exact Eg); unfold gclock, gcunlock; run; run; run; cbn [tfree freeheap freearray freelist]; unfold freestring; run; run;
      unfold set_gchalt; simpl; f_equal; lia. }
  eapply runs_ends; [exact Hbody |]. intros [] g1 ->. pose proof (inv_gchalt _ _ _ _ (gchalt g) I) as I1. set (g1 := set_gchalt _ _) in *.
  pose proof (inv_doom_swept _ _ _ _ _ _ I1 Ho Hs) as I2.
  eapply runs_ends; [apply (poolfree_ok ∅ [] None g1 p I2); [set_solver | by exists o] |]. intros [] g2 (I3 & [R1 R2 R3] & E3 & St3).
  unfold rest in R1. injection R1 as E1 E2 E4 E5 E6 E7 E8 E9 E10 E11 E12 E13 E14.
  assert (collected g g2) as C.
  { split; [unfold fixed; congruence | |].
    - intros x q Hq Hqs. exists q. rewrite E3 lookup_delete_ne; [by split_and! |]. intros ->. congruence.
    - intros x q Hq. destruct (R2 x q Hq) as (q' & Hq' & _ & Eq). eauto. }
  split_and!; try done. apply (roots_collected g); [done | | done]. clear St3. intros x (q & Hq & Hm). exists q.
  rewrite E5. split; [| done]. rewrite E3 lookup_delete_ne //. intros ->. destruct (i_colors _ _ _ _ I) as (_ & _ & Hms & _).
  destruct (grey_not_swept g (i_colors _ _ _ _ I)) as [Hgs _]. assert (q = o) as -> by congruence. destruct Hm; congruence.
Qed.

(** The block at [p] is visited. *)
Lemma visit_ok g p n m : Inv ∅ [] None g -> roots_marked g -> header (heapmem g) p = Some (n, m) ->
  runs (visit_block p m)
    (fun (swept : bool) g' => Inv ∅ [] None g' /\ roots_marked g' /\ collected g g' /\ base g' = base g /\ ptr_ g' = ptr_ g /\ limit g' = limit g /\
      if swept then m = Pool.MAGIC_A /\ (forall x, header (heapmem g) x <> None -> stale g' !! x = None) else heapmem g' = heapmem g /\ forall o, objs g' !! p = Some o -> seen g' o) g.
Proof.
  intros I Hr Hh. unfold visit_block. pose proof (i_pool _ _ _ _ I) as Hp. pose proof (collected_refl g) as C0.
  assert (forall o, objs g !! p = Some o -> m = Pool.MAGIC_A) as HA.
  { intros o Ho. destruct (object_block _ _ p Hp) as (k & _ & Hk); [by eexists | congruence]. }
  destruct (Z.eqb_spec m Pool.MAGIC_A) as [Em | Em].
  2: { run. split_and!; try done. intros o Ho. by destruct Em; apply (HA o). }
  assert (is_Some (objs g !! p)) as [o Ho].
  { apply (pool_objs _ _ Hp). destruct (header_inv _ _ _ _ Hh) as [(bs & _ & _ & Em') | (st & Hst & Em')]; [by rewrite Em in Em' |].
    exists n. destruct st as [m'|]; [| by rewrite Em in Em']. simpl in Em'. congruence. }
  run. run. run. run. run. run. destruct (Z.eqb_spec (color o) propagator) as [Eg | Eg].
  - apply ends_seq. eapply runs_ends; [by apply (blacken_ok g p o) |]. intros [] g2 (I2 & R2 & C2 & E2 & S2). run. unfold ctl in E2. split_and!; try done; congruence.
  - destruct (Z.eqb_spec (color o) (sweeper g)) as [Es | Es].
    + apply ends_seq. eapply runs_ends; [by apply (swept_ok g p o) |]. intros [] g2 (I2 & R2 & C2 & E2 & E3 & E4 & E5). run. by split_and!.
    + run. split_and!; try done. intros o' Ho'. assert (o' = o) as -> by congruence. by split.
Qed.

Lemma inv_unwalk D E X g p l : Inv D E X g -> Inv D E X (set_walk None p l g).
Proof. intros I. by apply inv_walk. Qed.

(** Back to the block before the one that is gone. *)
Lemma inv_back g b pv : Inv ∅ [] None g -> base g = Some b -> b <= pv <= ptr_ g -> Inv ∅ [] None (set_walk (base g) pv (limit g) g).
Proof.
  intros I Hb Hpv. apply inv_walk; [done |]. pose proof (i_walk _ _ _ _ I) as Hw. unfold walk_ok in *. simpl. rewrite Hb in Hw |- *.
  destruct Hw as ((bs & K1 & K2 & K3) & K4 & K5). split_and!.
  - exists bs. split_and!; try done; lia.
  - intros x o Ho Hc. destruct (K4 x o Ho Hc) as (as1 & bs' & as2 & E & [[H1 H2] | H1]); exists as1, bs', as2; (split; [done |]); [left; split; [lia | done] | by right].
  - intros Hz x o Ho Hc. destruct (K5 Hz x o Ho Hc) as (as1 & bs' & as2 & E & [[H1 H2] | H1]); exists as1, bs', as2; (split; [done |]); [left; split; [lia | done] | by right].
Qed.

Lemma sweep_ok fuel prev g b : Inv ∅ [] None g -> roots_marked g -> base g = Some b -> header (heapmem g) (ptr_ g) <> None -> behind g prev b ->
  runs (sweep fuel prev) (fun ok g' => Inv ∅ [] None g' /\ roots_marked g' /\ collected g g' /\
    (ok = true -> base g' = None -> no_more g') /\ on_block g') g.
Proof.
  revert prev g b. induction fuel as [| fuel IH]; intros prev g b I Hr Hb Hh Hpv; cbn [sweep].
  { run. split_and!; try done; [apply collected_refl | congruence | congruence]. }
  run. run. destruct (Z.leb_spec (visit g) 0) as [Lv | Lv].
  { run. split_and!; try done; [apply collected_refl | congruence | congruence]. }
  run. run. run. run. destruct (header (heapmem g) (ptr_ g)) as [[n m]|] eqn:Eh; [| done]. rewrite (words_block _ _ _ Eh). run. run.
  set (p := ptr_ g) in *. cbv iota. run. eapply runs_ends; [apply (visit_ok g p n m I Hr Eh) |].
  intros swept g1 (I1 & R1 & C1 & E1 & E2 & E3 & Hsw). rewrite Hb in E1. destruct swept.
  - destruct Hsw as [Hm Hst]. run. run. destruct (pv ← prev; if okbhdr g1 pv then Some pv else None) as [pv|] eqn:Epv.
    + destruct prev as [pv'|]; [| done]. simpl in Epv. destruct (okbhdr g1 pv') eqn:Eok; [| done]. injection Epv as ->.
      destruct (header (heapmem g1) pv) as [hd|] eqn:Ehp; [| by rewrite (okbhdr_gone g1 pv Ehp (Hst pv (proj1 (Hpv pv eq_refl)))) in Eok].
      assert (b <= pv <= ptr_ g1) as Hpv'.
      { destruct (Hpv pv eq_refl) as [_ [Hpb | Hpb]]; [| by rewrite E2]. exfalso.
        pose proof (i_walk _ _ _ _ I) as Hw. unfold walk_ok in Hw. rewrite Hb in Hw. destruct Hw as ((bs & Hin & _) & _).
        rewrite (header_leader _ p bs) in Eh; [injection Eh as _ <-; done | by rewrite /p Hpb]. }
      pose proof (inv_back _ _ _ I1 E1 Hpv') as I2. run. run. set (g2 := set_walk _ _ _ g1) in *. run. run.
      eapply runs_ends; [apply (IH (Some pv) (set_visit (visit g2 - 1) g2) b) |].
      * by apply inv_visit.
      * exact R1.
      * exact E1.
      * simpl. by rewrite Ehp.
      * intros ? [= <-]. simpl. rewrite Ehp. split; [done | right; lia].
      * intros ok g3 (I3 & R3 & C3 & N3 & B3). split_and!; try done. eapply collected_trans; [exact C1 |]. 
        eapply collected_trans; [apply (collected_walk g1 (base g1) pv (limit g1)) |]. eapply collected_trans; [apply (collected_visit g2 (visit g2 - 1)) | done].
    + run. run. run. split_and!; [by apply inv_unwalk | done | eapply collected_trans; [exact C1 | apply collected_walk] | done | by intros []].
  - destruct Hsw as [Em Hseen]. run. rewrite -/p in E2. rewrite -E2 -Em in Eh. rewrite -E2 in Hseen.
    eapply runs_ends; [apply (advance_ok g1 b n m I1 E1 Eh Hseen) |]. intros [] g2 (I2 & (b' & p' & l' & Eg2) & Hb2).
    assert (roots_marked g2 /\ collected g g2) as [R2 C2] by (rewrite Eg2; split; [exact R1 | eapply collected_trans; [exact C1 | apply collected_walk]]).
    run. run. destruct (base g2) as [b2|] eqn:Eb2; [| run; split_and!; try done; by rewrite /on_block Eb2].
    destruct Hb2 as [Hh2 Hb2]. run. run. eapply runs_ends; [apply (IH (Some p) (set_visit (visit g2 - 1) g2) b2) |]; try done.
    + by apply inv_visit.
    + intros ? [= <-]. simpl. split; [rewrite Eg2 /= Em -E2; by rewrite -Em Eh |].
      destruct Hb2 as [[-> Hle] | Hle]; [right | by left]. rewrite -E2. split; [| done].
      pose proof (i_walk _ _ _ _ I1) as Hw. unfold walk_ok in Hw. rewrite E1 in Hw. destruct Hw as ((bs & _ & _ & Hw) & _). lia.
    + intros ok g3 (I3 & R3 & C3 & N3 & B3). split_and!; try done. eapply collected_trans; [exact C2 |].
      eapply collected_trans; [apply (collected_visit g2 (visit g2 - 1)) | done].
Qed.

(** What a run of the collector leaves: whatever is not of the colour that is
    swept is there, with its count and what it holds; nothing is new. *)
Record survives (g g' : gc) : Prop := {
  sv_progs : progs g' = progs g;
  sv_origmps : origmps g' = origmps g;
  sv_ptrtab : ptrtab g' = ptrtab g;
  sv_gchalt : gchalt g' = gchalt g;
  sv_kept : forall x o, objs g !! x = Some o -> color o <> sweeper g ->
    exists o', objs g' !! x = Some o' /\ ref o' = ref o /\ obj o' = obj o;
  sv_old : forall x o', objs g' !! x = Some o' -> exists o, objs g !! x = Some o /\ obj o' = obj o;
}.

Lemma collected_survives g g' : collected g g' -> survives g g'.
Proof.
  intros [C1 C2 C3]. destruct (fixed_fields _ _ C1) as (E1 & E2 & E3 & _ & _ & E4 & _). split; try done.
  intros x o Ho Hs. destruct (C2 x o Ho Hs) as (o' & ? & ? & ? & _). eauto.
Qed.

Lemma survives_painted g0 g g' : collected g0 g -> painted (next_epoch g) g' -> survives g0 g'.
Proof.
  intros [C1 C2 C3] P. pose proof (painted_changed _ _ P) as Hch. destruct (fixed_fields _ _ C1) as (E1 & E2 & E3 & _ & _ & E4 & _).
  destruct (changed_fields _ _ Hch) as (_ & F1 & F2 & _ & _ & _ & _ & _ & _ & _ & _ & F3). simpl in *. split; try congruence.
  - destruct P as (Ec & _). unfold ctl in Ec. simpl in Ec. congruence.
  - intros x o Ho Hs. destruct (C2 x o Ho Hs) as (o1 & Ho1 & Er & Eb & _). destruct (painted_l _ _ _ _ P Ho1) as (o2 & Ho2 & [-> | (_ & -> & _)]); eauto.
  - intros x o' Ho'. destruct (same_objs_r _ _ _ _ (c_objs _ _ Hch) Ho') as (o1 & Ho1 & Eb). destruct (C3 x o1 Ho1) as (o & Ho & Eb').
    exists o. split; congruence.
Qed.

(** A slice of the collector: part of a pass over the heap, at the end of which
    the epoch is over if nothing was marked.  [T] is whatever the walk is known
    to do besides. *)
Record passed (T : gc -> gc -> Prop) (g g3 : gc) : Prop := {
  pa_inv : Inv ∅ [] None g3;
  pa_marked : roots_marked g3;
  pa_collected : collected g g3;
  pa_resumable : resumable g3;
  pa_also : T g g3;
}.

Lemma rungc_cases (T : gc -> gc -> Prop) g : Inv ∅ [] None g -> roots_marked g -> heapmem g <> [] -> resumable g ->
  (forall g1 g2 g3, T g1 g2 -> T g2 g3 -> T g1 g3) ->
  (forall g1 g2, objs g2 = objs g1 -> fixed g2 = fixed g1 -> T g1 g2) ->
  (forall fuel prev g1 ok g2, sweep fuel prev g1 = Ret ok g2 -> T g1 g2) ->
  runs rungc (fun _ g' => passed T g g' \/
    exists g3, passed T g g3 /\ settled g3 /\ painted (next_epoch g3) g' /\ Inv ∅ [] None g' /\ roots_marked g' /\
      rootset (progs g3) (set_gccolor (i32 (gccolor g3 + 1)) g3) = Ret tt g') g.
Proof.
  intros I Hr Hne Hres Ttrans Tsame Tsweep.
  assert (passed T g g) as S0 by (split; [done | done | apply collected_refl | done | by apply Tsame]). unfold rungc. run. run.
  destruct (negb (gchalt g =? 0)); [run; by left |]. run. run. run.
  eapply (runs_ends _ (fun _ g1 => passed T g g1 /\ exists b, base g1 = Some b)).
  { destruct (base g) as [b|] eqn:Eb; [run; split; [done | eauto] |].
    destruct (heapmem g) as [| [b bs] ars] eqn:Eh; [done |]. run. run. rewrite Eh. run. run.
    pose proof (walk_from_ok g (base g) (ptr_ g) (limit g) b bs I) as Hwf.
    replace (set_walk (base g) (ptr_ g) (limit g) g) with g in Hwf by (by destruct g). eapply runs_ends; [apply Hwf |].
    - exists [], ars. split; [done |]. intros x o Ho _. pose proof (i_pool _ _ _ _ I) as Hp.
      destruct (object_block _ _ x Hp) as (n & Hn & _); [by eexists |].
      destruct (block_in _ _ _ (pool_sizes _ _ Hp) Hn) as (ar & Har & _ & H1 & H2 & H3). rewrite -Eh. apply Exists_exists. exists ar. split; [done |].
      unfold floor, ceiling in *. simpl in *. lia.
    - intros [] g1 [-> I1]. split; [| by eexists]. split; [done | exact Hr | apply collected_walk | | by apply Tsame].
      intros _. left. simpl. rewrite Eh (header_leader _ b bs); [done | by left]. }
  intros [] g1 ([I1 R1 C1 W1 T1] & b & Eb). run. run. destruct (okbhdr g1 (ptr_ g1)) eqn:Eok.
  2: { run. left. split; [by apply inv_unwalk | done | eapply collected_trans; [exact C1 | apply collected_walk] | by intros [] | eapply Ttrans; [exact T1 | by apply Tsame]]. }
  assert (header (heapmem g1) (ptr_ g1) <> None) as Eh by (destruct (W1 ltac:(congruence)); [done | congruence]).
  run. run. run. set (g2 := set_visit Quanta g1).
  pose proof (sweep_ok (Z.to_nat Quanta) None g2 b (inv_visit _ _ _ _ Quanta I1) R1 Eb Eh ltac:(done)) as Hsw.
  unfold ends in Hsw |- * at 1. destruct (sweep (Z.to_nat Quanta) None g2) as [ok g3 | |] eqn:Esw; try done. destruct Hsw as (I3 & R3 & C3 & N3 & B3).
  assert (passed T g g3) as P3.
  { split; [done | done | | by apply on_block_resumable |].
    - eapply collected_trans; [exact C1 |]. eapply collected_trans; [apply (collected_visit g1 Quanta) | done].
    - eapply Ttrans; [exact T1 |]. eapply Ttrans; [apply (Tsame g1 g2); done | by eapply Tsweep]. }
  destruct ok; cbn [negb]; [| run; by left].
  run. run. destruct (base g3) as [b3|] eqn:Eb3; [run; by left |].
  run. run. destruct (Z.eqb_spec (nprop g3) 0) as [Ez | Ez].
  - run. run. run. run. change (progs (set_gccolor (i32 (gccolor g3 + 1)) g3)) with (progs g3).
    assert (settled g3) as Hset.
    { split; [done |]. intros h o Ho. destruct (N3 eq_refl eq_refl h o Ho) as [H1 H2]. split; [by apply H2 | done]. }
    pose proof (rootset_ok g3 I3 R3 Hset) as Hro. unfold ends in *. destruct (rootset _ _) as [[] g4 | |] eqn:Ero; try done.
    destruct Hro as (P4 & I4 & R4). right. exists g3. by split_and!.
  - run. left. destruct P3 as [_ _ [C1' C2' C3'] W3 T3]. split; [| done | by split | by rewrite /resumable /= Eb3 | eapply Ttrans; [exact T3 | by apply Tsame]].
    destruct I3 as [? ? ? ? ? ? ? ? ? Hw]. split; try done. unfold walk_ok. simpl. by rewrite Eb3.
Qed.

Lemma rungc_ok g : Inv ∅ [] None g -> roots_marked g -> heapmem g <> [] -> resumable g ->
  runs rungc (fun _ g' => Inv ∅ [] None g' /\ roots_marked g' /\ survives g g' /\ resumable g') g.
Proof.
  intros I Hr Hne Hres. eapply runs_ends; [by apply (rungc_cases (fun _ _ => True)) |].
  intros [] g' [[I' R' C W _] | (g3 & [_ _ C _ _] & Hset & P & I' & R' & _)].
  - split_and!; try done. by apply collected_survives.
  - split_and!; try done; [by apply (survives_painted _ g3) |]. destruct Hset as [Hb _]. destruct P as (Ec & _). unfold ctl in Ec.
    intros []. simpl in Ec. congruence.
Qed.
End Sweep.
