(* ===== verification/GcOps.v ===== *)
(** * The garbage collector and the instructions

    Instructions move pointers between slots: of frames, of objects, of
    elements of arrays.  Each keeps counts and colours such that the collector
    may run after it. *)

From S2P Require Import Prelude Heap Pool PoolArena Gc GcPool GcInv GcRun GcFree GcMark GcSweep.
Import Gc.

#[local] Open Scope Z_scope.

(** ** Lists of pointers under updates *)

Section Updates.

Lemma ptrs_insert ws k p v : ws !! k = Some (Ptr p) -> ptrs (<[k := Ptr v]> ws) ++ option_list p ≡ₚ ptrs ws ++ option_list v.
Proof.
  intros Hk. assert (k < length ws)%nat as Hlt by (by eapply lookup_lt_Some).
  rewrite -{2}(take_drop_middle ws k (Ptr p) Hk) insert_take_drop //. unfold ptrs. rewrite !omap_app /=.
  destruct p as [p|], v as [v|]; simpl; rewrite ?app_nil_r; solve_Permutation.
Qed.

Lemma bind_insert {A} (f : A -> list Z) xs i x y : xs !! i = Some x -> (<[i := y]> xs ≫= f) ++ f x ≡ₚ (xs ≫= f) ++ f y.
Proof.
  intros Hi. assert (i < length xs)%nat as Hlt by (by eapply lookup_lt_Some).
  rewrite -{2}(take_drop_middle xs i x Hi) insert_take_drop // !bind_app /=. solve_Permutation.
Qed.

(** An update that exchanges [e] for [e'] exchanges it in the whole. *)
Lemma bind_exchange {A} (f : A -> list Z) xs i x y e e' : xs !! i = Some x -> f y ++ e ≡ₚ f x ++ e' ->
  (<[i := y]> xs ≫= f) ++ e ≡ₚ (xs ≫= f) ++ e'.
Proof.
  intros Hi H. pose proof (bind_insert f xs i x y Hi) as H1. apply (Permutation_app_inv_l (f x)).
  rewrite app_assoc (Permutation_app_comm (f x)) H1 -app_assoc H. solve_Permutation.
Qed.

Lemma wt_words_insert t ws k p v : ws !! k = Some (Ptr p) -> wt_words t ws -> wt_words t (<[k := Ptr v]> ws).
Proof.
  intros Hk Hw j. rewrite -(Hw j). destruct (decide (j = k)) as [-> | Hne].
  - rewrite list_lookup_insert_eq; [| by eapply lookup_lt_Some]. split; intros _; eauto.
  - by rewrite list_lookup_insert_ne.
Qed.
End Updates.

(** ** Slots *)

(** The types say that a slot holds a pointer. *)
Definition slot_typed (g : gc) (s : slot) : Prop :=
  match s with
  | FrameW p e f k => exists pr sx fm, progs g !! p = Some pr /\ EX pr !! e = Some sx /\ fr sx !! f = Some fm /\ k ∈ slots (default (TR sx) (f_t fm))
  | DataW h k => exists o t ws, objs g !! h = Some o /\ obj o = Data t ws /\ k ∈ slots t
  | ElemW h k => exists o a (i j : nat), objs g !! h = Some o /\ obj o = Arr a /\ Z.of_nat i < len a /\ j ∈ slots (a_t a) /\
      k = (i * Z.to_nat (size (a_t a) / 4) + j)%nat
  | ListW h k => exists o l t, objs g !! h = Some o /\ obj o = Lst l /\ l_t l = Some t /\ k ∈ slots t
  | TailW h => exists o l, objs g !! h = Some o /\ obj o = Lst l
  end.

(** The object a slot is in. *)
Definition container (s : slot) : option Z :=
  match s with FrameW _ _ _ _ => None | DataW h _ | ElemW h _ | ListW h _ | TailW h => Some h end.

Definition slot_ok (g : gc) (s : slot) : Prop := slot_typed g s /\ forall h, container s = Some h -> live ∅ g h.

(** The slots that instructions write to. *)
Definition writable (s : slot) : Prop := match s with ListW _ _ | TailW _ => False | _ => True end.

Section Slots.
Context (E : list Z) (X : option Z).

Lemma in_ptrs ws k x : ws !! k = Some (Ptr (Some x)) -> x ∈ ptrs ws.
Proof. intros H. apply list_elem_of_omap. exists (Ptr (Some x)). split; [by eapply list_elem_of_lookup_2 | done]. Qed.

Lemma live_source g h o : objs g !! h = Some o -> live ∅ g h -> source ∅ g h o.
Proof. intros Ho (o' & Ho' & Hs & HD). assert (o' = o) as -> by congruence. done. Qed.

Lemma prog_wt g p pr e sx f fm : Inv ∅ E X g -> progs g !! p = Some pr -> EX pr !! e = Some sx -> fr sx !! f = Some fm ->
  wt_frame (objs g) (TR sx) fm.
Proof.
  intros I Hp He Hf. pose proof (i_progs _ _ _ _ I) as Hps. rewrite Forall_forall in Hps.
  destruct (Hps pr (list_elem_of_lookup_2 _ _ _ Hp)) as [_ H]. rewrite Forall_forall in H.
  specialize (H sx (list_elem_of_lookup_2 _ _ _ He)). rewrite Forall_forall in H. apply (H fm (list_elem_of_lookup_2 _ _ _ Hf)).
Qed.

Lemma prog_root g p pr x : progs g !! p = Some pr -> x ∈ prog_outs pr -> x ∈ roots g.
Proof. intros Hp Hx. apply elem_of_app. left. apply list_elem_of_bind. exists pr. split; [done | by eapply list_elem_of_lookup_2]. Qed.

Lemma frame_root pr e sx f fm x : EX pr !! e = Some sx -> fr sx !! f = Some fm -> x ∈ frame_outs fm -> x ∈ prog_outs pr.
Proof.
  intros He Hf Hx. right. apply elem_of_app. left. apply list_elem_of_bind. exists sx. split; [| by eapply list_elem_of_lookup_2].
  apply list_elem_of_bind. exists fm. split; [done | by eapply list_elem_of_lookup_2].
Qed.

(** The array that holds the elements of a slice. *)
Lemma owner_ok g h o a i j : Inv ∅ E X g -> objs g !! h = Some o -> obj o = Arr a -> live ∅ g h ->
  Z.of_nat i < len a -> j ∈ slots (a_t a) ->
  exists r k o' b p, owner h a (i * Z.to_nat (size (a_t a) / 4) + j)%nat = (r, k) /\ objs g !! r = Some o' /\ obj o' = Arr b /\ live ∅ g r /\
    root b = None /\ a_data b !! k = Some (Ptr p).
Proof.
  intros I Ho Ea Hl Hi Hj. pose proof (live_source _ _ _ Ho Hl) as Hs. pose proof (i_wt _ _ _ _ I h o Ho Hs) as Hw. rewrite Ea in Hw.
  pose proof Hw as (H1 & H2 & H3). unfold owner. destruct (root a) as [r|] eqn:Er; simpl.
  - destruct H3 as (Ed & o' & b & n & Ho' & Eb & Hrb & Et & Hof & Hn & Hle).
    assert (live ∅ g r) as Hlr by (apply (i_outs _ _ _ _ I h o r Ho Hs); rewrite Ea /= Er; by left).
    pose proof (i_wt _ _ _ _ I r o' Ho' (live_source _ _ _ Ho' Hlr)) as Hwb. rewrite Eb in Hwb.
    destruct Hwb as (B1 & B2 & B3). rewrite Hrb in B3. destruct B3 as (B3 & B4 & B5 & B6). rewrite Et in B4, B6.
    destruct (B4 j Hj) as [_ Hm]. destruct (B6 (Z.to_nat n + i)%nat j) as [p Hp]; [lia | done |].
    eexists r, _, o', b, p. split_and!; try done. rewrite -Hp. f_equal. rewrite Hof.
    assert (size (a_t a) = 4 * (size (a_t a) / 4)) as E1 by (pose proof (Z_div_mod_eq_full (size (a_t a)) 4); lia).
    set (w := size (a_t a) / 4) in *. replace (n * size (a_t a)) with (n * w * 4) by (rewrite E1; ring). rewrite Z.div_mul // Z2Nat.inj_mul; lia.
  - destruct H3 as (B3 & B4 & B5 & B6). destruct (B6 i j Hi Hj) as [p Hp]. eexists h, _, o, a, p. split_and!; try done.
    rewrite -Hp B3. done.
Qed.

Lemma getw_ok g s : Inv ∅ E X g -> slot_ok g s -> exists v, getw s g = Ret v g /\ forall x, v = Some x -> live ∅ g x.
Proof.
  intros I [Ht Hl]. destruct s as [p e f k | h k | h k | h k | h]; simpl in Ht.
  - destruct Ht as (pr & sx & fm & Hp & He & Hf & Hk). destruct (prog_wt _ _ _ _ _ _ _ I Hp He Hf) as [Hw _].
    destruct (proj2 (Hw k) Hk) as [v Hv]. exists v. split.
    + unfold getw, prog, getg, mbind, m_bind, from, ptr_in, mret, m_ret. by rewrite Hp He Hf Hv.
    + intros x ->. apply (i_roots _ _ _ _ I). apply elem_of_app. left. eapply prog_root; [done |]. eapply frame_root; try done.
      apply elem_of_app. left. by eapply in_ptrs.
  - destruct Ht as (o & t & ws & Ho & Eb & Hk). pose proof (live_source _ _ _ Ho (Hl h eq_refl)) as Hs.
    pose proof (i_wt _ _ _ _ I h o Ho Hs) as Hw. rewrite Eb in Hw. destruct (proj2 (Hw k) Hk) as [v Hv]. exists v. split.
    + unfold getw, heap_at, mbind, m_bind, from, ptr_in, mret, m_ret. by rewrite Ho Eb Hv.
    + intros x ->. apply (i_outs _ _ _ _ I h o x Ho Hs). rewrite Eb. by eapply in_ptrs.
  - destruct Ht as (o & a & i & j & Ho & Ea & Hi & Hj & ->).
    destruct (owner_ok g h o a i j I Ho Ea (Hl h eq_refl) Hi Hj) as (r & k & o' & b & v & Eo & Ho' & Eb & Hlr & Hrb & Hv). exists v. split.
    + unfold getw, array_at, heap_at, mbind, m_bind. rewrite Ho Ea. unfold mret at 1, m_ret at 1. rewrite Eo Ho' Eb.
      unfold mret, m_ret, ptr_in, from. by rewrite Hv.
    + intros x ->. apply (i_outs _ _ _ _ I r o' x Ho' (live_source _ _ _ Ho' Hlr)). rewrite Eb /= Hrb. by eapply in_ptrs.
  - destruct Ht as (o & l & t & Ho & El & Et & Hk). pose proof (live_source _ _ _ Ho (Hl h eq_refl)) as Hs.
    pose proof (i_wt _ _ _ _ I h o Ho Hs) as Hw. rewrite El in Hw. destruct Hw as [Hw _]. rewrite Et in Hw.
    destruct (proj2 (Hw k) Hk) as [v Hv]. exists v. split.
    + unfold getw, list_at, heap_at, mbind, m_bind. rewrite Ho El. unfold mret, m_ret, ptr_in, from. by rewrite Hv.
    + intros x ->. apply (i_outs _ _ _ _ I h o x Ho Hs). rewrite El. apply elem_of_app. right. by eapply in_ptrs.
  - destruct Ht as (o & l & Ho & El). pose proof (live_source _ _ _ Ho (Hl h eq_refl)) as Hs. exists (tail l). split.
    + unfold getw, list_at, heap_at, mbind, m_bind. by rewrite Ho El.
    + intros x Ex. apply (i_outs _ _ _ _ I h o x Ho Hs). rewrite El /= Ex. by left.
Qed.
End Slots.

(** ** States in which slots stay slots *)

Definition same_type (b b' : body) : Prop :=
  match b, b' with
  | Data t _, Data t' _ => t = t'
  | Arr a, Arr a' => len a = len a' /\ a_t a = a_t a' /\ root a = root a' /\ off a = off a'
  | Lst l, Lst l' => l_t l = l_t l'
  | Str, Str | Raw, _ => True
  | _, _ => False
  end.

Definition frame_type (ps : list Prog) (p e f : nat) : option Type_ :=
  pr ← ps !! p; sx ← EX pr !! e; fm ← fr sx !! f; Some (default (TR sx) (f_t fm)).

Record steady (g g' : gc) : Prop := {
  st_objs : forall x o, objs g !! x = Some o -> exists o', objs g' !! x = Some o' /\ same_type (obj o) (obj o') /\
    (color o <> sweeper g -> color o' <> sweeper g');
  st_frames : forall p e f, frame_type (progs g') p e f = frame_type (progs g) p e f;
}.

Section Steady.

Lemma same_type_refl b : same_type b b.
Proof. by destruct b. Qed.

Lemma same_type_trans b1 b2 b3 : same_type b1 b2 -> same_type b2 b3 -> same_type b1 b3.
Proof. destruct b1, b2, b3; simpl; intuition congruence. Qed.

Lemma steady_refl g : steady g g.
Proof. split; [| done]. intros x o Ho. exists o. split_and!; [done | apply same_type_refl | done]. Qed.

Lemma steady_trans g1 g2 g3 : steady g1 g2 -> steady g2 g3 -> steady g1 g3.
Proof.
  intros [H1 H2] [K1 K2]. split; [| intros; congruence]. intros x o Ho. destruct (H1 x o Ho) as (o2 & Ho2 & E2 & S2).
  destruct (K1 x o2 Ho2) as (o3 & Ho3 & E3 & S3). exists o3. split_and!; [done | by eapply same_type_trans | by auto].
Qed.

Lemma steady_live g g' x : steady g g' -> live ∅ g x -> live ∅ g' x.
Proof. intros [H _] (o & Ho & Hs & HD). destruct (H x o Ho) as (o' & Ho' & _ & Hs'). exists o'. by auto. Qed.

Lemma steady_slot g g' s : steady g g' -> slot_ok g s -> slot_ok g' s.
Proof.
  intros St [Ht Hl]. split; [| intros h Hh; by eapply steady_live, Hl]. destruct St as [H1 H2].
  destruct s as [p e f k | h k | h k | h k | h]; simpl in *.
  - destruct Ht as (pr & sx & fm & Hp & He & Hf & Hk). specialize (H2 p e f). unfold frame_type in H2. rewrite Hp /= He /= Hf /= in H2.
    destruct (progs g' !! p) as [pr'|] eqn:Ep; [| done]. simpl in H2. destruct (EX pr' !! e) as [sx'|] eqn:Ee; [| done]. simpl in H2.
    destruct (fr sx' !! f) as [fm'|] eqn:Ef; [| done]. simpl in H2. injection H2 as E2. exists pr', sx', fm'. by rewrite E2.
  - destruct Ht as (o & t & ws & Ho & Eb & Hk). destruct (H1 h o Ho) as (o' & Ho' & Et & _). rewrite Eb in Et.
    destruct (obj o') as [| t' ws' | | |] eqn:Eb'; try done. simpl in Et. subst t'. by exists o', t, ws'.
  - destruct Ht as (o & a & i & j & Ho & Ea & Hi & Hj & ->). destruct (H1 h o Ho) as (o' & Ho' & Et & _). rewrite Ea in Et.
    destruct (obj o') as [| | | a' |] eqn:Eb'; try done. destruct Et as (E1 & E2 & _). exists o', a', i, j. by rewrite -E1 -E2.
  - destruct Ht as (o & l & t & Ho & El & Et & Hk). destruct (H1 h o Ho) as (o' & Ho' & Es & _). rewrite El in Es.
    destruct (obj o') as [| | | | l'] eqn:Eb'; try done. simpl in Es. exists o', l', t. by rewrite -Es.
  - destruct Ht as (o & l & Ho & El). destruct (H1 h o Ho) as (o' & Ho' & Es & _). rewrite El in Es.
    destruct (obj o') as [| | | | l'] eqn:Eb'; try done. by exists o', l'.
Qed.

Lemma steady_painted g g' : colors_ok g -> painted g g' -> steady g g'.
Proof.
  intros Hc P. destruct (grey_not_swept g Hc) as [Hgs _]. pose proof (painted_changed _ _ P) as Hch.
  destruct (changed_fields _ _ Hch) as (_ & Ep & _ & _ & Es & _). split; [| by rewrite Ep]. rewrite Es.
  intros x o Ho. destruct (painted_l _ _ _ _ P Ho) as (o' & Ho' & [-> | (_ & -> & _)]); eexists; (split; [exact Ho' |]); (split; [apply same_type_refl | done]).
Qed.

Lemma steady_ref g h o n : objs g !! h = Some o -> steady g (set_objs (<[h := set_ref n o]> (objs g)) g).
Proof.
  intros Ho. split; [| done]. intros x p Hx. simpl. destruct (decide (x = h)) as [-> | Hne].
  - rewrite lookup_insert_eq. exists (set_ref n o). assert (p = o) as -> by congruence. split_and!; [done | apply same_type_refl | done].
  - rewrite lookup_insert_ne //. exists p. split_and!; [done | apply same_type_refl | done].
Qed.

Lemma steady_body g h o b : objs g !! h = Some o -> same_type (obj o) b -> steady g (set_objs (<[h := set_obj b o]> (objs g)) g).
Proof.
  intros Ho Ht. split; [| done]. intros x p Hx. simpl. destruct (decide (x = h)) as [-> | Hne].
  - rewrite lookup_insert_eq. exists (set_obj b o). assert (p = o) as -> by congruence. by split_and!.
  - rewrite lookup_insert_ne //. exists p. split_and!; [done | apply same_type_refl | done].
Qed.

Lemma steady_alloc g h o ars : objs g !! h = None -> steady g (set_heapmem ars (set_objs (<[h := o]> (objs g)) g)).
Proof.
  intros Hh. split; [| done]. intros x p Hx. exists p. simpl. rewrite lookup_insert_ne; [| congruence]. split_and!; [done | apply same_type_refl | done].
Qed.
End Steady.

(** ** Writing a slot *)

Section Write.

Lemma frame_exchange p pr e sx f fm k dv v ps : ps !! p = Some pr -> EX pr !! e = Some sx -> fr sx !! f = Some fm -> f_mem fm !! k = Some (Ptr dv) ->
  let fm' := set_mem fm (<[k := Ptr v]> (f_mem fm)) in
  let pr' := MkProg (R_M pr) (<[e := MkStkext (TR sx) (<[f := fm']> (fr sx))]> (EX pr)) (exsp pr) in
  (<[p := pr']> ps ≫= prog_outs) ++ option_list dv ≡ₚ (ps ≫= prog_outs) ++ option_list v.
Proof.
  intros Hp He Hf Hk fm' pr'. apply (bind_exchange _ _ _ pr); [done |]. unfold prog_outs. simpl. constructor.
  assert (stack_outs (<[e := MkStkext (TR sx) (<[f := fm']> (fr sx))]> (EX pr)) ++ option_list dv ≡ₚ stack_outs (EX pr) ++ option_list v) as Hs.
  { apply (bind_exchange _ _ _ sx); [done |]. simpl. apply (bind_exchange _ _ _ fm); [done |]. unfold frame_outs. simpl.
    rewrite -!app_assoc (Permutation_app_comm (option_list (mr fm))) !app_assoc ptrs_insert //.
    rewrite -!app_assoc. apply Permutation_app_head, Permutation_app_comm. }
  rewrite -!app_assoc (Permutation_app_comm (omap id (exsp pr))) !app_assoc Hs. rewrite -!app_assoc. apply Permutation_app_head, Permutation_app_comm.
Qed.

Lemma set_frame_wt objs pr e sx f fm k dv v : wt_prog objs pr -> EX pr !! e = Some sx -> fr sx !! f = Some fm -> f_mem fm !! k = Some (Ptr dv) ->
  let fm' := set_mem fm (<[k := Ptr v]> (f_mem fm)) in
  wt_prog objs (MkProg (R_M pr) (<[e := MkStkext (TR sx) (<[f := fm']> (fr sx))]> (EX pr)) (exsp pr)).
Proof.
  intros [Hm Hf] He Hfm Hk fm'. split; [done |]. simpl. rewrite Forall_forall in Hf. pose proof (Hf sx (list_elem_of_lookup_2 _ _ _ He)) as Hsx.
  apply Forall_insert; [by apply Forall_forall |]. simpl. apply Forall_insert; [done |]. rewrite Forall_forall in Hsx.
  destruct (Hsx fm (list_elem_of_lookup_2 _ _ _ Hfm)) as [H1 H2]. split; [by eapply wt_words_insert | done].
Qed.

(** [v] takes the place of what was in the slot. *)
Record wrote (g g' : gc) (s : slot) (v dv : option Z) : Prop := {
  w_get : getw s g = Ret dv g;
  w_set : setw s v g = Ret tt g';
  w_steady : steady g g';
  w_halt : gchalt g' = gchalt g /\ mutator g' = mutator g;
  w_marked : forall x, marked g x -> marked g' x;
  w_raw : forall x o, objs g !! x = Some o -> obj o = Raw -> objs g' !! x = Some o;
}.

Lemma exchange_tail (l l' : list Z) dv v E : l' ++ option_list dv ≡ₚ l ++ option_list v -> l' ++ option_list dv ++ E ≡ₚ l ++ option_list v ++ E.
Proof. intros H. by rewrite !app_assoc H. Qed.

Lemma exchange_in (l l' : list Z) (dv v : option Z) x : l' ++ option_list dv ≡ₚ l ++ option_list v -> x ∈ l' -> x ∈ l \/ v = Some x.
Proof.
  intros H Hx. assert (x ∈ l' ++ option_list dv) as Hin by (apply elem_of_app; by left). rewrite H in Hin.
  apply elem_of_app in Hin as [? | Hin%in_option_list]; tauto.
Qed.

Lemma marked_body g h o b x : objs g !! h = Some o -> marked g x -> marked (set_objs (<[h := set_obj b o]> (objs g)) g) x.
Proof.
  intros Ho (p & Hp & Hm). unfold marked. simpl. destruct (decide (x = h)) as [-> | Hne].
  - rewrite lookup_insert_eq. assert (p = o) as -> by congruence. by eexists.
  - rewrite lookup_insert_ne //. eauto.
Qed.

Lemma write_body g h o b b' dv v E : Inv ∅ (option_list v ++ E) None g -> objs g !! h = Some o -> live ∅ g h -> obj o = b ->
  outs b' ++ option_list dv ≡ₚ outs b ++ option_list v -> same_shape b b' ->
  (wt_body (objs g) b -> wt_body (objs g) b') -> (forall x, v = Some x -> marked g x) ->
  Inv ∅ (option_list dv ++ E) None (set_objs (<[h := set_obj b' o]> (objs g)) g).
Proof.
  intros I Ho Hl <- Hperm Hsh Hwt Hm. apply (inv_body _ _ _ _ _ _ _ _ I Ho (live_source _ _ _ Ho Hl)).
  - by apply exchange_tail.
  - done.
  - intros Hw _. specialize (Hwt Hw). eapply wt_body_keeps; [| exact Hwt]. intros x _ p Hx.
    destruct (decide (x = h)) as [-> | Hne]; [rewrite lookup_insert_eq; assert (p = o) as -> by congruence; by eexists |].
    rewrite lookup_insert_ne //. exists p. split; [done | apply shape_refl].
  - intros _ _ x Hx. destruct (exchange_in _ _ _ _ _ Hperm Hx); [by left | right; by apply Hm].
Qed.

Lemma wrote_body g h o b' s v dv : objs g !! h = Some o -> obj o <> Raw -> same_type (obj o) b' ->
  getw s g = Ret dv g -> setw s v g = Ret tt (set_objs (<[h := set_obj b' o]> (objs g)) g) ->
  wrote g (set_objs (<[h := set_obj b' o]> (objs g)) g) s v dv.
Proof.
  intros Ho Hr Ht Hg Hs. split; [done | done | by apply steady_body | done | intros x; by apply marked_body |].
  intros x p Hx Hp. simpl. rewrite lookup_insert_ne //. intros ->. congruence.
Qed.

Lemma wt_array_insert m a k p v : root a = None -> a_data a !! k = Some (Ptr p) -> wt_array m a ->
  wt_array m (set_data a (<[k := Ptr v]> (a_data a))).
Proof.
  intros Hr Hk (H1 & H2 & H3). rewrite Hr in H3. destruct H3 as (B1 & B2 & B3 & B4). unfold wt_array. simpl. rewrite Hr.
  assert (forall j, (exists q, <[k := Ptr v]> (a_data a) !! j = Some (Ptr q)) <-> exists q, a_data a !! j = Some (Ptr q)) as Hj.
  { intros j. destruct (decide (j = k)) as [-> | Hne]; [| by rewrite list_lookup_insert_ne].
    rewrite list_lookup_insert_eq; [| by eapply lookup_lt_Some]. split; intros _; eauto. }
  split; [done |]. split; [done |]. split_and!; try done.
  - intros j q Hq. destruct (proj1 (Hj j)) as [q' Hq']; [eauto |]. by eapply B3.
  - intros i j Hi Hjs. apply Hj. by apply B4.
Qed.

Lemma setw_ok g s v E : Inv ∅ (option_list v ++ E) None g -> roots_marked g -> slot_ok g s -> writable s -> (forall x, v = Some x -> marked g x) ->
  exists dv g', wrote g g' s v dv /\ Inv ∅ (option_list dv ++ E) None g' /\ roots_marked g'.
Proof.
  intros I Hr [Ht Hl] Hw Hm. destruct s as [p e f k | h k | h k | h k | h]; simpl in Ht; try done.
  - destruct Ht as (pr & sx & fm & Hp & He & Hf & Hk). destruct (prog_wt _ _ _ _ _ _ _ _ _ I Hp He Hf) as [Hwf _].
    destruct (proj2 (Hwf k) Hk) as [dv Hdv]. pose proof (frame_exchange p pr e sx f fm k dv v _ Hp He Hf Hdv) as Hperm. simpl in Hperm.
    set (ps := <[p := _]> (progs g)) in Hperm. exists dv, (set_progs ps g). split_and!.
    + split.
      * unfold getw, prog, getg, mbind, m_bind, from, ptr_in, mret, m_ret. by rewrite Hp He Hf Hdv.
      * unfold setw, prog, getg, mbind, m_bind, from, ptr_in, mret, m_ret, set_prog, modify. by rewrite Hp He Hf Hdv.
      * split; [intros x o Ho; exists o; split_and!; [done | apply same_type_refl | done] |]. simpl. intros p' e' f'. unfold frame_type, ps.
        destruct (decide (p' = p)) as [-> | Hne]; [| by rewrite list_lookup_insert_ne]. rewrite list_lookup_insert_eq; [| by eapply lookup_lt_Some].
        rewrite Hp /=. destruct (decide (e' = e)) as [-> | Hne]; [| by rewrite list_lookup_insert_ne]. rewrite list_lookup_insert_eq; [| by eapply lookup_lt_Some].
        rewrite He /=. destruct (decide (f' = f)) as [-> | Hne]; [| by rewrite list_lookup_insert_ne]. rewrite list_lookup_insert_eq; [| by eapply lookup_lt_Some].
        by rewrite Hf.
      * done.
      * done.
      * done.
    + apply (inv_progs _ _ _ _ _ _ I); [by apply exchange_tail |]. pose proof (i_progs _ _ _ _ I) as Hps. apply Forall_insert; [done |].
      rewrite Forall_forall in Hps. apply (set_frame_wt _ _ _ _ _ _ _ dv); try done. apply Hps. by eapply list_elem_of_lookup_2.
    + intros x Hx. unfold roots in Hx. simpl in Hx. apply elem_of_app in Hx as [Hx | Hx]; [| apply Hr, elem_of_app; by right].
      destruct (exchange_in _ _ _ _ _ Hperm Hx) as [Hx' | Hx']; [apply Hr, elem_of_app; by left | by apply Hm].
  - destruct Ht as (o & t & ws & Ho & Eb & Hk). pose proof (live_source _ _ _ Ho (Hl h eq_refl)) as Hs.
    pose proof (i_wt _ _ _ _ I h o Ho Hs) as Hwo. rewrite Eb in Hwo. destruct (proj2 (Hwo k) Hk) as [dv Hdv].
    exists dv, (set_objs (<[h := set_obj (Data t (<[k := Ptr v]> ws)) o]> (objs g)) g). split_and!.
    + apply wrote_body; try done; [by rewrite Eb | by rewrite Eb | |].
      * unfold getw, heap_at, mbind, m_bind, from, ptr_in, mret, m_ret. by rewrite Ho Eb Hdv.
      * unfold setw, heap_at, mbind, m_bind, from, ptr_in, mret, m_ret, set_heap, modify. by rewrite Ho Eb Hdv.
    + apply (write_body _ _ _ (Data t ws) _ _ v); try done; [by apply Hl | by apply ptrs_insert |]. intros H. by eapply wt_words_insert.
    + intros x Hx. apply marked_body; [done |]. by apply Hr.
  - destruct Ht as (o & a & i & j & Ho & Ea & Hi & Hj & ->).
    destruct (owner_ok _ _ g h o a i j I Ho Ea (Hl h eq_refl) Hi Hj) as (r & k & o' & b & dv & Eo & Ho' & Eb & Hlr & Hrb & Hdv).
    exists dv, (set_objs (<[r := set_obj (Arr (set_data b (<[k := Ptr v]> (a_data b)))) o']> (objs g)) g). split_and!.
    + apply wrote_body; try done; [by rewrite Eb | by rewrite Eb | |].
      * unfold getw, array_at, heap_at, mbind, m_bind. rewrite Ho Ea. unfold mret at 1, m_ret at 1. rewrite Eo Ho' Eb.
        unfold mret, m_ret, ptr_in, from. by rewrite Hdv.
      * unfold setw, array_at, heap_at, mbind, m_bind. rewrite Ho Ea. unfold mret at 1, m_ret at 1. rewrite Eo Ho' Eb.
        unfold mret, m_ret, ptr_in, from, set_heap, modify. by rewrite Hdv.
    + apply (write_body _ _ _ (Arr b) _ _ v); try done; [by rewrite /= Hrb /=; apply ptrs_insert | by eapply wt_array_insert].
    + intros x Hx. apply marked_body; [done |]. by apply Hr.
Qed.
End Write.

(** ** Instructions *)

(** Between instructions. *)
Record good (g : gc) : Prop := {
  g_inv : Inv ∅ [] None g;
  g_marked : roots_marked g;
  g_halt : gchalt g = 0;
}.

Section Instructions.
Context `{HeapPool}.

Lemma freed_marked E X g g' : Inv ∅ E X g' -> freed ∅ g g' -> roots_marked g -> roots_marked g'.
Proof.
  intros I [F1 F2 F3] Hr x Hx. unfold rest in F1. injection F1 as E1 E2 E3 E4 E5 E6 E7 E8 E9 E10 E11 E12 E13.
  destruct (i_roots _ _ _ _ I x) as (o' & Ho' & _); [apply elem_of_app; by left |].
  destruct (F2 x o' Ho') as (o & Ho & Ec & _). assert (roots g' = roots g) as Er by (unfold roots; by rewrite E1 E2 E3). rewrite Er in Hx.
  destruct (Hr x Hx) as (o2 & Ho2 & Hm). assert (o2 = o) as -> by congruence. exists o'. by rewrite Ec E4.
Qed.

Lemma destroy_good v g : Inv ∅ (option_list v) None g -> roots_marked g -> gchalt g = 0 ->
  runs (destroy v) (fun _ g' => good g' /\ freed ∅ g g') g.
Proof.
  intros I Hr Hh. unfold destroy. pose proof (destroy_ok 66 0 ltac:(lia) ltac:(lia) ltac:(lia)) as Hd.
  eapply runs_ends; [apply (Hd v ∅ [] None); [by rewrite app_nil_r | done] |].
  intros [] g' (I' & [F _ _] & _). split; [| done]. split; [done | by eapply freed_marked | by rewrite (freed_halt _ _ F)].
Qed.

Lemma same_objs_trans m1 m2 m3 : same_objs m1 m2 -> same_objs m2 m3 -> same_objs m1 m3.
Proof. intros H1 H2 x. specialize (H1 x). specialize (H2 x). destruct (m1 !! x), (m2 !! x), (m3 !! x); try done. congruence. Qed.

Lemma addref_ok p g E : Inv ∅ E None g -> roots_marked g -> (forall x, p = Some x -> live ∅ g x) ->
  runs (addref p) (fun _ g' => Inv ∅ (option_list p ++ E) None g' /\ roots_marked g' /\ (forall x, p = Some x -> marked g' x) /\
    steady g g' /\ gchalt g' = gchalt g /\ same_objs (objs g) (objs g')) g.
Proof.
  intros I Hr Hp. destruct p as [h|]; cbn [addref].
  - pose proof (Hp h eq_refl) as Hl. pose proof Hl as (o & Ho & _). run. run.
    pose proof (inv_take _ _ _ _ _ _ I Ho Hl) as I1. pose proof (steady_ref g h o (ref o + 1) Ho) as S1. set (g1 := set_objs _ g) in *.
    eapply runs_ends; [apply (Setmark_ok ∅); by apply (steady_live g) |]. intros [] g2 [P2 M2]. split_and!.
    + by apply (inv_painted _ _ _ g1).
    + apply (roots_painted g1); [done |]. intros x Hx. apply marked_ref; [done |]. by apply Hr.
    + by intros x [= <-].
    + eapply steady_trans; [exact S1 |]. apply steady_painted; [apply (i_colors _ _ _ _ I1) | done].
    + destruct (changed_fields _ _ (painted_changed _ _ P2)) as (_ & _ & _ & _ & _ & _ & _ & _ & _ & _ & _ & ->). done.
    + eapply same_objs_trans; [by apply (same_objs_insert _ h o (set_ref (ref o + 1) o)) | apply (c_objs _ _ (painted_changed _ _ P2))].
  - run. split_and!; try done; [apply steady_refl |]. intros x. by destruct (objs g !! x).
Qed.

(** [dv ← getw d; setw d v; destroy dv], the end of most instructions. *)
Lemma store_ok g v d : Inv ∅ (option_list v) None g -> roots_marked g -> gchalt g = 0 -> slot_ok g d -> writable d ->
  (forall x, v = Some x -> marked g x) ->
  runs (dv ← getw d; setw d v;; destroy dv) (fun _ g' => good g') g.
Proof.
  intros I Hr Hh Hs Hw Hm. assert (Inv ∅ (option_list v ++ []) None g) as I0 by (by rewrite app_nil_r).
  destruct (setw_ok g d v [] I0 Hr Hs Hw Hm) as (dv & g' & W & I' & R').
  rewrite app_nil_r in I'. run. unfold ends at 1. rewrite (w_get _ _ _ _ _ W). run. unfold ends at 1. rewrite (w_set _ _ _ _ _ W).
  eapply runs_ends; [apply (destroy_good dv g' I' R'); by rewrite (proj1 (w_halt _ _ _ _ _ W)) | by intros [] g2 [? _]].
Qed.

Lemma movp_ok g s d : good g -> slot_ok g s -> slot_ok g d -> writable d -> runs (movp s d) (fun _ g' => good g') g.
Proof.
  intros [I Hr Hh] Hs Hd Hw. destruct (getw_ok _ _ g s I Hs) as (sv & Eg & Hsv). unfold movp. run. unfold ends at 1. rewrite Eg.
  run. eapply runs_ends; [by apply (addref_ok sv g []) |]. intros [] g1 (I1 & R1 & M1 & S1 & H1 & _). rewrite app_nil_r in I1.
  apply store_ok; [done | done | by rewrite H1 | by apply (steady_slot g) | done | done].
Qed.

(** *** Allocation *)

Lemma nheap_ok n g E : Inv ∅ E None g -> roots_marked g ->
  ends (nheap n) (fun h g' => Inv ∅ (h :: E) None g' /\ roots_marked g' /\ steady g g' /\ objs g !! h = None /\
    objs g' !! h = Some (MkHeap (mutator g) 1 Raw) /\ mutator g' = mutator g /\ gchalt g' = gchalt g /\
    (progs g' = progs g /\ roots g' = roots g) /\ forall x o, objs g !! x = Some o -> objs g' !! x = Some o) (fun _ g' => g' = g) g.
Proof.
  intros I Hr. unfold nheap. run. run. destruct (palloc (heapmem g) (sizeof_Heap + n)) as [[ars h]|] eqn:Ea; [| by run].
  apply palloc_step in Ea. destruct (inv_alloc ∅ E None g h ars I ltac:(set_solver) Ea) as [I1 Hn].
  run. run. run. split_and!; try done.
  - intros x Hx. destruct (Hr x Hx) as (o & Ho & Hm). exists o. simpl. rewrite lookup_insert_ne; [done | congruence].
  - by apply steady_alloc.
  - simpl. by rewrite lookup_insert_eq.
  - intros x o Hx. simpl. rewrite lookup_insert_ne; [done | congruence].
Qed.

(** Types as the compiler makes them: the map is within the size. *)
Definition wf_type (t : Type_) : Prop := 0 <= size t /\ forall k, k ∈ slots t -> (k < Z.to_nat (size t / 4))%nat /\ size t mod 4 = 0.

Lemma initmem_lookup t ws k : initmem t ws !! k = if decide (k ∈ slots t) then (if decide (k < length ws)%nat then Some (Ptr None) else None) else ws !! k.
Proof.
  unfold initmem. assert (forall ks ws, fold_left (fun ws k => <[k := Ptr None]> ws) ks ws !! k =
    if decide (k ∈ ks) then (if decide (k < length ws)%nat then Some (Ptr None) else None) else ws !! k) as Hf.
  { clear ws. intros ks. induction ks as [| k' ks IH]; intros ws; cbn [fold_left].
    - destruct (decide (k ∈ [])) as [Hx |]; [by apply not_elem_of_nil in Hx | done].
    - rewrite IH length_insert. destruct (decide (k ∈ ks)) as [Hin | Hin], (decide (k ∈ k' :: ks)) as [Hin' | Hin'].
      + done.
      + destruct Hin'. by right.
      + apply elem_of_cons in Hin' as [-> |]; [| done]. destruct (decide (k' < length ws)%nat) as [Hlt | Hlt]; [by apply list_lookup_insert_eq |].
        apply lookup_ge_None_2. rewrite length_insert. lia.
      + rewrite list_lookup_insert_ne //. intros ->. apply Hin'. by left. }
  rewrite Hf. destruct (decide (k ∈ slots_down t)) as [Hk | Hk], (decide (k ∈ slots t)) as [Hk' | Hk']; rewrite slots_down_perm in Hk; done.
Qed.

Lemma words_word n k : words n !! k = Some (Word 0) \/ words n !! k = None.
Proof. unfold words. destruct (decide (k < Z.to_nat (n / 4))%nat); [left; by apply lookup_replicate_2 | right; apply lookup_replicate_None; lia]. Qed.

Lemma length_words n : length (words n) = Z.to_nat (n / 4).
Proof. apply length_replicate. Qed.

Lemma initmem_wt t : wf_type t -> wt_words t (initmem t (words (size t))) /\ ptrs (initmem t (words (size t))) = [].
Proof.
  intros [Hs Hk]. assert (wt_words t (initmem t (words (size t)))) as Hw.
  { intros k. rewrite initmem_lookup length_words. destruct (decide (k ∈ slots t)) as [Hin | Hin].
    - destruct (Hk k Hin) as [Hlt _]. rewrite decide_True //. split; eauto.
    - destruct (words_word (size t) k) as [-> | ->]; split; naive_solver. }
  split; [done |]. destruct (ptrs _) as [| x l] eqn:Ep; [done |]. exfalso.
  assert (x ∈ ptrs (initmem t (words (size t)))) as Hx by (rewrite Ep; by left).
  apply list_elem_of_omap in Hx as (v & Hv & Ex). apply list_elem_of_lookup in Hv as [k Hv]. rewrite initmem_lookup in Hv.
  destruct (words_word (size t) k) as [E | E]; rewrite E in Hv; repeat destruct (decide _); simplify_eq; done.
Qed.

(** An object that has no type yet gets its body. *)
Lemma inv_type g h b o E E' : Inv ∅ E None g -> objs g !! h = Some o -> obj o = Raw -> live ∅ g h -> outs b ++ E' ≡ₚ E -> wt_body (objs g) b ->
  (forall x, x ∈ outs b -> marked g x) ->
  Inv ∅ E' None (set_objs (<[h := set_obj b o]> (objs g)) g).
Proof.
  intros I Ho Hraw Hl HE Hw Hm.
  apply (inv_body _ _ _ _ _ _ _ b I Ho); [by apply live_source | by rewrite Hraw | by rewrite Hraw | |].
  - intros _ _. eapply wt_body_keeps; [| exact Hw]. intros x _ p Hx.
    destruct (decide (x = h)) as [-> | Hne]; [rewrite lookup_insert_eq; eexists; split; [done |]; assert (p = o) as -> by congruence; by rewrite Hraw |].
    rewrite lookup_insert_ne //. exists p. split; [done | apply shape_refl].
  - intros _ _ x Hx. right. by apply Hm.
Qed.

(** A new object without pointers. *)
Lemma typed_ok g h b : Inv ∅ [h] None g -> roots_marked g -> objs g !! h = Some (MkHeap (mutator g) 1 Raw) -> outs b = [] -> wt_body (objs g) b ->
  let g' := set_objs (<[h := MkHeap (mutator g) 1 b]> (objs g)) g in
  Inv ∅ [h] None g' /\ roots_marked g' /\ steady g g' /\ marked g' h.
Proof.
  intros I Hr Ho Hb Hw g'. split_and!.
  - apply (inv_type g h b (MkHeap (mutator g) 1 Raw) [h] [h] I Ho); [done | | by rewrite Hb | done | rewrite Hb; by intros x ?%not_elem_of_nil].
    apply (i_roots _ _ _ _ I). apply elem_of_app. right. by left.
  - intros x Hx. apply (marked_body g h (MkHeap (mutator g) 1 Raw) b x Ho). by apply Hr.
  - by apply (steady_body g h (MkHeap (mutator g) 1 Raw) b Ho).
  - exists (MkHeap (mutator g) 1 b). split; [apply lookup_insert_eq | by left].
Qed.

Lemma heap_ok g t : good g -> wf_type t ->
  ends (heap t) (fun h g' => Inv ∅ [h] None g' /\ roots_marked g' /\ gchalt g' = 0 /\ steady g g' /\ marked g' h) (fun _ g' => g' = g) g.
Proof.
  intros [I Hr Hh] Ht. destruct (initmem_wt t Ht) as [Hwt Hnp]. unfold heap. run.
  eapply ends_mono; [by apply (nheap_ok (size t) g []) | | done]. intros h g1 (I1 & R1 & S1 & _ & Ho & Em & Hh1 & _).
  rewrite -Em in Ho. run. run. run. destruct (typed_ok g1 h (Data t (initmem t (words (size t)))) I1 R1 Ho Hnp Hwt) as (I2 & R2 & S2 & M2).
  split_and!; try done; [simpl; congruence | by eapply steady_trans].
Qed.

Lemma new_ok g t d : good g -> wf_type t -> slot_ok g d -> writable d -> ends (new t d) (fun _ g' => good g') (fun _ g' => g' = g) g.
Proof.
  intros G Ht Hd Hw. unfold new. run. eapply ends_mono; [by apply heap_ok | | done]. intros h g1 (I1 & R1 & H1 & S1 & M1).
  eapply runs_ends; [apply (store_ok g1 (Some h) d I1 R1 H1) | done]; [by apply (steady_slot g) | done | by intros x [= <-]].
Qed.

(** *** Arrays *)

Lemma initelems_ptr n t ws k p : wf_type t -> (forall k p, ws !! k <> Some (Ptr p)) -> (slots t <> [] -> length ws = n * Z.to_nat (size t / 4))%nat ->
  initelems n t ws !! k = Some (Ptr p) <-> p = None /\ exists i j, (i < n)%nat /\ j ∈ slots t /\ k = (i * Z.to_nat (size t / 4) + j)%nat.
Proof.
  intros [Hs Hk]. set (w := Z.to_nat (size t / 4)) in *. revert ws k. induction n as [| n IH]; intros ws k Hno Hlen; cbn [initelems].
  - split; [by intros ?%Hno | intros (_ & i & _ & ? & _); lia].
  - fold w. set (el := initmem t (take w ws)).
    assert (length el = length (take w ws)) as Hel.
    { unfold el, initmem. generalize (take w ws). induction (slots_down t) as [| x l IHl]; intros l0; cbn [fold_left]; [done |]. by rewrite IHl length_insert. }
    assert (forall k, (k < length (take w ws))%nat -> el !! k = Some (Ptr p) <-> p = None /\ k ∈ slots t) as Hlk.
    { intros k' Hk'. unfold el. rewrite initmem_lookup. destruct (decide (k' ∈ slots t)) as [Hin | Hin].
      - rewrite decide_True //. split; [by intros [= <-] | by intros [-> _]].
      - split; [| by intros [_ ?]]. intros Hp. rewrite length_take in Hk'. rewrite lookup_take_lt in Hp; [| lia]. by apply Hno in Hp. }
    assert (forall k p, drop w ws !! k <> Some (Ptr p)) as Hno' by (intros k' p'; rewrite lookup_drop; apply Hno).
    assert (slots t <> [] -> length (drop w ws) = (n * w)%nat) as Hlen' by (intros Hne; rewrite length_drop Hlen //; lia).
    destruct (decide (k < length el)%nat) as [Hlt | Hge].
    + rewrite lookup_app_l // Hlk -?Hel //. split.
      * intros [-> Hin]. split; [done |]. exists 0%nat, k. split_and!; [lia | done | lia].
      * intros (-> & i & j & Hi & Hj & ->). split; [done |]. destruct (Hk j Hj) as [Hjw _]. rewrite Hel length_take in Hlt.
        assert (i = 0)%nat as -> by nia. done.
    + rewrite lookup_app_r; [| lia]. rewrite (IH _ _ Hno' Hlen'). split.
      * intros (-> & i & j & Hi & Hj & Ek). split; [done |]. exists (S i), j. split_and!; [lia | done |].
        assert (length el = w) as Hw by (rewrite Hel length_take Hlen; [lia | by intros E0; rewrite E0 in Hj; apply not_elem_of_nil in Hj]). lia.
      * intros (-> & i & j & Hi & Hj & ->). split; [done |].
        assert (length el = w) as Hw by (rewrite Hel length_take Hlen; [lia | by intros E0; rewrite E0 in Hj; apply not_elem_of_nil in Hj]).
        destruct (Hk j Hj) as [Hjw _]. destruct i as [| i]; [lia |]. exists i, j. split_and!; [lia | done | lia].
Qed.

Lemma no_ptr_words n k p : words n !! k <> Some (Ptr p).
Proof. destruct (words_word n k) as [-> | ->]; done. Qed.

Lemma no_ptrs_nil ws : (forall k q, ws !! k = Some (Ptr q) -> q = None) -> ptrs ws = [].
Proof.
  intros Hn. destruct (ptrs ws) as [| x l] eqn:Ep; [done |]. exfalso. assert (x ∈ ptrs ws) as Hx by (rewrite Ep; by left).
  apply list_elem_of_omap in Hx as (v & Hv & Ex). apply list_elem_of_lookup in Hv as [k Hv]. destruct v as [| q]; [done |].
  rewrite (Hn k q Hv) in Ex. done.
Qed.

Lemma ptrs_words n : ptrs (words n) = [].
Proof. apply no_ptrs_nil. intros k q Hq. by apply no_ptr_words in Hq. Qed.

(** The memory of a new array. *)
Definition array_mem (t : Type_) (sz : Z) : list val :=
  let ws := words (size t * sz) in if zlen (tmap t) =? 0 then ws else initelems (Z.to_nat sz) t ws.

Lemma array_mem_ptr t sz k p : wf_type t -> 0 <= sz ->
  array_mem t sz !! k = Some (Ptr p) <-> p = None /\ exists i j, (i < Z.to_nat sz)%nat /\ j ∈ slots t /\ k = (i * Z.to_nat (size t / 4) + j)%nat.
Proof.
  intros Hw Hsz. unfold array_mem. destruct (Z.eqb_spec (zlen (tmap t)) 0) as [Ez | Ez].
  - split; [by intros ?%no_ptr_words |]. intros (_ & i & j & _ & Hj & _). rewrite (no_map t Ez) in Hj. by apply not_elem_of_nil in Hj.
  - apply initelems_ptr; [done | apply no_ptr_words |]. intros Hne. destruct Hw as [Hs Hk].
    destruct (slots t) as [| j l] eqn:El; [done |]. destruct (Hk j ltac:(by left)) as [_ Hm]. rewrite length_words.
    assert (size t = 4 * (size t / 4)) as E by (pose proof (Z_div_mod_eq_full (size t) 4); lia). set (w := size t / 4) in *.
    replace (size t * sz) with (w * sz * 4) by (rewrite E; ring). rewrite Z.div_mul // Z2Nat.inj_mul; lia.
Qed.

Lemma array_mem_wt m t sz : wf_type t -> 0 <= sz < 2 ^ 31 -> wt_array m (MkArray sz t None 0 (array_mem t sz)) /\ ptrs (array_mem t sz) = [].
Proof.
  intros Hw Hsz. split.
  - split; [done |]. destruct Hw as [Hs Hk]. split; [done |]. simpl. split_and!; [done | done | |].
    + intros k p Hp. apply array_mem_ptr in Hp as (-> & i & j & Hi & Hj & ->); [| done | lia]. exists i. split; [lia |]. by exists j.
    + intros i j Hi Hj. exists None. apply array_mem_ptr; [done | lia |]. split; [done |]. exists i, j. split_and!; [lia | done | done].
  - apply no_ptrs_nil. intros k q Hq. by apply array_mem_ptr in Hq as [-> _]; [| | lia].
Qed.

(** As long as the size of the memory does not wrap. *)
Lemma newa_ok g t sz d : good g -> wf_type t -> sz < 2 ^ 31 -> size t * sz < 2 ^ 31 -> slot_ok g d -> writable d ->
  ends (newa t sz d) (fun _ g' => good g') (fun _ g' => g' = g) g.
Proof.
  intros [I Hr Hh] Ht Hsz Hprod Hd Hw. unfold newa. run. unfold acheck. destruct (Z.ltb_spec sz 0) as [L | L]; [by run |].
  destruct (i32 _ <? sz); [by run |]. run.
  assert (i32 (size t * sz) = size t * sz) as En by (apply wraps_id; [done |]; change (2 ^ (32 - 1)) with (2 ^ 31); destruct Ht; nia).
  rewrite En. cbv zeta. run. eapply ends_mono; [by apply (nheap_ok _ g []) | | done]. intros h g1 (I1 & R1 & S1 & _ & Ho & Em & Hh1 & _).
  rewrite -Em in Ho. run. rewrite Z.ltb_irrefl. run. run. run. fold (array_mem t sz).
  destruct (array_mem_wt (objs g1) t sz Ht ltac:(lia)) as [Hwt Hnp].
  destruct (typed_ok g1 h (Arr (MkArray sz t None 0 (array_mem t sz))) I1 R1 Ho Hnp Hwt) as (I2 & R2 & S2 & M2).
  eapply runs_ends; [apply (store_ok _ (Some h) d I2 R2) | done].
  - simpl. congruence.
  - apply (steady_slot g); [by eapply steady_trans | done].
  - done.
  - by intros x [= <-].
Qed.

(** *** Lists *)

(** A slot is written the same before and after an object gets its type. *)
Lemma setw_commute g g' s v h o b : objs g !! h = Some o -> obj o = Raw -> setw s v g = Ret tt g' ->
  setw s v (set_objs (<[h := set_obj b o]> (objs g)) g) = Ret tt (set_objs (<[h := set_obj b o]> (objs g')) g').
Proof.
  intros Ho Hraw. destruct s as [p e f k | hh k | hh k | hh k | hh]; unfold setw, prog, array_at, heap_at, getg, mbind, m_bind, set_prog, set_heap, modify; try done.
  - change (progs (set_objs (<[h := set_obj b o]> (objs g)) g)) with (progs g).
    destruct (progs g !! p) as [pr|]; [| done]. cbn [from]. unfold mret, m_ret, m_bind. destruct (EX pr !! e) as [sx|]; [| done]. cbn [from]. unfold mret, m_ret.
    destruct (fr sx !! f) as [fm|]; [| done]. cbn [from]. unfold mret, m_ret, ptr_in, from, mbind, m_bind. destruct (f_mem fm !! k) as [[z|q]|]; try done.
    unfold mret, m_ret. by intros [= <-].
  - simpl. destruct (objs g !! hh) as [p|] eqn:Ep; [| done]. destruct (decide (hh = h)) as [-> | Hne].
    { assert (p = o) as -> by congruence. by rewrite Hraw. }
    rewrite lookup_insert_ne // Ep. destruct (obj p) as [| t ws | | |]; try done. unfold ptr_in, from, mbind, m_bind.
    destruct (ws !! k) as [[z|q]|]; try done. unfold mret, m_ret. intros [= <-]. simpl. by rewrite (insert_insert_ne _ h hh).
  - simpl. destruct (objs g !! hh) as [p|] eqn:Ep; [| done]. destruct (decide (hh = h)) as [-> | Hne].
    { assert (p = o) as -> by congruence. by rewrite Hraw. }
    rewrite lookup_insert_ne // Ep. destruct (obj p) as [| | | a |]; try done. unfold mret at 1 2, m_ret at 1 2. unfold owner. set (r := default hh (root a)). set (k' := (_ + k)%nat).
    simpl. destruct (objs g !! r) as [q|] eqn:Eq; [| done]. destruct (decide (r = h)) as [-> | Hne'].
    { assert (q = o) as -> by congruence. by rewrite Hraw. }
    rewrite lookup_insert_ne // Eq. destruct (obj q) as [| | | a' |]; try done. unfold ptr_in, from, mbind, m_bind.
    destruct (a_data a' !! k') as [[z|w]|]; try done. unfold mret, m_ret. intros [= <-]. simpl. by rewrite (insert_insert_ne _ h r).
Qed.

(** What a slot leads to, if anywhere, is a list. *)
Definition holds_list (g : gc) (s : slot) : Prop :=
  forall h, getw s g = Ret (Some h) g -> exists o l, objs g !! h = Some o /\ obj o = Lst l.

(** [getw] in a state where what is there has not changed. *)
Lemma getw_grows g g' s v : progs g' = progs g ->
  (forall x o, objs g !! x = Some o -> exists o', objs g' !! x = Some o' /\ obj o' = obj o) -> getw s g = Ret v g -> getw s g' = Ret v g'.
Proof.
  intros Ep Hx. destruct s as [p e f k | hh k | hh k | hh k | hh]; unfold getw, prog, array_at, list_at, heap_at, getg, mbind, m_bind.
  - rewrite Ep. destruct (progs g !! p) as [pr|]; [| done]. cbn [from]. unfold mret, m_ret. destruct (EX pr !! e) as [sx|]; [| done]. cbn [from]. unfold mret, m_ret.
    destruct (fr sx !! f) as [fm|]; [| done]. cbn [from]. unfold mret, m_ret, ptr_in, from, mbind, m_bind. destruct (f_mem fm !! k) as [[z|q]|]; try done.
    unfold mret, m_ret. by intros [= <-].
  - destruct (objs g !! hh) as [o|] eqn:Eo; [| done]. destruct (Hx hh o Eo) as (o' & -> & ->). destruct (obj o) as [| t ws | | |]; try done.
    unfold ptr_in, from, mbind, m_bind. destruct (ws !! k) as [[z|q]|]; try done. unfold mret, m_ret. by intros [= <-].
  - destruct (objs g !! hh) as [o|] eqn:Eo; [| done]. destruct (Hx hh o Eo) as (o' & -> & ->). destruct (obj o) as [| | | a |]; try done.
    unfold mret, m_ret, owner. simpl. set (r := default hh (root a)). set (k' := (_ + k)%nat). destruct (objs g !! r) as [q|] eqn:Eq; [| done]. destruct (Hx r q Eq) as (q' & -> & ->).
    destruct (obj q) as [| | | b |]; try done. unfold mret, m_ret, ptr_in, from, mbind, m_bind. destruct (a_data b !! k') as [[z|w]|]; try done. unfold mret, m_ret. by intros [= <-].
  - destruct (objs g !! hh) as [o|] eqn:Eo; [| done]. destruct (Hx hh o Eo) as (o' & -> & ->). destruct (obj o) as [| | | | l]; try done.
    unfold mret, m_ret, ptr_in, from, mbind, m_bind. destruct (l_data l !! k) as [[z|w]|]; try done. unfold mret, m_ret. by intros [= <-].
  - destruct (objs g !! hh) as [o|] eqn:Eo; [| done]. destruct (Hx hh o Eo) as (o' & -> & ->). destruct (obj o) as [| | | | l]; try done.
    unfold mret, m_ret. by intros [= <-].
Qed.

Lemma cons_ok n g lp : good g -> slot_ok g lp -> writable lp -> holds_list g lp ->
  ends (cons_ n lp) (fun h g' => Inv ∅ [] None g' /\ roots_marked g' /\ gchalt g' = 0 /\ steady g g' /\ live ∅ g' h /\
    exists o lv, objs g' !! h = Some o /\ obj o = Lst (MkList lv None (words n))) (fun _ g' => g' = g) g.
Proof.
  intros [I Hr Hh] Hs Hw Hlist. destruct (getw_ok _ _ g lp I Hs) as (lv & Eg & Hlv).
  unfold cons_. run. eapply ends_mono; [by apply (nheap_ok _ g []) | | done]. intros h g1 (I1 & R1 & S1 & Hnew & Ho & Em & Hh1 & [Ep1 _] & Hg1).
  pose proof (getw_grows g g1 lp lv Ep1 (fun x o Hx => ex_intro _ o (conj (Hg1 x o Hx) eq_refl)) Eg) as Eg1.
  run. unfold ends at 1. rewrite Eg1. run.
  eapply runs_ends; [apply (Setmark_opt_ok ∅); intros x Hx; by eapply steady_live, Hlv |]. intros [] g2 [P2 M2].
  pose proof (inv_painted _ _ _ _ _ I1 P2) as I2. pose proof (roots_painted _ _ P2 R1) as R2.
  destruct (painted_l _ _ _ _ P2 Ho) as (o & Ho2 & Hor). assert (obj o = Raw) as Hraw by (by destruct Hor as [-> | (_ & -> & _)]).
  pose proof (steady_painted _ _ (i_colors _ _ _ _ I1) P2) as S2. pose proof (steady_slot _ _ _ (steady_trans _ _ _ S1 S2) Hs) as Hs2.
  assert (live ∅ g1 h) as Hl1 by (apply (i_roots _ _ _ _ I1), elem_of_app; right; by left).
  assert (marked g2 h) as Mh by (eapply painted_marked; [exact P2 |]; eexists; split; [exact Ho |]; left; by rewrite Em).
  destruct (setw_ok g2 lp (Some h) [] I2 R2 Hs2 Hw ltac:(by intros x [= <-])) as (dv & g3 & W & I3 & R3). rewrite app_nil_r in I3.
  assert (dv = lv) as ->.
  { assert (getw lp g2 = Ret lv g2) as E2.
    { apply (getw_grows g1); [by destruct (changed_fields _ _ (painted_changed _ _ P2)) as (_ & ? & _) | | done]. intros x p Hx. by apply (painted_obj g1). }
    pose proof (w_get _ _ _ _ _ W). congruence. }
  pose proof (w_raw _ _ _ _ _ W h o Ho2 Hraw) as Ho3. pose proof (w_steady _ _ _ _ _ W) as S3.
  run. run. run. set (b := Lst _).
  unfold ends at 1. rewrite (setw_commute _ _ _ _ _ _ b Ho2 Hraw (w_set _ _ _ _ _ W)). run.
  assert (same_type (obj o) b) as Hst by (by rewrite Hraw). pose proof (steady_body g3 h o b Ho3 Hst) as S4. split_and!.
  - apply (inv_type g3 h b o (option_list lv) [] I3 Ho3 Hraw); [| | | ].
    + by apply (steady_live g2), (steady_live g1).
    + by rewrite /= ptrs_words !app_nil_r.
    + split; [intros k p; apply no_ptr_words |]. intros x Hx. simpl in Hx. destruct (Hlist x) as (ox & lx & Hox & Elx); [congruence |].
      destruct (st_objs _ _ (steady_trans _ _ _ (steady_trans _ _ _ S1 S2) S3) x ox Hox) as (o' & Ho' & Et & _). rewrite Elx in Et.
      destruct (obj o') as [| | | | l'] eqn:El'; try done. by exists o', l'.
    + intros x Hx. rewrite /= ptrs_words app_nil_r in Hx. apply in_option_list in Hx. by apply (w_marked _ _ _ _ _ W), M2.
  - intros x Hx. apply marked_body; [done |]. by apply R3.
  - simpl. destruct (w_halt _ _ _ _ _ W) as [-> _]. destruct (changed_fields _ _ (painted_changed _ _ P2)) as (_ & _ & _ & _ & _ & _ & _ & _ & _ & _ & _ & ->). congruence.
  - eapply steady_trans; [exact S1 |]. eapply steady_trans; [exact S2 |]. eapply steady_trans; [exact S3 | exact S4].
  - apply (steady_live _ _ _ S4), (steady_live _ _ _ S3), (steady_live _ _ _ S2), Hl1.
  - exists (set_obj b o), lv. split; [apply lookup_insert_eq | done].
Qed.

(** The data of a new cell. *)
Lemma inv_cell n g h o lv t ws : Inv ∅ (ptrs ws) None g -> roots_marked g -> live ∅ g h -> objs g !! h = Some o -> obj o = Lst (MkList lv None (words n)) ->
  match t with Some t => wt_words t ws | None => no_ptrs ws end -> (forall x, x ∈ ptrs ws -> marked g x) ->
  let g' := set_objs (<[h := set_obj (Lst (MkList lv t ws)) o]> (objs g)) g in Inv ∅ [] None g' /\ roots_marked g'.
Proof.
  intros I Hr Hl Ho Eb Hw Hm g'. split; [| intros x Hx; apply marked_body; [done | by apply Hr]].
  pose proof (ptrs_words n) as E0.
  apply (inv_body _ _ _ _ _ _ _ _ I Ho (live_source _ _ _ Ho Hl)).
  - rewrite Eb /= E0 !app_nil_r. done.
  - by rewrite Eb.
  - rewrite Eb. intros [_ Ht] _. split; [exact Hw |]. intros x Hx. destruct (Ht x Hx) as (ox & lx & Hox & Elx).
    destruct (decide (x = h)) as [-> | Hne]; [rewrite lookup_insert_eq; by eexists _, _ |]. rewrite lookup_insert_ne //. eauto.
  - rewrite Eb /= E0 app_nil_r. intros _ _ x [Hx | Hx]%elem_of_app; [by left | right; by apply Hm].
Qed.

Lemma consw_ok x g d : good g -> slot_ok g d -> writable d -> holds_list g d ->
  ends (consw x d) (fun _ g' => good g') (fun _ g' => g' = g) g.
Proof.
  intros G Hd Hw Hl. unfold consw. run. eapply ends_mono; [by apply cons_ok | | done].
  intros h g1 (I1 & R1 & H1 & S1 & L1 & o & lv & Ho & Eb). run. run. run.
  destruct (inv_cell 4 g1 h o lv None [Word x] I1 R1 L1 Ho Eb) as [I2 R2]; [| by intros y ?%not_elem_of_nil | by split].
  intros [| k] p; done.
Qed.

Lemma consp_ok g s d : good g -> slot_ok g s -> slot_ok g d -> writable d -> holds_list g d ->
  ends (consp s d) (fun _ g' => good g') (fun _ g' => g' = g) g.
Proof.
  intros G Hs Hd Hw Hl. unfold consp. run. eapply ends_mono; [by apply cons_ok | | done].
  intros h g1 (I1 & R1 & H1 & S1 & L1 & o & lv & Ho & Eb). destruct (getw_ok _ _ g1 s I1 (steady_slot _ _ _ S1 Hs)) as (sv & Eg & Hsv).
  run. unfold ends at 1. rewrite Eg. run. eapply runs_ends; [by apply (addref_ok sv g1 []) |].
  intros [] g2 (I2 & R2 & M2 & S2 & H2 & O2). rewrite app_nil_r in I2. destruct (same_objs_l _ _ _ _ O2 Ho) as (o2 & Ho2 & Eb2). rewrite Eb in Eb2.
  run. run. run. cbn [tail]. assert (ptrs [Ptr sv] = option_list sv) as Ep by (by destruct sv).
  destruct (inv_cell 4 g2 h o2 lv (Some Tptr) [Ptr sv]) as [I3 R3]; try done.
  - by apply (steady_live g1).
  - intros [| k]; [split; [intros _; vm_compute; by left | eauto] |]. split; [by intros [p Hp] |]. intros Hk. exfalso.
    assert (slots Tptr = [0%nat]) as Es by reflexivity. rewrite Es in Hk. apply list_elem_of_singleton in Hk. done.
  - rewrite Ep. intros x Hx%in_option_list. by apply M2.
  - split; [done | done |]. simpl. congruence.
Qed.

(** The head of a list is a pointer. *)
Definition holds_ptrs (g : gc) (s : slot) : Prop :=
  forall h, getw s g = Ret (Some h) g -> exists o l t, objs g !! h = Some o /\ obj o = Lst l /\ l_t l = Some t /\ 0%nat ∈ slots t.

Lemma list_of_ok g s (Q : Z -> gc -> Prop) (R : exn -> gc -> Prop) : good g -> slot_ok g s ->
  (forall h, getw s g = Ret (Some h) g -> live ∅ g h -> Q h g) -> R exNilref g -> ends (list_of s) Q R g.
Proof.
  intros [I _ _] Hs HQ HR. destruct (getw_ok _ _ g s I Hs) as (v & Eg & Hv). unfold list_of. run. unfold ends at 1. rewrite Eg.
  destruct v as [h|]; [run; apply HQ; [done | by apply Hv] | by run].
Qed.

Lemma headp_ok g s d : good g -> slot_ok g s -> holds_ptrs g s -> slot_ok g d -> writable d ->
  ends (headp s d) (fun _ g' => good g') (fun _ g' => g' = g) g.
Proof.
  intros G Hs Hp Hd Hw. unfold headp. run. apply list_of_ok; [done | done | | done]. intros h Eg Hl.
  eapply runs_ends; [apply (movp_ok g (ListW h 0) d G); try done | done]. split; [by apply Hp | by intros h' [= <-]].
Qed.

Lemma tail_ok g s d : good g -> slot_ok g s -> holds_list g s -> slot_ok g d -> writable d ->
  ends (tail_ s d) (fun _ g' => good g') (fun _ g' => g' = g) g.
Proof.
  intros G Hs Hp Hd Hw. unfold tail_. run. apply list_of_ok; [done | done | | done]. intros h Eg Hl.
  eapply runs_ends; [apply (movp_ok g (TailW h) d G); try done | done]. split; [by apply Hp | by intros h' [= <-]].
Qed.
End Instructions.
