(* ===== verification/GcCalls.v ===== *)
(** * The garbage collector and the instructions: slices, frames, calls

    What can be reached from the roots, which is what instructions may use;
    slices of arrays, frames of functions, calls into modules and returns from
    them; the pointers that C code registers. *)

From S2P Require Import Prelude Heap Pool PoolArena Gc GcPool GcInv GcRun GcFree GcMark GcSweep GcOps.
Import Gc.

#[local] Open Scope Z_scope.

(** ** What can be reached *)

Inductive reach (g : gc) : Z -> Prop :=
  | reach_root x : x ∈ roots g -> reach g x
  | reach_out h o x : reach g h -> objs g !! h = Some o -> x ∈ outs (obj o) -> reach g x.

Section Reach.

Lemma reach_live E X g x : Inv ∅ E X g -> reach g x -> live ∅ g x.
Proof.
  intros I H. induction H as [x Hx | h o x _ IH Ho Hx].
  - apply (i_roots _ _ _ _ I), elem_of_app. by left.
  - apply (i_outs _ _ _ _ I h o x Ho); [by apply live_source | done].
Qed.

Lemma reach_grows g g' x : roots g' = roots g -> (forall x o, objs g !! x = Some o -> exists o', objs g' !! x = Some o' /\ obj o' = obj o) ->
  reach g x -> reach g' x.
Proof.
  intros Er Hg H. induction H as [x Hx | h o x _ IH Ho Hx]; [apply reach_root; by rewrite Er |].
  destruct (Hg h o Ho) as (o' & Ho' & Eb). apply (reach_out _ h o'); [done | done | by rewrite Eb].
Qed.

(** What an object holds does not matter to the way to it. *)
Lemma reach_update g h o b : objs g !! h = Some o -> reach g h -> reach (set_objs (<[h := set_obj b o]> (objs g)) g) h.
Proof.
  intros Ho Hh. set (g' := set_objs _ g). enough (forall x, reach g x -> reach g' x \/ reach g' h) as H by (by destruct (H h Hh)).
  intros x H. induction H as [x Hx | k p x _ [IH | IH] Hp Hx]; [left; by apply reach_root | | by right].
  destruct (decide (k = h)) as [-> | Hne]; [by right |]. left. apply (reach_out _ k p); [done | simpl; by rewrite lookup_insert_ne | done].
Qed.

Lemma reach_freed E X g g' x : Inv ∅ E X g' -> freed ∅ g g' -> reach g x -> reach g' x.
Proof.
  intros I F H. pose proof (fr_rest _ _ _ F) as Er. unfold rest in Er. injection Er as E1 E2 E3 _ _ _ _ _ _ _ _ _ _.
  induction H as [x Hx | h o x _ IH Ho Hx]; [apply reach_root; unfold roots; by rewrite E1 E2 E3 |].
  destruct (reach_live _ _ _ _ I IH) as (o' & Ho' & _). destruct (fr_objs _ _ _ F h o' Ho') as (o2 & Ho2 & _ & Eb).
  apply (reach_out _ h o'); [done | done | by rewrite Eb; congruence].
Qed.

(** What is written to a slot can be reached through it. *)
Lemma reach_write E g s h g' : Inv ∅ E None g -> slot_ok g s -> (forall c, container s = Some c -> reach g c) ->
  setw s (Some h) g = Ret tt g' -> reach g' h.
Proof.
  intros I [Ht Hl] Hc Hset. destruct s as [p e f k | c k | c k | c k | c]; simpl in Ht; try done.
  - destruct Ht as (pr & sx & fm & Hp & He & Hf & Hk). destruct (prog_wt _ _ _ _ _ _ _ _ _ I Hp He Hf) as [Hwf _].
    destruct (proj2 (Hwf k) Hk) as [dv Hdv].
    unfold setw, prog, getg, mbind, m_bind, from, ptr_in, mret, m_ret, set_prog, modify in Hset. rewrite Hp He Hf Hdv in Hset. injection Hset as <-.
    apply reach_root. eapply prog_root; [apply list_lookup_insert_eq; by eapply lookup_lt_Some |].
    eapply frame_root; [apply list_lookup_insert_eq; by eapply lookup_lt_Some | apply list_lookup_insert_eq; by eapply lookup_lt_Some |].
    apply elem_of_app. left. apply (in_ptrs _ k). apply list_lookup_insert_eq. by eapply lookup_lt_Some.
  - destruct Ht as (o & t & ws & Ho & Eb & Hk). pose proof (live_source _ _ _ Ho (Hl c eq_refl)) as Hs.
    pose proof (i_wt _ _ _ _ I c o Ho Hs) as Hwo. rewrite Eb in Hwo. destruct (proj2 (Hwo k) Hk) as [dv Hdv].
    unfold setw, heap_at, mbind, m_bind, from, ptr_in, mret, m_ret, set_heap, modify in Hset. rewrite Ho Eb Hdv in Hset. injection Hset as <-.
    eapply reach_out; [apply reach_update; [done | by apply Hc] | apply lookup_insert_eq |]. apply (in_ptrs _ k). apply list_lookup_insert_eq. by eapply lookup_lt_Some.
  - destruct Ht as (o & a & i & j & Ho & Ea & Hi & Hj & ->).
    destruct (owner_ok _ _ g c o a i j I Ho Ea (Hl c eq_refl) Hi Hj) as (r & k & o' & b & dv & Eo & Ho' & Eb & Hlr & Hrb & Hdv).
    assert (reach g r) as Hr.
    { injection Eo as <- _. destruct (root a) as [r|] eqn:Er; simpl; [| by apply Hc]. apply (reach_out _ c o); [by apply Hc | done |]. rewrite Ea /= Er. by left. }
    unfold setw, array_at, heap_at, mbind, m_bind in Hset. rewrite Ho Ea in Hset. unfold mret at 1, m_ret at 1 in Hset. rewrite Eo Ho' Eb in Hset.
    unfold mret, m_ret, ptr_in, from, set_heap, modify, mbind, m_bind in Hset. rewrite Hdv in Hset. injection Hset as <-.
    eapply reach_out; [by apply reach_update | apply lookup_insert_eq |]. simpl. rewrite Hrb. apply (in_ptrs _ k), list_lookup_insert_eq. by eapply lookup_lt_Some.
Qed.
End Reach.

(** ** Slices *)

Definition holds_array (g : gc) (s : slot) : Prop :=
  forall h, getw s g = Ret (Some h) g -> exists o a, objs g !! h = Some o /\ obj o = Arr a.

Section Slices.
Context `{HeapPool}.

Lemma inv_open E g h : Inv ∅ E None g -> Inv ∅ E (Some h) g.
Proof. intros []. split; try done. intros k p x Hk Hm HD HX. eapply i_black; try done. Qed.

(** The array that holds the elements, and where the elements of a slice start there. *)
Lemma slice_wt m m' a h r o n start v : wt_array m a -> r = default h (root a) -> m !! r = Some o -> (root a = None -> obj o = Arr a) ->
  0 <= start -> 0 <= n -> n = v - start -> v <= len a -> n < 2 ^ 31 ->
  (exists o', m' !! r = Some o' /\ same_type (obj o) (obj o')) ->
  wt_array m' (MkArray n (a_t a) (Some r) (off a + start * size (a_t a)) []).
Proof.
  intros (W1 & W2 & W3) Er Ho Hroot Hs Hn En Hv Hlt (o' & Ho' & Ht). split; [done |]. split; [done |]. simpl. split; [done |].
  destruct (root a) as [r'|] eqn:Ea; simpl in Er; subst r.
  - destruct W3 as (_ & p & b & k & Hp & Eb & Hrb & Et & Hof & Hk & Hle). assert (p = o) as -> by congruence. rewrite Eb in Ht.
    destruct (obj o') as [| | | b' |] eqn:Eb'; try done. destruct Ht as (E1 & E2 & E3 & E4). exists o', b', (k + start).
    rewrite Hof. split_and!; try done; [congruence | congruence | ring | lia | lia].
  - destruct W3 as (Hof & _). rewrite (Hroot eq_refl) in Ht. destruct (obj o') as [| | | b' |] eqn:Eb'; try done. destruct Ht as (E1 & E2 & E3 & E4).
    exists o', b', start. rewrite Hof. split_and!; try done; [congruence | lia].
Qed.

(** The slice refers to what it is of; then that is marked. *)
Lemma close_slice E g h r n t w : Inv ∅ E (Some h) g -> roots_marked g -> live ∅ g h ->
  (forall o, objs g !! h = Some o -> obj o = Arr (MkArray n t (Some r) w [])) ->
  runs (Setmark r) (fun _ g' => Inv ∅ E None g' /\ roots_marked g' /\ gchalt g' = gchalt g) g.
Proof.
  intros I Hr Hl Hb. pose proof Hl as (o & Ho & _). pose proof (Hb o Ho) as Eb.
  assert (live ∅ g r) as Hlr by (apply (i_outs _ _ _ _ I h o r Ho (live_source _ _ _ Ho Hl)); rewrite Eb; by left).
  eapply runs_ends; [by apply (Setmark_ok ∅) |]. intros [] g' [P M]. pose proof (inv_painted _ _ _ _ _ I P) as I'. split_and!.
  - apply (inv_close _ _ _ h I'). intros o' x Ho' Hx. destruct (painted_l _ _ _ _ P Ho) as (o2 & Ho2 & Hor).
    assert (o' = o2) as -> by congruence. assert (obj o2 = obj o) as E2 by (by destruct Hor as [-> | (_ & -> & _)]).
    rewrite E2 Eb in Hx. simpl in Hx. apply elem_of_cons in Hx as [-> | Hx]; [done | by apply not_elem_of_nil in Hx].
  - by apply (roots_painted g).
  - by destruct (changed_fields _ _ (painted_changed _ _ P)) as (_ & _ & _ & _ & _ & _ & _ & _ & _ & _ & _ & ->).
Qed.

Lemma slice_bounds start v l : 0 <= l < 2 ^ 31 -> -2 ^ 31 <= start < 2 ^ 31 -> -2 ^ 31 <= v < 2 ^ 31 ->
  (i32 (v - start) <? 0) || (l <? u32 start) || (l <? u32 v) = false ->
  0 <= start /\ i32 (v - start) = v - start /\ 0 <= v - start < 2 ^ 31 /\ v <= l.
Proof.
  intros Hl Hs Hv [[H1%Z.ltb_ge H2%Z.ltb_ge]%orb_false_elim H3%Z.ltb_ge]%orb_false_elim.
  unfold wrapu, wraps in *. change (2 ^ (32 - 1)) with 2147483648 in *. change (2 ^ 32) with 4294967296 in *. change (2 ^ 31) with 2147483648 in *.
  assert (0 <= start) by (destruct (Z.lt_ge_cases start 0); [| done]; rewrite -(Z_mod_plus_full start 1) Z.mod_small in H2; lia).
  assert (0 <= v) by (destruct (Z.lt_ge_cases v 0); [| done]; rewrite -(Z_mod_plus_full v 1) Z.mod_small in H3; lia).
  rewrite Z.mod_small in H3; [| lia]. rewrite Z.mod_small in H2; [| lia]. rewrite Z.mod_small in H1; [| lia]. rewrite Z.mod_small; lia.
Qed.

(** The slice is written to the slot and given its body, in either order. *)
Lemma put_slice E g d h o b dv : Inv ∅ (h :: E) None g -> roots_marked g -> slot_ok g d -> writable d -> (forall c, container d = Some c -> reach g c) ->
  objs g !! h = Some o -> obj o = Raw -> marked g h -> getw d g = Ret dv g ->
  (forall g', steady g g' -> wt_body (objs g') b) ->
  exists g1, setw d (Some h) g = Ret tt g1 /\
    let g2 := set_objs (<[h := set_obj b o]> (objs g1)) g1 in
    objs g1 !! h = Some o /\ roots_marked g2 /\ gchalt g2 = gchalt g /\ reach g2 h /\ steady g g2 /\
    (forall E', outs b ++ E' ≡ₚ option_list dv ++ E -> Inv ∅ E' (Some h) g2).
Proof.
  intros I Hr Hd Hw Hc Ho Hraw Hm Eg Hwt. destruct (setw_ok g d (Some h) E I Hr Hd Hw ltac:(by intros x [= <-])) as (dv' & g1 & W & I1 & R1).
  assert (dv' = dv) as -> by (pose proof (w_get _ _ _ _ _ W); congruence). exists g1. split; [apply W |]. intros g2.
  pose proof (w_raw _ _ _ _ _ W h o Ho Hraw) as Ho1. pose proof (w_steady _ _ _ _ _ W) as S1.
  assert (same_type (obj o) b) as Hst by (by rewrite Hraw). pose proof (steady_body g1 h o b Ho1 Hst) as S2.
  pose proof (reach_write _ _ _ _ _ I Hd Hc (w_set _ _ _ _ _ W)) as Hrh. split_and!; try done.
  - intros x Hx. apply marked_body; [done |]. by apply R1.
  - apply (w_halt _ _ _ _ _ W).
  - by apply reach_update.
  - by eapply steady_trans.
  - intros E' HE. apply (inv_body _ _ _ _ _ _ _ b (inv_open _ _ h I1) Ho1).
    + apply live_source; [done |]. by apply (reach_live _ _ _ _ I1).
    + by rewrite Hraw.
    + by rewrite Hraw.
    + intros _ _. apply (Hwt g2). by eapply steady_trans.
    + intros _ Hne. done.
Qed.

Lemma slicea_ok g start v d : good g -> slot_ok g d -> writable d -> (forall c, container d = Some c -> reach g c) -> holds_array g d ->
  -2 ^ 31 <= start < 2 ^ 31 -> -2 ^ 31 <= v < 2 ^ 31 ->
  ends (slicea start v d) (fun _ g' => good g') (fun _ g' => g' = g) g.
Proof.
  intros G Hd Hw Hc Ha Hst Hv. pose proof G as [I Hr Hh]. destruct (getw_ok _ _ g d I Hd) as (p & Eg & Hl). unfold slicea. cbv zeta.
  run. unfold ends at 1. rewrite Eg. destruct p as [ds|].
  2: { destruct (i32 (v - start) =? 0); run; done. }
  destruct (Ha ds Eg) as (o & a & Ho & Ea). pose proof (Hl ds eq_refl) as Hlds.
  pose proof (i_wt _ _ _ _ I ds o Ho (live_source _ _ _ Ho Hlds)) as Hwa. rewrite Ea in Hwa. simpl in Hwa. pose proof Hwa as (Hlen & Hsz & Hrt).
  run. run. destruct (_ || _) eqn:Eb; [by run |]. destruct (slice_bounds _ _ _ Hlen Hst Hv Eb) as (B1 & B2 & B3 & B4). rewrite B2. clear Eb.
  run. eapply ends_mono; [by apply (nheap_ok _ g []) | | done]. intros h g1 (I1 & R1 & S1 & Hnew & Hoh & Em & Hh1 & [Ep1 Er1] & Hg1).
  assert (forall x, reach g x -> reach g1 x) as Hreach.
  { intros x. apply reach_grows; [done |]. intros y q Hy. exists q. by auto. }
  pose proof (getw_grows g g1 d _ Ep1 (fun x q Hx => ex_intro _ q (conj (Hg1 x q Hx) eq_refl)) Eg) as Eg1.
  assert (marked g1 h) as Mh by (eexists; split; [exact Hoh | left; by rewrite Em]).
  destruct (root a) as [r |] eqn:Er.
  - assert (live ∅ g r) as Hlr by (apply (i_outs _ _ _ _ I ds o r Ho (live_source _ _ _ Ho Hlds)); rewrite Ea /= Er; by left).
    pose proof Hlr as (p & Hp & _). pose proof (Hg1 r p Hp) as Hp1. assert (r <> h) as Hne by congruence.
    run. run. pose proof (inv_take _ _ _ _ _ _ I1 Hp1 (steady_live _ _ _ S1 Hlr)) as I2. pose proof (steady_ref g1 r p (ref p + 1) Hp1) as S2.
    assert (forall x, marked g1 x -> marked (set_objs (<[r := set_ref (ref p + 1) p]> (objs g1)) g1) x) as M2 by (intros x; by apply marked_ref).
    assert (forall x q, objs g1 !! x = Some q -> exists q', <[r := set_ref (ref p + 1) p]> (objs g1) !! x = Some q' /\ obj q' = obj q) as O2.
    { intros x q Hx. apply (same_objs_l (objs g1)); [by apply (same_objs_insert _ r p (set_ref (ref p + 1) p)) | done]. }
    set (g2 := set_objs _ g1) in *. pose proof (getw_grows g1 g2 d _ eq_refl O2 Eg1) as Eg2.
    assert (objs g2 !! h = Some (MkHeap (mutator g) 1 Raw)) as Hoh2 by (simpl; by rewrite lookup_insert_ne).
    set (b := Arr (MkArray (v - start) (a_t a) (Some r) (off a + start * size (a_t a)) [])).
    destruct (put_slice [r] g2 d h (MkHeap (mutator g) 1 Raw) b (Some ds)) as (g3 & Eset & Hoh3 & R3 & H3 & Rh3 & S3 & I3); try done.
    { eapply inv_perm; [| exact I2]. solve_Permutation. }
    { intros x Hx. apply M2. by apply R1. }
    { apply (steady_slot g1); [done |]. by apply (steady_slot g). }
    { intros c Ec. apply (reach_grows g1); [done | done |]. by apply Hreach, Hc. }
    { by apply M2. }
    { intros g' S'. assert (steady g g') as S by (eapply steady_trans; [exact S1 |]; by eapply steady_trans).
      apply (slice_wt (objs g) _ a ds r p (v - start) start v); try done; [by rewrite Er | by rewrite Er | lia | lia |].
      destruct (st_objs _ _ S r p Hp) as (p' & Hp' & Et & _). eauto. }
    run. unfold ends at 1. rewrite Eg2. run. unfold ends at 1. rewrite Eset. run. run. fold b. unfold set_obj in *. simpl in *. set (g4 := set_objs _ g3) in *.
    pose proof (I3 [ds] ltac:(solve_Permutation)) as I4. run. pose proof (destroy_ok 66 0 ltac:(lia) ltac:(lia) ltac:(lia)) as Hdes.
    eapply runs_ends; [apply (Hdes (Some ds) ∅ [] (Some h) g4); [exact I4 | exact (eq_trans H3 (eq_trans Hh1 Hh))] |]. intros [] g5 (I5 & [F5 _ _] & _).
    pose proof (reach_freed _ _ _ _ _ I5 F5 Rh3) as Rh5.
    eapply runs_ends; [apply (close_slice [] g5 h r (v - start) (a_t a) (off a + start * size (a_t a)) I5) |].
    + by apply (freed_marked [] (Some h) g4).
    + by apply (reach_live _ _ _ _ I5).
    + intros o5 Ho5. destruct (fr_objs _ _ _ F5 h o5 Ho5) as (o4 & Ho4 & _ & Eb4). rewrite Eb4. simpl in Ho4. rewrite lookup_insert_eq in Ho4. by injection Ho4 as <-.
    + intros [] g6 (I6 & R6 & H6). split; [done | done |]. rewrite H6 (freed_halt _ _ F5). exact (eq_trans H3 (eq_trans Hh1 Hh)).
  - set (b := Arr (MkArray (v - start) (a_t a) (Some ds) (off a + start * size (a_t a)) [])).
    destruct (put_slice [] g1 d h (MkHeap (mutator g) 1 Raw) b (Some ds)) as (g3 & Eset & Hoh3 & R3 & H3 & Rh3 & S3 & I3); try done.
    { by apply (steady_slot g). }
    { intros c Ec. by apply Hreach, Hc. }
    { intros g' S'. assert (steady g g') as S by (by eapply steady_trans).
      apply (slice_wt (objs g) _ a ds ds o (v - start) start v); try done; [by rewrite Er | lia | lia |].
      destruct (st_objs _ _ S ds o Ho) as (p' & Hp' & Et & _). eauto. }
    run. run. run. fold b. unfold ends at 1. rewrite (setw_commute _ _ _ _ _ _ b Hoh eq_refl Eset).
    pose proof (I3 [] ltac:(solve_Permutation)) as I4. cbv zeta in *.
    eapply runs_ends; [apply (close_slice [] _ h ds (v - start) (a_t a) (off a + start * size (a_t a)) I4 R3) |].
    + by apply (reach_live _ _ _ _ I4).
    + intros o5 Ho5. simpl in Ho5. rewrite lookup_insert_eq in Ho5. by injection Ho5 as <-.
    + intros [] g6 (I6 & R6 & H6). split; [done | done |]. rewrite H6. exact (eq_trans H3 (eq_trans Hh1 Hh)).
Qed.
End Slices.

(** ** Frames and calls *)

(** The top frame of a process; a frame without a type is alone in its piece. *)
Definition top_frame (g : gc) (p : nat) (f : Frame) : Prop :=
  exists pr sx ex, progs g !! p = Some pr /\ EX pr = sx :: ex /\ last (fr sx) = Some f /\ (f_t f = None -> fr sx = [f]).

(** What a slot leads to is a module that is marked; see the findings. *)
Definition holds_module (g : gc) (s : slot) : Prop :=
  forall ml, getw s g = Ret (Some ml) g -> is_module (objs g) ml /\ marked g ml.

Section Calls.
Context `{HeapPool}.

Lemma ends_prog p pr (Q : Prog -> gc -> Prop) R g : progs g !! p = Some pr -> Q pr g -> ends (prog p) Q R g.
Proof. intros Hp HQ. unfold prog. run. run. by apply (ends_from _ pr). Qed.

Lemma progs_exchange ps p pr pr' e e' : ps !! p = Some pr -> prog_outs pr' ++ e ≡ₚ prog_outs pr ++ e' ->
  (<[p := pr']> ps ≫= prog_outs) ++ e ≡ₚ (ps ≫= prog_outs) ++ e'.
Proof. apply bind_exchange. Qed.

(** A process is replaced; what becomes of its pointers. *)
Lemma inv_prog E E' X g p pr pr' : Inv ∅ E X g -> progs g !! p = Some pr -> prog_outs pr' ++ E' ≡ₚ prog_outs pr ++ E -> wt_prog (objs g) pr' ->
  Inv ∅ E' X (set_progs (<[p := pr']> (progs g)) g).
Proof.
  intros I Hp Hperm Hw. apply (inv_progs _ _ _ _ _ _ I); [by apply (progs_exchange _ _ pr) |]. apply Forall_insert; [apply (i_progs _ _ _ _ I) | done].
Qed.

Lemma prog_marked g p pr pr' : roots_marked g -> progs g !! p = Some pr -> (forall x, x ∈ prog_outs pr' -> x ∈ prog_outs pr \/ marked g x) ->
  roots_marked (set_progs (<[p := pr']> (progs g)) g).
Proof.
  intros Hr Hp Hin x Hx. unfold roots in Hx. simpl in Hx. apply elem_of_app in Hx as [Hx | Hx]; [| apply Hr, elem_of_app; by right].
  apply list_elem_of_bind in Hx as (q & Hx & Hq). apply list_elem_of_lookup in Hq as [i Hi]. destruct (decide (i = p)) as [-> | Hne].
  - rewrite list_lookup_insert_eq in Hi; [| by eapply lookup_lt_Some]. injection Hi as <-. destruct (Hin x Hx) as [Hx' | Hm]; [apply Hr; by eapply prog_root | done].
  - rewrite list_lookup_insert_ne // in Hi. apply Hr. by eapply prog_root.
Qed.

Lemma prog_is_wt E X g p pr : Inv ∅ E X g -> progs g !! p = Some pr -> wt_prog (objs g) pr.
Proof. intros I Hp. pose proof (i_progs _ _ _ _ I) as Hps. rewrite Forall_forall in Hps. apply Hps. by eapply list_elem_of_lookup_2. Qed.

Lemma frame_ok g p pr t full : good g -> progs g !! p = Some pr -> wf_type t -> (full = true \/ EX pr <> []) ->
  runs (frame p t full) (fun _ g' => good g') g.
Proof.
  intros [I Hr Hh] Hp Ht Hex. destruct (initmem_wt t Ht) as [Hwt Hnp]. destruct (prog_is_wt _ _ _ _ _ I Hp) as [Hm Hf].
  unfold frame. run. apply (ends_prog p pr); [done |]. cbv zeta. set (ws := initmem t (words (size t))) in *. run.
  assert (exists ex, (forall Q : list Stkext -> gc -> Prop, Q ex g -> ends (if full then mret (MkStkext t [MkFrame None None ws] :: EX pr)
        else match EX pr with
             | sx :: ex => mret (MkStkext (TR sx) (fr sx ++ [MkFrame (Some t) None ws]) :: ex)
             | [] => fault
             end) Q never g) /\ stack_outs ex = stack_outs (EX pr) /\ Forall (fun sx => Forall (wt_frame (objs g) (TR sx)) (fr sx)) ex) as (ex & Hends & Hout & Hwf).
  { destruct full; [| destruct (EX pr) as [| sx ex] eqn:Ee; [by destruct Hex |]].
    - eexists. split; [intros Q HQ; run; exact HQ |]. split; [unfold stack_outs, frame_outs; simpl; by rewrite Hnp |].
      constructor; [constructor; [by split | constructor] | done].
    - eexists. split; [intros Q HQ; run; exact HQ |]. split.
      + unfold stack_outs. simpl. rewrite bind_app /=. unfold frame_outs at 2. simpl. by rewrite Hnp !app_nil_r.
      + apply Forall_cons in Hf as [Hf1 Hf2]. constructor; [| done]. simpl. apply Forall_app. split; [done |]. constructor; [by split | constructor]. }
  apply Hends. unfold set_prog. run. assert (prog_outs (MkProg (R_M pr) ex (exsp pr)) = prog_outs pr) as Eo by (unfold prog_outs; simpl; by rewrite Hout).
  split; [| | done].
  - apply (inv_prog [] [] None g p pr); [done | done | by rewrite Eo | by split].
  - apply (prog_marked g p pr); [done | done |]. rewrite Eo. by left.
Qed.

Lemma last_split {A} (l : list A) x : last l = Some x -> l = removelast l ++ [x].
Proof. destruct l as [| y l _] using rev_ind; [done |]. rewrite last_snoc removelast_last. by intros [= ->]. Qed.

Lemma mcall_ok g p d f : good g -> slot_ok g d -> holds_module g d -> top_frame g p f -> mr f = None ->
  ends (mcall p d) (fun _ g' => good g') (fun _ g' => g' = g) g.
Proof.
  intros [I Hr Hh] Hd Hml (pr & sx & ex & Hp & Ee & Hlast & _) Hmr. destruct (getw_ok _ _ g d I Hd) as (v & Eg & Hv).
  destruct (prog_is_wt _ _ _ _ _ I Hp) as [Hm Hf]. unfold mcall. run. unfold ends at 1. rewrite Eg. destruct v as [ml|]; [| by run].
  destruct (Hml ml Eg) as [Hmod Hmk]. pose proof (Hv ml eq_refl) as Hl. pose proof Hl as (o & Ho & _).
  run. apply (ends_prog p pr); [done |]. rewrite Ee. run. run. run. unfold set_prog. run. run.
  set (pr' := MkProg ml (MkStkext (TR sx) (removelast (fr sx) ++ [set_mr f (Some (R_M pr))]) :: ex) (exsp pr)).
  pose proof (inv_take _ _ _ _ _ _ I Ho Hl) as I1. set (g1 := set_objs (<[ml := set_ref (ref o + 1) o]> (objs g)) g) in *.
  change (set_objs _ _) with (set_progs (<[p := pr']> (progs g1)) g1).
  assert (forall x, keeps (objs g) (objs g1) x) as Hks by (intros x; apply keeps_same_objs; by apply (same_objs_insert _ ml o)).
  pose proof (last_split _ _ Hlast) as El.
  assert (prog_outs pr' ≡ₚ ml :: prog_outs pr) as Hpo.
  { assert (frame_outs (set_mr f (Some (R_M pr))) = ptrs (f_mem f) ++ [R_M pr]) as E1 by done.
    assert (frame_outs f = ptrs (f_mem f)) as E2 by (unfold frame_outs; by rewrite Hmr app_nil_r).
    unfold prog_outs, pr', stack_outs. rewrite Ee. cbn [R_M EX exsp fr mbind list_bind]. rewrite {2}El !bind_app. cbn [mbind list_bind].
    rewrite E1 E2 !app_nil_r. solve_Permutation. }
  split; [| | done].
  - apply (inv_prog [ml] [] None g1 p pr); [done | done | |].
    + rewrite Hpo app_nil_r. solve_Permutation.
    + split; [by apply (is_module_keeps (objs g)) |]. simpl. rewrite Ee in Hf. apply Forall_cons in Hf as [Hf1 Hf2].
      assert (forall tr fm, wt_frame (objs g) tr fm -> wt_frame (objs g1) tr fm) as Hwk.
      { intros tr fm [W1 W2]. split; [done |]. intros ml' Em. by apply (is_module_keeps (objs g)); [| apply W2]. }
      rewrite El in Hf1. apply Forall_app in Hf1 as [Hf1 [Hf3 _]%Forall_cons]. constructor; simpl.
      * apply Forall_app. split; [eapply Forall_impl; [exact Hf1 | apply Hwk] |]. constructor; [| constructor]. split; [apply Hf3 |].
        simpl. intros ml' [= <-]. by apply (is_module_keeps (objs g)).
      * eapply Forall_impl; [exact Hf2 |]. intros sx' Hsx. eapply Forall_impl; [exact Hsx |]. apply Hwk.
  - apply (prog_marked g1 p pr); [| done |].
    + intros x Hx. apply marked_ref; [done |]. by apply Hr.
    + intros x Hx. rewrite Hpo in Hx. apply elem_of_cons in Hx as [-> | Hx]; [right; by apply marked_ref | by left].
Qed.

Lemma ret_ok g p f : good g -> top_frame g p f -> ends (ret p) (fun _ g' => good g') (fun _ g' => g' = g) g.
Proof.
  intros [I Hr Hh] (pr & sx & ex & Hp & Ee & Hlast & Halone). destruct (prog_is_wt _ _ _ _ _ I Hp) as [Hm Hf].
  pose proof (last_split _ _ Hlast) as El. unfold ret. run. apply (ends_prog p pr); [done |].
  set (ex' := match f_t f with None => ex | Some _ => MkStkext (TR sx) (removelast (fr sx)) :: ex end).
  assert (pop (EX pr) = Some (default (TR sx) (f_t f), f, ex')) as Epop by (unfold pop; rewrite Ee Hlast; done).
  run. run. cbv iota. destruct (length ex' =? 0)%nat; [by run |].
  assert (stack_outs (EX pr) ≡ₚ stack_outs ex' ++ frame_outs f) as Hso.
  { rewrite Ee. unfold ex', stack_outs. simpl. destruct (f_t f) eqn:Et; simpl.
    - rewrite {1}El bind_app /= app_nil_r. solve_Permutation.
    - rewrite (Halone eq_refl) /= app_nil_r. solve_Permutation. }
  rewrite Ee in Hf. apply Forall_cons in Hf as [Hf1 Hf2]. assert (wt_frame (objs g) (TR sx) f) as [Hwf Hmf].
  { rewrite El in Hf1. by apply Forall_app in Hf1 as [_ [? _]%Forall_cons]. }
  assert (Forall (fun sx => Forall (wt_frame (objs g) (TR sx)) (fr sx)) ex') as Hfe.
  { unfold ex'. destruct (f_t f); [| done]. constructor; [| done]. simpl. rewrite El in Hf1. by apply Forall_app in Hf1 as [? _]. }
  set (m := match mr f with Some _ => Some (R_M pr) | None => None end).
  set (pr' := MkProg (default (R_M pr) (mr f)) ex' (exsp pr)).
  assert (prog_outs pr' ++ ptrs (f_mem f) ++ option_list m ≡ₚ prog_outs pr) as Hperm.
  { unfold prog_outs. rewrite Hso. unfold pr', frame_outs, m. simpl. destruct (mr f); simpl; rewrite ?app_nil_r; solve_Permutation. }
  unfold set_prog. run. run. set (g1 := set_progs _ g).
  assert (Inv ∅ (ptrs (f_mem f) ++ option_list m) None g1) as I1.
  { apply (inv_prog [] _ None g p pr); [done | done | by rewrite app_nil_r |]. split; [| done]. simpl. destruct (mr f) as [ml|] eqn:Em; [by apply Hmf | done]. }
  assert (roots_marked g1) as R1.
  { apply (prog_marked g p pr); [done | done |]. intros x Hx. left. rewrite -Hperm. apply elem_of_app. by left. }
  pose proof (destroy_ok 66 0 ltac:(lia) ltac:(lia) ltac:(lia)) as Hdes.
  run. eapply runs_ends; [apply (freeheap_ok 0 destroy Hdes _ (f_mem f) ∅ (option_list m) None g1 Hwf I1 Hh) |]. intros [] g2 [I2 [F2 _ _]].
  pose proof (freed_marked _ _ _ _ I2 F2 R1) as R2. pose proof (freed_halt _ _ F2) as H2. unfold m in I2. destruct (mr f) as [ml|].
  - eapply runs_ends; [apply (destroy_good (Some (R_M pr)) g2 I2 R2); by rewrite H2 | by intros [] g3 [? _]].
  - run. split; [done | done |]. by rewrite H2.
Qed.

(** *** The pointers of C code *)

Lemma HASHPTR_lt h : (HASHPTR h < 32)%nat.
Proof.
  unfold HASHPTR. change 31 with (Z.ones 5). rewrite Z.land_ones //. change (2 ^ 5) with 32.
  pose proof (Z.mod_pos_bound (Z.shiftr (h + 8) 6) 32). lia.
Qed.

Lemma concat_insert (t : list (list Z)) i b b' e e' : t !! i = Some b -> b' ++ e ≡ₚ b ++ e' -> concat (<[i := b']> t) ++ e ≡ₚ concat t ++ e'.
Proof.
  intros Hi Hb. assert (forall l : list (list Z), concat l = l ≫= id) as Ec by (intros l; induction l as [| a l IH]; [done |]; cbn [concat mbind list_bind]; by rewrite IH). rewrite !Ec.
  by apply (bind_exchange _ _ _ b).
Qed.

Lemma ptradd_ok g h E : Inv ∅ (h :: E) None g -> roots_marked g -> marked g h ->
  runs (ptradd h) (fun _ g' => Inv ∅ E None g' /\ roots_marked g' /\ gchalt g' = gchalt g) g.
Proof.
  intros I Hr Hm. unfold ptradd. run. pose proof (i_table _ _ _ _ I) as [Hlen Ht]. pose proof (HASHPTR_lt h) as Hlt.
  destruct (lookup_lt_is_Some_2 (ptrtab g) (HASHPTR h)) as [b Hb]; [lia |].
  assert (alter (cons h) (HASHPTR h) (ptrtab g) = <[HASHPTR h := h :: b]> (ptrtab g)) as Ealt by (rewrite list_insert_alter; apply list_alter_ext; [intros x Hx; congruence | done]). rewrite Ealt. clear Ealt.
  pose proof (concat_insert (ptrtab g) (HASHPTR h) b (h :: b) [] [h] Hb ltac:(solve_Permutation)) as Hperm. rewrite app_nil_r in Hperm. split_and!.
  - apply (inv_ptrtab _ _ _ _ _ _ I).
    + rewrite Hperm. solve_Permutation.
    + split; [by rewrite length_insert |]. intros i b' x Hi Hx. simpl in Hi. destruct (decide (i = HASHPTR h)) as [-> | Hne].
      * rewrite list_lookup_insert_eq in Hi; [| lia]. injection Hi as <-. apply elem_of_cons in Hx as [-> | Hx]; [done | by apply (Ht _ b)].
      * rewrite list_lookup_insert_ne // in Hi. by apply (Ht _ b').
  - intros x Hx. unfold roots in Hx. simpl in Hx. rewrite Hperm in Hx. rewrite !elem_of_app in Hx.
    destruct Hx as [Hx | [Hx | [Hx | Hx]]]; [apply Hr; unfold roots; set_solver | apply Hr; unfold roots; set_solver | apply Hr; unfold roots; set_solver |].
    apply list_elem_of_singleton in Hx as ->. done.
  - done.
Qed.

Lemma remove_first_perm h l : h ∈ l -> exists l', remove_first h l = Some l' /\ l ≡ₚ h :: l'.
Proof.
  induction l as [| x l IH]; [by intros ?%not_elem_of_nil |]. simpl. destruct (Z.eqb_spec x h) as [-> | Hne]; [eauto |].
  intros [-> | Hin]%elem_of_cons; [done |]. destruct (IH Hin) as (l' & -> & Hp). exists (x :: l'). split; [done |]. rewrite Hp. solve_Permutation.
Qed.

Lemma ptrdel_ok g h : Inv ∅ [] None g -> roots_marked g -> h ∈ concat (ptrtab g) ->
  runs (ptrdel h) (fun _ g' => Inv ∅ [h] None g' /\ roots_marked g' /\ gchalt g' = gchalt g) g.
Proof.
  intros I Hr Hin. pose proof (i_table _ _ _ _ I) as [Hlen Ht]. apply list_elem_of_In, in_concat in Hin as (b & Hb & Hh).
  apply list_elem_of_In in Hb, Hh. apply list_elem_of_lookup in Hb as [i Hb]. pose proof (Ht i b h Hb Hh) as Ei.
  destruct (remove_first_perm h b Hh) as (b' & Erm & Hp). rewrite -Ei in Hb. unfold ptrdel. run. run. run. run. run. run. run.
  pose proof (concat_insert (ptrtab g) (HASHPTR h) b b' [h] [] Hb ltac:(rewrite Hp; solve_Permutation)) as Hperm. rewrite app_nil_r in Hperm. split_and!.
  - apply (inv_ptrtab _ _ _ _ _ _ I); [by rewrite app_nil_r |]. split; [by rewrite length_insert |].
    intros j c x Hj Hx. simpl in Hj. destruct (decide (j = HASHPTR h)) as [-> | Hne].
    + rewrite list_lookup_insert_eq in Hj; [| by eapply lookup_lt_Some]. injection Hj as <-. apply (Ht _ b); [done |]. rewrite Hp. by right.
    + rewrite list_lookup_insert_ne // in Hj. by apply (Ht _ c).
  - intros x Hx. apply Hr. unfold roots in *. simpl in Hx. rewrite -Hperm. set_solver.
  - done.
Qed.
End Calls.
