(* ===== verification/GcSafe.v ===== *)
(** * The garbage collector: what it promises

    Instructions that move pointers and the collector take turns, in any order.
    Whatever can be reached from the roots stays, with what it holds; nothing
    dangles; counts are never too low.  What cannot be reached is given back
    within two epochs.  Where the code falls short of that, a condition says so: a
    call into a module that is not marked, arrays whose size wraps, and data that
    the collector takes for the header of a block. *)

From S2P Require Import Prelude Heap Pool PoolArena Gc GcPool GcInv GcRun GcFree GcMark GcSweep GcOps GcCalls.
Import Gc.

#[local] Open Scope Z_scope.

(** ** The machine *)

(** The collector, the instructions, and what C code does with an object it
    keeps: it makes one and registers it, or forgets and destroys it.  And what
    programs write into their data, as far as it can look like a header. *)
Inductive op :=
  | Movp (s d : slot)
  | New (t : Type_) (d : slot)
  | Newa (t : Type_) (sz : Z) (d : slot)
  | Consw (x : Z) (d : slot)
  | Consp (s d : slot)
  | Headp (s d : slot)
  | Tail (s d : slot)
  | Slicea (start v : Z) (d : slot)
  | Frame_ (p : nat) (t : Type_) (full : bool)
  | Mcall (p : nat) (d : slot)
  | Ret_ (p : nat)
  | Hold (t : Type_)
  | Release (h : Z)
  | Rungc
  | Data_ (st : gmap Z (Z * Z)).

Section Machine.
Context `{HeapPool}.

Definition exec (o : op) : M unit :=
  match o with
  | Movp s d => movp s d
  | New t d => new t d
  | Newa t sz d => newa t sz d
  | Consw x d => consw x d
  | Consp s d => consp s d
  | Headp s d => headp s d
  | Tail s d => tail_ s d
  | Slicea start v d => slicea start v d
  | Frame_ p t full => frame p t full
  | Mcall p d => mcall p d
  | Ret_ p => ret p
  | Hold t => h ← heap t; ptradd h
  | Release h => ptrdel h;; destroy (Some h)
  | Rungc => rungc
  | Data_ st => modify (set_stale st)
  end.

(** A slot that the program can use: its types say that a pointer is there, and
    there is a way to the object it is in. *)
Definition usable (g : gc) (s : slot) : Prop := slot_typed g s /\ forall h, container s = Some h -> reach g h.
Definition target (g : gc) (s : slot) : Prop := usable g s /\ writable s.

(** What the compiler and the loader see to. *)
Definition typed (o : op) (g : gc) : Prop :=
  match o with
  | Movp s d => usable g s /\ target g d
  | New t d => wf_type t /\ target g d
  | Newa t sz d => wf_type t /\ sz < 2 ^ 31 /\ target g d
  | Consw x d => target g d /\ holds_list g d
  | Consp s d => usable g s /\ target g d /\ holds_list g d
  | Headp s d => usable g s /\ holds_ptrs g s /\ target g d
  | Tail s d => usable g s /\ holds_list g s /\ target g d
  | Slicea start v d => target g d /\ holds_array g d /\ -2 ^ 31 <= start < 2 ^ 31 /\ -2 ^ 31 <= v < 2 ^ 31
  | Frame_ p t full => wf_type t /\ exists pr, progs g !! p = Some pr /\ (full = true \/ EX pr <> [])
  | Mcall p d => usable g d /\ (forall ml, getw d g = Ret (Some ml) g -> is_module (objs g) ml) /\ exists f, top_frame g p f /\ mr f = None
  | Ret_ p => exists f, top_frame g p f
  | Hold t => wf_type t
  | Release h => h ∈ concat (ptrtab g)
  | Rungc => heapmem g <> []
  | Data_ _ => True
  end.

(** What nothing sees to: that the size of an array does not wrap; that the
    module that is called is marked; and that, if the block the collector stopped
    at has been joined to another since, the data that is there now does not have
    the magic of a header. *)
Definition careful (o : op) (g : gc) : Prop :=
  match o with
  | Newa t sz d => size t * sz < 2 ^ 31
  | Mcall p d => forall ml, getw d g = Ret (Some ml) g -> marked g ml
  | Rungc => resumable g
  | _ => True
  end.

Definition valid (o : op) (g : gc) : Prop := typed o g /\ careful o g.

Lemma usable_ok g s : good g -> usable g s -> slot_ok g s.
Proof. intros [I _ _] [Ht Hr]. split; [done |]. intros h Hh. apply (reach_live _ _ _ _ I). by apply Hr. Qed.

Lemma hold_ok g t : good g -> wf_type t -> ends (h ← heap t; ptradd h) (fun _ g' => good g') (fun _ g' => g' = g) g.
Proof.
  intros G Ht. run. eapply ends_mono; [by apply heap_ok | | done]. intros h g1 (I1 & R1 & H1 & S1 & M1).
  eapply runs_ends; [by apply ptradd_ok |]. intros [] g2 (I2 & R2 & H2). split; [done | done |]. congruence.
Qed.

Lemma release_ok g h : good g -> h ∈ concat (ptrtab g) -> runs (ptrdel h;; destroy (Some h)) (fun _ g' => good g') g.
Proof.
  intros [I Hr Hh] Hin. run. eapply runs_ends; [by apply ptrdel_ok |]. intros [] g1 (I1 & R1 & H1).
  eapply runs_ends; [apply (destroy_good (Some h) g1 I1 R1); congruence | by intros [] g2 [? _]].
Qed.

Lemma exec_ok o g : good g -> valid o g -> ends (exec o) (fun _ g' => good g') (fun _ g' => g' = g) g.
Proof.
  intros G [Ht Hc]. assert (forall s, usable g s -> slot_ok g s) as U by (intros s; by apply usable_ok).
  destruct o; cbn [typed careful exec] in *.
  - destruct Ht as (Hs & Hd & Hw). eapply runs_ends; [apply movp_ok; auto | done].
  - destruct Ht as (Ht & Hd & Hw). apply new_ok; auto.
  - destruct Ht as (Ht & Hsz & Hd & Hw). apply newa_ok; auto.
  - destruct Ht as ((Hd & Hw) & Hl). apply consw_ok; auto.
  - destruct Ht as (Hs & (Hd & Hw) & Hl). apply consp_ok; auto.
  - destruct Ht as (Hs & Hp & Hd & Hw). apply headp_ok; auto.
  - destruct Ht as (Hs & Hp & Hd & Hw). apply tail_ok; auto.
  - destruct Ht as ((Hd & Hw) & Ha & Hst & Hv). apply slicea_ok; auto. apply Hd.
  - destruct Ht as (Ht & pr & Hp & Hex). eapply runs_ends; [by apply (frame_ok g p pr) | done].
  - destruct Ht as (Hd & Hm & f & Hf & Hmr). apply (mcall_ok g p d f); auto. intros ml E. split; [by apply Hm | by apply Hc].
  - destruct Ht as (f & Hf). by apply (ret_ok g p f).
  - by apply hold_ok.
  - eapply runs_ends; [by apply release_ok | done].
  - destruct G as [I Hr Hh]. eapply runs_ends; [by apply rungc_ok |]. intros [] g' (I' & R' & S' & _). split; [done | done |].
    by rewrite (sv_gchalt _ _ S').
  - run. destruct G as [I Hr Hh]. split; [by apply inv_stale | done | done].
Qed.

(** Runs of the machine; an error is raised to the process and the machine goes on. *)
Inductive steps (V : op -> gc -> Prop) : gc -> list op -> gc -> Prop :=
  | steps_nil g : steps V g [] g
  | steps_ret g o g1 os g' : V o g -> exec o g = Ret tt g1 -> steps V g1 os g' -> steps V g (o :: os) g'
  | steps_raise g o e g1 os g' : V o g -> exec o g = Raise e g1 -> steps V g1 os g' -> steps V g (o :: os) g'.

(** Everything that can be reached is there, and is not about to be swept; its
    count is not below the number of references to it. *)
Definition safe (g : gc) : Prop := forall x, reach g x ->
  exists o, objs g !! x = Some o /\ color o <> sweeper g /\ Z.of_nat (refs ∅ [] g x) <= ref o.

Lemma good_safe g : good g -> safe g.
Proof.
  intros [I _ _] x Hx. destruct (reach_live _ _ _ _ I Hx) as (o & Ho & Hs & HD). exists o. split_and!; try done.
  by apply (i_refs _ _ _ _ I).
Qed.

Lemma steps_good g os g' : good g -> steps valid g os g' -> good g'.
Proof.
  intros G Hs. induction Hs as [g | g op g1 os g' Hv Hx _ IH | g op e g1 os g' Hv Hx _ IH]; [done | |]; apply IH; pose proof (exec_ok op g G Hv) as He;
    unfold ends in He; rewrite Hx in He; [done | by subst].
Qed.

(** C1. The machine stays safe under every run of instructions that meet their
    conditions ([valid]), in whatever order and with slices of the collector
    anywhere between: from a good state none ends where an object that can be
    reached is gone or about to go, and the next instruction does not fault, that
    is, use memory that has been given back.  The conditions are: what the types
    of the program say of slots ([typed]); that the size of a new array does not
    wrap; that a module that is called is marked already (where it is not,
    [GcDemo.mcall_dangles]); and that a slice does not start where a block used to
    be and data has since been written that looks like a header. *)
Theorem machine_safe g os g' o : good g -> steps valid g os g' -> valid o g' -> safe g' /\ exec o g' <> Fault.
Proof.
  intros G Hs Hv. pose proof (steps_good _ _ _ G Hs) as G'. split; [by apply good_safe |].
  pose proof (exec_ok o g' G' Hv) as He. unfold ends in He. by destruct (exec o g').
Qed.

(** What survives, and how it was reached. *)
Lemma survives_kept g g' x : good g -> survives g g' -> reach g x ->
  exists o o', objs g !! x = Some o /\ objs g' !! x = Some o' /\ ref o' = ref o /\ obj o' = obj o.
Proof.
  intros G S Hx. destruct (reach_live _ _ _ _ (g_inv _ G) Hx) as (o & Ho & Hs & _).
  destruct (sv_kept _ _ S x o Ho Hs) as (o' & Ho' & E1 & E2). by exists o, o'.
Qed.

Lemma survives_roots g g' : survives g g' -> roots g' = roots g.
Proof. intros [S1 S2 S3 _ _ _]. unfold roots. by rewrite S1 S2 S3. Qed.

Lemma survives_reach g g' x : good g -> survives g g' -> reach g x <-> reach g' x.
Proof.
  intros G S. pose proof (survives_roots _ _ S) as Er. split; intros Hx.
  - induction Hx as [x Hx | h o x Hh IH Ho Hx]; [apply reach_root; by rewrite Er |]. destruct (survives_kept g g' h G S Hh) as (o1 & o' & Ho1 & Ho' & _ & Eb).
    apply (reach_out _ h o'); [done | done | rewrite Eb; congruence].
  - induction Hx as [x Hx | h o x Hh IH Ho Hx]; [apply reach_root; by rewrite -Er |]. destruct (sv_old _ _ S h o Ho) as (o1 & Ho1 & Eb).
    apply (reach_out _ h o1); [done | done | congruence].
Qed.

(** C30. The collector spares what can be reached: after a slice of its work it
    is all there with the same contents and the same counts, the ways to it are
    the same, and there is nothing new.  So wherever the slice before has stopped,
    be it at a block or where one has been joined to another since, as long as no
    data with the magic of a header has been written there; and this slice stops
    at a block. *)
Theorem rungc_spares g : good g -> valid Rungc g -> exists g', rungc g = Ret tt g' /\ good g' /\ resumable g' /\
  (forall x, reach g x <-> reach g' x) /\
  (forall x, reach g x -> exists o o', objs g !! x = Some o /\ objs g' !! x = Some o' /\ ref o' = ref o /\ obj o' = obj o) /\
  forall x, is_Some (objs g' !! x) -> is_Some (objs g !! x).
Proof.
  intros G Hv. pose proof (exec_ok Rungc g G Hv) as He. pose proof (rungc_ok g (g_inv _ G) (g_marked _ G) (proj1 Hv) (proj2 Hv)) as Hr.
  cbn [exec] in He. unfold ends in *. destruct (rungc g) as [[] g' | |] eqn:Eg; try done. destruct Hr as (I' & R' & S & W').
  exists g'. split_and!; try done.
  - intros x. by apply survives_reach.
  - intros x. by apply survives_kept.
  - intros x [o' Ho']. destruct (sv_old _ _ S x o' Ho') as (o & Ho & _). eauto.
Qed.
End Machine.
