(* ===== verification/GcIdle.v ===== *)
(** * The garbage collector: what it gives back

    While no instruction runs, the collector marks nothing but what can be
    reached; so what cannot be reached is of the colour that is swept after two
    epochs, and gone after the third.  The idle loop of [src/emu/dis.c] waits
    for three. *)

From S2P Require Import Prelude Heap Pool PoolArena Gc GcPool GcInv GcToy GcRun GcFree GcMark GcSweep GcOps GcCalls.
Import Gc.

#[local] Open Scope Z_scope.

(** ** Where code ends, if it does *)

Definition may {A} (m : M A) (Q : A -> gc -> Prop) (g : gc) : Prop := forall a g', m g = Ret a g' -> Q a g'.

Section May.

Lemma may_bind {A B} (m : M A) (k : A -> M B) Q g : may m (fun a g' => may (k a) Q g') g -> may (m ≫= k) Q g.
Proof. intros Hm b g'. unfold mbind, m_bind. destruct (m g) as [a g1 | |] eqn:E; try done. by apply Hm. Qed.

Lemma may_seq {A} (m m' : M unit) (k : M A) Q g : may (m;; m') (fun _ g' => may k Q g') g -> may (m;; m';; k) Q g.
Proof.
  intros Hm a g'. unfold may, mbind, m_bind in *. destruct (m g) as [x g1 | |]; try done. destruct (m' g1) as [y g2 | |]; try done.
  by apply (Hm y g2).
Qed.

Lemma may_ret {A} (a : A) (Q : A -> gc -> Prop) g : Q a g -> may (mret a) Q g.
Proof. by intros HQ a' g' [= <- <-]. Qed.

Lemma may_mono {A} (m : M A) (Q Q' : A -> gc -> Prop) g : may m Q g -> (forall a g', Q a g' -> Q' a g') -> may m Q' g.
Proof. intros Hm HQ a g' E. by apply HQ, Hm. Qed.

Lemma may_modify f (Q : unit -> gc -> Prop) g : Q tt (f g) -> may (modify f) Q g.
Proof. by intros HQ a g' [= <- <-]. Qed.

Lemma may_getg {A} (f : gc -> A) Q g : Q (f g) g -> may (getg f) Q g.
Proof. by intros HQ a g' [= <- <-]. Qed.

Lemma may_from {A} (o : option A) (Q : A -> gc -> Prop) g : (forall a, o = Some a -> Q a g) -> may (from o) Q g.
Proof. intros HQ a g' E. destruct o as [b|]; [| done]. injection E as <- <-. by apply HQ. Qed.

Lemma may_fault {A} (Q : A -> gc -> Prop) g : may fault Q g.
Proof. by intros a g'. Qed.

Lemma may_heap_at h (Q : Heap -> gc -> Prop) g : (forall o, objs g !! h = Some o -> Q o g) -> may (heap_at h) Q g.
Proof. intros HQ o g'. unfold heap_at. destruct (objs g !! h) as [p|]; [| done]. intros [= <- <-]. by apply HQ. Qed.

Lemma may_ptr_in ws k (Q : option Z -> gc -> Prop) g : (forall p, ws !! k = Some (Ptr p) -> Q p g) -> may (ptr_in ws k) Q g.
Proof.
  intros HQ. unfold ptr_in. apply may_bind, may_from. intros v Hv. destruct v as [z | p]; [apply may_fault | by apply may_ret, HQ].
Qed.
End May.

Ltac maybe :=
  lazymatch goal with
  | |- may (mbind _ _) _ _ => apply may_bind
  | |- may (mret _) _ _ => apply may_ret
  | |- may (modify _) _ _ => apply may_modify
  | |- may (getg _) _ _ => apply may_getg
  | |- may (set_heap _ _) _ _ => apply may_modify
  | |- may (heap_at _) _ _ => apply may_heap_at; intros ? ?
  | |- may (ptr_in _ _) _ _ => apply may_ptr_in; intros ? ?
  | |- may (from _) _ _ => apply may_from; intros ? ?
  | |- may fault _ _ => apply may_fault
  end; cbv beta.

(** ** Marking, up to a relation

    [T] holds of what marking an object of [P] does, and of a change that is not
    of the objects; and leaves [P] closed. *)

Section Marks.
Context (P : Z -> Prop) (T : gc -> gc -> Prop).

Definition closed (g : gc) : Prop := forall h o x, P h -> objs g !! h = Some o -> x ∈ outs (obj o) -> P x.

Context (Tsame : forall g g', ctl g' = ctl g -> objs g' = objs g -> T g g') (Ttrans : forall g1 g2 g3, T g1 g2 -> T g2 g3 -> T g1 g3).
Context (Tclosed : forall g g', T g g' -> closed g -> closed g') (Tmark : forall h g, P h -> may (Setmark h) (fun _ g' => T g g') g).

Lemma T_refl g : T g g.
Proof using Tsame. by apply Tsame. Qed.

Lemma Setmark_opt_rel g p : (forall h, p = Some h -> P h) -> may (Setmark_opt p) (fun _ g' => T g g') g.
Proof using All. intros Hp. destruct p as [h|]; cbn [Setmark_opt]; [by apply Tmark, Hp | maybe; apply T_refl]. Qed.

Lemma forM_rel {A} (xs : list A) f g : closed g -> (forall x g1, x ∈ xs -> closed g1 -> may (f x) (fun _ g' => T g1 g') g1) ->
  may (forM xs f) (fun _ g' => T g g') g.
Proof using All.
  revert g. induction xs as [| x xs IH]; intros g Hc Hf; cbn [forM]; [maybe; apply T_refl |].
  maybe. eapply may_mono; [apply Hf; [by left | done] |]. intros [] g1 T1. eapply may_mono.
  - apply IH; [by eapply Tclosed |]. intros y g2 Hy. apply Hf. by right.
  - intros [] g2 T2. by eapply Ttrans.
Qed.

Lemma each_rel ks ws g : closed g -> (forall x, x ∈ ptrs ws -> P x) -> may (each_ptr ks ws Setmark) (fun _ g' => T g g') g.
Proof using All.
  intros Hc Hp. apply forM_rel; [done |]. intros k g1 _ _. maybe. maybe. apply Setmark_opt_rel.
  intros h ->. by eapply Hp, in_ptrs.
Qed.

Lemma markheap_rel t ws g : closed g -> (forall x, x ∈ ptrs ws -> P x) -> may (markheap t ws) (fun _ g' => T g g') g.
Proof using All.
  intros Hc Hp. unfold markheap. destruct t as [t|]; [| maybe; apply T_refl].
  destruct (_ =? 0); [maybe; apply T_refl | by apply each_rel].
Qed.

Lemma part_ptrs n k ws x : x ∈ ptrs (take n (drop k ws)) -> x ∈ ptrs ws.
Proof using All.
  intros (v & Hv & Hx)%list_elem_of_omap. apply list_elem_of_omap. exists v. split; [| done].
  apply elem_of_take in Hv as (j & Hv & _). rewrite lookup_drop in Hv. by eapply list_elem_of_lookup_2.
Qed.

Lemma markarray_rel a g : closed g -> (forall x, x ∈ outs (Arr a) -> P x) -> may (markarray a) (fun _ g' => T g g') g.
Proof using All.
  intros Hc Hp. unfold markarray. maybe. eapply may_mono; [apply Setmark_opt_rel; intros h E; apply Hp; rewrite /= E; by left |].
  intros [] g1 T1. pose proof (Tclosed _ _ T1 Hc) as Hc1. destruct (_ =? 0); [by maybe |].
  eapply may_mono; [apply forM_rel; [done |] | intros [] g2 T2; by eapply Ttrans].
  intros i g2 _ Hc2. maybe. unfold elem. maybe.
  assert (may (match root a with
    | None => mret (a_data a)
    | Some r => o ← heap_at r; match obj o with Arr b => mret (a_data b) | _ => fault end
    end) (fun ws g' => g' = g2 /\ forall x, x ∈ ptrs ws -> P x) g2) as Hm.
  { destruct (root a) as [r|] eqn:Er.
    - maybe. maybe. destruct (obj _) as [| | | b |] eqn:Eb; try maybe. split; [done |]. intros x Hx. eapply (Hc2 r); [| done |].
      + apply Hp. rewrite /= Er. by left.
      + rewrite Eb. apply elem_of_app. by right.
    - maybe. split; [done |]. intros x Hx. apply Hp. apply elem_of_app. by right. }
  eapply may_mono; [exact Hm |]. intros ws g3 [-> Hws]. maybe. apply markheap_rel; [done |]. intros x Hx. apply Hws. by eapply part_ptrs.
Qed.

End Marks.

(** ** Marking stays within what is closed *)

Section Tint.
Context (P : Z -> Prop).
#[local] Abbreviation closed := (closed P).

(** Only objects of [P] change their colour. *)
Definition tint (g g' : gc) : Prop := ctl g' = ctl g /\ forall x,
  match objs g !! x, objs g' !! x with
  | Some o, Some o' => obj o' = obj o /\ (color o' = color o \/ (P x /\ color o' = propagator))
  | None, None => True
  | _, _ => False
  end.

Lemma tint_same g g' : ctl g' = ctl g -> objs g' = objs g -> tint g g'.
Proof. intros Ec Eo. split; [done |]. intros x. rewrite Eo. destruct (objs g !! x); [by split; [| left] | done]. Qed.

Lemma tint_trans g1 g2 g3 : tint g1 g2 -> tint g2 g3 -> tint g1 g3.
Proof.
  intros [C1 H1] [C2 H2]. split; [congruence |]. intros x. specialize (H1 x). specialize (H2 x).
  destruct (objs g1 !! x), (objs g2 !! x), (objs g3 !! x); try done. destruct H1 as [E1 [F1 | F1]], H2 as [E2 [F2 | F2]]; (split; [congruence |]); try tauto.
  - left. congruence.
  - right. split; [tauto | destruct F1; congruence].
Qed.

Lemma tint_closed g g' : tint g g' -> closed g -> closed g'.
Proof.
  intros [_ Ht] Hc h o' x HP Ho' Hx. specialize (Ht h). rewrite Ho' in Ht. destruct (objs g !! h) as [o|] eqn:Ho; [| done].
  apply (Hc h o x HP Ho). destruct Ht as [<- _]. done.
Qed.

Lemma tint_grey g h o : objs g !! h = Some o -> P h -> tint g (set_nprop 1 (set_objs (<[h := set_color propagator o]> (objs g)) g)).
Proof.
  intros Ho HP. split; [done |]. intros x. simpl. destruct (decide (x = h)) as [-> | Hne].
  - rewrite lookup_insert_eq Ho. split; [done | by right].
  - rewrite lookup_insert_ne //. destruct (objs g !! x); [by split; [| left] | done].
Qed.

Lemma Setmark_tint h g : P h -> may (Setmark h) (fun _ g' => tint g g') g.
Proof.
  intros HP. unfold Setmark. maybe. maybe. maybe. maybe. destruct (_ =? _); [maybe; by apply tint_same |].
  maybe. maybe. maybe. by apply tint_grey.
Qed.

Lemma Setmark_opt_tint g p : (forall h, p = Some h -> P h) -> may (Setmark_opt p) (fun _ g' => tint g g') g.
Proof. apply (Setmark_opt_rel P tint tint_same tint_trans tint_closed Setmark_tint). Qed.

Lemma forM_tint {A} (xs : list A) f g : closed g -> (forall x g1, x ∈ xs -> closed g1 -> may (f x) (fun _ g' => tint g1 g') g1) ->
  may (forM xs f) (fun _ g' => tint g g') g.
Proof. apply (forM_rel P tint tint_same tint_trans tint_closed Setmark_tint). Qed.

Lemma markheap_tint t ws g : closed g -> (forall x, x ∈ ptrs ws -> P x) -> may (markheap t ws) (fun _ g' => tint g g') g.
Proof. apply (markheap_rel P tint tint_same tint_trans tint_closed Setmark_tint). Qed.

Lemma markarray_tint a g : closed g -> (forall x, x ∈ outs (Arr a) -> P x) -> may (markarray a) (fun _ g' => tint g g') g.
Proof. apply (markarray_rel P tint tint_same tint_trans tint_closed Setmark_tint). Qed.

Lemma marktail_tint n l g : closed g -> (forall x, tail l = Some x -> P x) -> may (marktail n l) (fun _ g' => tint g g') g.
Proof.
  revert l g. induction n as [| n IH]; intros l g Hc Hp; cbn [marktail]; destruct (tail l) as [h|]; try (maybe; by apply tint_same).
  - unfold mod_heap. maybe. maybe. maybe. maybe. maybe. apply tint_grey; [done | by apply Hp].
  - unfold list_at. maybe. maybe. maybe. destruct (obj _) as [| | | | l'] eqn:El; try maybe.
    assert (forall x, x ∈ outs (Lst l') -> P x) as Ho by (intros x Hx; eapply (Hc h); [by apply Hp | done | by rewrite El]).
    maybe. eapply may_mono; [by apply Setmark_tint, Hp |]. intros [] g1 T1. pose proof (tint_closed _ _ T1 Hc) as Hc1.
    maybe. eapply may_mono; [apply markheap_tint; [done |] |]; [intros x Hx; apply Ho, elem_of_app; by right |]. intros [] g2 T2.
    maybe. maybe. pose proof (tint_closed _ _ T2 Hc1) as Hc2. eapply may_mono; [apply IH; [done |] |].
    + intros x Hx. apply Ho. rewrite /= Hx. by left.
    + intros [] g3 T3. eapply tint_trans; [exact T1 |]. eapply tint_trans; [exact T2 |]. eapply tint_trans; [| exact T3]. by apply tint_same.
Qed.

Lemma mark_tint b g : closed g -> (forall x, x ∈ outs b -> P x) -> may (mark b) (fun _ g' => tint g g') g.
Proof.
  intros Hc Hp. destruct b as [| t ws | | a | l]; cbn [mark].
  - maybe. by apply tint_same.
  - by apply markheap_tint.
  - unfold noptrs. maybe. by apply tint_same.
  - by apply markarray_tint.
  - unfold marklist. maybe. eapply may_mono; [apply markheap_tint; [done |] |]; [intros x Hx; apply Hp, elem_of_app; by right |].
    intros [] g1 T1. maybe. maybe. eapply may_mono; [apply marktail_tint; [by eapply tint_closed |] |].
    + intros x Hx. apply Hp. rewrite /= Hx. by left.
    + intros [] g2 T2. by eapply tint_trans.
Qed.

Lemma mark_module_tint ml g : closed g -> P ml -> may (mark_module ml) (fun _ g' => tint g g') g.
Proof.
  intros Hc Hp. unfold mark_module. maybe. eapply may_mono; [by apply Setmark_tint |]. intros [] g1 T1. pose proof (tint_closed _ _ T1 Hc) as Hc1.
  maybe. unfold modlink_MP. maybe. maybe. destruct (obj _) as [| t ws | | |] eqn:Eb; try maybe.
  eapply may_mono; [apply Setmark_opt_tint | intros [] g2 T2; by eapply tint_trans].
  intros h ->. eapply (Hc1 ml); [done | done |]. rewrite Eb. by eapply in_ptrs.
Qed.

Lemma mark_frame_tint tr f g : closed g -> (forall x, x ∈ frame_outs f -> P x) -> may (mark_frame tr f) (fun _ g' => tint g g') g.
Proof.
  intros Hc Hp. unfold mark_frame. maybe. eapply may_mono; [apply markheap_tint; [done |] |]; [intros x Hx; apply Hp, elem_of_app; by left |].
  intros [] g1 T1. destruct (mr f) as [ml|] eqn:Em; [| by maybe].
  eapply may_mono; [apply mark_module_tint; [by eapply tint_closed |] | intros [] g2 T2; by eapply tint_trans].
  apply Hp. by apply frame_outs_mr.
Qed.

Lemma mark_prog_tint p g : closed g -> (forall x, x ∈ prog_outs p -> P x) -> may (mark_prog p) (fun _ g' => tint g g') g.
Proof.
  intros Hc Hp. unfold mark_prog. maybe. eapply may_mono; [apply mark_module_tint; [done | apply Hp; by left] |]. intros [] g1 T1.
  pose proof (tint_closed _ _ T1 Hc) as Hc1. maybe. eapply may_mono; [apply forM_tint; [done |] |].
  - intros sx g2 Hsx Hc2. apply forM_tint; [done |]. intros f g3 Hf Hc3. apply mark_frame_tint; [done |]. intros x Hx. apply Hp. right.
    apply elem_of_app. left. apply list_elem_of_bind. exists sx. split; [| done]. apply list_elem_of_bind. by exists f.
  - intros [] g2 T2. pose proof (tint_trans _ _ _ T1 T2) as T. eapply may_mono; [apply forM_tint; [by eapply tint_closed |] | intros [] g3 T3; by eapply tint_trans].
    intros q g3 Hq _. apply Setmark_opt_tint. intros h ->. apply Hp. right. apply elem_of_app. right. apply list_elem_of_omap. by exists (Some h).
Qed.

(** The roots are marked, and nothing but them. *)
Lemma rootset_tint g : closed g -> (forall x, x ∈ roots g -> P x) ->
  may (rootset (progs g)) (fun _ g' => tint (next_epoch g) g') (set_gccolor (i32 (gccolor g + 1)) g).
Proof.
  intros Hc Hp. unfold rootset. maybe. maybe. match goal with |- may _ _ ?s => change s with (next_epoch g) end.
  assert (closed (next_epoch g)) as Hc0 by done. set (g0 := next_epoch g) in *.
  maybe. eapply may_mono; [apply forM_tint; [done |] |].
  - intros p g1 Hin Hc1. apply mark_prog_tint; [done |]. intros x Hx. apply Hp. apply elem_of_app. left. apply list_elem_of_bind. by exists p.
  - intros [] g1 T1. pose proof (tint_closed _ _ T1 Hc0) as Hc1. maybe. maybe. maybe.
    assert (origmps g1 = origmps g /\ ptrtab g1 = ptrtab g) as [Eo Et] by (destruct T1 as [Ec _]; unfold ctl in Ec; simpl in Ec; split; congruence).
    rewrite Eo. eapply may_mono; [apply forM_tint; [done |] |].
    + intros q g2 Hq _. apply Setmark_opt_tint. intros h ->. apply Hp. unfold roots. rewrite !elem_of_app. right. left.
      apply list_elem_of_omap. by exists (Some h).
    + intros [] g2 T2. pose proof (tint_trans _ _ _ T1 T2) as T. unfold ptrmark. maybe. maybe.
      assert (ptrtab g2 = ptrtab g) as -> by (destruct T2 as [Ec _]; unfold ctl in Ec; congruence).
      eapply may_mono; [apply forM_tint; [by eapply tint_closed |] | intros [] g3 T3; by eapply tint_trans].
      intros b g3 Hb Hc3. apply forM_tint; [done |]. intros h g4 Hh _. apply Setmark_tint. apply Hp. unfold roots. rewrite !elem_of_app.
      right. right. apply list_elem_of_In, in_concat. exists b. by rewrite -!list_elem_of_In.
Qed.
End Tint.

(** ** The walk, while nothing else runs *)

Section Idle.
Context (P : Z -> Prop).

(** Nothing is marked that is not in [P]. *)
Definition known (g : gc) : Prop := forall x o, objs g !! x = Some o -> color o = mutator g \/ color o = propagator -> P x.

Record idles (g g' : gc) : Prop := {
  id_fixed : fixed g' = fixed g;
  id_objs : forall x o', objs g' !! x = Some o' -> exists o, objs g !! x = Some o /\ obj o' = obj o;
  id_known : closed P g -> known g -> known g' /\
    forall x o', objs g' !! x = Some o' -> P x \/ exists o, objs g !! x = Some o /\ color o' = color o;
}.

Lemma idles_closed g g' : idles g g' -> closed P g -> closed P g'.
Proof. intros [_ H _] Hc h o' x HP Ho' Hx. destruct (H h o' Ho') as (o & Ho & Eb). apply (Hc h o x HP Ho). by rewrite -Eb. Qed.

Lemma idles_same g g' : objs g' = objs g -> fixed g' = fixed g -> idles g g'.
Proof.
  intros Eo Ef. destruct (fixed_fields _ _ Ef) as (_ & _ & _ & _ & Em & _). split; [done | |].
  - intros x o'. rewrite Eo. eauto.
  - intros _ Hk. split; [intros x o; rewrite Eo Em; apply Hk | intros x o'; rewrite Eo; right; eauto].
Qed.

Lemma idles_trans g1 g2 g3 : idles g1 g2 -> idles g2 g3 -> idles g1 g3.
Proof.
  intros I1 I2. pose proof I1 as [F1 O1 K1]. pose proof I2 as [F2 O2 K2]. split; [congruence | |].
  - intros x o3 Ho3. destruct (O2 x o3 Ho3) as (o2 & Ho2 & E2). destruct (O1 x o2 Ho2) as (o1 & Ho1 & E1). exists o1. split; congruence.
  - intros Hc Hk. destruct (K1 Hc Hk) as [Hk2 Hc1]. destruct (K2 (idles_closed _ _ I1 Hc) Hk2) as [Hk3 Hc2]. split; [done |].
    intros x o3 Ho3. destruct (Hc2 x o3 Ho3) as [? | (o2 & Ho2 & E2)]; [by left |].
    destruct (Hc1 x o2 Ho2) as [? | (o1 & Ho1 & E1)]; [by left | right]. exists o1. split; congruence.
Qed.

Lemma may_and {A} (m : M A) Q Q' g : may m Q g -> may m Q' g -> may m (fun a g' => Q a g' /\ Q' a g') g.
Proof. intros H1 H2 a g' E. split; [by apply H1 | by apply H2]. Qed.

Lemma may_if {A} (m : M A) (Q : A -> gc -> Prop) (C : Prop) g : (C -> may m Q g) -> may m (fun a g' => C -> Q a g') g.
Proof. intros Hm a g' E HC. by apply Hm. Qed.

(** A grey object is marked. *)
Lemma blacken_idles g p o : objs g !! p = Some o -> color o = propagator ->
  may (set_heap p (set_color (mutator g) o);; mark (obj o)) (fun _ g' => idles g g') g.
Proof.
  intros Ho Hg. maybe. maybe. set (g1 := set_objs _ g).
  assert (forall Q : Z -> Prop, closed Q g -> closed Q g1) as Hcl.
  { intros Q Hc h q x HQ Hq Hx. simpl in Hq. destruct (decide (h = p)) as [-> | Hne]; [rewrite lookup_insert_eq in Hq; injection Hq as <-; by apply (Hc p o) |].
    rewrite lookup_insert_ne // in Hq. by apply (Hc h q). }
  eapply may_mono; [apply may_and; [apply (mark_tint (fun _ => True)); [by apply Hcl | done] |] |].
  - apply (may_if _ (fun _ g' => tint P g1 g') (closed P g /\ known g)). intros [Hc Hk]. apply mark_tint; [by apply Hcl |].
    intros x Hx. apply (Hc p o); [apply (Hk p o); auto | done | done].
  - intros [] g2 [[Ec T] Tp].
    assert (forall x o2, objs g2 !! x = Some o2 -> exists o1, objs g1 !! x = Some o1 /\ obj o2 = obj o1) as Hsub.
    { intros x o2 Ho2. specialize (T x). rewrite Ho2 in T. destruct (objs g1 !! x) as [o1|]; [| done]. exists o1. by destruct T. }
    assert (mutator g2 = mutator g) as Em by (unfold ctl in Ec; simpl in Ec; congruence).
    split; [unfold ctl in Ec; simpl in Ec; unfold fixed; congruence | |].
    + intros x o2 Ho2. destruct (Hsub x o2 Ho2) as (o1 & Ho1 & Eb). simpl in Ho1. destruct (decide (x = p)) as [-> | Hne].
      * rewrite lookup_insert_eq in Ho1. injection Ho1 as <-. exists o. done.
      * rewrite lookup_insert_ne // in Ho1. eauto.
    + intros Hc Hk. destruct (Tp (conj Hc Hk)) as [_ T']. assert (P p) as HPp by (apply (Hk p o); auto).
      assert (forall x o2, objs g2 !! x = Some o2 -> P x \/ exists q, objs g !! x = Some q /\ color o2 = color q) as Hcol.
      { intros x o2 Ho2. specialize (T' x). rewrite Ho2 in T'. destruct (objs g1 !! x) as [o1|] eqn:Ho1; [| done].
        destruct T' as [_ [E1 | [HP _]]]; [| by left]. simpl in Ho1. destruct (decide (x = p)) as [-> | Hne]; [by left |].
        rewrite lookup_insert_ne // in Ho1. right. exists o1. split; [done | congruence]. }
      split.
      * intros x o2 Ho2 Hm. rewrite Em in Hm. destruct (Hcol x o2 Ho2) as [HP | (q & Hq & Eq)]; [done |]. apply (Hk x q Hq). by rewrite -Eq.
      * exact Hcol.
Qed.

Context `{HeapPool}.

Lemma tfree_swept b g : tfree destroy b true g = Ret tt g.
Proof. by destruct b. Qed.

Lemma swept_idles g p o :
  may (match obj o with Raw => mret tt | b => gclock;; tfree destroy b true;; gcunlock end;; poolfree p) (fun _ g' => idles g g') g.
Proof.
  assert (may (match obj o with Raw => mret tt | b => gclock;; tfree destroy b true;; gcunlock end) (fun _ g' => objs g' = objs g /\ fixed g' = fixed g) g) as Hb.
  { assert (forall b, may (gclock;; tfree destroy b true;; gcunlock) (fun _ g' => objs g' = objs g /\ fixed g' = fixed g) g) as Hb.
    { intros b. unfold gclock, gcunlock. maybe. maybe. maybe. intros [] g1 E1. rewrite tfree_swept in E1. injection E1 as <-. maybe.
      split; [done |]. unfold fixed. simpl. do 2 f_equal. lia. }
    destruct (obj o); try apply Hb. by maybe. }
  maybe. eapply may_mono; [exact Hb |]. intros [] g1 [Eo Ef]. unfold poolfree. maybe. maybe. maybe. maybe. maybe.
  assert (forall x q, delete p (objs g1) !! x = Some q -> objs g !! x = Some q) as Hd.
  { intros x q Hq. rewrite -Eo. by apply lookup_delete_Some in Hq as [_ ?]. }
  destruct (fixed_fields _ _ Ef) as (_ & _ & _ & _ & Em & _). split.
  - exact Ef.
  - intros x q Hq. exists q. split; [by apply Hd | done].
  - intros _ Hk. split; [intros x q Hq Hm; apply (Hk x q); [by apply Hd | simpl in Hm; by rewrite Em in Hm] |].
    intros x q Hq. right. exists q. split; [by apply Hd | done].
Qed.

Lemma advance_idles n g : may (advance n) (fun _ g' => idles g g') g.
Proof.
  unfold advance, walk_from. maybe. maybe. maybe. maybe. maybe. maybe. destruct (_ <=? _); [| maybe; by apply idles_same].
  maybe. maybe. maybe. maybe. maybe. maybe. destruct (next_arena _ _); [| maybe; by apply idles_same].
  maybe. maybe. maybe. maybe. maybe. by apply idles_same.
Qed.

Lemma visit_idles p m g : may (visit_block p m) (fun _ g' => idles g g') g.
Proof.
  unfold visit_block. destruct (m =? Pool.MAGIC_A); [| maybe; by apply idles_same]. maybe. apply may_heap_at. intros o Ho. maybe. maybe. maybe. maybe.
  destruct (Z.eqb_spec (color o) propagator) as [Eg | Eg].
  - apply may_seq. eapply may_mono; [by apply blacken_idles |]. intros [] g2 I2. by maybe.
  - destruct (_ =? sweeper g); [| maybe; by apply idles_same]. apply may_seq. eapply may_mono; [apply swept_idles |]. intros [] g2 I2. by maybe.
Qed.

Lemma sweep_idles fuel prev g : may (sweep fuel prev) (fun _ g' => idles g g') g.
Proof.
  revert prev g. induction fuel as [| fuel IH]; intros prev g; cbn [sweep]; [maybe; by apply idles_same |].
  maybe. maybe. destruct (_ <=? 0); [maybe; by apply idles_same |]. maybe. maybe. maybe. maybe. maybe. apply may_from. intros [n m] _. cbv iota. maybe.
  eapply may_mono; [apply visit_idles |]. intros [] g1 I1.
  - maybe. maybe. destruct (_ ≫= _) as [pv|]; [| maybe; maybe; maybe; eapply idles_trans; [exact I1 | by apply idles_same]].
    maybe. maybe. maybe. maybe. eapply may_mono; [apply IH |]. intros ok g2 I2. eapply idles_trans; [exact I1 |]. eapply idles_trans; [| exact I2]. by apply idles_same.
  - maybe. eapply may_mono; [apply advance_idles |]. intros [] g2 I2. pose proof (idles_trans _ _ _ I1 I2) as I12. maybe. maybe.
    destruct (base g2); [| by maybe]. maybe. maybe. eapply may_mono; [apply IH |]. intros ok g3 I3. eapply idles_trans; [exact I12 |].
    eapply idles_trans; [| exact I3]. by apply idles_same.
Qed.

(** ** Epochs, while nothing else runs *)

(** After so many epochs: nothing outside [P] is marked; it is of the colour
    that is swept; it is gone. *)
Definition phase (k : nat) (g : gc) : Prop :=
  match k with
  | 0 => True
  | 1 => known g
  | 2 => known g /\ forall x o, objs g !! x = Some o -> P x \/ color o = sweeper g
  | _ => forall x, is_Some (objs g !! x) -> P x
  end%nat.

Lemma phase_idles k g g' : closed P g -> idles g g' -> phase k g -> phase k g'.
Proof.
  intros Hc [F O K]. destruct (fixed_fields _ _ F) as (_ & _ & _ & Es & _). destruct k as [| [| [| k]]]; simpl; [done | | |].
  - intros Hk. by apply K.
  - intros [Hk Hs]. destruct (K Hc Hk) as [Hk' Hcol]. split; [done |]. intros x o' Ho'. rewrite Es.
    destruct (Hcol x o' Ho') as [? | (o & Ho & ->)]; [by left | by eapply Hs].
  - intros Ha x [o' Ho']. destruct (O x o' Ho') as (o & Ho & _). by apply Ha; eexists.
Qed.

(** The next epoch is the next phase. *)
Lemma phase_epoch k g g' : Inv ∅ [] None g -> settled g -> tint P (next_epoch g) g' -> phase k g -> phase (S k) g'.
Proof.
  intros I [_ Hset] [Ec T] Hk. destruct (i_colors _ _ _ _ I) as (C1 & C2 & C3 & C4 & C5).
  destruct (colors_apart _ C1) as (A1 & A2 & A3 & A4 & A5 & A6 & A7). set (c' := i32 (gccolor g + 1)) in *.
  assert (forall x o, objs g !! x = Some o -> color o = mutator g \/ color o = Z.rem (i32 (gccolor g - 1)) 3) as Hcol.
  { intros x o Ho. destruct (Hset x o Ho) as [S1 S2]. destruct C5 as [(E1 & E2 & Hx) | Hx]; destruct (Hx x o Ho) as [? | ?]; try tauto. rewrite -E1. tauto. }
  assert (mutator g' = Z.rem c' 3 /\ sweeper g' = Z.rem (i32 (gccolor g - 1)) 3) as [Em Es].
  { unfold ctl in Ec. simpl in Ec. rewrite -/c' A3 in Ec. split; congruence. }
  assert (forall x o', objs g' !! x = Some o' -> exists o, objs g !! x = Some o /\ (color o' = color o \/ P x)) as Hold.
  { intros x o' Ho'. specialize (T x). rewrite Ho' in T. simpl in T. destruct (objs g !! x) as [o|]; [| done]. exists o. split; [done |]. tauto. }
  assert (known g') as Hkn.
  { intros x o' Ho' Hm. destruct (Hold x o' Ho') as (o & Ho & [Eo | ?]); [| done]. exfalso. rewrite Em Eo in Hm. destruct (Hset x o Ho) as [S1 _].
    destruct Hm as [Hm | Hm]; [destruct (Hcol x o Ho); congruence | done]. }
  destruct k as [| [| k]]; simpl.
  - done.
  - simpl in Hk. split; [done |]. intros x o' Ho'. destruct (Hold x o' Ho') as (o & Ho & [Eo | ?]); [| by left].
    destruct (Hcol x o Ho) as [Hm | Hm]; [left; apply (Hk x o Ho); by left | right; congruence].
  - intros x [o' Ho']. destruct (Hold x o' Ho') as (o & Ho & _). destruct k as [| k].
    + destruct Hk as [_ Hk]. destruct (Hk x o Ho) as [? | Hs]; [done |]. by destruct (Hset x o Ho).
    + apply Hk. by eexists.
Qed.

Lemma rungc_phase k g : Inv ∅ [] None g -> roots_marked g -> heapmem g <> [] -> resumable g -> closed P g -> (forall x, x ∈ roots g -> P x) -> phase k g ->
  runs rungc (fun _ g' => (gccolor g' = gccolor g /\ phase k g') \/ (gccolor g' = i32 (gccolor g + 1) /\ phase (S k) g')) g.
Proof.
  intros I Hr Hne Hres Hc Hro Hk. eapply runs_ends; [apply (rungc_cases idles); try done |].
  - apply idles_trans.
  - apply idles_same.
  - intros fuel prev g1 ok g2 Es. by apply (sweep_idles fuel prev g1 ok g2).
  - intros [] g' [[_ _ _ _ Hi] | (g3 & [I3 _ _ _ Hi] & Hset & _ & _ & _ & Ero)].
    + left. pose proof (phase_idles k _ _ Hc Hi Hk) as Hk'. destruct Hi as [F _ _]. unfold fixed in F. split; [congruence | done].
    + right. pose proof (phase_idles k _ _ Hc Hi Hk) as Hk3. pose proof (idles_closed _ _ Hi Hc) as Hc3.
      destruct Hi as [F _ _]. destruct (fixed_fields _ _ F) as (_ & _ & _ & _ & _ & _ & Er). assert (gccolor g3 = gccolor g) as Egc by (unfold fixed in F; congruence).
      pose proof (rootset_tint P g3 Hc3 ltac:(intros x; rewrite Er; apply Hro) tt g' Ero) as T.
      pose proof (phase_epoch k g3 g' I3 Hset T Hk3) as Hk'. destruct T as [Ec _]. unfold ctl in Ec. simpl in Ec. split; [congruence | done].
Qed.
End Idle.
