(* ===== verification/GcDone.v ===== *)
(** * The garbage collector: that it comes to an end

    An epoch ends after so many slices: each of them frees an object, or leaves
    less to mark, or gets on with its pass.  For a list what is left to mark is
    measured by the length of the list, for a cell that is too far to be marked
    from the one before is made grey even if it was black. *)

From Stdlib Require Import Relation_Operators Lexicographic_Product.
From S2P Require Import Prelude Heap Pool PoolArena Gc GcPool GcInv GcToy GcRun GcFree GcMark GcSweep GcOps GcCalls GcSafe GcIdle.
Import Gc.

#[local] Open Scope Z_scope.

(** ** What is left to mark *)

Section Sums.

Lemma msum_mono f f' m m' : same_objs m m' ->
  (forall h o o', m !! h = Some o -> m' !! h = Some o' -> (f' h o' <= f h o)%nat) -> (msum f' m' <= msum f m)%nat.
Proof.
  intros Hs Hf. pose (f2 := fun h (o : Heap) => match m' !! h with Some o' => f' h o' | None => 0%nat end).
  transitivity (msum f2 m).
  - apply Nat.eq_le_incl. apply msum_same; [done |]. intros h o o' _ Ho' _. unfold f2. by rewrite Ho'.
  - apply msum_le. intros h o Ho. unfold f2. destruct (same_objs_l _ _ _ _ Hs Ho) as (o' & Ho' & _). rewrite Ho'. by apply Hf.
Qed.

Lemma same_objs_size m m' : same_objs m m' -> base.size m' = base.size m.
Proof.
  intros Hs. assert (dom m' = dom m) as E.
  { apply set_eq. intros x. rewrite !elem_of_dom. specialize (Hs x). split; intros [o Ho]; rewrite Ho in Hs; [destruct (m !! x) | destruct (m' !! x)]; by eauto. }
  by rewrite -!size_dom E.
Qed.

Lemma same_objs_refl m : same_objs m m.
Proof. intros x. by destruct (m !! x). Qed.
End Sums.

Section Ease.
Context (P : Z -> Prop) (rk : Z -> nat).

(** The cells of a list in order. *)
Definition ranked (g : gc) : Prop := forall h o l t, P h -> objs g !! h = Some o -> obj o = Lst l -> tail l = Some t -> (rk t < rk h)%nat.

Definition heft (m x : Z) (o : Heap) : nat :=
  if color o =? m then 0%nat else if color o =? propagator then S (rk x) else S (S (rk x)).
Definition left_to_mark (g : gc) : nat := msum (heft (mutator g)) (objs g).

Definition eased (g g' : gc) : Prop := ctl g' = ctl g /\ same_objs (objs g) (objs g') /\
  forall x o o', objs g !! x = Some o -> objs g' !! x = Some o' -> (heft (mutator g) x o' <= heft (mutator g) x o)%nat.

Lemma ctl_mutator g g' : ctl g' = ctl g -> mutator g' = mutator g.
Proof. unfold ctl. congruence. Qed.

Lemma eased_same g g' : ctl g' = ctl g -> objs g' = objs g -> eased g g'.
Proof. intros Ec Eo. split; [done |]. rewrite Eo. split; [apply same_objs_refl |]. intros x o o' Ho Ho'. by assert (o' = o) as -> by congruence. Qed.

Lemma eased_trans g1 g2 g3 : eased g1 g2 -> eased g2 g3 -> eased g1 g3.
Proof.
  intros (C1 & S1 & H1) (C2 & S2 & H2). rewrite (ctl_mutator _ _ C1) in H2. split; [congruence |]. split; [by apply (same_objs_trans _ (objs g2)) |].
  intros x o o' Ho Ho'. destruct (same_objs_l _ _ _ _ S1 Ho) as (o2 & Ho2 & _). transitivity (heft (mutator g1) x o2); eauto.
Qed.

Lemma same_closed g g' : same_objs (objs g) (objs g') -> closed P g -> closed P g'.
Proof. intros Hs Hc h o' x HP Ho' Hx. destruct (same_objs_r _ _ _ _ Hs Ho') as (o & Ho & Eb). apply (Hc h o x HP Ho). by rewrite -Eb. Qed.

Lemma same_ranked g g' : same_objs (objs g) (objs g') -> ranked g -> ranked g'.
Proof. intros Hs Hr h o' l t HP Ho' El. destruct (same_objs_r _ _ _ _ Hs Ho') as (o & Ho & Eb). apply (Hr h o l t HP Ho). by rewrite -Eb. Qed.

Lemma eased_closed g g' : eased g g' -> closed P g -> closed P g'.
Proof. intros (_ & Hs & _). by apply same_closed. Qed.

Lemma eased_left g g' : eased g g' -> (left_to_mark g' <= left_to_mark g)%nat.
Proof. intros (Ec & Hs & Hh). unfold left_to_mark. rewrite (ctl_mutator _ _ Ec). by apply msum_mono. Qed.

Lemma Setmark_eased h g : P h -> may (Setmark h) (fun _ g' => eased g g') g.
Proof.
  intros _. unfold Setmark. maybe. apply may_heap_at. intros a Ha. maybe. maybe. destruct (Z.eqb_spec (color a) (mutator g)) as [E | E]; [maybe; by apply eased_same |].
  maybe. maybe. maybe. split; [done |]. split; [by apply (same_objs_insert _ h a) |]. simpl. intros x o o' Ho Ho'. destruct (decide (x = h)) as [-> | Hne].
  - rewrite lookup_insert_eq in Ho'. injection Ho' as <-. assert (o = a) as -> by congruence. unfold heft, set_color. cbn [color].
    destruct (Z.eqb_spec (color a) (mutator g)); [done |]. destruct (propagator =? mutator g); [apply Nat.le_0_l |]. rewrite Z.eqb_refl. destruct (_ =? _); lia.
  - rewrite lookup_insert_ne // in Ho'. by assert (o' = o) as -> by congruence.
Qed.

(** The cell [t] is made grey. *)
Definition forced (t : Z) (g g' : gc) : Prop :=
  exists g1 o, eased g g1 /\ objs g1 !! t = Some o /\ g' = set_nprop 1 (set_objs (<[t := set_color propagator o]> (objs g1)) g1).

Lemma forced_left t g g' : forced t g g' -> ctl g' = ctl g /\ same_objs (objs g) (objs g') /\ (left_to_mark g' <= S (rk t) + left_to_mark g)%nat.
Proof.
  intros (g1 & o & E & Ho & ->). pose proof (eased_left _ _ E) as Hl. destruct E as (Ec & Hs & _). split; [done |]. split.
  - apply (same_objs_trans _ (objs g1)); [done |]. by apply (same_objs_insert _ t o).
  - unfold left_to_mark in *. simpl. pose proof (msum_update (heft (mutator g1)) (objs g1) t o (set_color propagator o) Ho) as E.
    assert (heft (mutator g1) t (set_color propagator o) <= S (rk t))%nat; [| lia].
    unfold heft, set_color. cbn [color]. destruct (_ =? _); [lia |]. rewrite Z.eqb_refl. lia.
Qed.

Lemma eased_forced t g1 g2 g3 : eased g1 g2 -> forced t g2 g3 -> forced t g1 g3.
Proof. intros E (g & o & E2 & Ho & ->). exists g, o. split; [by apply (eased_trans _ g2) | done]. Qed.

Lemma marktail_left n l g r : closed P g -> ranked g -> (forall t, tail l = Some t -> P t /\ (rk t < r)%nat) ->
  may (marktail n l) (fun _ g' => eased g g' \/ exists t, (rk t < r)%nat /\ forced t g g') g.
Proof.
  revert l g r. induction n as [| n IH]; intros l g r Hc Hr Hp; cbn [marktail]; destruct (tail l) as [h|]; try (maybe; left; by apply eased_same).
  - unfold mod_heap. maybe. maybe. apply may_heap_at. intros a Ha. maybe. maybe. right. exists h. split; [by apply Hp |]. exists g, a. split; [by apply eased_same | done].
  - destruct (Hp h eq_refl) as [HPh Hrh]. unfold list_at. maybe. maybe. apply may_heap_at. intros a Ha. destruct (obj a) as [| | | | l'] eqn:El; try maybe.
    assert (forall x, x ∈ outs (Lst l') -> P x) as Ho by (intros x Hx; eapply (Hc h); [done | done | by rewrite El]).
    maybe. eapply may_mono; [by apply Setmark_eased |]. intros [] g1 T1. pose proof (eased_closed _ _ T1 Hc) as Hc1.
    maybe. eapply may_mono; [apply (markheap_rel P eased eased_same eased_trans eased_closed Setmark_eased); [done |] |].
    { intros x Hx. apply Ho, elem_of_app. by right. }
    intros [] g2 T2. maybe. maybe. pose proof (eased_closed _ _ T2 Hc1) as Hc2. pose proof (eased_trans _ _ _ T1 T2) as T12.
    eapply may_mono; [apply (IH l' _ (rk h)); [done | |] |].
    + by apply (same_ranked g); [apply T12 |].
    + intros t Ht. split; [apply Ho; rewrite /= Ht; by left | by apply (Hr h a l' t)].
    + set (g3 := set_visit _ g2). assert (eased g g3) as T3 by (apply (eased_trans _ g2); [done | by apply eased_same]).
      intros [] g4 [T4 | (t & Ht & F)]; [left; by apply (eased_trans _ g3) | right]. exists t. split; [lia | by apply (eased_forced _ _ g3)].
Qed.

Lemma mark_left b g r : closed P g -> ranked g -> (forall x, x ∈ outs b -> P x) -> (forall l t, b = Lst l -> tail l = Some t -> (rk t < r)%nat) ->
  may (mark b) (fun _ g' => ctl g' = ctl g /\ same_objs (objs g) (objs g') /\ (left_to_mark g' <= r + left_to_mark g)%nat) g.
Proof.
  intros Hc Hr Hp Hl. eapply (may_mono _ (fun _ g' => eased g g' \/ exists t, (rk t < r)%nat /\ forced t g g')).
  - destruct b as [| t ws | | a | l]; cbn [mark].
    + maybe. left. by apply eased_same.
    + eapply may_mono; [by apply (markheap_rel P eased eased_same eased_trans eased_closed Setmark_eased) | intros; by left].
    + unfold noptrs. maybe. left. by apply eased_same.
    + eapply may_mono; [by apply (markarray_rel P eased eased_same eased_trans eased_closed Setmark_eased) | intros; by left].
    + unfold marklist. maybe. eapply may_mono; [apply (markheap_rel P eased eased_same eased_trans eased_closed Setmark_eased); [done |] |].
      { intros x Hx. apply Hp, elem_of_app. by right. }
      intros [] g1 T1. maybe. maybe. eapply may_mono; [apply (marktail_left _ l _ r); [by eapply eased_closed | |] |].
      * by apply (same_ranked g); [apply T1 |].
      * intros t Ht. split; [apply Hp; rewrite /= Ht; by left | by apply (Hl l)].
      * intros [] g2 [T2 | (t & Ht & F)]; [left; by apply (eased_trans _ g1) | right]. exists t. split; [done | by apply (eased_forced _ _ g1)].
  - intros [] g' [T | (t & Ht & F)]; [pose proof (eased_left _ _ T); split_and!; [apply T | apply T | lia] |].
    apply forced_left in F as (F1 & F2 & F3). split_and!; [done | done | lia].
Qed.

(** To blacken an object and mark what it refers to leaves less to mark. *)
Lemma blacken_left g p o : closed P g -> ranked g -> P p -> objs g !! p = Some o -> color o = propagator -> mutator g <> propagator ->
  may (set_heap p (set_color (mutator g) o);; mark (obj o))
    (fun _ g' => ctl g' = ctl g /\ same_objs (objs g) (objs g') /\ (left_to_mark g' < left_to_mark g)%nat) g.
Proof.
  intros Hc Hr Hp Ho Hg Hm. maybe. maybe. set (g1 := set_objs _ g).
  assert (same_objs (objs g) (objs g1)) as Hs1 by (by apply (same_objs_insert _ p o)).
  eapply may_mono; [apply (mark_left (obj o) g1 (rk p)) |].
  - by apply (same_closed g).
  - by apply (same_ranked g).
  - intros x Hx. by apply (Hc p o x).
  - intros l t El Et. by apply (Hr p o l t).
  - intros [] g' (C & Hs & Hl). split; [done |]. split; [by apply (same_objs_trans _ (objs g1)) |].
    pose proof (msum_update (heft (mutator g)) (objs g) p o (set_color (mutator g) o) Ho) as E. unfold left_to_mark in *. simpl in Hl.
    assert (heft (mutator g) p (set_color (mutator g) o) = 0%nat) as E1 by (unfold heft, set_color; cbn [color]; by rewrite Z.eqb_refl).
    assert (heft (mutator g) p o = S (rk p)) as E2.
    { unfold heft. rewrite Hg Z.eqb_refl. by destruct (Z.eqb_spec propagator (mutator g)). }
    change (mutator g1) with (mutator g) in Hl. change (objs g1) with (<[p := set_color (mutator g) o]> (objs g)) in Hl. lia.
Qed.
End Ease.

(** ** What is left of the pass *)

(** In bytes: of all arenas; of those from [b] on, [b] from [p] on. *)
Fixpoint whole (ars : list arena) : Z := match ars with [] => 0 | ar :: ars => ceiling ar - ar.1 + whole ars end.
Fixpoint rest_of (ars : list arena) (b p : Z) : Z :=
  match ars with [] => 0 | ar :: ars => if ar.1 =? b then ceiling ar - p + whole ars else rest_of ars b p end.

Definition distance (g : gc) : Z :=
  match base g with
  | None => whole (heapmem g) + 1
  | Some b => if header (heapmem g) (ptr_ g) is Some _ then rest_of (heapmem g) b (ptr_ g) else whole (heapmem g) + 2
  end.

Section Pass.

Lemma whole_app as1 as2 : whole (as1 ++ as2) = whole as1 + whole as2.
Proof. induction as1 as [| ar as1 IH]; simpl; lia. Qed.

Lemma whole_pos ars : sized ars -> 0 <= whole ars.
Proof.
  induction ars as [| ar ars IH]; simpl; [done |]. intros [H1 H2]%Forall_cons. pose proof (total_pos _ H1). specialize (IH H2).
  unfold ceiling, floor. lia.
Qed.

Lemma rest_of_app as1 b bs as2 p : sized (as1 ++ (b, bs) :: as2) -> apart (as1 ++ (b, bs) :: as2) ->
  rest_of (as1 ++ (b, bs) :: as2) b p = ceiling (b, bs) - p + whole as2.
Proof.
  intros Hs Ha. pose proof (apart_nodup _ Hs Ha) as Hn. clear Hs Ha. induction as1 as [| ar as1 IH]; simpl; [by rewrite Z.eqb_refl |].
  apply NoDup_cons in Hn as [Hn Hn']. destruct (Z.eqb_spec ar.1 b) as [E | E]; [| by apply IH]. destruct Hn.
  apply list_elem_of_fmap. exists (b, bs). split; [done |]. apply elem_of_app. right. by left.
Qed.

Lemma advance_near g b n m : Inv ∅ [] None g -> base g = Some b -> header (heapmem g) (ptr_ g) = Some (n, m) ->
  may (advance n) (fun _ g' => objs g' = objs g /\ nprop g' = nprop g /\ mutator g' = mutator g /\ heapmem g' = heapmem g /\
    forall b', base g' = Some b' -> rest_of (heapmem g) b' (ptr_ g') < rest_of (heapmem g) b (ptr_ g)) g.
Proof.
  intros I Hb Hh. pose proof (i_pool _ _ _ _ I) as [Hs Ha _ _]. pose proof (i_walk _ _ _ _ I) as Hw. unfold walk_ok in Hw. rewrite Hb in Hw.
  destruct Hw as ((bs & Hin & Hl & Hr) & _ & _). destruct (header_next _ _ _ _ _ _ Hs Ha Hin Hr Hh) as (N1 & N2 & _ & _).
  apply list_elem_of_split in Hin as (as1 & as2 & Eh). rewrite Eh in Hs, Ha.
  unfold advance. maybe. maybe. maybe. maybe. maybe. maybe. simpl. destruct (Z.leb_spec (limit g) (ptr_ g + n)) as [L | L].
  - maybe. maybe. maybe. simpl. rewrite Hb. apply may_from. intros b1 [= <-]. maybe. maybe. simpl. rewrite Eh next_arena_app //.
    destruct as2 as [| [b' bs'] as2]; cbn [head fmap option_fmap option_map fst]; [maybe; by split_and! |].
    unfold walk_from. maybe. maybe. maybe. maybe. maybe. simpl. split_and!; try done. intros b'' [= <-]. rewrite (rest_of_app as1) //.
    pose proof (rest_of_app (as1 ++ [(b, bs)]) b' bs' as2 b') as E2. rewrite -!app_assoc in E2. rewrite E2 //. simpl. lia.
  - maybe. split_and!; try done. simpl. rewrite Hb. intros b' [= <-]. rewrite Eh !rest_of_app //. lia.
Qed.

Context (P : Z -> Prop) (rk : Z -> nat) `{HeapPool}.

(** Less of the heap, or less to mark. *)
Definition less (g g' : gc) : Prop :=
  (base.size (objs g') < base.size (objs g))%nat \/
  (base.size (objs g') = base.size (objs g) /\ (left_to_mark rk g' < left_to_mark rk g)%nat).
Definition still (g g' : gc) : Prop := objs g' = objs g /\ nprop g' = nprop g /\ mutator g' = mutator g /\ heapmem g' = heapmem g.

Lemma less_trans g1 g2 g3 : less g1 g2 -> less g2 g3 -> less g1 g3.
Proof. unfold less. lia. Qed.

Lemma still_left g g' : still g g' -> base.size (objs g') = base.size (objs g) /\ left_to_mark rk g' = left_to_mark rk g.
Proof. intros (Eo & _ & Em & _). unfold left_to_mark. by rewrite Eo Em. Qed.

Lemma still_less g1 g2 g3 : still g1 g2 -> less g2 g3 -> less g1 g3.
Proof. intros [E1 E2]%still_left. unfold less. by rewrite E1 E2. Qed.

Lemma less_still g1 g2 g3 : less g1 g2 -> still g2 g3 -> less g1 g3.
Proof. intros Hl [E1 E2]%still_left. unfold less in *. by rewrite E1 E2. Qed.

Lemma swept_less g p o : objs g !! p = Some o ->
  may (match obj o with Raw => mret tt | b => gclock;; tfree destroy b true;; gcunlock end;; poolfree p) (fun _ g' => less g g') g.
Proof.
  intros Ho. assert (may (match obj o with Raw => mret tt | b => gclock;; tfree destroy b true;; gcunlock end) (fun _ g' => objs g' = objs g) g) as Hb.
  { assert (forall b, may (gclock;; tfree destroy b true;; gcunlock) (fun _ g' => objs g' = objs g) g) as Hb.
    { intros b. unfold gclock, gcunlock. maybe. maybe. maybe. intros [] g1 E1. rewrite tfree_swept in E1. injection E1 as <-. by maybe. }
    destruct (obj o); try apply Hb. by maybe. }
  maybe. eapply may_mono; [exact Hb |]. intros [] g1 Eo. unfold poolfree. maybe. maybe. maybe. maybe. maybe. left. cbn [objs set_heapmem set_objs set_stale]. rewrite Eo.
  assert (base.size (delete p (objs g)) = pred (base.size (objs g))) as -> by (apply map_size_delete_Some; by eexists). pose proof (map_size_ne_0_lookup_2 (objs g) p ltac:(by eexists)). lia.
Qed.

Lemma visit_less g p m : closed P g -> known P g -> ranked P rk g -> mutator g <> propagator ->
  may (visit_block p m) (fun swept g' => less g g' \/ (swept = false /\ still g g')) g.
Proof.
  intros Hc Hk Hr Hm. unfold visit_block. destruct (m =? Pool.MAGIC_A); [| maybe; by right]. maybe. apply may_heap_at. intros o Ho. maybe. maybe. maybe. maybe.
  destruct (Z.eqb_spec (color o) propagator) as [Eg | Eg].
  - apply may_seq. eapply may_mono; [apply (blacken_left P rk); try done; apply (Hk p o Ho); by right |].
    intros [] g2 (_ & Hs & Hl). maybe. left. right. split; [by apply same_objs_size | done].
  - destruct (_ =? sweeper g); [| maybe; by right]. apply may_seq. eapply may_mono; [by apply swept_less |]. intros [] g2 L. maybe. by left.
Qed.

Lemma ends_may {A} (m : M A) Q R g : ends m Q R g -> may m Q g.
Proof. unfold ends, may. intros He a g' E. by rewrite E in He. Qed.

Lemma idles_known g g' : idles P g g' -> closed P g -> known P g -> closed P g' /\ known P g'.
Proof. intros Hi Hc Hk. split; [by apply (idles_closed P g) | by apply Hi]. Qed.

Lemma idles_ranked g g' : idles P g g' -> ranked P rk g -> ranked P rk g'.
Proof. intros [_ Ho _] Hr h o' l t HP Ho' El. destruct (Ho h o' Ho') as (o & Hq & Eb). apply (Hr h o l t HP Hq). by rewrite -Eb. Qed.

Lemma inv_mutator D E X g : Inv D E X g -> mutator g <> propagator.
Proof. intros I. destruct (grey_not_swept g (i_colors _ _ _ _ I)) as [_ ?]. congruence. Qed.

(** The pass goes on, or there is less left. *)
Lemma sweep_onward fuel prev g b : Inv ∅ [] None g -> roots_marked g -> base g = Some b -> header (heapmem g) (ptr_ g) <> None -> behind g prev b ->
  closed P g -> known P g -> ranked P rk g ->
  may (sweep fuel prev) (fun ok g' => less g g' \/ (ok = true /\ still g g' /\ forall b', base g' = Some b' ->
    header (heapmem g') (ptr_ g') <> None /\ rest_of (heapmem g) b' (ptr_ g') <= rest_of (heapmem g) b (ptr_ g) /\
    ((0 < fuel)%nat -> 0 < visit g -> rest_of (heapmem g) b' (ptr_ g') < rest_of (heapmem g) b (ptr_ g)))) g.
Proof.
  revert prev g b. induction fuel as [| fuel IH]; intros prev g b I Hr Hb Hh Hpv Hc Hk Hra; cbn [sweep].
  { maybe. right. split_and!; try done. intros b' E. assert (b' = b) as -> by congruence. split_and!; [done | done | lia]. }
  maybe. maybe. destruct (Z.leb_spec (visit g) 0) as [Lv | Lv].
  { maybe. right. split_and!; try done. intros b' E. assert (b' = b) as -> by congruence. split_and!; [done | done | lia]. }
  maybe. maybe. maybe. maybe. maybe. destruct (header (heapmem g) (ptr_ g)) as [[n m]|] eqn:Eh; [| done].
  rewrite (words_block _ _ _ Eh). apply may_from. intros [n' m'] [= <- <-]. cbv iota. maybe.
  eapply may_mono.
  { apply may_and; [apply (ends_may _ _ _ _ (visit_ok g (ptr_ g) n m I Hr Eh)) |]. apply may_and; [apply (visit_idles P) |]. apply visit_less; try done. by eapply inv_mutator. }
  intros swept g1 ((I1 & R1 & C1 & E1 & E2 & E3 & Hsw) & Hi1 & Hl1). rewrite Hb in E1.
  destruct (idles_known _ _ Hi1 Hc Hk) as [Hc1 Hk1]. pose proof (idles_ranked _ _ Hi1 Hra) as Hra1. destruct swept.
  - destruct Hl1 as [Hl1 | [? _]]; [| done]. destruct Hsw as [Hm Hst].
    maybe. maybe. destruct (pv ← prev; if okbhdr g1 pv then Some pv else None) as [pv|] eqn:Epv.
    + destruct prev as [pv'|]; [| done]. simpl in Epv. destruct (okbhdr g1 pv') eqn:Eok; [| done]. injection Epv as ->.
      destruct (header (heapmem g1) pv) as [hd|] eqn:Ehp; [| by rewrite (okbhdr_gone g1 pv Ehp (Hst pv (proj1 (Hpv pv eq_refl)))) in Eok].
      assert (b <= pv <= ptr_ g1) as Hpv'.
      { destruct (Hpv pv eq_refl) as [_ [Hpb | Hpb]]; [| by rewrite E2]. exfalso.
        pose proof (i_walk _ _ _ _ I) as Hw. unfold walk_ok in Hw. rewrite Hb in Hw. destruct Hw as ((bs & Hin & _) & _).
        rewrite (header_leader _ (ptr_ g) bs) in Eh; [injection Eh as _ <-; done | by rewrite Hpb]. }
      pose proof (inv_back _ _ _ I1 E1 Hpv') as I2. maybe. maybe. set (g2 := set_walk _ _ _ g1) in *. maybe. maybe.
      eapply may_mono; [apply (IH (Some pv) (set_visit (visit g2 - 1) g2) b) |]; try done.
      * by apply inv_visit.
      * simpl. by rewrite Ehp.
      * intros ? [= <-]. simpl. rewrite Ehp. split; [done | right; lia].
      * intros ok g3 [L | (_ & S3 & _)]; left; [by apply (less_trans _ g1) | by apply (less_still _ g1)].
    + maybe. maybe. maybe. by left.
  - destruct Hsw as [Em Hseen]. maybe. rewrite -E2 -Em in Eh. rewrite -E2 in Hseen.
    eapply may_mono.
    { apply may_and; [apply (ends_may _ _ _ _ (advance_ok g1 b n m I1 E1 Eh Hseen)) | by apply (advance_near g1 b n m)]. }
    intros [] g2 ((I2 & (b' & p' & l' & Eg2) & Hb2) & (F1 & F2 & F3 & F4 & Hn)).
    assert (roots_marked g2 /\ closed P g2 /\ known P g2 /\ ranked P rk g2) as (R2 & Hc2 & Hk2 & Hra2) by (rewrite Eg2; split_and!; done).
    assert (still g1 g2) as S2 by (by split_and!).
    assert (heapmem g1 = heapmem g /\ ptr_ g1 = ptr_ g) as [Eh1 Ep1] by done.
    maybe. maybe. destruct (base g2) as [b2|] eqn:Eb2.
    + destruct Hb2 as [Hh2 Hb2]. specialize (Hn b2 eq_refl). rewrite Eh1 Ep1 in Hn. maybe. maybe.
      eapply may_mono; [apply (IH (Some (ptr_ g)) (set_visit (visit g2 - 1) g2) b2) |]; try done.
      * by apply inv_visit.
      * intros ? [= <-]. simpl. split; [rewrite F4 Eh1; by rewrite -Ep1 -Eh1 Eh |]. destruct Hb2 as [[-> Hle] | Hle]; [right | by left]. rewrite -E2. split; [| done].
        pose proof (i_walk _ _ _ _ I1) as Hw. unfold walk_ok in Hw. rewrite E1 in Hw. destruct Hw as ((bs & _ & _ & Hw) & _). lia.
      * intros ok g3 [L | (-> & S3 & H3)].
        -- left. assert (less g1 g3) as L1 by (by apply (still_less _ g2)). destruct Hl1 as [Hl1 | [_ S1]]; [by apply (less_trans _ g1) | by apply (still_less _ g1)].
        -- assert (still g1 g3) as S13 by (destruct S2 as (A1 & A2 & A3 & A4), S3 as (B1 & B2 & B3 & B4); simpl in *; split_and!; congruence).
           destruct Hl1 as [Hl1 | [_ S1]]; [left; by apply (less_still _ g1) | right]. split; [done |].
           split; [destruct S1 as (A1 & A2 & A3 & A4), S13 as (B1 & B2 & B3 & B4); split_and!; congruence |].
           intros b3 Eb3. destruct (H3 b3 Eb3) as (H4 & H5 & _). simpl in H5. rewrite F4 Eh1 in H5. split; [done | lia].
    + maybe. destruct Hl1 as [Hl1 | [_ S1]]; [left; by apply (less_still _ g1) | right]. split; [done |].
      split; [destruct S1 as (A1 & A2 & A3 & A4), S2 as (B1 & B2 & B3 & B4); split_and!; congruence | congruence].
Qed.

(** *** A slice of the collector *)

(** The objects there are; what is left to mark; whether something was marked in
    this pass; what is left of it. *)
Definition level (g : gc) : nat * (nat * (nat * nat)) :=
  (base.size (objs g), (left_to_mark rk g, ((if (nprop g =? 0)%Z then 0 else 1)%nat, Z.to_nat (distance g)))).
Definition lower : nat * (nat * (nat * nat)) -> nat * (nat * (nat * nat)) -> Prop :=
  slexprod nat _ lt (slexprod nat _ lt (slexprod nat nat lt lt)).

Lemma lower_wf : well_founded lower.
Proof. repeat apply wf_slexprod; apply lt_wf. Qed.

Lemma less_lower g g' : less g g' -> lower (level g') (level g).
Proof. intros [L | [E L]]; unfold level, lower; [by left | rewrite E; right; by left]. Qed.

Lemma passed_lower g g' : base.size (objs g') = base.size (objs g) -> left_to_mark rk g' = left_to_mark rk g -> nprop g <> 0 -> nprop g' = 0 ->
  lower (level g') (level g).
Proof.
  intros E1 E2 H1 H2. unfold level, lower. rewrite E1 E2 H2. do 2 right. left. simpl. destruct (Z.eqb_spec (nprop g) 0); [done | lia].
Qed.

Lemma still_lower g g' : still g g' -> distance g' < distance g -> 0 < distance g -> lower (level g') (level g).
Proof.
  intros Hs L Hp. destruct (still_left _ _ Hs) as [E1 E2]. destruct Hs as (_ & E3 & _). unfold level, lower. rewrite E1 E2 E3. do 3 right. lia.
Qed.

Lemma rest_le ars b bs p : sized ars -> apart ars -> (b, bs) ∈ ars -> b <= p < ceiling (b, bs) -> 0 < rest_of ars b p <= whole ars.
Proof.
  intros Hs Ha (as1 & as2 & ->)%list_elem_of_split Hp. rewrite rest_of_app // whole_app. simpl. unfold sized in Hs. rewrite Forall_app Forall_cons in Hs.
  destruct Hs as (H1 & _ & H2). pose proof (whole_pos _ H1). pose proof (whole_pos _ H2). lia.
Qed.

Lemma rungc_lower g : Inv ∅ [] None g -> roots_marked g -> heapmem g <> [] -> resumable g -> gchalt g = 0 -> closed P g -> known P g -> ranked P rk g ->
  may rungc (fun _ g' => lower (level g') (level g) \/ gccolor g' = i32 (gccolor g + 1)) g.
Proof.
  intros I Hr Hne Hres Hh Hc Hk Hra. pose proof (i_pool _ _ _ _ I) as [Hs Ha _ _]. unfold rungc. maybe. maybe. rewrite Hh. cbn [Z.eqb negb]. maybe. maybe. maybe.
  eapply (may_mono _ (fun _ g1 => still g g1 /\ visit g1 = visit g /\ fixed g1 = fixed g /\ Inv ∅ [] None g1 /\
    stale g1 = stale g /\ exists b, base g1 = Some b /\ ((g1 = g /\ base g = Some b) \/ (base g = None /\ header (heapmem g) (ptr_ g1) <> None)))).
  { destruct (base g) as [b|] eqn:Eb; [maybe; split_and!; try done; exists b; split; [done | by left] |].
    destruct (heapmem g) as [| [b bs] ars] eqn:Eh; [done |]. maybe. maybe. maybe. rewrite Eh. apply may_from. intros ar [= <-].
    pose proof (walk_from_ok g (base g) (ptr_ g) (limit g) b bs I) as Hwf.
    replace (set_walk (base g) (ptr_ g) (limit g) g) with g in Hwf by (by destruct g). eapply may_mono; [eapply ends_may, Hwf |].
    - exists [], ars. split; [done |]. intros x o Ho _. pose proof (i_pool _ _ _ _ I) as Hp.
      destruct (object_block _ _ x Hp) as (n & Hn & _); [by eexists |].
      destruct (block_in _ _ _ (pool_sizes _ _ Hp) Hn) as (ar & Har & _ & H1 & H2 & H3). rewrite -Eh. apply Exists_exists. exists ar. split; [done |].
      unfold floor, ceiling in *. simpl in *. lia.
    - intros [] g1 [-> I1]. split_and!; try done. exists b. split; [done |]. right. split; [done |]. simpl.
      by rewrite (header_leader _ b bs); [| left]. }
  intros [] g1 (S1 & Ev1 & F1 & I1 & Est & b & Eb & Hg1). destruct S1 as (A1 & A2 & A3 & A4).
  assert (mutator g1 = mutator g /\ gccolor g1 = gccolor g) as [Em1 Ec1] by (unfold fixed in F1; split; congruence).
  assert (closed P g1 /\ known P g1 /\ ranked P rk g1) as (Hc1 & Hk1 & Hra1).
  { unfold closed, known, ranked. rewrite A1 A3. by split_and!. }
  pose proof (i_walk _ _ _ _ I1) as Hw. unfold walk_ok in Hw. rewrite Eb A4 in Hw. destruct Hw as ((bs & Hin & _ & Hp1) & _).
  pose proof (rest_le _ _ _ _ Hs Ha Hin Hp1) as Hre. destruct (fixed_fields _ _ F1) as (_ & _ & _ & _ & _ & _ & Er1).
  assert (roots_marked g1) as R1 by (intros x; rewrite Er1 /marked A1 A3; apply Hr).
  assert (okbhdr g1 (ptr_ g1) = match header (heapmem g) (ptr_ g1) with Some _ => true | None => false end) as Eok.
  { destruct (header (heapmem g) (ptr_ g1)) as [hd|] eqn:E; [apply okbhdr_block; [apply (i_pool _ _ _ _ I1) | by rewrite A4 E] |].
    destruct Hg1 as [[-> Eb0] | [_ ?]]; [| done]. destruct (Hres ltac:(congruence)); [done | congruence]. }
  maybe. maybe. rewrite Eok. destruct (header (heapmem g) (ptr_ g1)) as [hd|] eqn:Eh.
  2: { maybe. left. destruct Hg1 as [[-> Eb0] | [_ ?]]; [| done]. apply still_lower; [done | |]; unfold distance; simpl; rewrite ?Eb0 ?Eh; lia. }
  assert (rest_of (heapmem g) b (ptr_ g1) <= distance g) as Hd.
  { unfold distance. destruct Hg1 as [[-> Eb0] | [Eb0 _]]; rewrite Eb0; [by rewrite Eh | lia]. }
  maybe. maybe. maybe. set (g2 := set_visit Quanta g1).
  eapply may_mono.
  { apply may_and; [apply (sweep_onward (Z.to_nat Quanta) None g2 b) |]; try done.
    - by apply inv_visit.
    - simpl. by rewrite A4 Eh.
    - apply (sweep_idles P). }
  intros ok g3 (Hs3 & [F3 _ _]).
  assert (gccolor g3 = gccolor g) as Ec3 by (unfold fixed in F3; simpl in F3; congruence).
  assert (still g g1) as S1 by (by split_and!).
  assert (less g2 g3 -> less g g3) as Hless by (intros L; by apply (still_less _ g1)).
  destruct ok; cbn [negb].
  2: { maybe. left. apply less_lower. destruct Hs3 as [L | [? _]]; [by apply Hless | done]. }
  maybe. maybe. destruct (base g3) as [b3|] eqn:Eb3.
  - maybe. left. destruct Hs3 as [L | (_ & S3 & H3)]; [by apply less_lower, Hless |]. destruct (H3 b3 eq_refl) as (H4 & _ & H5).
    specialize (H5 ltac:(unfold Quanta; lia) ltac:(done)). destruct S3 as (B1 & B2 & B3 & B4). simpl in B1, B2, B3, B4, H5. rewrite A4 in H5.
    assert (still g g3) as S3 by (split_and!; congruence). apply still_lower; [done | | lia]. unfold distance at 1. rewrite Eb3.
    destruct (header (heapmem g3) (ptr_ g3)); [| done]. rewrite B4 A4. lia.
  - maybe. maybe. destruct (Z.eqb_spec (nprop g3) 0) as [Ez | Ez].
    + maybe. maybe. maybe. maybe. eapply may_mono; [apply (rootset_tint (fun _ => True) g3); by intros |].
      intros [] g4 [Ec4 _]. right. unfold ctl in Ec4. simpl in Ec4. congruence.
    + maybe. left. destruct Hs3 as [L | (_ & S3 & _)]; [apply less_lower; by apply Hless |].
      assert (still g g3) as [E1 E2]%still_left by (destruct S3 as (B1 & B2 & B3 & B4); simpl in *; split_and!; congruence).
      apply passed_lower; try done. destruct S3 as (_ & B2 & _). simpl in B2. congruence.
Qed.
End Pass.

(** ** The idle loop *)

(** No list is a part of its own tail, of those that are not to be swept. *)
Definition acyclic (g : gc) : Prop := exists rk : Z -> nat, forall h o l t,
  objs g !! h = Some o -> color o <> sweeper g -> obj o = Lst l -> tail l = Some t -> (rk t < rk h)%nat.

Section Loop.
Context `{HeapPool} (g0 : gc) (rk : Z -> nat).
#[local] Abbreviation L := (live ∅ g0).
#[local] Abbreviation R := (reach g0).

(** After [k] epochs from [g0]. *)
Record epoch (k : nat) (g : gc) : Prop := {
  ep_good : good g;
  ep_resumable : resumable g;
  ep_color : gccolor g = gccolor g0 + Z.of_nat k;
  ep_progs : progs g = progs g0;
  ep_roots : roots g = roots g0;
  ep_reach : forall x, reach g x <-> R x;
  ep_kept : forall x o, R x -> objs g0 !! x = Some o -> exists o', objs g !! x = Some o' /\ ref o' = ref o /\ obj o' = obj o;
  ep_closed : closed L g;
  ep_ranked : ranked L rk g;
  ep_live : phase L (S k) g;
  ep_phase : phase R k g;
}.

Lemma progs_blocks g : good g -> progs g <> [] -> heapmem g <> [].
Proof.
  intros [I _ _] Hp E. destruct (progs g) as [| p ps] eqn:Ep; [done |].
  destruct (i_roots _ _ _ _ I (R_M p)) as (o & Ho & _); [unfold roots; rewrite Ep; simpl; by left |].
  destruct (object_block _ _ (R_M p) (i_pool _ _ _ _ I)) as (n & Hn & _); [by eexists |]. rewrite E in Hn. by apply not_elem_of_nil in Hn.
Qed.

Lemma phase_known P k g : phase P (S k) g -> known P g.
Proof. destruct k as [| [| k]]; simpl; [done | by intros [? _] |]. intros Hx x o Ho _. apply Hx. by eexists. Qed.

Lemma epoch_step k g : good g0 -> epoch k g -> progs g0 <> [] -> gccolor g + 1 < 2 ^ 31 ->
  exists g', rungc g = Ret tt g' /\ ((epoch k g' /\ lower (level rk g') (level rk g)) \/ epoch (S k) g').
Proof.
  intros G0 [G Hw Ec Ep Er Hre Hkept Hcl Hra Hl Hph] Hne Hb. pose proof G as [I Hr Hh].
  assert (heapmem g <> []) as Hm by (apply progs_blocks; [done | by rewrite Ep]).
  assert (closed R g) as HcR by (intros h o x; rewrite -!Hre; apply reach_out).
  assert (forall x, x ∈ roots g -> R x) as HrR by (intros x Hx; apply Hre; by apply reach_root).
  assert (forall x, x ∈ roots g -> L x) as HrL by (intros x; rewrite Er; intros Hx; by apply (reach_live _ _ _ _ (g_inv _ G0)), reach_root).
  assert (i32 (gccolor g + 1) = gccolor g + 1) as Ei.
  { apply wraps_id; [done |]. change (2 ^ (32 - 1)) with (2 ^ 31). destruct (i_colors _ _ _ _ I) as (? & _). lia. }
  pose proof (rungc_ok g I Hr Hm Hw) as H1. pose proof (rungc_phase L (S k) g I Hr Hm Hw Hcl HrL Hl) as H2.
  pose proof (rungc_phase R k g I Hr Hm Hw HcR HrR Hph) as H3. pose proof (rungc_lower L rk g I Hr Hm Hw Hh Hcl (phase_known _ _ _ Hl) Hra) as H4.
  unfold ends, may in *. destruct (rungc g) as [[] g' | |]; try done. specialize (H4 tt g' eq_refl). destruct H1 as (I' & R' & S & W'). exists g'. split; [done |].
  assert (forall j, gccolor g' = gccolor g0 + Z.of_nat j -> phase L (Datatypes.S j) g' -> phase R j g' -> epoch j g') as He.
  { intros j Hj HL HR. split; try done.
    - split; [done | done |]. by rewrite (sv_gchalt _ _ S).
    - by rewrite (sv_progs _ _ S).
    - by rewrite (survives_roots _ _ S).
    - intros x. by rewrite -Hre (survives_reach g g').
    - intros x o Hx Ho. destruct (Hkept x o Hx Ho) as (o1 & Ho1 & E1 & E2).
      destruct (survives_kept g g' x G S) as (o2 & o3 & Ho2 & Ho3 & E3 & E4); [by apply Hre |]. exists o3. split_and!; congruence.
    - intros h o' x HP Ho' Hx. destruct (sv_old _ _ S h o' Ho') as (o & Ho & Eb). apply (Hcl h o x HP Ho). by rewrite -Eb.
    - intros h o' l t HP Ho' El. destruct (sv_old _ _ S h o' Ho') as (o & Ho & Eb). apply (Hra h o l t HP Ho). by rewrite -Eb. }
  destruct H2 as [[E2 H2] | [E2 H2]], H3 as [[E3 H3] | [E3 H3]]; try (exfalso; lia).
  - left. split; [apply He; [lia | done | done] |]. destruct H4 as [H4 | H4]; [done | lia].
  - right. apply He; [lia | done | done].
Qed.

(** Enough rounds end an epoch, and the next. *)
Lemma idle_epochs k j g : good g0 -> epoch k g -> progs g0 <> [] -> gccolor g0 + Z.of_nat (j + k) < 2 ^ 31 ->
  exists n g', (forall m, (n <= m)%nat -> idle m (gccolor g0 + Z.of_nat (j + k)) g = Ret tt g') /\ epoch (j + k) g'.
Proof.
  intros G0. revert k g. induction j as [| j IHj]; intros k g.
  - intros He Hne _. exists 0%nat, g. split; [| done]. intros m _. destruct m as [| m]; [done |]. cbn [idle]. unfold getg, mbind, m_bind.
    rewrite (ep_color _ _ He). destruct (Z.ltb_spec (gccolor g0 + Z.of_nat k) (gccolor g0 + Z.of_nat (0 + k))); [lia | done].
  - remember (level rk g) as v eqn:Ev. revert g Ev. induction (lower_wf v) as [v _ IHv]. intros g -> He Hne Hb.
    destruct (epoch_step k g G0 He Hne) as (g1 & E1 & Hg1); [rewrite (ep_color _ _ He); lia |].
    assert (exists n g', (forall m, (n <= m)%nat -> idle m (gccolor g0 + Z.of_nat (S j + k)) g1 = Ret tt g') /\ epoch (S j + k) g') as (n & g' & Hn & He').
    { destruct Hg1 as [[He1 Hl] | He1]; [by apply (IHv (level rk g1) Hl g1) |].
      replace (S j + k)%nat with (j + S k)%nat in * by lia. by apply (IHj (S k) g1). }
    exists (S n), g'. split; [| done]. intros m Hm. destruct m as [| m]; [lia |]. cbn [idle]. unfold getg at 1 2. unfold mbind at 1 2, m_bind at 1 2.
    rewrite (ep_color _ _ He) (g_halt _ (ep_good _ _ He)). destruct (Z.ltb_spec (gccolor g0 + Z.of_nat k) (gccolor g0 + Z.of_nat (S j + k))); [| lia].
    cbn [andb Z.eqb]. unfold mbind, m_bind. rewrite E1. apply Hn. lia.
Qed.

Lemma epoch_start : good g0 -> resumable g0 -> ranked L rk g0 -> epoch 0 g0.
Proof.
  intros G Hw Hr. pose proof G as [I _ _]. split; try done.
  - lia.
  - intros x o _ Ho. by exists o.
  - intros h o x (q & Hq & Hs & HD) Ho Hx. apply (i_outs _ _ _ _ I h o x Ho); [| done]. assert (q = o) as -> by congruence. by split.
  - simpl. intros x o Ho Hc. destruct (grey_not_swept g0 (i_colors _ _ _ _ I)) as [H1 H2]. destruct (i_colors _ _ _ _ I) as (_ & _ & H3 & _).
    exists o. split_and!; [done | destruct Hc; congruence | set_solver].
Qed.
End Loop.

(** C2. When nothing else wants to run, the idle loop comes to an end: after a
    bounded number of slices three epochs are over.  What is left then is exactly
    what can be reached, with its contents and its counts: cycles are gone too.
    So wherever the collector has stopped before, if only no data has been written
    there that it takes for a header; if no list that is not to be swept is a part
    of its own tail; and if the count of epochs is not about to wrap. *)
Theorem execatidle_collects `{HeapPool} g : good g -> resumable g -> progs g <> [] -> gccolor g < 2 ^ 31 - 3 -> acyclic g ->
  exists n g', (forall m, (n <= m)%nat -> execatidle m g = Ret tt g') /\ good g' /\ gccolor g' = gccolor g + 3 /\
    (forall x, is_Some (objs g' !! x) <-> reach g x) /\
    forall x o, reach g x -> objs g !! x = Some o -> exists o', objs g' !! x = Some o' /\ ref o' = ref o /\ obj o' = obj o.
Proof.
  intros G Hw Hne Hb [rk Hrk]. assert (epoch g rk 0 g) as E0.
  { apply epoch_start; [done | done |]. intros h o l t (q & Hq & Hs & _) Ho. assert (q = o) as -> by congruence. by apply (Hrk h o l t). }
  destruct (idle_epochs g rk 0 3 g G E0 Hne) as (n & g' & Hn & [G' _ Ec _ _ Hre Hk _ _ _ Hph]); [simpl; lia |]. exists n, g'.
  assert (i32 (gccolor g + 3) = gccolor g + 3) as Ei.
  { apply wraps_id; [done |]. change (2 ^ (32 - 1)) with (2 ^ 31). destruct (i_colors _ _ _ _ (g_inv _ G)) as (? & _). lia. }
  split; [| split; [done | split; [done | split]]].
  - intros m Hm. unfold execatidle, getg, mbind, m_bind. rewrite Ei. by apply Hn.
  - intros x. split; [apply Hph |]. intros Hx. apply Hre in Hx. destruct (reach_live _ _ _ _ (g_inv _ G') Hx) as (o & Ho & _). by exists o.
  - intros x o Hx Ho. by apply Hk.
Qed.
