(* ===== verification/GcDemo.v ===== *)
(** * The garbage collector: runs of the small machine

    What the compiler, the loader and the caller see to can be computed on a
    given state; so a list of instructions can be run with every condition
    checked.  The theorems of [GcFree] and [GcSafe] are applied to such runs. *)

From S2P Require Import Prelude Heap Pool PoolArena Gc GcPool GcInv GcToy GcRun GcFree GcMark GcSweep GcOps GcCalls GcSafe GcIdle GcDone.
Import Gc.

#[local] Open Scope Z_scope.

(** ** The conditions, computed *)

(** What can be reached, as a list. *)
Definition outs_at (g : gc) (h : Z) : list Z := match objs g !! h with Some o => outs (obj o) | None => [] end.
Definition reached (g : gc) : list Z :=
  Nat.iter (base.size (objs g)) (fun l => remove_dups (l ++ (l ≫= outs_at g))) (remove_dups (roots g)).

Definition slot_typedb (g : gc) (s : slot) : bool :=
  match s with
  | FrameW p e f k =>
      match (pr ← progs g !! p; sx ← EX pr !! e; fm ← fr sx !! f; Some (default (TR sx) (f_t fm))) with
      | Some t => bool_decide (k ∈ slots t) | None => false
      end
  | DataW h k => match objs g !! h with Some (MkHeap _ _ (Data t _)) => bool_decide (k ∈ slots t) | _ => false end
  | ElemW h k =>
      match objs g !! h with
      | Some (MkHeap _ _ (Arr a)) =>
          let w := Z.to_nat (size (a_t a) / 4) in
          existsb (fun i => existsb (fun j => (i * w + j =? k)%nat) (slots (a_t a))) (seq 0 (Z.to_nat (len a)))
      | _ => false
      end
  | ListW h k => match objs g !! h with Some (MkHeap _ _ (Lst (MkList _ (Some t) _))) => bool_decide (k ∈ slots t) | _ => false end
  | TailW h => match objs g !! h with Some (MkHeap _ _ (Lst _)) => true | _ => false end
  end.

Definition usableb (g : gc) (s : slot) : bool :=
  slot_typedb g s && match container s with Some h => bool_decide (h ∈ reached g) | None => true end.
Definition targetb (g : gc) (s : slot) : bool := usableb g s && match s with ListW _ _ | TailW _ => false | _ => true end.

(** A property of what a slot leads to, if it leads to anything. *)
Definition holdsb (P : Z -> bool) (g : gc) (s : slot) : bool := match getw s g with Ret (Some h) _ => P h | _ => true end.
Definition bodyb (P : body -> bool) (g : gc) (h : Z) : bool := match objs g !! h with Some o => P (obj o) | None => false end.

Definition wf_typeb (t : Type_) : bool :=
  (0 <=? size t) && forallb (fun k => (k <? Z.to_nat (size t / 4))%nat && (size t mod 4 =? 0)) (slots t).

Definition top_frameb (g : gc) (p : nat) : option Frame :=
  pr ← progs g !! p; sx ← head (EX pr); f ← last (fr sx);
  match f_t f, fr sx with None, _ :: _ :: _ => None | _, _ => Some f end.

Definition typedb (o : op) (g : gc) : bool :=
  match o with
  | Movp s d => usableb g s && targetb g d
  | New t d => wf_typeb t && targetb g d
  | Newa t sz d => wf_typeb t && (sz <? 2 ^ 31) && targetb g d
  | Consw x d => targetb g d && holdsb (bodyb (fun b => match b with Lst _ => true | _ => false end) g) g d
  | Consp s d => usableb g s && targetb g d && holdsb (bodyb (fun b => match b with Lst _ => true | _ => false end) g) g d
  | Headp s d =>
      usableb g s && holdsb (bodyb (fun b => match b with Lst (MkList _ (Some t) _) => bool_decide (0%nat ∈ slots t) | _ => false end) g) g s && targetb g d
  | Tail s d => usableb g s && holdsb (bodyb (fun b => match b with Lst _ => true | _ => false end) g) g s && targetb g d
  | Slicea start v d =>
      targetb g d && holdsb (bodyb (fun b => match b with Arr _ => true | _ => false end) g) g d &&
      (-2 ^ 31 <=? start) && (start <? 2 ^ 31) && (-2 ^ 31 <=? v) && (v <? 2 ^ 31)
  | Frame_ p t full => wf_typeb t && match progs g !! p with Some pr => full || match EX pr with [] => false | _ => true end | None => false end
  | Mcall p d =>
      usableb g d && holdsb (bodyb (fun b => match b with Data t _ => bool_decide (0%nat ∈ slots t) | _ => false end) g) g d &&
      match top_frameb g p with Some f => match mr f with None => true | Some _ => false end | None => false end
  | Ret_ p => match top_frameb g p with Some _ => true | None => false end
  | Hold t => wf_typeb t
  | Release h => bool_decide (h ∈ concat (ptrtab g))
  | Rungc => match heapmem g with [] => false | _ => true end
  | Data_ _ => true
  end.

Definition resumableb (g : gc) : bool :=
  match base g, header (heapmem g) (ptr_ g) with Some _, None => negb (okbhdr g (ptr_ g)) | _, _ => true end.
Definition carefulb (o : op) (g : gc) : bool :=
  match o with
  | Newa t sz d => size t * sz <? 2 ^ 31
  | Mcall p d => holdsb (fun h => match objs g !! h with Some o => (color o =? mutator g) || (color o =? propagator) | None => false end) g d
  | Rungc => resumableb g
  | _ => true
  end.

(** A list of instructions, none of which may fault. *)
Fixpoint run_ops (vb : op -> gc -> bool) (os : list op) (g : gc) : option gc :=
  match os with
  | [] => Some g
  | o :: os => if vb o g then match exec o g with Ret _ g | Raise _ g => run_ops vb os g | Fault => None end else None
  end.

Section Conditions.

Lemma reached_ok g x : x ∈ reached g -> reach g x.
Proof.
  unfold reached. generalize (base.size (objs g)). intros n. revert x. induction n as [| n IH]; intros x; simpl.
  - rewrite elem_of_remove_dups. by apply reach_root.
  - rewrite elem_of_remove_dups. intros Hx. apply elem_of_app in Hx as [Hx | (h & Hx & Hh)%list_elem_of_bind]; [by apply IH |].
    unfold outs_at in Hx. destruct (objs g !! h) as [o|] eqn:Ho; [| by apply not_elem_of_nil in Hx]. apply (reach_out _ h o); [by apply IH | done | done].
Qed.

Lemma slot_typedb_ok g s : slot_typedb g s = true -> slot_typed g s.
Proof.
  destruct s as [p e f k | h k | h k | h k | h]; simpl.
  - destruct (progs g !! p) as [pr|]; [simpl | done]. destruct (EX pr !! e) as [sx|] eqn:Ee; [simpl | done].
    destruct (fr sx !! f) as [fm|] eqn:Ef; [simpl | done]. intros Hk%bool_decide_eq_true. by exists pr, sx, fm.
  - destruct (objs g !! h) as [[c r []]|]; try done. intros Hk%bool_decide_eq_true. by do 3 eexists.
  - destruct (objs g !! h) as [[c r [| | | a |]]|]; try done. intros (i & Hi & (j & Hj & E%Nat.eqb_eq)%existsb_exists)%existsb_exists.
    apply in_seq in Hi. eexists _, a, i, j. split_and!; try done; [lia | by apply list_elem_of_In].
  - destruct (objs g !! h) as [[c r [| | | | [tl [t|] ws]]]|]; try done. intros Hk%bool_decide_eq_true. by do 3 eexists.
  - destruct (objs g !! h) as [[c r []]|]; try done. by do 2 eexists.
Qed.

Lemma usableb_ok g s : usableb g s = true -> usable g s.
Proof.
  intros [Ht Hr]%andb_prop. split; [by apply slot_typedb_ok |]. intros h Hh. rewrite Hh in Hr. apply bool_decide_eq_true in Hr. by apply reached_ok.
Qed.

Lemma targetb_ok g s : targetb g s = true -> target g s.
Proof. intros [Hu Hw]%andb_prop. split; [by apply usableb_ok | by destruct s]. Qed.

Lemma holdsb_ok P g s h : holdsb P g s = true -> getw s g = Ret (Some h) g -> P h = true.
Proof. unfold holdsb. intros Hb E. by rewrite E in Hb. Qed.

Lemma bodyb_ok P g h : bodyb P g h = true -> exists o, objs g !! h = Some o /\ P (obj o) = true.
Proof. unfold bodyb. destruct (objs g !! h); [by eexists | done]. Qed.

Lemma wf_typeb_ok t : wf_typeb t = true -> wf_type t.
Proof.
  intros [H1%Z.leb_le H2]%andb_prop. split; [done |]. intros k Hk%list_elem_of_In. rewrite forallb_forall in H2.
  destruct (andb_prop _ _ (H2 k Hk)) as [?%Nat.ltb_lt ?%Z.eqb_eq]. done.
Qed.

Lemma top_frameb_ok g p f : top_frameb g p = Some f -> top_frame g p f.
Proof.
  unfold top_frameb. destruct (progs g !! p) as [pr|] eqn:Ep; [simpl | done]. destruct (EX pr) as [| sx ex] eqn:Ee; [done | simpl].
  destruct (last (fr sx)) as [f'|] eqn:El; [simpl | done]. intros Hf.
  assert (f' = f) as -> by (destruct (f_t f'); [congruence |]; destruct (fr sx) as [| ? [|]]; congruence).
  exists pr, sx, ex. split_and!; try done. intros Et. rewrite Et in Hf. destruct (fr sx) as [| f1 [|]]; [done | | done]. simpl in El. congruence.
Qed.

Ltac conditions :=
  repeat match goal with
  | H : (_ && _) = true |- _ => apply andb_prop in H as [? ?]
  | H : (_ <? _) = true |- _ => apply Z.ltb_lt in H
  | H : (_ <=? _) = true |- _ => apply Z.leb_le in H
  end.
Ltac holds :=
  let h := fresh "h" in let Hh := fresh "Hh" in let E := fresh "E" in let q := fresh "q" in
  intros h Hh; match goal with H : holdsb _ _ _ = true |- _ => destruct (bodyb_ok _ _ _ (holdsb_ok _ _ _ _ H Hh)) as (q & ? & E) end;
  exists q; cbv beta in E; destruct (obj q) as [| | | | [? [|] ?]]; try discriminate; try apply bool_decide_eq_true in E; eauto.

Lemma typedb_ok o g : typedb o g = true -> typed o g.
Proof.
  pose proof (usableb_ok g) as U. pose proof (targetb_ok g) as T. pose proof wf_typeb_ok as W.
  destruct o; cbn [typedb typed]; intros Hb; conditions; split_and?; auto; try holds.
  - by eexists (MkList _ (Some _) _), _.
  - destruct (progs g !! p) as [pr|]; [| done]. exists pr. split; [done |]. destruct full; [by left | right; by destruct (EX pr)].
  - destruct (top_frameb g p) as [f|] eqn:Ef; [| done]. exists f. split; [by apply top_frameb_ok | by destruct (mr f)].
  - destruct (top_frameb g p) as [f|] eqn:Ef; [| done]. exists f. by apply top_frameb_ok.
  - by apply bool_decide_eq_true in Hb.
  - by destruct (heapmem g).
Qed.

Lemma resumableb_ok g : resumableb g = true -> resumable g.
Proof.
  unfold resumableb, resumable. destruct (base g); [| done]. destruct (header _ _); [by left |]. intros ?%negb_true_iff _. by right.
Qed.

Lemma carefulb_ok o g : carefulb o g = true -> careful o g.
Proof.
  destruct o; cbn [carefulb careful]; try done; [by intros ?%Z.ltb_lt | | apply resumableb_ok]. intros Hb ml Hml. pose proof (holdsb_ok _ _ _ _ Hb Hml) as E. simpl in E.
  destruct (objs g !! ml) as [q|] eqn:Hq; [| done]. exists q. split; [done |]. by apply orb_true_iff in E as [?%Z.eqb_eq | ?%Z.eqb_eq]; [left | right].
Qed.

Definition validb (o : op) (g : gc) : bool := typedb o g && carefulb o g.

Lemma validb_ok o g : validb o g = true -> valid o g.
Proof. intros [? ?]%andb_prop. split; [by apply typedb_ok | by apply carefulb_ok]. Qed.

Lemma run_ops_steps (V : op -> gc -> Prop) vb os g g' : (forall o g, vb o g = true -> V o g) -> run_ops vb os g = Some g' -> steps V g os g'.
Proof.
  intros HV. revert g. induction os as [| o os IH]; intros g; cbn [run_ops]; [intros [= ->]; constructor |].
  destruct (vb o g) eqn:Ev; [| done]. destruct (exec o g) as [[] g1 | e g1 |] eqn:Ex; [| | done]; intros Hr.
  - by apply (steps_ret V g o g1); [apply HV | | apply IH].
  - by apply (steps_raise V g o e g1); [apply HV | | apply IH].
Qed.
End Conditions.

Lemma toy_good : good toy.
Proof. split; [apply toy_inv | apply toy_marked | done]. Qed.

(** ** Runs *)

Definition fw (k : nat) := FrameW 0 0 0 k.
Definition after (os : list op) (g : gc) : gc := default g (run_ops validb os g).

(** A module, its data, an array and a slice of it, a list; a call into the
    module and back; an object of C code, made and let go of; and the collector
    in between. *)
Definition demo : list op :=
  [New Tmodlink (fw 0); New Tptr (fw 1); Movp (fw 1) (DataW 86 0); Newa Tptr 3 (fw 2); Movp (fw 1) (ElemW 188 1);
   Slicea 1 3 (fw 2); Consp (fw 2) (fw 3); Headp (fw 3) (fw 2); Rungc;
   Frame_ 0 (MkType 8 [192]) false; Mcall 0 (fw 0); Movp (fw 3) (FrameW 0 0 1 0); Tail (fw 3) (fw 3); Rungc; Ret_ 0;
   Hold Tptr; Release 395; Rungc; Movp (fw 4) (fw 2); Rungc; Rungc].

(** Arrays that hold themselves: one of them is also the head of a list, of
    which the tail is kept. *)
Definition cycles : list op :=
  [Newa Tptr 1 (fw 0); Movp (fw 0) (ElemW 86 0); Consp (fw 0) (fw 1); Consp (fw 0) (fw 1); Rungc; Movp (fw 4) (fw 0); Tail (fw 1) (fw 1);
   New Tptr (fw 2); Newa Tptr 1 (fw 3); Movp (fw 3) (ElemW 346 0); Movp (fw 4) (fw 3); Consp (fw 2) (fw 1)].

Section Runs.

Lemma after_steps os : bool_decide (is_Some (run_ops validb os toy)) = true -> steps valid toy os (after os toy).
Proof.
  intros [g Hg]%bool_decide_eq_true. apply (run_ops_steps valid validb); [apply validb_ok |]. unfold after. by rewrite Hg.
Qed.

Lemma after_good os : bool_decide (is_Some (run_ops validb os toy)) = true -> good (after os toy).
Proof. intros Hos. apply (steps_good toy os); [apply toy_good | by apply after_steps]. Qed.

Lemma machine_safe_witness : safe (after demo toy) /\ exec Rungc (after demo toy) <> Fault.
Proof.
  apply (machine_safe toy demo (after demo toy) Rungc).
  - apply toy_good.
  - apply after_steps. by vm_compute.
  - apply validb_ok. by vm_compute.
Defined.

Lemma rungc_spares_witness : exists g', rungc (after (take 13 demo) toy) = Ret tt g' /\ good g' /\ resumable g' /\
  (forall x, reach (after (take 13 demo) toy) x <-> reach g' x) /\
  (forall x, reach (after (take 13 demo) toy) x ->
    exists o o', objs (after (take 13 demo) toy) !! x = Some o /\ objs g' !! x = Some o' /\ ref o' = ref o /\ obj o' = obj o) /\
  forall x, is_Some (objs g' !! x) -> is_Some (objs (after (take 13 demo) toy) !! x).
Proof.
  apply (rungc_spares (after (take 13 demo) toy)).
  - apply after_good. by vm_compute.
  - apply (validb_ok Rungc). by vm_compute.
Defined.

(** Lists whose cells are made one after the other. *)
Definition in_order (g : gc) : bool :=
  forallb (fun x => match obj x.2 with Lst l => match tail l with Some t => (0 <=? t) && (t <? x.1) | None => true end | _ => true end) (map_to_list (objs g)).

Lemma in_order_ok g : in_order g = true -> acyclic g.
Proof.
  unfold in_order. rewrite forallb_forall. intros Hf. exists Z.to_nat. intros h o l t Ho _ El Et.
  specialize (Hf (h, o) ltac:(apply list_elem_of_In; by rewrite elem_of_map_to_list)). simpl in Hf. rewrite El Et in Hf.
  apply andb_prop in Hf as [?%Z.leb_le ?%Z.ltb_lt]. lia.
Qed.

Lemma execatidle_collects_witness : exists n g', (forall m, (n <= m)%nat -> execatidle m (after cycles toy) = Ret tt g') /\ good g' /\
  gccolor g' = gccolor (after cycles toy) + 3 /\ (forall x, is_Some (objs g' !! x) <-> reach (after cycles toy) x) /\
  forall x o, reach (after cycles toy) x -> objs (after cycles toy) !! x = Some o -> exists o', objs g' !! x = Some o' /\ ref o' = ref o /\ obj o' = obj o.
Proof.
  apply (execatidle_collects (after cycles toy)).
  - apply after_good. by vm_compute.
  - apply resumableb_ok. by vm_compute.
  - by vm_compute.
  - by vm_compute.
  - apply in_order_ok. by vm_compute.
Defined.

(** C code keeps a record, 184, that refers to one, 135, that refers to a third,
    86, which is in a register as well.  When it lets go of 184 that goes and 135
    with it; the count of 86 goes from 2 to 1. *)
Definition kept : list op :=
  [New Tptr (fw 0); New Tptr (fw 1); Hold Tptr; Movp (fw 0) (DataW 135 0); Movp (fw 1) (DataW 184 0); Movp (fw 4) (fw 1)].
Definition counts (g : gc) : list (Z * Z) := (fun x => (x.1, ref x.2)) <$> map_to_list (objs g).
Definition state {A} (r : result A) : gc := match r with Ret _ g | Raise _ g => g | Fault => toy end.

Lemma destroy_frees_witness : let g := state (ptrdel 184 (after kept toy)) in
  runs (destroy (Some 184)) (fun _ g' => Inv ∅ [] None g' /\ freed ∅ g g' /\
    (forall x o o', objs g !! x = Some o -> objs g' !! x = Some o' ->
      ref o' - Z.of_nat (refs ∅ [] g' x) = ref o - Z.of_nat (refs ∅ [184] g x)) /\
    (forall x o o', objs g !! x = Some o -> objs g' !! x = Some o' -> 0 < ref o -> ref o' <= 0 ->
      exists h, Some 184 = Some h /\ nested g (room (gchalt g)) h x) /\
    forall h o, Some 184 = Some h -> objs g !! h = Some o -> ref o <= 1 -> gchalt g <= 64 -> objs g' !! h = None) g /\
  counts g = [(135, 1); (33, 1); (86, 2); (184, 1)] /\ counts (state (destroy (Some 184) g)) = [(33, 1); (86, 1)].
Proof.
  intros g. assert (good (after kept toy)) as [I R _] by (apply after_good; by vm_compute).
  assert (184 ∈ concat (ptrtab (after kept toy))) as Hin by (vm_compute; by left).
  assert (ptrdel 184 (after kept toy) = Ret tt g) as E by (vm_compute; reflexivity).
  pose proof (ptrdel_ok (after kept toy) 184 I R Hin) as Hp. unfold ends in Hp. rewrite E in Hp. destruct Hp as (I1 & _ & _).
  assert (0 <= gchalt g) as Hh by (vm_compute; discriminate). split; [exact (destroy_frees (Some 184) ∅ [] None g I1 Hh) | split; vm_compute; reflexivity].
Defined.
End Runs.

(** ** A module that is not marked *)

(** A link to a module, in an array of [A], refers to [P], which refers to [C];
    the collector has gone through part of an epoch. *)
Definition before_call : list op :=
  [New Tmodlink (fw 0); New Tptr (fw 1); New (MkType 4 []) (fw 2); New Tptr (fw 3);
   Movp (fw 2) (DataW 139 0); Movp (fw 1) (DataW 86 0); Movp (fw 0) (DataW 237 0); Movp (fw 4) (fw 0); Movp (fw 4) (fw 1); Movp (fw 4) (fw 2); Rungc;
   Frame_ 0 (MkType 4 []) false].
Definition after_call : list op := [Movp (fw 4) (DataW 237 0); Rungc; Rungc].

(** C32. [mcall] counts the module it calls but does not mark it.  There is a
    program, well typed throughout, that from a good state calls into a module
    the collector has not come to yet and then forgets the pointer it was called
    by: the next epoch frees what the module's data refer to, and the collector
    itself comes upon the dangling pointer.  Every other instruction of the
    program, and every slice of the collector, meets the conditions under which
    the machine is safe. *)
Theorem mcall_dangles : exists g1 g2 g3,
  good toy /\ steps valid toy before_call g1 /\ typed (Mcall 0 (DataW 237 0)) g1 /\ exec (Mcall 0 (DataW 237 0)) g1 = Ret tt g2 /\
  steps valid g2 after_call g3 /\ valid Rungc g3 /\ exec Rungc g3 = Fault.
Proof.
  pose (g1 := after before_call toy).
  pose (g2 := match exec (Mcall 0 (DataW 237 0)) g1 with Ret _ g => g | _ => g1 end).
  exists g1, g2, (after after_call g2). split; [apply toy_good |]. split; [apply after_steps; by vm_compute |].
  split; [apply typedb_ok; by vm_compute |]. split; [by vm_compute |].
  split; [apply (run_ops_steps valid validb); [apply validb_ok | by vm_compute] |]. split; [apply validb_ok; by vm_compute | by vm_compute].
Qed.
