(* ===== verification/Name.v ===== *)
(** * Names of files

    How [src/emu/chan.c] takes a path apart: [skipslash], [nextelem], [nameok],
    over the bytes of a NUL terminated string, where a load past the bytes there
    are is [None].  The reference is splitting at the slashes; empty elements
    and dots count for nothing. *)

From S2P Require Import Prelude Rune.

#[local] Open Scope Z_scope.

(** ** The routines *)

Inductive err :=
  | Enomem | Enotdir | Emount | Eunmount | Eunion | Enonexist | Ebadsharp | Eperm | Enocreate | Eisdir
  | Efilename | Ebadchar | Ebadarg | Ebadfd | Ebadusefd | Etoosmall | Exhausted | Edev (e : Z).

Definition NAMELEN := 28.
Definition slash := 47.
Definition dot := 46.

Definition isfrog (b : Z) : bool := (b <? 32) || (b =? 32) || (b =? slash) || (b =? 0x7f).

Fixpoint skipslash (name : list Z) : option (list Z) :=
  match name with
  | [] => None
  | c :: name' =>
      if c =? slash then skipslash name'
      else if c =? dot then
        c1 ← name' !! 0%nat;
        if (c1 =? 0) || (c1 =? slash) then skipslash name' else Some name
      else Some name
  end.

(** [n] bytes are left before [eelem]. *)
Fixpoint nameok_loop (n : nat) (elem : list Z) : option (err + unit) :=
  match elem with
  | [] => None
  | c :: elem =>
      if c =? 0 then Some (inr tt)
      else if isfrog c then Some (inl Ebadchar)
      else match n with
           | S (S n) => nameok_loop (S n) elem
           | _ => Some (inl Efilename)
           end
  end.
Definition nameok (elem : list Z) : option (err + unit) := nameok_loop (Z.to_nat NAMELEN) elem.

(** The runes up to the end, which is [w] bytes away. *)
Fixpoint elem_runes (fuel : nat) (name : list Z) (w : Z) : option (err + list Z) :=
  match fuel with
  | O => None
  | S fuel =>
      if w <=? 0 then Some (inr name)
      else
        '(r, n) ← chartorune name;
        if (r <? 256) && isfrog r then Some (inl Ebadchar)
        else elem_runes fuel (drop (Z.to_nat n) name) (w - n)
  end.

(** What follows, and the element. *)
Definition nextelem (name : list Z) : option (err + list Z * list Z) :=
  c ← name !! 0%nat;
  if c =? slash then Some (inl Efilename)
  else
    e ← utfrune name slash;
    w ← match e with Some w => Some w | None => e ← strchr name 0; e end;
    if NAMELEN <=? Z.of_nat w then Some (inl Efilename)
    else
      r ← elem_runes (S w) name (Z.of_nat w);
      match r with
      | inl e => Some (inl e)
      | inr name' => s ← skipslash name'; Some (inr (s, take w name))
      end.

(** The elements that the loop of [namec] goes through, up to the first that is
    not good. *)
Fixpoint elements (fuel : nat) (name : list Z) : option (list (list Z) * option err) :=
  match fuel with
  | O => None
  | S fuel =>
      r ← nextelem name;
      match r with
      | inl e => Some ([], Some e)
      | inr (name, elem) =>
          c ← name !! 0%nat;
          if c =? 0 then Some ([elem], None)
          else '(es, e) ← elements fuel name; Some (elem :: es, e)
      end
  end.

(** ** The reference *)

Fixpoint split (s : list Z) : list Z * list (list Z) :=
  match s with
  | [] => ([], [])
  | c :: s => let '(e, es) := split s in if c =? slash then ([], e :: es) else (c :: e, es)
  end.
Definition no_name (e : list Z) : bool := match e with [] => true | [c] => c =? dot | _ => false end.
Definition names (s : list Z) : list (list Z) := let '(e, es) := split s in filter (fun e => no_name e = false) (e :: es).

(** What is wrong with an element. *)
Definition name_error (e : list Z) : option err :=
  if NAMELEN <=? zlen e then Some Efilename else if existsb isfrog e then Some Ebadchar else None.
Fixpoint good_names (es : list (list Z)) : list (list Z) * option err :=
  match es with
  | [] => ([], None)
  | e :: es => match name_error e with Some x => ([], Some x) | None => let '(gs, x) := good_names es in (e :: gs, x) end
  end.

(** ** Splitting *)

(** An element ends at a slash, or with the string. *)
Definition headed (q : list Z) : Prop := match q with [] => True | c :: _ => c = slash end.


Section Split.

Lemma names_slash p : names (slash :: p) = names p.
Proof. unfold names. cbn [split]. destruct (split p) as [e es]. reflexivity. Qed.

Lemma split_elem e q : slash ∉ e -> headed q ->
  split (e ++ q) = (e, match q with [] => [] | _ :: q => let '(a, b) := split q in a :: b end).
Proof.
  intros He Hq. induction e as [| c e IH]; cbn [app split].
  - destruct q as [| c q]; [done |]. simpl in Hq; subst c. cbn [split]. destruct (split q). done.
  - apply not_elem_of_cons in He as [Hc He]. rewrite IH by done. destruct (Z.eqb_spec c slash); [congruence | done].
Qed.

Lemma names_elem e q : slash ∉ e -> headed q -> no_name e = false -> names (e ++ q) = e :: names q.
Proof.
  intros He Hq Hn. unfold names at 1. rewrite split_elem by done. cbn [filter list_filter]. rewrite decide_True by done. f_equal.
  destruct q as [| c q]; [done |]. simpl in Hq; subst c. rewrite names_slash. unfold names. by destruct (split q).
Qed.

Lemma names_none e q : slash ∉ e -> headed q -> no_name e = true -> names (e ++ q) = names q.
Proof.
  intros He Hq Hn. unfold names at 1. rewrite split_elem by done. cbn [filter list_filter]. rewrite decide_False by congruence.
  destruct q as [| c q]; [done |]. simpl in Hq; subst c. rewrite names_slash. unfold names. by destruct (split q).
Qed.

(** The first element and the rest. *)
Lemma first_elem q : exists e q', q = e ++ q' /\ (slash ∉ e) /\ headed q'.
Proof.
  induction q as [| c q (e & q' & -> & He & Hq)]; [exists [], []; split_and!; [done | apply not_elem_of_nil | done] |].
  destruct (decide (c = slash)) as [-> | Hc]; [exists [], (slash :: e ++ q'); split_and!; [done | apply not_elem_of_nil | done] |].
  exists (c :: e), q'. split_and!; [done | by apply not_elem_of_cons | done].
Qed.
End Split.

(** ** The routines on the bytes of a string *)

Section Strings.
Context (rest : list Z).

(** What [skipslash] leaves: nothing, or an element that counts. *)
Definition normal (q : list Z) : Prop := q = [] \/ exists e q', q = e ++ q' /\ (slash ∉ e) /\ headed q' /\ no_name e = false.

Lemma skipslash_names p : 0 ∉ p -> exists l q, p = l ++ q /\ skipslash (p ++ 0 :: rest) = Some (q ++ 0 :: rest) /\ names q = names p /\ normal q.
Proof.
  induction p as [| c p IH]; intros Hz.
  - exists [], []. split_and!; try done. by left.
  - apply not_elem_of_cons in Hz as [Hc Hz]. cbn [app skipslash]. destruct (Z.eqb_spec c slash) as [-> | Hs].
    + destruct (IH Hz) as (l & q & -> & E & En & Hn). exists (slash :: l), q. rewrite names_slash. done.
    + assert (forall e q', c :: p = e ++ q' -> slash ∉ e -> headed q' -> no_name e = false ->
        exists l q, c :: p = l ++ q /\ Some (c :: p ++ 0 :: rest) = Some (q ++ 0 :: rest) /\ names q = names (c :: p) /\ normal q) as Hstay.
      { intros e q' E He Hq Hn. exists [], (c :: p). split_and!; try done. right. by exists e, q'. }
      destruct (first_elem (c :: p)) as (e & q' & E & He & Hq). destruct e as [| c' e]; [simpl in E; subst q'; congruence |]. injection E as <- E.
      destruct (Z.eqb_spec c dot) as [-> | Hd].
      * assert ((p ++ 0 :: rest) !! 0%nat = Some (match p with [] => 0 | c :: _ => c end)) as -> by (by destruct p). cbn [mbind option_bind].
        destruct e as [| c' e].
        -- assert (names (dot :: p) = names p) as En.
           { simpl in E. subst q'. apply (names_none [dot] p He Hq eq_refl). }
           assert ((match p with [] => 0 | c :: _ => c end =? 0) || (match p with [] => 0 | c :: _ => c end =? slash) = true) as ->.
           { simpl in E. subst q'. destruct p as [| c p]; [done |]. simpl in Hq; subst c. by rewrite Z.eqb_refl, orb_true_r. }
           destruct (IH Hz) as (l & q & -> & E' & En' & Hn). exists (dot :: l), q. split_and!; try done. by rewrite En', En.
        -- destruct p as [| c1 p]; [done |]. injection E as -> E. pose proof He as [_ [H1 _]%not_elem_of_cons]%not_elem_of_cons.
           apply not_elem_of_cons in Hz as [Hz _].
           destruct (Z.eqb_spec c' 0); [congruence |]. destruct (Z.eqb_spec c' slash); [congruence |].
           apply (Hstay (dot :: c' :: e) q'); [by rewrite E | done | done | done].
      * apply (Hstay (c :: e) q'); [by rewrite E | done | done |]. simpl. destruct e; [by apply Z.eqb_neq | done].
Qed.

Lemma frog_ascii c : 0x80 <= c -> isfrog c = false.
Proof.
  intros Hc. unfold isfrog, slash. destruct (Z.ltb_spec c 32), (Z.eqb_spec c 32), (Z.eqb_spec c 47), (Z.eqb_spec c 0x7f); lia || done.
Qed.

(** The runes of an element: one is a frog just when a byte is. *)
Lemma elem_runes_spec fuel e c t : bytes (e ++ c :: t) -> c < 0x80 -> (0 ∈ c :: t) -> (0 ∉ e) -> (length e < fuel)%nat ->
  elem_runes fuel (e ++ c :: t) (zlen e) = Some (if existsb isfrog e then inl Ebadchar else inr (c :: t)).
Proof.
  revert e. induction fuel as [| fuel IH]; intros e Hb Hc Ht Hz Hf; [lia |]. cbn [elem_runes]. destruct e as [| b e]; [done |].
  destruct (Z.leb_spec (zlen (b :: e)) 0) as [L | L]; [simpl in L; lia |].
  assert (exists r n, chartorune ((b :: e) ++ c :: t) = Some (r, n)) as (r & n & E).
  { apply not_elem_of_cons in Hz as [Hb0 _]. destruct (chartorune_terminated b (e ++ c :: t) Hb ltac:(congruence)) as (r & n & E & _); [| eauto].
    apply elem_of_app. by right. }
  rewrite E. cbn [mbind option_bind].
  assert (exists e1 e2, b :: e = e1 ++ e2 /\ e1 <> [] /\ n = zlen e1 /\ existsb isfrog e1 = (r <? 256) && isfrog r) as (e1 & e2 & Ee & Hne & -> & Hfr).
  { destruct (chartorune_cases _ _ _ Hb E) as [(-> & -> & c' & s' & Es & Hs) | (Hr & -> & s' & Es)].
    - exists [b], e. injection Es as <- _. unfold Runeself in Hs. split_and!; try done. simpl. by rewrite !frog_ascii.
    - destruct (Z.ltb_spec r Runeself) as [Hs | Hs].
      + rewrite runetochar_self in Es by lia. injection Es as <- _. exists [b], e. unfold Runeself in Hs. split_and!; try done.
        * unfold runelen. change Rune1 with 127. by destruct (Z.leb_spec b 127); [| lia].
        * simpl. destruct (Z.ltb_spec b 256); [by rewrite orb_false_r | lia].
      + pose proof (runetochar_multi r Hr Hs) as Hm. unfold Runeself in Hs, Hm.
        assert (exists e2, b :: e = runetochar r ++ e2) as [e2 Ee].
        { revert Es Hm. generalize (runetochar r). generalize (b :: e). clear -Hc. intros l k. revert k. induction l as [| x l IHl]; intros k Es Hm.
          - destruct k as [| y k]; [by exists [] |]. injection Es as <- _. apply Forall_cons in Hm as [? _]. lia.
          - destruct k as [| y k]; [by exists (x :: l) |]. injection Es as <- Es. apply Forall_cons in Hm as [_ Hm].
            destruct (IHl k Es Hm) as [e2 ->]. by exists e2. }
        exists (runetochar r), e2. split_and!; [done | | by rewrite runetochar_length |].
        * destruct (runetochar_cons r) as (? & ? & ->). done.
        * rewrite frog_ascii, andb_false_r by done. clear -Hm. induction Hm as [| x l Hx Hl IHl]; [done |]. simpl. by rewrite frog_ascii. }
  rewrite Ee in *. clear b e Ee. rewrite existsb_app, Hfr. destruct ((r <? 256) && isfrog r); [done |]. cbn [orb].
  rewrite Nat2Z.id, <- app_assoc, drop_app_length. rewrite length_app in *.
  replace (Z.of_nat (length e1 + length e2) - zlen e1) with (zlen e2) by lia.
  apply IH; try done.
  - rewrite <- app_assoc in Hb. by apply Forall_app in Hb as [_ ?].
  - intros Hin. apply Hz, elem_of_app. by right.
  - destruct e1; [done |]. simpl in Hf. lia.
Qed.

Lemma strchr_elem e c t : (0 ∉ e) -> (slash ∉ e) -> strchr (e ++ c :: t) slash = (if c =? slash then Some (Some (length e)) else if c =? 0 then Some None else strchr (e ++ c :: t) slash) /\
  (c = 0 -> strchr (e ++ c :: t) 0 = Some (Some (length e))).
Proof.
  intros Hz Hs. unfold strchr. change (u8 slash) with slash. change (u8 0) with 0. rewrite !strchr_loop_skip by done. cbn [strchr_loop]. split.
  - by destruct (c =? slash), (c =? 0).
  - intros ->. by rewrite Z.eqb_refl.
Qed.

Lemma nextelem_spec e q : bytes ((e ++ q) ++ 0 :: rest) -> (0 ∉ e ++ q) -> (slash ∉ e) -> headed q -> (e = [] -> q = []) ->
  nextelem ((e ++ q) ++ 0 :: rest) = match name_error e with
  | Some x => Some (inl x)
  | None => s ← skipslash (q ++ 0 :: rest); Some (inr (s, e))
  end.
Proof.
  intros Hb Hz Hs Hq He. rewrite <- app_assoc in *. unfold nextelem.
  destruct (q ++ 0 :: rest) as [| c t] eqn:Et; [by destruct q |].
  assert (Hc : (c = 0 /\ q = []) \/ (c = slash /\ exists q', q = slash :: q')).
  { destruct q as [| c' q]; [left; by injection Et as <- _ | right]. simpl in Hq. subst c'. injection Et as <- _. eauto. }
  assert (0 ∈ (c :: t)) as Ht by (rewrite <- Et; apply elem_of_app; right; by left).
  assert (0 ∉ e) as Hze by (intros Hin; apply Hz, elem_of_app; by left).
  assert ((e ++ c :: t) !! 0%nat = Some (match e with [] => c | b :: _ => b end)) as -> by (by destruct e). cbn [mbind option_bind].
  assert ((match e with [] => c | b :: _ => b end =? slash) = false) as ->.
  { apply Z.eqb_neq. destruct e as [| b e].
    - destruct Hc as [[-> _] | (-> & q' & ->)]; [done | by specialize (He eq_refl)].
    - intros ->. apply Hs. by left. }
  assert (utfrune (e ++ c :: t) slash = strchr (e ++ c :: t) slash) as -> by done.
  destruct (strchr_elem e c t Hze Hs) as [E1 E2].
  assert ((e0 ← strchr (e ++ c :: t) slash; w ← match e0 with Some w => Some w | None => e1 ← strchr (e ++ c :: t) 0; e1 end; Some w) = Some (length e)) as Ew.
  { rewrite E1. destruct Hc as [[-> _] | [-> _]]; cbn [Z.eqb slash mbind option_bind]; [by rewrite E2 | done]. }
  destruct (strchr (e ++ c :: t) slash) as [e0 |]; [| done]. cbn [mbind option_bind] in *.
  destruct (match e0 with Some w => Some w | None => e1 ← strchr (e ++ c :: t) 0; e1 end) as [w |]; [| done]. injection Ew as ->. cbn [mbind option_bind].
  unfold name_error. destruct (NAMELEN <=? zlen e); [done |].
  rewrite elem_runes_spec; try done; [| destruct Hc as [[-> _] | [-> _]]; done | lia].
  cbn [mbind option_bind]. destruct (existsb isfrog e); [done |]. rewrite take_app_length. done.
Qed.

Lemma normal_nextelem q : bytes (q ++ 0 :: rest) -> (0 ∉ q) -> normal q ->
  (q = [] /\ nextelem (q ++ 0 :: rest) = Some (inr (0 :: rest, []))) \/
  exists e q', names q = e :: names q' /\ (exists l, q = l ++ q') /\ (length q' < length q)%nat /\ normal q' /\
    nextelem (q ++ 0 :: rest) = match name_error e with Some x => Some (inl x) | None => Some (inr (q' ++ 0 :: rest, e)) end.
Proof.
  intros Hb Hz [-> | (e & q1 & -> & He & Hq & Hn)].
  - left. split; [done |]. change ([] ++ 0 :: rest) with (([] ++ []) ++ 0 :: rest). rewrite nextelem_spec; try done; apply not_elem_of_nil.
  - right. assert (0 ∉ q1) as Hz1 by (intros Hin; apply Hz, elem_of_app; by right).
    destruct (skipslash_names q1 Hz1) as (l & q' & -> & Es & En & Hnorm). exists e, q'.
    rewrite names_elem, En by done. split_and!; try done.
    + exists (e ++ l). by rewrite <- app_assoc.
    + rewrite !length_app. destruct e; [done | simpl; lia].
    + rewrite nextelem_spec; try done; [| by intros ->]. by rewrite Es.
Qed.

Lemma elements_names fuel q : bytes (q ++ 0 :: rest) -> (0 ∉ q) -> normal q -> (length q < fuel)%nat ->
  elements fuel (q ++ 0 :: rest) = Some (match names q with [] => ([[]], None) | es => good_names es end).
Proof.
  revert q. induction fuel as [| fuel IH]; intros q Hb Hz Hn Hf; [lia |]. cbn [elements].
  destruct (normal_nextelem q Hb Hz Hn) as [[-> E] | (e & q' & En & [l El] & Hl & Hn' & E)]; rewrite E; [done |]. rewrite En. cbn [good_names].
  destruct (name_error e) as [x |]; [done |]. cbn [mbind option_bind]. subst q.
  assert (bytes (q' ++ 0 :: rest)) as Hb' by (rewrite <- app_assoc in Hb; by apply Forall_app in Hb as [_ ?]).
  assert (0 ∉ q') as Hz' by (intros Hin; apply Hz, elem_of_app; by right).
  assert ((q' ++ 0 :: rest) !! 0%nat = Some (match q' with [] => 0 | c :: _ => c end)) as -> by (by destruct q'). cbn [mbind option_bind].
  destruct q' as [| c q']; [done |]. destruct (Z.eqb_spec c 0) as [-> | Hc]; [by apply not_elem_of_cons in Hz' as [? _] |].
  rewrite IH by (done || lia). destruct (names (c :: q')) as [| e2 es] eqn:E2; [| cbn [mbind option_bind]; by destruct (good_names (e2 :: es))].
  exfalso. destruct Hn' as [? | (e3 & q3 & E3 & H3 & H4 & H5)]; [done |]. rewrite E3, names_elem in E2 by done. done.
Qed.
End Strings.

(** A path is taken apart into its elements: whatever slashes and dots
    there are, [skipslash] and then [nextelem], as [namec] calls it, yield the
    names between the slashes in order, without the empty ones and the dots, up
    to one that is 28 bytes or longer or holds a byte that is not allowed, which
    is the error; the loop ends and never looks past the end of the string.  A
    path without names is a single empty element. *)
Theorem path_names p rest : bytes p -> bytes rest -> (0 ∉ p) ->
  exists s, skipslash (p ++ 0 :: rest) = Some s /\
    elements (S (length p)) s = Some (match names p with [] => ([[]], None) | es => good_names es end).
Proof.
  intros Hp Hr Hz. destruct (skipslash_names rest p Hz) as (l & q & -> & Es & En & Hn). exists (q ++ 0 :: rest). split; [done |].
  rewrite <- En. rewrite length_app. apply elements_names; try done.
  - apply Forall_app in Hp as [_ Hq]. apply Forall_app. split; [done |]. constructor; [done | done].
  - intros Hin. apply Hz, elem_of_app. by right.
  - lia.
Qed.

(** [/usr//./bin/../\195\169] and something behind it. *)
Lemma path_names_witness : exists s, skipslash ([47; 117; 47; 47; 46; 47; 98; 105; 110; 47; 46; 46; 47; 0xC3; 0xA9] ++ 0 :: [47; 1]) = Some s /\
  elements 16 s = Some ([[117]; [98; 105; 110]; [46; 46]; [0xC3; 0xA9]], None).
Proof.
  destruct (path_names [47; 117; 47; 47; 46; 47; 98; 105; 110; 47; 46; 46; 47; 0xC3; 0xA9] [47; 1]) as (s & E1 & E2).
  - repeat constructor; lia.
  - repeat constructor; lia.
  - rewrite !not_elem_of_cons. split_and!; try done. apply not_elem_of_nil.
  - exists s. split; [exact E1 | exact E2].
Defined.
