(* ===== verification/Ns.v ===== *)
(** * The name space

    Channels to files, the mount table of a group of processes and its table of
    file descriptors: [src/emu/chan.c], [src/emu/sysfile.c] and the groups of
    [src/emu/main.c].

    A channel is known by its [fid], which it keeps when it is reused.  The
    mounts of a mount point are a list; a mount is known by the address it has
    been given, and to follow a pointer to one that has been freed is [Stale].
    Drivers are an interface ([Devices]): what they make of the channel they are
    called with, and errors.  Names of channels ([Path]) are left out; locks are,
    for a call runs from end to end. *)

From S2P Require Import Prelude Styx Rune Name.

#[local] Open Scope Z_scope.

Module Ns.

(** ** Data *)

Record Qid := MkQid { path : Z; vers : Z }.

(** [mnt] points to a mount; [mchan] to the channel to a server. *)
Record Chan := MkChan {
  ref : Z; type : Z; dev : Z; qid : Qid; flag : Z; mode : Z; offset : Z;
  mnt : option Z; mountid : Z; u : Z; mchan : option Z
}.

Record Mount := MkMount { addr : Z; m_id : Z; to : Z; m_flag : Z; m_spec : list Z }.
Record Mhead := MkMhead { from : Z; mount : list Mount }.
Record Pgrp := MkPgrp { mnthash : list (list Mhead); p_slash : Z; p_dot : Z; nodevs : bool }.
Record Fgrp := MkFgrp { fd : list (option Z); maxfd : Z }.

Definition CHDIR := 0x80000000.
Definition COPEN := 1.
Definition CMSG := 2.
Definition CCREATE := 4.
Definition CCEXEC := 8.
Definition CFREE := 16.
Definition CRCLOSE := 32.
Definition MORDER := 3.
Definition MREPL := 0.
Definition MBEFORE := 1.
Definition MAFTER := 2.
Definition MCREATE := 4.
Definition MMASK := 7.
Definition OREAD := 0.
Definition OWRITE := 1.
Definition ORDWR := 2.
Definition OEXEC := 3.
Definition OTRUNC := 16.
Definition OCEXEC := 32.
Definition ORCLOSE := 64.
Definition MNTHASH := 32%nat.
Definition NFD := 100%nat.
Definition DIRLEN := 116.

Inductive access := Aaccess | Atodir | Aopen | Amount | Acreate.

Definition is_set (f m : Z) : bool := negb (Z.land f m =? 0).

Definition set_ref v c := MkChan v (type c) (dev c) (qid c) (flag c) (mode c) (offset c) (mnt c) (mountid c) (u c) (mchan c).
Definition set_type v c := MkChan (ref c) v (dev c) (qid c) (flag c) (mode c) (offset c) (mnt c) (mountid c) (u c) (mchan c).
Definition set_flag v c := MkChan (ref c) (type c) (dev c) (qid c) v (mode c) (offset c) (mnt c) (mountid c) (u c) (mchan c).
Definition set_offset v c := MkChan (ref c) (type c) (dev c) (qid c) (flag c) (mode c) v (mnt c) (mountid c) (u c) (mchan c).
Definition set_mnt v c := MkChan (ref c) (type c) (dev c) (qid c) (flag c) (mode c) (offset c) v (mountid c) (u c) (mchan c).
Definition set_mountid v c := MkChan (ref c) (type c) (dev c) (qid c) (flag c) (mode c) (offset c) (mnt c) v (u c) (mchan c).

Definition eqqid (a b : Qid) : bool := (path a =? path b) && (vers a =? vers b).
Definition eqchan (a b : Chan) (pathonly : bool) : bool :=
  (path (qid a) =? path (qid b)) && (pathonly || (vers (qid a) =? vers (qid b))) && (type a =? type b) && (dev a =? dev b).

(** ** Drivers *)

(** What a walk comes to. *)
Inductive reply := Walked (c : Chan) | Missing | Refused (e : err).

Class Devices := {
  devs : Type;
  devno : Z -> option Z;
  d_attach : devs -> Z -> list Z -> devs * (err + Chan);
  d_clone : devs -> Chan -> devs * (err + Chan);
  d_walk : devs -> Chan -> list Z -> devs * reply;
  d_open : devs -> Chan -> Z -> devs * (err + Chan);
  d_create : devs -> Chan -> list Z -> Z -> Z -> devs * (err + Chan);
  d_read : devs -> Chan -> Z -> Z -> devs * (err + (Chan * list Z));
  d_write : devs -> Chan -> list Z -> Z -> devs * (err + (Chan * Z));
  d_stat : devs -> Chan -> devs * (err + list Z);
  d_wstat : devs -> Chan -> list Z -> devs * (err + unit);
  d_remove : devs -> Chan -> devs * (err + unit);
  d_close : devs -> Chan -> devs;
}.

Section Calls.
Context {D : Devices}.

(** ** State *)

(** [mem] is how often the host still has memory, always if negative; other
    groups hold references too. *)
Record state := MkState {
  chans : gmap Z Chan; free : list Z; fid : Z; mem : Z; nmount : Z; nid : Z;
  pgrp : Pgrp; fgrp : Fgrp; pgrps : list Pgrp; fgrps : list Fgrp; devices : devs
}.

Definition set_chans v s := MkState v (free s) (fid s) (mem s) (nmount s) (nid s) (pgrp s) (fgrp s) (pgrps s) (fgrps s) (devices s).
Definition set_free v s := MkState (chans s) v (fid s) (mem s) (nmount s) (nid s) (pgrp s) (fgrp s) (pgrps s) (fgrps s) (devices s).
Definition set_fid v s := MkState (chans s) (free s) v (mem s) (nmount s) (nid s) (pgrp s) (fgrp s) (pgrps s) (fgrps s) (devices s).
Definition set_mem v s := MkState (chans s) (free s) (fid s) v (nmount s) (nid s) (pgrp s) (fgrp s) (pgrps s) (fgrps s) (devices s).
Definition set_ids a i s := MkState (chans s) (free s) (fid s) (mem s) a i (pgrp s) (fgrp s) (pgrps s) (fgrps s) (devices s).
Definition set_pgrp v s := MkState (chans s) (free s) (fid s) (mem s) (nmount s) (nid s) v (fgrp s) (pgrps s) (fgrps s) (devices s).
Definition set_fgrp v s := MkState (chans s) (free s) (fid s) (mem s) (nmount s) (nid s) (pgrp s) v (pgrps s) (fgrps s) (devices s).
Definition set_pgrps v s := MkState (chans s) (free s) (fid s) (mem s) (nmount s) (nid s) (pgrp s) (fgrp s) v (fgrps s) (devices s).
Definition set_fgrps v s := MkState (chans s) (free s) (fid s) (mem s) (nmount s) (nid s) (pgrp s) (fgrp s) (pgrps s) v (devices s).
Definition set_devices v s := MkState (chans s) (free s) (fid s) (mem s) (nmount s) (nid s) (pgrp s) (fgrp s) (pgrps s) (fgrps s) v.

(** How a call can end other than by returning or raising an error: [panic]; a
    pointer to a mount that is gone; a store past an array. *)
Inductive trap := Panic | Stale | Overrun.
Inductive result (A : Type) := Ret (a : A) (s : state) | Raise (e : err) (s : state) | Trap (t : trap).
#[global] Arguments Ret {A} a s.
#[global] Arguments Raise {A} e s.
#[global] Arguments Trap {A} t.

Definition M (A : Type) : Type := state -> result A.
#[global] Instance m_ret : MRet M := fun A a s => Ret a s.
#[global] Instance m_bind : MBind M := fun A B k m s => match m s with Ret a s => k a s | Raise e s => Raise e s | Trap t => Trap t end.

Definition error {A} (e : err) : M A := fun s => Raise e s.
Definition stop {A} (t : trap) : M A := fun _ => Trap t.
Definition gets {A} (f : state -> A) : M A := fun s => Ret (f s) s.
Definition modify (f : state -> state) : M unit := fun s => Ret tt (f s).
(** [waserror]: [h] runs in the state where the error was raised. *)
Definition catch {A} (m : M A) (h : err -> M A) : M A := fun s => match m s with Raise e s => h e s | r => r end.
(** A load outside an array or a string. *)
Definition need {A} (o : option A) : M A := match o with Some a => mret a | None => stop Overrun end.

Fixpoint forM {A} (xs : list A) (f : A -> M unit) : M unit := match xs with [] => mret tt | x :: xs => f x;; forM xs f end.
Fixpoint mapM {A B} (f : A -> M B) (xs : list A) : M (list B) :=
  match xs with [] => mret [] | x :: xs => y ← f x; ys ← mapM f xs; mret (y :: ys) end.

Definition malloc : M unit :=
  n ← gets mem;
  if n =? 0 then error Enomem else if n <? 0 then mret tt else modify (set_mem (n - 1)).

(** ** Channels *)

Definition chan (c : Z) : M Chan := fun s => match chans s !! c with Some ch => Ret ch s | None => Trap Overrun end.
Definition put (c : Z) (ch : Chan) : M unit := modify (fun s => set_chans (<[c := ch]> (chans s)) s).
Definition upd (c : Z) (f : Chan -> Chan) : M unit := ch ← chan c; put c (f ch).

Definition incref (c : Z) : M unit := upd c (fun ch => set_ref (ref ch + 1) ch).
Definition decref (c : Z) : M Z :=
  ch ← chan c;
  put c (set_ref (ref ch - 1) ch);;
  if ref ch - 1 <? 0 then stop Panic else mret (ref ch - 1).

(** What is not set keeps its value from before, if the channel is reused. *)
Definition newchan : M Z :=
  fs ← gets free;
  c ← match fs with
      | c :: fs => modify (set_free fs);; mret c
      | [] =>
          malloc;;
          n ← gets fid;
          modify (set_fid (n + 1));;
          put (n + 1) (MkChan 0 0 0 (MkQid 0 0) 0 0 0 None 0 0 None);;
          mret (n + 1)
      end;
  upd c (fun ch => MkChan 1 0 0 (qid ch) 0 (mode ch) 0 None (mountid ch) 0 None);;
  mret c.

Definition chanfree (c : Z) : M unit := upd c (set_flag CFREE);; modify (fun s => set_free (c :: free s) s).

Definition cclose (c : Z) : M unit :=
  ch ← chan c;
  if is_set (flag ch) CFREE then stop Panic
  else
    n ← decref c;
    if negb (n =? 0) then mret tt
    else
      ch ← chan c;
      modify (fun s => set_devices (d_close (devices s) ch) s);;
      chanfree c.
Definition cclose_opt (c : option Z) : M unit := match c with Some c => cclose c | None => mret tt end.

Definition isdir (c : Z) : M unit := ch ← chan c; if is_set (path (qid ch)) CHDIR then mret tt else error Enotdir.

(** A driver that raises an error leaves no channel.  Channels that are open are
    not cloned: [devclone] panics. *)
Definition cclone (c : Z) : M Z :=
  ch ← chan c;
  if is_set (flag ch) COPEN then stop Panic
  else
    r ← gets (fun s => d_clone (devices s) ch);
    modify (set_devices r.1);;
    match r.2 with
    | inl e => error e
    | inr ch => nc ← newchan; put nc (set_ref 1 ch);; mret nc
    end.

Definition dev_walk (c : Z) (name : list Z) : M bool :=
  ch ← chan c;
  r ← gets (fun s => d_walk (devices s) ch name);
  modify (set_devices r.1);;
  match r.2 with
  | Walked ch' => put c (set_ref (ref ch) ch');; mret true
  | Missing => mret false
  | Refused e => error e
  end.

Definition dev_open (c : Z) (omode : Z) : M unit :=
  ch ← chan c;
  r ← gets (fun s => d_open (devices s) ch omode);
  modify (set_devices r.1);;
  match r.2 with inl e => error e | inr ch' => put c (set_ref (ref ch) ch') end.

Definition dev_create (c : Z) (name : list Z) (omode perm : Z) : M unit :=
  ch ← chan c;
  r ← gets (fun s => d_create (devices s) ch name omode perm);
  modify (set_devices r.1);;
  match r.2 with inl e => error e | inr ch' => put c (set_ref (ref ch) ch') end.

Definition dev_attach (t : Z) (spec : list Z) : M Z :=
  r ← gets (fun s => d_attach (devices s) t spec);
  modify (set_devices r.1);;
  match r.2 with inl e => error e | inr ch => c ← newchan; put c (set_ref 1 ch);; mret c end.

Definition dev_read (c : Z) (n off : Z) : M (list Z) :=
  ch ← chan c;
  r ← gets (fun s => d_read (devices s) ch n off);
  modify (set_devices r.1);;
  match r.2 with inl e => error e | inr (ch', bs) => put c (set_ref (ref ch) ch');; mret bs end.

Definition dev_write (c : Z) (bs : list Z) (off : Z) : M Z :=
  ch ← chan c;
  r ← gets (fun s => d_write (devices s) ch bs off);
  modify (set_devices r.1);;
  match r.2 with inl e => error e | inr (ch', n) => put c (set_ref (ref ch) ch');; mret n end.

Definition dev_stat (c : Z) : M (list Z) :=
  ch ← chan c;
  r ← gets (fun s => d_stat (devices s) ch);
  modify (set_devices r.1);;
  match r.2 with inl e => error e | inr bs => mret bs end.

Definition dev_wstat (c : Z) (bs : list Z) : M unit :=
  ch ← chan c;
  r ← gets (fun s => d_wstat (devices s) ch bs);
  modify (set_devices r.1);;
  match r.2 with inl e => error e | inr _ => mret tt end.

Definition dev_remove (c : Z) : M unit :=
  ch ← chan c;
  r ← gets (fun s => d_remove (devices s) ch);
  modify (set_devices r.1);;
  match r.2 with inl e => error e | inr _ => mret tt end.

(** ** The mount table *)

(** The mounts from the one at an address on. *)
Fixpoint suffix (p : Z) (ms : list Mount) : option (list Mount) :=
  match ms with [] => None | m :: ms' => if addr m =? p then Some ms else suffix p ms' end.
Definition heads (pg : Pgrp) : list Mhead := concat (mnthash pg).
Definition all_heads (s : state) : list Mhead := heads (pgrp s) ++ (pgrps s ≫= heads).
Definition mounts_at (p : Z) : M (list Mount) :=
  hs ← gets all_heads;
  match omap (fun h => suffix p (mount h)) hs with ms :: _ => mret ms | [] => stop Stale end.

Definition MOUNTH (c : Chan) : nat := Z.to_nat (path (qid c) mod Z.of_nat MNTHASH).
Definition bucket (b : nat) : M (list Mhead) := l ← gets (fun s => mnthash (pgrp s) !! b); need l.
Definition set_bucket (b : nat) (l : list Mhead) : M unit :=
  modify (fun s => let p := pgrp s in set_pgrp (MkPgrp (<[b := l]> (mnthash p)) (p_slash p) (p_dot p) (nodevs p)) s).

(** Is [c] the channel known as [a]? *)
Definition is_chan (cs : gmap Z Chan) (c : Chan) (a : Z) : bool := match cs !! a with Some ch => eqchan ch c true | None => false end.
Fixpoint position {A} (f : A -> bool) (l : list A) : option nat :=
  match l with [] => None | x :: l => if f x then Some O else S <$> position f l end.
Definition find_head (c : Chan) (l : list Mhead) : M (option nat) := gets (fun s => position (fun m => is_chan (chans s) c (from m)) l).

(** The copy of [spec] takes [NAMELEN] bytes at most. *)
Definition newmount (c flg : Z) (spec : list Z) : M Mount :=
  malloc;;
  incref c;;
  a ← gets nmount;
  i ← gets nid;
  modify (set_ids (a + 1) (i + 1));;
  if NAMELEN <=? zlen spec then stop Overrun else mret (MkMount (a + 1) (i + 1) c flg spec).

Definition mountfree (ms : list Mount) : M unit := forM ms (fun m => cclose (to m)).

(** What [cmount] does after it has found or made the head, the [i]th of the bucket. *)
Definition cmount_rest (new flg : Z) (spec : list Z) (cn : Chan) (b i : nat) : M Z :=
  let order := Z.land flg MORDER in
  nm ← newmount new flg spec;
  us ← match mnt cn with
       | None => mret []
       | Some p =>
           ms ← mounts_at p;
           mapM (fun um => newmount (to um) (if order =? MREPL then MAFTER else order) (m_spec um)) (tail ms)
       end;
  l ← bucket b;
  m ← need (l !! i);
  ms ← (if order =? MREPL then mountfree (mount m);; mret [] else mret (mount m));
  (if is_set flg MCREATE then upd new (fun ch => set_flag (Z.lor (flag ch) CCREATE) ch) else mret tt);;
  set_bucket b (<[i := MkMhead (from m) (if order =? MAFTER then ms ++ nm :: us else nm :: us ++ ms)]> l);;
  mret (m_id nm).
Definition cmount (new old flg : Z) (spec : list Z) : M Z :=
  cn ← chan new;
  co ← chan old;
  if is_set (Z.lxor (path (qid co)) (path (qid cn))) CHDIR then error Emount
  else
    let order := Z.land flg MORDER in
    if negb (is_set (path (qid co)) CHDIR) && negb (order =? MREPL) then error Emount
    else
      let b := MOUNTH co in
      l ← bucket b;
      i ← find_head co l;
      r ← match i with
          | None =>
              malloc;;
              incref old;;
              set_bucket b (l ++ [MkMhead old []]);;
              (if negb (order =? MREPL) then
                 f ← newmount old 0 [];
                 set_bucket b (l ++ [MkMhead old [f]])
               else mret tt);;
              mret (inr (length l))
          | Some i =>
              m ← need (l !! i);
              cf ← chan (from m);
              if eqchan cf cn true then f ← need (head (mount m)); mret (inl (m_id f)) else mret (inr i)
          end;
      match r with
      | inl id => mret id
      | inr i => cmount_rest new flg spec cn b i
      end.

Definition remove_at {A} (i : nat) (l : list A) : list A := delete i l.

(** What [cunmount] looks for: a mount of the channel, or of its server. *)
Definition mounted_as (cs : gmap Z Chan) (c : Chan) (m : Mount) : bool :=
  is_chan cs c (to m) || match cs !! to m with Some ch => match mchan ch with Some mc => is_chan cs c mc | None => false end | None => false end.

Definition cunmount (mnt_ : Z) (mounted : option Z) : M unit :=
  cm ← chan mnt_;
  let b := MOUNTH cm in
  l ← bucket b;
  i ← find_head cm l;
  match i with
  | None => error Eunmount
  | Some i =>
      m ← need (l !! i);
      match mounted with
      | None =>
          set_bucket b (remove_at i l);;
          mountfree (mount m);;
          cclose (from m)
      | Some c =>
          c ← chan c;
          j ← gets (fun s => position (mounted_as (chans s) c) (mount m));
          match j with
          | None => error Eunion
          | Some j =>
              f ← need (mount m !! j);
              let ms := remove_at j (mount m) in
              set_bucket b (<[i := MkMhead (from m) ms]> l);;
              mountfree [f];;
              match ms with
              | [] => set_bucket b (remove_at i l);; cclose (from m)
              | _ => mret tt
              end
          end
      end
  end.

Definition domount (c : Z) : M Z :=
  upd c (set_mnt None);;
  ch ← chan c;
  l ← bucket (MOUNTH ch);
  i ← find_head ch l;
  match i with
  | None => mret c
  | Some i =>
      m ← need (l !! i);
      f ← need (head (mount m));
      nc ← cclone (to f);
      upd nc (set_mnt (Some (addr f)));;
      upd nc (set_mountid (m_id f));;
      cclose c;;
      mret nc
  end.

(** A channel that is mounted gives way to what it is mounted upon, through all
    the mount points. *)
Fixpoint undomount_loop (hs : list Mhead) (c : Z) : M Z :=
  match hs with
  | [] => mret c
  | f :: hs =>
      ch ← chan c;
      found ← gets (fun s => existsb (fun t => match chans s !! to t with Some ct => eqchan ch ct true | None => false end) (mount f));
      if found : bool then
        cclose c;;
        c ← cclone (from f);
        undomount_loop hs c
      else undomount_loop hs c
  end.
Definition undomount (c : Z) : M Z := hs ← gets (fun s => heads (pgrp s)); undomount_loop hs c.

Definition dotdot : list Z := [46; 46].
Definition clear_create (c : Z) : M unit := upd c (fun ch => set_flag (Z.land (flag ch) (Z.lnot CCREATE)) ch).

(** The first member of a union that has the name. *)
Fixpoint walk_union (ms : list Mount) (name : list Z) : M (option Z) :=
  match ms with
  | [] => mret None
  | f :: ms =>
      c ← cclone (to f);
      clear_create c;;
      ok ← catch (dev_walk c name) (fun e => cclose c;; error e);
      if ok : bool then mret (Some c) else cclose c;; walk_union ms name
  end.

Definition walk (ac : Z) (name : list Z) (domnt : bool) : M (option Z) :=
  match name with
  | [] => mret (Some ac)
  | _ =>
      a ← chan ac;
      sl ← gets (fun s => p_slash (pgrp s));
      csl ← chan sl;
      let dd := bool_decide (name = dotdot) in
      if dd && eqchan csl a true then mret (Some ac)
      else
        ac ← (if dd then undomount ac else mret ac);
        clear_create ac;;
        ok ← dev_walk ac name;
        if ok : bool then
          ac ← (if dd then undomount ac else mret ac);
          ac ← (if domnt then domount ac else mret ac);
          mret (Some ac)
        else
          a ← chan ac;
          match mnt a with
          | None => mret None
          | Some p =>
              ms ← mounts_at p;
              r ← walk_union ms name;
              match r with
              | None => mret None
              | Some c =>
                  c ← (if dd then undomount c else mret c);
                  upd c (set_mnt None);;
                  c ← (if domnt then catch (domount c) (fun e => cclose c;; error e) else mret c);
                  cclose ac;;
                  mret (Some c)
              end
          end
  end.

Definition createdir (c : Z) : M Z :=
  ch ← chan c;
  ms ← match mnt ch with Some p => mounts_at p | None => mret [] end;
  i ← gets (fun s => position (fun f => match chans s !! to f with Some ct => is_set (flag ct) CCREATE | None => false end) ms);
  match i with
  | None => error Enocreate
  | Some i =>
      f ← need (ms !! i);
      nc ← cclone (to f);
      upd nc (set_mnt (Some (addr f)));;
      cclose c;;
      mret nc
  end.

(** ** Names *)

Definition keep {A} (c : Z) (m : M A) : M A := catch m (fun e => cclose c;; error e).
Definition checked {A} (r : option (err + A)) : M A := match r with Some (inr a) => mret a | Some (inl e) => error e | None => stop Overrun end.

(** The element of [#] and a letter, and what follows. *)
Fixpoint sharp (n : nat) (name : list Z) : option (list Z * list Z) :=
  match name with
  | [] => None
  | c :: name' =>
      if negb (c =? 0) && (negb (c =? slash) || (n <? 2)%nat) then '(e, r) ← sharp (S n) name'; Some (c :: e, r)
      else Some ([], name)
  end.

(** [up->elem] holds [NAMELEN] bytes.  The channel to start from, the rest of
    the name, [mntok] and [isdot]. *)
Definition namec_start (name : list Z) : M (Z * list Z * bool * bool) :=
  c0 ← need (name !! 0%nat);
  if c0 =? slash then
    sl ← gets (fun s => p_slash (pgrp s));
    c ← cclone sl;
    name ← need (skipslash name);
    mret (c, name, true, false)
  else if c0 =? 35 then
    nd ← gets (fun s => nodevs (pgrp s));
    if nd : bool then error Eperm
    else
      '(elem, name) ← need (sharp 0 name);
      if NAMELEN <=? zlen elem then stop Overrun
      else
        '(r, n) ← need (chartorune (drop 1 elem ++ [0]));
        if r =? 77 then error Ebadsharp
        else
          match devno r with
          | None => error Ebadsharp
          | Some t =>
              c ← dev_attach t (drop (Z.to_nat (n + 1)) elem);
              name ← need (skipslash name);
              mret (c, name, false, false)
          end
  else
    d ← gets (fun s => p_dot (pgrp s));
    c ← cclone d;
    name ← need (skipslash name);
    b ← need (name !! 0%nat);
    mret (c, name, true, b =? 0).

(** A walk that has to succeed; the channel is closed if it does not. *)
Definition walk_to (c : Z) (elem : list Z) (domnt : bool) : M Z :=
  keep c (r ← walk c elem domnt; match r with Some nc => mret nc | None => error Enonexist end).

(** The loop over the elements but the last. *)
Fixpoint walks (fuel : nat) (c : Z) (name elem : list Z) (mntok : bool) : M (Z * list Z) :=
  match fuel with
  | O => stop Overrun
  | S fuel =>
      b ← need (name !! 0%nat);
      if b =? 0 then mret (c, elem)
      else
        c ← walk_to c elem mntok;
        '(name, elem) ← keep c (checked (nextelem name));
        walks fuel c name elem mntok
  end.

Definition open_flags (c omode : Z) : M unit :=
  (if is_set omode OCEXEC then upd c (fun ch => set_flag (Z.lor (flag ch) CCEXEC) ch) else mret tt);;
  (if is_set omode ORCLOSE then upd c (fun ch => set_flag (Z.lor (flag ch) CRCLOSE) ch) else mret tt).
Definition namec_open (c omode : Z) : M Z := keep c (dev_open c omode);; open_flags c omode;; mret c.

Definition namec_create (c : Z) (elem : list Z) (isdot : bool) (omode perm : Z) : M Z :=
  if isdot then keep c (error Eisdir)
  else
    keep c (checked (nameok (elem ++ [0])));;
    r ← keep c (walk c elem true);
    match r with
    | Some c => namec_open c (Z.lor omode OTRUNC)
    | None =>
        ch ← chan c;
        c ← match mnt ch with Some _ => if is_set (flag ch) CCREATE then mret c else keep c (createdir c) | None => mret c end;
        catch (dev_create c elem omode perm;; open_flags c omode;; mret c) (fun createerr =>
          r ← keep c (r ← walk c elem true; match r with Some nc => mret nc | None => error createerr end);
          namec_open r (Z.lor omode OTRUNC))
    end.

(** The elements of the name but the last, which is left. *)
Definition namec_elems (amode : access) (c : Z) (name : list Z) (mntok isdot : bool) : M (Z * list Z) :=
  '(name, elem) ← keep c (checked (nextelem name));
  c ← (if mntok && negb isdot && negb (match amode with Amount => true | _ => false end && match elem with [] => true | _ => false end)
       then keep c (domount c) else mret c);
  walks (S (length name)) c name elem mntok.

Definition namec_end (amode : access) (omode perm : Z) (c : Z) (elem : list Z) (mntok isdot : bool) : M Z :=
  match amode with
  | Aaccess => if isdot then keep c (domount c) else walk_to c elem mntok
  | Atodir => c ← walk_to c elem false; keep c (isdir c);; mret c
  | Aopen => c ← (if isdot then keep c (domount c) else walk_to c elem mntok); namec_open c omode
  | Amount => walk_to c elem false
  | Acreate => namec_create c elem isdot omode perm
  end.

Definition namec (name : list Z) (amode : access) (omode perm : Z) : M Z :=
  c0 ← need (name !! 0%nat);
  if c0 =? 0 then error Enonexist
  else
    bs ← need (utfrune name 92);
    match bs with
    | Some _ => error Enonexist
    | None =>
        '(c, name, mntok, isdot) ← namec_start name;
        '(c, elem) ← namec_elems amode c name mntok isdot;
        namec_end amode omode perm c elem mntok isdot
    end.

(** ** File descriptors *)

Definition openmode (o : Z) : M Z :=
  let o := u32 o in
  if Z.lor (Z.lor OTRUNC OCEXEC) (Z.lor ORCLOSE OEXEC) <=? o then error Ebadarg
  else
    let o := Z.land o (Z.lnot (Z.lor (Z.lor OTRUNC OCEXEC) ORCLOSE)) in
    if OEXEC <? o then error Ebadarg else if o =? OEXEC then mret OREAD else mret o.

Definition fd_at (f : Fgrp) (n : Z) : option Z := if n <? 0 then None else match fd f !! Z.to_nat n with Some (Some c) => Some c | _ => None end.

Definition fdtochan (n md : Z) (chkmnt iref : bool) : M Z :=
  f ← gets fgrp;
  if (n <? 0) || (maxfd f <? n) then error Ebadfd
  else match fd_at f n with
  | None => error Ebadfd
  | Some c =>
      (if iref then incref c else mret tt);;
      ch ← chan c;
      let bad : M Z := (if iref then cclose c else mret tt);; error Ebadusefd in
      if chkmnt && is_set (flag ch) CMSG then bad
      else if (md <? 0) || (mode ch =? ORDWR) then mret c
      else if is_set md OTRUNC && (mode ch =? OREAD) then bad
      else if negb (Z.land md (Z.lnot OTRUNC) =? mode ch) then bad
      else mret c
  end.

Definition set_fd (f : Fgrp) (n : nat) (c : option Z) : Fgrp := MkFgrp (<[n := c]> (fd f)) (maxfd f).

(** [maxfd] goes down to the last of the free ones below. *)
Fixpoint lower (i : nat) (l : list (option Z)) (m : Z) : Z :=
  match i with
  | O => m
  | S i => match l !! i with Some None => lower i l (Z.of_nat i) | _ => m end
  end.

Definition fdclose (n : Z) (flg : Z) : M unit :=
  f ← gets fgrp;
  match fd_at f n with
  | None => mret tt
  | Some c =>
      ch ← chan c;
      if negb (flg =? 0) && negb (is_set (flag ch) flg) then mret tt
      else
        let f := set_fd f (Z.to_nat n) None in
        modify (set_fgrp (if n =? maxfd f then MkFgrp (fd f) (lower (Z.to_nat n) (fd f) (maxfd f)) else f));;
        cclose c
  end.

Definition newfd (c : Z) : M Z :=
  f ← gets fgrp;
  match position (fun x : option Z => match x with None => true | Some _ => false end) (take NFD (fd f)) with
  | Some i => modify (set_fgrp (MkFgrp (<[i := Some c]> (fd f)) (Z.max (maxfd f) (Z.of_nat i))));; mret (Z.of_nat i)
  | None => error Exhausted
  end.

(** ** System calls *)

Definition call (m : M Z) : M Z := catch m (fun _ => mret (-1)).

Definition kchdir (p : list Z) : M Z := call (
  c ← namec p Atodir 0 0;
  d ← gets (fun s => p_dot (pgrp s));
  cclose d;;
  modify (fun s => let g := pgrp s in set_pgrp (MkPgrp (mnthash g) (p_slash g) c (nodevs g)) s);;
  mret 0).

Definition kclose (n : Z) : M Z := call (fdtochan n (-1) false false;; fdclose n 0;; mret 0).

Definition kopen (p : list Z) (md : Z) : M Z := call (openmode md;; c ← namec p Aopen md 0; keep c (newfd c)).
Definition kcreate (p : list Z) (md perm : Z) : M Z := call (openmode md;; c ← namec p Acreate md perm; keep c (newfd c)).

Definition kdup (old new : Z) : M Z := call (
  c ← fdtochan old (-1) false true;
  if negb (new =? -1) then
    if (new <? 0) || (Z.of_nat NFD <=? new) then cclose c;; error Ebadfd
    else
      f ← gets fgrp;
      modify (set_fgrp (MkFgrp (<[Z.to_nat new := Some c]> (fd f)) (Z.max (maxfd f) new)));;
      cclose_opt (fd_at f new);;
      mret new
  else keep c (newfd c)).

Definition bindmount (c : Z) (old : list Z) (flg : Z) (spec : list Z) : M Z :=
  if (MMASK <? flg) || (Z.land flg MORDER =? Z.lor MBEFORE MAFTER) then error Ebadarg
  else
    c1 ← namec old Amount 0 0;
    r ← keep c1 (cmount c c1 flg spec);
    cclose c1;;
    mret r.

Definition kbind (new old : list Z) (flags : Z) : M Z := call (
  c0 ← namec new Aaccess 0 0;
  r ← keep c0 (bindmount c0 old flags []);
  cclose c0;;
  mret r).

(** [old] is the empty string where there is none. *)
Definition kunmount (old new : list Z) : M Z := call (
  cm ← namec new Amount OREAD 0;
  b ← need (old !! 0%nat);
  cd ← (if b =? 0 then mret None else c ← keep cm (namec old Aaccess OREAD 0); mret (Some c));
  catch (cunmount cm cd) (fun e => cclose cm;; cclose_opt cd;; error e);;
  cclose cm;;
  cclose_opt cd;;
  mret 0).

(** [remove] clunks the channel, which then is one of the root's. *)
Definition kremove (p : list Z) : M Z := call (
  c ← namec p Aaccess 0 0;
  catch (dev_remove c) (fun e => upd c (set_type 0);; cclose c;; error e);;
  upd c (set_type 0);;
  cclose c;;
  mret 0).

(** Bytes that a read gives, until there are [n] of them or none come; whether
    an error ended it. *)
Fixpoint read_loop (fuel : nat) (c : Z) (n : Z) (got : list Z) : M (list Z * bool) :=
  match fuel with
  | O => mret (got, false)
  | S fuel =>
      if n <=? zlen got then mret (got, false)
      else
        ch ← chan c;
        r ← catch (bs ← dev_read c (n - zlen got) (offset ch); mret (Some bs)) (fun _ => mret None);
        match r with
        | None => mret (got, true)
        | Some [] => mret (got, false)
        | Some bs => upd c (fun ch => set_offset (u32 (offset ch + zlen bs)) ch);; read_loop fuel c n (got ++ bs)
        end
  end.

(** The members of a union one after the other, those that give an error
    skipped. *)
Fixpoint unionread_loop (fuel : nat) (c : Z) (n : Z) (got : list Z) : M (list Z) :=
  match fuel with
  | O => stop Overrun
  | S fuel =>
      ch ← chan c;
      p ← need (mnt ch);
      ms ← mounts_at p;
      f ← need (head ms);
      nc ← cclone (to f);
      if negb (mountid ch =? m_id f) then cclose nc;; mret []
      else
        opened ← catch (dev_open nc OREAD;; mret true) (fun _ => mret false);
        r ← (if opened : bool then
               upd nc (set_offset (offset ch));;
               r ← read_loop (Z.to_nat n) nc n got;
               (if r.2 : bool then mret tt else nch ← chan nc; upd c (set_offset (offset nch)));;
               mret r
             else mret (got, true));
        cclose nc;;
        if negb r.2 && (n <=? zlen r.1) then mret r.1
        else
          match tail ms with
          | [] => upd c (set_mnt None);; mret r.1
          | f :: _ =>
              upd c (set_mnt (Some (addr f)));;
              upd c (set_mountid (m_id f));;
              upd c (set_offset 0);;
              unionread_loop fuel c n r.1
          end
  end.

(** The number of bytes, or -1, and the bytes. *)
Definition kread (n : Z) (count : Z) : M (Z * list Z) := catch (
  c ← fdtochan n OREAD true true;
  r ← keep c (
    ch ← chan c;
    let dir := is_set (path (qid ch)) CHDIR in
    let count := if dir then count - Z.rem count DIRLEN else count in
    if dir && (negb (offset ch mod DIRLEN =? 0) || (count =? 0)) then error Etoosmall
    else
      match mnt ch with
      | Some p => if dir then ms ← mounts_at p; unionread_loop (S (length ms)) c count []
                  else bs ← dev_read c count (offset ch); upd c (fun ch => set_offset (u32 (offset ch + zlen bs)) ch);; mret bs
      | None => bs ← dev_read c count (offset ch); upd c (fun ch => set_offset (u32 (offset ch + zlen bs)) ch);; mret bs
      end);
  cclose c;;
  mret (zlen r, r)) (fun _ => mret (-1, [])).

(** [c] is a channel to be read or written, not a directory to be written. *)
Definition kwrite (n : Z) (bs : list Z) : M Z := call (
  c ← fdtochan n OWRITE true true;
  r ← keep c (
    ch ← chan c;
    if is_set (path (qid ch)) CHDIR then error Eisdir
    else
      r ← dev_write c bs (offset ch);
      upd c (fun ch => set_offset (u32 (offset ch + r)) ch);;
      mret r);
  cclose c;;
  mret r).

Definition no_dir : Dir := mkDir [] [] [] 0 0 0 0 0 0 0 0.

Definition kseek (n off whence : Z) : M Z := call (
  c ← fdtochan n (-1) true true;
  off ← keep c (
    ch ← chan c;
    if is_set (path (qid ch)) CHDIR then error Eisdir
    else if whence =? 0 then upd c (set_offset (u32 off));; mret off
    else if whence =? 1 then upd c (set_offset (u32 (offset ch + off)));; mret (i32 (offset ch + off))
    else if whence =? 2 then
      buf ← dev_stat c;
      '(dir, _) ← need (convM2D buf no_dir);
      upd c (set_offset (u32 (d_length dir + off)));;
      mret (i32 (d_length dir + off))
    else error Ebadarg : M Z);
  cclose c;;
  mret off).

(** 0 or -1, and the entry. *)
Definition kfstat (n : Z) : M (Z * list Z) := catch (
  c ← fdtochan n (-1) false true;
  buf ← keep c (dev_stat c);
  cclose c;;
  mret (0, buf)) (fun _ => mret (-1, [])).
Definition kstat (p : list Z) : M (Z * list Z) := catch (
  c ← namec p Aaccess 0 0;
  buf ← keep c (dev_stat c);
  cclose c;;
  mret (0, buf)) (fun _ => mret (-1, [])).

Definition kfwstat (n : Z) (buf : list Z) : M Z := call (
  checked (nameok buf);;
  c ← fdtochan n (-1) true true;
  keep c (dev_wstat c buf);;
  cclose c;;
  mret 0).
Definition kwstat (p buf : list Z) : M Z := call (
  checked (nameok buf);;
  c ← namec p Aaccess 0 0;
  keep c (dev_wstat c buf);;
  cclose c;;
  mret 0).

(** ** Groups *)

Definition newfgrp : M Fgrp := malloc;; mret (MkFgrp (replicate NFD None) 0).

(** The channels of a group up to [maxfd]. *)
Definition used_fds (f : Fgrp) : list (option Z) := take (S (Z.to_nat (maxfd f))) (fd f).

Definition dupfgrp (f : Fgrp) : M Fgrp :=
  new ← newfgrp;
  forM (used_fds f) (fun c => match c with Some c => incref c | None => mret tt end);;
  mret (MkFgrp (used_fds f ++ drop (length (used_fds f)) (fd new)) (maxfd f)).

(** The last reference to a group goes. *)
Definition closefgrp (f : Fgrp) : M unit := forM (used_fds f) cclose_opt.

(** The mounts of a group by the age of their numbers. *)
Fixpoint pgrpinsert (order : list Mount) (m : Mount) : list Mount :=
  match order with
  | [] => [m]
  | f :: fs => if m_id m <? m_id f then m :: order else f :: pgrpinsert fs m
  end.
Definition place (order : list Mount) (m : Mount) : Z := Z.of_nat (default O (position (fun f => addr f =? addr m) order)).

(** A group that copies the name space: the numbers of its mounts are in the
    order of those of the parent. *)
Definition copy_mount (first : Z) (order : list Mount) (m : Mount) : M Mount :=
  malloc;;
  incref (to m);;
  a ← gets nmount;
  i ← gets nid;
  modify (set_ids (a + 1) i);;
  mret (MkMount (a + 1) (first + place order m) (to m) (m_flag m) (m_spec m)).
Definition copy_head (first : Z) (order : list Mount) (f : Mhead) : M Mhead :=
  malloc;;
  incref (from f);;
  ms ← mapM (copy_mount first order) (mount f);
  mret (MkMhead (from f) ms).
Definition pgrpcpy (p : Pgrp) : M Pgrp :=
  first ← gets nid;
  let order := fold_left pgrpinsert (heads p ≫= mount) [] in
  hs ← mapM (mapM (copy_head first order)) (mnthash p);
  a ← gets nmount;
  modify (set_ids a (first + zlen order));;
  sl ← cclone (p_slash p);
  d ← cclone (p_dot p);
  mret (MkPgrp hs sl d (nodevs p)).

Definition closepgrp (p : Pgrp) : M unit :=
  forM (heads p) (fun f => cclose (from f);; mountfree (mount f));;
  cclose (p_slash p);;
  cclose (p_dot p).

(** The process leaves its groups, which are closed if it was the last one. *)
Definition leave_fgrp (shared : bool) : M unit :=
  f ← gets fgrp; if shared then modify (fun s => set_fgrps (fgrps s ++ [f]) s) else closefgrp f.
Definition leave_pgrp (shared : bool) : M unit :=
  p ← gets pgrp; if shared then modify (fun s => set_pgrps (pgrps s ++ [p]) s) else closepgrp p.

Definition Sys_NEWFD := 1.
Definition Sys_FORKFD := 2.
Definition Sys_NEWNS := 4.
Definition Sys_FORKNS := 8.
Definition Sys_NODEVS := 32.

(** The descriptors that are kept: the test is true of every [fd]. *)
Fixpoint keep_fds (ofg : Fgrp) (movefd : list Z) (nfg : Fgrp) : M Fgrp :=
  match movefd with
  | [] => mret nfg
  | n :: movefd =>
      if (0 <=? n) || (n <? maxfd ofg) then
        c ← need (fd_at ofg n);
        incref c;;
        keep_fds ofg movefd (MkFgrp (<[Z.to_nat n := Some c]> (fd nfg)) (Z.max (maxfd nfg) n))
      else keep_fds ofg movefd nfg
  end.

Definition pctl_fd (flags : Z) (movefd : list Z) (shared : bool) : M unit :=
  if is_set flags Sys_NEWFD then
    ofg ← gets fgrp;
    nfg ← newfgrp;
    nfg ← keep_fds ofg movefd nfg;
    leave_fgrp shared;;
    modify (set_fgrp nfg)
  else if is_set flags Sys_FORKFD then
    f ← gets fgrp;
    fg ← dupfgrp f;
    forM movefd (fun n => kclose n;; mret tt);;
    leave_fgrp shared;;
    modify (set_fgrp fg)
  else mret tt.

Definition pctl_ns (flags : Z) (shared : bool) : M unit :=
  if is_set flags Sys_NEWNS then
    malloc;;
    dot ← gets (fun s => p_dot (pgrp s));
    d ← cclone dot;
    sl ← cclone dot;
    leave_pgrp shared;;
    modify (set_pgrp (MkPgrp (replicate MNTHASH []) sl d false))
  else if is_set flags Sys_FORKNS then
    malloc;;
    p ← gets pgrp;
    np ← pgrpcpy p;
    leave_pgrp shared;;
    modify (set_pgrp np)
  else mret tt.

(** [shared]: other processes are in the group. *)
Definition Sys_pctl (flags : Z) (movefd : list Z) (shared_fd shared_ns : bool) : M unit :=
  pctl_fd flags movefd shared_fd;;
  pctl_ns flags shared_ns;;
  if is_set flags Sys_NODEVS then
    modify (fun s => let p := pgrp s in set_pgrp (MkPgrp (mnthash p) (p_slash p) (p_dot p) true) s)
  else mret tt.

End Calls.
End Ns.
