(* ===== verification/NsInv.v ===== *)
(** * The name space: the invariant

    Who holds a channel, as a list of tokens: the tables of the groups and the
    local variables of the call that runs.  The count of a channel is the number
    of its tokens; what has none is on the free list.  The rules by which the
    calls are proved. *)

From S2P Require Import Prelude Styx Rune Name Ns.
Import Ns.

#[local] Open Scope Z_scope.

(** ** Tokens *)

(** A channel that is held only here and not open; one that is not open; one
    that may be. *)
Inductive tag := Own | Shr | Any.
#[export] Instance tag_eq_dec : EqDecision tag.
Proof. solve_decision. Defined.

Definition token : Type := tag * Z.

Definition head_tokens (h : Mhead) : list token := (Shr, from h) :: ((fun m => (Shr, to m)) <$> mount h).
Definition pg_tokens (g : Pgrp) : list token := (Shr, p_slash g) :: (Shr, p_dot g) :: (heads g ≫= head_tokens).
Definition fg_tokens (f : Fgrp) : list token := omap (fun c => (fun c => (Any, c)) <$> c) (fd f).

Record Good (cs : gmap Z Chan) (fr : list Z) (n : Z) (T : list token) : Prop := MkGood {
  g_nodup : NoDup fr;
  g_fid : forall c ch, cs !! c = Some ch -> c <= n;
  g_dead : forall c, c ∈ fr -> exists ch, cs !! c = Some ch /\ flag ch = CFREE;
  g_live : forall t c, (t, c) ∈ T -> exists ch, cs !! c = Some ch /\ c ∉ fr;
  g_ref : forall c ch, cs !! c = Some ch -> c ∉ fr -> ref ch = Z.of_nat (occ c T.*2) /\ 0 < ref ch /\ is_set (flag ch) CFREE = false;
  g_shut : forall t c ch, (t, c) ∈ T -> t <> Any -> cs !! c = Some ch -> is_set (flag ch) COPEN = false;
  g_own : forall c, (Own, c) ∈ T -> occ c T.*2 = 1%nat
}.

(** ** The tables *)

Definition key (c : Chan) : Z * Z * Z := (path (qid c), type c, dev c).
Definition key_at (cs : gmap Z Chan) (c : Z) : option (Z * Z * Z) := key <$> cs !! c.

Record Table (cs : gmap Z Chan) (g : Pgrp) : Prop := MkTable {
  t_hash : length (mnthash g) = MNTHASH;
  t_full : forall h, h ∈ heads g -> mount h <> [] /\ Forall (fun m => zlen (m_spec m) < NAMELEN) (mount h);
  t_place : forall b l h, mnthash g !! b = Some l -> h ∈ l -> exists ch, cs !! from h = Some ch /\ MOUNTH ch = b;
  t_keys : NoDup ((fun h => key_at cs (from h)) <$> heads g)
}.

Record Fds (f : Fgrp) : Prop := MkFds {
  f_length : length (fd f) = NFD;
  f_max : 0 <= maxfd f < Z.of_nat NFD;
  f_used : forall i c, fd f !! i = Some (Some c) -> Z.of_nat i <= maxfd f
}.

Section Invariant.
Context {D : Devices}.

Definition holders (s : state) : list token := pg_tokens (pgrp s) ++ (pgrps s ≫= pg_tokens) ++ fg_tokens (fgrp s) ++ (fgrps s ≫= fg_tokens).

Record Shape (s : state) : Prop := MkShape {
  s_mem : mem s < 0;
  s_tables : Forall (Table (chans s)) (pgrp s :: pgrps s);
  s_addrs : NoDup (addr <$> (all_heads s ≫= mount));
  s_nmount : forall m, m ∈ (all_heads s ≫= mount) -> addr m <= nmount s;
  s_fds : Forall Fds (fgrp s :: fgrps s)
}.

(** [E] are the tokens of the call that runs. *)
Definition Inv (E : list token) (s : state) : Prop := Good (chans s) (free s) (fid s) (holders s ++ E) /\ Shape s.

(** ** Tokens and channels *)

Section Goods.
Context (cs : gmap Z Chan) (fr : list Z) (n : Z).

Lemma good_perm T T' : T ≡ₚ T' -> Good cs fr n T -> Good cs fr n T'.
Proof.
  intros E [H1 H2 H3 H4 H5 H6 H7]. split; try done.
  - intros t c Hc. apply (H4 t). by rewrite E.
  - intros c ch. rewrite <- E. apply H5.
  - intros t c ch Hc. apply (H6 t). by rewrite E.
  - intros c. rewrite <- E. apply H7.
Qed.

Lemma snd_elem (T : list token) t c : (t, c) ∈ T -> c ∈ T.*2.
Proof. intros H. apply list_elem_of_fmap. by exists (t, c). Qed.
Lemma elem_snd (T : list token) c : c ∈ T.*2 -> exists t, (t, c) ∈ T.
Proof. intros ([t c'] & -> & H)%list_elem_of_fmap. by exists t. Qed.

Lemma occ_one x (T : list token) t y : occ x ((t, y) :: T).*2 = ((if decide (y = x) then 1 else 0) + occ x T.*2)%nat.
Proof. apply occ_cons. Qed.

Lemma good_get T t c : Good cs fr n T -> (t, c) ∈ T ->
  exists ch, cs !! c = Some ch /\ (c ∉ fr) /\ ref ch = Z.of_nat (occ c T.*2) /\ 0 < ref ch /\ is_set (flag ch) CFREE = false /\
    (t <> Any -> is_set (flag ch) COPEN = false) /\ (t = Own -> ref ch = 1).
Proof.
  intros G Hc. destruct (g_live _ _ _ _ G t c Hc) as (ch & E & Hf). destruct (g_ref _ _ _ _ G c ch E Hf) as (H1 & H2 & H3).
  exists ch. split_and!; try done.
  - intros Ht. by apply (g_shut _ _ _ _ G t c).
  - intros ->. rewrite H1, (g_own _ _ _ _ G c Hc). done.
Qed.

(** The channel of an [Own] token has no other. *)
Lemma good_alone T c : Good cs fr n ((Own, c) :: T) -> c ∉ T.*2.
Proof.
  intros G Hc. pose proof (g_own _ _ _ _ G c (list_elem_of_here _ _)) as H. rewrite occ_one, decide_True in H by done.
  apply occ_elem in Hc. lia.
Qed.

(** A channel is changed, but for its count; its token may change too if it is
    alone. *)
Lemma good_upd T t t' c ch ch' : Good cs fr n ((t, c) :: T) -> cs !! c = Some ch -> ref ch' = ref ch -> is_set (flag ch') CFREE = false ->
  (t' = t /\ is_set (flag ch') COPEN = is_set (flag ch) COPEN \/ t = Own /\ (t' <> Any -> is_set (flag ch') COPEN = false)) ->
  Good (<[c := ch']> cs) fr n ((t', c) :: T).
Proof.
  intros G Ec Er Hf Ht. pose proof G as [H1 H2 H3 H4 H5 H6 H7]. destruct (good_get _ t c G (list_elem_of_here _ _)) as (ch0 & E0 & Hc & _).
  assert (ch0 = ch) as -> by congruence.
  split; try done.
  - intros x xh [[<- <-] | [_ Hx]]%lookup_insert_Some; eauto.
  - intros x Hx. rewrite lookup_insert_ne by congruence. by apply H3.
  - intros t1 x [[= -> ->] | Hx]%elem_of_cons; [exists ch'; by rewrite lookup_insert_eq |].
    destruct (H4 t1 x) as (xh & Ex & Hxf); [by right |]. destruct (decide (x = c)) as [-> |]; [exists ch'; by rewrite lookup_insert_eq |].
    exists xh. by rewrite lookup_insert_ne by congruence.
  - intros x xh [[<- <-] | [Hne Hx]]%lookup_insert_Some Hxf.
    + rewrite Er. destruct (H5 c ch Ec Hc) as (? & ? & _). done.
    + destruct (H5 x xh Hx Hxf) as (? & ? & ?). done.
  - intros t1 x xh Hin Hne [[<- <-] | [Hxc Hx]]%lookup_insert_Some.
    + destruct Ht as [[-> ->] | [-> Ht]].
      * apply elem_of_cons in Hin as [[= ->] | Hin]; eapply (H6 _ c ch); try done; [by left | by right].
      * apply elem_of_cons in Hin as [[= ->] | Hin]; [by apply Ht |]. exfalso. eapply (good_alone T c); [done | by eapply snd_elem].
    + apply (H6 t1 x); try done. apply elem_of_cons in Hin as [[= -> ->] | Hin]; [congruence | by right].
  - intros x [[= <- ->] | Hx]%elem_of_cons.
    + change (occ c ((t, c) :: T).*2 = 1%nat). apply H7. destruct Ht as [[-> _] | [-> _]]; by left.
    + change (occ x ((t, c) :: T).*2 = 1%nat). apply H7. by right.
Qed.

Lemma good_share T c t : Good cs fr n ((Own, c) :: T) -> t <> Any -> Good cs fr n ((t, c) :: T).
Proof.
  intros G Ht. destruct (good_get _ Own c G (list_elem_of_here _ _)) as (ch & E & _ & _ & _ & Hf & Ho & _).
  rewrite <- (insert_id cs c ch E). eapply good_upd; try done. right. split; [done | intros _; by apply Ho].
Qed.

Lemma good_any T c t : Good cs fr n ((t, c) :: T) -> Good cs fr n ((Any, c) :: T).
Proof.
  intros [H1 H2 H3 H4 H5 H6 H7]. split; try done.
  - intros t1 x [[= -> ->] | Hx]%elem_of_cons; [apply (H4 t); by left | apply (H4 t1); by right].
  - intros t1 x xh [[= -> ->] | Hx]%elem_of_cons; [done | apply (H6 t1); by right].
  - intros x [[= ] | Hx]%elem_of_cons. apply (H7 x). by right.
Qed.

Lemma good_incref T t0 t c ch : Good cs fr n T -> (t0, c) ∈ T -> t0 <> Own -> t <> Own -> (t <> Any -> t0 <> Any) -> cs !! c = Some ch ->
  Good (<[c := set_ref (ref ch + 1) ch]> cs) fr n ((t, c) :: T).
Proof.
  intros G Hin Ht0 Ht Hta Ec. pose proof G as [H1 H2 H3 H4 H5 H6 H7]. destruct (good_get _ t0 c G Hin) as (ch0 & E0 & Hc & Hr & Hp & Hf & Ho & _).
  assert (ch0 = ch) as -> by congruence.
  assert (forall x, (Own, x) ∈ T -> x <> c) as Hown.
  { intros x Hx ->. pose proof (H7 c Hx) as H. apply list_elem_of_split in Hin as (T1 & T2 & ->).
    rewrite fmap_app, fmap_cons, occ_app, occ_cons, decide_True in H by done.
    apply elem_of_app in Hx as [Hx | [[= ?] | Hx]%elem_of_cons]; [| congruence |]; apply snd_elem, occ_elem in Hx; lia. }
  split; try done.
  - intros x xh [[<- <-] | [_ Hx]]%lookup_insert_Some; eauto.
  - intros x Hx. rewrite lookup_insert_ne by congruence. by apply H3.
  - intros t1 x Hx. destruct (decide (x = c)) as [-> |]; [eexists; by rewrite lookup_insert_eq |].
    apply elem_of_cons in Hx as [[= -> ->] | Hx]; [done |]. destruct (H4 t1 x Hx) as (xh & ? & ?). exists xh. by rewrite lookup_insert_ne by congruence.
  - intros x xh [[<- <-] | [Hne Hx]]%lookup_insert_Some Hxf; rewrite occ_one.
    + rewrite decide_True by done. cbn. split_and!; [lia | lia | done].
    + rewrite decide_False by done. by apply H5.
  - intros t1 x xh Hx Hne [[<- <-] | [Hxc Hx']]%lookup_insert_Some; cbn.
    + apply elem_of_cons in Hx as [[= ->] | Hx]; [apply Ho; auto | by apply (H6 t1 c)].
    + apply elem_of_cons in Hx as [[= -> ->] | Hx]; [done | by apply (H6 t1 x)].
  - intros x [[= <- _] | Hx]%elem_of_cons; [done |]. rewrite occ_one, decide_False by (intros <-; by apply (Hown c)). by apply H7.
Qed.

(** A token is given up: the last one frees the channel. *)
Lemma good_decref T t c ch : Good cs fr n ((t, c) :: T) -> cs !! c = Some ch -> ref ch <> 1 ->
  Good (<[c := set_ref (ref ch - 1) ch]> cs) fr n T.
Proof.
  intros G Ec Hr1. pose proof G as [H1 H2 H3 H4 H5 H6 H7]. destruct (good_get _ t c G (list_elem_of_here _ _)) as (ch0 & E0 & Hc & Hr & Hp & Hf & _).
  assert (ch0 = ch) as -> by congruence. rewrite occ_one, decide_True in Hr by done.
  split; try done.
  - intros x xh [[<- <-] | [_ Hx]]%lookup_insert_Some; eauto.
  - intros x Hx. rewrite lookup_insert_ne by congruence. by apply H3.
  - intros t1 x Hx. destruct (H4 t1 x) as (xh & ? & ?); [by right |]. destruct (decide (x = c)) as [-> |]; [eexists; by rewrite lookup_insert_eq |].
    exists xh. by rewrite lookup_insert_ne by congruence.
  - intros x xh [[<- <-] | [Hne Hx]]%lookup_insert_Some Hxf.
    + cbn. split_and!; [lia | lia | done].
    + destruct (H5 x xh Hx Hxf) as (H & ? & ?). rewrite occ_one, decide_False in H by done. done.
  - intros t1 x xh Hx Hne [[<- <-] | [Hxc Hx']]%lookup_insert_Some; cbn; eapply (H6 t1); try done; by right.
  - intros x Hx. pose proof (H7 x ltac:(by right)) as H. rewrite occ_one in H. destruct (decide (c = x)) as [-> |]; [| done].
    apply snd_elem, occ_elem in Hx. lia.
Qed.

Lemma good_free T t c ch : Good cs fr n ((t, c) :: T) -> cs !! c = Some ch -> ref ch = 1 ->
  Good (<[c := set_flag CFREE (set_ref 0 ch)]> cs) (c :: fr) n T.
Proof.
  intros G Ec Hr1. pose proof G as [H1 H2 H3 H4 H5 H6 H7]. destruct (good_get _ t c G (list_elem_of_here _ _)) as (ch0 & E0 & Hc & Hr & Hp & Hf & _).
  assert (ch0 = ch) as -> by congruence. rewrite occ_one, decide_True in Hr by done.
  assert (c ∉ T.*2) as Hout by (apply occ_0; lia).
  assert (forall t1 x, (t1, x) ∈ T -> x <> c) as Hne by (intros t1 x Hx ->; by eapply Hout, snd_elem).
  split.
  - by constructor.
  - intros x xh [[<- <-] | [_ Hx]]%lookup_insert_Some; eauto.
  - intros x. rewrite elem_of_cons. intros [-> | Hx]; [rewrite lookup_insert_eq; eauto |]. rewrite lookup_insert_ne by congruence. by apply H3.
  - intros t1 x Hx. destruct (H4 t1 x) as (xh & ? & ?); [by right |]. pose proof (Hne _ _ Hx). exists xh.
    rewrite lookup_insert_ne by congruence. split; [done |]. by apply not_elem_of_cons.
  - intros x xh Hx [Hxc Hxf]%not_elem_of_cons. rewrite lookup_insert_ne in Hx by congruence.
    destruct (H5 x xh Hx Hxf) as (H & ? & ?). rewrite occ_one, decide_False in H by congruence. done.
  - intros t1 x xh Hx Ht Hl. pose proof (Hne _ _ Hx). rewrite lookup_insert_ne in Hl by congruence. apply (H6 t1 x); try done. by right.
  - intros x Hx. pose proof (H7 x ltac:(by right)) as H. pose proof (Hne _ _ Hx). by rewrite occ_one, decide_False in H by congruence.
Qed.

(** A channel is taken, from the free list or new. *)
Lemma good_new T c ch fr' n' : Good cs fr n T -> NoDup fr' -> (forall x, x ∈ fr' -> x ∈ fr) -> (c ∉ fr') -> (forall x, x ∈ fr -> x ∈ fr' \/ x = c) ->
  (c ∈ fr \/ cs !! c = None) -> n <= n' -> c <= n' -> ref ch = 1 -> is_set (flag ch) CFREE = false -> is_set (flag ch) COPEN = false ->
  Good (<[c := ch]> cs) fr' n' ((Own, c) :: T).
Proof.
  intros G Hnd Hsub Hc Hsup Hnew Hn Hcn Hr Hf Ho. pose proof G as [H1 H2 H3 H4 H5 H6 H7].
  assert (forall t x, (t, x) ∈ T -> x <> c) as Hne.
  { intros t x Hx ->. destruct (H4 t c Hx) as (? & E & Hnf). destruct Hnew; [done | congruence]. }
  assert (occ c T.*2 = 0%nat) as H0 by (apply occ_0; intros [t Ht]%elem_snd; by eapply Hne).
  split; try done.
  - intros x xh [[<- <-] | [_ Hx]]%lookup_insert_Some; [done |]. apply H2 in Hx. lia.
  - intros x Hx. rewrite lookup_insert_ne by congruence. by apply H3, Hsub.
  - intros t x [[= -> ->] | Hx]%elem_of_cons; [exists ch; by rewrite lookup_insert_eq |].
    destruct (H4 t x Hx) as (xh & Ex & Hxf). exists xh. rewrite lookup_insert_ne by (pose proof (Hne t x Hx); congruence). split; [done |].
    intros Hx'. by apply Hxf, Hsub.
  - intros x xh [[<- <-] | [Hxc Hx]]%lookup_insert_Some Hxf; rewrite occ_one.
    + rewrite decide_True, H0 by done. split_and!; [lia | lia | done].
    + rewrite decide_False by done. apply H5; [done |]. intros Hx'. destruct (Hsup x Hx'); [done | congruence].
  - intros t x xh [[= -> ->] | Hx]%elem_of_cons Ht Hl; [rewrite lookup_insert_eq in Hl; by injection Hl as <- |].
    rewrite lookup_insert_ne in Hl by (pose proof (Hne t x Hx); congruence). by apply (H6 t x).
  - intros x [[= ->] | Hx]%elem_of_cons; rewrite occ_one; [by rewrite decide_True, H0 |].
    rewrite decide_False by (pose proof (Hne _ _ Hx); congruence). by apply H7.
Qed.
End Goods.

Lemma holders_shr s t c : (t, c) ∈ holders s -> t <> Own.
Proof.
  intros Hin ->. unfold holders in Hin. rewrite !elem_of_app in Hin.
  assert (forall g, (Own, c) ∈ pg_tokens g -> False) as Hg.
  { intros g. unfold pg_tokens. rewrite !elem_of_cons. intros [H | [H | H]]; [done | done |].
    apply list_elem_of_bind in H as (h & H & _). unfold head_tokens in H. apply elem_of_cons in H as [H | H]; [done |].
    by apply list_elem_of_fmap in H as (? & ? & _). }
  assert (forall f, (Own, c) ∈ fg_tokens f -> False) as Hf.
  { intros f. unfold fg_tokens. rewrite list_elem_of_omap. intros ([x |] & _ & [=]). }
  destruct Hin as [H | [H | [H | H]]]; [by eapply Hg | | by eapply Hf |]; apply list_elem_of_bind in H as (? & ? & _); [by eapply Hg | by eapply Hf].
Qed.

(** ** What the calls leave alone *)

Definition core (c : Chan) : Z * Z * Z * Z * option Z := (path (qid c), type c, dev c, flag c, mchan c).

Definition frame (T : list token) (cs cs' : gmap Z Chan) : Prop :=
  forall t x ch, (t, x) ∈ T -> cs !! x = Some ch -> exists ch', cs' !! x = Some ch' /\ core ch' = core ch /\ (t = Own -> ch' = ch).

(** The tables stay, and the channels of the tokens but for counts and offsets. *)
Record quiet (E : list token) (s s' : state) : Prop := MkQuiet {
  q_pgrp : pgrp s' = pgrp s; q_pgrps : pgrps s' = pgrps s; q_fgrp : fgrp s' = fgrp s; q_fgrps : fgrps s' = fgrps s;
  q_mem : mem s' = mem s; q_nmount : nmount s <= nmount s'; q_frame : frame (holders s ++ E) (chans s) (chans s')
}.

Lemma quiet_refl E s : quiet E s s.
Proof. split; try done. intros t x ch _ Hx. by exists ch. Qed.

Lemma quiet_holders E s s' : quiet E s s' -> holders s' = holders s.
Proof. intros [H1 H2 H3 H4 _ _ _]; unfold holders; by rewrite H1, H2, H3, H4. Qed.

Lemma quiet_trans E s1 s2 s3 : quiet E s1 s2 -> quiet E s2 s3 -> quiet E s1 s3.
Proof.
  intros Q1 Q2. pose proof (quiet_holders _ _ _ Q1) as Eh. destruct Q1 as [A1 A2 A3 A4 A5 A6 A7], Q2 as [B1 B2 B3 B4 B5 B6 B7].
  split; try congruence; [lia |]. intros t x ch Hin Hx. destruct (A7 t x ch Hin Hx) as (ch' & Hx' & E1 & E2).
  rewrite Eh in B7. destruct (B7 t x ch' Hin Hx') as (ch'' & Hx'' & E3 & E4). exists ch''. split_and!; [done | congruence |].
  intros Ht. rewrite E4, E2; done.
Qed.

Lemma quiet_sub E E' s s' : (forall x, x ∈ E' -> x ∈ E) -> quiet E s s' -> quiet E' s s'.
Proof.
  intros Hs [A1 A2 A3 A4 A5 A6 A7]. split; try done. intros t x ch Hin. apply A7. rewrite elem_of_app in *.
  destruct Hin; auto.
Qed.

Lemma frame_key T cs cs' c : frame T cs cs' -> (exists t, (t, c) ∈ T) -> is_Some (cs !! c) -> key_at cs' c = key_at cs c.
Proof.
  intros F [t Ht] [ch Hc]. destruct (F t c ch Ht Hc) as (ch' & Hc' & E & _). unfold key_at. rewrite Hc, Hc'. simpl.
  unfold core in E. unfold key. congruence.
Qed.

Lemma pg_holder s g : g ∈ pgrp s :: pgrps s -> forall x, x ∈ pg_tokens g -> x ∈ holders s.
Proof.
  intros Hg x Hx. unfold holders. rewrite !elem_of_app. apply elem_of_cons in Hg as [-> | Hg]; [by left |]. right; left.
  apply list_elem_of_bind. by exists g.
Qed.

Lemma from_token g h : h ∈ heads g -> (Shr, from h) ∈ pg_tokens g.
Proof. intros H. do 2 right. apply list_elem_of_bind. exists h. split; [by left | done]. Qed.
Lemma to_token g h m : h ∈ heads g -> m ∈ mount h -> (Shr, to m) ∈ pg_tokens g.
Proof. intros H Hm. do 2 right. apply list_elem_of_bind. exists h. split; [right; apply list_elem_of_fmap; by exists m | done]. Qed.

Lemma heads_elem g h : h ∈ heads g <-> exists b l, mnthash g !! b = Some l /\ h ∈ l.
Proof.
  unfold heads. induction (mnthash g) as [| l0 hs IH]; cbn [concat].
  - split; [by intros ?%not_elem_of_nil | by intros (b & l & H & _)].
  - rewrite elem_of_app, IH. split.
    + intros [H | (b & l & H & Hl)]; [by exists 0%nat, l0 | by exists (S b), l].
    + intros ([| b] & l & H & Hl); [injection H as ->; by left | right; by exists b, l].
Qed.

Lemma table_frame T cs cs' g : frame T cs cs' -> (forall x, x ∈ pg_tokens g -> x ∈ T) -> Table cs g -> Table cs' g.
Proof.
  intros F Hs [T1 T2 T3 T4]. split; try done.
  - intros b l h Hb Hh. destruct (T3 b l h Hb Hh) as (ch & E & Em).
    assert (h ∈ heads g) as Hg by (apply heads_elem; eauto).
    destruct (F Shr (from h) ch (Hs _ (from_token _ _ Hg)) E) as (ch' & E' & Ec & _). exists ch'. split; [done |].
    unfold MOUNTH in *. unfold core in Ec. congruence.
  - replace ((fun h => key_at cs' (from h)) <$> heads g) with ((fun h => key_at cs (from h)) <$> heads g); [done |].
    apply list_fmap_ext. intros i h Hh. apply list_elem_of_lookup_2 in Hh. symmetry. apply (frame_key T); [done | |].
    + exists Shr. by apply Hs, from_token.
    + apply heads_elem in Hh as (b & l & Hb & Hh). destruct (T3 b l h Hb Hh) as (ch & E & _). by exists ch.
Qed.

Lemma shape_quiet E s s' : quiet E s s' -> Shape s -> Shape s'.
Proof.
  intros [A1 A2 A3 A4 A5 A6 A7] [S1 S2 S3 S4 S5]. unfold all_heads in *. split; unfold all_heads; try rewrite A1, A2; try rewrite A3, A4; try done; try lia.
  - apply Forall_forall. intros g Hg. rewrite Forall_forall in S2. eapply table_frame; [exact A7 | | by apply S2].
    intros x Hx. apply elem_of_app. left. by eapply pg_holder.
  - intros m Hm. specialize (S4 m Hm). lia.
Qed.

Lemma inv_quiet E E' E2 s s' : Inv E s -> quiet E2 s s' -> Good (chans s') (free s') (fid s') (holders s ++ E') -> Inv E' s'.
Proof. intros [_ Hs] Hq Hg. split; [by rewrite (quiet_holders _ _ _ Hq) | by eapply shape_quiet]. Qed.

Lemma inv_permute E E' s : E ≡ₚ E' -> Inv E s -> Inv E' s.
Proof. intros He [Hg Hs]. split; [| done]. eapply good_perm; [| done]. by rewrite He. Qed.

Lemma inv_get E s t c : Inv E s -> (t, c) ∈ holders s ++ E -> exists ch, chans s !! c = Some ch /\ is_set (flag ch) CFREE = false /\ 0 < ref ch /\
  (t <> Any -> is_set (flag ch) COPEN = false) /\ (t = Own -> ref ch = 1).
Proof. intros [G _] Hin. destruct (good_get _ _ _ _ _ _ G Hin) as (ch & ? & _ & ? & ? & ? & ? & ?). eauto 10. Qed.

Lemma app_middle (E1 : list token) x E : E1 ++ x :: E ≡ₚ x :: E1 ++ E.
Proof. symmetry. apply Permutation_middle. Qed.

Lemma inv_focus E s x : Inv (x :: E) s -> Good (chans s) (free s) (fid s) (x :: holders s ++ E).
Proof. intros [G _]. eapply good_perm; [apply app_middle | done]. Qed.
Lemma inv_cons E0 E x E2 s s' : Inv E0 s -> quiet E2 s s' -> Good (chans s') (free s') (fid s') (x :: holders s ++ E) -> Inv (x :: E) s'.
Proof. intros I Hq G. eapply inv_quiet; [done | done |]. eapply good_perm; [symmetry; apply app_middle | done]. Qed.

Lemma inv_share E s c : Inv ((Own, c) :: E) s -> Inv ((Shr, c) :: E) s.
Proof.
  intros I. eapply inv_cons; [done | apply (quiet_refl E) |]. apply good_share; [by apply inv_focus | done].
Qed.
Lemma inv_any E s t c : Inv ((t, c) :: E) s -> Inv ((Any, c) :: E) s.
Proof.
  intros I. eapply inv_cons; [done | apply (quiet_refl E) |]. apply (good_any _ _ _ _ _ t). by apply inv_focus.
Qed.

Lemma own_alone E s c : Inv ((Own, c) :: E) s -> forall t, (t, c) ∉ holders s ++ E.
Proof.
  intros I t Hin. eapply (good_alone _ _ _ (holders s ++ E) c); [by apply inv_focus |]. by eapply snd_elem.
Qed.

(** [Own] tokens are alone. *)
Lemma not_own E s t c : Inv E s -> (t, c) ∈ holders s ++ E -> t <> Own -> (Own, c) ∉ holders s ++ E.
Proof.
  intros [G _] Hin Ht Hown. apply list_elem_of_split in Hown as (T1 & T2 & ET). rewrite ET in *.
  eapply (good_alone _ _ _ (T1 ++ T2) c); [eapply good_perm; [apply app_middle | exact G] |].
  apply (snd_elem _ t). rewrite !elem_of_app, elem_of_cons in *. destruct Hin as [? | [[=] | ?]]; [by left | congruence | by right].
Qed.
Lemma other_own E s t c : Inv ((t, c) :: E) s -> (Own, c) ∉ holders s ++ E.
Proof.
  intros I Hown. pose proof (inv_focus _ _ _ I) as G. apply list_elem_of_split in Hown as (T1 & T2 & ET). rewrite ET in G.
  eapply (good_alone _ _ _ ((t, c) :: T1 ++ T2) c); [eapply good_perm; [| exact G]; rewrite app_middle; apply perm_swap | by left].
Qed.

(** ** Rules *)

(** [st]: a pointer to a mount that is gone may be followed. *)
Definition wp {A} (st : Prop) (m : M A) (s : state) (Q : A -> state -> Prop) (R : err -> state -> Prop) : Prop :=
  match m s with Ret a s' => Q a s' | Raise e s' => R e s' | Trap t => t = Stale /\ st end.

Lemma wp_conseq {A} st (m : M A) s Q Q' R R' : wp st m s Q R -> (forall a s', Q a s' -> Q' a s') -> (forall e s', R e s' -> R' e s') -> wp st m s Q' R'.
Proof. unfold wp. destruct (m s); auto. Qed.
Lemma wp_seq {A B} st (m : M A) (k : A -> M B) s Q R : wp st m s (fun a s' => wp st (k a) s' Q R) R -> wp st (m ≫= k) s Q R.
Proof. unfold wp, mbind, m_bind. destruct (m s); auto. Qed.
Lemma wp_return {A} st (a : A) s (Q : A -> state -> Prop) R : Q a s -> wp st (mret a) s Q R.
Proof. done. Qed.
Lemma wp_raise {A} st e s (Q : A -> state -> Prop) (R : err -> state -> Prop) : R e s -> wp st (error e) s Q R.
Proof. done. Qed.
Lemma wp_gets {A} st (f : state -> A) s (Q : A -> state -> Prop) R : Q (f s) s -> wp st (gets f) s Q R.
Proof. done. Qed.
Lemma wp_put st f s (Q : unit -> state -> Prop) R : Q tt (f s) -> wp st (modify f) s Q R.
Proof. done. Qed.
Lemma wp_need {A} st (o : option A) a s (Q : A -> state -> Prop) R : o = Some a -> Q a s -> wp st (need o) s Q R.
Proof. by intros ->. Qed.
Lemma wp_catch {A} st (m : M A) h s Q R : wp st m s Q (fun e s' => wp st (h e) s' Q R) -> wp st (catch m h) s Q R.
Proof. unfold wp, catch. destruct (m s); auto. Qed.
Lemma wp_chan st c ch s (Q : Chan -> state -> Prop) R : chans s !! c = Some ch -> Q ch s -> wp st (chan c) s Q R.
Proof. intros E. unfold wp, chan. by rewrite E. Qed.
Lemma wp_upd st c f ch s (Q : unit -> state -> Prop) R : chans s !! c = Some ch -> Q tt (set_chans (<[c := f ch]> (chans s)) s) -> wp st (upd c f) s Q R.
Proof. intros E H. apply wp_seq. by apply (wp_chan _ _ ch). Qed.
Lemma wp_malloc st s (Q : unit -> state -> Prop) R : Shape s -> Q tt s -> wp st malloc s Q R.
Proof.
  intros [Hm _ _ _ _] H. unfold malloc. apply wp_seq, wp_gets. destruct (Z.eqb_spec (mem s) 0); [lia |]. destruct (Z.ltb_spec (mem s) 0); [done | lia].
Qed.

End Invariant.

(** *** Automation *)

(** The steps between two states are quiet; those before count for fewer tokens. *)
Ltac tokens := let H := fresh in intros ? H; repeat rewrite ?elem_of_cons, ?elem_of_app in H; repeat rewrite ?elem_of_cons, ?elem_of_app; tauto.
Ltac quiets :=
  match goal with
  | |- quiet _ ?s ?s => apply quiet_refl
  | H : quiet _ ?s1 ?s2 |- quiet _ _ ?s2 => solve [eapply quiet_trans; [| eapply quiet_sub; [| exact H]; tokens]; quiets]
  end.
(** A token among those of the call. *)
Ltac held := apply elem_of_app; right; rewrite ?elem_of_cons; tauto.
(** The tokens in another order. *)
Ltac reorder H := eapply inv_permute; [| exact H]; solve [done | apply perm_swap | solve_Permutation].
