(* ===== verification/NsOps.v ===== *)
(** * The name space: operations on channels

    What drivers are taken to keep, and what the operations on channels do to
    the tokens. *)

From S2P Require Import Prelude Styx Rune Name Ns NsInv.
Import Ns.

#[local] Open Scope Z_scope.

(** ** Drivers *)

(** Flags are the kernel's: [open] and [create] set [COPEN]; what a channel
    refers to changes in [walk] and [create] only. *)
Class Laws (D : Devices) := {
  attach_law ds t spec ch : (d_attach ds t spec).2 = inr ch -> is_set (flag ch) CFREE = false /\ is_set (flag ch) COPEN = false /\ mnt ch = None;
  clone_law ds c ch : (d_clone ds c).2 = inr ch -> qid ch = qid c /\ type ch = type c /\ dev ch = dev c /\ flag ch = flag c /\ mnt ch = mnt c /\ mchan ch = mchan c;
  walk_law ds c name ch : (d_walk ds c name).2 = Walked ch -> flag ch = flag c /\ mnt ch = mnt c;
  open_law ds c omode ch : (d_open ds c omode).2 = inr ch -> is_set (flag c) CFREE = false -> is_set (flag ch) CFREE = false;
  create_law ds c name omode perm ch : (d_create ds c name omode perm).2 = inr ch -> is_set (flag c) CFREE = false -> is_set (flag ch) CFREE = false;
  read_law ds c n off ch bs : (d_read ds c n off).2 = inr (ch, bs) -> core ch = core c /\ mnt ch = mnt c;
  write_law ds c bs off ch n : (d_write ds c bs off).2 = inr (ch, n) -> core ch = core c;
  stat_law ds c bs : (d_stat ds c).2 = inr bs -> convM2D bs no_dir <> None
}.

Section Ops.
Context {D : Devices} {L : Laws D}.
Context (st : Prop).

Lemma free_set_flag f : is_set f CFREE = true -> f <> 0.
Proof. intros H ->. done. Qed.

(** A step that changes one channel. *)
Lemma quiet_set E s s' c ch' : (pgrp s', pgrps s', fgrp s', fgrps s', mem s', nmount s') = (pgrp s, pgrps s, fgrp s, fgrps s, mem s, nmount s) ->
  chans s' = <[c := ch']> (chans s) ->
  (forall t ch, (t, c) ∈ holders s ++ E -> chans s !! c = Some ch -> core ch' = core ch /\ (t = Own -> ch' = ch)) -> quiet E s s'.
Proof.
  intros [= E1 E2 E3 E4 E5 E6] Ec H. split; try done; [lia |]. intros t x ch Hin Hx. rewrite Ec. destruct (decide (x = c)) as [-> |].
  - exists ch'. rewrite lookup_insert_eq. split; [done |]. by apply (H t).
  - exists ch. by rewrite lookup_insert_ne by congruence.
Qed.

Lemma held_shr s E t c : (t, c) ∈ holders s -> (t, c) ∈ holders s ++ E.
Proof. intros H. apply elem_of_app. by left. Qed.

Lemma incref_wp t0 t c E s Q R : Inv E s -> (t0, c) ∈ holders s ++ E -> t0 <> Own -> t <> Own -> (t <> Any -> t0 <> Any) ->
  (forall s', Inv ((t, c) :: E) s' -> quiet E s s' -> Q tt s') -> wp st (incref c) s Q R.
Proof.
  intros I Hin H1 H2 H3 HQ. destruct (inv_get _ _ _ _ I Hin) as (ch & Ec & _). eapply wp_upd; [exact Ec |].
  assert (quiet E s (set_chans (<[c := set_ref (ref ch + 1) ch]> (chans s)) s)) as Hq.
  { eapply (quiet_set E s _ c); [done | done |]. intros t1 ch1 Hin1 E1. assert (ch1 = ch) as -> by congruence.
    split; [done |]. intros ->. by destruct (not_own _ _ _ _ I Hin H1). }
  apply HQ; [| done]. eapply inv_cons; [done | exact Hq |]. destruct I as [G _]. eapply good_incref; done.
Qed.

(** The token of a local variable that may be alone. *)
Lemma incref_own_wp c E s Q R : Inv ((Own, c) :: E) s ->
  (forall s', Inv ((Shr, c) :: (Shr, c) :: E) s' -> quiet E s s' -> Q tt s') -> wp st (incref c) s Q R.
Proof.
  intros I HQ. apply inv_share in I. eapply (incref_wp Shr Shr); try done.
  - apply elem_of_app. right. by left.
  - intros s' I' Hq. apply HQ; [done |]. eapply quiet_sub; [| done]. intros x Hx. by right.
Qed.

Lemma cclose_wp t c E s Q R : Inv ((t, c) :: E) s -> (forall s', Inv E s' -> quiet E s s' -> Q tt s') -> wp st (cclose c) s Q R.
Proof.
  intros I HQ. destruct (inv_get _ _ t c I) as (ch & Ec & Hf & Hp & Ho & H1); [apply elem_of_app; right; by left |].
  unfold cclose. apply wp_seq, (wp_chan _ _ ch); [done |]. rewrite Hf. unfold decref.
  apply wp_seq, wp_seq, (wp_chan _ _ ch); [done |]. apply wp_seq, wp_put.
  destruct (Z.ltb_spec (ref ch - 1) 0); [lia |]. apply wp_return.
  assert (G : Good (chans s) (free s) (fid s) ((t, c) :: holders s ++ E)) by (by apply inv_focus).
  destruct (Z.eqb_spec (ref ch - 1) 0) as [Hr | Hr]; cbn [negb].
  - apply wp_seq, (wp_chan _ _ (set_ref (ref ch - 1) ch)); [apply lookup_insert_eq |]. apply wp_seq, wp_put.
    unfold chanfree. apply wp_seq, (wp_upd _ _ _ (set_ref (ref ch - 1) ch)); [apply lookup_insert_eq |]. apply wp_put.
    cbn. rewrite insert_insert_eq, Hr.
    match goal with |- Q _ ?x => set (s' := x) end.
    assert (quiet E s s') as Hq.
    { eapply (quiet_set E s _ c); [done | done |].
      intros t' ch' Hin E'. exfalso. pose proof (good_get _ _ _ _ t c G (list_elem_of_here _ _)) as (ch2 & E2 & _ & Hr2 & _).
      rewrite occ_one, decide_True in Hr2 by done. assert (ch2 = ch) as -> by congruence.
      apply snd_elem, occ_elem in Hin. lia. }
    apply HQ; [| done]. eapply inv_quiet; [done | exact Hq |]. eapply good_free; [done | done | lia].
  - match goal with |- wp _ _ ?x _ _ => set (s' := x) end. apply wp_return.
    assert (quiet E s s') as Hq.
    { eapply (quiet_set E s _ c); [done | done |]. intros t' ch' Hin E'.
      assert (ch' = ch) as -> by congruence. split; [done |]. intros ->. by destruct (other_own _ _ _ _ I). }
    apply HQ; [| done]. eapply inv_quiet; [done | exact Hq |]. eapply good_decref; [done | done | lia].
Qed.

Lemma keep_wp {A} t c E s (m : M A) (Q : A -> state -> Prop) (R : err -> state -> Prop) :
  wp st m s Q (fun e s' => Inv ((t, c) :: E) s' /\ forall s2, Inv E s2 -> quiet E s' s2 -> R e s2) -> wp st (keep c m) s Q R.
Proof.
  intros H. apply wp_catch. eapply wp_conseq; [exact H | done |]. intros e s' [I HR]. apply wp_seq. eapply cclose_wp; [done |].
  intros s2 I2 Hq. apply wp_raise. by apply HR.
Qed.

Lemma newchan_wp E s Q R : Inv E s ->
  (forall c ch s', Inv ((Own, c) :: E) s' -> quiet E s s' -> chans s' !! c = Some ch -> ref ch = 1 -> Q c s') -> wp st newchan s Q R.
Proof.
  intros I HQ. pose proof I as [G S]. unfold newchan. apply wp_seq, wp_gets. apply wp_seq.
  destruct (free s) as [| c fr] eqn:Ef.
  - apply wp_seq, wp_malloc; [done |]. apply wp_seq, wp_gets. apply wp_seq, wp_put. apply wp_seq, wp_put. apply wp_return.
    apply wp_seq. eapply wp_upd; [apply lookup_insert_eq |]. apply wp_return. match goal with |- Q _ ?x => set (s' := x) end.
    assert (chans s !! (fid s + 1) = None) as Hn.
    { destruct (chans s !! (fid s + 1)) as [ch |] eqn:E1; [| done]. apply (g_fid _ _ _ _ G) in E1. lia. }
    assert (exists ch, chans s' = <[fid s + 1 := ch]> (chans s) /\ ref ch = 1 /\ flag ch = 0) as (ch & Ec & Hr & Hfl) by (eexists; split; [apply insert_insert_eq | done]).
    assert (quiet E s s') as Hq by (eapply (quiet_set E s _ (fid s + 1)); [done | exact Ec |]; intros t x _ Hx; by rewrite Hn in Hx).
    eapply HQ; [| done | rewrite Ec; apply lookup_insert_eq | done]. eapply inv_cons; [done | exact Hq |]. rewrite Ec.
    change (free s') with (free s). rewrite Ef. change (fid s') with (fid s + 1).
    eapply (good_new _ _ _ _ _ _ [] _ G); rewrite ?Hfl; try done; try lia; [constructor | apply not_elem_of_nil | auto | by right].
  - apply wp_seq, wp_put. apply wp_return. apply wp_seq.
    destruct (g_dead _ _ _ _ G c) as (ch & Ec & _); [rewrite ?Ef; by left |].
    eapply wp_upd; [exact Ec |]. apply wp_return.
    match goal with |- Q _ ?x => set (s' := x) end.
    assert (forall t, (t, c) ∉ holders s ++ E) as Hout.
    { intros t Hin. destruct (g_live _ _ _ _ G t c Hin) as (_ & _ & Hnf). apply Hnf. rewrite ?Ef. by left. }
    assert (quiet E s s') as Hq.
    { eapply (quiet_set E s _ c); [done | done |]. intros t ch1 Hin _. by apply Hout in Hin. }
    pose proof (g_nodup _ _ _ _ G) as Hnd. try rewrite Ef in Hnd. apply NoDup_cons in Hnd as [Hc Hnd].
    eapply HQ; [| done | apply lookup_insert_eq | done]. eapply inv_cons; [done | exact Hq |]. change (free s') with fr. change (fid s') with (fid s).
    eapply (good_new _ _ _ _ _ _ fr _ G); try done; try lia; rewrite ?Ef.
    + intros x Hx. by right.
    + intros x [-> | Hx]%elem_of_cons; auto.
    + left. by left.
    + by apply (g_fid _ _ _ _ G) in Ec.
Qed.

(** A channel that is held by this call alone is changed. *)
Lemma own_put_wp t c ch ch' E s Q R : Inv ((Own, c) :: E) s -> chans s !! c = Some ch -> ref ch' = ref ch -> is_set (flag ch') CFREE = false ->
  t <> Shr -> (t <> Any -> is_set (flag ch') COPEN = false) ->
  (forall s', Inv ((t, c) :: E) s' -> quiet E s s' -> chans s' !! c = Some ch' -> Q tt s') -> wp st (put c ch') s Q R.
Proof.
  intros I Ec Hr Hf Ht Ho HQ. apply wp_put.
  assert (quiet E s (set_chans (<[c := ch']> (chans s)) s)) as Hq.
  { eapply (quiet_set E s _ c); [done | done |]. intros t1 ch1 Hin _. exfalso. by eapply own_alone. }
  apply HQ; [| done | apply lookup_insert_eq]. eapply inv_cons; [done | exact Hq |]. eapply good_upd; [| exact Ec | done | done | by right].
  exact (inv_focus _ _ _ I).
Qed.

Lemma own_upd_wp c f E s Q R : Inv ((Own, c) :: E) s ->
  (forall ch, chans s !! c = Some ch -> ref (f ch) = ref ch /\ is_set (flag (f ch)) CFREE = is_set (flag ch) CFREE /\ is_set (flag (f ch)) COPEN = is_set (flag ch) COPEN) ->
  (forall ch s', chans s !! c = Some ch -> Inv ((Own, c) :: E) s' -> quiet E s s' -> chans s' !! c = Some (f ch) -> Q tt s') -> wp st (upd c f) s Q R.
Proof.
  intros I Hf HQ. destruct (inv_get _ _ Own c I) as (ch & Ec & Hfr & Hp & Ho & _); [apply elem_of_app; right; by left |].
  destruct (Hf ch Ec) as (H1 & H2 & H3). apply wp_seq, (wp_chan _ _ ch); [done |].
  eapply (own_put_wp Own); try done; [congruence | intros _; rewrite H3; by apply Ho |]. intros s' I' Hq Ec'. by eapply HQ.
Qed.

(** It may be open too. *)
Lemma alone_upd_wp t c f E' E s Q R : Inv ((t, c) :: E') s -> (forall t', (t', c) ∉ holders s ++ E) ->
  (forall ch, ref (f ch) = ref ch /\ is_set (flag (f ch)) CFREE = is_set (flag ch) CFREE /\ is_set (flag (f ch)) COPEN = is_set (flag ch) COPEN) ->
  (forall ch s', chans s !! c = Some ch -> Inv ((t, c) :: E') s' -> quiet E s s' -> chans s' !! c = Some (f ch) -> Q tt s') -> wp st (upd c f) s Q R.
Proof.
  intros I Hal Hf HQ. destruct (inv_get _ _ t c I) as (ch & Ec & Hfr & _); [apply elem_of_app; right; by left |].
  destruct (Hf ch) as (H1 & H2 & H3). eapply wp_upd; [done |].
  assert (quiet E s (set_chans (<[c := f ch]> (chans s)) s)) as Hq.
  { eapply (quiet_set E s _ c); [done | done |]. intros t1 ch1 Hin _. by destruct (Hal t1). }
  eapply HQ; [done | | done | apply lookup_insert_eq]. eapply inv_cons; [done | exact Hq |]. eapply good_upd; [exact (inv_focus _ _ _ I) | exact Ec | done | congruence | by left].
Qed.

(** A channel that may be shared: the tables depend on its core only. *)
Lemma any_put_wp t c ch ch' E s Q R : Inv ((t, c) :: E) s -> t <> Own -> chans s !! c = Some ch -> ref ch' = ref ch -> core ch' = core ch ->
  (forall s', Inv ((t, c) :: E) s' -> quiet ((t, c) :: E) s s' -> chans s' !! c = Some ch' -> Q tt s') -> wp st (put c ch') s Q R.
Proof.
  intros I Ht Ec Hr Hcore HQ. apply wp_put. destruct (inv_get _ _ t c I) as (ch1 & E1 & Hfr & _); [apply elem_of_app; right; by left |].
  assert (ch1 = ch) as -> by congruence. assert (flag ch' = flag ch) as Hflag by (unfold core in Hcore; congruence).
  assert (quiet ((t, c) :: E) s (set_chans (<[c := ch']> (chans s)) s)) as Hq.
  { eapply (quiet_set _ s _ c); [done | done |]. intros t1 ch1 Hin E2.
    assert (ch1 = ch) as -> by congruence. split; [done |]. intros ->. destruct (other_own _ _ _ _ I). rewrite app_middle, elem_of_cons in Hin. by destruct Hin as [[=] | ?]. }
  apply HQ; [| done | apply lookup_insert_eq]. eapply inv_cons; [done | exact Hq |]. eapply good_upd; [| exact Ec | done | by rewrite Hflag | left; by rewrite Hflag].
  exact (inv_focus _ _ _ I).
Qed.

(** Only the driver changes. *)
Lemma devices_inv E ds s : Inv E s -> Inv E (set_devices ds s).
Proof. intros [G [? ? ? ? ?]]. split; [exact G |]. by split. Qed.
Lemma devices_quiet E ds s : quiet E s (set_devices ds s).
Proof. split; try done. intros t x ch _ Hx. by exists ch. Qed.


(** *** Drivers are called *)

Lemma cclone_wp t c E s Q R : Inv E s -> (t, c) ∈ holders s ++ E -> t <> Any ->
  (forall ch nc ch' s', chans s !! c = Some ch -> Inv ((Own, nc) :: E) s' -> quiet E s s' -> chans s' !! nc = Some ch' ->
    qid ch' = qid ch -> type ch' = type ch -> dev ch' = dev ch -> flag ch' = flag ch -> mnt ch' = mnt ch -> mchan ch' = mchan ch -> Q nc s') ->
  (forall ch e s', chans s !! c = Some ch -> (d_clone (devices s) ch).2 = inl e -> Inv E s' -> quiet E s s' -> R e s') -> wp st (cclone c) s Q R.
Proof.
  intros I Hin Ht HQ HR. destruct (inv_get _ _ t c I Hin) as (ch & Ec & Hf & Hp & Ho & _). unfold cclone.
  apply wp_seq, (wp_chan _ _ ch); [done |]. rewrite Ho by done. apply wp_seq, wp_gets, wp_seq, wp_put.
  destruct ((d_clone (devices s) ch).2) as [e | chn] eqn:Er.
  - apply wp_raise. eapply HR; try done; [by apply devices_inv | apply devices_quiet].
  - destruct (clone_law _ _ _ Er) as (L1 & L2 & L3 & L4 & L5 & L6).
    apply wp_seq. eapply newchan_wp; [by apply devices_inv |]. intros nc ch2 s2 I2 Hq2 E2 H1.
    apply wp_seq. eapply (own_put_wp Own); [exact I2 | exact E2 | by rewrite H1 | cbn; by rewrite L4 | done | intros _; cbn; rewrite L4; by apply Ho |].
    intros s3 I3 Hq3 E3. apply wp_return. eapply HQ; try done. eapply quiet_trans; [apply devices_quiet |]. by eapply quiet_trans.
Qed.

Lemma dev_attach_wp t spec E s Q R : Inv E s ->
  (forall nc ch s', Inv ((Own, nc) :: E) s' -> quiet E s s' -> chans s' !! nc = Some ch -> mnt ch = None -> (exists ch0, (d_attach (devices s) t spec).2 = inr ch0 /\ key ch = key ch0) -> Q nc s') ->
  (forall e s', Inv E s' -> quiet E s s' -> R e s') -> wp st (dev_attach t spec) s Q R.
Proof.
  intros I HQ HR. unfold dev_attach. apply wp_seq, wp_gets, wp_seq, wp_put.
  destruct ((d_attach (devices s) t spec).2) as [e | chn] eqn:Er.
  - apply wp_raise. apply HR; [by apply devices_inv | apply devices_quiet].
  - destruct (attach_law _ _ _ _ Er) as (L1 & L2 & L3).
    apply wp_seq. eapply newchan_wp; [by apply devices_inv |]. intros nc ch2 s2 I2 Hq2 E2 H1.
    apply wp_seq. eapply (own_put_wp Own); [exact I2 | exact E2 | by rewrite H1 | done | done | done |].
    intros s3 I3 Hq3 E3. apply wp_return. eapply HQ; try done; [eapply quiet_trans; [apply devices_quiet |]; by eapply quiet_trans | by exists chn].
Qed.

(** The channel of [c] becomes the one that the driver gives back. *)
Lemma dev_walk_wp c name E s Q R : Inv ((Own, c) :: E) s ->
  (forall ch ch' s', chans s !! c = Some ch -> (d_walk (devices s) ch name).2 = Walked ch' -> flag ch' = flag ch -> mnt ch' = mnt ch ->
    Inv ((Own, c) :: E) s' -> quiet E s s' -> chans s' !! c = Some (set_ref 1 ch') -> Q true s') ->
  (forall ch s', chans s !! c = Some ch -> (d_walk (devices s) ch name).2 = Missing -> Inv ((Own, c) :: E) s' -> quiet ((Own, c) :: E) s s' -> Q false s') ->
  (forall ch e s', chans s !! c = Some ch -> (d_walk (devices s) ch name).2 = Refused e -> Inv ((Own, c) :: E) s' -> quiet ((Own, c) :: E) s s' -> R e s') ->
  wp st (dev_walk c name) s Q R.
Proof.
  intros I HQ HM HR. destruct (inv_get _ _ Own c I) as (ch & Ec & Hf & Hp & Ho & H1); [apply elem_of_app; right; by left |]. unfold dev_walk.
  apply wp_seq, (wp_chan _ _ ch); [done |]. apply wp_seq, wp_gets, wp_seq, wp_put.
  destruct ((d_walk (devices s) ch name).2) as [chn | | e] eqn:Er.
  - destruct (walk_law _ _ _ _ Er) as (L1 & L2). apply wp_seq.
    eapply (own_put_wp Own _ ch); [by apply devices_inv | exact Ec | done | cbn; by rewrite L1 | done | intros _; cbn; rewrite L1; by apply Ho |].
    intros s3 I3 Hq3 E3. apply wp_return. rewrite (H1 eq_refl) in E3. eapply HQ; try done. eapply quiet_trans; [apply devices_quiet | done].
  - apply wp_return. eapply HM; try done; [by apply devices_inv | apply devices_quiet].
  - apply wp_raise. eapply HR; try done; [by apply devices_inv | apply devices_quiet].
Qed.

Lemma dev_open_wp c omode E s Q R : Inv ((Own, c) :: E) s ->
  (forall s', Inv ((Any, c) :: E) s' -> quiet E s s' -> (forall t, (t, c) ∉ holders s' ++ E) -> Q tt s') ->
  (forall e s', Inv ((Own, c) :: E) s' -> quiet E s s' -> R e s') -> wp st (dev_open c omode) s Q R.
Proof.
  intros I HQ HR. destruct (inv_get _ _ Own c I) as (ch & Ec & Hf & Hp & Ho & H1); [apply elem_of_app; right; by left |]. unfold dev_open.
  apply wp_seq, (wp_chan _ _ ch); [done |]. apply wp_seq, wp_gets, wp_seq, wp_put.
  destruct ((d_open (devices s) ch omode).2) as [e | chn] eqn:Er.
  - apply wp_raise. eapply HR; try done; [by apply devices_inv | apply devices_quiet].
  - eapply (own_put_wp Any _ ch); [by apply devices_inv | exact Ec | done | exact (open_law _ _ _ _ Er Hf) | done | done |].
    intros s3 I3 Hq3 E3. apply HQ; [done | eapply quiet_trans; [apply devices_quiet | done] |].
    intros t. rewrite (quiet_holders _ _ _ Hq3). exact (own_alone _ _ _ I t).
Qed.

Lemma dev_create_wp c name omode perm E s Q R : Inv ((Own, c) :: E) s ->
  (forall s', Inv ((Any, c) :: E) s' -> quiet E s s' -> (forall t, (t, c) ∉ holders s' ++ E) -> Q tt s') ->
  (forall e s', Inv ((Own, c) :: E) s' -> quiet ((Own, c) :: E) s s' -> R e s') -> wp st (dev_create c name omode perm) s Q R.
Proof.
  intros I HQ HR. destruct (inv_get _ _ Own c I) as (ch & Ec & Hf & Hp & Ho & H1); [apply elem_of_app; right; by left |]. unfold dev_create.
  apply wp_seq, (wp_chan _ _ ch); [done |]. apply wp_seq, wp_gets, wp_seq, wp_put.
  destruct ((d_create (devices s) ch name omode perm).2) as [e | chn] eqn:Er.
  - apply wp_raise. eapply HR; try done; [by apply devices_inv | apply devices_quiet].
  - eapply (own_put_wp Any _ ch); [by apply devices_inv | exact Ec | done | exact (create_law _ _ _ _ _ _ Er Hf) | done | done |].
    intros s3 I3 Hq3 E3. apply HQ; [done | eapply quiet_trans; [apply devices_quiet | done] |].
    intros t. rewrite (quiet_holders _ _ _ Hq3). exact (own_alone _ _ _ I t).
Qed.

(** Reading and writing, of a channel that others may hold as well. *)
Lemma dev_read_wp t c n off E s Q R : Inv ((t, c) :: E) s -> t <> Own ->
  (forall bs s', Inv ((t, c) :: E) s' -> quiet ((t, c) :: E) s s' -> (forall ch, chans s !! c = Some ch -> exists ch', chans s' !! c = Some ch' /\ mnt ch' = mnt ch) -> Q bs s') ->
  (forall e s', Inv ((t, c) :: E) s' -> quiet ((t, c) :: E) s s' -> R e s') -> wp st (dev_read c n off) s Q R.
Proof.
  intros I Ht HQ HR. destruct (inv_get _ _ t c I) as (ch & Ec & Hf & Hp & _); [apply elem_of_app; right; by left |]. unfold dev_read.
  apply wp_seq, (wp_chan _ _ ch); [done |]. apply wp_seq, wp_gets, wp_seq, wp_put.
  destruct ((d_read (devices s) ch n off).2) as [e | [chn bs]] eqn:Er.
  - apply wp_raise. eapply HR; try done; [by apply devices_inv | apply devices_quiet].
  - destruct (read_law _ _ _ _ _ _ Er) as [L1 L2]. apply wp_seq.
    eapply (any_put_wp t _ ch); [by apply devices_inv | done | exact Ec | done | exact L1 |].
    intros s3 I3 Hq3 E3. apply wp_return. apply HQ; [done | eapply quiet_trans; [apply devices_quiet | done] |].
    intros ch0 E0. exists (set_ref (ref ch) chn). split; [done |]. cbn. congruence.
Qed.

Lemma dev_write_wp t c bs off E s Q R : Inv ((t, c) :: E) s -> t <> Own ->
  (forall n s', Inv ((t, c) :: E) s' -> quiet ((t, c) :: E) s s' -> Q n s') ->
  (forall e s', Inv ((t, c) :: E) s' -> quiet ((t, c) :: E) s s' -> R e s') -> wp st (dev_write c bs off) s Q R.
Proof.
  intros I Ht HQ HR. destruct (inv_get _ _ t c I) as (ch & Ec & Hf & Hp & _); [apply elem_of_app; right; by left |]. unfold dev_write.
  apply wp_seq, (wp_chan _ _ ch); [done |]. apply wp_seq, wp_gets, wp_seq, wp_put.
  destruct ((d_write (devices s) ch bs off).2) as [e | [chn n]] eqn:Er.
  - apply wp_raise. eapply HR; try done; [by apply devices_inv | apply devices_quiet].
  - apply wp_seq. eapply (any_put_wp t _ ch); [by apply devices_inv | done | exact Ec | done | exact (write_law _ _ _ _ _ _ Er) |].
    intros s3 I3 Hq3 E3. apply wp_return. apply HQ; [done |]. eapply quiet_trans; [apply devices_quiet | done].
Qed.

(** Calls that leave the channel as it is. *)
Lemma dev_stat_wp t c E s Q R : Inv E s -> (t, c) ∈ holders s ++ E ->
  (forall bs s', convM2D bs no_dir <> None -> Inv E s' -> quiet E s s' -> Q bs s') -> (forall e s', Inv E s' -> quiet E s s' -> R e s') ->
  wp st (dev_stat c) s Q R.
Proof.
  intros I Hin HQ HR. destruct (inv_get _ _ t c I Hin) as (ch & Ec & _). unfold dev_stat.
  apply wp_seq, (wp_chan _ _ ch); [done |]. apply wp_seq, wp_gets, wp_seq, wp_put.
  destruct ((d_stat (devices s) ch).2) as [e | bs] eqn:Er; [apply wp_raise, HR | apply wp_return, HQ];
    [by apply devices_inv | apply devices_quiet | by eapply stat_law | by apply devices_inv | apply devices_quiet].
Qed.

Lemma dev_wstat_wp t c bs E s Q R : Inv E s -> (t, c) ∈ holders s ++ E ->
  (forall s', Inv E s' -> quiet E s s' -> Q tt s') -> (forall e s', Inv E s' -> quiet E s s' -> R e s') -> wp st (dev_wstat c bs) s Q R.
Proof.
  intros I Hin HQ HR. destruct (inv_get _ _ t c I Hin) as (ch & Ec & _). unfold dev_wstat.
  apply wp_seq, (wp_chan _ _ ch); [done |]. apply wp_seq, wp_gets, wp_seq, wp_put.
  destruct ((d_wstat (devices s) ch bs).2); [apply wp_raise, HR | apply wp_return, HQ]; by apply devices_inv || apply devices_quiet.
Qed.

Lemma dev_remove_wp t c E s Q R : Inv E s -> (t, c) ∈ holders s ++ E ->
  (forall s', Inv E s' -> quiet E s s' -> Q tt s') -> (forall e s', Inv E s' -> quiet E s s' -> R e s') -> wp st (dev_remove c) s Q R.
Proof.
  intros I Hin HQ HR. destruct (inv_get _ _ t c I Hin) as (ch & Ec & _). unfold dev_remove.
  apply wp_seq, (wp_chan _ _ ch); [done |]. apply wp_seq, wp_gets, wp_seq, wp_put.
  destruct ((d_remove (devices s) ch).2); [apply wp_raise, HR | apply wp_return, HQ]; by apply devices_inv || apply devices_quiet.
Qed.

End Ops.
