(* ===== verification/NsWalk.v ===== *)
(** * The name space: walking

    What [domount], [undomount], [walk] and [createdir] do: the channel that is
    walked belongs to the call, the mount table and the channels of others stay;
    where the channel gets. *)

From S2P Require Import Prelude Styx Rune Name Ns NsInv NsOps.
Import Ns.

#[local] Open Scope Z_scope.

(** ** Lists of mounts *)

Lemma position_spec {A} (f : A -> bool) l : match position f l with
  | Some i => exists x, l !! i = Some x /\ f x = true /\ forall j y, (j < i)%nat -> l !! j = Some y -> f y = false
  | None => forall x, x ∈ l -> f x = false end.
Proof.
  induction l as [| x l IH]; cbn [position]; [by intros x ?%not_elem_of_nil |]. destruct (f x) eqn:Ef.
  - exists x. split_and!; try done. intros j y Hj. lia.
  - destruct (position f l) as [i |]; cbn.
    + destruct IH as (y & Hy & Hf & Hlt). exists y. split_and!; try done. intros [| j] z Hj Hz; [by injection Hz as <- | apply (Hlt j); [lia | done]].
    + intros y [-> | Hy]%elem_of_cons; auto.
Qed.

Lemma suffix_spec p ms ms' : suffix p ms = Some ms' -> exists pre f t, ms = pre ++ ms' /\ ms' = f :: t /\ addr f = p.
Proof.
  induction ms as [| m ms IH]; cbn [suffix]; [done |]. destruct (Z.eqb_spec (addr m) p) as [E | E].
  - intros [= <-]. by exists [], m, ms.
  - intros H. destruct (IH H) as (pre & f & t & -> & E2 & Ep). by exists (m :: pre), f, t.
Qed.
Lemma suffix_none p ms : suffix p ms = None <-> p ∉ addr <$> ms.
Proof.
  induction ms as [| m ms IH]; cbn [suffix fmap list_fmap]; [split; [intros _; apply not_elem_of_nil | done] |].
  rewrite not_elem_of_cons. destruct (Z.eqb_spec (addr m) p) as [E | E]; [split; [done | by intros [? _]] |].
  rewrite IH. naive_solver.
Qed.

Section Walk.
Context {D : Devices}.

(** ** What the table says *)

Lemma is_chan_spec cs c a : is_chan cs c a = true <-> key_at cs a = Some (key c).
Proof.
  unfold is_chan, key_at, key, eqchan. destruct (cs !! a) as [ch |]; cbn; [| done].
  rewrite !andb_true_iff, !Z.eqb_eq. split; [intros [[[? _] ?] ?]; congruence | intros [= -> -> ->]; done].
Qed.

(** What is mounted on a file. *)
Fixpoint mounts_on (cs : gmap Z Chan) (hs : list Mhead) (k : Z * Z * Z) : list Mount :=
  match hs with
  | [] => []
  | h :: hs => if bool_decide (key_at cs (from h) = Some k) then mount h else mounts_on cs hs k
  end.

Lemma mounts_on_some cs hs k h : NoDup ((fun h => key_at cs (from h)) <$> hs) -> h ∈ hs -> key_at cs (from h) = Some k -> mounts_on cs hs k = mount h.
Proof.
  intros Hnd Hin Hk. induction hs as [| h' hs IH]; [by apply not_elem_of_nil in Hin |].
  cbn [fmap list_fmap] in Hnd. apply NoDup_cons in Hnd as [Hn Hnd]. cbn [mounts_on].
  apply elem_of_cons in Hin as [-> | Hin]; [by rewrite bool_decide_true |]. rewrite bool_decide_false; [by apply IH |].
  intros Hk'. apply Hn. rewrite Hk'. rewrite <- Hk. apply list_elem_of_fmap. by exists h.
Qed.

Lemma mounts_on_none cs hs k : (forall h, h ∈ hs -> key_at cs (from h) <> Some k) -> mounts_on cs hs k = [].
Proof.
  intros H. induction hs as [| h hs IH]; [done |]. cbn [mounts_on]. rewrite bool_decide_false by (apply H; by left).
  apply IH. intros h' Hh. apply H. by right.
Qed.

(** The search in the bucket finds the head of the mount point, if there is one
    anywhere. *)
Lemma find_head_spec cs g ch l : Table cs g -> mnthash g !! MOUNTH ch = Some l ->
  match position (fun m => is_chan cs ch (from m)) l with
  | Some i => exists h, l !! i = Some h /\ h ∈ heads g /\ key_at cs (from h) = Some (key ch) /\ mounts_on cs (heads g) (key ch) = mount h
  | None => (forall h, h ∈ heads g -> key_at cs (from h) <> Some (key ch)) /\ mounts_on cs (heads g) (key ch) = []
  end.
Proof.
  intros Ht Hl. pose proof (position_spec (fun m => is_chan cs ch (from m)) l) as H. destruct (position _ l) as [i |].
  - destruct H as (h & Hh & Hk & _). rewrite is_chan_spec in Hk.
    assert (h ∈ heads g) as Hin by (apply heads_elem; exists (MOUNTH ch), l; split; [done | by eapply list_elem_of_lookup_2]).
    exists h. split_and!; try done. apply mounts_on_some; try done. apply (t_keys _ _ Ht).
  - assert (forall h, h ∈ heads g -> key_at cs (from h) <> Some (key ch)) as Hno.
    { intros h (b & l' & Hb & Hh)%heads_elem Hk. destruct (t_place _ _ Ht b l' h Hb Hh) as (fc & Ef & Em).
      unfold key_at in Hk. rewrite Ef in Hk. injection Hk as Hp Ht1 Hd1.
      assert (b = MOUNTH ch) as -> by (rewrite <- Em; unfold MOUNTH; congruence). rewrite Hl in Hb. injection Hb as <-.
      specialize (H h Hh). rewrite <- not_true_iff_false, is_chan_spec in H. apply H. unfold key_at. rewrite Ef. unfold key. simpl. congruence. }
    split; [done |]. by apply mounts_on_none.
Qed.

Lemma bucket_some cs g ch : Table cs g -> exists l, mnthash g !! MOUNTH ch = Some l.
Proof.
  intros Ht. apply lookup_lt_is_Some. rewrite (t_hash _ _ Ht). unfold MOUNTH, MNTHASH.
  pose proof (Z.mod_pos_bound (path (qid ch)) 32 ltac:(lia)). lia.
Qed.

Lemma inv_table E s : Inv E s -> Table (chans s) (pgrp s).
Proof. intros [_ S]. pose proof (s_tables _ S) as H. by apply Forall_cons in H as [H _]. Qed.

(** The members of the union that a channel is of, if the pointer is good. *)
Definition members (s : state) (ch : Chan) : option (list Mount) :=
  match mnt ch with None => Some [] | Some p => head (omap (fun h => suffix p (mount h)) (all_heads s)) end.

Lemma all_heads_holders s h : h ∈ all_heads s -> forall m, m ∈ mount h -> (Shr, to m) ∈ holders s.
Proof.
  intros Hh m Hm. unfold all_heads in Hh. rewrite elem_of_app in Hh. destruct Hh as [Hh | Hh].
  - eapply (pg_holder s (pgrp s)); [by left |]. by eapply to_token.
  - apply list_elem_of_bind in Hh as (g & Hh & Hg). eapply (pg_holder s g); [by right |]. by eapply to_token.
Qed.

Lemma head_elem {A} (l : list A) x : head l = Some x -> x ∈ l.
Proof. destruct l; [done |]. intros [= ->]. by left. Qed.

Lemma members_head s p ms : head (omap (fun h => suffix p (mount h)) (all_heads s)) = Some ms ->
  exists h pre f t, h ∈ all_heads s /\ mount h = pre ++ ms /\ ms = f :: t /\ addr f = p.
Proof.
  intros H%head_elem. apply list_elem_of_omap in H as (h & Hh & Hs). destruct (suffix_spec _ _ _ Hs) as (pre & f & t & ? & ? & ?).
  by exists h, pre, f, t.
Qed.

Lemma members_holders s ch ms : members s ch = Some ms -> forall m, m ∈ ms -> (Shr, to m) ∈ holders s.
Proof.
  unfold members. destruct (mnt ch) as [p |]; [| intros [= <-] m ?%not_elem_of_nil; done]. intros H m Hm.
  destruct (members_head _ _ _ H) as (h & pre & f & t & Hh & E & _). eapply all_heads_holders; [done |]. rewrite E. apply elem_of_app. by right.
Qed.

Lemma suffix_here pre f t : NoDup (addr <$> pre ++ f :: t) -> suffix (addr f) (pre ++ f :: t) = Some (f :: t).
Proof.
  induction pre as [| m pre IH]; cbn [app suffix fmap list_fmap]; intros H; [by rewrite Z.eqb_refl |].
  apply NoDup_cons in H as [Hm H]. destruct (Z.eqb_spec (addr m) (addr f)) as [E | E]; [| by apply IH].
  exfalso. apply Hm. rewrite E, fmap_app. apply elem_of_app. right. by left.
Qed.

(** The address of a mount stands for what is mounted from there on. *)
Lemma members_at E s ch h pre f t : Inv E s -> h ∈ all_heads s -> mount h = pre ++ f :: t -> mnt ch = Some (addr f) -> members s ch = Some (f :: t).
Proof.
  intros [_ S] Hin Em Ep. unfold members. rewrite Ep. pose proof (s_addrs _ S) as Hnd. clear S Ep. revert Hnd Hin. generalize (all_heads s) as hs.
  induction hs as [| h' hs IH]; intros Hnd Hin; [by apply not_elem_of_nil in Hin |]. cbn [omap list_omap].
  cbn [mbind list_bind] in Hnd. rewrite fmap_app in Hnd. apply NoDup_app in Hnd as (Hnd1 & Hd & Hnd).
  apply elem_of_cons in Hin as [-> | Hin]; [rewrite Em in *; by rewrite suffix_here |].
  assert (suffix (addr f) (mount h') = None) as ->; [| by apply IH]. apply suffix_none. intros Hf. apply (Hd _ Hf).
  apply list_elem_of_fmap. exists f. split; [done |]. apply list_elem_of_bind. exists h. split; [| done]. rewrite Em. apply elem_of_app. right. by left.
Qed.

Lemma members_first E s ch h f t : Inv E s -> h ∈ heads (pgrp s) -> mount h = f :: t -> mnt ch = Some (addr f) -> members s ch = Some (f :: t).
Proof. intros I Hh Em Ep. eapply (members_at E s ch h []); try done. apply elem_of_app. by left. Qed.

Lemma members_next E s ch ch' f f2 t : Inv E s -> members s ch = Some (f :: f2 :: t) -> mnt ch' = Some (addr f2) -> members s ch' = Some (f2 :: t).
Proof.
  intros I Hm Ep. unfold members in Hm. destruct (mnt ch) as [p |]; [| done].
  destruct (members_head _ _ _ Hm) as (h & pre & f' & t' & Hh & E1 & [= <- <-] & _).
  eapply (members_at E s ch' h (pre ++ [f])); try done. by rewrite <- app_assoc.
Qed.

(** ** Where a walk gets *)

Definition Walks (k : Z * Z * Z) (name : list Z) (k' : Z * Z * Z) : Prop :=
  exists ds ch ch', key ch = k /\ (d_walk ds ch name).2 = Walked ch' /\ key ch' = k'.
Definition Misses (k : Z * Z * Z) (name : list Z) : Prop := exists ds ch, key ch = k /\ (d_walk ds ch name).2 = Missing.
(** An error of a driver. *)
Definition Unclonable (e : err) : Prop := exists ds ch, (d_clone ds ch).2 = inl e.
Definition Faulty (e : err) : Prop := Unclonable e \/ (exists ds ch name, (d_walk ds ch name).2 = Refused e) \/ (exists ds t spec, (d_attach ds t spec).2 = inl e).

(** The members of a union are tried in order. *)
Inductive finds (cs : gmap Z Chan) (name : list Z) : list Mount -> option (Z * Z * Z) -> Prop :=
  | finds_none : finds cs name [] None
  | finds_here f ms k k' : key_at cs (to f) = Some k -> Walks k name k' -> finds cs name (f :: ms) (Some k')
  | finds_next f ms k r : key_at cs (to f) = Some k -> Misses k name -> finds cs name ms r -> finds cs name (f :: ms) r.

(** The channel of a file, or of what is mounted on it. *)
Definition at_mount (cs : gmap Z Chan) (ms : list Mount) (k : Z * Z * Z) (ch : Chan) : Prop :=
  match ms with [] => key ch = k /\ mnt ch = None | f :: _ => key_at cs (to f) = Some (key ch) /\ mnt ch = Some (addr f) end.


Lemma key_held E E' s s' t x : Inv E s -> quiet E' s s' -> (t, x) ∈ holders s -> key_at (chans s') x = key_at (chans s) x.
Proof.
  intros I Hq Hin. eapply (frame_key (holders s ++ E')); [by apply q_frame | exists t; by apply held_shr |].
  destruct (inv_get _ _ t x I) as (ch & Ec & _); [by apply held_shr | by exists ch].
Qed.

Lemma mounts_on_quiet E E' s s' k : Inv E s -> quiet E' s s' -> mounts_on (chans s') (heads (pgrp s)) k = mounts_on (chans s) (heads (pgrp s)) k.
Proof.
  intros I Hq. assert (forall h, h ∈ heads (pgrp s) -> key_at (chans s') (from h) = key_at (chans s) (from h)) as Hk.
  { intros h Hh. eapply key_held; [done | done |]. eapply pg_holder; [by left |]. by apply from_token. }
  revert Hk. generalize (heads (pgrp s)) as hs. induction hs as [| h hs IH]; intros Hk; [done |]. cbn [mounts_on].
  rewrite (Hk h) by (by left). case_bool_decide; [done |]. apply IH. intros h' Hh. apply Hk. by right.
Qed.

Lemma mounts_on_elem cs hs k : mounts_on cs hs k = [] \/ exists h, h ∈ hs /\ mounts_on cs hs k = mount h.
Proof.
  induction hs as [| h hs IH]; [by left |]. cbn [mounts_on]. case_bool_decide; [right; exists h; split; [by left | done] |].
  destruct IH as [-> | (h' & Hh & ->)]; [by left | right; exists h'; split; [by right | done]].
Qed.

Lemma mounts_on_holder s k f : f ∈ mounts_on (chans s) (heads (pgrp s)) k -> (Shr, to f) ∈ holders s.
Proof.
  destruct (mounts_on_elem (chans s) (heads (pgrp s)) k) as [-> | (h & Hh & ->)]; [by intros ?%not_elem_of_nil |]. intros Hf.
  eapply (pg_holder s (pgrp s)); [by left |]. by eapply to_token.
Qed.

Lemma finds_quiet E E' s s' name ms r : Inv E s -> quiet E' s s' -> (forall m, m ∈ ms -> (Shr, to m) ∈ holders s) ->
  finds (chans s') name ms r -> finds (chans s) name ms r.
Proof.
  intros I Hq Hm H. induction H as [| f ms k k' Hk Hw | f ms k r Hk Hw H IH]; [constructor | eapply finds_here | eapply finds_next]; try done.
  - rewrite <- Hk. symmetry. eapply key_held; try done. apply Hm. by left.
  - rewrite <- Hk. symmetry. eapply key_held; try done. apply Hm. by left.
  - apply IH. intros m Hin. apply Hm. by right.
Qed.

Lemma members_quiet E s s' ch : quiet E s s' -> members s' ch = members s ch.
Proof. intros [H1 H2 _ _ _ _ _]. unfold members, all_heads. by rewrite H1, H2. Qed.
End Walk.

(** ** The calls *)

Section Calls.
Context {D : Devices} {L : Laws D}.
Context (st : Prop).

Lemma bucket_wp ch E s Q R : Inv E s -> (forall l, mnthash (pgrp s) !! MOUNTH ch = Some l -> Q l s) -> wp st (bucket (MOUNTH ch)) s Q R.
Proof.
  intros I HQ. destruct (bucket_some _ _ ch (inv_table _ _ I)) as [l El]. apply wp_seq, wp_gets. eapply wp_need; [exact El |]. by apply HQ.
Qed.

Lemma is_mnt_flags v ch : ref (set_mnt v ch) = ref ch /\ is_set (flag (set_mnt v ch)) CFREE = is_set (flag ch) CFREE /\ is_set (flag (set_mnt v ch)) COPEN = is_set (flag ch) COPEN.
Proof. done. Qed.

Lemma domount_wp c ch E s Q R : Inv ((Own, c) :: E) s -> chans s !! c = Some ch ->
  (forall nc ch' s', Inv ((Own, nc) :: E) s' -> quiet E s s' -> chans s' !! nc = Some ch' ->
    at_mount (chans s) (mounts_on (chans s) (heads (pgrp s)) (key ch)) (key ch) ch' -> Q nc s') ->
  (forall e s', Inv ((Own, c) :: E) s' -> quiet E s s' -> Unclonable e -> R e s') -> wp st (domount c) s Q R.
Proof.
  intros I Ec HQ HR. unfold domount. apply wp_seq. eapply own_upd_wp; [exact I | done |]. intros ch0 s1 E0 I1 Hq1 E1.
  assert (ch0 = ch) as -> by congruence. apply wp_seq, (wp_chan _ _ (set_mnt None ch)); [done |].
  apply wp_seq. eapply bucket_wp; [exact I1 |]. intros l El. apply wp_seq, wp_gets.
  pose proof (find_head_spec (chans s1) (pgrp s1) (set_mnt None ch) l (inv_table _ _ I1) El) as Hf.
  assert (key (set_mnt None ch) = key ch) as Ek by done. rewrite Ek in Hf. clear Ek.
  rewrite <- (mounts_on_quiet _ _ _ _ (key ch) I Hq1) in HQ. rewrite <- (q_pgrp _ _ _ Hq1) in HQ.
  destruct (position _ l) as [i |].
  - destruct Hf as (h & Hi & Hh & Hk & Hm). apply wp_seq, (wp_need _ _ h); [done |].
    destruct (t_full _ _ (inv_table _ _ I1) h Hh) as [Hne _]. destruct (mount h) as [| f t] eqn:Eh; [done |].
    apply wp_seq, (wp_need _ _ f); [done |].
    assert ((Shr, to f) ∈ holders s1) as Hto. { eapply (pg_holder s1 (pgrp s1)); [by left |]. eapply to_token; [done |]. rewrite Eh. by left. }
    apply wp_seq. eapply (cclone_wp _ Shr); [exact I1 | by apply held_shr | done | |].
    + intros ct nc ch2 s2 Ect I2 Hq2 E2 Ex1 Ex2 Ex3 _ _ _. apply wp_seq. eapply own_upd_wp; [exact I2 | done |].
      intros ch3 s3 E3 I3 Hq3 E3'. apply wp_seq. eapply own_upd_wp; [exact I3 | done |]. intros ch4 s4 E4 I4 Hq4 E4'.
      assert (ch3 = ch2) as -> by congruence. assert (ch4 = set_mnt (Some (addr f)) ch2) as -> by congruence.
      apply wp_seq. eapply (cclose_wp _ Own c); [eapply inv_permute; [apply perm_swap | exact I4] |]. intros s5 I5 Hq5. apply wp_return.
      destruct (q_frame _ _ _ Hq5 Own nc _ ltac:(apply elem_of_app; right; by left) E4') as (ch5 & E5 & _ & Ee). rewrite (Ee eq_refl) in E5. clear Ee ch5.
      eapply HQ; [done | | exact E5 |].
      * quiets.
      * rewrite Hm. cbn [at_mount]. split; [| done]. rewrite <- (key_held _ _ _ _ Shr (to f) I Hq1) by (by rewrite <- (quiet_holders _ _ _ Hq1)).
        unfold key_at. rewrite Ect. unfold key. cbn. congruence.
    + intros ct e s2 Ect Hce I2 Hq2. apply HR; [done | quiets | by eexists _, _].
  - destruct Hf as [_ Hm]. apply wp_return. eapply HQ; [done | done | exact E1 |]. rewrite Hm. done.
Qed.

(** The channel is closed before it is replaced. *)
Lemma undomount_loop_wp hs c E s Q R : Inv ((Own, c) :: E) s -> (forall h, h ∈ hs -> (Shr, from h) ∈ holders s) ->
  (forall nc s', Inv ((Own, nc) :: E) s' -> quiet E s s' -> Q nc s') ->
  (forall e s', Inv E s' -> quiet E s s' -> Unclonable e -> R e s') -> wp st (undomount_loop hs c) s Q R.
Proof.
  revert c s. induction hs as [| h hs IH]; intros c s I Hh HQ HR; cbn [undomount_loop]; [apply wp_return, HQ; [done | quiets] |].
  destruct (inv_get _ _ Own c I ltac:(held)) as (ch & Ec & _). apply wp_seq, (wp_chan _ _ ch); [done |]. apply wp_seq, wp_gets.
  destruct (existsb _ _).
  - apply wp_seq. eapply cclose_wp; [exact I |]. intros s1 I1 Hq1.
    assert (holders s1 = holders s) as E1 by (by eapply quiet_holders).
    apply wp_seq. eapply (cclone_wp _ Shr); [exact I1 | apply held_shr; rewrite E1; apply Hh; by left | done | |].
    + intros fc nc ch2 s2 _ I2 Hq2 _ _ _ _ _ _ _. eapply IH; [exact I2 | | |].
      * intros h' Hin. rewrite (quiet_holders _ _ _ Hq2), E1. apply Hh. by right.
      * intros nc' s3 I3 Hq3. apply HQ; [done | quiets].
      * intros e s3 I3 Hq3 He. apply HR; [done | quiets | done].
    + intros fc e s2 _ He I2 Hq2. apply HR; [done | quiets | by eexists _, _].
  - apply IH; try done. intros h' Hin. apply Hh. by right.
Qed.

Lemma undomount_wp c E s Q R : Inv ((Own, c) :: E) s ->
  (forall nc s', Inv ((Own, nc) :: E) s' -> quiet E s s' -> Q nc s') ->
  (forall e s', Inv E s' -> quiet E s s' -> Unclonable e -> R e s') -> wp st (undomount c) s Q R.
Proof.
  intros I HQ HR. apply wp_seq, wp_gets. eapply undomount_loop_wp; try done. intros h Hh.
  eapply (pg_holder s (pgrp s)); [by left | by apply from_token].
Qed.

Lemma clear_create_flags f m : Z.land CCREATE m = 0 -> is_set (Z.land f (Z.lnot CCREATE)) m = is_set f m.
Proof.
  intros Hm. unfold is_set. rewrite <- Z.land_assoc. replace (Z.land (Z.lnot CCREATE) m) with m; [done |].
  apply Z.bits_inj'. intros n Hn. rewrite Z.land_spec, Z.lnot_spec by done. apply (f_equal (fun z => Z.testbit z n)) in Hm.
  rewrite Z.land_spec, Z.bits_0 in Hm. destruct (Z.testbit CCREATE n), (Z.testbit m n); done.
Qed.

Lemma clear_create_wp c ch E s Q R : Inv ((Own, c) :: E) s -> chans s !! c = Some ch ->
  (forall s', Inv ((Own, c) :: E) s' -> quiet E s s' -> chans s' !! c = Some (set_flag (Z.land (flag ch) (Z.lnot CCREATE)) ch) -> Q tt s') -> wp st (clear_create c) s Q R.
Proof.
  intros I Ec HQ. eapply own_upd_wp; [exact I | |].
  - intros ch1 _. split; [done |]. cbn. by rewrite !clear_create_flags.
  - intros ch1 s1 E1 I1 Hq1 E1'. assert (ch1 = ch) as -> by congruence. by apply HQ.
Qed.

Definition opt_own (r : option Z) : list token := match r with Some c => [(Own, c)] | None => [] end.

Lemma walk_union_wp ms name E s Q R : Inv E s -> (forall m, m ∈ ms -> (Shr, to m) ∈ holders s) ->
  (forall r s', Inv (opt_own r ++ E) s' -> quiet E s s' ->
    match r with
    | Some c => exists ch k, chans s' !! c = Some ch /\ key ch = k /\ finds (chans s) name ms (Some k)
    | None => finds (chans s) name ms None
    end -> Q r s') ->
  (forall e s', Inv E s' -> quiet E s s' -> Faulty e -> R e s') -> wp st (walk_union ms name) s Q R.
Proof.
  revert s. induction ms as [| f ms IH]; intros s I Hm HQ HR; cbn [walk_union]; [apply wp_return, (HQ None); [done | quiets | constructor] |].
  assert ((Shr, to f) ∈ holders s) as Hf by (apply Hm; by left).
  apply wp_seq. eapply (cclone_wp _ Shr); [exact I | by apply held_shr | done | |].
  2: { intros fc e s1 _ He I1 Hq1. apply HR; [done | done | left; by eexists _, _]. }
  intros fc nc ch1 s1 Ef I1 Hq1 E1 Ex1 Ex2 Ex3 _ _ _.
  apply wp_seq. eapply clear_create_wp; [exact I1 | exact E1 |]. intros s2 I2 Hq2 E2.
  assert (key_at (chans s) (to f) = Some (key fc)) as Hk by (unfold key_at; by rewrite Ef).
  assert (key ch1 = key fc) as Ek by (unfold key; congruence).
  apply wp_seq, wp_catch. eapply dev_walk_wp; [exact I2 | | |].
  - intros ch2 ch3 s3 E2' Hw _ _ I3 Hq3 E3. rewrite E2 in E2'. injection E2' as <-. apply wp_return.
    apply (HQ (Some nc)); [exact I3 | quiets |]. eexists _, _. split_and!; [exact E3 | done |]. eapply finds_here; [exact Hk |].
    by exists (devices s2), (set_flag (Z.land (flag ch1) (Z.lnot CCREATE)) ch1), ch3.
  - intros ch2 s3 E2' Hw I3 Hq3. rewrite E2 in E2'. injection E2' as <-.
    apply wp_seq. eapply cclose_wp; [exact I3 |]. intros s4 I4 Hq4.
    assert (Misses (key fc) name) as Hmiss by (by exists (devices s2), (set_flag (Z.land (flag ch1) (Z.lnot CCREATE)) ch1)).
    assert (quiet E s s4) as Hq by quiets.
    assert (forall m, m ∈ ms -> (Shr, to m) ∈ holders s) as Hm' by (intros m Hin; apply Hm; by right).
    apply IH; [exact I4 | | |].
    + intros m Hin. rewrite (quiet_holders _ _ _ Hq). by apply Hm'.
    + intros r s5 I5 Hq5 Hr. apply HQ; [done | quiets |]. destruct r as [c |].
      * destruct Hr as (ch & k & Ec & Hkc & Hfd). exists ch, k. split_and!; try done. eapply finds_next; [done | done |]. by eapply finds_quiet.
      * eapply finds_next; [done | done |]. by eapply finds_quiet.
    + intros e s5 I5 Hq5 He. apply HR; [done | quiets | done].
  - intros ch2 e s3 E2' Hw I3 Hq3. apply wp_seq. eapply cclose_wp; [exact I3 |]. intros s4 I4 Hq4. apply wp_raise.
    apply HR; [done | quiets | right; left; eauto].
Qed.

Lemma mounts_at_wp p s ch Q R : mnt ch = Some p ->
  (forall ms, members s ch = Some ms -> Q ms s) -> (members s ch = None -> st) -> wp st (mounts_at p) s Q R.
Proof.
  intros Ep HQ Hst. unfold members in *. rewrite Ep in *. apply wp_seq, wp_gets.
  destruct (omap _ (all_heads s)) as [| ms l]; [split; [done | by apply Hst] | by apply HQ].
Qed.

(** *** A step down *)

Definition Found (s : state) (ch : Chan) (name : list Z) (k : Z * Z * Z) : Prop :=
  Walks (key ch) name k \/ Misses (key ch) name /\ exists ms, members s ch = Some ms /\ finds (chans s) name ms (Some k).
Definition walked (s : state) (c : Z) (ch : Chan) (name : list Z) (domnt : bool) (r : option Z) (s' : state) : Prop :=
  match r with
  | Some nc => exists k ch', Found s ch name k /\ chans s' !! nc = Some ch' /\
      if domnt then at_mount (chans s) (mounts_on (chans s) (heads (pgrp s)) k) k ch' else key ch' = k /\ (mnt ch' = mnt ch \/ mnt ch' = None)
  | None => Misses (key ch) name /\ (exists ms, members s ch = Some ms /\ finds (chans s) name ms None) /\ exists ch', chans s' !! c = Some ch' /\ mnt ch' = mnt ch
  end.

Lemma at_mount_quiet E E' s s' k ch : Inv E s -> quiet E' s s' ->
  at_mount (chans s') (mounts_on (chans s') (heads (pgrp s')) k) k ch -> at_mount (chans s) (mounts_on (chans s) (heads (pgrp s)) k) k ch.
Proof.
  intros I Hq. rewrite (q_pgrp _ _ _ Hq), (mounts_on_quiet _ _ _ _ k I Hq). destruct (mounts_on (chans s) (heads (pgrp s)) k) as [| f ms] eqn:Em; [done |].
  cbn [at_mount]. rewrite (key_held _ _ _ _ Shr (to f) I Hq); [done |]. eapply mounts_on_holder. rewrite Em. by left.
Qed.

Lemma domount_if_wp c ch (domnt : bool) E E0 s0 s Q R : Inv ((Own, c) :: E) s -> chans s !! c = Some ch -> Inv E0 s0 -> quiet E s0 s ->
  (forall nc ch' s', Inv ((Own, nc) :: E) s' -> quiet E s s' -> chans s' !! nc = Some ch' ->
    (if domnt then at_mount (chans s0) (mounts_on (chans s0) (heads (pgrp s0)) (key ch)) (key ch) ch' else ch' = ch) -> Q nc s') ->
  (forall e s', Inv ((Own, c) :: E) s' -> quiet E s s' -> Unclonable e -> R e s') ->
  wp st (if domnt then domount c else mret c) s Q R.
Proof.
  intros I Ec I0 Hq0 HQ HR. destruct domnt; [| apply wp_return; eapply HQ; [done | quiets | done | done]].
  eapply domount_wp; [exact I | exact Ec | | done]. intros nc ch' s' I' Hq' E' Ha. eapply HQ; try done. by eapply at_mount_quiet.
Qed.

(** A channel that does not point to a mount that is gone. *)
Definition fine (s : state) (c : Z) : Prop := forall ch, chans s !! c = Some ch -> members s ch = None -> st.

Lemma fine_quiet E s s' c : Inv ((Own, c) :: E) s -> quiet ((Own, c) :: E) s s' -> fine s c -> fine s' c.
Proof.
  intros I Hq Hf ch' E'. destruct (inv_get _ _ Own c I ltac:(held)) as (ch & Ec & _).
  destruct (q_frame _ _ _ Hq Own c ch ltac:(held) Ec) as (ch2 & E2 & _ & Ee). assert (ch' = ch) as -> by (rewrite Ee in E2 by done; congruence).
  rewrite (members_quiet _ _ _ _ Hq). by apply Hf.
Qed.

Lemma at_mount_fine E E' s s' c ch k : Inv E s -> quiet E' s s' -> chans s' !! c = Some ch -> at_mount (chans s) (mounts_on (chans s) (heads (pgrp s)) k) k ch -> fine s' c.
Proof.
  intros I Hq Ec Ha ch' Ec'. assert (ch' = ch) as -> by congruence. rewrite (members_quiet _ _ _ _ Hq). intros Hm. exfalso.
  destruct (mounts_on_elem (chans s) (heads (pgrp s)) k) as [Hn | (h & Hh & Em)].
  - rewrite Hn in Ha. destruct Ha as [_ Ha]. unfold members in Hm. by rewrite Ha in Hm.
  - destruct (mounts_on _ _ _) as [| f t]; [destruct Ha as [_ Ha]; unfold members in Hm; by rewrite Ha in Hm |].
    destruct Ha as [_ Ha]. rewrite (members_first E s ch h f t) in Hm; done.
Qed.

Lemma walked_fine E E' s s' c ch name domnt r : Inv E s -> quiet E' s s' -> chans s !! c = Some ch -> fine s c -> walked s c ch name domnt r s' -> fine s' (default c r).
Proof.
  intros I Hq Ec Hf Hw. assert (forall ch', mnt ch' = mnt ch \/ mnt ch' = None -> members s' ch' = None -> st) as Hm.
  { intros ch' Hmnt Hn. rewrite (members_quiet _ _ _ _ Hq) in Hn. apply (Hf ch Ec). unfold members in *. destruct Hmnt as [<- | E1]; [done |]. by rewrite E1 in Hn. }
  destruct r as [nc |]; cbn [default walked] in *.
  - destruct Hw as (k & ch' & _ & Enc & Ha). destruct domnt; [by eapply at_mount_fine |]. destruct Ha as [_ Ha]. intros ch2 E2. change (chans s' !! nc = Some ch2) in E2. assert (ch2 = ch') as -> by congruence. by apply Hm.
  - destruct Hw as (_ & _ & ch' & Enc & Ha). intros ch2 E2. change (chans s' !! c = Some ch2) in E2. assert (ch2 = ch') as -> by congruence. apply Hm. by left.
Qed.

Lemma walk_down_wp c ch name domnt E s Q R : Inv ((Own, c) :: E) s -> chans s !! c = Some ch -> name <> [] -> name <> dotdot -> (members s ch = None -> st) ->
  (forall r s', Inv ((Own, default c r) :: E) s' -> quiet E s s' -> walked s c ch name domnt r s' -> Q r s') ->
  (forall e s', Inv ((Own, c) :: E) s' -> quiet E s s' -> Faulty e -> R e s') -> wp st (walk c name domnt) s Q R.
Proof.
  intros I Ec Hn Hd Hst HQ HR. unfold walk. destruct name as [| b name']; [done |]. set (name := b :: name') in *.
  apply wp_seq, (wp_chan _ _ ch); [done |]. apply wp_seq, wp_gets.
  destruct (inv_get _ _ Shr (p_slash (pgrp s)) I) as (csl & Esl & _). { apply held_shr. eapply (pg_holder s (pgrp s)); by left. }
  apply wp_seq, (wp_chan _ _ csl); [done |]. rewrite (bool_decide_false (name = dotdot)) by done. cbn [andb].
  apply wp_seq, wp_return. apply wp_seq. eapply clear_create_wp; [exact I | exact Ec |]. intros s1 I1 Hq1 E1.
  set (ch1 := set_flag (Z.land (flag ch) (Z.lnot CCREATE)) ch) in *.
  apply wp_seq. eapply dev_walk_wp; [exact I1 | | |].
  - intros ch2 ch3 s2 E1' Hw _ Hmnt I2 Hq2 E2. rewrite E1 in E1'. injection E1' as <-. apply wp_seq, wp_return. apply wp_seq.
    eapply (domount_if_wp c _ domnt); [exact I2 | exact E2 | exact I | quiets | |].
    + intros nc ch' s3 I3 Hq3 E3 Ha. apply wp_return. apply (HQ (Some nc)); [done | quiets |]. exists (key ch3), ch'. split_and!; [| done |].
      * left. by exists (devices s1), ch1, ch3.
      * destruct domnt; [exact Ha |]. subst ch'. split; [done | by left].
    + intros e s3 I3 Hq3 He. apply HR; [done | quiets | by left].
  - intros ch2 s2 E1' Hw I2 Hq2. rewrite E1 in E1'. injection E1' as <-. apply wp_seq.
    assert (Misses (key ch) name) as Hmiss by (by exists (devices s1), ch1).
    assert (chans s2 !! c = Some ch1) as E2.
    { destruct (q_frame _ _ _ Hq2 Own c ch1 ltac:(held) E1) as (ch2 & E2 & _ & Ee). by rewrite (Ee eq_refl) in E2. }
    assert (quiet E s s2) as Hq by quiets. assert (members s2 ch1 = members s ch) as Em by (by rewrite (members_quiet _ _ _ ch1 Hq)).
    apply (wp_chan _ _ ch1); [done |]. change (mnt ch1) with (mnt ch). destruct (mnt ch) as [p |] eqn:Ep.
    2: { apply wp_return, (HQ None); [done | done |]. split_and!; [done | | by exists ch1]. exists []. split; [unfold members; by rewrite Ep | constructor]. }
    apply wp_seq. eapply (mounts_at_wp p s2 ch1); [done | | rewrite Em; done]. intros ms Hms. rewrite Em in Hms.
    assert (forall m, m ∈ ms -> (Shr, to m) ∈ holders s2) as Hto by (rewrite (quiet_holders _ _ _ Hq); by eapply members_holders).
    apply wp_seq. eapply walk_union_wp; [exact I2 | done | |].
    + intros [nc |] s3 I3 Hq3 Hr.
      * destruct Hr as (nch & k & E3 & Ek & Hfd). assert (finds (chans s) name ms (Some k)) as Hfd'.
        { eapply finds_quiet; [exact I | exact Hq | by eapply members_holders | done]. }
        apply wp_seq, wp_return. apply wp_seq. eapply own_upd_wp; [exact I3 | done |]. intros nch' s4 E4 I4 Hq4 E4'.
        assert (nch' = nch) as -> by congruence. apply wp_seq.
        assert (quiet ((Own, c) :: E) s2 s4) as Hq24 by quiets.
        assert (quiet ((Own, c) :: E) s1 s4) as Hq14 by quiets.
        assert (wp st (if domnt then domount nc else mret nc) s4
          (fun nc' s5 => Inv ((Own, nc') :: (Own, c) :: E) s5 /\ quiet ((Own, c) :: E) s4 s5 /\ exists ch', chans s5 !! nc' = Some ch' /\
             if domnt then at_mount (chans s) (mounts_on (chans s) (heads (pgrp s)) k) k ch' else key ch' = k /\ (mnt ch' = mnt ch \/ mnt ch' = None))
          (fun e s5 => Inv ((Own, nc) :: (Own, c) :: E) s5 /\ quiet ((Own, c) :: E) s4 s5 /\ Faulty e)) as Hdo.
        { eapply (domount_if_wp nc _ domnt _ _ s1); [exact I4 | exact E4' | exact I1 | exact Hq14 | |].
          - intros nc' ch' s5 I5 Hq5 E5 Ha. split_and!; [done | done |]. exists ch'. split; [done |]. rewrite <- Ek. destruct domnt; [by eapply (at_mount_quiet _ E s s1) |].
            subst ch'. split; [done | by right].
          - intros e s5 I5 Hq5 He. split_and!; [done | done | by left]. }
        assert (wp st (if domnt then catch (domount nc) (fun e => cclose nc;; error e) else mret nc) s4
          (fun nc' s5 => Inv ((Own, nc') :: (Own, c) :: E) s5 /\ quiet ((Own, c) :: E) s4 s5 /\ exists ch', chans s5 !! nc' = Some ch' /\
             if domnt then at_mount (chans s) (mounts_on (chans s) (heads (pgrp s)) k) k ch' else key ch' = k /\ (mnt ch' = mnt ch \/ mnt ch' = None))
          (fun e s6 => Inv ((Own, c) :: E) s6 /\ quiet E s s6 /\ Faulty e)) as Hdo'.
        { destruct domnt; [apply wp_catch | exact Hdo]. eapply wp_conseq; [exact Hdo | done |]. intros e s5 (I5 & Hq5 & He).
          apply wp_seq. eapply cclose_wp; [exact I5 |]. intros s6 I6 Hq6. apply wp_raise. split_and!; [done | quiets | done]. }
        eapply wp_conseq; [exact Hdo' | | intros e s6 (I6 & Hq6 & He); by apply HR].
        intros nc' s5 (I5 & Hq5 & ch' & E5 & Ha). apply wp_seq. eapply (cclose_wp _ Own c); [reorder I5 |]. intros s6 I6 Hq6. apply wp_return.
        apply (HQ (Some nc')); [done | quiets |]. exists k, ch'. split_and!; [right; eauto | | done].
        destruct (q_frame _ _ _ Hq6 Own nc' _ ltac:(held) E5) as (ch6 & E6 & _ & Ee). by rewrite (Ee eq_refl) in E6.
      * apply wp_return, (HQ None); [done | quiets |]. split_and!; [done | exists ms; split; [done |]; eapply finds_quiet; [exact I | exact Hq | by eapply members_holders | done] |].
        destruct (q_frame _ _ _ Hq3 Own c ch1 ltac:(held) E2) as (ch3 & E3 & _ & Ee). rewrite (Ee eq_refl) in E3. by exists ch1.
    + intros e s3 I3 Hq3 He. apply HR; [done | quiets | done].
  - intros ch2 e s2 E1' Hw I2 Hq2. apply HR; [done | quiets | right; left; eauto].
Qed.

(** *** A step up, or down *)

(** Walking to the parent does not fail. *)
Definition firm : Prop := (forall ds ch e, (d_clone ds ch).2 <> inl e) /\ (forall ds ch, exists ch', (d_walk ds ch dotdot).2 = Walked ch').

Lemma walk_up_wp c (domnt : bool) E s Q R : firm -> Inv ((Own, c) :: E) s -> fine s c ->
  (forall nc s', Inv ((Own, nc) :: E) s' -> quiet E s s' -> (domnt = true -> fine s' nc) -> Q (Some nc) s') -> wp st (walk c dotdot domnt) s Q R.
Proof.
  intros [Hcl Hup] I Hfine HQ. destruct (inv_get _ _ Own c I ltac:(held)) as (ch & Ec & _). unfold walk, dotdot at 1.
  apply wp_seq, (wp_chan _ _ ch); [done |]. apply wp_seq, wp_gets.
  destruct (inv_get _ _ Shr (p_slash (pgrp s)) I) as (csl & Esl & _). { apply held_shr. eapply (pg_holder s (pgrp s)); by left. }
  apply wp_seq, (wp_chan _ _ csl); [done |]. change [46; 46] with dotdot. rewrite bool_decide_true by done. cbn [andb].
  destruct (eqchan csl ch true); [apply wp_return, HQ; [done | quiets | done] |].
  assert (forall e (P : Prop), Unclonable e -> P) as Hno by (intros e P (ds & ch1 & He); by apply Hcl in He).
  apply wp_seq. eapply undomount_wp; [exact I | | intros e s' _ _; apply Hno]. intros c1 s1 I1 Hq1.
  destruct (inv_get _ _ Own c1 I1 ltac:(held)) as (ch1 & E1 & _).
  apply wp_seq. eapply clear_create_wp; [exact I1 | exact E1 |]. intros s2 I2 Hq2 E2.
  apply wp_seq. eapply dev_walk_wp; [exact I2 | | |].
  - intros ch2 ch3 s3 _ _ _ _ I3 Hq3 E3. apply wp_seq. eapply undomount_wp; [exact I3 | | intros e s' _ _; apply Hno]. intros c4 s4 I4 Hq4.
    destruct (inv_get _ _ Own c4 I4 ltac:(held)) as (ch4 & E4 & _).
    apply wp_seq. eapply (domount_if_wp c4 ch4 domnt); [exact I4 | exact E4 | exact I4 | quiets | |].
    + intros c5 ch5 s5 I5 Hq5 E5 Ha. apply wp_return, HQ; [done | quiets |]. intros ->. exact (at_mount_fine _ _ _ _ _ _ _ I4 Hq5 E5 Ha).
    + intros e s5 _ _. apply Hno.
  - intros ch2 s3 _ Hw _ _. destruct (Hup (devices s2) ch2) as [ch3 Hw']. congruence.
  - intros ch2 e s3 _ Hw _ _. destruct (Hup (devices s2) ch2) as [ch3 Hw']. congruence.
Qed.
End Calls.
