(* ===== verification/NsNamec.v ===== *)
(** * The name space: names

    [namec] as a walk along the names of a path ([path_names] says what these
    are), the tokens of its channel at every end, and the invariant. *)

From S2P Require Import Prelude Styx Rune Name Ns NsInv NsOps NsWalk.
Import Ns.

#[local] Open Scope Z_scope.

(** A string with its NUL. *)
Definition text (p s : list Z) : Prop := p = s ++ [0] /\ bytes s /\ (0 ∉ s).

Section Along.
Context {D : Devices}.

(** ** The walk along names *)

Fixpoint along (c : Z) (es : list (list Z)) (x : option err) (mntok : bool) : M (Z * list Z) :=
  match es with
  | [] => mret (c, [])
  | e :: es =>
      match es with
      | [] => match x with None => mret (c, e) | Some x => c ← walk_to c e mntok; keep c (error x) end
      | _ => c ← walk_to c e mntok; along c es x mntok
      end
  end.

Definition goto (amode : access) (c : Z) (es : list (list Z)) (mntok isdot : bool) : M (Z * list Z) :=
  match es with
  | [] => c ← (if mntok && negb isdot && negb (match amode with Amount => true | _ => false end) then keep c (domount c) else mret c); mret (c, [])
  | _ =>
      let '(gs, x) := good_names es in
      match gs with
      | [] => keep c (error (default Efilename x))
      | _ => c ← (if mntok && negb isdot then keep c (domount c) else mret c); along c gs x mntok
      end
  end.

Lemma bind_eq {A B} (m m' : M A) (k k' : A -> M B) s : m s = m' s -> (forall a s', k a s' = k' a s') -> (m ≫= k) s = (m' ≫= k') s.
Proof. intros E H. unfold mbind, m_bind. rewrite E. by destruct (m' s). Qed.

Lemma ret_bind {A B} (a : A) (k : A -> M B) s : (mret a ≫= k) s = k a s.
Proof. done. Qed.

Lemma catch_eq {A} (m m' : M A) h s : m s = m' s -> catch m h s = catch m' h s.
Proof. intros E. unfold catch. by rewrite E. Qed.

Lemma walks_along q fuel c elem mntok s : bytes (q ++ [0]) -> (0 ∉ q) -> normal q -> (length q < fuel)%nat ->
  walks fuel c (q ++ [0]) elem mntok s = (let '(gs, x) := good_names (names q) in along c (elem :: gs) x mntok) s.
Proof.
  revert q c elem s. induction fuel as [| fuel IH]; intros q c elem s Hb Hz Hn Hf; [lia |]. cbn [walks].
  destruct (normal_nextelem [] q Hb Hz Hn) as [[-> _] | (e & q' & En & [l El] & Hl & Hn' & E)]; [done |].
  rewrite En. cbn [good_names].
  assert (exists b, (q ++ [0]) !! 0%nat = Some b /\ b <> 0) as (b & Eb & Hb0).
  { destruct q as [| b q]; [simpl in Hl; lia |]. exists b. split; [done |]. intros ->. apply Hz. by left. }
  rewrite Eb. cbn [need]. rewrite ret_bind. destruct (Z.eqb_spec b 0); [done |]. rewrite E.
  assert (bytes (q' ++ [0])) as Hb' by (subst q; rewrite <- app_assoc in Hb; by apply Forall_app in Hb as [_ ?]).
  assert (0 ∉ q') as Hz' by (subst q; intros Hin; apply Hz, elem_of_app; by right).
  destruct (name_error e) as [x |].
  - cbn [along]. apply bind_eq; [done |]. intros c' s'. cbn [checked]. unfold keep, catch, mbind, m_bind, error. by destruct (cclose c' s').
  - destruct (good_names (names q')) as [gs x] eqn:Eg. cbn [along]. apply bind_eq; [done |]. intros c' s'.
    unfold keep, checked, catch, mbind, m_bind, mret, m_ret.
    rewrite (IH q' c' e s') by (done || lia). rewrite Eg. done.
Qed.

Lemma elems_goto amode c q mntok isdot s : bytes (q ++ [0]) -> (0 ∉ q) -> normal q ->
  namec_elems amode c (q ++ [0]) mntok isdot s = goto amode c (names q) mntok isdot s.
Proof.
  intros Hb Hz Hn. unfold namec_elems. destruct (normal_nextelem [] q Hb Hz Hn) as [[-> E] | (e & q' & En & [l El] & Hl & Hn' & E)].
  - change ([] ++ [0]) with [0] in E |- *. rewrite E. change (names []) with (@nil (list Z)). cbn [goto].
    change (keep c (checked (Some (inr ([0], []))))) with (mret ([0], []) : M (list Z * list Z)). rewrite ret_bind. rewrite andb_true_r.
    apply bind_eq; [done |]. intros c' s'. done.
  - rewrite En, E. unfold goto. cbn [good_names]. destruct (name_error e) as [x |] eqn:Ex.
    + cbn [checked default]. unfold keep, catch, mbind, m_bind, error. by destruct (cclose c s).
    + assert (bytes (q' ++ [0])) as Hb' by (subst q; rewrite <- app_assoc in Hb; by apply Forall_app in Hb as [_ ?]).
      assert (0 ∉ q') as Hz' by (subst q; intros Hin; apply Hz, elem_of_app; by right).
      assert (e <> []) as He.
      { intros ->. destruct Hn as [-> | (e1 & q1 & -> & H1 & H2 & H3)]; [done |]. rewrite names_elem in En by done. injection En as -> _. done. }
      destruct (good_names (names q')) as [gs x] eqn:Eg.
      change (keep c (checked (Some (inr (q' ++ [0], e))))) with (mret (q' ++ [0], e) : M (list Z * list Z)). rewrite ret_bind.
      destruct e as [| b e]; [done |]. rewrite andb_false_r, andb_true_r. apply bind_eq; [done |]. intros c' s'.
      rewrite walks_along by (try done; rewrite length_app; simpl; lia). by rewrite Eg.
Qed.

(** ** Where the walk starts *)

Lemma names_behind e0 q x : x ∈ names q -> x ∈ names (e0 ++ slash :: q).
Proof.
  unfold names. destruct (split q) as [a b] eqn:Eq. intros Hx.
  assert (forall y, y ∈ a :: b -> y ∈ (split (e0 ++ slash :: q)).2) as H.
  { intros y Hy. induction e0 as [| c e0 IH]; cbn [app split].
    - rewrite Eq. cbn. exact Hy.
    - destruct (split (e0 ++ slash :: q)) as [e1 es]. cbn in IH. destruct (c =? slash); cbn; [by right | done]. }
  destruct (split (e0 ++ slash :: q)) as [e1 es]. cbn in H. rewrite list_elem_of_filter in *. destruct Hx as [Hx1 Hx2]. split; [done |]. right. auto.
Qed.

Lemma sharp_split p n : (0 ∉ p) -> exists e r, sharp n (p ++ [0]) = Some (e, r ++ [0]) /\ p = e ++ r /\ headed r.
Proof.
  revert n. induction p as [| c p IH]; intros n Hz; cbn [app sharp].
  - exists [], []. done.
  - apply not_elem_of_cons in Hz as [Hc Hz]. destruct (Z.eqb_spec c 0); [congruence |]. cbn [negb andb].
    destruct (Z.eqb_spec c slash) as [-> | Hs]; cbn [negb orb].
    + destruct (n <? 2)%nat.
      * destruct (IH (S n) Hz) as (e & r & -> & -> & Hr). by exists (slash :: e), r.
      * by exists [], (slash :: p).
    + destruct (IH (S n) Hz) as (e & r & -> & -> & Hr). by exists (c :: e), r.
Qed.
End Along.

(** ** Tokens along a name *)

Section Calls.
Context {D : Devices} {L : Laws D}.
Context (st : Prop).

Lemma walk_wp c name (domnt : bool) E s Q R : Inv ((Own, c) :: E) s -> (name <> [] -> fine st s c) -> (name = dotdot -> firm) ->
  (forall r s', Inv ((Own, default c r) :: E) s' -> quiet E s s' -> (name <> [] -> name <> dotdot \/ domnt = true -> fine st s' (default c r)) ->
    (name = [] -> r = Some c /\ s' = s) -> Q r s') ->
  (forall e s', Inv ((Own, c) :: E) s' -> quiet E s s' -> R e s') -> wp st (walk c name domnt) s Q R.
Proof.
  intros I Hf Hd HQ HR. destruct (decide (name = [])) as [-> | Hn]; [apply wp_return, (HQ (Some c)); [done | quiets | done | done] |].
  specialize (Hf Hn). destruct (decide (name = dotdot)) as [-> | Hnd].
  - apply (walk_up_wp st c domnt E); [by apply Hd | done | done |]. intros nc s' I' Hq' Hf'. apply (HQ (Some nc)); [done | done | | done]. intros _ [? | ?]; [done | by apply Hf'].
  - destruct (inv_get _ _ Own c I ltac:(held)) as (ch & Ec & _). eapply (walk_down_wp st c ch name domnt E); try done; [by apply Hf | | by auto].
    intros r s' I' Hq' Hw. apply HQ; [done | done | | done]. intros _ _. exact (walked_fine st _ _ _ _ _ _ _ _ _ I Hq' Ec Hf Hw).
Qed.

Lemma walk_to_wp c name (domnt : bool) E s Q R : Inv ((Own, c) :: E) s -> (name <> [] -> fine st s c) -> (name = dotdot -> firm) ->
  (forall nc s', Inv ((Own, nc) :: E) s' -> quiet E s s' -> (fine st s c -> name <> dotdot \/ domnt = true -> fine st s' nc) -> Q nc s') -> (forall e s', Inv E s' -> quiet E s s' -> R e s') ->
  wp st (walk_to c name domnt) s Q R.
Proof.
  intros I Hf Hd HQ HR. apply (keep_wp _ Own _ E). apply wp_seq. eapply walk_wp; [exact I | done | done | |].
  - intros [nc |] s1 I1 Hq1 Hf1 He; [apply wp_return; apply HQ; [done | done |] |].
    { intros Hc Hor. destruct (decide (name = [])) as [-> | Hn]; [| by apply Hf1]. destruct (He eq_refl) as [[= ->] ->]. done. }
    apply wp_raise. split; [done |]. intros s2 I2 Hq2. apply HR; [done | quiets].
  - intros e s1 I1 Hq1. split; [done |]. intros s2 I2 Hq2. apply HR; [done | quiets].
Qed.

Lemma keep_error_wp {A} t c x E s (Q : A -> state -> Prop) R : Inv ((t, c) :: E) s -> (forall s', Inv E s' -> quiet E s s' -> R x s') -> wp st (keep c (error x)) s Q R.
Proof. intros I HR. apply (keep_wp _ t _ E). apply wp_raise. split; [done |]. intros s2 I2 Hq2. by apply HR. Qed.

Lemma keep_domount_wp c E s Q R : Inv ((Own, c) :: E) s ->
  (forall nc s', Inv ((Own, nc) :: E) s' -> quiet E s s' -> fine st s' nc -> Q nc s') -> (forall e s', Inv E s' -> quiet E s s' -> R e s') ->
  wp st (keep c (domount c)) s Q R.
Proof.
  intros I HQ HR. destruct (inv_get _ _ Own c I ltac:(held)) as (ch & Ec & _). apply (keep_wp _ Own _ E).
  eapply domount_wp; [exact I | exact Ec | |].
  - intros nc ch' s1 I1 Hq1 E1 Ha. apply HQ; [done | done | exact (at_mount_fine _ _ _ _ _ _ _ _ I Hq1 E1 Ha)].
  - intros e s1 I1 Hq1 _. split; [done |]. intros s2 I2 Hq2. apply HR; [done | quiets].
Qed.

(** The parent is asked for only where it can be had. *)
Definition allowed (es : list (list Z)) : Prop := dotdot ∈ es -> firm.

Lemma along_wp es x (mntok : bool) c E s Q R : allowed es -> (dotdot ∈ es -> mntok = true) -> Inv ((Own, c) :: E) s -> fine st s c ->
  (forall c' e s', Inv ((Own, c') :: E) s' -> quiet E s s' -> e = [] \/ e ∈ es -> fine st s' c' -> Q (c', e) s') -> (forall e s', Inv E s' -> quiet E s s' -> R e s') ->
  wp st (along c es x mntok) s Q R.
Proof.
  revert c s. induction es as [| e es IH]; intros c s Ha Hm I Hf HQ HR; [apply wp_return, HQ; [done | quiets | by left | done] |].
  assert (e = dotdot -> firm) as Hd by (intros ->; apply Ha; by left).
  cbn [along]. destruct es as [| e2 es].
  - destruct x as [x |]; [| apply wp_return, HQ; [done | quiets | right; by left | done]]. apply wp_seq. eapply walk_to_wp; [exact I | done | done | | done].
    intros c1 s1 I1 Hq1 _. eapply keep_error_wp; [exact I1 |]. intros s2 I2 Hq2. apply HR; [done | quiets].
  - apply wp_seq. eapply walk_to_wp; [exact I | done | done | | done]. intros c1 s1 I1 Hq1 Hf1. apply IH; [intros Hin; apply Ha; by right | intros Hin; apply Hm; by right | done | | |].
    + apply Hf1; [done |]. destruct (decide (e = dotdot)) as [-> |]; [right; apply Hm; by left | by left].
    + intros c' e' s2 I2 Hq2 He Hf2. apply HQ; [done | quiets | | done]. destruct He; [by left | right; by right].
    + intros e' s2 I2 Hq2. apply HR; [done | quiets].
Qed.

Lemma good_names_sub es gs x e : good_names es = (gs, x) -> e ∈ gs -> e ∈ es.
Proof.
  revert gs. induction es as [| e1 es IH]; intros gs; cbn [good_names]; [by intros [= <- _] |].
  destruct (name_error e1); [intros [= <- _]; by intros ?%not_elem_of_nil |]. destruct (good_names es) as [gs' x']. intros [= <- <-] Hin.
  apply elem_of_cons in Hin as [-> | Hin]; [by left | right; by eapply IH].
Qed.

Lemma goto_wp amode c es (mntok isdot : bool) E s Q R : allowed es -> (dotdot ∈ es -> mntok = true) -> (mntok = false -> fine st s c) -> (isdot = true -> es = []) ->
  Inv ((Own, c) :: E) s ->
  (forall c' e s', Inv ((Own, c') :: E) s' -> quiet E s s' -> e = [] \/ e ∈ es -> (isdot = true -> e = []) ->
    (isdot = false -> amode <> Amount \/ e <> [] -> fine st s' c') -> Q (c', e) s') -> (forall e s', Inv E s' -> quiet E s s' -> R e s') ->
  wp st (goto amode c es mntok isdot) s Q R.
Proof.
  intros Ha Hm Hf Hdot I HQ HR.
  assert (forall b : bool, forall Q' : Z -> state -> Prop,
    (forall nc s', Inv ((Own, nc) :: E) s' -> quiet E s s' -> (b = true \/ fine st s c -> fine st s' nc) -> Q' nc s') -> wp st (if b then keep c (domount c) else mret c) s Q' R) as Hdo.
  { intros [|] Q' HQ'; [eapply keep_domount_wp; [done | intros nc s1 I1 Hq1 Hf1; by apply HQ' | done] |]. apply wp_return, HQ'; [done | quiets |]. by intros [? | ?]. }
  unfold goto. destruct es as [| e0 es0].
  { apply wp_seq, Hdo. intros nc s1 I1 Hq1 Hf1. apply wp_return, HQ; [done | done | by left | done |]. intros -> [Ha' | ?]; [| done]. apply Hf1.
    destruct mntok; [left; by destruct amode | right; by apply Hf]. }
  set (es := e0 :: es0) in *. assert (isdot = false) as -> by (destruct isdot; [by specialize (Hdot eq_refl) | done]).
  destruct (good_names es) as [gs x] eqn:Eg. pose proof (fun e => good_names_sub es gs x e Eg) as Hs.
  destruct gs as [| e1 gs]; [eapply keep_error_wp; [exact I | intros s1 I1 Hq1; by apply HR] |]. apply wp_seq, Hdo. intros nc s1 I1 Hq1 Hf1. eapply along_wp; [| | exact I1 | | |].
  - intros Hin. by apply Ha, Hs.
  - intros Hin. by apply Hm, Hs.
  - apply Hf1. destruct mntok; [by left | right; by apply Hf].
  - intros c' e s2 I2 Hq2 He Hf2. apply HQ; [done | quiets | | done | done]. destruct He as [? | He]; [by left | right; by apply Hs].
  - intros e s2 I2 Hq2. apply HR; [done | quiets].
Qed.

(** ** The start *)

(** The element of [#] and the name of a device fits in [up->elem]. *)
Definition sharp_fits (p : list Z) : Prop := p !! 0%nat = Some 35 -> forall e r, sharp 0 p = Some (e, r) -> zlen e < NAMELEN.

Lemma normal_names q : normal q -> names q = [] <-> q = [].
Proof. intros [-> | (e & q' & -> & H1 & H2 & H3)]; [done |]. rewrite names_elem by done. split; [done |]. by intros [-> ->]%app_nil. Qed.

Lemma text_skipslash str : bytes str -> (0 ∉ str) -> exists q, skipslash (str ++ [0]) = Some (q ++ [0]) /\ names q = names str /\ normal q /\ bytes (q ++ [0]) /\ (0 ∉ q).
Proof.
  intros Hb Hz. destruct (skipslash_names [] str Hz) as (l & q & -> & E & En & Hn). exists q. split_and!; try done.
  - apply Forall_app in Hb as [_ Hb]. apply Forall_app. split; [done |]. by repeat constructor.
  - intros Hin. apply Hz, elem_of_app. by right.
Qed.

(** Where the name [str] starts: at the root, at a device, at [dot]. *)
Definition start_of (s : state) (str : list Z) (k : option (Z * Z * Z)) (es : list (list Z)) (mntok isdot : bool) : Prop :=
  match str with
  | [] => False
  | b :: _ =>
      if b =? slash then k = key_at (chans s) (p_slash (pgrp s)) /\ es = names str /\ mntok = true /\ isdot = false
      else if b =? 35 then mntok = false /\ isdot = false
      else k = key_at (chans s) (p_dot (pgrp s)) /\ es = names str /\ mntok = true /\ isdot = bool_decide (es = [])
  end.

Lemma clone_start_wp t c0 E s Q R : Inv E s -> (t, c0) ∈ holders s -> t <> Any ->
  (forall nc s', Inv ((Own, nc) :: E) s' -> quiet E s s' -> key_at (chans s') nc = key_at (chans s) c0 -> Q nc s') ->
  (forall e s', Inv E s' -> quiet E s s' -> Unclonable e -> R e s') -> wp st (cclone c0) s Q R.
Proof.
  intros I Hin Ht HQ HR. eapply (cclone_wp _ t); [exact I | by apply held_shr | done | |].
  - intros ch nc ch' s1 Ec I1 Hq1 E1 X1 X2 X3 _ _ _. apply HQ; [done | done |]. unfold key_at. rewrite Ec, E1. cbn. unfold key. congruence.
  - intros ch e s1 _ He I1 Hq1. apply HR; [done | done | by eexists _, _].
Qed.

Lemma namec_start_wp p str E s Q R : text p str -> str <> [] -> sharp_fits p -> Inv E s ->
  (forall c q mntok isdot s', Inv ((Own, c) :: E) s' -> quiet E s s' -> bytes (q ++ [0]) -> (0 ∉ q) -> normal q -> (forall x, x ∈ names q -> x ∈ names str) ->
    start_of s str (key_at (chans s') c) (names q) mntok isdot -> (mntok = false -> fine st s' c) -> Q (c, q ++ [0], mntok, isdot) s') ->
  (forall e s', Inv E s' -> quiet E s s' -> (str !! 0%nat <> Some 35 -> Faulty e) -> R e s') -> wp st (namec_start p) s Q R.
Proof.
  intros (-> & Hb & Hz) Hne Hs I HQ HR. unfold namec_start. destruct str as [| b str]; [done |]. cbn [app].
  apply wp_seq, (wp_need _ _ b); [done |]. destruct (Z.eqb_spec b slash) as [-> | Hbs]; [| destruct (Z.eqb_spec b 35) as [-> | Hb35]].
  - apply wp_seq, wp_gets, wp_seq. eapply (clone_start_wp Shr); [exact I | eapply (pg_holder s (pgrp s)); by left | done | |].
    + intros c s1 I1 Hq1 Ek. destruct (text_skipslash (slash :: str) Hb Hz) as (q & Eq & En & Hn & Hbq & Hzq).
      apply wp_seq. eapply wp_need; [exact Eq |]. apply wp_return, HQ; try done. by rewrite En.
    + intros e s1 I1 Hq1 He. apply HR; [done | done | by left].
  - apply wp_seq, wp_gets. destruct (nodevs (pgrp s)); [apply wp_raise, HR; [done | quiets | done] |].
    destruct (sharp_split (35 :: str) 0 Hz) as (e & r & Es & Ee & Hr). apply wp_seq. eapply wp_need; [exact Es |].
    pose proof (Hs eq_refl _ _ Es) as Hfit. cbn beta iota. destruct (Z.leb_spec NAMELEN (zlen e)); [lia |].
    assert (exists x n, chartorune (drop 1 e ++ [0]) = Some (x, n)) as (x & n & Ex).
    { destruct (drop 1 e) as [| b1 e1] eqn:Ed; [by eexists _, _ |].
      assert (forall y, y ∈ b1 :: e1 -> y ∈ 35 :: str) as Hsub.
      { intros y Hy. rewrite Ee. apply elem_of_app. left. rewrite <- (take_drop 1 e), Ed. apply elem_of_app. by right. }
      destruct (chartorune_terminated b1 (e1 ++ [0])) as (x & n & Ex & _); [| | apply elem_of_app; right; by left | by exists x, n].
      - apply (Forall_app _ (b1 :: e1) [0]). split; [| by repeat constructor]. apply Forall_forall. intros y Hy. rewrite Forall_forall in Hb. by apply Hb, Hsub.
      - intros ->. apply Hz, Hsub. by left. }
    apply wp_seq. eapply wp_need; [exact Ex |]. cbn beta iota. destruct (x =? 77); [apply wp_raise, HR; [done | quiets | done] |].
    destruct (devno x) as [t |]; [| apply wp_raise, HR; [done | quiets | done]].
    assert (bytes r /\ (0 ∉ r)) as [Hbr Hzr].
    { rewrite Ee in Hb, Hz. apply Forall_app in Hb as [_ ?]. split; [done |]. intros Hin. apply Hz, elem_of_app. by right. }
    apply wp_seq. eapply dev_attach_wp; [exact I | |].
    + intros c ch s1 I1 Hq1 Ec Hmn _. destruct (text_skipslash r Hbr Hzr) as (q & Eq & En & Hn & Hbq & Hzq). apply wp_seq. eapply wp_need; [exact Eq |].
      apply wp_return, HQ; try done. 2: { intros _ ch' Ec' Hno. assert (ch' = ch) as -> by congruence. unfold members in Hno. by rewrite Hmn in Hno. }
      rewrite En, Ee. intros y Hy. destruct r as [| b2 r]; [by apply not_elem_of_nil in Hy |].
      simpl in Hr. subst b2. rewrite names_slash in Hy. by apply names_behind.
    + intros x1 s1 I1 Hq1. by apply HR.
  - apply wp_seq, wp_gets, wp_seq. eapply (clone_start_wp Shr); [exact I | eapply (pg_holder s (pgrp s)); [by left | right; by left] | done | |].
    + intros c s1 I1 Hq1 Ek. destruct (text_skipslash (b :: str) Hb Hz) as (q & Eq & En & Hn & Hbq & Hzq).
      apply wp_seq. eapply wp_need; [exact Eq |].
      apply wp_seq. eapply (wp_need _ _ (default 0 (q !! 0%nat))); [by destruct q |]. apply wp_return, HQ; try done; [by rewrite En |].
      unfold start_of. destruct (Z.eqb_spec b slash); [done |]. destruct (Z.eqb_spec b 35); [done |]. split_and!; try done.
      rewrite En. apply (f_equal (fun l : list (list Z) => l = [])) in En. case_bool_decide as Hd.
      * rewrite <- En, normal_names in Hd by done. by subst q.
      * rewrite <- En, normal_names in Hd by done. destruct q as [| b1 q]; [done |]. cbn. apply Z.eqb_neq. intros ->. apply Hzq. by left.
    + intros e s1 I1 Hq1 He. apply HR; [done | done | by left].
Qed.

(** ** The end *)

Lemma isdir_wp t c E s Q R : Inv E s -> (t, c) ∈ holders s ++ E -> (forall ch, chans s !! c = Some ch -> is_set (path (qid ch)) CHDIR = true -> Q tt s) ->
  (forall ch, chans s !! c = Some ch -> is_set (path (qid ch)) CHDIR = false -> R Enotdir s) -> wp st (isdir c) s Q R.
Proof.
  intros I Hin HQ HR. destruct (inv_get _ _ t c I Hin) as (ch & Ec & _). apply wp_seq, (wp_chan _ _ ch); [done |].
  destruct (is_set _ _) eqn:Ed; [by eapply HQ | by eapply HR].
Qed.

Lemma members_later E s ch ch' ms i f : Inv E s -> members s ch = Some ms -> ms !! i = Some f -> mnt ch' = Some (addr f) -> members s ch' <> None.
Proof.
  intros I Hm Hi Ep. unfold members in Hm. destruct (mnt ch) as [p |]; [| by injection Hm as <-].
  destruct (members_head _ _ _ Hm) as (h & pre & f0 & t0 & Hh & Em & _ & _). apply list_elem_of_split_length in Hi as (l1 & l2 & -> & _).
  rewrite (members_at E s ch' h (pre ++ l1) f l2); try done. by rewrite <- app_assoc.
Qed.

Lemma createdir_wp c E s Q R : Inv ((Own, c) :: E) s -> fine st s c ->
  (forall nc s', Inv ((Own, nc) :: E) s' -> quiet E s s' -> fine st s' nc -> Q nc s') -> (forall e s', Inv ((Own, c) :: E) s' -> quiet E s s' -> R e s') ->
  wp st (createdir c) s Q R.
Proof.
  intros I Hf HQ HR. destruct (inv_get _ _ Own c I ltac:(held)) as (ch & Ec & _). apply wp_seq, (wp_chan _ _ ch); [done |].
  apply wp_seq. assert (forall Q' : list Mount -> state -> Prop, (forall ms, members s ch = Some ms -> Q' ms s) ->
    wp st (match mnt ch with Some p => mounts_at p | None => mret [] end) s Q' R) as Hms.
  { intros Q' HQ'. destruct (mnt ch) as [p |] eqn:Ep.
    - eapply (mounts_at_wp st p s ch); [done | done | by apply Hf].
    - apply wp_return, HQ'. unfold members. by rewrite Ep. }
  apply Hms. intros ms Em. clear Hms. pose proof (members_holders _ _ _ Em) as Hm. apply wp_seq, wp_gets.
  pose proof (position_spec (fun f => match chans s !! to f with Some ct => is_set (flag ct) CCREATE | None => false end) ms) as Hp.
  destruct (position _ ms) as [i |]; [| apply wp_raise, HR; [done | quiets]].
  destruct Hp as (f & Hi & _). apply wp_seq, (wp_need _ _ f); [done |].
  apply wp_seq. eapply (cclone_wp _ Shr); [exact I | apply held_shr, Hm; by eapply list_elem_of_lookup_2 | done | |].
  - intros ct nc ch1 s1 _ I1 Hq1 E1 _ _ _ _ _ _. apply wp_seq. eapply own_upd_wp; [exact I1 | done |]. intros ch2 s2 E2 I2 Hq2 E2'.
    apply wp_seq. eapply (cclose_wp _ Own c); [reorder I2 |]. intros s3 I3 Hq3. apply wp_return, HQ; [done | quiets |].
    destruct (q_frame _ _ _ Hq3 Own nc _ ltac:(held) E2') as (ch3 & E3 & _ & Ee). rewrite (Ee eq_refl) in E3.
    assert (quiet E s s3) as Hq by quiets. intros ch4 E4 Hno. assert (ch4 = set_mnt (Some (addr f)) ch2) as -> by congruence. rewrite (members_quiet _ _ _ _ Hq) in Hno.
    by destruct (members_later _ s ch (set_mnt (Some (addr f)) ch2) ms i f I Em Hi eq_refl).
  - intros ct e s1 _ _ I1 Hq1. apply HR; [done | quiets].
Qed.

Lemma lor_flags f v m : Z.land v m = 0 -> is_set (Z.lor f v) m = is_set f m.
Proof. intros H. unfold is_set. by rewrite Z.land_lor_distr_l, H, Z.lor_0_r. Qed.

Lemma open_flags_wp t c omode E s Q R : Inv ((t, c) :: E) s -> (forall t', (t', c) ∉ holders s ++ E) ->
  (forall s', Inv ((t, c) :: E) s' -> quiet E s s' -> Q tt s') -> wp st (open_flags c omode) s Q R.
Proof.
  intros I Hal HQ.
  assert (forall (b : bool) v s1 (Q' : unit -> state -> Prop), Z.land v CFREE = 0 -> Z.land v COPEN = 0 -> Inv ((t, c) :: E) s1 -> (forall t', (t', c) ∉ holders s1 ++ E) ->
    (forall s', Inv ((t, c) :: E) s' -> quiet E s1 s' -> Q' tt s') ->
    wp st (if b then upd c (fun ch => set_flag (Z.lor (flag ch) v) ch) else mret tt) s1 Q' R) as Hset.
  { intros b v s1 Q' Hv1 Hv2 I1 Hal1 HQ'. destruct b; [| apply wp_return, HQ'; [done | quiets]].
    eapply alone_upd_wp; [exact I1 | done | | intros _ s2 _ I2 Hq2 _; by apply HQ']. intros ch. split; [done |]. cbn. by rewrite !lor_flags. }
  apply wp_seq, Hset; try done. intros s1 I1 Hq1. apply Hset; try done; [by rewrite (quiet_holders _ _ _ Hq1) |].
  intros s2 I2 Hq2. apply HQ; [done | quiets].
Qed.

Lemma namec_open_wp c omode E s Q R : Inv ((Own, c) :: E) s ->
  (forall s', Inv ((Any, c) :: E) s' -> quiet E s s' -> Q c s') -> (forall e s', Inv E s' -> quiet E s s' -> R e s') -> wp st (namec_open c omode) s Q R.
Proof.
  intros I HQ HR. apply wp_seq, (keep_wp _ Own _ E). eapply dev_open_wp; [exact I | |].
  - intros s1 I1 Hq1 Hal. apply wp_seq. eapply open_flags_wp; [exact I1 | done |]. intros s2 I2 Hq2. apply wp_return, HQ; [done | quiets].
  - intros e s1 I1 Hq1. split; [done |]. intros s2 I2 Hq2. apply HR; [done | quiets].
Qed.

Lemma nameok_text p str : text p str -> exists r, nameok p = Some r.
Proof.
  intros (-> & _ & _). unfold nameok. generalize (Z.to_nat NAMELEN) as n. induction str as [| b str IH]; intros n; cbn [app nameok_loop]; [eauto |].
  destruct (b =? 0); [eauto |]. destruct (isfrog b); [eauto |]. destruct n as [| [| n]]; [eauto | eauto |]. apply IH.
Qed.

Lemma checked_wp {A} (r : option (err + A)) s (Q : A -> state -> Prop) (R : err -> state -> Prop) : r <> None -> (forall a, Q a s) -> (forall e, R e s) -> wp st (checked r) s Q R.
Proof. intros Hr HQ HR. destruct r as [[e | a] |]; [apply HR | apply HQ | done]. Qed.

Lemma namec_create_wp c elem (isdot : bool) omode perm E s Q R : Inv ((Own, c) :: E) s -> (isdot = false -> fine st s c) -> (elem = dotdot -> firm) ->
  (forall c' s', Inv ((Any, c') :: E) s' -> quiet E s s' -> Q c' s') -> (forall e s', Inv E s' -> quiet E s s' -> R e s') ->
  nameok (elem ++ [0]) <> None -> wp st (namec_create c elem isdot omode perm) s Q R.
Proof.
  intros I Hfine Hd HQ HR Hok. unfold namec_create. destruct isdot; [by eapply keep_error_wp; [exact I | intros s1; apply HR] |]. specialize (Hfine eq_refl).
  apply wp_seq, (keep_wp _ Own _ E). apply checked_wp; [done | intros _ | intros e; split; [done | intros s2 I2 Hq2; by apply HR]].
  apply wp_seq, (keep_wp _ Own _ E). eapply walk_wp; [exact I | done | done | | intros e s1 I1 Hq1; split; [done | intros s2 I2 Hq2; apply HR; [done | quiets]]].
  intros [c1 |] s1 I1 Hq1 Hf1 He1.
  - eapply namec_open_wp; [exact I1 | |]; [intros s2 I2 Hq2; apply HQ; [done | quiets] | intros e s2 I2 Hq2; apply HR; [done | quiets]].
  - destruct (inv_get _ _ Own c I1 ltac:(held)) as (ch & Ec & _). apply wp_seq, (wp_chan _ _ ch); [done |]. apply wp_seq.
    assert (fine st s1 c) as Hfc by (apply Hf1; [intros ->; by destruct (He1 eq_refl) | by right]).
    assert (forall Q' : Z -> state -> Prop, (forall nc s', Inv ((Own, nc) :: E) s' -> quiet E s1 s' -> fine st s' nc -> Q' nc s') ->
      wp st (match mnt ch with Some _ => if is_set (flag ch) CCREATE then mret c else keep c (createdir c) | None => mret c end) s1 Q' R) as Hdir.
    { intros Q' HQ'. destruct (mnt ch); [| apply wp_return, HQ'; [done | quiets | done]]. destruct (is_set _ _); [apply wp_return, HQ'; [done | quiets | done] |].
      apply (keep_wp _ Own _ E). eapply createdir_wp; [exact I1 | done | done |]. intros e s2 I2 Hq2. split; [done |]. intros s3 I3 Hq3. apply HR; [done | quiets]. }
    apply Hdir. clear Hdir. intros nc s2 I2 Hq2 Hf2. apply wp_catch, wp_seq. eapply dev_create_wp; [exact I2 | |].
    + intros s3 I3 Hq3 Hal. apply wp_seq. eapply open_flags_wp; [exact I3 | done |]. intros s4 I4 Hq4. apply wp_return, HQ; [done | quiets].
    + intros createerr s3 I3 Hq3. apply wp_seq, (keep_wp _ Own _ E), wp_seq.
      eapply walk_wp; [exact I3 | intros _; exact (fine_quiet st _ _ _ _ I2 Hq3 Hf2) | done | |].
      * intros [c4 |] s4 I4 Hq4 _ _; [| apply wp_raise; split; [done | intros s5 I5 Hq5; apply HR; [done | quiets]]]. apply wp_return.
        eapply namec_open_wp; [exact I4 | |]; [intros s5 I5 Hq5; apply HQ; [done | quiets] | intros e s5 I5 Hq5; apply HR; [done | quiets]].
      * intros e s4 I4 Hq4. split; [done |]. intros s5 I5 Hq5. apply HR; [done | quiets].
Qed.

Definition tag_of (amode : access) : tag := match amode with Aopen | Acreate => Any | _ => Own end.

Lemma namec_end_wp amode omode perm c elem (mntok isdot : bool) E s Q R : Inv ((Own, c) :: E) s -> (elem = dotdot -> firm) -> (elem = dotdot -> mntok = true) ->
  nameok (elem ++ [0]) <> None -> (isdot = true -> elem = []) -> (isdot = false -> amode <> Amount \/ elem <> [] -> fine st s c) ->
  (forall c' s', Inv ((tag_of amode, c') :: E) s' -> quiet E s s' -> (amode = Aaccess -> fine st s' c') -> Q c' s') -> (forall e s', Inv E s' -> quiet E s s' -> R e s') ->
  wp st (namec_end amode omode perm c elem mntok isdot) s Q R.
Proof.
  intros I Hd Hm Hok Hdot Hf HQ HR.
  assert (elem <> [] -> fine st s c) as Hfe by (intros Hne; apply Hf; [destruct isdot; [by specialize (Hdot eq_refl) | done] | by right]).
  assert (amode <> Amount -> forall Q' : Z -> state -> Prop, (forall nc s', Inv ((Own, nc) :: E) s' -> quiet E s s' -> fine st s' nc -> Q' nc s') ->
    wp st (if isdot then keep c (domount c) else walk_to c elem mntok) s Q' R) as Hlast.
  { intros Ham Q' HQ'. destruct isdot; [by apply (keep_domount_wp c E) |]. apply (walk_to_wp c elem mntok E); try done.
    intros nc s1 I1 Hq1 Hf1. apply HQ'; [done | done |]. apply Hf1; [apply Hf; [done | by left] |]. destruct (decide (elem = dotdot)) as [-> |]; [right; by apply Hm | by left]. }
  destruct amode; cbn [namec_end tag_of] in *.
  - apply Hlast; [done |]. intros nc s1 I1 Hq1 Hf1. by apply HQ.
  - apply wp_seq. apply (walk_to_wp c elem false E); try done. intros nc s1 I1 Hq1 _. apply wp_seq, (keep_wp _ Own _ E).
    eapply (isdir_wp Own); [exact I1 | held | intros _ _ _; apply wp_return, HQ; [done | quiets | done] |].
    intros _ _ _. split; [done |]. intros s2 I2 Hq2. apply HR; [done | quiets].
  - apply wp_seq, Hlast; [done |]. intros nc s1 I1 Hq1 _. eapply namec_open_wp; [exact I1 | |].
    + intros s2 I2 Hq2. apply HQ; [done | quiets | done].
    + intros e s2 I2 Hq2. apply HR; [done | quiets].
  - apply (walk_to_wp c elem false E); try done. intros nc s1 I1 Hq1 _. by apply HQ.
  - apply (namec_create_wp c elem isdot omode perm E); try done; [intros Hi; apply Hf; [done | by left] |]. intros c' s' I' Hq'. by apply HQ.
Qed.

(** ** [namec] *)

Lemma names_bytes str : bytes str -> (0 ∉ str) -> forall e, e ∈ names str -> bytes e /\ (0 ∉ e).
Proof.
  intros Hb Hz e He. unfold names in He.
  assert (forall y, y ∈ (let '(a, b) := split str in a :: b) -> bytes y /\ (0 ∉ y)) as H.
  { clear e He. induction str as [| c str IH]; cbn [split].
    - intros y [-> | ?%not_elem_of_nil]%elem_of_cons; [split; [constructor | apply not_elem_of_nil] | done].
    - apply Forall_cons in Hb as [Hc Hb]. apply not_elem_of_cons in Hz as [Hc0 Hz]. specialize (IH Hb Hz). destruct (split str) as [a b].
      assert (bytes a /\ (0 ∉ a)) as [Ha Ha0] by (apply IH; by left). destruct (c =? slash); intros y Hy.
      + apply elem_of_cons in Hy as [-> | Hy]; [split; [constructor | apply not_elem_of_nil] |]. by apply IH.
      + apply elem_of_cons in Hy as [-> | Hy]; [split; [by constructor | by apply not_elem_of_cons] |]. apply IH. by right. }
  destruct (split str) as [a b]. apply H. by apply list_elem_of_filter in He as [_ He].
Qed.

Lemma utfrune_text p str : text p str -> exists o, utfrune p 92 = Some o.
Proof.
  intros (-> & _ & _). change (utfrune (str ++ [0]) 92) with (strchr_loop (str ++ [0]) 92 0). generalize 0%nat as i.
  induction str as [| b str IH]; intros i; cbn [app strchr_loop]; [eauto |]. destruct (b =? 92); [eauto |]. destruct (b =? 0); [eauto | apply IH].
Qed.

(** A path that is a string, of which the name of a device fits in a buffer; the
    parent is asked for where it can be had, and not behind a device. *)
Definition good_path (p : list Z) : Prop := exists str, text p str /\ sharp_fits p /\ allowed (names str) /\ (dotdot ∈ names str -> str !! 0%nat <> Some 35).

Lemma namec_wp p amode omode perm E s Q R : good_path p -> Inv E s ->
  (forall c s', Inv ((tag_of amode, c) :: E) s' -> quiet E s s' -> (amode = Aaccess -> fine st s' c) -> Q c s') -> (forall e s', Inv E s' -> quiet E s s' -> R e s') ->
  wp st (namec p amode omode perm) s Q R.
Proof.
  intros (str & Ht & Hs & Ha & Hup) I HQ HR. pose proof Ht as (-> & Hb & Hz). unfold namec.
  apply wp_seq, (wp_need _ _ (default 0 (str !! 0%nat))); [by destruct str |].
  destruct (Z.eqb_spec (default 0 (str !! 0%nat)) 0) as [H0 | H0]; [apply wp_raise, HR; [done | quiets] |].
  destruct (utfrune_text _ _ Ht) as [o Eo]. apply wp_seq. eapply wp_need; [exact Eo |]. destruct o; [apply wp_raise, HR; [done | quiets] |].
  apply wp_seq. eapply namec_start_wp; [exact Ht | by destruct str | done | exact I | | intros e s1 I1 Hq1 _; by apply HR].
  intros c q mntok isdot s1 I1 Hq1 Hbq Hzq Hnq Hsub Hstart Hf1. cbn beta iota. apply wp_seq. unfold wp. rewrite elems_goto by done.
  change (wp st (goto amode c (names q) mntok isdot) s1 (fun a s' => wp st (let '(c, elem) := a in namec_end amode omode perm c elem mntok isdot) s' Q R) R).
  assert (allowed (names q)) as Haq by (intros Hin; apply Ha, Hsub, Hin).
  assert ((dotdot ∈ names q -> mntok = true) /\ (isdot = true -> names q = [])) as [Hmq Hdq].
  { unfold start_of in Hstart. destruct str as [| b str']; [done |]. destruct (b =? slash); [by destruct Hstart as (_ & _ & -> & ->) |].
    destruct (Z.eqb_spec b 35) as [-> | _]; [| destruct Hstart as (_ & _ & -> & ->); split; [done | by intros ?%bool_decide_eq_true]].
    destruct Hstart as [-> ->]. split; [| done]. intros Hin%Hsub. by destruct (Hup Hin). }
  eapply goto_wp; [exact Haq | done | done | done | exact I1 | | intros e s2 I2 Hq2; apply HR; [done | quiets]].
  intros c2 e s2 I2 Hq2 He Hdot Hf2. eapply namec_end_wp; [exact I2 | | | | exact Hdot | exact Hf2 | |].
  - intros ->. destruct He as [? | He]; [done | by apply Haq].
  - intros ->. destruct He as [? | He]; [done | by apply Hmq].
  - assert (bytes e /\ (0 ∉ e)) as [Hbe Hze].
    { destruct He as [-> | He]; [split; [constructor | apply not_elem_of_nil] | by apply (names_bytes str), Hsub]. }
    destruct (nameok_text (e ++ [0]) e) as [r Er]; [done | by rewrite Er].
  - intros c3 s3 I3 Hq3 Hf3. apply HQ; [done | quiets | done].
  - intros x s3 I3 Hq3. apply HR; [done | quiets].
Qed.
End Calls.
