(* ===== verification/NsFd.v ===== *)
(** * The name space: file descriptors

    The calls that work on a channel through the table of descriptors. *)

From S2P Require Import Prelude Styx Rune Name Ns NsInv NsOps NsWalk NsNamec.
Import Ns.

#[local] Open Scope Z_scope.

(** ** Tokens of descriptors *)

Definition fd_token (o : option Z) : list token := match o with Some c => [(Any, c)] | None => [] end.

Lemma omap_tokens l : omap (fun c : option Z => (fun c => (Any, c)) <$> c) l = l ≫= fd_token.
Proof. induction l as [| [c |] l IH]; cbn; [done | |]; by rewrite IH. Qed.

Lemma fd_insert l i (o v : option Z) : l !! i = Some o -> (<[i := v]> l ≫= fd_token) ++ fd_token o ≡ₚ (l ≫= fd_token) ++ fd_token v.
Proof.
  revert i. induction l as [| x l IH]; intros [| i] Hi; try done.
  - injection Hi as ->. cbn [insert list_insert mbind list_bind]. solve_Permutation.
  - cbn [insert list_insert mbind list_bind]. rewrite <- !app_assoc. by rewrite IH.
Qed.

Lemma fd_at_some f n c : fd_at f n = Some c <-> 0 <= n /\ fd f !! Z.to_nat n = Some (Some c).
Proof.
  unfold fd_at. destruct (Z.ltb_spec n 0); [split; [done | lia] |]. destruct (fd f !! Z.to_nat n) as [[c' |] |]; split; intros H'; try done; try (destruct H'; congruence).
  split; [done | congruence].
Qed.

Section Fds.
Context {D : Devices} {L : Laws D}.
Context (st : Prop).

Lemma fd_holder s n c : fd_at (fgrp s) n = Some c -> (Any, c) ∈ holders s.
Proof.
  intros [_ Hc]%fd_at_some. unfold holders. rewrite !elem_of_app. right; right; left. unfold fg_tokens. rewrite omap_tokens.
  apply list_elem_of_bind. exists (Some c). split; [by left | by eapply list_elem_of_lookup_2].
Qed.

(** The table of descriptors is another one. *)
Lemma inv_fgrp E E' s f : Inv E s -> Fds f -> (fd f ≫= fd_token) ++ E' ≡ₚ (fd (fgrp s) ≫= fd_token) ++ E -> Inv E' (set_fgrp f s).
Proof.
  intros [G [S1 S2 S3 S4 S5]] Hf Hp. split.
  - eapply good_perm; [| exact G].
    change (holders (set_fgrp f s)) with (pg_tokens (pgrp s) ++ (pgrps s ≫= pg_tokens) ++ fg_tokens f ++ (fgrps s ≫= fg_tokens)). unfold holders.
    rewrite (omap_tokens (fd f) : fg_tokens f = _), (omap_tokens (fd (fgrp s)) : fg_tokens (fgrp s) = _).
    rewrite <- !app_assoc. do 2 apply Permutation_app_head. rewrite (Permutation_app_comm (fgrps s ≫= fg_tokens) E), !app_assoc, <- Hp.
    rewrite <- !app_assoc. apply Permutation_app_head. apply Permutation_app_comm.
  - split; try done. apply Forall_cons in S5 as [_ S5]. by apply Forall_cons.
Qed.

Lemma inv_fds E s : Inv E s -> Fds (fgrp s).
Proof. intros [_ S]. by pose proof (s_fds _ S) as [? _]%Forall_cons. Qed.

(** A descriptor is set to [v]; what it was is left. *)
Lemma inv_set_fd E s i v o m : Inv (fd_token v ++ E) s -> fd (fgrp s) !! i = Some o ->
  Fds (MkFgrp (<[i := v]> (fd (fgrp s))) m) -> Inv (fd_token o ++ E) (set_fgrp (MkFgrp (<[i := v]> (fd (fgrp s))) m) s).
Proof.
  intros I Ho Hf. eapply inv_fgrp; [exact I | done |]. cbn [fd]. by rewrite !app_assoc, (fd_insert _ _ _ _ Ho).
Qed.

Lemma newfd_wp t c E s Q R : Inv ((t, c) :: E) s ->
  (forall i s', Inv E s' -> fd_at (fgrp s) i = None -> (forall j, 0 <= j < i -> fd_at (fgrp s) j <> None) -> 0 <= i < Z.of_nat NFD ->
    s' = set_fgrp (MkFgrp (<[Z.to_nat i := Some c]> (fd (fgrp s))) (Z.max (maxfd (fgrp s)) i)) s -> Q i s') ->
  ((forall j, 0 <= j < Z.of_nat NFD -> fd_at (fgrp s) j <> None) -> R Exhausted s) -> wp st (newfd c) s Q R.
Proof.
  intros I HQ HR. pose proof (inv_fds _ _ I) as [Hl Hm Hu]. apply wp_seq, wp_gets. rewrite take_ge by lia.
  pose proof (position_spec (fun x : option Z => match x with None => true | Some _ => false end) (fd (fgrp s))) as Hp.
  assert (forall j, 0 <= j < Z.of_nat NFD -> exists o, fd (fgrp s) !! Z.to_nat j = Some o) as Hin by (intros j Hj; apply lookup_lt_is_Some; lia).
  destruct (position _ _) as [i |].
  - destruct Hp as (o & Hi & Ho & Hlt). destruct o; [done |]. pose proof (lookup_lt_Some _ _ _ Hi) as Hil. apply wp_seq, wp_put, wp_return.
    apply HQ; [| | | lia | by rewrite Nat2Z.id].
    + eapply (inv_set_fd E s i (Some c) None); [by eapply inv_any | done |].
      split; cbn; [by rewrite length_insert | lia |]. intros j c' [[<- _] | [_ Hj]]%list_lookup_insert_Some; [lia |]. specialize (Hu j c' Hj). lia.
    + unfold fd_at. destruct (Z.ltb_spec (Z.of_nat i) 0); [lia |]. by rewrite Nat2Z.id, Hi.
    + intros j Hj. destruct (Hin j ltac:(lia)) as [[c' |] Ec].
      * assert (fd_at (fgrp s) j = Some c') as -> by (apply fd_at_some; split; [lia | done]). done.
      * specialize (Hlt (Z.to_nat j) None ltac:(lia) Ec). done.
  - apply wp_raise, HR. intros j Hj. destruct (Hin j Hj) as [[c' |] Ec].
    + assert (fd_at (fgrp s) j = Some c') as -> by (apply fd_at_some; split; [lia | done]). done.
    + specialize (Hp None ltac:(by eapply list_elem_of_lookup_2)). done.
Qed.

Lemma fdtochan_wp n md chk (iref : bool) E s (Q : Z -> state -> Prop) (R : err -> state -> Prop) : Inv E s ->
  (forall c s', fd_at (fgrp s) n = Some c -> Inv (if iref then (Any, c) :: E else E) s' -> quiet E s s' -> (iref = false -> s' = s) -> Q c s') ->
  (forall e s', Inv E s' -> quiet E s s' -> e = Ebadfd \/ e = Ebadusefd -> R e s') -> wp st (fdtochan n md chk iref) s Q R.
Proof.
  intros I HQ HR. apply wp_seq, wp_gets. destruct ((n <? 0) || (maxfd (fgrp s) <? n)); [apply wp_raise, HR; [done | quiets | by left] |].
  destruct (fd_at (fgrp s) n) as [c |] eqn:Ec; [| apply wp_raise, HR; [done | quiets | by left]].
  pose proof (fd_holder _ _ _ Ec) as Hh. apply wp_seq.
  assert (forall Q' : unit -> state -> Prop, (forall s', Inv (if iref then (Any, c) :: E else E) s' -> quiet E s s' -> (iref = false -> s' = s) -> Q' tt s') ->
    wp st (if iref then incref c else mret tt) s Q' R) as Hinc.
  { intros Q' HQ'. destruct iref; [| apply wp_return, HQ'; [done | quiets | done]].
    eapply (incref_wp st Any Any); [exact I | by apply held_shr | done | done | done |]. intros s1 I1 Hq1. by apply HQ'. }
  apply Hinc. clear Hinc. intros s1 I1 Hq1 Hs1.
  assert ((Any, c) ∈ holders s1 ++ (if iref then (Any, c) :: E else E)) as Hh1 by (apply held_shr; by rewrite (quiet_holders _ _ _ Hq1)).
  destruct (inv_get _ _ Any c I1 Hh1) as (ch & E1 & _). apply wp_seq, (wp_chan _ _ ch); [done |].
  set (bad := (if iref then cclose c else mret tt);; error Ebadusefd : M Z).
  assert (wp st bad s1 Q R) as Hbad.
  { apply wp_seq. destruct iref; [eapply cclose_wp; [exact I1 |]; intros s2 I2 Hq2 | apply wp_return]; apply wp_raise, HR; try done; try quiets; by right. }
  assert (wp st (mret c) s1 Q R) as Hok by (apply wp_return; by apply HQ).
  cbv zeta. fold bad. destruct (chk && _); [done |]. destruct (_ || _); [done |]. destruct (_ && _); [done |]. destruct (negb _); done.
Qed.

Lemma lower_spec i l m : Z.of_nat i <= m -> (forall j c, l !! j = Some (Some c) -> (j < i)%nat) -> (i <= length l)%nat ->
  0 <= lower i l m <= m /\ forall j c, l !! j = Some (Some c) -> Z.of_nat j <= lower i l m.
Proof.
  revert m. induction i as [| i IH]; intros m Hm Hu Hl; cbn [lower]; [split; [lia | intros j c Hj; specialize (Hu j c Hj); lia] |].
  destruct (lookup_lt_is_Some_2 l i ltac:(lia)) as [[c |] Ei]; rewrite Ei.
  - split; [lia |]. intros j c' Hj. specialize (Hu j c' Hj). lia.
  - destruct (IH (Z.of_nat i) ltac:(lia)) as [H1 H2]; [| lia |].
    + intros j c Hj. specialize (Hu j c Hj). destruct (decide (j = i)) as [-> |]; [congruence | lia].
    + split; [lia | done].
Qed.

(** Only the table of descriptors is another one. *)
Definition same_names (s s' : state) : Prop := exists E0 E, Inv E0 (set_fgrp (fgrp s') s) /\ quiet E (set_fgrp (fgrp s') s) s'.

Lemma set_fgrp_id s : set_fgrp (fgrp s) s = s.
Proof. by destruct s. Qed.
Lemma same_names_quiet E E' s s' : Inv E s -> quiet E' s s' -> same_names s s'.
Proof. intros I Hq. exists E, E'. by rewrite (q_fgrp _ _ _ Hq), set_fgrp_id. Qed.

(** A table without some descriptors. *)
Definition without (f g : Fgrp) (ns : list Z) : Prop := forall j, fd_at g j = (if decide (j ∈ ns) then None else fd_at f j).

Lemma without_closed f n : fd_at f n = None -> without f f [n].
Proof. intros H j. destruct (decide (j ∈ [n])) as [->%list_elem_of_singleton |]; done. Qed.

Lemma fdclose_wp n flg E s Q R : Inv E s ->
  (forall s', Inv E s' -> same_names s s' -> (flg = 0 -> without (fgrp s) (fgrp s') [n]) -> Q tt s') -> wp st (fdclose n flg) s Q R.
Proof.
  intros I HQ. pose proof (inv_fds _ _ I) as [Hl Hm Hu]. apply wp_seq, wp_gets. destruct (fd_at (fgrp s) n) as [c |] eqn:En; [| apply wp_return, HQ; [done | by apply (same_names_quiet E E), quiet_refl | intros _; by apply without_closed]].
  destruct (inv_get _ _ Any c I) as (ch & Ec & _); [by apply held_shr, (fd_holder _ n) |]. apply wp_seq, (wp_chan _ _ ch); [done |].
  destruct (negb (flg =? 0) && _) eqn:Ef; [apply wp_return, HQ; [done | by apply (same_names_quiet E E), quiet_refl | intros ->; done] |].
  pose proof En as [Hn Ei]%fd_at_some. pose proof (lookup_lt_Some _ _ _ Ei) as Hil. pose proof (Hu _ _ Ei) as Hnm. cbv zeta. unfold set_fd. cbn [fd maxfd].
  set (l := <[Z.to_nat n := None]> (fd (fgrp s))).
  assert (exists m, (if n =? maxfd (fgrp s) then MkFgrp l (lower (Z.to_nat n) l (maxfd (fgrp s))) else MkFgrp l (maxfd (fgrp s))) = MkFgrp l m /\ Fds (MkFgrp l m)) as (m & -> & Hf).
  { assert (forall j c', l !! j = Some (Some c') -> j <> Z.to_nat n /\ Z.of_nat j <= maxfd (fgrp s)) as Hlu.
    { intros j c' [(<- & [=] & _) | [Hj Hc]]%list_lookup_insert_Some. split; [congruence | by apply (Hu j c')]. }
    destruct (Z.eqb_spec n (maxfd (fgrp s))) as [Hmx | Hmx]; eexists; (split; [done |]); split; cbn; try (by unfold l; rewrite length_insert); try done.
    - pose proof (lower_spec (Z.to_nat n) l (maxfd (fgrp s)) ltac:(lia)) as H. destruct H as [H1 H2]; [| unfold l; rewrite length_insert; lia | lia].
      intros j c' Hj. destruct (Hlu j c' Hj). lia.
    - apply lower_spec; [lia | | unfold l; rewrite length_insert; lia]. intros j c' Hj. destruct (Hlu j c' Hj). lia.
    - intros j c' Hj. by destruct (Hlu j c' Hj). }
  pose proof (inv_set_fd E s _ None (Some c) m I Ei Hf) as I0. apply wp_seq, wp_put. eapply cclose_wp; [exact I0 |]. intros s1 I1 Hq1.
  apply HQ; [done | eexists _, _; rewrite (q_fgrp _ _ _ Hq1); by split |].
  intros _ j. rewrite (q_fgrp _ _ _ Hq1). cbn. unfold fd_at, l. cbn. destruct (Z.ltb_spec j 0); [by destruct (decide _) |].
  destruct (decide (j ∈ [n])) as [->%list_elem_of_singleton | Hj]; [by rewrite list_lookup_insert_eq by done |].
  rewrite list_elem_of_singleton in Hj. by rewrite list_lookup_insert_ne by lia.
Qed.

(** ** The calls *)

Lemma call_wp m s (Q : Z -> state -> Prop) R : wp st m s Q (fun _ s' => Q (-1) s') -> wp st (call m) s Q R.
Proof. intros H. by apply wp_catch. Qed.

Lemma openmode_wp o s (Q : Z -> state -> Prop) (R : err -> state -> Prop) : (forall m, Q m s) -> R Ebadarg s -> wp st (openmode o) s Q R.
Proof.
  intros HQ HR. unfold openmode. cbv zeta. destruct (_ <=? _); [by apply wp_raise |]. destruct (_ <? _); [by apply wp_raise |].
  destruct (_ =? _); apply wp_return, HQ.
Qed.

(** A descriptor that is only to be closed is refused where there is none. *)
Lemma fdtochan_close n s : Fds (fgrp s) -> (forall c, fd_at (fgrp s) n = Some c -> is_Some (chans s !! c)) ->
  fdtochan n (-1) false false s = match fd_at (fgrp s) n with Some c => Ret c s | None => Raise Ebadfd s end.
Proof.
  intros [_ _ Hu] Hc. unfold fdtochan, gets, chan, mbind, m_bind. destruct (fd_at (fgrp s) n) as [c |] eqn:E.
  - pose proof E as [Hn Hi]%fd_at_some. specialize (Hu _ _ Hi). destruct (Z.ltb_spec n 0), (Z.ltb_spec (maxfd (fgrp s)) n); try lia. cbn.
    destruct (Hc c eq_refl) as [ch ->]. done.
  - by destruct (_ || _).
Qed.

Lemma kclose_wp n E s (Q : Z -> state -> Prop) R : Inv E s ->
  (forall r s', Inv E s' -> same_names s s' -> without (fgrp s) (fgrp s') [n] -> Q r s') -> wp st (kclose n) s Q R.
Proof.
  intros I HQ. apply call_wp, wp_seq. unfold wp. rewrite fdtochan_close.
  - destruct (fd_at (fgrp s) n) as [c |] eqn:En.
    + apply wp_seq. eapply fdclose_wp; [exact I |]. intros s2 I2 Hn Hw. apply wp_return, HQ; auto.
    + apply HQ; [done | by apply (same_names_quiet E E), quiet_refl | by apply without_closed].
  - by eapply inv_fds.
  - intros c Hc%fd_holder. destruct (inv_get _ _ Any c I) as (ch & Ec & _); [by apply held_shr | by rewrite Ec].
Qed.

Lemma keep_newfd_wp t c E s (Q : Z -> state -> Prop) R : Inv ((t, c) :: E) s -> (forall r s', Inv E s' -> Q r s') -> (forall e s', Inv E s' -> R e s') -> wp st (keep c (newfd c)) s Q R.
Proof.
  intros I HQ HR. apply (keep_wp _ t _ E). eapply newfd_wp; [exact I | | intros _; split; [done |]; intros s2 I2 Hq2; by apply HR].
  intros i s1 I1 _ _ _ _. by apply HQ.
Qed.

Lemma kopen_wp p md E s (Q : Z -> state -> Prop) R : good_path p -> Inv E s ->
  (forall r s', Inv E s' -> Q r s') -> wp st (kopen p md) s Q R.
Proof.
  intros Hp I HQ. apply call_wp, wp_seq, openmode_wp; [intros _ | by apply HQ]. apply wp_seq.
  eapply (namec_wp st p _ _ _ E); try done. 2: { intros e s1 I1 _. by apply HQ. }
  intros c s1 I1 _ _. eapply keep_newfd_wp; [exact I1 | done |]. intros e s2 I2. by apply HQ.
Qed.

Lemma kcreate_wp p md perm E s (Q : Z -> state -> Prop) R : good_path p -> Inv E s ->
  (forall r s', Inv E s' -> Q r s') -> wp st (kcreate p md perm) s Q R.
Proof.
  intros Hp I HQ. apply call_wp, wp_seq, openmode_wp; [intros _ | by apply HQ]. apply wp_seq.
  eapply (namec_wp st p _ _ _ E); try done. 2: { intros e s1 I1 _. by apply HQ. }
  intros c s1 I1 _ _. eapply keep_newfd_wp; [exact I1 | done |]. intros e s2 I2. by apply HQ.
Qed.

Lemma cclose_opt_wp o E s Q R : Inv (fd_token o ++ E) s -> (forall s', Inv E s' -> quiet E s s' -> Q tt s') -> wp st (cclose_opt o) s Q R.
Proof. intros I HQ. destruct o as [c |]; [by apply (cclose_wp st Any c E) | apply wp_return, HQ; [done | quiets]]. Qed.

Lemma kdup_wp old new E s (Q : Z -> state -> Prop) R : Inv E s -> (forall r s', Inv E s' -> Q r s') -> wp st (kdup old new) s Q R.
Proof.
  intros I HQ. apply call_wp, wp_seq. eapply fdtochan_wp; [exact I | | intros e s1 I1 _ _; by apply HQ].
  intros c s1 Ec I1 Hq1 _. destruct (negb (new =? -1)); [| eapply keep_newfd_wp; [exact I1 | done | intros e s2 I2; by apply HQ]].
  destruct (Z.ltb_spec new 0); cbn [orb]; [| destruct (Z.leb_spec (Z.of_nat NFD) new)];
    try (apply wp_seq; eapply cclose_wp; [exact I1 |]; intros s2 I2 _; by apply wp_raise, HQ).
  apply wp_seq, wp_gets, wp_seq, wp_put. pose proof (inv_fds _ _ I1) as [Hl Hm Hu].
  assert (fd (fgrp s1) !! Z.to_nat new = Some (fd_at (fgrp s1) new)) as Ho.
  { unfold fd_at. destruct (Z.ltb_spec new 0); [lia |]. destruct (lookup_lt_is_Some_2 (fd (fgrp s1)) (Z.to_nat new) ltac:(lia)) as [o Eo]. rewrite Eo. by destruct o. }
  apply wp_seq. eapply cclose_opt_wp.
  - eapply (inv_set_fd E s1 _ (Some c)); [exact I1 | exact Ho |]. split; cbn; [by rewrite length_insert | lia |].
    intros j c' [[<- _] | [_ Hj]]%list_lookup_insert_Some; [lia |]. specialize (Hu j c' Hj). lia.
  - intros s2 I2 _. by apply wp_return, HQ.
Qed.

(** A channel is used and closed. *)
Lemma keep_use_wp {A} c E s (m : M A) (Q : A -> state -> Prop) R : Inv ((Any, c) :: E) s ->
  (forall Q' : A -> state -> Prop, (forall a s', Inv ((Any, c) :: E) s' -> Q' a s') -> wp st m s Q' (fun e s' => Inv ((Any, c) :: E) s')) ->
  (forall a s', Inv ((Any, c) :: E) s' -> Q a s') -> (forall e s', Inv E s' -> R e s') -> wp st (keep c m) s Q R.
Proof.
  intros I Hm HQ HR. apply (keep_wp _ Any _ E). eapply wp_conseq; [by apply (Hm Q) | done |]. intros e s1 I1. split; [done |]. intros s2 I2 _. by apply HR.
Qed.

(** The offset of a channel that may be shared. *)
Lemma any_upd_wp c f E s Q R : Inv ((Any, c) :: E) s -> (forall ch, ref (f ch) = ref ch /\ core (f ch) = core ch) ->
  (forall ch s', chans s !! c = Some ch -> Inv ((Any, c) :: E) s' -> quiet ((Any, c) :: E) s s' -> chans s' !! c = Some (f ch) -> Q tt s') -> wp st (upd c f) s Q R.
Proof.
  intros I Hf HQ. destruct (inv_get _ _ Any c I ltac:(held)) as (ch & Ec & _). destruct (Hf ch) as [H1 H2]. apply wp_seq, (wp_chan _ _ ch); [done |].
  eapply any_put_wp; [exact I | done | exact Ec | done | done |]. intros s1 I1 Hq1 E1. by eapply HQ.
Qed.

Lemma read_loop_wp fuel c n got E s (Q : list Z * bool -> state -> Prop) R : Inv ((Any, c) :: E) s -> (forall r s', Inv ((Any, c) :: E) s' -> quiet ((Any, c) :: E) s s' -> Q r s') ->
  wp st (read_loop fuel c n got) s Q R.
Proof.
  revert got s. induction fuel as [| fuel IH]; intros got s I HQ; cbn [read_loop]; [apply wp_return, HQ; [done | quiets] |].
  destruct (_ <=? _); [apply wp_return, HQ; [done | quiets] |].
  destruct (inv_get _ _ Any c I ltac:(held)) as (ch & Ec & _). apply wp_seq, (wp_chan _ _ ch); [done |].
  apply wp_seq, wp_catch, wp_seq. eapply dev_read_wp; [exact I | done | | intros e s1 I1 Hq1; apply wp_return, wp_return, HQ; [done | quiets]].
  intros bs s1 I1 Hq1 _. apply wp_return. destruct bs as [| b bs]; [apply wp_return, HQ; [done | quiets] |].
  apply wp_seq. eapply any_upd_wp; [exact I1 | done |]. intros _ s2 _ I2 Hq2 _. apply IH; [done |]. intros r s3 I3 Hq3. apply HQ; [done | quiets].
Qed.

(** The mount that a channel points to has the number that it remembers. *)
Definition current (s : state) (ch : Chan) : Prop := forall f ms, members s ch = Some (f :: ms) -> mountid ch = m_id f.

(** There is fuel for the members that are left.  A read that gets less than it
    asks for has come to the end of the union. *)
Lemma unionread_wp (Hst : st) fuel c n got E s (Q : list Z -> state -> Prop) R ch : Inv ((Any, c) :: E) s -> chans s !! c = Some ch -> mnt ch <> None ->
  (forall ms, members s ch = Some ms -> (length ms <= fuel)%nat) -> (0 < fuel)%nat ->
  (forall r s', Inv ((Any, c) :: E) s' -> quiet E s s' ->
    (current s ch -> zlen r < n -> exists ch', chans s' !! c = Some ch' /\ mnt ch' = None) -> Q r s') -> (forall e s', Inv ((Any, c) :: E) s' -> R e s') -> wp st (unionread_loop fuel c n got) s Q R.
Proof.
  revert got s ch. induction fuel as [| fuel IH]; intros got s ch I Ec Hp Hf Hf0 HQ HR; [lia |]. cbn [unionread_loop].
  apply wp_seq, (wp_chan _ _ ch); [done |]. destruct (mnt ch) as [p |] eqn:Ep; [| done]. apply wp_seq, (wp_need _ _ p); [done |].
  apply wp_seq. eapply (mounts_at_wp st p s ch); [done | | auto]. intros ms Hms. pose proof (Hf ms Hms) as Hlen.
  pose proof (members_holders _ _ _ Hms) as Hto.
  destruct ms as [| f t]. { exfalso. unfold members in Hms. rewrite Ep in Hms. by destruct (members_head _ _ _ Hms) as (? & ? & ? & ? & _ & _ & ? & _). }
  apply wp_seq, (wp_need _ _ f); [done |]. apply wp_seq.
  eapply (cclone_wp _ Shr); [exact I | apply held_shr, Hto; by left | done | | intros ct e s1 _ _ I1 _; by apply HR].
  intros ct nc ch1 s1 _ I1 Hq1 E1 _ _ _ _ _ _. destruct (Z.eqb_spec (mountid ch) (m_id f)) as [Hid | Hid]; cbn [negb].
  2: { apply wp_seq. eapply cclose_wp; [exact I1 |]. intros s2 I2 Hq2. apply wp_return, HQ; [done | quiets |]. intros Hcur. by destruct (Hid (Hcur _ _ Hms)). }
  apply wp_seq.
  assert (forall s', quiet ((Any, c) :: E) s s' -> (exists t, Inv ((t, nc) :: (Any, c) :: E) s') -> forall r : list Z * bool,
    wp st (cclose nc;; if negb r.2 && (n <=? zlen r.1) then mret r.1 else match t with
      | [] => upd c (set_mnt None);; mret r.1
      | f0 :: _ => upd c (set_mnt (Some (addr f0)));; upd c (set_mountid (m_id f0));; upd c (set_offset 0);; unionread_loop fuel c n r.1 end) s' Q R) as Hrest.
  { intros s2 Hq2 [tg I2] r. apply wp_seq. eapply cclose_wp; [exact I2 |]. intros s3 I3 Hq3. destruct (negb r.2 && (n <=? zlen r.1)) eqn:Efull.
    { apply andb_true_iff in Efull as [_ Hfull%Z.leb_le]. apply wp_return, HQ; [done | quiets | lia]. }
    destruct t as [| f2 t]; apply wp_seq; (eapply any_upd_wp; [exact I3 | done |]); intros ch3 s4 _ I4 Hq4 E4; [apply wp_return, HQ; [done | quiets | by eexists] |].
    apply wp_seq. eapply any_upd_wp; [exact I4 | done |]. intros ch4 s5 E4' I5 Hq5 E5. apply wp_seq.
    eapply any_upd_wp; [exact I5 | done |]. intros ch5 s6 E5' I6 Hq6 E6. rewrite E4 in E4'. injection E4' as <-. rewrite E5 in E5'. injection E5' as <-.
    assert (quiet E s s6) as Hq by quiets.
    assert (members s6 (set_offset 0 (set_mountid (m_id f2) (set_mnt (Some (addr f2)) ch3))) = Some (f2 :: t)) as Hnext.
    { rewrite (members_quiet _ _ _ _ Hq). by eapply members_next. }
    eapply IH; [exact I6 | exact E6 | done | | simpl in Hlen; lia | | done].
    - intros ms' Hms'. rewrite Hnext in Hms'. injection Hms' as <-. simpl in Hlen |- *. lia.
    - intros r' s7 I7 Hq7 Hend. apply HQ; [done | quiets |]. intros _. apply Hend. intros f' ms'. rewrite Hnext. by intros [= <- <-]. }
  apply wp_catch, wp_seq. eapply dev_open_wp; [exact I1 | |].
  - intros s2 I2 Hq2 _. apply wp_return. apply wp_seq, wp_seq.
    eapply any_upd_wp; [exact I2 | done |]. intros _ s3 _ I3 Hq3 _. apply wp_seq. eapply read_loop_wp; [exact I3 |]. intros r s4 I4 Hq4.
    apply wp_seq. destruct r.2.
    + apply wp_return, wp_return, Hrest; [quiets | eauto].
    + destruct (inv_get _ _ Any nc I4 ltac:(held)) as (nch & E4 & _). apply wp_seq, (wp_chan _ _ nch); [done |].
      eapply any_upd_wp; [apply (inv_permute ((Any, nc) :: (Any, c) :: E) _ s4 (perm_swap _ _ _)), I4 | done |]. intros _ s5 _ I5 Hq5 _.
      apply wp_return, Hrest; [quiets | exists Any; eapply inv_permute; [apply perm_swap | exact I5]].
  - intros e s2 I2 Hq2. apply wp_return. apply wp_seq, wp_return, Hrest; [quiets | eauto].
Qed.

(** [m] uses the channel of a descriptor. *)
Lemma with_fd_wp {A B} n md chk (m : Z -> M A) (k : Z -> A -> M B) E s (Q : B -> state -> Prop) (R : err -> state -> Prop) : Inv E s ->
  (forall c s1 (Q' : A -> state -> Prop), Inv ((Any, c) :: E) s1 -> (forall a s', Inv ((Any, c) :: E) s' -> Q' a s') ->
    wp st (m c) s1 Q' (fun _ s' => Inv ((Any, c) :: E) s')) ->
  (forall c a s1, Inv ((Any, c) :: E) s1 -> wp st (k c a) s1 Q R) -> (forall e s', Inv E s' -> R e s') ->
  wp st (c ← fdtochan n md chk true; r ← keep c (m c); k c r) s Q R.
Proof.
  intros I Hm Hk HR. apply wp_seq. eapply fdtochan_wp; [exact I | | intros e s1 I1 _ _; by apply HR].
  intros c s1 _ I1 _ _. apply wp_seq. eapply keep_use_wp; [exact I1 | intros Q' HQ'; by apply Hm | | done]. intros a s2 I2. by apply Hk.
Qed.

Lemma kread_wp (Hst : st) n count E s (Q : Z * list Z -> state -> Prop) R : Inv E s -> (forall r s', Inv E s' -> Q r s') -> wp st (kread n count) s Q R.
Proof.
  intros I HQ. apply wp_catch. eapply with_fd_wp; [exact I | | | intros e s1 I1; by apply wp_return, HQ].
  2: { intros c a s1 I1. apply wp_seq. eapply cclose_wp; [exact I1 |]. intros s2 I2 _. by apply wp_return, HQ. }
  intros c s1 Q' I1 HQ'. destruct (inv_get _ _ Any c I1 ltac:(held)) as (ch & Ec & _). apply wp_seq, (wp_chan _ _ ch); [done |]. cbv zeta.
  destruct (_ && (_ || _)); [by apply wp_raise |].
  assert (forall k, wp st (bs ← dev_read c k (offset ch); upd c (fun ch => set_offset (u32 (offset ch + zlen bs)) ch);; mret bs) s1 Q' (fun _ s' => Inv ((Any, c) :: E) s')) as Hrd.
  { intros k. apply wp_seq. eapply dev_read_wp; [exact I1 | done | | done]. intros bs s2 I2 _ _. apply wp_seq.
    eapply any_upd_wp; [exact I2 | done |]. intros _ s3 _ I3 _ _. by apply wp_return, HQ'. }
  destruct (mnt ch) as [p |] eqn:Ep; [| apply Hrd]. destruct (is_set _ _); [| apply Hrd]. apply wp_seq.
  eapply (mounts_at_wp st p s1 ch); [done | | auto]. intros ms Hms.
  eapply unionread_wp; [done | exact I1 | exact Ec | by rewrite Ep | | lia | by auto | done]. intros ms' Hms'. rewrite Hms in Hms'. injection Hms' as <-. lia.
Qed.

Lemma kwrite_wp n bs E s (Q : Z -> state -> Prop) R : Inv E s -> (forall r s', Inv E s' -> Q r s') -> wp st (kwrite n bs) s Q R.
Proof.
  intros I HQ. apply call_wp. eapply with_fd_wp; [exact I | | | intros e s1 I1; by apply HQ].
  2: { intros c a s1 I1. apply wp_seq. eapply cclose_wp; [exact I1 |]. intros s2 I2 _. by apply wp_return, HQ. }
  intros c s1 Q' I1 HQ'. destruct (inv_get _ _ Any c I1 ltac:(held)) as (ch & Ec & _). apply wp_seq, (wp_chan _ _ ch); [done |].
  destruct (is_set _ _); [by apply wp_raise |]. apply wp_seq. eapply dev_write_wp; [exact I1 | done | | done]. intros r s2 I2 _. apply wp_seq.
  eapply any_upd_wp; [exact I2 | done |]. intros _ s3 _ I3 _ _. by apply wp_return, HQ'.
Qed.

Lemma kseek_wp n off whence E s (Q : Z -> state -> Prop) R : Inv E s -> (forall r s', Inv E s' -> Q r s') -> wp st (kseek n off whence) s Q R.
Proof.
  intros I HQ. apply call_wp. eapply with_fd_wp; [exact I | | | intros e s1 I1; by apply HQ].
  2: { intros c a s1 I1. apply wp_seq. eapply cclose_wp; [exact I1 |]. intros s2 I2 _. by apply wp_return, HQ. }
  intros c s1 Q' I1 HQ'. destruct (inv_get _ _ Any c I1 ltac:(held)) as (ch & Ec & _). apply wp_seq, (wp_chan _ _ ch); [done |].
  destruct (is_set _ _); [by apply wp_raise |].
  assert (forall v r s2, Inv ((Any, c) :: E) s2 -> wp st (upd c (set_offset v);; mret r) s2 Q' (fun _ s' => Inv ((Any, c) :: E) s')) as Hset.
  { intros v r s2 I2. apply wp_seq. eapply any_upd_wp; [exact I2 | done |]. intros _ s3 _ I3 _ _. by apply wp_return, HQ'. }
  destruct (whence =? 0); [by apply Hset |]. destruct (whence =? 1); [by apply Hset |]. destruct (whence =? 2); [| by apply wp_raise].
  apply wp_seq. eapply (dev_stat_wp st Any); [exact I1 | held | | done]. intros bs s2 Hbs I2 _.
  destruct (convM2D bs no_dir) as [[dir x] |] eqn:Ed; [| done]. apply wp_seq. eapply wp_need; [done |]. by apply Hset.
Qed.

Lemma kfstat_wp n E s (Q : Z * list Z -> state -> Prop) R : Inv E s -> (forall r s', Inv E s' -> Q r s') -> wp st (kfstat n) s Q R.
Proof.
  intros I HQ. apply wp_catch. eapply with_fd_wp; [exact I | | | intros e s1 I1; by apply wp_return, HQ].
  2: { intros c a s1 I1. apply wp_seq. eapply cclose_wp; [exact I1 |]. intros s2 I2 _. by apply wp_return, HQ. }
  intros c s1 Q' I1 HQ'. eapply (dev_stat_wp st Any); [exact I1 | held | | done]. intros bs s2 _ I2 _. by apply HQ'.
Qed.

Lemma nameok_wp buf str s (Q : unit -> state -> Prop) (R : err -> state -> Prop) : text buf str -> Q tt s -> (forall e, R e s) -> wp st (checked (nameok buf)) s Q R.
Proof. intros Ht HQ HR. destruct (nameok_text _ _ Ht) as [r Er]. apply checked_wp; [congruence | by intros [] | done]. Qed.

Lemma kfwstat_wp n buf str E s (Q : Z -> state -> Prop) R : text buf str -> Inv E s -> (forall r s', Inv E s' -> Q r s') -> wp st (kfwstat n buf) s Q R.
Proof.
  intros Ht I HQ. apply call_wp, wp_seq. eapply nameok_wp; [exact Ht | | intros e; by apply HQ]. eapply with_fd_wp; [exact I | | | intros e s1 I1; by apply HQ].
  2: { intros c a s1 I1. apply wp_seq. eapply cclose_wp; [exact I1 |]. intros s2 I2 _. by apply wp_return, HQ. }
  intros c s1 Q' I1 HQ'. eapply (dev_wstat_wp st Any); [exact I1 | held | | done]. intros s2 I2 _. by apply HQ'.
Qed.

(** [m] uses the file of a path. *)
Lemma with_path_wp {A B} p (m : Z -> M A) (k : Z -> A -> M B) E s (Q : B -> state -> Prop) (R : err -> state -> Prop) :
  good_path p -> Inv E s ->
  (forall c s1 (Q' : A -> state -> Prop), Inv ((Any, c) :: E) s1 -> (forall a s', Inv ((Any, c) :: E) s' -> Q' a s') ->
    wp st (m c) s1 Q' (fun _ s' => Inv ((Any, c) :: E) s')) ->
  (forall c a s1, Inv ((Any, c) :: E) s1 -> wp st (k c a) s1 Q R) -> (forall e s', Inv E s' -> R e s') ->
  wp st (c ← namec p Aaccess 0 0; r ← keep c (m c); k c r) s Q R.
Proof.
  intros Hp I Hm Hk HR. apply wp_seq. eapply (namec_wp st p _ _ _ E); try done; [| intros e s1 I1 _; by apply HR].
  intros c s1 I1%inv_any _ _. apply wp_seq. eapply keep_use_wp; [exact I1 | intros Q' HQ'; by apply Hm | | done]. intros a s2 I2. by apply Hk.
Qed.

Lemma kstat_wp p E s (Q : Z * list Z -> state -> Prop) R : good_path p -> Inv E s ->
  (forall r s', Inv E s' -> Q r s') -> wp st (kstat p) s Q R.
Proof.
  intros Hp I HQ. apply wp_catch. eapply with_path_wp; [done | exact I | | | intros e s1 I1; by apply wp_return, HQ].
  2: { intros c a s1 I1. apply wp_seq. eapply cclose_wp; [exact I1 |]. intros s2 I2 _. by apply wp_return, HQ. }
  intros c s1 Q' I1 HQ'. eapply (dev_stat_wp st Any); [exact I1 | held | | done]. intros bs s2 _ I2 _. by apply HQ'.
Qed.

Lemma kwstat_wp p buf bstr E s (Q : Z -> state -> Prop) R : good_path p -> text buf bstr -> Inv E s ->
  (forall r s', Inv E s' -> Q r s') -> wp st (kwstat p buf) s Q R.
Proof.
  intros Hp Ht I HQ. apply call_wp, wp_seq. eapply nameok_wp; [exact Ht | | intros e; by apply HQ].
  eapply with_path_wp; [done | exact I | | | intros e s1 I1; by apply HQ].
  2: { intros c a s1 I1. apply wp_seq. eapply cclose_wp; [exact I1 |]. intros s2 I2 _. by apply wp_return, HQ. }
  intros c s1 Q' I1 HQ'. eapply (dev_wstat_wp st Any); [exact I1 | held | | done]. intros s2 I2 _. by apply HQ'.
Qed.

Lemma kremove_wp p E s (Q : Z -> state -> Prop) R : good_path p -> Inv E s ->
  (forall r s', Inv E s' -> Q r s') -> wp st (kremove p) s Q R.
Proof.
  intros Hp I HQ. apply call_wp, wp_seq. eapply (namec_wp st p _ _ _ E); try done; [| intros e s1 I1 _; by apply HQ].
  intros c s1 I1 _ _. cbn [tag_of] in I1.
  assert (forall {A} (k : M A) s2 Q' R', Inv ((Own, c) :: E) s2 -> (forall s', Inv E s' -> wp st k s' Q' R') -> wp st (upd c (set_type 0);; cclose c;; k) s2 Q' R') as Hend.
  { intros A k s2 Q' R' I2 HQ'. apply wp_seq. eapply own_upd_wp; [exact I2 | done |]. intros _ s3 _ I3 _ _.
    apply wp_seq. eapply cclose_wp; [exact I3 |]. intros s4 I4 _. by apply HQ'. }
  apply wp_seq, wp_catch. eapply (dev_remove_wp st Own); [exact I1 | held | |].
  - intros s2 I2 _. apply Hend; [done |]. intros s3 I3. by apply wp_return, HQ.
  - intros e s2 I2 _. apply Hend; [done |]. intros s3 I3. by apply wp_raise, HQ.
Qed.
End Fds.
