(* ===== verification/NsTable.v ===== *)
(** * The name space: the tables of a group

    The mount table as a map from files to lists of files; steps that do not
    look at the tables, which may be exchanged with changes to them. *)

From S2P Require Import Prelude Styx Rune Name Ns NsInv NsOps NsWalk.
Import Ns.

#[local] Open Scope Z_scope.

(** ** The mount table as a map *)

(** A file and whether one may create in it. *)
Abbreviation entry := ((Z * Z * Z) * bool)%type.

Definition key_of (cs : gmap Z Chan) (c : Z) : Z * Z * Z := default (0, 0, 0) (key_at cs c).
Definition entry_of (cs : gmap Z Chan) (c : Z) : entry :=
  (key_of cs c, match cs !! c with Some ch => is_set (flag ch) CCREATE | None => false end).
Definition row (cs : gmap Z Chan) (h : Mhead) : (Z * Z * Z) * list entry := (key_of cs (from h), (fun m => entry_of cs (to m)) <$> mount h).
Definition rows (cs : gmap Z Chan) (hs : list Mhead) : gmap (Z * Z * Z) (list entry) := list_to_map (row cs <$> hs).

Section Table.
Context {D : Devices}.

Definition table (s : state) : gmap (Z * Z * Z) (list entry) := rows (chans s) (heads (pgrp s)).

Lemma entry_frame T cs cs' c t : frame T cs cs' -> (t, c) ∈ T -> is_Some (cs !! c) -> entry_of cs' c = entry_of cs c.
Proof.
  intros F Ht [ch Hc]. destruct (F t c ch Ht Hc) as (ch' & Hc' & E & _). unfold entry_of, key_of, key_at. rewrite Hc, Hc'. cbn.
  unfold core in E. unfold key. congruence.
Qed.

Lemma rows_frame T cs cs' g : frame T cs cs' -> (forall x, x ∈ pg_tokens g -> x ∈ T) -> (forall t c, (t, c) ∈ T -> is_Some (cs !! c)) ->
  rows cs' (heads g) = rows cs (heads g).
Proof.
  intros F Hs Hl. unfold rows. f_equal. apply list_fmap_ext. intros i h Hh%list_elem_of_lookup_2. unfold row.
  assert ((Shr, from h) ∈ T) as Hf by (by apply Hs, from_token). f_equal.
  - pose proof (entry_frame _ _ _ _ _ F Hf (Hl _ _ Hf)) as E. by injection E.
  - apply list_fmap_ext. intros j m Hm%list_elem_of_lookup_2. assert ((Shr, to m) ∈ T) as Ht by (by eapply Hs, to_token).
    by eapply entry_frame, Hl.
Qed.

Lemma inv_live E s t c : Inv E s -> (t, c) ∈ holders s ++ E -> is_Some (chans s !! c).
Proof. intros I Hin. destruct (inv_get _ _ t c I Hin) as (ch & Ec & _). by exists ch. Qed.

Lemma table_quiet E E' s s' : Inv E s -> quiet E' s s' -> table s' = table s.
Proof.
  intros I Hq. unfold table. rewrite (q_pgrp _ _ _ Hq). eapply (rows_frame (holders s)).
  - intros t x ch Hin. apply (q_frame _ _ _ Hq). by apply held_shr.
  - intros x Hx. eapply pg_holder; [by left | done].
  - intros t c Hin. eapply inv_live; [done | by apply held_shr].
Qed.

(** One bucket is changed. *)
Definition with_bucket (b : nat) (l : list Mhead) (g : Pgrp) : Pgrp := MkPgrp (<[b := l]> (mnthash g)) (p_slash g) (p_dot g) (nodevs g).

Lemma heads_bucket g b l : mnthash g !! b = Some l -> exists hs1 hs2, heads g = hs1 ++ l ++ hs2 /\ forall l', heads (with_bucket b l' g) = hs1 ++ l' ++ hs2.
Proof.
  unfold heads. cbn. generalize (mnthash g) as bs. intros bs. revert b. induction bs as [| x bs IH]; intros [| b] Hb; try done; cbn [concat insert list_insert].
  - injection Hb as ->. by exists [], (concat bs).
  - destruct (IH b Hb) as (hs1 & hs2 & -> & H). exists (x ++ hs1), hs2. split; [by rewrite app_assoc |]. intros l'. by rewrite H, app_assoc.
Qed.

Lemma rows_perm cs hs hs' : NoDup ((fun h => key_of cs (from h)) <$> hs) -> hs ≡ₚ hs' -> rows cs hs = rows cs hs'.
Proof.
  intros Hnd Hp. unfold rows. apply list_to_map_proper; [| by rewrite Hp].
  replace (row cs <$> hs).*1 with ((fun h => key_of cs (from h)) <$> hs) by (rewrite <- list_fmap_compose; done). done.
Qed.

Lemma rows_insert cs hs1 h hs2 : NoDup ((fun h => key_of cs (from h)) <$> hs1 ++ h :: hs2) ->
  rows cs (hs1 ++ h :: hs2) = <[key_of cs (from h) := (fun m => entry_of cs (to m)) <$> mount h]> (rows cs (hs1 ++ hs2)).
Proof.
  intros Hnd. rewrite (rows_perm cs _ (h :: hs1 ++ hs2)) by (done || by rewrite Permutation_middle). done.
Qed.

Lemma rows_delete cs hs1 h hs2 : NoDup ((fun h => key_of cs (from h)) <$> hs1 ++ h :: hs2) ->
  rows cs (hs1 ++ hs2) = delete (key_of cs (from h)) (rows cs (hs1 ++ h :: hs2)).
Proof.
  intros Hnd. rewrite rows_insert by done. rewrite delete_insert_id; [done |]. apply not_elem_of_list_to_map.
  rewrite fmap_app, fmap_cons in Hnd. apply NoDup_app in Hnd as (_ & Hd & Hnd). apply NoDup_cons in Hnd as [Hn _].
  rewrite <- list_fmap_compose, fmap_app, not_elem_of_app. split; [| done]. intros Hin. apply (Hd _ Hin). by left.
Qed.

(** The keys of a table that is in order. *)
Lemma table_keys cs g : Table cs g -> NoDup ((fun h => key_of cs (from h)) <$> heads g).
Proof.
  intros Ht. pose proof (t_keys _ _ Ht) as Hnd.
  replace ((fun h => key_at cs (from h)) <$> heads g) with (Some <$> ((fun h => key_of cs (from h)) <$> heads g)) in Hnd; [by apply NoDup_fmap_1 in Hnd |].
  rewrite <- list_fmap_compose. apply list_fmap_ext. intros i h Hh%list_elem_of_lookup_2. cbn.
  apply heads_elem in Hh as (b & l & Hb & Hh). destruct (t_place _ _ Ht b l h Hb Hh) as (ch & E & _). unfold key_of, key_at. by rewrite E.
Qed.

Lemma table_lookup s h E : Inv E s -> h ∈ heads (pgrp s) -> table s !! key_of (chans s) (from h) = Some ((fun m => entry_of (chans s) (to m)) <$> mount h).
Proof.
  intros I Hh. apply list_elem_of_split in Hh as (hs1 & hs2 & Eh). unfold table. pose proof (table_keys _ _ (inv_table _ _ I)) as Hnd. rewrite Eh in *.
  rewrite rows_insert by done. apply lookup_insert_eq.
Qed.

Lemma table_none s k E : Inv E s -> (forall h, h ∈ heads (pgrp s) -> key_at (chans s) (from h) <> Some k) -> table s !! k = None.
Proof.
  intros I Hno. apply not_elem_of_list_to_map. rewrite <- list_fmap_compose. intros (h & Ek & Hh)%list_elem_of_fmap. apply (Hno h Hh).
  cbn in Ek. subst k. unfold key_of. destruct (inv_live E s Shr (from h) I) as [ch Ec].
  { apply held_shr. eapply pg_holder; [by left | by apply from_token]. }
  unfold key_at. by rewrite Ec.
Qed.

(** ** Steps that do not look at the tables *)

Class Outside (f : state -> state) : Prop := {
  o_chans s : chans (f s) = chans s; o_free s : free (f s) = free s; o_fid s : fid (f s) = fid s; o_mem s : mem (f s) = mem s;
  o_nmount s : nmount (f s) = nmount s; o_nid s : nid (f s) = nid s; o_devices s : devices (f s) = devices s;
  o_set_chans v s : f (set_chans v s) = set_chans v (f s); o_set_free v s : f (set_free v s) = set_free v (f s);
  o_set_mem v s : f (set_mem v s) = set_mem v (f s); o_set_ids a i s : f (set_ids a i s) = set_ids a i (f s);
  o_set_devices v s : f (set_devices v s) = set_devices v (f s)
}.
#[export] Instance outside_pgrp h : Outside (fun s => set_pgrp (h (pgrp s)) s).
Proof. by split. Qed.
#[export] Instance outside_fgrp f : Outside (set_fgrp f).
Proof. by split. Qed.

Definition map_result {A} (f : state -> state) (r : result A) : result A :=
  match r with Ret a s => Ret a (f s) | Raise e s => Raise e (f s) | Trap t => Trap t end.

Definition blind {A} (f : state -> state) (m : M A) : Prop := forall s, m (f s) = map_result f (m s).

Lemma wp_blind {A} st f (m : M A) s Q R : blind f m -> wp st m (f s) Q R <-> wp st m s (fun a s' => Q a (f s')) (fun e s' => R e (f s')).
Proof. intros H. unfold wp. rewrite H. by destruct (m s). Qed.

Section Blind.
Context (f : state -> state) `{!Outside f}.

Lemma blind_ret {A} (a : A) : blind f (mret a).
Proof. done. Qed.
Lemma blind_error {A} e : blind f (error e : M A).
Proof. done. Qed.
Lemma blind_stop {A} t : blind f (stop t : M A).
Proof. done. Qed.
Lemma blind_bind {A B} (m : M A) (k : A -> M B) : blind f m -> (forall a, blind f (k a)) -> blind f (m ≫= k).
Proof. intros Hm Hk s. unfold mbind, m_bind. rewrite Hm. destruct (m s) as [a s' | e s' | t]; [apply Hk | done | done]. Qed.
Lemma blind_gets {A} (g : state -> A) : (forall s, g (f s) = g s) -> blind f (gets g).
Proof. intros H s. unfold gets. by rewrite H. Qed.
Lemma blind_modify g : (forall s, g (f s) = f (g s)) -> blind f (modify g).
Proof. intros H s. unfold modify. by rewrite H. Qed.
Lemma blind_chan c : blind f (chan c).
Proof. intros s. unfold chan. rewrite o_chans. by destruct (chans s !! c). Qed.
Lemma blind_put c ch : blind f (put c ch).
Proof. apply blind_modify. intros s. by rewrite o_chans, o_set_chans. Qed.
Lemma blind_upd c g : blind f (upd c g).
Proof. apply blind_bind; [apply blind_chan | intros ch; apply blind_put]. Qed.
Lemma blind_if {A} (b : bool) (m m' : M A) : blind f m -> blind f m' -> blind f (if b then m else m').
Proof. by destruct b. Qed.
Lemma blind_malloc : blind f malloc.
Proof.
  apply blind_bind; [apply blind_gets, o_mem |]. intros n. apply blind_if; [apply blind_error |]. apply blind_if; [apply blind_ret |].
  apply blind_modify. intros s. by rewrite o_set_mem.
Qed.
Lemma blind_cclose c : blind f (cclose c).
Proof.
  apply blind_bind; [apply blind_chan |]. intros ch. apply blind_if; [apply blind_stop |]. apply blind_bind.
  - apply blind_bind; [apply blind_chan |]. intros ch1. apply blind_bind; [apply blind_put |]. intros _. apply blind_if; [apply blind_stop | apply blind_ret].
  - intros n. apply blind_if; [apply blind_ret |]. apply blind_bind; [apply blind_chan |]. intros ch1. apply blind_bind.
    + apply blind_modify. intros s. by rewrite o_devices, o_set_devices.
    + intros _. apply blind_bind; [apply blind_upd |]. intros _. apply blind_modify. intros s. by rewrite o_free, o_set_free.
Qed.
Lemma blind_newmount c flg spec : blind f (newmount c flg spec).
Proof.
  apply blind_bind; [apply blind_malloc |]. intros _. apply blind_bind; [apply blind_upd |]. intros _. apply blind_bind; [apply blind_gets, o_nmount |].
  intros a. apply blind_bind; [apply blind_gets, o_nid |]. intros i. apply blind_bind; [apply blind_modify; intros s; by rewrite o_set_ids |].
  intros _. apply blind_if; [apply blind_stop | apply blind_ret].
Qed.
Lemma blind_forM {A} (xs : list A) k : (forall x, blind f (k x)) -> blind f (forM xs k).
Proof. intros H. induction xs as [| x xs IH]; [apply blind_ret |]. apply blind_bind; [apply H | intros _; apply IH]. Qed.
Lemma blind_mapM {A B} (k : A -> M B) xs : (forall x, blind f (k x)) -> blind f (mapM k xs).
Proof.
  intros H. induction xs as [| x xs IH]; [apply blind_ret |]. apply blind_bind; [apply H |]. intros y. apply blind_bind; [apply IH |]. intros ys. apply blind_ret.
Qed.
Lemma blind_mountfree ms : blind f (mountfree ms).
Proof. apply blind_forM. intros m. apply blind_cclose. Qed.
End Blind.
End Table.
