(* ===== verification/NsMount.v ===== *)
(** * The name space: mounting

    [cmount] and [cunmount] against the mount table as a map. *)

From S2P Require Import Prelude Styx Rune Name Ns NsInv NsOps NsWalk NsNamec NsFd NsTable.
Import Ns.

#[local] Open Scope Z_scope.

(** ** What binding comes to *)

(** [new], with the members [us] of its union behind it, is put upon [old]. *)
Definition bind (new : entry) (us : list entry) (old : entry) (order : Z) (create : bool) (T : gmap (Z * Z * Z) (list entry)) : gmap (Z * Z * Z) (list entry) :=
  let put ms :=
    let news := (new.1, create || new.2) :: us in
    if order =? MREPL then news else if order =? MAFTER then ms ++ news else news ++ ms in
  match T !! old.1 with
  | Some ms => if decide (new.1 = old.1) then T else <[old.1 := put ms]> T
  | None => <[old.1 := put [old]]> T
  end.

Section Mount.
Context {D : Devices} {L : Laws D}.
Context (st : Prop).

(** ** Mounts *)

Lemma ids_inv E s a i : nmount s <= a -> Inv E s -> Inv E (set_ids a i s).
Proof. intros Ha [G [S1 S2 S3 S4 S5]]. split; [exact G |]. split; try done. cbn. intros m Hm. specialize (S4 m Hm). lia. Qed.

(** A new mount has an address that no other has. *)
Lemma newmount_wp t c flg spec E s Q R : Inv E s -> (t, c) ∈ holders s ++ E -> t <> Own -> t <> Any -> zlen spec < NAMELEN ->
  (forall m s', Inv ((Shr, c) :: E) s' -> quiet E s s' -> nmount s < addr m <= nmount s' -> to m = c -> m_spec m = spec -> Q m s') ->
  wp st (newmount c flg spec) s Q R.
Proof.
  intros I Hin Ht1 Ht2 Hsp HQ. pose proof I as [_ S]. apply wp_seq, wp_malloc; [done |]. apply wp_seq.
  eapply (incref_wp st t Shr); [exact I | exact Hin | done | done | done |]. intros s1 I1 Hq1.
  apply wp_seq, wp_gets, wp_seq, wp_gets, wp_seq, wp_put. destruct (Z.leb_spec NAMELEN (zlen spec)); [lia |]. apply wp_return.
  pose proof (q_nmount _ _ _ Hq1) as Hn. apply HQ; try done; cbn; [apply ids_inv; [lia | done] | | lia].
  destruct Hq1 as [A1 A2 A3 A4 A5 A6 A7]. split; try done. cbn. lia.
Qed.

Definition to_tokens (ms : list Mount) : list token := (fun m => (Shr, to m)) <$> ms.

Lemma newmounts_wp (fl : Z) ums E s Q R : Inv E s -> (forall m, m ∈ ums -> (Shr, to m) ∈ holders s ++ E /\ zlen (m_spec m) < NAMELEN) ->
  (forall ms s', Inv (to_tokens ms ++ E) s' -> quiet E s s' -> to <$> ms = to <$> ums -> NoDup (addr <$> ms) ->
    (forall m, m ∈ ms -> nmount s < addr m <= nmount s' /\ zlen (m_spec m) < NAMELEN) -> Q ms s') ->
  wp st (mapM (fun um => newmount (to um) fl (m_spec um)) ums) s Q R.
Proof.
  revert E s Q. induction ums as [| um ums IH]; intros E s Q I Hu HQ; cbn [mapM].
  - apply wp_return, HQ; try done; [quiets | constructor | by intros m ?%not_elem_of_nil].
  - destruct (Hu um ltac:(by left)) as [Hto Hsp]. apply wp_seq. eapply newmount_wp; [exact I | exact Hto | done | done | done |].
    intros m s1 I1 Hq1 Ha Et Es. apply wp_seq. apply (IH _ s1 _ I1).
    + intros m' Hm'. rewrite (quiet_holders _ _ _ Hq1). destruct (Hu m' ltac:(by right)) as [Hm1 Hm2]. split; [| done].
      rewrite elem_of_app, elem_of_cons in *. tauto.
    + intros ms s2 I2 Hq2 Ets Hnd Hms. apply wp_return, HQ.
      * eapply inv_permute; [| exact I2]. cbn. rewrite Et. symmetry. apply Permutation_middle.
      * quiets.
      * cbn. by rewrite Et, Ets.
      * cbn. apply NoDup_cons. split; [| done]. intros (m' & E' & Hm')%list_elem_of_fmap. destruct (Hms m' Hm') as [? _]. lia.
      * intros m' [-> | Hm']%elem_of_cons; [split; [| by rewrite Es]; pose proof (q_nmount _ _ _ Hq2); lia |].
        destruct (Hms m' Hm') as [? ?]. pose proof (q_nmount _ _ _ Hq1). split; [lia | done].
Qed.

Lemma mountfree_wp ms E s Q R : Inv (to_tokens ms ++ E) s -> (forall s', Inv E s' -> quiet E s s' -> Q tt s') -> wp st (mountfree ms) s Q R.
Proof.
  revert s. induction ms as [| m ms IH]; intros s I HQ; [apply wp_return, HQ; [done | quiets] |]. apply wp_seq.
  eapply cclose_wp; [exact I |]. intros s1 I1 Hq1. apply IH; [done |]. intros s2 I2 Hq2. apply HQ; [done | quiets].
Qed.

(** ** The group gets another table *)

Lemma inv_pgrp E E' s g : Inv E s -> Table (chans s) g -> NoDup (addr <$> ((heads g ++ (pgrps s ≫= heads)) ≫= mount)) ->
  (forall m, m ∈ (heads g ≫= mount) -> addr m <= nmount s) -> pg_tokens g ++ E' ≡ₚ pg_tokens (pgrp s) ++ E -> Inv E' (set_pgrp g s).
Proof.
  intros [G [S1 S2 S3 S4 S5]] Ht Hnd Ha Hp. split.
  - eapply good_perm; [| exact G].
    change (holders (set_pgrp g s)) with (pg_tokens g ++ (pgrps s ≫= pg_tokens) ++ fg_tokens (fgrp s) ++ (fgrps s ≫= fg_tokens)). unfold holders.
    rewrite <- !app_assoc. generalize ((pgrps s ≫= pg_tokens)) as A, (fg_tokens (fgrp s)) as B, (fgrps s ≫= fg_tokens) as C. intros A B C.
    transitivity ((pg_tokens (pgrp s) ++ E) ++ A ++ B ++ C); [solve_Permutation |]. rewrite <- Hp. solve_Permutation.
  - split; try done.
    + apply Forall_cons in S2 as [_ S2]. by apply Forall_cons.
    + intros m. unfold all_heads. cbn. rewrite bind_app, elem_of_app. intros [Hm | Hm]; [by apply Ha |]. apply S4. unfold all_heads. rewrite bind_app.
      apply elem_of_app. by right.
Qed.

Lemma inv_addrs E s : Inv E s -> NoDup (addr <$> (all_heads s ≫= mount)).
Proof. intros [_ S]. apply (s_addrs _ S). Qed.

Lemma with_bucket_elem g b l l' h : mnthash g !! b = Some l -> forall i x, mnthash (with_bucket b l' g) !! i = Some x -> h ∈ x ->
  (i = b /\ h ∈ l') \/ (i <> b /\ mnthash g !! i = Some x).
Proof. intros Hb i x [(<- & <- & _) | [Hi Hx]]%list_lookup_insert_Some Hh; [by left | right; auto]. Qed.

(** A head of a bucket is put in, changed or taken out. *)
Lemma regroup E E' s b l1 o n l2 : Inv E s -> mnthash (pgrp s) !! b = Some (l1 ++ o ++ l2) ->
  (forall h, h ∈ n -> mount h <> [] /\ Forall (fun m => zlen (m_spec m) < NAMELEN) (mount h) /\ exists ch, chans s !! from h = Some ch /\ MOUNTH ch = b) ->
  NoDup ((fun h => key_at (chans s) (from h)) <$> n) ->
  (forall h, h ∈ n -> (exists h0, h0 ∈ o /\ from h = from h0) \/ (forall h', h' ∈ heads (pgrp s) -> key_at (chans s) (from h') <> key_at (chans s) (from h))) ->
  NoDup (addr <$> (n ≫= mount)) ->
  (forall m, m ∈ (n ≫= mount) -> m ∈ (o ≫= mount) \/ addr m <= nmount s /\ forall m', m' ∈ (all_heads s ≫= mount) -> addr m' <> addr m) ->
  (n ≫= head_tokens) ++ E' ≡ₚ (o ≫= head_tokens) ++ E ->
  Inv E' (set_pgrp (with_bucket b (l1 ++ n ++ l2) (pgrp s)) s).
Proof.
  intros I Hb Hn Hnk Hkeys Hnd Hms Hp. pose proof I as [_ S]. pose proof (inv_table _ _ I) as [T1 T2 T3 T4]. pose proof (inv_addrs _ _ I) as Hna.
  destruct (heads_bucket _ _ _ Hb) as (hs1 & hs2 & Eh & Eh'). specialize (Eh' (l1 ++ n ++ l2)).
  set (A := hs1 ++ l1) in *. set (B := l2 ++ hs2) in *.
  assert (heads (pgrp s) = A ++ o ++ B) as Eo by (rewrite Eh; unfold A, B; by rewrite <- !app_assoc).
  assert (heads (with_bucket b (l1 ++ n ++ l2) (pgrp s)) = A ++ n ++ B) as En by (rewrite Eh'; unfold A, B; by rewrite <- !app_assoc).
  assert (forall h, h ∈ A ++ n ++ B -> h ∈ n \/ h ∈ heads (pgrp s)) as Hin.
  { intros h. rewrite Eo, !elem_of_app. tauto. }
  eapply inv_pgrp; [exact I | split | | |].
  - cbn. by rewrite length_insert.
  - intros h Hh. rewrite En in Hh. destruct (Hin h Hh) as [Hhn | Hhg]; [by destruct (Hn h Hhn) as (? & ? & _) | by apply T2].
  - intros i x h Hi Hh. destruct (with_bucket_elem _ _ _ _ h Hb i x Hi Hh) as [[-> Hh'] | [Hne Hx]]; [| by eapply T3].
    rewrite !elem_of_app in Hh'. destruct Hh' as [Hh' | [Hh' | Hh']]; [| by destruct (Hn h Hh') as (_ & _ & ?) |];
      (eapply T3; [exact Hb |]); rewrite !elem_of_app; tauto.
  - rewrite En. rewrite Eo in T4. rewrite !fmap_app in *. apply NoDup_app in T4 as (N1 & N2 & N3). apply NoDup_app in N3 as (N4 & N5 & N6).
    set (ks := fmap (fun h => key_at (chans s) (from h))) in *.
    assert (forall k, k ∈ ks n -> (k ∉ ks A) /\ (k ∉ ks B)) as Hout.
    { intros k (h & -> & Hh)%list_elem_of_fmap. destruct (Hkeys h Hh) as [(h0 & Ho & Ef) | Hno].
      - rewrite Ef. split; [intros HA; apply (N2 _ HA), elem_of_app; left | apply N5]; apply list_elem_of_fmap; by exists h0.
      - rewrite Eo in Hno. split; intros (h' & E2 & Hh')%list_elem_of_fmap; (eapply (Hno h'); [rewrite !elem_of_app; tauto | done]). }
    apply NoDup_app. split_and!; [done | | apply NoDup_app; split_and!; [done | | done]].
    + intros k HA [Hk | Hk]%elem_of_app; [by destruct (Hout k Hk) | apply (N2 k HA), elem_of_app; by right].
    + intros k Hk. by destruct (Hout k Hk).
  - unfold all_heads in Hna, Hms. rewrite En. rewrite Eo in Hna, Hms. rewrite !bind_app, !fmap_app in Hna |- *. rewrite <- !app_assoc in Hna |- *.
    apply NoDup_app in Hna as (N1 & N2 & N3). apply NoDup_app in N3 as (N4 & N5 & N6).
    assert (forall a, a ∈ addr <$> (n ≫= mount) -> (a ∈ addr <$> (o ≫= mount)) \/
      forall a', a' ∈ addr <$> (A ≫= mount) \/ a' ∈ (addr <$> (B ≫= mount)) ++ (addr <$> ((pgrps s ≫= heads) ≫= mount)) -> a' <> a) as Hnew.
    { intros a (m & -> & Hm)%list_elem_of_fmap. destruct (Hms m Hm) as [Ho | [_ Hne]]; [left; apply list_elem_of_fmap; by exists m | right].
      intros a' Ha. assert (a' ∈ addr <$> ((A ≫= mount) ++ (B ≫= mount) ++ ((pgrps s ≫= heads) ≫= mount))) as Ha' by (rewrite !fmap_app, !elem_of_app in *; tauto).
      apply list_elem_of_fmap in Ha' as (m' & -> & Hm'). apply Hne. rewrite !bind_app, !elem_of_app in *. tauto. }
    apply NoDup_app. split_and!; [done | | apply NoDup_app; split_and!; [done | | done]].
    + intros a Ha [Ha' | Ha']%elem_of_app; [| apply (N2 a Ha), elem_of_app; by right].
      destruct (Hnew a Ha') as [Ho | Hne]; [apply (N2 a Ha), elem_of_app; by left | by apply (Hne a); [left |]].
    + intros a Ha Ha'. destruct (Hnew a Ha) as [Ho | Hne]; [by apply (N5 a Ho) | by apply (Hne a); [right |]].
  - intros m. rewrite En, !bind_app, !elem_of_app. pose proof (s_nmount _ S) as H4. unfold all_heads in H4. rewrite Eo in H4.
    assert (forall m, m ∈ (A ++ o ++ B) ≫= mount -> addr m <= nmount s) as H4' by (intros m' Hm'; apply H4; rewrite bind_app; apply elem_of_app; by left).
    intros Hm. destruct Hm as [Hm | [Hm | Hm]]; [apply H4' | destruct (Hms m Hm) as [Ho | [? _]]; [apply H4' | done] | apply H4']; rewrite !bind_app, !elem_of_app; tauto.
  - unfold pg_tokens. rewrite En, Eo, !bind_app. cbn. do 2 constructor. rewrite <- !app_assoc. apply Permutation_app_head.
    rewrite (Permutation_app_comm _ E'), (Permutation_app_comm _ E), !app_assoc, Hp. solve_Permutation.
Qed.

Lemma entry_quiet E E' s s' t c : Inv E s -> quiet E' s s' -> (t, c) ∈ holders s ++ E -> (t, c) ∈ holders s ++ E' -> entry_of (chans s') c = entry_of (chans s) c.
Proof. intros I Hq Hin Hin'. eapply entry_frame; [by apply q_frame | exact Hin' | by eapply inv_live]. Qed.

Definition entries (s : state) (ms : list Mount) : list entry := (fun m => entry_of (chans s) (to m)) <$> ms.

(** The list of mounts that [cmount] makes. *)
Definition stack {A} (order : Z) (ms0 news : list A) : list A := if order =? MREPL then news else if order =? MAFTER then ms0 ++ news else news ++ ms0.


(** The mounts of a union, with their tokens and specs. *)
Definition mounts_ok (s : state) (E : list token) (ms : list Mount) : Prop :=
  forall m, m ∈ ms -> (Shr, to m) ∈ holders s ++ E /\ zlen (m_spec m) < NAMELEN.

Lemma heads_ok E s h : Inv E s -> h ∈ all_heads s -> mounts_ok s [] (mount h).
Proof.
  intros [_ S] Hh m Hm. split; [apply held_shr; by eapply all_heads_holders |]. pose proof (s_tables _ S) as Ht. rewrite Forall_forall in Ht.
  unfold all_heads in Hh. rewrite elem_of_app, list_elem_of_bind in Hh.
  assert (exists g, g ∈ pgrp s :: pgrps s /\ h ∈ heads g) as (g & Hg & Hhg).
  { destruct Hh as [Hh | (g & Hh & Hg)]; [exists (pgrp s) | exists g]; (split; [| done]); [by left | by right]. }
  destruct (t_full _ _ (Ht g Hg) h Hhg) as [_ Hf]. rewrite Forall_forall in Hf. by apply Hf.
Qed.

(** The other members of the union of [new]. *)
Lemma union_wp f cn fl E s (Q : list Mount -> state -> Prop) R : Outside f -> Inv E s -> (members (f s) cn = None -> st) ->
  (forall ms, members (f s) cn = Some ms -> mounts_ok s E ms) ->
  (forall ms us s', members (f s) cn = Some ms -> Inv (to_tokens us ++ E) s' -> quiet E s s' -> to <$> us = to <$> tail ms -> NoDup (addr <$> us) ->
    (forall m, m ∈ us -> nmount s < addr m <= nmount s' /\ zlen (m_spec m) < NAMELEN) -> Q us (f s')) ->
  wp st (match mnt cn with None => mret [] | Some p => ms ← mounts_at p; mapM (fun um => newmount (to um) fl (m_spec um)) (tail ms) end) (f s) Q R.
Proof.
  intros Ho I Hst Hm HQ. destruct (mnt cn) as [p |] eqn:Ep.
  - apply wp_seq. eapply (mounts_at_wp st p (f s) cn); [done | | done]. intros ms Hms. pose proof (Hm ms Hms) as Hok.
    apply wp_blind; [apply blind_mapM; intros um; by apply blind_newmount |].
    eapply newmounts_wp; [exact I | |].
    + intros m Hin. apply Hok. destruct ms; [done | by right].
    + intros us s' I' Hq' Ht Hnd Ha. by apply (HQ ms us).
  - apply wp_return. apply (HQ [] []); try done; [unfold members; by rewrite Ep | quiets | constructor | by intros m ?%not_elem_of_nil].
Qed.

Lemma keep_mounts_wp (order : Z) ms0 E s Q R : Inv (to_tokens ms0 ++ E) s ->
  (forall s', let ms := if order =? MREPL then [] else ms0 in Inv (to_tokens ms ++ E) s' -> quiet E s s' -> (order <> MREPL -> s' = s) -> Q ms s') ->
  wp st (if order =? MREPL then mountfree ms0;; mret [] else mret ms0) s Q R.
Proof.
  intros I HQ. destruct (Z.eqb_spec order MREPL) as [Ho | Ho].
  - apply wp_seq. eapply mountfree_wp; [exact I |]. intros s1 I1 Hq1. by apply wp_return, HQ.
  - apply wp_return, HQ; [done | quiets | done].
Qed.

Lemma create_flag_wp (b : bool) c E' E s Q R cn : Inv ((Shr, c) :: E') s -> (forall t, (t, c) ∉ holders s ++ E) -> chans s !! c = Some cn ->
  (forall s' cn', Inv ((Shr, c) :: E') s' -> quiet E s s' -> chans s' !! c = Some cn' -> key cn' = key cn -> is_set (flag cn') CCREATE = b || is_set (flag cn) CCREATE -> Q tt s') ->
  wp st (if b then upd c (fun ch => set_flag (Z.lor (flag ch) CCREATE) ch) else mret tt) s Q R.
Proof.
  intros I Hal Ec HQ. destruct b; [| apply wp_return; by apply (HQ s cn); [| quiets | | |]].
  eapply (alone_upd_wp st Shr c _ E' E); [exact I | exact Hal | intros ch; split; [done |]; cbn; by rewrite !lor_flags |].
  intros ch s1 E1 I1 Hq1 E2. assert (ch = cn) as -> by congruence. eapply HQ; [done | done | exact E2 | done |]. cbn.
  unfold is_set. rewrite Z.land_lor_distr_l. change (Z.land CCREATE CCREATE) with 4. apply negb_true_iff, Z.eqb_neq.
  intros H%(f_equal (fun z => Z.testbit z 2)). rewrite Z.lor_spec in H. cbn in H. by rewrite orb_true_r in H.
Qed.

Lemma with_bucket_twice b l l' g : with_bucket b l' (with_bucket b l g) = with_bucket b l' g.
Proof. unfold with_bucket. cbn. by rewrite list_insert_insert_eq. Qed.

(** A head is put into a bucket. *)
Lemma put_head E v b l1 l2 h : Inv (head_tokens h ++ E) v -> mnthash (pgrp v) !! b = Some (l1 ++ l2) ->
  (exists ch, chans v !! from h = Some ch /\ MOUNTH ch = b) ->
  (forall h', h' ∈ heads (pgrp v) -> key_at (chans v) (from h') <> key_at (chans v) (from h)) ->
  mount h <> [] -> NoDup (addr <$> mount h) ->
  (forall m, m ∈ mount h -> zlen (m_spec m) < NAMELEN /\ addr m <= nmount v /\ forall m', m' ∈ (all_heads v ≫= mount) -> addr m' <> addr m) ->
  let s' := set_pgrp (with_bucket b (l1 ++ h :: l2) (pgrp v)) v in
  Inv E s' /\ table s' = <[key_of (chans v) (from h) := entries v (mount h)]> (table v).
Proof.
  intros I Hb Hf Hk Hne Hnd Hms s'.
  assert (Inv E s') as I'.
  { eapply (regroup _ _ v b l1 [] [h] l2); [exact I | exact Hb | | apply NoDup_singleton | | | |].
    - intros h' ->%list_elem_of_singleton. split_and!; [done | | done]. apply Forall_forall. intros m Hm. by apply Hms.
    - intros h' ->%list_elem_of_singleton. by right.
    - cbn. by rewrite app_nil_r.
    - intros m Hm. cbn in Hm. rewrite app_nil_r in Hm. right. by apply Hms.
    - cbn. by rewrite app_nil_r. }
  split; [done |]. destruct (heads_bucket _ _ _ Hb) as (hs1 & hs2 & Eh & Eh').
  pose proof (table_keys _ _ (inv_table _ _ I')) as Hnk. unfold table. change (pgrp s') with (with_bucket b (l1 ++ h :: l2) (pgrp v)) in *.
  rewrite Eh' in *. rewrite Eh. change (chans s') with (chans v) in *.
  replace (hs1 ++ (l1 ++ h :: l2) ++ hs2) with ((hs1 ++ l1) ++ h :: (l2 ++ hs2)) in * by (by rewrite <- !app_assoc).
  rewrite rows_insert by done. by rewrite <- !app_assoc.
Qed.

(** Where the mounts of the new list come from. *)
Lemma stack_elem {A} order (ms0 news : list A) x : x ∈ stack order ms0 news <-> x ∈ news \/ order <> MREPL /\ x ∈ ms0.
Proof. unfold stack. destruct (Z.eqb_spec order MREPL), (Z.eqb_spec order MAFTER); rewrite ?elem_of_app; naive_solver. Qed.

Lemma stack_perm {A} order (ms0 news : list A) : stack order ms0 news ≡ₚ (if order =? MREPL then [] else ms0) ++ news.
Proof. unfold stack. destruct (order =? MREPL), (order =? MAFTER); solve_Permutation. Qed.

Lemma stack_eq {A} order (ms ms' news news' : list A) : (order <> MREPL -> ms = ms') -> news = news' -> stack order ms news = stack order ms' news'.
Proof. intros H ->. unfold stack. destruct (Z.eqb_spec order MREPL); [done |]. by rewrite H. Qed.

Lemma stack_fmap {A B} (f : A -> B) order ms0 news : f <$> stack order ms0 news = stack order (f <$> ms0) (f <$> news).
Proof. unfold stack. destruct (order =? MREPL), (order =? MAFTER); by rewrite ?fmap_app. Qed.

(** The new mounts are put into the head [h0], which the group [pgrp v] is
    without. *)
Lemma cmount_rest_wp new flg spec cn b l1 h0 l2 E v (Q : Z -> state -> Prop) R :
  let order := Z.land flg MORDER in
  let f s := set_pgrp (with_bucket b (l1 ++ h0 :: l2) (pgrp s)) s in
  Inv ((Own, new) :: head_tokens h0 ++ E) v -> chans v !! new = Some cn -> (members (f v) cn = None -> st) -> zlen spec < NAMELEN ->
  mnthash (pgrp v) !! b = Some (l1 ++ l2) -> (exists ch, chans v !! from h0 = Some ch /\ MOUNTH ch = b) ->
  (forall h', h' ∈ heads (pgrp v) -> key_at (chans v) (from h') <> key_at (chans v) (from h0)) ->
  NoDup (addr <$> mount h0) -> (forall m, m ∈ mount h0 -> addr m <= nmount v /\ zlen (m_spec m) < NAMELEN) ->
  (forall m m', m ∈ mount h0 -> m' ∈ (all_heads v ≫= mount) -> addr m <> addr m') ->
  (forall id s' ms, members (f v) cn = Some ms -> Inv ((Shr, new) :: E) s' ->
    table s' = <[key_of (chans v) (from h0) := stack order (entries v (mount h0))
      ((key cn, is_set flg MCREATE || is_set (flag cn) CCREATE) :: entries v (tail ms))]> (table v) -> Q id s') ->
  wp st (cmount_rest new flg spec cn b (length l1)) (f v) Q R.
Proof.
  intros order f I Ecn Hst Hsp Hb Hfrom Hkey Hnd0 Ha0 Hdis HQ. unfold cmount_rest. fold order.
  assert (Outside f) as Hof by exact (outside_pgrp (with_bucket b (l1 ++ h0 :: l2))).
  assert (forall t, (t, new) ∉ holders v ++ head_tokens h0 ++ E) as Hal by (by apply own_alone).
  apply inv_share in I as Is.
  apply wp_seq, wp_blind; [by apply blind_newmount |].
  eapply (newmount_wp Shr); [exact Is | held | done | done | done |]. intros nm v1 I1 Hq1 Hanm Etnm Esnm.
  assert (forall s, quiet E v s -> members (f s) cn = members (f v) cn) as Hmem.
  { intros s Hqs. unfold members. destruct (mnt cn); [| done]. unfold all_heads, f. cbn. by rewrite (q_pgrp _ _ _ Hqs), (q_pgrps _ _ _ Hqs). }
  assert (forall ms, members (f v) cn = Some ms -> mounts_ok v (head_tokens h0 ++ E) ms) as Hms.
  { intros ms Hm m Hin. unfold members in Hm. destruct (mnt cn) as [p |]; [| injection Hm as <-; by apply not_elem_of_nil in Hin].
    destruct (members_head _ _ _ Hm) as (h & pre & f0 & t & Hh & Em & _ & _). assert (m ∈ mount h) as Hmh by (rewrite Em; apply elem_of_app; by right).
    destruct (heads_bucket _ _ _ Hb) as (hs1 & hs2 & Eh & Eh'). assert (h = h0 \/ h ∈ all_heads v) as [-> | Hv].
    { change (all_heads (f v)) with (heads (with_bucket b (l1 ++ h0 :: l2) (pgrp v)) ++ (pgrps v ≫= heads)) in Hh. rewrite Eh' in Hh. unfold all_heads. rewrite Eh. rewrite !elem_of_app, elem_of_cons in *. tauto. }
    - split; [| by apply Ha0]. apply elem_of_app. right. apply elem_of_app. left. right. apply list_elem_of_fmap. by exists m.
    - destruct (heads_ok _ _ _ I Hv m Hmh) as [Ht Hs]. split; [| done]. rewrite app_nil_r in Ht. by apply held_shr. }
  apply wp_seq. eapply (union_wp f cn); [done | exact I1 | rewrite (Hmem v1) by quiets; exact Hst | |].
  { intros ms Hm m Hin. rewrite (Hmem v1) in Hm by quiets. destruct (Hms ms Hm m Hin) as [Ht Hs]. split; [| done].
    rewrite (quiet_holders _ _ _ Hq1). rewrite elem_of_app in *. rewrite !elem_of_cons. tauto. }
  intros ms us v2 Hm2 I2 Hq2 Etus Hndus Haus. rewrite (Hmem v1) in Hm2 by quiets. specialize (Hms ms Hm2).
  assert (quiet (head_tokens h0 ++ E) v v2) as Hq02 by quiets.
  destruct (heads_bucket _ _ _ Hb) as (hs1 & hs2 & Eh & Eh').
  assert (mnthash (pgrp (f v2)) !! b = Some (l1 ++ h0 :: l2)) as Hb2.
  { unfold f. cbn. rewrite (q_pgrp _ _ _ Hq02). apply list_lookup_insert_eq. by eapply lookup_lt_Some. }
  apply wp_seq, wp_seq, wp_gets. rewrite Hb2. eapply wp_need; [done |]. apply wp_seq, (wp_need _ _ h0); [by apply list_lookup_middle |].
  apply wp_seq, wp_blind; [destruct (order =? MREPL); [apply blind_bind; [by apply blind_mountfree | intros _; apply blind_ret] | apply blind_ret] |].
  eapply (keep_mounts_wp order (mount h0) (to_tokens us ++ (Shr, new) :: (Shr, new) :: (Shr, from h0) :: E)).
  { eapply inv_permute; [| exact I2]. unfold head_tokens. cbn. solve_Permutation. }
  intros v3 ms1 I3 Hq3 Hnot.
  assert (forall c, (Shr, c) ∈ to_tokens us -> (Shr, c) ∈ holders v ++ head_tokens h0 ++ E) as Hus.
  { intros c (m & [= ->] & Hm)%list_elem_of_fmap. assert (to m ∈ to <$> tail ms) as Hin by (rewrite <- Etus; apply list_elem_of_fmap; by exists m).
    apply list_elem_of_fmap in Hin as (m' & -> & Hm'). apply Hms. destruct ms; [done | by right]. }
  assert (forall c, (Shr, c) ∈ to_tokens ms1 -> (Shr, c) ∈ head_tokens h0) as Hms1.
  { intros c Hc. right. unfold ms1 in Hc. destruct (order =? MREPL); [by apply not_elem_of_nil in Hc | done]. }
  set (h' := MkMhead (from h0) (stack order (mount h0) (nm :: us))).
  assert (MkMhead (from h0) (if order =? MAFTER then ms1 ++ nm :: us else nm :: us ++ ms1) = h') as ->.
  { unfold h', stack, ms1. destruct (Z.eqb_spec order MREPL) as [-> |]; [by rewrite app_nil_r | by destruct (order =? MAFTER)]. }
  assert (to_tokens (mount h') ≡ₚ to_tokens ms1 ++ (Shr, new) :: to_tokens us) as Eth.
  { unfold to_tokens, h'. cbn [mount]. rewrite (stack_perm order (mount h0)), fmap_app. cbn. by rewrite Etnm. }
  set (Eq := (Shr, from h0) :: to_tokens ms1 ++ to_tokens us ++ E).
  assert (quiet ((Shr, new) :: E) v v3) as Hq03 by quiets.
  destruct (q_frame _ _ _ Hq03 Shr new cn ltac:(held) Ecn) as (cn3 & E3 & Ec3 & _).
  apply wp_seq, wp_blind; [destruct (is_set flg MCREATE); [by apply blind_upd | apply blind_ret] |].
  eapply (create_flag_wp (is_set flg MCREATE) new ((Shr, new) :: Eq) Eq).
  { eapply inv_permute; [| exact I3]. unfold Eq. solve_Permutation. }
  { intros t. rewrite (quiet_holders _ _ _ Hq03). unfold Eq. rewrite elem_of_app, elem_of_cons, !elem_of_app. intros Hin. specialize (Hal t). rewrite !elem_of_app in Hal.
    assert (t = Shr \/ (t, new) ∈ holders v \/ (t, new) ∈ E) as Ht.
    { destruct Hin as [? | [[= -> _] | [H | [H | ?]]]]; auto; apply list_elem_of_fmap in H as (? & [= -> _] & _); by left. }
    destruct Ht as [-> | Ht]; [| tauto]. destruct Hin as [? | [[= Hf] | [H | [H | ?]]]]; [tauto | | apply Hms1 in H; tauto | | tauto].
    - apply Hal. right; left. unfold head_tokens. rewrite Hf. by left.
    - apply Hus in H. rewrite !elem_of_app in H. tauto. }
  { exact E3. }
  intros v4 cn4 I4 Hq4 E4 Ek4 Ef4. apply wp_seq, wp_put, wp_return.
  assert (<[length l1 := h']> (l1 ++ h0 :: l2) = l1 ++ h' :: l2) as Eins by (rewrite <- (Nat.add_0_r (length l1)), insert_app_r; done).
  match goal with |- Q _ ?x => replace x with (set_pgrp (with_bucket b (l1 ++ h' :: l2) (pgrp v4)) v4) end.
  2: { rewrite <- Eins. rewrite <- (with_bucket_twice b (l1 ++ h0 :: l2)). done. }
  unfold Eq in Hq4. assert (quiet E v v4) as Hq04 by quiets. pose proof (q_nmount _ _ _ Hq1) as N1. pose proof (q_nmount _ _ _ Hq2) as N2. pose proof (q_nmount _ _ _ Hq3) as N3. pose proof (q_nmount _ _ _ Hq4) as N4.
  assert (quiet ((Shr, from h0) :: E) v v4) as Hqf.
  { assert (quiet ((Shr, from h0) :: E) v v2) as Hqf2; [| quiets]. eapply quiet_sub; [| exact Hq02]. intros x. rewrite elem_of_cons, elem_of_app. intros [-> | ?]; [left; by left | by right]. }
  assert (entries v4 (mount h') = stack order (entries v (mount h0)) ((key cn, is_set flg MCREATE || is_set (flag cn) CCREATE) :: entries v (tail ms))) as Ent.
  { unfold entries. change (mount h') with (stack order (mount h0) (nm :: us)). rewrite stack_fmap. apply stack_eq; [intros Hor | cbn; f_equal].
    - apply list_fmap_ext. intros k m Hm%list_elem_of_lookup_2. specialize (Hnot Hor). subst v3. assert ((Shr, to m) ∈ to_tokens (mount h0)) as Ht by (apply list_elem_of_fmap; by exists m).
      assert (ms1 = mount h0) as Ems by (unfold ms1; by destruct (Z.eqb_spec order MREPL)). rewrite Ems in *.
      assert (quiet (to_tokens (mount h0)) v v4) as Hqm.
      { eapply (quiet_trans _ _ v2); [eapply quiet_sub; [| exact Hq02]; intros x Hx; apply elem_of_app; left; by right | eapply quiet_sub; [| exact Hq4]; tokens]. }
      eapply entry_quiet; [exact I | exact Hqm | | apply elem_of_app; by right]. apply elem_of_app; right. right. apply elem_of_app. left. by right.
    - rewrite Etnm. unfold entry_of, key_of, key_at. rewrite E4. cbn. rewrite Ek4, Ef4. unfold core in Ec3. unfold key. injection Ec3 as -> -> -> -> _. done.
    - assert (forall (cs : gmap Z Chan) l, (fun m => entry_of cs (to m)) <$> l = entry_of cs <$> (to <$> l)) as Ec by (intros cs l; by rewrite <- list_fmap_compose).
      rewrite !Ec, <- Etus. apply list_fmap_ext. intros k c (m & -> & Hm)%list_elem_of_lookup_2%list_elem_of_fmap.
      assert ((Shr, to m) ∈ to_tokens us) as Ht by (apply list_elem_of_fmap; by exists m).
      assert (quiet (to_tokens us) v2 v4) as Hqu by quiets.
      rewrite (entry_quiet _ _ _ _ Shr (to m) I2 Hqu) by (rewrite !elem_of_app; tauto).
      apply Hus in Ht. eapply entry_quiet; [exact I | exact Hq02 | | done]. rewrite !elem_of_app in *. rewrite elem_of_cons, elem_of_app. tauto. }
  assert (key_at (chans v4) (from h0) = key_at (chans v) (from h0)) as Ekf.
  { destruct Hfrom as (fc & Efc & _). eapply frame_key; [by apply (q_frame _ _ _ Hqf) | exists Shr; held | by exists fc]. }
  destruct (put_head ((Shr, new) :: E) v4 b l1 l2 h') as [I5 Et5].
  - eapply inv_permute; [| exact I4]. unfold head_tokens at 1, Eq. change (from h') with (from h0). change ((fun m => (Shr, to m)) <$> mount h') with (to_tokens (mount h')). rewrite Eth. solve_Permutation.
  - by rewrite (q_pgrp _ _ _ Hq04).
  - destruct Hfrom as (fc & Efc & Emh). destruct (q_frame _ _ _ Hqf Shr (from h0) fc ltac:(held) Efc) as (fc' & Efc' & Ecf & _). exists fc'. split; [done |].
    unfold MOUNTH in *. unfold core in Ecf. congruence.
  - rewrite (q_pgrp _ _ _ Hq04). intros h2 Hh2. rewrite (key_held _ _ _ _ Shr (from h2) I Hq04) by (eapply pg_holder; [by left | by apply from_token]).
    change (from h') with (from h0). rewrite Ekf. by apply Hkey.
  - unfold h', stack. cbn. destruct (order =? MREPL), (order =? MAFTER); try done. by destruct (mount h0).
  - change (mount h') with (stack order (mount h0) (nm :: us)). rewrite (stack_perm order (mount h0) (nm :: us)). rewrite fmap_app. cbn.
    apply NoDup_app. split_and!; [by destruct (order =? MREPL); [constructor |] | | apply NoDup_cons; split; [| done]].
    + intros a (m & -> & Hm)%list_elem_of_fmap Ha. assert (m ∈ mount h0) as Hm0 by (destruct (order =? MREPL); [by apply not_elem_of_nil in Hm | done]).
      destruct (Ha0 m Hm0) as [Hle _]. apply elem_of_cons in Ha as [Ha | (m' & Ha & Hm')%list_elem_of_fmap]; [lia |]. destruct (Haus m' Hm') as [? _]. lia.
    + intros (m' & Ha & Hm')%list_elem_of_fmap. destruct (Haus m' Hm') as [? _]. lia.
  - assert (forall m', m' ∈ (all_heads v4 ≫= mount) -> m' ∈ (all_heads v ≫= mount)) as Hall by (unfold all_heads; by rewrite (q_pgrp _ _ _ Hq04), (q_pgrps _ _ _ Hq04)).
    pose proof I as [_ S]. pose proof (s_nmount _ S) as Hold.
    intros m Hm%stack_elem. rewrite elem_of_cons in Hm. destruct Hm as [[-> | Hm] | [_ Hm]].
    + split_and!; [by rewrite Esnm | lia |]. intros m' Hm'%Hall%Hold. lia.
    + destruct (Haus m Hm) as [? ?]. split_and!; [done | lia |]. intros m' Hm'%Hall%Hold. lia.
    + destruct (Ha0 m Hm) as [? ?]. split_and!; [done | lia |]. intros m' Hm'%Hall. intros Heq. by apply (Hdis m m').
  - eapply HQ; [exact Hm2 | exact I5 |]. rewrite Et5, Ent. change (from h') with (from h0). unfold key_of. rewrite Ekf. f_equal. by eapply table_quiet.
Qed.

(** *** The group without a head *)

Lemma with_bucket_id b l g : mnthash g !! b = Some l -> with_bucket b l g = g.
Proof. intros H. unfold with_bucket. destruct g. cbn in *. by rewrite list_insert_id. Qed.
Lemma set_pgrp_id s : set_pgrp (pgrp s) s = s.
Proof. by destruct s. Qed.

(** A head is taken out: what it holds is held by the call. *)
Lemma take_head E s b l1 h l2 : Inv E s -> mnthash (pgrp s) !! b = Some (l1 ++ h :: l2) ->
  let v := set_pgrp (with_bucket b (l1 ++ l2) (pgrp s)) s in
  Inv (head_tokens h ++ E) v /\ set_pgrp (with_bucket b (l1 ++ h :: l2) (pgrp v)) v = s /\
  table v = delete (key_of (chans s) (from h)) (table s) /\ mnthash (pgrp v) !! b = Some (l1 ++ l2) /\
  (exists ch, chans v !! from h = Some ch /\ MOUNTH ch = b) /\
  (forall h', h' ∈ heads (pgrp v) -> key_at (chans v) (from h') <> key_at (chans v) (from h)) /\
  NoDup (addr <$> mount h) /\ (forall m, m ∈ mount h -> addr m <= nmount v /\ zlen (m_spec m) < NAMELEN) /\
  (forall m m', m ∈ mount h -> m' ∈ (all_heads v ≫= mount) -> addr m <> addr m').
Proof.
  intros I Hb v. pose proof (inv_table _ _ I) as T. pose proof (inv_addrs _ _ I) as Hna. pose proof I as [_ S].
  destruct (heads_bucket _ _ _ Hb) as (hs1 & hs2 & Eh & Eh'). specialize (Eh' (l1 ++ l2)).
  assert (h ∈ heads (pgrp s)) as Hh by (rewrite Eh, !elem_of_app, elem_of_cons; tauto).
  assert (h ∈ all_heads s) as Hha by (apply elem_of_app; by left).
  assert (exists A B, heads (pgrp s) = A ++ h :: B /\ heads (pgrp v) = A ++ B) as (A & B & E1 & E2).
  { exists (hs1 ++ l1), (l2 ++ hs2). change (pgrp v) with (with_bucket b (l1 ++ l2) (pgrp s)). rewrite Eh, Eh'. by rewrite <- !app_assoc. }
  pose proof (t_keys _ _ T) as Hnk. rewrite E1, fmap_app, fmap_cons in Hnk. apply NoDup_app in Hnk as (_ & Hk2 & Hk3). apply NoDup_cons in Hk3 as [Hk3 _].
  unfold all_heads in Hna. rewrite E1, !bind_app in Hna. cbn in Hna. rewrite !fmap_app in Hna.
  assert (forall m', m' ∈ (all_heads v ≫= mount) -> m' ∈ (A ≫= mount) \/ m' ∈ (B ≫= mount) \/ m' ∈ ((pgrps s ≫= heads) ≫= mount)) as Hall.
  { intros m'. unfold all_heads. rewrite E2, !bind_app, !elem_of_app. tauto. }
  rewrite <- !app_assoc in Hna. apply NoDup_app in Hna as (_ & Hd1 & Hna). apply NoDup_app in Hna as (Hnd & Hd2 & _).
  split_and!.
  - eapply (regroup E _ s b l1 [h] [] l2); [exact I | exact Hb | by intros ? ?%not_elem_of_nil | constructor | by intros ? ?%not_elem_of_nil | constructor | by intros ? ?%not_elem_of_nil |].
    cbn. by rewrite app_nil_r.
  - unfold v. cbn. rewrite with_bucket_twice, with_bucket_id by done. apply (set_pgrp_id s).
  - unfold table. rewrite E1, E2. change (chans v) with (chans s). apply rows_delete. rewrite <- E1. by apply table_keys.
  - cbn. apply list_lookup_insert_eq. by eapply lookup_lt_Some.
  - eapply (t_place _ _ T); [exact Hb |]. rewrite elem_of_app, elem_of_cons. tauto.
  - rewrite E2. change (chans v) with (chans s). intros h' [Hh' | Hh']%elem_of_app Ek.
    + apply (Hk2 (key_at (chans s) (from h'))); [apply list_elem_of_fmap; by exists h' | rewrite Ek; by left].
    + apply Hk3. rewrite <- Ek. apply list_elem_of_fmap. by exists h'.
  - exact Hnd.
  - intros m Hm. split; [|]; [| by apply (heads_ok _ _ _ I Hha)]. apply (s_nmount _ S). apply list_elem_of_bind. by exists h.
  - intros m m' Hm Hm' Ea. assert (addr m ∈ addr <$> mount h) as Ham by (apply list_elem_of_fmap; by exists m).
    destruct (Hall m' Hm') as [Hm2 | Hm2].
    + apply (Hd1 (addr m')); [apply list_elem_of_fmap; by exists m' | rewrite <- Ea; apply elem_of_app; by left].
    + apply (Hd2 _ Ham). rewrite Ea, !elem_of_app. destruct Hm2; [left | right]; apply list_elem_of_fmap; by exists m'.
Qed.

(** *** [cmount] *)

Definition creat (ch : Chan) : bool := is_set (flag ch) CCREATE.

Lemma entry_at s c ch : chans s !! c = Some ch -> entry_of (chans s) c = (key ch, creat ch).
Proof. intros E. unfold entry_of, key_of, key_at. by rewrite E. Qed.

(** A head that is made on the way has mounts that no channel points to yet. *)
Lemma members_more E s v b l h cn ms : Inv E s -> quiet [] s v -> mnthash (pgrp s) !! b = Some l ->
  (forall m, m ∈ mount h -> nmount s < addr m) -> members s cn = Some ms ->
  members (set_pgrp (with_bucket b (l ++ [h]) (pgrp v)) v) cn = Some ms.
Proof.
  intros [_ S] Hq Hb Hm. unfold members. destruct (mnt cn) as [p |]; [| done]. unfold all_heads. cbn [pgrp set_pgrp pgrps].
  rewrite (q_pgrp _ _ _ Hq), (q_pgrps _ _ _ Hq). destruct (heads_bucket _ _ _ Hb) as (hs1 & hs2 & Eh & Eh'). rewrite Eh'.
  intros Hms. pose proof (members_head s p ms) as Hmh. unfold all_heads in Hmh. destruct (Hmh Hms) as (h1 & pre & f & t & Hh1 & Em & -> & <-).
  assert (suffix (addr f) (mount h) = None) as Hno.
  { apply suffix_none. intros (m & E1 & Hin)%list_elem_of_fmap. specialize (Hm m Hin).
    assert (addr f <= nmount s); [| lia]. apply (s_nmount _ S). apply list_elem_of_bind. exists h1. split; [| done]. rewrite Em. apply elem_of_app. right. by left. }
  rewrite Eh in Hms. rewrite <- Hms. rewrite <- !app_assoc. rewrite !omap_app. cbn. by rewrite Hno.
Qed.


Definition bound (s : state) (cn co : Chan) (flg : Z) (s' : state) : Prop := forall ms, members s cn = Some ms ->
  table s' = bind (key cn, creat cn) (entries s (tail ms)) (key co, creat co) (Z.land flg MORDER) (is_set flg MCREATE) (table s).

Lemma cmount_old_wp new old flg spec cn co i l h E s (Q : Z -> state -> Prop) R :
  Inv ((Own, new) :: (Own, old) :: E) s -> chans s !! new = Some cn -> (members s cn = None -> st) -> zlen spec < NAMELEN ->
  mnthash (pgrp s) !! MOUNTH co = Some l -> l !! i = Some h -> key_at (chans s) (from h) = Some (key co) -> key cn <> key co ->
  (forall id s', Inv ((Shr, new) :: (Shr, old) :: E) s' -> bound s cn co flg s' -> Q id s') ->
  wp st (cmount_rest new flg spec cn (MOUNTH co) i) s Q R.
Proof.
  intros I Ecn Hst Hsp Hl Hi Hk Hne HQ. pose proof (lookup_lt_Some _ _ _ Hi) as Hlt.
  apply list_elem_of_split_length in Hi as (l1 & l2 & -> & ->). destruct (take_head _ _ _ _ _ _ I Hl) as (I1 & Es & Et & Hb & Hf & Hfr & Hnd & Ha & Hdis).
  set (v := set_pgrp (with_bucket (MOUNTH co) (l1 ++ l2) (pgrp s)) s) in *. rewrite <- Es.
  assert (key_of (chans v) (from h) = key co) as Ekh by (unfold key_of, v; cbn; by rewrite Hk).
  assert (h ∈ heads (pgrp s)) as Hh by (apply heads_elem; exists (MOUNTH co), (l1 ++ h :: l2); split; [done | apply elem_of_app; right; by left]).
  assert (table s !! key co = Some (entries v (mount h))) as Htl by (rewrite <- Ekh; exact (table_lookup s h _ I Hh)).
  eapply (cmount_rest_wp new flg spec cn (MOUNTH co) l1 h l2 ((Own, old) :: E) v); try done.
  - eapply inv_permute; [| exact I1]. solve_Permutation.
  - by rewrite Es.
  - intros id s' ms Hms I2 Et2. apply HQ.
    + eapply inv_permute; [apply perm_swap |]. apply inv_share. reorder I2.
    + intros ms' Hms'. rewrite Es, Hms' in Hms. injection Hms as <-. rewrite Et2, Ekh, Et. change (key_of (chans s) (from h)) with (key_of (chans v) (from h)). rewrite Ekh. unfold bind. cbn [fst snd].
      rewrite Htl, decide_False, insert_delete_eq by done. change (entries s (tail ms')) with (entries v (tail ms')). done.
Qed.

Lemma cmount_new_wp new old flg spec cn co l E s (Q : Z -> state -> Prop) R :
  Inv ((Own, new) :: (Own, old) :: E) s -> chans s !! new = Some cn -> (members s cn = None -> st) -> chans s !! old = Some co -> zlen spec < NAMELEN ->
  mnthash (pgrp s) !! MOUNTH co = Some l -> (forall h, h ∈ heads (pgrp s) -> key_at (chans s) (from h) <> Some (key co)) ->
  (forall id s', Inv ((Shr, new) :: (Shr, old) :: E) s' -> bound s cn co flg s' -> Q id s') ->
  wp st (malloc;; incref old;; set_bucket (MOUNTH co) (l ++ [MkMhead old []]);;
    (if negb (Z.land flg MORDER =? MREPL) then f ← newmount old 0 []; set_bucket (MOUNTH co) (l ++ [MkMhead old [f]]) else mret tt);;
    cmount_rest new flg spec cn (MOUNTH co) (length l)) s Q R.
Proof.
  intros I Ecn Hst Eco Hsp Hl Hno HQ. set (b := MOUNTH co). pose proof I as [_ S]. apply wp_seq, wp_malloc; [done |].
  assert (Inv ((Shr, old) :: (Own, new) :: E) s) as Is by (apply inv_share; reorder I).
  apply wp_seq. eapply (incref_wp st Shr Shr); [exact Is | held | done | done | done |]. intros s1 I1 Hq1.
  apply wp_seq, wp_put.
  assert (forall v f0, Inv ((Own, new) :: (Shr, old) :: to_tokens f0 ++ (Shr, old) :: E) v -> quiet ((Shr, old) :: (Own, new) :: E) s v ->
    (forall m, m ∈ f0 -> nmount s < addr m <= nmount v /\ to m = old /\ m_spec m = []) ->
    (f0 = [] \/ exists m, f0 = [m]) -> (Z.land flg MORDER <> MREPL -> f0 <> []) ->
    wp st (cmount_rest new flg spec cn b (length l)) (set_pgrp (with_bucket b (l ++ [MkMhead old f0]) (pgrp v)) v) Q R) as Hrest.
  { intros v f0 Iv Hqv Hf0 Hone Hor.
    destruct (q_frame _ _ _ Hqv Own new cn ltac:(held) Ecn) as (cn' & Ecnv & _ & Ecn'). rewrite (Ecn' eq_refl) in Ecnv. clear Ecn' cn'.
    destruct (q_frame _ _ _ Hqv Shr old co ltac:(held) Eco) as (co' & Ecov & Ecore & _). unfold core in Ecore. injection Ecore as Ep Ety Edv Efl _.
    assert (key co' = key co) as Ekey by (unfold key; congruence).
    assert (key_at (chans v) old = Some (key co)) as Ekold by (unfold key_at; rewrite Ecov; cbn; congruence).
    assert (table v = table s) as Etab by (by eapply table_quiet).
    assert (table s !! key co = None) as Htn by (by eapply table_none).
    assert (forall ms', members s cn = Some ms' -> members (set_pgrp (with_bucket b (l ++ [MkMhead old f0]) (pgrp v)) v) cn = Some ms') as Hmore.
    { intros ms' Hms'. eapply members_more; [exact I | eapply quiet_sub; [| exact Hqv]; by intros ? ?%not_elem_of_nil | exact Hl | intros m Hm; by destruct (Hf0 m Hm) as ([? _] & _) | done]. }
    eapply (cmount_rest_wp new flg spec cn b l (MkMhead old f0) [] ((Shr, old) :: E) v); cbn [from mount]; try done.
    - intros Hno'. apply Hst. destruct (members s cn) as [ms' |] eqn:Em; [| done]. rewrite (Hmore ms') in Hno'; done.
    - rewrite app_nil_r. by rewrite (q_pgrp _ _ _ Hqv).
    - exists co'. split; [done |]. unfold b, MOUNTH. by rewrite Ep.
    - rewrite (q_pgrp _ _ _ Hqv), Ekold. intros h Hh. rewrite (key_held _ _ _ _ Shr (from h) I Hqv) by (eapply pg_holder; [by left | by apply from_token]). by apply Hno.
    - destruct Hone as [-> | [m ->]]; [constructor | apply NoDup_singleton].
    - intros m Hm. destruct (Hf0 m Hm) as (? & _ & ->). split; [lia | done].
    - intros m m' Hm Hm'. destruct (Hf0 m Hm) as (? & _). unfold all_heads in Hm'. rewrite (q_pgrp _ _ _ Hqv), (q_pgrps _ _ _ Hqv) in Hm'.
      apply (s_nmount _ S) in Hm'. lia.
    - intros id s' ms Hms I2 Et2. apply HQ; [done |]. intros ms' Hms'.
      rewrite (Hmore ms' Hms') in Hms. injection Hms as <-. rewrite Et2, Etab. unfold key_of. rewrite Ekold. cbn [default]. unfold bind. cbn [fst snd]. rewrite Htn.
      f_equal. assert (entries v (tail ms') = entries s (tail ms')) as ->.
      { apply list_fmap_ext. intros k m Hm%list_elem_of_lookup_2. assert ((Shr, to m) ∈ holders s) as Hh by (eapply members_holders; [done |]; destruct ms'; [done | by right]).
        eapply entry_quiet; [exact I | exact Hqv | by apply held_shr | by apply held_shr]. }
      apply stack_eq; [| done]. intros Ho. specialize (Hor Ho). destruct Hone as [-> | [m ->]]; [done |]. destruct (Hf0 m ltac:(by left)) as (_ & Etm & _).
      unfold entries. cbn. rewrite Etm, (entry_at _ _ _ Ecov). unfold creat. by rewrite Ekey, Efl. }
  destruct (Z.eqb_spec (Z.land flg MORDER) MREPL) as [Ho | Ho]; cbn [negb].
  - apply wp_seq, wp_return. apply Hrest; [cbn; eapply inv_permute; [| exact I1]; solve_Permutation | quiets | by intros m ?%not_elem_of_nil | by left | done].
  - pose proof (outside_pgrp (with_bucket b (l ++ [MkMhead old []]))) as Ho1.
    apply wp_seq, wp_seq. apply (wp_blind st (fun s => set_pgrp (with_bucket b (l ++ [MkMhead old []]) (pgrp s)) s)); [by apply blind_newmount |].
    eapply (newmount_wp Shr); [exact I1 | held | done | done | done |]. intros f s2 I2 Hq2 Haf Etf Esf. apply wp_put.
    pose proof (q_nmount _ _ _ Hq1) as Hn1.
    match goal with |- wp _ _ ?x _ _ => replace x with (set_pgrp (with_bucket b (l ++ [MkMhead old [f]]) (pgrp s2)) s2) by (by rewrite <- (with_bucket_twice b (l ++ [MkMhead old []]))) end.
    apply Hrest; [| quiets | | right; by exists f | done].
    + cbn. rewrite Etf. eapply inv_permute; [| exact I2]. solve_Permutation.
    + intros m ->%list_elem_of_singleton. split_and!; [lia | lia | done | done].
Qed.

(** [cmount] as the map sees it. *)
Lemma cmount_wp new old flg spec cn co E s (Q : Z -> state -> Prop) (R : err -> state -> Prop) :
  Inv ((Own, new) :: (Own, old) :: E) s -> chans s !! new = Some cn -> (members s cn = None -> st) -> chans s !! old = Some co -> zlen spec < NAMELEN ->
  (forall id s', Inv ((Shr, new) :: (Shr, old) :: E) s' -> bound s cn co flg s' ->
     is_set (Z.lxor (path (qid co)) (path (qid cn))) CHDIR = false -> is_set (path (qid co)) CHDIR = true \/ Z.land flg MORDER = MREPL -> Q id s') ->
  (is_set (Z.lxor (path (qid co)) (path (qid cn))) CHDIR = true \/ (is_set (path (qid co)) CHDIR = false /\ Z.land flg MORDER <> MREPL) -> R Emount s) ->
  wp st (cmount new old flg spec) s Q R.
Proof.
  intros I Ecn Hst Eco Hsp HQ HR. unfold cmount. apply wp_seq, (wp_chan _ _ cn); [done |]. apply wp_seq, (wp_chan _ _ co); [done |].
  destruct (is_set (Z.lxor _ _) CHDIR) eqn:Ex; [apply wp_raise, HR; by left |]. cbv zeta.
  destruct (negb (is_set (path (qid co)) CHDIR) && negb (Z.land flg MORDER =? MREPL)) eqn:Ed.
  { apply andb_true_iff in Ed as [Hd%negb_true_iff Ho%negb_true_iff]. apply Z.eqb_neq in Ho. apply wp_raise, HR. by right. }
  assert (is_set (path (qid co)) CHDIR = true \/ Z.land flg MORDER = MREPL) as Hdir.
  { apply andb_false_iff in Ed as [Hd%negb_false_iff | Ho%negb_false_iff]; [by left | right; by apply Z.eqb_eq]. }
  apply wp_seq. eapply bucket_wp; [exact I |]. intros l Hl. apply wp_seq, wp_gets.
  pose proof (find_head_spec (chans s) (pgrp s) co l (inv_table _ _ I) Hl) as Hf. destruct (position _ l) as [i |].
  - destruct Hf as (h & Hi & Hh & Hk & _). apply wp_seq, wp_seq, (wp_need _ _ h); [done |].
    pose proof Hk as Hk'. unfold key_at in Hk'. destruct (chans s !! from h) as [cf |] eqn:Ecf; [| done]. injection Hk' as Ekf.
    apply wp_seq, (wp_chan _ _ cf); [done |]. destruct (eqchan cf cn true) eqn:Ee.
    + destruct (t_full _ _ (inv_table _ _ I) h Hh) as [Hne _]. destruct (mount h) as [| f t]; [done |].
      apply wp_seq, (wp_need _ _ f); [done |]. apply wp_return, wp_return. apply HQ; [| | done | done].
      * apply inv_share in I. eapply inv_permute; [apply perm_swap |]. apply inv_share. reorder I.
      * intros ms _. assert (is_chan (chans s) cn (from h) = true) as Hc by (unfold is_chan; by rewrite Ecf). rewrite is_chan_spec, Hk in Hc. assert (key cn = key co) as Hkk by congruence.
        assert (key_of (chans s) (from h) = key co) as Ekh by (unfold key_of; by rewrite Hk).
        pose proof (table_lookup s h _ I Hh) as Htl. rewrite Ekh in Htl. unfold bind. cbn [fst]. rewrite Htl. by rewrite decide_True by congruence.
    + apply wp_return. eapply cmount_old_wp; [exact I | exact Ecn | done | done | exact Hl | exact Hi | exact Hk | | intros id s' ? ?; by apply HQ].
      intros Hkk. assert (is_chan (chans s) cn (from h) = true) as Hc by (apply is_chan_spec; congruence). unfold is_chan in Hc. rewrite Ecf in Hc. congruence.
  - destruct Hf as [Hno _]. apply wp_seq.
    pose proof (cmount_new_wp new old flg spec cn co l E s Q R I Ecn Hst Eco Hsp Hl Hno ltac:(intros id s' ? ?; by apply HQ)) as H.
    revert H. unfold wp, mbind, m_bind. destruct (malloc s) as [? s1 | |]; [| done | done]. destruct (incref old s1) as [? s2 | |]; [| done | done].
    destruct (set_bucket _ _ s2) as [? s3 | |]; [| done | done]. destruct (negb (Z.land flg MORDER =? MREPL)); [| done].
    destruct (newmount old 0 [] s3) as [f s4 | |]; [| done | done]. by destruct (set_bucket _ _ s4).
Qed.

(** *** [cunmount] *)

(** The mount of a file is taken away, with the mount point if it is the last. *)
Definition unbind (k : Z * Z * Z) (j : nat) (T : gmap (Z * Z * Z) (list entry)) : gmap (Z * Z * Z) (list entry) :=
  match T !! k with
  | Some es => match delete j es with [] => delete k T | es => <[k := es]> T end
  | None => T
  end.

(** What is looked for on a mount point. *)
Definition unmounts (s : state) (cm : Chan) (mounted : option Chan) (T' : gmap (Z * Z * Z) (list entry)) : Prop :=
  match mounted with
  | None => is_Some (table s !! key cm) /\ T' = delete (key cm) (table s)
  | Some c => exists j, position (mounted_as (chans s) c) (mounts_on (chans s) (heads (pgrp s)) (key cm)) = Some j /\ T' = unbind (key cm) j (table s)
  end.

Lemma delete_split {A} j (l : list A) x : l !! j = Some x -> exists l1 l2, l = l1 ++ x :: l2 /\ delete j l = l1 ++ l2.
Proof. intros (l1 & l2 & -> & ->)%list_elem_of_split_length. exists l1, l2. split; [done |]. apply delete_middle. Qed.

Lemma cunmount_one_wp h j f cm E s (Q : unit -> state -> Prop) R l i :
  Inv E s -> mnthash (pgrp s) !! MOUNTH cm = Some l -> l !! i = Some h -> key_at (chans s) (from h) = Some (key cm) -> mount h !! j = Some f ->
  (forall s', Inv E s' -> table s' = unbind (key cm) j (table s) -> Q tt s') ->
  wp st (let ms := remove_at j (mount h) in
    set_bucket (MOUNTH cm) (<[i := MkMhead (from h) ms]> l);;
    mountfree [f];;
    match ms with [] => set_bucket (MOUNTH cm) (remove_at i l);; cclose (from h) | _ => mret tt end) s Q R.
Proof.
  intros I Hl Hi Hk Hj HQ. assert (h ∈ heads (pgrp s)) as Hh by (apply heads_elem; exists (MOUNTH cm), l; split; [done | by eapply list_elem_of_lookup_2]).
  assert (key_of (chans s) (from h) = key cm) as Ekh by (unfold key_of; by rewrite Hk).
  pose proof (table_lookup s h _ I Hh) as Htl. rewrite Ekh in Htl.
  destruct (delete_split _ _ _ Hj) as (m1 & m2 & Em & Ed). unfold remove_at. rewrite Ed.
  assert (unbind (key cm) j (table s) = match entries s (m1 ++ m2) with [] => delete (key cm) (table s) | es => <[key cm := es]> (table s) end) as Eu.
  { unfold unbind. rewrite Htl. rewrite <- list_fmap_delete, Ed. done. }
  apply list_elem_of_split_length in Hi as (l1 & l2 & -> & ->). set (b := MOUNTH cm) in *.
  destruct (take_head _ _ _ _ _ _ I Hl) as (I1 & Es & Et & Hb & Hf & Hfr & Hnd & Ha & Hdis). rewrite Ekh in Et.
  set (v := set_pgrp (with_bucket b (l1 ++ l2) (pgrp s)) s) in *. set (h' := MkMhead (from h) (m1 ++ m2)).
  assert (<[length l1 := h']> (l1 ++ h :: l2) = l1 ++ h' :: l2) as Eins by (rewrite <- (Nat.add_0_r (length l1)), insert_app_r; done).
  assert (delete (length l1) (l1 ++ h :: l2) = l1 ++ l2) as Edel by apply delete_middle.
  cbv zeta. rewrite Eins, Edel. apply wp_seq, wp_put.
  assert (set_pgrp (with_bucket b (l1 ++ h' :: l2) (pgrp s)) s = set_pgrp (with_bucket b (l1 ++ h' :: l2) (pgrp v)) v) as Ev.
  { rewrite <- (with_bucket_twice b (l1 ++ l2) (l1 ++ h' :: l2)) at 1. done. }
  change (wp st (mountfree [f];; match m1 ++ m2 with [] => set_bucket b (l1 ++ l2);; cclose (from h) | _ => mret tt end) (set_pgrp (with_bucket b (l1 ++ h' :: l2) (pgrp s)) s) Q R). rewrite Ev.
  assert (Inv (head_tokens h' ++ (Shr, to f) :: E) v) as I2.
  { eapply inv_permute; [| exact I1]. unfold head_tokens. rewrite Em. cbn. rewrite !fmap_app. cbn. solve_Permutation. }
  destruct (m1 ++ m2) as [| m ms] eqn:Ems.
  - apply wp_seq. apply (wp_blind st (fun s => set_pgrp (with_bucket b (l1 ++ h' :: l2) (pgrp s)) s)); [apply blind_mountfree, outside_pgrp |].
    eapply (mountfree_wp [f] ((Shr, from h) :: E)); [eapply inv_permute; [| exact I2]; cbn; solve_Permutation |]. intros v1 I3 Hq1. apply wp_seq, wp_put.
    match goal with |- wp _ _ ?x _ _ => replace x with v1 end.
    2: { transitivity (set_pgrp (with_bucket b (l1 ++ l2) (with_bucket b (l1 ++ h' :: l2) (pgrp v1))) v1); [| done].
         rewrite with_bucket_twice, with_bucket_id; [by rewrite set_pgrp_id | by rewrite (q_pgrp _ _ _ Hq1)]. }
    eapply cclose_wp; [exact I3 |]. intros v2 I4 Hq2. apply HQ; [done |]. rewrite Eu. cbn.
    rewrite (table_quiet _ _ _ _ I3 Hq2), (table_quiet _ _ _ _ I2 Hq1). done.
  - destruct (put_head ((Shr, to f) :: E) v b l1 l2 h') as [I3 Et3]; try done.
    + unfold h'. cbn [mount]. rewrite <- Ems. rewrite Em, fmap_app in Hnd. cbn in Hnd. rewrite fmap_app. apply NoDup_app in Hnd as (N1 & N2 & N3).
      apply NoDup_cons in N3 as [N4 N5]. apply NoDup_app. split_and!; [done | | done]. intros a Ha1 Ha2. apply (N2 a Ha1). by right.
    + intros m' Hm'. assert (m' ∈ mount h) as Hmh. { rewrite Em. unfold h' in Hm'. cbn [mount] in Hm'. rewrite <- Ems in Hm'. rewrite !elem_of_app, ?elem_of_cons in *. tauto. }
      destruct (Ha m' Hmh) as [? ?]. split_and!; [done | done |]. intros m2' Hm2' Heq. by apply (Hdis m' m2').
    + apply wp_seq. eapply (mountfree_wp [f] E); [exact I3 |]. intros v2 I4 Hq2. apply wp_return, HQ; [done |].
      rewrite Eu. rewrite (table_quiet _ _ _ _ I3 Hq2), Et3, Et. change (from h') with (from h). change (chans v) with (chans s). rewrite Ekh, insert_delete_eq. done.
Qed.

Lemma cunmount_wp mnt_ mounted cm oc E s (Q : unit -> state -> Prop) (R : err -> state -> Prop) :
  Inv E s -> chans s !! mnt_ = Some cm -> match mounted, oc with Some c, Some ch => chans s !! c = Some ch | None, None => True | _, _ => False end ->
  (forall s', Inv E s' -> unmounts s cm oc (table s') -> Q tt s') ->
  (forall e, e = Eunmount /\ table s !! key cm = None \/ e = Eunion /\ (exists c, oc = Some c /\ position (mounted_as (chans s) c) (mounts_on (chans s) (heads (pgrp s)) (key cm)) = None) -> R e s) ->
  wp st (cunmount mnt_ mounted) s Q R.
Proof.
  intros I Ecm Hoc HQ HR. apply wp_seq, (wp_chan _ _ cm); [done |]. cbv zeta. apply wp_seq. eapply bucket_wp; [exact I |]. intros l Hl.
  apply wp_seq, wp_gets. pose proof (find_head_spec (chans s) (pgrp s) cm l (inv_table _ _ I) Hl) as Hf. destruct (position (fun m => is_chan _ cm _) l) as [i |].
  2: { apply wp_raise, HR. left. split; [done |]. destruct Hf as [Hf _]. by eapply table_none. }
  destruct Hf as (h & Hi & Hh & Hk & Hmo). apply wp_seq, (wp_need _ _ h); [done |].
  assert (key_of (chans s) (from h) = key cm) as Ekh by (unfold key_of; by rewrite Hk).
  pose proof (table_lookup s h _ I Hh) as Htl. rewrite Ekh in Htl.
  destruct mounted as [c |], oc as [ch |]; try done.
  - apply wp_seq, (wp_chan _ _ ch); [done |]. apply wp_seq, wp_gets. rewrite Hmo in *. pose proof (position_spec (mounted_as (chans s) ch) (mount h)) as Hp.
    destruct (position (mounted_as (chans s) ch) (mount h)) as [j |] eqn:Ej.
    2: { apply wp_raise, HR. right. split; [done |]. by exists ch. }
    destruct Hp as (f & Hj & _). apply wp_seq, (wp_need _ _ f); [done |].
    eapply (cunmount_one_wp h j f cm E); try done. intros s' I' Et. apply HQ; [done |]. exists j. rewrite Hmo. done.
  - apply list_elem_of_split_length in Hi as (l1 & l2 & -> & ->). destruct (take_head _ _ _ _ _ _ I Hl) as (I1 & _ & Et & _). rewrite Ekh in Et.
    unfold remove_at. rewrite delete_middle. apply wp_seq, wp_put.
    set (v := set_pgrp (with_bucket (MOUNTH cm) (l1 ++ l2) (pgrp s)) s) in *.
    change (wp st (mountfree (mount h);; cclose (from h)) v Q R).
    apply wp_seq. eapply (mountfree_wp (mount h) ((Shr, from h) :: E)); [eapply inv_permute; [| exact I1]; unfold head_tokens; cbn; solve_Permutation |].
    intros v1 I2 Hq1. eapply cclose_wp; [exact I2 |]. intros v2 I3 Hq2. apply HQ; [done |]. split; [by exists (entries s (mount h)) |].
    by rewrite (table_quiet _ _ _ _ I2 Hq2), (table_quiet _ _ _ _ I1 Hq1).
Qed.
End Mount.
