(* ===== verification/NsGroup.v ===== *)
(** * The name space: groups

    Groups are copied, left and closed; mounts that are made keep their channels. *)

From S2P Require Import Prelude Styx Rune Name Ns NsInv NsOps NsWalk NsNamec NsFd NsTable NsMount.
Import Ns.

#[local] Open Scope Z_scope.

Section Group.
Context {D : Devices} {L : Laws D}.
Context (st : Prop).

(** ** Copies *)

Lemma table_names s s' : same_names s s' -> pgrp s' = pgrp s /\ table s' = table s.
Proof. intros (E0 & E & I & Hq). split; [by rewrite (q_pgrp _ _ _ Hq) | by rewrite (table_quiet _ _ _ _ I Hq)]. Qed.

(** [k] makes something that holds [tok] and has mounts at [ads]. *)
Lemma mapM_copies {A B} (k : A -> M B) (P : A -> B -> Prop) (tok : B -> list token) (ads : B -> list Z) H xs E s (Q : list B -> state -> Prop) R :
  (forall x E s (Q : B -> state -> Prop), x ∈ xs -> Inv E s -> holders s = H ->
    (forall y s', Inv (tok y ++ E) s' -> quiet E s s' -> P x y -> NoDup (ads y) -> (forall a, a ∈ ads y -> nmount s < a <= nmount s') -> Q y s') -> wp st (k x) s Q R) ->
  Inv E s -> holders s = H ->
  (forall ys s', Inv ((ys ≫= tok) ++ E) s' -> quiet E s s' -> Forall2 P xs ys -> NoDup (ys ≫= ads) ->
    (forall a, a ∈ ys ≫= ads -> nmount s < a <= nmount s') -> Q ys s') ->
  wp st (mapM k xs) s Q R.
Proof.
  revert E s Q. induction xs as [| x xs IH]; intros E s Q Hk I EH HQ; cbn [mapM].
  - apply wp_return, HQ; try done; [quiets | constructor | by intros a ?%not_elem_of_nil].
  - apply wp_seq. apply (Hk x E s); [by left | done | done |]. intros y s1 I1 Hq1 HP Hnd Ha. apply wp_seq.
    eapply (IH (tok y ++ E) s1); [intros x' E' s' Q' Hx'; apply Hk; by right | exact I1 | by rewrite (quiet_holders _ _ _ Hq1) |].
    intros ys s2 I2 Hq2 HPs Hnds Has. pose proof (q_nmount _ _ _ Hq1) as N1. pose proof (q_nmount _ _ _ Hq2) as N2. apply wp_return, HQ.
    + eapply inv_permute; [| exact I2]. cbn. rewrite <- !app_assoc. rewrite !app_assoc. by rewrite (Permutation_app_comm (tok y)).
    + quiets.
    + by constructor.
    + cbn. apply NoDup_app. split_and!; [done | | done]. intros a Hy Hys. specialize (Ha a Hy). specialize (Has a Hys). lia.
    + cbn. intros a [Hy | Hys]%elem_of_app; [specialize (Ha a Hy); lia | specialize (Has a Hys); lia].
Qed.

Definition same_mount (m m' : Mount) : Prop := to m' = to m /\ m_spec m' = m_spec m.
Definition same_head (h h' : Mhead) : Prop := from h' = from h /\ Forall2 same_mount (mount h) (mount h').

Lemma copy_mount_wp first order m E s (Q : Mount -> state -> Prop) R : Inv E s -> (Shr, to m) ∈ holders s ->
  (forall m' s', Inv ([(Shr, to m')] ++ E) s' -> quiet E s s' -> same_mount m m' -> NoDup [addr m'] -> (forall a, a ∈ [addr m'] -> nmount s < a <= nmount s') -> Q m' s') ->
  wp st (copy_mount first order m) s Q R.
Proof.
  intros I Hto HQ. pose proof I as [_ S]. apply wp_seq, wp_malloc; [done |]. apply wp_seq.
  eapply (incref_wp st Shr Shr); [exact I | by apply held_shr | done | done | done |]. intros s1 I1 Hq1.
  apply wp_seq, wp_gets, wp_seq, wp_gets, wp_seq, wp_put. apply wp_return. pose proof (q_nmount _ _ _ Hq1) as Hn.
  apply HQ; try done; cbn; [apply ids_inv; [lia | done] | | apply NoDup_singleton | intros a ->%list_elem_of_singleton; cbn; lia].
  destruct Hq1 as [A1 A2 A3 A4 A5 A6 A7]. split; try done. cbn. lia.
Qed.

Lemma copy_head_wp first order h E s (Q : Mhead -> state -> Prop) R : Inv E s -> (forall x, x ∈ head_tokens h -> x ∈ holders s) ->
  (forall h' s', Inv (head_tokens h' ++ E) s' -> quiet E s s' -> same_head h h' -> NoDup (addr <$> mount h') ->
    (forall a, a ∈ addr <$> mount h' -> nmount s < a <= nmount s') -> Q h' s') ->
  wp st (copy_head first order h) s Q R.
Proof.
  intros I Hh HQ. pose proof I as [_ S]. apply wp_seq, wp_malloc; [done |]. apply wp_seq.
  eapply (incref_wp st Shr Shr); [exact I | apply held_shr, Hh; by left | done | done | done |]. intros s1 I1 Hq1. apply wp_seq.
  eapply (mapM_copies _ same_mount (fun m => [(Shr, to m)]) (fun m => [addr m]) (holders s)); [| exact I1 | by eapply quiet_holders |].
  - intros m E' s' Q' Hm I' EH HQ'. eapply copy_mount_wp; [exact I' | | done]. rewrite EH. apply Hh. right. apply list_elem_of_fmap. by exists m.
  - intros ms s2 I2 Hq2 Hms Hnd Ha. apply wp_return.
    assert (forall l : list Mount, l ≫= (fun m => [addr m]) = addr <$> l) as Ea by (intros l; induction l as [| m l IH]; [done | cbn; by rewrite IH]).
    assert (forall l : list Mount, l ≫= (fun m => [(Shr, to m)]) = to_tokens l) as Et by (intros l; induction l as [| m l IH]; [done | cbn; by rewrite IH]).
    rewrite Ea in *. rewrite Et in *. pose proof (q_nmount _ _ _ Hq1). apply HQ; [| quiets | done | done |].
    + eapply inv_permute; [| exact I2]. unfold head_tokens. cbn [from mount]. change ((fun m => (Shr, to m)) <$> ms) with (to_tokens ms). solve_Permutation.
    + intros a Hin. specialize (Ha a Hin). lia.
Qed.

Lemma same_mounts_to ms ms' : Forall2 same_mount ms ms' -> to <$> ms' = to <$> ms /\ (forall m', m' ∈ ms' -> exists m, m ∈ ms /\ m_spec m' = m_spec m) /\ length ms' = length ms.
Proof.
  induction 1 as [| m m' ms ms' [Et Es] _ (IH1 & IH2 & IH3)]; [split_and!; try done; by intros ? ?%not_elem_of_nil |].
  split_and!; cbn; [by rewrite Et, IH1 | | by rewrite IH3]. intros x [-> | Hx]%elem_of_cons; [exists m; split; [by left | done] |].
  destruct (IH2 x Hx) as (y & Hy & E). exists y. split; [by right | done].
Qed.

(** The copy of a table is a table, of the same files. *)
Lemma copied_heads (bs bs' : list (list Mhead)) : Forall2 (Forall2 same_head) bs bs' -> Forall2 same_head (concat bs) (concat bs').
Proof. induction 1 as [| l l' bs bs' Hl _ IH]; cbn; [constructor | by apply Forall2_app]. Qed.

Lemma copied_table cs g bs sl d nd : Table cs g -> Forall2 (Forall2 same_head) (mnthash g) bs ->
  Table cs (MkPgrp bs sl d nd) /\ rows cs (concat bs) = rows cs (heads g).
Proof.
  intros [T1 T2 T3 T4] Hb. pose proof (copied_heads _ _ Hb) as Hh. split; [split |].
  - cbn. by rewrite <- (Forall2_length _ _ _ Hb).
  - intros h' Hh'. apply list_elem_of_lookup in Hh' as [i Hi]. destruct (Forall2_lookup_r _ _ _ _ _ Hh Hi) as (h & Hi' & Ef & Hm).
    destruct (T2 h) as [Hne Hsp]; [by eapply list_elem_of_lookup_2 |]. destruct (same_mounts_to _ _ Hm) as (_ & Hs & Hl).
    split; [intros E; apply Hne; rewrite E in Hl; by destruct (mount h) |]. apply Forall_forall. intros m' Hm'. destruct (Hs m' Hm') as (m & Hin & ->).
    rewrite Forall_forall in Hsp. by apply Hsp.
  - intros b l' h' Hl' Hh'. destruct (Forall2_lookup_r _ _ _ _ _ Hb Hl') as (l & Hl & Hll). apply list_elem_of_lookup in Hh' as [i Hi].
    destruct (Forall2_lookup_r _ _ _ _ _ Hll Hi) as (h & Hi' & Ef & _). rewrite Ef. eapply T3; [exact Hl | by eapply list_elem_of_lookup_2].
  - replace ((fun h => key_at cs (from h)) <$> heads (MkPgrp bs sl d nd)) with ((fun h => key_at cs (from h)) <$> heads g); [done |].
    change (heads (MkPgrp bs sl d nd)) with (concat bs). change (heads g) with (concat (mnthash g)).
    induction Hh as [| h h' hs hs' [Ef _] _ IH]; [done |]. cbn. by rewrite Ef, IH.
  - unfold rows. f_equal. change (heads g) with (concat (mnthash g)). induction Hh as [| h h' hs hs' [Ef Hm] _ IH]; [done |]. cbn. rewrite IH. f_equal.
    unfold row. rewrite Ef. f_equal. destruct (same_mounts_to _ _ Hm) as (Et & _).
    change (fun m => entry_of cs (to m)) with (entry_of cs ∘ to). by rewrite !list_fmap_compose, Et.
Qed.

Definition clones : Prop := forall ds ch e, (d_clone ds ch).2 <> inl e.

(** A group that can become that of the process. *)
Definition fresh_group (n0 : Z) (g : Pgrp) (s : state) : Prop :=
  Table (chans s) g /\ NoDup (addr <$> (heads g ≫= mount)) /\ forall m, m ∈ (heads g ≫= mount) -> n0 < addr m <= nmount s.

Lemma clone_shared_wp c E s Q R : clones -> Inv E s -> (Shr, c) ∈ holders s ->
  (forall nc s', Inv ((Shr, nc) :: E) s' -> quiet E s s' -> Q nc s') -> wp st (cclone c) s Q R.
Proof.
  intros Hc I Hin HQ. eapply (cclone_wp _ Shr); [exact I | by apply held_shr | done | | intros ch e s1 _ He; by apply Hc in He].
  intros ch nc ch' s1 _ I1 Hq1 _ _ _ _ _ _ _. apply HQ; [by apply inv_share | done].
Qed.

Lemma bind_bind_concat {A B} (f : A -> list B) (ls : list (list A)) : ls ≫= (fun l => l ≫= f) = concat ls ≫= f.
Proof. induction ls as [| l ls IH]; [done |]. cbn. by rewrite IH, bind_app. Qed.

Lemma pgrpcpy_wp E s (Q : Pgrp -> state -> Prop) R : clones -> Inv E s ->
  (forall g s', Inv (pg_tokens g ++ E) s' -> quiet E s s' -> fresh_group (nmount s) g s' -> rows (chans s') (heads g) = table s -> nodevs g = nodevs (pgrp s) -> Q g s') ->
  wp st (pgrpcpy (pgrp s)) s Q R.
Proof.
  intros Hc I HQ. apply wp_seq, wp_gets. cbv zeta. apply wp_seq.
  eapply (mapM_copies _ (Forall2 same_head) (fun l => l ≫= head_tokens) (fun l => l ≫= (fun h => addr <$> mount h)) (holders s)); [| exact I | done |].
  - intros l E' s1 Q' Hl I1 EH HQ'. eapply (mapM_copies _ same_head head_tokens (fun h => addr <$> mount h) (holders s)); [| exact I1 | exact EH |].
    + intros h E2 s2 Q2 Hh I2 EH2 HQ2. eapply copy_head_wp; [exact I2 | | done]. intros x Hx. rewrite EH2. eapply pg_holder; [by left |]. do 2 right.
      apply list_elem_of_bind. exists h. split; [done |]. apply heads_elem. apply list_elem_of_lookup in Hl as [b Hb]. by exists b, l.
    + intros hs s2 I2 Hq2 Hf Hnd Ha. by apply HQ'.
  - intros bs s1 I1 Hq1 Hbs Hnd Ha. rewrite !bind_bind_concat in *.
    apply wp_seq, wp_gets, wp_seq, wp_put. set (s1' := set_ids (nmount s1) _ s1).
    assert (Inv ((concat bs ≫= head_tokens) ++ E) s1') as I1' by (apply ids_inv; [lia | done]).
    assert (quiet E s s1') as Hq1' by (destruct Hq1 as [A1 A2 A3 A4 A5 A6 A7]; by split).
    assert (forall sx, quiet E s sx -> (Shr, p_slash (pgrp s)) ∈ holders sx /\ (Shr, p_dot (pgrp s)) ∈ holders sx) as Hsd.
    { intros sx Hqx. rewrite (quiet_holders _ _ _ Hqx). split; (eapply pg_holder; [by left |]); [by left | right; by left]. }
    apply wp_seq. eapply clone_shared_wp; [done | exact I1' | by apply Hsd |]. intros sl s2 I2 Hq2. apply wp_seq.
    eapply clone_shared_wp; [done | exact I2 | apply Hsd; quiets |]. intros d s3 I3 Hq3. apply wp_return.
    assert (quiet E s s3) as Hq by quiets. pose proof (inv_table _ _ I3) as T3. rewrite (q_pgrp _ _ _ Hq) in T3.
    destruct (copied_table _ _ bs sl d (nodevs (pgrp s)) T3 Hbs) as [T4 Er].
    apply HQ; [| done | | | done].
    + eapply inv_permute; [| exact I3]. unfold pg_tokens. cbn. change (heads _) with (concat bs). solve_Permutation.
    + split_and!; [exact T4 | |].
      * change (heads _) with (concat bs). replace (addr <$> (concat bs ≫= mount)) with (concat bs ≫= (fun h => addr <$> mount h)); [done |].
        clear. induction (concat bs) as [| h hs IH]; [done |]. cbn. by rewrite fmap_app, IH.
      * change (heads _) with (concat bs). intros m (h & Hm & Hh)%list_elem_of_bind. pose proof (q_nmount _ _ _ Hq2) as N2. pose proof (q_nmount _ _ _ Hq3) as N3.
        assert (nmount s1' = nmount s1) as N1 by done.
        specialize (Ha (addr m)). destruct Ha as [? ?]; [| lia]. apply list_elem_of_bind. exists h. split; [apply list_elem_of_fmap; by exists m | done].
    + change (heads _) with (concat bs). rewrite Er. rewrite <- (q_pgrp _ _ _ Hq). by eapply table_quiet.
Qed.

(** ** The process goes to another group *)

Lemma blind_closepgrp f p : Outside f -> blind f (closepgrp p).
Proof.
  intros Ho. apply blind_bind; [apply blind_forM; intros h; apply blind_bind; [by apply blind_cclose | intros _; by apply blind_mountfree] |].
  intros _. apply blind_bind; [by apply blind_cclose | intros _; by apply blind_cclose].
Qed.

Lemma closepgrp_wp p E s Q R : Inv (pg_tokens p ++ E) s -> (forall s', Inv E s' -> quiet E s s' -> Q tt s') -> wp st (closepgrp p) s Q R.
Proof.
  intros I HQ. unfold closepgrp. unfold pg_tokens in I.
  assert (forall hs s1 (Q' : unit -> state -> Prop), Inv ((hs ≫= head_tokens) ++ (Shr, p_slash p) :: (Shr, p_dot p) :: E) s1 ->
    (forall s', Inv ((Shr, p_slash p) :: (Shr, p_dot p) :: E) s' -> quiet E s1 s' -> Q' tt s') ->
    wp st (forM hs (fun f => cclose (from f);; mountfree (mount f))) s1 Q' R) as Hl.
  { intros hs. induction hs as [| h hs IH]; intros s1 Q' I1 HQ'; [apply wp_return, HQ'; [done | quiets] |]. apply wp_seq, wp_seq.
    eapply cclose_wp; [exact I1 |]. intros s2 I2 Hq2. eapply (mountfree_wp st (mount h) ((hs ≫= head_tokens) ++ (Shr, p_slash p) :: (Shr, p_dot p) :: E)).
    - eapply inv_permute; [| exact I2]. change ((fun m => (Shr, to m)) <$> mount h) with (to_tokens (mount h)). solve_Permutation.
    - intros s3 I3 Hq3. apply IH; [done |]. intros s4 I4 Hq4. apply HQ'; [done |]. eapply (quiet_trans _ _ s3); [| done]. quiets. }
  apply wp_seq, Hl; [eapply inv_permute; [| exact I]; cbn; solve_Permutation |]. intros s1 I1 Hq1. apply wp_seq.
  eapply cclose_wp; [exact I1 |]. intros s2 I2 Hq2. eapply cclose_wp; [exact I2 |]. intros s3 I3 Hq3. apply HQ; [done | quiets].
Qed.

Lemma enter_pgrp_wp shared g E s (Q : unit -> state -> Prop) R : Inv (pg_tokens g ++ E) s -> Table (chans s) g -> NoDup (addr <$> (heads g ≫= mount)) ->
  (forall m, m ∈ (heads g ≫= mount) -> addr m <= nmount s /\ forall m', m' ∈ (all_heads s ≫= mount) -> addr m' <> addr m) ->
  (forall s', Inv E s' -> pgrp s' = g -> table s' = rows (chans s) (heads g) -> Q tt s') ->
  wp st (leave_pgrp shared;; modify (set_pgrp g)) s Q R.
Proof.
  intros I Ht Hnd Hg HQ. pose proof (inv_addrs _ _ I) as Hna. pose proof I as [G [S1 S2 S3 S4 S5]]. unfold all_heads in *. rewrite bind_app in *.
  assert (forall l, (forall m, m ∈ l -> m ∈ (heads (pgrp s) ≫= mount) ++ ((pgrps s ≫= heads) ≫= mount)) -> NoDup (addr <$> l) -> NoDup (addr <$> ((heads g ≫= mount) ++ l))) as Hadd.
  { intros l Hl Hndl. rewrite fmap_app. apply NoDup_app. split_and!; [done | | done].
    intros a (m & -> & Hm)%list_elem_of_fmap (m' & Ea & Hm')%list_elem_of_fmap. destruct (Hg m Hm) as [_ Hne]. by apply (Hne m' (Hl m' Hm')). }
  rewrite fmap_app in Hna. apply NoDup_app in Hna as (N1 & N2 & N3). apply wp_seq, wp_seq, wp_gets. destruct shared.
  - apply wp_put, wp_put. apply HQ; [| done | done]. split.
    + eapply good_perm; [| exact G]. change (holders (set_pgrp g (set_pgrps (pgrps s ++ [pgrp s]) s)) ++ E) with ((pg_tokens g ++ ((pgrps s ++ [pgrp s]) ≫= pg_tokens) ++ fg_tokens (fgrp s) ++ (fgrps s ≫= fg_tokens)) ++ E). unfold holders.
      rewrite bind_app. cbn [mbind list_bind]. rewrite app_nil_r.
      generalize (pg_tokens g), (pg_tokens (pgrp s)), (pgrps s ≫= pg_tokens), (fg_tokens (fgrp s)), (fgrps s ≫= fg_tokens). intros A B C D' F. solve_Permutation.
    + split; try done.
      * cbn. apply Forall_cons in S2 as [S2 S2']. apply Forall_cons. split; [done |]. apply Forall_app. split; [done | by apply Forall_singleton].
      * unfold all_heads. cbn. rewrite (bind_app mount). apply Hadd.
        -- intros m. rewrite bind_app, bind_app. cbn. rewrite app_nil_r, !elem_of_app. tauto.
        -- rewrite bind_app, bind_app. cbn. rewrite app_nil_r, fmap_app. apply NoDup_app. split_and!; [done | | done]. intros a Ha Hb. by apply (N2 a Hb).
      * unfold all_heads. cbn. intros m. rewrite !bind_app. cbn. rewrite app_nil_r, !elem_of_app. intros [Hm | [Hm | Hm]]; [by apply Hg | |]; apply S4; rewrite elem_of_app; tauto.
  - pose proof (outside_pgrp (fun _ => g)) as Ho.
    apply (wp_conseq st _ _ (fun _ s' => Q tt (set_pgrp g s')) _ (fun _ _ => False)); [| by intros [] s' HQ' | done].
    apply (wp_blind st (fun s => set_pgrp g s) (closepgrp (pgrp s)) s (fun _ s' => Q tt s') (fun _ _ => False)); [by apply blind_closepgrp |].
    assert (Inv (pg_tokens (pgrp s) ++ E) (set_pgrp g s)) as I1.
    { eapply inv_pgrp; [exact I | done | | | rewrite !app_assoc; apply Permutation_app_tail, Permutation_app_comm].
      - rewrite bind_app. apply Hadd; [intros m Hm; apply elem_of_app; by right | done].
      - intros m Hm. by apply Hg. }
    eapply closepgrp_wp; [exact I1 |]. intros s1 I2 Hq1. apply HQ; [done | by rewrite (q_pgrp _ _ _ Hq1) |]. by rewrite (table_quiet _ _ _ _ I1 Hq1).
Qed.

Lemma pctl_ns_wp flags shared E s (Q : unit -> state -> Prop) R : clones -> Inv E s ->
  (forall s', Inv E s' -> (is_set flags Sys_NEWNS = true -> table s' = ∅ /\ nodevs (pgrp s') = false) ->
    (is_set flags Sys_NEWNS = false -> table s' = table s /\ nodevs (pgrp s') = nodevs (pgrp s)) -> Q tt s') ->
  wp st (pctl_ns flags shared) s Q R.
Proof.
  intros Hc I HQ. pose proof I as [_ S]. unfold pctl_ns. destruct (is_set flags Sys_NEWNS) eqn:En; [| destruct (is_set flags Sys_FORKNS)].
  - apply wp_seq, wp_malloc; [done |]. apply wp_seq, wp_gets.
    assert (forall sx, quiet E s sx -> (Shr, p_dot (pgrp s)) ∈ holders sx) as Hd.
    { intros sx Hqx. rewrite (quiet_holders _ _ _ Hqx). eapply pg_holder; [by left | right; by left]. }
    apply wp_seq. eapply clone_shared_wp; [done | exact I | apply Hd; quiets |]. intros d s1 I1 Hq1. apply wp_seq.
    eapply clone_shared_wp; [done | exact I1 | apply Hd; quiets |]. intros sl s2 I2 Hq2.
    assert (heads (MkPgrp (replicate MNTHASH []) sl d false) = []) as Eh by done.
    eapply (enter_pgrp_wp shared (MkPgrp (replicate MNTHASH []) sl d false) E s2).
    + exact I2.
    + split; [done | | |]; rewrite ?Eh; [by intros ? ?%not_elem_of_nil | | constructor].
      intros b l h Hb%list_elem_of_lookup_2 Hh. change (l ∈ replicate MNTHASH (@nil Mhead)) in Hb. apply elem_of_replicate in Hb as [-> _]. by apply not_elem_of_nil in Hh.
    + rewrite Eh. constructor.
    + rewrite Eh. by intros ? ?%not_elem_of_nil.
    + intros s3 I3 Ep Et. apply HQ; [done | intros _ | done]. rewrite Et, Ep. done.
  - apply wp_seq, wp_malloc; [done |]. apply wp_seq, wp_gets, wp_seq. eapply pgrpcpy_wp; [done | exact I |]. intros g s1 I1 Hq1 (Ht & Hnd & Ha) Er End.
    eapply enter_pgrp_wp; [exact I1 | done | done | |].
    + intros m Hm. destruct (Ha m Hm) as [? ?]. split; [done |]. intros m' Hm'. unfold all_heads in Hm'. rewrite (q_pgrp _ _ _ Hq1), (q_pgrps _ _ _ Hq1) in Hm'.
      apply (s_nmount _ S) in Hm'. lia.
    + intros s2 I2 Ep Et. apply HQ; [done | done | intros _]. by rewrite Et, Ep.
  - apply wp_return, HQ; done.
Qed.
(** ** Tables of descriptors *)

Lemma used_rest f : Fds f -> length (used_fds f) = S (Z.to_nat (maxfd f)) /\ drop (S (Z.to_nat (maxfd f))) (fd f) = replicate (NFD - S (Z.to_nat (maxfd f))) None.
Proof.
  intros [Hl Hm Hu]. unfold used_fds. rewrite length_take. split; [lia |]. symmetry. apply replicate_as_elem_of. rewrite length_drop. split; [lia |].
  intros o (i & Hi)%list_elem_of_lookup. rewrite lookup_drop in Hi. destruct o as [c |]; [| done]. specialize (Hu _ _ Hi). lia.
Qed.

Lemma no_tokens n : replicate n None ≫= fd_token = [].
Proof. induction n as [| n IH]; [done |]. exact IH. Qed.

Lemma fg_used f : Fds f -> fg_tokens f = used_fds f ≫= fd_token.
Proof.
  intros Hf. destruct (used_rest f Hf) as [_ Hd]. unfold fg_tokens, used_fds. rewrite omap_tokens.
  rewrite <- (take_drop (S (Z.to_nat (maxfd f))) (fd f)) at 1. by rewrite bind_app, Hd, no_tokens, app_nil_r.
Qed.

Lemma dupfgrp_wp E s (Q : Fgrp -> state -> Prop) R : Inv E s ->
  (forall fg s', Inv (fg_tokens fg ++ E) s' -> quiet E s s' -> fg = fgrp s -> Q fg s') -> wp st (dupfgrp (fgrp s)) s Q R.
Proof.
  intros I HQ. pose proof I as [_ S]. pose proof (inv_fds _ _ I) as Hf. destruct (used_rest _ Hf) as [Hl Hd].
  apply wp_seq, wp_seq, wp_malloc; [done |]. apply wp_return. apply wp_seq.
  assert (forall os s1 E1 (Q' : unit -> state -> Prop), Inv E1 s1 -> (forall x, x ∈ os ≫= fd_token -> x ∈ holders s1) ->
    (forall s', Inv ((os ≫= fd_token) ++ E1) s' -> quiet E1 s1 s' -> Q' tt s') ->
    wp st (forM os (fun c => match c with Some c => incref c | None => mret tt end)) s1 Q' R) as Hall.
  { intros os. induction os as [| o os IH]; intros s1 E1 Q' I1 Hin HQ'; [apply wp_return, HQ'; [done | quiets] |]. apply wp_seq. destruct o as [c |].
    - eapply (incref_wp st Any Any); [exact I1 | apply held_shr, Hin; by left | done | done | done |]. intros s2 I2 Hq2.
      apply (IH s2 ((Any, c) :: E1)); [done | intros x Hx; rewrite (quiet_holders _ _ _ Hq2); apply Hin; by right |]. intros s3 I3 Hq3.
      apply HQ'; [| quiets]. eapply inv_permute; [| exact I3]. cbn. solve_Permutation.
    - apply wp_return. by apply (IH s1 E1). }
  apply (Hall _ s E); [done | |].
  - intros x Hx. unfold holders. rewrite (fg_used _ Hf), !elem_of_app. auto.
  - intros s1 I1 Hq1. apply wp_return. apply HQ; [| done |].
    + rewrite Hl. cbn [fd]. rewrite drop_replicate, <- Hd. unfold used_fds at 1. rewrite take_drop. change (fg_tokens (MkFgrp (fd (fgrp s)) (maxfd (fgrp s)))) with (fg_tokens (fgrp s)). by rewrite fg_used.
    + rewrite Hl. cbn [fd]. rewrite drop_replicate, <- Hd. unfold used_fds. rewrite take_drop. by destruct (fgrp s).
Qed.

Lemma blind_closefgrp f g : Outside f -> blind f (closefgrp g).
Proof. intros Ho. apply blind_forM. intros [c |]; [by apply blind_cclose | apply blind_ret]. Qed.

Lemma closefgrp_wp f E s Q R : Fds f -> Inv (fg_tokens f ++ E) s -> (forall s', Inv E s' -> quiet E s s' -> Q tt s') -> wp st (closefgrp f) s Q R.
Proof.
  intros Hf I HQ. rewrite (fg_used _ Hf) in I. unfold closefgrp. revert s I HQ. induction (used_fds f) as [| o os IH]; intros s I HQ; [apply wp_return, HQ; [done | quiets] |].
  apply wp_seq. eapply cclose_opt_wp; [eapply inv_permute; [| exact I]; cbn; by rewrite <- app_assoc |]. intros s1 I1 Hq1. apply IH; [done |].
  intros s2 I2 Hq2. apply HQ; [done |]. eapply (quiet_trans _ _ s1); [| done]. eapply quiet_sub; [| exact Hq1]. intros x Hx. apply elem_of_app. by right.
Qed.

(** The process goes to another table. *)
Lemma enter_fgrp_wp (shared : bool) f E s (Q : unit -> state -> Prop) R : Inv (fg_tokens f ++ E) s -> Fds f ->
  (forall s', Inv E s' -> fgrp s' = f -> pgrp s' = pgrp s -> table s' = table s -> fgrps s' = fgrps s ++ (if shared then [fgrp s] else []) -> Q tt s') -> wp st (leave_fgrp shared;; modify (set_fgrp f)) s Q R.
Proof.
  intros I Hf HQ. pose proof (inv_fds _ _ I) as Hfs. apply wp_seq, wp_seq, wp_gets. destruct shared.
  - apply wp_put, wp_put. apply HQ; try done. destruct I as [G [S1 S2 S3 S4 S5]]. split; [| split; try done].
    + eapply good_perm; [| exact G]. change (holders (set_fgrp f (set_fgrps (fgrps s ++ [fgrp s]) s)) ++ E) with
        ((pg_tokens (pgrp s) ++ (pgrps s ≫= pg_tokens) ++ fg_tokens f ++ ((fgrps s ++ [fgrp s]) ≫= fg_tokens)) ++ E). unfold holders.
      rewrite bind_app. cbn [mbind list_bind]. rewrite app_nil_r.
      generalize (pg_tokens (pgrp s)), (pgrps s ≫= pg_tokens), (fg_tokens (fgrp s)), (fgrps s ≫= fg_tokens), (fg_tokens f). intros. solve_Permutation.
    + cbn. apply Forall_cons. split; [done |]. apply Forall_app. apply Forall_cons in S5 as [? ?]. split; [done | by apply Forall_singleton].
  - apply (wp_conseq st _ _ (fun _ s' => Q tt (set_fgrp f s')) _ (fun _ _ => False)); [| by intros [] s' HQ' | done].
    apply (wp_blind st (set_fgrp f) (closefgrp (fgrp s)) s (fun _ s' => Q tt s') (fun _ _ => False)); [apply blind_closefgrp, _ |].
    assert (Inv (fg_tokens (fgrp s) ++ E) (set_fgrp f s)) as I1.
    { eapply inv_fgrp; [exact I | done |]. unfold fg_tokens. rewrite !omap_tokens, !app_assoc. apply Permutation_app_tail, Permutation_app_comm. }
    eapply closefgrp_wp; [done | exact I1 |]. intros s1 I2 Hq1. apply HQ; [done | by rewrite (q_fgrp _ _ _ Hq1) | by rewrite (q_pgrp _ _ _ Hq1) | |].
    + by rewrite (table_quiet _ _ _ _ I1 Hq1).
    + rewrite app_nil_r. by rewrite (q_fgrps _ _ _ Hq1).
Qed.

Lemma fd_at_insert f n o m x : 0 <= n < Z.of_nat (length (fd f)) -> fd_at (MkFgrp (<[Z.to_nat n := o]> (fd f)) m) x = if decide (x = n) then o else fd_at f x.
Proof.
  intros Hn. unfold fd_at. cbn [fd]. destruct (decide (x = n)) as [-> |].
  - destruct (Z.ltb_spec n 0); [lia |]. rewrite list_lookup_insert_eq by lia. by destruct o.
  - destruct (Z.ltb_spec x 0); [done |]. by rewrite list_lookup_insert_ne by lia.
Qed.

(** What is kept of a table: the descriptors listed, which are open. *)
Definition kept (f g : Fgrp) (ns : list Z) : Prop := forall n, fd_at g n = (if decide (n ∈ ns) then fd_at f n else None).

Lemma keep_fds_wp movefd ns nfg E s (Q : Fgrp -> state -> Prop) R : NoDup (movefd ++ ns) -> (forall n, n ∈ movefd -> fd_at (fgrp s) n <> None) ->
  Fds nfg -> kept (fgrp s) nfg ns -> Inv (fg_tokens nfg ++ E) s ->
  (forall g s', Inv (fg_tokens g ++ E) s' -> quiet E s s' -> Fds g -> kept (fgrp s) g (movefd ++ ns) -> Q g s') ->
  wp st (keep_fds (fgrp s) movefd nfg) s Q R.
Proof.
  intros Hnd Hopen Hn Hk I HQ. remember (fgrp s) as f eqn:Ef.
  assert (forall x, x ∈ fg_tokens f -> x ∈ holders s) as Hfh by (intros x Hx; subst f; unfold holders; rewrite !elem_of_app; auto).
  pose proof (inv_fds _ _ I) as [Hl Hm Hu]. rewrite <- Ef in *. clear Ef.
  revert ns nfg s Hnd Hn Hk I Hfh HQ. induction movefd as [| n movefd IH]; intros ns nfg s Hnd Hn Hk I Hfh HQ; [apply wp_return, HQ; try done; quiets |]. cbn [keep_fds].
  destruct (fd_at f n) as [c |] eqn:En; [| by destruct (Hopen n ltac:(by left))]. pose proof En as [Hn0 Ei]%fd_at_some. destruct (Z.leb_spec 0 n); [| lia]. cbn [orb].
  apply wp_seq, (wp_need _ _ c); [done |]. apply wp_seq. cbn in Hnd. apply NoDup_cons in Hnd as [Hnot Hnd]. rewrite elem_of_app in Hnot.
  assert ((Any, c) ∈ fg_tokens f) as Hc by (unfold fg_tokens; rewrite omap_tokens; apply list_elem_of_bind; exists (Some c); split; [by left | by eapply list_elem_of_lookup_2]).
  eapply (incref_wp st Any Any); [exact I | by apply held_shr, Hfh | done | done | done |]. intros s1 I1 Hq1. destruct Hn as [Nl Nm Nu].
  pose proof (lookup_lt_Some _ _ _ Ei) as Hil. pose proof (Hk n) as Hkn. rewrite decide_False in Hkn by tauto.
  assert (fd nfg !! Z.to_nat n = Some None) as Eo.
  { destruct (lookup_lt_is_Some_2 (fd nfg) (Z.to_nat n) ltac:(lia)) as [[c' |] Eo]; [| done]. assert (fd_at nfg n = Some c') by (by apply fd_at_some). congruence. }
  apply (IH ltac:(intros x Hx; apply Hopen; by right) (n :: ns)).
  - by rewrite <- Permutation_middle, NoDup_cons, elem_of_app.
  - split; cbn; [by rewrite length_insert | lia |]. intros j c' [[<- _] | [_ Hj]]%list_lookup_insert_Some; [lia |]. specialize (Nu j c' Hj). lia.
  - intros x. rewrite (fd_at_insert nfg n (Some c)) by lia. destruct (decide (x = n)) as [-> | Hx]; [by rewrite decide_True by left |].
    rewrite Hk. apply decide_ext. rewrite elem_of_cons. tauto.
  - eapply inv_permute; [| exact I1]. unfold fg_tokens. rewrite !omap_tokens. cbn [fd]. pose proof (fd_insert _ _ _ (Some c) Eo) as Hp. cbn in Hp. rewrite app_nil_r in Hp.
    rewrite Hp. solve_Permutation.
  - intros x Hx. rewrite (quiet_holders _ _ _ Hq1). auto.
  - intros g s2 I2 Hq2 Hg Hkg. apply HQ; [done | quiets | done |]. intros x. rewrite (Hkg x). apply decide_ext. rewrite !elem_of_app, !elem_of_cons. tauto.
Qed.

Definition movable (flags : Z) (f : Fgrp) (movefd : list Z) : Prop :=
  is_set flags Sys_NEWFD = true -> NoDup movefd /\ forall n, n ∈ movefd -> fd_at f n <> None.

Lemma closes_wp ns E s (Q : unit -> state -> Prop) R : Inv E s ->
  (forall s', Inv E s' -> pgrp s' = pgrp s -> table s' = table s -> fgrps s' = fgrps s -> without (fgrp s) (fgrp s') ns -> Q tt s') ->
  wp st (forM ns (fun n => kclose n;; mret tt)) s Q R.
Proof.
  revert s. induction ns as [| n ns IH]; intros s I HQ.
  { by apply wp_return, HQ. }
  apply wp_seq, wp_seq. eapply kclose_wp; [exact I |].
  intros r s1 I1 Hs Hw1. pose proof (table_names _ _ Hs) as [E1 E2]. destruct Hs as (E0 & E' & _ & Hq). apply wp_return, IH; [done |]. intros s2 I2 E3 E4 E5 Hw2.
  apply HQ; [done | congruence | congruence | by rewrite E5, (q_fgrps _ _ _ Hq) |].
  intros j. rewrite (Hw2 j), (Hw1 j). destruct (decide (j ∈ ns)), (decide (j ∈ [n])), (decide (j ∈ n :: ns)); try done; exfalso; set_solver.
Qed.

(** The group that the process leaves, if others are in it: what was listed is
    closed there, where the descriptors are forked. *)
Definition leaves (flags : Z) (movefd : list Z) (f g : Fgrp) : Prop :=
  if is_set flags Sys_NEWFD then g = f else without f g movefd.

Lemma pctl_fd_wp flags movefd (shared : bool) E s (Q : unit -> state -> Prop) R : movable flags (fgrp s) movefd -> Inv E s ->
  (forall s', Inv E s' -> pgrp s' = pgrp s -> table s' = table s ->
    (is_set flags Sys_NEWFD = true -> kept (fgrp s) (fgrp s') movefd) ->
    (is_set flags Sys_NEWFD = false -> is_set flags Sys_FORKFD = true -> fgrp s' = fgrp s) ->
    (is_set flags Sys_NEWFD = false -> is_set flags Sys_FORKFD = false -> s' = s) ->
    (is_set flags Sys_NEWFD || is_set flags Sys_FORKFD = true ->
      exists g, leaves flags movefd (fgrp s) g /\ fgrps s' = fgrps s ++ (if shared then [g] else [])) -> Q tt s') ->
  wp st (pctl_fd flags movefd shared) s Q R.
Proof.
  intros Hmv I HQ. pose proof I as [_ S]. unfold pctl_fd, leaves in *. destruct (is_set flags Sys_NEWFD) eqn:En; [| destruct (is_set flags Sys_FORKFD) eqn:Ef].
  - destruct (Hmv En) as [Hnd Hopen]. apply wp_seq, wp_gets, wp_seq, wp_seq, wp_malloc; [done |]. apply wp_return, wp_seq.
    eapply (keep_fds_wp movefd [] (MkFgrp (replicate NFD None) 0) E); [by rewrite app_nil_r | done | | | exact I |].
    + split; [done | done |]. intros i c Hi%list_elem_of_lookup_2. apply elem_of_replicate in Hi as [[=] _].
    + intros n. unfold fd_at. cbn [fd]. destruct (n <? 0); [done |]. destruct (decide _) as [H | _]; [by apply not_elem_of_nil in H |].
      destruct (replicate NFD None !! Z.to_nat n) as [[c |] |] eqn:Ei; try done. apply list_elem_of_lookup_2, elem_of_replicate in Ei as [[=] _].
    + intros g s1 I1 Hq1 Hg Hk. rewrite app_nil_r in Hk. eapply enter_fgrp_wp; [exact I1 | done |]. intros s2 I2 E1 E2 E3 E4.
      apply HQ; [done | by rewrite E2, (q_pgrp _ _ _ Hq1) | by rewrite E3, (table_quiet _ _ _ _ I Hq1) | by rewrite E1 | done | done |].
      intros _. exists (fgrp s). by rewrite E4, (q_fgrps _ _ _ Hq1), (q_fgrp _ _ _ Hq1).
  - apply wp_seq, wp_gets, wp_seq. eapply dupfgrp_wp; [exact I |]. intros g s1 I1 Hq1 ->. apply wp_seq. eapply closes_wp; [exact I1 |].
    intros s2 I2 E1 E2 E3 Hw. eapply enter_fgrp_wp; [exact I2 | by eapply inv_fds |]. intros s3 I3 E4 E5 E6 E7.
    apply HQ; [done | by rewrite E5, E1, (q_pgrp _ _ _ Hq1) | by rewrite E6, E2, (table_quiet _ _ _ _ I Hq1) | done | done | done |].
    intros _. exists (fgrp s2). rewrite (q_fgrp _ _ _ Hq1) in Hw. split; [done |]. by rewrite E7, E3, (q_fgrps _ _ _ Hq1).
  - by apply wp_return, HQ.
Qed.

(** A descriptor that is to be kept and is not open. *)
Lemma keep_fds_traps f movefd nfg s : 0 <= maxfd f -> (forall n c, fd_at f n = Some c -> is_Some (chans s !! c)) ->
  Exists (fun n => fd_at f n = None) movefd -> keep_fds f movefd nfg s = Trap Overrun.
Proof.
  intros Hm. revert nfg s. induction movefd as [| n movefd IH]; intros nfg s Hc Hx; [by apply Exists_nil in Hx |]. cbn [keep_fds].
  assert ((0 <=? n) || (n <? maxfd f) = true) as -> by (destruct (Z.leb_spec 0 n), (Z.ltb_spec n (maxfd f)); done || lia).
  destruct (fd_at f n) as [c |] eqn:En; [| done]. apply Exists_cons in Hx as [Hx | Hx]; [congruence |].
  destruct (Hc n c En) as [ch Ech]. unfold incref, upd, chan, put, modify, mbind, m_bind, need, mret, m_ret. rewrite Ech. apply IH; [| done].
  intros n' c' H'. cbn. destruct (Hc n' c' H') as [ch' E']. destruct (decide (c' = c)) as [-> |]; [by rewrite lookup_insert_eq | by rewrite lookup_insert_ne].
Qed.

Lemma sys_pctl_wp flags movefd shared_fd shared_ns E s (Q : unit -> state -> Prop) R : movable flags (fgrp s) movefd -> clones -> Inv E s ->
  (forall s', Inv E s' -> table s' = (if is_set flags Sys_NEWNS then ∅ else table s) ->
    nodevs (pgrp s') = is_set flags Sys_NODEVS || (negb (is_set flags Sys_NEWNS) && nodevs (pgrp s)) -> Q tt s') ->
  wp st (Sys_pctl flags movefd shared_fd shared_ns) s Q R.
Proof.
  intros Hmv Hc I HQ. apply wp_seq. eapply pctl_fd_wp; [done | exact I |]. intros s1 I1 Ep Et _ _ _ _. apply wp_seq.
  eapply pctl_ns_wp; [done | exact I1 |]. intros s2 I2 Hnew Hold.
  assert (table s2 = (if is_set flags Sys_NEWNS then ∅ else table s) /\ nodevs (pgrp s2) = negb (is_set flags Sys_NEWNS) && nodevs (pgrp s)) as [E1 E2].
  { destruct (is_set flags Sys_NEWNS); [by apply Hnew |]. destruct (Hold eq_refl) as [-> ->]. by rewrite Ep, Et. }
  destruct (is_set flags Sys_NODEVS); [| by apply wp_return, HQ].
  apply wp_put. apply HQ; [| exact E1 | done]. pose proof I2 as [_ [_ [T _]%Forall_cons S3 S4 _]]. unfold all_heads in S3. eapply inv_pgrp; [exact I2 | | exact S3 | | done].
  - by destruct T.
  - intros m Hm. apply S4. unfold all_heads. rewrite bind_app. apply elem_of_app. by left.
Qed.
End Group.
