(* ===== verification/NsCalls.v ===== *)
(** * The name space: system calls

    The calls that change the name space, and every run of the calls of a
    process: the invariant. *)

From S2P Require Import Prelude Styx Rune Name Ns NsInv NsOps NsWalk NsNamec NsFd NsTable NsMount NsGroup.
Import Ns.

#[local] Open Scope Z_scope.

Section Calls.
Context {D : Devices} {L : Laws D}.
Context (st : Prop).

(** [dot] is another channel. *)
Lemma inv_dot E s c : Inv ((Shr, c) :: E) s ->
  Inv ((Shr, p_dot (pgrp s)) :: E) (set_pgrp (MkPgrp (mnthash (pgrp s)) (p_slash (pgrp s)) c (nodevs (pgrp s))) s).
Proof.
  intros I. pose proof I as [_ [_ [T _]%Forall_cons S3 S4 _]]. unfold all_heads in S3. eapply inv_pgrp; [exact I | | exact S3 | |].
  - by destruct T.
  - intros m Hm. apply S4. unfold all_heads. rewrite bind_app. apply elem_of_app. by left.
  - unfold pg_tokens. cbn. change (heads _) with (heads (pgrp s)). solve_Permutation.
Qed.

(** The old directory is closed before the new one is set. *)
Lemma kchdir_wp p E s (Q : Z -> state -> Prop) R : good_path p -> Inv E s ->
  (forall r s', Inv E s' -> table s' = table s -> Q r s') -> wp st (kchdir p) s Q R.
Proof.
  intros Hp I HQ. apply call_wp, wp_seq. eapply namec_wp; [done | exact I | | intros e s1 I1 Hq1; apply HQ; [done | by eapply table_quiet]].
  intros c s1 I1%inv_share Hq1 _. apply wp_seq, wp_gets, wp_seq.
  set (f := fun s => set_pgrp (MkPgrp (mnthash (pgrp s)) (p_slash (pgrp s)) c (nodevs (pgrp s))) s).
  apply (wp_conseq st _ _ (fun _ s' => Q 0 (f s')) _ (fun _ _ => False)); [| intros [] s' HQ'; by apply wp_seq, wp_put, wp_return | done].
  assert (Outside f) as Ho by exact (outside_pgrp (fun g => MkPgrp (mnthash g) (p_slash g) c (nodevs g))).
  apply (wp_blind st f (cclose (p_dot (pgrp s1))) s1 (fun _ s' => Q 0 s') (fun _ _ => False)); [by apply blind_cclose |].
  pose proof (inv_dot _ _ _ I1) as I2. eapply cclose_wp; [exact I2 |]. intros s3 I3 Hq3. apply HQ; [done |].
  rewrite (table_quiet _ _ _ _ I2 Hq3). change (table s1 = table s). by eapply table_quiet.
Qed.

(** A channel that is shared may come to the call alone. *)
Lemma bindmount_wp c old flg spec E s (Q : Z -> state -> Prop) (R : err -> state -> Prop) : good_path old -> zlen spec < NAMELEN -> Inv ((Own, c) :: E) s -> fine st s c ->
  (forall r s', Inv ((Shr, c) :: E) s' -> Q r s') -> (forall e s', Inv ((Own, c) :: E) s' -> R e s') -> wp st (bindmount c old flg spec) s Q R.
Proof.
  intros Hp Hsp I Hf HQ HR. unfold bindmount. destruct (_ || _); [by apply wp_raise, HR |]. apply wp_seq.
  eapply namec_wp; [done | exact I | | intros e s1 I1 _; by apply HR]. intros c1 s1 I1 Hq1 _. cbn [tag_of] in I1.
  destruct (inv_get _ _ Own c I1 ltac:(held)) as (cn & Ecn & _). destruct (inv_get _ _ Own c1 I1 ltac:(held)) as (co & Eco & _).
  apply wp_seq, (keep_wp _ Own _ ((Own, c) :: E)).
  eapply (cmount_wp st c c1 flg spec cn co E); [reorder I1 | done | exact (fine_quiet st _ _ _ _ I Hq1 Hf cn Ecn) | done | done | |].
  - intros id s2 I2 _ _ _. apply wp_seq. eapply (cclose_wp st Shr c1 ((Shr, c) :: E)); [reorder I2 |]. intros s3 I3 _. by apply wp_return, HQ.
  - intros _. split; [done |]. intros s2 I2 _. by apply HR.
Qed.

Lemma kbind_wp new old flags E s (Q : Z -> state -> Prop) R : good_path new -> good_path old -> Inv E s ->
  (forall r s', Inv E s' -> Q r s') -> wp st (kbind new old flags) s Q R.
Proof.
  intros Hn Ho I HQ. apply call_wp, wp_seq. eapply namec_wp; [done | exact I | | intros e s1 I1 _; by apply HQ].
  intros c s1 I1 _ Hf. cbn [tag_of] in I1. apply wp_seq. unfold keep. apply wp_catch. eapply bindmount_wp; [done | done | exact I1 | by apply Hf | |].
  - intros r s2 I2. apply wp_seq. eapply (cclose_wp st Shr c E); [exact I2 |]. intros s3 I3 _. by apply wp_return, HQ.
  - intros e s2 I2. apply wp_seq. eapply (cclose_wp st Own c E); [exact I2 |]. intros s3 I3 _. by apply wp_raise, HQ.
Qed.

Lemma kunmount_wp old new E s (Q : Z -> state -> Prop) R : good_path old -> good_path new -> Inv E s ->
  (forall r s', Inv E s' -> Q r s') -> wp st (kunmount old new) s Q R.
Proof.
  intros Ho Hn I HQ. apply call_wp, wp_seq. eapply namec_wp; [done | exact I | | intros e s1 I1 _; by apply HQ].
  intros cm s1 I1 _ _. cbn [tag_of] in I1. assert (exists b, old !! 0%nat = Some b) as [b Eb].
  { destruct Ho as (str & (-> & _) & _). destruct str as [| b str]; [by exists 0 | by exists b]. }
  apply wp_seq, (wp_need _ _ b); [done |]. apply wp_seq.
  assert (forall s2 cd, Inv (opt_own cd ++ (Own, cm) :: E) s2 -> wp st (
    catch (cunmount cm cd) (fun e => cclose cm;; cclose_opt cd;; error e);; cclose cm;; cclose_opt cd;; mret 0) s2 Q (fun _ s' => Q (-1) s')) as Hrest.
  { intros s2 cd I2.
    assert (forall {A} s3 (k : M A) Q' R', Inv (opt_own cd ++ (Own, cm) :: E) s3 -> (forall s', Inv E s' -> wp st k s' Q' R') -> wp st (cclose cm;; cclose_opt cd;; k) s3 Q' R') as Hend.
    { intros A s3 k Q' R' I3 Hk. apply wp_seq. eapply (cclose_wp st Own cm (opt_own cd ++ E)).
      { eapply inv_permute; [| exact I3]. symmetry. apply Permutation_middle. }
      intros s4 I4 _. apply wp_seq. eapply (cclose_opt_wp st cd E); [| intros s5 I5 _; by apply Hk]. destruct cd as [c |]; [| exact I4]. exact (inv_any _ _ _ _ I4). }
    destruct (inv_get _ _ Own cm I2) as (ch & Ech & _); [rewrite !elem_of_app, elem_of_cons; tauto |].
    apply wp_seq, wp_catch. apply (cunmount_wp st cm cd ch (c ← cd; chans s2 !! c) (opt_own cd ++ (Own, cm) :: E)); [done | done | | |].
    - destruct cd as [c |]; [| done]. cbn. destruct (inv_get _ _ Own c I2) as (dh & Edh & _); [rewrite elem_of_app; right; by left |]. by rewrite Edh.
    - intros s3 I3 _. apply Hend; [done |]. intros s4 I4. by apply wp_return, HQ.
    - intros e _. apply Hend; [done |]. intros s4 I4. by apply wp_raise, HQ. }
  destruct (b =? 0); [apply wp_return; by apply (Hrest s1 None) |]. apply wp_seq, (keep_wp _ Own _ E).
  eapply namec_wp; [exact Ho | exact I1 | |].
  - intros c s2 I2 _ _. apply wp_return. by apply (Hrest s2 (Some c)).
  - intros e s2 I2 _. split; [done |]. intros s3 I3 _. by apply HQ.
Qed.

(** ** The calls of a process *)

Inductive syscall :=
  | Chdir (p : list Z)
  | Close (n : Z)
  | Open (p : list Z) (md : Z)
  | Create (p : list Z) (md perm : Z)
  | Dup (old new : Z)
  | Bind (new old : list Z) (flags : Z)
  | Unmount (old new : list Z)
  | Remove (p : list Z)
  | Read (n count : Z)
  | Write (n : Z) (bs : list Z)
  | Seek (n off whence : Z)
  | Fstat (n : Z)
  | Stat (p : list Z)
  | Fwstat (n : Z) (buf : list Z)
  | Wstat (p buf : list Z)
  | Pctl (flags : Z) (movefd : list Z) (shared_fd shared_ns : bool).

Definition exec (x : syscall) : M unit :=
  match x with
  | Chdir p => kchdir p;; mret tt
  | Close n => kclose n;; mret tt
  | Open p md => kopen p md;; mret tt
  | Create p md perm => kcreate p md perm;; mret tt
  | Dup old new => kdup old new;; mret tt
  | Bind new old flags => kbind new old flags;; mret tt
  | Unmount old new => kunmount old new;; mret tt
  | Remove p => kremove p;; mret tt
  | Read n count => kread n count;; mret tt
  | Write n bs => kwrite n bs;; mret tt
  | Seek n off whence => kseek n off whence;; mret tt
  | Fstat n => kfstat n;; mret tt
  | Stat p => kstat p;; mret tt
  | Fwstat n buf => kfwstat n buf;; mret tt
  | Wstat p buf => kwstat p buf;; mret tt
  | Pctl flags movefd sf sn => Sys_pctl flags movefd sf sn
  end.

(** What the callers and the drivers have to see to: paths are strings of which
    the name of a device fits in a buffer; where the parent of a directory is
    asked for, drivers have one; groups are forked where drivers let channels be
    cloned; only open descriptors are kept, each once. *)
Definition proper (s : state) (x : syscall) : Prop :=
  match x with
  | Chdir p | Open p _ | Create p _ _ | Remove p | Stat p => good_path p
  | Bind p q _ | Unmount p q => good_path p /\ good_path q
  | Wstat p buf => good_path p /\ exists str, text buf str
  | Fwstat _ buf => exists str, text buf str
  | Pctl flags movefd _ _ => clones /\ movable flags (fgrp s) movefd
  | _ => True
  end.

Lemma done_wp {A} (m : M A) s (Q : unit -> state -> Prop) R : wp st m s (fun _ s' => Q tt s') R -> wp st (m;; mret tt) s Q R.
Proof. intros H. apply wp_seq. eapply wp_conseq; [exact H | by intros a s' HQ; apply wp_return | done]. Qed.

(** A read may find that a member of the union of its directory is gone. *)
Definition is_read (x : syscall) : Prop := match x with Read _ _ => True | _ => False end.

Lemma exec_wp x s (Q : unit -> state -> Prop) : proper s x -> (is_read x -> st) -> Inv [] s -> (forall s', Inv [] s' -> Q tt s') ->
  wp st (exec x) s Q (fun _ _ => False).
Proof.
  intros Hx Hst I HQ. destruct x; cbn [exec proper] in *; try apply done_wp.
  - eapply kchdir_wp; [done | exact I |]. intros _ s1 I1 _. by apply HQ.
  - eapply kclose_wp; [exact I |]. intros _ s1 I1 _ _. by apply HQ.
  - eapply kopen_wp; [done | exact I |]. intros _ s1 I1. by apply HQ.
  - eapply kcreate_wp; [done | exact I |]. intros _ s1 I1. by apply HQ.
  - eapply kdup_wp; [exact I |]. intros _ s1 I1. by apply HQ.
  - destruct Hx as [Hx1 Hx2]. eapply kbind_wp; [done | done | exact I |]. intros _ s1 I1. by apply HQ.
  - destruct Hx as [Hx1 Hx2]. eapply kunmount_wp; [done | done | exact I |]. intros _ s1 I1. by apply HQ.
  - eapply kremove_wp; [done | exact I |]. intros _ s1 I1. by apply HQ.
  - eapply kread_wp; [by apply Hst | exact I |]. intros _ s1 I1. by apply HQ.
  - eapply kwrite_wp; [exact I |]. intros _ s1 I1. by apply HQ.
  - eapply kseek_wp; [exact I |]. intros _ s1 I1. by apply HQ.
  - eapply kfstat_wp; [exact I |]. intros _ s1 I1. by apply HQ.
  - eapply kstat_wp; [done | exact I |]. intros _ s1 I1. by apply HQ.
  - destruct Hx as [str Hx]. eapply kfwstat_wp; [exact Hx | exact I |]. intros _ s1 I1. by apply HQ.
  - destruct Hx as [Hp [bstr Hb]]. eapply kwstat_wp; [done | exact Hb | exact I |]. intros _ s1 I1. by apply HQ.
  - destruct Hx as [Hc Hm]. eapply sys_pctl_wp; [done | done | exact I |]. intros s1 I1 _ _. by apply HQ.
Qed.
End Calls.

(** ** Runs *)

Section Runs.
Context {D : Devices} {L : Laws D}.

Definition step (s s' : state) : Prop := exists x, proper s x /\ exec x s = Ret tt s'.

Lemma steps_inv s s' : Inv [] s -> rtc step s s' -> Inv [] s'.
Proof.
  intros I H. induction H as [| s s1 s' (x & Hx & E) _ IH]; [done |]. apply IH.
  pose proof (exec_wp True x s (fun _ s' => Inv [] s') Hx ltac:(done) I ltac:(done)) as H. unfold wp in H. by rewrite E in H.
Qed.
End Runs.
