(* ===== verification/NsResolve.v ===== *)
(** * The name space: resolving names

    Where a path leads, as a function of the mount table and of what the drivers
    say that files contain; [namec], [kbind] and [kunmount] against it. *)

From S2P Require Import Prelude Styx Rune Name Ns NsInv NsOps NsWalk NsNamec NsFd NsTable NsMount NsGroup NsCalls.
Import Ns.

#[local] Open Scope Z_scope.

Abbreviation file := (Z * Z * Z)%type.

(** ** The specification *)

Section Resolve.
Context (files : file -> list Z -> option file) (T : gmap file (list entry)).

(** The members of the union that is mounted on a file, or the file. *)
Definition place (k : file) : list file := match T !! k with Some es => es.*1 | None => [k] end.
Definition top (k : file) : file := default k (head (place k)).

Fixpoint find_in (ks : list file) (name : list Z) : option file :=
  match ks with [] => None | k :: ks => match files k name with Some k' => Some k' | None => find_in ks name end end.

(** Every name is looked for in the union of what came before. *)
Fixpoint descend (k : file) (es : list (list Z)) : option file :=
  match es with [] => Some k | e :: es => k' ← find_in (place k) e; descend k' es end.

Lemma descend_app k es es' : descend k (es ++ es') = k' ← descend k es; descend k' es'.
Proof. revert k. induction es as [| e es IH]; intros k; [done |]. cbn. destruct (find_in (place k) e) as [k' |]; [apply IH | done]. Qed.
End Resolve.

(** ** The walk *)

Section Walk.
Context {D : Devices} {L : Laws D}.
Context (files : file -> list Z -> option file).

(** Files do not change. *)
Definition static : Prop := (forall k name k', Walks k name k' -> files k name = Some k') /\ (forall k name, Misses k name -> files k name = None).

(** A channel of a file, or of the first that is mounted on it. *)
Definition at_file (s : state) (k : file) (c : Z) : Prop :=
  exists ch, chans s !! c = Some ch /\ at_mount (chans s) (mounts_on (chans s) (heads (pgrp s)) k) k ch.

Lemma table_mounts_on E s k : Inv E s ->
  match mounts_on (chans s) (heads (pgrp s)) k with [] => table s !! k = None | ms => table s !! k = Some (entries s ms) end.
Proof.
  intros I. pose proof (inv_table _ _ I) as Ht.
  assert ((exists h, h ∈ heads (pgrp s) /\ key_at (chans s) (from h) = Some k) \/ forall h, h ∈ heads (pgrp s) -> key_at (chans s) (from h) <> Some k) as [(h & Hh & Hk) | Hno].
  { rewrite <- Exists_exists, <- Forall_forall.
    destruct (Forall_Exists_dec (fun h => key_at (chans s) (from h) <> Some k) (fun h => key_at (chans s) (from h) = Some k)) with (l := heads (pgrp s)); [| by right | by left].
    intros h. destruct (decide (key_at (chans s) (from h) = Some k)); [by right | by left]. }
  - rewrite (mounts_on_some _ _ _ h (t_keys _ _ Ht) Hh Hk). destruct (t_full _ _ Ht h Hh) as [Hne _].
    pose proof (table_lookup s h _ I Hh) as Hl. unfold key_of in Hl. rewrite Hk in Hl. cbn [default] in Hl. destruct (mount h); [done | exact Hl].
  - rewrite mounts_on_none by done. by eapply table_none.
Qed.

Lemma at_file_quiet E E' s s' k c : Inv ((Own, c) :: E) s -> quiet ((Own, c) :: E') s s' -> at_file s k c -> at_file s' k c.
Proof.
  intros I Hq (ch & Ec & Ha). destruct (q_frame _ _ _ Hq Own c ch ltac:(held) Ec) as (ch' & Ec' & _ & Ee). rewrite (Ee eq_refl) in Ec'.
  exists ch. split; [done |]. rewrite (q_pgrp _ _ _ Hq), (mounts_on_quiet _ _ _ _ k I Hq).
  destruct (mounts_on (chans s) (heads (pgrp s)) k) as [| f ms] eqn:Em; [done |]. cbn [at_mount] in *.
  rewrite (key_held _ _ _ _ Shr (to f) I Hq); [done |]. eapply mounts_on_holder. rewrite Em. by left.
Qed.

(** What a channel of a file is: the first of its place, with the others behind. *)
Lemma at_file_place E s k c : Inv E s -> at_file s k c ->
  exists ch ms, chans s !! c = Some ch /\ members s ch = Some ms /\ key ch = top (table s) k /\
    (ms = [] /\ place (table s) k = [key ch] \/ place (table s) k = (fun m => key_of (chans s) (to m)) <$> ms) /\ (forall m, m ∈ ms -> (Shr, to m) ∈ holders s).
Proof.
  intros I (ch & Ec & Ha). pose proof (table_mounts_on _ _ k I) as Ht. unfold top, place.
  destruct (mounts_on_elem (chans s) (heads (pgrp s)) k) as [En | (h & Hh & Em)].
  - rewrite En in *. destruct Ha as [Ek Ep]. exists ch, []. rewrite Ht. cbn. unfold members. rewrite Ep. split_and!; try done; [left; by rewrite Ek | by intros m ?%not_elem_of_nil].
  - destruct (mounts_on (chans s) (heads (pgrp s)) k) as [| f ms] eqn:En.
    + destruct Ha as [Ek Ep]. exists ch, []. rewrite Ht. cbn. unfold members. rewrite Ep. split_and!; try done; [left; by rewrite Ek | by intros m ?%not_elem_of_nil].
    + destruct Ha as [Ek Ep]. assert (members s ch = Some (f :: ms)) as Hm by (by eapply members_first).
      exists ch, (f :: ms). rewrite Ht. split_and!; try done.
      * cbn. unfold key_of. by rewrite Ek.
      * right. unfold entries. rewrite <- list_fmap_compose. done.
      * by eapply members_holders.
Qed.

Lemma finds_find_in s name ms r : static -> finds (chans s) name ms r -> find_in files ((fun m => key_of (chans s) (to m)) <$> ms) name = r.
Proof.
  intros [Hw Hm]. induction 1 as [| f ms k k' Hk Hwk | f ms k r Hk Hmk _ IH]; [done | |]; cbn; unfold key_of; rewrite Hk; cbn.
  - by rewrite (Hw _ _ _ Hwk).
  - by rewrite (Hm _ _ Hmk).
Qed.

Lemma walk_to_at c k name (domnt : bool) E s (Q : Z -> state -> Prop) (R : err -> state -> Prop) : static -> Inv ((Own, c) :: E) s -> at_file s k c ->
  name <> [] -> name <> dotdot ->
  (forall nc k' s', Inv ((Own, nc) :: E) s' -> quiet E s s' -> find_in files (place (table s) k) name = Some k' ->
    (if domnt then at_file s' k' nc else key_at (chans s') nc = Some k') -> Q nc s') ->
  (forall e s', Inv E s' -> quiet E s s' -> e = Enonexist /\ find_in files (place (table s) k) name = None \/ Faulty e -> R e s') ->
  wp False (walk_to c name domnt) s Q R.
Proof.
  intros Hs I Ha Hn Hd HQ HR. destruct (at_file_place _ _ _ _ I Ha) as (ch & ms & Ec & Hm & Ek & Hpl & Hh).
  apply (keep_wp _ Own _ E). apply wp_seq. eapply (walk_down_wp False c ch); [exact I | done | done | done | by rewrite Hm | |].
  - intros r s1 I1 Hq1 Hw. destruct r as [nc |]; cbn [walked] in Hw.
    + apply wp_return. destruct Hw as (k' & ch' & Hf & Ec' & Hk'). eapply HQ; [exact I1 | done | | ].
      * instantiate (1 := k'). destruct Hf as [Hwk | (Hmk & ms' & Hm' & Hfd)].
        -- destruct Hs as [Hs _]. apply Hs in Hwk. destruct Hpl as [[_ ->] | Epl]; [cbn; by rewrite Hwk |].
           unfold top in Ek. rewrite Epl in *. destruct ms as [| f ms]; cbn in Ek |- *; [| by rewrite <- Ek, Hwk].
           destruct Ha as (ch2 & Ec2 & Ha2). exfalso. pose proof (table_mounts_on _ _ k I) as Ht. unfold place in Epl.
           destruct (mounts_on (chans s) (heads (pgrp s)) k); [by rewrite Ht in Epl | by rewrite Ht in Epl].
        -- rewrite Hm in Hm'. injection Hm' as <-. apply finds_find_in in Hfd; [| done]. destruct Hpl as [[-> _] | ->]; [done | done].
      * destruct domnt; [| unfold key_at; rewrite Ec'; cbn; by destruct Hk' as [-> _]]. exists ch'. split; [done |].
        rewrite (q_pgrp _ _ _ Hq1), (mounts_on_quiet _ _ _ _ k' I Hq1). destruct (mounts_on (chans s) (heads (pgrp s)) k') as [| f ms'] eqn:Em'; [done |].
        cbn [at_mount] in *. rewrite (key_held _ _ _ _ Shr (to f) I Hq1); [done |]. eapply mounts_on_holder. rewrite Em'. by left.
    + apply wp_raise. cbn [default] in I1. split; [exact I1 |]. intros s2 I2 Hq2. apply HR; [done | quiets |]. left. split; [done |].
      destruct Hw as (Hmk & (ms' & Hm' & Hfd) & _). rewrite Hm in Hm'. injection Hm' as <-. apply finds_find_in in Hfd; [| done].
      destruct Hpl as [[_ ->] | ->]; [| done]. cbn. destruct Hs as [_ Hs]. by rewrite (Hs _ _ Hmk).
  - intros e s1 I1 Hq1 Hf. split; [done |]. intros s2 I2 Hq2. apply HR; [done | quiets | by right].
Qed.

(** ** [namec] *)

(** A channel of the file, when it is mounted on or not. *)
Definition leads (s : state) (amode : access) (k : file) (c : Z) : Prop := match amode with Aaccess => at_file s k c | _ => key_at (chans s) c = Some k end.

Lemma along_at es e k c E s (Q : Z * list Z -> state -> Prop) (R : err -> state -> Prop) : static -> Inv ((Own, c) :: E) s -> at_file s k c ->
  (forall x, x ∈ es -> x <> [] /\ x <> dotdot) ->
  (forall c' k' s', Inv ((Own, c') :: E) s' -> quiet E s s' -> descend files (table s) k es = Some k' -> at_file s' k' c' -> Q (c', e) s') ->
  (forall x s', Inv E s' -> quiet E s s' -> x = Enonexist /\ descend files (table s) k es = None \/ Faulty x -> R x s') ->
  wp False (along c (es ++ [e]) None true) s Q R.
Proof.
  intros Hs. revert k c s. induction es as [| e1 es IH]; intros k c s I Ha Hes HQ HR; [by apply wp_return, (HQ c k); [| quiets | |] |].
  cbn [app along]. assert (exists y ys, es ++ [e] = y :: ys) as (y & ys & Ey) by (destruct es; eauto). rewrite Ey.
  change (wp False (c0 ← walk_to c e1 true; along c0 (y :: ys) None true) s Q R). rewrite <- Ey.
  destruct (Hes e1 ltac:(by left)) as [Hn Hd]. apply wp_seq. eapply walk_to_at; [done | exact I | exact Ha | done | done | |].
  - intros nc k1 s1 I1 Hq1 Hf Ha1. pose proof (table_quiet _ _ _ _ I Hq1) as Et. cbn [descend] in HQ, HR. rewrite Hf in HQ, HR. cbn in HQ, HR.
    eapply IH; [exact I1 | exact Ha1 | intros x Hx; apply Hes; by right | |]; rewrite Et.
    + intros c' k' s2 I2 Hq2 Hdc Ha2. eapply HQ; [exact I2 | quiets | exact Hdc | done].
    + intros x s2 I2 Hq2 Hx. apply HR; [done | quiets | done].
  - intros x s1 I1 Hq1 Hx. apply HR; [done | done |]. cbn [descend]. destruct Hx as [[-> ->] | ?]; [by left | by right].
Qed.

(** The keys of a place start where the channel is. *)
Lemma domount_at c k E s (Q : Z -> state -> Prop) R : Inv ((Own, c) :: E) s -> key_at (chans s) c = Some k ->
  (forall nc s', Inv ((Own, nc) :: E) s' -> quiet E s s' -> at_file s' k nc -> Q nc s') ->
  (forall e s', Inv E s' -> quiet E s s' -> Faulty e -> R e s') -> wp False (keep c (domount c)) s Q R.
Proof.
  intros I Hk HQ HR. unfold key_at in Hk. destruct (chans s !! c) as [ch |] eqn:Ec; [| done]. injection Hk as Hk. apply (keep_wp _ Own _ E).
  eapply domount_wp; [exact I | exact Ec | |].
  - intros nc ch' s1 I1 Hq1 E1 Ha. apply HQ; [done | done |]. rewrite Hk in Ha. exists ch'. split; [done |].
    rewrite (q_pgrp _ _ _ Hq1), (mounts_on_quiet _ _ _ _ k I Hq1). destruct (mounts_on (chans s) (heads (pgrp s)) k) as [| f ms] eqn:Em; [done |].
    cbn [at_mount] in *. rewrite (key_held _ _ _ _ Shr (to f) I Hq1); [done |]. eapply mounts_on_holder. rewrite Em. by left.
  - intros e s1 I1 Hq1 Hf. split; [done |]. intros s2 I2 Hq2. apply HR; [done | quiets | by left].
Qed.

(** A path that goes down from the root or from [dot]. *)
Definition plain (str : list Z) : Prop :=
  str <> [] /\ (92 ∉ str) /\ str !! 0%nat <> Some 35 /\ (dotdot ∉ names str) /\ good_names (names str) = (names str, None).
Definition origin (s : state) (str : list Z) : option file := key_at (chans s) (if bool_decide (str !! 0%nat = Some slash) then p_slash (pgrp s) else p_dot (pgrp s)).
Definition resolve (s : state) (str : list Z) : option file := k ← origin s str; descend files (table s) k (names str).

Lemma names_nonempty str e : e ∈ names str -> e <> [].
Proof. unfold names. destruct (split str) as [a b]. intros [Hn _]%list_elem_of_filter ->. done. Qed.

Lemma utfrune_none str : bytes str -> (0 ∉ str) -> (92 ∉ str) -> utfrune (str ++ [0]) 92 = Some None.
Proof.
  intros _ Hz Hb. change (utfrune (str ++ [0]) 92) with (strchr_loop (str ++ [0]) 92 0). generalize 0%nat as i.
  induction str as [| b str IH]; intros i; cbn [app strchr_loop]; [done |].
  apply not_elem_of_cons in Hz as [Hz0 Hz]. apply not_elem_of_cons in Hb as [Hb0 Hb].
  destruct (Z.eqb_spec b 92); [congruence |]. destruct (Z.eqb_spec b 0); [congruence |]. by apply IH.
Qed.

(** [namec] up to the last name. *)
Lemma namec_goto_at p str amode omode perm E s (Q : Z -> state -> Prop) (R : err -> state -> Prop) : static -> text p str -> plain str -> Inv E s ->
  (forall c k0 (isdot : bool) es e s', Inv ((Own, c) :: E) s' -> quiet E s s' -> origin s str = Some k0 ->
    (names str = [] /\ es = [] /\ e = [] /\ (isdot = true -> str !! 0%nat <> Some slash) /\ (isdot = false -> str !! 0%nat = Some slash) /\
       (if isdot || match amode with Amount => true | _ => false end then key_at (chans s') c = Some k0 else at_file s' k0 c) \/
     names str = es ++ [e] /\ isdot = false /\ exists k, descend files (table s) k0 es = Some k /\ at_file s' k c) ->
    wp False (namec_end amode omode perm c e true isdot) s' Q R) ->
  (forall e s', Inv E s' -> quiet E s s' -> e = Enonexist /\ resolve s str = None \/ Faulty e -> R e s') ->
  wp False (namec p amode omode perm) s Q R.
Proof.
  intros Hs Ht (Hne & Hbs & Hsh & Hdd & Hgood) I HQ HR. pose proof Ht as (-> & Hb & Hz). unfold namec.
  destruct str as [| b0 str0] eqn:Estr; [done |]. rewrite <- Estr in *. assert (str !! 0%nat = Some b0) as Eb0 by (by rewrite Estr).
  apply wp_seq, (wp_need _ _ b0); [by rewrite Estr |].
  destruct (Z.eqb_spec b0 0) as [-> | _]; [exfalso; apply Hz; rewrite Estr; by left |].
  apply wp_seq. eapply wp_need; [by apply utfrune_none |]. apply wp_seq.
  assert (sharp_fits (str ++ [0])) as Hsf. { intros H. exfalso. apply Hsh. by rewrite Estr in *. }
  eapply (namec_start_wp False); [exact Ht | by rewrite Estr | done | exact I | | intros e s1 I1 Hq1 Hf; apply HR; [done | done | right; by apply Hf]].
  intros c q mntok isdot s1 I1 Hq1 Hbq Hzq Hnq Hsub Hstart _. cbn beta iota.
  pose proof (table_quiet _ _ _ _ I Hq1) as Et1.
  assert (exists k0, key_at (chans s1) c = Some k0 /\ origin s str = Some k0 /\ names q = names str /\ mntok = true /\ (isdot = true -> names str = []) /\
    (isdot = true -> str !! 0%nat <> Some slash) /\ (isdot = false -> str !! 0%nat = Some slash \/ names str <> [])) as (k0 & Ek0 & Eo & Enq & -> & Hdot & Hdot1 & Hdot2).
  { assert (is_Some (key_at (chans s1) c)) as [k0 Ek0] by (destruct (inv_live _ _ Own c I1 ltac:(held)) as [ch Ech]; unfold key_at; rewrite Ech; by eexists).
    exists k0. split; [done |]. unfold start_of in Hstart. rewrite Estr in Hstart. rewrite <- Estr in Hstart. unfold origin. rewrite Eb0.
    destruct (Z.eqb_spec b0 slash) as [-> | Hsl]; [rewrite bool_decide_true by done; destruct Hstart as (<- & -> & -> & ->); split_and!; try done; by left |].
    destruct (Z.eqb_spec b0 35) as [-> | _]; [done |]. rewrite bool_decide_false by congruence. destruct Hstart as (<- & -> & -> & ->).
    split_and!; try done; [by intros ?%bool_decide_eq_true | congruence |]. intros ?%bool_decide_eq_false. by right. }
  apply wp_seq. unfold wp at 1. rewrite elems_goto by done.
  change (wp False (goto amode c (names q) true isdot) s1 (fun a s' => wp False (let '(c, elem) := a in namec_end amode omode perm c elem true isdot) s' Q R) R).
  rewrite Enq. unfold resolve in *. rewrite Eo in HQ, HR. cbn [mbind option_bind] in HQ, HR.
  destruct (names str) as [| e0 es0] eqn:En.
  - cbn [goto]. assert (isdot = false -> str !! 0%nat = Some slash) as Hdot3 by (intros Hi; by destruct (Hdot2 Hi)).
    assert (forall c2 s2, Inv ((Own, c2) :: E) s2 -> quiet E s s2 ->
      (if isdot || match amode with Amount => true | _ => false end then key_at (chans s2) c2 = Some k0 else at_file s2 k0 c2) -> wp False (namec_end amode omode perm c2 [] true isdot) s2 Q R) as Hend.
    { intros c2 s2 I2 Hq2 Hk. eapply (HQ c2 k0 isdot [] [] s2); [done | done | done | left]. by split_and!. }
    apply wp_seq. destruct isdot; [apply wp_return, wp_return; by apply Hend |]. cbn [negb andb].
    revert Hend. destruct (match amode with Amount => true | _ => false end); cbn [negb orb]; intros Hend; [by apply wp_return, wp_return, Hend |].
    eapply domount_at; [exact I1 | exact Ek0 | |].
    + intros nc s2 I2 Hq2 Ha. apply wp_return. apply Hend; [done | quiets | done].
    + intros e s2 I2 Hq2 Hf. apply HR; [done | quiets | by right].
  - assert (isdot = false) as -> by (destruct isdot; [by specialize (Hdot eq_refl) | done]).
    assert (forall x, x ∈ e0 :: es0 -> x <> [] /\ x <> dotdot) as Hok.
    { intros x Hx. split; [apply (names_nonempty str); by rewrite En | by intros ->]. }
    unfold goto. rewrite Hgood. cbn [negb andb]. destruct (exists_last (l := e0 :: es0)) as (es & e & Ees); [done |].
    change (wp False (c ← keep c (domount c); along c (e0 :: es0) None true) s1
      (fun a s' => wp False (let '(c, elem) := a in namec_end amode omode perm c elem true false) s' Q R) R).
    rewrite Ees in *. rewrite (descend_app files (table s)) in HR. apply wp_seq. eapply domount_at; [exact I1 | exact Ek0 | |].
    2: { intros x s2 I2 Hq2 Hf. apply HR; [done | quiets | by right]. }
    intros c1 s2 I2 Hq2 Ha2. assert (table s2 = table s) as Et2 by (by rewrite (table_quiet _ _ _ _ I1 Hq2)).
    eapply along_at; [done | exact I2 | exact Ha2 | intros x Hx; apply Hok; apply elem_of_app; by left | |]; rewrite Et2.
    + intros c2 k2 s3 I3 Hq3 Hd Ha3. eapply (HQ c2 k0 false es e s3); [exact I3 | quiets | done |]. right. split_and!; try done. by exists k2.
    + intros x s3 I3 Hq3 Hx. apply HR; [done | quiets |]. destruct Hx as [[-> ->] | ?]; [by left | by right].
Qed.

(** The last name. *)
Lemma last_at c k e (b : bool) str k0 es E s0 s (Q : Z -> state -> Prop) (R : err -> state -> Prop) : static -> Inv E s0 -> quiet E s0 s -> Inv ((Own, c) :: E) s -> plain str ->
  origin s0 str = Some k0 -> names str = es ++ [e] -> descend files (table s0) k0 es = Some k -> at_file s k c ->
  (forall nc k' s', Inv ((Own, nc) :: E) s' -> quiet E s0 s' -> resolve s0 str = Some k' -> (if b then at_file s' k' nc else key_at (chans s') nc = Some k') -> Q nc s') ->
  (forall x s', Inv E s' -> quiet E s0 s' -> x = Enonexist /\ resolve s0 str = None \/ Faulty x -> R x s') ->
  wp False (walk_to c e b) s Q R.
Proof.
  intros Hs I0 Hq0 I (_ & _ & _ & Hdd & _) Eo En Hd Ha HQ HR. unfold resolve in *. rewrite Eo in HQ, HR. cbn [mbind option_bind] in HQ, HR. rewrite En, (descend_app files (table s0)), Hd in HQ, HR.
  cbn [mbind option_bind descend] in HQ, HR.
  eapply walk_to_at; [done | exact I | exact Ha | | | |].
  - apply (names_nonempty str). rewrite En. apply elem_of_app. right. by left.
  - intros ->. apply Hdd. rewrite En. apply elem_of_app. right. by left.
  - intros nc k' s4 I4 Hq4 Hf Hk. rewrite (table_quiet _ _ _ _ I0 Hq0) in Hf. eapply HQ; [done | quiets | by rewrite Hf | done].
  - intros x s4 I4 Hq4 Hx. apply HR; [done | quiets |]. rewrite (table_quiet _ _ _ _ I0 Hq0) in Hx. destruct Hx as [[-> ->] | ?]; [by left | by right].
Qed.

Lemma walk_none c b s : walk_to c [] b s = Ret c s.
Proof. done. Qed.

Lemma namec_at p str amode E s (Q : Z -> state -> Prop) (R : err -> state -> Prop) : static -> text p str -> plain str -> amode = Aaccess \/ amode = Amount -> Inv E s ->
  (forall c k s', Inv ((Own, c) :: E) s' -> quiet E s s' -> resolve s str = Some k -> leads s' amode k c -> Q c s') ->
  (forall e s', Inv E s' -> quiet E s s' -> e = Enonexist /\ resolve s str = None \/ Faulty e -> R e s') ->
  wp False (namec p amode 0 0) s Q R.
Proof.
  intros Hs Ht Hp Ham I HQ HR. eapply namec_goto_at; [done | exact Ht | done | exact I | | done].
  intros c k0 isdot es e s1 I1 Hq1 Eo [(En & -> & -> & _ & _ & Hk) | (En & -> & k & Hd & Ha)].
  - assert (resolve s str = Some k0) as Er by (unfold resolve; by rewrite Eo, En).
    destruct Ham as [-> | ->]; [| rewrite orb_true_r in Hk; unfold wp; cbn [namec_end]; rewrite walk_none; by eapply HQ].
    rewrite orb_false_r in Hk. destruct isdot; cbn [namec_end]; [| unfold wp; rewrite walk_none; by eapply HQ].
    eapply domount_at; [exact I1 | exact Hk | |].
    + intros nc s2 I2 Hq2 Ha. eapply HQ; [exact I2 | quiets | done | exact Ha].
    + intros x s2 I2 Hq2 Hf. apply HR; [done | quiets | by right].
  - destruct Ham as [-> | ->]; cbn [namec_end]; eapply (last_at c k e _ str k0 es E s s1); try done; intros nc k' s2 I2 Hq2 Er Hl; by eapply HQ.
Qed.

(** The directory to go to: the file that the name leads to, not what is mounted
    on it, but for the root itself, which [namec] has replaced by then. *)
Definition root_name (str : list Z) : bool := bool_decide (str !! 0%nat = Some slash) && bool_decide (names str = []).
Definition destination (s : state) (str : list Z) : option file :=
  (fun k => if root_name str then top (table s) k else k) <$> resolve s str.

Lemma namec_dir_at p str E s (Q : Z -> state -> Prop) (R : err -> state -> Prop) : static -> text p str -> plain str -> Inv E s ->
  (forall c k s', Inv ((Own, c) :: E) s' -> quiet E s s' -> destination s str = Some k -> is_set k.1.1 CHDIR = true -> key_at (chans s') c = Some k -> Q c s') ->
  (forall e s', Inv E s' -> quiet E s s' -> e = Enonexist /\ resolve s str = None \/ e = Enotdir /\ (exists k, destination s str = Some k /\ is_set k.1.1 CHDIR = false) \/ Faulty e -> R e s') ->
  wp False (namec p Atodir 0 0) s Q R.
Proof.
  intros Hs Ht Hp I HQ HR. eapply namec_goto_at; [done | exact Ht | done | exact I | | intros e s1 I1 Hq1 [He | He]; apply HR; auto].
  assert (forall c k s1, Inv ((Own, c) :: E) s1 -> quiet E s s1 -> destination s str = Some k -> key_at (chans s1) c = Some k -> wp False (keep c (isdir c);; mret c) s1 Q R) as Hend.
  { intros c k s1 I1 Hq1 Er Hk. unfold key_at in Hk. destruct (chans s1 !! c) as [ch |] eqn:Ec; [| done]. injection Hk as Hk.
    apply wp_seq, (keep_wp _ Own _ E). eapply (isdir_wp False Own); [exact I1 | held | |]; intros ch' Ec' Hd; assert (ch' = ch) as -> by congruence;
      (assert (is_set k.1.1 CHDIR = is_set (path (qid ch)) CHDIR) as Ed by (by subst k)).
    - apply wp_return. eapply HQ; [exact I1 | done | exact Er | congruence | unfold key_at; rewrite Ec; cbn; congruence].
    - split; [done |]. intros s2 I2 Hq2. apply HR; [done | quiets |]. right; left. split; [done |]. exists k. split; [done | congruence]. }
  intros c k0 isdot es e s1 I1 Hq1 Eo [(En & -> & -> & Hd1 & Hd2 & Hk) | (En & -> & k & Hd & Ha)]; cbn [namec_end].
  - assert (resolve s str = Some k0) as Er by (unfold resolve; by rewrite Eo, En).
    apply wp_seq. unfold wp. rewrite walk_none. destruct isdot; cbn [orb] in Hk.
    + eapply Hend; [done | done | | exact Hk]. unfold destination, root_name. rewrite Er, bool_decide_false by auto. done.
    + destruct (at_file_place _ _ _ _ I1 Hk) as (ch & _ & Ec & _ & Ek & _). eapply Hend; [done | done | | unfold key_at; by rewrite Ec].
      unfold destination, root_name. rewrite Er, En, (bool_decide_true (str !! _ = _)) by auto. cbn. by rewrite Ek, (table_quiet _ _ _ _ I Hq1).
  - assert (destination s str = resolve s str) as Ed.
    { unfold destination, root_name. rewrite En, (bool_decide_false (_ ++ _ = _)), andb_false_r by (by destruct es). by destruct (resolve s str). }
    apply wp_seq. eapply (last_at c k e _ str k0 es E s s1); try done; [| intros x s2 I2 Hq2 [Hx | Hx]; apply HR; auto].
    intros nc k' s2 I2 Hq2 Er Hk. eapply Hend; [done | done | by rewrite Ed | exact Hk].
Qed.

(** ** Binding and unmounting *)

Lemma at_file_members E s k c : Inv E s -> at_file s k c ->
  exists ch ms, chans s !! c = Some ch /\ members s ch = Some ms /\ key ch = top (table s) k /\ entries s ms = default [] (table s !! k).
Proof.
  intros I (ch & Ec & Ha). pose proof (table_mounts_on _ _ k I) as Ht. unfold top, place.
  destruct (mounts_on_elem (chans s) (heads (pgrp s)) k) as [En | (h & Hh & Em)]; [rewrite En in *; clear En | destruct (mounts_on (chans s) (heads (pgrp s)) k) as [| f ms] eqn:En; [clear Em |]];
    try (destruct Ha as [Ek Ep]; exists ch, []; rewrite Ht; cbn; unfold members; by rewrite Ep).
  destruct Ha as [Ek Ep]. exists ch, (f :: ms). rewrite Ht. split_and!; try done; [by eapply members_first |]. cbn. unfold key_of. by rewrite Ek.
Qed.

(** May [kn] be put upon [ko]? *)
Definition mountable (flg : Z) (kn ko : file) : bool :=
  negb ((MMASK <? flg) || (Z.land flg MORDER =? Z.lor MBEFORE MAFTER)) && negb (is_set (Z.lxor ko.1.1 kn.1.1) CHDIR) &&
  (is_set ko.1.1 CHDIR || (Z.land flg MORDER =? MREPL)).

(** [T'] is [T] with [kn], and the rest of its union, bound to [ko]. *)
Definition bound_to (T : gmap file (list entry)) (kn ko : file) (flg : Z) (T' : gmap file (list entry)) : Prop :=
  exists cr co, T' = bind (top T kn, cr) (tail (default [] (T !! kn))) (ko, co) (Z.land flg MORDER) (is_set flg MCREATE) T.

Lemma bindmount_at c kn p str flg E s (Q : Z -> state -> Prop) (R : err -> state -> Prop) : static -> text p str -> plain str -> Inv ((Own, c) :: E) s -> at_file s kn c ->
  (forall r ko s', Inv ((Shr, c) :: E) s' -> resolve s str = Some ko -> mountable flg (top (table s) kn) ko = true -> bound_to (table s) kn ko flg (table s') -> Q r s') ->
  (forall e s', Inv ((Own, c) :: E) s' -> quiet E s s' -> (forall ko, resolve s str = Some ko -> mountable flg (top (table s) kn) ko = false) \/ Faulty e -> R e s') ->
  wp False (bindmount c p flg []) s Q R.
Proof.
  intros Hs Ht Hp I Ha HQ HR. unfold bindmount. destruct (_ || _) eqn:Ef.
  { apply wp_raise, HR; [done | quiets | left]. intros ko _. unfold mountable. by rewrite Ef. }
  apply wp_seq. eapply namec_at; [done | exact Ht | exact Hp | by right | exact I | |].
  2: { intros e s1 I1 Hq1 He. apply HR; [done | quiets |]. destruct He as [[_ ->] | ?]; [by left | by right]. }
  intros c1 ko s1 I1 Hq1 Er Hl. cbn [leads] in Hl. pose proof (at_file_quiet _ _ _ _ _ _ I Hq1 Ha) as Ha1. pose proof (table_quiet _ _ _ _ I Hq1) as Et.
  destruct (at_file_members _ _ _ _ I1 Ha1) as (cn & ms & Ecn & Em & Ekn & Ems). unfold key_at in Hl. destruct (chans s1 !! c1) as [co |] eqn:Eco; [| done]. injection Hl as Eko.
  rewrite Et in Ekn, Ems. rewrite <- Ekn, <- Eko in *.
  apply wp_seq, (keep_wp _ Own _ ((Own, c) :: E)).
  eapply (cmount_wp False c c1 flg [] cn co E); [reorder I1 | done | by rewrite Em | done | done | |].
  - intros id s2 I2 Hb Hx Hd. apply wp_seq. eapply (cclose_wp False Shr c1 ((Shr, c) :: E)); [reorder I2 |]. intros s3 I3 Hq3. apply wp_return.
    eapply HQ; [exact I3 | exact Er | |].
    + unfold mountable. rewrite Ef. cbn [negb andb]. change (key co).1.1 with (path (qid co)). change (key cn).1.1 with (path (qid cn)). rewrite Hx. cbn [negb andb].
      destruct Hd as [-> | ->]; [done | by rewrite orb_true_r].
    + assert (table s3 = table s2) as -> by (eapply table_quiet; [| exact Hq3]; reorder I2). rewrite (Hb ms Em). rewrite Et.
      exists (creat cn), (creat co). rewrite <- Ekn. unfold entries in *. rewrite <- Ems. f_equal. by destruct ms.
  - intros Hbad. split; [done |]. intros s2 I2 Hq2. apply HR; [done | quiets |]. left. intros ko' Hk. assert (ko' = key co) as -> by congruence.
    unfold mountable. change (key co).1.1 with (path (qid co)). change (key cn).1.1 with (path (qid cn)). destruct Hbad as [-> | [-> Ho%Z.eqb_neq]]; [by rewrite andb_false_r |].
    rewrite Ho. by rewrite andb_false_r.
Qed.
Lemma resolve_quiet E E' s s' str : Inv E s -> quiet E' s s' -> resolve s' str = resolve s str.
Proof.
  intros I Hq. unfold resolve, origin. rewrite (table_quiet _ _ _ _ I Hq), (q_pgrp _ _ _ Hq).
  rewrite (key_held _ _ _ _ Shr (if bool_decide (str !! 0%nat = Some slash) then p_slash (pgrp s) else p_dot (pgrp s)) I Hq); [done |].
  eapply (pg_holder s (pgrp s)); [by left |]. case_bool_decide; [by left | right; by left].
Qed.

(** What [kbind] does: it binds, if both names lead to files that go together. *)
Definition binds (s : state) (new old : list Z) (flags : Z) (r : Z) (s' : state) : Prop :=
  (exists kn ko, resolve s new = Some kn /\ resolve s old = Some ko /\ mountable flags (top (table s) kn) ko = true /\ bound_to (table s) kn ko flags (table s')) \/
  r = -1 /\ table s' = table s /\
    ((forall kn ko, resolve s new = Some kn -> resolve s old = Some ko -> mountable flags (top (table s) kn) ko = false) \/ exists e, Faulty e).

Lemma kbind_at pn po new old flags E s (Q : Z -> state -> Prop) R : static -> text pn new -> plain new -> text po old -> plain old -> Inv E s ->
  (forall r s', Inv E s' -> binds s new old flags r s' -> Q r s') -> wp False (kbind pn po flags) s Q R.
Proof.
  intros Hs Htn Hpn Hto Hpo I HQ. apply call_wp, wp_seq. eapply namec_at; [done | exact Htn | exact Hpn | by left | exact I | |].
  2: { intros e s1 I1 Hq1 He. apply HQ; [done |]. right. split_and!; [done | by eapply table_quiet |]. destruct He as [[_ ->] | ?]; [by left | right; eauto]. }
  intros c kn s1 I1 Hq1 Er Ha. cbn [leads] in Ha. pose proof (table_quiet _ _ _ _ I Hq1) as Et.
  apply wp_seq. unfold keep. apply wp_catch. eapply bindmount_at; [done | exact Hto | exact Hpo | exact I1 | exact Ha | |]; rewrite ?Et, ?(resolve_quiet _ _ _ _ _ I Hq1).
  - intros r ko s2 I2 Eo Hm Hb. apply wp_seq. eapply (cclose_wp False Shr c E); [exact I2 |]. intros s3 I3 Hq3. apply wp_return, HQ; [done |].
    left. exists kn, ko. split_and!; try done. by rewrite (table_quiet _ _ _ _ I2 Hq3).
  - intros e s2 I2 Hq2 He. apply wp_seq. eapply (cclose_wp False Own c E); [exact I2 |]. intros s3 I3 Hq3. apply wp_raise, HQ; [done |].
    right. split_and!; [done | by rewrite (table_quiet _ _ _ _ I2 Hq3), (table_quiet _ _ _ _ I1 Hq2) |]. destruct He as [He | ?]; [| right; eauto].
    left. intros kn' ko En Eo. assert (kn' = kn) as -> by congruence. by apply He.
Qed.
(** Nothing is mounted from a server. *)
Definition serverless (s : state) : Prop := forall h m ch, h ∈ heads (pgrp s) -> m ∈ mount h -> chans s !! to m = Some ch -> mchan ch = None.

Lemma serverless_quiet E E' s s' : Inv E s -> quiet E' s s' -> serverless s -> serverless s'.
Proof.
  intros I Hq Hs h m ch' Hh Hm Ec'. rewrite (q_pgrp _ _ _ Hq) in Hh.
  assert ((Shr, to m) ∈ holders s) as Hto by (eapply (pg_holder s (pgrp s)); [by left | by eapply to_token]).
  destruct (inv_live _ _ Shr (to m) I) as [ch Ec]; [by apply held_shr |].
  destruct (q_frame _ _ _ Hq Shr (to m) ch (held_shr _ _ _ _ Hto) Ec) as (ch2 & Ec2 & Ecore & _). assert (ch2 = ch') as -> by congruence.
  rewrite <- (Hs h m ch Hh Hm Ec). unfold core in Ecore. congruence.
Qed.

Lemma position_fmap {A B} (g : A -> B) f l : position f (g <$> l) = position (fun x => f (g x)) l.
Proof. induction l as [| x l IH]; [done |]. cbn. by rewrite IH. Qed.
Lemma position_ext {A} (f g : A -> bool) l : (forall x, x ∈ l -> f x = g x) -> position f l = position g l.
Proof. induction l as [| x l IH]; intros H; [done |]. cbn. rewrite (H x) by (by left). rewrite IH; [done |]. intros y Hy. apply H. by right. Qed.

(** The table without the first mount of [old] upon [new], or without any. *)
Definition unmount_of (s : state) (old new : list Z) : option (gmap file (list entry)) :=
  kn ← resolve s new;
  es ← table s !! kn;
  match old with
  | [] => Some (delete kn (table s))
  | _ => ko ← resolve s old; j ← position (fun e => bool_decide (e.1 = top (table s) ko)) es; Some (unbind kn j (table s))
  end.
Definition unmounted (s : state) (old new : list Z) (r : Z) (s' : state) : Prop :=
  r = 0 /\ unmount_of s old new = Some (table s') \/
  r = -1 /\ table s' = table s /\ (unmount_of s old new = None \/ exists e, Faulty e).

Lemma unmounts_position E s k ch ko c : Inv E s -> serverless s -> at_file s ko c -> chans s !! c = Some ch ->
  position (mounted_as (chans s) ch) (mounts_on (chans s) (heads (pgrp s)) k) =
  position (fun e : entry => bool_decide (e.1 = top (table s) ko)) (default [] (table s !! k)).
Proof.
  intros I Hs Ha Ec. destruct (at_file_members _ _ _ _ I Ha) as (ch' & ms & Ec' & _ & Ek & _). assert (ch' = ch) as -> by congruence.
  assert (default [] (table s !! k) = entries s (mounts_on (chans s) (heads (pgrp s)) k)) as ->.
  { pose proof (table_mounts_on _ _ k I) as Ht. destruct (mounts_on _ _ _); by rewrite Ht. }
  unfold entries. rewrite position_fmap. apply position_ext. intros m Hm. pose proof (mounts_on_holder _ _ _ Hm) as Hto.
  destruct (inv_live _ _ Shr (to m) I) as [mch Em]; [by apply held_shr |]. unfold mounted_as. rewrite Em.
  destruct (mounts_on_elem (chans s) (heads (pgrp s)) k) as [En | (h & Hh & En)]; [rewrite En in Hm; by apply not_elem_of_nil in Hm |]. rewrite En in Hm.
  rewrite (Hs h m mch Hh Hm Em), orb_false_r. apply Bool.eq_iff_eq_true. rewrite is_chan_spec, bool_decide_eq_true.
  unfold entry_of, key_of, key_at. rewrite Em. cbn. rewrite Ek. split; congruence.
Qed.

Lemma kunmount_at po pn old new E s (Q : Z -> state -> Prop) R : static -> serverless s -> text po old -> old = [] \/ plain old -> text pn new -> plain new -> Inv E s ->
  (forall r s', Inv E s' -> unmounted s old new r s' -> Q r s') -> wp False (kunmount po pn) s Q R.
Proof.
  intros Hs Hsv Hto Hpo Htn Hpn I HQ. apply call_wp, wp_seq. eapply namec_at; [done | exact Htn | exact Hpn | by right | exact I | |].
  2: { intros e s1 I1 Hq1 He. apply HQ; [done |]. right. split_and!; [done | by eapply table_quiet |]. unfold unmount_of.
    destruct He as [[_ ->] | ?]; [by left | right; eauto]. }
  intros cm kn s1 I1 Hq1 Er Ha. cbn [leads] in Ha. pose proof (table_quiet _ _ _ _ I Hq1) as Et. unfold key_at in Ha.
  destruct (chans s1 !! cm) as [chm |] eqn:Ecm; [| done]. injection Ha as Ekm.
  apply wp_seq, (wp_need _ _ (default 0 (old !! 0%nat))); [destruct Hto as (-> & _); by destruct old |]. apply wp_seq.
  assert (forall (cd : option Z) s2, Inv (opt_own cd ++ (Own, cm) :: E) s2 -> quiet ((Own, cm) :: E) s1 s2 ->
    match cd with Some c => exists ko, resolve s old = Some ko /\ at_file s2 ko c | None => old = [] end -> (old = [] -> cd = None) -> wp False (
    catch (cunmount cm cd) (fun e => cclose cm;; cclose_opt cd;; error e);; cclose cm;; cclose_opt cd;; mret 0) s2 Q (fun _ s' => Q (-1) s')) as Hrest.
  { intros cd s2 I2 Hq2 Hcd Hold.
    assert (forall {A} s3 (k : M A) Q' R', Inv (opt_own cd ++ (Own, cm) :: E) s3 -> (forall s', Inv E s' -> table s' = table s3 -> wp False k s' Q' R') -> wp False (cclose cm;; cclose_opt cd;; k) s3 Q' R') as Hend.
    { intros A s3 k Q' R' I3 Hk. assert (Inv ((Own, cm) :: opt_own cd ++ E) s3) as I3' by (eapply inv_permute; [| exact I3]; symmetry; apply Permutation_middle).
      apply wp_seq. eapply (cclose_wp False Own cm (opt_own cd ++ E)); [exact I3' |].
      intros s4 I4 Hq4. apply wp_seq. assert (Inv (fd_token cd ++ E) s4) as I4' by (destruct cd as [c |]; [exact (inv_any _ _ _ _ I4) | exact I4]).
      eapply (cclose_opt_wp False cd E); [exact I4' |]. intros s5 I5 Hq5. apply Hk; [done |]. by rewrite (table_quiet _ _ _ _ I4' Hq5), (table_quiet _ _ _ _ I3' Hq4). }
    destruct (q_frame _ _ _ Hq2 Own cm chm ltac:(held) Ecm) as (chm' & Ecm2 & _ & Ee). rewrite (Ee eq_refl) in Ecm2. clear Ee chm'.
    assert (quiet E s s2) as Hq02 by quiets. pose proof (table_quiet _ _ _ _ I Hq02) as Et2. pose proof (serverless_quiet _ _ _ _ I Hq02 Hsv) as Hsv2.
    assert (match cd with Some c => exists ch ko, chans s2 !! c = Some ch /\ resolve s old = Some ko /\ at_file s2 ko c | None => old = [] end) as Hcd'.
    { destruct cd as [c |]; [| done]. destruct Hcd as (ko & Eo & Hao). pose proof Hao as (ch & Ech & _). by exists ch, ko. }
    apply wp_seq, wp_catch. apply (cunmount_wp False cm cd chm (c ← cd; chans s2 !! c) (opt_own cd ++ (Own, cm) :: E)); [done | done | | |].
    - destruct cd as [c |]; [| done]. destruct Hcd' as (ch & ko & Ech & _). cbn. by rewrite Ech.
    - intros s3 I3 Hu. apply Hend; [done |]. intros s4 I4 Et4. apply wp_return, HQ; [done |]. left. split; [done |].
      unfold unmount_of. rewrite Er, <- Et2. cbn [mbind option_bind]. unfold unmounts in Hu. rewrite Ekm in Hu. destruct cd as [c |]; cbn in Hu.
      + destruct Hcd' as (ch & ko & Ech & Eo & Hao). rewrite Ech in Hu. destruct Hu as (j & Hj & Hu). rewrite (unmounts_position _ _ _ _ ko c I2 Hsv2 Hao Ech) in Hj.
        destruct (table s2 !! kn) as [es |] eqn:Es; [| done]. cbn in Hj |- *. destruct old as [| b old']; [by specialize (Hold eq_refl) |]. rewrite Eo. cbn. rewrite Hj. cbn. by rewrite Et4, Hu.
      + subst old. destruct Hu as [[es ->] Hu]. cbn. by rewrite Et4, Hu.
    - intros e He. apply Hend; [done |]. intros s4 I4 Et4. apply wp_raise, HQ; [done |]. right. split_and!; [done | by rewrite Et4 |]. left.
      unfold unmount_of. rewrite Er, <- Et2. cbn [mbind option_bind]. rewrite Ekm in He. destruct He as [[_ ->] | (_ & ch & Ech & Hp)]; [done |].
      destruct cd as [c |]; [| done]. cbn in Ech. destruct Hcd' as (ch' & ko & Ech' & Eo & Hao). assert (ch' = ch) as -> by congruence.
      rewrite (unmounts_position _ _ _ _ ko c I2 Hsv2 Hao Ech') in Hp. destruct (table s2 !! kn) as [es |] eqn:Es; [| done]. cbn in Hp |- *.
      destruct old as [| b old']; [by specialize (Hold eq_refl) |]. rewrite Eo. cbn. by rewrite Hp. }
  destruct Hpo as [-> | Hpo].
  - change (default 0 ([] !! 0%nat) =? 0) with true. cbv iota. apply wp_return. apply (Hrest None); [exact I1 | quiets | done | done].
  - destruct (Z.eqb_spec (default 0 (old !! 0%nat)) 0) as [E0 | _].
    { exfalso. destruct Hpo as (Hne & _). destruct Hto as (_ & _ & Hz). destruct old as [| b old']; [done |]. cbn in E0. subst b. apply Hz. by left. }
    apply wp_seq, (keep_wp _ Own _ E). eapply namec_at; [done | exact Hto | exact Hpo | by left | exact I1 | |]; rewrite ?(resolve_quiet _ _ _ _ _ I Hq1).
    + intros c ko s2 I2 Hq2 Eo Hao. apply wp_return. apply (Hrest (Some c)); [exact I2 | exact Hq2 | by exists ko | intros ->; by destruct Hpo].
    + intros e s2 I2 Hq2 He. split; [done |]. intros s3 I3 Hq3. apply HQ; [done |]. right. assert (quiet E s s3) as Hq by quiets.
      split_and!; [done | by eapply table_quiet |]. destruct He as [[_ Eo] | ?]; [left | right; eauto]. unfold unmount_of. rewrite Er. cbn [mbind option_bind].
      destruct (table s !! kn); [| done]. cbn. destruct Hpo as (Hne & _). destruct old as [| b old']; [done |]. by rewrite Eo.
Qed.
(** ** Going to a directory *)

Lemma split_slash a b : split (a ++ slash :: b) = let '(e, es) := split a in let '(e', es') := split b in (e, es ++ e' :: es').
Proof.
  induction a as [| c a IH]; cbn [app split].
  - by destruct (split b).
  - rewrite IH. destruct (split a), (split b). by destruct (c =? slash).
Qed.

Lemma names_slash_app a b : names (a ++ slash :: b) = names a ++ names b.
Proof.
  unfold names. rewrite split_slash. destruct (split a) as [e es], (split b) as [e' es']. rewrite app_comm_cons, filter_app. done.
Qed.

(** [kchdir] moves [dot], and nothing else that names depend on. *)
Definition moved (s : state) (str : list Z) (s' : state) : Prop :=
  table s' = table s /\ key_at (chans s') (p_slash (pgrp s')) = key_at (chans s) (p_slash (pgrp s)) /\
  exists k, destination s str = Some k /\ is_set k.1.1 CHDIR = true /\ key_at (chans s') (p_dot (pgrp s')) = Some k.

Lemma kchdir_at p str E s (Q : Z -> state -> Prop) R : static -> text p str -> plain str -> Inv E s ->
  (forall r s', Inv E s' -> r = 0 /\ moved s str s' \/
     r = -1 /\ quiet E s s' /\ ((forall k, destination s str = Some k -> is_set k.1.1 CHDIR = false) \/ exists e, Faulty e) -> Q r s') -> wp False (kchdir p) s Q R.
Proof.
  intros Hs Ht Hp I HQ. apply call_wp, wp_seq. eapply namec_dir_at; [done | exact Ht | done | exact I | |].
  2: { intros e s1 I1 Hq1 He. apply HQ; [done |]. right. split_and!; [done | done |]. destruct He as [[_ Er] | [(_ & k & -> & Hk) | ?]]; [left; unfold destination; by rewrite Er | left; by intros ? [= <-] | right; eauto]. }
  intros c k s1 I1%inv_share Hq1 Er Hd Hk. apply wp_seq, wp_gets, wp_seq.
  set (f := fun s => set_pgrp (MkPgrp (mnthash (pgrp s)) (p_slash (pgrp s)) c (nodevs (pgrp s))) s).
  apply (wp_conseq False _ _ (fun _ s' => Q 0 (f s')) _ (fun _ _ => False)); [| intros [] s' HQ'; by apply wp_seq, wp_put, wp_return | done].
  assert (Outside f) as Ho by exact (outside_pgrp (fun g => MkPgrp (mnthash g) (p_slash g) c (nodevs g))).
  apply (wp_blind False f (cclose (p_dot (pgrp s1))) s1 (fun _ s' => Q 0 s') (fun _ _ => False)); [by apply blind_cclose |].
  pose proof (inv_dot _ _ _ I1) as I2. eapply cclose_wp; [exact I2 |]. intros s3 I3 Hq3. apply HQ; [done | left; split; [done |]].
  assert (forall x, x ∈ [p_slash (pgrp (f s1)); p_dot (pgrp (f s1))] -> key_at (chans s3) x = key_at (chans s1) x) as Hkeep.
  { intros x Hx. change (chans s1) with (chans (f s1)). eapply (key_held _ _ _ _ Shr); [exact I2 | exact Hq3 |]. eapply (pg_holder _ (pgrp (f s1))); [by left |].
    apply elem_of_cons in Hx as [-> | ->%list_elem_of_singleton]; [by left | right; by left]. }
  split_and!.
  - rewrite (table_quiet _ _ _ _ I2 Hq3). change (table s1 = table s). by eapply table_quiet.
  - rewrite (q_pgrp _ _ _ Hq3), Hkeep by by left. cbn. rewrite <- (q_pgrp _ _ _ Hq1). eapply (key_held _ _ _ _ Shr); [exact I | exact Hq1 |].
    rewrite (q_pgrp _ _ _ Hq1). eapply (pg_holder s (pgrp s)); by left.
  - exists k. split_and!; [done | done |]. rewrite (q_pgrp _ _ _ Hq3), Hkeep by (right; by left). exact Hk.
Qed.

(** Names that start from [dot] lead on from the destination, the others where
    they led. *)
Lemma moved_resolve s str s' q : moved s str s' ->
  resolve s' q = if bool_decide (q !! 0%nat = Some slash) then resolve s q else k ← destination s str; descend files (table s) k (names q).
Proof.
  intros (Et & Es & k & -> & _ & Hd). unfold resolve, origin. destruct (bool_decide _); [by rewrite Es, Et | by rewrite Hd, Et].
Qed.

(** That is where the name of the directory and the name lead together. *)
Lemma destination_resolve s str q : str <> [] -> root_name str = false ->
  (k ← destination s str; descend files (table s) k (names q)) = resolve s (str ++ slash :: q).
Proof.
  intros Hne Hr. unfold destination, resolve. rewrite Hr.
  assert (origin s (str ++ slash :: q) = origin s str) as -> by (unfold origin; by destruct str). rewrite names_slash_app.
  destruct (origin s str) as [k0 |]; [| done]. cbn [mbind option_bind]. rewrite (descend_app files (table s)). by destruct (descend files (table s) k0 (names str)).
Qed.
(** ** Binding and unmounting again *)

(** Tables that do not differ for names. *)
Definition same_places (T T' : gmap file (list entry)) : Prop := forall k, place T k = place T' k.
#[export] Instance same_places_equiv : Equivalence same_places.
Proof.
  split; [done | by intros T T' H k | intros T1 T2 T3 H1 H2 k; by rewrite H1].
Qed.
#[export] Instance descend_proper : Proper (same_places ==> eq ==> eq ==> eq) (descend files).
Proof.
  intros T T' H k k' -> es es' ->. revert k'. induction es' as [| e es IH]; intros k; [done |]. cbn. rewrite (H k). destruct (find_in files (place T' k) e); [apply IH | done].
Qed.

Lemma place_insert T k es k' : place (<[k := es]> T) k' = if decide (k' = k) then es.*1 else place T k'.
Proof. unfold place. destruct (decide (k' = k)) as [-> |]; [by rewrite lookup_insert_eq | by rewrite lookup_insert_ne by congruence]. Qed.

Lemma unbind_bind T (new old : entry) create : new.1 <> old.1 -> T !! old.1 <> Some [] ->
  exists es, bind new [] old MBEFORE create T !! old.1 = Some ((new.1, create || new.2) :: es) /\ same_places (unbind old.1 0 (bind new [] old MBEFORE create T)) T.
Proof.
  intros Hne Hes. unfold bind. destruct (T !! old.1) as [es |] eqn:Eo.
  - rewrite decide_False by done. change (MBEFORE =? MREPL) with false. change (MBEFORE =? MAFTER) with false. cbn [app]. exists es. split; [by rewrite lookup_insert_eq |].
    unfold unbind. rewrite lookup_insert_eq. cbn. destruct es as [| e es]; [done |]. rewrite insert_insert_eq. by rewrite insert_id.
  - change (MBEFORE =? MREPL) with false. change (MBEFORE =? MAFTER) with false. cbn [app]. exists [old]. split; [by rewrite lookup_insert_eq |].
    unfold unbind. rewrite lookup_insert_eq. cbn. rewrite insert_insert_eq. intros k. rewrite place_insert. destruct (decide (k = old.1)) as [-> |]; [| done].
    unfold place. by rewrite Eo.
Qed.

Lemma table_full E s k : Inv E s -> table s !! k <> Some [].
Proof. intros I H. pose proof (table_mounts_on _ _ k I) as Ht. destruct (mounts_on _ _ _) as [| m ms]; [congruence |]. rewrite H in Ht. done. Qed.

Lemma bind_unmount_at pn po new old kn ko s r1 s1 r2 s2 : static -> (forall e, ~ Faulty e) -> text pn new -> plain new -> text po old -> plain old ->
  Inv [] s -> resolve s new = Some kn -> table s !! kn = None -> resolve s old = Some ko -> kn <> ko -> mountable MBEFORE kn ko = true ->
  kbind pn po MBEFORE s = Ret r1 s1 -> serverless s1 -> resolve s1 new = Some kn -> resolve s1 old = Some ko ->
  kunmount pn po s1 = Ret r2 s2 -> r2 = 0 /\ same_places (table s2) (table s).
Proof.
  intros Hs Hf Htn Hpn Hto Hpo I En Tn Eo Hne Hm Eb Hsv En1 Eo1 Eu.
  assert (top (table s) kn = kn) as Htop by (unfold top, place; by rewrite Tn).
  pose proof (kbind_at pn po new old MBEFORE [] s (fun r s' => Inv [] s' /\ binds s new old MBEFORE r s') (fun _ _ => False) Hs Htn Hpn Hto Hpo I ltac:(done)) as Hb.
  unfold wp in Hb. rewrite Eb in Hb. destruct Hb as [I1 [(kn' & ko' & En' & Eo' & _ & cr & co & Et) | (_ & _ & [Hno | [e He]])]]; [| | by apply Hf in He].
  2: { specialize (Hno kn ko En Eo). rewrite Htop in Hno. congruence. }
  assert (kn' = kn) as -> by congruence. assert (ko' = ko) as -> by congruence. rewrite Htop, Tn in Et. cbn [default tail] in Et. clear En' Eo'.
  destruct (unbind_bind (table s) (kn, cr) (ko, co) (is_set MBEFORE MCREATE)) as (es & El & Hp); [done | by eapply table_full |]. cbn [fst snd] in El, Hp.
  change (Z.land MBEFORE MORDER) with MBEFORE in Et. rewrite <- Et in El, Hp.
  assert (top (table s1) kn = kn) as Htop1.
  { unfold top, place. rewrite Et. unfold bind. cbn [fst]. destruct (table s !! ko); [rewrite decide_False by done |]; rewrite lookup_insert_ne by congruence; by rewrite Tn. }
  pose proof (kunmount_at pn po new old [] s1 (fun r s' => Inv [] s' /\ unmounted s1 new old r s') (fun _ _ => False)) as Hu.
  specialize (Hu Hs Hsv Htn ltac:(by right) Hto Hpo I1 ltac:(done)). unfold wp in Hu. rewrite Eu in Hu. destruct Hu as [I2 Hu].
  assert (unmount_of s1 new old = Some (unbind ko 0 (table s1))) as Euo.
  { unfold unmount_of. rewrite Eo1. cbn [mbind option_bind]. rewrite El. cbn [mbind option_bind]. destruct Hpn as (Hne' & _). destruct new as [| b new']; [done |].
    rewrite En1. cbn [mbind option_bind position fst]. by rewrite bool_decide_true by (by rewrite Htop1). }
  destruct Hu as [[-> Hu] | (_ & _ & [Hu | [e He]])]; [| congruence | by apply Hf in He]. split; [done |]. rewrite Euo in Hu. injection Hu as <-. exact Hp.
Qed.
End Walk.
