(* ===== verification/NsUnion.v ===== *)
(** * The name space: reading a union

    A read of the members of a union, one after the other, and the reads after
    it. *)

From S2P Require Import Prelude Styx Rune Name Ns NsInv NsOps NsWalk NsNamec NsFd.
Import Ns.

#[local] Open Scope Z_scope.

(** ** Other channels than the ones that are cloned *)

Section Keeps.
Context {D : Devices}.
Context (c md : Z).

(** [c] is in use, and open for [md]. *)
Definition in_use (s : state) : Prop := (c ∉ free s) /\ c <= fid s /\ exists ch, chans s !! c = Some ch /\ mode ch = md.

Definition keeps {A} (m : M A) (G : A -> Prop) : Prop :=
  forall s, in_use s -> match m s with Ret a s' => in_use s' /\ G a | Raise _ s' => in_use s' | Trap _ => True end.

Lemma keeps_ret {A} (a : A) (G : A -> Prop) : G a -> keeps (mret a) G.
Proof. by intros H s Hs. Qed.
Lemma keeps_error {A} e (G : A -> Prop) : keeps (error e) G.
Proof. by intros s Hs. Qed.
Lemma keeps_stop {A} t (G : A -> Prop) : keeps (stop t) G.
Proof. done. Qed.
Lemma keeps_weaken {A} (m : M A) (G G' : A -> Prop) : keeps m G -> (forall a, G a -> G' a) -> keeps m G'.
Proof. intros Hm H s Hs. specialize (Hm s Hs). destruct (m s); naive_solver. Qed.
Lemma keeps_bind {A B} (m : M A) (k : A -> M B) G H : keeps m G -> (forall a, G a -> keeps (k a) H) -> keeps (m ≫= k) H.
Proof.
  intros Hm Hk s Hs. specialize (Hm s Hs). unfold mbind, m_bind. destruct (m s) as [a s' | e s' | t]; [| done | done].
  destruct Hm as [Hs' Ha]. exact (Hk a Ha s' Hs').
Qed.
Lemma keeps_catch {A} (m : M A) h G : keeps m G -> (forall e, keeps (h e) G) -> keeps (catch m h) G.
Proof. intros Hm Hh s Hs. specialize (Hm s Hs). unfold catch. destruct (m s) as [a s' | e s' | t]; [done | by apply Hh | done]. Qed.
Lemma keeps_gets {A} (f : state -> A) : keeps (gets f) (fun _ => True).
Proof. by intros s Hs. Qed.
Lemma keeps_need {A} (o : option A) : keeps (need o) (fun _ => True).
Proof. destruct o; [by apply keeps_ret | apply keeps_stop]. Qed.
Lemma keeps_modify f : (forall s, chans (f s) = chans s /\ free (f s) = free s /\ fid (f s) = fid s) -> keeps (modify f) (fun _ => True).
Proof. intros H s Hs. unfold modify, in_use. by destruct (H s) as (-> & -> & ->). Qed.
Lemma keeps_chan x : keeps (chan x) (fun _ => True).
Proof. intros s Hs. unfold chan. by destruct (chans s !! x). Qed.
Lemma keeps_put x ch : x <> c -> keeps (put x ch) (fun _ => True).
Proof. intros H s (H1 & H2 & ch' & H3 & H4). split; [| done]. split_and!; [done | done |]. exists ch'. cbn. by rewrite lookup_insert_ne. Qed.
Lemma keeps_upd x f : x <> c \/ (forall ch, mode (f ch) = mode ch) -> keeps (upd x f) (fun _ => True).
Proof.
  intros H s Hs. unfold upd, chan, put, modify, mbind, m_bind. destruct (chans s !! x) as [ch |] eqn:E; [| done]. split; [| done].
  destruct Hs as (H1 & H2 & ch' & H3 & H4). split_and!; [done | done |]. cbn. destruct (decide (x = c)) as [-> | Hx].
  - rewrite lookup_insert_eq. eexists. split; [done |]. destruct H as [H | H]; [done |]. rewrite H. congruence.
  - rewrite lookup_insert_ne by done. by exists ch'.
Qed.
Lemma keeps_if {A} (b : bool) (m m' : M A) G : keeps m G -> keeps m' G -> keeps (if b then m else m') G.
Proof. by destruct b. Qed.

Lemma keeps_malloc : keeps malloc (fun _ => True).
Proof.
  eapply keeps_bind; [apply keeps_gets |]. intros n _. apply keeps_if; [apply keeps_error |]. apply keeps_if; [by apply keeps_ret |]. by apply keeps_modify.
Qed.

Lemma keeps_newchan : keeps newchan (fun nc => nc <> c).
Proof.
  assert (forall x, x <> c -> keeps (upd x (fun ch => MkChan 1 0 0 (qid ch) 0 (mode ch) 0 None (mountid ch) 0 None);; mret x) (fun nc => nc <> c)) as Hend.
  { intros x Hx. eapply keeps_bind; [by apply keeps_upd; left |]. intros _ _. by apply keeps_ret. }
  intros s Hs. unfold newchan, gets. change (mbind ?k (fun s => Ret (free s) s) s) with (k (free s) s). destruct (free s) as [| x fr] eqn:Ef.
  - assert (keeps (malloc;; mret tt) (fun _ => True)) as Hm by (eapply keeps_bind; [apply keeps_malloc | intros; by apply keeps_ret]).
    pose proof (keeps_malloc s Hs) as Hm1. unfold mbind, m_bind in *. destruct (malloc s) as [[] s1 | e s1 | t]; [| done | done]. destruct Hm1 as [Hs1 _].
    apply (Hend (fid s1 + 1)); [destruct Hs1 as (_ & ? & _); lia |]. destruct Hs1 as (H1 & H2 & ch' & H3 & H4). split_and!; [done | cbn; lia |].
    exists ch'. cbn. rewrite lookup_insert_ne by lia. done.
  - destruct Hs as (H1 & H2 & H3). rewrite Ef in H1. apply not_elem_of_cons in H1 as [Hx H1]. apply (Hend x); [congruence |]. by split_and!.
Qed.

Lemma keeps_cclone x : keeps (cclone x) (fun nc => nc <> c).
Proof.
  eapply keeps_bind; [apply keeps_chan |]. intros ch _. apply keeps_if; [apply keeps_stop |]. eapply keeps_bind; [apply keeps_gets |]. intros [ds [e | ch']] _; cbn;
    (eapply keeps_bind; [by apply keeps_modify |]); intros _ _; [apply keeps_error |]. eapply keeps_bind; [apply keeps_newchan |]. intros nc Hnc.
  eapply keeps_bind; [by apply keeps_put |]. intros _ _. by apply keeps_ret.
Qed.

Lemma keeps_dev_open nc m : nc <> c -> keeps (dev_open nc m) (fun _ => True).
Proof.
  intros Hnc. eapply keeps_bind; [apply keeps_chan |]. intros ch _. eapply keeps_bind; [apply keeps_gets |]. intros r _.
  eapply keeps_bind; [by apply keeps_modify |]. intros _ _. destruct r.2; [apply keeps_error | by apply keeps_put].
Qed.

Lemma keeps_dev_read nc n off : nc <> c -> keeps (dev_read nc n off) (fun _ => True).
Proof.
  intros Hnc. eapply keeps_bind; [apply keeps_chan |]. intros ch _. eapply keeps_bind; [apply keeps_gets |]. intros r _.
  eapply keeps_bind; [by apply keeps_modify |]. intros _ _. destruct r.2 as [e | [ch' bs]]; [apply keeps_error |]. eapply keeps_bind; [by apply keeps_put |].
  intros _ _. by apply keeps_ret.
Qed.

Lemma keeps_cclose nc : nc <> c -> keeps (cclose nc) (fun _ => True).
Proof.
  intros Hnc. eapply keeps_bind; [apply keeps_chan |]. intros ch _. apply keeps_if; [apply keeps_stop |]. eapply keeps_bind.
  { eapply keeps_bind; [apply keeps_chan |]. intros ch' _. eapply keeps_bind; [by apply keeps_put |]. intros _ _.
    apply (keeps_if _ _ _ (fun _ => True)); [apply keeps_stop | by apply keeps_ret]. }
  intros n _. apply keeps_if; [by apply keeps_ret |]. eapply keeps_bind; [apply keeps_chan |]. intros ch' _. eapply keeps_bind; [by apply keeps_modify |].
  intros _ _. eapply keeps_bind; [by apply keeps_upd; left |]. intros _ _ s (H1 & H2 & H3). split; [| done]. split_and!; [| done | done].
  cbn. by apply not_elem_of_cons.
Qed.

Lemma keeps_read_loop fuel nc n got : nc <> c -> keeps (read_loop fuel nc n got) (fun _ => True).
Proof.
  intros Hnc. revert got. induction fuel as [| fuel IH]; intros got; cbn [read_loop]; [by apply keeps_ret |]. apply keeps_if; [by apply keeps_ret |].
  eapply keeps_bind; [apply keeps_chan |]. intros ch _. eapply (keeps_bind _ _ (fun _ => True)).
  { apply keeps_catch; [| intros e; by apply keeps_ret]. eapply keeps_bind; [by apply keeps_dev_read |]. intros bs _. by apply keeps_ret. }
  intros [[| b bs] |] _; [by apply keeps_ret | | by apply keeps_ret]. eapply keeps_bind; [by apply keeps_upd; left |]. intros _ _. apply IH.
Qed.

Lemma keeps_mounts_at p : keeps (mounts_at p) (fun _ => True).
Proof. eapply keeps_bind; [apply keeps_gets |]. intros hs _. destruct (omap _ hs); [apply keeps_stop | by apply keeps_ret]. Qed.

(** The channel that is read keeps its mode. *)
Lemma keeps_unionread fuel n got : keeps (unionread_loop fuel c n got) (fun _ => True).
Proof.
  revert got. induction fuel as [| fuel IH]; intros got; cbn [unionread_loop]; [apply keeps_stop |].
  eapply keeps_bind; [apply keeps_chan |]. intros ch _. eapply keeps_bind; [apply keeps_need |]. intros p _.
  eapply keeps_bind; [apply keeps_mounts_at |]. intros ms _. eapply keeps_bind; [apply keeps_need |]. intros f _.
  eapply keeps_bind; [apply keeps_cclone |]. intros nc Hnc. apply keeps_if.
  { eapply keeps_bind; [by apply keeps_cclose |]. intros _ _. by apply keeps_ret. }
  eapply (keeps_bind _ _ (fun _ => True)).
  { apply keeps_catch; [| intros e; by apply keeps_ret]. eapply keeps_bind; [by apply keeps_dev_open |]. intros _ _. by apply keeps_ret. }
  intros opened _. eapply (keeps_bind _ _ (fun _ => True)).
  { apply keeps_if; [| by apply keeps_ret]. eapply keeps_bind; [by apply keeps_upd; left |]. intros _ _.
    eapply keeps_bind; [by apply keeps_read_loop |]. intros r _. eapply (keeps_bind _ _ (fun _ => True)); [| intros _ _; by apply keeps_ret].
    apply keeps_if; [by apply keeps_ret |]. eapply keeps_bind; [apply keeps_chan |]. intros nch _. by apply keeps_upd; right. }
  intros r _. eapply keeps_bind; [by apply keeps_cclose |]. intros _ _. apply keeps_if; [by apply keeps_ret |]. destruct (tail ms) as [| f2 ms2].
  - eapply keeps_bind; [by apply keeps_upd; right |]. intros _ _. by apply keeps_ret.
  - do 3 (eapply keeps_bind; [by apply keeps_upd; right |]; intros _ _). apply IH.
Qed.
End Keeps.

(** ** Reads *)

Section Reads.
Context {D : Devices} {L : Laws D}.

(** A descriptor that may be read, and its channel. *)
Definition readable (s : state) (n c : Z) (ch : Chan) : Prop :=
  fd_at (fgrp s) n = Some c /\ chans s !! c = Some ch /\ is_set (flag ch) CMSG = false /\ (mode ch = OREAD \/ mode ch = ORDWR).

(** How much is asked of a directory. *)
Definition whole (count : Z) : Z := count - Z.rem count DIRLEN.

Definition hold (c : Z) (ch : Chan) (s : state) : state := set_chans (<[c := set_ref (ref ch + 1) ch]> (chans s)) s.

Lemma fdtochan_read E s n c ch : Inv E s -> readable s n c ch ->
  fdtochan n OREAD true true s = Ret c (hold c ch s) /\ Inv ((Any, c) :: E) (hold c ch s) /\ quiet E s (hold c ch s).
Proof.
  intros I (En & Ec & Hf & Hm). pose proof (inv_fds _ _ I) as [_ _ Hu]. pose proof En as [Hn Hi]%fd_at_some. specialize (Hu _ _ Hi).
  pose proof (incref_wp False Any Any c E s (fun _ s' => Inv ((Any, c) :: E) s' /\ quiet E s s') (fun _ _ => False) I) as Hw. unfold wp, incref, upd, chan, put, modify, mbind, m_bind in Hw.
  specialize (Hw (held_shr _ _ _ _ (fd_holder _ _ _ En)) ltac:(done) ltac:(done) ltac:(done) ltac:(by auto)). rewrite Ec in Hw. split; [| exact Hw].
  unfold fdtochan, gets, incref, upd, chan, put, modify, mbind, m_bind. destruct (Z.ltb_spec n 0), (Z.ltb_spec (maxfd (fgrp s)) n); try lia. cbn [orb].
  rewrite En, Ec. cbn [chans set_chans]. rewrite lookup_insert_eq. cbn [set_ref flag mode]. rewrite Hf. unfold hold. by destruct Hm as [-> | ->].
Qed.

(** The channel of a descriptor is let go. *)
Lemma cclose_held E s c ch : Inv ((Any, c) :: E) s -> (Any, c) ∈ holders s -> chans s !! c = Some ch ->
  cclose c s = Ret tt (set_chans (<[c := set_ref (ref ch - 1) ch]> (chans s)) s) /\ 2 <= ref ch.
Proof.
  intros I Hh Ec. destruct (inv_get _ _ Any c I ltac:(held)) as (ch' & Ec' & Hfr & _). assert (ch' = ch) as -> by congruence.
  assert (2 <= ref ch) as Hr.
  { pose proof (inv_focus _ _ _ I) as G. destruct (good_get _ _ _ _ Any c G ltac:(by left)) as (ch' & Ec2 & _ & Hr & _). assert (ch' = ch) as -> by congruence.
    rewrite occ_one, decide_True in Hr by done. assert (0 < occ c (holders s ++ E).*2)%nat; [| lia]. apply occ_elem, (snd_elem _ Any), elem_of_app. by left. }
  split; [| done]. unfold cclose, decref, chan, put, modify, mbind, m_bind. rewrite Ec. rewrite Hfr, Ec. cbn. destruct (Z.ltb_spec (ref ch - 1) 0); [lia |].
  cbn. by destruct (Z.eqb_spec (ref ch - 1) 0); [lia |].
Qed.

(** A read of a directory, when its descriptor is in order. *)
Definition dir_read (c : Z) (ch : Chan) (count : Z) : M (list Z) :=
  match mnt ch with
  | Some p => ms ← mounts_at p; unionread_loop (S (length ms)) c count []
  | None => bs ← dev_read c count (offset ch); upd c (fun ch => set_offset (u32 (offset ch + zlen bs)) ch);; mret bs
  end.

Lemma kread_dir E s n c ch count : Inv E s -> readable s n c ch -> is_set (path (qid ch)) CHDIR = true ->
  kread n count s =
    if negb (offset ch mod DIRLEN =? 0) || (whole count =? 0) then match cclose c (hold c ch s) with Ret _ s' => Ret (-1, []) s' | Raise _ s' => Ret (-1, []) s' | Trap t => Trap t end
    else match dir_read c ch (whole count) (hold c ch s) with
         | Ret bs s' => match cclose c s' with Ret _ s' => Ret (zlen bs, bs) s' | Raise _ s' => Ret (-1, []) s' | Trap t => Trap t end
         | Raise _ s' => match cclose c s' with Ret _ s' => Ret (-1, []) s' | Raise _ s' => Ret (-1, []) s' | Trap t => Trap t end
         | Trap t => Trap t
         end.
Proof.
  intros I Hr Hd. destruct (fdtochan_read _ _ _ _ _ I Hr) as (Ef & _ & _). unfold kread, catch, mbind, m_bind. rewrite Ef. unfold keep, catch.
  assert (chan c (hold c ch s) = Ret (set_ref (ref ch + 1) ch) (hold c ch s)) as Ec by (unfold chan, hold; cbn; by rewrite lookup_insert_eq).
  rewrite Ec. cbn [qid set_ref offset mnt]. rewrite Hd. cbv zeta. fold (whole count). destruct (negb (offset ch mod DIRLEN =? 0) || (whole count =? 0)); cbn [andb].
  - unfold error, mbind, m_bind. by destruct (cclose c (hold c ch s)) as [[] ? | |].
  - unfold dir_read, error, mbind, m_bind, mret, m_ret. destruct (mnt ch) as [p |]; cbn iota.
    + destruct (mounts_at p _) as [ms s1 | e s1 | t]; [destruct (unionread_loop _ _ _ _ s1) as [bs s2 | e s2 | t] | |]; repeat case_match; congruence.
    + destruct (dev_read c _ _ _) as [bs s1 | e s1 | t]; [destruct (upd c _ s1) as [[] s2 | e s2 | t] | |]; repeat case_match; congruence.
Qed.

(** No table has a mount at an address. *)
Definition gone (s : state) (p : Z) : Prop := forall h m, h ∈ all_heads s -> m ∈ mount h -> addr m <> p.

Lemma suffix_absent p ms : (forall m, m ∈ ms -> addr m <> p) -> suffix p ms = None.
Proof.
  induction ms as [| m ms IH]; intros H; [done |]. cbn. destruct (Z.eqb_spec (addr m) p) as [Ha | _]; [by destruct (H m ltac:(by left)) |].
  apply IH. intros m' Hm. apply H. by right.
Qed.

Lemma mounts_at_gone s p : gone s p -> mounts_at p s = Trap Stale.
Proof.
  intros H. unfold mounts_at, gets, mbind, m_bind. unfold gone in H. induction (all_heads s) as [| h hs IH]; [done |]. cbn.
  rewrite (suffix_absent p (mount h)) by (intros m; apply H; by left). apply IH. intros h' m Hh. apply H. by right.
Qed.

Lemma read_gone E s n c ch p count : Inv E s -> readable s n c ch -> is_set (path (qid ch)) CHDIR = true ->
  offset ch mod DIRLEN = 0 -> whole count <> 0 -> mnt ch = Some p -> gone s p -> kread n count s = Trap Stale.
Proof.
  intros I Hr Hd Ho Hc Hp Hg. rewrite (kread_dir _ _ _ _ _ _ I Hr Hd), Ho. destruct (Z.eqb_spec (whole count) 0); [done |]. cbn [negb orb Z.eqb].
  unfold dir_read. rewrite Hp. unfold mbind, m_bind. by rewrite (mounts_at_gone (hold c ch s)).
Qed.

(** What a read of a channel that points to no union gives. *)
Definition driver_read (s : state) (ch : Chan) (count : Z) : Z * list Z :=
  if negb (offset ch mod DIRLEN =? 0) || (whole count =? 0) then (-1, [])
  else match (d_read (devices s) (set_ref (ref ch + 1) ch) (whole count) (offset ch)).2 with
       | inr (_, bs) => (zlen bs, bs)
       | inl _ => (-1, [])
       end.

Lemma read_single E s n c ch count : Inv E s -> readable s n c ch -> is_set (path (qid ch)) CHDIR = true -> mnt ch = None ->
  exists s', kread n count s = Ret (driver_read s ch count) s' /\ Inv E s' /\ quiet E s s'.
Proof.
  intros I Hr Hd Hm. rewrite (kread_dir _ _ _ _ _ _ I Hr Hd). destruct (fdtochan_read _ _ _ _ _ I Hr) as (_ & I1 & Hq1). destruct Hr as (En & Ec & _).
  assert (forall s1, Inv ((Any, c) :: E) s1 -> quiet E s s1 -> exists s2, cclose c s1 = Ret tt s2 /\ Inv E s2 /\ quiet E s s2) as Hclose.
  { intros s1 J Hq. pose proof (cclose_wp False Any c E s1 (fun _ s2 => Inv E s2 /\ quiet E s1 s2) (fun _ _ => False) J ltac:(by auto)) as Hw. unfold wp in Hw.
    destruct (inv_get _ _ Any c J ltac:(held)) as (ch1 & Ec1 & _).
    destruct (cclose_held E s1 c ch1 J) as [Ecl _]; [rewrite (quiet_holders _ _ _ Hq); by apply (fd_holder _ n) | done |]. rewrite Ecl in Hw |- *.
    eexists. split; [done |]. destruct Hw as [? Hq2]. split; [done | quiets]. }
  unfold driver_read. destruct (negb (offset ch mod DIRLEN =? 0) || (whole count =? 0)).
  { destruct (Hclose _ I1 Hq1) as (s2 & -> & J & Hq). by exists s2. }
  set (s1 := hold c ch s) in *. unfold dir_read. rewrite Hm.
  set (m := bs ← dev_read c (whole count) (offset ch); upd c (fun ch => set_offset (u32 (offset ch + zlen bs)) ch);; mret bs : M (list Z)).
  assert (wp False m s1 (fun _ s2 => Inv ((Any, c) :: E) s2 /\ quiet E s1 s2) (fun _ s2 => Inv ((Any, c) :: E) s2 /\ quiet E s1 s2)) as Hw.
  { apply wp_seq. eapply dev_read_wp; [exact I1 | done | | intros e s2 I2 Hq2; split; [done | quiets]]. intros bs s2 I2 Hq2 _. apply wp_seq.
    eapply any_upd_wp; [exact I2 | done |]. intros _ s3 _ I3 Hq3 _. apply wp_return. split; [done | quiets]. }
  assert (match m s1 with
    | Ret bs _ => exists x, (d_read (devices s) (set_ref (ref ch + 1) ch) (whole count) (offset ch)).2 = inr (x, bs)
    | Raise _ _ => exists e, (d_read (devices s) (set_ref (ref ch + 1) ch) (whole count) (offset ch)).2 = inl e
    | Trap _ => True end) as Hv.
  { unfold m, dev_read, gets, modify, error, upd, chan, put, mbind, m_bind. unfold s1 at 1, hold at 1. cbn [chans set_chans]. rewrite lookup_insert_eq.
    change (devices s1) with (devices s). unfold modify, mret, m_ret. destruct ((d_read (devices s) _ _ _).2) as [e | [x bs]]; [by exists e |].
    cbn. rewrite lookup_insert_eq. by exists x. }
  unfold wp in Hw. destruct (m s1) as [bs s2 | e s2 | t]; [| | by destruct Hw]; destruct Hw as [J Hq2], Hv as [x ->];
    (destruct (Hclose s2 J ltac:(quiets)) as (s3 & -> & J3 & Hq3); by exists s3).
Qed.

(** A union that has been read to its end: the channel has forgotten it. *)
Lemma read_end E s n c ch p count r bs s' : Inv E s -> readable s n c ch -> is_set (path (qid ch)) CHDIR = true -> mnt ch = Some p -> current s ch ->
  kread n count s = Ret (r, bs) s' -> 0 <= r < whole count ->
  Inv E s' /\ exists ch', readable s' n c ch' /\ key ch' = key ch /\ mnt ch' = None.
Proof.
  intros I Hr Hd Hp Hcur Hk Hlt. rewrite (kread_dir _ _ _ _ _ _ I Hr Hd) in Hk. destruct (fdtochan_read _ _ _ _ _ I Hr) as (_ & I1 & Hq1).
  destruct Hr as (En & Ec & Hf & Hmd). destruct (negb (offset ch mod DIRLEN =? 0) || (whole count =? 0)).
  { exfalso. destruct (cclose c _) as [[] ? | |]; [| | done]; injection Hk as <- <- <-; lia. }
  set (s1 := hold c ch s) in *. assert (chans s1 !! c = Some (set_ref (ref ch + 1) ch)) as Ec1 by apply lookup_insert_eq.
  unfold dir_read in Hk. rewrite Hp in Hk.
  set (m := ms ← mounts_at p; unionread_loop (S (length ms)) c (whole count) []) in *.
  assert (wp True m s1 (fun bs s2 => Inv ((Any, c) :: E) s2 /\ quiet E s1 s2 /\
    (zlen bs < whole count -> exists ch', chans s2 !! c = Some ch' /\ mnt ch' = None)) (fun _ _ => True)) as Hw.
  { apply wp_seq. eapply (mounts_at_wp True p s1 (set_ref (ref ch + 1) ch)); [done | | done]. intros ms Hms.
    eapply unionread_wp; [done | exact I1 | exact Ec1 | cbn; by rewrite Hp | | lia | | done].
    - intros ms' Hms'. rewrite Hms in Hms'. injection Hms' as <-. lia.
    - intros r' s2 I2 Hq2 Hend. split_and!; [done | done |]. apply Hend. exact Hcur. }
  assert (keeps c (mode ch) m (fun _ => True)) as Hkeep.
  { eapply keeps_bind; [apply keeps_mounts_at |]. intros ms _. apply keeps_unionread. }
  assert (in_use c (mode ch) s1) as Hu.
  { destruct I1 as [G _]. destruct (g_live _ _ _ _ G Any c ltac:(held)) as (ch1 & Ec2 & Hnf). split_and!; [done | by eapply (g_fid _ _ _ _ G) |].
    exists (set_ref (ref ch + 1) ch). done. }
  specialize (Hkeep s1 Hu). unfold wp in Hw. destruct (m s1) as [bs2 s2 | e s2 | t]; [| by destruct (cclose c s2) as [[] ? | |]; [| | done]; injection Hk as <- <- <-; lia | done].
  destruct Hw as (I2 & Hq2 & Hend), Hkeep as [(_ & _ & ch2 & Ec2 & Hm2) _].
  pose proof (cclose_wp False Any c E s2 (fun _ s3 => Inv E s3 /\ quiet E s2 s3) (fun _ _ => False) I2 ltac:(by auto)) as Hcl. unfold wp in Hcl.
  assert (quiet E s s2) as Hq by quiets.
  destruct (cclose_held E s2 c ch2 I2) as [Ecl _]; [rewrite (quiet_holders _ _ _ Hq); by apply (fd_holder _ n) | done |].
  rewrite Ecl in Hcl, Hk. destruct Hcl as [I3 Hq3]. injection Hk as <- <- <-. destruct (Hend ltac:(lia)) as (ch' & Ec' & Hn).
  assert (ch' = ch2) as -> by congruence. split; [exact I3 |]. exists (set_ref (ref ch2 - 1) ch2).
  destruct (q_frame _ _ _ Hq Any c ch) as (ch3 & Ec3 & Hcore & _); [by apply held_shr, (fd_holder _ n) | done |]. assert (ch3 = ch2) as -> by congruence.
  unfold core in Hcore. split_and!; [| unfold key; cbn; congruence | done]. split_and!.
  - cbn. by rewrite (q_fgrp _ _ _ Hq).
  - apply lookup_insert_eq.
  - cbn. congruence.
  - cbn. by rewrite Hm2.
Qed.
End Reads.
