(* ===== verification/NsToy.v ===== *)
(** * The name space: a small driver

    A driver with a few files, which shows that what is asked of drivers can be
    had, and the state that a process starts from. *)

From S2P Require Import Prelude Styx Rune Name Ns NsInv NsOps NsWalk NsNamec NsFd NsTable NsMount NsGroup NsCalls NsResolve.
Import Ns.

#[local] Open Scope Z_scope.

(** The root has the directories [a] and [b]; [a] has the files [x] and [y], [b]
    has another [x]. *)
Definition root_file : file := (CHDIR, 0, 0).
Definition toy_files (k : file) (name : list Z) : option file :=
  if decide (name = dotdot) then Some (CHDIR, k.1.2, k.2)
  else if decide (k.1.1 = CHDIR) then
    if decide (name = [97]) then Some (CHDIR + 1, k.1.2, k.2) else if decide (name = [98]) then Some (CHDIR + 2, k.1.2, k.2) else None
  else if decide (k.1.1 = CHDIR + 1) then
    if decide (name = [120]) then Some (3, k.1.2, k.2) else if decide (name = [121]) then Some (4, k.1.2, k.2) else None
  else if decide (k.1.1 = CHDIR + 2) then
    if decide (name = [120]) then Some (5, k.1.2, k.2) else None
  else None.

Definition to_file (k : file) (c : Chan) : Chan := MkChan (ref c) k.1.2 k.2 (MkQid k.1.1 0) (flag c) (mode c) (offset c) (mnt c) (mountid c) (u c) (mchan c).

(** The entries of a directory: each byte of an entry is the number of the file. *)
Definition entries_of (p : Z) : list Z :=
  if p =? CHDIR then replicate 116 1 ++ replicate 116 2 else if p =? CHDIR + 1 then replicate 116 3 ++ replicate 116 4 else if p =? CHDIR + 2 then replicate 116 5 else [].

(** A [broken] one does not find parents. *)
Definition toy (broken : bool) : Devices := {|
  devs := unit;
  devno r := if r =? 99 then Some 1 else None;
  d_attach _ t _ := (tt, inr (MkChan 1 t 0 (MkQid CHDIR 0) 0 0 0 None 0 0 None));
  d_clone _ c := (tt, inr c);
  d_walk _ c name :=
    (tt, if broken && bool_decide (name = dotdot) then Refused Enonexist
         else match toy_files (key c) name with Some k => Walked (to_file k c) | None => Missing end);
  d_open _ c omode := (tt, inr (MkChan (ref c) (type c) (dev c) (qid c) (Z.lor (flag c) COPEN) (Z.land omode 3) 0 (mnt c) (mountid c) (u c) (mchan c)));
  d_create _ c _ _ _ := (tt, inl Eperm);
  d_read _ c n off := (tt, inr (c, take (Z.to_nat n) (drop (Z.to_nat off) (entries_of (path (qid c))))));
  d_write _ c bs _ := (tt, inr (c, zlen bs));
  d_stat _ c := (tt, inr (replicate 116 0));
  d_wstat _ _ _ := (tt, inl Eperm);
  d_remove _ _ := (tt, inl Eperm);
  d_close d _ := d
|}.

#[export] Instance toy_laws broken : Laws (toy broken).
Proof.
  split; cbn.
  - by intros _ t _ ch [= <-].
  - by intros _ c ch [= <-].
  - intros _ c name ch. destruct (broken && _); [done |]. destruct (toy_files _ _) as [k |]; [| done]. by intros [= <-].
  - intros _ c omode ch [= <-] Hf. cbn. by rewrite lor_flags.
  - done.
  - by intros _ c n off ch bs [= <- _].
  - by intros _ c bs off ch n [= <- _].
  - intros _ c bs [= <-]. by vm_compute.
Qed.

Lemma toy_firm : firm (D := toy false).
Proof. split; [done |]. intros ds ch. by eexists. Qed.

Lemma toy_clones broken : clones (D := toy broken).
Proof. by intros ds ch e. Qed.

Lemma toy_static : static (D := toy false) toy_files.
Proof.
  split.
  - intros k name k' (ds & ch & ch' & <- & Hw & <-). cbn in Hw. destruct (toy_files (key ch) name) as [k |]; [| done]. injection Hw as <-. by destruct k as [[? ?] ?].
  - intros k name (ds & ch & <- & Hw). cbn in Hw. by destruct (toy_files (key ch) name).
Qed.

Lemma toy_faultless e : ~ Faulty (D := toy false) e.
Proof. intros [(ds & ch & H) | [(ds & ch & name & H) | (ds & t & spec & H)]]; cbn in H; [done | by destruct (toy_files _ _) | done]. Qed.

(** Both the root and [dot] are the root of the driver. *)
Definition toy_chan : Chan := MkChan 1 0 0 (MkQid CHDIR 0) 0 0 0 None 0 0 None.
Definition toy_start (broken : bool) : state (D := toy broken) :=
  MkState (D := toy broken) (<[1 := toy_chan]> {[2 := toy_chan]}) [] 2 (-1) 0 0 (MkPgrp (replicate MNTHASH []) 1 2 false) (MkFgrp (replicate NFD None) 0) [] [] tt.

Lemma toy_start_inv broken : Inv (D := toy broken) [] (toy_start broken).
Proof.
  split.
  - assert (forall c ch, (<[1 := toy_chan]> {[2 := toy_chan]} : gmap Z Chan) !! c = Some ch -> ch = toy_chan /\ (c = 1 \/ c = 2)) as Hl.
    { intros c ch [[<- <-] | [_ [<- <-]%lookup_singleton_Some]]%lookup_insert_Some; auto. }
    assert (forall t c, (t, c) ∈ [(Shr, 1); (Shr, 2)] -> t = Shr /\ (c = 1 \/ c = 2)) as Ht by set_solver.
    change (holders (toy_start broken) ++ []) with [(Shr, 1); (Shr, 2)]. split; cbn.
    + constructor.
    + intros c ch [_ [-> | ->]]%Hl; lia.
    + by intros c ?%not_elem_of_nil.
    + intros t c [-> [-> | ->]]%Ht; exists toy_chan; (split; [done | apply not_elem_of_nil]).
    + intros c ch [-> [-> | ->]]%Hl _; by vm_compute.
    + intros t c ch _ _ [-> _]%Hl. done.
    + intros c [[=] _]%Ht.
  - assert (heads (MkPgrp (replicate MNTHASH []) 1 2 false) = []) as Eh by done. split; cbn; try done.
    + apply Forall_singleton. split; rewrite ?Eh; [done | by intros ? ?%not_elem_of_nil | | constructor].
      intros b l h Hb%list_elem_of_lookup_2 Hh. change (l ∈ replicate MNTHASH (@nil Mhead)) in Hb. apply elem_of_replicate in Hb as [-> _]. by apply not_elem_of_nil in Hh.
    + constructor.
    + by intros m ?%not_elem_of_nil.
    + apply Forall_singleton. split; [done | done |]. intros i c Hi%list_elem_of_lookup_2. change (Some c ∈ replicate NFD (@None Z)) in Hi. apply elem_of_replicate in Hi as [[=] _].
Qed.

(** Paths. *)
Definition cstr (s : list Z) : list Z := s ++ [0].

Lemma cstr_text s : forallb (fun b => (1 <=? b) && (b <=? 255)) s = true -> text (cstr s) s.
Proof.
  intros H. rewrite forallb_forall in H. split; [done |]. split.
  - apply Forall_forall. intros b Hb%list_elem_of_In%H. lia.
  - intros Hb%list_elem_of_In%H. done.
Qed.
