(* ===== verification/NsDemo.v ===== *)
(** * The name space: what the calls do

    The theorems, with a run of the small driver for each. *)

From S2P Require Import Prelude Styx Rune Name Ns NsInv NsOps NsWalk NsNamec NsFd NsTable NsMount NsGroup NsCalls NsResolve NsUnion NsToy.
Import Ns.

#[local] Open Scope Z_scope.

#[local] Instance toy_driver : Devices := toy false.

(** [/], [/a], [/b], [/a/x], [/a/y], [a/x] and [.]. *)
Definition p_root := [47].
Definition p_a := [47; 97].
Definition p_b := [47; 98].
Definition p_ax := [47; 97; 47; 120].
Definition p_ay := [47; 97; 47; 121].
Definition r_ax := [97; 47; 120].

Definition start : state := toy_start false.

(** The state after calls. *)
Fixpoint after (xs : list syscall) (s : state) : option state :=
  match xs with [] => Some s | x :: xs => match exec x s with Ret _ s => after xs s | _ => None end end.
Definition state_after (xs : list syscall) : state := default start (after xs start).

Lemma good_plain s : forallb (fun b => (1 <=? b) && (b <=? 255)) s = true -> s !! 0%nat <> Some 35 -> good_path (cstr s).
Proof.
  intros Ht Hs. exists s. split_and!; [by apply cstr_text | | intros _; exact toy_firm | done].
  intros H. destruct s as [| b s]; [done |]. exfalso. apply Hs. exact H.
Qed.

Lemma after_runs xs s s' : after xs s = Some s' -> (forall x s1, x ∈ xs -> proper s1 x) -> rtc (step) s s'.
Proof.
  revert s. induction xs as [| x xs IH]; intros s; cbn [after]; [intros [= ->]; by constructor |]. destruct (exec x s) as [[] s1 | |] eqn:E; [| done | done].
  intros H Hx. eapply rtc_l; [exists x; split; [apply Hx; by left | exact E] |]. apply IH; [done |]. intros y s2 Hy. apply Hx. by right.
Qed.

Lemma good_names_all es : (good_names es).2 = None -> good_names es = (es, None).
Proof.
  induction es as [| e es IH]; [done |]. cbn [good_names]. destruct (name_error e); [done |]. destruct (good_names es) as [gs x]. cbn in *. intros H. by injection (IH H) as -> ->.
Qed.

Definition plainb (s : list Z) : bool :=
  forallb (fun b => (1 <=? b) && (b <=? 255)) s && negb (bool_decide (s = [])) && negb (bool_decide (92 ∈ s)) && negb (bool_decide (s !! 0%nat = Some 35)) &&
  negb (bool_decide (dotdot ∈ names s)) && match (good_names (names s)).2 with None => true | Some _ => false end.
Lemma plainb_spec s : plainb s = true -> text (cstr s) s /\ plain s.
Proof.
  unfold plainb. rewrite !andb_true_iff, !negb_true_iff, !bool_decide_eq_false. intros [[[[[H1 H2] H3] H4] H5] H6].
  split; [by apply cstr_text |]. split_and!; try done. apply good_names_all. by destruct (good_names _).2.
Qed.

Definition bindings (xs : list syscall) : bool := forallb (fun x => match x with
  | Bind p q _ => match p, q with [], _ | _, [] => false | _, _ => plainb (removelast p) && plainb (removelast q) && bool_decide (p = cstr (removelast p)) && bool_decide (q = cstr (removelast q)) end
  | _ => false end) xs.
(** A state that the start gets to by binding. *)
Lemma bindings_inv xs s : bindings xs = true -> after xs start = Some s -> Inv [] s.
Proof.
  intros Hb Ha. apply (steps_inv (L := toy_laws false) start); [apply toy_start_inv |]. apply (after_runs xs); [done |]. intros x s1 Hx.
  unfold bindings in Hb. rewrite forallb_forall in Hb. apply list_elem_of_In, Hb in Hx. destruct x; try done.
  assert (forall p, plainb (removelast p) = true -> bool_decide (p = cstr (removelast p)) = true -> good_path p) as Hp.
  { intros q H1 ->%bool_decide_eq_true. unfold plainb in H1. rewrite !andb_true_iff, !negb_true_iff, !bool_decide_eq_false in H1. apply good_plain; tauto. }
  destruct new; [done |]. destruct old; [done |]. rewrite !andb_true_iff in Hx. destruct Hx as [[[? ?] ?] ?]. split; by apply Hp.
Qed.

(** ** No call goes wrong *)

(** C5. Whatever calls a process makes on its name space and its descriptors,
    in any order, as long as each is [proper]: every channel has as many
    references as the tables of the groups hold, what has none is on the free
    list, once, and the tables of mounts and of descriptors are in order; the
    next such call returns with that so again: it does not panic, nor go out of
    bounds.  Only a read can follow a pointer to a mount that is gone.  A call is
    proper if its paths are strings, of which the name of a device after [#] fits
    its buffer; if a path with [..] does not start with a device, and drivers do
    not fail to clone a channel or to walk to a parent; if groups are forked where
    drivers do not fail to clone channels; and if the descriptors that [NEWFD]
    keeps are open and listed once.  There is always memory. *)
Theorem name_space_safe {D : Devices} {L : Laws D} s s' : Inv [] s -> rtc step s s' ->
  Inv [] s' /\ forall x, proper s' x -> match exec x s' with Ret _ s'' => Inv [] s'' | Raise _ _ => False | Trap t => t = Stale /\ is_read x end.
Proof.
  intros I Hr. pose proof (steps_inv _ _ I Hr) as I'. split; [done |]. intros x Hx. exact (exec_wp (is_read x) x s' (fun _ s' => Inv [] s') Hx id I' ltac:(done)).
Qed.

Lemma name_space_safe_witness : exists s', rtc (step) start s' /\ Inv [] s' /\
  match exec (Stat (cstr p_ax)) s' with Ret _ s'' => Inv [] s'' | Raise _ _ => False | Trap t => t = Stale /\ is_read (Stat (cstr p_ax)) end.
Proof.
  set (xs := [Bind (cstr p_b) (cstr p_a) 2; Open (cstr p_a) 0; Read 0 232; Chdir (cstr p_a); Dup 0 5; Pctl (Sys_FORKFD + Sys_FORKNS) [] true true; Unmount (cstr []) (cstr p_a); Close 0]).
  assert (rtc (step) start (state_after xs)) as Hr.
  { apply (after_runs xs); [vm_compute; reflexivity |]. intros x s1 Hx. repeat (apply elem_of_cons in Hx as [-> | Hx]); try (by apply not_elem_of_nil in Hx); cbn [proper];
      try exact I; try (apply good_plain; [reflexivity | done]); try (split; apply good_plain; [reflexivity | done | reflexivity | done]).
    split; [apply toy_clones |]. intros [=]. }
  exists (state_after xs). split; [exact Hr |]. destruct (name_space_safe (L := toy_laws false) start (state_after xs) (toy_start_inv false) Hr) as [I1 Hx].
  split; [exact I1 | apply Hx]. cbn [proper]. apply good_plain; [reflexivity | done].
Defined.

(** ** Where names lead *)

(** C6. [namec] leads where the mount table says, for a name that is plain: it
    is not empty, does not start with a device and has no [..], no backslash and
    no bad or overlong element.  From the root or from [dot], every element is
    looked for in the members of the union that is mounted on what the elements
    before lead to, in order, and the first that has it counts; at the end the
    channel is that of the file itself, for [Amount], or, for [Aaccess], of the
    first member of the union mounted on it, and it points to the mounts of all
    of them.  If an element is found nowhere the error is [Enonexist]; the only
    others are those of drivers. *)
Theorem namec_resolves {D : Devices} {L : Laws D} files p str amode s :
  static files -> text p str -> plain str -> amode = Aaccess \/ amode = Amount -> Inv [] s ->
  match namec p amode 0 0 s with
  | Ret c s' => Inv [(Own, c)] s' /\ table s' = table s /\ exists k ch, resolve files s str = Some k /\ chans s' !! c = Some ch /\
      match amode with
      | Aaccess => key ch = top (table s) k /\ exists ms, members s' ch = Some ms /\ entries s' ms = default [] (table s !! k)
      | _ => key ch = k
      end
  | Raise e s' => Inv [] s' /\ table s' = table s /\ (e = Enonexist /\ resolve files s str = None \/ Faulty e)
  | Trap _ => False
  end.
Proof.
  intros Hs Ht Hp Ham I.
  set (Q c s' := Inv [(Own, c)] s' /\ table s' = table s /\ exists k ch, resolve files s str = Some k /\ chans s' !! c = Some ch /\
      match amode with
      | Aaccess => key ch = top (table s) k /\ exists ms, members s' ch = Some ms /\ entries s' ms = default [] (table s !! k)
      | _ => key ch = k
      end).
  set (R e s' := Inv [] s' /\ table s' = table s /\ (e = Enonexist /\ resolve files s str = None \/ Faulty e)).
  assert (wp False (namec p amode 0 0) s Q R) as Hw.
  { eapply namec_at; [done | exact Ht | done | done | exact I | |].
    - intros c k s1 I1 Hq1 Er Hl. pose proof (table_quiet _ _ _ _ I Hq1) as Et. split_and!; [done | done |]. destruct Ham as [-> | ->]; cbn [leads] in Hl.
      + destruct (at_file_members _ _ _ _ I1 Hl) as (ch & ms & Ec & Em & Ek & Ens). rewrite Et in Ek, Ens. exists k, ch. split_and!; try done. by exists ms.
      + unfold key_at in Hl. destruct (chans s1 !! c) as [ch |] eqn:Ec; [| done]. injection Hl as Hl. exists k, ch. by split_and!.
    - intros e s1 I1 Hq1 He. split_and!; [done | by eapply table_quiet | done]. }
  unfold wp in Hw. destruct (namec p amode 0 0 s); [exact Hw | exact Hw | by destruct Hw].
Qed.

(** With [b] bound before [a], [/a/y] is a file of [a]. *)
Lemma namec_resolves_witness :
  let s := state_after [Bind (cstr p_b) (cstr p_a) 1] in
  match namec (cstr p_ay) Aaccess 0 0 s with
  | Ret c s' => Inv [(Own, c)] s' /\ table s' = table s /\ exists k ch, resolve toy_files s p_ay = Some k /\ chans s' !! c = Some ch /\
      key ch = top (table s) k /\ exists ms, members s' ch = Some ms /\ entries s' ms = default [] (table s !! k)
  | Raise e s' => Inv [] s' /\ table s' = table s /\ (e = Enonexist /\ resolve toy_files s p_ay = None \/ Faulty e)
  | Trap _ => False
  end /\ resolve toy_files s p_ay = Some (4, 0, 0).
Proof.
  intros s. assert (Inv [] s) as I by (eapply (bindings_inv [Bind (cstr p_b) (cstr p_a) 1]); vm_compute; reflexivity).
  destruct (plainb_spec p_ay) as [Ht Hp]; [vm_compute; reflexivity |].
  split; [| vm_compute; reflexivity]. apply (namec_resolves (L := toy_laws false) toy_files (cstr p_ay) p_ay Aaccess s toy_static Ht Hp (or_introl eq_refl) I).
Defined.

(** ** Binding *)

(** C7. [kbind] makes the mount table that [bind] describes: if the new name
    leads to [kn] and the old one to [ko], which are both directories or both
    files, files being replaced only, the place of [ko] gets the first member of
    the place of [kn] and, behind it, the others: instead of what was there, or
    before or after it, where it was [ko] itself if nothing was mounted.  Binding
    a file to itself changes nothing.  Otherwise, and if a driver fails, the
    table stays as it was and the result is -1. *)
Theorem kbind_binds {D : Devices} {L : Laws D} files pn po new old flags s :
  static files -> text pn new -> plain new -> text po old -> plain old -> Inv [] s ->
  match kbind pn po flags s with Ret r s' => Inv [] s' /\ binds files s new old flags r s' | _ => False end.
Proof.
  intros Hs Htn Hpn Hto Hpo I.
  pose proof (kbind_at files pn po new old flags [] s (fun r s' => Inv [] s' /\ binds files s new old flags r s') (fun _ _ => False) Hs Htn Hpn Hto Hpo I ltac:(done)) as H.
  unfold wp in H. destruct (kbind pn po flags s); [exact H | done | by destruct H].
Qed.

Lemma kbind_binds_witness :
  match kbind (cstr p_b) (cstr p_a) (MBEFORE + MCREATE) start with Ret r s' => Inv [] s' /\ binds toy_files start p_b p_a (MBEFORE + MCREATE) r s' | _ => False end /\
  map_to_list (table (state_after [Bind (cstr p_b) (cstr p_a) (MBEFORE + MCREATE)])) = [((CHDIR + 1, 0, 0), [((CHDIR + 2, 0, 0), true); ((CHDIR + 1, 0, 0), false)])].
Proof.
  destruct (plainb_spec p_a) as [Hta Hpa]; [vm_compute; reflexivity |]. destruct (plainb_spec p_b) as [Htb Hpb]; [vm_compute; reflexivity |].
  split; [| vm_compute; reflexivity].
  apply (kbind_binds (L := toy_laws false) toy_files (cstr p_b) (cstr p_a) p_b p_a (MBEFORE + MCREATE) start toy_static Htb Hpb Hta Hpa (toy_start_inv false)).
Defined.

(** C33. [kunmount] takes from the place of what the new name leads to the first
    mount of the file that the old name leads to, with the place if that was the
    last, or the whole place if the old name is empty; if there is no such mount
    or name the table stays and the result is -1, and so if a driver fails.
    (Nothing here is mounted from a server, whose mounts are found by their
    connection too.) *)
Theorem kunmount_unmounts {D : Devices} {L : Laws D} files po pn old new s :
  static files -> serverless s -> text po old -> old = [] \/ plain old -> text pn new -> plain new -> Inv [] s ->
  match kunmount po pn s with Ret r s' => Inv [] s' /\ unmounted files s old new r s' | _ => False end.
Proof.
  intros Hs Hsv Hto Hpo Htn Hpn I.
  pose proof (kunmount_at files po pn old new [] s (fun r s' => Inv [] s' /\ unmounted files s old new r s') (fun _ _ => False) Hs Hsv Hto Hpo Htn Hpn I ltac:(done)) as H.
  unfold wp in H. destruct (kunmount po pn s); [exact H | done | by destruct H].
Qed.

Definition no_servers (s : state) : bool :=
  forallb (fun h => forallb (fun m => match chans s !! to m with Some ch => match mchan ch with None => true | Some _ => false end | None => true end) (mount h)) (heads (pgrp s)).
Lemma no_servers_spec s : no_servers s = true -> serverless s.
Proof.
  unfold no_servers. rewrite forallb_forall. intros H h m ch Hh%list_elem_of_In Hm%list_elem_of_In Ec. specialize (H h Hh). rewrite forallb_forall in H. specialize (H m Hm).
  rewrite Ec in H. by destruct (mchan ch).
Qed.

Lemma kunmount_unmounts_witness : let s := state_after [Bind (cstr p_b) (cstr p_a) MAFTER] in
  match kunmount (cstr p_b) (cstr p_a) s with Ret r s' => Inv [] s' /\ unmounted toy_files s p_b p_a r s' | _ => False end /\
  unmount_of toy_files s p_b p_a = Some {[(CHDIR + 1, 0, 0) := [((CHDIR + 1, 0, 0), false)]]}.
Proof.
  intros s. assert (Inv [] s) as I by (eapply (bindings_inv [Bind (cstr p_b) (cstr p_a) MAFTER]); vm_compute; reflexivity).
  destruct (plainb_spec p_a) as [Hta Hpa]; [vm_compute; reflexivity |]. destruct (plainb_spec p_b) as [Htb Hpb]; [vm_compute; reflexivity |].
  split; [| vm_compute; reflexivity].
  apply (kunmount_unmounts (L := toy_laws false) toy_files (cstr p_b) (cstr p_a) p_b p_a s toy_static); try done; [| by right].
  apply no_servers_spec. vm_compute. reflexivity.
Defined.

(** C34. What is bound before a directory and then unmounted leaves no trace:
    the place of every file has the members that it had, so that names lead where
    they led (the table may differ: what had nothing mounted on it is now mounted
    on itself).  So it is if nothing is mounted on the new directory, which is
    another one than the old; if both names are plain and lead after the binding
    where they led before; if nothing is mounted from a server; and if no driver
    fails. *)
Theorem bind_unmount {D : Devices} {L : Laws D} files pn po new old kn ko s r1 s1 r2 s2 :
  static files -> (forall e, ~ Faulty e) -> text pn new -> plain new -> text po old -> plain old ->
  Inv [] s -> resolve files s new = Some kn -> table s !! kn = None -> resolve files s old = Some ko -> kn <> ko -> mountable MBEFORE kn ko = true ->
  kbind pn po MBEFORE s = Ret r1 s1 -> serverless s1 -> resolve files s1 new = Some kn -> resolve files s1 old = Some ko -> kunmount pn po s1 = Ret r2 s2 ->
  r2 = 0 /\ same_places (table s2) (table s) /\ forall k es, descend files (table s2) k es = descend files (table s) k es.
Proof.
  intros Hs Hf Htn Hpn Hto Hpo I En Tn Eo Hne Hm Eb Hsv En1 Eo1 Eu.
  destruct (bind_unmount_at files pn po new old kn ko s r1 s1 r2 s2) as [-> Hp]; try done. split_and!; [done | done |]. intros k es. by rewrite Hp.
Qed.

Lemma bind_unmount_witness : let s1 := state_after [Bind (cstr p_b) (cstr p_a) MBEFORE] in let s2 := state_after [Bind (cstr p_b) (cstr p_a) MBEFORE; Unmount (cstr p_b) (cstr p_a)] in
  resolve toy_files start p_ay = Some (4, 0, 0) /\ same_places (table s2) (table start) /\ table s2 <> table start.
Proof.
  intros s1 s2. destruct (plainb_spec p_a) as [Hta Hpa]; [vm_compute; reflexivity |]. destruct (plainb_spec p_b) as [Htb Hpb]; [vm_compute; reflexivity |].
  assert (exists r1, kbind (cstr p_b) (cstr p_a) MBEFORE start = Ret r1 s1) as [r1 Eb] by (eexists; vm_compute; reflexivity).
  assert (exists r2, kunmount (cstr p_b) (cstr p_a) s1 = Ret r2 s2) as [r2 Eu] by (eexists; vm_compute; reflexivity).
  assert (serverless s1) as Hsv by (apply no_servers_spec; vm_compute; reflexivity).
  split; [vm_compute; reflexivity |]. set (kn := (CHDIR + 2, 0, 0)). set (ko := (CHDIR + 1, 0, 0)).
  assert (resolve toy_files start p_b = Some kn) as H1 by (vm_compute; reflexivity). assert (table start !! kn = None) as H2 by (vm_compute; reflexivity).
  assert (resolve toy_files start p_a = Some ko) as H3 by (vm_compute; reflexivity). assert (kn <> ko) as H4 by (vm_compute; discriminate).
  assert (mountable MBEFORE kn ko = true) as H5 by (vm_compute; reflexivity). assert (resolve toy_files s1 p_b = Some kn) as H6 by (vm_compute; reflexivity).
  assert (resolve toy_files s1 p_a = Some ko) as H7 by (vm_compute; reflexivity).
  destruct (bind_unmount (L := toy_laws false) toy_files (cstr p_b) (cstr p_a) p_b p_a kn ko start r1 s1 r2 s2 toy_static toy_faultless Htb Hpb Hta Hpa (toy_start_inv false) H1 H2 H3 H4 H5 Eb Hsv H6 H7 Eu) as (_ & Hp & _).
  split; [exact Hp |]. intros H%(f_equal (fun T => T !! ko)). vm_compute in H. discriminate H.
Defined.

(** ** Directories *)

(** C35. [kchdir], with a plain name, makes [dot] the directory that the name
    leads to, not what is mounted on it, unless the name is that of the root
    itself: then it is the first member of what is mounted on the root.  It
    changes nothing else: names that start from the root lead where they led, and
    one that starts from [dot] leads on from that directory, which is, but for the
    root, where it led behind the name of the directory.  If that is no
    directory, or leads nowhere, or a driver fails, the result is -1 and nothing
    changes. *)
Theorem kchdir_moves {D : Devices} {L : Laws D} files p str s :
  static files -> text p str -> plain str -> Inv [] s ->
  match kchdir p s with
  | Ret r s' => Inv [] s' /\ table s' = table s /\
      ((exists k, destination files s str = Some k /\ is_set k.1.1 CHDIR = true /\ r = 0 /\ forall q,
          resolve files s' q = (if bool_decide (q !! 0%nat = Some slash) then resolve files s q else descend files (table s) k (names q)) /\
          (root_name str = false -> q !! 0%nat <> Some slash -> resolve files s' q = resolve files s (str ++ slash :: q))) \/
       ((forall k, destination files s str = Some k -> is_set k.1.1 CHDIR = false) \/ exists e, Faulty e) /\ r = -1 /\ forall q, resolve files s' q = resolve files s q)
  | _ => False
  end.
Proof.
  intros Hs Ht Hp I. assert (str <> []) as Hne by (by destruct Hp).
  pose proof (kchdir_at files p str [] s (fun r s' => Inv [] s' /\ (r = 0 /\ moved files s str s' \/
     r = -1 /\ quiet [] s s' /\ ((forall k, destination files s str = Some k -> is_set k.1.1 CHDIR = false) \/ exists e, Faulty e))) (fun _ _ => False) Hs Ht Hp I ltac:(done)) as H.
  unfold wp in H. destruct (kchdir p s) as [r s' | |]; [| done | by destruct H]. destruct H as [I' [[-> Hm] | (-> & Hq & Hno)]]; (split; [done |]).
  - pose proof Hm as (Et & _ & k & Ek & Hd & _). split; [done |]. left. exists k. split_and!; [done | done | done |]. intros q.
    rewrite (moved_resolve _ _ _ _ _ Hm). split; [by rewrite Ek |]. intros Hr Hq. rewrite bool_decide_false by done. by apply destination_resolve.
  - split; [by eapply table_quiet |]. right. split_and!; [done | done |]. intros q. by eapply resolve_quiet.
Qed.

(** With [b] bound before [/], [chdir] to [/] goes to [b], from where [a/x] is not
    found; [chdir] to [a] goes to [a]. *)
Lemma kchdir_moves_witness : let s := state_after [Bind (cstr p_b) (cstr p_root) MBEFORE] in
  match kchdir (cstr p_root) s with
  | Ret r s' => Inv [] s' /\ table s' = table s /\
      ((exists k, destination toy_files s p_root = Some k /\ is_set k.1.1 CHDIR = true /\ r = 0 /\ forall q,
          resolve toy_files s' q = (if bool_decide (q !! 0%nat = Some slash) then resolve toy_files s q else descend toy_files (table s) k (names q)) /\
          (root_name p_root = false -> q !! 0%nat <> Some slash -> resolve toy_files s' q = resolve toy_files s (p_root ++ slash :: q))) \/
       ((forall k, destination toy_files s p_root = Some k -> is_set k.1.1 CHDIR = false) \/ exists e, Faulty e) /\ r = -1 /\ forall q, resolve toy_files s' q = resolve toy_files s q)
  | _ => False
  end /\ destination toy_files s p_root = Some (CHDIR + 2, 0, 0) /\ resolve toy_files s r_ax = Some (3, 0, 0) /\
  resolve toy_files (state_after [Bind (cstr p_b) (cstr p_root) MBEFORE; Chdir (cstr p_root)]) r_ax = None /\
  resolve toy_files (state_after [Chdir (cstr p_a)]) [121] = Some (4, 0, 0).
Proof.
  intros s. assert (Inv [] s) as I by (eapply (bindings_inv [Bind (cstr p_b) (cstr p_root) MBEFORE]); vm_compute; reflexivity).
  destruct (plainb_spec p_root) as [Ht Hp]; [vm_compute; reflexivity |]. split; [| split_and!; vm_compute; reflexivity].
  apply (kchdir_moves (L := toy_laws false) toy_files (cstr p_root) p_root s toy_static Ht Hp I).
Defined.

(** ** Groups *)

(** C36. [pctl] leaves the process with the mount table it had, copied or not, or
    with none after [NEWNS]; devices cannot be named after [NODEVS], and can
    again after [NEWNS], by a process that had given that up too. *)
Theorem pctl_names {D : Devices} {L : Laws D} flags movefd shared_fd shared_ns s : clones -> movable flags (fgrp s) movefd -> Inv [] s ->
  match Sys_pctl flags movefd shared_fd shared_ns s with
  | Ret _ s' => Inv [] s' /\ table s' = (if is_set flags Sys_NEWNS then ∅ else table s) /\
      nodevs (pgrp s') = is_set flags Sys_NODEVS || (negb (is_set flags Sys_NEWNS) && nodevs (pgrp s))
  | _ => False
  end.
Proof.
  intros Hc Hm I. set (Q := fun (_ : unit) s' => Inv [] s' /\ table s' = (if is_set flags Sys_NEWNS then ∅ else table s) /\
      nodevs (pgrp s') = is_set flags Sys_NODEVS || (negb (is_set flags Sys_NEWNS) && nodevs (pgrp s))).
  assert (wp False (Sys_pctl flags movefd shared_fd shared_ns) s Q (fun _ _ => False)) as H by (apply (sys_pctl_wp False flags movefd shared_fd shared_ns [] s); try done; by intros s' ? ? ?; split_and!).
  unfold wp in H. destruct (Sys_pctl flags movefd shared_fd shared_ns s); [exact H | done | by destruct H].
Qed.

Lemma pctl_names_witness : let s := state_after [Bind (cstr p_b) (cstr p_a) MBEFORE; Pctl Sys_NODEVS [] false false] in nodevs (pgrp s) = true /\
  match Sys_pctl Sys_NEWNS [] false false s with Ret _ s' => Inv [] s' /\ table s' = ∅ /\ nodevs (pgrp s') = false | _ => False end.
Proof.
  intros s. split; [vm_compute; reflexivity |].
  assert (Inv [] s) as I.
  { apply (steps_inv (L := toy_laws false) start); [apply toy_start_inv |]. eapply (after_runs [Bind (cstr p_b) (cstr p_a) MBEFORE; Pctl Sys_NODEVS [] false false]); [vm_compute; reflexivity |].
    intros x s1 Hx. apply elem_of_cons in Hx as [-> | ->%list_elem_of_singleton]; cbn [proper]; [split; apply good_plain; [reflexivity | done | reflexivity | done] |].
    split; [apply toy_clones |]. intros [=]. }
  assert (movable Sys_NEWNS (fgrp s) []) as Hm by (intros H; vm_compute in H; discriminate H).
  apply (pctl_names (L := toy_laws false) Sys_NEWNS [] false false s (toy_clones false) Hm I).
Defined.

(** C37. The descriptors after [pctl]: with [NEWFD] those that were listed, and no
    others; with [FORKFD] all of them, as they were.  The group that the process
    leaves, if others are in it, keeps its descriptors, except that with [FORKFD]
    those listed are closed there, not in the process's own group. *)
Theorem pctl_descriptors {D : Devices} {L : Laws D} flags movefd (shared : bool) s : movable flags (fgrp s) movefd -> Inv [] s ->
  match pctl_fd flags movefd shared s with
  | Ret _ s' => Inv [] s' /\
      (forall n, fd_at (fgrp s') n =
        (if is_set flags Sys_NEWFD then if decide (n ∈ movefd) then fd_at (fgrp s) n else None else fd_at (fgrp s) n)) /\
      (is_set flags Sys_NEWFD || is_set flags Sys_FORKFD = true -> exists g, fgrps s' = fgrps s ++ (if shared then [g] else []) /\
        forall n, fd_at g n = (if negb (is_set flags Sys_NEWFD) && bool_decide (n ∈ movefd) then None else fd_at (fgrp s) n))
  | _ => False
  end.
Proof.
  intros Hm I. set (Q := fun (_ : unit) s' => Inv [] s' /\
      (forall n, fd_at (fgrp s') n =
        (if is_set flags Sys_NEWFD then if decide (n ∈ movefd) then fd_at (fgrp s) n else None else fd_at (fgrp s) n)) /\
      (is_set flags Sys_NEWFD || is_set flags Sys_FORKFD = true -> exists g, fgrps s' = fgrps s ++ (if shared then [g] else []) /\
        forall n, fd_at g n = (if negb (is_set flags Sys_NEWFD) && bool_decide (n ∈ movefd) then None else fd_at (fgrp s) n))).
  assert (wp False (pctl_fd flags movefd shared) s Q (fun _ _ => False)) as H.
  { apply (pctl_fd_wp False flags movefd shared [] s); [done | done |]. intros s' I' _ _ Hnew Hfork Hno Hleft. split_and!; [done | |].
    - intros n. destruct (is_set flags Sys_NEWFD); [by apply Hnew |]. destruct (is_set flags Sys_FORKFD); [by rewrite Hfork | by rewrite Hno].
    - intros (g & Hg & Es)%Hleft. exists g. split; [done |]. unfold leaves in Hg. intros n. destruct (is_set flags Sys_NEWFD); [by rewrite Hg |].
      rewrite (Hg n). cbn. destruct (decide (n ∈ movefd)); [by rewrite bool_decide_true | by rewrite bool_decide_false]. }
  unfold wp in H. destruct (pctl_fd flags movefd shared s); [exact H | done | by destruct H].
Qed.

Lemma pctl_descriptors_witness : let s := state_after [Open (cstr p_a) 0] in
  match pctl_fd Sys_FORKFD [0] true s with
  | Ret _ s' => Inv [] s' /\ (forall n, fd_at (fgrp s') n = fd_at (fgrp s) n) /\
      exists g, fgrps s' = fgrps s ++ [g] /\ forall n, fd_at g n = (if bool_decide (n ∈ [0]) then None else fd_at (fgrp s) n)
  | _ => False end /\ fd_at (fgrp s) 0 = Some 3.
Proof.
  intros s. split; [| vm_compute; reflexivity].
  assert (Inv [] s) as I.
  { apply (steps_inv (L := toy_laws false) start); [apply toy_start_inv |]. eapply (after_runs [Open (cstr p_a) 0]); [vm_compute; reflexivity |].
    intros x s1 ->%list_elem_of_singleton. apply good_plain; [reflexivity | done]. }
  assert (movable Sys_FORKFD (fgrp s) [0]) as Hm by (intros H; vm_compute in H; discriminate H).
  pose proof (pctl_descriptors (D := toy_driver) (L := toy_laws false) Sys_FORKFD [0] true s Hm I) as H.
  revert H. destruct (pctl_fd Sys_FORKFD [0] true s) as [[] s' | |]; [| done | done]. intros (H1 & H2 & H3). split; [exact H1 |]. split; [exact H2 |]. exact (H3 eq_refl).
Defined.

(** C38. [pctl] with [NEWFD] and a list that has a descriptor that is not open, in
    any state that calls lead to: it follows a null pointer, or a word that is not
    of the table of descriptors. *)
Theorem pctl_newfd_faults {D : Devices} {L : Laws D} flags movefd shared_fd shared_ns s :
  Inv [] s -> is_set flags Sys_NEWFD = true -> Exists (fun n => fd_at (fgrp s) n = None) movefd ->
  Sys_pctl flags movefd shared_fd shared_ns s = Trap Overrun.
Proof.
  intros I Hf Hx. assert (pctl_fd flags movefd shared_fd s = Trap Overrun) as E; [| unfold Sys_pctl, mbind, m_bind; by rewrite E].
  pose proof I as [_ [Hmem _ _ _ _]]. pose proof (inv_fds _ _ I) as [_ [Hmax _] _].
  assert (malloc s = Ret tt s) as Em.
  { unfold malloc, gets, mbind, m_bind. destruct (Z.eqb_spec (mem s) 0), (Z.ltb_spec (mem s) 0); done || lia. }
  unfold pctl_fd, newfgrp, gets, mbind, m_bind. rewrite Hf, Em. unfold mret, m_ret. rewrite keep_fds_traps; [done | lia | | done].
  intros n c Hc%fd_holder. destruct (inv_get _ _ Any c I) as (ch & Ec & _); [by apply held_shr | by rewrite Ec].
Qed.

Lemma pctl_newfd_faults_witness : fd_at (fgrp start) 5 = None /\ Sys_pctl Sys_NEWFD [5] false false start = Trap Overrun.
Proof.
  split; [vm_compute; reflexivity |].
  apply (pctl_newfd_faults (L := toy_laws false)); [apply toy_start_inv | vm_compute; reflexivity | apply Exists_cons; left; vm_compute; reflexivity].
Defined.

(** ** Reading a union *)

(** C39. A descriptor of a union, in any state that calls lead to, whose channel
    points to a mount that no table has any more, since it was unmounted: a read
    of it that is long enough for an entry follows that pointer. *)
Theorem read_after_unmount {D : Devices} {L : Laws D} n c ch p count s :
  Inv [] s -> readable s n c ch -> is_set (path (qid ch)) CHDIR = true -> offset ch mod DIRLEN = 0 -> whole count <> 0 ->
  mnt ch = Some p -> gone s p -> kread n count s = Trap Stale.
Proof. apply read_gone. Qed.

Definition goneb (s : state) (p : Z) : bool := forallb (fun h => forallb (fun m => negb (addr m =? p)) (mount h)) (all_heads s).
Lemma goneb_spec s p : goneb s p = true -> gone s p.
Proof.
  unfold goneb. rewrite forallb_forall. intros H h m Hh%list_elem_of_In Hm%list_elem_of_In Ha. specialize (H h Hh). rewrite forallb_forall in H. specialize (H m Hm).
  rewrite Ha, Z.eqb_refl in H. done.
Qed.

(** A state after calls with plain paths. *)
Lemma proper_inv xs s : after xs start = Some s -> (forall x s1, x ∈ xs -> proper s1 x) -> Inv [] s.
Proof. intros Ha Hx. apply (steps_inv (L := toy_laws false) start); [apply toy_start_inv |]. by apply (after_runs xs). Qed.

(** The directory [a], with [b] behind it, is opened, and what is mounted on it
    unmounted. *)
Lemma read_after_unmount_witness :
  kread 0 116 (state_after [Bind (cstr p_b) (cstr p_a) MAFTER; Open (cstr p_a) OREAD; Unmount (cstr []) (cstr p_a)]) = Trap Stale.
Proof.
  set (xs := [Bind (cstr p_b) (cstr p_a) MAFTER; Open (cstr p_a) OREAD; Unmount (cstr []) (cstr p_a)]). set (s := state_after xs).
  assert (Inv [] s) as I.
  { apply (proper_inv xs); [vm_compute; reflexivity |]. intros x s1 Hx. repeat (apply elem_of_cons in Hx as [-> | Hx]); try (by apply not_elem_of_nil in Hx);
      cbn [proper]; try (apply good_plain; [reflexivity | done]); split; apply good_plain; done || reflexivity. }
  assert (exists c ch p, fd_at (fgrp s) 0 = Some c /\ chans s !! c = Some ch /\ mnt ch = Some p /\ goneb s p = true /\ is_set (flag ch) CMSG = false /\
    mode ch = OREAD /\ is_set (path (qid ch)) CHDIR = true /\ offset ch mod DIRLEN = 0) as (c & ch & p & En & Ec & Ep & Eg & Ef & Em & Ed & Eo).
  { do 3 eexists. split; [vm_compute; reflexivity |]. split; [vm_compute; reflexivity |]. split_and!; vm_compute; reflexivity. }
  apply (read_after_unmount (D := toy_driver) (L := toy_laws false) 0 c ch p 116 s I); [| exact Ed | exact Eo | vm_compute; discriminate | exact Ep | by apply goneb_spec].
  split; [exact En |]. split; [exact Ec |]. split; [exact Ef | left; exact Em].
Defined.

(** The numbers of the files whose entries come. *)
Definition listed (r : result (Z * list Z)) : option (list Z) :=
  match r with Ret (n, bs) _ => Some (map (fun i => nth (116 * i) bs 0) (seq 0 (Z.to_nat (n / 116)))) | _ => None end.

(** C40. Once a read of a union has come to the end of the last member, which is
    when it gets less than it asked for, the channel, which is that of the first
    member, has forgotten the union: every next read is one of the first member
    again, by itself, from whatever offset the channel was left with. *)
Theorem union_read_repeats {D : Devices} {L : Laws D} n c ch p count r bs s s' :
  Inv [] s -> readable s n c ch -> is_set (path (qid ch)) CHDIR = true -> mnt ch = Some p -> current s ch ->
  kread n count s = Ret (r, bs) s' -> 0 <= r < whole count ->
  exists ch', readable s' n c ch' /\ key ch' = key ch /\ mnt ch' = None /\
    forall count2, exists s'', kread n count2 s' = Ret (driver_read s' ch' count2) s''.
Proof.
  intros I Hr Hd Hp Hcur Hk Hlt. destruct (read_end _ _ _ _ _ _ _ _ _ _ I Hr Hd Hp Hcur Hk Hlt) as (I' & ch' & Hr' & Ek & Hn). exists ch'. split_and!; [done | done | done |].
  intros count2. destruct (read_single [] s' n c ch' count2 I' Hr') as (s'' & E & _); [| done | by exists s'']. unfold key in Ek. congruence.
Qed.

(** With [b] bound after [a], a read has the entries of [x], [y] and the other
    [x], and the next has [y] again. *)
Lemma union_read_repeats_witness :
  let s := state_after [Bind (cstr p_b) (cstr p_a) MAFTER; Open (cstr p_a) OREAD] in
  listed (kread 0 1160 s) = Some [3; 4; 5] /\
  exists r s', kread 0 1160 s = Ret r s' /\ listed (kread 0 1160 s') = Some [4] /\
    exists c ch', readable s' 0 c ch' /\ mnt ch' = None /\ forall count, exists s'', kread 0 count s' = Ret (driver_read s' ch' count) s''.
Proof.
  set (xs := [Bind (cstr p_b) (cstr p_a) MAFTER; Open (cstr p_a) OREAD]). intros s.
  assert (Inv [] s) as I.
  { apply (proper_inv xs); [vm_compute; reflexivity |]. intros x s1 Hx. repeat (apply elem_of_cons in Hx as [-> | Hx]); try (by apply not_elem_of_nil in Hx);
      cbn [proper]; try (apply good_plain; [reflexivity | done]); split; apply good_plain; done || reflexivity. }
  split; [vm_compute; reflexivity |].
  assert (exists r bs s', kread 0 1160 s = Ret (r, bs) s' /\ r = 348 /\ listed (kread 0 1160 s') = Some [4]) as (r & bs & s' & E & Er & El).
  { do 3 eexists. split; [vm_compute; reflexivity |]. split; vm_compute; reflexivity. }
  exists (r, bs), s'. split; [exact E |]. split; [exact El |].
  assert (exists c ch p m ms, fd_at (fgrp s) 0 = Some c /\ chans s !! c = Some ch /\ mnt ch = Some p /\ members s ch = Some (m :: ms) /\ mountid ch = m_id m /\
    is_set (flag ch) CMSG = false /\ mode ch = OREAD /\ is_set (path (qid ch)) CHDIR = true) as (c & ch & p & m & ms & En & Ec & Ep & Em & Ei & Ef & Emd & Ed).
  { do 5 eexists. split; [vm_compute; reflexivity |]. split; [vm_compute; reflexivity |]. split_and!; vm_compute; reflexivity. }
  destruct (union_read_repeats (D := toy_driver) (L := toy_laws false) 0 c ch p 1160 r bs s s' I) as (ch' & Hr' & _ & Hn & Hnext); [| exact Ed | exact Ep | | exact E | | exists c, ch'; split; [exact Hr' | split; [exact Hn | exact Hnext]]].
  - split; [exact En |]. split; [exact Ec |]. split; [exact Ef | left; exact Emd].
  - intros f fs. rewrite Em. by intros [= <- <-].
  - subst r. vm_compute. split; [intros [=] | reflexivity].
Defined.
